(* ===== verification/_CoqProject ===== *)
-Q . S2P
Prelude.v
Scalars.v
Dgesv.v
DgesvExact.v
DgesvMain.v
WordFM.v
Ssort.v
XArray.v
PoolAlloc.v
OSet.v
McShadow.v
McAccess.v
McPerms.v
Lanes.v
VexIR.v
IrFold.v
IrFoldConst.v
IrFoldSound.v
IrStmt.v
IrCprop.v
IrDead.v
Amd64Flags.v
Amd64Spec.v
Simd64.v
Simd128.v
RangeMap.v
HashTable.v
SparseWA.v
SeqMatch.v
LibcStr.v
LibcMem.v
CgSim.v
VectorClock.v
