(* ===== verification/Prelude.v ===== *)
(** * A verification of the linear solver and of core parts of Valgrind

    The repository holds a small program, a dense linear solver that is compared
    with LAPACK and timed ([src/*.c], [src/task1]), and the sources of Valgrind
    3.22.0 ([src/task3/valgrind-3.22.0], "vg/" below), the tool it is profiled
    with. Modelled are the whole own program and, of Valgrind, the data
    structures and library routines its core and tools are built on, the helpers that translated
    code calls for vector and decimal instructions, its intermediate representation with
    three passes of the optimiser, the flags of amd64 and their specialisation, the shadow memory of Memcheck
    with its loads and stores, the cache and branch
    simulation of Cachegrind and the vector clocks of DRD. The
    platform is amd64 Linux: [int] has 32 bits, [long] and pointers 64.

    ** Files

    - [Prelude]: outcomes of C code, words, arrays, loops, and the lemmas and
      tactics about them.
    - [Scalars]: the numbers of the solvers. Class [Scalar] has the operations
      that the sources use on [double]; binary64 and the rationals are
      instances, and [ExactScalar] adds the laws of exact arithmetic.
    - [Dgesv]: [src/dgesv.c], [src/dgesv-optimal1.c], [src/task1/dgesv.c].
      [my_dgesv] is made of [pivot_swap] and [elim_below] for each column of the
      elimination and of [back_iter] for each row of the substitution. The
      OpenMP loop over the right-hand sides is modelled twice: as a list of
      columns in the order they are run, and as a step relation [omp_step] in
      which threads interleave row by row.
    - [DgesvExact]: linear systems as functions, and what the solvers return in
      exact arithmetic.
    - [DgesvMain]: [src/main.c], [src/timer.c]. The allocator, [rand], LAPACK and
      the clock are parameters.
    - [WordFM]: vg/coregrind/m_wordfm.c, AVL trees from words to words, the
      iterator with its bounded stack, and bags.
    - [Ssort]: the quicksort of vg/coregrind/m_libcbase.c, on lists of elements
      compared by a function of the client.
    - [XArray]: vg/coregrind/m_xarray.c, expandable arrays, sorted by [ssort] of
      [Ssort]. The class [IndexedArray] with its laws is what clients rely on.
    - [PoolAlloc]: vg/coregrind/m_poolalloc.c, pools of elements of one size. The
      list of free elements is threaded through their own first words.
    - [OSet]: vg/coregrind/m_oset.c, ordered sets of elements, AVL trees with a
      comparison of the client or of keys as words. The class [KeyedSet] with its
      laws is what clients rely on.
    - [McShadow]: vg/memcheck/mc_main.c, the shadow memory: secondary maps of two
      bits for each byte, shared until they are written, found through the primary map or
      the auxiliary maps (a front cache before an ordered set), and the table of V
      bits of partially defined bytes with its garbage collection. A state monad over
      [outcome] threads the state [mc]; [wp] is its logic of postconditions.
    - [McAccess]: the loads and stores of mc_main.c that translated code calls, of
      1 to 32 bytes, fast and slow paths.
    - [McPerms]: the permissions of address ranges of mc_main.c, whole secondary maps
      at a time, the copying of the state of ranges, and the handlers that follow the
      stack pointer.
    - [Lanes], [Simd64], [Simd128]: vg/VEX/priv/host_generic_simd64.c and
      host_generic_simd128.c, the operations on vectors of 32, 64 and 128 bits,
      BCD and densely packed decimal, ARM division. [Lanes] splits words into
      lanes and has the specifications; the operations are written with shifts
      and masks as in C.
    - [VexIR]: vg/VEX/pub/libvex_ir.h, vg/VEX/priv/ir_defs.c: types, constants,
      operators and expressions of the intermediate representation, the type checker
      [tcExpr] and the meaning [eval]. Guest state, memory, helpers and the operators
      that are not listed are a parameter, the class [Machine].
    - [IrFold], [IrFoldConst], [IrFoldSound]: the comparison and folding of expressions
      of vg/VEX/priv/ir_opt.c; the array [env] of bindings is a finite map from
      temporaries to expressions.
    - [IrStmt]: libvex_ir.h and ir_defs.c again: statements and blocks, the checks of
      [sanityCheckIRSB] and the meaning [exec_IRSB] of a block. What statements do to the
      guest state and to memory is a parameter, the class [Effects].
    - [IrCprop]: ir_opt.c, [cprop_BB]: the propagation of copies and constants, which folds
      with [IrFold].
    - [IrDead]: ir_opt.c, [do_deadcode_BB]: the removal of dead code.
    - [Amd64Flags]: vg/VEX/priv/guest_amd64_helpers.c, the computation of the flags from
      the thunk, the carry, the conditions, and the flags of the guest state. The
      specification [flags_after] says what each instruction does to the flags, in terms
      of numbers.
    - [Amd64Spec]: the same file, [guest_amd64_spechelper]: expressions of [VexIR] in
      place of calls of the functions of [Amd64Flags].
    - [RangeMap]: vg/coregrind/m_rangemap.c, proved against that class, which
      [XArray] implements.
    - [HashTable]: vg/coregrind/m_hashtable.c. The nodes are cells of a heap,
      linked through their [next], since clients own them.
    - [SparseWA]: vg/coregrind/m_sparsewa.c, trees of eight levels indexed by the
      bytes of a word.
    - [SeqMatch]: vg/coregrind/m_seqmatch.c, wildcard matching.
    - [LibcStr], [LibcMem]: vg/coregrind/m_libcbase.c, Valgrind's C library
      (strings and numbers; memory, logarithms, checksum).
    - [CgSim]: vg/cachegrind/cg_sim.c, cg_branchpred.c, cg_arch.c. It uses
      [strtoll10] of [LibcStr] for the options and [log2] of [LibcMem].
    - [VectorClock]: vg/drd/drd_vc.c, drd_vc.h.

    ** How code is translated

    A function becomes a function that takes the state it reads and returns the
    state it writes, in the monad [outcome]: [Ret] of a result, or a [Fault] for
    what stops the program or is undefined (a failed assertion, a dereference of
    NULL, an access outside an array or to memory not yet written, a signed
    overflow). Definitions keep the names of the C functions; a loop that is not
    a plain counting loop is a fixpoint of its own next to the function. Words
    are integers: unsigned arithmetic wraps with [u32] and [u64], signed
    arithmetic is checked with [int_]. Matrices and blocks of memory are lists
    with a C index. All definitions compute, and the witnesses at the end of
    each file evaluate them.

    ** What is shown

    - Solvers: memory safety, absence of [int] overflow and termination for every
      number type, hence for binary64 ([my_dgesv_total]); the order and the
      interleaving of the threads do not matter
      ([my_dgesv_schedule_irrelevant], [omp_interleaving_deterministic],
      [my_dgesv_optimal1_agrees]); in exact arithmetic 0 is returned with the
      only solution in [b] and a singular matrix is refused
      ([my_dgesv_solves], [my_dgesv_singular]); the
      rounding of binary64 is not bounded. The driver reports success if and only if the
      results of both solvers are nearly equal ([main_compares]); its comparison compares
      nothing from 65536 rows on ([check_result_wraps]).
    - Containers: each operation refines the obvious operation on a sorted list,
      a list, or a function on words, and keeps the invariant (balance and order
      of a tree, capacity of an array, a merged cover of the address space);
      iteration visits everything once and in order below 9,227,464 entries and
      may overflow its stack from there ([iteration_in_order],
      [iterator_stack_overflow]). An ordered set is the strictly sorted list of its
      elements ([oset_refines], [oset_iteration]; the magic number of a node is checked
      where the code does), and a pool hands out distinct
      elements and takes them back ([pool_allocates]). A hash table is the set of its nodes, and all
      that can be reached by its operations is well formed
      ([hashtable_refines_set], [reachable_table_ok]); a traversal may remove
      nodes on its way ([hashtable_iteration]). A sparse array is a map, and its
      iterator never overflows ([sparsewa_refines_map], [sparsewa_iteration]).
    - Sorting: [ssort] terminates with a sorted permutation within the array, with
      a recursion of logarithmic depth, for any total preorder ([ssort_sorts]).
    - Vectors: the masks and shifts compute lane by lane what the name of the
      operation says ([simd_lanewise], [simd_rearranges], [simd128_operations]);
      packed decimals decode to what was encoded ([bcd_dpb_roundtrip]); the ARM
      divisions never trap ([arm_division_total]); one multiplication overflows unless the
      signed products fit ([Mul32x2_overflow]).
    - Folding: what [fold_Expr] returns is well typed and has the value of its argument
      wherever that has one ([fold_Expr_sound]); without constants of the kinds F32i and F64i
      it returns but for two cases, an overflow and a panic ([fold_Expr_returns]). The bindings are assumed to be flat,
      well typed, not circular, and to hold of the temporaries.
    - Blocks: for whatever effects statements have, propagation and the removal of dead
      code give blocks that do what the given block does from every state
      ([cprop_BB_sound], which discharges the assumptions on the bindings, and
      [do_deadcode_BB_sound]). Both return on checked blocks ([cprop_BB_returns], which also
      counts the guarded loads that become loads, and [do_deadcode_BB_thorough], which
      says what each of its two passes leaves). A dirty call
      that is never made and should write its pattern to a temporary is an exception
      ([dead_call_loses_write]). Checked means [sanityCheckIRSB] and the definition of the
      temporaries it does not look at ([checked_IRSB]).
    - Flags: from the thunk of an instruction the helpers compute the flags that the
      processor's manual defines ([rflags_architectural], with the overflow of the
      16-bit multiplication in [int]); after a comparison the conditions are the orders
      of numbers ([condition_after_compare]); storing and reading the flags is a round
      trip ([rflags_roundtrip]). Every specialised expression has the value of the call
      it replaces ([spechelper_sound]).
    - Library: number parsing is exact or refuses, the comparisons order, the
      searches find the first place, copies have the effect of reading first and
      writing then, the checksum is the mathematical one.
    - Memcheck: the shadow memory is a function from addresses to no access or eight
      V bits ([shadow_byte_refines]), which garbage collection does not change
      ([gc_keeps_vbits]); loads give the V bits of the bytes, stores write them, and
      errors are reported where the rules say so ([loads_refine], [stores_refine]), but
      twice by stores of two bytes ([store16_reports_twice]). Setting the permissions of
      a range, copying its state and following the stack pointer change exactly the
      bytes they should ([range_perms_refine], [copy_state_refines],
      [stack_helpers_refine]); ranges are assumed not to wrap around.
    - Cachegrind: a set of a cache is a list of its most recently used blocks
      ([setref_lru]), a checked configuration never fails ([checked_cache_safe]),
      more ways never miss more often ([more_ways_fewer_misses]).
    - DRD: combining clocks is the least upper bound of the happens-before order,
      which [vc_lte] decides; [vc_min] is not the minimum ([vc_min_clears]).

    ** Fuel and bounds

    Where recursion is not on the structure of data a fixpoint has fuel, and the
    operation that starts it passes an amount that the theorems prove enough:
    [remove_fuel] (twice the height of the tree, and one), [next_fuel] (the stack
    and two), three visits for each node when an ordered set is destroyed, one step for each node of the
    table that Memcheck collects, for the loops over a range the length divided by the
    step (and one), the number of elements for the searches of [XArray], [RangeMap]
    and [VectorClock], one step per cell for the copying loops of [LibcMem], the
    size of the heap for a walk along a chain of [HashTable], eight levels and the
    height of the stack for the iterator of [SparseWA]. [ssort] has one bound for
    the depth of its recursion ([qsort_depth]) and one for its jumps back.
    [sameIRExprs] nests at most 32 calls, since each counts one node, and [chase]
    follows at most as many temporaries as there are bindings, and one.
    [generic_match] takes its fuel as an argument; the theorem on it gives
    the amount. Sizes of arrays are assumed to be what fits in memory where the
    theorems say so.

    ** What is left out

    Formatted output, files, signals, system calls, the scheduler and the binary
    translation of Valgrind (interfaces to the operating system or to client
    code), the rest of the tools, and third-party code. Of Memcheck, origin tracking,
    leak check and instrumentation. Of the optimiser of VEX, flattening, redundant loads
    and stores of the guest state, common subexpressions, unrolling and tree building.
    The word sets of Helgrind, the bitmaps of DRD and the deduplicating pools of the core
    would be the next to model. *)

From Stdlib Require Export ZArith Lia Bool Sorted.
From stdpp Require Export base tactics numbers list option sets relations.
Local Open Scope Z_scope.

(** * Outcomes of C code

    A call either returns a value or stops: on a failed [vg_assert] or
    [tl_assert], on a dereference of NULL, on an access outside an array, on
    a signed overflow, on a deliberate panic or a division by zero, or because the fuel that bounds
    a loop of the model ran out (which the theorems exclude). *)

Inductive fault :=
  | AssertFail
  | NullDeref
  | OutOfBounds
  | IntOverflow
  | Panic
  | OutOfFuel.

#[global] Instance fault_eq_dec : EqDecision fault.
Proof. solve_decision. Defined.

Inductive outcome (A : Type) :=
  | Ret (a : A)
  | Fault (f : fault).
Arguments Ret {A} a.
Arguments Fault {A} f.

#[global] Instance outcome_eq_dec `{EqDecision A} : EqDecision (outcome A).
Proof. solve_decision. Defined.

#[global] Instance outcome_ret : MRet outcome := @Ret.

#[global] Instance outcome_bind : MBind outcome :=
  fun A B k m => match m with Ret a => k a | Fault f => Fault f end.

#[global] Instance outcome_fmap : FMap outcome :=
  fun A B k m => match m with Ret a => Ret (k a) | Fault f => Fault f end.

Definition returns {A} (m : outcome A) : bool :=
  match m with Ret _ => true | Fault _ => false end.

(** [vg_assert] / [tl_assert]. *)
Definition vg_assert (b : bool) : outcome unit :=
  if b then Ret tt else Fault AssertFail.

(** ** Fixed-width integers *)

Definition wrap (w z : Z) : Z := z mod 2 ^ w.
Definition swrap (w z : Z) : Z := (z + 2 ^ (w - 1)) mod 2 ^ w - 2 ^ (w - 1).
Definition u8 : Z -> Z := wrap 8.
Definition u16 : Z -> Z := wrap 16.
Definition u32 : Z -> Z := wrap 32.
Definition u64 : Z -> Z := wrap 64.
Definition s8 : Z -> Z := swrap 8.
Definition s16 : Z -> Z := swrap 16.
Definition s32 : Z -> Z := swrap 32.
Definition s64 : Z -> Z := swrap 64.

Definition INT_MIN : Z := -2147483648.
Definition INT_MAX : Z := 2147483647.
Definition UINT_MAX : Z := 4294967295.
Definition UWORD_MAX : Z := 18446744073709551615.

(** A signed [int] result: overflow is undefined behaviour. *)
Definition int_ (z : Z) : outcome Z :=
  if (INT_MIN <=? z) && (z <=? INT_MAX) then Ret z else Fault IntOverflow.
(** A [long] result. *)
Definition long_ (z : Z) : outcome Z :=
  if (- 2 ^ 63 <=? z) && (z <? 2 ^ 63) then Ret z else Fault IntOverflow.

(** ** Arrays with a C index *)

Definition arr_get {A} (l : list A) (i : Z) : outcome A :=
  if i <? 0 then Fault OutOfBounds
  else match l !! Z.to_nat i with Some x => Ret x | None => Fault OutOfBounds end.

Definition arr_set {A} (l : list A) (i : Z) (x : A) : outcome (list A) :=
  if (0 <=? i) && (i <? Z.of_nat (length l)) then Ret (<[Z.to_nat i := x]> l)
  else Fault OutOfBounds.

(** Copy [n] cells within a block; the old cells are read first. *)
Definition blit {A} (l : list A) (dst src n : Z) : outcome (list A) :=
  if (0 <=? dst) && (0 <=? src) && (0 <=? n) &&
     (dst + n <=? Z.of_nat (length l)) && (src + n <=? Z.of_nat (length l)) then
    Ret (take (Z.to_nat dst) l ++ take (Z.to_nat n) (drop (Z.to_nat src) l) ++
         drop (Z.to_nat (dst + n)) l)
  else Fault OutOfBounds.

(** ** Loops

    [for_list] runs the body over the given indices in order; [for_up lo hi]
    is [for (i = lo; i < hi; i++)] and [for_down hi lo] is
    [for (i = hi - 1; i >= lo; i--)]. *)
Fixpoint for_list {I S} (ixs : list I) (body : I -> S -> outcome S) (s : S) : outcome S :=
  match ixs with
  | [] => Ret s
  | i :: ixs' => s' ← body i s; for_list ixs' body s'
  end.

Definition for_up {S} (lo hi : Z) (body : Z -> S -> outcome S) (s : S) : outcome S :=
  for_list (seqZ lo (hi - lo)) body s.

Definition for_down {S} (hi lo : Z) (body : Z -> S -> outcome S) (s : S) : outcome S :=
  for_list (reverse (seqZ lo (hi - lo))) body s.

(** * Tactics *)

Create HintDb corelib discriminated.
#[export] Hint Constants Opaque : corelib.

(** Turn the boolean comparisons of the code into propositions. *)
Ltac b2p :=
  repeat match goal with
  | H : (_ && _)%bool = true |- _ => apply andb_true_iff in H; destruct H
  | H : (_ || _)%bool = false |- _ => apply orb_false_iff in H; destruct H
  | H : (_ && _)%bool = false |- _ => apply andb_false_iff in H
  | H : (_ || _)%bool = true |- _ => apply orb_true_iff in H
  | H : negb _ = true |- _ => apply negb_true_iff in H
  | H : negb _ = false |- _ => apply negb_false_iff in H
  | H : (_ <? _)%Z = true |- _ => apply Z.ltb_lt in H
  | H : (_ <? _)%Z = false |- _ => apply Z.ltb_ge in H
  | H : (_ <=? _)%Z = true |- _ => apply Z.leb_le in H
  | H : (_ <=? _)%Z = false |- _ => apply Z.leb_gt in H
  | H : (_ >? _)%Z = _ |- _ => rewrite Z.gtb_ltb in H
  | H : (_ >=? _)%Z = _ |- _ => rewrite Z.geb_leb in H
  | H : (_ =? _)%Z = true |- _ => apply Z.eqb_eq in H
  | H : (_ =? _)%Z = false |- _ => apply Z.eqb_neq in H
  end.

(** Case analysis on one boolean comparison of the goal. *)
Ltac case_bool :=
  match goal with
  | |- context [if ?b then _ else _] =>
      match type of b with bool => let E := fresh "E" in destruct b eqn:E; b2p end
  end.

(** Invert a monadic computation that is known to return. *)
Ltac inv_ret :=
  repeat match goal with
  | H : Ret _ = Ret _ |- _ => injection H; clear H; intros; subst
  | H : Fault _ = Ret _ |- _ => discriminate H
  | H : Ret _ = Fault _ |- _ => discriminate H
  | H : mbind _ ?m = Ret _ |- _ =>
      let E := fresh "E" in destruct m eqn:E; cbn [mbind outcome_bind] in H
  | H : vg_assert ?b = Ret _ |- _ =>
      let E := fresh "E" in unfold vg_assert in H; destruct b eqn:E
  end.

(** * Lemmas on outcomes, arrays and loops *)

Section Outcomes.
Context {A B : Type}.

Lemma bind_ret (a : A) (k : A -> outcome B) : (Ret a ≫= k) = k a.
Proof. done. Qed.

Lemma bind_ret_inv (m : outcome A) (k : A -> outcome B) b :
  (m ≫= k) = Ret b -> ∃ a, m = Ret a ∧ k a = Ret b.
Proof. destruct m; simpl; [eauto | done]. Qed.

Lemma vg_assert_true b : b = true -> vg_assert b = Ret tt.
Proof. by intros ->. Qed.

End Outcomes.

Section Arrays.
Context {A : Type}.
Implicit Types (l : list A) (i : Z).

Lemma arr_get_Some l i x :
  (0 <= i)%Z -> l !! Z.to_nat i = Some x -> arr_get l i = Ret x.
Proof. intros Hi Hl. unfold arr_get. case_bool; [lia|]. by rewrite Hl. Qed.

Lemma arr_get_inv l i x :
  arr_get l i = Ret x -> (0 <= i < Z.of_nat (length l))%Z ∧ l !! Z.to_nat i = Some x.
Proof.
  unfold arr_get. case_bool; [done|]. destruct (l !! Z.to_nat i) eqn:Hl; [|done].
  intros [= ->]. split; [|done]. apply lookup_lt_Some in Hl. lia.
Qed.

Lemma arr_get_in_range l i :
  (0 <= i < Z.of_nat (length l))%Z -> ∃ x, arr_get l i = Ret x ∧ l !! Z.to_nat i = Some x.
Proof.
  intros Hi. destruct (lookup_lt_is_Some_2 l (Z.to_nat i)) as [x Hx]; [lia|].
  exists x. split; [|done]. apply arr_get_Some; [lia|done].
Qed.

Lemma arr_get_out_of_range l i :
  ¬ (0 <= i < Z.of_nat (length l))%Z -> arr_get l i = Fault OutOfBounds.
Proof.
  intros Hi. unfold arr_get. case_bool; [done|]. rewrite lookup_ge_None_2; [done|lia].
Qed.

Lemma arr_set_in_range l i x :
  (0 <= i < Z.of_nat (length l))%Z -> arr_set l i x = Ret (<[Z.to_nat i := x]> l).
Proof. intros Hi. unfold arr_set. case_bool; [done|lia]. Qed.

Lemma arr_set_inv l i x l' :
  arr_set l i x = Ret l' ->
  (0 <= i < Z.of_nat (length l))%Z ∧ l' = <[Z.to_nat i := x]> l.
Proof. unfold arr_set. case_bool; [|done]. intros [= <-]. split; [lia|done]. Qed.

End Arrays.

Section Loops.
Context {S : Type}.
Implicit Types (s : S).

Lemma for_list_app {I} (l1 l2 : list I) (body : I -> S -> outcome S) s :
  for_list (l1 ++ l2) body s = s' ← for_list l1 body s; for_list l2 body s'.
Proof.
  revert s; induction l1 as [|i l1 IH]; intros s; [done|]; simpl.
  destruct (body i s); simpl; [apply IH | done].
Qed.

Lemma for_list_concat {I} (ls : list (list I)) (body : I -> S -> outcome S) s :
  for_list ls (fun l s => for_list l body s) s = for_list (concat ls) body s.
Proof.
  revert s; induction ls as [|l ls IH]; intros s; [done|]; simpl.
  rewrite for_list_app. destruct (for_list l body s); simpl; [apply IH | done].
Qed.

Lemma for_list_ext {I} (l : list I) (f g : I -> S -> outcome S) s :
  (∀ i s', i ∈ l -> f i s' = g i s') -> for_list l f s = for_list l g s.
Proof.
  revert s; induction l as [|i l IH]; intros s Hfg; [done|]; simpl.
  rewrite (Hfg i s) by set_solver. destruct (g i s); simpl; [|done].
  apply IH. intros; apply Hfg; set_solver.
Qed.

(** A loop whose body never faults is a fold. *)
Lemma for_list_pure {I} (P : S -> Prop) (l : list I) (body : I -> S -> outcome S)
    (g : S -> I -> S) s :
  P s -> (∀ i s', i ∈ l -> P s' -> body i s' = Ret (g s' i) ∧ P (g s' i)) ->
  for_list l body s = Ret (foldl g s l) ∧ P (foldl g s l).
Proof.
  revert s; induction l as [|i l IH]; intros s HP Hb; [done|]; simpl.
  destruct (Hb i s) as [-> HP']; [set_solver|done|]. simpl.
  apply IH; [done|]. intros; apply Hb; set_solver.
Qed.

(** The invariant rule: the body keeps [P] and never faults. *)
Lemma for_up_inv (P : Z -> S -> Prop) lo hi body s :
  (lo <= hi)%Z -> P lo s ->
  (∀ i s', (lo <= i < hi)%Z -> P i s' -> ∃ s'', body i s' = Ret s'' ∧ P (i + 1)%Z s'') ->
  ∃ s', for_up lo hi body s = Ret s' ∧ P hi s'.
Proof.
  intros Hle HP Hbody. unfold for_up.
  assert (∃ n : nat, hi - lo = Z.of_nat n)%Z as [n Hn] by (exists (Z.to_nat (hi - lo)); lia).
  rewrite Hn. revert lo s Hle HP Hbody Hn.
  induction n as [|n IH]; intros lo s Hle HP Hbody Hn.
  - exists s. split; [done|]. replace hi with lo by lia. done.
  - rewrite seqZ_cons by lia. simpl.
    destruct (Hbody lo s) as (s1 & Hs1 & HP1); [lia|done|]. rewrite Hs1. simpl.
    replace (Z.pred (Z.of_nat (Datatypes.S n))) with (Z.of_nat n) by lia.
    replace (Z.succ lo) with (lo + 1)%Z by lia.
    apply IH; try lia; [done|]. intros i s' Hi. apply Hbody; lia.
Qed.

Lemma for_up_empty lo hi (body : Z -> S -> outcome S) s :
  (hi <= lo)%Z -> for_up lo hi body s = Ret s.
Proof. intros H. unfold for_up. rewrite seqZ_nil by lia. done. Qed.

Lemma for_down_step hi lo (body : Z -> S -> outcome S) s :
  (lo < hi)%Z ->
  for_down hi lo body s = s' ← body (hi - 1)%Z s; for_down (hi - 1) lo body s'.
Proof.
  intros H. unfold for_down.
  replace (hi - lo)%Z with ((hi - 1 - lo) + 1)%Z at 1 by lia.
  rewrite seqZ_app by lia. rewrite reverse_app. simpl.
  replace (lo + (hi - 1 - lo))%Z with (hi - 1)%Z by lia. done.
Qed.

Lemma for_down_empty hi lo (body : Z -> S -> outcome S) s :
  (hi <= lo)%Z -> for_down hi lo body s = Ret s.
Proof. intros H. unfold for_down. rewrite seqZ_nil by lia. done. Qed.

Lemma for_down_inv (P : Z -> S -> Prop) hi lo body s :
  (lo <= hi)%Z -> P hi s ->
  (∀ i s', (lo <= i < hi)%Z -> P (i + 1)%Z s' -> ∃ s'', body i s' = Ret s'' ∧ P i s'') ->
  ∃ s', for_down hi lo body s = Ret s' ∧ P lo s'.
Proof.
  intros Hle. assert (∃ n : nat, hi = lo + Z.of_nat n)%Z as [n ->]
    by (exists (Z.to_nat (hi - lo)); lia). clear Hle.
  revert s. induction n as [|n IH]; intros s HP Hbody.
  - rewrite for_down_empty by lia. exists s. split; [done|]. by rewrite Z.add_0_r in HP.
  - rewrite for_down_step by lia.
    destruct (Hbody (lo + Z.of_nat (Datatypes.S n) - 1)%Z s) as (s1 & Hs1 & HP1); [lia| |].
    { by replace (lo + Z.of_nat (Datatypes.S n) - 1 + 1)%Z with (lo + Z.of_nat (Datatypes.S n))%Z by lia. }
    rewrite Hs1. simpl. replace (lo + Z.of_nat (Datatypes.S n) - 1)%Z with (lo + Z.of_nat n)%Z in * by lia.
    apply IH; [done|]. intros i s' Hi. apply Hbody; lia.
Qed.

Lemma for_up_step lo hi (body : Z -> S -> outcome S) s :
  (lo < hi)%Z -> for_up lo hi body s = s' ← body lo s; for_up (lo + 1) hi body s'.
Proof.
  intros H. unfold for_up. rewrite seqZ_cons by lia. simpl.
  replace (Z.pred (hi - lo)) with (hi - (lo + 1))%Z by lia.
  by replace (Z.succ lo) with (lo + 1)%Z by lia.
Qed.

End Loops.

(** * Lemmas on words *)

Lemma wrap_range w z : (0 <= w)%Z -> (0 <= wrap w z < 2 ^ w)%Z.
Proof. intros. apply Z.mod_pos_bound. by apply Z.pow_pos_nonneg. Qed.

Lemma wrap_small w z : (0 <= z < 2 ^ w)%Z -> wrap w z = z.
Proof. apply Z.mod_small. Qed.

Lemma swrap_small w z :
  (0 < w)%Z -> (- 2 ^ (w - 1) <= z < 2 ^ (w - 1))%Z -> swrap w z = z.
Proof.
  intros Hw Hz. unfold swrap.
  assert (2 ^ w = 2 * 2 ^ (w - 1))%Z.
  { rewrite <- Z.pow_succ_r by lia. f_equal. lia. }
  rewrite Z.mod_small; lia.
Qed.

Lemma int_ok z : (INT_MIN <= z <= INT_MAX)%Z -> int_ z = Ret z.
Proof. intros H. unfold int_. case_bool; [done|lia]. Qed.
Lemma long_ok z : (- 2 ^ 63 <= z < 2 ^ 63)%Z -> long_ z = Ret z.
Proof. intros Hz. unfold long_. case_bool; [done|lia]. Qed.

Lemma swrap_bounds w x : (0 < w -> - 2 ^ (w - 1) <= swrap w x < 2 ^ (w - 1))%Z.
Proof.
  intros. unfold swrap. pose proof (Z.mod_pos_bound (x + 2 ^ (w - 1)) (2 ^ w)).
  assert (2 ^ w = 2 * 2 ^ (w - 1))%Z by (rewrite <- Z.pow_succ_r by lia; f_equal; lia).
  assert (0 < 2 ^ (w - 1))%Z by (apply Z.pow_pos_nonneg; lia). lia.
Qed.

Lemma div_between a k : 0 <= a -> 0 < k -> 0 <= a / k <= a.
Proof.
  intros Ha Hk. split; [apply Z.div_pos; lia|]. apply Z.div_le_upper_bound; [lia|nia].
Qed.

(** Finitely many numbers can be tried. *)
Lemma forall_below (P : Z -> bool) n :
  forallb P (seqZ 0 n) = true -> ∀ i, 0 <= i < n -> P i = true.
Proof.
  intros HP i Hi. rewrite forallb_forall in HP. by apply HP, list_elem_of_In, elem_of_seqZ.
Qed.

(** Bits that do not meet add up. *)
Lemma land_shifted_small a d k : 0 <= k -> 0 <= d < 2 ^ k -> Z.land (a * 2 ^ k) d = 0.
Proof.
  intros Hk Hd. rewrite <- (Z.mod_small d (2 ^ k)), <- Z.land_ones by lia.
  rewrite (Z.land_comm d), Z.land_assoc, Z.land_ones, Z.mod_mul by lia. apply Z.land_0_l.
Qed.

Lemma lor_shifted_small a d k : 0 <= k -> 0 <= d < 2 ^ k -> Z.lor (a * 2 ^ k) d = a * 2 ^ k + d.
Proof.
  intros Hk Hd. pose proof (Z.add_lor_land (a * 2 ^ k) d). rewrite land_shifted_small in *; lia.
Qed.

#[export] Hint Resolve wrap_range wrap_small swrap_small int_ok : corelib.
