(* ===== verification/Scalars.v ===== *)
(** The numbers the linear solvers compute with: the operations on [double]
    that the sources use (class [Scalar]), IEEE binary64 as an instance, the
    laws of exact arithmetic (class [ExactScalar]) and the rationals as an
    instance of both. *)

From S2P Require Import Prelude.
From Stdlib Require Import SpecFloat QArith Qcanon Qcabs.
Local Open Scope Z_scope.

(** The operations on [double] that the sources use; [f_lt x y] is [x < y],
    [f_eps] the literal [1e-10], [f_tol] the literal [1e-5]. *)
Class Scalar (F : Type) := {
  f_add : F -> F -> F;
  f_sub : F -> F -> F;
  f_mul : F -> F -> F;
  f_div : F -> F -> F;
  f_opp : F -> F;
  f_abs : F -> F;
  f_lt : F -> F -> bool;
  f_le : F -> F -> bool;
  f_of_Z : Z -> F;
  f_eps : F;
  f_tol : F;
}.

(** ** IEEE binary64

    The operations round to nearest, ties to even, as the C code compiled for
    x86-64 does without contraction. *)

#[global] Instance binary64 : Scalar spec_float := {|
  f_add := SFadd 53 1024;
  f_sub := SFsub 53 1024;
  f_mul := SFmul 53 1024;
  f_div := SFdiv 53 1024;
  f_opp := SFopp;
  f_abs := SFabs;
  f_lt := SFltb;
  f_le := SFleb;
  f_of_Z := fun z => binary_normalize 53 1024 z 0 false;
  f_eps := S754_finite false 7737125245533627 (-86);
  f_tol := S754_finite false 5902958103587057 (-69);
|}.

(** ** Exact arithmetic *)

(** A field whose comparison with [1e-10] rules out zero, and in which every
    number is nearly equal to itself. *)
Class ExactScalar (F : Type) `{Scalar F} := {
  f_zero : F;
  f_one : F;
  f_inv : F -> F;
  f_field : field_theory f_zero f_one f_add f_mul f_sub f_opp f_div f_inv eq;
  f_eps_nonzero : forall x, f_lt (f_abs x) f_eps = false -> x <> f_zero;
  f_tol_refl : forall x, f_le (f_abs (f_sub x x)) (f_mul f_tol (f_abs x)) = true;
}.

Definition Qc_ltb (x y : Qc) : bool := match Qccompare x y with Lt => true | _ => false end.
Definition Qc_leb (x y : Qc) : bool := match Qccompare x y with Gt => false | _ => true end.

#[global] Instance rational : Scalar Qc := {|
  f_add := Qcplus;
  f_sub := Qcminus;
  f_mul := Qcmult;
  f_div := Qcdiv;
  f_opp := Qcopp;
  f_abs := Qcabs;
  f_lt := Qc_ltb;
  f_le := Qc_leb;
  f_of_Z := fun z => Q2Qc (inject_Z z);
  f_eps := Q2Qc (1 # 10000000000);
  f_tol := Q2Qc (1 # 100000);
|}.

#[global] Instance rational_exact : ExactScalar Qc.
Proof.
  refine {| f_zero := 0%Qc; f_one := 1%Qc; f_inv := Qcinv; f_field := Qcft |}.
  - intros x Hx ->. discriminate Hx.
  - intros x. simpl. replace (x - x)%Qc with 0%Qc by ring.
    rewrite (Qcabs_pos 0) by apply Qcle_refl. unfold Qc_leb.
    assert (0 <= Q2Qc (1 # 100000) * Qcabs x)%Qc as Hle
      by (apply Qcmult_nonneg_nonneg; [vm_compute; discriminate|apply Qcabs_nonneg]).
    apply Qcle_alt in Hle. destruct (Qccompare _ _) eqn:E; [done|done|]. by destruct Hle.
Defined.
