(* ===== verification/Dgesv.v ===== *)
(** The linear solvers of the repository: [dgesv.c] and [dgesv-optimal1.c]
    (Gaussian elimination with partial pivoting, columns of the right-hand
    sides solved by an OpenMP loop) and [task1/dgesv.c] (no pivoting).

    The code is translated once, over the operations the C text uses on
    [double] (class [Scalars.Scalar]); the theorems on memory, overflow and
    scheduling hold for every instance, those on the solution for exact
    arithmetic (class [ExactScalar]). *)

From S2P Require Import Prelude Scalars.
Local Open Scope Z_scope.

(** * The code *)

Section Code.
Context {F : Type} `{Scalar F}.

(** The two arrays a solver updates in place. *)
Record lin := Lin { ma : list F; mb : list F }.

(** [r * m + c] in [int] arithmetic. *)
Definition ix (r m c : Z) : outcome Z :=
  p ← int_ (r * m); int_ (p + c).

(** [l[r * m + c]] as an rvalue, and the assignment to it. *)
Definition ld (l : list F) (r m c : Z) : outcome F :=
  i ← ix r m c; arr_get l i.

Definition st (l : list F) (r m c : Z) (x : F) : outcome (list F) :=
  i ← ix r m c; arr_set l i x.

(** One turn of the search for the pivot of column [k]. *)
Definition pivot_step (n k : Z) (a : list F) (i : Z) (mx : Z * F) : outcome (Z * F) :=
  x ← ld a i n k;
  if f_lt mx.2 (f_abs x)
  then y ← ld a i n k; Ret (i, f_abs y)
  else Ret mx.

Definition find_pivot (n k : Z) (a : list F) : outcome (Z * F) :=
  x ← ld a k n k;
  for_up (k + 1) n (pivot_step n k a) (k, f_abs x).

(** Exchange rows [r1] and [r2] of an array with rows of width [w]. *)
Definition swap_step (w r1 r2 : Z) (j : Z) (l : list F) : outcome (list F) :=
  tmp ← ld l r1 w j;
  x ← ld l r2 w j;
  l1 ← st l r1 w j x;
  st l1 r2 w j tmp.

Definition swap_rows (w r1 r2 : Z) (l : list F) : outcome (list F) :=
  for_up 0 w (swap_step w r1 r2) l.

(** [l[i][j] += t * l[k][j]] for [lo <= j < w]. *)
Definition axpy_step (w k i : Z) (t : F) (j : Z) (l : list F) : outcome (list F) :=
  u ← ld l i w j;
  v ← ld l k w j;
  st l i w j (f_add u (f_mul t v)).

Definition elim_row (n nrhs k : Z) (i : Z) (s : lin) : outcome lin :=
  x ← ld (ma s) i n k;
  p ← ld (ma s) k n k;
  let t := f_div (f_opp x) p in
  a' ← for_up k n (axpy_step n k i t) (ma s);
  b' ← for_up 0 nrhs (axpy_step nrhs k i t) (mb s);
  Ret (Lin a' b').

(** The test [fabs(a[k * n + k]) < 1e-10]. *)
Definition tiny_pivot (n k : Z) (a : list F) : outcome bool :=
  x ← ld a k n k; Ret (f_lt (f_abs x) f_eps).

(** The body of the elimination loop of [dgesv.c]; [Some rc] once the
    function has returned [rc]. *)
Definition pivot_swap (n nrhs k : Z) (s : lin) : outcome lin :=
  mx ← find_pivot n k (ma s);
  let maxIndex := mx.1 in
  if maxIndex =? k then Ret s
  else
    a' ← swap_rows n k maxIndex (ma s);
    b' ← swap_rows nrhs k maxIndex (mb s);
    Ret (Lin a' b').

Definition elim_below (n nrhs k : Z) (s : lin) : outcome (lin * option Z) :=
  tiny ← tiny_pivot n k (ma s);
  if (tiny : bool) then Ret (s, Some (-1))
  else s' ← for_up (k + 1) n (elim_row n nrhs k) s; Ret (s', None).

Definition elim_step (n nrhs k : Z) (sr : lin * option Z) : outcome (lin * option Z) :=
  match sr.2 with
  | Some _ => Ret sr
  | None => s' ← pivot_swap n nrhs k sr.1; elim_below n nrhs k s'
  end.

(** The inner [k] loop of the back substitution. *)
Definition back_sum (n nrhs : Z) (a b : list F) (j i : Z) (k : Z) (t : F) : outcome F :=
  x ← ld a i n k;
  y ← ld b k nrhs j;
  Ret (f_sub t (f_mul x y)).

(** One turn of the [i] loop: [error_flag] is only ever set. *)
Definition back_iter (n nrhs : Z) (a : list F) (j : Z) (i : Z) (s : list F * bool)
  : outcome (list F * bool) :=
  t0 ← ld s.1 i nrhs j;
  t ← for_up (i + 1) n (back_sum n nrhs a s.1 j i) t0;
  tiny ← tiny_pivot n i a;
  d ← ld a i n i;
  b' ← st s.1 i nrhs j (f_div t d);
  Ret (b', s.2 || tiny).

Definition back_col (n nrhs : Z) (a : list F) (j : Z) (s : list F * bool)
  : outcome (list F * bool) :=
  for_down n 0 (back_iter n nrhs a j) s.

(** The region [#pragma omp parallel for]: [sched] is the order in which the
    runtime hands out the columns. *)
Definition back_subst (sched : list Z) (n nrhs : Z) (s : lin) : outcome (list F * bool) :=
  for_list sched (back_col n nrhs (ma s)) (mb s, false).

Definition my_dgesv (sched : list Z) (n nrhs : Z) (s : lin) : outcome (Z * lin) :=
  sr ← for_up 0 (n - 1) (elim_step n nrhs) (s, None);
  match sr.2 with
  | Some rc => Ret (rc, sr.1)
  | None =>
      bf ← back_subst sched n nrhs sr.1;
      Ret (if bf.2 : bool then -1 else 0, Lin (ma sr.1) bf.1)
  end.

(** [dgesv-optimal1.c] leaves the schedule to the implementation, with the
    columns cut into one contiguous chunk per thread: [chunks] lists them in
    the order the threads finish. *)
Definition my_dgesv_optimal1 (chunks : list (list Z)) (n nrhs : Z) (s : lin)
  : outcome (Z * lin) :=
  sr ← for_up 0 (n - 1) (elim_step n nrhs) (s, None);
  match sr.2 with
  | Some rc => Ret (rc, sr.1)
  | None =>
      bf ← for_list chunks
             (fun chunk bf => for_list chunk (back_col n nrhs (ma sr.1)) bf)
             (mb sr.1, false);
      Ret (if bf.2 : bool then -1 else 0, Lin (ma sr.1) bf.1)
  end.

(** ** [task1/dgesv.c]: no pivoting, and [return -1] from inside the loops *)

Definition elim_step_task1 (n nrhs k : Z) (sr : lin * option Z) : outcome (lin * option Z) :=
  match sr.2 with
  | Some _ => Ret sr
  | None => elim_below n nrhs k sr.1
  end.

Definition back_iter_task1 (n nrhs : Z) (a : list F) (j : Z) (i : Z)
  (s : list F * option Z) : outcome (list F * option Z) :=
  match s.2 with
  | Some _ => Ret s
  | None =>
      t0 ← ld s.1 i nrhs j;
      t ← for_up (i + 1) n (back_sum n nrhs a s.1 j i) t0;
      tiny ← tiny_pivot n i a;
      if (tiny : bool) then Ret (s.1, Some (-1))
      else
        d ← ld a i n i;
        b' ← st s.1 i nrhs j (f_div t d);
        Ret (b', None)
  end.

Definition my_dgesv_task1 (n nrhs : Z) (s : lin) : outcome (Z * lin) :=
  sr ← for_up 0 (n - 1) (elim_step_task1 n nrhs) (s, None);
  match sr.2 with
  | Some rc => Ret (rc, sr.1)
  | None =>
      bf ← for_up 0 nrhs (fun j => for_down n 0 (back_iter_task1 n nrhs (ma sr.1) j))
             (mb sr.1, None);
      Ret (match bf.2 with Some rc => rc | None => 0 end, Lin (ma sr.1) bf.1)
  end.

(** ** The parallel region, one turn of the [i] loop at a time

    Every column [j] has a counter [rem_j], the number of rows it still has
    to solve; the threads interleave freely, one row at a time. *)
Record omp_state := Omp { om_b : list F; om_flag : bool; om_rem : list Z }.

Inductive omp_step (n nrhs : Z) (a : list F) : omp_state -> omp_state -> Prop :=
  | omp_row s j r b' f' :
      om_rem s !! Z.to_nat j = Some r -> 0 <= j -> 0 < r ->
      back_iter n nrhs a j (r - 1) (om_b s, om_flag s) = Ret (b', f') ->
      omp_step n nrhs a s (Omp b' f' (<[Z.to_nat j := r - 1]> (om_rem s))).

Definition omp_init (n nrhs : Z) (b : list F) : omp_state :=
  Omp b false (replicate (Z.to_nat nrhs) n).

Definition omp_done (s : omp_state) : Prop := Forall (eq 0) (om_rem s).

End Code.
Arguments lin F : clear implicits.
Arguments Lin {F} _ _.
Arguments omp_state F : clear implicits.

(** * Arrays seen as matrices *)

Section Matrices.
Context {F : Type} `{Scalar F}.

Definition mat : Type := Z -> Z -> F.

(** [l] holds the [n] by [m] matrix [M] in row-major order. *)
Definition rep (n m : Z) (l : list F) (M : mat) : Prop :=
  Z.of_nat (length l) = n * m ∧
  ∀ i j, 0 <= i < n -> 0 <= j < m -> l !! Z.to_nat (i * m + j) = Some (M i j).

Definition upd (M : mat) (r c : Z) (x : F) : mat :=
  fun i j => if (i =? r) && (j =? c) then x else M i j.

(** The matrix an array holds. *)
Definition mat_of (d : F) (m : Z) (l : list F) : mat :=
  fun i j => default d (l !! Z.to_nat (i * m + j)).

(** The sizes for which the index arithmetic stays inside [int]. *)
Definition fits (n m : Z) : Prop := 0 <= n ∧ 0 <= m ∧ n * m <= INT_MAX.

End Matrices.
Arguments mat F : clear implicits.

(** * Accesses *)

Section Access.
Context {F : Type} `{Scalar F}.
Implicit Types (l a b : list F) (M A B : mat F).

Lemma ix_ok n m r c :
  fits n m -> 0 <= r < n -> 0 <= c < m -> ix r m c = Ret (r * m + c).
Proof.
  intros (? & ? & Hf) Hr Hc. unfold ix, INT_MAX in *.
  assert (r * m + m <= n * m) by nia.
  rewrite int_ok by (unfold INT_MIN, INT_MAX; nia). simpl.
  apply int_ok. unfold INT_MIN, INT_MAX. nia.
Qed.

Lemma ix_lt n m r c : 0 <= r < n -> 0 <= c < m -> 0 <= r * m + c < n * m.
Proof. nia. Qed.

Lemma ix_inj m r c r' c' :
  0 <= c < m -> 0 <= c' < m -> 0 <= r -> 0 <= r' ->
  r * m + c = r' * m + c' -> r = r' ∧ c = c'.
Proof. intros. assert (r = r') by nia. subst. split; lia. Qed.

Lemma ld_ok n m l M r c :
  fits n m -> rep n m l M -> 0 <= r < n -> 0 <= c < m -> ld l r m c = Ret (M r c).
Proof.
  intros Hf [Hlen Hrep] Hr Hc. unfold ld. rewrite (ix_ok n) by done. simpl.
  apply arr_get_Some; [nia|]. by apply Hrep.
Qed.

Lemma st_ok n m l M r c x :
  fits n m -> rep n m l M -> 0 <= r < n -> 0 <= c < m ->
  ∃ l', st l r m c x = Ret l' ∧ rep n m l' (upd M r c x).
Proof.
  intros Hf [Hlen Hrep] Hr Hc. unfold st. rewrite (ix_ok n) by done. simpl.
  rewrite arr_set_in_range by (rewrite Hlen; by apply ix_lt).
  eexists. split; [done|]. split; [by rewrite length_insert|].
  intros i j Hi Hj. unfold upd.
  destruct ((i =? r) && (j =? c)) eqn:E; b2p.
  - subst. rewrite list_lookup_insert_eq; [done|]. pose proof (ix_lt n m r c Hr Hc). lia.
  - rewrite list_lookup_insert_ne; [by apply Hrep|].
    intros Heq. assert (r * m + c = i * m + j) by nia.
    destruct (ix_inj m r c i j); lia.
Qed.

Lemma rep_ext n m l M M' :
  (∀ i j, 0 <= i < n -> 0 <= j < m -> M i j = M' i j) -> rep n m l M -> rep n m l M'.
Proof. intros HM [Hl Hr]. split; [done|]. intros i j Hi Hj. rewrite <- HM by done. by apply Hr. Qed.

Lemma rep_mat_of d n m l : Z.of_nat (length l) = n * m -> rep n m l (mat_of d m l).
Proof.
  intros Hl. split; [done|]. intros i j Hi Hj. unfold mat_of.
  destruct (lookup_lt_is_Some_2 l (Z.to_nat (i * m + j))) as [x Hx].
  { pose proof (ix_lt n m i j Hi Hj). lia. }
  by rewrite Hx.
Qed.

(** Two arrays that hold the same matrix are equal. *)
Lemma rep_unique n m l l' M M' :
  0 <= n -> 0 <= m -> rep n m l M -> rep n m l' M' ->
  (∀ i j, 0 <= i < n -> 0 <= j < m -> M i j = M' i j) -> l = l'.
Proof.
  intros Hn Hm [Hl Hr] [Hl' Hr'] HM. apply list_eq. intros k.
  destruct (decide (Z.of_nat k < n * m)) as [Hk|Hk].
  - assert (0 < m) by nia.
    pose proof (Z.div_mod (Z.of_nat k) m ltac:(lia)) as Hdm.
    pose proof (Z.mod_pos_bound (Z.of_nat k) m ltac:(lia)).
    set (i := Z.of_nat k / m) in *. set (j := Z.of_nat k mod m) in *.
    assert (0 <= i) by (apply Z.div_pos; lia).
    assert (i < n) by (apply Z.div_lt_upper_bound; nia).
    replace k with (Z.to_nat (i * m + j)) by nia.
    rewrite Hr, Hr' by lia. by rewrite HM.
  - rewrite !lookup_ge_None_2; [done|lia|lia].
Qed.

Lemma rep_eq n m l M M' i j :
  rep n m l M -> rep n m l M' -> 0 <= i < n -> 0 <= j < m -> M i j = M' i j.
Proof. intros [_ H1] [_ H2] Hi Hj. specialize (H1 i j Hi Hj). rewrite H2 in H1 by done. congruence. Qed.

End Access.

(** Decide the guard of an [upd] or of a conditional matrix. *)
Ltac mat_cases :=
  unfold upd in *;
  repeat match goal with
  | |- context [if ?b then _ else _] =>
      match type of b with bool => let E := fresh "E" in destruct b eqn:E; b2p; simpl end
  end; subst; try lia; try done.

(** The sizes of a concrete system. *)
Ltac fits_tac := unfold fits, INT_MAX; lia.

(** * What each loop computes *)

Section Loops.
Context {F : Type} `{Scalar F}.
Implicit Types (l a b : list F) (M A B : mat F).

Lemma find_pivot_ok n k a A :
  fits n n -> rep n n a A -> 0 <= k < n ->
  ∃ m, find_pivot n k a = Ret (m, f_abs (A m k)) ∧ k <= m < n.
Proof.
  intros Hf Hr Hk. unfold find_pivot. rewrite (ld_ok n n a A) by (done || lia). simpl.
  destruct (for_up_inv (fun i mx => ∃ m, mx = (m, f_abs (A m k)) ∧ k <= m < n)
              (k + 1) n (pivot_step n k a) (k, f_abs (A k k))) as (s' & Hs & m & -> & Hm).
  - lia.
  - exists k. split; [done|lia].
  - intros i s' Hi (m & -> & Hm). unfold pivot_step.
    rewrite (ld_ok n n a A) by (done || lia). simpl.
    case_bool; eexists; (split; [done|]); eexists; (split; [done|lia]).
  - exists m. by split.
Qed.

Definition swap_mat (r1 r2 : Z) (M : mat F) : mat F :=
  fun i j => if i =? r1 then M r2 j else if i =? r2 then M r1 j else M i j.

Lemma swap_rows_ok n w r1 r2 l M :
  fits n w -> rep n w l M -> 0 <= r1 < n -> 0 <= r2 < n -> r1 ≠ r2 ->
  ∃ l', swap_rows w r1 r2 l = Ret l' ∧ rep n w l' (swap_mat r1 r2 M).
Proof.
  intros Hf Hr H1 H2 Hne. unfold swap_rows.
  destruct (for_up_inv (fun jj l => rep n w l (fun i j =>
      if (j <? jj) then swap_mat r1 r2 M i j else M i j)) 0 w (swap_step w r1 r2) l)
    as (l' & Hl & Hrep).
  - destruct Hf as (? & ? & ?); lia.
  - eapply rep_ext, Hr. intros i j Hi Hj. mat_cases.
  - intros jj l' Hjj Hrep. unfold swap_step.
    rewrite !(ld_ok n w l' _ _ _ Hf Hrep) by lia. simpl.
    destruct (st_ok n w l' _ r1 jj (if jj <? jj then swap_mat r1 r2 M r2 jj else M r2 jj) Hf Hrep)
      as (l1 & -> & Hrep1); [lia|lia|]. simpl.
    destruct (st_ok n w l1 _ r2 jj (if jj <? jj then swap_mat r1 r2 M r1 jj else M r1 jj) Hf Hrep1)
      as (l2 & -> & Hrep2); [lia|lia|].
    exists l2. split; [done|]. eapply rep_ext, Hrep2.
    intros i j Hi Hj. unfold swap_mat. mat_cases.
  - exists l'. split; [done|]. eapply rep_ext, Hrep. intros i j Hi Hj. mat_cases.
Qed.

Definition axpy_mat (lo k r : Z) (t : F) (M : mat F) : mat F :=
  fun i j => if (i =? r) && (lo <=? j) then f_add (M i j) (f_mul t (M k j)) else M i j.

Lemma axpy_ok n w lo k i t l M :
  fits n w -> rep n w l M -> 0 <= k < n -> 0 <= i < n -> i ≠ k -> 0 <= lo <= w ->
  ∃ l', for_up lo w (axpy_step w k i t) l = Ret l' ∧ rep n w l' (axpy_mat lo k i t M).
Proof.
  intros Hf Hr Hk Hi Hne Hlo.
  destruct (for_up_inv (fun jj l => rep n w l (fun r j =>
      if (j <? jj) then axpy_mat lo k i t M r j else M r j)) lo w (axpy_step w k i t) l)
    as (l' & Hl & Hrep).
  - lia.
  - eapply rep_ext, Hr. intros r j Hr' Hj. unfold axpy_mat. mat_cases.
  - intros jj l' Hjj Hrep. unfold axpy_step.
    rewrite !(ld_ok n w l' _ _ _ Hf Hrep) by lia. simpl.
    rewrite !Z.ltb_irrefl.
    destruct (st_ok n w l' _ i jj (f_add (M i jj) (f_mul t (M k jj))) Hf Hrep)
      as (l1 & -> & Hrep1); [lia|lia|].
    exists l1. split; [done|]. eapply rep_ext, Hrep1.
    intros r j Hr' Hj. unfold axpy_mat. mat_cases.
  - exists l'. split; [done|]. eapply rep_ext, Hrep. intros r j Hr' Hj. mat_cases.
Qed.

(** The multiplier of row [i] in step [k]. *)
Definition mult (k : Z) (A : mat F) (i : Z) : F := f_div (f_opp (A i k)) (A k k).

(** Matrix [A] after the rows [k < i < hi] have been eliminated with pivot
    row [k]; the columns below [lo] are not touched. *)
Definition elim_mat (lo k hi : Z) (A M : mat F) : mat F :=
  fun i j => if (k <? i) && (i <? hi) && (lo <=? j)
             then f_add (M i j) (f_mul (mult k A i) (M k j)) else M i j.

Definition lin_rep (n nrhs : Z) (s : lin F) (A B : mat F) : Prop :=
  rep n n (ma s) A ∧ rep n nrhs (mb s) B.

Lemma elim_rows_ok n nrhs k s A B :
  fits n n -> fits n nrhs -> lin_rep n nrhs s A B -> 0 <= k < n ->
  ∃ s', for_up (k + 1) n (elim_row n nrhs k) s = Ret s' ∧
        lin_rep n nrhs s' (elim_mat k k n A A) (elim_mat 0 k n A B).
Proof.
  intros Hf Hfb [Ha Hb] Hk.
  destruct (for_up_inv (fun i s => lin_rep n nrhs s (elim_mat k k i A A) (elim_mat 0 k i A B))
              (k + 1) n (elim_row n nrhs k) s) as (s' & Hs & Hrep); [lia| | |by eauto].
  - split; eapply rep_ext; [|exact Ha| |exact Hb]; intros i j Hi Hj; unfold elim_mat; mat_cases.
  - intros i s' Hi [Ha' Hb']. unfold elim_row.
    rewrite !(ld_ok n n _ _ _ _ Hf Ha') by lia. simpl.
    set (t := f_div _ _).
    assert (Ht : t = mult k A i).
    { unfold t, mult, elim_mat. by rewrite !Z.ltb_irrefl, !andb_false_r. }
    destruct (axpy_ok n n k k i t _ _ Hf Ha') as (a' & -> & Ha''); [lia..|]. simpl.
    destruct (axpy_ok n nrhs 0 k i t _ _ Hfb Hb') as (b' & -> & Hb'');
      [lia..|destruct Hfb; lia|]. simpl.
    eexists. split; [done|]. rewrite Ht in *.
    split; eapply rep_ext; [|exact Ha''| |exact Hb'']; intros r j Hr Hj;
      unfold axpy_mat, elim_mat; mat_cases.
Qed.

Lemma tiny_pivot_ok n k a A :
  fits n n -> rep n n a A -> 0 <= k < n ->
  tiny_pivot n k a = Ret (f_lt (f_abs (A k k)) f_eps).
Proof. intros Hf Hr Hk. unfold tiny_pivot. by rewrite (ld_ok n n a A) by (done || lia). Qed.

(** One elimination step below the pivot: stop, or clear column [k]. *)
Lemma elim_below_ok n nrhs k s A B :
  fits n n -> fits n nrhs -> lin_rep n nrhs s A B -> 0 <= k < n ->
  (f_lt (f_abs (A k k)) f_eps = true ∧ elim_below n nrhs k s = Ret (s, Some (-1))) ∨
  (f_lt (f_abs (A k k)) f_eps = false ∧
   ∃ s', elim_below n nrhs k s = Ret (s', None) ∧
         lin_rep n nrhs s' (elim_mat k k n A A) (elim_mat 0 k n A B)).
Proof.
  intros Hf Hfb Hs Hk. unfold elim_below. rewrite (tiny_pivot_ok n k _ A) by (done || apply Hs).
  simpl. destruct (f_lt (f_abs (A k k)) f_eps); [by left|right]. split; [done|].
  destruct (elim_rows_ok n nrhs k s A B) as (s' & -> & Hs'); [done..|]. by exists s'.
Qed.

Lemma pivot_swap_ok n nrhs k s A B :
  fits n n -> fits n nrhs -> lin_rep n nrhs s A B -> 0 <= k < n ->
  ∃ s' m, pivot_swap n nrhs k s = Ret s' ∧ k <= m < n ∧
          lin_rep n nrhs s' (swap_mat k m A) (swap_mat k m B).
Proof.
  intros Hf Hfb [Ha Hb] Hk. unfold pivot_swap.
  destruct (find_pivot_ok n k (ma s) A) as (m & -> & Hm); [done..|]. simpl.
  destruct (m =? k) eqn:E; b2p.
  - exists s, m. split; [done|]. split; [lia|]. subst.
    split; eapply rep_ext; [|exact Ha| |exact Hb]; intros i j Hi Hj; unfold swap_mat; mat_cases.
  - destruct (swap_rows_ok n n k m (ma s) A) as (a' & -> & Ha'); [done|done|lia..|]. simpl.
    destruct (swap_rows_ok n nrhs k m (mb s) B) as (b' & -> & Hb'); [done|done|lia..|]. simpl.
    eexists _, m. split; [done|]. split; [lia|]. by split.
Qed.

End Loops.

(** * Back substitution *)

Section Back.
Context {F : Type} `{Scalar F}.
Implicit Types (l a b : list F) (M A B : mat F).

(** [t] after the inner loop of row [i], and the value stored. *)
Definition back_dot (n : Z) (A B : mat F) (j i : Z) : F :=
  foldl (fun t k => f_sub t (f_mul (A i k) (B k j))) (B i j) (seqZ (i + 1) (n - (i + 1))).

Definition back_val (n : Z) (A B : mat F) (j i : Z) : F := f_div (back_dot n A B j i) (A i i).

Definition tiny (A : mat F) (i : Z) : bool := f_lt (f_abs (A i i)) f_eps.

(** Column [j] solved down to row [r]; the other columns are those of [B]. *)
Definition col_solve (n : Z) (A B : mat F) (j r : Z) : mat F :=
  foldl (fun M i => upd M i j (back_val n A M j i)) B (reverse (seqZ r (n - r))).

Lemma col_solve_step n A B j r :
  r < n -> col_solve n A B j r =
           upd (col_solve n A B j (r + 1)) r j (back_val n A (col_solve n A B j (r + 1)) j r).
Proof.
  intros Hr. unfold col_solve at 1. rewrite seqZ_cons by lia.
  rewrite reverse_cons, foldl_app. simpl.
  unfold col_solve. replace (Z.pred (n - r)) with (n - (r + 1)) by lia.
  by replace (Z.succ r) with (r + 1) by lia.
Qed.

Lemma col_solve_top n A B j : col_solve n A B j n = B.
Proof. unfold col_solve. by rewrite seqZ_nil by lia. Qed.

Lemma back_val_ext n A M M' j i :
  (∀ k, M k j = M' k j) -> back_val n A M j i = back_val n A M' j i.
Proof.
  intros HM. unfold back_val, back_dot. f_equal. rewrite (HM i).
  generalize (M' i j). generalize (seqZ (i + 1) (n - (i + 1))) as ks.
  induction ks as [|k ks IH]; intros t; [done|]. simpl. by rewrite HM.
Qed.

(** Columns do not interfere. *)
Lemma col_solve_other n A B j r i j' :
  j' ≠ j -> col_solve n A B j r i j' = B i j'.
Proof.
  intros Hne. unfold col_solve. generalize (reverse (seqZ r (n - r))) as rows. intros rows.
  revert B. induction rows as [|x rows IH]; intros B; [done|]. simpl. rewrite IH.
  unfold upd. replace (j' =? j) with false by lia. by rewrite andb_false_r.
Qed.

Lemma col_solve_ext n A M M' j r :
  (∀ i, M i j = M' i j) -> ∀ i, col_solve n A M j r i j = col_solve n A M' j r i j.
Proof.
  unfold col_solve. generalize (reverse (seqZ r (n - r))) as rows. intros rows.
  revert M M'. induction rows as [|x rows IH]; intros M M' HM; [done|]. simpl.
  apply IH. intros i. unfold upd. rewrite (back_val_ext n A M M') by done. by rewrite HM.
Qed.

Lemma back_sum_ok n nrhs a b A B j i t0 :
  fits n n -> fits n nrhs -> rep n n a A -> rep n nrhs b B ->
  0 <= i < n -> 0 <= j < nrhs -> t0 = B i j ->
  for_up (i + 1) n (back_sum n nrhs a b j i) t0 = Ret (back_dot n A B j i).
Proof.
  intros Hf Hfb Ha Hb Hi Hj ->. unfold for_up, back_dot.
  refine (proj1 (for_list_pure (fun _ => True) _ _ _ _ I _)).
  intros k t Hk _. apply elem_of_seqZ in Hk. unfold back_sum.
  rewrite (ld_ok n n a A) by (done || lia). simpl.
  by rewrite (ld_ok n nrhs b B) by (done || lia).
Qed.

Lemma back_iter_ok n nrhs a b A B j i f :
  fits n n -> fits n nrhs -> rep n n a A -> rep n nrhs b B ->
  0 <= i < n -> 0 <= j < nrhs ->
  ∃ b', back_iter n nrhs a j i (b, f) = Ret (b', f || tiny A i) ∧
        rep n nrhs b' (upd B i j (back_val n A B j i)).
Proof.
  intros Hf Hfb Ha Hb Hi Hj. unfold back_iter. simpl.
  rewrite (ld_ok n nrhs b B) by (done || lia). simpl.
  rewrite (back_sum_ok n nrhs a b A B) by done. simpl.
  rewrite (tiny_pivot_ok n i a A) by done. simpl.
  rewrite (ld_ok n n a A) by (done || lia). simpl.
  destruct (st_ok n nrhs b B i j (back_val n A B j i) Hfb Hb) as (b' & Hst & Hb'); [lia..|].
  unfold back_val in Hst. rewrite Hst. simpl. by exists b'.
Qed.

Definition tiny_from (n : Z) (A : mat F) (r : Z) : bool := existsb (tiny A) (seqZ r (n - r)).

Lemma tiny_from_step n A r : r < n -> tiny_from n A r = tiny A r || tiny_from n A (r + 1).
Proof.
  intros Hr. unfold tiny_from. rewrite seqZ_cons by lia. simpl.
  replace (Z.pred (n - r)) with (n - (r + 1)) by lia. by replace (Z.succ r) with (r + 1) by lia.
Qed.

Lemma tiny_from_top n A : tiny_from n A n = false.
Proof. unfold tiny_from. by rewrite seqZ_nil by lia. Qed.

Lemma back_col_ok n nrhs a b A B j f :
  fits n n -> fits n nrhs -> rep n n a A -> rep n nrhs b B -> 0 <= j < nrhs ->
  ∃ b', back_col n nrhs a j (b, f) = Ret (b', f || tiny_from n A 0) ∧
        rep n nrhs b' (col_solve n A B j 0).
Proof.
  intros Hf Hfb Ha Hb Hj. unfold back_col.
  destruct (for_down_inv (fun r s => ∃ b', s = (b', f || tiny_from n A r) ∧
      rep n nrhs b' (col_solve n A B j r)) n 0 (back_iter n nrhs a j) (b, f))
    as (s' & -> & b' & -> & Hb').
  - destruct Hf; lia.
  - exists b. rewrite tiny_from_top, orb_false_r, col_solve_top. done.
  - intros i s' Hi (b' & -> & Hb').
    destruct (back_iter_ok n nrhs a b' A _ j i (f || tiny_from n A (i + 1)) Hf Hfb Ha Hb')
      as (b'' & Hit & Hb''); [lia|lia|].
    rewrite Hit. eexists. split; [done|]. exists b''.
    rewrite (tiny_from_step n A i), (col_solve_step n A B j i) by lia. split; [|done].
    f_equal. destruct f, (tiny A i), (tiny_from n A (i + 1)); done.
  - by exists b'.
Qed.

(** The matrix after the columns of [sched] have been solved, in any order. *)
Definition cols_solve (n : Z) (A B : mat F) (sched : list Z) : mat F :=
  fun i j => if bool_decide (j ∈ sched) then col_solve n A B j 0 i j else B i j.

Lemma back_cols_ok n nrhs a A sched :
  fits n n -> fits n nrhs -> rep n n a A ->
  NoDup sched -> Forall (fun j => 0 <= j < nrhs) sched ->
  ∀ b B f, rep n nrhs b B ->
  ∃ b', for_list sched (back_col n nrhs a) (b, f) =
          Ret (b', f || existsb (fun _ => tiny_from n A 0) sched) ∧
        rep n nrhs b' (cols_solve n A B sched).
Proof.
  intros Hf Hfb Ha. induction sched as [|j sched IH]; intros Hnd Hin b B f Hb.
  - exists b. simpl. rewrite orb_false_r. split; [done|].
    eapply rep_ext, Hb. intros i j _ _. unfold cols_solve. by rewrite bool_decide_eq_false_2 by set_solver.
  - apply NoDup_cons in Hnd as [Hj Hnd]. apply Forall_cons in Hin as [Hjr Hin]. simpl.
    destruct (back_col_ok n nrhs a b A B j f) as (b1 & -> & Hb1); [done..|]. simpl.
    destruct (IH Hnd Hin b1 _ (f || tiny_from n A 0) Hb1) as (b2 & -> & Hb2).
    exists b2. split.
    + by rewrite orb_assoc.
    + eapply rep_ext, Hb2. intros i j' Hi Hj'. unfold cols_solve.
      destruct (decide (j' = j)) as [->|Hne].
      * rewrite bool_decide_eq_false_2 by done. by rewrite bool_decide_eq_true_2 by set_solver.
      * rewrite (bool_decide_ext (j' ∈ sched) (j' ∈ j :: sched)) by set_solver.
        case_bool_decide; [|by apply col_solve_other].
        apply col_solve_ext. intros i'. by apply col_solve_other.
Qed.

End Back.

(** * The elimination phase

    Both elimination loops satisfy [step_spec]: a step exchanges row [k] with
    some row [m] (with itself in the version without pivoting), stops on a
    tiny pivot and otherwise clears column [k] below the diagonal. *)

Section Phases.
Context {F : Type} `{Scalar F}.
Implicit Types (l a b : list F) (M A B : mat F) (s : lin F).

Definition step_spec (n nrhs : Z) (step : Z -> lin F * option Z -> outcome (lin F * option Z)) : Prop :=
  (∀ k s rc, step k (s, Some rc) = Ret (s, Some rc)) ∧
  (∀ k s A B, lin_rep n nrhs s A B -> 0 <= k < n ->
   ∃ m s' r, step k (s, None) = Ret (s', r) ∧ k <= m < n ∧
     let A1 := swap_mat k m A in let B1 := swap_mat k m B in
     (tiny A1 k = true ∧ r = Some (-1) ∧ lin_rep n nrhs s' A1 B1 ∨
      tiny A1 k = false ∧ r = None ∧
      lin_rep n nrhs s' (elim_mat k k n A1 A1) (elim_mat 0 k n A1 B1))).

Lemma elim_step_spec n nrhs :
  fits n n -> fits n nrhs -> step_spec n nrhs (elim_step n nrhs).
Proof.
  intros Hf Hfb. split; [done|]. intros k s A B Hs Hk. unfold elim_step. simpl.
  destruct (pivot_swap_ok n nrhs k s A B) as (s1 & m & -> & Hm & Hs1); [done..|]. simpl.
  exists m. destruct (elim_below_ok n nrhs k s1 _ _ Hf Hfb Hs1 Hk) as [[Ht ->]|[Ht (s2 & -> & Hs2)]];
    eexists _, _; split; [done| |done|]; split; [lia|by left|lia|by right].
Qed.

Lemma swap_mat_same k M i j : swap_mat k k M i j = M i j.
Proof. unfold swap_mat. mat_cases. Qed.

Lemma elim_step_task1_spec n nrhs :
  fits n n -> fits n nrhs -> step_spec n nrhs (elim_step_task1 n nrhs).
Proof.
  intros Hf Hfb. split; [done|]. intros k s A B [Ha Hb] Hk. unfold elim_step_task1. simpl.
  assert (Hs : lin_rep n nrhs s (swap_mat k k A) (swap_mat k k B)).
  { split; eapply rep_ext; [|exact Ha| |exact Hb]; intros; by rewrite swap_mat_same. }
  exists k. destruct (elim_below_ok n nrhs k s _ _ Hf Hfb Hs Hk) as [[Ht ->]|[Ht (s2 & -> & Hs2)]];
    eexists _, _; split; [done| |done|]; split; [lia|by left|lia|by right].
Qed.

(** Any invariant of the elimination steps holds after the phase. *)
Lemma elim_phase_ok n nrhs step (P : Z -> mat F -> mat F -> Prop) s A B :
  0 <= n -> step_spec n nrhs step -> lin_rep n nrhs s A B -> P 0 A B ->
  (∀ k m A B, 0 <= k < n - 1 -> k <= m < n -> P k A B -> tiny (swap_mat k m A) k = false ->
     P (k + 1) (elim_mat k k n (swap_mat k m A) (swap_mat k m A))
               (elim_mat 0 k n (swap_mat k m A) (swap_mat k m B))) ->
  ∃ s' r A' B', for_up 0 (n - 1) step (s, None) = Ret (s', r) ∧ lin_rep n nrhs s' A' B' ∧
    (r = Some (-1) ∨ r = None ∧ P (Z.max 0 (n - 1)) A' B').
Proof.
  intros Hn [Hdone Hstep] Hs HP Hinv.
  destruct (decide (n = 0)) as [->|Hn0].
  { rewrite for_up_empty by lia. exists s, None, A, B. split; [done|]. split; [done|]. by right. }
  destruct (for_up_inv (fun k sr => ∃ A' B', lin_rep n nrhs sr.1 A' B' ∧
      (sr.2 = Some (-1) ∨ sr.2 = None ∧ P k A' B')) 0 (n - 1) step (s, None))
    as ([s' r] & -> & A' & B' & Hs' & Hr).
  - lia.
  - exists A, B. split; [done|]. by right.
  - intros k [s' r] Hk (A' & B' & Hs' & Hr); simpl in *.
    destruct Hr as [->|[-> HPk]].
    + rewrite Hdone. eexists. split; [done|]. exists A', B'. split; [done|]. by left.
    + destruct (Hstep k s' A' B' Hs') as (m & s2 & r2 & -> & Hm & Hcase); [lia|].
      eexists. split; [done|].
      destruct Hcase as [(Ht & -> & Hs2)|(Ht & -> & Hs2)]; (eexists _, _; split; [done|]).
      * by left.
      * right. split; [done|]. by apply Hinv.
  - exists s', r, A', B'. simpl in *. split; [done|]. split; [done|].
    destruct Hr as [->|[-> HPn]]; [by left|right]. split; [done|].
    by replace (Z.max 0 (n - 1)) with (n - 1) by lia.
Qed.

(** A schedule hands out every column once. *)
Definition full_sched (nrhs : Z) (sched : list Z) : Prop := Permutation sched (seqZ 0 nrhs).

Lemma full_sched_seq nrhs : full_sched nrhs (seqZ 0 nrhs).
Proof. apply Permutation_refl. Qed.

Lemma full_sched_NoDup nrhs sched : full_sched nrhs sched -> NoDup sched.
Proof. intros Hp. rewrite Hp. apply NoDup_seqZ. Qed.

Lemma full_sched_in nrhs sched j : full_sched nrhs sched -> j ∈ sched <-> 0 <= j < nrhs.
Proof. intros Hp. rewrite Hp, elem_of_seqZ. lia. Qed.

Lemma full_sched_Forall nrhs sched : full_sched nrhs sched -> Forall (fun j => 0 <= j < nrhs) sched.
Proof. intros Hp. apply Forall_forall. intros j Hj. by apply (full_sched_in nrhs sched). Qed.

#[local] Hint Resolve full_sched_NoDup full_sched_Forall : core.

(** Every column solved from the state [B]. *)
Definition all_solved (n : Z) (A B : mat F) : mat F := fun i j => col_solve n A B j 0 i j.

Lemma back_subst_ok n nrhs sched s A B :
  fits n n -> fits n nrhs -> full_sched nrhs sched -> lin_rep n nrhs s A B ->
  ∃ b', back_subst sched n nrhs s = Ret (b', (0 <? nrhs) && tiny_from n A 0) ∧
        rep n nrhs b' (all_solved n A B).
Proof.
  intros Hf Hfb Hsch [Ha Hb]. unfold back_subst.
  destruct (back_cols_ok n nrhs (ma s) A sched Hf Hfb Ha) with (b := mb s) (B := B) (f := false)
    as (b' & -> & Hb'); [eauto..|].
  exists b'. split.
  - simpl. do 2 f_equal. destruct (0 <? nrhs) eqn:E; b2p.
    + assert (0 ∈ sched) as Hin by (apply (full_sched_in nrhs); [done|lia]).
      destruct (tiny_from n A 0); simpl.
      * apply existsb_exists. exists 0. split; [by apply list_elem_of_In|done].
      * clear. by induction sched.
    + destruct sched as [|j ?]; [done|].
      assert (0 <= j < nrhs) by (apply (full_sched_in nrhs (j :: sched)); [done|set_solver]). lia.
  - eapply rep_ext, Hb'. intros i j _ Hj. unfold cols_solve, all_solved.
    rewrite bool_decide_eq_true_2; [done|]. by apply (full_sched_in nrhs).
Qed.

(** The result of a solver, for every kind of number: it always returns, with
    0 or -1, and after 0 the right-hand sides have been solved. *)
Lemma my_dgesv_shape n nrhs sched s (P : Z -> mat F -> mat F -> Prop) A B :
  fits n n -> fits n nrhs -> full_sched nrhs sched -> lin_rep n nrhs s A B -> P 0 A B ->
  (∀ k m A B, 0 <= k < n - 1 -> k <= m < n -> P k A B -> tiny (swap_mat k m A) k = false ->
     P (k + 1) (elim_mat k k n (swap_mat k m A) (swap_mat k m A))
               (elim_mat 0 k n (swap_mat k m A) (swap_mat k m B))) ->
  ∃ rc s' A' B', my_dgesv sched n nrhs s = Ret (rc, s') ∧
    (rc = -1 ∧ lin_rep n nrhs s' A' B' ∨
     rc = 0 ∧ P (Z.max 0 (n - 1)) A' B' ∧ (0 <? nrhs) && tiny_from n A' 0 = false ∧
       lin_rep n nrhs s' A' (all_solved n A' B')).
Proof.
  intros Hf Hfb Hsch Hs HP Hinv. unfold my_dgesv.
  destruct (elim_phase_ok n nrhs (elim_step n nrhs) P s A B)
    as (s1 & r & A1 & B1 & -> & Hs1 & Hr);
    [apply Hf|by apply elim_step_spec|done..|]. simpl.
  destruct Hr as [->|[-> HP1]]; [by exists (-1), s1, A1, B1; auto|].
  destruct (back_subst_ok n nrhs sched s1 A1 B1) as (b' & -> & Hb'); [done..|]. simpl.
  destruct ((0 <? nrhs) && tiny_from n A1 0) eqn:Et.
  - eexists (-1), _, A1, _. split; [done|]. left. split; [done|]. split; [apply Hs1|exact Hb'].
  - eexists 0, _, A1, B1. split; [done|]. right. do 3 (split; [done|]). split; [apply Hs1|exact Hb'].
Qed.

End Phases.

(** * The back substitution of [task1/dgesv.c] *)

Section Task1.
Context {F : Type} `{Scalar F}.
Implicit Types (l a b : list F) (M A B : mat F) (s : lin F).

Lemma back_iter_task1_ok n nrhs a b A B j i :
  fits n n -> fits n nrhs -> rep n n a A -> rep n nrhs b B ->
  0 <= i < n -> 0 <= j < nrhs ->
  (tiny A i = true ∧ back_iter_task1 n nrhs a j i (b, None) = Ret (b, Some (-1))) ∨
  (tiny A i = false ∧
   ∃ b', back_iter_task1 n nrhs a j i (b, None) = Ret (b', None) ∧
         rep n nrhs b' (upd B i j (back_val n A B j i))).
Proof.
  intros Hf Hfb Ha Hb Hi Hj. unfold back_iter_task1. simpl.
  rewrite (ld_ok n nrhs b B) by (done || lia). simpl.
  rewrite (back_sum_ok n nrhs a b A B) by done. simpl.
  rewrite (tiny_pivot_ok n i a A) by done. simpl. fold (tiny A i).
  destruct (tiny A i); [by left|right]. split; [done|].
  rewrite (ld_ok n n a A) by (done || lia). simpl.
  destruct (st_ok n nrhs b B i j (back_val n A B j i) Hfb Hb) as (b' & Hst & Hb'); [lia..|].
  unfold back_val in Hst. rewrite Hst. simpl. by exists b'.
Qed.

(** The columns of [B] below [c] solved. *)
Definition solved_upto (n : Z) (A B : mat F) (c : Z) : mat F :=
  fun i j => if (0 <=? j) && (j <? c) then col_solve n A B j 0 i j else B i j.

Lemma back_col_task1_ok n nrhs a b A B j :
  fits n n -> fits n nrhs -> rep n n a A -> rep n nrhs b B -> 0 <= j < nrhs ->
  ∃ b' r B', for_down n 0 (back_iter_task1 n nrhs a j) (b, None) = Ret (b', r) ∧
    rep n nrhs b' B' ∧
    (r = Some (-1) ∧ tiny_from n A 0 = true ∨
     r = None ∧ tiny_from n A 0 = false ∧ B' = col_solve n A B j 0).
Proof.
  intros Hf Hfb Ha Hb Hj.
  destruct (for_down_inv (fun i (p : list F * option Z) => ∃ B', rep n nrhs p.1 B' ∧
      (p.2 = Some (-1) ∧ tiny_from n A i = true ∨
       p.2 = None ∧ tiny_from n A i = false ∧ B' = col_solve n A B j i))
      n 0 (back_iter_task1 n nrhs a j) (b, None)) as ([b' r] & -> & B' & Hb' & Hr).
  - destruct Hf; lia.
  - exists B. simpl. split; [done|]. right. by rewrite tiny_from_top, col_solve_top.
  - intros i [b' r] Hi (B' & Hb' & Hr); simpl in *.
    rewrite (tiny_from_step n A i) by lia.
    destruct Hr as [[-> Ht]|(-> & Ht & ->)]; rewrite Ht.
    + eexists. split; [done|]. exists B'. simpl. rewrite orb_true_r. auto.
    + destruct (back_iter_task1_ok n nrhs a b' A _ j i Hf Hfb Ha Hb')
        as [[Hti ->]|[Hti (b2 & -> & Hb2)]]; [lia|lia| |]; rewrite Hti; simpl.
      * eexists. split; [done|]. eexists. split; [done|]. by left.
      * eexists. split; [done|]. eexists. split; [done|]. right.
        split; [done|]. split; [done|]. by rewrite (col_solve_step n A B j i) by lia.
  - exists b', r, B'. by split.
Qed.

Lemma back_task1_ok n nrhs s A B :
  fits n n -> fits n nrhs -> lin_rep n nrhs s A B ->
  ∃ b' r B',
    for_up 0 nrhs (fun j => for_down n 0 (back_iter_task1 n nrhs (ma s) j)) (mb s, None) =
      Ret (b', r) ∧ rep n nrhs b' B' ∧
    (r = Some (-1) ∧ tiny_from n A 0 = true ∨
     r = None ∧ (0 <? nrhs) && tiny_from n A 0 = false ∧
       ∀ i j, 0 <= j < nrhs -> B' i j = all_solved n A B i j).
Proof.
  intros Hf Hfb [Ha Hb].
  destruct (for_up_inv (fun c (p : list F * option Z) => ∃ B', rep n nrhs p.1 B' ∧
      (p.2 = Some (-1) ∧ tiny_from n A 0 = true ∨
       p.2 = None ∧ (0 <? c) && tiny_from n A 0 = false ∧ ∀ i j, B' i j = solved_upto n A B c i j))
      0 nrhs (fun j => for_down n 0 (back_iter_task1 n nrhs (ma s) j)) (mb s, None))
    as ([b' r] & -> & B' & Hb' & Hr).
  - destruct Hfb as (? & ? & ?); lia.
  - exists B. split; [done|]. right. do 2 (split; [done|]). intros i j. unfold solved_upto. mat_cases.
  - intros c [b' r] Hc (B' & Hb' & Hr); simpl in *.
    destruct Hr as [[-> Ht]|(-> & Ht & HB)].
    + exists (b', Some (-1)). split; [|exists B'; by auto].
      clear -Hf. destruct (for_down_inv (fun _ p => p = (b', Some (-1))) n 0
        (back_iter_task1 n nrhs (ma s) c) (b', Some (-1))) as (p' & -> & ->); [destruct Hf; lia|done| |done].
      intros i p' _ ->. by eexists.
    + destruct (back_col_task1_ok n nrhs (ma s) b' A B' c Hf Hfb Ha Hb' Hc)
        as (b2 & r & B2 & -> & Hb2 & Hr2).
      eexists. split; [done|]. exists B2. simpl. split; [done|].
      destruct Hr2 as [[-> Ht2]|(-> & Ht2 & ->)]; [by left|right].
      split; [done|]. split; [by rewrite Ht2, andb_false_r|]. intros i j. unfold solved_upto.
      destruct (decide (j = c)) as [->|Hne].
      * rewrite (col_solve_ext n A B' B); [mat_cases|]. intros i'. rewrite HB. unfold solved_upto. mat_cases.
      * rewrite col_solve_other, HB by done. unfold solved_upto. mat_cases.
  - exists b', r, B'. simpl in *. split; [done|]. split; [done|].
    destruct Hr as [Hr|(-> & Ht & HB)]; [by left|right]. do 2 (split; [done|]).
    intros i j Hj. rewrite HB. unfold solved_upto, all_solved. mat_cases.
Qed.

Lemma my_dgesv_task1_shape n nrhs s (P : Z -> mat F -> mat F -> Prop) A B :
  fits n n -> fits n nrhs -> lin_rep n nrhs s A B -> P 0 A B ->
  (∀ k m A B, 0 <= k < n - 1 -> k <= m < n -> P k A B -> tiny (swap_mat k m A) k = false ->
     P (k + 1) (elim_mat k k n (swap_mat k m A) (swap_mat k m A))
               (elim_mat 0 k n (swap_mat k m A) (swap_mat k m B))) ->
  ∃ rc s' A' B', my_dgesv_task1 n nrhs s = Ret (rc, s') ∧
    (rc = -1 ∧ lin_rep n nrhs s' A' B' ∨
     rc = 0 ∧ P (Z.max 0 (n - 1)) A' B' ∧ (0 <? nrhs) && tiny_from n A' 0 = false ∧
       lin_rep n nrhs s' A' (all_solved n A' B')).
Proof.
  intros Hf Hfb Hs HP Hinv. unfold my_dgesv_task1.
  destruct (elim_phase_ok n nrhs (elim_step_task1 n nrhs) P s A B)
    as (s1 & r & A1 & B1 & -> & Hs1 & Hr);
    [apply Hf|by apply elim_step_task1_spec|done..|]. simpl.
  destruct Hr as [->|[-> HP1]]; [by exists (-1), s1, A1, B1; auto|].
  destruct (back_task1_ok n nrhs s1 A1 B1) as (b' & r2 & B2 & -> & Hb' & Hr2); [done..|]. simpl.
  destruct Hr2 as [[-> Et]|(-> & Et & HB)].
  - eexists (-1), _, A1, B2. split; [done|]. left. split; [done|]. split; [apply Hs1|exact Hb'].
  - eexists 0, _, A1, B1. split; [done|]. right. do 3 (split; [done|]). split; [apply Hs1|].
    eapply rep_ext, Hb'. intros; by apply HB.
Qed.

End Task1.

(** * The parallel region, row by row *)

Section Parallel.
Context {F : Type} `{Scalar F}.
Implicit Types (l a b : list F) (M A B : mat F) (s : omp_state F).

(** What holds in every state the region can reach: each column is solved
    down to the row its counter says, whatever the other columns did. *)
Definition omp_inv (n nrhs : Z) (A B : mat F) s : Prop :=
  Z.of_nat (length (om_rem s)) = nrhs ∧
  (∀ j r, om_rem s !! Z.to_nat j = Some r -> 0 <= r <= n) ∧
  (∃ M, rep n nrhs (om_b s) M ∧
     ∀ j r, 0 <= j -> om_rem s !! Z.to_nat j = Some r ->
       ∀ i, M i j = col_solve n A B j r i j) ∧
  (om_flag s = true <-> ∃ j r, 0 <= j ∧ om_rem s !! Z.to_nat j = Some r ∧ tiny_from n A r = true).

Lemma omp_inv_init n nrhs b A B :
  0 <= n -> 0 <= nrhs -> rep n nrhs b B -> omp_inv n nrhs A B (omp_init n nrhs b).
Proof.
  intros Hn Hm Hb. unfold omp_init, omp_inv; simpl.
  rewrite length_replicate. split; [lia|]. split; [|split].
  - intros j r Hj. apply lookup_replicate in Hj as [-> _]. lia.
  - exists B. split; [done|]. intros j r _ Hj i. apply lookup_replicate in Hj as [-> _].
    by rewrite col_solve_top.
  - split; [done|]. intros (j & r & _ & Hj & Ht). apply lookup_replicate in Hj as [-> _].
    by rewrite tiny_from_top in Ht.
Qed.

Lemma omp_rem_update (rems : list Z) j r j' r' :
  0 <= j -> 0 <= j' -> rems !! Z.to_nat j = Some r ->
  <[Z.to_nat j := r - 1]> rems !! Z.to_nat j' = Some r' ->
  (j' = j ∧ r' = r - 1) ∨ (j' ≠ j ∧ rems !! Z.to_nat j' = Some r').
Proof.
  intros Hj Hj' Hr Hlk. destruct (decide (j' = j)) as [->|Hne].
  - rewrite list_lookup_insert_eq in Hlk by (by eapply lookup_lt_Some). left. split; [done|congruence].
  - rewrite list_lookup_insert_ne in Hlk by lia. by right.
Qed.

Lemma omp_inv_step n nrhs a A B s s' :
  fits n n -> fits n nrhs -> rep n n a A -> omp_inv n nrhs A B s ->
  omp_step n nrhs a s s' -> omp_inv n nrhs A B s'.
Proof.
  intros Hf Hfb Ha (Hlen & Hrem & (M & Hb & HM) & Hflag) Hstep.
  destruct Hstep as [s j r b' f' Hj Hj0 Hr Hit].
  pose proof (Hrem _ _ Hj) as Hrn. pose proof (lookup_lt_Some _ _ _ Hj) as Hjl.
  destruct (back_iter_ok n nrhs a (om_b s) A M j (r - 1) (om_flag s) Hf Hfb Ha Hb)
    as (b2 & Hit2 & Hb2); [lia|lia|]. rewrite Hit2 in Hit. injection Hit as <- <-.
  unfold omp_inv; simpl. rewrite length_insert. split; [done|]. split; [|split].
  - intros j' r' Hj'. destruct (decide (0 <= j')) as [Hp|Hp].
    + destruct (omp_rem_update _ _ _ _ _ Hj0 Hp Hj Hj') as [[_ ->]|[_ ?]]; [lia|eauto].
    + replace (Z.to_nat j') with (Z.to_nat 0) in Hj' by lia.
      destruct (omp_rem_update _ _ _ _ _ Hj0 (Z.le_refl 0) Hj Hj') as [[_ ->]|[_ ?]]; [lia|eauto].
  - eexists. split; [exact Hb2|]. intros j' r' Hp Hj' i.
    destruct (omp_rem_update _ _ _ _ _ Hj0 Hp Hj Hj') as [[-> ->]|[Hne ?]].
    + rewrite (col_solve_step n A B j (r - 1)) by lia. replace (r - 1 + 1) with r by lia.
      unfold upd. rewrite (back_val_ext n A M (col_solve n A B j r)) by (intros; by apply HM).
      by rewrite (HM j r).
    + unfold upd. replace (j' =? j) with false by lia. rewrite andb_false_r. by apply HM.
  - rewrite orb_true_iff, Hflag. split.
    + intros [(j' & r' & Hp & Hj' & Ht)|Ht].
      * destruct (decide (j' = j)) as [->|Hne].
        -- exists j, (r - 1). rewrite list_lookup_insert_eq by done. split; [done|]. split; [done|].
           rewrite (tiny_from_step n A (r - 1)) by lia. replace (r - 1 + 1) with r by lia.
           assert (r' = r) as -> by congruence. by rewrite Ht, orb_true_r.
        -- exists j', r'. rewrite list_lookup_insert_ne by lia. done.
      * exists j, (r - 1). rewrite list_lookup_insert_eq by done. split; [done|]. split; [done|].
        rewrite (tiny_from_step n A (r - 1)) by lia. by rewrite Ht.
    + intros (j' & r' & Hp & Hj' & Ht).
      destruct (omp_rem_update _ _ _ _ _ Hj0 Hp Hj Hj') as [[-> ->]|[Hne ?]]; [|left; eauto].
      rewrite (tiny_from_step n A (r - 1)) in Ht by lia.
      apply orb_true_iff in Ht as [Ht|Ht]; [by right|].
      left. replace (r - 1 + 1) with r in Ht by lia. eauto.
Qed.

Lemma omp_inv_reach n nrhs a A B s s' :
  fits n n -> fits n nrhs -> rep n n a A ->
  rtc (omp_step n nrhs a) s s' -> omp_inv n nrhs A B s -> omp_inv n nrhs A B s'.
Proof.
  intros Hf Hfb Ha Hr. induction Hr as [|s s1 s2 Hst _ IH]; [done|].
  intros Hi. apply IH. by eapply omp_inv_step.
Qed.

(** No column waits for another: each one with rows left can do the next of them. *)
Lemma omp_enabled n nrhs a A B s j r :
  fits n n -> fits n nrhs -> rep n n a A -> omp_inv n nrhs A B s ->
  om_rem s !! j = Some r -> 0 < r ->
  ∃ b' f', omp_step n nrhs a s (Omp b' f' (<[j := r - 1]> (om_rem s))).
Proof.
  intros Hf Hfb Ha (Hlen & Hrem & (M & Hb & _) & _) Hj Hr. pose proof (lookup_lt_Some _ _ _ Hj).
  rewrite <- (Nat2Z.id j) in Hj |- *. pose proof (Hrem _ _ Hj).
  destruct (back_iter_ok n nrhs a (om_b s) A M (Z.of_nat j) (r - 1) (om_flag s) Hf Hfb Ha Hb)
    as (b2 & Hit & _); [lia|lia|].
  do 2 eexists. eapply omp_row; [exact Hj|lia|lia|exact Hit].
Qed.

Lemma omp_rem_pos n nrhs A B s : omp_inv n nrhs A B s -> Forall (Z.le 0) (om_rem s).
Proof.
  intros (_ & Hrem & _). apply Forall_lookup. intros j r Hj.
  specialize (Hrem (Z.of_nat j) r). rewrite Nat2Z.id in Hrem. apply Hrem in Hj. lia.
Qed.

Lemma omp_progress n nrhs a A B s :
  fits n n -> fits n nrhs -> rep n n a A -> omp_inv n nrhs A B s ->
  omp_done s ∨ ∃ s', omp_step n nrhs a s s'.
Proof.
  intros Hf Hfb Ha Hi. destruct (decide (Forall (eq 0) (om_rem s))) as [|Hnd]; [by left|right].
  apply not_Forall_Exists, Exists_exists in Hnd as (r & Hin & Hr); [|solve_decision].
  apply list_elem_of_lookup in Hin as [j Hj].
  pose proof (proj1 (Forall_lookup _ _) (omp_rem_pos _ _ _ _ _ Hi) j r Hj). simpl in Hr.
  edestruct omp_enabled as (b' & f' & Hst); [exact Hf|exact Hfb|exact Ha|exact Hi|exact Hj|lia|eauto].
Qed.

Lemma omp_step_sum n nrhs a s s' :
  omp_step n nrhs a s s' ->
  sum_list_with Z.to_nat (om_rem s) = S (sum_list_with Z.to_nat (om_rem s')).
Proof.
  intros Hst. destruct Hst as [s j r b' f' Hj Hj0 Hr Hit]; simpl.
  rewrite <- (take_drop_middle (om_rem s) (Z.to_nat j) r Hj) at 1.
  rewrite insert_take_drop by (by eapply lookup_lt_Some).
  rewrite !sum_list_with_app. simpl. lia.
Qed.

Lemma omp_nsteps_sum n nrhs a k s s' :
  nsteps (omp_step n nrhs a) k s s' ->
  (sum_list_with Z.to_nat (om_rem s) = k + sum_list_with Z.to_nat (om_rem s'))%nat.
Proof.
  intros Hk. induction Hk as [|k s s1 s2 Hst _ IH]; [done|]. apply omp_step_sum in Hst. lia.
Qed.

Lemma omp_done_sum n nrhs A B s :
  omp_inv n nrhs A B s -> omp_done s <-> sum_list_with Z.to_nat (om_rem s) = 0%nat.
Proof.
  intros Hi. apply omp_rem_pos in Hi. unfold omp_done.
  induction Hi as [|r l Hr _ IH]; cbn [sum_list_with]; [by split; [|constructor]|].
  rewrite Forall_cons, IH. split; [intros [<- ->]; done|lia].
Qed.

Lemma omp_finish n nrhs a A B s :
  fits n n -> fits n nrhs -> rep n n a A -> omp_inv n nrhs A B s ->
  ∃ s', rtc (omp_step n nrhs a) s s' ∧ omp_done s'.
Proof.
  intros Hf Hfb Ha.
  remember (sum_list_with Z.to_nat (om_rem s)) as m eqn:Hm. revert s Hm.
  induction m as [m IH] using lt_wf_ind. intros s ->.
  intros Hi. destruct (omp_progress n nrhs a A B s) as [|[s1 Hst]]; [done..|by exists s|].
  pose proof (omp_step_sum _ _ _ _ _ Hst).
  destruct (IH (sum_list_with Z.to_nat (om_rem s1)) ltac:(lia) s1 eq_refl) as (s2 & Hr & Hd).
  - by eapply omp_inv_step.
  - exists s2. split; [|done]. by eapply rtc_l.
Qed.

Lemma omp_inv_done n nrhs a A B s b :
  fits n n -> fits n nrhs -> rep n n a A -> rep n nrhs b B -> omp_inv n nrhs A B s -> omp_done s ->
  back_subst (seqZ 0 nrhs) n nrhs (Lin a b) = Ret (om_b s, om_flag s).
Proof.
  intros Hf Hfb Ha Hb (Hlen & Hrem & (M & HM & Hcol) & Hflag) Hd.
  destruct (back_subst_ok n nrhs (seqZ 0 nrhs) (Lin a b) A B) as (b' & -> & Hb');
    [done|done|apply full_sched_seq|by split|].
  assert (H0 : ∀ j, 0 <= j < nrhs -> om_rem s !! Z.to_nat j = Some 0).
  { intros j Hj. destruct (lookup_lt_is_Some_2 (om_rem s) (Z.to_nat j)) as [r Hr]; [lia|].
    rewrite Hr. f_equal. by eapply Forall_lookup_1 in Hd. }
  do 2 f_equal.
  - eapply (rep_unique n nrhs); [apply Hf|apply Hfb|exact Hb'|exact HM|].
    intros i j Hi Hj. unfold all_solved. symmetry. apply Hcol; [lia|by apply H0].
  - apply eq_true_iff_eq. rewrite andb_true_iff, Hflag. split.
    + intros [E Ht]. b2p. exists 0, 0. split; [done|]. split; [apply H0; lia|done].
    + intros (j & r & Hj & Hr & Ht). pose proof (lookup_lt_Some _ _ _ Hr).
      rewrite H0 in Hr by lia. injection Hr as <-. split; [apply Z.ltb_lt; lia|done].
Qed.

End Parallel.

(** * Results for every kind of number *)

Section Results.
Context {F : Type} `{Scalar F}.

(** The arrays have the sizes the interface asks for. *)
Definition sized (n nrhs : Z) (s : lin F) : Prop :=
  Z.of_nat (length (ma s)) = n * n ∧ Z.of_nat (length (mb s)) = n * nrhs.

Lemma sized_rep n nrhs s :
  sized n nrhs s -> lin_rep n nrhs s (mat_of f_eps n (ma s)) (mat_of f_eps nrhs (mb s)).
Proof. intros [Ha Hb]. split; by apply rep_mat_of. Qed.

Lemma lin_rep_sized n nrhs s A B : lin_rep n nrhs s A B -> sized n nrhs s.
Proof. intros [[Ha _] [Hb _]]. by split. Qed.

Lemma back_subst_sched n nrhs sched1 sched2 s :
  fits n n -> fits n nrhs -> sized n nrhs s ->
  full_sched nrhs sched1 -> full_sched nrhs sched2 ->
  back_subst sched1 n nrhs s = back_subst sched2 n nrhs s.
Proof.
  intros Hf Hfb Hs H1 H2. apply sized_rep in Hs.
  destruct (back_subst_ok n nrhs sched1 s _ _ Hf Hfb H1 Hs) as (b1 & -> & Hb1).
  destruct (back_subst_ok n nrhs sched2 s _ _ Hf Hfb H2 Hs) as (b2 & -> & Hb2).
  do 2 f_equal. by eapply (rep_unique n nrhs); [apply Hf|apply Hfb|exact Hb1|exact Hb2|].
Qed.

Lemma my_dgesv_sched n nrhs sched1 sched2 s :
  fits n n -> fits n nrhs -> sized n nrhs s ->
  full_sched nrhs sched1 -> full_sched nrhs sched2 ->
  my_dgesv sched1 n nrhs s = my_dgesv sched2 n nrhs s.
Proof.
  intros Hf Hfb Hs H1 H2. unfold my_dgesv.
  destruct (elim_phase_ok n nrhs (elim_step n nrhs) (fun _ _ _ => True) s _ _
    (proj1 Hf) (elim_step_spec n nrhs Hf Hfb) (sized_rep n nrhs s Hs) I) as (s1 & r & A & B & -> & Hs1 & _);
    [done|]. simpl.
  destruct r; [done|]. erewrite back_subst_sched; [done|done|done| |exact H1|exact H2].
  by eapply lin_rep_sized.
Qed.

(** C2: for every kind of number, binary64 included, [my_dgesv] reads and
    writes inside its two arrays, its [int] index arithmetic does not
    overflow, it terminates with 0 or -1, and it keeps the sizes of the
    arrays, whenever [n * n] and [n * nrhs] fit in [int]. *)
Theorem my_dgesv_total n nrhs sched s :
  fits n n -> fits n nrhs -> full_sched nrhs sched -> sized n nrhs s ->
  ∃ rc s', my_dgesv sched n nrhs s = Ret (rc, s') ∧ (rc = 0 ∨ rc = -1) ∧ sized n nrhs s'.
Proof.
  intros Hf Hfb Hsch Hs.
  destruct (my_dgesv_shape n nrhs sched s (fun _ _ _ => True) _ _ Hf Hfb Hsch (sized_rep _ _ _ Hs) I)
    as (rc & s' & A & B & -> & Hcase); [done|].
  exists rc, s'. split; [done|].
  destruct Hcase as [[-> Hr]|(-> & _ & _ & Hr)]; (split; [tauto|]); by eapply lin_rep_sized.
Qed.

(** The schedule of the OpenMP loop of [dgesv.c] does not matter: every
    order in which the columns are handed out gives the same arrays and the
    same return code, bit for bit. *)
Theorem my_dgesv_schedule_irrelevant n nrhs sched s :
  fits n n -> fits n nrhs -> full_sched nrhs sched -> sized n nrhs s ->
  my_dgesv sched n nrhs s = my_dgesv (seqZ 0 nrhs) n nrhs s.
Proof. intros Hf Hfb Hsch Hs. by apply my_dgesv_sched, full_sched_seq. Qed.

(** [dgesv-optimal1.c] computes the same as [dgesv.c], however the
    implementation cuts the columns into chunks. *)
Theorem my_dgesv_optimal1_agrees n nrhs chunks s :
  fits n n -> fits n nrhs -> full_sched nrhs (concat chunks) -> sized n nrhs s ->
  my_dgesv_optimal1 chunks n nrhs s = my_dgesv (seqZ 0 nrhs) n nrhs s.
Proof.
  intros Hf Hfb Hsch Hs. rewrite <- (my_dgesv_sched n nrhs (concat chunks)) by (done || apply full_sched_seq).
  unfold my_dgesv_optimal1, my_dgesv, back_subst.
  destruct (for_up 0 (n - 1) (elim_step n nrhs) (s, None)) as [[s1 [rc|]]|]; simpl; [done| |done].
  by rewrite for_list_concat.
Qed.

(** C3: the parallel region of [dgesv.c] is deterministic and terminates: when
    the threads interleave row by row in any way, every state they reach can
    be run to completion, and every completed run leaves the right-hand sides
    and the [error_flag] of the sequential loop. *)
Theorem omp_interleaving_deterministic n nrhs s s' :
  fits n n -> fits n nrhs -> sized n nrhs s ->
  rtc (omp_step n nrhs (ma s)) (omp_init n nrhs (mb s)) s' ->
  (∃ s'', rtc (omp_step n nrhs (ma s)) s' s'' ∧ omp_done s'') ∧
  (omp_done s' -> back_subst (seqZ 0 nrhs) n nrhs s = Ret (om_b s', om_flag s')).
Proof.
  intros Hf Hfb Hs Hr. apply sized_rep in Hs as [Ha Hb].
  assert (Hi : omp_inv n nrhs (mat_of f_eps n (ma s)) (mat_of f_eps nrhs (mb s)) s').
  { eapply omp_inv_reach; [done..|exact Hr|]. apply omp_inv_init; [apply Hf|apply Hfb|done]. }
  split; [by eapply omp_finish|]. intros Hd. destruct s as [a b]. by eapply omp_inv_done.
Qed.

(** Every schedule of the parallel region completes: whatever the threads did so
    far, each column with rows left can do its next row without waiting for another
    column, and after exactly [n * nrhs] rows, never more, all columns are done. *)
Theorem omp_schedules_complete n nrhs s k s' :
  fits n n -> fits n nrhs -> sized n nrhs s ->
  nsteps (omp_step n nrhs (ma s)) k (omp_init n nrhs (mb s)) s' ->
  (∀ j r, om_rem s' !! j = Some r -> 0 < r ->
     ∃ b f, omp_step n nrhs (ma s) s' (Omp b f (<[j := r - 1]> (om_rem s')))) ∧
  Z.of_nat k <= n * nrhs ∧ (Z.of_nat k = n * nrhs <-> omp_done s').
Proof.
  intros Hf Hfb Hs Hr. apply sized_rep in Hs as [Ha Hb].
  assert (Hi : omp_inv n nrhs (mat_of f_eps n (ma s)) (mat_of f_eps nrhs (mb s)) s').
  { eapply omp_inv_reach; [done..|by eapply rtc_nsteps_2|]. apply omp_inv_init; [apply Hf|apply Hfb|done]. }
  apply omp_nsteps_sum in Hr. rewrite (omp_done_sum _ _ _ _ _ Hi).
  assert (E : Z.of_nat (sum_list_with Z.to_nat (replicate (Z.to_nat nrhs) n)) = n * nrhs).
  { destruct Hf as [Hn _], Hfb as [_ [Hm _]]. rewrite <- (Z2Nat.id nrhs) at 2 by lia.
    induction (Z.to_nat nrhs) as [|m IH]; cbn [replicate sum_list_with]; lia. }
  cbn [omp_init om_rem] in Hr. split; [|lia]. intros j r Hj Hpos. by eapply omp_enabled.
Qed.

End Results.

(** ** Witnesses: a 2 by 2 system with two right-hand sides, in binary64 *)

Definition ex_binary64 : lin SpecFloat.spec_float :=
  Lin (f_of_Z <$> [0; 2; 3; 4]) (f_of_Z <$> [5; 6; 7; 8]).

Lemma my_dgesv_total_witness :
  ∃ rc s', my_dgesv [1; 0] 2 2 ex_binary64 = Ret (rc, s') ∧ (rc = 0 ∨ rc = -1) ∧ sized 2 2 s'.
Proof.
  apply my_dgesv_total; [done|done| |done].
  apply (Permutation_swap 0 1 []).
Defined.

Lemma my_dgesv_schedule_irrelevant_witness :
  my_dgesv [1; 0] 2 2 ex_binary64 = my_dgesv [0; 1] 2 2 ex_binary64.
Proof.
  apply (my_dgesv_schedule_irrelevant 2 2 [1; 0] ex_binary64); [done|done| |done].
  apply (Permutation_swap 0 1 []).
Defined.

Lemma my_dgesv_optimal1_agrees_witness :
  my_dgesv_optimal1 [[1]; [0]] 2 2 ex_binary64 = my_dgesv [0; 1] 2 2 ex_binary64.
Proof.
  apply (my_dgesv_optimal1_agrees 2 2 [[1]; [0]] ex_binary64); [done|done| |done].
  apply (Permutation_swap 0 1 []).
Defined.

Lemma omp_interleaving_deterministic_witness :
  rtc (omp_step 2 2 (ma ex_binary64)) (omp_init 2 2 (mb ex_binary64)) (omp_init 2 2 (mb ex_binary64)) ∧
  ∃ s'', rtc (omp_step 2 2 (ma ex_binary64)) (omp_init 2 2 (mb ex_binary64)) s'' ∧ omp_done s''.
Proof.
  split; [apply rtc_refl|].
  apply (omp_interleaving_deterministic 2 2 ex_binary64 (omp_init 2 2 (mb ex_binary64)));
    [done|done|done|apply rtc_refl].
Defined.

Lemma omp_schedules_complete_witness :
  nsteps (omp_step 2 2 (ma ex_binary64)) 0 (omp_init 2 2 (mb ex_binary64)) (omp_init 2 2 (mb ex_binary64)) ∧
  ∃ s', omp_step 2 2 (ma ex_binary64) (omp_init 2 2 (mb ex_binary64)) s'.
Proof.
  split; [constructor|].
  destruct (omp_schedules_complete 2 2 ex_binary64 0 (omp_init 2 2 (mb ex_binary64))) as [H _];
    [done|done|done|constructor|].
  destruct (H 1%nat 2) as (b & f & Hst); [done|done|]. eauto.
Defined.
