(* ===== verification/DgesvExact.v ===== *)
(** The linear solvers in exact arithmetic: what [my_dgesv] returns solves
    the system it was given, and a return code of 0 means that the system has
    exactly one solution. *)

From S2P Require Import Prelude Scalars Dgesv.
From Stdlib Require Import Field QArith Qcanon.
Local Open Scope Z_scope.

(** * Linear systems *)

Section Systems.
Context {F : Type} `{ES : ExactScalar F}.

(** The sum of [g] over the indices in [l]. *)
Definition lsum (g : Z -> F) (l : list Z) : F := foldr (fun k s => f_add (g k) s) f_zero l.

(** Row [i] of [A] times column [j] of [X]. *)
Definition row_dot (n : Z) (A X : mat F) (i j : Z) : F :=
  lsum (fun c => f_mul (A i c) (X c j)) (seqZ 0 n).

(** [A * X = B], for [A] of size [n] by [n] and [nrhs] right-hand sides. *)
Definition solves (n nrhs : Z) (A B X : mat F) : Prop :=
  ∀ i j, 0 <= i < n -> 0 <= j < nrhs -> row_dot n A X i j = B i j.

(** [A] is zero below the diagonal in its first [k] columns. *)
Definition lower_zero (n k : Z) (A : mat F) : Prop :=
  ∀ r c, 0 <= c < k -> c < r < n -> A r c = f_zero.

Definition same_solutions (n nrhs : Z) (A B A' B' : mat F) : Prop :=
  ∀ X, solves n nrhs A B X <-> solves n nrhs A' B' X.

End Systems.

Section Algebra.
Context {F : Type} `{ES : ExactScalar F}.
Implicit Types (A B X M : mat F).

Add Field scalar_field : (f_field (F := F)).

Lemma lsum_ext (g h : Z -> F) l : (∀ k, k ∈ l -> g k = h k) -> lsum g l = lsum h l.
Proof.
  induction l as [|k l IH]; intros Hgh; [done|]. simpl.
  rewrite (Hgh k) by set_solver. f_equal. apply IH. intros; apply Hgh; set_solver.
Qed.

Lemma lsum_zero (g : Z -> F) l : (∀ k, k ∈ l -> g k = f_zero) -> lsum g l = f_zero.
Proof.
  induction l as [|k l IH]; intros Hg; [done|]. simpl.
  rewrite (Hg k) by set_solver. rewrite IH; [ring|]. intros; apply Hg; set_solver.
Qed.

Lemma lsum_app (g : Z -> F) l1 l2 : lsum g (l1 ++ l2) = f_add (lsum g l1) (lsum g l2).
Proof. induction l1 as [|k l1 IH]; simpl; [|rewrite IH]; ring. Qed.

Lemma lsum_axpy (t : F) (g h : Z -> F) l :
  lsum (fun k => f_add (g k) (f_mul t (h k))) l = f_add (lsum g l) (f_mul t (lsum h l)).
Proof. induction l as [|k l IH]; simpl; [|rewrite IH]; ring. Qed.

Lemma foldl_sub (g : Z -> F) l t0 :
  foldl (fun t k => f_sub t (g k)) t0 l = f_sub t0 (lsum g l).
Proof. revert t0. induction l as [|k l IH]; intros t0; simpl; [|rewrite IH]; ring. Qed.

Lemma row_dot_ext n A A' X X' i i' j :
  (∀ c, 0 <= c < n -> A i c = A' i' c) -> (∀ c, 0 <= c < n -> X c j = X' c j) ->
  row_dot n A X i j = row_dot n A' X' i' j.
Proof.
  intros HA HX. apply lsum_ext. intros c Hc. apply elem_of_seqZ in Hc.
  by rewrite HA, HX by lia.
Qed.

Lemma row_dot_split n A X i j :
  0 <= i < n ->
  row_dot n A X i j =
    f_add (lsum (fun c => f_mul (A i c) (X c j)) (seqZ 0 i))
      (f_add (f_mul (A i i) (X i j))
        (lsum (fun c => f_mul (A i c) (X c j)) (seqZ (i + 1) (n - (i + 1))))).
Proof.
  intros Hi. unfold row_dot. replace n with (i + (n - i)) at 1 by lia.
  rewrite seqZ_app by lia. rewrite lsum_app. f_equal.
  rewrite Z.add_0_l, (seqZ_cons i) by lia. simpl.
  replace (Z.succ i) with (i + 1) by lia. by replace (Z.pred (n - i)) with (n - (i + 1)) by lia.
Qed.

(** ** Exchanging two rows *)

Lemma swap_mat_index k m i :
  ∃ i', (∀ M j, swap_mat k m M i j = M i' j) ∧
        (∀ n, 0 <= k < n -> 0 <= m < n -> 0 <= i < n -> 0 <= i' < n).
Proof.
  unfold swap_mat. destruct (i =? k) eqn:E1; b2p; [exists m|].
  2: destruct (i =? m) eqn:E2; b2p; [exists k|exists i].
  all: split; [done|intros; lia].
Qed.

Lemma solves_swap_1 n nrhs k m A B X :
  0 <= k < n -> 0 <= m < n -> solves n nrhs A B X ->
  solves n nrhs (swap_mat k m A) (swap_mat k m B) X.
Proof.
  intros Hk Hm HS i j Hi Hj. destruct (swap_mat_index k m i) as (i' & Hsw & Hr).
  rewrite (Hsw B). rewrite <- (HS i' j) by eauto. by apply row_dot_ext.
Qed.

Lemma swap_mat_involutive k m M i j : swap_mat k m (swap_mat k m M) i j = M i j.
Proof. unfold swap_mat. mat_cases. Qed.

Lemma solves_ext n nrhs A A' B B' X :
  (∀ i j, A i j = A' i j) -> (∀ i j, B i j = B' i j) ->
  solves n nrhs A B X -> solves n nrhs A' B' X.
Proof.
  intros HA HB HS i j Hi Hj. rewrite <- HB, <- HS by done. by apply row_dot_ext.
Qed.

Lemma same_solutions_swap n nrhs k m A B :
  0 <= k < n -> 0 <= m < n -> same_solutions n nrhs A B (swap_mat k m A) (swap_mat k m B).
Proof.
  intros Hk Hm X. split; [by apply solves_swap_1|].
  intros HS%(solves_swap_1 n nrhs k m); [|done..].
  eapply solves_ext, HS; intros; apply swap_mat_involutive.
Qed.

Lemma lower_zero_swap n k m A :
  0 <= k -> k <= m < n -> lower_zero n k A -> lower_zero n k (swap_mat k m A).
Proof.
  intros Hk Hm Hz r c Hc Hr. unfold swap_mat.
  repeat case_bool; subst; apply Hz; lia.
Qed.

(** ** Clearing a column *)

Lemma elim_mat_row n k A i c :
  0 <= k < n -> lower_zero n k A -> k < i < n -> 0 <= c < n ->
  elim_mat k k n A A i c = f_add (A i c) (f_mul (mult k A i) (A k c)).
Proof.
  intros Hk Hz Hi Hc. unfold elim_mat. mat_cases.
  all: try (rewrite (Hz k c) by lia; ring).
Qed.

Lemma elim_mat_low lo k n A M i c : i <= k -> elim_mat lo k n A M i c = M i c.
Proof. intros Hi. unfold elim_mat. mat_cases. Qed.

Lemma row_dot_elim n k A X i j :
  0 <= k < n -> lower_zero n k A -> k < i < n ->
  row_dot n (elim_mat k k n A A) X i j =
    f_add (row_dot n A X i j) (f_mul (mult k A i) (row_dot n A X k j)).
Proof.
  intros Hk Hz Hi. unfold row_dot. rewrite <- lsum_axpy. apply lsum_ext.
  intros c Hc. apply elem_of_seqZ in Hc. rewrite elim_mat_row by (done || lia). ring.
Qed.

Lemma same_solutions_elim n nrhs k A B :
  0 <= k < n -> lower_zero n k A ->
  same_solutions n nrhs A B (elim_mat k k n A A) (elim_mat 0 k n A B).
Proof.
  intros Hk Hz X. split; intros HS i j Hi Hj.
  - destruct (decide (i <= k)) as [Hik|Hik].
    + rewrite elim_mat_low by done. rewrite <- (HS i j) by done.
      apply row_dot_ext; [|done]. intros; by apply elim_mat_low.
    + rewrite row_dot_elim by (done || lia). rewrite !HS by (done || lia).
      unfold elim_mat. mat_cases.
  - assert (Hrow : ∀ r, 0 <= r <= k -> row_dot n A X r j = B r j).
    { intros r Hr. specialize (HS r j ltac:(lia) Hj). rewrite elim_mat_low in HS by lia.
      rewrite <- HS. apply row_dot_ext; [|done]. intros c _. symmetry. apply elim_mat_low. lia. }
    destruct (decide (i <= k)) as [Hik|Hik]; [apply Hrow; lia|].
    specialize (HS i j Hi Hj). rewrite row_dot_elim, (Hrow k) in HS by (done || lia).
    revert HS. unfold elim_mat. mat_cases. intros HS.
    transitivity (f_sub (f_add (row_dot n A X i j) (f_mul (mult k A i) (B k j)))
                        (f_mul (mult k A i) (B k j))); [ring|].
    rewrite HS. ring.
Qed.

Lemma lower_zero_elim n k A :
  0 <= k < n -> tiny A k = false -> lower_zero n k A ->
  lower_zero n (k + 1) (elim_mat k k n A A).
Proof.
  intros Hk Ht Hz r c Hc Hr. apply f_eps_nonzero in Ht.
  destruct (decide (c = k)) as [->|Hck].
  - rewrite elim_mat_row by (done || lia). unfold mult. field. done.
  - rewrite <- (Hz r c) by lia. unfold elim_mat. mat_cases.
Qed.

End Algebra.

(** * Back substitution solves triangular systems *)

Section Triangular.
Context {F : Type} `{ES : ExactScalar F}.
Implicit Types (A B X M : mat F).

Add Field scalar_field2 : (f_field (F := F)).

Lemma col_solve_skip n A B j r i :
  r < n -> i ≠ r -> col_solve n A B j r i j = col_solve n A B j (r + 1) i j.
Proof. intros Hr Hi. rewrite (col_solve_step n A B j r) by done. mat_cases. Qed.

(** Rows above the current one still hold the right-hand side. *)
Lemma col_solve_low n A B j r i :
  r <= n -> i < r -> col_solve n A B j r i j = B i j.
Proof.
  intros Hr. remember (Z.to_nat (n - r)) as d eqn:Hd. revert r Hr Hd.
  induction d as [|d IH]; intros r Hr Hd Hi.
  - replace r with n by lia. by rewrite col_solve_top.
  - rewrite col_solve_skip by lia. apply IH; lia.
Qed.

(** Rows already solved keep their value. *)
Lemma col_solve_high n A B j r i :
  r <= i < n -> col_solve n A B j r i j = col_solve n A B j i i j.
Proof.
  intros Hr. remember (Z.to_nat (i - r)) as d eqn:Hd. revert r Hr Hd.
  induction d as [|d IH]; intros r Hr Hd.
  - by replace r with i by lia.
  - rewrite col_solve_skip by lia. apply IH; lia.
Qed.

(** The value of row [i] in terms of the rows below it. *)
Lemma all_solved_row n A B i j :
  0 <= i < n ->
  all_solved n A B i j =
    f_div (f_sub (B i j)
             (lsum (fun c => f_mul (A i c) (all_solved n A B c j)) (seqZ (i + 1) (n - (i + 1)))))
          (A i i).
Proof.
  intros Hi. unfold all_solved at 1. rewrite col_solve_high by lia.
  rewrite (col_solve_step n A B j i) by lia. unfold upd. rewrite !Z.eqb_refl. simpl.
  unfold back_val, back_dot. f_equal.
  rewrite foldl_sub, col_solve_low by lia. f_equal.
  apply lsum_ext. intros c Hc. apply elem_of_seqZ in Hc. f_equal.
  rewrite (col_solve_high n A B j (i + 1)) by lia.
  unfold all_solved. by rewrite (col_solve_high n A B j 0) by lia.
Qed.

Lemma row_dot_upper n A X i j :
  lower_zero n (Z.max 0 (n - 1)) A -> 0 <= i < n ->
  row_dot n A X i j = f_add (f_mul (A i i) (X i j))
      (lsum (fun c => f_mul (A i c) (X c j)) (seqZ (i + 1) (n - (i + 1)))).
Proof.
  intros Hz Hi. rewrite row_dot_split by done. rewrite lsum_zero; [ring|].
  intros c Hc. apply elem_of_seqZ in Hc. rewrite (Hz i c) by lia. ring.
Qed.

(** With a non-zero diagonal the solution is the computed one, and only it. *)
Lemma triangular_solution n nrhs A B X :
  lower_zero n (Z.max 0 (n - 1)) A -> (∀ i, 0 <= i < n -> A i i ≠ f_zero) ->
  solves n nrhs A B X <->
  (∀ i j, 0 <= i < n -> 0 <= j < nrhs -> X i j = all_solved n A B i j).
Proof.
  intros Hz Hd. split; intros HX.
  - intros i j Hi. remember (Z.to_nat (n - i)) as d eqn:Hdn. revert i Hi Hdn.
    induction d as [d IH] using lt_wf_ind. intros i Hi -> Hj.
    specialize (HX i j Hi Hj). rewrite row_dot_upper in HX by done.
    rewrite all_solved_row, <- HX by done.
    rewrite (lsum_ext (fun c => f_mul (A i c) (all_solved n A B c j))
               (fun c => f_mul (A i c) (X c j))); [field; by apply Hd|].
    intros c Hc. apply elem_of_seqZ in Hc. simpl. f_equal. symmetry.
    eapply IH; [|lia|done|done]. lia.
  - intros i j Hi Hj. rewrite row_dot_upper, HX by done.
    rewrite (lsum_ext (fun c => f_mul (A i c) (X c j))
               (fun c => f_mul (A i c) (all_solved n A B c j))).
    + rewrite (all_solved_row n A B i j) by done. field. by apply Hd.
    + intros c Hc. apply elem_of_seqZ in Hc. by rewrite HX by lia.
Qed.

Lemma tiny_from_false n A i :
  tiny_from n A 0 = false -> 0 <= i < n -> A i i ≠ f_zero.
Proof.
  intros Ht Hi. apply f_eps_nonzero. fold (tiny A i).
  destruct (tiny A i) eqn:E; [|done]. exfalso.
  assert (tiny_from n A 0 = true); [|congruence].
  apply existsb_exists. exists i. split; [|done]. apply list_elem_of_In, elem_of_seqZ. lia.
Qed.

(** ** The invariant of the elimination *)

Definition sys_inv (n nrhs : Z) (A0 B0 : mat F) (k : Z) (A B : mat F) : Prop :=
  same_solutions n nrhs A0 B0 A B ∧ lower_zero n k A.

Lemma sys_inv_step n nrhs A0 B0 k m A B :
  0 <= k < n - 1 -> k <= m < n -> sys_inv n nrhs A0 B0 k A B -> tiny (swap_mat k m A) k = false ->
  sys_inv n nrhs A0 B0 (k + 1) (elim_mat k k n (swap_mat k m A) (swap_mat k m A))
                               (elim_mat 0 k n (swap_mat k m A) (swap_mat k m B)).
Proof.
  intros Hk Hm [Hs Hz] Ht.
  pose proof (lower_zero_swap n k m A ltac:(lia) Hm Hz) as Hz'. split.
  - intros X. rewrite (Hs X).
    pose proof (same_solutions_swap n nrhs k m A B ltac:(lia) ltac:(lia) X) as ->.
    by apply same_solutions_elim; [lia|].
  - by apply lower_zero_elim; [lia| |].
Qed.

Lemma sys_inv_init n nrhs A B : sys_inv n nrhs A B 0 A B.
Proof. split; [by intros X|]. intros r c Hc. lia. Qed.

(** The system of a triangular form that passed every pivot test. *)
Lemma sys_inv_final n nrhs A0 B0 A B X :
  sys_inv n nrhs A0 B0 (Z.max 0 (n - 1)) A B -> (0 <? nrhs) && tiny_from n A 0 = false ->
  solves n nrhs A0 B0 X <->
  (∀ i j, 0 <= i < n -> 0 <= j < nrhs -> X i j = all_solved n A B i j).
Proof.
  intros [Hs Hz] Ht. rewrite (Hs X).
  destruct (0 <? nrhs) eqn:E; simpl in Ht; b2p.
  - apply triangular_solution; [done|]. intros i Hi. by apply (tiny_from_false n).
  - split; intros _ i j Hi Hj; lia.
Qed.

End Triangular.

(** * The solvers *)

Section Solvers.
Context {F : Type} `{ES : ExactScalar F}.

(** The matrix of coefficients, the right-hand sides and the result. *)
Definition coeffs (n : Z) (s : lin F) : mat F := mat_of f_zero n (ma s).
Definition rhs (nrhs : Z) (s : lin F) : mat F := mat_of f_zero nrhs (mb s).

(** [s'] holds the one solution of the system in [s]. *)
Definition unique_solution (n nrhs : Z) (s s' : lin F) : Prop :=
  ∀ X, solves n nrhs (coeffs n s) (rhs nrhs s) X <->
       (∀ i j, 0 <= i < n -> 0 <= j < nrhs -> X i j = rhs nrhs s' i j).

Lemma sized_lin_rep n nrhs s : sized n nrhs s -> lin_rep n nrhs s (coeffs n s) (rhs nrhs s).
Proof. intros [Ha Hb]. split; by apply rep_mat_of. Qed.

Lemma shape_unique n nrhs s s' A B :
  sys_inv n nrhs (coeffs n s) (rhs nrhs s) (Z.max 0 (n - 1)) A B ->
  (0 <? nrhs) && tiny_from n A 0 = false ->
  lin_rep n nrhs s' A (all_solved n A B) -> unique_solution n nrhs s s'.
Proof.
  intros Hinv Ht [_ Hb] X. rewrite (sys_inv_final _ _ _ _ _ _ _ Hinv Ht).
  assert (Hb' : rep n nrhs (mb s') (rhs nrhs s')) by apply rep_mat_of, Hb.
  split; intros HX i j Hi Hj; rewrite HX by done.
  - by eapply rep_eq.
  - by eapply rep_eq.
Qed.

Lemma my_dgesv_exact n nrhs sched s rc s' :
  fits n n -> fits n nrhs -> full_sched nrhs sched -> sized n nrhs s ->
  my_dgesv sched n nrhs s = Ret (rc, s') -> rc = -1 ∨ unique_solution n nrhs s s'.
Proof.
  intros Hf Hfb Hsch Hs Hret.
  destruct (my_dgesv_shape n nrhs sched s _ _ _ Hf Hfb Hsch (sized_lin_rep _ _ _ Hs)
              (sys_inv_init n nrhs _ _))
    as (rc' & s2 & A & B & Hret' & Hcase); [intros; by apply sys_inv_step|].
  rewrite Hret in Hret'. injection Hret' as -> ->.
  destruct Hcase as [[-> _]|(-> & Hinv & Ht & Hr)]; [by left|right]. by eapply shape_unique.
Qed.

Lemma my_dgesv_task1_exact n nrhs s rc s' :
  fits n n -> fits n nrhs -> sized n nrhs s ->
  my_dgesv_task1 n nrhs s = Ret (rc, s') -> rc = -1 ∨ unique_solution n nrhs s s'.
Proof.
  intros Hf Hfb Hs Hret.
  destruct (my_dgesv_task1_shape n nrhs s _ _ _ Hf Hfb (sized_lin_rep _ _ _ Hs)
              (sys_inv_init n nrhs _ _))
    as (rc' & s2 & A & B & Hret' & Hcase); [intros; by apply sys_inv_step|].
  rewrite Hret in Hret'. injection Hret' as -> ->.
  destruct Hcase as [[-> _]|(-> & Hinv & Ht & Hr)]; [by left|right]. by eapply shape_unique.
Qed.

End Solvers.

(** * Properties *)

Section Claims.
Context {F : Type} `{ES : ExactScalar F}.
Add Field scalar_field3 : (f_field (F := F)).

(** C1: in exact arithmetic, when [my_dgesv] returns 0 the array [b] holds the
    solution of the system given to it, and that system has no other. *)
Theorem my_dgesv_solves n nrhs sched s s' :
  fits n n -> fits n nrhs -> full_sched nrhs sched -> sized n nrhs s ->
  my_dgesv sched n nrhs s = Ret (0, s') -> unique_solution n nrhs s s'.
Proof.
  intros Hf Hfb Hsch Hs Hret.
  by destruct (my_dgesv_exact n nrhs sched s 0 s' Hf Hfb Hsch Hs Hret).
Qed.

(** C4: in exact arithmetic, a singular system (some column vector that is not
    zero is sent to zero) makes [my_dgesv] return -1. *)
Theorem my_dgesv_singular n nrhs sched s Y r :
  fits n n -> fits n nrhs -> 0 < nrhs -> full_sched nrhs sched -> sized n nrhs s ->
  (∀ i, 0 <= i < n -> row_dot n (coeffs n s) Y i 0 = f_zero) ->
  0 <= r < n -> Y r 0 ≠ f_zero ->
  ∃ s', my_dgesv sched n nrhs s = Ret (-1, s').
Proof.
  intros Hf Hfb Hpos Hsch Hs HY Hr HYr.
  destruct (my_dgesv_shape n nrhs sched s (fun _ _ _ => True) _ _ Hf Hfb Hsch (sized_rep _ _ _ Hs) I)
    as (rc & s' & A & B & Hret & _); [done|].
  destruct (my_dgesv_exact n nrhs sched s rc s' Hf Hfb Hsch Hs Hret) as [->|Hu]; [by exists s'|].
  exfalso. set (X1 := fun i j => if j =? 0 then f_add (rhs nrhs s' i j) (Y i 0) else rhs nrhs s' i j).
  assert (HX0 : solves n nrhs (coeffs n s) (rhs nrhs s) (rhs nrhs s')) by by apply Hu.
  assert (HX1 : solves n nrhs (coeffs n s) (rhs nrhs s) X1).
  { intros i j Hi Hj. rewrite <- HX0 by done. destruct (decide (j = 0)) as [->|Hj0].
    - transitivity (f_add (row_dot n (coeffs n s) (rhs nrhs s') i 0)
                          (f_mul f_one (row_dot n (coeffs n s) Y i 0))); [|rewrite HY by done; ring].
      unfold row_dot. rewrite <- lsum_axpy. apply lsum_ext. intros c _.
      unfold X1. rewrite Z.eqb_refl. ring.
    - apply row_dot_ext; [done|]. intros c _. unfold X1. mat_cases. }
  apply Hu with (i := r) (j := 0) in HX1; [|done|lia].
  unfold X1 in HX1. rewrite Z.eqb_refl in HX1. apply HYr.
  transitivity (f_sub (f_add (rhs nrhs s' r 0) (Y r 0)) (rhs nrhs s' r 0)); [ring|].
  rewrite HX1. ring.
Qed.

(** [task1/dgesv.c] always returns 0 or -1, and in exact arithmetic after 0
    its [b] is the one solution of the system. *)
Theorem my_dgesv_task1_solves n nrhs s :
  fits n n -> fits n nrhs -> sized n nrhs s ->
  ∃ rc s', my_dgesv_task1 n nrhs s = Ret (rc, s') ∧
           (rc = -1 ∨ rc = 0 ∧ unique_solution n nrhs s s').
Proof.
  intros Hf Hfb Hs.
  destruct (my_dgesv_task1_shape n nrhs s (fun _ _ _ => True) _ _ Hf Hfb (sized_rep _ _ _ Hs) I)
    as (rc & s' & A & B & Hret & Hcase); [done|].
  exists rc, s'. split; [done|].
  destruct (my_dgesv_task1_exact n nrhs s rc s' Hf Hfb Hs Hret) as [->|Hu]; [by left|].
  destruct Hcase as [[-> _]|[-> _]]; auto.
Qed.

(** Partial pivoting does not change the answer: when the version with and
    the version without pivoting both return 0 they leave the same [b]. *)
Theorem my_dgesv_versions_agree n nrhs sched s s1 s2 :
  fits n n -> fits n nrhs -> full_sched nrhs sched -> sized n nrhs s ->
  my_dgesv sched n nrhs s = Ret (0, s1) -> my_dgesv_task1 n nrhs s = Ret (0, s2) ->
  mb s1 = mb s2.
Proof.
  intros Hf Hfb Hsch Hs H1 H2.
  destruct (my_dgesv_shape n nrhs sched s (fun _ _ _ => True) _ _ Hf Hfb Hsch (sized_rep _ _ _ Hs) I)
    as (rc1 & s1' & A1 & B1 & Hret1 & Hc1); [done|].
  destruct (my_dgesv_task1_shape n nrhs s (fun _ _ _ => True) _ _ Hf Hfb (sized_rep _ _ _ Hs) I)
    as (rc2 & s2' & A2 & B2 & Hret2 & Hc2); [done|].
  rewrite H1 in Hret1. rewrite H2 in Hret2. injection Hret1 as <- <-. injection Hret2 as <- <-.
  destruct (my_dgesv_exact _ _ _ _ _ _ Hf Hfb Hsch Hs H1) as [|Hu1]; [done|].
  destruct (my_dgesv_task1_exact _ _ _ _ _ Hf Hfb Hs H2) as [|Hu2]; [done|].
  destruct Hc1 as [[? _]|(_ & _ & _ & Hr1)]; [done|].
  destruct Hc2 as [[? _]|(_ & _ & _ & Hr2)]; [done|].
  apply lin_rep_sized in Hr1 as [_ Hr1]. apply lin_rep_sized in Hr2 as [_ Hr2].
  eapply (rep_unique n nrhs); [apply Hf|apply Hfb|by apply rep_mat_of|by apply rep_mat_of|].
  apply Hu2. apply Hu1. done.
Qed.

End Claims.

(** ** Witnesses *)

Definition qc (l : list Z) : list Qc := (fun z => Q2Qc (inject_Z z)) <$> l.

(** x + 2 y = 5, 3 x + 4 y = 11. *)
Definition ex_system : lin Qc := Lin (qc [1; 2; 3; 4]) (qc [5; 11]).

(** The matrix of rows (1, 2) and (2, 4). *)
Definition ex_singular : lin Qc := Lin (qc [1; 2; 2; 4]) (qc [1; 1]).

Definition ex_kernel : mat Qc := fun i j => if i =? 0 then Q2Qc (inject_Z (-2)) else 1%Qc.

Lemma my_dgesv_solves_witness :
  ∃ s', my_dgesv [0] 2 1 ex_system = Ret (0, s') ∧ unique_solution 2 1 ex_system s'.
Proof.
  assert (match my_dgesv [0] 2 1 ex_system with Ret (rc, _) => rc = 0 | _ => False end) as Hrc
    by (vm_compute; reflexivity).
  destruct (my_dgesv [0] 2 1 ex_system) as [[rc s']|] eqn:E; [|contradiction].
  subst rc. exists s'. split; [reflexivity|].
  apply (my_dgesv_solves 2 1 [0] ex_system); [fits_tac..|apply full_sched_seq|by split|exact E].
Defined.

Lemma my_dgesv_singular_witness :
  ∃ s', my_dgesv [0] 2 1 ex_singular = Ret (-1, s').
Proof.
  apply (my_dgesv_singular 2 1 [0] ex_singular ex_kernel 1);
    [fits_tac|fits_tac|lia|apply full_sched_seq|by split| |lia|].
  - intros i Hi. assert (i = 0 ∨ i = 1) as [-> | ->] by lia; apply Qc_is_canon; reflexivity.
  - discriminate.
Defined.

Lemma my_dgesv_task1_solves_witness :
  ∃ rc s', my_dgesv_task1 2 1 ex_system = Ret (rc, s') ∧
           (rc = -1 ∨ rc = 0 ∧ unique_solution 2 1 ex_system s').
Proof. apply (my_dgesv_task1_solves 2 1 ex_system); [fits_tac|fits_tac|by split]. Defined.

Lemma my_dgesv_versions_agree_witness :
  ∃ s1 s2, my_dgesv [0] 2 1 ex_system = Ret (0, s1) ∧
           my_dgesv_task1 2 1 ex_system = Ret (0, s2) ∧ mb s1 = mb s2.
Proof.
  assert (match my_dgesv [0] 2 1 ex_system with Ret (rc, _) => rc = 0 | _ => False end) as H1
    by (vm_compute; reflexivity).
  assert (match my_dgesv_task1 2 1 ex_system with Ret (rc, _) => rc = 0 | _ => False end) as H2
    by (vm_compute; reflexivity).
  destruct (my_dgesv [0] 2 1 ex_system) as [[rc1 s1]|] eqn:E1; [|contradiction].
  destruct (my_dgesv_task1 2 1 ex_system) as [[rc2 s2]|] eqn:E2; [|contradiction].
  subst rc1 rc2. exists s1, s2. split; [reflexivity|]. split; [reflexivity|].
  apply (my_dgesv_versions_agree 2 1 [0] ex_system);
    [fits_tac|fits_tac|apply full_sched_seq|by split|exact E1|exact E2].
Defined.
