(* ===== verification/DgesvMain.v ===== *)
(** The driver around the solvers: [timer.c], and [main.c] with its matrix
    generator and its comparison of two results ([task1/main.c] is the same
    program with square right-hand sides and [malloc]). *)

From S2P Require Import Prelude Scalars Dgesv DgesvExact.
From Stdlib Require Import QArith Qcanon.
Local Open Scope Z_scope.

(** * [timer.c] *)

Module Timer.

Record timespec := Timespec { tv_sec : Z; tv_nsec : Z }.

(** [end->tv_sec * mul + end->tv_nsec / div], for one of the two times. *)
Definition to_units (mul div : Z) (t : timespec) : outcome Z :=
  s ← long_ (tv_sec t * mul);
  long_ (s + Z.quot (tv_nsec t) div).

Definition diff_nano (start end_ : timespec) : outcome Z :=
  e ← (s ← long_ (tv_sec end_ * 1000000000); long_ (s + tv_nsec end_));
  b ← (s ← long_ (tv_sec start * 1000000000); long_ (s + tv_nsec start));
  long_ (e - b).

Definition diff_micro (start end_ : timespec) : outcome Z :=
  e ← to_units 1000000 1000 end_; b ← to_units 1000000 1000 start; long_ (e - b).

Definition diff_milli (start end_ : timespec) : outcome Z :=
  e ← to_units 1000 1000000 end_; b ← to_units 1000 1000000 start; long_ (e - b).

Definition diff_seconds (start end_ : timespec) : outcome Z :=
  e ← long_ (tv_sec end_ + Z.quot (tv_nsec end_) 1000000000);
  b ← long_ (tv_sec start + Z.quot (tv_nsec start) 1000000000);
  long_ (e - b).

(** What [clock_gettime] may store, and the instant it stands for. *)
Definition valid_time (t : timespec) : Prop :=
  0 <= tv_sec t < 2 ^ 33 ∧ 0 <= tv_nsec t < 1000000000.

Definition nanos (t : timespec) : Z := tv_sec t * 1000000000 + tv_nsec t.


Lemma to_units_ok mul div t :
  valid_time t -> 0 < div -> mul * div = 1000000000 ->
  to_units mul div t = Ret (nanos t / div).
Proof.
  intros [Hs Hn] Hd Hmd. unfold to_units.
  assert (0 < mul <= 1000000000) by nia.
  assert (0 <= tv_sec t * mul <= 2 ^ 33 * 1000000000) by nia.
  rewrite long_ok by lia. simpl. rewrite Z.quot_div_nonneg by lia.
  assert (nanos t / div = tv_sec t * mul + tv_nsec t / div) as ->.
  { unfold nanos. rewrite <- Hmd, Z.mul_assoc, Z.add_comm, Z.div_add by lia. lia. }
  assert (0 <= tv_nsec t / div < 1000000000)
    by (split; [apply Z.div_pos; lia|apply Z.div_lt_upper_bound; nia]).
  apply long_ok. lia.
Qed.

Lemma diff_milli_ok start end_ : valid_time start -> valid_time end_ ->
  ∃ ms, diff_milli start end_ = Ret ms ∧ Z.abs (1000000 * ms - (nanos end_ - nanos start)) < 1000000.
Proof.
  intros Hs He. unfold diff_milli. rewrite !to_units_ok by (done || lia). simpl.
  assert (Hb : ∀ t, valid_time t -> 0 <= nanos t < 2 ^ 63) by (unfold valid_time, nanos; lia).
  pose proof (Hb _ Hs). pose proof (Hb _ He).
  pose proof (Z.div_mod (nanos end_) 1000000 ltac:(lia)). pose proof (Z.div_mod (nanos start) 1000000 ltac:(lia)).
  pose proof (Z.mod_pos_bound (nanos end_) 1000000 eq_refl). pose proof (Z.mod_pos_bound (nanos start) 1000000 eq_refl).
  eexists. split; [apply long_ok; lia|]. lia.
Qed.

(** On times that a monotonic clock can deliver, no [diff_] function
    overflows; [diff_nano] is exact, and each coarser function is the
    difference of the two instants rounded down to its unit, so it is less
    than one unit away from the elapsed time. *)
Theorem diff_accurate start end_ :
  valid_time start -> valid_time end_ ->
  let d := nanos end_ - nanos start in
  diff_nano start end_ = Ret d ∧
  (∃ u, diff_micro start end_ = Ret u ∧ Z.abs (1000 * u - d) < 1000) ∧
  (∃ u, diff_milli start end_ = Ret u ∧ Z.abs (1000000 * u - d) < 1000000) ∧
  (∃ u, diff_seconds start end_ = Ret u ∧ Z.abs (1000000000 * u - d) < 1000000000).
Proof.
  intros Hs He d.
  assert (Hb : ∀ t, valid_time t -> 0 <= nanos t < 2 ^ 63) by (unfold valid_time, nanos; lia).
  pose proof (Hb _ Hs) as Hbs. pose proof (Hb _ He) as Hbe.
  assert (Hdiv : ∀ k, 0 < k -> ∃ u, long_ (nanos end_ / k - nanos start / k) = Ret u ∧
                                    Z.abs (k * u - d) < k).
  { intros k Hk. pose proof (Z.div_mod (nanos end_) k ltac:(lia)).
    pose proof (Z.div_mod (nanos start) k ltac:(lia)).
    pose proof (Z.mod_pos_bound (nanos end_) k Hk). pose proof (Z.mod_pos_bound (nanos start) k Hk).
    pose proof (div_between (nanos end_) k ltac:(lia) Hk).
    pose proof (div_between (nanos start) k ltac:(lia) Hk).
    eexists. split; [apply long_ok; lia|]. unfold d. nia. }
  split; [|split; [|split]].
  - unfold diff_nano, valid_time, nanos, d in *.
    repeat (rewrite long_ok by lia; simpl). done.
  - unfold diff_micro. rewrite !to_units_ok by (done || lia). simpl. by apply Hdiv.
  - unfold diff_milli. rewrite !to_units_ok by (done || lia). simpl. by apply Hdiv.
  - unfold diff_seconds. pose proof (to_units_ok 1 1000000000 start Hs) as Hus.
    pose proof (to_units_ok 1 1000000000 end_ He) as Hue. unfold to_units in *.
    rewrite !Z.mul_1_r in *. unfold valid_time in *. rewrite !(long_ok (tv_sec _)) in * by lia.
    simpl in *. rewrite Hus, Hue by lia. simpl. by apply Hdiv.
Qed.

Lemma diff_accurate_witness :
  let start := Timespec 5 999999999 in let end_ := Timespec 7 1 in
  diff_nano start end_ = Ret 1000000002 ∧
  (∃ u, diff_micro start end_ = Ret u ∧ Z.abs (1000 * u - 1000000002) < 1000) ∧
  (∃ u, diff_milli start end_ = Ret u ∧ Z.abs (1000000 * u - 1000000002) < 1000000) ∧
  (∃ u, diff_seconds start end_ = Ret u ∧ Z.abs (1000000000 * u - 1000000002) < 1000000000).
Proof. apply (diff_accurate (Timespec 5 999999999) (Timespec 7 1)); split; simpl; lia. Defined.

End Timer.

(** * [main.c]

    The C library and LAPACK are parameters: [alloc n] is the array of [n]
    doubles an allocation returns (empty when it fails, so that any access
    faults), [rand seed i] the [i]-th value of [rand] after [srand(seed)], and
    [lapacke_dgesv] the call to LAPACK, which returns its [info] and the
    updated arrays. *)

Section Driver.
Context {F : Type} `{Scalar F}.
Variable alloc : Z -> list F.
Variable rand : Z -> Z -> Z.
Variable lapacke_dgesv : Z -> Z -> list F -> Z -> list F -> Z -> Z * list F * list F.

(** The number of doubles in [sizeof(double) * size * size] bytes, computed in
    [size_t]. *)
Definition matrix_doubles (size : Z) : Z := u64 (8 * size * size) / 8.

(** The unsigned product [size * size] that bounds the loops. *)
Definition usize2 (a b : Z) : Z := u32 (a * b).

Definition generate_matrix (size seed : Z) : outcome (list F) :=
  for_up 0 (usize2 size size)
    (fun i m => arr_set m i (f_of_Z (Z.rem (rand seed i) 100)))
    (alloc (matrix_doubles size)).

(** [memcpy] of [size * size * sizeof(double)] bytes, the first product
    being unsigned. *)
Definition memcpy_doubles (dst src : list F) (n : Z) : outcome (list F) :=
  if (n <=? Z.of_nat (length dst)) && (n <=? Z.of_nat (length src))
  then Ret (take (Z.to_nat n) src ++ drop (Z.to_nat n) dst)
  else Fault OutOfBounds.

Definition duplicate_matrix (orig : list F) (size : Z) : outcome (list F) :=
  memcpy_doubles (alloc (matrix_doubles size)) orig (usize2 size size).

Definition is_nearly_equal (x y : F) : bool :=
  f_le (f_abs (f_sub x y)) (f_mul f_tol (f_abs x)).

(** The loop stops at the first pair that differs: [Some 0] is the early
    return. *)
Definition check_step (bref b : list F) (i : Z) (r : option Z) : outcome (option Z) :=
  match r with
  | Some _ => Ret r
  | None =>
      x ← arr_get bref i;
      y ← arr_get b i;
      Ret (if is_nearly_equal x y then None else Some 0)
  end.

Definition check_result (bref b : list F) (size nrhs : Z) : outcome Z :=
  r ← for_up 0 (usize2 size nrhs) (check_step bref b) None;
  Ret (default 1 r).

(** [task1/main.c] compares [size * size] values. *)
Definition check_result_task1 (bref b : list F) (size : Z) : outcome Z :=
  r ← for_up 0 (usize2 size size) (check_step bref b) None;
  Ret (default 1 r).

(** What the program prints. *)
Inductive line :=
  | NeedSize
  | TimeLapacke (ms : Z)
  | TimeMine (ms : Z)
  | ResultOk
  | ResultWrong.

(** The four readings of the clock, in order. *)
Record clock := Clock { t_start1 : Timer.timespec; t_now1 : Timer.timespec;
                        t_start2 : Timer.timespec; t_now2 : Timer.timespec }.

(** [main]: the exit status and the printed lines; [size] is
    [atoi(argv[1])], and both [info] values are ignored. *)
Definition main (sched : list Z) (ck : clock) (argc size : Z) : outcome (Z * list line) :=
  if argc <? 2 then Ret (1, [NeedSize])
  else
    let usize := u32 size in
    a ← generate_matrix usize 1;
    b ← generate_matrix usize 2;
    aref ← duplicate_matrix a usize;
    bref ← duplicate_matrix b usize;
    let r := lapacke_dgesv size size aref size bref size in
    ms1 ← Timer.diff_milli (t_start1 ck) (t_now1 ck);
    rs ← my_dgesv sched size size (Lin a b);
    ms2 ← Timer.diff_milli (t_start2 ck) (t_now2 ck);
    ok ← check_result r.2 (mb rs.2) usize usize;
    Ret (0, [TimeLapacke ms1; TimeMine ms2; if ok =? 1 then ResultOk else ResultWrong]).

(** ** Lemmas *)

(** [alloc] returns arrays of the size it is asked for. *)
Definition alloc_succeeds : Prop := ∀ n, 0 <= n -> Z.of_nat (length (alloc n)) = n.

Lemma usize2_small a b : 0 <= a < 65536 -> 0 <= b < 65536 -> usize2 a b = a * b.
Proof. intros. unfold usize2, u32. apply wrap_small. nia. Qed.

Lemma matrix_doubles_small size : 0 <= size < 65536 -> matrix_doubles size = size * size.
Proof.
  intros. unfold matrix_doubles, u64. rewrite wrap_small by nia.
  rewrite <- Z.mul_assoc, Z.mul_comm. apply Z.div_mul. lia.
Qed.

Lemma generate_matrix_ok size seed :
  alloc_succeeds -> 0 <= size < 65536 ->
  ∃ m, generate_matrix size seed = Ret m ∧ Z.of_nat (length m) = size * size ∧
       ∀ i, 0 <= i < size * size ->
         m !! Z.to_nat i = Some (f_of_Z (Z.rem (rand seed i) 100)).
Proof.
  intros Ha Hs. unfold generate_matrix.
  rewrite usize2_small, matrix_doubles_small by done.
  destruct (for_up_inv (fun k m => Z.of_nat (length m) = size * size ∧
      ∀ i, 0 <= i < k -> m !! Z.to_nat i = Some (f_of_Z (Z.rem (rand seed i) 100)))
    0 (size * size) (fun i m => arr_set m i (f_of_Z (Z.rem (rand seed i) 100)))
    (alloc (size * size))) as (m & -> & Hm); [nia| | |by exists m].
  - split; [apply Ha; nia|]. intros i Hi. lia.
  - intros i m Hi [Hl Hm]. rewrite arr_set_in_range by lia. eexists. split; [done|].
    rewrite length_insert. split; [done|]. intros i' Hi'.
    destruct (decide (i' = i)) as [->|Hne].
    + apply list_lookup_insert_eq. lia.
    + rewrite list_lookup_insert_ne by lia. apply Hm. lia.
Qed.

Lemma duplicate_matrix_ok m size :
  alloc_succeeds -> 0 <= size < 65536 -> Z.of_nat (length m) = size * size ->
  duplicate_matrix m size = Ret m.
Proof.
  intros Ha Hs Hm. unfold duplicate_matrix, memcpy_doubles.
  rewrite usize2_small, matrix_doubles_small by done.
  pose proof (Ha (size * size) ltac:(nia)) as Hl. case_bool; [|lia].
  rewrite take_ge by lia. rewrite drop_ge by lia. by rewrite app_nil_r.
Qed.

(** The early return: [check_result] is 1 exactly when all pairs agree. *)
Lemma check_loop_ok bref b n :
  0 <= n -> n <= Z.of_nat (length bref) -> n <= Z.of_nat (length b) ->
  ∃ r, for_up 0 n (check_step bref b) None = Ret r ∧
    (r = None ∧ (∀ i x y, 0 <= i < n -> bref !! Z.to_nat i = Some x -> b !! Z.to_nat i = Some y ->
                  is_nearly_equal x y = true) ∨
     r = Some 0 ∧ ∃ i x y, 0 <= i < n ∧ bref !! Z.to_nat i = Some x ∧ b !! Z.to_nat i = Some y ∧
                  is_nearly_equal x y = false).
Proof.
  intros Hn Hbref Hb.
  destruct (for_up_inv (fun k r =>
    (r = None ∧ (∀ i x y, 0 <= i < k -> bref !! Z.to_nat i = Some x -> b !! Z.to_nat i = Some y ->
                  is_nearly_equal x y = true) ∨
     r = Some 0 ∧ ∃ i x y, 0 <= i < n ∧ bref !! Z.to_nat i = Some x ∧ b !! Z.to_nat i = Some y ∧
                  is_nearly_equal x y = false)) 0 n (check_step bref b) None) as (r & -> & Hr);
    [done| | |by exists r].
  - left. split; [done|]. intros; lia.
  - intros k r Hk [[-> Hall]|[-> Hex]]; simpl; [|by eexists; eauto].
    destruct (arr_get_in_range bref k) as (x & -> & Hx); [lia|].
    destruct (arr_get_in_range b k) as (y & -> & Hy); [lia|]. simpl.
    destruct (is_nearly_equal x y) eqn:E; (eexists; split; [done|]).
    + left. split; [done|]. intros i x' y' Hi Hx' Hy'.
      destruct (decide (i = k)) as [->|]; [congruence|]. apply (Hall i); [lia|done|done].
    + right. split; [done|]. exists k, x, y. done.
Qed.

End Driver.

(** ** Properties *)

Section DriverClaims.
Context {F : Type} `{Scalar F}.

(** For sizes below 65536 the generated matrix is complete and each entry
    is a whole number from 0 to 99. *)
Theorem generate_matrix_entries (alloc : Z -> list F) rand size seed :
  alloc_succeeds alloc -> (∀ s i, 0 <= rand s i) -> 0 <= size < 65536 ->
  ∃ m, generate_matrix alloc rand size seed = Ret m ∧
       Z.of_nat (length m) = size * size ∧
       Forall (fun x => ∃ z, 0 <= z < 100 ∧ x = f_of_Z z) m.
Proof.
  intros Ha Hr Hs. destruct (generate_matrix_ok alloc rand size seed Ha Hs) as (m & Hg & Hl & Hm).
  exists m. do 2 (split; [done|]). apply Forall_lookup. intros i x Hx.
  pose proof (lookup_lt_Some _ _ _ Hx). specialize (Hm (Z.of_nat i) ltac:(lia)).
  rewrite Nat2Z.id, Hx in Hm. injection Hm as ->. eexists. split; [|done].
  rewrite Z.rem_mod_nonneg by (done || apply Hr). by apply Z.mod_pos_bound.
Qed.

(** [check_result] stops at the first pair that differs and never reads
    past the arrays; it returns 1 exactly when every pair is nearly equal. *)
Theorem check_result_correct (bref b : list F) size nrhs :
  0 <= size < 65536 -> 0 <= nrhs < 65536 ->
  Z.of_nat (length bref) = size * nrhs -> Z.of_nat (length b) = size * nrhs ->
  ∃ r, check_result bref b size nrhs = Ret r ∧ (r = 0 ∨ r = 1) ∧
       (r = 1 <-> Forall2 (fun x y => is_nearly_equal x y = true) bref b).
Proof.
  intros Hs Hn Hl1 Hl2. unfold check_result. rewrite usize2_small by done.
  destruct (check_loop_ok bref b (size * nrhs)) as (r & -> & Hr); [nia|lia|lia|]. simpl.
  exists (default 1 r). split; [done|].
  destruct Hr as [[-> Hall]|(-> & i & x & y & Hi & Hx & Hy & Hne)]; simpl.
  - split; [by right|]. split; [intros _|done]. apply Forall2_same_length_lookup_2; [lia|].
    intros i x y Hx Hy. pose proof (lookup_lt_Some _ _ _ Hx).
    apply (Hall (Z.of_nat i)); rewrite ?Nat2Z.id; [lia|done|done].
  - split; [by left|]. split; [done|]. intros HF. exfalso.
    rewrite Forall2_lookup in HF. specialize (HF (Z.to_nat i)). rewrite Hx, Hy in HF.
    inversion HF. congruence.
Qed.

(** The bound [size * nrhs] is computed in [unsigned int]: when the product
    is a multiple of 2^32 (a 65536 by 65536 problem) [check_result] compares
    nothing and reports success, whatever the arrays hold. *)
Theorem check_result_wraps (bref b : list F) size nrhs :
  (size * nrhs) mod 2 ^ 32 = 0 -> check_result bref b size nrhs = Ret 1.
Proof. intros Hm. unfold check_result, usize2, u32, wrap. rewrite Hm. by rewrite for_up_empty. Qed.

(** The run of [main] up to its comparison. *)
Lemma main_runs (alloc : Z -> list F) rand lapacke_dgesv sched ck argc size :
  alloc_succeeds alloc -> fits size size -> 2 <= argc -> full_sched size sched ->
  Timer.valid_time (t_start1 ck) -> Timer.valid_time (t_now1 ck) ->
  Timer.valid_time (t_start2 ck) -> Timer.valid_time (t_now2 ck) ->
  ∃ a b rc s' ms1 ms2,
    generate_matrix alloc rand size 1 = Ret a ∧ generate_matrix alloc rand size 2 = Ret b ∧
    sized size size (Lin a b) ∧ my_dgesv sched size size (Lin a b) = Ret (rc, s') ∧ sized size size s' ∧
    Timer.diff_milli (t_start1 ck) (t_now1 ck) = Ret ms1 ∧ Timer.diff_milli (t_start2 ck) (t_now2 ck) = Ret ms2 ∧
    main alloc rand lapacke_dgesv sched ck argc size =
      (ok ← check_result (lapacke_dgesv size size a size b size).2 (mb s') size size;
       Ret (0, [TimeLapacke ms1; TimeMine ms2; if ok =? 1 then ResultOk else ResultWrong])).
Proof.
  intros Ha Hf Hargc Hsch T1 T2 T3 T4.
  assert (Hs : 0 <= size < 65536) by (unfold fits, INT_MAX in Hf; nia).
  destruct (generate_matrix_ok alloc rand size 1 Ha Hs) as (a & Hga & Hla & _).
  destruct (generate_matrix_ok alloc rand size 2 Ha Hs) as (b & Hgb & Hlb & _).
  assert (Hsz : sized size size (Lin a b)) by by split.
  destruct (my_dgesv_shape size size sched _ (fun _ _ _ => True) _ _ Hf Hf Hsch (sized_rep _ _ _ Hsz) I)
    as (rc & s' & A & B & Hret & Hc); [done|].
  destruct (Timer.diff_milli_ok _ _ T1 T2) as (ms1 & Hms1 & _). destruct (Timer.diff_milli_ok _ _ T3 T4) as (ms2 & Hms2 & _).
  exists a, b, rc, s', ms1, ms2. split_and!; try done.
  { destruct Hc as [[_ Hr]|(_ & _ & _ & Hr)]; by eapply lin_rep_sized. }
  unfold main. case_bool; [lia|].
  replace (u32 size) with size by (symmetry; apply wrap_small; lia).
  rewrite Hga, Hgb. cbn [mbind outcome_bind]. rewrite !duplicate_matrix_ok by done. cbn [mbind outcome_bind].
  rewrite Hms1. cbn [mbind outcome_bind]. rewrite Hret. cbn [mbind outcome_bind]. by rewrite Hms2.
Qed.

(** C5: for every number type, binary64 included, and every size whose square fits in
    [int], [main] compares what LAPACK and [my_dgesv] compute for the same generated
    system and prints "Result is ok!" if and only if each entry of LAPACK's result is
    nearly equal to the entry of [my_dgesv]'s, within 1e-5 of its size, and "Result is
    wrong!" otherwise, also when [my_dgesv] has refused the system; the two times are
    those between the readings of the clock, to the millisecond. Without an argument it
    asks for one. LAPACK is assumed to keep the size of its array. *)
Theorem main_compares (alloc : Z -> list F) rand lapacke_dgesv sched ck size :
  alloc_succeeds alloc -> fits size size -> full_sched size sched ->
  Timer.valid_time (t_start1 ck) -> Timer.valid_time (t_now1 ck) ->
  Timer.valid_time (t_start2 ck) -> Timer.valid_time (t_now2 ck) ->
  (∀ a b, Z.of_nat (length b) = size * size ->
    Z.of_nat (length (lapacke_dgesv size size a size b size).2) = size * size) ->
  (∀ argc, argc < 2 -> main alloc rand lapacke_dgesv sched ck argc size = Ret (1, [NeedSize])) ∧
  ∃ a b rc s' ms1 ms2 ok,
    generate_matrix alloc rand size 1 = Ret a ∧ generate_matrix alloc rand size 2 = Ret b ∧
    my_dgesv sched size size (Lin a b) = Ret (rc, s') ∧
    Z.abs (1000000 * ms1 - (Timer.nanos (t_now1 ck) - Timer.nanos (t_start1 ck))) < 1000000 ∧
    Z.abs (1000000 * ms2 - (Timer.nanos (t_now2 ck) - Timer.nanos (t_start2 ck))) < 1000000 ∧
    (ok = true <-> Forall2 (fun x y => f_le (f_abs (f_sub x y)) (f_mul f_tol (f_abs x)) = true)
                     (lapacke_dgesv size size a size b size).2 (mb s')) ∧
    ∀ argc, 2 <= argc -> main alloc rand lapacke_dgesv sched ck argc size =
      Ret (0, [TimeLapacke ms1; TimeMine ms2; if ok : bool then ResultOk else ResultWrong]).
Proof.
  intros Ha Hf Hsch T1 T2 T3 T4 Hlap. split; [intros argc ?; unfold main; by case_bool; [|lia]|].
  destruct (main_runs alloc rand lapacke_dgesv sched ck 2 size) as (a & b & rc & s' & ms1 & ms2 & Hga & Hgb & [_ Hlb] & Hd & [_ Hlb'] & Hms1 & Hms2 & _);
    [done|done|lia|done..|].
  assert (Hs : 0 <= size < 65536) by (unfold fits, INT_MAX in Hf; nia).
  destruct (check_result_correct (lapacke_dgesv size size a size b size).2 (mb s') size size) as (r & Hr & Hr01 & Hiff);
    [done|done|by apply Hlap|done|].
  exists a, b, rc, s', ms1, ms2, (r =? 1). split_and!; try done.
  - destruct (Timer.diff_milli_ok _ _ T1 T2) as (m & Hm & Hacc). rewrite Hms1 in Hm. by injection Hm as <-.
  - destruct (Timer.diff_milli_ok _ _ T3 T4) as (m & Hm & Hacc). rewrite Hms2 in Hm. by injection Hm as <-.
  - rewrite Z.eqb_eq. exact Hiff.
  - intros argc Hargc.
    destruct (main_runs alloc rand lapacke_dgesv sched ck argc size) as (a' & b' & rc' & t' & m1 & m2 & Hga' & Hgb' & _ & Hd' & _ & Hm1 & Hm2 & ->);
      [done..|]. rewrite Hga in Hga'. rewrite Hgb in Hgb'. simplify_eq.
    rewrite Hd in Hd'. rewrite Hms1 in Hm1. rewrite Hms2 in Hm2. simplify_eq. by rewrite Hr.
Qed.

End DriverClaims.

Section MainClaim.
Context {F : Type} `{ES : ExactScalar F}.
Variable alloc : Z -> list F.
Variable rand : Z -> Z -> Z.
Variable lapacke_dgesv : Z -> Z -> list F -> Z -> list F -> Z -> Z * list F * list F.

(** In exact arithmetic, when LAPACK solves the generated system and
    [my_dgesv] returns 0 on it, the program exits with 0 and prints
    "Result is ok!", for every size whose square fits in [int]. *)
Theorem main_reports_ok sched ck argc size a b s' :
  alloc_succeeds alloc -> fits size size -> 2 <= argc -> full_sched size sched ->
  Timer.valid_time (t_start1 ck) -> Timer.valid_time (t_now1 ck) ->
  Timer.valid_time (t_start2 ck) -> Timer.valid_time (t_now2 ck) ->
  generate_matrix alloc rand size 1 = Ret a -> generate_matrix alloc rand size 2 = Ret b ->
  (let bref := (lapacke_dgesv size size a size b size).2 in
   Z.of_nat (length bref) = size * size ∧
   solves size size (coeffs size (Lin a b)) (rhs size (Lin a b)) (rhs size (Lin a bref))) ->
  my_dgesv sched size size (Lin a b) = Ret (0, s') ->
  ∃ ms1 ms2, main alloc rand lapacke_dgesv sched ck argc size =
             Ret (0, [TimeLapacke ms1; TimeMine ms2; ResultOk]).
Proof.
  intros Ha Hf Hargc Hsch T1 T2 T3 T4 Hga Hgb [Hlen Hsol] Hd.
  assert (Hs : 0 <= size < 65536) by (unfold fits, INT_MAX in Hf; nia).
  destruct (main_runs alloc rand lapacke_dgesv sched ck argc size Ha Hf Hargc Hsch T1 T2 T3 T4)
    as (a' & b' & rc & t' & ms1 & ms2 & Hga' & Hgb' & Hsz & Hd' & [_ Hlb'] & _ & _ & ->).
  rewrite Hga in Hga'. injection Hga' as <-. rewrite Hgb in Hgb'. injection Hgb' as <-.
  rewrite Hd in Hd'. injection Hd' as <- <-.
  destruct (my_dgesv_exact size size sched _ 0 s' Hf Hf Hsch Hsz Hd) as [|Hu]; [done|].
  exists ms1, ms2. set (bref := (lapacke_dgesv size size a size b size).2) in *.
  assert (bref = mb s') as ->.
  { eapply (rep_unique size size); [lia|lia|by apply rep_mat_of|by apply rep_mat_of|].
    by apply Hu. }
  destruct (check_result_correct (mb s') (mb s') size size) as (r & -> & _ & Hr); [done..|].
  rewrite (proj2 Hr); [done|]. apply Forall2_same_length_lookup_2; [done|]. intros i x y Hx Hy.
  assert (x = y) as -> by congruence. apply f_tol_refl.
Qed.

End MainClaim.

(** ** Witnesses *)

Definition ex_alloc (n : Z) : list Qc := replicate (Z.to_nat n) 0%Qc.
Definition ex_rand (seed i : Z) : Z := 7 * seed + 100 * i.

(** A LAPACK for the 1 by 1 system 7 x = 14. *)
Definition ex_lapacke (n nrhs : Z) (a : list Qc) (lda : Z) (b : list Qc) (ldb : Z)
  : Z * list Qc * list Qc := (0, a, [Q2Qc (inject_Z 2)]).

Definition ex_time : Timer.timespec := Timer.Timespec 1 0.
Definition ex_clock : clock := Clock ex_time ex_time ex_time ex_time.

Lemma ex_alloc_succeeds : alloc_succeeds ex_alloc.
Proof. intros n Hn. unfold ex_alloc. rewrite length_replicate. lia. Qed.

Lemma generate_matrix_entries_witness :
  ∃ m, generate_matrix ex_alloc (fun s i => Z.abs (ex_rand s i)) 2 1 = Ret m ∧
       Z.of_nat (length m) = 4 ∧ Forall (fun x => ∃ z, 0 <= z < 100 ∧ x = f_of_Z z) m.
Proof.
  apply (generate_matrix_entries ex_alloc (fun s i => Z.abs (ex_rand s i)) 2 1);
    [apply ex_alloc_succeeds|intros; apply Z.abs_nonneg|lia].
Defined.

Lemma check_result_correct_witness :
  ∃ r, check_result (qc [1; 2]) (qc [1; 3]) 2 1 = Ret r ∧ (r = 0 ∨ r = 1) ∧
       (r = 1 <-> Forall2 (fun x y => is_nearly_equal x y = true) (qc [1; 2]) (qc [1; 3])).
Proof. apply (check_result_correct (qc [1; 2]) (qc [1; 3]) 2 1); done || lia. Defined.

Lemma check_result_wraps_witness : check_result (qc [1]) (qc [2]) 65536 65536 = Ret 1.
Proof. apply (check_result_wraps (qc [1]) (qc [2]) 65536 65536). reflexivity. Defined.

(** In exact arithmetic the result of [my_dgesv] is within the tolerance of 2; a LAPACK
    that returned 3 would be contradicted. *)
Definition ex_lapacke_wrong (n nrhs : Z) (a : list Qc) (lda : Z) (b : list Qc) (ldb : Z)
  : Z * list Qc * list Qc := (0, a, [Q2Qc (inject_Z 3)]).

Lemma main_compares_witness : ∃ ms1 ms2,
  main ex_alloc ex_rand ex_lapacke_wrong [0] ex_clock 2 1 = Ret (0, [TimeLapacke ms1; TimeMine ms2; ResultWrong]).
Proof.
  destruct (main_compares ex_alloc ex_rand ex_lapacke_wrong [0] ex_clock 1) as [_ (a & b & rc & s' & ms1 & ms2 & ok & Ha & Hb & Hd & _ & _ & Hok & Hm)].
  - apply ex_alloc_succeeds.
  - fits_tac.
  - apply full_sched_seq.
  - split; simpl; lia.
  - split; simpl; lia.
  - split; simpl; lia.
  - split; simpl; lia.
  - intros a b Hl. reflexivity.
  - exists ms1, ms2. rewrite (Hm 2) by lia. destruct ok; [exfalso|reflexivity].
    apply proj1 in Hok. specialize (Hok eq_refl).
    injection Ha as <-. injection Hb as <-.
    assert (match my_dgesv [0] 1 1 (Lin (qc [7]) (qc [14])) with
            | Ret (_, t) => match mb t with x :: _ => f_le (f_abs (f_sub (Q2Qc (inject_Z 3)) x)) (f_mul f_tol (f_abs (Q2Qc (inject_Z 3)))) = false | [] => False end
            | _ => False end) as H1 by (vm_compute; reflexivity).
    match type of Hd with my_dgesv _ _ _ ?l = _ => change l with (Lin (qc [7]) (qc [14])) in Hd end.
    rewrite Hd in H1. inversion Hok as [|x y l1 l2 Hxy Hl E1 E2]. destruct (mb s') as [|z l]; [done|]. congruence.
Defined.

Lemma main_reports_ok_witness :
  ∃ ms1 ms2, main ex_alloc ex_rand ex_lapacke [0] ex_clock 2 1 =
             Ret (0, [TimeLapacke ms1; TimeMine ms2; ResultOk]).
Proof.
  set (a := qc [7]). set (b := qc [14]).
  assert (match my_dgesv [0] 1 1 (Lin a b) with Ret (rc, _) => rc = 0 | _ => False end) as H1
    by (vm_compute; reflexivity).
  destruct (my_dgesv [0] 1 1 (Lin a b)) as [[rc s']|] eqn:E; [|contradiction]. subst rc.
  apply (main_reports_ok ex_alloc ex_rand ex_lapacke [0] ex_clock 2 1 a b s').
  - apply ex_alloc_succeeds.
  - fits_tac.
  - lia.
  - apply full_sched_seq.
  - split; simpl; lia.
  - split; simpl; lia.
  - split; simpl; lia.
  - split; simpl; lia.
  - reflexivity.
  - reflexivity.
  - split; [reflexivity|]. intros i j Hi Hj.
    assert (i = 0) as -> by lia. assert (j = 0) as -> by lia. apply Qc_is_canon. reflexivity.
  - exact E.
Defined.
