(* ===== verification/WordFM.v ===== *)
(** [coregrind/m_wordfm.c]: an AVL tree that maps words to words (WordFM),
    its iterator with a stack of 32 entries, and bags of words built on it
    (WordBag).

    A tree is a value; each node carries the address of its [AvlNode], so that
    the places where the code compares or keeps node pointers are modelled as
    they are written. *)

From S2P Require Import Prelude.
Local Open Scope Z_scope.

(** * The tree *)

(** An [AvlNode] without its links: the address, [key] and [val]. *)
Record item := Item { i_addr : Z; i_key : Z; i_val : Z }.

Inductive avl :=
  | Nil
  | Node (it : item) (balance : Z) (child0 child1 : avl).

#[global] Instance item_eq_dec : EqDecision item.
Proof. solve_decision. Defined.

#[global] Instance avl_eq_dec : EqDecision avl.
Proof. solve_decision. Defined.

Record MaybeWord := MaybeW { mw_w : Z; mw_b : bool }.

Definition root_addr (t : avl) : option Z :=
  match t with Nil => None | Node it _ _ _ => Some (i_addr it) end.

(** The balance of a node that the code dereferences. *)
Definition get_bal (t : avl) : outcome Z :=
  match t with Nil => Fault NullDeref | Node _ b _ _ => Ret b end.

Definition set_bal (b : Z) (t : avl) : outcome avl :=
  match t with Nil => Fault NullDeref | Node it _ l r => Ret (Node it b l r) end.

(** Update the child links of the root through [&(root->child[i])]. *)
Definition on_child0 (f : avl -> outcome avl) (t : avl) : outcome avl :=
  match t with
  | Nil => Fault NullDeref
  | Node it b l r => l' ← f l; Ret (Node it b l' r)
  end.

Definition on_child1 (f : avl -> outcome avl) (t : avl) : outcome avl :=
  match t with
  | Nil => Fault NullDeref
  | Node it b l r => r' ← f r; Ret (Node it b l r')
  end.

Definition avl_swl (root : avl) : outcome avl :=
  match root with
  | Node ia ba l (Node ib bb lb rb) => Ret (Node ib bb (Node ia ba l lb) rb)
  | _ => Fault NullDeref
  end.

Definition avl_swr (root : avl) : outcome avl :=
  match root with
  | Node ia ba (Node ib bb lb rb) r => Ret (Node ib bb lb (Node ia ba rb r))
  | _ => Fault NullDeref
  end.

Definition avl_nasty (root : avl) : outcome avl :=
  b ← get_bal root;
  root' ← (if b =? -1 then t ← on_child0 (set_bal 0) root; on_child1 (set_bal 1) t
           else if b =? 1 then t ← on_child0 (set_bal (-1)) root; on_child1 (set_bal 0) t
           else if b =? 0 then t ← on_child0 (set_bal 0) root; on_child1 (set_bal 0) t
           else Fault AssertFail);
  set_bal 0 root'.

Fixpoint size_avl_nonNull (t : avl) : Z :=
  match t with Nil => 0 | Node _ _ l r => u64 (1 + size_avl_nonNull l + size_avl_nonNull r) end.

Definition cmp_unsigned_Words (w1 w2 : Z) : Z :=
  if w1 <? w2 then -1 else if w2 <? w1 then 1 else 0.

(** [kCmp ? kCmp(a, b) : cmp_unsigned_Words(a, b)] *)
Definition do_cmp (kCmp : option (Z -> Z -> Z)) (a b : Z) : Z :=
  match kCmp with Some f => f a b | None => cmp_unsigned_Words a b end.

(** ** Insertion *)

(** The subtree of [t] rooted at the node with address [a]. *)
Fixpoint subtree_at (a : Z) (t : avl) : option avl :=
  match t with
  | Nil => None
  | Node it _ l r =>
      if i_addr it =? a then Some t
      else match subtree_at a l with Some s => Some s | None => subtree_at a r end
  end.

(** A child link that the code does not write back after the subtree [old]
    has become [new]: it still points to the node that was the root of
    [old]. *)
Definition stale_child (old new : avl) : avl :=
  match root_addr old with
  | None => Nil
  | Some a => default Nil (subtree_at a new)
  end.

(** The rebalancing after the left (right) subtree of an already left (right)
    heavy node has grown. *)
Definition rebalance_grown0 (root : avl) : outcome avl :=
  match root with
  | Nil => Fault NullDeref
  | Node _ _ l _ =>
      lb ← get_bal l;
      if lb <? 0 then
        t1 ← avl_swr root; t2 ← set_bal 0 t1; on_child1 (set_bal 0) t2
      else
        t1 ← on_child0 avl_swl root; t2 ← avl_swr t1; avl_nasty t2
  end.

Definition rebalance_grown1 (root : avl) : outcome avl :=
  match root with
  | Nil => Fault NullDeref
  | Node _ _ _ r =>
      rb ← get_bal r;
      if 0 <? rb then
        t1 ← avl_swl root; t2 ← set_bal 0 t1; on_child0 (set_bal 0) t2
      else
        t1 ← on_child1 avl_swr root; t2 ← avl_swl t1; avl_nasty t2
  end.

Fixpoint avl_insert_wrk (kCmp : option (Z -> Z -> Z)) (root : avl) (oldV : MaybeWord) (a : item)
  : outcome (avl * MaybeWord * bool) :=
  let oldV := MaybeW (mw_w oldV) false in
  match root with
  | Nil => Ret (Node a 0 Nil Nil, oldV, true)
  | Node it b l r =>
      let cmpres := do_cmp kCmp (i_key it) (i_key a) in
      if 0 <? cmpres then
        match l with
        | Nil =>
            (* balance--; the depth grows if it was 0 *)
            Ret (Node it (s8 (b - 1)) (Node a 0 Nil Nil) r, oldV, b =? 0)
        | Node _ _ _ _ =>
            res ← avl_insert_wrk kCmp l oldV a;
            if res.2 : bool then
              let l' := stale_child l res.1.1 in
              let root' := Node it (s8 (b - 1)) l' r in
              if b =? 1 then Ret (root', res.1.2, false)
              else if b =? 0 then Ret (root', res.1.2, true)
              else if b =? -1 then t ← rebalance_grown0 root'; Ret (t, res.1.2, false)
              else Fault AssertFail
            else Ret (Node it b res.1.1 r, res.1.2, false)
        end
      else if cmpres <? 0 then
        match r with
        | Nil => Ret (Node it (s8 (b + 1)) l (Node a 0 Nil Nil), oldV, b =? 0)
        | Node _ _ _ _ =>
            res ← avl_insert_wrk kCmp r oldV a;
            if res.2 : bool then
              let r' := stale_child r res.1.1 in
              let root' := Node it (s8 (b + 1)) l r' in
              if b =? -1 then Ret (root', res.1.2, false)
              else if b =? 0 then Ret (root', res.1.2, true)
              else if b =? 1 then t ← rebalance_grown1 root'; Ret (t, res.1.2, false)
              else Fault AssertFail
            else Ret (Node it b l res.1.1, res.1.2, false)
        end
      else
        Ret (Node (Item (i_addr it) (i_key it) (i_val a)) b l r, MaybeW (i_val it) true, false)
  end.

(** ** Removal *)

(** The rebalancing after the left (right) subtree has shrunk under a right
    (left) heavy root; the result says whether the tree has shrunk. *)
Definition rebalance_shrunk0 (root : avl) : outcome (avl * bool) :=
  match root with
  | Nil => Fault NullDeref
  | Node _ _ _ r =>
      rb ← get_bal r;
      if rb =? 0 then
        t1 ← avl_swl root; t2 ← set_bal (-1) t1; t3 ← on_child0 (set_bal 1) t2; Ret (t3, false)
      else if rb =? 1 then
        t1 ← avl_swl root; t2 ← set_bal 0 t1; t3 ← on_child0 (set_bal 0) t2; Ret (t3, true)
      else if rb =? -1 then
        t1 ← on_child1 avl_swr root; t2 ← avl_swl t1; t3 ← avl_nasty t2; Ret (t3, true)
      else Fault AssertFail
  end.

Definition rebalance_shrunk1 (root : avl) : outcome (avl * bool) :=
  match root with
  | Nil => Fault NullDeref
  | Node _ _ l _ =>
      lb ← get_bal l;
      if lb =? 0 then
        t1 ← avl_swr root; t2 ← set_bal 1 t1; t3 ← on_child1 (set_bal (-1)) t2; Ret (t3, false)
      else if lb =? -1 then
        t1 ← avl_swr root; t2 ← set_bal 0 t1; t3 ← on_child1 (set_bal 0) t2; Ret (t3, true)
      else if lb =? 1 then
        t1 ← on_child0 avl_swl root; t2 ← avl_swr t1; t3 ← avl_nasty t2; Ret (t3, true)
      else Fault AssertFail
  end.

(** [while (a->child[1]) a = a->child[1]] and its mirror image. *)
Fixpoint rightmost (it : item) (r : avl) : item :=
  match r with Nil => it | Node it' _ _ r' => rightmost it' r' end.

Fixpoint leftmost (it : item) (l : avl) : item :=
  match l with Nil => it | Node it' _ l' _ => leftmost it' l' end.

(** [avl_removeroot_wrk]; [remove] is the call to [avl_remove_wrk]. *)
Definition avl_removeroot_wrk (remove : avl -> item -> outcome (avl * bool)) (root : avl)
  : outcome (avl * bool) :=
  match root with
  | Nil => Fault NullDeref
  | Node _ _ Nil Nil => Ret (Nil, true)
  | Node _ _ Nil r => Ret (r, true)
  | Node _ _ l Nil => Ret (l, true)
  | Node _ b (Node li _ _ lr) (Node ri _ rl _) =>
      let a := if b <? 0 then rightmost li lr else leftmost ri rl in
      res ← remove root a;
      match res.1 with
      | Nil => Fault NullDeref
      | Node _ b' l' r' => Ret (Node a b' l' r', if b' =? 0 then res.2 else false)
      end
  end.

(** The fuel bounds the recursion through [avl_removeroot_wrk]; the callers
    pass [remove_fuel], which the theorems show to be enough. *)
Fixpoint avl_remove_wrk (fuel : nat) (kCmp : option (Z -> Z -> Z)) (root : avl) (a : item)
  : outcome (avl * bool) :=
  match fuel with
  | O => Fault OutOfFuel
  | S fuel =>
      match root with
      | Nil => Fault NullDeref
      | Node it b l r =>
          let cmpres := do_cmp kCmp (i_key it) (i_key a) in
          if 0 <? cmpres then
            match l with
            | Nil => Fault AssertFail
            | Node _ _ _ _ =>
                res ← avl_remove_wrk fuel kCmp l a;
                if res.2 : bool then
                  let root' := Node it (s8 (b + 1)) res.1 r in
                  if b =? -1 then Ret (root', true)
                  else if b =? 0 then Ret (root', false)
                  else if b =? 1 then rebalance_shrunk0 root'
                  else Fault AssertFail
                else Ret (Node it b res.1 r, false)
            end
          else if cmpres <? 0 then
            match r with
            | Nil => Fault AssertFail
            | Node _ _ _ _ =>
                res ← avl_remove_wrk fuel kCmp r a;
                if res.2 : bool then
                  let root' := Node it (s8 (b - 1)) l res.1 in
                  if b =? 1 then Ret (root', true)
                  else if b =? 0 then Ret (root', false)
                  else if b =? -1 then rebalance_shrunk1 root'
                  else Fault AssertFail
                else Ret (Node it b l res.1, false)
            end
          else
            _ ← vg_assert (i_addr it =? i_addr a);
            avl_removeroot_wrk (avl_remove_wrk fuel kCmp) root
      end
  end.

Fixpoint height (t : avl) : nat :=
  match t with Nil => 0 | Node _ _ l r => S (Nat.max (height l) (height r)) end.

Definition remove_fuel (t : avl) : nat := 2 * height t + 1.

(** ** Searching *)

(** The index of the child to visit: the sign bit of the comparison. *)
Definition sign_bit (cmpres : Z) : Z := Z.shiftr (u64 cmpres) 63.

Definition pick_child (ix : Z) (l r : avl) : avl := if ix =? 0 then l else r.

Fixpoint avl_find_node (kCmp : option (Z -> Z -> Z)) (t : avl) (k : Z) : option item :=
  match t with
  | Nil => None
  | Node it _ l r =>
      match kCmp with
      | Some f =>
          let cmpresS := f (i_key it) k in
          if 0 <? cmpresS then avl_find_node kCmp l k
          else if cmpresS <? 0 then avl_find_node kCmp r k
          else Some it
      | None =>
          let cmpresS := cmp_unsigned_Words (i_key it) k in
          if cmpresS =? 0 then Some it
          else if sign_bit cmpresS =? 0 then avl_find_node kCmp l k
          else avl_find_node kCmp r k
      end
  end.

(** The four bounds; [None] when the key is present. *)
Fixpoint avl_find_bounds (kCmp : option (Z -> Z -> Z)) (t : avl) (lo hi : Z * Z) (key : Z)
  : option ((Z * Z) * (Z * Z)) :=
  match t with
  | Nil => Some (lo, hi)
  | Node it _ l r =>
      let cmpresS := do_cmp kCmp (i_key it) key in
      if cmpresS <? 0 then avl_find_bounds kCmp r (i_key it, i_val it) hi key
      else if 0 <? cmpresS then avl_find_bounds kCmp l lo (i_key it, i_val it) key
      else None
  end.

(** * The finite map *)

Definition WFM_STKMAX : nat := 32.

(** The iterator stack, top first: a node (with the subtree below it, which
    does not change while an iteration is under way) and its [numStack]
    entry. *)
Record WordFM := FM { fm_root : avl; fm_kCmp : option (Z -> Z -> Z); fm_stack : list (avl * Z) }.

Definition newFM (kCmp : option (Z -> Z -> Z)) : WordFM := FM Nil kCmp [].

(** [addToFM]: [node] is the address that [alloc_nofail] returned; the result
    has the new map, whether the key was present, and the addresses given to
    [dealloc]. *)
Definition addToFM (fm : WordFM) (node k v : Z) : outcome (WordFM * bool * list Z) :=
  res ← avl_insert_wrk (fm_kCmp fm) (fm_root fm) (MaybeW 0 false) (Item node k v);
  let b := mw_b res.1.2 in
  Ret (FM res.1.1 (fm_kCmp fm) (fm_stack fm), b, if b then [node] else []).

(** [delFromFM]: the new map, the node that was found (whose key and value go
    to [*oldK] and [*oldV] and whose address goes to [dealloc]). *)
Definition delFromFM (fm : WordFM) (key : Z) : outcome (WordFM * option item) :=
  match avl_find_node (fm_kCmp fm) (fm_root fm) key with
  | Some node =>
      res ← avl_remove_wrk (remove_fuel (fm_root fm)) (fm_kCmp fm) (fm_root fm) node;
      Ret (FM res.1 (fm_kCmp fm) (fm_stack fm), Some node)
  | None => Ret (fm, None)
  end.

Definition lookupFM (fm : WordFM) (key : Z) : option (Z * Z) :=
  match avl_find_node (fm_kCmp fm) (fm_root fm) key with
  | Some node => Some (i_key node, i_val node)
  | None => None
  end.

Definition findBoundsFM (fm : WordFM) (lo hi : Z * Z) (key : Z) : option ((Z * Z) * (Z * Z)) :=
  avl_find_bounds (fm_kCmp fm) (fm_root fm) lo hi key.

Definition sizeFM (fm : WordFM) : Z := size_avl_nonNull (fm_root fm).

(** ** Iteration *)

Definition stackPush (stk : list (avl * Z)) (n : avl) (i : Z) : outcome (list (avl * Z)) :=
  _ ← vg_assert (Nat.ltb (length stk) WFM_STKMAX);
  _ ← vg_assert ((1 <=? i) && (i <=? 3));
  Ret ((n, i) :: stk).

Definition initIterFM (fm : WordFM) : outcome WordFM :=
  match fm_root fm with
  | Nil => Ret (FM (fm_root fm) (fm_kCmp fm) [])
  | _ => stk ← stackPush [] (fm_root fm) 1; Ret (FM (fm_root fm) (fm_kCmp fm) stk)
  end.

(** The search loop of [initIterAtFM]; every way out of the loop returns, so
    the statements after it are never reached. *)
Fixpoint iter_at (kCmp : option (Z -> Z -> Z)) (t : avl) (start_at : Z) (stk : list (avl * Z))
  : outcome (list (avl * Z)) :=
  match t with
  | Nil => Ret stk
  | Node it _ l r =>
      let cmpresS := do_cmp kCmp (i_key it) start_at in
      if cmpresS =? 0 then stackPush stk t 2
      else
        let cmpresU := sign_bit cmpresS in
        stk' ← (if cmpresU =? 0 then stackPush stk t 2 else Ret stk);
        if cmpresU =? 0 then iter_at kCmp l start_at stk' else iter_at kCmp r start_at stk'
  end.

Definition initIterAtFM (fm : WordFM) (start_at : Z) : outcome WordFM :=
  stk ← iter_at (fm_kCmp fm) (fm_root fm) start_at [];
  Ret (FM (fm_root fm) (fm_kCmp fm) stk).

(** [case_1]: push the node and go to its left child, until there is none. *)
Fixpoint push_left (n : avl) (stk : list (avl * Z)) : outcome (list (avl * Z)) :=
  match n with
  | Nil => Ret stk
  | Node _ _ l _ => stk' ← stackPush stk n 2; push_left l stk'
  end.

Definition stackPop (stk : list (avl * Z)) : outcome (option (avl * Z * list (avl * Z))) :=
  _ ← vg_assert (Nat.leb (length stk) WFM_STKMAX);
  match stk with
  | [] => Ret None
  | (n, i) :: stk' => _ ← vg_assert ((1 <=? i) && (i <=? 3)); Ret (Some (n, i, stk'))
  end.

(** The [while (stackPop(...))] loop. *)
Fixpoint next_loop (fuel : nat) (stk : list (avl * Z))
  : outcome (list (avl * Z) * option (Z * Z)) :=
  match fuel with
  | O => Fault OutOfFuel
  | S fuel =>
      pop ← stackPop stk;
      match pop with
      | None => Ret (stk, None)
      | Some (n, i, stk') =>
          match n with
          | Nil => Fault NullDeref
          | Node it _ l r =>
              if i =? 1 then stk2 ← push_left n stk'; next_loop fuel stk2
              else if i =? 2 then
                stk2 ← stackPush stk' n 3; Ret (stk2, Some (i_key it, i_val it))
              else if i =? 3 then
                stk2 ← push_left r stk'; next_loop fuel stk2
              else Fault AssertFail
          end
      end
  end.

Definition next_fuel (stk : list (avl * Z)) : nat := length stk + 2.

Definition nextIterFM (fm : WordFM) : outcome (WordFM * option (Z * Z)) :=
  res ← next_loop (next_fuel (fm_stack fm)) (fm_stack fm);
  Ret (FM (fm_root fm) (fm_kCmp fm) res.1, res.2).

(** Call [nextIterFM] until it returns False, at most [n] times. *)
Fixpoint drain (n : nat) (fm : WordFM) : outcome (list (Z * Z)) :=
  match n with
  | O => Ret []
  | S n =>
      res ← nextIterFM fm;
      match res.2 with
      | None => Ret []
      | Some kv => rest ← drain n res.1; Ret (kv :: rest)
      end
  end.

(** ** Copying and freeing *)

(** [newaddr] gives the address of the copy of each node. *)
Fixpoint avl_dopy (dopyK dopyV : option (Z -> Z)) (newaddr : Z -> Z) (nd : avl) : avl :=
  match nd with
  | Nil => Nil
  | Node it b l r =>
      Node (Item (newaddr (i_addr it))
              (match dopyK with Some f => f (i_key it) | None => i_key it end)
              (match dopyV with Some f => f (i_val it) | None => i_val it end))
           b (avl_dopy dopyK dopyV newaddr l) (avl_dopy dopyK dopyV newaddr r)
  end.

Definition dopyFM (fm : WordFM) (dopyK dopyV : option (Z -> Z)) (newaddr : Z -> Z)
  : outcome WordFM :=
  _ ← vg_assert (Nat.eqb (length (fm_stack fm)) 0);
  Ret (FM (avl_dopy dopyK dopyV newaddr (fm_root fm)) (fm_kCmp fm) (fm_stack fm)).

(** The nodes in the order in which they are finalised and freed. *)
Fixpoint avl_free (nd : avl) : list item :=
  match nd with
  | Nil => []
  | Node it _ l r => avl_free l ++ avl_free r ++ [it]
  end.

Definition deleteFM (fm : WordFM) : list item := avl_free (fm_root fm).

(** * Bags of words *)

Definition newBag : WordFM := newFM None.

Definition addToBag (bag : WordFM) (node w : Z) : outcome (WordFM * list Z) :=
  match lookupFM bag w with
  | Some (key, count) =>
      _ ← vg_assert (key =? w); _ ← vg_assert (1 <=? count);
      res ← addToFM bag node w (u64 (count + 1)); Ret (res.1.1, res.2)
  | None => res ← addToFM bag node w 1; Ret (res.1.1, res.2)
  end.

Definition elemBag (bag : WordFM) (w : Z) : outcome Z :=
  match lookupFM bag w with
  | Some (key, count) =>
      _ ← vg_assert (key =? w); _ ← vg_assert (1 <=? count); Ret count
  | None => Ret 0
  end.

Definition sizeUniqueBag (bag : WordFM) : Z := sizeFM bag.

Fixpoint sizeTotalBag_wrk (nd : avl) : outcome Z :=
  match nd with
  | Nil => Ret 0
  | Node it _ l r =>
      _ ← vg_assert (1 <=? i_val it);
      wl ← sizeTotalBag_wrk l; wr ← sizeTotalBag_wrk r;
      Ret (u64 (i_val it + wl + wr))
  end.

Definition sizeTotalBag (bag : WordFM) : outcome Z := sizeTotalBag_wrk (fm_root bag).

(** [node] is the address that [addToFM] allocates when the count stays
    positive. *)
Definition delFromBag (bag : WordFM) (node w : Z) : outcome (WordFM * bool) :=
  match lookupFM bag w with
  | Some (key, count) =>
      _ ← vg_assert (key =? w); _ ← vg_assert (1 <=? count);
      if 1 <? count then
        res ← addToFM bag node w (count - 1); Ret (res.1.1, true)
      else
        _ ← vg_assert (count =? 1);
        res ← delFromFM bag w; Ret (res.1, true)
  | None => Ret (bag, false)
  end.

Definition isEmptyBag (bag : WordFM) : bool := sizeFM bag =? 0.

Definition isSingletonTotalBag (bag : WordFM) : outcome bool :=
  if negb (sizeFM bag =? 1) then Ret false
  else
    match fm_root bag with
    | Node it _ Nil Nil => Ret (i_val it =? 1)
    | _ => Fault AssertFail
    end.

Definition anyElementOfBag (bag : WordFM) : outcome Z :=
  match fm_root bag with
  | Nil => Fault AssertFail
  | Node it _ _ _ => _ ← vg_assert (1 <=? i_val it); Ret (i_key it)
  end.

(** * Specification: a sorted list of items *)

(** What the code needs from a comparison function: a total order up to the
    words it identifies, whose results fit in a [Word]. *)
Class KCmpOrder (c : Z -> Z -> Z) : Prop := {
  kc_range : forall x y, - 2 ^ 63 <= c x y < 2 ^ 63;
  kc_flip : forall x y, Z.sgn (c x y) = - Z.sgn (c y x);
  kc_trans : forall x y z, c x y < 0 -> c y z < 0 -> c x z < 0;
  kc_eq : forall x y z, c x y = 0 -> Z.sgn (c x z) = Z.sgn (c y z);
}.

Fixpoint elements (t : avl) : list item :=
  match t with Nil => [] | Node it _ l r => elements l ++ it :: elements r end.

Section Spec.
Variable c : Z -> Z -> Z.

Definition item_lt (x y : item) : Prop := c (i_key x) (i_key y) < 0.

Definition sorted (l : list item) : Prop := StronglySorted item_lt l.

(** Add or overwrite; an existing node keeps its address and its key. *)
Fixpoint alist_add (a : item) (l : list item) : list item :=
  match l with
  | [] => [a]
  | it :: l' =>
      if 0 <? c (i_key it) (i_key a) then a :: l
      else if c (i_key it) (i_key a) <? 0 then it :: alist_add a l'
      else Item (i_addr it) (i_key it) (i_val a) :: l'
  end.

Fixpoint alist_find (k : Z) (l : list item) : option item :=
  match l with
  | [] => None
  | it :: l' => if c (i_key it) k =? 0 then Some it else alist_find k l'
  end.

Definition alist_del (k : Z) (l : list item) : list item :=
  filter (fun it => c (i_key it) k ≠ 0) l.

(** Heights differ by at most one, and each balance is their difference. *)
Fixpoint balanced (t : avl) : Prop :=
  match t with
  | Nil => True
  | Node _ b l r =>
      b = Z.of_nat (height r) - Z.of_nat (height l) ∧ -1 <= b <= 1 ∧ balanced l ∧ balanced r
  end.

Definition wf (t : avl) : Prop := balanced t ∧ sorted (elements t).

End Spec.

(** The order a map uses. *)
Definition fm_cmp (fm : WordFM) : Z -> Z -> Z := do_cmp (fm_kCmp fm).

(** The invariant of a map and its abstract contents. *)
Definition fm_ok (fm : WordFM) : Prop := KCmpOrder (fm_cmp fm) ∧ wf (fm_cmp fm) (fm_root fm).
Definition contents (fm : WordFM) : list (Z * Z) :=
  (fun it => (i_key it, i_val it)) <$> elements (fm_root fm).

(** ** Bounds, iteration *)

(** The entry with the largest key below [k] and the one with the smallest
    key above [k], with defaults. *)
Fixpoint last_below (c : Z -> Z -> Z) (k : Z) (lo : Z * Z) (l : list item) : Z * Z :=
  match l with
  | [] => lo
  | it :: l' => if c (i_key it) k <? 0 then last_below c k (i_key it, i_val it) l' else lo
  end.

Fixpoint first_above (c : Z -> Z -> Z) (k : Z) (hi : Z * Z) (l : list item) : Z * Z :=
  match l with
  | [] => hi
  | it :: l' => if 0 <? c (i_key it) k then (i_key it, i_val it) else first_above c k hi l'
  end.

(** The items a stack entry, and a whole stack, still has to produce. *)
Definition pending (e : avl * Z) : list item :=
  match e.1 with
  | Nil => []
  | Node it _ l r =>
      if e.2 =? 1 then elements (e.1) else if e.2 =? 2 then it :: elements r else elements r
  end.

Definition remaining (stk : list (avl * Z)) : list item := concat (pending <$> stk).

(** Every entry is a node with a number in 1..3, and the tree below it fits
    in what is left of the stack. *)
Fixpoint stack_ok (stk : list (avl * Z)) : Prop :=
  match stk with
  | [] => True
  | (n, i) :: stk' =>
      n ≠ Nil ∧ 1 <= i <= 3 ∧ (length stk' + height n <= WFM_STKMAX)%nat ∧ stack_ok stk'
  end.

(** The fewest nodes of a tree of height [h] and of height [h + 1]. *)
Fixpoint min_nodes (h : nat) : Z * Z :=
  match h with
  | O => (0, 1)
  | S h' => let p := min_nodes h' in (p.2, 1 + p.1 + p.2)
  end.

(** * Facts on orders and sorted lists *)

#[export] Instance cmp_unsigned_Words_order : KCmpOrder cmp_unsigned_Words.
Proof.
  split; unfold cmp_unsigned_Words; intros;
    repeat match goal with
    | |- context [?a <? ?b] => destruct (Z.ltb_spec a b)
    | H : context [?a <? ?b] |- _ => destruct (Z.ltb_spec a b)
    end; simpl in *; lia.
Qed.

Section Order.
Context {c : Z -> Z -> Z} `{KCmpOrder c}.

Lemma kc_gt x y : 0 < c x y <-> c y x < 0.
Proof. pose proof (kc_flip x y). split; intros; destruct (c x y), (c y x); simpl in *; lia. Qed.

Lemma kc_zero_sym x y : c x y = 0 <-> c y x = 0.
Proof. pose proof (kc_flip x y). split; intros; destruct (c x y), (c y x); simpl in *; lia. Qed.

Lemma kc_refl x : c x x = 0.
Proof. pose proof (kc_flip x x). destruct (c x x); simpl in *; lia. Qed.

Lemma kc_eq_lt_l x y z : c x y = 0 -> c y z < 0 -> c x z < 0.
Proof. intros E Hl. pose proof (kc_eq x y z E). destruct (c x z), (c y z); simpl in *; lia. Qed.

Lemma kc_eq_lt_r x y z : c y z = 0 -> c x y < 0 -> c x z < 0.
Proof.
  intros E Hl. apply kc_gt. apply kc_zero_sym in E. apply kc_gt in Hl.
  pose proof (kc_eq z y x E). destruct (c z x), (c y x); simpl in *; lia.
Qed.

Lemma item_lt_trans x y z : item_lt c x y -> item_lt c y z -> item_lt c x z.
Proof. apply kc_trans. Qed.

Lemma sorted_app l1 l2 :
  sorted c (l1 ++ l2) <-> sorted c l1 ∧ sorted c l2 ∧ ∀ x y, x ∈ l1 -> y ∈ l2 -> item_lt c x y.
Proof.
  unfold sorted. induction l1 as [|x l1 IH]; simpl.
  - split; [intros Hs; split; [constructor|split; [done|]]; set_solver|by intros (_ & ? & _)].
  - split.
    + intros Hs. inversion Hs as [|? ? Hs' Hall]; subst. apply IH in Hs' as (H1 & H2 & H12).
      apply Forall_app in Hall as [Ha1 Ha2]. split; [by constructor|]. split; [done|].
      intros x' y [->|Hx]%elem_of_cons Hy; [|by apply H12].
      by apply (proj1 (Forall_forall _ _) Ha2).
    + intros (H1 & H2 & H12). inversion H1 as [|? ? Hs' Hall]; subst. constructor.
      * apply IH. split; [done|]. split; [done|]. set_solver.
      * apply Forall_app. split; [done|]. apply Forall_forall. intros y Hy. apply H12; set_solver.
Qed.

Lemma sorted_cons x l : sorted c (x :: l) <-> sorted c l ∧ ∀ y, y ∈ l -> item_lt c x y.
Proof.
  unfold sorted. split.
  - intros Hs. inversion Hs as [|? ? ? Hall]; subst. split; [done|].
    intros y Hy. by apply (proj1 (Forall_forall _ _) Hall).
  - intros [Hs Hall]. constructor; [done|]. by apply Forall_forall.
Qed.

Lemma sorted_mid l1 it l2 :
  sorted c (l1 ++ it :: l2) <->
  sorted c l1 ∧ sorted c l2 ∧ (∀ x, x ∈ l1 -> item_lt c x it) ∧ (∀ y, y ∈ l2 -> item_lt c it y).
Proof.
  rewrite sorted_app, sorted_cons. split.
  - intros (H1 & [H2 Hit] & H12). split; [done|]. split; [done|]. split; [|done].
    intros x Hx. apply H12; set_solver.
  - intros (H1 & H2 & Ha & Hb). split; [done|]. split; [done|].
    intros x y Hx [->|Hy]%elem_of_cons; [by apply Ha|]. eapply item_lt_trans; eauto.
Qed.

(** ** The list operations around a pivot *)

Lemma alist_add_left a l1 it l2 :
  0 < c (i_key it) (i_key a) ->
  alist_add c a (l1 ++ it :: l2) = alist_add c a l1 ++ it :: l2.
Proof.
  intros Hit. induction l1 as [|x l1 IH]; simpl.
  - case_bool; [done|lia].
  - repeat case_bool; [done| |done]. by rewrite IH.
Qed.

Lemma alist_add_right a l1 it l2 :
  (∀ x, x ∈ l1 -> item_lt c x it) -> c (i_key it) (i_key a) < 0 ->
  alist_add c a (l1 ++ it :: l2) = l1 ++ it :: alist_add c a l2.
Proof.
  intros Hl1 Hit. induction l1 as [|x l1 IH]; simpl.
  - repeat case_bool; try lia. done.
  - assert (c (i_key x) (i_key a) < 0)
      by (eapply kc_trans; [apply (Hl1 x); set_solver|done]).
    repeat case_bool; try lia. rewrite IH; [done|]. set_solver.
Qed.

Lemma alist_add_here a l1 it l2 :
  (∀ x, x ∈ l1 -> item_lt c x it) -> c (i_key it) (i_key a) = 0 ->
  alist_add c a (l1 ++ it :: l2) = l1 ++ Item (i_addr it) (i_key it) (i_val a) :: l2.
Proof.
  intros Hl1 Hit. induction l1 as [|x l1 IH]; simpl.
  - repeat case_bool; try lia. done.
  - assert (c (i_key x) (i_key a) < 0)
      by (eapply kc_eq_lt_r; [done|apply Hl1; set_solver]).
    repeat case_bool; try lia. rewrite IH; [done|]. set_solver.
Qed.

Lemma alist_find_app k l1 l2 :
  alist_find c k (l1 ++ l2) =
  match alist_find c k l1 with Some it => Some it | None => alist_find c k l2 end.
Proof. induction l1 as [|x l1 IH]; simpl; [done|]. by case_bool. Qed.

Lemma alist_find_None k l :
  (∀ x, x ∈ l -> c (i_key x) k ≠ 0) -> alist_find c k l = None.
Proof.
  induction l as [|x l IH]; simpl; intros Hl; [done|].
  case_bool; [exfalso; apply (Hl x); set_solver|]. apply IH. set_solver.
Qed.

Lemma alist_find_Some k l it : alist_find c k l = Some it -> it ∈ l ∧ c (i_key it) k = 0.
Proof.
  induction l as [|x l IH]; simpl; [done|]. case_bool.
  - intros [= ->]. set_solver.
  - intros [? ?]%IH. set_solver.
Qed.

(** The keys of [l] are all below (above) [k]. *)
Lemma lt_ne x k : c (i_key x) k < 0 -> c (i_key x) k ≠ 0.
Proof. lia. Qed.

Lemma alist_del_id k l : (∀ x, x ∈ l -> c (i_key x) k ≠ 0) -> alist_del c k l = l.
Proof.
  intros Hl. unfold alist_del. induction l as [|x l IH]; [done|].
  rewrite filter_cons_True by (apply Hl; set_solver). rewrite IH; [done|]. set_solver.
Qed.

Lemma alist_del_app k l1 l2 : alist_del c k (l1 ++ l2) = alist_del c k l1 ++ alist_del c k l2.
Proof. apply filter_app. Qed.

Lemma alist_del_cons_ne k it l :
  c (i_key it) k ≠ 0 -> alist_del c k (it :: l) = it :: alist_del c k l.
Proof. intros. unfold alist_del. by rewrite filter_cons_True. Qed.

Lemma alist_del_cons_eq k it l :
  c (i_key it) k = 0 -> alist_del c k (it :: l) = alist_del c k l.
Proof. intros E. unfold alist_del. rewrite filter_cons_False; [done|]. by intros ?. Qed.

(** In a sorted list with [it] in the middle, comparing a key with [it]
    settles the comparison with the items on one side. *)
Lemma below_pivot (l1 : list item) it k x :
  (∀ x, x ∈ l1 -> item_lt c x it) -> c (i_key it) k <= 0 -> x ∈ l1 -> c (i_key x) k < 0.
Proof.
  intros Hl1 Hk Hx. specialize (Hl1 x Hx). unfold item_lt in Hl1.
  destruct (decide (c (i_key it) k = 0)); [by eapply kc_eq_lt_r|].
  eapply kc_trans; [done|lia].
Qed.

Lemma above_pivot (l2 : list item) it k x :
  (∀ x, x ∈ l2 -> item_lt c it x) -> 0 <= c (i_key it) k -> x ∈ l2 -> 0 < c (i_key x) k.
Proof.
  intros Hl2 Hk Hx. specialize (Hl2 x Hx). unfold item_lt in Hl2. apply kc_gt.
  destruct (decide (c (i_key it) k = 0)).
  - eapply kc_eq_lt_l; [|done]. by apply kc_zero_sym.
  - eapply kc_trans; [apply kc_gt|done]. lia.
Qed.

End Order.

(** * Rebalancing *)

Definition b2z (g : bool) : Z := if g then 1 else 0.
Definition b2n (g : bool) : nat := if g then 1%nat else 0%nat.

Lemma s8_small z : -128 <= z <= 127 -> s8 z = z.
Proof. intros. apply swrap_small; lia. Qed.

(** Finish a rebalancing case: the new balances, heights and elements. *)
Ltac rebalanced :=
  eexists; split; [done|]; simpl;
  repeat split; try done; try lia; simpl; rewrite <- ?app_assoc; simpl; try (rewrite <- ?app_assoc; done).

Ltac open_child H :=
  match type of H with balanced ?t => destruct t; simpl in *; [lia|destruct H as (-> & ? & ? & ?)] end.

(** The left (right) child of [it] is two higher than the other one; [it] is
    recorded with balance -2 (2). *)
Lemma rebalance_grown0_ok it l r :
  balanced l -> balanced r -> height l = (2 + height r)%nat ->
  (∃ li lb ll lr, l = Node li lb ll lr ∧ lb ≠ 0) ->
  ∃ t, rebalance_grown0 (Node it (-2) l r) = Ret t ∧ balanced t ∧
       height t = height l ∧ elements t = elements l ++ it :: elements r.
Proof.
  intros Hl Hr Hh (li & lb & ll & lr & -> & Hlb). simpl in Hl, Hh.
  destruct Hl as (-> & Hb & Hll & Hlr). unfold rebalance_grown0. simpl. case_bool.
  - rebalanced.
  - open_child Hlr. unfold avl_nasty; simpl; repeat (case_bool; simpl); try (exfalso; lia); rebalanced.
Qed.

Lemma rebalance_grown1_ok it l r :
  balanced l -> balanced r -> height r = (2 + height l)%nat ->
  (∃ ri rb rl rr, r = Node ri rb rl rr ∧ rb ≠ 0) ->
  ∃ t, rebalance_grown1 (Node it 2 l r) = Ret t ∧ balanced t ∧
       height t = height r ∧ elements t = elements l ++ it :: elements r.
Proof.
  intros Hl Hr Hh (ri & rb & rl & rr & -> & Hrb). simpl in Hr, Hh.
  destruct Hr as (-> & Hb & Hrl & Hrr). unfold rebalance_grown1. simpl. case_bool.
  - rebalanced.
  - open_child Hrl. unfold avl_nasty; simpl; repeat (case_bool; simpl); try (exfalso; lia); rebalanced.
Qed.

Lemma rebalance_shrunk0_ok it l r :
  balanced l -> balanced r -> height r = (2 + height l)%nat ->
  ∃ t g, rebalance_shrunk0 (Node it 2 l r) = Ret (t, g) ∧ balanced t ∧
       (height t + b2n g)%nat = S (height r) ∧ elements t = elements l ++ it :: elements r.
Proof.
  intros Hl Hr Hh. open_child Hr. unfold rebalance_shrunk0. simpl.
  repeat case_bool; try (exfalso; lia); [eexists; rebalanced|eexists; rebalanced|].
  match goal with Ha : balanced ?a, E : _ - Z.of_nat (height ?a) = -1 |- _ => open_child Ha end.
  unfold avl_nasty; simpl; repeat (case_bool; simpl); try (exfalso; lia); eexists; rebalanced.
Qed.

Lemma rebalance_shrunk1_ok it l r :
  balanced l -> balanced r -> height l = (2 + height r)%nat ->
  ∃ t g, rebalance_shrunk1 (Node it (-2) l r) = Ret (t, g) ∧ balanced t ∧
       (height t + b2n g)%nat = S (height l) ∧ elements t = elements l ++ it :: elements r.
Proof.
  intros Hl Hr Hh. open_child Hl. unfold rebalance_shrunk1. simpl.
  repeat case_bool; try (exfalso; lia); [eexists; rebalanced|eexists; rebalanced|].
  match goal with Ha : balanced ?a, E : Z.of_nat (height ?a) - _ = 1 |- _ => open_child Ha end.
  unfold avl_nasty; simpl; repeat (case_bool; simpl); try (exfalso; lia); eexists; rebalanced.
Qed.

(** * Insertion *)

Lemma stale_child_same_root old new a :
  root_addr old = Some a -> root_addr new = Some a -> stale_child old new = new.
Proof.
  intros Ho Hn. unfold stale_child. rewrite Ho. destruct new as [|it b l r]; [done|].
  simpl in *. injection Hn as ->. by rewrite Z.eqb_refl.
Qed.

(** The subtree has grown: its root is the node it was, and is no longer even. *)
Definition grown_from (old new : avl) : Prop :=
  match old with
  | Nil => True
  | Node _ _ _ _ => root_addr new = root_addr old ∧ ∃ it b l r, new = Node it b l r ∧ b ≠ 0
  end.

Definition replaced (o : MaybeWord) (found : option item) : MaybeWord :=
  match found with Some it => MaybeW (i_val it) true | None => MaybeW (mw_w o) false end.

Section Insertion.
Context (kCmp : option (Z -> Z -> Z)).
Notation c := (do_cmp kCmp).
Context `{KCmpOrder c}.

(** The ways up from a subtree in which the insertion is done. *)
Lemma insert_up0 it b l r l' o g :
  balanced (Node it b l r) -> balanced l' -> height l' = (height l + b2n g)%nat ->
  (g = true -> grown_from l l') -> l ≠ Nil ->
  ∃ t g', (if g then
             let l'' := stale_child l l' in
             let root' := Node it (s8 (b - 1)) l'' r in
             if b =? 1 then Ret (root', o, false)
             else if b =? 0 then Ret (root', o, true)
             else if b =? -1 then t ← rebalance_grown0 root'; Ret (t, o, false)
             else Fault AssertFail
           else Ret (Node it b l' r, o, false)) = Ret (t, o : MaybeWord, g') ∧
    balanced t ∧ height t = (height (Node it b l r) + b2n g')%nat ∧
    elements t = elements l' ++ it :: elements r ∧ (g' = true -> grown_from (Node it b l r) t).
Proof.
  intros (Eb & Hb & Hl & Hr) Hl' Hh Hg Hnil. destruct g; simpl in Hh.
  - destruct l as [|li lb ll lr]; [done|]. destruct (Hg eq_refl) as (Ha & Hroot).
    rewrite (stale_child_same_root _ l' (i_addr li)) by done.
    rewrite s8_small by lia. clear Hg Ha. set (l := Node li lb ll lr) in *. clearbody l. cbv zeta.
    repeat case_bool; try (exfalso; lia).
    + eexists; rebalanced.
    + eexists _, _. split; [done|]. simpl. split; [repeat split; try done; lia|]. split; [lia|].
      split; [done|]. intros _. split; [done|]. eexists _, _, _, _. split; [done|]. lia.
    + replace (b - 1) with (-2) by lia.
      destruct (rebalance_grown0_ok it l' r) as (t & -> & Ht & Hht & He); [done|done|lia|done|].
      exists t, false. simpl. repeat split; try done. lia.
  - eexists _, _. split; [done|]. simpl. repeat split; try done; lia.
Qed.

Lemma insert_up1 it b l r r' o g :
  balanced (Node it b l r) -> balanced r' -> height r' = (height r + b2n g)%nat ->
  (g = true -> grown_from r r') -> r ≠ Nil ->
  ∃ t g', (if g then
             let r'' := stale_child r r' in
             let root' := Node it (s8 (b + 1)) l r'' in
             if b =? -1 then Ret (root', o, false)
             else if b =? 0 then Ret (root', o, true)
             else if b =? 1 then t ← rebalance_grown1 root'; Ret (t, o, false)
             else Fault AssertFail
           else Ret (Node it b l r', o, false)) = Ret (t, o : MaybeWord, g') ∧
    balanced t ∧ height t = (height (Node it b l r) + b2n g')%nat ∧
    elements t = elements l ++ it :: elements r' ∧ (g' = true -> grown_from (Node it b l r) t).
Proof.
  intros (Eb & Hb & Hl & Hr) Hr' Hh Hg Hnil. destruct g; simpl in Hh.
  - destruct r as [|ri rb rl rr]; [done|]. destruct (Hg eq_refl) as (Ha & Hroot).
    rewrite (stale_child_same_root _ r' (i_addr ri)) by done.
    rewrite s8_small by lia. clear Hg Ha. set (r := Node ri rb rl rr) in *. clearbody r. cbv zeta.
    repeat case_bool; try (exfalso; lia).
    + eexists; rebalanced.
    + eexists _, _. split; [done|]. simpl. split; [repeat split; try done; lia|]. split; [lia|].
      split; [done|]. intros _. split; [done|]. eexists _, _, _, _. split; [done|]. lia.
    + replace (b + 1) with 2 by lia.
      destruct (rebalance_grown1_ok it l r') as (t & -> & Ht & Hht & He); [done|done|lia|done|].
      exists t, false. simpl. repeat split; try done. lia.
  - eexists _, _. split; [done|]. simpl. repeat split; try done; lia.
Qed.

(** One node under an even or other-sided parent with no child there. *)
Lemma leaf_balanced a : balanced (Node a 0 Nil Nil).
Proof. simpl. lia. Qed.

(** The keys of one side do not meet the searched key. *)
Lemma find_left k l it r :
  (∀ y, y ∈ elements r -> item_lt c it y) -> 0 < c (i_key it) k ->
  alist_find c k (elements l ++ it :: elements r) = alist_find c k (elements l).
Proof.
  intros Hr Hk. rewrite alist_find_app. destruct (alist_find c k (elements l)); [done|].
  simpl. case_bool; [lia|]. apply alist_find_None. intros y Hy.
  pose proof (above_pivot _ it k y Hr ltac:(lia) Hy). lia.
Qed.

Lemma find_right k l it r :
  (∀ x, x ∈ elements l -> item_lt c x it) -> c (i_key it) k < 0 ->
  alist_find c k (elements l ++ it :: elements r) = alist_find c k (elements r).
Proof.
  intros Hl Hk. rewrite alist_find_app, alist_find_None.
  - simpl. case_bool; [lia|done].
  - intros x Hx. pose proof (below_pivot _ it k x Hl ltac:(lia) Hx). lia.
Qed.

Lemma find_here k l it r :
  (∀ x, x ∈ elements l -> item_lt c x it) -> c (i_key it) k = 0 ->
  alist_find c k (elements l ++ it :: elements r) = Some it.
Proof.
  intros Hl Hk. rewrite alist_find_app, alist_find_None.
  - simpl. by rewrite Hk.
  - intros x Hx. pose proof (below_pivot _ it k x Hl ltac:(lia) Hx). lia.
Qed.

Lemma avl_insert_wrk_ok t : ∀ o a, wf c t ->
  ∃ t' g, avl_insert_wrk kCmp t o a = Ret (t', replaced o (alist_find c (i_key a) (elements t)), g) ∧
    balanced t' ∧ height t' = (height t + b2n g)%nat ∧
    elements t' = alist_add c a (elements t) ∧ (g = true -> grown_from t t').
Proof.
  induction t as [|it b l IHl r IHr]; intros o a [Hb Hs].
  { simpl. eexists _, _. split; [done|]. simpl. repeat split; try done; lia. }
  simpl in Hs. apply sorted_mid in Hs as (Hsl & Hsr & Hlt & Hgt).
  pose proof Hb as (_ & _ & Hbl & Hbr). cbn [avl_insert_wrk elements].
  destruct (0 <? c (i_key it) (i_key a)) eqn:E1; b2p.
  - rewrite find_left, alist_add_left by done.
    destruct (decide (l = Nil)) as [->|Hl].
    + simpl in Hb. destruct Hb as (Eb & Hb & _). rewrite s8_small by lia.
      simpl. destruct (Z.eqb_spec b 0); eexists _, _; (split; [done|]); simpl;
        (repeat split; try done; try lia); intros; eexists _, _, _, _; (split; [done|]); lia.
    + destruct (IHl (MaybeW (mw_w o) false) a) as (l' & g & Hi & Hbl' & Hh & He & Hg); [by split|].
      destruct (insert_up0 it b l r l' (replaced o (alist_find c (i_key a) (elements l))) g)
        as (t & g' & Hup & Hbt & Hht & Het & Hgt'); try done.
      exists t, g'. rewrite <- He. split; [|done].
      rewrite Hi. destruct l; [done|]. exact Hup.
  - destruct (c (i_key it) (i_key a) <? 0) eqn:E2; b2p.
    + rewrite find_right, alist_add_right by done.
      destruct (decide (r = Nil)) as [->|Hr].
      * simpl in Hb. destruct Hb as (Eb & Hb & _). rewrite s8_small by lia.
        simpl. destruct (Z.eqb_spec b 0); eexists _, _; (split; [done|]); simpl;
          (repeat split; try done; try lia); intros; eexists _, _, _, _; (split; [done|]); lia.
      * destruct (IHr (MaybeW (mw_w o) false) a) as (r' & g & Hi & Hbr' & Hh & He & Hg); [by split|].
        destruct (insert_up1 it b l r r' (replaced o (alist_find c (i_key a) (elements r))) g)
          as (t & g' & Hup & Hbt & Hht & Het & Hgt'); try done.
        exists t, g'. rewrite <- He. split; [|done].
        rewrite Hi. destruct r; [done|]. exact Hup.
    + assert (E : c (i_key it) (i_key a) = 0) by lia.
      rewrite find_here, alist_add_here by done. eexists _, _. split; [done|].
      simpl. repeat split; try done; try lia; apply Hb.
Qed.

End Insertion.

Section AddDel.
Context {c : Z -> Z -> Z} `{KCmpOrder c}.

Lemma alist_add_keys a l x :
  x ∈ alist_add c a l -> c (i_key x) (i_key a) = 0 ∨ ∃ y, y ∈ l ∧ i_key y = i_key x.
Proof.
  induction l as [|y l IH]; simpl.
  - intros ->%list_elem_of_singleton. left. apply kc_refl.
  - repeat case_bool.
    + intros [->|Hx]%elem_of_cons; [left; apply kc_refl|right; by exists x].
    + intros [->|Hx]%elem_of_cons; [right; exists y; set_solver|].
      destruct (IH Hx) as [?|(z & ? & ?)]; [by left|right; exists z; set_solver].
    + intros [->|Hx]%elem_of_cons; [left; simpl; lia|right; exists x; set_solver].
Qed.

Lemma alist_add_sorted a l : sorted c l -> sorted c (alist_add c a l).
Proof.
  induction l as [|y l IH]; simpl; intros Hs.
  { apply sorted_cons. split; [done|]. set_solver. }
  pose proof Hs as [Hsl Hall]%sorted_cons. repeat case_bool.
  - apply sorted_cons. split; [done|]. intros z [->|Hz]%elem_of_cons.
    + by apply kc_gt.
    + eapply item_lt_trans; [|by apply Hall]. by apply kc_gt.
  - apply sorted_cons. split; [by apply IH|]. intros z Hz.
    destruct (alist_add_keys a l z Hz) as [E'|(w & Hw & E')].
    + unfold item_lt. eapply kc_eq_lt_r; [|done]. by apply kc_zero_sym.
    + specialize (Hall w Hw). unfold item_lt in *. by rewrite <- E'.
  - apply sorted_cons. split; [done|]. intros z Hz. by apply (Hall z).
Qed.

Lemma alist_del_sub k l x : x ∈ alist_del c k l -> x ∈ l.
Proof. unfold alist_del. by intros [? ?]%list_elem_of_filter. Qed.

Lemma alist_del_sorted k l : sorted c l -> sorted c (alist_del c k l).
Proof.
  induction l as [|y l IH]; intros Hs; [done|]. apply sorted_cons in Hs as [Hs Hall].
  destruct (decide (c (i_key y) k = 0)).
  - rewrite alist_del_cons_eq by done. auto.
  - rewrite alist_del_cons_ne by done. apply sorted_cons. split; [auto|].
    intros z Hz. eauto using alist_del_sub.
Qed.

(** Deleting next to a pivot. *)
Lemma del_left k l1 it l2 :
  (∀ y, y ∈ l2 -> item_lt c it y) -> 0 < c (i_key it) k ->
  alist_del c k (l1 ++ it :: l2) = alist_del c k l1 ++ it :: l2.
Proof.
  intros Hr Hk. rewrite alist_del_app, alist_del_cons_ne by lia. f_equal. f_equal.
  apply alist_del_id. intros y Hy. pose proof (above_pivot _ it k y Hr ltac:(lia) Hy). lia.
Qed.

Lemma del_right k l1 it l2 :
  (∀ x, x ∈ l1 -> item_lt c x it) -> c (i_key it) k < 0 ->
  alist_del c k (l1 ++ it :: l2) = l1 ++ it :: alist_del c k l2.
Proof.
  intros Hl Hk. rewrite alist_del_app, alist_del_cons_ne by lia. f_equal.
  apply alist_del_id. intros x Hx. pose proof (below_pivot _ it k x Hl ltac:(lia) Hx). lia.
Qed.

Lemma del_here k l1 it l2 :
  sorted c (l1 ++ it :: l2) -> c (i_key it) k = 0 -> alist_del c k (l1 ++ it :: l2) = l1 ++ l2.
Proof.
  intros (H1 & H2 & Hl & Hr)%sorted_mid Hk.
  rewrite alist_del_app, alist_del_cons_eq by done. f_equal; apply alist_del_id.
  - intros x Hx. pose proof (below_pivot _ it k x Hl ltac:(lia) Hx). lia.
  - intros x Hx. pose proof (above_pivot _ it k x Hr ltac:(lia) Hx). lia.
Qed.

(** In a sorted list the comparison tells items apart. *)
Lemma sorted_same l x y :
  sorted c l -> x ∈ l -> y ∈ l -> c (i_key x) (i_key y) = 0 -> x = y.
Proof.
  intros Hs Hx Hy E. apply list_elem_of_split in Hx as (l1 & l2 & ->).
  apply sorted_mid in Hs as (_ & _ & Hl & Hr).
  apply elem_of_app in Hy as [Hy|[->|Hy]%elem_of_cons]; [|done|].
  - specialize (Hl y Hy). unfold item_lt in Hl. apply kc_gt in Hl. lia.
  - specialize (Hr y Hy). unfold item_lt in Hr. lia.
Qed.

End AddDel.

(** * Removal *)

Lemma rightmost_last r : ∀ it,
  ∃ e, it :: elements r = e ++ [rightmost it r].
Proof.
  induction r as [|it' b l IHl r IHr]; intros it; simpl; [by exists []|].
  destruct (IHr it') as [e He]. exists (it :: elements l ++ e).
  rewrite He. simpl. by rewrite <- app_assoc.
Qed.

Lemma leftmost_first l : ∀ it,
  ∃ e, elements l ++ [it] = leftmost it l :: e.
Proof.
  induction l as [|it' b l IHl r IHr]; intros it; simpl; [by exists []|].
  destruct (IHl it') as [e He]. exists (e ++ elements r ++ [it]).
  rewrite <- app_assoc. simpl. rewrite cons_middle, app_assoc, He. done.
Qed.

Section Removal.
Context (kCmp : option (Z -> Z -> Z)).
Notation c := (do_cmp kCmp).
Context `{KCmpOrder c}.

(** What a removal of the node [a] from the tree [t] returns. *)
Definition removes (res : outcome (avl * bool)) (t : avl) (a : item) : Prop :=
  ∃ t' g, res = Ret (t', g) ∧ balanced t' ∧ height t = (height t' + b2n g)%nat ∧
    elements t' = alist_del c (i_key a) (elements t).

Lemma remove_up0 it b l r l' g :
  balanced (Node it b l r) -> balanced l' -> height l = (height l' + b2n g)%nat ->
  ∃ t g', (if g then
             let root' := Node it (s8 (b + 1)) l' r in
             if b =? -1 then Ret (root', true)
             else if b =? 0 then Ret (root', false)
             else if b =? 1 then rebalance_shrunk0 root'
             else Fault AssertFail
           else Ret (Node it b l' r, false)) = Ret (t, g') ∧
    balanced t ∧ height (Node it b l r) = (height t + b2n g')%nat ∧
    elements t = elements l' ++ it :: elements r.
Proof.
  intros (Eb & Hb & Hl & Hr) Hl' Hh. destruct g; simpl in Hh.
  - rewrite s8_small by lia. cbv zeta. repeat case_bool; try (exfalso; lia).
    + eexists; rebalanced.
    + eexists; rebalanced.
    + replace (b + 1) with 2 by lia.
      destruct (rebalance_shrunk0_ok it l' r) as (t & g & -> & Ht & Hht & He); [done|done|lia|].
      exists t, g. simpl. repeat split; try done. lia.
  - eexists _, _. split; [done|]. simpl. repeat split; try done; lia.
Qed.

Lemma remove_up1 it b l r r' g :
  balanced (Node it b l r) -> balanced r' -> height r = (height r' + b2n g)%nat ->
  ∃ t g', (if g then
             let root' := Node it (s8 (b - 1)) l r' in
             if b =? 1 then Ret (root', true)
             else if b =? 0 then Ret (root', false)
             else if b =? -1 then rebalance_shrunk1 root'
             else Fault AssertFail
           else Ret (Node it b l r', false)) = Ret (t, g') ∧
    balanced t ∧ height (Node it b l r) = (height t + b2n g')%nat ∧
    elements t = elements l ++ it :: elements r'.
Proof.
  intros (Eb & Hb & Hl & Hr) Hr' Hh. destruct g; simpl in Hh.
  - rewrite s8_small by lia. cbv zeta. repeat case_bool; try (exfalso; lia).
    + eexists; rebalanced.
    + eexists; rebalanced.
    + replace (b - 1) with (-2) by lia.
      destruct (rebalance_shrunk1_ok it l r') as (t & g & -> & Ht & Hht & He); [done|done|lia|].
      exists t, g. simpl. repeat split; try done. lia.
  - eexists _, _. split; [done|]. simpl. repeat split; try done; lia.
Qed.

(** One step of the descent, to the left and to the right. *)
Lemma remove_left n it b l r a :
  wf c (Node it b l r) -> 0 < c (i_key it) (i_key a) -> a ∈ elements l ->
  removes (avl_remove_wrk n kCmp l a) l a ->
  removes (avl_remove_wrk (S n) kCmp (Node it b l r) a) (Node it b l r) a.
Proof.
  intros [Hb Hs] Ec Ha (l' & g & Hr & Hbl & Hh & He).
  simpl in Hs. apply sorted_mid in Hs as (_ & _ & _ & Hgt).
  destruct (remove_up0 it b l r l' g) as (t & g' & Hup & Hbt & Hht & Het); [done..|].
  exists t, g'. split; [|split; [done|split; [done|]]].
  - cbn [avl_remove_wrk]. rewrite (proj2 (Z.ltb_lt _ _) Ec), Hr.
    destruct l; [by apply not_elem_of_nil in Ha|]. exact Hup.
  - simpl. rewrite del_left by done. by rewrite <- He.
Qed.

Lemma remove_right n it b l r a :
  wf c (Node it b l r) -> c (i_key it) (i_key a) < 0 -> a ∈ elements r ->
  removes (avl_remove_wrk n kCmp r a) r a ->
  removes (avl_remove_wrk (S n) kCmp (Node it b l r) a) (Node it b l r) a.
Proof.
  intros [Hb Hs] Ec Ha (r' & g & Hr & Hbr & Hh & He).
  simpl in Hs. apply sorted_mid in Hs as (_ & _ & Hlt & _).
  destruct (remove_up1 it b l r r' g) as (t & g' & Hup & Hbt & Hht & Het); [done..|].
  exists t, g'. split; [|split; [done|split; [done|]]].
  - cbn [avl_remove_wrk]. rewrite (proj2 (Z.ltb_ge _ _)) by lia.
    rewrite (proj2 (Z.ltb_lt _ _) Ec), Hr.
    destruct r; [by apply not_elem_of_nil in Ha|]. exact Hup.
  - simpl. rewrite del_right by done. by rewrite <- He.
Qed.


(** The root is taken out. It has two children, so the largest node on its
    left (or the smallest on its right) is unlinked first and takes its place;
    since that is done on the higher side, the root is not rotated away
    meanwhile. *)
Lemma removeroot_from_left n it b l r li lb ll lr :
  l = Node li lb ll lr -> r ≠ Nil -> b < 0 -> wf c (Node it b l r) ->
  (∀ a, a ∈ elements l -> removes (avl_remove_wrk n kCmp l a) l a) ->
  removes (avl_removeroot_wrk (avl_remove_wrk (S n) kCmp) (Node it b l r)) (Node it b l r) it.
Proof.
  intros El Hr Hneg [Hb Hs] IH. pose proof Hs as Hs'.
  simpl in Hs. apply sorted_mid in Hs as (Hsl & _ & Hlt & _).
  destruct (rightmost_last lr li) as [e Hlast]. set (a := rightmost li lr) in *.
  assert (Hel : elements l = (elements ll ++ e) ++ [a])
    by (rewrite El; simpl; rewrite Hlast; by rewrite app_assoc).
  assert (Ha : a ∈ elements l) by (rewrite Hel; set_solver).
  destruct (IH a Ha) as (l' & g & Hrem & Hbl & Hh & He).
  rewrite Hel in Hsl, He. rewrite (del_here (i_key a) _ a []) in He by (done || apply kc_refl).
  rewrite app_nil_r in He.
  assert (Hcmp : 0 < c (i_key it) (i_key a)) by (apply kc_gt; by apply Hlt).
  destruct Hb as (Eb & Hb & _ & Hbr).
  assert (Hstep : avl_remove_wrk (S n) kCmp (Node it b l r) a =
    if g then Ret (Node it 0 l' r, true) else Ret (Node it b l' r, false)).
  { cbn [avl_remove_wrk]. rewrite (proj2 (Z.ltb_lt _ _) Hcmp), Hrem. rewrite El. simpl.
    destruct g; [|done]. rewrite s8_small by lia. replace b with (-1) by lia. done. }
  unfold avl_removeroot_wrk. rewrite El. destruct r as [|ri rb rl rr]; [done|]. rewrite <- El.
  rewrite (proj2 (Z.ltb_lt _ _) Hneg). fold a. rewrite Hstep.
  assert (Hels : elements l' ++ a :: elements (Node ri rb rl rr) =
                 alist_del c (i_key it) (elements (Node it b l (Node ri rb rl rr)))).
  { cbn [elements]. rewrite del_here by (done || apply kc_refl). by rewrite He, Hel, <- !app_assoc. }
  cbn [height elements] in *.
  destruct g; simpl in Hh; simpl; [|rewrite (proj2 (Z.eqb_neq _ _)) by lia];
    (eexists _, _; split; [done|]; split; [|split; [|exact Hels]]);
    simpl; try lia; repeat split; try done; try lia; apply Hbr.
Qed.

Lemma removeroot_from_right n it b l r ri rb rl rr :
  r = Node ri rb rl rr -> l ≠ Nil -> 0 <= b -> wf c (Node it b l r) ->
  (∀ a, a ∈ elements r -> removes (avl_remove_wrk n kCmp r a) r a) ->
  removes (avl_removeroot_wrk (avl_remove_wrk (S n) kCmp) (Node it b l r)) (Node it b l r) it.
Proof.
  intros Er Hl Hpos [Hb Hs] IH. pose proof Hs as Hs'.
  simpl in Hs. apply sorted_mid in Hs as (_ & Hsr & _ & Hgt).
  destruct (leftmost_first rl ri) as [e Hfirst]. set (a := leftmost ri rl) in *.
  assert (Her : elements r = [] ++ a :: (e ++ elements rr))
    by (rewrite Er; simpl; rewrite cons_middle, app_assoc, Hfirst; done).
  assert (Ha : a ∈ elements r) by (rewrite Her; set_solver).
  destruct (IH a Ha) as (r' & g & Hrem & Hbr & Hh & He).
  rewrite Her in Hsr, He. rewrite (del_here (i_key a) [] a) in He by (done || apply kc_refl).
  simpl in He.
  assert (Hcmp : c (i_key it) (i_key a) < 0) by (by apply Hgt).
  destruct Hb as (Eb & Hb & Hbl & _).
  assert (Hstep : avl_remove_wrk (S n) kCmp (Node it b l r) a =
    if g then Ret (Node it (b - 1) l r', b =? 1) else Ret (Node it b l r', false)).
  { cbn [avl_remove_wrk]. rewrite (proj2 (Z.ltb_ge _ _)) by lia.
    rewrite (proj2 (Z.ltb_lt _ _) Hcmp), Hrem. rewrite Er. simpl.
    destruct g; [|done]. rewrite s8_small by lia.
    destruct (Z.eqb_spec b 1); [by subst|]. rewrite (proj2 (Z.eqb_eq b 0)) by lia. done. }
  unfold avl_removeroot_wrk. destruct l as [|li lb ll lr]; [done|]. rewrite Er, <- Er.
  rewrite (proj2 (Z.ltb_ge _ _)) by lia. fold a. rewrite Hstep.
  assert (Hels : elements (Node li lb ll lr) ++ a :: elements r' =
                 alist_del c (i_key it) (elements (Node it b (Node li lb ll lr) r))).
  { cbn [elements]. rewrite del_here by (done || apply kc_refl). by rewrite He, Her. }
  cbn [height elements] in *.
  destruct g; simpl in Hh; simpl;
    [destruct (Z.eqb_spec b 1); simpl;
     [rewrite (proj2 (Z.eqb_eq _ _)) by lia|rewrite (proj2 (Z.eqb_neq _ _)) by lia]
    |replace (if b =? 0 then false else false) with false by (by destruct (b =? 0))];
    (eexists _, _; split; [done|]; split; [|split; [|exact Hels]]);
    simpl; try lia; repeat split; try done; try lia; apply Hbl.
Qed.

Lemma removeroot_ok n it b l r :
  wf c (Node it b l r) ->
  (∀ a, a ∈ elements l -> removes (avl_remove_wrk n kCmp l a) l a) ->
  (∀ a, a ∈ elements r -> removes (avl_remove_wrk n kCmp r a) r a) ->
  removes (avl_removeroot_wrk (avl_remove_wrk (S n) kCmp) (Node it b l r)) (Node it b l r) it.
Proof.
  intros Hwf IHl IHr. destruct l as [|li lb ll lr] eqn:El; [|destruct r as [|ri rb rl rr] eqn:Er].
  - destruct Hwf as [(Eb & Hb & _ & Hbr) Hs].
    exists r, true. split; [by destruct r|]. split; [done|]. split; [simpl; lia|].
    cbn [elements] in *. by rewrite (del_here (i_key it) [] it) by (done || apply kc_refl).
  - destruct Hwf as [(Eb & Hb & Hbl & _) Hs].
    eexists _, true. split; [done|]. split; [done|]. split; [simpl in *; lia|].
    cbn [elements] in *. rewrite (del_here (i_key it)) by (done || apply kc_refl).
    by rewrite app_nil_r.
  - destruct (decide (b < 0)).
    + eapply removeroot_from_left; try done.
    + eapply removeroot_from_right; try done. lia.
Qed.

Lemma avl_remove_wrk_ok t : ∀ n a,
  wf c t -> a ∈ elements t -> (remove_fuel t <= n)%nat -> removes (avl_remove_wrk n kCmp t a) t a.
Proof.
  induction t as [|it b l IHl r IHr]; intros n a Hwf Ha Hn; [by apply not_elem_of_nil in Ha|].
  pose proof Hwf as [Hb Hs]. pose proof Hb as (_ & _ & Hbl & Hbr).
  pose proof Hs as Hs'. simpl in Hs'. apply sorted_mid in Hs' as (Hsl & Hsr & Hlt & Hgt).
  unfold remove_fuel in *. simpl in Hn. destruct n as [|n]; [lia|].
  simpl in Ha. apply elem_of_app in Ha as [Ha|[->|Ha]%elem_of_cons].
  - apply remove_left; [done|apply kc_gt; by apply Hlt|done|]. apply IHl; [by split|done|lia].
  - destruct n as [|n]; [lia|].
    replace (avl_remove_wrk (S (S n)) kCmp (Node it b l r) it)
      with (avl_removeroot_wrk (avl_remove_wrk (S n) kCmp) (Node it b l r)).
    + apply removeroot_ok; [done| |]; intros a Ha; [apply IHl|apply IHr]; try done; try lia.
    + cbn [avl_remove_wrk]. rewrite kc_refl. simpl. unfold vg_assert. by rewrite Z.eqb_refl.
  - apply remove_right; [done|by apply Hgt|done|]. apply IHr; [by split|done|lia].
Qed.

End Removal.

(** * Searching *)

Section Searching.
Context (kCmp : option (Z -> Z -> Z)).
Notation c := (do_cmp kCmp).
Context `{KCmpOrder c}.

Lemma sign_bit_spec z : - 2 ^ 63 <= z < 2 ^ 63 -> sign_bit z = if z <? 0 then 1 else 0.
Proof.
  intros Hz. unfold sign_bit, u64, wrap. rewrite Z.shiftr_div_pow2 by lia. case_bool.
  - rewrite <- (Z.mod_add z 1), Z.mod_small by lia.
    symmetry. apply (Z.div_unique _ _ _ (z + 2 ^ 63)); lia.
  - rewrite Z.mod_small by lia. apply Z.div_small. lia.
Qed.

Lemma avl_find_node_ok t k :
  sorted c (elements t) -> avl_find_node kCmp t k = alist_find c k (elements t).
Proof.
  induction t as [|it b l IHl r IHr]; intros Hs; [done|].
  simpl in Hs. pose proof Hs as (Hsl & Hsr & Hlt & Hgt)%sorted_mid. cbn [elements].
  assert (Hstep : avl_find_node kCmp (Node it b l r) k =
    if 0 <? c (i_key it) k then avl_find_node kCmp l k
    else if c (i_key it) k <? 0 then avl_find_node kCmp r k else Some it).
  { destruct kCmp as [f|]; [done|]. cbn [avl_find_node do_cmp].
    rewrite sign_bit_spec by apply kc_range.
    unfold cmp_unsigned_Words.
    by destruct (Z.ltb_spec (i_key it) k), (Z.ltb_spec k (i_key it)); try lia. }
  rewrite Hstep. repeat case_bool.
  - rewrite find_left by done. auto.
  - rewrite find_right by done. auto.
  - rewrite find_here by (done || lia). done.
Qed.

End Searching.

(** ** The neighbours of an absent key *)

Section Bounds.
Context {c : Z -> Z -> Z} `{KCmpOrder c}.

Lemma last_below_app k lo l1 l2 :
  (∀ x, x ∈ l1 -> c (i_key x) k < 0) ->
  last_below c k lo (l1 ++ l2) = last_below c k (last_below c k lo l1) l2.
Proof.
  revert lo. induction l1 as [|x l1 IH]; intros lo Hl; [done|]. simpl.
  case_bool; [apply IH; set_solver|]. pose proof (Hl x ltac:(set_solver)). lia.
Qed.

Lemma last_below_stop k lo l1 it l2 :
  0 < c (i_key it) k -> last_below c k lo (l1 ++ it :: l2) = last_below c k lo l1.
Proof.
  intros Hk. revert lo. induction l1 as [|x l1 IH]; intros lo; simpl.
  - case_bool; [lia|done].
  - case_bool; [apply IH|done].
Qed.

Lemma first_above_app k hi l1 l2 :
  (∀ x, x ∈ l1 -> c (i_key x) k <= 0) -> first_above c k hi (l1 ++ l2) = first_above c k hi l2.
Proof.
  induction l1 as [|x l1 IH]; intros Hl; [done|]. simpl.
  case_bool; [|apply IH; set_solver]. pose proof (Hl x ltac:(set_solver)). lia.
Qed.

Lemma first_above_pivot k hi l1 it l2 :
  0 < c (i_key it) k ->
  first_above c k hi (l1 ++ it :: l2) = first_above c k (i_key it, i_val it) l1.
Proof.
  intros Hk. induction l1 as [|x l1 IH]; simpl; [by case_bool; [|lia]|].
  case_bool; [done|apply IH].
Qed.

End Bounds.

Section FindBounds.
Context (kCmp : option (Z -> Z -> Z)).
Notation c := (do_cmp kCmp).
Context `{KCmpOrder c}.

Lemma avl_find_bounds_ok t k : ∀ lo hi, sorted c (elements t) ->
  avl_find_bounds kCmp t lo hi k =
  match alist_find c k (elements t) with
  | Some _ => None
  | None => Some (last_below c k lo (elements t), first_above c k hi (elements t))
  end.
Proof.
  induction t as [|it b l IHl r IHr]; intros lo hi Hs; [done|].
  simpl in Hs. apply sorted_mid in Hs as (Hsl & Hsr & Hlt & Hgt).
  cbn [avl_find_bounds elements]. repeat case_bool.
  - assert (Hl : ∀ x, x ∈ elements l -> c (i_key x) k < 0)
      by (intros x; apply (below_pivot _ it); [done|lia]).
    rewrite find_right, IHr, last_below_app, first_above_app by (done || intros; apply Z.lt_le_incl; auto).
    simpl. rewrite (proj2 (Z.ltb_lt _ _)) by done. by rewrite (proj2 (Z.ltb_ge _ _)) by lia.
  - rewrite find_left, IHl, last_below_stop, first_above_pivot by done. done.
  - rewrite find_here by (done || lia). done.
Qed.

End FindBounds.

(** ** Iterating *)

Lemma remaining_cons e stk : remaining (e :: stk) = pending e ++ remaining stk.
Proof. done. Qed.

Lemma stackPush_ok stk n i :
  (length stk < WFM_STKMAX)%nat -> 1 <= i <= 3 -> stackPush stk n i = Ret ((n, i) :: stk).
Proof.
  intros Hl Hi. unfold stackPush, vg_assert. rewrite (proj2 (Nat.ltb_lt _ _)) by done. simpl.
  case_bool; [done|lia].
Qed.

Lemma push_left_ok n : ∀ stk,
  stack_ok stk -> (length stk + height n <= WFM_STKMAX)%nat ->
  ∃ stk', push_left n stk = Ret stk' ∧ stack_ok stk' ∧
    remaining stk' = elements n ++ remaining stk ∧
    (n ≠ Nil -> ∃ m rest, stk' = (m, 2) :: rest).
Proof.
  induction n as [|it b l IHl r _]; intros stk Hok Hh; [by exists stk|].
  cbn [push_left height] in *. rewrite stackPush_ok by lia. cbn [mbind outcome_bind].
  destruct (IHl ((Node it b l r, 2) :: stk)) as (stk' & Hp & Hok' & Hr & Htop).
  - split; [done|]. split; [lia|]. split; [simpl; lia|done].
  - simpl. lia.
  - exists stk'. split; [done|]. split; [done|]. split.
    + rewrite Hr, remaining_cons. simpl. by rewrite <- app_assoc.
    + intros _. destruct l; [|by apply Htop]. simpl in Hp. injection Hp as <-. eauto.
Qed.

(** The next entry is the first pending one. *)
Definition next_result (stk : list (avl * Z)) (res : outcome (list (avl * Z) * option (Z * Z))) : Prop :=
  ∃ stk', res = Ret (stk', (fun it => (i_key it, i_val it)) <$> head (remaining stk)) ∧
    stack_ok stk' ∧ remaining stk' = tail (remaining stk).

Lemma stackPop_ok n i stk :
  stack_ok ((n, i) :: stk) -> stackPop ((n, i) :: stk) = Ret (Some (n, i, stk)).
Proof.
  intros (Hn & Hi & Hh & Hok). unfold stackPop, vg_assert.
  destruct n as [|it b l r]; [done|]. cbn [height length] in *.
  rewrite (proj2 (Nat.leb_le _ _)) by lia. simpl. case_bool; [done|lia].
Qed.

Lemma next_loop_two fuel n stk :
  stack_ok ((n, 2) :: stk) -> next_result ((n, 2) :: stk) (next_loop (S fuel) ((n, 2) :: stk)).
Proof.
  intros Hst. pose proof Hst as (Hn & Hi & Hh & Hok). cbn [next_loop]. rewrite stackPop_ok by done.
  destruct n as [|it b l r]; [done|]. cbn [height] in Hh. simpl. rewrite stackPush_ok by lia.
  eexists. split; [done|]. split; [|done].
  split; [done|]. split; [lia|]. split; [simpl; lia|done].
Qed.

Lemma next_loop_one fuel it b l r stk :
  stack_ok ((Node it b l r, 1) :: stk) ->
  next_loop (S fuel) ((Node it b l r, 1) :: stk) =
  stk2 ← push_left (Node it b l r) stk; next_loop fuel stk2.
Proof. intros Hok. cbn [next_loop]. by rewrite stackPop_ok. Qed.

Lemma next_loop_three fuel it b l r stk :
  stack_ok ((Node it b l r, 3) :: stk) ->
  next_loop (S fuel) ((Node it b l r, 3) :: stk) = stk2 ← push_left r stk; next_loop fuel stk2.
Proof. intros Hok. cbn [next_loop]. by rewrite stackPop_ok. Qed.

(** Enter a non-empty subtree: its leftmost item is next. *)
Lemma next_loop_enter fuel n stk :
  n ≠ Nil -> stack_ok stk -> (length stk + height n <= WFM_STKMAX)%nat ->
  ∃ stk', (stk2 ← push_left n stk; next_loop (S fuel) stk2) =
      Ret (stk', (fun it => (i_key it, i_val it)) <$> head (elements n ++ remaining stk)) ∧
    stack_ok stk' ∧ remaining stk' = tail (elements n ++ remaining stk).
Proof.
  intros Hn Hok Hh. destruct (push_left_ok n stk) as (stk2 & -> & Hok2 & Hr & Htop); [done|lia|].
  destruct (Htop Hn) as (m & rest & ->). cbn [mbind outcome_bind]. rewrite <- Hr.
  by apply next_loop_two.
Qed.

Lemma next_loop_ok stk : ∀ fuel,
  stack_ok stk -> (length stk + 2 <= fuel)%nat -> next_result stk (next_loop fuel stk).
Proof.
  induction stk as [|[n i] stk IH]; intros fuel Hok Hf.
  { destruct fuel; [simpl in Hf; lia|]. by exists []. }
  pose proof Hok as (Hn & Hi & Hh & Hok'). simpl in Hf.
  destruct fuel as [|[|fuel]]; [lia|lia|]. unfold next_result. rewrite remaining_cons.
  assert (i = 1 ∨ i = 2 ∨ i = 3) as [->|[->| ->]] by lia.
  - destruct n as [|it b l r]; [done|]. rewrite next_loop_one by done. by apply next_loop_enter.
  - by apply next_loop_two.
  - destruct n as [|it b l r]; [done|]. rewrite next_loop_three by done. cbn [height] in Hh.
    destruct (decide (r = Nil)) as [->|Hr]; [|apply next_loop_enter; [done|done|lia]].
    apply IH; [done|lia].
Qed.

Lemma drain_ok n : ∀ fm,
  stack_ok (fm_stack fm) -> (length (remaining (fm_stack fm)) < n)%nat ->
  drain n fm = Ret ((fun it => (i_key it, i_val it)) <$> remaining (fm_stack fm)).
Proof.
  induction n as [|n IH]; intros fm Hok Hn; [lia|]. cbn [drain]. unfold nextIterFM.
  destruct (next_loop_ok (fm_stack fm) (next_fuel (fm_stack fm)) Hok) as (stk' & -> & Hok' & Hr);
    [unfold next_fuel; lia|].
  cbn [mbind outcome_bind snd fst]. destruct (remaining (fm_stack fm)) as [|it rest]; [done|].
  simpl in *. rewrite IH; simpl; rewrite ?Hr; [done|done|lia].
Qed.

(** ** The height of a balanced tree *)

Lemma min_nodes_mono h : 0 <= (min_nodes h).1 <= (min_nodes h).2.
Proof. induction h; simpl; lia. Qed.

Lemma min_nodes_le h h' : (h <= h')%nat -> (min_nodes h).1 <= (min_nodes h').1.
Proof.
  induction 1 as [|h' _ IH]; [done|]. simpl. pose proof (min_nodes_mono h'). lia.
Qed.

Lemma balanced_min_nodes t :
  balanced t -> (min_nodes (height t)).1 <= Z.of_nat (length (elements t)).
Proof.
  induction t as [|it b l IHl r IHr]; [done|]. intros (-> & Hb & Hl & Hr).
  specialize (IHl Hl). specialize (IHr Hr). simpl. rewrite length_app. simpl.
  assert (∀ h1 h2, (h2 <= h1 <= S h2)%nat -> (min_nodes h1).2 <= 1 + (min_nodes h1).1 + (min_nodes h2).1) as Hmin.
  { intros h1 h2 Hh. destruct h1 as [|h1]; [simpl; assert (h2 = 0%nat) as -> by lia; simpl; lia|].
    assert (h1 <= h2)%nat as Hle by lia. pose proof (min_nodes_le _ _ Hle). simpl. lia. }
  destruct (Nat.max_spec (height l) (height r)) as [[Hlt ->]|[Hle ->]].
  - pose proof (Hmin (height r) (height l)). lia.
  - pose proof (Hmin (height l) (height r)). lia.
Qed.

(** 32 stack entries are enough below 9,227,464 entries. *)
Definition ITER_LIMIT : Z := 9227464.

Lemma min_nodes_33 : (min_nodes 33).1 = ITER_LIMIT.
Proof. vm_compute. reflexivity. Qed.

Lemma small_height t :
  balanced t -> Z.of_nat (length (elements t)) < ITER_LIMIT -> (height t <= WFM_STKMAX)%nat.
Proof.
  intros Hb Hn. destruct (decide (height t <= WFM_STKMAX)%nat) as [|Hh]; [done|].
  pose proof (balanced_min_nodes t Hb).
  assert ((min_nodes 33).1 <= (min_nodes (height t)).1) by (apply min_nodes_le; unfold WFM_STKMAX in Hh; lia).
  rewrite min_nodes_33 in *. lia.
Qed.

(** ** Starting in the middle *)

Section IterAt.
Context (kCmp : option (Z -> Z -> Z)).
Notation c := (do_cmp kCmp).
Context `{KCmpOrder c}.

(** The items from [k] on. *)
Definition from_key (k : Z) (l : list item) : list item := filter (fun it => 0 <= c (i_key it) k) l.

Lemma from_key_all k l : (∀ x, x ∈ l -> 0 <= c (i_key x) k) -> from_key k l = l.
Proof.
  induction l as [|x l IH]; intros Hl; [done|]. unfold from_key in *.
  rewrite filter_cons_True by (apply Hl; set_solver). f_equal. apply IH. set_solver.
Qed.

Lemma from_key_none k l : (∀ x, x ∈ l -> c (i_key x) k < 0) -> from_key k l = [].
Proof.
  induction l as [|x l IH]; intros Hl; [done|]. unfold from_key in *.
  rewrite filter_cons_False by (pose proof (Hl x ltac:(set_solver)); lia). apply IH. set_solver.
Qed.

Lemma from_key_pivot k l it r :
  sorted c (elements l ++ it :: elements r) ->
  from_key k (elements l ++ it :: elements r) =
  if c (i_key it) k <? 0 then from_key k (elements r)
  else (if c (i_key it) k =? 0 then [] else from_key k (elements l)) ++ it :: elements r.
Proof.
  intros (Hsl & Hsr & Hlt & Hgt)%sorted_mid. unfold from_key. rewrite filter_app.
  change (filter _ (elements l)) with (from_key k (elements l)). repeat case_bool.
  - rewrite from_key_none by (intros x; apply (below_pivot _ it); [done|lia]).
    by rewrite filter_cons_False by lia.
  - rewrite from_key_none by (intros x; apply (below_pivot _ it); [done|lia]).
    rewrite filter_cons_True by lia. simpl. f_equal. apply from_key_all.
    intros x Hx. pose proof (above_pivot _ it k x Hgt ltac:(lia) Hx). lia.
  - rewrite filter_cons_True by lia. do 2 f_equal. apply from_key_all.
    intros x Hx. pose proof (above_pivot _ it k x Hgt ltac:(lia) Hx). lia.
Qed.

Lemma iter_at_ok t k : ∀ stk,
  sorted c (elements t) -> stack_ok stk -> (length stk + height t <= WFM_STKMAX)%nat ->
  ∃ stk', iter_at kCmp t k stk = Ret stk' ∧ stack_ok stk' ∧
    remaining stk' = from_key k (elements t) ++ remaining stk.
Proof.
  induction t as [|it b l IHl r IHr]; intros stk Hs Hok Hh; [by exists stk|].
  pose proof Hs as Hs'. simpl in Hs. apply sorted_mid in Hs as (Hsl & Hsr & _ & _).
  cbn [iter_at height elements] in *. rewrite from_key_pivot by done.
  assert (Hpush : stackPush stk (Node it b l r) 2 = Ret ((Node it b l r, 2) :: stk))
    by (apply stackPush_ok; lia).
  assert (Hok' : stack_ok ((Node it b l r, 2) :: stk))
    by (split; [done|]; split; [lia|]; split; [simpl; lia|done]).
  rewrite sign_bit_spec by apply kc_range.
  destruct (Z.eqb_spec (c (i_key it) k) 0) as [E0|E0].
  - rewrite (proj2 (Z.ltb_ge _ _)) by lia. rewrite Hpush. eexists. split; [done|]. by split.
  - destruct (Z.ltb_spec (c (i_key it) k) 0) as [E1|E1]; simpl.
    + apply IHr; [done|done|lia].
    + rewrite Hpush. cbn [mbind outcome_bind].
      destruct (IHl ((Node it b l r, 2) :: stk)) as (stk' & Hi & Hoks & Hr); [done|done|simpl; lia|].
      exists stk'. split; [done|]. split; [done|]. rewrite Hr, remaining_cons. by rewrite <- app_assoc.
Qed.

End IterAt.

Lemma size_avl_elements t : size_avl_nonNull t = u64 (Z.of_nat (length (elements t))).
Proof.
  induction t as [|it b l IHl r IHr]; [done|]. simpl size_avl_nonNull. rewrite IHl, IHr.
  simpl. rewrite length_app. simpl. unfold u64, wrap.
  rewrite Zplus_mod_idemp_r. rewrite <- Z.add_assoc, (Z.add_comm (_ mod _)), Z.add_assoc.
  rewrite Zplus_mod_idemp_r. f_equal. lia.
Qed.

(** * The map operations *)

Section Maps.
Context {c : Z -> Z -> Z} `{KCmpOrder c}.

Lemma alist_find_add a l k' :
  sorted c l ->
  alist_find c k' (alist_add c a l) =
  if c (i_key a) k' =? 0 then
    match alist_find c (i_key a) l with
    | Some it => Some (Item (i_addr it) (i_key it) (i_val a))
    | None => Some a
    end
  else alist_find c k' l.
Proof.
  induction l as [|x l IH]; intros Hs; [done|].
  apply sorted_cons in Hs as [Hs Hall]. simpl.
  destruct (Z.ltb_spec 0 (c (i_key x) (i_key a))) as [E1|E1].
  - rewrite alist_find_None with (l := l).
    + rewrite (proj2 (Z.eqb_neq (c (i_key x) (i_key a)) _)) by lia. done.
    + intros y Hy. pose proof (above_pivot l x (i_key a) y Hall ltac:(lia) Hy). lia.
  - destruct (Z.ltb_spec (c (i_key x) (i_key a)) 0) as [E2|E2]; simpl.
    + rewrite (proj2 (Z.eqb_neq (c (i_key x) (i_key a)) _)) by lia.
      rewrite IH by done. destruct (Z.eqb_spec (c (i_key a) k') 0) as [Ek|Ek]; [|done].
      assert (c (i_key x) k' < 0) by (eapply kc_eq_lt_r; [apply Ek|done]).
      by rewrite (proj2 (Z.eqb_neq _ _)) by lia.
    + assert (Ex : c (i_key x) (i_key a) = 0) by lia. rewrite (proj2 (Z.eqb_eq _ _) Ex).
      pose proof (kc_eq _ _ k' Ex). destruct (Z.eqb_spec (c (i_key x) k') 0) as [Ek|Ek].
      * rewrite (proj2 (Z.eqb_eq _ _)); [done|]. rewrite Ek in *. simpl in *. lia.
      * rewrite (proj2 (Z.eqb_neq _ _)); [done|]. lia.
Qed.

Lemma alist_find_del k l k' :
  alist_find c k' (alist_del c k l) = if c k k' =? 0 then None else alist_find c k' l.
Proof.
  induction l as [|x l IH]; [by case_bool|].
  destruct (Z.eqb_spec (c k k') 0) as [Ek|Ek].
  - destruct (decide (c (i_key x) k = 0)) as [E|E].
    + by rewrite alist_del_cons_eq.
    + rewrite alist_del_cons_ne by done. simpl. rewrite IH. case_bool; [|done].
      apply kc_zero_sym in Ek. destruct E. pose proof (kc_eq _ _ (i_key x) Ek).
      apply kc_zero_sym in E0. rewrite E0 in *. simpl in *. apply kc_zero_sym. lia.
  - destruct (decide (c (i_key x) k = 0)) as [E|E].
    + rewrite alist_del_cons_eq by done. simpl. rewrite IH. pose proof (kc_eq _ _ k' E).
      case_bool; [|done]. rewrite E0 in *. simpl in *. lia.
    + rewrite alist_del_cons_ne by done. simpl. by rewrite IH.
Qed.

End Maps.

Lemma lookupFM_find fm k :
  fm_ok fm ->
  lookupFM fm k = (fun it => (i_key it, i_val it)) <$> alist_find (fm_cmp fm) k (elements (fm_root fm)).
Proof.
  intros [Ho [_ Hs]]. unfold lookupFM. unfold fm_cmp in *. rewrite avl_find_node_ok by done.
  by destruct (alist_find _ _ _).
Qed.

Lemma addToFM_ok fm node k v :
  fm_ok fm ->
  ∃ fm' b, addToFM fm node k v = Ret (fm', b, if b : bool then [node] else []) ∧
    fm_ok fm' ∧ fm_cmp fm' = fm_cmp fm ∧
    elements (fm_root fm') = alist_add (fm_cmp fm) (Item node k v) (elements (fm_root fm)) ∧
    b = bool_decide (is_Some (lookupFM fm k)) ∧
    (∀ k', lookupFM fm' k' =
       if fm_cmp fm k k' =? 0 then Some (from_option fst k (lookupFM fm k), v) else lookupFM fm k').
Proof.
  intros Hok. pose proof Hok as [Ho Hwf].
  destruct (avl_insert_wrk_ok (fm_kCmp fm) (fm_root fm) (MaybeW 0 false) (Item node k v) Hwf)
    as (t' & g & Hi & Hb & _ & He & _).
  assert (Hok' : fm_ok (FM t' (fm_kCmp fm) (fm_stack fm))).
  { split; [done|]. split; [done|]. simpl. rewrite He. apply alist_add_sorted, Hwf. }
  unfold addToFM. rewrite Hi. eexists _, _. split; [done|]. split; [done|]. split; [done|].
  split; [done|]. rewrite !lookupFM_find by done. unfold fm_cmp in *. simpl in *. split.
  - by destruct (alist_find _ _ _).
  - intros k'. rewrite !lookupFM_find by done. unfold fm_cmp. simpl. rewrite He.
    rewrite alist_find_add by apply Hwf. simpl. case_bool; [|done]. by destruct (alist_find _ k _).
Qed.

Lemma delFromFM_ok fm key :
  fm_ok fm ->
  ∃ fm', delFromFM fm key = Ret (fm', alist_find (fm_cmp fm) key (elements (fm_root fm))) ∧
    fm_ok fm' ∧ fm_cmp fm' = fm_cmp fm ∧
    elements (fm_root fm') = alist_del (fm_cmp fm) key (elements (fm_root fm)) ∧
    (∀ k', lookupFM fm' k' = if fm_cmp fm key k' =? 0 then None else lookupFM fm k').
Proof.
  intros Hok. pose proof Hok as [Ho Hwf]. pose proof Hwf as [Hb Hs].
  unfold delFromFM. unfold fm_cmp in *. rewrite avl_find_node_ok by done.
  assert (Hdone : ∀ fm', fm_ok fm' -> fm_kCmp fm' = fm_kCmp fm ->
    elements (fm_root fm') = alist_del (do_cmp (fm_kCmp fm)) key (elements (fm_root fm)) ->
    ∀ k', lookupFM fm' k' = if do_cmp (fm_kCmp fm) key k' =? 0 then None else lookupFM fm k').
  { intros fm' Hok' Hk He k'. rewrite !lookupFM_find by done. unfold fm_cmp.
    rewrite Hk, He, alist_find_del. by case_bool. }
  destruct (alist_find _ key _) as [it|] eqn:Ef.
  - apply alist_find_Some in Ef as [Hin Heq].
    destruct (avl_remove_wrk_ok (fm_kCmp fm) (fm_root fm) (remove_fuel (fm_root fm)) it)
      as (t' & g & -> & Hb' & _ & He); [done|done|lia|].
    assert (Hdel : alist_del (do_cmp (fm_kCmp fm)) (i_key it) (elements (fm_root fm)) =
                   alist_del (do_cmp (fm_kCmp fm)) key (elements (fm_root fm))).
    { apply list_filter_iff. intros x. apply kc_zero_sym in Heq.
      pose proof (kc_eq _ _ (i_key x) Heq). rewrite !(kc_zero_sym (i_key x)). split; intros ?; lia. }
    rewrite Hdel in He.
    assert (Hok' : fm_ok (FM t' (fm_kCmp fm) (fm_stack fm))).
    { split; [done|]. split; [done|]. simpl. rewrite He. by apply alist_del_sorted. }
    eexists. split; [done|]. split; [done|]. split; [done|]. split; [done|]. by apply Hdone.
  - assert (Hid : alist_del (do_cmp (fm_kCmp fm)) key (elements (fm_root fm)) = elements (fm_root fm)).
    { apply alist_del_id. intros x Hx E. revert Ef.
      apply list_elem_of_split in Hx as (l1 & l2 & Hx). rewrite Hx, alist_find_app. simpl.
      rewrite (proj2 (Z.eqb_eq _ _) E). by destruct (alist_find _ _ l1). }
    exists fm. split; [done|]. split; [done|]. split; [done|]. split; [done|]. by apply Hdone.
Qed.

(** C7: [addToFM] keeps the tree balanced, sorted and with correct balance
    fields, for every comparison function that is an order; its entries are
    those of a sorted-list insertion. Afterwards a lookup of any key equal to
    [k] finds [v] (under the key that was there, if one was), any other lookup
    is unchanged; the result says whether [k] was present, and exactly then the
    node it allocated is given back. *)
Theorem addToFM_refines fm node k v :
  fm_ok fm ->
  ∃ fm' b, addToFM fm node k v = Ret (fm', b, if b : bool then [node] else []) ∧
    fm_ok fm' ∧ fm_cmp fm' = fm_cmp fm ∧
    elements (fm_root fm') = alist_add (fm_cmp fm) (Item node k v) (elements (fm_root fm)) ∧
    b = bool_decide (is_Some (lookupFM fm k)) ∧
    (∀ k', lookupFM fm' k' =
       if fm_cmp fm k k' =? 0 then Some (from_option fst k (lookupFM fm k), v) else lookupFM fm k').
Proof. apply addToFM_ok. Qed.

(** C6: [delFromFM] never fails an assertion or dereferences NULL, and the fuel
    given to the removal is enough; it returns the node whose key equals [key],
    if there is one, keeps the tree balanced and sorted, and removes exactly
    that entry. *)
Theorem delFromFM_refines fm key :
  fm_ok fm ->
  ∃ fm', delFromFM fm key = Ret (fm', alist_find (fm_cmp fm) key (elements (fm_root fm))) ∧
    fm_ok fm' ∧ fm_cmp fm' = fm_cmp fm ∧
    elements (fm_root fm') = alist_del (fm_cmp fm) key (elements (fm_root fm)) ∧
    (∀ k', lookupFM fm' k' = if fm_cmp fm key k' =? 0 then None else lookupFM fm k').
Proof. apply delFromFM_ok. Qed.

(** [findBoundsFM] fails exactly for a key that is present, and otherwise
    returns the entry just below and the entry just above the key, or the
    given extremes where there is none. *)
Theorem findBoundsFM_neighbours fm lo hi key :
  fm_ok fm ->
  (findBoundsFM fm lo hi key = None <-> is_Some (lookupFM fm key)) ∧
  (lookupFM fm key = None ->
   findBoundsFM fm lo hi key =
     Some (last_below (fm_cmp fm) key lo (elements (fm_root fm)),
           first_above (fm_cmp fm) key hi (elements (fm_root fm)))).
Proof.
  intros Hok. rewrite lookupFM_find by done. destruct Hok as [Ho [_ Hs]].
  unfold findBoundsFM, fm_cmp in *. rewrite avl_find_bounds_ok by done.
  destruct (alist_find _ _ _); simpl; (split; [split|]); try done; by intros [? [=]].
Qed.

Lemma contents_length fm : length (contents fm) = length (elements (fm_root fm)).
Proof. apply length_fmap. Qed.

(** C8: with fewer than 9,227,464 entries the iterator's 32 stack entries are
    enough: no assertion fails, and calling [nextIterFM] until it returns False
    gives every entry once, in the order of the keys. [sizeFM] calls give an
    entry each, and the next one returns False. *)
Theorem iteration_in_order fm :
  fm_ok fm -> Z.of_nat (length (contents fm)) < ITER_LIMIT ->
  sizeFM fm = Z.of_nat (length (contents fm)) ∧
  ∃ fm', initIterFM fm = Ret fm' ∧ drain (S (Z.to_nat (sizeFM fm))) fm' = Ret (contents fm).
Proof.
  intros [Ho [Hb Hs]] Hn. rewrite contents_length in *.
  pose proof (small_height _ Hb Hn) as Hh. unfold ITER_LIMIT in Hn.
  assert (Hsz : sizeFM fm = Z.of_nat (length (elements (fm_root fm)))).
  { unfold sizeFM. rewrite size_avl_elements. apply wrap_small. lia. }
  split; [done|]. rewrite Hsz, Nat2Z.id. unfold initIterFM, contents.
  destruct (fm_root fm) as [|it b l r] eqn:Et.
  { eexists. split; [done|]. done. }
  rewrite stackPush_ok by (unfold WFM_STKMAX; simpl; lia). eexists. split; [done|].
  assert (Hrem : remaining [(Node it b l r, 1)] = elements (Node it b l r)) by apply app_nil_r.
  rewrite drain_ok; cbn [fm_stack]; rewrite ?Hrem; [done| |lia].
  split; [done|]. split; [lia|]. split; [simpl in *; lia|done].
Qed.

Lemma filter_contents kCmp k l :
  (fun it => (i_key it, i_val it)) <$> from_key kCmp k l =
  filter (fun kv => 0 <= do_cmp kCmp kv.1 k) ((fun it => (i_key it, i_val it)) <$> l).
Proof.
  induction l as [|x l IH]; [done|]. unfold from_key in *. rewrite fmap_cons.
  destruct (decide (0 <= do_cmp kCmp (i_key x) k)).
  - rewrite !filter_cons_True by done. by rewrite fmap_cons, IH.
  - rewrite !filter_cons_False by done. done.
Qed.

(** After [initIterAtFM] the iteration gives exactly the entries whose key
    is at least [start_at], in order, with the same bound on the size. *)
Theorem iteration_from_key fm start_at :
  fm_ok fm -> Z.of_nat (length (contents fm)) < ITER_LIMIT ->
  ∃ fm', initIterAtFM fm start_at = Ret fm' ∧
    drain (S (length (contents fm))) fm' =
    Ret (filter (fun kv => 0 <= fm_cmp fm kv.1 start_at) (contents fm)).
Proof.
  intros [Ho [Hb Hs]] Hn. rewrite contents_length in *.
  pose proof (small_height _ Hb Hn) as Hh. unfold initIterAtFM, fm_cmp, contents in *.
  destruct (iter_at_ok (fm_kCmp fm) (fm_root fm) start_at []) as (stk & -> & Hok & Hr); [done|done|simpl; lia|].
  eexists. split; [done|]. unfold remaining in Hr at 2. simpl in Hr. rewrite app_nil_r in Hr.
  rewrite drain_ok; cbn [fm_stack]; rewrite ?Hr; [|done|].
  - f_equal. apply filter_contents.
  - pose proof (length_filter (fun it => 0 <= do_cmp (fm_kCmp fm) (i_key it) start_at) (elements (fm_root fm))).
    unfold from_key. lia.
Qed.

(** ** The bound is sharp *)

(** The sparsest balanced tree of height [h] with keys from [off] on. *)
Fixpoint fib_pair (h : nat) : (Z -> avl) * (Z -> avl) :=
  match h with
  | O => (fun _ => Nil, fun off => Node (Item off off 0) 0 Nil Nil)
  | S h' =>
      ((fib_pair h').2,
       fun off =>
         let m := (min_nodes h).1 in
         Node (Item (off + m) (off + m) 0) (-1) ((fib_pair h').2 off) ((fib_pair h').1 (off + m + 1)))
  end.

Definition fib_tree (h : nat) : Z -> avl := (fib_pair h).1.

Definition key_item (k : Z) : item := Item k k 0.

Lemma fib_pair_spec h : ∀ off,
  (balanced ((fib_pair h).1 off) ∧ height ((fib_pair h).1 off) = h ∧
   elements ((fib_pair h).1 off) = key_item <$> seqZ off (min_nodes h).1) ∧
  (balanced ((fib_pair h).2 off) ∧ height ((fib_pair h).2 off) = S h ∧
   elements ((fib_pair h).2 off) = key_item <$> seqZ off (min_nodes h).2).
Proof.
  induction h as [|h IH]; intros off.
  { simpl. repeat split; try done; lia. }
  destruct (IH off) as [_ (Hb2 & Hh2 & He2)].
  destruct (IH (off + (min_nodes h).2 + 1)) as [(Hb1 & Hh1 & He1) _].
  split; [by split|]. cbn [fib_pair fst snd min_nodes] in *. cbv zeta.
  cbn [balanced height elements]. pose proof (min_nodes_mono h).
  rewrite Hh1, Hh2, He1, He2. split; [repeat split; try done; lia|]. split; [lia|].
  replace (1 + (min_nodes h).1 + (min_nodes h).2)
    with ((min_nodes h).2 + Z.succ (min_nodes h).1) by lia.
  rewrite seqZ_app, fmap_app by lia. f_equal. rewrite (seqZ_cons _ (Z.succ _)) by lia.
  rewrite Z.pred_succ. replace (Z.succ (off + (min_nodes h).2)) with (off + (min_nodes h).2 + 1) by lia.
  done.
Qed.

Lemma seqZ_sorted off n : sorted cmp_unsigned_Words (key_item <$> seqZ off n).
Proof.
  destruct (decide (0 <= n)) as [Hn|Hn]; [|rewrite seqZ_nil by lia; constructor].
  revert off. pattern n; apply natlike_ind; [intros off; constructor| |done]. clear n Hn. intros n Hn IH off.
  rewrite seqZ_cons by lia. rewrite Z.pred_succ. apply sorted_cons. split; [apply IH|].
  intros y (k & -> & Hk%elem_of_seqZ)%list_elem_of_fmap. unfold item_lt, cmp_unsigned_Words. simpl.
  case_bool; lia.
Qed.

(** The left spine of a tree all of whose nodes lean to the left. *)
Fixpoint spine (t : avl) : nat := match t with Nil => 0 | Node _ _ l _ => S (spine l) end.

Lemma fib_pair_spine h : ∀ off, spine ((fib_pair h).1 off) = h ∧ spine ((fib_pair h).2 off) = S h.
Proof.
  induction h as [|h IH]; intros off; [done|]. simpl. destruct (IH off) as [_ ->]. by split.
Qed.

Lemma push_left_overflow n : ∀ stk,
  (length stk <= WFM_STKMAX)%nat -> (WFM_STKMAX < length stk + spine n)%nat ->
  push_left n stk = Fault AssertFail.
Proof.
  induction n as [|it b l IHl r _]; intros stk Hl Hs; cbn [spine] in *; [lia|]. cbn [push_left].
  destruct (decide (length stk < WFM_STKMAX)%nat).
  - rewrite stackPush_ok by lia. cbn [mbind outcome_bind]. apply IHl; simpl; lia.
  - unfold stackPush, vg_assert. by rewrite (proj2 (Nat.ltb_ge _ _)) by lia.
Qed.

Lemma fib_tree_overflows h :
  (WFM_STKMAX < h)%nat ->
  ∃ fm fm', fm_ok fm ∧ fm_kCmp fm = None ∧ Z.of_nat (length (contents fm)) = (min_nodes h).1 ∧
    initIterFM fm = Ret fm' ∧ nextIterFM fm' = Fault AssertFail.
Proof.
  intros Hbig. destruct (fib_pair_spec h 0) as [(Hb & Hh & He) _].
  destruct (fib_pair_spine h 0) as [Hs _]. pose proof (min_nodes_mono h) as [Hm _].
  remember ((fib_pair h).1 0) as t eqn:Et. clear Et.
  exists (FM t None []), (FM t None [(t, 1)]). split.
  { split; [apply cmp_unsigned_Words_order|]. split; [exact Hb|]. cbn [fm_root]. rewrite He.
    apply seqZ_sorted. }
  split; [done|]. split.
  { rewrite contents_length. cbn [fm_root]. rewrite He, length_fmap, length_seqZ. lia. }
  destruct t as [|it b l r]; [simpl in Hs; lia|]. split; [done|].
  unfold nextIterFM, next_fuel. cbn [fm_stack length Nat.add next_loop]. cbn -[push_left next_loop].
  rewrite push_left_overflow; [done|simpl; lia|]. cbn [length]. lia.
Qed.

(** The bound is sharp: there is a map with 9,227,464 entries, far fewer
    than the 2**32 the comment on [WFM_STKMAX] promises, for which the first
    call of [nextIterFM] fails the assertion of [stackPush]. *)
Theorem iterator_stack_overflow :
  ∃ fm fm', fm_ok fm ∧ fm_kCmp fm = None ∧ Z.of_nat (length (contents fm)) = ITER_LIMIT ∧
    initIterFM fm = Ret fm' ∧ nextIterFM fm' = Fault AssertFail.
Proof. rewrite <- min_nodes_33. apply fib_tree_overflows. unfold WFM_STKMAX. lia. Qed.

(** * Bags *)

Definition count (bag : WordFM) (w : Z) : Z := from_option snd 0 (lookupFM bag w).

Definition bag_ok (bag : WordFM) : Prop :=
  fm_kCmp bag = None ∧ fm_ok bag ∧ Forall (fun it => 1 <= i_val it <= UWORD_MAX) (elements (fm_root bag)).

Lemma unsigned_eq x y : cmp_unsigned_Words x y = 0 <-> x = y.
Proof.
  unfold cmp_unsigned_Words. destruct (Z.ltb_spec x y), (Z.ltb_spec y x); lia.
Qed.

(** What a bag finds for a word. *)
Lemma bag_lookup bag w :
  bag_ok bag ->
  (lookupFM bag w = None ∧ count bag w = 0) ∨
  (lookupFM bag w = Some (w, count bag w) ∧ 1 <= count bag w <= UWORD_MAX).
Proof.
  intros (Hk & Hok & Hv). unfold count. rewrite lookupFM_find by done.
  unfold fm_cmp. rewrite Hk. simpl. destruct (alist_find _ _ _) as [it|] eqn:E; simpl; [right|left; done].
  apply alist_find_Some in E as [Hin E]. apply (unsigned_eq (i_key it) w) in E. subst. split; [done|].
  by apply (proj1 (Forall_forall _ _) Hv).
Qed.

Lemma alist_add_vals c a l (P : Z -> Prop) :
  P (i_val a) -> Forall (fun it => P (i_val it)) l -> Forall (fun it => P (i_val it)) (alist_add c a l).
Proof.
  intros Ha. induction 1 as [|x l Hx Hl IH]; simpl; [by repeat constructor|].
  repeat case_bool; by repeat constructor.
Qed.

(** Setting a positive count. *)
Lemma bag_set bag node w n :
  bag_ok bag -> 1 <= n <= UWORD_MAX ->
  ∃ bag' b, addToFM bag node w n = Ret (bag', b, if b : bool then [node] else []) ∧ bag_ok bag' ∧
    ∀ w', count bag' w' = if decide (w' = w) then n else count bag w'.
Proof.
  intros Hbag Hn. pose proof Hbag as (Hk & Hok & Hv).
  destruct (addToFM_ok bag node w n Hok) as (bag' & b & Ha & Hok' & Hk' & He & _ & Hl).
  exists bag', b. split; [done|]. split.
  - split; [|split; [done|]].
    + unfold addToFM in Ha. destruct (avl_insert_wrk _ _ _ _); simpl in Ha; inv_ret. done.
    + rewrite He. by apply (alist_add_vals _ _ _ (fun v => 1 <= v <= UWORD_MAX)).
  - intros w'. unfold count. rewrite Hl. unfold fm_cmp. rewrite Hk. simpl.
    destruct (Z.eqb_spec (cmp_unsigned_Words w w') 0) as [E|E]; rewrite unsigned_eq in E;
      case_decide; simpl; congruence.
Qed.

Lemma bag_remove bag w :
  bag_ok bag ->
  ∃ bag' it, delFromFM bag w = Ret (bag', it) ∧ bag_ok bag' ∧
    ∀ w', count bag' w' = if decide (w' = w) then 0 else count bag w'.
Proof.
  intros (Hk & Hok & Hv). destruct (delFromFM_ok bag w Hok) as (bag' & Ha & Hok' & Hk' & He & Hl).
  eexists _, _. split; [done|]. split.
  - split; [|split; [done|]].
    + unfold delFromFM in Ha. destruct (avl_find_node _ _ _); [|by inv_ret; subst].
      destruct (avl_remove_wrk _ _ _ _); simpl in Ha; inv_ret. done.
    + rewrite He. apply Forall_forall. intros x Hx%alist_del_sub.
      by apply (proj1 (Forall_forall _ _) Hv).
  - intros w'. unfold count. rewrite Hl. unfold fm_cmp. rewrite Hk. simpl.
    destruct (Z.eqb_spec (cmp_unsigned_Words w w') 0) as [E|E]; rewrite unsigned_eq in E;
      case_decide; simpl; congruence.
Qed.

Lemma elemBag_count bag w : bag_ok bag -> elemBag bag w = Ret (count bag w).
Proof.
  intros Hbag. unfold elemBag. destruct (bag_lookup bag w Hbag) as [[-> ->]|[-> Hc]]; [done|].
  unfold vg_assert. rewrite Z.eqb_refl. simpl. by rewrite (proj2 (Z.leb_le _ _)) by lia.
Qed.

Lemma sizeTotalBag_sum t :
  Forall (fun it => 1 <= i_val it <= UWORD_MAX) (elements t) ->
  sizeTotalBag_wrk t = Ret (u64 (foldr Z.add 0 (i_val <$> elements t))).
Proof.
  induction t as [|it b l IHl r IHr]; [done|]. simpl.
  intros [Hl [Hit Hr]%Forall_cons]%Forall_app. unfold vg_assert.
  rewrite (proj2 (Z.leb_le _ _)) by lia. simpl. rewrite (IHl Hl), (IHr Hr). simpl. f_equal.
  rewrite fmap_app, foldr_app, fmap_cons. cbn [foldr].
  assert (Hf : ∀ vl s, foldr Z.add s vl = foldr Z.add 0 vl + s).
  { induction vl as [|v vl IH]; intros s; simpl; [lia|]. rewrite IH. lia. }
  rewrite (Hf _ (_ + _)). unfold u64, wrap.
  rewrite Zplus_mod_idemp_r, Z.add_shuffle0, Zplus_mod_idemp_r. f_equal. lia.
Qed.

(** A bag counts its words: from a bag whose counts are positive,
    [addToBag] adds one to the count of [w] (below the largest word),
    [delFromBag] takes one away exactly when [w] is in the bag and says so,
    [elemBag] returns the count, and none of their assertions fails; the total
    size is the sum of the counts modulo 2^64. *)
Theorem bag_counts bag node w :
  bag_ok bag -> count bag w < UWORD_MAX ->
  (∃ bag' d, addToBag bag node w = Ret (bag', d) ∧ bag_ok bag' ∧
     ∀ w', elemBag bag' w' = Ret (if decide (w' = w) then count bag w + 1 else count bag w')) ∧
  (∃ bag', delFromBag bag node w = Ret (bag', 0 <? count bag w) ∧ bag_ok bag' ∧
     ∀ w', elemBag bag' w' = Ret (if decide (w' = w) then Z.max 0 (count bag w - 1) else count bag w')) ∧
  sizeTotalBag bag = Ret (u64 (foldr Z.add 0 (contents bag).*2)).
Proof.
  intros Hbag Hmax. assert (2 ^ 64 = UWORD_MAX + 1) by reflexivity. split; [|split].
  - unfold addToBag. destruct (bag_lookup bag w Hbag) as [[-> Hc]|[-> Hc]].
    + destruct (bag_set bag node w 1) as (bag' & b & -> & Hok & Hcnt); [done|unfold UWORD_MAX; lia|].
      eexists _, _. split; [done|]. split; [done|]. intros w'. rewrite elemBag_count by done.
      rewrite Hcnt, Hc. by case_decide.
    + unfold vg_assert. rewrite Z.eqb_refl, (proj2 (Z.leb_le _ _)) by lia. cbn [mbind outcome_bind].
      unfold u64. rewrite wrap_small by lia.
      destruct (bag_set bag node w (count bag w + 1)) as (bag' & b & -> & Hok & Hcnt); [done|lia|].
      eexists _, _. split; [done|]. split; [done|]. intros w'. rewrite elemBag_count by done.
      rewrite Hcnt. by case_decide.
  - unfold delFromBag. destruct (bag_lookup bag w Hbag) as [[-> Hc]|[-> Hc]].
    + exists bag. rewrite Hc. split; [done|]. split; [done|]. intros w'.
      rewrite elemBag_count by done. case_decide; subst; [by rewrite Hc|done].
    + unfold vg_assert. rewrite Z.eqb_refl, (proj2 (Z.leb_le _ _)) by lia. cbn [mbind outcome_bind].
      rewrite (proj2 (Z.ltb_lt 0 _)) by lia. destruct (Z.ltb_spec 1 (count bag w)).
      * destruct (bag_set bag node w (count bag w - 1)) as (bag' & b & -> & Hok & Hcnt); [done|lia|].
        eexists. split; [done|]. split; [done|]. intros w'. rewrite elemBag_count by done.
        rewrite Hcnt. case_decide; [|done]. f_equal. lia.
      * assert (count bag w = 1) as Hone by lia. rewrite Hone. simpl.
        destruct (bag_remove bag w Hbag) as (bag' & it & -> & Hok & Hcnt).
        eexists. split; [done|]. split; [done|]. intros w'. rewrite elemBag_count by done.
        rewrite Hcnt. by case_decide.
  - unfold sizeTotalBag. rewrite sizeTotalBag_sum by apply Hbag. unfold contents.
    by rewrite <- list_fmap_compose.
Qed.

(** ** Copies *)

Lemma avl_dopy_shape dK dV na t :
  height (avl_dopy dK dV na t) = height t ∧ (balanced t -> balanced (avl_dopy dK dV na t)).
Proof.
  induction t as [|it b l [Hl Hbl] r [Hr Hbr]]; [done|]. simpl. rewrite Hl, Hr. split; [done|].
  intros (? & ? & ? & ?). auto.
Qed.

Lemma avl_dopy_contents na t :
  (fun it => (i_key it, i_val it)) <$> elements (avl_dopy None None na t) =
  (fun it => (i_key it, i_val it)) <$> elements t.
Proof.
  induction t as [|it b l IHl r IHr]; [done|]. cbn [elements avl_dopy].
  by rewrite !fmap_app, !fmap_cons, IHl, IHr.
Qed.

(** Every node is finalised and freed once. *)
Lemma avl_free_all t : avl_free t ≡ₚ elements t.
Proof.
  induction t as [|it b l IHl r IHr]; [done|]. simpl. rewrite IHl, IHr.
  apply Permutation_app_head. symmetry. apply Permutation_cons_append.
Qed.

(** * Witnesses *)

(** Keys 3, 5, 7 and 9 in the default order. *)
Definition demo_fm : WordFM :=
  FM (Node (Item 1 5 50) 1 (Node (Item 2 3 30) 0 Nil Nil)
        (Node (Item 3 7 70) 1 Nil (Node (Item 4 9 90) 0 Nil Nil))) None [].

Lemma demo_fm_ok : fm_ok demo_fm.
Proof.
  split; [apply cmp_unsigned_Words_order|]. split; [simpl; lia|].
  unfold sorted, item_lt. simpl. repeat constructor.
Qed.

Definition demo_bag : WordFM := FM (Node (Item 1 5 2) 0 Nil Nil) None [].

Lemma demo_bag_ok : bag_ok demo_bag.
Proof.
  split; [done|]. split.
  - split; [apply cmp_unsigned_Words_order|]. split; [simpl; lia|]. repeat constructor.
  - repeat constructor; unfold UWORD_MAX; simpl; lia.
Qed.

Lemma addToFM_refines_witness :
  ∃ fm', addToFM demo_fm 8 6 60 = Ret (fm', false, []) ∧ fm_ok fm' ∧ lookupFM fm' 6 = Some (6, 60).
Proof.
  destruct (addToFM_refines demo_fm 8 6 60 demo_fm_ok) as (fm' & b & Ha & Hok & _ & _ & Hb & Hl).
  exists fm'. assert (b = false) as Hb' by (rewrite Hb; reflexivity). rewrite Hb' in Ha.
  split; [exact Ha|]. split; [exact Hok|]. rewrite Hl. reflexivity.
Defined.

Lemma delFromFM_refines_witness :
  ∃ fm', delFromFM demo_fm 5 = Ret (fm', Some (Item 1 5 50)) ∧ fm_ok fm' ∧ lookupFM fm' 5 = None.
Proof.
  destruct (delFromFM_refines demo_fm 5 demo_fm_ok) as (fm' & Ha & Hok & _ & _ & Hl).
  exists fm'. split; [exact Ha|]. split; [exact Hok|]. rewrite Hl. reflexivity.
Defined.

Lemma findBoundsFM_neighbours_witness :
  findBoundsFM demo_fm (0, 0) (100, 0) 6 = Some ((5, 50), (7, 70)) ∧
  findBoundsFM demo_fm (0, 0) (100, 0) 7 = None.
Proof.
  split.
  - rewrite (proj2 (findBoundsFM_neighbours demo_fm (0, 0) (100, 0) 6 demo_fm_ok)); reflexivity.
  - apply (findBoundsFM_neighbours demo_fm (0, 0) (100, 0) 7 demo_fm_ok). by eexists.
Defined.

Lemma iteration_in_order_witness :
  sizeFM demo_fm = 4 ∧
  ∃ fm', initIterFM demo_fm = Ret fm' ∧ drain 5 fm' = Ret [(3, 30); (5, 50); (7, 70); (9, 90)].
Proof.
  destruct (iteration_in_order demo_fm demo_fm_ok) as (Hs & fm' & Hi & Hd); [reflexivity|].
  split; [exact Hs|]. exists fm'. split; [exact Hi|]. exact Hd.
Defined.

Lemma iteration_from_key_witness :
  ∃ fm', initIterAtFM demo_fm 6 = Ret fm' ∧ drain 5 fm' = Ret [(7, 70); (9, 90)].
Proof.
  destruct (iteration_from_key demo_fm 6 demo_fm_ok) as (fm' & Hi & Hd); [reflexivity|].
  exists fm'. split; [exact Hi|]. exact Hd.
Defined.

Lemma bag_counts_witness :
  ∃ bag' d, addToBag demo_bag 9 5 = Ret (bag', d) ∧ elemBag bag' 5 = Ret 3.
Proof.
  destruct (bag_counts demo_bag 9 5 demo_bag_ok) as [(bag' & d & Ha & _ & Hc) _]; [reflexivity|].
  exists bag', d. split; [exact Ha|]. rewrite Hc. reflexivity.
Defined.
