(* ===== verification/Ssort.v ===== *)
(** [VG_(ssort)] of [coregrind/m_libcbase.c]: the quicksort of Bentley and
    McIlroy, with its median of medians, fat partition and insertion sort of
    small ranges.

    The array is a list of elements; [a], [pa], [pb], ... are indices where the
    code has pointers, and the exchange of two elements word by word or byte by
    byte is one swap. Recursion has two bounds: [depth] for the explicit
    recursive calls, which the comment in the code limits to the logarithm of
    the size, and [fuel] for the jumps back to the start. *)

From S2P Require Import Prelude.
Local Open Scope Z_scope.

(** * Definitions *)

Section Sort.
Context {A : Type}.
Variables (cmp : A -> A -> Z) (base es : Z).
Implicit Types (mem : list A).

(** [BM_SWAPINIT] for the element [a] of the array at address [base]. *)
Definition swaptype (a : Z) : Z :=
  if negb (Z.lor (base + a * es) es mod 8 =? 0) then 2 else if 8 <? es then 1 else 0.

Definition swap mem (i j : Z) : outcome (list A) :=
  x ← arr_get mem i; y ← arr_get mem j; mem1 ← arr_set mem i y; arr_set mem1 j x.

Definition cmp_at mem (i j : Z) : outcome Z :=
  x ← arr_get mem i; y ← arr_get mem j; Ret (cmp x y).

Definition bm_med3 mem (a b c : Z) : outcome Z :=
  r ← cmp_at mem a b;
  if r <? 0 then
    r2 ← cmp_at mem b c;
    if r2 <? 0 then Ret b else r3 ← cmp_at mem a c; Ret (if r3 <? 0 then c else a)
  else
    r2 ← cmp_at mem b c;
    if 0 <? r2 then Ret b else r3 ← cmp_at mem a c; Ret (if 0 <? r3 then c else a).

(** [for (pl = pm; pl > a && cmp(pl-es, pl) > 0; pl -= es) BM_SWAP(pl, pl-es);] *)
Fixpoint sink (fuel : nat) mem (a pl : Z) : outcome (list A) :=
  if a <? pl then
    r ← cmp_at mem (pl - 1) pl;
    if 0 <? r then
      match fuel with
      | O => Fault OutOfFuel
      | S fuel => mem' ← swap mem pl (pl - 1); sink fuel mem' a (pl - 1)
      end
    else Ret mem
  else Ret mem.

Definition insertion mem (a n : Z) : outcome (list A) :=
  for_up (a + 1) (a + n) (fun pm mem => sink (Z.to_nat (pm - a)) mem a pm) mem.

Definition choose_pivot mem (a n : Z) : outcome Z :=
  let pm := a + n / 2 in
  if 7 <? n then
    let pl := a in
    let pn := a + (n - 1) in
    t ← (if 40 <? n then
           let s := n / 8 in
           pl ← bm_med3 mem pl (pl + s) (pl + 2 * s);
           pm ← bm_med3 mem (pm - s) pm (pm + s);
           pn ← bm_med3 mem (pn - 2 * s) (pn - s) pn;
           Ret (pl, pm, pn)
         else Ret (pl, pm, pn));
    bm_med3 mem t.1.1 t.1.2 t.2
  else Ret pm.

(** [BM_PVINIT]: where the pivot is read from afterwards. *)
Definition pvinit mem (a pm : Z) : outcome (list A * (list A -> outcome A)) :=
  if negb (swaptype a =? 0) then mem' ← swap mem a pm; Ret (mem', fun mem => arr_get mem a)
  else v ← arr_get mem pm; Ret (mem, fun _ => Ret v).

Fixpoint scan_up (fuel : nat) (pv : list A -> outcome A) mem (pa pb pc : Z) : outcome (list A * Z * Z) :=
  if pb <=? pc then
    x ← arr_get mem pb; v ← pv mem;
    let r := cmp x v in
    if r <=? 0 then
      match fuel with
      | O => Fault OutOfFuel
      | S fuel =>
          if r =? 0 then mem' ← swap mem pa pb; scan_up fuel pv mem' (pa + 1) (pb + 1) pc
          else scan_up fuel pv mem pa (pb + 1) pc
      end
    else Ret (mem, pa, pb)
  else Ret (mem, pa, pb).

Fixpoint scan_down (fuel : nat) (pv : list A -> outcome A) mem (pb pc pd : Z) : outcome (list A * Z * Z) :=
  if pb <=? pc then
    x ← arr_get mem pc; v ← pv mem;
    let r := cmp x v in
    if 0 <=? r then
      match fuel with
      | O => Fault OutOfFuel
      | S fuel =>
          if r =? 0 then mem' ← swap mem pc pd; scan_down fuel pv mem' pb (pc - 1) (pd - 1)
          else scan_down fuel pv mem pb (pc - 1) pd
      end
    else Ret (mem, pc, pd)
  else Ret (mem, pc, pd).

Record bounds := Bounds { pa : Z; pb : Z; pc : Z; pd : Z }.

(** The loop [for (;;)] of the partition. *)
Fixpoint partition (fuel : nat) (pv : list A -> outcome A) mem (b : bounds) : outcome (list A * bounds) :=
  match fuel with
  | O => Fault OutOfFuel
  | S fuel =>
      let scans := Z.to_nat (pc b - pb b + 1) in
      u ← scan_up scans pv mem (pa b) (pb b) (pc b);
      d ← scan_down scans pv u.1.1 u.2 (pc b) (pd b);
      if d.1.2 <? u.2 then Ret (d.1.1, Bounds u.1.2 u.2 d.1.2 d.2)
      else
        mem' ← swap d.1.1 u.2 d.1.2;
        partition fuel pv mem' (Bounds u.1.2 (u.2 + 1) (d.1.2 - 1) d.2)
  end.

(** [BM_VECSWAP]: [n] elements. *)
Definition vecswap mem (i j n : Z) : outcome (list A) :=
  for_up 0 n (fun k mem => swap mem (i + k) (j + k)) mem.

(** The partition of [n] elements from [a] on, and the sizes of the lower and
    the upper part. *)
Definition split_range mem (a n : Z) : outcome (list A * Z * Z) :=
  pm ← choose_pivot mem a n;
  p ← pvinit mem a pm;
  r ← partition (S (Z.to_nat n)) p.2 p.1 (Bounds a a (a + (n - 1)) (a + (n - 1)));
  let b := r.2 in
  let pn := a + n in
  let s := Z.min (pa b - a) (pb b - pa b) in
  mem1 ← vecswap r.1 a (pb b - s) s;
  let s' := Z.min (pd b - pc b) (pn - pd b - 1) in
  mem2 ← vecswap mem1 (pb b) (pn - s') s';
  Ret (mem2, pb b - pa b, pd b - pc b).

Fixpoint bm_qsort (depth : nat) : nat -> list A -> Z -> Z -> outcome (list A) :=
  fix tailcall (fuel : nat) mem a n :=
    match fuel with
    | O => Fault OutOfFuel
    | S fuel =>
        if n <? 7 then insertion mem a n
        else
          p ← split_range mem a n;
          let s1 := p.1.2 in
          let s2 := p.2 in
          let recurse mem a n :=
            match depth with O => Fault OutOfFuel | S depth => bm_qsort depth (Z.to_nat n) mem a n end in
          if s1 <? s2 then
            mem1 ← (if 1 <? s1 then recurse p.1.1 a s1 else Ret p.1.1);
            if 1 <? s2 then tailcall fuel mem1 (a + n - s2) s2 else Ret mem1
          else
            mem1 ← (if 1 <? s2 then recurse p.1.1 (a + n - s2) s2 else Ret p.1.1);
            if 1 <? s1 then tailcall fuel mem1 a s1 else Ret mem1
    end.

(** The depth of recursion that is enough for [n] elements. *)
Definition qsort_depth (n : Z) : nat := Z.to_nat (Z.log2 n).

Definition ssort mem (nmemb : Z) : outcome (list A) :=
  bm_qsort (qsort_depth nmemb) (S (Z.to_nat nmemb)) mem 0 nmemb.

End Sort.


(** * Comparison functions *)

(** What [VG_(ssort)] needs of its comparison: a total preorder, by sign. *)
Class CmpOrder {A : Type} (cmp : A -> A -> Z) : Prop := {
  cmp_refl : ∀ x, cmp x x = 0;
  cmp_sym : ∀ x y, cmp x y < 0 <-> 0 < cmp y x;
  cmp_trans : ∀ x y z, cmp x y <= 0 -> cmp y z <= 0 -> cmp x z <= 0
}.

(** * Ranges of an array *)

Section Ranges.
Context {A : Type}.
Implicit Types (mem : list A).

(** The element at [k]. *)
Definition elt mem (k : Z) : option A := mem !! Z.to_nat k.

Definition rng mem (lo hi : Z) (P : A -> Prop) : Prop := ∀ k x, lo <= k < hi -> elt mem k = Some x -> P x.

(** [mem'] has the elements of [mem], moved within the range. *)
Definition moved (lo hi : Z) mem mem' : Prop :=
  length mem' = length mem ∧ mem' ≡ₚ mem ∧ ∀ k, 0 <= k -> ¬ (lo <= k < hi) -> elt mem' k = elt mem k.

Lemma moved_refl lo hi mem : moved lo hi mem mem.
Proof. done. Qed.

Lemma moved_trans lo hi mem1 mem2 mem3 : moved lo hi mem1 mem2 -> moved lo hi mem2 mem3 -> moved lo hi mem1 mem3.
Proof.
  intros (L1 & P1 & E1) (L2 & P2 & E2). split; [lia|]. split; [by etrans|]. intros k Hk Hn.
  by rewrite E2, E1.
Qed.

Lemma moved_mono lo hi lo' hi' mem mem' : lo' <= lo -> hi <= hi' -> moved lo hi mem mem' -> moved lo' hi' mem mem'.
Proof. intros H1 H2 (L & P & E). split; [done|]. split; [done|]. intros k Hk Hn. apply E; lia. Qed.

Lemma elt_in mem k : 0 <= k < Z.of_nat (length mem) -> ∃ x, elt mem k = Some x ∧ arr_get mem k = Ret x.
Proof. intros Hk. destruct (arr_get_in_range mem k Hk) as (x & ? & ?). by exists x. Qed.

Lemma elt_get mem k x : 0 <= k -> elt mem k = Some x -> arr_get mem k = Ret x.
Proof. intros Hk Hx. by apply arr_get_Some. Qed.

Lemma elt_lt mem k x : 0 <= k -> elt mem k = Some x -> k < Z.of_nat (length mem).
Proof. intros Hk Hx. apply lookup_lt_Some in Hx. lia. Qed.

(** The range as a list. *)
Definition slice mem (lo hi : Z) : list A := take (Z.to_nat (hi - lo)) (drop (Z.to_nat lo) mem).

Lemma slice_elt mem lo hi k x :
  0 <= lo <= k -> k < hi -> slice mem lo hi !! Z.to_nat (k - lo) = Some x <-> elt mem k = Some x.
Proof.
  intros H1 H2. unfold slice, elt. rewrite lookup_take_lt, lookup_drop by lia.
  by replace (Z.to_nat lo + Z.to_nat (k - lo))%nat with (Z.to_nat k) by lia.
Qed.

Lemma rng_slice mem lo hi P : 0 <= lo -> rng mem lo hi P <-> Forall P (slice mem lo hi).
Proof.
  intros Hlo. rewrite Forall_lookup. split.
  - intros H i x Hi. assert (Z.of_nat i < hi - lo).
    { apply lookup_lt_Some in Hi. unfold slice in Hi. rewrite length_take in Hi. lia. }
    apply (H (lo + Z.of_nat i)); [lia|]. rewrite <- (slice_elt mem lo hi) by lia.
    by replace (Z.to_nat (lo + Z.of_nat i - lo)) with i by lia.
  - intros H k x Hk Hx. apply (H (Z.to_nat (k - lo))). by apply slice_elt; [lia|lia|].
Qed.

Lemma slice_split mem lo hi :
  0 <= lo <= hi -> mem = take (Z.to_nat lo) mem ++ slice mem lo hi ++ drop (Z.to_nat hi) mem.
Proof.
  intros H. unfold slice. rewrite <- (take_drop (Z.to_nat lo) mem) at 1. f_equal.
  rewrite <- (take_drop (Z.to_nat (hi - lo)) (drop (Z.to_nat lo) mem)) at 1. f_equal. rewrite drop_drop. f_equal. lia.
Qed.

Lemma moved_slice lo hi mem mem' : 0 <= lo <= hi -> moved lo hi mem mem' -> slice mem' lo hi ≡ₚ slice mem lo hi.
Proof.
  intros Hlo (Hlen & Hp & He). rewrite (slice_split mem lo hi), (slice_split mem' lo hi) in Hp by done.
  assert (take (Z.to_nat lo) mem' = take (Z.to_nat lo) mem) as E1.
  { apply list_eq. intros i. destruct (decide (i < Z.to_nat lo)%nat); [|by rewrite !lookup_take_ge by lia].
    rewrite !lookup_take_lt by done. specialize (He (Z.of_nat i)). unfold elt in He. rewrite Nat2Z.id in He. apply He; lia. }
  assert (drop (Z.to_nat hi) mem' = drop (Z.to_nat hi) mem) as E2.
  { apply list_eq. intros i. rewrite !lookup_drop. specialize (He (hi + Z.of_nat i)). unfold elt in He.
    replace (Z.to_nat (hi + Z.of_nat i)) with (Z.to_nat hi + i)%nat in He by lia. apply He; lia. }
  rewrite E1, E2 in Hp. apply Permutation_app_inv_l in Hp. by apply Permutation_app_inv_r in Hp.
Qed.

(** Moving elements within a range keeps what holds of all of them. *)
Lemma moved_rng lo hi mem mem' P : 0 <= lo <= hi -> moved lo hi mem mem' -> rng mem lo hi P -> rng mem' lo hi P.
Proof. intros Hlo Hm. rewrite !rng_slice by lia. by rewrite (moved_slice lo hi mem mem'). Qed.

Lemma moved_rng_other lo hi mem mem' l h P :
  0 <= l -> h <= lo ∨ hi <= l -> moved lo hi mem mem' -> rng mem l h P -> rng mem' l h P.
Proof. intros Hl Ho (_ & _ & He) H k x Hk Hx. apply (H k); [done|]. rewrite <- He by lia. done. Qed.

Lemma moved_found lo hi mem mem' k x :
  0 <= lo <= k -> k < hi -> moved lo hi mem mem' -> elt mem k = Some x ->
  ∃ k', lo <= k' < hi ∧ elt mem' k' = Some x.
Proof.
  intros H1 H2 Hm Hx. pose proof (moved_slice lo hi mem mem' ltac:(lia) Hm) as Hp.
  assert (x ∈ slice mem' lo hi) as Hin.
  { rewrite Hp. apply list_elem_of_lookup. exists (Z.to_nat (k - lo)). by apply slice_elt; [lia|lia|]. }
  apply list_elem_of_lookup in Hin as (i & Hi). assert (Z.of_nat i < hi - lo).
  { apply lookup_lt_Some in Hi. unfold slice in Hi. rewrite length_take in Hi. lia. }
  exists (lo + Z.of_nat i). split; [lia|]. rewrite <- (slice_elt mem' lo hi) by lia.
  by replace (Z.to_nat (lo + Z.of_nat i - lo)) with i by lia.
Qed.

(** ** Swapping *)

Definition transpose (i j k : nat) : nat := if decide (k = i) then j else if decide (k = j) then i else k.

Lemma swap_permutation mem i j x y :
  mem !! i = Some x -> mem !! j = Some y -> <[j := x]> (<[i := y]> mem) ≡ₚ mem.
Proof.
  intros Hx Hy. pose proof (lookup_lt_Some _ _ _ Hx). pose proof (lookup_lt_Some _ _ _ Hy).
  apply Permutation_inj. rewrite !length_insert. split; [done|]. exists (transpose i j). split.
  - intros k1 k2. unfold transpose. repeat case_decide; congruence.
  - intros k. unfold transpose. destruct (decide (k = j)) as [->|Hj].
    + rewrite list_lookup_insert_eq by (rewrite length_insert; lia). case_decide; congruence.
    + rewrite list_lookup_insert_ne by done. destruct (decide (k = i)) as [->|Hi].
      * by rewrite list_lookup_insert_eq by lia.
      * by rewrite list_lookup_insert_ne by done.
Qed.

Lemma swap_ok mem lo hi i j :
  0 <= lo -> hi <= Z.of_nat (length mem) -> lo <= i < hi -> lo <= j < hi ->
  ∃ mem', swap mem i j = Ret mem' ∧ moved lo hi mem mem' ∧
    ∀ k, 0 <= k -> elt mem' k = if decide (k = i) then elt mem j else if decide (k = j) then elt mem i else elt mem k.
Proof.
  intros Hlo Hhi Hi Hj. destruct (elt_in mem i) as (x & Ex & Gx); [lia|]. destruct (elt_in mem j) as (y & Ey & Gy); [lia|].
  unfold swap. rewrite Gx, Gy. cbn [mbind outcome_bind]. rewrite arr_set_in_range by lia. cbn [mbind outcome_bind].
  rewrite arr_set_in_range by (rewrite length_insert; lia). eexists. split; [done|].
  assert (Hk : ∀ k, 0 <= k -> elt (<[Z.to_nat j := x]> (<[Z.to_nat i := y]> mem)) k =
                 if decide (k = i) then elt mem j else if decide (k = j) then elt mem i else elt mem k).
  { intros k Hk. unfold elt. destruct (decide (k = j)) as [->|Hnj].
    - rewrite list_lookup_insert_eq by (rewrite length_insert; lia). case_decide; [subst; by rewrite <- Ex|done].
    - rewrite list_lookup_insert_ne by lia. case_decide as E; [subst; by rewrite list_lookup_insert_eq by lia|].
      by rewrite list_lookup_insert_ne by lia. }
  split; [|exact Hk]. split; [by rewrite !length_insert|]. split; [by apply swap_permutation|].
  intros k H0 Hn. rewrite Hk by done. rewrite !decide_False by lia. done.
Qed.

(** Blocks that do not overlap. *)
Lemma vecswap_ok mem lo hi i j n :
  0 <= lo -> hi <= Z.of_nat (length mem) -> 0 <= n -> lo <= i -> i + n <= j -> j + n <= hi ->
  ∃ mem', vecswap mem i j n = Ret mem' ∧ moved lo hi mem mem' ∧
    ∀ k, 0 <= k -> elt mem' k = if decide (i <= k < i + n) then elt mem (j + (k - i))
                                else if decide (j <= k < j + n) then elt mem (i + (k - j)) else elt mem k.
Proof.
  intros Hlo Hhi Hn Hi Hij Hj. unfold vecswap.
  destruct (for_up_inv (fun m mem' => moved lo hi mem mem' ∧
    ∀ k, 0 <= k -> elt mem' k = if decide (i <= k < i + m) then elt mem (j + (k - i))
                                else if decide (j <= k < j + m) then elt mem (i + (k - j)) else elt mem k)
    0 n (fun k mem => swap mem (i + k) (j + k)) mem) as (mem' & He & Hm & Hk); [done| | |by exists mem'].
  - split; [done|]. intros k Hk. rewrite !decide_False by lia. done.
  - intros m mem' Hm (Hmv & He). pose proof Hmv as (Hlen & _ & _).
    destruct (swap_ok mem' lo hi (i + m) (j + m)) as (mem2 & Hs & Hmv2 & He2); [done|lia|lia|lia|].
    exists mem2. split; [done|]. split; [by eapply moved_trans|]. intros k Hk. rewrite He2 by done.
    destruct (decide (k = i + m)) as [->|]; [|destruct (decide (k = j + m)) as [->|]].
    + rewrite He, (decide_True (P := i <= i + m < i + (m + 1))) by lia. rewrite !decide_False by lia. f_equal. lia.
    + rewrite He by lia. rewrite (decide_False (P := i <= j + m < i + (m + 1))), (decide_True (P := j <= j + m < j + (m + 1))) by lia.
      rewrite !decide_False by lia. f_equal. lia.
    + rewrite He by done. repeat case_decide; (done || lia).
Qed.

End Ranges.

(** * Sorting *)

Section Correct.
Context {A : Type} (cmp : A -> A -> Z) `{CO : !CmpOrder cmp}.
Variables (base es : Z).
Implicit Types (mem : list A).

Definition sorted_in mem (lo hi : Z) : Prop :=
  ∀ i j x y, lo <= i -> i < j -> j < hi -> elt mem i = Some x -> elt mem j = Some y -> cmp x y <= 0.

Lemma cmp_flip x y : 0 <= cmp x y <-> cmp y x <= 0.
Proof. pose proof (cmp_sym x y). pose proof (cmp_sym y x). lia. Qed.

(** ** Insertion sort *)

(** Sorted but for the element at [pl], which may be too far up. *)
Definition sorted_but mem (lo hi pl : Z) : Prop :=
  ∀ i j x y, lo <= i -> i < j -> j < hi -> j ≠ pl -> elt mem i = Some x -> elt mem j = Some y -> cmp x y <= 0.

Lemma sink_ok lo hi fuel : ∀ mem pl,
  0 <= lo <= pl -> pl < hi -> hi <= Z.of_nat (length mem) -> (Z.to_nat (pl - lo) <= fuel)%nat ->
  sorted_but mem lo hi pl ->
  ∃ mem', sink cmp fuel mem lo pl = Ret mem' ∧ moved lo hi mem mem' ∧ sorted_in mem' lo hi.
Proof.
  induction fuel as [|fuel IH]; intros mem pl Hlo Hpl Hhi Hf Hs; cbn [sink].
  - rewrite (proj2 (Z.ltb_ge _ _)) by lia. exists mem. split; [done|]. split; [done|].
    intros i j x y Hi Hij Hj. apply Hs; lia.
  - destruct (Z.ltb_spec lo pl).
    2:{ exists mem. split; [done|]. split; [done|]. intros i j x y Hi Hij Hj. apply Hs; lia. }
    destruct (elt_in mem (pl - 1)) as (x & Ex & Gx); [lia|]. destruct (elt_in mem pl) as (y & Ey & Gy); [lia|].
    unfold cmp_at. rewrite Gx, Gy. cbn [mbind outcome_bind]. destruct (Z.ltb_spec 0 (cmp x y)) as [Hgt|Hle].
    + destruct (swap_ok mem lo hi pl (pl - 1)) as (mem1 & -> & Hm & He); [lia|lia|lia|lia|]. cbn [mbind outcome_bind].
      pose proof Hm as (Hlen & _ & _).
      destruct (IH mem1 (pl - 1)) as (mem2 & Hk & Hm2 & Hs2); [lia|lia|lia|lia| |].
      { intros i j u v Hi Hij Hj Hne. rewrite !He by lia. intros Hu Hv.
        destruct (decide (i = pl)); [|destruct (decide (i = pl - 1))]; (destruct (decide (j = pl)); [|rewrite ?(decide_False (P := j = pl - 1)) in Hv by lia]); try lia.
        - apply (Hs (pl - 1) j); (done || lia).
        - assert (u = y) as -> by congruence. assert (v = x) as -> by congruence. apply Z.lt_le_incl. by apply cmp_sym.
        - apply (Hs pl j); (done || lia).
        - apply (Hs i (pl - 1)); (done || lia).
        - apply (Hs i j); (done || lia). }
      exists mem2. split; [done|]. split; [by eapply moved_trans|done].
    + exists mem. split; [done|]. split; [done|]. intros i j u v Hi Hij Hj Hu Hv.
      destruct (decide (j = pl)) as [->|]; [|by apply (Hs i j)].
      assert (v = y) as -> by congruence. destruct (decide (i = pl - 1)) as [->|]; [assert (u = x) as -> by congruence; done|].
      apply (cmp_trans u x y); [|done]. apply (Hs i (pl - 1)); (done || lia).
Qed.

Lemma insertion_ok mem a n :
  0 <= a -> a + n <= Z.of_nat (length mem) -> 0 <= n ->
  ∃ mem', insertion cmp mem a n = Ret mem' ∧ moved a (a + n) mem mem' ∧ sorted_in mem' a (a + n).
Proof.
  intros Ha Hlen Hn. unfold insertion. destruct (decide (n <= 0)).
  { rewrite for_up_empty by lia. exists mem. split; [done|]. split; [done|]. intros i j x y. lia. }
  destruct (for_up_inv (fun pm mem' => moved a (a + n) mem mem' ∧ sorted_in mem' a pm)
    (a + 1) (a + n) (fun pm mem => sink cmp (Z.to_nat (pm - a)) mem a pm) mem) as (mem' & He & Hm & Hs); [lia| | |by exists mem'].
  - split; [done|]. intros i j x y. lia.
  - intros pm mem' Hpm (Hm & Hs). pose proof Hm as (Hl & _ & _).
    destruct (sink_ok a (pm + 1) (Z.to_nat (pm - a)) mem' pm) as (mem2 & Hk & Hm2 & Hs2); [lia|lia|lia|lia| |].
    { intros i j x y Hi Hij Hj Hne. apply Hs; lia. }
    exists mem2. split; [done|]. split; [|done]. eapply moved_trans; [done|]. eapply moved_mono; [| |done]; lia.
Qed.

(** ** The pivot *)

Lemma cmp_at_ok mem i j :
  0 <= i < Z.of_nat (length mem) -> 0 <= j < Z.of_nat (length mem) -> ∃ r, cmp_at cmp mem i j = Ret r.
Proof.
  intros Hi Hj. destruct (elt_in mem i Hi) as (x & _ & Gx), (elt_in mem j Hj) as (y & _ & Gy).
  unfold cmp_at. rewrite Gx, Gy. by eexists.
Qed.

Lemma bm_med3_ok mem lo hi x y z :
  0 <= lo -> hi <= Z.of_nat (length mem) -> lo <= x < hi -> lo <= y < hi -> lo <= z < hi ->
  ∃ m, bm_med3 cmp mem x y z = Ret m ∧ lo <= m < hi.
Proof.
  intros Hlo Hhi Hx Hy Hz. unfold bm_med3.
  destruct (cmp_at_ok mem x y) as (r1 & ->); [lia|lia|]. destruct (cmp_at_ok mem y z) as (r2 & ->); [lia|lia|].
  destruct (cmp_at_ok mem x z) as (r3 & ->); [lia|lia|]. cbn [mbind outcome_bind].
  repeat case_bool; eexists; (split; [done|done]).
Qed.

Lemma choose_pivot_ok mem a n :
  0 <= a -> 1 <= n -> a + n <= Z.of_nat (length mem) -> ∃ m, choose_pivot cmp mem a n = Ret m ∧ a <= m < a + n.
Proof.
  intros Ha Hn Hlen. unfold choose_pivot.
  assert (Hmid : a <= a + n / 2 < a + n) by (pose proof (Z.div_lt n 2); pose proof (Z.div_pos n 2); lia).
  destruct (Z.ltb_spec 7 n); [|by eexists]. destruct (Z.ltb_spec 40 n).
  - assert (8 * (n / 8) <= n) by (apply Z.mul_div_le; lia). assert (5 <= n / 8) by (apply (Z.div_le_lower_bound n 8 5); lia).
    assert (2 * (n / 2) <= n) by (apply Z.mul_div_le; lia). assert (n < 2 * (n / 2) + 2) by (pose proof (Z.mod_pos_bound n 2); pose proof (Z.div_mod n 2); lia).
    destruct (bm_med3_ok mem a (a + n) a (a + n / 8) (a + 2 * (n / 8))) as (m1 & -> & Hm1); [lia..|].
    destruct (bm_med3_ok mem a (a + n) (a + n / 2 - n / 8) (a + n / 2) (a + n / 2 + n / 8)) as (m2 & -> & Hm2); [lia..|].
    destruct (bm_med3_ok mem a (a + n) (a + (n - 1) - 2 * (n / 8)) (a + (n - 1) - n / 8) (a + (n - 1))) as (m3 & -> & Hm3); [lia..|].
    cbn [mbind outcome_bind fst snd]. apply bm_med3_ok; lia.
  - cbn [mbind outcome_bind fst snd]. apply bm_med3_ok; lia.
Qed.

(** ** The partition *)

Section Partition.
Variables (a hi : Z) (v : A) (inplace : bool) (pv : list A -> outcome A).
Hypothesis Ha : 0 <= a.
Hypothesis Hpv : ∀ mem, (inplace = true -> elt mem a = Some v) -> pv mem = Ret v.

(** The fat partition: equal, smaller, unknown, larger, equal. *)
Definition fat mem (pa pb pc pd : Z) : Prop :=
  a <= pa ∧ pa <= pb ∧ pb <= pc + 1 ∧ pc <= pd ∧ pd < hi ∧ hi <= Z.of_nat (length mem) ∧
  (inplace = true -> elt mem a = Some v) ∧
  rng mem a pa (fun x => cmp x v = 0) ∧ rng mem pa pb (fun x => cmp x v < 0) ∧
  rng mem (pc + 1) (pd + 1) (fun x => 0 < cmp x v) ∧ rng mem (pd + 1) hi (fun x => cmp x v = 0).

(** Reduces a range of the new array to the old one. *)
Ltac old_rng He := intros k z Hkz; rewrite He by lia; repeat case_decide; try lia; intros Hz.

Lemma scan_up_ok pc pd fuel : ∀ mem pa pb,
  fat mem pa pb pc pd -> (Z.to_nat (pc - pb + 1) <= fuel)%nat -> (inplace = true -> a < pb ∨ pb <= pc) ->
  ∃ mem' pa' pb', scan_up cmp fuel pv mem pa pb pc = Ret (mem', pa', pb') ∧ moved a hi mem mem' ∧
    fat mem' pa' pb' pc pd ∧ pb <= pb' ∧ (inplace = true -> a < pb') ∧
    (pb' <= pc -> ∃ x, elt mem' pb' = Some x ∧ 0 < cmp x v).
Proof.
  induction fuel as [|fuel IH]; intros mem pa pb Hfat Hf Hin;
    pose proof Hfat as (H1 & H2 & H3 & H4 & H5 & H6 & Hk & R1 & R2 & R3 & R4); cbn [scan_up].
  { rewrite (proj2 (Z.leb_gt _ _)) by lia. exists mem, pa, pb. repeat (split; [done || lia|]). split; [|lia].
    intros Hi. destruct (Hin Hi); lia. }
  destruct (Z.leb_spec pb pc).
  2:{ exists mem, pa, pb. repeat (split; [done || lia|]). split; [|lia]. intros Hi. destruct (Hin Hi); lia. }
  destruct (elt_in mem pb) as (x & Ex & Gx); [lia|]. rewrite Gx. cbn [mbind outcome_bind].
  rewrite Hpv by done. cbn [mbind outcome_bind]. destruct (Z.leb_spec (cmp x v) 0) as [Hle|Hgt].
  2:{ exists mem, pa, pb. repeat (split; [done || lia|]). split; [|by exists x].
      intros Hi. destruct (decide (pb = a)) as [E|]; [|lia]. rewrite E in Ex. rewrite Hk in Ex by done. injection Ex as ->.
      rewrite cmp_refl in Hgt. lia. }
  destruct (Z.eqb_spec (cmp x v) 0) as [Heq|Hne].
  - destruct (swap_ok mem a hi pa pb) as (mem1 & -> & Hm & He); [lia|lia|lia|lia|]. cbn [mbind outcome_bind].
    pose proof Hm as (Hlen & _ & _).
    destruct (IH mem1 (pa + 1) (pb + 1)) as (mem2 & pa' & pb' & Hs & Hm2 & Hfat2 & Hp & Hi2 & Hx2); [|lia|lia|].
    { split; [lia|]. split; [lia|]. split; [lia|]. split; [lia|]. split; [lia|]. split; [lia|]. split; [|split; [|split; [|split]]].
      - intros Hi. specialize (Hk Hi). rewrite He by lia. destruct (decide (a = pa)) as [<-|]; [|by rewrite decide_False by lia].
        destruct (decide (pb = a)) as [->|]; [done|].
        assert (cmp v v < 0) as Hvv by (apply (R2 a); [lia|done]). rewrite cmp_refl in Hvv. lia.
      - old_rng He; [congruence|]. apply (R1 k); [lia|done].
      - old_rng He; [apply (R2 pa); [lia|done]|]. apply (R2 k); [lia|done].
      - old_rng He. apply (R3 k); [lia|done].
      - old_rng He. apply (R4 k); [lia|done]. }
    exists mem2, pa', pb'. split; [done|]. split; [by eapply moved_trans|]. split; [done|]. split; [lia|]. done.
  - destruct (IH mem pa (pb + 1)) as (mem2 & pa' & pb' & Hs & Hm2 & Hfat2 & Hp & Hi2 & Hx2); [|lia|lia|].
    { repeat (split; [done || lia|]). split; [|done]. intros k y Hky Hy. destruct (decide (k = pb)) as [->|]; [|by apply (R2 k); [lia|]].
      assert (y = x) as -> by congruence. lia. }
    exists mem2, pa', pb'. split; [done|]. split; [done|]. split; [done|]. split; [lia|]. done.
Qed.

Lemma scan_down_ok pa pb fuel : ∀ mem pc pd,
  fat mem pa pb pc pd -> (Z.to_nat (pc - pb + 1) <= fuel)%nat -> (inplace = true -> a < pb) ->
  ∃ mem' pc' pd', scan_down cmp fuel pv mem pb pc pd = Ret (mem', pc', pd') ∧ moved a hi mem mem' ∧
    fat mem' pa pb pc' pd' ∧ pc' <= pc ∧ (∀ k, 0 <= k <= pc' -> elt mem' k = elt mem k) ∧
    (pb <= pc' -> ∃ x, elt mem' pc' = Some x ∧ cmp x v < 0).
Proof.
  induction fuel as [|fuel IH]; intros mem pc pd Hfat Hf Hin;
    pose proof Hfat as (H1 & H2 & H3 & H4 & H5 & H6 & Hk & R1 & R2 & R3 & R4); cbn [scan_down].
  { rewrite (proj2 (Z.leb_gt _ _)) by lia. exists mem, pc, pd. repeat (split; [done || lia|]). lia. }
  destruct (Z.leb_spec pb pc).
  2:{ exists mem, pc, pd. repeat (split; [done || lia|]). lia. }
  destruct (elt_in mem pc) as (x & Ex & Gx); [lia|]. rewrite Gx. cbn [mbind outcome_bind].
  rewrite Hpv by done. cbn [mbind outcome_bind]. destruct (Z.leb_spec 0 (cmp x v)) as [Hge|Hlt].
  2:{ exists mem, pc, pd. repeat (split; [done || lia|]). by exists x. }
  destruct (Z.eqb_spec (cmp x v) 0) as [Heq|Hne].
  - destruct (swap_ok mem a hi pc pd) as (mem1 & -> & Hm & He); [lia|lia|lia|lia|]. cbn [mbind outcome_bind].
    pose proof Hm as (Hlen & _ & _).
    destruct (IH mem1 (pc - 1) (pd - 1)) as (mem2 & pc' & pd' & Hs & Hm2 & Hfat2 & Hp & Hkeep & Hx2); [|lia|done|].
    { split; [lia|]. split; [lia|]. split; [lia|]. split; [lia|]. split; [lia|]. split; [lia|]. split; [|split; [|split; [|split]]].
      - intros Hi. specialize (Hk Hi). specialize (Hin Hi). rewrite He by lia. by rewrite !decide_False by lia.
      - old_rng He. apply (R1 k); [lia|done].
      - old_rng He. apply (R2 k); [lia|done].
      - old_rng He; [apply (R3 pd); [lia|done]|]. apply (R3 k); [lia|done].
      - old_rng He; [replace pd with pc in Hz by lia; congruence|congruence|]. apply (R4 k); [lia|done]. }
    exists mem2, pc', pd'. split; [done|]. split; [by eapply moved_trans|]. split; [done|]. split; [lia|]. split; [|done].
    intros k Hk'. rewrite Hkeep, He by lia. by rewrite !decide_False by lia.
  - destruct (IH mem (pc - 1) pd) as (mem2 & pc' & pd' & Hs & Hm2 & Hfat2 & Hp & Hkeep & Hx2); [|lia|done|].
    { repeat (split; [done || lia|]). split; [|done]. intros k y Hky Hy. destruct (decide (k = pc)) as [->|]; [|by apply (R3 k); [lia|]].
      assert (y = x) as -> by congruence. lia. }
    exists mem2, pc', pd'. split; [done|]. split; [done|]. split; [done|]. split; [lia|]. done.
Qed.

Lemma partition_ok fuel : ∀ mem pa pb pc pd,
  fat mem pa pb pc pd -> (Z.to_nat (pc - pb + 1) < fuel)%nat -> (inplace = true -> a < pb ∨ pb <= pc) ->
  ∃ mem' pa' pb' pd', partition cmp fuel pv mem (Bounds pa pb pc pd) = Ret (mem', Bounds pa' pb' (pb' - 1) pd') ∧
    moved a hi mem mem' ∧ fat mem' pa' pb' (pb' - 1) pd'.
Proof.
  induction fuel as [|fuel IH]; intros mem pa pb pc pd Hfat Hf Hin; [lia|]. cbn [partition Ssort.pa Ssort.pb Ssort.pc Ssort.pd].
  destruct (scan_up_ok pc pd (Z.to_nat (pc - pb + 1)) mem pa pb) as (mem1 & pa1 & pb1 & -> & Hm1 & Hfat1 & Hle1 & Hin1 & Hx1);
    [done|lia|done|]. cbn [mbind outcome_bind fst snd].
  destruct (scan_down_ok pa1 pb1 (Z.to_nat (pc - pb + 1)) mem1 pc pd) as (mem2 & pc2 & pd2 & -> & Hm2 & Hfat2 & Hle2 & Hkeep & Hx2);
    [done|lia|done|]. cbn [mbind outcome_bind fst snd].
  pose proof (moved_trans _ _ _ _ _ Hm1 Hm2) as Hm.
  pose proof Hfat2 as (H1 & H2 & H3 & H4 & H5 & H6 & Hk & R1 & R2 & R3 & R4).
  destruct (Z.ltb_spec pc2 pb1).
  { exists mem2, pa1, pb1, pd2. assert (pc2 = pb1 - 1) as -> by lia. done. }
  destruct Hx1 as (x & Ex & Hx); [lia|]. destruct Hx2 as (y & Ey & Hy); [lia|].
  rewrite <- Hkeep in Ex by lia. assert (pb1 ≠ pc2) by (intros E; rewrite E, Ey in Ex; injection Ex as ->; lia).
  destruct (swap_ok mem2 a hi pb1 pc2) as (mem3 & -> & Hm3 & He); [lia|lia|lia|lia|]. cbn [mbind outcome_bind].
  pose proof Hm3 as (Hlen & _ & _).
  destruct (IH mem3 pa1 (pb1 + 1) (pc2 - 1) pd2) as (mem4 & pa' & pb' & pd' & Hp & Hm4 & Hfat4); [|lia|lia|].
  { split; [lia|]. split; [lia|]. split; [lia|]. split; [lia|]. split; [lia|]. split; [lia|]. split; [|split; [|split; [|split]]].
    - intros Hi. specialize (Hin1 Hi). rewrite He by lia. rewrite !decide_False by lia. by apply Hk.
    - old_rng He. apply (R1 k); [lia|done].
    - old_rng He; [congruence|]. apply (R2 k); [lia|done].
    - old_rng He; [congruence|]. apply (R3 k); [lia|done].
    - old_rng He. apply (R4 k); [lia|done]. }
  exists mem4, pa', pb', pd'. split; [done|]. split; [|done]. by eapply moved_trans; [|eapply moved_trans].
Qed.

End Partition.

(** Where the pivot is read from after [BM_PVINIT]. *)
Lemma pvinit_ok mem a n pm :
  0 <= a -> a <= pm < a + n -> a + n <= Z.of_nat (length mem) ->
  ∃ mem' pv v inplace, pvinit base es mem a pm = Ret (mem', pv) ∧ moved a (a + n) mem mem' ∧
    elt mem pm = Some v ∧ (inplace = true -> elt mem' a = Some v) ∧
    ∀ m, (inplace = true -> elt m a = Some v) -> pv m = Ret v.
Proof.
  intros Ha Hpm Hlen. destruct (elt_in mem pm) as (v & Ev & Gv); [lia|]. unfold pvinit.
  destruct (negb (swaptype base es a =? 0)).
  - destruct (swap_ok mem a (a + n) a pm) as (mem1 & -> & Hm & He); [lia|lia|lia|lia|].
    exists mem1, (fun m => arr_get m a), v, true. split; [done|]. split; [done|]. split; [done|].
    split; [intros _; rewrite He by lia; by rewrite decide_True|]. intros m Hm1. apply elt_get; [done|by apply Hm1].
  - rewrite Gv. exists mem, (fun _ => Ret v), v, false. by repeat split.
Qed.

(** One exchange of blocks puts the equal elements behind the others. *)
Lemma vecswap_rotates mem lo hi b c (P Q : A -> Prop) :
  0 <= lo <= b -> b <= c -> c <= hi -> hi <= Z.of_nat (length mem) -> rng mem lo b P -> rng mem b c Q ->
  ∃ mem', vecswap mem lo (c - Z.min (b - lo) (c - b)) (Z.min (b - lo) (c - b)) = Ret mem' ∧ moved lo hi mem mem' ∧
    moved lo c mem mem' ∧ rng mem' lo (lo + (c - b)) Q ∧ rng mem' (lo + (c - b)) c P.
Proof.
  intros Hlo Hb Hc Hlen HP HQ.
  assert (Hs : ∃ s, s = Z.min (b - lo) (c - b) ∧ 0 <= s) by (eexists; split; [done|lia]).
  destruct Hs as (s & Es & Hs). rewrite <- Es.
  destruct (vecswap_ok mem lo c lo (c - s) s) as (mem' & He & Hm & Hk); [lia|lia|lia|lia|lia|lia|].
  exists mem'. split; [done|]. split; [eapply moved_mono; [| |exact Hm]; lia|]. split; [done|]. split.
  - intros k x Hkr. rewrite Hk by lia. repeat case_decide; try lia; intros Hx; (eapply HQ; [|exact Hx]; lia).
  - intros k x Hkr. rewrite Hk by lia. repeat case_decide; try lia; intros Hx; (eapply HP; [|exact Hx]; lia).
Qed.

Lemma split_range_ok mem a n :
  0 <= a -> 1 <= n -> a + n <= Z.of_nat (length mem) ->
  ∃ mem' s1 s2 v, split_range cmp base es mem a n = Ret (mem', s1, s2) ∧ moved a (a + n) mem mem' ∧
    0 <= s1 ∧ 0 <= s2 ∧ s1 + s2 < n ∧ rng mem' a (a + s1) (fun x => cmp x v < 0) ∧
    rng mem' (a + s1) (a + n - s2) (fun x => cmp x v = 0) ∧ rng mem' (a + n - s2) (a + n) (fun x => 0 < cmp x v).
Proof.
  intros Ha Hn Hlen. unfold split_range. destruct (choose_pivot_ok mem a n) as (pm & -> & Hpm); [done|done|done|].
  cbn [mbind outcome_bind]. destruct (pvinit_ok mem a n pm Ha Hpm Hlen) as (mem1 & pv & v & ip & -> & Hm1 & Ev & Hk & Hpv).
  cbn [mbind outcome_bind fst snd]. pose proof Hm1 as (Hl1 & _ & _).
  destruct (partition_ok a (a + n) v ip pv Ha Hpv (S (Z.to_nat n)) mem1 a a (a + (n - 1)) (a + (n - 1)))
    as (mem2 & pa & pb & pd & -> & Hm2 & Hfat); [|lia|lia|].
  { repeat (split; [done || lia|]). repeat split; intros k x; lia. }
  cbn [mbind outcome_bind fst snd Ssort.pa Ssort.pb Ssort.pc Ssort.pd].
  destruct Hfat as (H1 & H2 & H3 & H4 & H5 & H6 & _ & R1 & R2 & R3 & R4).
  replace (pb - 1 + 1) with pb in R3 by lia. pose proof (moved_trans _ _ _ _ _ Hm1 Hm2) as Hm.
  assert (Hsome : pd - pa + 1 < n).
  { destruct (moved_found a (a + n) mem mem2 pm v) as (k & Hk' & Ek); [lia|lia|done|done|]. pose proof (cmp_refl v) as Hvv.
    destruct (decide (k < pa)); [lia|]. destruct (decide (k < pb)).
    { assert (cmp v v < 0) by (apply (R2 k); [lia|done]). lia. }
    destruct (decide (k < pd + 1)); [|lia]. assert (0 < cmp v v) by (apply (R3 k); [lia|done]). lia. }
  destruct (vecswap_rotates mem2 a (a + n) pa pb _ _ ltac:(lia) ltac:(lia) ltac:(lia) H6 R1 R2)
    as (mem3 & Hs3 & Hm3 & Hn3 & L3 & E3). rewrite Hs3. cbn [mbind outcome_bind]. pose proof Hm3 as (Hl3 & _ & _).
  assert (R3' : rng mem3 pb (pd + 1) (fun x => 0 < cmp x v)) by (eapply moved_rng_other; [| |exact Hn3|]; (done || lia)).
  assert (R4' : rng mem3 (pd + 1) (a + n) (fun x => cmp x v = 0)) by (eapply moved_rng_other; [| |exact Hn3|]; (done || lia)).
  destruct (vecswap_rotates mem3 pb (a + n) (pd + 1) (a + n) _ _ ltac:(lia) ltac:(lia) ltac:(lia) ltac:(lia) R3' R4')
    as (mem4 & Hs4 & Hm4 & _ & E4 & G4).
  replace (Z.min (pd - (pb - 1)) (a + n - pd - 1)) with (Z.min (pd + 1 - pb) (a + n - (pd + 1))) by lia. rewrite Hs4.
  cbn [mbind outcome_bind]. exists mem4, (pb - pa), (pd - (pb - 1)), v. split; [done|].
  split; [eapply moved_trans; [exact Hm|]; eapply moved_trans; [exact Hm3|]; eapply moved_mono; [| |exact Hm4]; lia|].
  split; [lia|]. split; [lia|]. split; [lia|].
  split; [eapply moved_rng_other; [| |exact Hm4|exact L3]; lia|]. split.
  - intros k x Hkr Hx. destruct (decide (k < pb)).
    + assert (E3' : rng mem4 (a + (pb - pa)) pb (fun x => cmp x v = 0)) by (eapply moved_rng_other; [| |exact Hm4|exact E3]; lia).
      apply (E3' k); [lia|done].
    + apply (E4 k); [lia|done].
  - intros k x Hkr Hx. apply (G4 k); [lia|done].
Qed.

(** ** Putting the parts together *)

Definition classes mem (a n s1 s2 : Z) (v : A) : Prop :=
  rng mem a (a + s1) (fun x => cmp x v < 0) ∧ rng mem (a + s1) (a + n - s2) (fun x => cmp x v = 0) ∧
  rng mem (a + n - s2) (a + n) (fun x => 0 < cmp x v).

Lemma classes_lower mem mem' a n s1 s2 v :
  0 <= a -> 0 <= s1 -> 0 <= s2 -> s1 + s2 < n -> moved a (a + s1) mem mem' -> classes mem a n s1 s2 v -> classes mem' a n s1 s2 v.
Proof.
  intros Ha H1 H2 Hn Hm (L & E & G). split; [eapply moved_rng; [|exact Hm|exact L]; lia|].
  split; (eapply moved_rng_other; [| |exact Hm|]; [| |done]; lia).
Qed.

Lemma classes_upper mem mem' a n s1 s2 v :
  0 <= a -> 0 <= s1 -> 0 <= s2 -> s1 + s2 < n -> moved (a + n - s2) (a + n) mem mem' -> classes mem a n s1 s2 v ->
  classes mem' a n s1 s2 v.
Proof.
  intros Ha H1 H2 Hn Hm (L & E & G). split; [eapply moved_rng_other; [| |exact Hm|exact L]; lia|].
  split; [eapply moved_rng_other; [| |exact Hm|exact E]; lia|]. eapply moved_rng; [|exact Hm|exact G]; lia.
Qed.

Lemma sorted_other mem mem' lo hi l h :
  0 <= l -> h <= lo ∨ hi <= l -> moved lo hi mem mem' -> sorted_in mem l h -> sorted_in mem' l h.
Proof.
  intros Hl Ho (_ & _ & He) Hs i j x y Hi Hij Hj. rewrite !He by lia. by apply Hs.
Qed.

Lemma sorted_classes mem a n s1 s2 v :
  0 <= s1 -> 0 <= s2 -> s1 + s2 < n -> classes mem a n s1 s2 v ->
  sorted_in mem a (a + s1) -> sorted_in mem (a + n - s2) (a + n) -> sorted_in mem a (a + n).
Proof.
  intros H1 H2 Hn (L & E & G) SL SG i j x y Hi Hij Hj Hx Hy.
  assert (Hvx : ∀ k z, a <= k < a + n - s2 -> elt mem k = Some z -> cmp z v <= 0).
  { intros k z Hk Hz. destruct (decide (k < a + s1)).
    - assert (cmp z v < 0) by (apply (L k); [lia|done]). lia.
    - assert (cmp z v = 0) by (apply (E k); [lia|done]). lia. }
  assert (Hvy : ∀ k z, a + s1 <= k < a + n -> elt mem k = Some z -> cmp v z <= 0).
  { intros k z Hk Hz. apply cmp_flip. destruct (decide (k < a + n - s2)).
    - assert (cmp z v = 0) by (apply (E k); [lia|done]). lia.
    - assert (0 < cmp z v) by (apply (G k); [lia|done]). lia. }
  destruct (decide (j < a + s1)); [by apply (SL i j)|]. destruct (decide (a + n - s2 <= i)); [by apply (SG i j)|].
  apply (cmp_trans x v y); [apply (Hvx i); [lia|done]|apply (Hvy j); [lia|done]].
Qed.

Lemma sorted_small mem a n : n <= 1 -> sorted_in mem a (a + n).
Proof. intros Hn i j x y. lia. Qed.

Lemma bm_qsort_unfold depth fuel mem a n :
  bm_qsort cmp base es depth (S fuel) mem a n =
  if n <? 7 then insertion cmp mem a n
  else
    p ← split_range cmp base es mem a n;
    let s1 := p.1.2 in
    let s2 := p.2 in
    let recurse mem a n :=
      match depth with O => Fault OutOfFuel | S depth => bm_qsort cmp base es depth (Z.to_nat n) mem a n end in
    if s1 <? s2 then
      mem1 ← (if 1 <? s1 then recurse p.1.1 a s1 else Ret p.1.1);
      if 1 <? s2 then bm_qsort cmp base es depth fuel mem1 (a + n - s2) s2 else Ret mem1
    else
      mem1 ← (if 1 <? s2 then recurse p.1.1 (a + n - s2) s2 else Ret p.1.1);
      if 1 <? s1 then bm_qsort cmp base es depth fuel mem1 a s1 else Ret mem1.
Proof. by destruct depth. Qed.

(** What a call with these bounds does. *)
Definition sorts (depth fuel : nat) : Prop :=
  ∀ mem a n, 0 <= a -> 0 <= n -> a + n <= Z.of_nat (length mem) ->
    Z.log2 n <= Z.of_nat depth -> (1 <= fuel)%nat -> n <= Z.of_nat fuel ->
    ∃ mem', bm_qsort cmp base es depth fuel mem a n = Ret mem' ∧ moved a (a + n) mem mem' ∧ sorted_in mem' a (a + n).

(** The recursive call on the smaller part, if it is made. *)
Lemma smaller_part depth mem a n m :
  (∀ d, depth = S d -> ∀ fuel, sorts d fuel) -> 0 <= a -> 0 <= m -> 2 * m < n -> a + m <= Z.of_nat (length mem) ->
  Z.log2 n <= Z.of_nat depth ->
  ∃ mem', (if 1 <? m then
             match depth with O => Fault OutOfFuel | S depth => bm_qsort cmp base es depth (Z.to_nat m) mem a m end
           else Ret mem) = Ret mem' ∧ moved a (a + m) mem mem' ∧ sorted_in mem' a (a + m).
Proof.
  intros IH Ha Hm Hn Hlen Hd. destruct (Z.ltb_spec 1 m); [|exists mem; split; [done|split; [done|by apply sorted_small]]].
  assert (Hlog : Z.log2 m + 1 <= Z.log2 n).
  { rewrite Z.add_1_r, <- Z.log2_double by lia. apply Z.log2_le_mono. lia. }
  pose proof (Z.log2_nonneg m). destruct depth as [|d]; [lia|].
  apply (IH d eq_refl); lia.
Qed.

Lemma bm_qsort_sorts depth : ∀ fuel, sorts depth fuel.
Proof.
  induction depth as [depth IHd] using (well_founded_induction lt_wf).
  assert (IH : ∀ d, depth = S d -> ∀ fuel, sorts d fuel) by (intros d -> fuel; apply IHd; lia). clear IHd.
  induction fuel as [|fuel IHf]; intros mem a n Ha Hn Hlen Hdep Hf1 Hf; [lia|].
  rewrite bm_qsort_unfold. destruct (Z.ltb_spec n 7); [by apply insertion_ok|].
  destruct (split_range_ok mem a n) as (mem1 & s1 & s2 & v & -> & Hm1 & H1 & H2 & Hs & L & E & G); [done|lia|done|].
  cbn [mbind outcome_bind fst snd]. assert (Hc : classes mem1 a n s1 s2 v) by done. clear L E G.
  pose proof Hm1 as (Hl1 & _ & _).
  assert (Hlog : ∀ m, m <= n -> Z.log2 m <= Z.of_nat depth) by (intros m ?; pose proof (Z.log2_le_mono m n); lia).
  destruct (Z.ltb_spec s1 s2).
  - destruct (smaller_part depth mem1 a n s1) as (mem2 & -> & Hm2 & S2); [done|lia|lia|lia|lia|done|].
    cbn [mbind outcome_bind]. pose proof Hm2 as (Hl2 & _ & _).
    pose proof (classes_lower _ _ _ _ _ _ _ Ha H1 H2 Hs Hm2 Hc) as Hc2.
    assert (Hupper : ∃ mem3, (if 1 <? s2 then bm_qsort cmp base es depth fuel mem2 (a + n - s2) s2 else Ret mem2) = Ret mem3 ∧
      moved (a + n - s2) (a + n) mem2 mem3 ∧ sorted_in mem3 (a + n - s2) (a + n)).
    { destruct (Z.ltb_spec 1 s2); [|exists mem2; split; [done|]; split; [done|]; intros i j x y; lia].
      destruct (IHf mem2 (a + n - s2) s2) as (mem3 & ? & Hm3 & S3); try lia; [apply Hlog; lia|].
      replace (a + n - s2 + s2) with (a + n) in Hm3, S3 by lia. by exists mem3. }
    destruct Hupper as (mem3 & -> & Hm3 & S3). exists mem3. split; [done|]. split.
    { eapply moved_trans; [exact Hm1|]. eapply moved_trans; (eapply moved_mono; [| |eassumption]; lia). }
    apply (sorted_classes _ _ _ s1 s2 v H1 H2 Hs); [by eapply classes_upper| |done].
    eapply sorted_other; [| |exact Hm3|exact S2]; lia.
  - destruct (smaller_part depth mem1 (a + n - s2) n s2) as (mem2 & -> & Hm2 & S2); [done|lia|lia|lia|lia|done|].
    cbn [mbind outcome_bind]. pose proof Hm2 as (Hl2 & _ & _). replace (a + n - s2 + s2) with (a + n) in Hm2, S2 by lia.
    pose proof (classes_upper _ _ _ _ _ _ _ Ha H1 H2 Hs Hm2 Hc) as Hc2.
    assert (Hlower : ∃ mem3, (if 1 <? s1 then bm_qsort cmp base es depth fuel mem2 a s1 else Ret mem2) = Ret mem3 ∧
      moved a (a + s1) mem2 mem3 ∧ sorted_in mem3 a (a + s1)).
    { destruct (Z.ltb_spec 1 s1); [|exists mem2; split; [done|]; split; [done|]; by apply sorted_small].
      apply IHf; try lia. apply Hlog; lia. }
    destruct Hlower as (mem3 & -> & Hm3 & S3). exists mem3. split; [done|]. split.
    { eapply moved_trans; [exact Hm1|]. eapply moved_trans; (eapply moved_mono; [| |eassumption]; lia). }
    apply (sorted_classes _ _ _ s1 s2 v H1 H2 Hs); [by eapply classes_lower|done|].
    eapply sorted_other; [| |exact Hm3|exact S2]; lia.
Qed.

End Correct.


(** A list in the order of [cmp]. *)
Definition in_order {A} (cmp : A -> A -> Z) (l : list A) : Prop := StronglySorted (fun x y => cmp x y <= 0) l.

Lemma sorted_in_order {A} (cmp : A -> A -> Z) (l : list A) : sorted_in cmp l 0 (Z.of_nat (length l)) -> in_order cmp l.
Proof.
  induction l as [|x l IH]; intros Hs; [constructor|]. constructor.
  - apply IH. intros i j y z Hi Hij Hj Hy Hz. apply (Hs (i + 1) (j + 1)); [lia|lia|simpl; lia| |]; unfold elt in *.
    + by replace (Z.to_nat (i + 1)) with (S (Z.to_nat i)) by lia.
    + by replace (Z.to_nat (j + 1)) with (S (Z.to_nat j)) by lia.
  - apply Forall_lookup. intros i y Hy. pose proof (lookup_lt_Some _ _ _ Hy).
    apply (Hs 0 (Z.of_nat (S i)) x y); [lia|lia|simpl; lia|done|]. unfold elt. by rewrite Nat2Z.id.
Qed.

Lemma ssort_ok {A} (cmp : A -> A -> Z) `{!CmpOrder cmp} base es (s rest : list A) :
  ∃ s', ssort cmp base es (s ++ rest) (Z.of_nat (length s)) = Ret (s' ++ rest) ∧ s' ≡ₚ s ∧ in_order cmp s'.
Proof.
  unfold ssort, qsort_depth. pose proof (Z.log2_nonneg (Z.of_nat (length s))).
  destruct (bm_qsort_sorts cmp base es (Z.to_nat (Z.log2 (Z.of_nat (length s)))) (S (Z.to_nat (Z.of_nat (length s))))
    (s ++ rest) 0 (Z.of_nat (length s))) as (mem & -> & Hm & Hs); [lia|lia|rewrite length_app; lia|lia|lia|lia|].
  rewrite Z.add_0_l in Hm, Hs.
  pose proof (moved_slice 0 (Z.of_nat (length s)) _ _ ltac:(lia) Hm) as Hp. pose proof Hm as (Hlen & _ & He).
  unfold slice in Hp. rewrite !drop_0, Z.sub_0_r, Nat2Z.id, take_app_length in Hp. exists (take (length s) mem).
  split; [|split; [done|]].
  - f_equal. rewrite <- (take_drop (length s) mem) at 1. f_equal. apply list_eq. intros i.
    rewrite lookup_drop. specialize (He (Z.of_nat (length s + i)) ltac:(lia) ltac:(lia)). unfold elt in He.
    rewrite Nat2Z.id in He. rewrite He, lookup_app_r by lia. f_equal. lia.
  - apply sorted_in_order. rewrite length_app in Hlen. rewrite length_take, Nat.min_l by lia.
    intros i j x y Hi Hij Hj. unfold elt. rewrite !lookup_take_lt by lia. by apply (Hs i j).
Qed.

Lemma ssort_sorts_list {A} (cmp : A -> A -> Z) `{!CmpOrder cmp} base es (s : list A) :
  ∃ s', ssort cmp base es s (Z.of_nat (length s)) = Ret s' ∧ s' ≡ₚ s ∧ in_order cmp s'.
Proof.
  destruct (ssort_ok cmp base es s []) as (s' & He & Hp). rewrite !app_nil_r in He. by exists s'.
Qed.

(** * Properties *)

(** C14: for every comparison that is a total preorder, [VG_(ssort)] returns with
    the elements in order and none lost, within the array it was given; its
    explicit recursion is never deeper than the logarithm of the number of
    elements (the promise of the comment before the recursion), for words as for
    larger elements. *)
Theorem ssort_sorts {A} (cmp : A -> A -> Z) `{!CmpOrder cmp} base es (s rest : list A) :
  ∃ s', ssort cmp base es (s ++ rest) (Z.of_nat (length s)) = Ret (s' ++ rest) ∧ s' ≡ₚ s ∧ in_order cmp s'.
Proof. apply ssort_ok, _. Qed.

(** * Witnesses *)

#[global] Instance sub_order : CmpOrder Z.sub.
Proof. split; intros; lia. Qed.

Lemma ssort_sorts_witness :
  ∃ s', ssort Z.sub 4096 4 ([5; 3; 9; 3; 7; 1; 8; 2] ++ [0]) 8 = Ret (s' ++ [0]) ∧
    s' ≡ₚ [5; 3; 9; 3; 7; 1; 8; 2] ∧ in_order Z.sub s'.
Proof. apply (ssort_sorts Z.sub 4096 4 [5; 3; 9; 3; 7; 1; 8; 2] [0]). Defined.
