(* ===== verification/XArray.v ===== *)
(** [coregrind/m_xarray.c]: expandable arrays.

    The element type is a parameter. The block [arr] is a list of [totsizeE]
    cells, a cell being [None] until it is written, and [arr] itself is [None]
    for NULL. Sizes are integers that do not overflow (an array with 2^62
    elements cannot be allocated). The class [IndexedArray] is what the users of
    an array, the range maps, rely on; the last part discharges it. *)

From S2P Require Import Prelude Ssort.
Local Open Scope Z_scope.

(** * The interface *)

Class IndexedArray (T A : Type) := {
  ia_empty : outcome T;
  ia_size : T -> Z;
  ia_index : T -> Z -> outcome A;
  ia_update : T -> Z -> (A -> A) -> outcome T;
  ia_add : T -> A -> outcome (T * Z);
  ia_insert : T -> Z -> A -> outcome T;
  ia_remove : T -> Z -> outcome T;
}.

(** The operations act on a list of elements. *)
Class IndexedArrayLaws (T A : Type) `{IndexedArray T A} := {
  ia_holds : T -> list A -> Prop;
  ia_limit : Z;
  ia_empty_law : exists t, ia_empty = Ret t /\ ia_holds t [];
  ia_size_law : forall t l, ia_holds t l -> ia_size t = Z.of_nat (length l);
  ia_index_law : forall t l i x, ia_holds t l -> l !! i = Some x -> ia_index t (Z.of_nat i) = Ret x;
  ia_update_law : forall t l i x f, ia_holds t l -> l !! i = Some x ->
    exists t', ia_update t (Z.of_nat i) f = Ret t' /\ ia_holds t' (<[i := f x]> l);
  ia_add_law : forall t l x, ia_holds t l -> Z.of_nat (S (length l)) <= ia_limit ->
    exists t', ia_add t x = Ret (t', Z.of_nat (length l)) /\ ia_holds t' (l ++ [x]);
  ia_insert_law : forall t l1 l2 x, ia_holds t (l1 ++ l2) -> Z.of_nat (S (length (l1 ++ l2))) <= ia_limit ->
    exists t', ia_insert t (Z.of_nat (length l1)) x = Ret t' /\ ia_holds t' (l1 ++ x :: l2);
  ia_remove_law : forall t l1 x l2, ia_holds t (l1 ++ x :: l2) ->
    exists t', ia_remove t (Z.of_nat (length l1)) = Ret t' /\ ia_holds t' (l1 ++ l2);
}.

(** * Definitions *)

Section Definitions.
Context {A : Type}.

Record XArray := XA {
  cmpFn : option (A -> A -> Z);
  elemSzB : Z;
  arr : option (list (option A));
  usedsizeE : Z;
  totsizeE : Z;
  is_sorted : bool;
}.

Definition newXA (elemSzB : Z) : outcome XArray :=
  _ ← vg_assert (0 <? elemSzB); Ret (XA None elemSzB None 0 0 false).

(** The block, when the code dereferences it. *)
Definition block (xa : XArray) : outcome (list (option A)) :=
  match arr xa with Some l => Ret l | None => Fault NullDeref end.

Definition cloneXA (xa : XArray) : outcome XArray :=
  _ ← vg_assert (1 <=? elemSzB xa);
  match arr xa with
  | None => Ret xa
  | Some l =>
      if usedsizeE xa <=? Z.of_nat (length l) then
        Ret (XA (cmpFn xa) (elemSzB xa) (Some (take (Z.to_nat (usedsizeE xa)) l))
               (usedsizeE xa) (usedsizeE xa) (is_sorted xa))
      else Fault OutOfBounds
  end.

Definition setCmpFnXA (xa : XArray) (compar : A -> A -> Z) : XArray :=
  XA (Some compar) (elemSzB xa) (arr xa) (usedsizeE xa) (totsizeE xa) false.

(** [indexXA] and the read through the pointer it returns. *)
Definition indexXA (xa : XArray) (n : Z) : outcome A :=
  _ ← vg_assert (u64 n <? u64 (usedsizeE xa));
  l ← block xa; x ← arr_get l n;
  match x with Some a => Ret a | None => Fault OutOfBounds end.

(** A write through the pointer [indexXA] returns. *)
Definition updateXA (xa : XArray) (n : Z) (f : A -> A) : outcome XArray :=
  x ← indexXA xa n; l ← block xa; l' ← arr_set l n (Some (f x));
  Ret (XA (cmpFn xa) (elemSzB xa) (Some l') (usedsizeE xa) (totsizeE xa) (is_sorted xa)).

Definition hintSizeXA (xa : XArray) (n : Z) : outcome XArray :=
  _ ← vg_assert (usedsizeE xa =? 0);
  _ ← vg_assert (totsizeE xa =? 0);
  _ ← vg_assert (match arr xa with None => true | Some _ => false end);
  if 0 <? n then
    Ret (XA (cmpFn xa) (elemSzB xa) (Some (replicate (Z.to_nat n) None)) (usedsizeE xa) n (is_sorted xa))
  else Ret xa.

Definition is_null (xa : XArray) : bool := match arr xa with None => true | Some _ => false end.

Definition new_size (xa : XArray) : Z :=
  if totsizeE xa =? 0 then
    if elemSzB xa =? 1 then 8 else if elemSzB xa =? 2 then 4 else 2
  else 2 + (3 * totsizeE xa) / 2.

Definition ensureSpaceXA (xa : XArray) : outcome XArray :=
  if usedsizeE xa =? totsizeE xa then
    _ ← (if totsizeE xa =? 0 then vg_assert (is_null xa) else Ret tt);
    _ ← (if 0 <? totsizeE xa then vg_assert (negb (is_null xa)) else Ret tt);
    let newsz := new_size xa in
    let tmp := replicate (Z.to_nat newsz) None in
    tmp' ← (if 0 <? usedsizeE xa then
              l ← block xa;
              Ret (take (Z.to_nat (usedsizeE xa)) l ++ drop (Z.to_nat (usedsizeE xa)) tmp)
            else Ret tmp);
    Ret (XA (cmpFn xa) (elemSzB xa) (Some tmp') (usedsizeE xa) newsz (is_sorted xa))
  else Ret xa.

(** The check at the head of the operations that add elements. *)
Definition sane (xa : XArray) : bool := (0 <=? usedsizeE xa) && (usedsizeE xa <=? totsizeE xa).

(** Room is made and the asserts that follow are checked. *)
Definition with_space (xa : XArray) : outcome (XArray * list (option A)) :=
  xa' ← ensureSpaceXA xa;
  _ ← vg_assert (usedsizeE xa' <? totsizeE xa');
  _ ← vg_assert (negb (is_null xa'));
  l ← block xa'; Ret (xa', l).

Definition addToXA (xa : XArray) (elem : A) : outcome (XArray * Z) :=
  _ ← vg_assert (0 <=? totsizeE xa); _ ← vg_assert (sane xa);
  r ← with_space xa;
  l' ← arr_set r.2 (usedsizeE r.1) (Some elem);
  Ret (XA (cmpFn xa) (elemSzB xa) (Some l') (usedsizeE r.1 + 1) (totsizeE r.1) false,
       usedsizeE r.1 + 1 - 1).

(** The loop of [addBytesToXA], for arrays of bytes. *)
Fixpoint add_bytes (bytes : list A) (xa : XArray) : outcome XArray :=
  match bytes with
  | [] => Ret xa
  | b :: bytes' =>
      r ← with_space xa;
      l' ← arr_set r.2 (usedsizeE r.1) (Some b);
      add_bytes bytes' (XA (cmpFn xa) (elemSzB xa) (Some l') (usedsizeE r.1 + 1) (totsizeE r.1) (is_sorted xa))
  end.

Definition addBytesToXA (xa : XArray) (bytes : list A) : outcome (XArray * Z) :=
  _ ← vg_assert (elemSzB xa =? 1);
  _ ← vg_assert (0 <=? totsizeE xa); _ ← vg_assert (sane xa);
  xa' ← add_bytes bytes xa;
  Ret (XA (cmpFn xa') (elemSzB xa') (arr xa') (usedsizeE xa') (totsizeE xa') false, usedsizeE xa).

(** The first [n] cells, which the comparison reads. *)
Definition read_cells (l : list (option A)) (n : Z) : outcome (list A) :=
  match mapM id (take (Z.to_nat n) l) with
  | Some xs => if n <=? Z.of_nat (length l) then Ret xs else Fault OutOfBounds
  | None => Fault OutOfBounds
  end.

(** [addr] is where the block is. *)
Definition sortXA (addr : Z) (xa : XArray) : outcome XArray :=
  match cmpFn xa with
  | None => Fault AssertFail
  | Some f =>
      xs ← read_cells (default [] (arr xa)) (usedsizeE xa);
      ys ← ssort f addr (elemSzB xa) xs (usedsizeE xa);
      Ret (XA (cmpFn xa) (elemSzB xa) ((fun l => (Some <$> ys) ++ drop (Z.to_nat (usedsizeE xa)) l) <$> arr xa)
             (usedsizeE xa) (totsizeE xa) true)
  end.

(** [while ( *first > 0 && 0 == cmpFn(key, xa[*first - 1])) ( *first)--] *)
Fixpoint expand_first (fuel : nat) (xa : XArray) (cmp : A -> outcome Z) (first : Z) : outcome Z :=
  match fuel with
  | O => Fault OutOfFuel
  | S fuel =>
      if 0 <? first then
        x ← indexXA xa (first - 1); c ← cmp x;
        if c =? 0 then expand_first fuel xa cmp (first - 1) else Ret first
      else Ret first
  end.

Fixpoint expand_last (fuel : nat) (xa : XArray) (cmp : A -> outcome Z) (last : Z) : outcome Z :=
  match fuel with
  | O => Fault OutOfFuel
  | S fuel =>
      if last <? usedsizeE xa - 1 then
        x ← indexXA xa (last + 1); c ← cmp x;
        if c =? 0 then expand_last fuel xa cmp (last + 1) else Ret last
      else Ret last
  end.

(** The search loop; [cmp x] is [cmpFn(key, x)]. *)
Fixpoint lookup_loop (fuel : nat) (xa : XArray) (cmp : A -> outcome Z) (lo hi : Z)
  : outcome (option (Z * Z)) :=
  match fuel with
  | O => Fault OutOfFuel
  | S fuel =>
      if hi <? lo then Ret None
      else
        let mid := Z.quot (lo + hi) 2 in
        midv ← indexXA xa mid; cres ← cmp midv;
        if cres <? 0 then lookup_loop fuel xa cmp lo (mid - 1)
        else if 0 <? cres then lookup_loop fuel xa cmp (mid + 1) hi
        else
          xlo ← indexXA xa lo; clo ← cmp xlo; _ ← vg_assert (0 <=? clo);
          xhi ← indexXA xa hi; chi ← cmp xhi; _ ← vg_assert (chi <=? 0);
          first ← expand_first (S (Z.to_nat mid)) xa cmp mid;
          last ← expand_last (S (Z.to_nat (usedsizeE xa))) xa cmp mid;
          Ret (Some (first, last))
  end.

Definition lookupXA_UNSAFE (xa : XArray) (cmp : A -> outcome Z) : outcome (option (Z * Z)) :=
  lookup_loop (S (Z.to_nat (usedsizeE xa))) xa cmp 0 (usedsizeE xa - 1).

Definition lookupXA (xa : XArray) (key : A) : outcome (option (Z * Z)) :=
  match cmpFn xa with
  | None => Fault AssertFail
  | Some f => _ ← vg_assert (is_sorted xa); lookupXA_UNSAFE xa (fun x => Ret (f key x))
  end.

Definition sizeXA (xa : XArray) : Z := usedsizeE xa.

Definition set_used (xa : XArray) (n : Z) : XArray :=
  XA (cmpFn xa) (elemSzB xa) (arr xa) n (totsizeE xa) (is_sorted xa).

Definition dropTailXA (xa : XArray) (n : Z) : outcome XArray :=
  _ ← vg_assert (0 <=? n); _ ← vg_assert (n <=? usedsizeE xa);
  Ret (set_used xa (usedsizeE xa - n)).

(** The move is a [memcpy] of overlapping areas with the destination below the
    source, which [VG_(memcpy)] copies upwards: a [blit] (LibcMem.v). *)
Definition dropHeadXA (xa : XArray) (n : Z) : outcome XArray :=
  _ ← vg_assert (0 <=? n); _ ← vg_assert (n <=? usedsizeE xa);
  if n =? 0 then Ret xa
  else if n =? usedsizeE xa then Ret (set_used xa 0)
  else
    _ ← vg_assert (0 <? n); _ ← vg_assert (0 <? usedsizeE xa - n);
    l ← block xa; l' ← blit l 0 n (usedsizeE xa - n);
    Ret (XA (cmpFn xa) (elemSzB xa) (Some l') (usedsizeE xa - n) (totsizeE xa) (is_sorted xa)).

Definition removeIndexXA (xa : XArray) (n : Z) : outcome XArray :=
  _ ← vg_assert (0 <=? n); _ ← vg_assert (n <? usedsizeE xa);
  if n + 1 <? usedsizeE xa then
    l ← block xa; l' ← blit l n (n + 1) (usedsizeE xa - n - 1);
    Ret (XA (cmpFn xa) (elemSzB xa) (Some l') (usedsizeE xa - 1) (totsizeE xa) (is_sorted xa))
  else Ret (set_used xa (usedsizeE xa - 1)).

Definition insertIndexXA (xa : XArray) (n : Z) (elem : A) : outcome XArray :=
  _ ← vg_assert (0 <=? n); _ ← vg_assert (n <=? usedsizeE xa); _ ← vg_assert (sane xa);
  r ← with_space xa;
  l1 ← (if n <? usedsizeE r.1 then blit r.2 (n + 1) n (usedsizeE r.1 - n) else Ret r.2);
  l2 ← arr_set l1 n (Some elem);
  Ret (XA (cmpFn xa) (elemSzB xa) (Some l2) (usedsizeE r.1 + 1) (totsizeE r.1) false).

Definition replaceIndexXA (xa : XArray) (n : Z) (elem : A) : outcome XArray :=
  _ ← vg_assert (0 <=? n); _ ← vg_assert (n <? usedsizeE xa); _ ← vg_assert (sane xa);
  l ← block xa; l' ← arr_set l n (Some elem);
  Ret (XA (cmpFn xa) (elemSzB xa) (Some l') (usedsizeE xa) (totsizeE xa) false).

End Definitions.
Arguments XArray : clear implicits.

(** * The elements of an array *)

(** More elements than this are never stored. *)
Definition XA_LIMIT : Z := 2 ^ 62.

Section Contents.
Context {A : Type}.
Implicit Types (xa : XArray A) (l : list A) (cells free : list (option A)).

(** The block starts with the elements; it is NULL exactly when it has no
    cells. *)
Definition xa_holds xa l : Prop :=
  1 <= elemSzB xa ∧ usedsizeE xa = Z.of_nat (length l) ∧ usedsizeE xa <= XA_LIMIT ∧
  match arr xa with
  | None => l = [] ∧ totsizeE xa = 0
  | Some cells => totsizeE xa = Z.of_nat (length cells) ∧ 0 < totsizeE xa ∧ ∃ free, cells = (Some <$> l) ++ free
  end.

(** ** Cells *)

Lemma cells_set_end l c free x :
  <[length l := Some x]> ((Some <$> l) ++ c :: free) = (Some <$> (l ++ [x])) ++ free.
Proof.
  rewrite fmap_app, <- app_assoc, insert_app_r_alt by (by rewrite length_fmap).
  by rewrite length_fmap, Nat.sub_diag.
Qed.

Lemma cells_set_mid (l1 l2 : list (option A)) h x :
  <[length l1 := x]> (l1 ++ h :: l2) = l1 ++ x :: l2.
Proof. rewrite insert_app_r_alt by done. by rewrite Nat.sub_diag. Qed.

Lemma blit_down cells1 gap cells2 free :
  ∃ free', blit (cells1 ++ gap ++ cells2 ++ free) (Z.of_nat (length cells1))
      (Z.of_nat (length cells1) + Z.of_nat (length gap)) (Z.of_nat (length cells2)) =
    Ret (cells1 ++ cells2 ++ free') ∧ length free' = (length gap + length free)%nat.
Proof.
  unfold blit. rewrite !length_app. rewrite !(proj2 (Z.leb_le _ _)) by lia. cbn [andb].
  eexists. split.
  - rewrite Nat2Z.id, take_app_length.
    replace (Z.to_nat (Z.of_nat (length cells1) + Z.of_nat (length gap)))
      with (length cells1 + length gap)%nat by lia.
    rewrite <- drop_drop, drop_app_length, drop_app_length, Nat2Z.id, take_app_length. done.
  - rewrite length_drop, !length_app. lia.
Qed.

Lemma blit_up cells1 cells2 c free :
  ∃ h, blit (cells1 ++ cells2 ++ c :: free) (Z.of_nat (length cells1) + 1)
      (Z.of_nat (length cells1)) (Z.of_nat (length cells2)) = Ret (cells1 ++ h :: cells2 ++ free).
Proof.
  unfold blit. rewrite !length_app. cbn [length]. rewrite !(proj2 (Z.leb_le _ _)) by lia. cbn [andb].
  assert (∃ h rest, cells2 ++ c :: free = h :: rest ∧ length rest = (length cells2 + length free)%nat)
    as (h & rest & Hr & Hlen).
  { destruct cells2 as [|h cells2]; [by exists c, free|]. exists h, (cells2 ++ c :: free).
    rewrite length_app. simpl. split; [done|lia]. }
  exists h. f_equal.
  replace (Z.to_nat (Z.of_nat (length cells1) + 1)) with (length cells1 + 1)%nat by lia.
  rewrite !Nat2Z.id, drop_app_length, take_app_length.
  rewrite take_app_add, Hr. simpl. rewrite <- app_assoc. simpl. do 3 f_equal.
  replace (Z.to_nat (Z.of_nat (length cells1) + 1 + Z.of_nat (length cells2)))
    with (length cells1 + S (length cells2))%nat by lia.
  rewrite drop_app_add, <- Hr. change (S (length cells2)) with (1 + length cells2)%nat.
  rewrite Nat.add_comm, drop_app_add. done.
Qed.

(** ** Room for one more element *)

Lemma with_space_ok xa l :
  xa_holds xa l ->
  ∃ xa' c free, with_space xa = Ret (xa', (Some <$> l) ++ c :: free) ∧
    usedsizeE xa' = Z.of_nat (length l) ∧
    totsizeE xa' = Z.of_nat (length ((Some <$> l) ++ c :: free)).
Proof.
  intros (Hsz & Hu & Hlim & Hblk). unfold with_space, ensureSpaceXA.
  destruct (arr xa) as [cells|] eqn:Ea.
  - destruct Hblk as (Ht & Hpos & free & ->). rewrite length_app, length_fmap in Ht.
    destruct (Z.eqb_spec (usedsizeE xa) (totsizeE xa)) as [E|E].
    + assert (free = []) as -> by (destruct free; [done|simpl in Ht; lia]). rewrite app_nil_r in *.
      unfold is_null, new_size. rewrite Ea. rewrite (proj2 (Z.eqb_neq _ _)), (proj2 (Z.ltb_lt 0 (totsizeE xa))) by lia.
      simpl. rewrite (proj2 (Z.ltb_lt 0 (usedsizeE xa))) by lia. unfold block. rewrite Ea. simpl.
      assert (0 <= (3 * totsizeE xa) / 2) by (apply Z.div_pos; lia).
      assert (totsizeE xa <= (3 * totsizeE xa) / 2) by (apply Z.div_le_lower_bound; lia).
      rewrite (proj2 (Z.ltb_lt (usedsizeE xa) _)) by lia. simpl.
      rewrite Hu, Nat2Z.id, take_ge by (by rewrite length_fmap).
      rewrite drop_replicate.
      destruct (Z.to_nat (2 + 3 * totsizeE xa / 2) - length l)%nat as [|k] eqn:Ek; [lia|].
      eexists _, None, (replicate k None). split; [reflexivity|]. split; [done|]. simpl.
      rewrite length_app, length_fmap. simpl. rewrite length_replicate. lia.
    + destruct free as [|c free]; [simpl in Ht; lia|].
      simpl. rewrite (proj2 (Z.ltb_lt _ _)) by (simpl in Ht; lia). unfold is_null, block. rewrite Ea. simpl.
      eexists _, _, _. split; [done|]. split; [done|]. rewrite Ht, length_app, length_fmap. lia.
  - destruct Hblk as (-> & Ht). simpl in Hu. rewrite Hu, Ht. simpl. unfold is_null, new_size. rewrite Ea, Ht. simpl.
    repeat case_bool; simpl; (eexists _, None, _; split; [done|]; split; done).
Qed.

(** ** The operations as list operations *)

Lemma sane_ok xa l : xa_holds xa l -> sane xa = true ∧ 0 <= totsizeE xa.
Proof.
  intros (Hsz & Hu & Hlim & Hblk). unfold sane.
  destruct (arr xa) as [cells|]; [destruct Hblk as (Ht & Hpos & free & ->)|destruct Hblk as [-> Ht]];
    rewrite ?length_app, ?length_fmap in *; simpl in *;
    (split; [apply andb_true_iff; split; apply Z.leb_le|]); lia.
Qed.

Lemma xa_empty_holds sz : 1 <= sz -> ∃ xa, newXA sz = Ret xa ∧ xa_holds xa [].
Proof.
  intros Hsz. unfold newXA, vg_assert. rewrite (proj2 (Z.ltb_lt _ _)) by lia.
  eexists. split; [done|]. repeat split; simpl; try done. 
Qed.

Lemma addToXA_ok xa l x :
  xa_holds xa l -> Z.of_nat (S (length l)) <= XA_LIMIT ->
  ∃ xa', addToXA xa x = Ret (xa', Z.of_nat (length l)) ∧ xa_holds xa' (l ++ [x]).
Proof.
  intros Hok Hlim. destruct (sane_ok xa l Hok) as [Hs Ht]. unfold addToXA, vg_assert.
  rewrite Hs, (proj2 (Z.leb_le _ _)) by done. cbn [mbind outcome_bind].
  destruct (with_space_ok xa l Hok) as (xa' & c & free & -> & Hu' & Ht'). cbn [mbind outcome_bind fst snd].
  rewrite Hu', arr_set_in_range by (rewrite length_app, length_fmap; simpl; lia).
  rewrite Nat2Z.id, cells_set_end. cbn [mbind outcome_bind]. eexists. split; [f_equal; f_equal; lia|].
  split; [apply Hok|]. cbn [usedsizeE arr totsizeE]. rewrite length_app. cbn [length].
  split; [lia|]. split; [lia|]. rewrite Ht', !length_app, !length_fmap, length_app. cbn [length].
  split; [lia|]. split; [lia|]. by exists free.
Qed.

Lemma indexXA_ok xa l i x :
  xa_holds xa l -> l !! i = Some x -> indexXA xa (Z.of_nat i) = Ret x.
Proof.
  intros (Hsz & Hu & Hlim & Hblk) Hi. pose proof (lookup_lt_Some _ _ _ Hi).
  unfold indexXA, vg_assert, u64, XA_LIMIT in *. rewrite !wrap_small by lia.
  rewrite (proj2 (Z.ltb_lt _ _)) by lia. unfold block.
  destruct (arr xa) as [cells|]; [|destruct Hblk as [-> _]; done].
  destruct Hblk as (Ht & Hpos & free & ->). cbn [mbind outcome_bind].
  rewrite (arr_get_Some _ _ (Some x)); [done|lia|].
  rewrite Nat2Z.id, lookup_app_l by (by rewrite length_fmap). by rewrite list_lookup_fmap, Hi.
Qed.

Lemma indexXA_out xa l n :
  xa_holds xa l -> - 2 ^ 63 <= n < 2 ^ 63 -> ¬ 0 <= n < Z.of_nat (length l) ->
  indexXA xa n = Fault AssertFail.
Proof.
  intros (Hsz & Hu & Hlim & _) Hn Hout. unfold indexXA, vg_assert, u64, XA_LIMIT in *.
  rewrite (wrap_small 64 (usedsizeE xa)) by lia. unfold wrap.
  destruct (decide (0 <= n)) as [Hp|Hp].
  - rewrite Z.mod_small by lia. by rewrite (proj2 (Z.ltb_ge _ _)) by lia.
  - rewrite <- (Z.mod_add n 1), Z.mod_small by lia. by rewrite (proj2 (Z.ltb_ge _ _)) by lia.
Qed.

Lemma updateXA_ok xa l i x f :
  xa_holds xa l -> l !! i = Some x ->
  ∃ xa', updateXA xa (Z.of_nat i) f = Ret xa' ∧ xa_holds xa' (<[i := f x]> l).
Proof.
  intros Hok Hi. pose proof (lookup_lt_Some _ _ _ Hi). unfold updateXA.
  rewrite (indexXA_ok xa l i x) by done. cbn [mbind outcome_bind]. unfold block.
  destruct Hok as (Hsz & Hu & Hlim & Hblk).
  destruct (arr xa) as [cells|]; [|destruct Hblk as [-> _]; done].
  destruct Hblk as (Ht & Hpos & free & ->). cbn [mbind outcome_bind].
  rewrite arr_set_in_range by (rewrite length_app, length_fmap; lia). cbn [mbind outcome_bind].
  eexists. split; [done|]. split; [done|]. cbn [usedsizeE arr totsizeE]. rewrite length_insert.
  split; [done|]. split; [done|]. rewrite length_insert. split; [done|]. split; [done|].
  exists free. rewrite Nat2Z.id, insert_app_l by (by rewrite length_fmap). by rewrite list_fmap_insert.
Qed.

Lemma insertIndexXA_ok xa l1 l2 x :
  xa_holds xa (l1 ++ l2) -> Z.of_nat (S (length (l1 ++ l2))) <= XA_LIMIT ->
  ∃ xa', insertIndexXA xa (Z.of_nat (length l1)) x = Ret xa' ∧ xa_holds xa' (l1 ++ x :: l2).
Proof.
  intros Hok Hlim. destruct (sane_ok xa _ Hok) as [Hs Ht]. unfold insertIndexXA, vg_assert.
  pose proof Hok as (Hsz & Hu & _ & _). rewrite length_app in Hu.
  rewrite Hs, !(proj2 (Z.leb_le _ _)) by lia. cbn [mbind outcome_bind].
  destruct (with_space_ok xa _ Hok) as (xa' & c & free & -> & Hu' & Ht'). cbn [mbind outcome_bind fst snd].
  rewrite fmap_app, <- app_assoc in *. rewrite length_app in Hu'.
  assert (∃ h, (if Z.of_nat (length l1) <? usedsizeE xa'
                then blit ((Some <$> l1) ++ (Some <$> l2) ++ c :: free) (Z.of_nat (length l1) + 1)
                       (Z.of_nat (length l1)) (usedsizeE xa' - Z.of_nat (length l1))
                else Ret ((Some <$> l1) ++ (Some <$> l2) ++ c :: free)) =
               Ret ((Some <$> l1) ++ h :: (Some <$> l2) ++ free)) as [h ->].
  { case_bool.
    - replace (usedsizeE xa' - Z.of_nat (length l1)) with (Z.of_nat (length (Some <$> l2)))
        by (rewrite length_fmap; lia).
      rewrite <- (length_fmap Some l1). apply blit_up.
    - destruct l2; [by exists c|simpl in Hu'; lia]. }
  cbn [mbind outcome_bind].
  rewrite arr_set_in_range by (rewrite length_app, length_fmap; simpl; lia). rewrite Nat2Z.id.
  rewrite <- (length_fmap Some l1). rewrite cells_set_mid. cbn [mbind outcome_bind].
  eexists. split; [done|]. split; [done|]. cbn [usedsizeE arr totsizeE].
  rewrite Ht'. rewrite !length_app, ?length_fmap in *. cbn [length] in *. rewrite length_app, ?length_fmap in *.
  cbn [length]. split; [lia|]. split; [lia|]. split; [lia|]. split; [lia|]. exists free.
  by rewrite fmap_app, <- app_assoc.
Qed.

Lemma removeIndexXA_ok xa l1 x l2 :
  xa_holds xa (l1 ++ x :: l2) ->
  ∃ xa', removeIndexXA xa (Z.of_nat (length l1)) = Ret xa' ∧ xa_holds xa' (l1 ++ l2).
Proof.
  intros (Hsz & Hu & Hlim & Hblk). unfold removeIndexXA, vg_assert. rewrite length_app in Hu. cbn [length] in Hu.
  rewrite (proj2 (Z.leb_le _ _)), (proj2 (Z.ltb_lt (Z.of_nat (length l1)) _)) by lia. cbn [mbind outcome_bind].
  unfold block. destruct (arr xa) as [cells|] eqn:Ea; [|by destruct Hblk as [[_ ?]%app_nil _]].
  destruct Hblk as (Ht & Hpos & free & ->). rewrite fmap_app, fmap_cons, <- app_assoc in *.
  cbn [app] in *. rewrite length_app in Ht. cbn [length] in Ht. rewrite length_app, !length_fmap in Ht.
  case_bool.
  - cbn [mbind outcome_bind].
    destruct (blit_down (Some <$> l1) [Some x] (Some <$> l2) free) as (free' & Hm & Hf).
    cbn [app length] in Hm, Hf. rewrite !length_fmap in Hm.
    replace (usedsizeE xa - Z.of_nat (length l1) - 1) with (Z.of_nat (length l2)) by lia.
    change (Z.of_nat 1) with 1 in Hm. rewrite Hm. cbn [mbind outcome_bind].
    eexists. split; [done|]. split; [done|]. cbn [usedsizeE arr totsizeE].
    rewrite !length_app, !length_fmap. split; [lia|]. split; [lia|]. split; [lia|]. split; [lia|].
    exists free'. by rewrite fmap_app, <- app_assoc.
  - destruct l2; [|simpl in *; lia]. rewrite app_nil_r. eexists. split; [done|].
    unfold xa_holds, set_used. cbn [usedsizeE arr totsizeE elemSzB]. rewrite Ea.
    split; [done|]. split; [simpl in *; lia|]. split; [lia|]. rewrite length_app. cbn [length app fmap list_fmap].
    rewrite length_fmap. split; [simpl in *; lia|]. split; [done|]. by exists (Some x :: free).
Qed.

Lemma replaceIndexXA_ok xa l i y :
  xa_holds xa l -> (i < length l)%nat ->
  ∃ xa', replaceIndexXA xa (Z.of_nat i) y = Ret xa' ∧ xa_holds xa' (<[i := y]> l) ∧ is_sorted xa' = false.
Proof.
  intros Hok Hi. destruct (sane_ok xa l Hok) as [Hs _]. unfold replaceIndexXA, vg_assert.
  destruct Hok as (Hsz & Hu & Hlim & Hblk).
  rewrite Hs, (proj2 (Z.leb_le _ _)), (proj2 (Z.ltb_lt _ _)) by lia. cbn [mbind outcome_bind]. unfold block.
  destruct (arr xa) as [cells|]; [|destruct Hblk as [-> _]; simpl in Hi; lia].
  destruct Hblk as (Ht & Hpos & free & ->). cbn [mbind outcome_bind].
  rewrite arr_set_in_range by (rewrite length_app, length_fmap; lia). cbn [mbind outcome_bind].
  eexists. split; [done|]. split; [|done]. split; [done|]. cbn [usedsizeE arr totsizeE]. rewrite !length_insert.
  split; [done|]. split; [done|]. split; [done|]. split; [done|].
  exists free. rewrite Nat2Z.id, insert_app_l by (by rewrite length_fmap). by rewrite list_fmap_insert.
Qed.

Lemma dropTailXA_ok xa l1 l2 :
  xa_holds xa (l1 ++ l2) ->
  ∃ xa', dropTailXA xa (Z.of_nat (length l2)) = Ret xa' ∧ xa_holds xa' l1.
Proof.
  intros (Hsz & Hu & Hlim & Hblk). unfold dropTailXA, vg_assert. rewrite length_app in Hu.
  rewrite !(proj2 (Z.leb_le _ _)) by lia. eexists. split; [done|].
  unfold xa_holds, set_used. cbn [usedsizeE arr totsizeE elemSzB].
  split; [done|]. split; [lia|]. split; [lia|]. destruct (arr xa) as [cells|].
  - destruct Hblk as (Ht & Hpos & free & ->). split; [done|]. split; [done|].
    exists ((Some <$> l2) ++ free). by rewrite fmap_app, <- app_assoc.
  - destruct Hblk as ([-> _]%app_nil & Ht). done.
Qed.

Lemma dropHeadXA_ok xa l1 l2 :
  xa_holds xa (l1 ++ l2) ->
  ∃ xa', dropHeadXA xa (Z.of_nat (length l1)) = Ret xa' ∧ xa_holds xa' l2.
Proof.
  intros Hok. pose proof Hok as (Hsz & Hu & Hlim & Hblk). unfold dropHeadXA, vg_assert. rewrite length_app in Hu.
  rewrite !(proj2 (Z.leb_le _ _)) by lia. cbn [mbind outcome_bind].
  destruct (Z.eqb_spec (Z.of_nat (length l1)) 0) as [E0|E0].
  { destruct l1; [|simpl in E0; lia]. eexists. by split. }
  unfold block. destruct (arr xa) as [cells|] eqn:Ea; [|by destruct Hblk as [[-> _]%app_nil _]].
  destruct Hblk as (Ht & Hpos & free & ->). rewrite fmap_app, <- app_assoc in *.
  rewrite !length_app, !length_fmap in Ht.
  destruct (Z.eqb_spec (Z.of_nat (length l1)) (usedsizeE xa)) as [E1|E1].
  - destruct l2; [|simpl in *; lia]. eexists. split; [done|].
    unfold xa_holds, set_used. cbn [usedsizeE arr totsizeE elemSzB]. rewrite Ea.
    split; [done|]. split; [done|]. split; [unfold XA_LIMIT; lia|].
    rewrite !length_app, !length_fmap. split; [done|]. split; [done|]. by eexists.
  - rewrite !(proj2 (Z.ltb_lt _ _)) by lia. cbn [mbind outcome_bind].
    destruct (blit_down [] (Some <$> l1) (Some <$> l2) free) as (free' & Hm & Hf).
    cbn [app length] in Hm. rewrite !length_fmap in *.
    replace (usedsizeE xa - Z.of_nat (length l1)) with (Z.of_nat (length l2)) by lia.
    change (Z.of_nat 0 + Z.of_nat (length l1)) with (Z.of_nat (length l1)) in Hm.
    change (Z.of_nat 0) with 0 in Hm. rewrite Hm. cbn [mbind outcome_bind].
    eexists. split; [done|]. split; [done|]. cbn [usedsizeE arr totsizeE].
    rewrite !length_app, !length_fmap. split; [lia|]. split; [lia|]. split; [lia|]. split; [lia|]. by exists free'.
Qed.

End Contents.

(** * Binary search *)

Section Search.
Context {A : Type} (xa : XArray A) (l : list A) (Hxa : xa_holds xa l) (g : A -> Z).
Notation n := (Z.of_nat (length l)).

(** [g x] compares the searched key with [x]; it falls along the array. *)
Definition falling : Prop :=
  ∀ i j x y, (i < j)%nat -> l !! i = Some x -> l !! j = Some y -> Z.sgn (g y) <= Z.sgn (g x).

(** The comparison at a position. *)
Definition at_pos (i : Z) (P : Z -> Prop) : Prop := ∃ x, l !! Z.to_nat i = Some x ∧ P (g x).

Lemma index_cmp i : 0 <= i < n -> ∃ x, l !! Z.to_nat i = Some x ∧ indexXA xa i = Ret x.
Proof.
  intros Hi. destruct (lookup_lt_is_Some_2 l (Z.to_nat i)) as [x Hx]; [lia|].
  exists x. split; [done|]. rewrite <- (Z2Nat.id i) by lia. by apply (indexXA_ok xa l).
Qed.

Lemma falling_le i j x y :
  falling -> 0 <= i <= j -> l !! Z.to_nat i = Some x -> l !! Z.to_nat j = Some y -> Z.sgn (g y) <= Z.sgn (g x).
Proof.
  intros Hf Hij Hx Hy. destruct (decide (i = j)) as [->|]; [by simplify_eq|].
  apply (Hf (Z.to_nat i) (Z.to_nat j)); [lia|done|done].
Qed.

Lemma expand_first_ok fuel : ∀ mid,
  0 <= mid < n -> (Z.to_nat mid < fuel)%nat -> at_pos mid (fun c => c = 0) ->
  ∃ first, expand_first fuel xa (fun x => Ret (g x)) mid = Ret first ∧ 0 <= first <= mid ∧
    (∀ i, first <= i <= mid -> at_pos i (fun c => c = 0)) ∧
    (0 < first -> at_pos (first - 1) (fun c => c ≠ 0)).
Proof.
  induction fuel as [|fuel IH]; intros mid Hm Hf H0; [lia|]. cbn [expand_first]. case_bool.
  - destruct (index_cmp (mid - 1)) as (x & Hx & ->); [lia|]. cbn [mbind outcome_bind]. case_bool.
    + destruct (IH (mid - 1)) as (first & -> & Hr & Hall & Hstop); [lia|lia|by exists x|].
      exists first. split; [done|]. split; [lia|]. split; [|done].
      intros i Hi. destruct (decide (i = mid)) as [->|]; [done|]. apply Hall. lia.
    + exists mid. split; [done|]. split; [lia|]. split; [|by exists x].
      intros i Hi. replace i with mid by lia. done.
  - exists mid. split; [done|]. split; [lia|]. split; [|lia]. intros i Hi. by replace i with mid by lia.
Qed.

Lemma expand_last_ok fuel : ∀ mid,
  0 <= mid < n -> (Z.to_nat (n - mid) <= fuel)%nat -> at_pos mid (fun c => c = 0) ->
  ∃ last, expand_last fuel xa (fun x => Ret (g x)) mid = Ret last ∧ mid <= last < n ∧
    (∀ i, mid <= i <= last -> at_pos i (fun c => c = 0)) ∧
    (last < n - 1 -> at_pos (last + 1) (fun c => c ≠ 0)).
Proof.
  assert (usedsizeE xa = n) as Hu by apply Hxa.
  induction fuel as [|fuel IH]; intros mid Hm Hf H0; [lia|]. cbn [expand_last]. rewrite Hu. case_bool.
  - destruct (index_cmp (mid + 1)) as (x & Hx & ->); [lia|]. cbn [mbind outcome_bind]. case_bool.
    + destruct (IH (mid + 1)) as (last & -> & Hr & Hall & Hstop); [lia|lia|by exists x|].
      exists last. split; [done|]. split; [lia|]. split; [|done].
      intros i Hi. destruct (decide (i = mid)) as [->|]; [done|]. apply Hall. lia.
    + exists mid. split; [done|]. split; [lia|]. split; [|by exists x].
      intros i Hi. replace i with mid by lia. done.
  - exists mid. split; [done|]. split; [lia|]. split; [|lia]. intros i Hi. by replace i with mid by lia.
Qed.

(** What a search returns: the positions that compare equal. *)
Definition search_result (res : option (Z * Z)) : Prop :=
  match res with
  | None => ∀ i, 0 <= i < n -> at_pos i (fun c => c ≠ 0)
  | Some (first, last) =>
      0 <= first <= last ∧ last < n ∧
      ∀ i, 0 <= i < n -> at_pos i (fun c => c = 0 <-> first <= i <= last)
  end.

Lemma lookup_loop_ok fuel : ∀ lo hi,
  falling -> 0 <= lo -> hi < n -> lo <= hi + 1 -> (Z.to_nat (hi + 1 - lo) < fuel)%nat ->
  (∀ i, 0 <= i < lo -> at_pos i (fun c => 0 < c)) -> (∀ i, hi < i < n -> at_pos i (fun c => c < 0)) ->
  ∃ res, lookup_loop fuel xa (fun x => Ret (g x)) lo hi = Ret res ∧ search_result res.
Proof.
  induction fuel as [|fuel IH]; intros lo hi Hfall Hlo Hhi Hle Hf Hbelow Habove; [lia|].
  cbn [lookup_loop]. case_bool.
  - exists None. split; [done|]. intros i Hi. destruct (decide (i < lo)) as [Hl|Hl].
    + destruct (Hbelow i) as (x & ? & ?); [lia|]. exists x. split; [done|lia].
    + destruct (Habove i) as (x & ? & ?); [lia|]. exists x. split; [done|lia].
  - rewrite Z.quot_div_nonneg by lia. set (mid := (lo + hi) / 2).
    assert (lo <= mid <= hi) as Hm
      by (subst mid; split; [apply Z.div_le_lower_bound|apply Z.div_le_upper_bound]; lia).
    destruct (index_cmp mid) as (x & Hx & ->); [lia|]. cbn [mbind outcome_bind].
    destruct (Z.ltb_spec (g x) 0) as [E1|E1]; [|destruct (Z.ltb_spec 0 (g x)) as [E2|E2]].
    + apply IH; try lia; try done. intros i Hi. destruct (index_cmp i) as (y & Hy & _); [lia|].
      exists y. split; [done|]. pose proof (falling_le mid i x y Hfall ltac:(lia) Hx Hy). lia.
    + apply IH; try lia; try done. intros i Hi. destruct (index_cmp i) as (y & Hy & _); [lia|].
      exists y. split; [done|]. pose proof (falling_le i mid y x Hfall ltac:(lia) Hy Hx). lia.
    + assert (Hx0 : at_pos mid (fun c => c = 0)) by (exists x; split; [done|lia]).
      destruct (index_cmp lo) as (xl & Hxl & ->); [lia|]. destruct (index_cmp hi) as (xh & Hxh & ->); [lia|].
      pose proof (falling_le lo mid xl x Hfall ltac:(lia) Hxl Hx).
      pose proof (falling_le mid hi x xh Hfall ltac:(lia) Hx Hxh).
      cbn [mbind outcome_bind]. unfold vg_assert. rewrite !(proj2 (Z.leb_le _ _)) by lia. cbn [mbind outcome_bind].
      destruct (expand_first_ok (S (Z.to_nat mid)) mid) as (first & -> & Hfr & Hfa & Hfs); [lia|lia|done|].
      destruct (expand_last_ok (S (Z.to_nat (usedsizeE xa))) mid) as (last & -> & Hla & Hll & Hls);
        [lia|destruct Hxa as (_ & -> & _); lia|done|].
      cbn [mbind outcome_bind]. eexists. split; [done|]. split; [lia|]. split; [lia|].
      intros i Hi. destruct (index_cmp i) as (y & Hy & _); [lia|]. exists y. split; [done|].
      destruct (decide (i < first)) as [Hc|Hc]; [|destruct (decide (last < i)) as [Hc'|Hc']].
      * destruct Hfs as (z & Hz & Hz0); [lia|]. destruct (Hfa first) as (w & Hw & Hw0); [lia|].
        pose proof (falling_le (first - 1) first z w Hfall ltac:(lia) Hz Hw).
        pose proof (falling_le i (first - 1) y z Hfall ltac:(lia) Hy Hz). lia.
      * destruct Hls as (z & Hz & Hz0); [lia|]. destruct (Hll last) as (w & Hw & Hw0); [lia|].
        pose proof (falling_le last (last + 1) w z Hfall ltac:(lia) Hw Hz).
        pose proof (falling_le (last + 1) i z y Hfall ltac:(lia) Hz Hy). lia.
      * split; [lia|]. intros _. destruct (decide (i <= mid)).
        -- destruct (Hfa i) as (z & Hz & Hz0); [lia|]. by simplify_eq.
        -- destruct (Hll i) as (z & Hz & Hz0); [lia|]. by simplify_eq.
Qed.

End Search.

Lemma lookup_found {A} (xa : XArray A) l g :
  xa_holds xa l -> falling l g ->
  ∃ res, lookupXA_UNSAFE xa (fun x => Ret (g x)) = Ret res ∧ search_result l g res.
Proof.
  intros Hok Hf. unfold lookupXA_UNSAFE. pose proof Hok as (_ & -> & _).
  apply lookup_loop_ok; try done; lia.
Qed.

Lemma search_result_None {A} (l : list A) g res : search_result l g res -> res = None <-> ∀ x, x ∈ l -> g x ≠ 0.
Proof.
  intros Hres. split.
  - intros -> x (i & Hi)%list_elem_of_lookup. pose proof (lookup_lt_Some _ _ _ Hi).
    destruct (Hres (Z.of_nat i)) as (y & Hy & Hne); [lia|]. rewrite Nat2Z.id, Hi in Hy. by injection Hy as ->.
  - intros Hno. destruct res as [[first last]|]; [|done]. destruct Hres as (Hfl & Hl & Hall).
    destruct (Hall first) as (x & Hx & Heq); [lia|]. exfalso. apply (Hno x); [by apply list_elem_of_lookup_2 in Hx|].
    apply Heq. lia.
Qed.

Lemma read_cells_ok {A} (l : list A) (free : list (option A)) :
  read_cells ((Some <$> l) ++ free) (Z.of_nat (length l)) = Ret l.
Proof.
  unfold read_cells. rewrite Nat2Z.id, take_app_length' by (by rewrite length_fmap).
  assert (mapM id (Some <$> l) = Some l) as -> by (apply mapM_fmap_Some; done).
  by rewrite (proj2 (Z.leb_le _ _)) by (rewrite length_app, length_fmap; lia).
Qed.

(** Comparing a key with the elements of an ordered list. *)
Lemma in_order_falling {A} (f : A -> A -> Z) `{!CmpOrder f} l key : in_order f l -> falling l (f key).
Proof.
  intros Ho i j x y Hij Hx Hy.
  assert (Hxy : f x y <= 0).
  { clear -Ho Hij Hx Hy. revert i j Hij Hx Hy. induction Ho as [|z l Ho IH Hz]; intros [|i] [|j] Hij Hx Hy; try done; try lia.
    - injection Hx as ->. simpl in Hy. by apply (Forall_lookup_1 _ _ _ _ Hz) in Hy.
    - simpl in *. apply (IH i j); [lia|done|done]. }
  pose proof (cmp_trans key x y) as T1. pose proof (cmp_trans x y key) as T2.
  pose proof (cmp_sym key x). pose proof (cmp_sym x key). pose proof (cmp_sym key y). pose proof (cmp_sym y key). lia.
Qed.

Lemma sortXA_ok {A} (f : A -> A -> Z) `{!CmpOrder f} addr (xa : XArray A) l :
  xa_holds xa l -> cmpFn xa = Some f ->
  ∃ xa' l', sortXA addr xa = Ret xa' ∧ xa_holds xa' l' ∧ l' ≡ₚ l ∧ in_order f l' ∧
    cmpFn xa' = Some f ∧ is_sorted xa' = true.
Proof.
  intros (Hsz & Hu & Hlim & Hblk) Hf. unfold sortXA. rewrite Hf.
  assert (read_cells (default [] (arr xa)) (usedsizeE xa) = Ret l) as ->.
  { rewrite Hu. destruct (arr xa) as [cells|]; simpl.
    - destruct Hblk as (_ & _ & free & ->). apply read_cells_ok.
    - destruct Hblk as [-> _]. done. }
  cbn [mbind outcome_bind]. rewrite Hu. destruct (ssort_sorts_list f addr (elemSzB xa) l) as (ys & -> & Hp & Ho).
  cbn [mbind outcome_bind]. eexists _, ys. split; [done|]. split; [|done].
  pose proof (Permutation_length Hp) as Hlen. split; [done|]. cbn [usedsizeE arr totsizeE]. split; [lia|]. split; [lia|].
  destruct (arr xa) as [cells|]; simpl.
  - destruct Hblk as (Ht & Hpos & free & ->). rewrite Nat2Z.id, drop_app_length' by (by rewrite length_fmap).
    split; [rewrite Ht, !length_app, !length_fmap; lia|]. split; [done|]. by exists free.
  - destruct Hblk as [-> Ht]. apply Permutation_nil_r in Hp as ->. done.
Qed.

(** * Properties *)

(** C9: on an array that holds the list [l], adding, inserting, removing,
    replacing and dropping elements act as the list operations do, for every
    capacity and state of the block: no assertion fails, no access leaves the
    block, and only written cells are read. *)
Theorem xarray_refines_list {A} (xa : XArray A) (l1 l2 : list A) x :
  xa_holds xa (l1 ++ l2) -> Z.of_nat (S (length (l1 ++ l2))) <= XA_LIMIT ->
  sizeXA xa = Z.of_nat (length (l1 ++ l2)) ∧
  (∃ xa', addToXA xa x = Ret (xa', Z.of_nat (length (l1 ++ l2))) ∧ xa_holds xa' ((l1 ++ l2) ++ [x])) ∧
  (∃ xa', insertIndexXA xa (Z.of_nat (length l1)) x = Ret xa' ∧ xa_holds xa' (l1 ++ x :: l2)) ∧
  (∃ xa', dropHeadXA xa (Z.of_nat (length l1)) = Ret xa' ∧ xa_holds xa' l2) ∧
  (∃ xa', dropTailXA xa (Z.of_nat (length l2)) = Ret xa' ∧ xa_holds xa' l1) ∧
  (∀ y l3, l2 = y :: l3 ->
     indexXA xa (Z.of_nat (length l1)) = Ret y ∧
     (∃ xa', removeIndexXA xa (Z.of_nat (length l1)) = Ret xa' ∧ xa_holds xa' (l1 ++ l3)) ∧
     (∃ xa', replaceIndexXA xa (Z.of_nat (length l1)) x = Ret xa' ∧ xa_holds xa' (l1 ++ x :: l3))).
Proof.
  intros Hok Hlim. split; [apply Hok|]. split; [by apply addToXA_ok|]. split; [by apply insertIndexXA_ok|].
  split; [by apply dropHeadXA_ok|]. split; [by apply dropTailXA_ok|].
  intros y l3 ->. split; [|split].
  - eapply indexXA_ok; [done|]. by rewrite lookup_app_r, Nat.sub_diag.
  - by eapply removeIndexXA_ok.
  - destruct (replaceIndexXA_ok xa (l1 ++ y :: l3) (length l1) x Hok) as (xa' & He & Hh & _).
    { rewrite length_app. simpl. lia. }
    exists xa'. split; [done|]. rewrite insert_app_r_alt, Nat.sub_diag in Hh by done. done.
Qed.

(** On an array whose elements are in order for the comparison with the
    searched key, [lookupXA_UNSAFE] terminates without a failed assertion; it
    returns False exactly when no element compares equal, and otherwise the
    first and the last position of those that do. *)
Theorem lookupXA_UNSAFE_finds {A} (xa : XArray A) l g :
  xa_holds xa l -> falling l g ->
  ∃ res, lookupXA_UNSAFE xa (fun x => Ret (g x)) = Ret res ∧ search_result l g res.
Proof.
  apply lookup_found.
Qed.

(** Sorting and searching compose: [sortXA] with a comparison that is a
    total preorder puts the same elements in order, and [lookupXA] on the result
    passes its assertions and returns the exact interval of the elements equal to
    the key, or False when the array had none. *)
Theorem sortXA_lookupXA {A} (f : A -> A -> Z) `{!CmpOrder f} addr (xa : XArray A) l key :
  xa_holds xa l -> cmpFn xa = Some f ->
  ∃ xa' l' res, sortXA addr xa = Ret xa' ∧ xa_holds xa' l' ∧ l' ≡ₚ l ∧ in_order f l' ∧
    lookupXA xa' key = Ret res ∧ search_result l' (f key) res ∧ (res = None <-> ∀ x, x ∈ l -> f key x ≠ 0).
Proof.
  intros Hxa Hf. destruct (sortXA_ok f addr xa l Hxa Hf) as (xa' & l' & He & Hxa' & Hp & Ho & Hf' & Hs).
  destruct (lookup_found xa' l' (f key) Hxa' (in_order_falling f l' key Ho)) as (res & Hr & Hres).
  exists xa', l', res. split; [done|]. split; [done|]. split; [done|]. split; [done|]. split.
  { unfold lookupXA. by rewrite Hf', Hs. }
  split; [done|]. rewrite (search_result_None l' (f key) res Hres). by setoid_rewrite Hp.
Qed.

(** A clone holds the same elements, but an array that has a block and no
    elements (a size hint, or all its elements dropped) has a clone to which
    nothing can be added: [ensureSpaceXA] finds a block of size 0 that is not
    NULL, and its assertion fails. *)
Theorem cloneXA_add {A} (xa : XArray A) l x :
  xa_holds xa l -> Z.of_nat (S (length l)) <= XA_LIMIT ->
  ∃ nyu, cloneXA xa = Ret nyu ∧
    if decide (l = [] ∧ arr xa ≠ None) then addToXA nyu x = Fault AssertFail
    else xa_holds nyu l ∧ ∃ nyu', addToXA nyu x = Ret (nyu', Z.of_nat (length l)) ∧ xa_holds nyu' (l ++ [x]).
Proof.
  intros Hok Hlim. pose proof Hok as (Hsz & Hu & Hul & Hblk). unfold cloneXA, vg_assert.
  rewrite (proj2 (Z.leb_le _ _)) by done. cbn [mbind outcome_bind].
  destruct (arr xa) as [cells|] eqn:Ea.
  - destruct Hblk as (Ht & Hpos & free & ->). rewrite length_app, length_fmap.
    rewrite (proj2 (Z.leb_le _ _)) by lia. eexists. split; [done|].
    rewrite Hu, Nat2Z.id. rewrite take_app_length' by (by rewrite length_fmap). case_decide as Hd.
    + destruct Hd as [-> _]. done.
    + assert (l ≠ []) as Hl by naive_solver.
      assert (Hn : xa_holds (XA (cmpFn xa) (elemSzB xa) (Some (Some <$> l)) (Z.of_nat (length l))
                  (Z.of_nat (length l)) (is_sorted xa)) l).
      { split; [done|]. split; [done|]. split; [simpl; lia|]. simpl. rewrite length_fmap.
        split; [done|]. split; [destruct l; [done|simpl; lia]|]. exists []. by rewrite app_nil_r. }
      split; [done|]. by apply addToXA_ok.
  - exists xa. split; [done|]. rewrite decide_False by naive_solver. split; [done|]. by apply addToXA_ok.
Qed.

(** * The interface holds *)

(** Arrays of elements of [sz] bytes. *)
Definition xarray_indexed {A} (sz : Z) : IndexedArray (XArray A) A := {|
  ia_empty := newXA sz;
  ia_size := sizeXA;
  ia_index := indexXA;
  ia_update := updateXA;
  ia_add := addToXA;
  ia_insert := insertIndexXA;
  ia_remove := removeIndexXA;
|}.

Definition xarray_laws {A} (sz : Z) (Hsz : 1 <= sz) :
  @IndexedArrayLaws (XArray A) A (xarray_indexed sz) :=
  @Build_IndexedArrayLaws (XArray A) A (xarray_indexed sz) xa_holds XA_LIMIT
    (xa_empty_holds sz Hsz) (fun t l H => proj1 (proj2 H)) indexXA_ok updateXA_ok addToXA_ok
    insertIndexXA_ok removeIndexXA_ok.

(** * Witnesses *)

Definition demo_xa : XArray Z := XA None 8 (Some [Some 2; Some 4; Some 4; Some 9; None]) 4 5 false.

Lemma demo_xa_holds : xa_holds demo_xa [2; 4; 4; 9].
Proof.
  split; [simpl; lia|]. split; [done|]. split; [unfold XA_LIMIT; simpl; lia|].
  split; [done|]. split; [simpl; lia|]. by exists [None].
Qed.

Lemma xarray_refines_list_witness :
  ∃ xa', insertIndexXA demo_xa 1 7 = Ret xa' ∧ xa_holds xa' [2; 7; 4; 4; 9].
Proof.
  destruct (xarray_refines_list demo_xa [2] [4; 4; 9] 7 demo_xa_holds) as (_ & _ & H & _).
  - unfold XA_LIMIT. simpl. lia.
  - exact H.
Defined.

Lemma lookupXA_UNSAFE_finds_witness :
  falling [2; 4; 4; 9] (fun x => 4 - x) ∧
  ∃ res, lookupXA_UNSAFE demo_xa (fun x => Ret (4 - x)) = Ret res ∧ search_result [2; 4; 4; 9] (fun x => 4 - x) res.
Proof.
  assert (Hf : falling [2; 4; 4; 9] (fun x => 4 - x)).
  { intros i j x y Hij Hx Hy.
    destruct i as [|[|[|[|i]]]], j as [|[|[|[|j]]]]; simpl in *; simplify_eq; lia. }
  split; [exact Hf|]. exact (lookupXA_UNSAFE_finds demo_xa _ _ demo_xa_holds Hf).
Defined.

Definition cmp_xa : XArray Z := XA (Some Z.sub) 8 (Some [Some 9; Some 4; Some 2; Some 4; None]) 4 5 false.

Lemma sortXA_lookupXA_witness :
  ∃ xa' l' res, sortXA 4096 cmp_xa = Ret xa' ∧ xa_holds xa' l' ∧ l' ≡ₚ [9; 4; 2; 4] ∧ in_order Z.sub l' ∧
    lookupXA xa' 4 = Ret res ∧ search_result l' (Z.sub 4) res ∧ (res = None <-> ∀ x, x ∈ [9; 4; 2; 4] -> Z.sub 4 x ≠ 0).
Proof.
  apply (sortXA_lookupXA Z.sub 4096 cmp_xa [9; 4; 2; 4] 4); [|reflexivity].
  split; [simpl; lia|]. split; [done|]. split; [unfold XA_LIMIT; simpl; lia|].
  split; [done|]. split; [simpl; lia|]. by exists [None].
Defined.

(** All elements dropped: the clone cannot grow. *)
Definition dropped_xa : XArray Z := XA None 8 (Some [Some 2; None]) 0 2 false.

Lemma cloneXA_add_witness :
  ∃ nyu, cloneXA dropped_xa = Ret nyu ∧ addToXA nyu 5 = Fault AssertFail.
Proof.
  destruct (cloneXA_add dropped_xa [] 5) as (nyu & Hc & Ha).
  - split; [simpl; lia|]. split; [done|]. split; [unfold XA_LIMIT; simpl; lia|].
    split; [done|]. split; [simpl; lia|]. by eexists.
  - unfold XA_LIMIT. simpl. lia.
  - exists nyu. split; [exact Hc|]. exact Ha.
Defined.
