(* ===== verification/PoolAlloc.v ===== *)
(** * coregrind/m_poolalloc.c

    Pools of elements of one size. The free elements are linked through their
    first words, which lie in memory that clients share: memory is a map from
    addresses to words, and only the words that a pool reads or writes are in it.
    0 is NULL. *)

From S2P Require Import Prelude XArray.
From stdpp Require Import gmap fin_maps.
Local Open Scope Z_scope.

Notation words := (gmap Z Z).

(** * Definitions *)

Record PoolAlloc := PA {
  nrRef : Z;
  elemSzB : Z;
  nPerPool : Z;
  pools : XArray Z;
  nextFree : Z }.

Definition newPA (elemSzB nPerPool : Z) : outcome PoolAlloc :=
  _ ← vg_assert (elemSzB mod 8 =? 0);
  _ ← vg_assert (8 <=? elemSzB);
  _ ← vg_assert (100 <=? nPerPool);
  pools ← newXA 8;
  Ret (PA 0 elemSzB nPerPool pools 0).

Definition with_pools (xa : XArray Z) (pa : PoolAlloc) : PoolAlloc :=
  PA (nrRef pa) (elemSzB pa) (nPerPool pa) xa (nextFree pa).
Definition with_nextFree (p : Z) (pa : PoolAlloc) : PoolAlloc :=
  PA (nrRef pa) (elemSzB pa) (nPerPool pa) (pools pa) p.
Definition with_nrRef (n : Z) (pa : PoolAlloc) : PoolAlloc :=
  PA n (elemSzB pa) (nPerPool pa) (pools pa) (nextFree pa).

(** The blocks given to [free_fn], in order. The array of pools and the record itself,
    which are freed behind them, have no address in the model. *)
Definition deletePA (pa : PoolAlloc) : outcome (list Z) :=
  _ ← vg_assert (nrRef pa =? 0);
  for_up 0 (sizeXA (pools pa)) (fun i freed => p ← indexXA (pools pa) i; Ret (freed ++ [p])) [].

(** Put the element at index [i] of the block [pool] onto the list. *)
Definition link (elemSzB pool i : Z) (s : words * Z) : outcome (words * Z) :=
  let elem := u64 (pool + i * elemSzB) in
  _ ← vg_assert (elem mod 8 =? 0);
  Ret (<[elem := s.2]> s.1, elem).

(** [pool] is what [alloc_fn] returned. *)
Definition pal_add_new_pool (pa : PoolAlloc) (h : words) (pool : Z) : outcome (PoolAlloc * words) :=
  _ ← vg_assert (nextFree pa =? 0);
  s ← for_down (nPerPool pa) 0 (link (elemSzB pa) pool) (h, nextFree pa);
  r ← addToXA (pools pa) pool;
  Ret (with_nextFree s.2 (with_pools r.1 pa), s.1).

Definition sizePA (pa : PoolAlloc) : Z := u64 (nPerPool pa * sizeXA (pools pa)).

(** The first word of an element. *)
Definition load_word (h : words) (p : Z) : outcome Z :=
  if p =? 0 then Fault NullDeref else match h !! p with Some w => Ret w | None => Fault OutOfBounds end.

Definition allocEltPA (pa : PoolAlloc) (h : words) (pool : Z) : outcome (PoolAlloc * words * Z) :=
  s ← (if nextFree pa =? 0 then pal_add_new_pool pa h pool else Ret (pa, h));
  let elem := nextFree s.1 in
  next ← load_word s.2 elem;
  Ret (with_nextFree next s.1, <[elem := 0]> s.2, elem).

Definition freeEltPA (pa : PoolAlloc) (h : words) (p : Z) : outcome (PoolAlloc * words) :=
  if p =? 0 then Fault NullDeref else Ret (with_nextFree p pa, <[p := nextFree pa]> h).

Definition addRefPA (pa : PoolAlloc) : PoolAlloc := with_nrRef (u64 (nrRef pa + 1)) pa.

(** The new count, and the blocks that are freed when it is 0. *)
Definition releasePA (pa : PoolAlloc) : outcome (PoolAlloc * Z * list Z) :=
  _ ← vg_assert (0 <? nrRef pa);
  let pa := with_nrRef (nrRef pa - 1) pa in
  freed ← (if nrRef pa =? 0 then deletePA pa else Ret []);
  Ret (pa, nrRef pa, freed).

(** * Lemmas *)

Section Pool.
Implicit Types (pa : PoolAlloc) (h : words) (free used blocks : list Z).

(** The elements of a block and of all blocks. *)
Definition slots_of (sz n pool : Z) : list Z := (fun i => pool + i * sz) <$> seqZ 0 n.
Definition slots (sz n : Z) (blocks : list Z) : list Z := blocks ≫= slots_of sz n.

(** A block that [alloc_fn] may return: aligned, not NULL, within the address
    space. *)
Definition block_ok (sz n pool : Z) : Prop := 0 < pool ∧ pool mod 8 = 0 ∧ pool + n * sz <= 2 ^ 64.

(** Blocks do not overlap. *)
Definition apart (len p q : Z) : Prop := p + len <= q ∨ q + len <= p.

(** The list from [p] through the first words ends with NULL. *)
Fixpoint chain h (p : Z) (l : list Z) : Prop :=
  match l with
  | [] => p = 0
  | q :: l => p = q ∧ q ≠ 0 ∧ ∃ r, h !! q = Some r ∧ chain h r l
  end.

(** The pool and the memory: the free elements are chained, and they and the
    elements in use are the elements of the blocks, each once. *)
Record pool_ok pa h blocks free used : Prop := {
  po_size : elemSzB pa mod 8 = 0 ∧ 8 <= elemSzB pa;
  po_num : 100 <= nPerPool pa < 2 ^ 63;
  po_pools : xa_holds (pools pa) blocks;
  po_blocks : Forall (block_ok (elemSzB pa) (nPerPool pa)) blocks;
  po_apart : ∀ i j p q, blocks !! i = Some p -> blocks !! j = Some q -> i ≠ j ->
    apart (nPerPool pa * elemSzB pa) p q;
  po_chain : chain h (nextFree pa) free;
  po_slots : free ++ used ≡ₚ slots (elemSzB pa) (nPerPool pa) blocks }.

Lemma slots_of_in sz n pool x : x ∈ slots_of sz n pool <-> ∃ i, x = pool + i * sz ∧ 0 <= i < n.
Proof.
  unfold slots_of. rewrite list_elem_of_fmap. split; intros (i & -> & Hi); exists i; split; try done.
  - apply elem_of_seqZ in Hi. lia.
  - apply elem_of_seqZ. lia.
Qed.

Lemma slots_in sz n blocks x :
  x ∈ slots sz n blocks <-> ∃ b i, blocks !! b = Some i ∧ x ∈ slots_of sz n i.
Proof.
  unfold slots. rewrite list_elem_of_bind. split.
  - intros (p & Hx & Hp). apply list_elem_of_lookup in Hp as [b Hb]. by exists b, p.
  - intros (b & p & Hb & Hx). exists p. split; [done|]. by eapply list_elem_of_lookup_2.
Qed.

Lemma slots_of_NoDup sz n pool : 8 <= sz -> NoDup (slots_of sz n pool).
Proof. intros Hsz. apply NoDup_fmap_2; [|apply NoDup_seqZ]. intros i j. nia. Qed.

(** Elements of one block and of two blocks that are apart. *)
Lemma slots_of_apart sz n pool x y :
  8 <= sz -> x ∈ slots_of sz n pool -> y ∈ slots_of sz n pool -> x ≠ y -> apart sz x y.
Proof.
  intros Hsz (i & -> & Hi)%slots_of_in (j & -> & Hj)%slots_of_in Hne. unfold apart.
  assert (i ≠ j) by (by intros ->). destruct (decide (i < j)); [left|right]; nia.
Qed.

Lemma blocks_apart sz n p q x y :
  8 <= sz -> apart (n * sz) p q -> x ∈ slots_of sz n p -> y ∈ slots_of sz n q -> apart sz x y.
Proof.
  intros Hsz Ha (i & -> & Hi)%slots_of_in (j & -> & Hj)%slots_of_in. unfold apart in *.
  destruct Ha; [left|right]; nia.
Qed.

Lemma apart_ne sz x y : 0 < sz -> apart sz x y -> x ≠ y.
Proof. unfold apart. lia. Qed.

Definition all_apart (len : Z) blocks : Prop :=
  ∀ i j p q, blocks !! i = Some p -> blocks !! j = Some q -> i ≠ j -> apart len p q.

Lemma slots_apart sz n blocks x y :
  8 <= sz -> all_apart (n * sz) blocks -> x ∈ slots sz n blocks -> y ∈ slots sz n blocks -> x ≠ y -> apart sz x y.
Proof.
  intros Hsz Hb (b & p & Hp & Hx)%slots_in (c & q & Hq & Hy)%slots_in Hne.
  destruct (decide (b = c)) as [->|Hbc].
  - assert (p = q) as -> by congruence. by eapply slots_of_apart.
  - eapply (blocks_apart sz n p q); [done|by apply (Hb b c)|done|done].
Qed.

Lemma all_apart_tail len p blocks :
  all_apart len (p :: blocks) -> all_apart len blocks ∧ ∀ q, q ∈ blocks -> apart len p q.
Proof.
  intros Hb. split.
  - intros i j x y Hx Hy Hij. apply (Hb (S i) (S j)); [done|done|lia].
  - intros q [j Hj]%list_elem_of_lookup. by apply (Hb 0%nat (S j)).
Qed.

Lemma slots_NoDup sz n blocks : 8 <= sz -> all_apart (n * sz) blocks -> NoDup (slots sz n blocks).
Proof.
  intros Hsz. induction blocks as [|p blocks IH]; intros Hb; [constructor|].
  apply all_apart_tail in Hb as [Hb Hp]. unfold slots. rewrite bind_cons. apply NoDup_app. split; [by apply slots_of_NoDup|].
  split; [|by apply IH]. intros x Hx (b & q & Hq & Hy)%slots_in.
  apply list_elem_of_lookup_2 in Hq. pose proof (blocks_apart sz n p q x x Hsz (Hp q Hq) Hx Hy). unfold apart in *. lia.
Qed.

Lemma all_apart_snoc len blocks p :
  all_apart len blocks -> Forall (apart len p) blocks -> all_apart len (blocks ++ [p]).
Proof.
  intros Hb Hp i j x y Hx Hy Hij. rewrite Forall_lookup in Hp.
  apply lookup_app_Some in Hx as [Hx|[? Hx]]; apply lookup_app_Some in Hy as [Hy|[? Hy]].
  - by apply (Hb i j).
  - apply list_lookup_singleton_Some in Hy as [? <-]. specialize (Hp i x Hx). unfold apart in *. lia.
  - apply list_lookup_singleton_Some in Hx as [? <-]. by apply (Hp j).
  - apply list_lookup_singleton_Some in Hx as [? <-]. apply list_lookup_singleton_Some in Hy as [? <-]. lia.
Qed.

(** ** Chains *)

Lemma chain_agree h h' l : ∀ p, (∀ a, a ∈ l -> h' !! a = h !! a) -> chain h p l -> chain h' p l.
Proof.
  induction l as [|q l IH]; intros p Hag; [done|]. cbn [chain]. intros (-> & Hq & r & Hr & Hc).
  split; [done|]. split; [done|]. exists r. split; [by rewrite Hag by left|]. apply IH; [|done].
  intros a Ha. apply Hag. by right.
Qed.

(** ** The loop over a new block *)

Lemma link_loop_ok sz n pool h p :
  8 <= sz -> sz mod 8 = 0 -> 0 <= n -> block_ok sz n pool -> p = 0 ->
  ∃ h' q, for_down n 0 (link sz pool) (h, p) = Ret (h', q) ∧ chain h' q (slots_of sz n pool) ∧
    (∀ a, a ∉ slots_of sz n pool -> h' !! a = h !! a).
Proof.
  intros Hsz Hal Hn (Hpos & Hpal & Hend) ->.
  edestruct (for_down_inv (fun i s => chain s.1 s.2 ((fun k => pool + k * sz) <$> seqZ i (n - i)) ∧
    ∀ a, a ∉ slots_of sz n pool -> s.1 !! a = h !! a) n 0 (link sz pool) (h, 0))
    as ([h' q] & Hs & Hc & Ho); [done| | |].
  - rewrite Z.sub_diag. split; [done|]. done.
  - intros i [h1 q1] Hi [Hc Ho]. cbn [fst snd] in *. unfold link, u64, vg_assert.
    assert (0 <= i * sz /\ i * sz + sz <= n * sz) by nia.
    rewrite wrap_small by lia.
    assert ((pool + i * sz) mod 8 = 0) as -> by (rewrite Z.add_mod, Z.mul_mod, Hal, Hpal, Z.mul_0_r by lia; done).
    cbn [mbind outcome_bind]. eexists. split; [done|]. cbn [fst snd]. split.
    + rewrite seqZ_cons by lia. replace (Z.succ i) with (i + 1) by lia. replace (Z.pred (n - i)) with (n - (i + 1)) by lia.
      rewrite fmap_cons. cbn [chain]. split; [done|]. split; [lia|]. exists q1. rewrite lookup_insert_eq. split; [done|].
      eapply chain_agree; [|done]. intros a (k & -> & Hk)%list_elem_of_fmap. apply elem_of_seqZ in Hk.
      rewrite lookup_insert_ne; [done|]. nia.
    + intros a Ha. rewrite lookup_insert_ne; [by apply Ho|]. intros <-. apply Ha. apply slots_of_in. by exists i.
  - exists h', q. rewrite Z.sub_0_r in Hc. done.
Qed.

(** ** The operations *)

Lemma newPA_ok sz n : 8 <= sz -> sz mod 8 = 0 -> 100 <= n < 2 ^ 63 ->
  ∃ pa, newPA sz n = Ret pa ∧ pool_ok pa ∅ [] [] [] ∧ elemSzB pa = sz ∧ nPerPool pa = n.
Proof.
  intros Hsz Hal Hn. unfold newPA, vg_assert. rewrite Hal, !(proj2 (Z.leb_le _ _)) by lia. cbn [mbind outcome_bind].
  destruct (xa_empty_holds (A := Z) 8) as (xa & -> & Hxa); [lia|]. cbn [mbind outcome_bind].
  eexists. split; [done|]. split; [|done]. by split.
Qed.

Lemma pool_ok_frame pa h h' blocks free used :
  pool_ok pa h blocks free used -> (∀ a, a ∈ free -> h' !! a = h !! a) -> pool_ok pa h' blocks free used.
Proof. intros [] Hag. split; try done. by eapply chain_agree. Qed.

Lemma pal_add_new_pool_ok pa h blocks used pool :
  pool_ok pa h blocks [] used -> block_ok (elemSzB pa) (nPerPool pa) pool ->
  Forall (apart (nPerPool pa * elemSzB pa) pool) blocks -> Z.of_nat (S (length blocks)) <= XA_LIMIT ->
  ∃ pa' h', pal_add_new_pool pa h pool = Ret (pa', h') ∧
    pool_ok pa' h' (blocks ++ [pool]) (slots_of (elemSzB pa) (nPerPool pa) pool) used ∧
    (∀ a, a ∉ slots_of (elemSzB pa) (nPerPool pa) pool -> h' !! a = h !! a) ∧
    elemSzB pa' = elemSzB pa ∧ nPerPool pa' = nPerPool pa ∧ nrRef pa' = nrRef pa.
Proof.
  intros [[Hal Hsz] Hn Hxa Hbl Hap Hc Hsl] Hb Hnew Hlim. unfold pal_add_new_pool, vg_assert. cbn [chain] in Hc.
  rewrite Hc. cbn [mbind outcome_bind].
  destruct (link_loop_ok (elemSzB pa) (nPerPool pa) pool h 0) as (h' & q & -> & Hq & Ho); [done|done|lia|done|done|].
  cbn [mbind outcome_bind fst snd].
  destruct (addToXA_ok (pools pa) blocks pool Hxa Hlim) as (xa & -> & Hxa'). cbn [mbind outcome_bind fst snd].
  eexists _, h'. split; [done|]. split; [|done]. split; cbn [with_nextFree with_pools elemSzB nPerPool pools nextFree];
    try done.
  - apply Forall_app. split; [done|]. by apply Forall_singleton.
  - by apply all_apart_snoc.
  - rewrite app_nil_l in Hsl. rewrite Hsl. unfold slots. rewrite bind_app, bind_singleton. apply Permutation_app_comm.
Qed.

Lemma elements_NoDup pa h blocks free used : pool_ok pa h blocks free used -> NoDup (free ++ used).
Proof. intros [[_ Hsz] _ _ _ Hap _ ->]. by apply slots_NoDup. Qed.

Lemma take_head pa h blocks e free used :
  pool_ok pa h blocks (e :: free) used ->
  ∃ r, nextFree pa = e ∧ load_word h e = Ret r ∧ e ≠ 0 ∧
    pool_ok (with_nextFree r pa) (<[e := 0]> h) blocks free (e :: used).
Proof.
  intros Hok. pose proof Hok as [Hsz Hn Hxa Hbl Hap Hc Hsl]. destruct Hc as (Hq & Hne & r & Hr & Hc). exists r. split; [done|].
  unfold load_word. rewrite (proj2 (Z.eqb_neq _ _)), Hr by done. split; [done|]. split; [done|].
  pose proof (elements_NoDup _ _ _ _ _ Hok) as [[Hef _]%NoDup_cons _]%NoDup_app.
  split; try done; cbn [nextFree with_nextFree].
  - eapply chain_agree; [|done]. intros a Ha. rewrite lookup_insert_ne; [done|]. by intros ->.
  - etrans; [|exact Hsl]. symmetry. apply (Permutation_middle free used e).
Qed.

Lemma used_apart pa h blocks free used x y :
  pool_ok pa h blocks free used -> x ∈ free ++ used -> y ∈ free ++ used -> x ≠ y -> apart (elemSzB pa) x y.
Proof. intros [[_ Hsz] Hn Hxa Hbl Hap Hc Hsl]. rewrite Hsl. by apply slots_apart. Qed.

(** No word of an element in use is in the free list. *)
Lemma free_used_apart pa h blocks free used a u :
  pool_ok pa h blocks free used -> a ∈ free -> u ∈ used -> apart (elemSzB pa) a u.
Proof.
  intros Hok Ha Hu. eapply used_apart; [done|apply elem_of_app; by left|apply elem_of_app; by right|].
  intros ->. apply elements_NoDup, NoDup_app in Hok as (_ & Hnd & _). by apply (Hnd u).
Qed.

(** The head of the free list is apart from what is in use, and unlinking it
    changes no word of that. *)
Lemma alloc_ok pa h blocks e free used :
  pool_ok pa h blocks (e :: free) used ->
  ∃ r, nextFree pa = e ∧ load_word h e = Ret r ∧ e ≠ 0 ∧
    pool_ok (with_nextFree r pa) (<[e := 0]> h) blocks free (e :: used) ∧
    (∀ u, u ∈ used -> apart (elemSzB pa) e u) ∧
    (∀ u a, u ∈ used -> u <= a < u + elemSzB pa -> <[e := 0]> h !! a = h !! a).
Proof.
  intros Hok. destruct (take_head pa h blocks e free used Hok) as (r & ? & ? & ? & ?). exists r.
  assert (∀ u, u ∈ used -> apart (elemSzB pa) e u) as Hap by (intros u; eapply free_used_apart; [done|left]).
  do 5 (split; [done|]). intros u a Hu Ha. specialize (Hap u Hu). destruct Hok as [[_ Hsz] _ _ _ _ _ _].
  rewrite lookup_insert_ne; [done|]. unfold apart in Hap. lia.
Qed.

Lemma pool_ok_NoDup_perm pa h blocks free used p used' :
  pool_ok pa h blocks free used -> used ≡ₚ p :: used' -> p ∉ free.
Proof.
  intros Hok Hp Hf. apply elements_NoDup, NoDup_app in Hok as (_ & Hnd & _).
  apply (Hnd p Hf). rewrite Hp. left.
Qed.

Lemma deletePA_ok pa h blocks free used :
  pool_ok pa h blocks free used -> nrRef pa = 0 -> deletePA pa = Ret blocks.
Proof.
  intros [] Hr. unfold deletePA, vg_assert. rewrite Hr. cbn [mbind outcome_bind].
  pose proof po_pools0 as (_ & Hsz & _ & _). unfold sizeXA. rewrite Hsz.
  destruct (for_up_inv (fun i s => s = take (Z.to_nat i) blocks) 0 (Z.of_nat (length blocks))
    (fun i freed => p ← indexXA (pools pa) i; Ret (freed ++ [p])) []) as (s & -> & Hs); [lia|done| |].
  - intros i s Hi ->. destruct (lookup_lt_is_Some_2 blocks (Z.to_nat i)) as [x Hx]; [lia|].
    pose proof (indexXA_ok _ _ _ _ po_pools0 Hx) as Hix. rewrite Z2Nat.id in Hix by lia. rewrite Hix.
    cbn [mbind outcome_bind]. eexists. split; [done|]. replace (Z.to_nat (i + 1)) with (S (Z.to_nat i)) by lia.
    by rewrite (take_S_r _ _ x).
  - f_equal. rewrite Hs, Nat2Z.id. by rewrite firstn_all.
Qed.

Lemma freeEltPA_ok pa h blocks free used p used' :
  pool_ok pa h blocks free used -> used ≡ₚ p :: used' -> p ≠ 0 ->
  freeEltPA pa h p = Ret (with_nextFree p pa, <[p := nextFree pa]> h) ∧
  pool_ok (with_nextFree p pa) (<[p := nextFree pa]> h) blocks (p :: free) used'.
Proof.
  intros Hok Hp Hne. unfold freeEltPA. rewrite (proj2 (Z.eqb_neq _ _)) by done. split; [done|].
  pose proof (pool_ok_NoDup_perm _ _ _ _ _ _ _ Hok Hp) as Hpf. destruct Hok as [Hsz Hn Hxa Hbl Hap Hc Hsl].
  split; try done; cbn [nextFree with_nextFree elemSzB nPerPool].
  - cbn [chain]. split; [done|]. split; [done|]. exists (nextFree pa). rewrite lookup_insert_eq. split; [done|].
    eapply chain_agree; [|done]. intros a Ha. rewrite lookup_insert_ne; [done|]. by intros ->.
  - rewrite <- Hsl, Hp. apply (Permutation_middle free used' p).
Qed.

Lemma used_not_null pa h blocks free used p : pool_ok pa h blocks free used -> p ∈ used -> p ≠ 0.
Proof.
  intros [[_ Hsz] Hn _ Hbl _ _ Hsl] Hp. assert (p ∈ free ++ used) as Hin by (apply elem_of_app; by right).
  rewrite Hsl in Hin. apply slots_in in Hin as (b & q & Hq & (i & -> & Hi)%slots_of_in).
  rewrite Forall_lookup in Hbl. destruct (Hbl b q Hq) as (? & _ & _). nia.
Qed.

Lemma pool_ok_nrRef pa h blocks free used n : pool_ok pa h blocks free used -> pool_ok (with_nrRef n pa) h blocks free used.
Proof. intros []. by split. Qed.

End Pool.

(** * Properties *)

(** C23: A pool never hands out memory twice: an element that is allocated is not
    NULL and apart from all elements in use, none of whose words the pool reads or
    writes, so that what clients store in them does not matter; the blocks come
    from the allocator, one when the free list is empty; a freed element can be
    allocated again; and when the last reference is released exactly the blocks
    are freed. *)
Theorem pool_allocates pa (h : words) blocks free used :
  pool_ok pa h blocks free used ->
  (∀ pool, (free = [] -> block_ok (elemSzB pa) (nPerPool pa) pool ∧
      Forall (apart (nPerPool pa * elemSzB pa) pool) blocks ∧ Z.of_nat (S (length blocks)) <= XA_LIMIT) ->
   ∃ pa' h' e free', allocEltPA pa h pool = Ret (pa', h', e) ∧
     pool_ok pa' h' (match free with [] => blocks ++ [pool] | _ => blocks end) free' (e :: used) ∧
     e ≠ 0 ∧ (∀ u, u ∈ used -> apart (elemSzB pa) e u) ∧
     (∀ u a, u ∈ used -> u <= a < u + elemSzB pa -> h' !! a = h !! a)) ∧
  (∀ p used', used ≡ₚ p :: used' -> p ≠ 0 ->
   ∃ pa', freeEltPA pa h p = Ret (pa', <[p := nextFree pa]> h) ∧
     pool_ok pa' (<[p := nextFree pa]> h) blocks (p :: free) used') ∧
  (∀ h', (∀ a, a ∈ free -> h' !! a = h !! a) -> pool_ok pa h' blocks free used) ∧
  (nrRef pa = 1 -> ∃ pa', releasePA pa = Ret (pa', 0, blocks)).
Proof.
  intros Hok. split; [|split; [|split]].
  - intros pool Hnew. destruct free as [|e free].
    + destruct (Hnew eq_refl) as (Hb & Hap & Hlim).
      destruct (pal_add_new_pool_ok pa h blocks used pool Hok Hb Hap Hlim) as (pa1 & h1 & Hadd & Hok1 & Ho & Hsz & Hnp & _).
      assert (slots_of (elemSzB pa) (nPerPool pa) pool = pool :: tail (slots_of (elemSzB pa) (nPerPool pa) pool)) as Hsl.
      { unfold slots_of. rewrite seqZ_cons by (destruct Hok; lia). cbn. by rewrite Z.add_0_r. }
      rewrite Hsl in Hok1. destruct (alloc_ok _ _ _ _ _ _ Hok1) as (r & Hnf & Hld & Hne & Hok2 & Hap2 & Hfr).
      unfold allocEltPA. destruct Hok as [_ _ _ _ _ Hnull _]. cbn [chain] in Hnull. rewrite Hnull, Z.eqb_refl, Hadd.
      cbn [mbind outcome_bind fst snd]. rewrite Hnf, Hld. cbn [mbind outcome_bind].
      eexists _, _, _, _. split; [done|]. split; [exact Hok2|]. split; [done|]. rewrite <- Hsz. split; [done|].
      intros u a Hu Ha. rewrite (Hfr u a Hu Ha). apply Ho. rewrite Hsl. intros Has.
      pose proof (free_used_apart _ _ _ _ _ a u Hok1 Has Hu) as Hau. unfold apart in Hau. lia.
    + destruct (alloc_ok _ _ _ _ _ _ Hok) as (r & Hnf & Hld & Hne & Hok2 & Hap2 & Hfr).
      unfold allocEltPA. rewrite Hnf, (proj2 (Z.eqb_neq _ _)) by done. cbn [mbind outcome_bind fst snd].
      rewrite Hnf, Hld. cbn [mbind outcome_bind]. by eexists _, _, _, _.
  - intros p used' Hp Hne. eexists. by apply freeEltPA_ok with (used := used).
  - intros h'. by apply pool_ok_frame.
  - intros Hr. unfold releasePA. rewrite Hr. cbn. rewrite (deletePA_ok _ h blocks free used); [by eexists|by apply pool_ok_nrRef|done].
Qed.


(** * Witness *)

Lemma pool_allocates_witness :
  ∃ pa, newPA 16 100 = Ret pa ∧ ∃ pa' h' e, allocEltPA pa ∅ 4096 = Ret (pa', h', e) ∧ e ≠ 0.
Proof.
  destruct (newPA_ok 16 100) as (pa & Hnew & Hok & Hsz & Hn); [(lia || done)..|]. exists pa. split; [exact Hnew|].
  destruct (proj1 (pool_allocates pa ∅ [] [] [] Hok) 4096) as (pa' & h' & e & _ & Ha & _ & He & _).
  { intros _. rewrite Hsz, Hn. unfold block_ok, XA_LIMIT. repeat split; first [done|lia|constructor]. }
  exists pa', h', e. split; [exact Ha|exact He].
Defined.
