(* ===== verification/OSet.v ===== *)
(** * coregrind/m_oset.c

    Ordered sets: AVL trees of elements that clients allocate through the set. The
    file shares its origin with m_wordfm.c, and the model its trees with [WordFM]:
    a node without its links is an [item] with the address of the element, as its key
    the word that comparisons are made with (the first word of the element, or its
    address if the set has a comparison function), and as its value the field [magic].
    The functions are those of m_oset.c; the lemmas relate them to the ones of
    [WordFM]. *)

From stdpp Require Import gmap fin_maps.
From S2P Require Import Prelude PoolAlloc WordFM.
Local Open Scope Z_scope.

(** * The interface

    A set whose keys are words: what the users of a set without comparison
    function rely on. [ks_insert t e w] inserts the element at [e] with first word
    [w]; a lookup and the iterator give elements. *)

Class KeyedSet (T : Type) := {
  ks_create : outcome T;
  ks_size : T -> Z;
  ks_lookup : T -> Z -> outcome (option Z);
  ks_insert : T -> Z -> Z -> outcome T;
  ks_reset : T -> outcome T;
  ks_next : T -> outcome (T * option Z);
}.

(** The set holds a map from keys to elements; the iterator goes through a list of
    elements. *)
Class KeyedSetLaws (T : Type) `{KeyedSet T} := {
  ks_holds : T -> gmap Z Z -> Prop;
  ks_pending : T -> list (Z * Z) -> Prop;
  ks_limit : Z;
  ks_create_law : ∃ t, ks_create = Ret t ∧ ks_holds t ∅;
  ks_size_law : ∀ t m, ks_holds t m -> Z.of_nat (size m) <= UINT_MAX -> ks_size t = Z.of_nat (size m);
  ks_lookup_law : ∀ t m k, ks_holds t m -> ks_lookup t k = Ret (m !! k);
  ks_insert_law : ∀ t m e k, ks_holds t m -> m !! k = None ->
    ∃ t', ks_insert t e k = Ret t' ∧ ks_holds t' (<[k := e]> m);
  ks_reset_law : ∀ t m, ks_holds t m -> Z.of_nat (size m) < ks_limit ->
    ∃ t' l, ks_reset t = Ret t' ∧ ks_pending t' l ∧ ks_holds t' m ∧ l ≡ₚ map_to_list m;
  ks_next_law : ∀ t l, ks_pending t l ->
    ∃ t', ks_next t = Ret (t', snd <$> head l) ∧ ks_pending t' (tail l);
}.

(** * Definitions *)

Definition STACK_MAX : nat := 32.
Definition sizeof_AvlNode : Z := 24.
Definition OSET_MAGIC : Z := 0x5b1f.

(** A set; its nodes are in a pool if [pooled], whose elements have at most
    [maxEltSize] bytes. The iterator is at the nodes of [stack], top first. *)
Record OSet := AvlTree {
  keyOff : Z;
  cmp : option (Z -> Z -> Z);
  pooled : bool;
  maxEltSize : Z;
  nElems : Z;
  root : avl;
  stack : list (avl * Z) }.

Definition with_root (r : avl) (t : OSet) : OSet :=
  AvlTree (keyOff t) (cmp t) (pooled t) (maxEltSize t) (nElems t) r (stack t).
Definition with_nElems (n : Z) (t : OSet) : OSet :=
  AvlTree (keyOff t) (cmp t) (pooled t) (maxEltSize t) n (root t) (stack t).
Definition with_stack (stk : list (avl * Z)) (t : OSet) : OSet :=
  AvlTree (keyOff t) (cmp t) (pooled t) (maxEltSize t) (nElems t) (root t) stk.

(** ** Helpers *)

(** The address of a node, from that of its element. *)
Definition addr_of_node (n : item) : Z := i_addr n - sizeof_AvlNode.

(** [n] is what stands in front of the element. *)
Definition node_of_elem (n : item) : outcome Z :=
  _ ← vg_assert (i_val n =? OSET_MAGIC); Ret (addr_of_node n).
Definition elem_of_node (n : item) : outcome Z :=
  _ ← vg_assert (i_val n =? OSET_MAGIC); Ret (i_addr n).

Definition slow_key_of_node (t : OSet) (n : item) : outcome Z := e ← elem_of_node n; Ret (e + keyOff t).

(** The word at the key. *)
Definition fast_key_of_node (n : item) : outcome Z := _ ← elem_of_node n; Ret (i_key n).

(** A key is a word here, and a pointer for [slow_cmp]. *)
Definition fast_cmp (w1 : Z) (n : item) : outcome Z :=
  w2 ← fast_key_of_node n; Ret (if w2 <? w1 then 1 else if w1 <? w2 then -1 else 0).
Definition slow_cmp (f : Z -> Z -> Z) (k : Z) (n : item) : outcome Z := e ← elem_of_node n; Ret (f k e).

Definition cmp_key (t : OSet) (k : Z) (n : item) : outcome Z :=
  match cmp t with Some f => slow_cmp f k n | None => fast_cmp k n end.

Definition cmp_key_root (t : OSet) (n root : item) : outcome Z :=
  match cmp t with
  | Some f => k ← slow_key_of_node t n; slow_cmp f k root
  | None => k ← fast_key_of_node n; fast_cmp k root
  end.

Definition avl_swl (root : avl) : outcome avl :=
  match root with
  | Node a ba al (Node b bb bl br) => Ret (Node b bb (Node a ba al bl) br)
  | _ => Fault NullDeref
  end.

Definition avl_swr (root : avl) : outcome avl :=
  match root with
  | Node a ba (Node b bb bl br) ar => Ret (Node b bb bl (Node a ba br ar))
  | _ => Fault NullDeref
  end.

(** No case of the [switch] applies to other balances. *)
Definition avl_nasty (root : avl) : outcome avl :=
  b ← get_bal root;
  root ← (if b =? -1 then t ← on_child0 (set_bal 0) root; on_child1 (set_bal 1) t
          else if b =? 1 then t ← on_child0 (set_bal (-1)) root; on_child1 (set_bal 0) t
          else if b =? 0 then t ← on_child0 (set_bal 0) root; on_child1 (set_bal 0) t
          else Ret root);
  set_bal 0 root.

Definition stackPush (stk : list (avl * Z)) (n : avl) (i : Z) : outcome (list (avl * Z)) :=
  _ ← vg_assert (Nat.ltb (length stk) STACK_MAX);
  _ ← vg_assert ((1 <=? i) && (i <=? 3));
  Ret ((n, i) :: stk).

Definition stackPop (stk : list (avl * Z)) : outcome (option (avl * Z * list (avl * Z))) :=
  _ ← vg_assert (Nat.leb (length stk) STACK_MAX);
  match stk with
  | [] => Ret None
  | (n, i) :: stk => _ ← vg_assert ((1 <=? i) && (i <=? 3)); Ret (Some (n, i, stk))
  end.

(** ** Creating and destroying *)

Definition OSetGen_Create (keyOff : Z) (cmp : option (Z -> Z -> Z)) : outcome OSet :=
  _ ← (match cmp with None => vg_assert (0 =? keyOff) | Some _ => Ret tt end);
  Ret (AvlTree keyOff cmp false 0 0 Nil []).

Definition OSetGen_Create_With_Pool (keyOff : Z) (cmp : option (Z -> Z -> Z)) (poolSize maxEltSize : Z) :
    outcome (OSet * PoolAlloc) :=
  t ← OSetGen_Create keyOff cmp;
  _ ← vg_assert (0 <? poolSize);
  _ ← vg_assert (0 <? maxEltSize);
  pa ← newPA (sizeof_AvlNode + (maxEltSize + 7) / 8 * 8) poolSize;
  Ret (AvlTree (OSet.keyOff t) (OSet.cmp t) true maxEltSize 0 Nil [], addRefPA pa).

Definition OSetGen_EmptyClone (os : OSet) (pa : option PoolAlloc) : OSet * option PoolAlloc :=
  (AvlTree (keyOff os) (cmp os) (pooled os) (maxEltSize os) 0 Nil [],
   if pooled os then addRefPA <$> pa else pa).

Definition OSetWord_Create : outcome OSet := OSetGen_Create 0 None.

(** The pool of the nodes, if the set has one, with the memory of its elements. *)
Notation node_pa := (option (PoolAlloc * words)).

(** [addr] is what the allocator returns if it is called: for the node or for a new
    block of the pool. The result is the node, whose element is all zeros. *)
Definition OSetGen_AllocNode (t : OSet) (p : node_pa) (elemSize addr : Z) : outcome (node_pa * item) :=
  _ ← vg_assert (0 <? elemSize);
  r ← (if pooled t then
         _ ← vg_assert (elemSize <=? maxEltSize t);
         match p with
         | Some (pa, h) => r ← allocEltPA pa h addr; Ret (Some r.1, r.2)
         | None => Fault NullDeref
         end
       else Ret (p, addr));
  let n := Item (r.2 + sizeof_AvlNode) (match cmp t with Some _ => r.2 + sizeof_AvlNode | None => 0 end) OSET_MAGIC in
  _ ← elem_of_node n; Ret (r.1, n).

(** Free a node: to the pool, or to [free_fn], which appends it to [freed]. *)
Definition free_node (pooled : bool) (n : Z) (s : node_pa * list Z) : outcome (node_pa * list Z) :=
  if pooled then
    match s.1 with
    | Some (pa, h) => r ← freeEltPA pa h n; Ret (Some r, s.2)
    | None => Fault NullDeref
    end
  else Ret (s.1, s.2 ++ [n]).

Definition OSetGen_FreeNode (t : OSet) (p : node_pa) (e : item) : outcome (node_pa * list Z) :=
  n ← node_of_elem e; free_node (pooled t) n (p, []).

(** The post-order traversal; the third visit of a node frees it. *)
Fixpoint destroy_loop (fuel : nat) (pooled : bool) (stk : list (avl * Z)) (s : node_pa * list Z) (sz : Z) :
    outcome (node_pa * list Z * Z) :=
  match fuel with
  | O => Fault OutOfFuel
  | S fuel =>
      pop ← stackPop stk;
      match pop with
      | None => Ret (s, sz)
      | Some (Nil, _, _) => Fault NullDeref
      | Some (Node it b l r as n, i, stk) =>
          if i =? 1 then
            stk ← stackPush stk n 2;
            stk ← (match l with Nil => Ret stk | _ => stackPush stk l 1 end);
            destroy_loop fuel pooled stk s sz
          else if i =? 2 then
            stk ← stackPush stk n 3;
            stk ← (match r with Nil => Ret stk | _ => stackPush stk r 1 end);
            destroy_loop fuel pooled stk s sz
          else
            s ← free_node pooled (addr_of_node it) s;
            destroy_loop fuel pooled stk s (u64 (sz + 1))
      end
  end.

Fixpoint count_nodes (t : avl) : nat := match t with Nil => O | Node _ _ l r => S (count_nodes l + count_nodes r) end.

(** The last user of a pool deletes it, which frees its blocks, else the nodes are
    freed one by one; the result has the pool and the blocks freed. *)
Definition OSetGen_Destroy (t : OSet) (p : node_pa) : outcome (node_pa * list Z) :=
  rel ← (if pooled t then
           match p with
           | Some (pa, h) => r ← releasePA pa; Ret (Some (r.1.1, h), negb (0 <? r.1.2), r.2)
           | None => Fault NullDeref
           end
         else Ret (p, false, []));
  if rel.1.2 : bool then Ret (rel.1.1, rel.2)
  else
    stk ← (match root t with Nil => Ret [] | n => stackPush [] n 1 end);
    r ← destroy_loop (3 * count_nodes (root t) + 1) (pooled t) stk (rel.1.1, rel.2) 0;
    _ ← vg_assert (r.2 =? nElems t);
    Ret r.1.

(** ** Insertion *)

(** After the left (right) subtree of the root has grown on its heavy side. *)
Definition swing_grown_left (root : avl) : outcome avl :=
  match root with
  | Nil => Fault NullDeref
  | Node _ _ l _ =>
      lb ← get_bal l;
      if lb <? 0 then t ← avl_swr root; t ← set_bal 0 t; on_child1 (set_bal 0) t
      else t ← on_child0 avl_swl root; t ← avl_swr t; avl_nasty t
  end.

Definition swing_grown_right (root : avl) : outcome avl :=
  match root with
  | Nil => Fault NullDeref
  | Node _ _ _ r =>
      rb ← get_bal r;
      if 0 <? rb then t ← avl_swl root; t ← set_bal 0 t; on_child0 (set_bal 0) t
      else t ← on_child1 avl_swr root; t ← avl_swl t; avl_nasty t
  end.

(** [cmpn] is [cmp_key_root t n]. When a subtree has grown its new root is not
    stored in its parent, see [stale_child]. *)
Fixpoint avl_insert (cmpn : item -> outcome Z) (root : avl) (n : item) : outcome (avl * bool) :=
  match root with
  | Nil => Fault NullDeref
  | Node it b l r =>
      cmpres ← cmpn it;
      if cmpres <? 0 then
        match l with
        | Node _ _ _ _ =>
            res ← avl_insert cmpn l n;
            if res.2 : bool then
              let root := Node it (s8 (b - 1)) (stale_child l res.1) r in
              if b =? 1 then Ret (root, false)
              else if b =? 0 then Ret (root, true)
              else t ← swing_grown_left root; Ret (t, false)
            else Ret (Node it b res.1 r, false)
        | Nil => Ret (Node it (s8 (b - 1)) (Node n 0 Nil Nil) r, b =? 0)
        end
      else if 0 <? cmpres then
        match r with
        | Node _ _ _ _ =>
            res ← avl_insert cmpn r n;
            if res.2 : bool then
              let root := Node it (s8 (b + 1)) l (stale_child r res.1) in
              if b =? -1 then Ret (root, false)
              else if b =? 0 then Ret (root, true)
              else t ← swing_grown_right root; Ret (t, false)
            else Ret (Node it b l res.1, false)
        | Nil => Ret (Node it (s8 (b + 1)) l (Node n 0 Nil Nil), b =? 0)
        end
      else Fault AssertFail
  end.

Definition OSetGen_Insert (t : OSet) (n : item) : outcome OSet :=
  _ ← node_of_elem n;
  root ← (match root t with
          | Nil => Ret (Node n 0 Nil Nil)
          | r => res ← avl_insert (cmp_key_root t n) r n; Ret res.1
          end);
  Ret (with_stack [] (with_nElems (u32 (nElems t + 1)) (with_root root t))).

Definition OSetWord_Insert (t : OSet) (p : node_pa) (addr val : Z) : outcome (OSet * node_pa) :=
  r ← OSetGen_AllocNode t p 8 addr;
  t ← OSetGen_Insert t (Item (i_addr r.2) val (i_val r.2));
  Ret (t, r.1).

(** ** Lookup *)

(** [cmpk] compares the key with a node. *)
Fixpoint avl_lookup_with (cmpk : item -> outcome Z) (curr : avl) : outcome (option item) :=
  match curr with
  | Nil => Ret None
  | Node it _ l r =>
      cmpres ← cmpk it;
      if cmpres <? 0 then avl_lookup_with cmpk l else if 0 <? cmpres then avl_lookup_with cmpk r else Ret (Some it)
  end.

(** The comparison of words does not look at the magic number here. *)
Definition lookup_cmp (cmp : option (Z -> Z -> Z)) (k : Z) (n : item) : outcome Z :=
  match cmp with
  | Some f => slow_cmp f k n
  | None => let w2 := i_key n in Ret (if k <? w2 then -1 else if w2 <? k then 1 else 0)
  end.
Definition avl_lookup (cmp : option (Z -> Z -> Z)) (k : Z) (t : avl) : outcome (option item) :=
  avl_lookup_with (lookup_cmp cmp k) t.

(** The element, as its address. *)
Definition Lookup_root (cmp : option (Z -> Z -> Z)) (k : Z) (t : avl) : outcome (option Z) :=
  n ← avl_lookup cmp k t;
  match n with Some n => e ← elem_of_node n; Ret (Some e) | None => Ret None end.

Definition OSetGen_Lookup (t : OSet) (k : Z) : outcome (option Z) := Lookup_root (cmp t) k (root t).

Definition OSetGen_LookupWithCmp (t : OSet) (k : Z) (cmp : Z -> Z -> Z) : outcome (option Z) :=
  Lookup_root (Some cmp) k (root t).

Definition OSetGen_Contains (t : OSet) (k : Z) : outcome bool :=
  e ← OSetGen_Lookup t k; Ret (match e with Some _ => true | None => false end).

Definition OSetWord_Contains (t : OSet) (val : Z) : outcome bool := OSetGen_Contains t val.

(** ** Deletion *)

(** After the left (right) subtree of the root has shrunk on its light side; the
    result says whether the tree has shrunk. *)
Definition swing_shrunk_left (root : avl) : outcome (avl * bool) :=
  match root with
  | Nil => Fault NullDeref
  | Node _ _ _ r =>
      rb ← get_bal r;
      if rb =? 0 then t ← avl_swl root; t ← set_bal (-1) t; t ← on_child0 (set_bal 1) t; Ret (t, false)
      else if rb =? 1 then t ← avl_swl root; t ← set_bal 0 t; t ← on_child0 (set_bal 0) t; Ret (t, true)
      else t ← on_child1 avl_swr root; t ← avl_swl t; t ← avl_nasty t; Ret (t, true)
  end.

Definition swing_shrunk_right (root : avl) : outcome (avl * bool) :=
  match root with
  | Nil => Fault NullDeref
  | Node _ _ l _ =>
      lb ← get_bal l;
      if lb =? 0 then t ← avl_swr root; t ← set_bal 1 t; t ← on_child1 (set_bal (-1)) t; Ret (t, false)
      else if lb =? -1 then t ← avl_swr root; t ← set_bal 0 t; t ← on_child1 (set_bal 0) t; Ret (t, true)
      else t ← on_child0 avl_swl root; t ← avl_swr t; t ← avl_nasty t; Ret (t, true)
  end.

(** [remove] is [avl_remove]. *)
Definition avl_removeroot (remove : avl -> item -> outcome (avl * bool)) (root : avl) : outcome (avl * bool) :=
  match root with
  | Nil => Fault NullDeref
  | Node _ _ Nil Nil => Ret (Nil, true)
  | Node _ _ Nil r => Ret (r, true)
  | Node _ _ l Nil => Ret (l, true)
  | Node _ b (Node li _ _ lr) (Node ri _ rl _) =>
      let n := if b <? 0 then rightmost li lr else leftmost ri rl in
      res ← remove root n;
      match res.1 with
      | Nil => Fault NullDeref
      | Node _ b l r => Ret (Node n b l r, if b =? 0 then res.2 else false)
      end
  end.

(** [cmpn n] is [cmp_key_root t n]; the fuel bounds the recursion. *)
Fixpoint avl_remove (fuel : nat) (cmpn : item -> item -> outcome Z) (root : avl) (n : item) : outcome (avl * bool) :=
  match fuel, root with
  | O, _ => Fault OutOfFuel
  | _, Nil => Fault NullDeref
  | S fuel, Node it b l r =>
      cmpres ← cmpn n it;
      if cmpres <? 0 then
        _ ← vg_assert (match l with Nil => false | _ => true end);
        res ← avl_remove fuel cmpn l n;
        let root := Node it b res.1 r in
        if res.2 : bool then
          root ← set_bal (s8 (b + 1)) root;
          if b =? -1 then Ret (root, true) else if b =? 0 then Ret (root, false) else swing_shrunk_left root
        else Ret (root, false)
      else if 0 <? cmpres then
        _ ← vg_assert (match r with Nil => false | _ => true end);
        res ← avl_remove fuel cmpn r n;
        let root := Node it b l res.1 in
        if res.2 : bool then
          root ← set_bal (s8 (b - 1)) root;
          if b =? 1 then Ret (root, true) else if b =? 0 then Ret (root, false) else swing_shrunk_right root
        else Ret (root, false)
      else
        _ ← vg_assert (i_addr it =? i_addr n);
        avl_removeroot (avl_remove fuel cmpn) root
  end.

(** The element that is removed. *)
Definition OSetGen_Remove (t : OSet) (k : Z) : outcome (OSet * option item) :=
  match root t with
  | Nil => Ret (t, None)
  | r =>
      found ← avl_lookup (cmp t) k r;
      match found with
      | Some n =>
          res ← avl_remove (remove_fuel r) (cmp_key_root t) r n;
          _ ← elem_of_node n;
          Ret (with_stack [] (with_nElems (u32 (nElems t - 1)) (with_root res.1 t)), Some n)
      | None => Ret (t, None)
      end
  end.

Definition OSetWord_Remove (t : OSet) (p : node_pa) (val : Z) : outcome (OSet * bool * node_pa * list Z) :=
  r ← OSetGen_Remove t val;
  match r.2 with
  | Some n => f ← OSetGen_FreeNode r.1 p n; Ret (r.1, true, f.1, f.2)
  | None => Ret (r.1, false, p, [])
  end.

(** ** The iterator *)

Definition OSetGen_ResetIter (t : OSet) : outcome OSet :=
  match root t with
  | Nil => Ret (with_stack [] t)
  | n => stk ← stackPush [] n 1; Ret (with_stack stk t)
  end.

(** [case_1]: push the node and go to its left child, until there is none. *)
Fixpoint push_left (n : avl) (stk : list (avl * Z)) : outcome (list (avl * Z)) :=
  match n with
  | Nil => Ret stk
  | Node _ _ l _ => stk ← stackPush stk n 2; push_left l stk
  end.

Fixpoint next_loop (fuel : nat) (stk : list (avl * Z)) : outcome (list (avl * Z) * option item) :=
  match fuel with
  | O => Fault OutOfFuel
  | S fuel =>
      pop ← stackPop stk;
      match pop with
      | None => Ret (stk, None)
      | Some (Nil, _, _) => Fault NullDeref
      | Some (Node it _ l r as n, i, stk) =>
          if i =? 1 then stk ← push_left n stk; next_loop fuel stk
          else if i =? 2 then stk ← stackPush stk n 3; _ ← elem_of_node it; Ret (stk, Some it)
          else stk ← push_left r stk; next_loop fuel stk
      end
  end.

Definition OSetGen_Next (t : OSet) : outcome (OSet * option item) :=
  r ← next_loop (length (stack t) + 2) (stack t);
  Ret (with_stack r.1 t, r.2).

Definition OSetWord_Next (t : OSet) : outcome (OSet * option Z) :=
  r ← OSetGen_Next t; Ret (r.1, match r.2 with Some n => Some (i_key n) | None => None end).

(** The search loop of [OSetGen_ResetIterAt]; [cmpk] compares the key with a node. *)
Fixpoint iter_at (cmpk : item -> outcome Z) (t : avl) (stk : list (avl * Z)) : outcome (list (avl * Z)) :=
  match t with
  | Nil => Ret stk
  | Node it _ l r =>
      cmpresS ← cmpk it;
      let cmpresS := if cmpresS <? 0 then 1 else if 0 <? cmpresS then -1 else cmpresS in
      if cmpresS =? 0 then stackPush stk t 2
      else
        let cmpresU := Z.shiftr (u64 cmpresS) 63 in
        _ ← vg_assert ((cmpresU =? 0) || (cmpresU =? 1));
        stk ← (if cmpresU =? 0 then stackPush stk t 2 else Ret stk);
        if cmpresU =? 0 then iter_at cmpk l stk else iter_at cmpk r stk
  end.

Definition OSetGen_ResetIterAt (oset : OSet) (k : Z) : outcome OSet :=
  stk ← iter_at (cmp_key oset k) (root oset) []; Ret (with_stack stk oset).

Definition OSetGen_Size (t : OSet) : Z := nElems t.

(** * Lemmas *)

(** ** The steps of [WordFM]

    Wherever the functions on trees of [WordFM] return, those of this file return
    the same. *)

Lemma nasty_sim t t' : WordFM.avl_nasty t = Ret t' -> avl_nasty t = Ret t'.
Proof.
  unfold WordFM.avl_nasty, avl_nasty. destruct (get_bal t) as [b|]; [|done]. cbn [mbind outcome_bind].
  by destruct (b =? -1), (b =? 1), (b =? 0).
Qed.

Ltac sim_nasty :=
  cbn [mbind outcome_bind];
  repeat match goal with
  | H : WordFM.avl_nasty _ = Ret _ |- _ => apply nasty_sim in H
  | H : ?x = Ret _ |- context [?x] => rewrite H; cbn [mbind outcome_bind]
  end.

Lemma grown_left_sim t t' : rebalance_grown0 t = Ret t' -> swing_grown_left t = Ret t'.
Proof.
  destruct t as [|it b l r]; [done|]. cbn [rebalance_grown0 swing_grown_left].
  change WordFM.avl_swl with avl_swl. change WordFM.avl_swr with avl_swr.
  destruct (get_bal l) as [lb|]; [|done]. cbn [mbind outcome_bind]. destruct (lb <? 0); [done|].
  intros H. inv_ret. by sim_nasty.
Qed.

Lemma grown_right_sim t t' : rebalance_grown1 t = Ret t' -> swing_grown_right t = Ret t'.
Proof.
  destruct t as [|it b l r]; [done|]. cbn [rebalance_grown1 swing_grown_right].
  change WordFM.avl_swl with avl_swl. change WordFM.avl_swr with avl_swr.
  destruct (get_bal r) as [rb|]; [|done]. cbn [mbind outcome_bind]. destruct (0 <? rb); [done|].
  intros H. inv_ret. by sim_nasty.
Qed.

Lemma shrunk_left_sim t x : rebalance_shrunk0 t = Ret x -> swing_shrunk_left t = Ret x.
Proof.
  destruct t as [|it b l r]; [done|]. cbn [rebalance_shrunk0 swing_shrunk_left].
  change WordFM.avl_swl with avl_swl. change WordFM.avl_swr with avl_swr.
  destruct (get_bal r) as [rb|]; [|done]. cbn [mbind outcome_bind]. destruct (rb =? 0), (rb =? 1), (rb =? -1); try done.
  intros H. inv_ret. by sim_nasty.
Qed.

Lemma shrunk_right_sim t x : rebalance_shrunk1 t = Ret x -> swing_shrunk_right t = Ret x.
Proof.
  destruct t as [|it b l r]; [done|]. cbn [rebalance_shrunk1 swing_shrunk_right].
  change WordFM.avl_swl with avl_swl. change WordFM.avl_swr with avl_swr.
  destruct (get_bal l) as [lb|]; [|done]. cbn [mbind outcome_bind]. destruct (lb =? 0), (lb =? -1), (lb =? 1); try done.
  intros H. inv_ret. by sim_nasty.
Qed.

Section Sim.
Context (c : Z -> Z -> Z).

(** A comparison of a key [k] with nodes agrees with the order on keys. *)
Definition agrees (cmpk : item -> outcome Z) (k : Z) (l : list item) : Prop :=
  ∀ it, it ∈ l -> ∃ z, cmpk it = Ret z ∧ (z <? 0) = (0 <? c (i_key it) k) ∧ (0 <? z) = (c (i_key it) k <? 0).

Lemma agrees_node cmpk k it b l r :
  agrees cmpk k (elements (Node it b l r)) ->
  ∃ z, cmpk it = Ret z ∧ (z <? 0) = (0 <? c (i_key it) k) ∧ (0 <? z) = (c (i_key it) k <? 0) ∧
  agrees cmpk k (elements l) ∧ agrees cmpk k (elements r).
Proof.
  intros H. cbn [elements] in H. destruct (H it) as (z & Hz & H1 & H2); [set_solver|].
  exists z. repeat split; try done; intros x Hx; apply H; set_solver.
Qed.

Lemma insert_sim cmpn n root : ∀ o t' o' g,
  agrees cmpn (i_key n) (elements root) -> (∀ it, it ∈ elements root -> c (i_key it) (i_key n) ≠ 0) ->
  root ≠ Nil -> avl_insert_wrk (Some c) root o n = Ret (t', o', g) -> avl_insert cmpn root n = Ret (t', g).
Proof.
  induction root as [|it b l IHl r IHr]; intros o t' o' g Hag Hne Hnil H; [done|].
  apply agrees_node in Hag as (z & Hz & H1 & H2 & Hagl & Hagr). cbn [elements] in Hne.
  assert (c (i_key it) (i_key n) ≠ 0) as Hc by (apply Hne; set_solver).
  specialize (IHl (MaybeW (mw_w o) false)). specialize (IHr (MaybeW (mw_w o) false)).
  cbn [avl_insert_wrk avl_insert do_cmp] in *. rewrite Hz. cbn [mbind outcome_bind]. rewrite H1, H2. revert H.
  destruct (0 <? c (i_key it) (i_key n)) eqn:E1; [|destruct (c (i_key it) (i_key n) <? 0) eqn:E2; [|b2p; lia]]; intros H.
  - destruct l as [|li lb ll lr]; [by inv_ret|]. inv_ret. destruct a as [[l' o1] g1]. cbn [fst snd] in *.
    rewrite (IHl l' o1 g1) by (done || (intros; apply Hne; set_solver)). cbn [mbind outcome_bind fst snd].
    destruct g1; [|by inv_ret]. destruct (b =? 1); [by inv_ret|]. destruct (b =? 0); [by inv_ret|].
    destruct (b =? -1); [|done]. inv_ret. by erewrite grown_left_sim.
  - destruct r as [|ri rb rl rr]; [by inv_ret|]. inv_ret. destruct a as [[r' o1] g1]. cbn [fst snd] in *.
    rewrite (IHr r' o1 g1) by (done || (intros; apply Hne; set_solver)). cbn [mbind outcome_bind fst snd].
    destruct g1; [|by inv_ret]. destruct (b =? -1); [by inv_ret|]. destruct (b =? 0); [by inv_ret|].
    destruct (b =? 1); [|done]. inv_ret. by erewrite grown_right_sim.
Qed.

(** A key that is there fails the assertion. *)
Lemma insert_duplicate cmpn n root :
  agrees cmpn (i_key n) (elements root) -> sorted c (elements root) -> KCmpOrder c ->
  is_Some (alist_find c (i_key n) (elements root)) -> avl_insert cmpn root n = Fault AssertFail.
Proof.
  intros Hag Hs Ho. induction root as [|it b l IHl r IHr]; [by intros [? ?]|].
  apply agrees_node in Hag as (z & Hz & H1 & H2 & Hagl & Hagr). cbn [elements] in *.
  pose proof Hs as (Hsl & Hsr & Hlt & Hgt)%sorted_mid. cbn [avl_insert]. rewrite Hz. cbn [mbind outcome_bind]. rewrite H1, H2.
  destruct (0 <? c (i_key it) _) eqn:E1; [|destruct (c (i_key it) _ <? 0) eqn:E2]; b2p.
  - rewrite (find_left (Some c)) by done. intros Hf. rewrite (IHl Hagl Hsl Hf). by destruct l; [destruct Hf|].
  - rewrite (find_right (Some c)) by done. intros Hf. rewrite (IHr Hagr Hsr Hf). by destruct r; [destruct Hf|].
  - done.
Qed.

Lemma lookup_sim cmpk k t :
  KCmpOrder c -> agrees cmpk k (elements t) -> sorted c (elements t) -> avl_lookup_with cmpk t = Ret (alist_find c k (elements t)).
Proof.
  intros Ho Hag Hs. induction t as [|it b l IHl r IHr]; [done|].
  apply agrees_node in Hag as (z & Hz & H1 & H2 & Hagl & Hagr). cbn [elements] in *.
  pose proof Hs as (Hsl & Hsr & Hlt & Hgt)%sorted_mid. cbn [avl_lookup_with]. rewrite Hz. cbn [mbind outcome_bind]. rewrite H1, H2.
  destruct (0 <? c (i_key it) _) eqn:E1; [|destruct (c (i_key it) _ <? 0) eqn:E2]; b2p.
  - rewrite (find_left (Some c)) by done. by apply IHl.
  - rewrite (find_right (Some c)) by done. by apply IHr.
  - rewrite (find_here (Some c)) by (done || (cbn; lia)). done.
Qed.

Lemma rightmost_in it r : rightmost it r ∈ it :: elements r.
Proof. destruct (rightmost_last r it) as [e ->]. set_solver. Qed.

Lemma leftmost_in it l : leftmost it l ∈ elements l ++ [it].
Proof. destruct (leftmost_first l it) as [e ->]. set_solver. Qed.

Lemma removeroot_sim (remove' remove : avl -> item -> outcome (avl * bool)) t x :
  (∀ n y, n ∈ elements t -> remove' t n = Ret y -> remove t n = Ret y) ->
  avl_removeroot_wrk remove' t = Ret x -> avl_removeroot remove t = Ret x.
Proof.
  intros Hsub. destruct t as [|it b l r]; [done|]. cbn [avl_removeroot_wrk avl_removeroot].
  destruct l as [|li lb ll lr], r as [|ri rb rl rr]; try done. intros H. inv_ret. erewrite Hsub; [done| |done].
  pose proof (rightmost_in li lr). pose proof (leftmost_in ri rl). cbn [elements]. destruct (b <? 0); set_solver.
Qed.

Lemma remove_sim cmpn fuel : ∀ root n x,
  (∀ n', n' ∈ n :: elements root -> agrees (cmpn n') (i_key n') (elements root)) ->
  avl_remove_wrk fuel (Some c) root n = Ret x -> avl_remove fuel cmpn root n = Ret x.
Proof.
  induction fuel as [|fuel IH]; intros root n x Hag H; [done|]. destruct root as [|it b l r]; [done|].
  pose proof (agrees_node _ _ _ _ _ _ (Hag n ltac:(set_solver))) as (z & Hz & H1 & H2 & _ & _). cbn [elements] in Hag.
  cbn [avl_remove_wrk avl_remove do_cmp] in *. rewrite Hz. cbn [mbind outcome_bind]. rewrite H1, H2.
  assert (∀ s, (∀ y, y ∈ elements s -> y ∈ elements l ∨ y ∈ elements r) -> ∀ x, avl_remove_wrk fuel (Some c) s n = Ret x ->
    avl_remove fuel cmpn s n = Ret x) as Hsub.
  { intros s Hs y. apply IH. intros n' Hn' w Hw. apply Hag; [|specialize (Hs w Hw); set_solver].
    apply elem_of_cons in Hn' as [->|Hn']; [set_solver|specialize (Hs n' Hn'); set_solver]. }
  revert H. destruct (0 <? c (i_key it) (i_key n)) eqn:E1; [|destruct (c (i_key it) (i_key n) <? 0) eqn:E2]; intros H.
  - destruct l as [|li lb ll lr]; [done|]. inv_ret. erewrite Hsub; [|set_solver|done]. cbn [mbind outcome_bind].
    destruct a as [l' g]. cbn [fst snd] in *. destruct g; [|done]. cbn [set_bal mbind outcome_bind].
    destruct (b =? -1); [done|]. destruct (b =? 0); [done|]. destruct (b =? 1); [|done]. by apply shrunk_left_sim.
  - destruct r as [|ri rb rl rr]; [done|]. inv_ret. erewrite Hsub; [|set_solver|done]. cbn [mbind outcome_bind].
    destruct a as [r' g]. cbn [fst snd] in *. destruct g; [|done]. cbn [set_bal mbind outcome_bind].
    destruct (b =? 1); [done|]. destruct (b =? 0); [done|]. destruct (b =? -1); [|done]. by apply shrunk_right_sim.
  - destruct (vg_assert _); [|done]. cbn [mbind outcome_bind] in *. revert H. apply removeroot_sim.
    intros n' y Hn'. apply IH. cbn [elements]. intros m Hm. apply Hag. set_solver.
Qed.

End Sim.

(** ** Well-formed sets *)

Section Sets.
Implicit Types (t : OSet) (n : item) (k : Z) (l : list item).

(** The order of a set, and the word that a key stands for in it. *)
Definition ord t : Z -> Z -> Z :=
  match cmp t with Some f => fun x y => f (x + keyOff t) y | None => cmp_unsigned_Words end.
Definition probe t k : Z := match cmp t with Some _ => k - keyOff t | None => k end.

(** A node that [OSetGen_AllocNode] has made: it has the magic number, and its key is
    the address of the element if there is a comparison function. *)
Definition keyed t n : Prop :=
  i_val n = OSET_MAGIC ∧ match cmp t with Some _ => i_key n = i_addr n | None => True end.

(** A balanced search tree with the right count, for a comparison function that is
    an order. *)
Record set_ok t : Prop := {
  so_order : KCmpOrder (ord t);
  so_wf : wf (ord t) (root t);
  so_keyed : Forall (keyed t) (elements (root t));
  so_count : nElems t = u32 (Z.of_nat (length (elements (root t)))) }.

Lemma elem_of_node_ok n : i_val n = OSET_MAGIC -> elem_of_node n = Ret (i_addr n).
Proof. unfold elem_of_node. by intros ->. Qed.

Lemma node_of_elem_ok n : i_val n = OSET_MAGIC -> node_of_elem n = Ret (addr_of_node n).
Proof. unfold node_of_elem. by intros ->. Qed.

Lemma fast_cmp_unsigned k n : i_val n = OSET_MAGIC -> fast_cmp k n = Ret (cmp_unsigned_Words k (i_key n)).
Proof.
  intros Hn. unfold fast_cmp, fast_key_of_node, cmp_unsigned_Words. rewrite elem_of_node_ok by done. cbn [mbind outcome_bind].
  f_equal. by destruct (Z.ltb_spec (i_key n) k), (Z.ltb_spec k (i_key n)); try lia.
Qed.

Lemma slow_cmp_ord t f k n : cmp t = Some f -> keyed t n -> slow_cmp f k n = Ret (ord t (probe t k) (i_key n)).
Proof.
  intros Hf [Hn Hk]. unfold slow_cmp, ord, probe. rewrite Hf in *. rewrite elem_of_node_ok, Hk by done.
  cbn [mbind outcome_bind]. do 2 f_equal. lia.
Qed.

Lemma cmp_key_ord t k n : keyed t n -> cmp_key t k n = Ret (ord t (probe t k) (i_key n)).
Proof.
  intros Hn. unfold cmp_key. destruct (cmp t) as [f|] eqn:Hf; [by apply slow_cmp_ord|].
  unfold ord, probe. rewrite Hf. apply fast_cmp_unsigned, Hn.
Qed.

Lemma lookup_cmp_ord t k n : keyed t n -> lookup_cmp (cmp t) k n = Ret (ord t (probe t k) (i_key n)).
Proof.
  intros Hn. unfold lookup_cmp. destruct (cmp t) as [f|] eqn:Hf; [by apply slow_cmp_ord|].
  unfold ord, probe, cmp_unsigned_Words. rewrite Hf. by destruct (Z.ltb_spec (i_key n) k), (Z.ltb_spec k (i_key n)); try lia.
Qed.

Lemma cmp_key_root_ord t n n' : keyed t n -> keyed t n' -> cmp_key_root t n n' = Ret (ord t (i_key n) (i_key n')).
Proof.
  intros [Hn Hk] Hn'. unfold cmp_key_root. destruct (cmp t) as [f|] eqn:Hf.
  - unfold slow_key_of_node. rewrite elem_of_node_ok by done. cbn [mbind outcome_bind].
    rewrite (slow_cmp_ord t) by done. unfold probe. rewrite Hf, Hk. do 2 f_equal. lia.
  - unfold fast_key_of_node. rewrite elem_of_node_ok by done. cbn [mbind outcome_bind].
    unfold ord. rewrite Hf. apply fast_cmp_unsigned, Hn'.
Qed.

Lemma agrees_ord (c : Z -> Z -> Z) `{!KCmpOrder c} (f : item -> outcome Z) k l :
  (∀ n, n ∈ l -> f n = Ret (c k (i_key n))) -> agrees c f k l.
Proof.
  intros Hf n Hn. exists (c k (i_key n)). split; [by apply Hf|]. pose proof (kc_flip k (i_key n)) as Hfl.
  split; apply eq_true_iff_eq; rewrite !Z.ltb_lt; destruct (c k (i_key n)), (c (i_key n) k); simpl in *; lia.
Qed.

(** The comparisons of a key with the nodes of a set. *)
Lemma agrees_set t k f : set_ok t -> (∀ n, keyed t n -> f n = Ret (ord t k (i_key n))) ->
  agrees (ord t) f k (elements (root t)).
Proof.
  intros [Ho _ Hk _] Hf. apply agrees_ord; [done|]. intros n Hn. apply Hf. by apply (proj1 (Forall_forall _ _) Hk).
Qed.

Lemma agrees_key t k : set_ok t -> agrees (ord t) (cmp_key t k) (probe t k) (elements (root t)).
Proof. intros Hok. apply agrees_set; [done|]. intros n. apply cmp_key_ord. Qed.

Lemma agrees_root t n : set_ok t -> keyed t n -> agrees (ord t) (cmp_key_root t n) (i_key n) (elements (root t)).
Proof. intros Hok Hn. apply agrees_set; [done|]. intros n'. by apply cmp_key_root_ord. Qed.

Lemma set_all_magic t : set_ok t -> Forall (fun n => i_val n = OSET_MAGIC) (elements (root t)).
Proof. intros [_ _ Hk _]. eapply Forall_impl; [exact Hk|]. by intros n []. Qed.

Lemma set_magic t n : set_ok t -> n ∈ elements (root t) -> i_val n = OSET_MAGIC.
Proof. intros [_ _ Hk _] Hn. by apply (proj1 (Forall_forall _ _) Hk). Qed.

Lemma alist_find_absent (c : Z -> Z -> Z) k l n : alist_find c k l = None -> n ∈ l -> c (i_key n) k ≠ 0.
Proof.
  intros Hf Hn E. apply list_elem_of_split in Hn as (l1 & l2 & ->). rewrite alist_find_app in Hf. simpl in Hf.
  rewrite (proj2 (Z.eqb_eq _ _) E) in Hf. by destruct (alist_find c k l1).
Qed.

Lemma alist_add_perm (c : Z -> Z -> Z) n l : alist_find c (i_key n) l = None -> alist_add c n l ≡ₚ n :: l.
Proof.
  induction l as [|x l IH]; [done|]. cbn [alist_find alist_add]. repeat case_bool; try done.
  - intros Hf. rewrite IH by done. apply Permutation_swap.
  - lia.
Qed.

Lemma alloc_keyed t p elemSize addr p' n : OSetGen_AllocNode t p elemSize addr = Ret (p', n) -> keyed t n.
Proof.
  unfold OSetGen_AllocNode, keyed. intros H. apply bind_ret_inv in H as (_ & _ & H). apply bind_ret_inv in H as (r & _ & H).
  cbv zeta in H. unfold elem_of_node in H. cbn in H. injection H as _ <-. cbn. by destruct (cmp t).
Qed.

Lemma set_ok_create ko f t : OSetGen_Create ko f = Ret t -> KCmpOrder (ord t) -> set_ok t ∧ root t = Nil ∧ stack t = [].
Proof.
  unfold OSetGen_Create. intros H Ho. destruct f as [f|]; cbn in H; inv_ret; split; try done; split; cbn; try done;
    split; try done; constructor.
Qed.

Lemma oset_insert_ok t n : set_ok t -> keyed t n -> alist_find (ord t) (i_key n) (elements (root t)) = None ->
  ∃ r g, OSetGen_Insert t n = Ret (with_stack [] (with_nElems (u32 (nElems t + 1)) (with_root r t))) ∧
    balanced r ∧ elements r = alist_add (ord t) n (elements (root t)) ∧ height r = (height (root t) + b2n g)%nat.
Proof.
  intros Hok Hn Hf. pose proof (agrees_root t n Hok Hn) as Hag. destruct Hok as [Ho Hwf Hk Hc].
  unfold OSetGen_Insert. rewrite node_of_elem_ok by apply Hn. cbn [mbind outcome_bind].
  destruct (root t) as [|it b l r] eqn:Er.
  { eexists _, true. split; [done|]. split; [apply leaf_balanced|done]. }
  destruct (avl_insert_wrk_ok (Some (ord t)) (Node it b l r) (MaybeW 0 false) n Hwf) as (t' & g & Hi & Hb & Hh & He & _).
  exists t', g. erewrite insert_sim; [|exact Hag| |done|exact Hi]; [done|]. intros x. by apply alist_find_absent.
Qed.

Lemma set_ok_insert t n r : set_ok t -> keyed t n -> alist_find (ord t) (i_key n) (elements (root t)) = None ->
  balanced r -> elements r = alist_add (ord t) n (elements (root t)) ->
  set_ok (with_stack [] (with_nElems (u32 (nElems t + 1)) (with_root r t))).
Proof.
  intros [Ho Hwf Hk Hc] Hn Hf Hb He. pose proof (alist_add_perm (ord t) n _ Hf) as Hp. split; cbn [root nElems with_root with_nElems with_stack].
  - done.
  - split; [done|]. rewrite He. apply alist_add_sorted, Hwf.
  - rewrite He, Hp. constructor; [done|]. exact Hk.
  - rewrite He, Hp, Hc. cbn [length]. unfold u32, wrap. rewrite Zplus_mod_idemp_l. f_equal. lia.
Qed.

Lemma oset_lookup_ok t k : set_ok t ->
  avl_lookup (cmp t) k (root t) = Ret (alist_find (ord t) (probe t k) (elements (root t))).
Proof.
  intros Hok. apply lookup_sim; [apply Hok| |apply Hok]. apply agrees_set; [done|]. intros n. apply lookup_cmp_ord.
Qed.

Lemma oset_get_ok t k : set_ok t ->
  OSetGen_Lookup t k = Ret (i_addr <$> alist_find (ord t) (probe t k) (elements (root t))).
Proof.
  intros Hok. pose proof (so_order t Hok). unfold OSetGen_Lookup, Lookup_root. rewrite oset_lookup_ok by done. cbn [mbind outcome_bind].
  destruct (alist_find _ _ _) as [n|] eqn:Hf; [|done]. apply alist_find_Some in Hf as [Hn _].
  by rewrite elem_of_node_ok by (by apply (set_magic t)).
Qed.

Lemma remove_absent t k : set_ok t -> alist_find (ord t) (probe t k) (elements (root t)) = None ->
  OSetGen_Remove t k = Ret (t, None).
Proof.
  intros Hok Hf. unfold OSetGen_Remove. pose proof (oset_lookup_ok t k Hok) as Hl. rewrite Hf in Hl.
  destruct (root t) as [|it b l r]; [done|]. by rewrite Hl.
Qed.

Lemma remove_ok t k n : set_ok t -> alist_find (ord t) (probe t k) (elements (root t)) = Some n ->
  ∃ r, OSetGen_Remove t k = Ret (with_stack [] (with_nElems (u32 (nElems t - 1)) (with_root r t)), Some n) ∧
    balanced r ∧ elements r = alist_del (ord t) (i_key n) (elements (root t)).
Proof.
  intros Hok Hf. pose proof (so_order t Hok). pose proof (oset_lookup_ok t k Hok) as Hl. rewrite Hf in Hl.
  apply alist_find_Some in Hf as [Hn _]. pose proof (elem_of_node_ok n (set_magic t n Hok Hn)) as He'.
  destruct (avl_remove_wrk_ok (Some (ord t)) (root t) (remove_fuel (root t)) n) as (r & g & Hr & Hb & _ & He);
    [apply Hok|done|lia|].
  exists r. unfold OSetGen_Remove.
  assert (avl_remove (remove_fuel (root t)) (cmp_key_root t) (root t) n = Ret (r, g)) as Hrem.
  { eapply remove_sim; [|exact Hr]. intros n' Hn'. apply agrees_root; [done|].
    apply (proj1 (Forall_forall _ _) (so_keyed t Hok)). set_solver. }
  destruct (root t) as [|it b l r'] eqn:Er; [by apply not_elem_of_nil in Hn|]. rewrite Hl. cbn [mbind outcome_bind]. rewrite Hrem. cbn [mbind outcome_bind]. by rewrite He'.
Qed.

Lemma alist_del_same (c : Z -> Z -> Z) `{!KCmpOrder c} x k l : c x k = 0 -> alist_del c x l = alist_del c k l.
Proof.
  intros Heq. apply list_filter_iff. intros y. pose proof (kc_eq _ _ (i_key y) Heq) as Hs.
  rewrite !(kc_zero_sym (i_key y)). split; intros ?; lia.
Qed.

Lemma alist_del_length (c : Z -> Z -> Z) `{!KCmpOrder c} n l :
  sorted c l -> n ∈ l -> length l = S (length (alist_del c (i_key n) l)).
Proof.
  intros Hs (l1 & l2 & ->)%list_elem_of_split. rewrite del_here by (done || apply kc_refl).
  rewrite !length_app. simpl. lia.
Qed.

Lemma set_ok_remove t n r : set_ok t -> n ∈ elements (root t) -> balanced r ->
  elements r = alist_del (ord t) (i_key n) (elements (root t)) ->
  set_ok (with_stack [] (with_nElems (u32 (nElems t - 1)) (with_root r t))).
Proof.
  intros [Ho Hwf Hk Hc] Hn Hb He. split; cbn [root nElems with_root with_nElems with_stack].
  - done.
  - split; [done|]. rewrite He. apply alist_del_sorted, Hwf.
  - rewrite He. apply Forall_forall. intros x Hx%alist_del_sub. by apply (proj1 (Forall_forall _ _) Hk).
  - rewrite He, Hc. rewrite (alist_del_length (ord t) n (elements (root t))) by (apply Hwf || done).
    unfold u32, wrap. rewrite Zminus_mod_idemp_l. f_equal. lia.
Qed.

End Sets.

(** ** The iterator *)

Section Iterator.
Implicit Types (stk : list (avl * Z)).

(** These are the functions of [WordFM]. *)
Lemma push_left_eq : push_left = WordFM.push_left.
Proof. reflexivity. Qed.

Lemma stackPop_eq : stackPop = WordFM.stackPop.
Proof. reflexivity. Qed.

Lemma stackPush_eq : stackPush = WordFM.stackPush.
Proof. reflexivity. Qed.

(** The nodes that the stack has left have the magic number. *)
Definition magical stk : Prop := Forall (fun n => i_val n = OSET_MAGIC) (remaining stk).

(** The next element is the first that the stack has left. *)
Definition yields stk (res : outcome (list (avl * Z) * option item)) : Prop :=
  ∃ stk', res = Ret (stk', head (remaining stk)) ∧ stack_ok stk' ∧ remaining stk' = tail (remaining stk).

Lemma yields_two fuel n stk : stack_ok ((n, 2) :: stk) -> magical ((n, 2) :: stk) -> yields ((n, 2) :: stk) (next_loop (S fuel) ((n, 2) :: stk)).
Proof.
  intros Hst Hm. pose proof Hst as (Hn & Hi & Hh & Hok). cbn [next_loop]. rewrite stackPop_eq, stackPop_ok by done.
  destruct n as [|it b l r]; [done|]. apply Forall_cons in Hm as [Hm _].
  cbn [height] in Hh. simpl. rewrite stackPush_eq, stackPush_ok, elem_of_node_ok by (done || lia).
  eexists. split; [done|]. split; [|done]. split; [done|]. split; [lia|]. split; [simpl; lia|done].
Qed.

Lemma next_loop_down fuel it b l r i stk : stack_ok ((Node it b l r, i) :: stk) -> i ≠ 2 ->
  next_loop (S fuel) ((Node it b l r, i) :: stk) =
  stk2 ← push_left (if i =? 1 then Node it b l r else r) stk; next_loop fuel stk2.
Proof.
  intros Hok Hi. cbn [next_loop]. rewrite stackPop_eq, stackPop_ok by done. cbn [mbind outcome_bind].
  destruct (i =? 1); [done|]. by rewrite (proj2 (Z.eqb_neq i 2)).
Qed.

Lemma yields_enter fuel n stk :
  n ≠ Nil -> stack_ok stk -> (length stk + height n <= WFM_STKMAX)%nat ->
  Forall (fun n => i_val n = OSET_MAGIC) (WordFM.elements n ++ remaining stk) ->
  ∃ stk', (stk2 ← push_left n stk; next_loop (S fuel) stk2) = Ret (stk', head (WordFM.elements n ++ remaining stk)) ∧
    stack_ok stk' ∧ remaining stk' = tail (WordFM.elements n ++ remaining stk).
Proof.
  intros Hn Hok Hh Hm. rewrite push_left_eq. destruct (push_left_ok n stk) as (stk2 & -> & Hok2 & Hr & Htop); [done|lia|].
  destruct (Htop Hn) as (m & rest & ->). cbn [mbind outcome_bind]. rewrite <- Hr in *. by apply yields_two.
Qed.

Lemma next_loop_yields stk : ∀ fuel, stack_ok stk -> magical stk -> (length stk + 2 <= fuel)%nat -> yields stk (next_loop fuel stk).
Proof.
  induction stk as [|[n i] stk IH]; intros fuel Hok Hm Hf.
  { destruct fuel; [simpl in Hf; lia|]. by exists []. }
  pose proof Hok as (Hn & Hi & Hh & Hok'). simpl in Hf. destruct fuel as [|[|fuel]]; [lia|lia|].
  unfold magical, yields in *. rewrite remaining_cons in *. assert (i = 1 ∨ i = 2 ∨ i = 3) as [->|[->| ->]] by lia.
  - destruct n as [|it b l r]; [done|]. rewrite next_loop_down by done. by apply yields_enter.
  - by apply yields_two.
  - destruct n as [|it b l r]; [done|]. rewrite next_loop_down by done. cbn [height Z.eqb Pos.eqb] in *.
    destruct (decide (r = Nil)) as [->|Hr]; [|apply yields_enter; [done|done|lia|exact Hm]]. apply IH; [done|exact Hm|lia].
Qed.

Lemma iter_at_sim c `{!KCmpOrder c} cmpk k t : ∀ stk, agrees c cmpk k (WordFM.elements t) ->
  iter_at cmpk t stk = WordFM.iter_at (Some c) t k stk.
Proof.
  induction t as [|it b l IHl r IHr]; intros stk Hag; [done|].
  apply agrees_node in Hag as (z & Hz & H1 & H2 & Hagl & Hagr). cbn [iter_at WordFM.iter_at do_cmp]. rewrite Hz. cbn [mbind outcome_bind]. rewrite H1, H2.
  rewrite (sign_bit_spec (c (i_key it) k)) by apply kc_range. rewrite stackPush_eq.
  destruct (Z.ltb_spec 0 (c (i_key it) k)), (Z.ltb_spec (c (i_key it) k) 0); try lia.
  - change (Z.shiftr (u64 1) 63) with 0. rewrite (proj2 (Z.eqb_neq (c _ _) 0)) by lia.
    cbn [Z.eqb Pos.eqb orb vg_assert mbind outcome_bind].
    destruct (WordFM.stackPush stk (Node it b l r) 2); [|done]. by apply IHl.
  - change (Z.shiftr (u64 (-1)) 63) with 1. rewrite (proj2 (Z.eqb_neq (c _ _) 0)) by lia.
    cbn [Z.eqb Pos.eqb orb vg_assert mbind outcome_bind]. by apply IHr.
  - b2p. replace z with 0 by lia. by rewrite (proj2 (Z.eqb_eq (c _ _) 0)) by lia.
Qed.

(** A client that calls [OSetGen_Next] until it gives NULL. *)
Fixpoint drain_set (n : nat) (t : OSet) : outcome (list item) :=
  match n with
  | O => Ret []
  | S n =>
      res ← OSetGen_Next t;
      match res.2 with
      | None => Ret []
      | Some it => rest ← drain_set n res.1; Ret (it :: rest)
      end
  end.

Lemma drain_set_ok n : ∀ t, stack_ok (stack t) -> magical (stack t) -> (length (remaining (stack t)) < n)%nat ->
  drain_set n t = Ret (remaining (stack t)).
Proof.
  induction n as [|n IH]; intros t Hok Hm Hn; [lia|]. cbn [drain_set]. unfold OSetGen_Next.
  destruct (next_loop_yields (stack t) (length (stack t) + 2) Hok) as (stk' & -> & Hok' & Hr); [done|lia|].
  cbn [mbind outcome_bind snd fst]. unfold magical in Hm. destruct (remaining (stack t)) as [|it rest]; [done|].
  apply Forall_cons in Hm as [_ Hm].
  simpl in *. rewrite IH; unfold magical; cbn [stack with_stack]; rewrite ?Hr; [done|done|done|lia].
Qed.

Lemma reset_ok t : (height (root t) <= WFM_STKMAX)%nat ->
  ∃ stk, OSetGen_ResetIter t = Ret (with_stack stk t) ∧ stack_ok stk ∧ remaining stk = WordFM.elements (root t).
Proof.
  intros Hh. unfold OSetGen_ResetIter. destruct (root t) as [|it b l r]; [by exists []|].
  rewrite stackPush_eq, stackPush_ok by (simpl; unfold WFM_STKMAX; lia). eexists. split; [done|].
  split; [|apply app_nil_r]. split; [done|]. split; [lia|]. split; [done|done].
Qed.

(** ** Destruction *)

(** What is still to be freed, and the number of pops that takes. *)
Definition to_free (e : avl * Z) : list item :=
  match e.1 with
  | Nil => []
  | Node it _ l r => if e.2 =? 1 then avl_free e.1 else if e.2 =? 2 then avl_free r ++ [it] else [it]
  end.

Definition pops (e : avl * Z) : nat :=
  match e.1 with
  | Nil => 0
  | Node it _ l r => if e.2 =? 1 then 3 * count_nodes e.1 else if e.2 =? 2 then 2 + 3 * count_nodes r else 1
  end.

Fixpoint pops_all stk : nat := match stk with [] => 0 | e :: stk => pops e + pops_all stk end.

Definition free_item (pooled : bool) (it : item) : node_pa * list Z -> outcome (node_pa * list Z) :=
  free_node pooled (addr_of_node it).

Lemma to_free_down it b l r stk :
  concat (to_free <$> (l, 1) :: (Node it b l r, 2) :: stk) = concat (to_free <$> (Node it b l r, 1) :: stk).
Proof. destruct l; cbn; by rewrite <- ?app_assoc. Qed.

Lemma to_free_across it b l r stk :
  concat (to_free <$> (r, 1) :: (Node it b l r, 3) :: stk) = concat (to_free <$> (Node it b l r, 2) :: stk).
Proof. destruct r; cbn; by rewrite <- ?app_assoc. Qed.

Lemma destroy_loop_ok pooled fuel : ∀ stk s sz, stack_ok stk -> (pops_all stk < fuel)%nat -> 0 <= sz < 2 ^ 64 ->
  destroy_loop fuel pooled stk s sz =
  s ← for_list (concat (to_free <$> stk)) (free_item pooled) s; Ret (s, u64 (sz + Z.of_nat (length (concat (to_free <$> stk))))).
Proof.
  induction fuel as [|fuel IH]; intros stk s sz Hok Hf Hsz; [lia|]. cbn [destroy_loop].
  destruct stk as [|[n i] stk].
  { change (Ret (s, sz) = Ret (s, u64 (sz + 0))). unfold u64. by rewrite Z.add_0_r, wrap_small. }
  rewrite stackPop_eq, stackPop_ok by done. cbn [mbind outcome_bind]. destruct Hok as (Hn & Hi & Hh & Hok).
  destruct n as [|it b l r]; [done|]. cbn [height pops_all pops fst snd count_nodes] in Hh, Hf. rewrite stackPush_eq.
  assert (i = 1 ∨ i = 2 ∨ i = 3) as [->|[->| ->]] by lia; cbn [Z.eqb Pos.eqb] in *.
  - rewrite stackPush_ok by lia. cbn [mbind outcome_bind].
    assert (stack_ok ((Node it b l r, 2) :: stk)) by (repeat split; try done; simpl; lia).
    destruct l as [|li lb ll lr].
    + cbn [mbind outcome_bind]. rewrite IH; [done|done|cbn [pops_all pops fst snd Z.eqb Pos.eqb count_nodes] in *; lia|done].
    + rewrite stackPush_ok by (cbn [length height] in *; lia). cbn [mbind outcome_bind].
      rewrite IH; [|repeat split; try done; cbn [length height] in *; lia|cbn [pops_all pops fst snd Z.eqb Pos.eqb count_nodes] in *; lia|done].
      by rewrite to_free_down.
  - rewrite stackPush_ok by lia. cbn [mbind outcome_bind].
    assert (stack_ok ((Node it b l r, 3) :: stk)) by (repeat split; try done; simpl; lia).
    destruct r as [|ri rb rl rr].
    + cbn [mbind outcome_bind]. rewrite IH; [done|done|cbn [pops_all pops fst snd Z.eqb Pos.eqb count_nodes] in *; lia|done].
    + rewrite stackPush_ok by (cbn [length height] in *; lia). cbn [mbind outcome_bind].
      rewrite IH; [|repeat split; try done; cbn [length height] in *; lia|cbn [pops_all pops fst snd Z.eqb Pos.eqb count_nodes] in *; lia|done].
      by rewrite to_free_across.
  - change (concat (to_free <$> (Node it b l r, 3) :: stk)) with (it :: concat (to_free <$> stk)). cbn [for_list length].
    change (free_item pooled it s) with (free_node pooled (addr_of_node it) s).
    destruct (free_node _ _ s) as [s'|]; [|done]. cbn [mbind outcome_bind].
    rewrite IH; [|done|lia|by apply wrap_range]. destruct (for_list _ _ s'); [|done]. cbn [mbind outcome_bind].
    unfold u64, wrap. rewrite Zplus_mod_idemp_l. do 3 f_equal. lia.
Qed.

Lemma count_nodes_elements t : count_nodes t = length (WordFM.elements t).
Proof. induction t as [|it b l IHl r IHr]; [done|]. cbn. rewrite length_app. cbn. lia. Qed.

Lemma avl_free_perm t : avl_free t ≡ₚ WordFM.elements t.
Proof.
  induction t as [|it b l IHl r IHr]; [done|]. cbn [avl_free WordFM.elements]. rewrite IHl, IHr.
  apply Permutation_app_head. by rewrite <- Permutation_cons_append.
Qed.

Lemma free_items_unpooled l : ∀ p freed,
  for_list l (free_item false) (p, freed) = Ret (p, freed ++ (addr_of_node <$> l)).
Proof.
  induction l as [|it l IH]; intros p freed; cbn [for_list]; [cbn; by rewrite app_nil_r|].
  change (free_item false it (p, freed)) with (Ret (p, freed ++ [addr_of_node it])). cbn [mbind outcome_bind].
  rewrite IH. by rewrite <- app_assoc.
Qed.

Lemma free_items_pooled l : ∀ pa h blocks free used rest freed,
  pool_ok pa h blocks free used -> used ≡ₚ (addr_of_node <$> l) ++ rest ->
  ∃ pa' h' free', for_list l (free_item true) (Some (pa, h), freed) = Ret (Some (pa', h'), freed) ∧
    pool_ok pa' h' blocks free' rest.
Proof.
  induction l as [|it l IH]; intros pa h blocks free used rest freed Hok Hp.
  - exists pa, h, free. split; [done|]. destruct Hok. split; try done. by rewrite <- Hp.
  - cbn [for_list]. change (free_item true it (Some (pa, h), freed)) with
      (r ← freeEltPA pa h (addr_of_node it); Ret (Some r, freed)).
    destruct (freeEltPA_ok pa h blocks free used (addr_of_node it) ((addr_of_node <$> l) ++ rest))
      as [-> Hok']; [done|done| |].
    + eapply used_not_null; [exact Hok|]. rewrite Hp. by left.
    + cbn [mbind outcome_bind]. by apply (IH _ _ _ _ _ _ _ Hok').
Qed.

(** The loop over the whole tree. *)
Lemma destroy_ok t s : (height (root t) <= WFM_STKMAX)%nat ->
  nElems t = Z.of_nat (length (WordFM.elements (root t))) -> nElems t < 2 ^ 64 ->
  (stk ← (match root t with Nil => Ret [] | n => stackPush [] n 1 end);
   r ← destroy_loop (3 * count_nodes (root t) + 1) (pooled t) stk s 0;
   _ ← vg_assert (r.2 =? nElems t); Ret r.1) = for_list (avl_free (root t)) (free_item (pooled t)) s.
Proof.
  intros Hh Hn Hlt.
  assert (length (avl_free (root t)) = length (WordFM.elements (root t))) as Hlen by (by rewrite avl_free_perm).
  assert (∀ stk, stack_ok stk -> concat (to_free <$> stk) = avl_free (root t) -> pops_all stk = (3 * count_nodes (root t))%nat ->
    (r ← destroy_loop (3 * count_nodes (root t) + 1) (pooled t) stk s 0; _ ← vg_assert (r.2 =? nElems t); Ret r.1) =
    for_list (avl_free (root t)) (free_item (pooled t)) s) as Hloop.
  { intros stk Hok Hc Hp. rewrite destroy_loop_ok by (done || lia). rewrite Hc, Hlen.
    destruct (for_list _ _ s) as [s'|]; [|done]. cbn [mbind outcome_bind fst snd]. unfold u64, vg_assert.
    rewrite wrap_small by lia. by rewrite (proj2 (Z.eqb_eq _ _)) by lia. }
  destruct (root t) as [|it b l r] eqn:Er; [by apply (Hloop [])|].
  rewrite stackPush_eq, stackPush_ok by (cbn; unfold WFM_STKMAX; lia). cbn [mbind outcome_bind]. apply Hloop.
  - split; [done|]. split; [lia|]. split; [done|done].
  - apply app_nil_r.
  - cbn [pops_all]. rewrite Nat.add_0_r. done.
Qed.

End Iterator.

(** ** The interface *)

Section Interface.
Implicit Types (t : OSet) (m : gmap Z Z) (l : list item).

(** The map of a set without comparison function. *)
Definition entry (n : item) : Z * Z := (i_key n, i_addr n).

Lemma entries_NoDup c `{!KCmpOrder c} l : sorted c l -> NoDup (entry <$> l).*1.
Proof.
  induction l as [|x l IH]; intros Hs; [constructor|]. apply sorted_cons in Hs as [Hs Hall]. cbn. constructor; [|by apply IH].
  intros (e & E & He)%list_elem_of_fmap. apply list_elem_of_fmap in He as (y & -> & Hy).
  pose proof (Hall y Hy) as Hlt. unfold item_lt in Hlt. cbn in E. rewrite E in Hlt. rewrite kc_refl in Hlt. lia.
Qed.

Lemma set_NoDup t : set_ok t -> NoDup (entry <$> WordFM.elements (root t)).*1.
Proof. intros Hok. pose proof (so_order t Hok). apply (entries_NoDup (ord t)), Hok. Qed.

Lemma find_entry k l : i_addr <$> alist_find cmp_unsigned_Words k l = (list_to_map (entry <$> l) : gmap Z Z) !! k.
Proof.
  induction l as [|x l IH]; [done|]. cbn [alist_find]. rewrite fmap_cons. cbn [list_to_map foldr entry fst snd].
  assert (cmp_unsigned_Words (i_key x) k = 0 <-> i_key x = k) as Hz.
  { unfold cmp_unsigned_Words. repeat case_bool; lia. }
  case_bool.
  - apply Hz in E as ->. by rewrite lookup_insert_eq.
  - rewrite lookup_insert_ne by tauto. apply IH.
Qed.

(** A set holds a map when it is well formed and its elements are the pairs. *)
Definition holds_map t m : Prop :=
  set_ok t ∧ cmp t = None ∧ m = list_to_map (entry <$> WordFM.elements (root t)).

Lemma holds_map_size t m : holds_map t m -> size m = length (WordFM.elements (root t)).
Proof.
  intros (Hok & Hc & ->). rewrite <- length_map_to_list, map_to_list_to_map; [apply length_fmap|by apply set_NoDup].
Qed.

Lemma holds_perm t m : holds_map t m -> entry <$> WordFM.elements (root t) ≡ₚ map_to_list m.
Proof.
  intros (Hok & Hc & ->). symmetry. by apply map_to_list_to_map, set_NoDup.
Qed.

Lemma holds_ord t m : holds_map t m -> ord t = cmp_unsigned_Words.
Proof. intros (_ & Hc & _). unfold ord. by rewrite Hc. Qed.

Lemma holds_create : ∃ t, OSetGen_Create 0 None = Ret t ∧ holds_map t ∅.
Proof.
  eexists. split; [done|]. split; [|done].
  by apply (set_ok_create 0 None _ eq_refl cmp_unsigned_Words_order).
Qed.

Lemma holds_map_lookup t m k : holds_map t m -> OSetGen_Lookup t k = Ret (m !! k).
Proof.
  intros Hh. pose proof (holds_ord t m Hh) as Ho. destruct Hh as (Hok & Hc & ->).
  rewrite oset_get_ok, Ho by done. unfold probe. rewrite Hc. f_equal. apply find_entry.
Qed.

Lemma holds_insert t m e k : holds_map t m -> m !! k = None ->
  ∃ t', OSetGen_Insert t (Item e k OSET_MAGIC) = Ret t' ∧ holds_map t' (<[k := e]> m).
Proof.
  intros Hh Hk. pose proof (holds_ord t m Hh) as Ho. pose proof Hh as (Hok & Hc & ->).
  assert (keyed t (Item e k OSET_MAGIC)) as Hkd by (unfold keyed; by rewrite Hc).
  assert (alist_find (ord t) k (WordFM.elements (root t)) = None) as Hf.
  { rewrite Ho. pose proof (find_entry k (WordFM.elements (root t))) as He. rewrite Hk in He.
    by destruct (alist_find cmp_unsigned_Words k _). }
  destruct (oset_insert_ok t (Item e k OSET_MAGIC) Hok Hkd Hf) as (r & g & -> & Hb & He & _). eexists. split; [done|].
  split; [by apply (set_ok_insert t (Item e k OSET_MAGIC) r)|]. split; [done|]. cbn [root with_root with_nElems with_stack].
  pose proof (so_order t Hok). transitivity (list_to_map (entry <$> Item e k OSET_MAGIC :: WordFM.elements (root t)) : gmap Z Z); [done|].
  apply list_to_map_proper.
  - rewrite fmap_cons. cbn. constructor; [|by apply set_NoDup]. by apply not_elem_of_list_to_map_2 in Hk.
  - rewrite He. by rewrite (alist_add_perm (ord t) (Item e k OSET_MAGIC)).
Qed.

Definition pending_elements t (l : list (Z * Z)) : Prop :=
  stack_ok (stack t) ∧ magical (stack t) ∧ entry <$> remaining (stack t) = l.

Lemma holds_reset t m : holds_map t m -> Z.of_nat (size m) < ITER_LIMIT ->
  ∃ t' (l : list (Z * Z)), OSetGen_ResetIter t = Ret t' ∧ pending_elements t' l ∧ holds_map t' m ∧ l ≡ₚ map_to_list m.
Proof.
  intros Hh Hsz. rewrite (holds_map_size t m Hh) in Hsz. pose proof (holds_perm t m Hh) as Hp. destruct Hh as (Hok & Hc & Hm).
  destruct (reset_ok t) as (stk & -> & Hst & Hr); [apply small_height; [apply Hok|done]|].
  exists (with_stack stk t), (entry <$> WordFM.elements (root t)). split; [done|]. split; [split_and!; [done|unfold magical; cbn [stack with_stack]; rewrite Hr; by apply (set_all_magic t)|by rewrite <- Hr]|].
  split; [|done]. split; [|done]. destruct Hok; by split.
Qed.

Lemma holds_next t (l : list (Z * Z)) : pending_elements t l ->
  ∃ t', (r ← OSetGen_Next t; Ret (r.1, match r.2 with Some n => Some (i_addr n) | None => None end)) = Ret (t', snd <$> head l) ∧
    pending_elements t' (tail l).
Proof.
  intros (Hst & Hm & <-). unfold OSetGen_Next.
  destruct (next_loop_yields (stack t) (length (stack t) + 2) Hst) as (stk' & -> & Hst' & Hr); [done|lia|].
  cbn [mbind outcome_bind fst snd]. eexists. split; [f_equal; f_equal; by destruct (remaining (stack t))|].
  split; [done|]. unfold magical in *. cbn [stack with_stack]. rewrite Hr.
  destruct (remaining (stack t)); [done|]. by apply Forall_cons in Hm as [_ Hm].
Qed.

End Interface.

#[export] Instance OSet_KeyedSet : KeyedSet OSet := {
  ks_create := OSetGen_Create 0 None;
  ks_size := OSetGen_Size;
  ks_lookup := OSetGen_Lookup;
  ks_insert t e w := OSetGen_Insert t (Item e w OSET_MAGIC);
  ks_reset := OSetGen_ResetIter;
  ks_next t := r ← OSetGen_Next t; Ret (r.1, match r.2 with Some n => Some (i_addr n) | None => None end);
}.

#[export] Program Instance OSet_KeyedSetLaws : KeyedSetLaws OSet := {
  ks_holds := holds_map;
  ks_pending := pending_elements;
  ks_limit := ITER_LIMIT;
  ks_create_law := holds_create;
  ks_lookup_law := holds_map_lookup;
  ks_insert_law t m e k := holds_insert t m e k;
  ks_reset_law := holds_reset;
  ks_next_law := holds_next;
}.
Next Obligation.
  intros t m Hh Hsz. rewrite (holds_map_size t m Hh) in *. change (ks_size t) with (nElems t). destruct Hh as ([_ _ _ ->] & _).
  apply wrap_small. unfold UINT_MAX in Hsz. lia.
Qed.

(** * Properties *)

(** C24: A set refines a sorted list of elements, for every comparison function that
    is an order: an insertion keeps the tree balanced, sorted and counted and is an
    insertion into the list, an element whose key is there, or whose node lacks the
    magic number that [OSetGen_AllocNode] writes, fails an assertion, a
    lookup finds the element with the key, and a removal takes it out; no other
    assertion fails and no NULL is dereferenced, as long as clients leave the magic
    numbers of the nodes in the set alone. *)
Theorem oset_refines t :
  set_ok t ->
  (∀ n, keyed t n -> alist_find (ord t) (i_key n) (WordFM.elements (root t)) = None ->
   ∃ t', OSetGen_Insert t n = Ret t' ∧ set_ok t' ∧ cmp t' = cmp t ∧ keyOff t' = keyOff t ∧
     WordFM.elements (root t') = alist_add (ord t) n (WordFM.elements (root t))) ∧
  (∀ n, keyed t n -> is_Some (alist_find (ord t) (i_key n) (WordFM.elements (root t))) ->
   OSetGen_Insert t n = Fault AssertFail) ∧
  (∀ n, i_val n ≠ OSET_MAGIC -> OSetGen_Insert t n = Fault AssertFail) ∧
  (∀ p elemSize addr p' n, OSetGen_AllocNode t p elemSize addr = Ret (p', n) -> keyed t n) ∧
  (∀ k, OSetGen_Lookup t k = Ret (i_addr <$> alist_find (ord t) (probe t k) (WordFM.elements (root t)))) ∧
  (∀ k, ∃ t', OSetGen_Remove t k = Ret (t', alist_find (ord t) (probe t k) (WordFM.elements (root t))) ∧
     set_ok t' ∧ cmp t' = cmp t ∧ keyOff t' = keyOff t ∧
     WordFM.elements (root t') = alist_del (ord t) (probe t k) (WordFM.elements (root t))) ∧
  OSetGen_Size t = u32 (Z.of_nat (length (WordFM.elements (root t)))).
Proof.
  intros Hok. pose proof (so_order t Hok). split; [|split; [|split; [|split; [|split; [|split]]]]].
  - intros n Hn Hf. destruct (oset_insert_ok t n Hok Hn Hf) as (r & g & -> & Hb & He & _). eexists. split; [done|].
    by split; [apply (set_ok_insert t n r)|].
  - intros n Hn Hf. unfold OSetGen_Insert. pose proof (agrees_root t n Hok Hn) as Hag.
    pose proof (insert_duplicate (ord t) (cmp_key_root t n) n (root t) Hag (proj2 (so_wf t Hok)) H Hf) as Hi.
    rewrite node_of_elem_ok by apply Hn. cbn [mbind outcome_bind].
    destruct (root t); [by destruct Hf|]. by rewrite Hi.
  - intros n Hn. unfold OSetGen_Insert, node_of_elem. by rewrite (proj2 (Z.eqb_neq _ _) Hn).
  - apply alloc_keyed.
  - intros k. by apply oset_get_ok.
  - intros k. destruct (alist_find (ord t) (probe t k) _) as [n|] eqn:Hf.
    + destruct (remove_ok t k n Hok Hf) as (r & -> & Hb & He). eexists. split; [done|].
      pose proof (alist_find_Some _ _ _ Hf) as [Hn Hk].
      split; [by apply (set_ok_remove t n r)|]. split; [done|]. split; [done|].
      cbn [root with_root with_nElems with_stack]. rewrite He. by apply alist_del_same.
    + exists t. rewrite remove_absent by done. split; [done|]. split; [done|]. split; [done|]. split; [done|].
      symmetry. apply alist_del_id. intros x. by apply alist_find_absent.
  - apply Hok.
Qed.

(** Below 9,227,464 elements the stack of 32 nodes is enough: the iterator gives
    every element once in the order of the keys, from the first or from a key on,
    and the destruction of a set frees every node once and passes its check of the
    count; nodes of a shared pool go back to the pool, and a pool that is not
    shared is freed as a whole. *)
Theorem oset_iteration t k :
  set_ok t -> Z.of_nat (length (WordFM.elements (root t))) < ITER_LIMIT ->
  let n := S (length (WordFM.elements (root t))) in
  (∃ t', OSetGen_ResetIter t = Ret t' ∧ drain_set n t' = Ret (WordFM.elements (root t))) ∧
  (∃ t', OSetGen_ResetIterAt t k = Ret t' ∧
     drain_set n t' = Ret (filter (fun x => 0 <= ord t (i_key x) (probe t k)) (WordFM.elements (root t)))) ∧
  (pooled t = false -> ∃ freed, OSetGen_Destroy t None = Ret (None, freed) ∧
     freed ≡ₚ addr_of_node <$> WordFM.elements (root t)) ∧
  (∀ pa h blocks free used others, pooled t = true -> pool_ok pa h blocks free used ->
     used ≡ₚ (addr_of_node <$> WordFM.elements (root t)) ++ others ->
     (nrRef pa = 1 -> ∃ pa', OSetGen_Destroy t (Some (pa, h)) = Ret (Some (pa', h), blocks)) ∧
     (1 < nrRef pa -> ∃ pa' h' free', OSetGen_Destroy t (Some (pa, h)) = Ret (Some (pa', h'), []) ∧
        pool_ok pa' h' blocks free' others)).
Proof.
  intros Hok Hn n. pose proof (small_height _ (proj1 (so_wf t Hok)) Hn) as Hh. pose proof (so_order t Hok).
  assert (nElems t = Z.of_nat (length (WordFM.elements (root t)))) as Hc.
  { rewrite (so_count t Hok). apply wrap_small. unfold ITER_LIMIT in Hn. lia. }
  pose proof (set_all_magic t Hok) as Hm.
  assert (nElems t < 2 ^ 64) as Hlt by (rewrite Hc; unfold ITER_LIMIT in Hn; lia).
  split; [|split; [|split]].
  - destruct (reset_ok t Hh) as (stk & -> & Hst & Hr). eexists. split; [done|].
    rewrite drain_set_ok; cbn [stack with_stack]; [by rewrite Hr|done|unfold magical; by rewrite Hr|by rewrite Hr; unfold n; lia].
  - unfold OSetGen_ResetIterAt. rewrite (iter_at_sim (ord t) (cmp_key t k) (probe t k) (root t) [] (agrees_key t k Hok)).
    destruct (WordFM.iter_at_ok (Some (ord t)) (root t) (probe t k) [] (proj2 (so_wf t Hok))) as (stk & -> & Hst & Hr);
      [done|done|]. cbn [mbind outcome_bind]. eexists. split; [done|]. cbn in Hr. rewrite app_nil_r in Hr.
    rewrite drain_set_ok; cbn [stack with_stack]; [by rewrite Hr|done| |].
    { unfold magical. rewrite Hr. apply Forall_forall. intros x [_ Hx]%list_elem_of_filter. by apply (set_magic t). }
    rewrite Hr. unfold n.
    pose proof (length_filter (fun x => 0 <= ord t (i_key x) (probe t k)) (WordFM.elements (root t))). unfold WordFM.from_key. cbn. lia.
  - intros Hp. unfold OSetGen_Destroy. rewrite Hp. cbn [mbind outcome_bind fst snd].
    pose proof (destroy_ok t (None, []) Hh Hc Hlt) as Hd. rewrite Hp in Hd. rewrite Hd.
    rewrite free_items_unpooled. eexists. split; [done|]. by rewrite avl_free_perm.
  - intros pa h blocks free used others Hp Hpool Hu. split; intros Hr.
    + unfold OSetGen_Destroy, releasePA. rewrite Hp, Hr. cbn [mbind outcome_bind fst snd vg_assert Z.ltb Z.compare].
      cbn. rewrite (deletePA_ok _ h blocks free used); [by eexists|by apply pool_ok_nrRef|done].
    + unfold OSetGen_Destroy, releasePA. rewrite Hp. unfold vg_assert. rewrite (proj2 (Z.ltb_lt 0 _)) by lia.
      cbn [mbind outcome_bind fst snd nrRef with_nrRef]. rewrite (proj2 (Z.eqb_neq _ _)) by lia.
      cbn [mbind outcome_bind fst snd]. rewrite (proj2 (Z.ltb_lt 0 _)) by lia. cbn [negb].
      pose proof (destroy_ok t (Some (with_nrRef (nrRef pa - 1) pa, h), []) Hh Hc Hlt) as Hd. rewrite Hp in Hd.
      destruct (free_items_pooled (avl_free (root t)) (with_nrRef (nrRef pa - 1) pa) h blocks free used others [])
        as (pa' & h' & free' & Hf & Hok'); [by apply pool_ok_nrRef|by rewrite avl_free_perm|].
      exists pa', h', free'. split; [|done]. etrans; [exact Hd|exact Hf].
Qed.

(** * Witnesses *)

Definition demo_set : OSet :=
  match (t ← OSetGen_Create 0 None; t ← OSetGen_Insert t (Item 1000 7 OSET_MAGIC); OSetGen_Insert t (Item 2000 3 OSET_MAGIC)) with
  | Ret t => t
  | Fault _ => AvlTree 0 None false 0 0 Nil []
  end.

Lemma demo_set_ok : set_ok demo_set.
Proof.
  split; [apply cmp_unsigned_Words_order| | |done].
  - split; [vm_compute; repeat split; first [done|lia]|].
    cbn. apply sorted_cons. split; [apply sorted_cons; split; [constructor|set_solver]|].
    intros y ->%list_elem_of_singleton. done.
  - repeat constructor.
Qed.

Lemma oset_refines_witness :
  OSetGen_Lookup demo_set 7 = Ret (Some 1000) ∧ OSetGen_Insert demo_set (Item 3000 4 0) = Fault AssertFail ∧ OSetGen_Insert demo_set (Item 3000 3 OSET_MAGIC) = Fault AssertFail ∧
  ∃ t, OSetGen_Remove demo_set 3 = Ret (t, Some (Item 2000 3 OSET_MAGIC)).
Proof.
  destruct (oset_refines demo_set demo_set_ok) as (_ & Hd & Hg & _ & Hl & Hr & _).
  split; [rewrite Hl; reflexivity|]. split; [by apply Hg|]. split.
  - apply Hd; [done|]. exists (Item 2000 3 OSET_MAGIC). reflexivity.
  - destruct (Hr 3) as (t & Ht & _). exists t. exact Ht.
Defined.

Lemma oset_iteration_witness :
  (∃ t, OSetGen_ResetIter demo_set = Ret t ∧ drain_set 3 t = Ret [Item 2000 3 OSET_MAGIC; Item 1000 7 OSET_MAGIC]) ∧
  ∃ t, OSetGen_ResetIterAt demo_set 4 = Ret t ∧ drain_set 3 t = Ret [Item 1000 7 OSET_MAGIC].
Proof.
  destruct (oset_iteration demo_set 4 demo_set_ok) as (Hi & Ha & _); [reflexivity|]. split; [exact Hi|exact Ha].
Defined.
