(* ===== verification/McShadow.v ===== *)
(** * memcheck/mc_main.c: the shadow memory

    For each byte of the client Memcheck keeps whether it may be addressed and which
    of its bits are defined. Two bits per byte say noaccess, undefined, defined or
    partially defined; they lie in secondary maps of 64 KB of client memory each,
    which a primary map (below 128 GB) or an auxiliary one with a front cache finds.
    The V bits of partially defined bytes are in a table that is garbage collected.
    Both the auxiliary map and this table are ordered sets, of which only the
    interface [KeyedSet] is used.

    Pointers to secondary maps are addresses, with 0, 1 and 2 for the three
    distinguished ones; allocated memory comes from an [Allocator]. Statistics are
    left out, and origin tracking is off (clo_mc_level below 3). *)

From stdpp Require Import gmap fin_maps.
From S2P Require Import Prelude PoolAlloc WordFM OSet.
Local Open Scope Z_scope.

(** * Definitions *)

(** ** Constants and bit fields *)

Definition N_PRIMARY_BITS : Z := 21.
Definition N_PRIMARY_MAP : Z := Z.shiftl 1 N_PRIMARY_BITS.
Definition MAX_PRIMARY_ADDRESS : Z := 65536 * N_PRIMARY_MAP - 1.

Definition V_BITS8_DEFINED : Z := 0.
Definition V_BITS8_UNDEFINED : Z := 0xFF.

Definition VA_BITS2_NOACCESS : Z := 0.
Definition VA_BITS2_UNDEFINED : Z := 1.
Definition VA_BITS2_DEFINED : Z := 2.
Definition VA_BITS2_PARTDEFINED : Z := 3.

Definition VA_BITS8_NOACCESS : Z := 0x00.
Definition VA_BITS8_UNDEFINED : Z := 0x55.
Definition VA_BITS8_DEFINED : Z := 0xaa.

Definition SM_SIZE : Z := 65536.
Definition SM_MASK : Z := SM_SIZE - 1.
Definition SM_CHUNKS : Z := 16384.
Definition SM_OFF (a : Z) : Z := Z.shiftr (Z.land a 0xffff) 2.
Definition SM_OFF_16 (a : Z) : Z := Z.shiftr (Z.land a 0xffff) 3.

Definition start_of_this_sm (a : Z) : Z := Z.land a (Z.lnot SM_MASK).
Definition is_start_of_sm (a : Z) : bool := start_of_this_sm a =? a.

Definition insert_vabits2_into_vabits8 (a vabits2 vabits8 : Z) : Z :=
  let shift := Z.shiftl (Z.land a 3) 1 in
  let vabits8 := u8 (Z.land vabits8 (Z.lnot (Z.shiftl 0x3 shift))) in
  u8 (Z.lor vabits8 (Z.shiftl vabits2 shift)).

Definition extract_vabits2_from_vabits8 (a vabits8 : Z) : Z :=
  let shift := Z.shiftl (Z.land a 3) 1 in
  let vabits8 := Z.shiftr vabits8 shift in
  Z.land 0x3 vabits8.

Definition insert_vabits4_into_vabits8 (a vabits4 vabits8 : Z) : outcome Z :=
  _ ← vg_assert (Z.land a 1 =? 0);
  let shift := Z.shiftl (Z.land a 2) 1 in
  let vabits8 := u8 (Z.land vabits8 (Z.lnot (Z.shiftl 0xf shift))) in
  Ret (u8 (Z.lor vabits8 (Z.shiftl vabits4 shift))).

Definition extract_vabits4_from_vabits8 (a vabits8 : Z) : outcome Z :=
  _ ← vg_assert (Z.land a 1 =? 0);
  let shift := Z.shiftl (Z.land a 2) 1 in
  let vabits8 := Z.shiftr vabits8 shift in
  Ret (Z.land 0xf vabits8).

(** ** Secondary maps

    The bytes of a map that are not in [bytes] are [fill]. *)
Record SecMap := SMap { fill : Z; bytes : gmap Z Z }.

Definition sm_byte (m : SecMap) (i : Z) : Z := default (fill m) (bytes m !! i).

Definition SM_DIST_NOACCESS : Z := 0.
Definition SM_DIST_UNDEFINED : Z := 1.
Definition SM_DIST_DEFINED : Z := 2.

Definition is_distinguished_sm (sm : Z) : bool := (0 <=? sm) && (sm <=? 2).

(** What [VG_(am_shadow_alloc)] and [VG_(malloc)] return when the blocks at the
    addresses [used] are allocated. *)
Class Allocator := {
  malloc : gset Z -> Z;
  malloc_fresh : ∀ used, malloc used ∉ used;
  malloc_not_dist : ∀ used, 3 <= malloc used;
}.

(** ** The state *)

Definition N_AUXMAP_L1 : Z := 24.
Definition AUXMAP_L1_INSERT_IX : Z := 12.
Definition BYTES_PER_SEC_VBIT_NODE : Z := 16.

(** An addressing error that is reported: address, size, whether it is a write. *)
Record addr_error := AddrErr { ae_addr : Z; ae_size : Z; ae_write : bool }.

(** [primary_map] has the entries that differ from the initial noaccess one. An
    entry of the front cache is a base and an address of an [AuxMapEnt] (0 for
    NULL); those are in [ents], as base and [sm]. The nodes of the table of V bits
    are in [vnodes], as address and V bits. *)
Record mc (T : Type) := MC {
  primary_map : gmap Z Z;
  secmaps : gmap Z SecMap;
  auxmap_L1 : list (Z * Z);
  auxmap_L2 : T;
  ents : gmap Z (Z * Z);
  secVBitTable : T;
  vnodes : gmap Z (Z * list Z);
  secVBitLimit : Z;
  GCs_done : Z;
  errors : list addr_error }.
Arguments MC {T} _ _ _ _ _ _ _ _ _ _.
Arguments primary_map {T} _.
Arguments secmaps {T} _.
Arguments auxmap_L1 {T} _.
Arguments auxmap_L2 {T} _.
Arguments ents {T} _.
Arguments secVBitTable {T} _.
Arguments vnodes {T} _.
Arguments secVBitLimit {T} _.
Arguments GCs_done {T} _.
Arguments errors {T} _.

(** Code that reads and writes the state, and may stop. *)
Definition M (T A : Type) : Type := mc T -> outcome (A * mc T).

#[export] Instance M_ret {T} : MRet (M T) := fun A x s => Ret (x, s).
#[export] Instance M_bind {T} : MBind (M T) := fun A B k m s => r ← m s; k r.1 r.2.

Definition lift {T A} (o : outcome A) : M T A := fun s => x ← o; Ret (x, s).
Definition gets {T A} (f : mc T -> A) : M T A := fun s => Ret (f s, s).
Definition modify {T} (f : mc T -> mc T) : M T unit := fun s => Ret (tt, f s).
Definition tl_assert {T} (b : bool) : M T unit := lift (vg_assert b).

(** [for (i ...)] over a list of indices. *)
Fixpoint for_each {T A} (l : list A) (body : A -> M T unit) : M T unit :=
  match l with [] => mret tt | x :: l => body x ≫= fun _ => for_each l body end.

Section Code.
Context {T : Type} `{!KeyedSet T} `{!Allocator}.
Notation mc := (mc T).
Notation M := (M T).

Definition set_primary_map (x : gmap Z Z) (s : mc) : mc :=
  MC x (secmaps s) (auxmap_L1 s) (auxmap_L2 s) (ents s) (secVBitTable s) (vnodes s) (secVBitLimit s) (GCs_done s) (errors s).
Definition set_secmaps (x : gmap Z SecMap) (s : mc) : mc :=
  MC (primary_map s) x (auxmap_L1 s) (auxmap_L2 s) (ents s) (secVBitTable s) (vnodes s) (secVBitLimit s) (GCs_done s) (errors s).
Definition set_auxmap_L1 (x : list (Z * Z)) (s : mc) : mc :=
  MC (primary_map s) (secmaps s) x (auxmap_L2 s) (ents s) (secVBitTable s) (vnodes s) (secVBitLimit s) (GCs_done s) (errors s).
Definition set_auxmap_L2 (x : T) (s : mc) : mc :=
  MC (primary_map s) (secmaps s) (auxmap_L1 s) x (ents s) (secVBitTable s) (vnodes s) (secVBitLimit s) (GCs_done s) (errors s).
Definition set_ents (x : gmap Z (Z * Z)) (s : mc) : mc :=
  MC (primary_map s) (secmaps s) (auxmap_L1 s) (auxmap_L2 s) x (secVBitTable s) (vnodes s) (secVBitLimit s) (GCs_done s) (errors s).
Definition set_table (t : T) (ns : gmap Z (Z * list Z)) (s : mc) : mc :=
  MC (primary_map s) (secmaps s) (auxmap_L1 s) (auxmap_L2 s) (ents s) t ns (secVBitLimit s) (GCs_done s) (errors s).
Definition set_limit (n : Z) (s : mc) : mc :=
  MC (primary_map s) (secmaps s) (auxmap_L1 s) (auxmap_L2 s) (ents s) (secVBitTable s) (vnodes s) n (GCs_done s) (errors s).
Definition set_GCs_done (n : Z) (s : mc) : mc :=
  MC (primary_map s) (secmaps s) (auxmap_L1 s) (auxmap_L2 s) (ents s) (secVBitTable s) (vnodes s) (secVBitLimit s) n (errors s).
Definition add_error (e : addr_error) (s : mc) : mc :=
  MC (primary_map s) (secmaps s) (auxmap_L1 s) (auxmap_L2 s) (ents s) (secVBitTable s) (vnodes s) (secVBitLimit s) (GCs_done s) (errors s ++ [e]).

(** A byte of a secondary map, [sm->vabits8[i]], and a pair of them,
    [sm->vabits16[j]], on a little-endian host. *)
Definition the_map (sm : Z) : M SecMap :=
  fun s => match secmaps s !! sm with Some m => Ret (m, s) | None => Fault NullDeref end.

Definition get_vabits8 (sm i : Z) : M Z :=
  m ← the_map sm; if (0 <=? i) && (i <? SM_CHUNKS) then mret (sm_byte m i) else lift (Fault OutOfBounds).

Definition put_vabits8 (sm i v : Z) : M unit :=
  m ← the_map sm;
  if (0 <=? i) && (i <? SM_CHUNKS) then
    modify (fun s => set_secmaps (<[sm := SMap (fill m) (<[i := v]> (bytes m))]> (secmaps s)) s)
  else lift (Fault OutOfBounds).

Definition get_vabits16 (sm j : Z) : M Z :=
  lo ← get_vabits8 sm (2 * j); hi ← get_vabits8 sm (2 * j + 1); mret (Z.lor lo (Z.shiftl hi 8)).

Definition put_vabits16 (sm j v : Z) : M unit :=
  _ ← put_vabits8 sm (2 * j) (Z.land v 0xff); put_vabits8 sm (2 * j + 1) (Z.land (Z.shiftr v 8) 0xff).

Definition copy_for_writing (dist_sm : Z) : M Z :=
  _ ← tl_assert (is_distinguished_sm dist_sm);
  new_sm ← gets (fun s => malloc (dom (secmaps s)));
  m ← the_map dist_sm;
  _ ← modify (fun s => set_secmaps (<[new_sm := m]> (secmaps s)) s);
  mret new_sm.

(** ** The auxiliary map *)

Definition get_L1 (i : Z) : M (Z * Z) := l ← gets auxmap_L1; lift (arr_get l i).
Definition put_L1 (i : Z) (e : Z * Z) : M unit :=
  l ← gets auxmap_L1; l ← lift (arr_set l i e); modify (set_auxmap_L1 l).

(** [ent->base] and [ent->sm]. *)
Definition load_ent (ent : Z) : M (Z * Z) :=
  fun s => match ents s !! ent with Some e => Ret (e, s) | None => Fault NullDeref end.

Definition insert_into_auxmap_L1_at (rank ent : Z) : M unit :=
  _ ← tl_assert (negb (ent =? 0));
  _ ← tl_assert ((0 <=? rank) && (rank <? N_AUXMAP_L1));
  _ ← for_each (reverse (seqZ (rank + 1) (N_AUXMAP_L1 - 1 - rank))) (fun i => e ← get_L1 (i - 1); put_L1 i e);
  e ← load_ent ent;
  put_L1 rank (e.1, ent).

(** [t = auxmap_L1[i-1]; auxmap_L1[i-1] = auxmap_L1[i]; auxmap_L1[i] = t]. *)
Definition swap_L1 (i : Z) : M unit :=
  t ← get_L1 (i - 1); e ← get_L1 i; _ ← put_L1 (i - 1) e; put_L1 i t.

(** The first index with the base. *)
Fixpoint find_base (i : Z) (l : list (Z * Z)) (a : Z) : option Z :=
  match l with [] => None | e :: l => if e.1 =? a then Some i else find_base (i + 1) l a end.

(** The result is the address of an entry, or 0. *)
Definition maybe_find_in_auxmap (a : Z) : M Z :=
  _ ← tl_assert (MAX_PRIMARY_ADDRESS <? a);
  let a := Z.land a (Z.lnot 0xFFFF) in
  e0 ← get_L1 0;
  if e0.1 =? a then mret e0.2
  else
    e1 ← get_L1 1;
    if e1.1 =? a then _ ← swap_L1 1; e0 ← get_L1 0; mret e0.2
    else
      l ← gets auxmap_L1;
      match find_base 0 l a with
      | Some i =>
          i ← (if 0 <? i then _ ← swap_L1 i; mret (i - 1) else mret i);
          e ← get_L1 i; mret e.2
      | None =>
          t ← gets auxmap_L2;
          found ← lift (ks_lookup t a);
          match found with
          | Some res => _ ← insert_into_auxmap_L1_at AUXMAP_L1_INSERT_IX res; mret res
          | None => mret 0
          end
      end.

Definition find_or_alloc_in_auxmap (a : Z) : M Z :=
  res ← maybe_find_in_auxmap a;
  if negb (res =? 0) then mret res
  else
    let a := Z.land a (Z.lnot 0xFFFF) in
    nyu ← gets (fun s => malloc (dom (ents s)));
    _ ← modify (fun s => set_ents (<[nyu := (a, SM_DIST_NOACCESS)]> (ents s)) s);
    t ← gets auxmap_L2;
    t ← lift (ks_insert t nyu a);
    _ ← modify (set_auxmap_L2 t);
    _ ← insert_into_auxmap_L1_at AUXMAP_L1_INSERT_IX nyu;
    mret nyu.

(** ** Finding a secondary map

    A [SecMap**] points into the primary map or to the field of an entry. *)
Inductive secmap_ptr := PrimaryMap (ix : Z) | EntSm (ent : Z).

Definition load_ptr (p : secmap_ptr) : M Z :=
  match p with
  | PrimaryMap ix =>
      if (0 <=? ix) && (ix <? N_PRIMARY_MAP) then gets (fun s => default SM_DIST_NOACCESS (primary_map s !! ix))
      else lift (Fault OutOfBounds)
  | EntSm ent => e ← load_ent ent; mret e.2
  end.

Definition store_ptr (p : secmap_ptr) (sm : Z) : M unit :=
  match p with
  | PrimaryMap ix =>
      if (0 <=? ix) && (ix <? N_PRIMARY_MAP) then modify (fun s => set_primary_map (<[ix := sm]> (primary_map s)) s)
      else lift (Fault OutOfBounds)
  | EntSm ent => e ← load_ent ent; modify (fun s => set_ents (<[ent := (e.1, sm)]> (ents s)) s)
  end.

Definition get_secmap_low_ptr (a : Z) : M secmap_ptr := mret (PrimaryMap (Z.shiftr a 16)).
Definition get_secmap_high_ptr (a : Z) : M secmap_ptr := am ← find_or_alloc_in_auxmap a; mret (EntSm am).
Definition get_secmap_ptr (a : Z) : M secmap_ptr :=
  if a <=? MAX_PRIMARY_ADDRESS then get_secmap_low_ptr a else get_secmap_high_ptr a.

Definition get_secmap_for_reading_low (a : Z) : M Z := p ← get_secmap_low_ptr a; load_ptr p.
Definition get_secmap_for_reading_high (a : Z) : M Z := p ← get_secmap_high_ptr a; load_ptr p.

Definition get_secmap_for_writing_low (a : Z) : M Z :=
  p ← get_secmap_low_ptr a;
  sm ← load_ptr p;
  _ ← (if is_distinguished_sm sm then sm ← copy_for_writing sm; store_ptr p sm else mret tt);
  load_ptr p.

Definition get_secmap_for_writing_high (a : Z) : M Z :=
  p ← get_secmap_high_ptr a;
  sm ← load_ptr p;
  _ ← (if is_distinguished_sm sm then sm ← copy_for_writing sm; store_ptr p sm else mret tt);
  load_ptr p.

Definition get_secmap_for_reading (a : Z) : M Z :=
  if a <=? MAX_PRIMARY_ADDRESS then get_secmap_for_reading_low a else get_secmap_for_reading_high a.
Definition get_secmap_for_writing (a : Z) : M Z :=
  if a <=? MAX_PRIMARY_ADDRESS then get_secmap_for_writing_low a else get_secmap_for_writing_high a.

(** NULL is [None]. *)
Definition maybe_get_secmap_for (a : Z) : M (option Z) :=
  if a <=? MAX_PRIMARY_ADDRESS then sm ← get_secmap_for_reading_low a; mret (Some sm)
  else am ← maybe_find_in_auxmap a; if am =? 0 then mret None else e ← load_ent am; mret (Some e.2).

(** ** Two bits, four bytes *)

Definition set_vabits2 (a vabits2 : Z) : M unit :=
  sm ← get_secmap_for_writing a;
  v ← get_vabits8 sm (SM_OFF a);
  put_vabits8 sm (SM_OFF a) (insert_vabits2_into_vabits8 a vabits2 v).

Definition get_vabits2 (a : Z) : M Z :=
  sm ← get_secmap_for_reading a;
  vabits8 ← get_vabits8 sm (SM_OFF a);
  mret (extract_vabits2_from_vabits8 a vabits8).

Definition get_vabits8_for_aligned_word32 (a : Z) : M Z :=
  sm ← get_secmap_for_reading a; get_vabits8 sm (SM_OFF a).

Definition set_vabits8_for_aligned_word32 (a vabits8 : Z) : M unit :=
  sm ← get_secmap_for_writing a; put_vabits8 sm (SM_OFF a) vabits8.

(** ** The table of V bits *)

Definition createSecVBitTable : outcome T := ks_create.

(** Does the node at address [a] have a byte that is partially defined? *)
Fixpoint any_partdefined (l : list Z) (a : Z) : M bool :=
  match l with
  | [] => mret false
  | i :: l =>
      v ← get_vabits2 (u64 (a + i));
      if VA_BITS2_PARTDEFINED =? v then mret true else any_partdefined l a
  end.

(** The traversal of the table [t], which copies the nodes to keep into the table
    [t2] with nodes [ns2]. *)
Fixpoint gc_loop (fuel : nat) (t t2 : T) (ns2 : gmap Z (Z * list Z)) : M (T * gmap Z (Z * list Z)) :=
  match fuel with
  | O => lift (Fault OutOfFuel)
  | S fuel =>
      r ← lift (ks_next t);
      match r.2 with
      | None => mret (t2, ns2)
      | Some n =>
          ns ← gets vnodes;
          match ns !! n with
          | None => lift (Fault NullDeref)
          | Some node =>
              keep ← any_partdefined (seqZ 0 BYTES_PER_SEC_VBIT_NODE) node.1;
              if keep : bool then
                let n2 := malloc (dom ns2) in
                t2 ← lift (ks_insert t2 n2 node.1);
                gc_loop fuel r.1 t2 (<[n2 := node]> ns2)
              else gc_loop fuel r.1 t2 ns2
          end
      end
  end.

(** Products of doubles. An [Int] is exact as a double, the constants are
    [m * 2 ^ - e] with 53-bit [m], and a product is rounded to 53 bits, to even on
    ties. *)
Definition round53 (x : Z) : Z :=
  let e := Z.log2 x - 52 in
  if e <=? 0 then x
  else
    let q := Z.shiftr x e in
    let r := x - Z.shiftl q e in
    let half := Z.shiftl 1 (e - 1) in
    let q := if (half <? r) || ((r =? half) && Z.odd q) then q + 1 else q in
    Z.shiftl q e.

Definition STEPUP_GROWTH_FACTOR : Z := 6369051670845502. (* 1.414213562, e = 52 *)
Definition DRIFTUP_GROWTH_FACTOR : Z := 4571153621781053. (* 1.015, e = 52 *)
Definition DRIFTUP_SURVIVOR_PROPORTION : Z := 5404319552844595. (* 0.15, e = 55 *)
Definition DRIFTUP_MAX_SIZE : Z := 80000.

(** [n > limit * 0.5], exact; [n > limit * 0.15]; [(Int)(limit * factor)]. *)
Definition above_stepup (n limit : Z) : bool := limit <? 2 * n.
Definition above_driftup (n limit : Z) : bool := round53 (limit * DRIFTUP_SURVIVOR_PROPORTION) <? Z.shiftl n 55.
Definition scale (limit factor : Z) : outcome Z := int_ (Z.shiftr (round53 (limit * factor)) 52).

Definition gcSecVBitTable : M unit :=
  _ ← modify (fun s => set_GCs_done (u32 (GCs_done s + 1)) s);
  secVBitTable2 ← lift createSecVBitTable;
  t ← gets secVBitTable;
  t ← lift (ks_reset t);
  r ← gc_loop (S (Z.to_nat (ks_size t))) t secVBitTable2 ∅;
  let n_survivors := ks_size r.1 in
  _ ← modify (set_table r.1 r.2);
  secVBitLimit ← gets secVBitLimit;
  if above_stepup n_survivors secVBitLimit then
    l ← lift (scale secVBitLimit STEPUP_GROWTH_FACTOR); modify (set_limit l)
  else if (secVBitLimit <? DRIFTUP_MAX_SIZE) && above_driftup n_survivors secVBitLimit then
    l ← lift (scale secVBitLimit DRIFTUP_GROWTH_FACTOR); modify (set_limit l)
  else mret tt.

Definition VG_ROUNDDN16 (a : Z) : Z := Z.land a (Z.lnot (BYTES_PER_SEC_VBIT_NODE - 1)).

Definition get_sec_vbits8 (a : Z) : M Z :=
  let aAligned := VG_ROUNDDN16 a in
  let amod := a mod BYTES_PER_SEC_VBIT_NODE in
  t ← gets secVBitTable;
  n ← lift (ks_lookup t aAligned);
  match n with
  | None => lift (Fault AssertFail)
  | Some n =>
      ns ← gets vnodes;
      match ns !! n with
      | None => lift (Fault NullDeref)
      | Some node =>
          vbits8 ← lift (arr_get node.2 amod);
          _ ← tl_assert (negb (V_BITS8_DEFINED =? vbits8) && negb (V_BITS8_UNDEFINED =? vbits8));
          mret vbits8
      end
  end.

Definition set_sec_vbits8 (a vbits8 : Z) : M unit :=
  let aAligned := VG_ROUNDDN16 a in
  let amod := a mod BYTES_PER_SEC_VBIT_NODE in
  t ← gets secVBitTable;
  n ← lift (ks_lookup t aAligned);
  _ ← tl_assert (negb (V_BITS8_DEFINED =? vbits8) && negb (V_BITS8_UNDEFINED =? vbits8));
  match n with
  | Some n =>
      ns ← gets vnodes;
      match ns !! n with
      | None => lift (Fault NullDeref)
      | Some node =>
          l ← lift (arr_set node.2 amod (u8 vbits8));
          modify (set_table t (<[n := (node.1, l)]> ns))
      end
  | None =>
      limit ← gets secVBitLimit;
      _ ← (if limit =? ks_size t then gcSecVBitTable else mret tt);
      t ← gets secVBitTable;
      ns ← gets vnodes;
      let n := malloc (dom ns) in
      let l := replicate 16 V_BITS8_UNDEFINED in
      l ← lift (arr_set l amod (u8 vbits8));
      t ← lift (ks_insert t n aAligned);
      modify (set_table t (<[n := (aAligned, l)]> ns))
  end.

(** ** The V bits of a byte

    The result is whether the byte may be addressed. *)
Definition set_vbits8 (a vbits8 : Z) : M bool :=
  vabits2 ← get_vabits2 a;
  if negb (VA_BITS2_NOACCESS =? vabits2) then
    vabits2 ← (if V_BITS8_DEFINED =? vbits8 then mret VA_BITS2_DEFINED
               else if V_BITS8_UNDEFINED =? vbits8 then mret VA_BITS2_UNDEFINED
               else _ ← set_sec_vbits8 a vbits8; mret VA_BITS2_PARTDEFINED);
    _ ← set_vabits2 a vabits2; mret true
  else mret false.

Definition get_vbits8 (a : Z) : M (bool * Z) :=
  vabits2 ← get_vabits2 a;
  if VA_BITS2_DEFINED =? vabits2 then mret (true, V_BITS8_DEFINED)
  else if VA_BITS2_UNDEFINED =? vabits2 then mret (true, V_BITS8_UNDEFINED)
  else if VA_BITS2_NOACCESS =? vabits2 then mret (false, V_BITS8_DEFINED)
  else
    _ ← tl_assert (VA_BITS2_PARTDEFINED =? vabits2);
    v ← get_sec_vbits8 a; mret (true, v).

(** ** Initialisation *)

Definition init_auxmap_L1_L2 : outcome (list (Z * Z) * T) :=
  t ← ks_create; Ret (replicate 24 (0, 0), t).

Definition init_shadow_memory : outcome mc :=
  r ← init_auxmap_L1_L2;
  t ← createSecVBitTable;
  Ret (MC ∅ {[ SM_DIST_NOACCESS := SMap VA_BITS8_NOACCESS ∅; SM_DIST_UNDEFINED := SMap VA_BITS8_UNDEFINED ∅;
              SM_DIST_DEFINED := SMap VA_BITS8_DEFINED ∅ ]} r.1 r.2 ∅ t ∅ 1000 0 []).

End Code.

(** * Lemmas *)

(** ** Postconditions

    [wp m Q s]: [m] started in [s] returns, with a result and a state in [Q]. *)

Definition wp {T A} (m : M T A) (Q : A -> mc T -> Prop) (s : mc T) : Prop :=
  ∃ x s', m s = Ret (x, s') ∧ Q x s'.

Section Rules.
Context {T : Type}.
Implicit Types (s : mc T).

Lemma wp_mono {A} (m : M T A) (Q R : A -> mc T -> Prop) s :
  wp m Q s -> (∀ x s', Q x s' -> R x s') -> wp m R s.
Proof. intros (x & s' & E & HQ) HR. exists x, s'. eauto. Qed.

Lemma wp_ret {A} (x : A) (Q : A -> mc T -> Prop) s : Q x s -> wp (mret x) Q s.
Proof. intros H. by exists x, s. Qed.

Lemma wp_bind {A B} (m : M T A) (k : A -> M T B) (Q : B -> mc T -> Prop) s :
  wp m (fun x => wp (k x) Q) s -> wp (m ≫= k) Q s.
Proof.
  intros (x & s' & E & y & s'' & E' & HQ). exists y, s''. split; [|done].
  unfold mbind, M_bind. by rewrite E.
Qed.

Lemma wp_gets {A} (f : mc T -> A) (Q : A -> mc T -> Prop) s : Q (f s) s -> wp (gets f) Q s.
Proof. intros H. by exists (f s), s. Qed.

Lemma wp_modify f (Q : unit -> mc T -> Prop) s : Q tt (f s) -> wp (modify f) Q s.
Proof. intros H. by exists tt, (f s). Qed.

Lemma wp_lift {A} (o : outcome A) x (Q : A -> mc T -> Prop) s : o = Ret x -> Q x s -> wp (lift o) Q s.
Proof. intros -> H. by exists x, s. Qed.

Lemma wp_assert b (Q : unit -> mc T -> Prop) s : b = true -> Q tt s -> wp (tl_assert b) Q s.
Proof. intros -> H. by exists tt, s. Qed.

(** A loop keeps what its body keeps. *)
Lemma wp_for_each {A} (l : list A) (body : A -> M T unit) (I : list A -> mc T -> Prop) s :
  I l s ->
  (∀ x l' s', x ∈ l -> I (x :: l') s' -> wp (body x) (fun _ => I l') s') ->
  wp (for_each l body) (fun _ => I []) s.
Proof.
  revert s. induction l as [|x l IH]; intros s Hl Hb; simpl; [by apply wp_ret|].
  apply wp_bind. eapply wp_mono; [apply (Hb x l s); [left|done]|].
  intros [] s' H. apply IH; [done|]. intros y l' s'' Hy. apply Hb. by right.
Qed.

End Rules.

(** One step of a computation. *)
Ltac wp_step :=
  lazymatch goal with
  | |- wp (mret _) _ _ => apply wp_ret
  | |- wp (gets _) _ _ => apply wp_gets
  | |- wp (modify _) _ _ => apply wp_modify
  | |- wp (_ ≫= _) _ _ => apply wp_bind
  end.
Ltac wp_steps := repeat (wp_step; cbv beta).

(** Linear arithmetic with quotients and remainders. *)
Ltac dlia := Z.to_euclidean_division_equations; lia.

(** ** Addresses and bit fields *)

Definition word (a : Z) : Prop := 0 <= a < 2 ^ 64.

(** The 64 KB of an address, the line of the table of V bits it is in. *)
Definition base_of (a : Z) : Z := a / 65536 * 65536.
Definition line_of (a : Z) : Z := a / 16 * 16.

Lemma max_primary : MAX_PRIMARY_ADDRESS = 137438953471.
Proof. done. Qed.

Lemma land_lnot_ones a n : 0 <= n -> Z.land a (Z.lnot (Z.ones n)) = a / 2 ^ n * 2 ^ n.
Proof. intros Hn. rewrite <- Z.ldiff_land, Z.ldiff_ones_r, Z.shiftr_div_pow2, Z.shiftl_mul_pow2 by done. done. Qed.

Lemma base_of_land a : Z.land a (Z.lnot 0xFFFF) = base_of a.
Proof. apply (land_lnot_ones a 16). lia. Qed.

Lemma line_of_land a : VG_ROUNDDN16 a = line_of a.
Proof. apply (land_lnot_ones a 4). lia. Qed.

Lemma base_of_idem a : base_of (base_of a) = base_of a.
Proof. unfold base_of. by rewrite Z.div_mul. Qed.

Lemma base_of_le a : base_of a <= a < base_of a + 65536.
Proof. unfold base_of. dlia. Qed.

Lemma base_of_word a : word a -> word (base_of a).
Proof. unfold word, base_of. dlia. Qed.

Lemma base_of_high a : MAX_PRIMARY_ADDRESS < a <-> MAX_PRIMARY_ADDRESS < base_of a.
Proof. rewrite max_primary. unfold base_of. dlia. Qed.

Lemma shiftr_16 a : Z.shiftr a 16 = a / 65536.
Proof. by rewrite Z.shiftr_div_pow2. Qed.

Lemma SM_OFF_mod a : SM_OFF a = a mod 65536 / 4.
Proof.
  unfold SM_OFF. change 0xffff with (Z.ones 16). by rewrite Z.land_ones, Z.shiftr_div_pow2 by lia.
Qed.

Lemma SM_OFF_range a : 0 <= SM_OFF a < SM_CHUNKS.
Proof. rewrite SM_OFF_mod. unfold SM_CHUNKS. dlia. Qed.

(** Two addresses have their bits in the same byte if they are in the same word. *)
Lemma same_word a b : base_of b = base_of a ∧ SM_OFF b = SM_OFF a <-> b / 4 = a / 4.
Proof. rewrite !SM_OFF_mod. unfold base_of. split; dlia. Qed.

Lemma extract_mod a v : extract_vabits2_from_vabits8 a v = Z.land 3 (Z.shiftr v (2 * (a mod 4))).
Proof.
  unfold extract_vabits2_from_vabits8. change 3 with (Z.ones 2) at 2. rewrite Z.land_ones by lia.
  by do 2 f_equal.
Qed.

Lemma extract_range a v : 0 <= v -> 0 <= extract_vabits2_from_vabits8 a v < 4.
Proof.
  intros Hv. rewrite extract_mod, Z.land_comm. change 3 with (Z.ones 2). rewrite Z.land_ones by lia. by apply Z.mod_pos_bound.
Qed.

(** All four positions, values of two bits, values of four bytes. *)
Definition check_insert (y : Z) : bool :=
  forallb (fun x => forallb (fun v2 => forallb (fun v =>
    let r := insert_vabits2_into_vabits8 y v2 v in
    (0 <=? r) && (r <? 256) && (Z.land 3 (Z.shiftr r (2 * x)) =? (if x =? y then v2 else Z.land 3 (Z.shiftr v (2 * x)))))
    (seqZ 0 256)) (seqZ 0 4)) (seqZ 0 4).

Lemma insert_extract a b v2 v : 0 <= v2 < 4 -> 0 <= v < 256 ->
  0 <= insert_vabits2_into_vabits8 a v2 v < 256 ∧
  extract_vabits2_from_vabits8 b (insert_vabits2_into_vabits8 a v2 v) =
  if b mod 4 =? a mod 4 then v2 else extract_vabits2_from_vabits8 b v.
Proof.
  intros Hv2 Hv.
  assert (insert_vabits2_into_vabits8 a v2 v = insert_vabits2_into_vabits8 (a mod 4) v2 v) as ->.
  { unfold insert_vabits2_into_vabits8. change 3 with (Z.ones 2). rewrite !Z.land_ones by lia. change (2 ^ 2) with 4.
    by rewrite Z.mod_mod. }
  rewrite !extract_mod. generalize (Z.mod_pos_bound b 4 eq_refl), (Z.mod_pos_bound a 4 eq_refl).
  generalize (b mod 4), (a mod 4). intros x y Hx Hy.
  assert (forallb check_insert (seqZ 0 4) = true) as Hall by (by vm_compute).
  pose proof (forall_below _ _ (forall_below _ _ (forall_below _ _ (forall_below _ _ Hall y Hy) x Hx) v2 Hv2) v Hv) as E.
  cbv beta zeta in E. clear Hall. b2p. split; [split; assumption|assumption].
Qed.

(** ** What a lookup finds *)

Section Find.
Context {T : Type} `{!KeyedSet T} `{!KeyedSetLaws T}.

Definition ks_find (t : T) (k : Z) : option Z := match ks_lookup t k with Ret r => r | Fault _ => None end.

Lemma ks_find_law t m k : ks_holds t m -> ks_find t k = m !! k.
Proof. intros Hm. unfold ks_find. by rewrite (ks_lookup_law t m). Qed.

Lemma ks_lookup_find t m k : ks_holds t m -> ks_lookup t k = Ret (ks_find t k).
Proof. intros Hm. by rewrite (ks_find_law t m), (ks_lookup_law t m). Qed.

Lemma ks_find_Some (t : T) k e : ks_find t k = Some e -> ks_lookup t k = Ret (Some e).
Proof. unfold ks_find. destruct (ks_lookup t k) as [r|]; [by intros ->|done]. Qed.
End Find.

(** ** What a state says of an address *)

Section Views.
Context {T : Type} `{!KeyedSet T}.
Implicit Types (s : mc T) (a b : Z).

(** The secondary map of an address. *)
Definition sm_at s a : Z :=
  if a <=? MAX_PRIMARY_ADDRESS then default SM_DIST_NOACCESS (primary_map s !! Z.shiftr a 16)
  else match ks_find (auxmap_L2 s) (base_of a) with
       | Some e => match ents s !! e with Some x => x.2 | None => SM_DIST_NOACCESS end
       | None => SM_DIST_NOACCESS
       end.

Definition byte_at s a : Z :=
  match secmaps s !! sm_at s a with Some m => sm_byte m (SM_OFF a) | None => 0 end.

Definition vab2 s a : Z := extract_vabits2_from_vabits8 a (byte_at s a).

(** The entry of a byte in the table of V bits, 0 if there is none. *)
Definition pdb s a : Z :=
  match ks_find (secVBitTable s) (line_of a) with
  | Some n => match vnodes s !! n with Some x => default 0 (x.2 !! Z.to_nat (a mod 16)) | None => 0 end
  | None => 0
  end.
Definition has_pdb s a : Prop := 0 < pdb s a < 255.

(** The abstract shadow memory: no access, or the V bits of the byte. *)
Definition v_of (vabits2 : Z) : option Z :=
  if vabits2 =? VA_BITS2_NOACCESS then None
  else if vabits2 =? VA_BITS2_UNDEFINED then Some V_BITS8_UNDEFINED
  else Some V_BITS8_DEFINED.

Definition abs s a : option Z :=
  if vab2 s a =? VA_BITS2_PARTDEFINED then Some (pdb s a) else v_of (vab2 s a).

(** The states have the same table of V bits and have reported the same errors. *)
Definition same_table s s' : Prop :=
  secVBitTable s' = secVBitTable s ∧ vnodes s' = vnodes s ∧ secVBitLimit s' = secVBitLimit s ∧
  errors s' = errors s.

(** ... and the same secondary maps for all addresses. *)
Definition same_maps s s' : Prop := (∀ a, sm_at s' a = sm_at s a) ∧ secmaps s' = secmaps s.
Definition quiet s s' : Prop := same_maps s s' ∧ same_table s s'.

#[global] Instance same_table_preorder : PreOrder same_table.
Proof.
  split; [by intros s|]. intros s1 s2 s3 (?&?&?&?) (?&?&?&?). repeat split; congruence.
Qed.
#[global] Instance same_maps_preorder : PreOrder same_maps.
Proof.
  split; [by intros s|]. intros s1 s2 s3 (E1&?) (E2&?). split; [|congruence]. intros a. by rewrite E2, E1.
Qed.
#[global] Instance quiet_preorder : PreOrder quiet.
Proof.
  split; [by intros s|]. intros s1 s2 s3 (?&?) (?&?). split; by etrans.
Qed.

Lemma same_maps_byte s s' a : same_maps s s' -> byte_at s' a = byte_at s a.
Proof. intros [E1 E2]. unfold byte_at. by rewrite E1, E2. Qed.

Lemma same_maps_vab2 s s' a : same_maps s s' -> vab2 s' a = vab2 s a.
Proof. intros E. unfold vab2. by rewrite (same_maps_byte s s'). Qed.

Lemma same_table_pdb s s' a : same_table s s' -> pdb s' a = pdb s a.
Proof. intros (E1&E2&_). unfold pdb. by rewrite E1, E2. Qed.

Lemma quiet_abs s s' a : quiet s s' -> abs s' a = abs s a.
Proof. intros [E1 E2]. unfold abs. by rewrite (same_maps_vab2 s s'), (same_table_pdb s s'). Qed.

Lemma abs_noaccess s a : abs s a = None <-> vab2 s a = VA_BITS2_NOACCESS.
Proof.
  unfold abs, v_of, VA_BITS2_NOACCESS, VA_BITS2_UNDEFINED, VA_BITS2_PARTDEFINED.
  repeat case_bool; split; try done; try lia.
Qed.

(** The address matters only for its 64 KB. *)
Lemma sm_at_base s a b : base_of a = base_of b -> sm_at s a = sm_at s b.
Proof.
  intros E. unfold sm_at. rewrite E, !shiftr_16.
  assert (a / 65536 = b / 65536) as -> by (unfold base_of in E; lia).
  pose proof (base_of_high a). pose proof (base_of_high b).
  destruct (a <=? _) eqn:Ea, (b <=? _) eqn:Eb; b2p; first [done|rewrite E in *; lia].
Qed.

Lemma byte_at_word s a b : a / 4 = b / 4 -> byte_at s a = byte_at s b.
Proof. intros E. apply same_word in E as [E1 E2]. unfold byte_at. by rewrite (sm_at_base s a b), E2. Qed.

End Views.

(** ** The invariant of the maps *)

Section Maps.
Context {T : Type} `{!KeyedSet T} `{!KeyedSetLaws T}.
Implicit Types (s : mc T) (a b : Z) (l : list (Z * Z)).

(** An entry of the front cache agrees with the auxiliary map. *)
Definition L1_entry (t : T) (e : Z * Z) : Prop :=
  e = (0, 0) ∨ MAX_PRIMARY_ADDRESS < e.1 ∧ e.2 ≠ 0 ∧ ks_find t e.1 = Some e.2.

Record L1_ok (t : T) l : Prop := {
  L1_length : length l = 24%nat;
  L1_entries : Forall (L1_entry t) l;
  L1_nodup : NoDup (filter (fun b => b ≠ 0) l.*1) }.

Definition L2_ok (t : T) (es : gmap Z (Z * Z)) : Prop :=
  ∃ m, ks_holds t m ∧
    ∀ b e, m !! b = Some e ->
      3 <= e ∧ base_of b = b ∧ MAX_PRIMARY_ADDRESS < b ∧ word b ∧ ∃ sm, es !! e = Some (b, sm).

(** The distinguished maps are constant; every address has a map; those of
    different 64 KB are different, unless distinguished. *)
Record core s : Prop := {
  core_dist : ∀ d, is_distinguished_sm d = true -> ∃ m, secmaps s !! d = Some m ∧ ∀ i, sm_byte m i = d * 85;
  core_bytes : ∀ k m i, secmaps s !! k = Some m -> 0 <= sm_byte m i < 256;
  core_sm : ∀ a, word a -> is_Some (secmaps s !! sm_at s a);
  core_sep : ∀ a b, word a -> word b -> sm_at s a = sm_at s b ->
    base_of a = base_of b ∨ is_distinguished_sm (sm_at s a) = true;
  core_L1 : L1_ok (auxmap_L2 s) (auxmap_L1 s);
  core_L2 : L2_ok (auxmap_L2 s) (ents s) }.

Lemma byte_at_range s a : core s -> 0 <= byte_at s a < 256.
Proof.
  intros Hs. unfold byte_at. destruct (secmaps s !! sm_at s a) as [m|] eqn:E; [|lia]. by eapply core_bytes.
Qed.

Lemma vab2_range s a : core s -> 0 <= vab2 s a < 4.
Proof. intros Hs. apply extract_range. pose proof (byte_at_range s a Hs). lia. Qed.

(** The invariant does not depend on the table of V bits and the errors. *)
Lemma core_ext s s' : core s -> primary_map s' = primary_map s -> secmaps s' = secmaps s ->
  auxmap_L1 s' = auxmap_L1 s -> auxmap_L2 s' = auxmap_L2 s -> ents s' = ents s -> core s'.
Proof.
  intros [] E1 E2 E3 E4 E5. destruct s, s'. simpl in *. subst. by constructor.
Qed.

(** *** The front cache *)

Lemma L1_ok_perm t l l' : l ≡ₚ l' -> L1_ok t l -> L1_ok t l'.
Proof.
  intros E []. constructor; [by rewrite <- E..|].
  assert (filter (fun b => b ≠ 0) l.*1 ≡ₚ filter (fun b => b ≠ 0) l'.*1) as <- by (by rewrite E). done.
Qed.

Lemma L1_lookup t l i e : L1_ok t l -> l !! i = Some e -> e.1 ≠ 0 -> ks_find t e.1 = Some e.2 ∧ e.2 ≠ 0.
Proof.
  intros [_ HF _] Hi He. rewrite Forall_lookup in HF. destruct (HF _ _ Hi) as [->|(?&?&?)]; done.
Qed.

(** The list after an insertion. *)
Definition L1_inserted l (e : Z * Z) : list (Z * Z) := take 12 l ++ e :: take 11 (drop 12 l).

Lemma L1_ok_insert t l e : L1_ok t l -> L1_entry t e -> (∀ x, x ∈ l -> x.1 ≠ e.1) -> L1_ok t (L1_inserted l e).
Proof.
  intros [Hl HF Hn] He Hx. unfold L1_inserted. constructor.
  - rewrite length_app. simpl. rewrite !length_take, length_drop. lia.
  - apply Forall_app; split; [by apply Forall_take|]. constructor; [done|]. by apply Forall_take, Forall_drop.
  - rewrite fmap_app, fmap_cons, filter_app, filter_cons.
    assert (∃ r, l = take 12 l ++ take 11 (drop 12 l) ++ r) as [r Hr].
    { exists (drop 11 (drop 12 l)). by rewrite !take_drop. }
    assert (NoDup (filter (fun b => b ≠ 0) (take 12 l).*1 ++ filter (fun b => b ≠ 0) (take 11 (drop 12 l)).*1)) as Hd.
    { rewrite Hr in Hn. rewrite !fmap_app, !filter_app, app_assoc in Hn. by apply NoDup_app in Hn as [? _]. }
    case_decide as E0; [|done].
    rewrite <- Permutation_middle. constructor; [|done].
    rewrite <- filter_app, <- fmap_app, list_elem_of_filter, list_elem_of_fmap. intros (_ & x & E & Hin).
    apply (Hx x); [|done]. rewrite Hr. set_solver.
Qed.

End Maps.

(** ** Finding secondary maps *)

Section Finding.
Context {T : Type} `{!KeyedSet T} `{!KeyedSetLaws T} `{!Allocator}.
Implicit Types (s : mc T) (a b : Z) (l : list (Z * Z)).

Lemma wp_get_L1 s i e (Q : Z * Z -> mc T -> Prop) :
  0 <= i -> auxmap_L1 s !! Z.to_nat i = Some e -> Q e s -> wp (get_L1 i) Q s.
Proof. intros Hi He HQ. unfold get_L1. wp_steps. eapply wp_lift; [by apply arr_get_Some|done]. Qed.

Lemma wp_put_L1 s i e (Q : unit -> mc T -> Prop) :
  0 <= i < Z.of_nat (length (auxmap_L1 s)) -> Q tt (set_auxmap_L1 (<[Z.to_nat i := e]> (auxmap_L1 s)) s) ->
  wp (put_L1 i e) Q s.
Proof. intros Hi HQ. unfold put_L1. wp_steps. eapply wp_lift; [by apply arr_set_in_range|]. by apply wp_modify. Qed.

(** Exchanging two neighbours is a permutation. *)
Lemma swap_perm l (i : nat) x y : l !! i = Some x -> l !! S i = Some y ->
  <[S i := x]> (<[i := y]> l) ≡ₚ l.
Proof.
  intros Hx Hy. assert (length (take i l) = i) as Hlen by (apply lookup_lt_Some in Hx; rewrite length_take; lia).
  rewrite <- (take_drop_middle _ _ _ Hx). rewrite <- (take_drop_middle l (S i) y Hy) in Hx |- *.
  assert (take i (take (S i) l ++ y :: drop (S (S i)) l) = take i l) as ->.
  { rewrite take_app, take_take, length_take. replace (min i (S i)) with i by lia.
    apply lookup_lt_Some in Hy. replace (i - S i `min` length l)%nat with 0%nat by lia. by rewrite app_nil_r. }
  assert (drop (S i) (take (S i) l ++ y :: drop (S (S i)) l) = y :: drop (S (S i)) l) as ->.
  { rewrite drop_app_length'; [done|]. rewrite length_take. apply lookup_lt_Some in Hy. lia. }
  rewrite <- Hlen at 1 2. rewrite insert_app_r_alt by lia. rewrite Nat.sub_diag. simpl.
  rewrite insert_app_r_alt by lia. replace (S (length (take i l)) - length (take i l))%nat with 1%nat by lia. simpl.
  apply Permutation_app_head. apply Permutation_swap.
Qed.

Lemma wp_swap_L1 s i x y (Q : unit -> mc T -> Prop) :
  0 < i -> auxmap_L1 s !! Z.to_nat (i - 1) = Some x -> auxmap_L1 s !! Z.to_nat i = Some y ->
  (∀ l, l ≡ₚ auxmap_L1 s -> l !! Z.to_nat (i - 1) = Some y -> Q tt (set_auxmap_L1 l s)) -> wp (swap_L1 i) Q s.
Proof.
  intros Hi Hx Hy HQ. unfold swap_L1.
  pose proof (lookup_lt_Some _ _ _ Hx). pose proof (lookup_lt_Some _ _ _ Hy).
  wp_step. eapply wp_get_L1; [lia|done|]. wp_step. eapply wp_get_L1; [lia|done|].
  wp_step. apply wp_put_L1; [lia|]. apply wp_put_L1; [simpl; rewrite length_insert; lia|]. simpl.
  replace (Z.to_nat i) with (S (Z.to_nat (i - 1))) in * by lia.
  apply HQ; [by apply swap_perm|].
  rewrite list_lookup_insert_ne by lia. rewrite list_lookup_insert_eq by lia. done.
Qed.

Lemma find_base_spec l a i :
  match find_base i l a with
  | Some j => i <= j ∧ ∃ e, l !! Z.to_nat (j - i) = Some e ∧ e.1 = a
  | None => ∀ e, e ∈ l -> e.1 ≠ a
  end.
Proof.
  revert i. induction l as [|x l IH]; intros i; simpl; [set_solver|].
  case_bool. { split; [lia|]. exists x. by rewrite Z.sub_diag. }
  specialize (IH (i + 1)). destruct (find_base (i + 1) l a) as [j|].
  - destruct IH as (? & e & He & <-). split; [lia|]. exists e. split; [|done].
    by replace (Z.to_nat (j - i)) with (S (Z.to_nat (j - (i + 1)))) by lia.
  - intros e [->|?]%elem_of_cons; auto.
Qed.

Lemma wp_shift_L1 s (Q : unit -> mc T -> Prop) :
  length (auxmap_L1 s) = 24%nat ->
  (∀ e, Q tt (set_auxmap_L1 (take 12 (auxmap_L1 s) ++ e :: take 11 (drop 12 (auxmap_L1 s))) s)) ->
  wp (for_each (reverse (seqZ (AUXMAP_L1_INSERT_IX + 1) (N_AUXMAP_L1 - 1 - AUXMAP_L1_INSERT_IX)))
        (fun i => e ← get_L1 (i - 1); put_L1 i e)) Q s.
Proof.
  destruct s as [pm sms l t es tb ns n g er]. cbn [auxmap_L1]. intros Hl HQ.
  do 24 (destruct l as [|? l]; [discriminate|]). destruct l; [|discriminate].
  assert (reverse (seqZ (AUXMAP_L1_INSERT_IX + 1) (N_AUXMAP_L1 - 1 - AUXMAP_L1_INSERT_IX)) =
    [23; 22; 21; 20; 19; 18; 17; 16; 15; 14; 13]) as -> by reflexivity.
  cbn [for_each].
  do 11 (do 2 wp_step; eapply wp_get_L1; [done|reflexivity|]; cbv beta; apply wp_put_L1; [done|];
    unfold set_auxmap_L1; cbn [auxmap_L1 primary_map secmaps auxmap_L2 ents secVBitTable vnodes secVBitLimit GCs_done errors];
    match goal with |- context [<[?n := ?x]> ?k] => let k' := eval cbv in (<[n := x]> k) in change (<[n := x]> k) with k' end; cbv beta).
  apply wp_ret, HQ.
Qed.

Lemma wp_insert_into_auxmap_L1_at s e x (Q : unit -> mc T -> Prop) :
  length (auxmap_L1 s) = 24%nat -> e ≠ 0 -> ents s !! e = Some x ->
  Q tt (set_auxmap_L1 (L1_inserted (auxmap_L1 s) (x.1, e)) s) ->
  wp (insert_into_auxmap_L1_at AUXMAP_L1_INSERT_IX e) Q s.
Proof.
  intros Hl He Hx HQ. unfold insert_into_auxmap_L1_at.
  wp_step. apply wp_assert; [by apply negb_true_iff, Z.eqb_neq|].
  wp_step. apply wp_assert; [done|]. wp_step. apply wp_shift_L1; [done|]. intros y.
  wp_step. exists x. eexists. split; [unfold load_ent; simpl; by rewrite Hx|].
  apply wp_put_L1; simpl; [rewrite length_app; simpl; rewrite !length_take, length_drop, Hl; unfold AUXMAP_L1_INSERT_IX; lia|].
  unfold set_auxmap_L1 in *; simpl. unfold L1_inserted in HQ.
  change (Z.to_nat AUXMAP_L1_INSERT_IX) with 12%nat.
  assert (length (take 12 (auxmap_L1 s)) = 12%nat) as Ht by (rewrite length_take; lia).
  rewrite insert_app_r_alt, Ht by lia. exact HQ.
Qed.

Lemma set_auxmap_L1_same s l : quiet s (set_auxmap_L1 l s).
Proof. by split; split. Qed.

Lemma set_auxmap_L1_core s l : core s -> L1_ok (auxmap_L2 s) l -> core (set_auxmap_L1 l s).
Proof. intros [] Hl. by constructor. Qed.

(** The front cache only reorders. *)
Lemma wp_maybe_find_in_auxmap s a (Q : Z -> mc T -> Prop) :
  core s -> word a -> MAX_PRIMARY_ADDRESS < a ->
  (∀ l, L1_ok (auxmap_L2 s) l -> (ks_find (auxmap_L2 s) (base_of a) = None -> l ≡ₚ auxmap_L1 s) ->
    Q (default 0 (ks_find (auxmap_L2 s) (base_of a))) (set_auxmap_L1 l s)) ->
  wp (maybe_find_in_auxmap a) Q s.
Proof.
  intros Hs Hw Ha HQ. unfold maybe_find_in_auxmap. rewrite base_of_land.
  pose proof (core_L1 s Hs) as HL. pose proof (L1_length _ _ HL) as Hlen.
  assert (base_of a ≠ 0) as Hb0. { apply base_of_high in Ha. rewrite max_primary in Ha. lia. }
  assert (∀ i e, auxmap_L1 s !! i = Some e -> e.1 = base_of a ->
    ∀ l, l ≡ₚ auxmap_L1 s -> Q e.2 (set_auxmap_L1 l s)) as Hit.
  { intros i e He Ee l Hl. destruct (L1_lookup _ _ _ _ HL He) as [E _]; [congruence|].
    rewrite Ee in E. specialize (HQ l). rewrite E in HQ. apply HQ; [|done]. by eapply L1_ok_perm. }
  assert (set_auxmap_L1 (auxmap_L1 s) s = s) as Hsame by (by destruct s).
  wp_step. apply wp_assert; [by apply Z.ltb_lt|].
  destruct (lookup_lt_is_Some_2 (auxmap_L1 s) 0) as [e0 He0]; [lia|].
  destruct (lookup_lt_is_Some_2 (auxmap_L1 s) 1) as [e1 He1]; [lia|].
  wp_step. eapply wp_get_L1; [done|exact He0|]. case_bool.
  { apply wp_ret. rewrite <- Hsame. by eapply Hit. }
  wp_step. eapply wp_get_L1; [done|exact He1|]. case_bool.
  { wp_step. eapply wp_swap_L1; [done|exact He0|exact He1|]. intros l Hl Hi.
    wp_step. eapply wp_get_L1; [done|exact Hi|]. apply wp_ret. by eapply Hit. }
  wp_steps. pose proof (find_base_spec (auxmap_L1 s) (base_of a) 0) as Hf.
  destruct (find_base _ _ _) as [j|].
  - destruct Hf as (Hj & e & He & Ee). rewrite Z.sub_0_r in He. destruct (0 <? j) eqn:Epos; b2p.
    + pose proof (lookup_lt_Some _ _ _ He).
      destruct (lookup_lt_is_Some_2 (auxmap_L1 s) (Z.to_nat (j - 1))) as [x Hx]; [lia|].
      wp_steps. eapply wp_swap_L1; [done|exact Hx|exact He|]. intros l Hl Hi.
      wp_steps. eapply wp_get_L1; [lia|exact Hi|]. apply wp_ret. by eapply Hit.
    + wp_steps. eapply wp_get_L1; [lia|exact He|]. apply wp_ret. rewrite <- Hsame. by eapply Hit.
  - destruct (core_L2 s Hs) as (m & Hm & Hents). wp_steps. eapply wp_lift; [by apply (ks_lookup_find _ m)|].
    destruct (ks_find (auxmap_L2 s) (base_of a)) as [r|] eqn:Er.
    + rewrite (ks_find_law _ m) in Er by done.
      destruct (Hents _ _ Er) as (Hr & _ & Hb & _ & sm & Hsm).
      wp_steps. eapply wp_insert_into_auxmap_L1_at; [done|lia|exact Hsm|]. apply wp_ret.
      rewrite <- (ks_find_law _ m) in Er by done. apply HQ; [|done].
      apply L1_ok_insert; [done| |done]. right. simpl. split; [done|]. split; [lia|]. done.
    + apply wp_ret. rewrite <- Hsame. by apply HQ.
Qed.

End Finding.

(** ** Reading and writing bytes of secondary maps *)

Section Bytes.
Context {T : Type} `{!KeyedSet T} `{!KeyedSetLaws T} `{!Allocator}.
Implicit Types (s : mc T) (a b : Z).

Lemma core_same s s' : core s -> same_maps s s' ->
  L1_ok (auxmap_L2 s') (auxmap_L1 s') -> L2_ok (auxmap_L2 s') (ents s') -> core s'.
Proof.
  intros [Hd Hb Hm Hp _ _] [E1 E2] H1 H2. constructor; try done; rewrite ?E2; try done.
  - intros a Ha. rewrite E1. by apply Hm.
  - intros a b Ha Hb'. rewrite !E1. by apply Hp.
Qed.

Lemma malloc_nonzero used : malloc used ≠ 0.
Proof. pose proof (malloc_not_dist used). lia. Qed.

(** A new entry for 64 KB that had none. *)
Definition with_ent s a (nyu : Z) (t : T) (l : list (Z * Z)) : mc T :=
  set_auxmap_L1 l (set_auxmap_L2 t (set_ents (<[nyu := (base_of a, SM_DIST_NOACCESS)]> (ents s)) s)).

Lemma with_ent_ok s a t l :
  let nyu := malloc (dom (ents s)) in
  core s -> word a -> MAX_PRIMARY_ADDRESS < a -> ks_find (auxmap_L2 s) (base_of a) = None ->
  ks_insert (auxmap_L2 s) nyu (base_of a) = Ret t -> L1_ok (auxmap_L2 s) l ->
  let s' := with_ent s a nyu t (L1_inserted l (base_of a, nyu)) in
  core s' ∧ quiet s s' ∧ ks_find t (base_of a) = Some nyu.
Proof.
  intros nyu Hs Hw Ha Hnone Ht Hl s'. destruct (core_L2 s Hs) as (m & Hm & Hents).
  rewrite (ks_find_law _ _ _ Hm) in Hnone.
  pose proof (malloc_fresh (dom (ents s))) as Hfresh. apply not_elem_of_dom in Hfresh. fold nyu in Hfresh.
  destruct (ks_insert_law _ m nyu (base_of a) Hm Hnone) as (t' & Ht' & Hm'). rewrite Ht in Ht'. injection Ht' as <-.
  pose proof (malloc_not_dist (dom (ents s))) as Hnyu. fold nyu in Hnyu.
  assert (∀ b e, m !! b = Some e -> b ≠ base_of a ∧ e ≠ nyu) as Hne.
  { intros b e Hb. split; [congruence|]. destruct (Hents _ _ Hb) as (_ & _ & _ & _ & sm & Hsm). congruence. }
  assert (same_maps s s') as Hsame.
  { split; [|done]. intros b. unfold sm_at. simpl. destruct (b <=? _); [done|].
    rewrite (ks_find_law _ _ _ Hm'), (ks_find_law _ _ _ Hm). destruct (decide (base_of b = base_of a)) as [->|].
    - by rewrite lookup_insert_eq, lookup_insert_eq, Hnone.
    - rewrite lookup_insert_ne by done. destruct (m !! base_of b) as [e|] eqn:Eb; [|done].
      destruct (Hne _ _ Eb). by rewrite lookup_insert_ne. }
  assert (ks_find t (base_of a) = Some nyu) as Hlook by (by rewrite (ks_find_law _ _ _ Hm'), lookup_insert_eq).
  apply base_of_high in Ha. split; [|done]. eapply core_same; [done..| |].
  - simpl. apply L1_ok_insert.
    + destruct Hl as [? HF ?]. constructor; [done| |done]. eapply Forall_impl; [exact HF|].
      intros e [->|(?&?&He)]; [by left|right]. split_and!; [done..|].
      rewrite (ks_find_law _ _ _ Hm) in He. rewrite (ks_find_law _ _ _ Hm').
      destruct (Hne _ _ He). by rewrite lookup_insert_ne.
    + right. simpl. split; [done|]. split; [lia|done].
    + simpl. intros x Hx E. apply list_elem_of_lookup in Hx as [i Hi].
      destruct (L1_lookup _ _ _ _ Hl Hi) as [El _]; [rewrite max_primary in Ha; lia|].
      rewrite (ks_find_law _ _ _ Hm) in El. congruence.
  - exists (<[base_of a := nyu]> m). simpl. split; [done|]. intros b e. rewrite lookup_insert_Some.
    intros [[<- <-]|[? Hb]].
    + split_and!; [done|apply base_of_idem|done|by apply base_of_word|]. exists SM_DIST_NOACCESS. by rewrite lookup_insert_eq.
    + destruct (Hents _ _ Hb) as (?&?&?&?&sm&Hsm). split_and!; try done. exists sm.
      rewrite lookup_insert_ne; [done|]. destruct (Hne _ _ Hb). done.
Qed.

Lemma wp_find_or_alloc_in_auxmap s a (Q : Z -> mc T -> Prop) :
  core s -> word a -> MAX_PRIMARY_ADDRESS < a ->
  (∀ e s', core s' -> quiet s s' -> ks_find (auxmap_L2 s') (base_of a) = Some e -> Q e s') ->
  wp (find_or_alloc_in_auxmap a) Q s.
Proof.
  intros Hs Hw Ha HQ. unfold find_or_alloc_in_auxmap. destruct (core_L2 s Hs) as (m & Hm & Hents).
  wp_step. apply wp_maybe_find_in_auxmap; [done..|]. intros l Hl _.
  destruct (ks_find (auxmap_L2 s) (base_of a)) as [e|] eqn:Ee.
  - rewrite (ks_find_law _ _ _ Hm) in Ee. destruct (Hents _ _ Ee) as (He & _).
    simpl. rewrite (proj2 (Z.eqb_neq e 0)) by lia. simpl.
    apply wp_ret, HQ; [by apply set_auxmap_L1_core|apply set_auxmap_L1_same|].
    simpl. by rewrite (ks_find_law _ m).
  - cbn [default from_option id]. case_bool; [done|]. rewrite base_of_land. wp_steps.
    cbn [ents auxmap_L2 set_auxmap_L1 set_ents]. set (nyu := malloc (dom (ents s))).
    destruct (ks_insert_law _ m nyu (base_of a) Hm) as (t & Ht & _); [by rewrite <- (ks_find_law (auxmap_L2 s))|].
    eapply wp_lift; [exact Ht|]. wp_steps.
    eapply wp_insert_into_auxmap_L1_at; [by apply L1_length in Hl|apply malloc_nonzero|apply lookup_insert_eq|].
    apply wp_ret. destruct (with_ent_ok s a t l) as (H1 & H2 & H3); [done..|]. by apply HQ.
Qed.

(** *** Pointers to secondary maps *)

(** The cell that holds the map of [a]. *)
Definition ptr_for s a (p : secmap_ptr) : Prop :=
  match p with
  | PrimaryMap ix => a <= MAX_PRIMARY_ADDRESS ∧ ix = Z.shiftr a 16
  | EntSm e => MAX_PRIMARY_ADDRESS < a ∧ ks_find (auxmap_L2 s) (base_of a) = Some e
  end.

Lemma wp_get_secmap_ptr s a (Q : secmap_ptr -> mc T -> Prop) : core s -> word a ->
  (∀ p s', core s' -> quiet s s' -> ptr_for s' a p -> Q p s') -> wp (get_secmap_ptr a) Q s.
Proof.
  intros Hs Hw HQ. unfold get_secmap_ptr. case_bool.
  - by apply wp_ret, HQ.
  - unfold get_secmap_high_ptr. wp_step. apply wp_find_or_alloc_in_auxmap; [done..|]. intros e s' ???. by apply wp_ret, HQ.
Qed.

(** The entry of 64 KB that have one. *)
Lemma ptr_ent s a e : core s -> ptr_for s a (EntSm e) -> ents s !! e = Some (base_of a, sm_at s a).
Proof.
  intros Hs (Ha & He). destruct (core_L2 s Hs) as (m & Hm & Hents). unfold sm_at. case_bool; [lia|].
  rewrite He. rewrite (ks_find_law _ _ _ Hm) in He. destruct (Hents _ _ He) as (?&?&?&?&sm&Hsm). by rewrite Hsm.
Qed.

Lemma primary_index a : word a -> a <= MAX_PRIMARY_ADDRESS ->
  (0 <=? Z.shiftr a 16) && (Z.shiftr a 16 <? N_PRIMARY_MAP) = true.
Proof.
  intros [? _] Ha. rewrite max_primary in Ha. rewrite shiftr_16. change N_PRIMARY_MAP with 2097152.
  apply andb_true_iff. split; [apply Z.leb_le|apply Z.ltb_lt]; dlia.
Qed.

Lemma wp_load_ptr s a p (Q : Z -> mc T -> Prop) :
  core s -> word a -> ptr_for s a p -> Q (sm_at s a) s -> wp (load_ptr p) Q s.
Proof.
  intros Hs Hw Hp HQ. destruct p as [ix|e]; simpl.
  - destruct Hp as [Ha ->]. rewrite primary_index by done. wp_steps. unfold sm_at in HQ. by rewrite (proj2 (Z.leb_le _ _) Ha) in HQ.
  - pose proof (ptr_ent s a e Hs Hp) as He. wp_step. exists (base_of a, sm_at s a), s. split; [|by apply wp_ret].
    unfold load_ent. by rewrite He.
Qed.

Definition stored s (p : secmap_ptr) sm : mc T :=
  match p with
  | PrimaryMap ix => set_primary_map (<[ix := sm]> (primary_map s)) s
  | EntSm e => match ents s !! e with Some x => set_ents (<[e := (x.1, sm)]> (ents s)) s | None => s end
  end.

Lemma wp_store_ptr s a p sm (Q : unit -> mc T -> Prop) :
  core s -> word a -> ptr_for s a p -> Q tt (stored s p sm) -> wp (store_ptr p sm) Q s.
Proof.
  intros Hs Hw Hp HQ. destruct p as [ix|e]; simpl in *.
  - destruct Hp as [Ha ->]. rewrite primary_index by done. by apply wp_modify.
  - pose proof (ptr_ent s a e Hs Hp) as He. rewrite He in HQ. wp_step. exists (base_of a, sm_at s a), s.
    split; [|by apply wp_modify]. unfold load_ent. by rewrite He.
Qed.

(** A store changes the map of one 64 KB. *)
Lemma sm_at_stored s a p sm b : core s -> ptr_for s a p ->
  sm_at (stored s p sm) b = if base_of b =? base_of a then sm else sm_at s b.
Proof.
  intros Hs Hp. destruct p as [ix|e].
  - destruct Hp as [Ha ->]. unfold sm_at. simpl. pose proof (base_of_high a). pose proof (base_of_high b).
    rewrite !shiftr_16. destruct (b <=? _) eqn:Eb; b2p.
    + destruct (base_of b =? base_of a) eqn:E; b2p; unfold base_of in E.
      * replace (b / 65536) with (a / 65536) by lia. by rewrite lookup_insert_eq.
      * by rewrite lookup_insert_ne by congruence.
    + case_bool; [lia|done].
  - pose proof (ptr_ent s a e Hs Hp) as He. destruct Hp as [Ha Hl]. simpl. rewrite He. unfold sm_at at 1. simpl.
    destruct (core_L2 s Hs) as (m & Hm & Hents). apply base_of_high in Ha. pose proof (base_of_high b).
    destruct (base_of b =? base_of a) eqn:E; b2p.
    + case_bool; [lia|]. rewrite E, Hl. by rewrite lookup_insert_eq.
    + unfold sm_at. case_bool; [done|]. destruct (ks_find (auxmap_L2 s) (base_of b)) as [e'|] eqn:Eb; [|done].
      rewrite (ks_find_law _ _ _ Hm) in Eb. destruct (Hents _ _ Eb) as (?&?&?&?&sm'&Hsm').
      rewrite lookup_insert_ne; [done|]. congruence.
Qed.

Lemma stored_same_table s p sm : same_table s (stored s p sm) ∧ secmaps (stored s p sm) = secmaps s.
Proof. destruct p; simpl; [done|]. by destruct (ents s !! ent). Qed.

(** It may store any map that is distinguished or used nowhere else. *)
Lemma core_stored s a p sm : core s -> word a -> ptr_for s a p -> is_Some (secmaps s !! sm) ->
  is_distinguished_sm sm = true ∨ (∀ b, word b -> base_of b ≠ base_of a -> sm_at s b ≠ sm) ->
  core (stored s p sm).
Proof.
  intros Hs Hw Hp Hsm Hd. pose proof (sm_at_stored s a p sm) as E. destruct (stored_same_table s p sm) as [_ Em].
  constructor; rewrite ?Em; try apply Hs.
  - intros b Hb. rewrite E by done. case_bool; [done|]. by apply Hs.
  - intros b c Hb Hc. rewrite !E by done. pose proof (core_sep s Hs b c Hb Hc).
    repeat case_bool; try (left; congruence); intros Eq.
    + subst sm. destruct Hd as [?|Hd]; [by right|]. by destruct (Hd c).
    + destruct Hd as [?|Hd]; [right; congruence|]. by destruct (Hd b).
    + auto.
  - destruct p as [ix|e]; [by apply Hs|]. simpl. destruct (ents s !! e); apply Hs.
  - destruct p as [ix|e]; [by apply Hs|]. pose proof (ptr_ent s a e Hs Hp) as He. simpl. rewrite He. simpl.
    destruct (core_L2 s Hs) as (m & Hm & Hents). exists m. split; [done|]. intros b e' Hb.
    destruct (Hents _ _ Hb) as (?&?&?&?&sm'&Hsm'). split_and!; try done.
    destruct (decide (e' = e)) as [->|].
    + rewrite He in Hsm'. injection Hsm' as <- _. eexists. by rewrite lookup_insert_eq.
    + exists sm'. by rewrite lookup_insert_ne.
Qed.

End Bytes.

(** ** Reading and writing two bits *)

Section TwoBits.
Context {T : Type} `{!KeyedSet T} `{!KeyedSetLaws T} `{!Allocator}.
Implicit Types (s : mc T) (a b : Z).

Lemma reading_ptr a : get_secmap_for_reading (T := T) a = get_secmap_ptr a ≫= load_ptr.
Proof. unfold get_secmap_for_reading, get_secmap_ptr. by case_bool. Qed.

Definition writable_map (p : secmap_ptr) : M T Z :=
  sm ← load_ptr p;
  _ ← (if is_distinguished_sm sm then sm ← copy_for_writing sm; store_ptr p sm else mret tt);
  load_ptr p.

Lemma writing_ptr a : get_secmap_for_writing (T := T) a = get_secmap_ptr a ≫= writable_map.
Proof. unfold get_secmap_for_writing, get_secmap_ptr. by case_bool. Qed.

Lemma wp_get_secmap_for_reading s a (Q : Z -> mc T -> Prop) : core s -> word a ->
  (∀ s', core s' -> quiet s s' -> Q (sm_at s' a) s') -> wp (get_secmap_for_reading a) Q s.
Proof.
  intros Hs Hw HQ. rewrite reading_ptr. wp_step. apply wp_get_secmap_ptr; [done..|]. intros p s' Hs' Hq Hp.
  eapply wp_load_ptr; eauto.
Qed.

(** The states have the same bits for all bytes. *)
Definition same_bytes s s' : Prop := ∀ b, word b -> byte_at s' b = byte_at s b.
Definition keeps s s' : Prop := same_bytes s s' ∧ same_table s s'.

#[global] Instance keeps_preorder : PreOrder keeps.
Proof.
  split; [by intros s|]. intros s1 s2 s3 [B1 ?] [B2 ?]. split; [|by etrans]. intros b Hb. by rewrite B2, B1.
Qed.

Lemma quiet_keeps s s' : quiet s s' -> keeps s s'.
Proof. intros [E ?]. split; [|done]. intros b _. by apply same_maps_byte. Qed.

Lemma keeps_vab2 s s' a : keeps s s' -> word a -> vab2 s' a = vab2 s a.
Proof. intros [E _] Ha. unfold vab2. by rewrite E. Qed.

Lemma keeps_abs s s' a : keeps s s' -> word a -> abs s' a = abs s a.
Proof. intros E Ha. unfold abs. by rewrite (keeps_vab2 s s'), (same_table_pdb s s') by first [done|apply E]. Qed.

(** Secondary maps that are still unused may be added. *)
Definition with_map s k (m : SecMap) : mc T := set_secmaps (<[k := m]> (secmaps s)) s.

Lemma with_map_ok s k m : core s -> secmaps s !! k = None -> (∀ i, 0 <= sm_byte m i < 256) ->
  core (with_map s k m) ∧ keeps s (with_map s k m).
Proof.
  intros Hs Hk Hm. assert (∀ a, sm_at (with_map s k m) a = sm_at s a) as Esm by done.
  assert (∀ a, word a -> sm_at s a ≠ k) as Hne by (intros a Ha E; destruct (core_sm s Hs a Ha); congruence).
  split; [|split; [|done]].
  - constructor; simpl; try apply Hs.
    + intros d Hd. destruct (core_dist s Hs d Hd) as (md & Hmd & ?). exists md.
      rewrite lookup_insert_ne by congruence. done.
    + intros k' m' i. rewrite lookup_insert_Some. intros [[<- <-]|[_ ?]]; [done|]. by eapply core_bytes.
    + intros a Ha. rewrite Esm, lookup_insert_ne by (by apply not_eq_sym, Hne). by apply Hs.
  - intros b Hb. unfold byte_at. rewrite Esm. simpl. by rewrite lookup_insert_ne by (by apply not_eq_sym, Hne).
Qed.

(** A distinguished map is replaced by a copy. *)
Lemma wp_unshare s a p (Q : unit -> mc T -> Prop) : core s -> word a -> ptr_for s a p ->
  (∀ s', core s' -> keeps s s' -> ptr_for s' a p -> is_distinguished_sm (sm_at s' a) = false -> Q tt s') ->
  wp (if is_distinguished_sm (sm_at s a) then sm ← copy_for_writing (sm_at s a); store_ptr p sm else mret tt) Q s.
Proof.
  intros Hs Hw Hp HQ. destruct (is_distinguished_sm (sm_at s a)) eqn:Ed; [|wp_step; by apply HQ].
  wp_step. unfold copy_for_writing. wp_step. apply wp_assert; [done|]. do 2 wp_step.
  set (nu := malloc (dom (secmaps s))).
  pose proof (malloc_fresh (dom (secmaps s))) as Hfresh. apply not_elem_of_dom in Hfresh. fold nu in Hfresh.
  destruct (core_sm s Hs a Hw) as [m Hm].
  destruct (with_map_ok s nu m Hs Hfresh) as [Hs1 Hk1]; [intros i; by eapply core_bytes|].
  wp_step. exists m, s. split; [unfold the_map; by rewrite Hm|]. wp_steps. change (set_secmaps _ s) with (with_map s nu m).
  assert (ptr_for (with_map s nu m) a p) as Hp1 by (by destruct p).
  assert (core (stored (with_map s nu m) p nu)) as Hs2.
  { apply (core_stored _ a); [done..|simpl; by rewrite lookup_insert_eq|]. right. intros b Hb _ E.
    change (sm_at s b = nu) in E. destruct (core_sm s Hs b Hb). congruence. }
  eapply wp_store_ptr; [done..|]. pose proof (sm_at_stored _ a p nu a Hs1 Hp1) as Ea. rewrite Z.eqb_refl in Ea.
  apply HQ; [done| |by destruct p as [|e]; [|simpl; destruct (_ !! e)]|].
  - etrans; [exact Hk1|]. destruct (stored_same_table (with_map s nu m) p nu) as [Et Em]. split; [|done].
    intros b Hb. unfold byte_at. rewrite Em, (sm_at_stored _ a) by done. case_bool; [|done].
    change (sm_at (with_map s nu m) b) with (sm_at s b). rewrite (sm_at_base s b a) by done. simpl.
    rewrite lookup_insert_eq, lookup_insert_ne by congruence. by rewrite Hm.
  - rewrite Ea. unfold is_distinguished_sm. pose proof (malloc_not_dist (dom (secmaps s))).
    apply andb_false_iff. right. apply Z.leb_gt. fold nu in H. lia.
Qed.

Lemma wp_writable_map s a p (Q : Z -> mc T -> Prop) : core s -> word a -> ptr_for s a p ->
  (∀ s', core s' -> keeps s s' -> is_distinguished_sm (sm_at s' a) = false -> Q (sm_at s' a) s') ->
  wp (writable_map p) Q s.
Proof.
  intros Hs Hw Hp HQ. unfold writable_map. wp_step. eapply wp_load_ptr; [done..|]. wp_step.
  apply wp_unshare; [done..|]. intros s' Hs' Hk Hp' Hd. eapply wp_load_ptr; [done..|]. by apply HQ.
Qed.

Lemma wp_get_secmap_for_writing s a (Q : Z -> mc T -> Prop) : core s -> word a ->
  (∀ s', core s' -> keeps s s' -> is_distinguished_sm (sm_at s' a) = false -> Q (sm_at s' a) s') ->
  wp (get_secmap_for_writing a) Q s.
Proof.
  intros Hs Hw HQ. rewrite writing_ptr. wp_step. apply wp_get_secmap_ptr; [done..|]. intros p s1 Hs1 Hq Hp.
  apply (wp_writable_map s1 a); [done..|]. intros s' Hs' Hk Hd. apply HQ; [done| |done].
  etrans; [by apply quiet_keeps|done].
Qed.

(** *** Four bytes *)

Lemma off_in_range a : (0 <=? SM_OFF a) && (SM_OFF a <? SM_CHUNKS) = true.
Proof. pose proof (SM_OFF_range a). apply andb_true_iff. split; [apply Z.leb_le|apply Z.ltb_lt]; lia. Qed.

Lemma wp_get_vabits8 s a (Q : Z -> mc T -> Prop) : core s -> word a ->
  Q (byte_at s a) s -> wp (get_vabits8 (sm_at s a) (SM_OFF a)) Q s.
Proof.
  intros Hs Hw HQ. unfold get_vabits8. destruct (core_sm s Hs a Hw) as [m Hm]. wp_step. exists m, s.
  split; [unfold the_map; by rewrite Hm|]. rewrite off_in_range. apply wp_ret. unfold byte_at in HQ. by rewrite Hm in HQ.
Qed.

(** The bytes after a write to the word of [a]. *)
Definition wrote s s' a v : Prop :=
  (∀ b, word b -> byte_at s' b = if b / 4 =? a / 4 then v else byte_at s b) ∧ same_table s s'.

Lemma wp_put_vabits8 s a v (Q : unit -> mc T -> Prop) : core s -> word a -> 0 <= v < 256 ->
  is_distinguished_sm (sm_at s a) = false ->
  (∀ s', core s' -> wrote s s' a v -> (∀ b, sm_at s' b = sm_at s b) -> Q tt s') ->
  wp (put_vabits8 (sm_at s a) (SM_OFF a) v) Q s.
Proof.
  intros Hs Hw Hv Hd HQ. unfold put_vabits8. destruct (core_sm s Hs a Hw) as [m Hm]. wp_step. exists m, s.
  split; [unfold the_map; by rewrite Hm|]. rewrite off_in_range. apply wp_modify.
  set (m' := SMap _ _). assert (∀ i, sm_byte m' i = if i =? SM_OFF a then v else sm_byte m i) as Em'.
  { intros i. unfold sm_byte. simpl. case_bool; subst; [by rewrite lookup_insert_eq|by rewrite lookup_insert_ne]. }
  assert (∀ b, sm_at (set_secmaps (<[sm_at s a:=m']> (secmaps s)) s) b = sm_at s b) as Esm by done.
  apply HQ.
  - constructor; simpl; try apply Hs.
    + intros d Hdd. rewrite lookup_insert_ne by (intros <-; congruence). by apply Hs.
    + intros k mk i. rewrite lookup_insert_Some. intros [[<- <-]|[_ ?]]; [|by eapply core_bytes].
      rewrite Em'. case_bool; [done|]. by eapply core_bytes.
    + intros b Hb. rewrite Esm. destruct (decide (sm_at s b = sm_at s a)) as [->|]; [by rewrite lookup_insert_eq|].
      rewrite lookup_insert_ne by done. by apply Hs.
  - split; [|done]. intros b Hb. unfold byte_at. rewrite Esm. simpl. pose proof (same_word a b) as Hsame.
    destruct (decide (sm_at s b = sm_at s a)) as [E|E].
    + rewrite E, lookup_insert_eq, Em', Hm.
      destruct (core_sep s Hs b a Hb Hw E) as [Eb|?]; [|congruence].
      destruct (b / 4 =? a / 4) eqn:E4; b2p; case_bool; tauto.
    + rewrite lookup_insert_ne by done. destruct (b / 4 =? a / 4) eqn:E4; b2p; [|done].
      destruct E. apply sm_at_base. tauto.
  - done.
Qed.

Lemma wp_get_vabits8_for_aligned_word32 s a (Q : Z -> mc T -> Prop) : core s -> word a ->
  (∀ s', core s' -> quiet s s' -> Q (byte_at s a) s') -> wp (get_vabits8_for_aligned_word32 a) Q s.
Proof.
  intros Hs Hw HQ. unfold get_vabits8_for_aligned_word32. wp_step. apply wp_get_secmap_for_reading; [done..|].
  intros s' Hs' Hq. apply wp_get_vabits8; [done..|]. rewrite (same_maps_byte s s') by apply Hq. by apply HQ.
Qed.

Lemma wp_set_vabits8_for_aligned_word32 s a v (Q : unit -> mc T -> Prop) : core s -> word a -> 0 <= v < 256 ->
  (∀ s', core s' -> wrote s s' a v -> Q tt s') -> wp (set_vabits8_for_aligned_word32 a v) Q s.
Proof.
  intros Hs Hw Hv HQ. unfold set_vabits8_for_aligned_word32. wp_step. apply wp_get_secmap_for_writing; [done..|].
  intros s1 Hs1 [Hb Ht] Hd. apply wp_put_vabits8; [done..|]. intros s' Hs' [Hb' Ht'] _. apply HQ; [done|].
  split; [|by etrans]. intros b Hw'. by rewrite Hb', Hb.
Qed.

(** *** One byte *)

Lemma wp_get_vabits2 s a (Q : Z -> mc T -> Prop) : core s -> word a ->
  (∀ s', core s' -> quiet s s' -> Q (vab2 s a) s') -> wp (get_vabits2 a) Q s.
Proof.
  intros Hs Hw HQ. unfold get_vabits2. wp_step. apply wp_get_secmap_for_reading; [done..|].
  intros s' Hs' Hq. wp_step. apply wp_get_vabits8; [done..|]. apply wp_ret.
  rewrite (same_maps_byte s s') by apply Hq. by apply HQ.
Qed.

(** The bits after those of [a] were set. *)
Definition set2 s s' a v : Prop :=
  (∀ b, word b -> vab2 s' b = if b =? a then v else vab2 s b) ∧ same_table s s'.

Lemma wrote_set2 s s' a v : core s -> word a -> 0 <= v < 4 ->
  wrote s s' a (insert_vabits2_into_vabits8 a v (byte_at s a)) -> set2 s s' a v.
Proof.
  intros Hs Hw Hv [Hb Ht]. split; [|done]. intros b Hwb. pose proof (byte_at_range s a Hs) as Hr.
  unfold vab2. rewrite Hb by done. destruct (b / 4 =? a / 4) eqn:E4; b2p.
  - destruct (insert_extract a b v (byte_at s a) Hv Hr) as [_ ->]. rewrite (byte_at_word s b a) by done.
    destruct (b mod 4 =? a mod 4) eqn:Em, (b =? a) eqn:Ea; b2p; first [done|exfalso; subst; dlia].
  - case_bool; [congruence|done].
Qed.

Lemma wp_set_vabits2 s a v (Q : unit -> mc T -> Prop) : core s -> word a -> 0 <= v < 4 ->
  (∀ s', core s' -> set2 s s' a v -> Q tt s') -> wp (set_vabits2 a v) Q s.
Proof.
  intros Hs Hw Hv HQ. unfold set_vabits2. wp_step. apply wp_get_secmap_for_writing; [done..|].
  intros s1 Hs1 [Hb Ht] Hd. wp_step. apply wp_get_vabits8; [done..|].
  pose proof (byte_at_range s1 a Hs1) as Hr.
  apply wp_put_vabits8; [done|done|by apply (insert_extract a a)|done|].
  intros s' Hs' [Hb' Ht']%wrote_set2 _; [|done..]. apply HQ; [done|]. split; [|by etrans]. intros b Hwb.
  rewrite Hb' by done. unfold vab2. by rewrite Hb.
Qed.

End TwoBits.

(** ** The table of V bits *)

Lemma round53_bounds x : 0 < x -> 2 ^ 53 * x - x <= 2 ^ 53 * round53 x <= 2 ^ 53 * x + x.
Proof.
  intros Hx. unfold round53. destruct (Z.log2 x - 52 <=? 0) eqn:Ee; b2p; [lia|].
  pose proof (Z.log2_spec x Hx) as [Hlo _]. set (e := Z.log2 x - 52) in *.
  rewrite !Z.shiftl_mul_pow2, Z.shiftr_div_pow2 by lia.
  assert (2 ^ Z.log2 x = 2 ^ 52 * 2 ^ e) as Elog by (rewrite <- Z.pow_add_r by lia; f_equal; lia).
  assert (2 ^ e = 2 * 2 ^ (e - 1)) as Ehalf by (rewrite <- Z.pow_succ_r by lia; f_equal; lia).
  assert (0 < 2 ^ (e - 1)) by (apply Z.pow_pos_nonneg; lia).
  rewrite Elog in Hlo. rewrite Z.mul_1_l, Ehalf in *. generalize dependent (2 ^ (e - 1)). intros h Hlo _ Hh.
  pose proof (Z.div_mod x (2 * h) ltac:(lia)) as Ed. pose proof (Z.mod_pos_bound x (2 * h) ltac:(lia)).
  set (q := x / (2 * h)) in *. replace (x - q * (2 * h)) with (x mod (2 * h)) in * by lia.
  generalize dependent (x mod (2 * h)). intros r Ed Hr. change (2 ^ 53) with 9007199254740992.
  change (2 ^ 52) with 4503599627370496 in *.
  destruct (_ || _) eqn:Eb; b2p.
  - assert (h <= r) by (destruct Eb; b2p; lia). nia.
  - nia.
Qed.

(** The limit grows, but not too fast. *)
Lemma scale_ok limit f : 1000 <= limit <= 2 ^ 29 -> f = STEPUP_GROWTH_FACTOR ∨ f = DRIFTUP_GROWTH_FACTOR ->
  ∃ l, scale limit f = Ret l ∧ limit < l ∧ 2 * l < 3 * limit.
Proof.
  intros Hl Hf. unfold scale. rewrite Z.shiftr_div_pow2 by lia.
  pose proof (round53_bounds (limit * f)) as Hr. change (2 ^ 53) with 9007199254740992 in *.
  change (2 ^ 52) with 4503599627370496 in *. change (2 ^ 29) with 536870912 in *.
  assert (limit < round53 (limit * f) / 4503599627370496 ∧
    2 * (round53 (limit * f) / 4503599627370496) < 3 * limit) as [H1 H2].
  { destruct Hf as [-> | ->];
      [change STEPUP_GROWTH_FACTOR with 6369051670845502 in *|change DRIFTUP_GROWTH_FACTOR with 4571153621781053 in *];
      specialize (Hr ltac:(lia)); generalize dependent (round53 (limit * 6369051670845502));
      generalize dependent (round53 (limit * 4571153621781053)); intros; dlia. }
  eexists. split; [apply int_ok; unfold INT_MIN, INT_MAX; lia|done].
Qed.

Section Table.
Context {T : Type} `{!KeyedSet T} `{!KeyedSetLaws T} `{!Allocator}.
Implicit Types (s : mc T) (a b : Z).

(** The lines of 16 bytes that ever have partially defined bytes: so few that the
    iterator of the table never overflows its stack. *)
Context (L : gset Z) (L_small : Z.of_nat (size L) < ks_limit) (L_small' : Z.of_nat (size L) <= 2 ^ 27).

(** A table with nodes of 16 bytes for some of these lines. *)
Definition holds_nodes (t : T) (ns : gmap Z (Z * list Z)) (m : gmap Z Z) : Prop :=
  ks_holds t m ∧ ∀ k n, m !! k = Some n -> k ∈ L ∧ ∃ l, ns !! n = Some (k, l) ∧ length l = 16%nat.

Definition table_ok s : Prop :=
  1000 <= secVBitLimit s <= 2 ^ 29 ∧
  ∃ m, holds_nodes (secVBitTable s) (vnodes s) m ∧ Z.of_nat (size m) <= secVBitLimit s.

(** Every byte that is partially defined has V bits in the table. *)
Definition partdef_ok s : Prop := ∀ a, word a -> vab2 s a = VA_BITS2_PARTDEFINED -> has_pdb s a.

Record inv s : Prop := { inv_core : core s; inv_table : table_ok s; inv_partdef : partdef_ok s }.

Lemma holds_nodes_size t ns m : holds_nodes t ns m -> Z.of_nat (size m) <= Z.of_nat (size L).
Proof.
  intros [_ Hn]. rewrite <- size_dom. apply inj_le, subseteq_size. intros k [n Hk]%elem_of_dom. by apply (Hn k n).
Qed.

Lemma ks_size_ok t ns m : holds_nodes t ns m -> ks_size t = Z.of_nat (size m).
Proof.
  intros Hm. apply ks_size_law; [apply Hm|]. pose proof (holds_nodes_size _ _ _ Hm).
  unfold UINT_MAX. change (2 ^ 27) with 134217728 in *. lia.
Qed.

Lemma same_table_ok s s' : same_table s s' -> table_ok s -> table_ok s'.
Proof. intros (E1&E2&E3&_) Ht. unfold table_ok. by rewrite E1, E2, E3. Qed.

Lemma quiet_inv s s' : core s' -> quiet s s' -> inv s -> inv s'.
Proof.
  intros Hc [Hm Ht] []. constructor; [done|by eapply same_table_ok|]. intros a Ha.
  unfold has_pdb. rewrite (same_maps_vab2 s s'), (same_table_pdb s s') by done. by apply inv_partdef0.
Qed.

Lemma keeps_inv s s' : core s' -> keeps s s' -> inv s -> inv s'.
Proof.
  intros Hc Hk []. constructor; [done|eapply same_table_ok; [apply Hk|done]|]. intros a Ha.
  unfold has_pdb. rewrite (keeps_vab2 s s'), (same_table_pdb s s') by first [done|apply Hk]. by apply inv_partdef0.
Qed.

(** *** Collecting garbage *)

Lemma wp_any_partdefined s (l : list Z) k (Q : bool -> mc T -> Prop) :
  core s -> (∀ s' r, core s' -> quiet s s' -> (r = true <-> ∃ i, i ∈ l ∧ vab2 s (u64 (k + i)) = VA_BITS2_PARTDEFINED) -> Q r s') ->
  wp (any_partdefined l k) Q s.
Proof.
  revert s Q. induction l as [|i l IH]; intros s Q Hs HQ; cbn [any_partdefined].
  - apply wp_ret, HQ; [done|done|]. split; [done|]. intros (i & Hi & _). set_solver.
  - wp_step. apply wp_get_vabits2; [done| |].
    { unfold word, u64. change (2 ^ 64) with (2 ^ 64). apply wrap_range. lia. }
    intros s' Hs' Hq. case_bool.
    + apply wp_ret, HQ; [done..|]. split; [|done]. intros _. exists i. split; [by left|done].
    + apply IH; [done|]. intros s2 r Hs2 Hq2 Hr. apply HQ; [done|by etrans|]. rewrite Hr.
      assert (∀ b, vab2 s' b = vab2 s b) as Ev by (intros b; apply same_maps_vab2, Hq). setoid_rewrite Ev.
      split; intros (j & Hj & Ej); exists j; (split; [|done]); [by right|].
      apply elem_of_cons in Hj as [->|?]; [congruence|done].
Qed.

(** Is a byte of the line at [k] partially defined? *)
Definition live s k : Prop := ∃ i, 0 <= i < 16 ∧ vab2 s (u64 (k + i)) = VA_BITS2_PARTDEFINED.

Lemma live_line s a : word a -> vab2 s a = VA_BITS2_PARTDEFINED -> live s (line_of a).
Proof.
  intros Hw Ha. exists (a mod 16). split; [by apply Z.mod_pos_bound|].
  replace (line_of a + a mod 16) with a by (unfold line_of; dlia). unfold u64. by rewrite wrap_small.
Qed.

(** Nodes [l] of the old table [m] are still to be visited; the new table has the
    nodes of [m2]. *)
Record copied s (m : gmap Z Z) (l : list (Z * Z)) (t2 : T) (ns2 : gmap Z (Z * list Z)) (m2 : gmap Z Z) : Prop := {
  cp_holds : ks_holds t2 m2;
  cp_nodes : ∀ k n2, m2 !! k = Some n2 -> ∃ n x, m !! k = Some n ∧ vnodes s !! n = Some x ∧ ns2 !! n2 = Some x;
  cp_todo : ∀ k n, (k, n) ∈ l -> m !! k = Some n;
  cp_done : ∀ k n, m !! k = Some n -> (k, n) ∈ l ∨ is_Some (m2 !! k) ∨ ¬ live s k;
  cp_new : ∀ k, k ∈ l.*1 -> m2 !! k = None;
  cp_nodup : NoDup l.*1 }.

Lemma copied_drop s m l k n t2 ns2 m2 : copied s m ((k, n) :: l) t2 ns2 m2 -> ¬ live s k -> copied s m l t2 ns2 m2.
Proof.
  intros [] Hl. constructor; try done.
  - intros k' n' ?. apply cp_todo0. by right.
  - intros k' n' Hk. destruct (cp_done0 _ _ Hk) as [[[= -> ->]|?]%elem_of_cons|?]; auto.
  - intros k' ?. apply cp_new0. by right.
  - by apply NoDup_cons in cp_nodup0 as [_ ?].
Qed.

Lemma copied_keep s m l k n x t2 t2' ns2 m2 : copied s m ((k, n) :: l) t2 ns2 m2 -> vnodes s !! n = Some x ->
  let n2 := malloc (dom ns2) in
  ks_holds t2' (<[k := n2]> m2) -> copied s m l t2' (<[n2 := x]> ns2) (<[k := n2]> m2).
Proof.
  intros [] Hx n2 Ht2. pose proof (malloc_fresh (dom ns2)) as Hf. apply not_elem_of_dom in Hf. fold n2 in Hf.
  assert (k ∉ l.*1 ∧ NoDup l.*1) as [Hk Hnd] by (by apply NoDup_cons). constructor; try done.
  - intros k' n'. rewrite lookup_insert_Some. intros [[<- <-]|[? Hk']].
    + exists n, x. rewrite lookup_insert_eq. split_and!; try done. apply cp_todo0. by left.
    + destruct (cp_nodes0 _ _ Hk') as (n0 & x0 & ? & ? & ?). exists n0, x0. rewrite lookup_insert_ne by congruence. done.
  - intros k' n' ?. apply cp_todo0. by right.
  - intros k' n' Hk'. destruct (decide (k' = k)) as [->|]; [right; left; by rewrite lookup_insert_eq|].
    rewrite lookup_insert_ne by done. destruct (cp_done0 _ _ Hk') as [[[= -> ->]|?]%elem_of_cons|?]; auto.
  - intros k' Hk'. rewrite lookup_insert_ne by (intros <-; done). apply cp_new0. by right.
Qed.

Lemma copied_quiet s s' m l t2 ns2 m2 : quiet s s' -> copied s m l t2 ns2 m2 <-> copied s' m l t2 ns2 m2.
Proof.
  intros [Hm (_ & E2 & _)]. assert (∀ k, live s' k <-> live s k) as El.
  { intros k. unfold live. assert (∀ b, vab2 s' b = vab2 s b) as Ev by (intros b; by apply same_maps_vab2).
    by setoid_rewrite Ev. }
  split; intros []; constructor; try done; first [by rewrite E2|by rewrite <- E2|idtac].
  all: intros k n Hk; destruct (cp_done0 k n Hk) as [?|[?|Hl]]; [by left|by right; left|right; right]; by rewrite El in *.
Qed.

Lemma wp_gc_loop m fuel s t l t2 ns2 m2 (Q : T * gmap Z (Z * list Z) -> mc T -> Prop) :
  core s -> holds_nodes (secVBitTable s) (vnodes s) m -> ks_pending t l -> (length l < fuel)%nat ->
  copied s m l t2 ns2 m2 ->
  (∀ s' t' ns' m', core s' -> quiet s s' -> copied s m [] t' ns' m' -> Q (t', ns') s') ->
  wp (gc_loop fuel t t2 ns2) Q s.
Proof.
  revert s t l t2 ns2 m2. induction fuel as [|fuel IH]; intros s t l t2 ns2 m2 Hs Hm Hp Hf Hc HQ; [lia|]. cbn [gc_loop].
  destruct (ks_next_law t l Hp) as (t' & Ht' & Hp').
  wp_step. eapply wp_lift; [exact Ht'|]. destruct l as [|[k n] l]; cbn [head tail fmap option_fmap option_map fst snd length] in *.
  - apply wp_ret. by eapply HQ.
  - wp_steps. destruct Hm as [Hm Hnodes]. destruct (Hnodes k n) as (Hk & x & Hx & Hlen); [apply (cp_todo _ _ _ _ _ _ Hc); by left|].
    rewrite Hx. cbn [fst snd]. wp_step. apply wp_any_partdefined; [done|]. intros s1 r Hs1 Hq Hr.
    assert (r = true <-> live s k) as Hlive.
    { rewrite Hr. unfold live. split; intros (i & Hi & ?); exists i; (split; [|done]);
        [apply elem_of_seqZ in Hi|apply elem_of_seqZ]; unfold BYTES_PER_SEC_VBIT_NODE in *; lia. }
    clear Hr. pose proof (proj2 Hq) as (E1 & E2 & _). destruct r.
    + destruct (ks_insert_law t2 m2 (malloc (dom ns2)) k) as (t2' & Ht2 & Hm2).
      { by eapply cp_holds. } { eapply cp_new; [exact Hc|]. by left. }
      wp_step. eapply wp_lift; [exact Ht2|]. eapply (IH _ _ l); [done| |done|lia| |].
      * unfold holds_nodes. by rewrite E1, E2.
      * apply (copied_quiet s s1); [done|]. by eapply copied_keep.
      * intros s' t3 ns3 m3 Hs' Hq' Hc'. apply (HQ _ _ _ m3); [done|by etrans|]. by apply (copied_quiet s s1).
    + eapply (IH _ _ l); [done| |done|lia| |].
      * unfold holds_nodes. by rewrite E1, E2.
      * apply (copied_quiet s s1); [done|]. eapply copied_drop; [done|]. by intros ?%Hlive.
      * intros s' t3 ns3 m3 Hs' Hq' Hc'. apply (HQ _ _ _ m3); [done|by etrans|]. by apply (copied_quiet s s1).
Qed.

(** What a collection leaves: room in the table, and the V bits of all bytes that are
    partially defined. *)
Definition collected s s' : Prop :=
  same_maps s s' ∧ errors s' = errors s ∧ 1000 <= secVBitLimit s' <= 2 ^ 29 ∧
  (∃ m, holds_nodes (secVBitTable s') (vnodes s') m ∧ Z.of_nat (size m) < secVBitLimit s') ∧
  (∀ k, ks_find (secVBitTable s) k = None -> ks_find (secVBitTable s') k = None) ∧
  ∀ b, word b -> vab2 s b = VA_BITS2_PARTDEFINED -> pdb s' b = pdb s b.

Lemma collected_from s s1 s' : quiet s s1 -> collected s1 s' -> collected s s'.
Proof.
  intros Hq (H1&H2&H3&H4&Hk&H5). destruct Hq as [Hq Ht].
  split_and!; [by etrans|by rewrite H2; apply Ht|apply H3..|done| |]; [by rewrite <- (proj1 Ht)|].
  intros b Hb E. rewrite <- (same_table_pdb s s1) by done. apply H5; [done|]. by rewrite (same_maps_vab2 s s1).
Qed.

Lemma copied_nodes s m t2 ns2 m2 : holds_nodes (secVBitTable s) (vnodes s) m -> copied s m [] t2 ns2 m2 ->
  holds_nodes t2 ns2 m2 ∧ (size m2 <= size m)%nat.
Proof.
  intros [Hm Hn] []. split; [split; [done|]|].
  - intros k n2 Hk. destruct (cp_nodes0 _ _ Hk) as (n & x & Hmk & Hx & Hx2).
    destruct (Hn k n Hmk) as (? & l & Hl & ?). split; [done|]. exists l. split; [congruence|done].
  - rewrite <- !size_dom. apply subseteq_size. intros k [n2 Hk]%elem_of_dom. apply elem_of_dom.
    destruct (cp_nodes0 _ _ Hk) as (n & x & ? & _). by exists n.
Qed.

Lemma copied_pdb s m t2 ns2 m2 n g b : holds_nodes (secVBitTable s) (vnodes s) m -> copied s m [] t2 ns2 m2 ->
  word b -> vab2 s b = VA_BITS2_PARTDEFINED ->
  pdb (MC (primary_map s) (secmaps s) (auxmap_L1 s) (auxmap_L2 s) (ents s) t2 ns2 n g (errors s)) b = pdb s b.
Proof.
  intros [Hm _] [] Hw Hb. unfold pdb. simpl. rewrite (ks_find_law _ _ _ Hm), (ks_find_law _ _ _ cp_holds0).
  destruct (m !! line_of b) as [n1|] eqn:E1.
  - destruct (cp_done0 _ _ E1) as [?|[[n2 E2]|Hl]]; [set_solver| |by destruct Hl; apply live_line].
    rewrite E2. destruct (cp_nodes0 _ _ E2) as (n' & x & E1' & Hx & Hx2).
    rewrite E1 in E1'. injection E1' as <-. by rewrite Hx, Hx2.
  - destruct (m2 !! line_of b) as [n2|] eqn:E2; [|done].
    destruct (cp_nodes0 _ _ E2) as (n' & x & E1' & _). congruence.
Qed.

(** The new limit. *)
Definition new_limit (n limit : Z) : outcome Z :=
  if above_stepup n limit then scale limit STEPUP_GROWTH_FACTOR
  else if (limit <? DRIFTUP_MAX_SIZE) && above_driftup n limit then scale limit DRIFTUP_GROWTH_FACTOR
  else Ret limit.

Lemma new_limit_ok n limit : 0 <= n <= 2 ^ 27 -> n <= limit -> 1000 <= limit <= 2 ^ 29 ->
  ∃ l, new_limit n limit = Ret l ∧ n < l ∧ 1000 <= l <= 2 ^ 29.
Proof.
  intros Hn Hnl Hl. unfold new_limit, above_stepup. change (2 ^ 27) with 134217728 in Hn.
  change (2 ^ 29) with 536870912 in *. repeat case_bool.
  - destruct (scale_ok limit STEPUP_GROWTH_FACTOR) as (l & -> & ? & ?); [done|by left|]. exists l. split; [done|lia].
  - unfold DRIFTUP_MAX_SIZE in *.
    destruct (scale_ok limit DRIFTUP_GROWTH_FACTOR) as (l & -> & ? & ?); [done|by right|]. exists l. split; [done|lia].
  - exists limit. split; [done|lia].
Qed.

Lemma wp_new_limit s n l (Q : unit -> mc T -> Prop) : new_limit n (secVBitLimit s) = Ret l ->
  Q tt (set_limit l s) ->
  wp (if above_stepup n (secVBitLimit s) then l ← lift (scale (secVBitLimit s) STEPUP_GROWTH_FACTOR); modify (set_limit l)
      else if (secVBitLimit s <? DRIFTUP_MAX_SIZE) && above_driftup n (secVBitLimit s) then
        l ← lift (scale (secVBitLimit s) DRIFTUP_GROWTH_FACTOR); modify (set_limit l)
      else mret tt) Q s.
Proof.
  unfold new_limit. intros Hl HQ. repeat case_bool.
  - wp_step. eapply wp_lift; [exact Hl|]. by wp_step.
  - wp_step. eapply wp_lift; [exact Hl|]. by wp_step.
  - wp_step. injection Hl as <-. by destruct s.
Qed.

Lemma wp_gcSecVBitTable s (Q : unit -> mc T -> Prop) : core s -> table_ok s ->
  (∀ s', core s' -> collected s s' -> Q tt s') -> wp gcSecVBitTable Q s.
Proof.
  intros Hs (Hlim & m & Hm & Hsize) HQ. unfold gcSecVBitTable, createSecVBitTable. do 2 wp_step.
  destruct ks_create_law as (t2 & Ht2 & Hempty). wp_step. eapply wp_lift; [exact Ht2|]. do 2 wp_step.
  cbn [secVBitTable set_GCs_done]. pose proof (holds_nodes_size _ _ _ Hm) as HL.
  destruct (ks_reset_law (secVBitTable s) m) as (t & l & Ht & Hp & Hmt & Hl); [apply Hm|lia|].
  wp_step. eapply wp_lift; [exact Ht|]. set (s1 := set_GCs_done _ s). wp_step.
  assert (core s1) as Hs1 by (by eapply core_ext).
  rewrite (ks_size_ok t (vnodes s) m) by (split; [done|apply Hm]).
  eapply (wp_gc_loop m _ s1 t l t2 ∅ ∅); [done|exact Hm|done| | |].
  { rewrite Hl, length_map_to_list. lia. }
  { constructor; try done.
    - intros k n. by rewrite Hl, elem_of_map_to_list.
    - intros k n Hk. left. by rewrite Hl, elem_of_map_to_list.
    - rewrite Hl. apply NoDup_fst_map_to_list. }
  intros s2 t' ns' m' Hs2 Hq Hc. pose proof Hq as [Hmaps (E1 & E2 & E3 & E4)].
  assert (holds_nodes (secVBitTable s2) (vnodes s2) m) as Hm2 by (by rewrite E1, E2).
  apply (copied_quiet s1 s2) in Hc; [|done].
  destruct (copied_nodes s2 m t' ns' m') as [Hn' Hsz]; [done..|].
  destruct (new_limit_ok (Z.of_nat (size m')) (secVBitLimit s)) as (lim & Hlim' & ? & ?); [lia..|].
  cbn [fst snd]. rewrite (ks_size_ok t' ns' m') by done. do 4 wp_step.
  eapply wp_new_limit; [cbn [secVBitLimit set_table]; rewrite E3; exact Hlim'|].
  apply HQ; [by eapply core_ext|]. apply (collected_from s s1); [by split|]. apply (collected_from s1 s2); [exact Hq|].
  split; [by split|]. split; [done|]. split; [done|]. split; [by exists m'|]. split; [|intros b Hb Eb; by apply (copied_pdb s2 m t' ns' m')].
  intros k. simpl. rewrite (ks_find_law _ _ _ (proj1 Hm2)), (ks_find_law _ _ _ (proj1 Hn')). intros Hk.
  destruct (m' !! k) as [n2|] eqn:En; [|done]. destruct (cp_nodes s2 m [] t' ns' m' Hc k n2 En) as (?&?&?&_). congruence.
Qed.

(** *** Reading and writing the V bits *)

(** An entry that is not 0 is in a node. *)
Lemma has_pdb_node s a : has_pdb s a -> ∃ n x, ks_find (secVBitTable s) (line_of a) = Some n ∧
  vnodes s !! n = Some x ∧ x.2 !! Z.to_nat (a mod 16) = Some (pdb s a).
Proof.
  unfold has_pdb, pdb. destruct (ks_find _ _) as [n|]; [|lia]. destruct (vnodes s !! n) as [x|] eqn:E; [|lia].
  exists n, x. split_and!; [done..|]. by destruct (x.2 !! _); [|simpl in *; lia].
Qed.

Lemma wp_get_sec_vbits8 s a (Q : Z -> mc T -> Prop) : has_pdb s a -> Q (pdb s a) s -> wp (get_sec_vbits8 a) Q s.
Proof.
  intros Hp HQ. destruct (has_pdb_node s a Hp) as (n & x & Hl & Hn & Hx). unfold get_sec_vbits8.
  rewrite line_of_land. do 3 wp_step. eapply wp_lift; [by apply ks_find_Some|]. cbv beta iota. do 2 wp_step. rewrite Hn. wp_step.
  eapply wp_lift; [apply arr_get_Some; [by apply Z.mod_pos_bound|exact Hx]|]. wp_step. apply wp_assert; [|by wp_step].
  destruct Hp. unfold V_BITS8_DEFINED, V_BITS8_UNDEFINED. apply andb_true_iff. split; apply negb_true_iff, Z.eqb_neq; lia.
Qed.

(** What writing the V bits [v] of [a] does: the other partially defined bytes keep
    theirs. *)
Definition set_pdb s s' a v : Prop :=
  same_maps s s' ∧ errors s' = errors s ∧ table_ok s' ∧ pdb s' a = v ∧
  ∀ b, word b -> b ≠ a -> vab2 s b = VA_BITS2_PARTDEFINED -> has_pdb s b -> pdb s' b = pdb s b.

Definition with_node s t n k (l : list Z) : mc T := set_table t (<[n := (k, l)]> (vnodes s)) s.

Lemma same_line a b : line_of a = line_of b -> a mod 16 = b mod 16 -> a = b.
Proof. unfold line_of. dlia. Qed.

(** Updating a node. *)
Lemma update_node s a v m n l : holds_nodes (secVBitTable s) (vnodes s) m -> Z.of_nat (size m) <= secVBitLimit s ->
  1000 <= secVBitLimit s <= 2 ^ 29 -> m !! line_of a = Some n -> vnodes s !! n = Some (line_of a, l) ->
  set_pdb s (with_node s (secVBitTable s) n (line_of a) (<[Z.to_nat (a mod 16) := v]> l)) a v.
Proof.
  intros [Hm Hn] Hsz Hlim Ha Hl. destruct (Hn _ _ Ha) as (_ & l' & Hl' & Hlen). rewrite Hl in Hl'. injection Hl' as <-.
  pose proof (Z.mod_pos_bound a 16 eq_refl).
  split; [by split|]. split; [done|]. split; [|split].
  - split; [done|]. exists m. split; [|done]. split; [done|]. intros k n' Hk. destruct (Hn _ _ Hk) as (? & l' & ? & ?).
    split; [done|]. simpl. destruct (decide (n' = n)) as [->|]; [|exists l'; by rewrite lookup_insert_ne].
    assert (k = line_of a) as -> by congruence. eexists. rewrite lookup_insert_eq. by rewrite length_insert.
  - unfold pdb. simpl. rewrite (ks_find_law _ _ _ Hm), Ha, lookup_insert_eq. simpl.
    rewrite list_lookup_insert_eq by lia. done.
  - intros b _ Hb _ _. unfold pdb. simpl. rewrite (ks_find_law _ _ _ Hm). destruct (m !! line_of b) as [n'|] eqn:Eb; [|done].
    destruct (decide (n' = n)) as [->|]; [|by rewrite lookup_insert_ne]. rewrite lookup_insert_eq, Hl. simpl.
    destruct (Hn _ _ Eb) as (_ & l' & Hl' & _). rewrite Hl in Hl'. injection Hl' as Eline <-.
    rewrite list_lookup_insert_ne; [done|]. intros E. apply Z2Nat.inj in E; [|lia|by apply Z.mod_pos_bound].
    apply Hb. by apply same_line.
Qed.

(** Inserting a node. *)
Lemma insert_node s a v m t : let n := malloc (dom (vnodes s)) in
  holds_nodes (secVBitTable s) (vnodes s) m -> Z.of_nat (size m) < secVBitLimit s ->
  1000 <= secVBitLimit s <= 2 ^ 29 -> m !! line_of a = None -> line_of a ∈ L ->
  ks_insert (secVBitTable s) n (line_of a) = Ret t ->
  set_pdb s (with_node s t n (line_of a) (<[Z.to_nat (a mod 16) := v]> (replicate 16 V_BITS8_UNDEFINED))) a v.
Proof.
  intros n [Hm Hn] Hsz Hlim Ha HaL Ht. pose proof (Z.mod_pos_bound a 16 eq_refl).
  pose proof (malloc_fresh (dom (vnodes s))) as Hf. apply not_elem_of_dom in Hf. fold n in Hf.
  destruct (ks_insert_law _ m n (line_of a) Hm Ha) as (t' & Ht' & Hm'). rewrite Ht in Ht'. injection Ht' as <-.
  split; [by split|]. split; [done|]. split; [|split].
  - split; [done|]. exists (<[line_of a := n]> m). split; [split; [done|]|].
    + intros k n'. rewrite lookup_insert_Some. simpl. intros [[<- <-]|[? Hk]].
      * split; [done|]. eexists. by rewrite lookup_insert_eq, length_insert.
      * destruct (Hn _ _ Hk) as (? & l' & ? & ?). split; [done|]. exists l'. by rewrite lookup_insert_ne by congruence.
    + rewrite map_size_insert_None by done. simpl. lia.
  - unfold pdb. simpl. rewrite (ks_find_law _ _ _ Hm'), lookup_insert_eq, lookup_insert_eq. cbn [snd].
    rewrite list_lookup_insert_eq by (simpl; lia). done.
  - intros b _ Hb _ (n' & x & Hl & Hx & Hxb)%has_pdb_node. unfold pdb at 1. simpl. rewrite (ks_find_law _ _ _ Hm) in Hl.
    rewrite (ks_find_law _ _ _ Hm'), lookup_insert_ne by congruence. rewrite Hl.
    rewrite lookup_insert_ne by congruence. by rewrite Hx, Hxb.
Qed.

Lemma set_pdb_from s s1 s' a v : collected s s1 -> set_pdb s1 s' a v -> set_pdb s s' a v.
Proof.
  intros (Hm & He & _ & _ & _ & Hp) (Hm' & He' & Ht & Ha & Hp'). split; [by etrans|]. split; [congruence|]. split_and!; [done..|].
  intros b Hb Hne Eb Hpb. rewrite Hp'; [by apply Hp|done|done|by rewrite (same_maps_vab2 s s1)|].
  unfold has_pdb. by rewrite Hp.
Qed.

Lemma wp_set_sec_vbits8 s a v (Q : unit -> mc T -> Prop) :
  core s -> table_ok s -> 0 < v < 255 -> line_of a ∈ L ->
  (∀ s', core s' -> set_pdb s s' a v -> Q tt s') -> wp (set_sec_vbits8 a v) Q s.
Proof.
  intros Hs (Hlim & m & Hm & Hsz) Hv HL HQ. unfold set_sec_vbits8. rewrite line_of_land.
  pose proof (Z.mod_pos_bound a 16 eq_refl) as Hmod.
  assert (u8 v = v) as -> by (unfold u8; apply wrap_small; lia).
  do 3 wp_step. eapply wp_lift; [apply (ks_lookup_find _ m), Hm|]. cbv beta iota. wp_step. apply wp_assert.
  { unfold V_BITS8_DEFINED, V_BITS8_UNDEFINED. apply andb_true_iff. split; apply negb_true_iff, Z.eqb_neq; lia. }
  rewrite (ks_find_law _ _ _ (proj1 Hm)). destruct (m !! line_of a) as [n|] eqn:En.
  - do 2 wp_step. destruct (proj2 Hm _ _ En) as (_ & l & Hl & Hlen). rewrite Hl. wp_step.
    eapply wp_lift; [apply arr_set_in_range; cbn [snd]; unfold BYTES_PER_SEC_VBIT_NODE; lia|]. wp_step.
    apply HQ; [by eapply core_ext|]. by eapply update_node.
  - assert (∀ s1, core s1 -> collected s s1 -> wp
      (t ← gets secVBitTable; ns ← gets vnodes; let n := malloc (dom ns) in
       let l := replicate 16 V_BITS8_UNDEFINED in
       l ← lift (arr_set l (a mod BYTES_PER_SEC_VBIT_NODE) v); t ← lift (ks_insert t n (line_of a));
       modify (set_table t (<[n := (line_of a, l)]> ns))) Q s1) as Hins.
    { intros s1 Hs1 Hc. pose proof Hc as (_ & _ & Hlim1 & (m1 & Hm1 & Hsz1) & Hk & _). do 4 wp_step. cbv zeta. wp_step.
      eapply wp_lift; [apply arr_set_in_range; rewrite length_replicate; unfold BYTES_PER_SEC_VBIT_NODE; lia|].
      specialize (Hk (line_of a)). rewrite (ks_find_law _ _ _ (proj1 Hm)), (ks_find_law _ _ _ (proj1 Hm1)) in Hk.
      destruct (ks_insert_law _ m1 (malloc (dom (vnodes s1))) (line_of a) (proj1 Hm1) (Hk En)) as (t & Ht & _).
      wp_step. eapply wp_lift; [exact Ht|]. wp_step. apply HQ; [by eapply core_ext|].
      eapply set_pdb_from; [exact Hc|]. eapply insert_node; eauto. }
    do 3 wp_step. case_bool.
    + apply wp_gcSecVBitTable; [done|by split; [|exists m]|]. apply Hins.
    + wp_step. apply Hins; [done|]. rewrite (ks_size_ok _ _ _ Hm) in *. split; [done|]. split; [done|]. split; [done|].
      split; [exists m; split; [done|lia]|done].
Qed.

(** ** The V bits of a byte *)

(** Writes that leave no byte partially defined: [f b] is what the bits of [b] are
    set to, if anything. *)
Definition set_bits s s' (f : Z -> option Z) : Prop :=
  (∀ b, word b -> vab2 s' b = default (vab2 s b) (f b)) ∧ same_table s s'.
Definition bits_ok (f : Z -> option Z) : Prop :=
  ∀ b v, f b = Some v -> v = VA_BITS2_NOACCESS ∨ v = VA_BITS2_UNDEFINED ∨ v = VA_BITS2_DEFINED.

(** The abstract state after them. *)
Definition abs_set s s' (f : Z -> option Z) : Prop :=
  errors s' = errors s ∧
  ∀ b, word b -> abs s' b = match f b with Some v => v_of v | None => abs s b end.

Lemma set_bits_ok s s' f : inv s -> core s' -> set_bits s s' f -> bits_ok f -> inv s' ∧ abs_set s s' f.
Proof.
  intros [Hc Ht Hp] Hc' [Hv Hst] Hf. split; [constructor|split].
  - done.
  - by eapply same_table_ok.
  - intros b Hb Eb. unfold has_pdb. rewrite (same_table_pdb s s') by done. apply Hp; [done|].
    rewrite Hv in Eb by done. destruct (f b) as [v|] eqn:Ef; [|done]. simpl in Eb.
    destruct (Hf _ _ Ef) as [->|[->| ->]]; done.
  - apply Hst.
  - intros b Hb. unfold abs. rewrite Hv, (same_table_pdb s s') by done. destruct (f b) as [v|] eqn:Ef; [|done]. simpl.
    case_bool; [|done]. destruct (Hf _ _ Ef) as [->|[->| ->]]; done.
Qed.

Lemma set2_bits s s' a v : set2 s s' a v -> set_bits s s' (fun b => if b =? a then Some v else None).
Proof. intros [Hv ?]. split; [|done]. intros b Hb. rewrite Hv by done. by case_bool. Qed.

(** What is read from and written to an address. *)
Definition read_byte (x : option Z) : bool * Z :=
  match x with Some v => (true, v) | None => (false, V_BITS8_DEFINED) end.
Definition byte_set s s' a v : Prop :=
  errors s' = errors s ∧ ∀ b, word b -> abs s' b = if b =? a then (fun _ => v) <$> abs s a else abs s b.

Lemma abs_range s a v : inv s -> word a -> abs s a = Some v -> 0 <= v < 256.
Proof.
  intros Hs Ha. unfold abs, v_of. repeat case_bool; intros [= <-]; try done.
  pose proof (inv_partdef s Hs a Ha E). unfold has_pdb in *. lia.
Qed.

Lemma wp_get_vbits8 s a (Q : bool * Z -> mc T -> Prop) : inv s -> word a ->
  (∀ s', inv s' -> quiet s s' -> Q (read_byte (abs s a)) s') -> wp (get_vbits8 a) Q s.
Proof.
  intros Hs Ha HQ. unfold get_vbits8. wp_step. apply wp_get_vabits2; [apply Hs|done|].
  intros s' Hc Hq. pose proof (quiet_inv s s' Hc Hq Hs) as Hs'. specialize (HQ s' Hs' Hq).
  rewrite <- (quiet_abs s s') in HQ by done. rewrite <- (same_maps_vab2 s s') by apply Hq.
  pose proof (vab2_range s' a Hc) as Hr. revert HQ. unfold abs, v_of.
  unfold VA_BITS2_NOACCESS, VA_BITS2_UNDEFINED, VA_BITS2_DEFINED, VA_BITS2_PARTDEFINED in *.
  repeat (rewrite (Z.eqb_sym _ (vab2 s' a))).
  destruct (vab2 s' a =? 2) eqn:E2; b2p; [rewrite E2; simpl; intros; by wp_step|].
  destruct (vab2 s' a =? 1) eqn:E1; b2p; [rewrite E1; simpl; intros; by wp_step|].
  destruct (vab2 s' a =? 0) eqn:E0; b2p; [rewrite E0; simpl; intros; by wp_step|].
  assert (vab2 s' a = 3) as E3 by lia. rewrite E3. simpl. intros HQ.
  wp_step. apply wp_assert; [done|]. wp_step. apply wp_get_sec_vbits8; [by apply (inv_partdef s' Hs')|]. by wp_step.
Qed.

(** A byte becomes partially defined. *)
Lemma set_partdef s s1 s' a v : inv s -> 0 < v < 255 -> word a -> abs s a ≠ None ->
  core s' -> set_pdb s s1 a v -> set2 s1 s' a VA_BITS2_PARTDEFINED -> inv s' ∧ byte_set s s' a v.
Proof.
  intros [Hc Ht Hp] Hv Ha Hacc Hc' (Hm & He & Ht1 & Hpa & Hpb) [Hb Hst].
  assert (∀ b, word b -> vab2 s' b = if b =? a then VA_BITS2_PARTDEFINED else vab2 s b) as Hv'.
  { intros b Hwb. by rewrite Hb, (same_maps_vab2 s s1). }
  assert (∀ b, word b -> vab2 s' b = VA_BITS2_PARTDEFINED -> pdb s' b = if b =? a then v else pdb s b) as Hpdb.
  { intros b Hwb. rewrite Hv', (same_table_pdb s1 s') by done. case_bool; [by subst|]. intros Eb.
    apply Hpb; [done..|by apply Hp]. }
  split; [constructor|split].
  - done.
  - by eapply same_table_ok.
  - intros b Hwb Eb. unfold has_pdb. rewrite Hpdb by done. rewrite Hv' in Eb by done. revert Eb.
    case_bool; [done|]. by apply Hp.
  - rewrite <- He. apply Hst.
  - intros b Hwb. unfold abs at 1. destruct (vab2 s' b =? VA_BITS2_PARTDEFINED) eqn:E3; b2p.
    + rewrite Hpdb by done. rewrite Hv' in E3 by done. case_bool; [by destruct (abs s a)|].
      unfold abs. by rewrite (proj2 (Z.eqb_eq _ _) E3).
    + rewrite Hv' in * by done. case_bool; [done|]. unfold abs. by rewrite (proj2 (Z.eqb_neq _ _) E3).
Qed.

Lemma wp_set_vbits8 s a v (Q : bool -> mc T -> Prop) : inv s -> word a -> 0 <= v < 256 ->
  (0 < v < 255 -> line_of a ∈ L) ->
  (∀ s', inv s' -> byte_set s s' a v -> Q (bool_decide (is_Some (abs s a))) s') -> wp (set_vbits8 a v) Q s.
Proof.
  intros Hs Ha Hv HL HQ. unfold set_vbits8. wp_step. apply wp_get_vabits2; [apply Hs|done|].
  intros s1 Hc1 Hq. pose proof (quiet_inv s s1 Hc1 Hq Hs) as Hs1. rewrite <- (same_maps_vab2 s s1) by apply Hq.
  assert (∀ s', inv s' -> byte_set s1 s' a v -> Q (bool_decide (is_Some (abs s1 a))) s') as HQ1.
  { intros s' Hs' [He Hb]. rewrite (quiet_abs s s1) by done. apply HQ; [done|]. split; [rewrite He; apply Hq|].
    intros b Hwb. rewrite Hb, !(quiet_abs s s1) by done. done. }
  clear HQ. pose proof (abs_noaccess s1 a) as Hna. case_bool.
  2:{ wp_step. destruct (abs s1 a) as [x|] eqn:Ex; [exfalso; symmetry in E; apply Hna in E; done|]. apply HQ1; [done|].
      split; [done|]. intros b Hb. case_bool; [|done]. subst. by rewrite Ex. }
  assert (abs s1 a ≠ None) as Hacc by (rewrite Hna; congruence).
  assert (bool_decide (is_Some (abs s1 a)) = true) as Ebd by (apply bool_decide_eq_true, not_eq_None_Some, Hacc).
  rewrite Ebd in HQ1.
  assert (∀ v2, 0 <= v2 < 4 -> v2 = VA_BITS2_DEFINED ∨ v2 = VA_BITS2_UNDEFINED -> v_of v2 = Some v ->
    wp (_ ← set_vabits2 a v2; mret true) Q s1) as Hset.
  { intros v2 Hv2 Hor Ev. wp_step. apply wp_set_vabits2; [done..|]. intros s2 Hc2 Hs2%set2_bits. wp_step.
    destruct (set_bits_ok s1 s2 _ Hs1 Hc2 Hs2) as [Hs2' [He Hb]]; [intros b x; case_bool; [intros [= <-]; tauto|done]|].
    apply HQ1; [done|]. split; [done|]. intros b Hwb. rewrite Hb by done. case_bool; [|done].
    rewrite Ev. by destruct (abs s1 a). }
  wp_step. case_bool; [wp_step; apply Hset; [done|by left|by unfold v_of; simpl; f_equal]|].
  case_bool; [wp_step; apply Hset; [done|by right|by unfold v_of; simpl; f_equal]|].
  unfold V_BITS8_DEFINED, V_BITS8_UNDEFINED in *. wp_step.
  apply wp_set_sec_vbits8; [apply Hs1|apply Hs1|lia|apply HL; lia|]. intros s2 Hc2 Hp2. do 2 wp_step.
  apply wp_set_vabits2; [done..|]. intros s3 Hc3 Hs3. wp_step.
  destruct (set_partdef s1 s2 s3 a v) as [Hs3' ?]; [done|lia|done..|]. by apply HQ1.
Qed.

(** ** Initialisation *)

Lemma L1_ok_init (t : T) : L1_ok t (replicate 24 (0, 0)).
Proof. constructor; [done| |by vm_compute; constructor]. apply Forall_replicate. by left. Qed.

Lemma init_shadow_memory_inv :
  ∃ s, init_shadow_memory = Ret s ∧ inv s ∧ errors s = [] ∧ ∀ a, abs s a = None.
Proof.
  destruct (ks_create_law (T := T)) as (t & Ht & Hm). unfold init_shadow_memory, init_auxmap_L1_L2, createSecVBitTable.
  rewrite !Ht. simpl. eexists. split; [done|]. set (s := MC _ _ _ _ _ _ _ _ _ _).
  assert (∀ a, sm_at s a = 0) as Esm.
  { intros a. unfold sm_at. simpl. rewrite (ks_find_law _ _ _ Hm), !lookup_empty. by case_bool. }
  assert (∀ a, vab2 s a = 0) as Ev.
  { intros a. unfold vab2, byte_at. rewrite Esm, extract_mod. unfold s. cbn [secmaps].
    rewrite lookup_insert_eq. unfold sm_byte. cbn [bytes fill]. rewrite lookup_empty. cbn [default from_option].
    by rewrite Z.shiftr_0_l. }
  split; [constructor|split].
  - constructor.
    + intros d. unfold is_distinguished_sm. intros Hd. b2p.
      assert (d = 0 ∨ d = 1 ∨ d = 2) as [-> | [-> | ->]] by lia; eexists; (split; [reflexivity|done]).
    + simpl. intros k m i Hk.
      assert (m = SMap 0 ∅ ∨ m = SMap 0x55 ∅ ∨ m = SMap 0xaa ∅) as [-> | [-> | ->]]; [|done..].
      rewrite !lookup_insert_Some, lookup_singleton_Some in Hk. destruct Hk as [[_ <-]|[_ [[_ <-]|[_ [_ <-]]]]]; auto.
    + intros a _. rewrite Esm. by eexists.
    + intros a b _ _ _. rewrite Esm. by right.
    + apply L1_ok_init.
    + exists ∅. by split.
  - split; [done|]. exists ∅. split; [by split|]. simpl. rewrite map_size_empty. lia.
  - intros a _ E. rewrite Ev in E. done.
  - done.
  - intros a. unfold abs. by rewrite Ev.
Qed.

End Table.

(** * Properties *)

Section Properties.
Context {T : Type} `{!KeyedSet T} `{!KeyedSetLaws T} `{!Allocator}.
Context (L : gset Z) (L_small : Z.of_nat (size L) < ks_limit) (L_small' : Z.of_nat (size L) <= 2 ^ 27).

(** C25: the shadow memory is a function from addresses to no access or eight V bits.
    Reading the V bits of a byte gives its value and leaves the function as it is;
    writing V bits changes it at that address only, and nowhere if the byte may not be
    accessed. No assertion fails, whatever path through the front cache, copying of
    distinguished maps and collection of the table of V bits is taken. *)
Theorem shadow_byte_refines (s : mc T) (a v : Z) :
  inv L s -> word a -> 0 <= v < 256 -> (0 < v < 255 -> line_of a ∈ L) ->
  wp (get_vbits8 a) (fun r s' => r = read_byte (abs s a) ∧ inv L s' ∧
    errors s' = errors s ∧ ∀ b, abs s' b = abs s b) s ∧
  wp (set_vbits8 a v) (fun ok s' => ok = bool_decide (is_Some (abs s a)) ∧ inv L s' ∧ byte_set s s' a v) s.
Proof.
  intros Hs Ha Hv HL. split.
  - apply (wp_get_vbits8 L); [done..|]. intros s' Hs' Hq. split; [done|]. split; [done|]. split; [apply Hq|].
    intros b. by apply quiet_abs.
  - by apply (wp_set_vbits8 L).
Qed.

(** C26: collecting garbage in the table of V bits keeps the V bits of every byte that
    is partially defined and all secondary maps, drops lines only, and makes room: there
    are fewer nodes than the limit afterwards, which never gets smaller than 1000 nor
    overflows. *)
Theorem gc_keeps_vbits (s : mc T) :
  inv L s ->
  wp gcSecVBitTable (fun _ s' => inv L s' ∧ (∀ a, word a -> abs s' a = abs s a) ∧ errors s' = errors s ∧
    ks_size (secVBitTable s') < secVBitLimit s' ∧ 1000 <= secVBitLimit s' <= 2 ^ 29 ∧
    ∀ k, is_Some (ks_find (secVBitTable s') k) -> is_Some (ks_find (secVBitTable s) k)) s.
Proof.
  intros Hs. apply (wp_gcSecVBitTable L); [done|done|apply Hs|apply Hs|].
  intros s' Hc (Hm & He & Hlim & (m & Hn & Hsz) & Hk & Hp). pose proof (same_maps_vab2 s s') as Hv. split; [|split; [|split; [|split; [|split]]]].
  - constructor; [done| |].
    + split; [done|]. exists m. split; [done|lia].
    + intros a Ha Ea. rewrite Hv in Ea by done. unfold has_pdb. rewrite Hp by done. by apply (inv_partdef L s Hs).
  - intros a Ha. unfold abs. rewrite Hv by done. case_bool; [by rewrite Hp|done].
  - done.
  - by rewrite (ks_size_ok L L_small' _ _ _ Hn).
  - done.
  - intros k [n Hn']. destruct (ks_find (secVBitTable s) k) eqn:E; [done|]. by rewrite (Hk k E) in Hn'.
Qed.

End Properties.

(** * Witnesses

    Ordered sets of [OSet], and an allocator that takes the next address. *)

#[export] Program Instance next_address : Allocator := { malloc used := set_fold Z.max 2 used + 1 }.
Next Obligation.
  intros used Hin. assert (∀ x, x ∈ used -> x <= set_fold Z.max 2 used) as Hmax; [|specialize (Hmax _ Hin); lia].
  apply (set_fold_ind_L (fun r X => ∀ x, x ∈ X -> x <= r)); [set_solver|]. intros y X r Hy IH x Hx.
  apply elem_of_union in Hx as [->%elem_of_singleton|Hx]; [lia|]. specialize (IH x Hx). lia.
Qed.
Next Obligation.
  intros used. assert (2 <= set_fold Z.max 2 used); [|lia].
  apply (set_fold_ind_L (fun r X => 2 <= r)); intros; lia.
Qed.

(** A byte becomes accessible and partially defined, one far away undefined. *)
Example shadow_run :
  (s ← init_shadow_memory (T := OSet);
   r ← (_ ← set_vabits2 200 VA_BITS2_UNDEFINED; ok ← set_vbits8 200 0x0f; ok2 ← set_vbits8 201 0x0f;
        _ ← set_vabits2 (2 ^ 47 + 5) VA_BITS2_UNDEFINED;
        x ← get_vbits8 200; y ← get_vbits8 201; z ← get_vbits8 (2 ^ 47 + 5); mret (ok, ok2, x, y, z)) s;
   Ret r.1) = Ret (true, false, (true, 0x0f), (false, 0), (true, 0xff)).
Proof. vm_compute. reflexivity. Qed.

Definition demo_lines : gset Z := {[ 192 ]}.

(** A state of a program: the byte at 200 is undefined. *)
Lemma demo_shadow : ∃ s : mc OSet, inv demo_lines s ∧ abs s 200 = Some 255.
Proof.
  destruct (init_shadow_memory_inv demo_lines) as (s & _ & Hs & _ & Ha).
  destruct (wp_set_vabits2 s 200 VA_BITS2_UNDEFINED (fun _ s' => core s' ∧ set2 s s' 200 VA_BITS2_UNDEFINED))
    as (_ & s' & _ & Hc & H2); [apply Hs|done|done|done|].
  destruct (set_bits_ok demo_lines s s' _ Hs Hc (set2_bits _ _ _ _ H2)) as [Hs' [_ Hb]].
  { intros b v. case_bool; [intros [= <-]; by right; left|done]. }
  exists s'. split; [done|]. by rewrite Hb.
Qed.

Lemma shadow_byte_refines_witness : ∃ s s1 s2 : mc OSet,
  get_vbits8 200 s = Ret (true, 255, s1) ∧ set_vbits8 200 15 s = Ret (true, s2) ∧ abs s2 200 = Some 15.
Proof.
  destruct demo_shadow as (s & Hs & Ea).
  destruct (shadow_byte_refines demo_lines ltac:(done) ltac:(done) s 200 15 Hs) as [Hg Hset]; [done|done|done|].
  destruct Hg as (r & s1 & E1 & -> & _). destruct Hset as (ok & s2 & E2 & -> & _ & _ & Hb).
  exists s, s1, s2. rewrite Ea in *. split; [exact E1|]. split; [exact E2|]. by rewrite (Hb 200).
Defined.

Lemma gc_keeps_vbits_witness : ∃ s s' : mc OSet, gcSecVBitTable s = Ret (tt, s') ∧ abs s' 200 = Some 255.
Proof.
  destruct demo_shadow as (s & Hs & Ea).
  destruct (gc_keeps_vbits demo_lines ltac:(done) ltac:(done) s Hs) as ([] & s' & E & _ & Ha & _).
  exists s, s'. split; [exact E|]. by rewrite Ha.
Defined.
