(* ===== verification/McAccess.v ===== *)
(** * memcheck/mc_main.c: loads and stores

    The helpers that translated code calls for its loads and stores: the general
    slow cases, byte by byte, and the fast ones for aligned addresses below 128 GB.
    Both byte orders are modelled. [errors] lists the calls of
    [MC_(record_address_error)]. *)

From stdpp Require Import gmap fin_maps.
From S2P Require Import Prelude PoolAlloc WordFM OSet McShadow.
Local Open Scope Z_scope.

(** * Definitions *)

Definition V_BITS16_DEFINED : Z := 0.
Definition V_BITS16_UNDEFINED : Z := 0xFFFF.
Definition V_BITS32_DEFINED : Z := 0.
Definition V_BITS32_UNDEFINED : Z := 0xFFFFFFFF.
Definition V_BITS64_DEFINED : Z := 0.
Definition V_BITS64_UNDEFINED : Z := 0xFFFFFFFFFFFFFFFF.

Definition VA_BITS4_NOACCESS : Z := 0x0.
Definition VA_BITS4_UNDEFINED : Z := 0x5.
Definition VA_BITS4_DEFINED : Z := 0xa.
Definition VA_BITS16_NOACCESS : Z := 0x0000.
Definition VA_BITS16_UNDEFINED : Z := 0x5555.
Definition VA_BITS16_DEFINED : Z := 0xaaaa.

Definition VG_WORDSIZE : Z := 8.
Definition VG_IS_2_ALIGNED (a : Z) : bool := Z.land a 1 =? 0.
Definition VG_IS_4_ALIGNED (a : Z) : bool := Z.land a 3 =? 0.
Definition VG_IS_8_ALIGNED (a : Z) : bool := Z.land a 7 =? 0.
Definition VG_IS_WORD_ALIGNED (a : Z) : bool := Z.land a (VG_WORDSIZE - 1) =? 0.

Definition byte_offset_w (wordszB : Z) (bigendian : bool) (byteno : Z) : Z :=
  if bigendian then wordszB - 1 - byteno else byteno.

Definition MASK (szInBytes : Z) : Z :=
  u64 (Z.lnot (Z.lor (0x10000 - szInBytes) (Z.shiftl (N_PRIMARY_MAP - 1) 16))).
Definition UNALIGNED_OR_HIGH (a szInBits : Z) : bool := negb (Z.land a (MASK (Z.shiftr szInBits 3)) =? 0).

Definition accessible_vabits4_in_vabits8 (a vabits8 : Z) : outcome bool :=
  _ ← vg_assert (VG_IS_2_ALIGNED a);
  let shift := Z.shiftl (Z.land a 2) 1 in
  let vabits8 := Z.shiftr vabits8 shift in
  Ret (negb (Z.land 0x3 vabits8 =? VA_BITS2_NOACCESS) &&
       negb (Z.land 0xc vabits8 =? Z.shiftl VA_BITS2_NOACCESS 2)).

(** A loop over indices with local variables [acc]. *)
Fixpoint fold_each {T A S} (l : list A) (body : A -> S -> M T S) (acc : S) : M T S :=
  match l with [] => mret acc | x :: l => body x acc ≫= fun acc => fold_each l body acc end.

Section Access.
Context {T : Type} `{!KeyedSet T} `{!Allocator}.

(** The option [--partial-loads-ok]. *)
Context (clo_partial_loads_ok : bool).
Notation M := (M T).

Definition record_address_error (a szB : Z) (isWrite : bool) : M unit :=
  modify (add_error (AddrErr a szB isWrite)).

(** ** Loads of up to 64 bits *)

(** The loops over the bytes have the result, the pessimising value and
    [n_addrs_bad] as variables. *)
Definition load_byte (a szB : Z) (bigendian : bool) (i : Z) (acc : Z * Z * Z) : M (Z * Z * Z) :=
  let '(vbits64, pessim64, n_addrs_bad) := acc in
  let ai := u64 (a + byte_offset_w szB bigendian i) in
  r ← get_vbits8 ai;
  let ok : bool := r.1 in
  mret (Z.lor (u64 (Z.shiftl vbits64 8)) r.2,
        Z.lor (u64 (Z.shiftl pessim64 8)) (if ok then V_BITS8_DEFINED else V_BITS8_UNDEFINED),
        if ok then n_addrs_bad else n_addrs_bad + 1).

Definition LOADVn_semi_fast (a nBits : Z) : M (option Z) :=
  if (nBits =? 64) && VG_IS_8_ALIGNED a then
    sm ← get_secmap_for_reading a;
    vabits16 ← get_vabits16 sm (SM_OFF_16 a);
    if vabits16 =? VA_BITS16_DEFINED then mret (Some V_BITS64_DEFINED)
    else if vabits16 =? VA_BITS16_UNDEFINED then mret (Some V_BITS64_UNDEFINED)
    else mret None
  else if (nBits =? 32) && VG_IS_4_ALIGNED a then
    sm ← get_secmap_for_reading a;
    vabits8 ← get_vabits8 sm (SM_OFF a);
    if vabits8 =? VA_BITS8_DEFINED then mret (Some (Z.lor 0xFFFFFFFF00000000 V_BITS32_DEFINED))
    else if vabits8 =? VA_BITS8_UNDEFINED then mret (Some (Z.lor 0xFFFFFFFF00000000 V_BITS32_UNDEFINED))
    else mret None
  else mret None.

Definition LOADVn_general (a nBits : Z) (bigendian : bool) : M Z :=
  let szB := nBits / 8 in
  _ ← tl_assert ((nBits =? 64) || (nBits =? 32) || (nBits =? 16) || (nBits =? 8));
  r ← fold_each (reverse (seqZ 0 szB)) (load_byte a szB bigendian) (V_BITS64_UNDEFINED, V_BITS64_DEFINED, 0);
  let '(vbits64, pessim64, n_addrs_bad) := r in
  if n_addrs_bad =? 0 then mret vbits64
  else if negb clo_partial_loads_ok then _ ← record_address_error a szB false; mret vbits64
  else
    _ ← tl_assert (negb (pessim64 =? V_BITS64_DEFINED));
    if (szB =? VG_WORDSIZE) && VG_IS_WORD_ALIGNED a && (n_addrs_bad <? VG_WORDSIZE) then
      mret (Z.lor vbits64 pessim64)
    else if (VG_WORDSIZE =? 8) && VG_IS_4_ALIGNED a && (nBits =? 32) && (n_addrs_bad <? 4) then
      mret (Z.lor (Z.lor vbits64 pessim64) (Z.shiftl V_BITS32_UNDEFINED 32))
    else _ ← record_address_error a szB false; mret vbits64.

Definition mc_LOADVn_slow (a nBits : Z) (bigendian : bool) : M Z :=
  fast ← LOADVn_semi_fast a nBits;
  match fast with Some v => mret v | None => LOADVn_general a nBits bigendian end.

Definition mc_LOADV64 (a : Z) (isBigEndian : bool) : M Z :=
  if UNALIGNED_OR_HIGH a 64 then mc_LOADVn_slow a 64 isBigEndian
  else
    sm ← get_secmap_for_reading_low a;
    vabits16 ← get_vabits16 sm (SM_OFF_16 a);
    if vabits16 =? VA_BITS16_DEFINED then mret V_BITS64_DEFINED
    else if vabits16 =? VA_BITS16_UNDEFINED then mret V_BITS64_UNDEFINED
    else mc_LOADVn_slow a 64 isBigEndian.

Definition mc_LOADV32 (a : Z) (isBigEndian : bool) : M Z :=
  if UNALIGNED_OR_HIGH a 32 then mc_LOADVn_slow a 32 isBigEndian
  else
    sm ← get_secmap_for_reading_low a;
    vabits8 ← get_vabits8 sm (SM_OFF a);
    if vabits8 =? VA_BITS8_DEFINED then mret (Z.lor 0xFFFFFFFF00000000 V_BITS32_DEFINED)
    else if vabits8 =? VA_BITS8_UNDEFINED then mret (Z.lor 0xFFFFFFFF00000000 V_BITS32_UNDEFINED)
    else mc_LOADVn_slow a 32 isBigEndian.

Definition mc_LOADV16 (a : Z) (isBigEndian : bool) : M Z :=
  if UNALIGNED_OR_HIGH a 16 then mc_LOADVn_slow a 16 isBigEndian
  else
    sm ← get_secmap_for_reading_low a;
    vabits8 ← get_vabits8 sm (SM_OFF a);
    if vabits8 =? VA_BITS8_DEFINED then mret V_BITS16_DEFINED
    else if vabits8 =? VA_BITS8_UNDEFINED then mret V_BITS16_UNDEFINED
    else
      vabits4 ← lift (extract_vabits4_from_vabits8 a vabits8);
      if vabits4 =? VA_BITS4_DEFINED then mret V_BITS16_DEFINED
      else if vabits4 =? VA_BITS4_UNDEFINED then mret V_BITS16_UNDEFINED
      else mc_LOADVn_slow a 16 isBigEndian.

Definition helperc_LOADV8 (a : Z) : M Z :=
  if UNALIGNED_OR_HIGH a 8 then mc_LOADVn_slow a 8 false
  else
    sm ← get_secmap_for_reading_low a;
    vabits8 ← get_vabits8 sm (SM_OFF a);
    if vabits8 =? VA_BITS8_DEFINED then mret V_BITS8_DEFINED
    else if vabits8 =? VA_BITS8_UNDEFINED then mret V_BITS8_UNDEFINED
    else
      let vabits2 := extract_vabits2_from_vabits8 a vabits8 in
      if vabits2 =? VA_BITS2_DEFINED then mret V_BITS8_DEFINED
      else if vabits2 =? VA_BITS2_UNDEFINED then mret V_BITS8_UNDEFINED
      else mc_LOADVn_slow a 8 false.

Definition helperc_LOADV64be (a : Z) : M Z := mc_LOADV64 a true.
Definition helperc_LOADV64le (a : Z) : M Z := mc_LOADV64 a false.
Definition helperc_LOADV32be (a : Z) : M Z := mc_LOADV32 a true.
Definition helperc_LOADV32le (a : Z) : M Z := mc_LOADV32 a false.
Definition helperc_LOADV16be (a : Z) : M Z := mc_LOADV16 a true.
Definition helperc_LOADV16le (a : Z) : M Z := mc_LOADV16 a false.

(** ** Loads of 128 and 256 bits

    The result is an array of words of 64 bits. *)

(** [for (j = szL-1; j >= 0; j--)], with the arrays and [n_addrs_bad]. *)
Definition load_long (a szL : Z) (bigendian : bool) (j : Z) (acc : list Z * list Z * Z) : M (list Z * list Z * Z) :=
  let '(res, pessim, n_addrs_bad) := acc in
  let long_index := byte_offset_w szL bigendian j in
  r ← fold_each (reverse (seqZ 0 8)) (load_byte (a + 8 * long_index) 8 bigendian)
        (V_BITS64_UNDEFINED, V_BITS64_DEFINED, n_addrs_bad);
  let '(vbits64, pessim64, n_addrs_bad) := r in
  res ← lift (arr_set res long_index vbits64);
  pessim ← lift (arr_set pessim long_index pessim64);
  mret (res, pessim, n_addrs_bad).

(** [res[j] |= pessim[j]]. *)
Definition pessimise (pessim : list Z) (j : Z) (res : list Z) : M (list Z) :=
  r ← lift (arr_get res j); p ← lift (arr_get pessim j); lift (arr_set res j (Z.lor r p)).

Definition mc_LOADV_128_or_256_slow (res : list Z) (a nBits : Z) (bigendian : bool) : M (list Z) :=
  let szB := nBits / 8 in
  let szL := szB / 8 in
  _ ← tl_assert ((Z.land szB (szB - 1) =? 0) && (0 <? szL));
  _ ← tl_assert (szL <=? 4);
  res ← fold_each (seqZ 0 szL) (fun j res => lift (arr_set res j V_BITS64_UNDEFINED)) res;
  let pessim := replicate (Z.to_nat szL) V_BITS64_DEFINED in
  r ← fold_each (reverse (seqZ 0 szL)) (load_long a szL bigendian) (res, pessim, 0);
  let '(res, pessim, n_addrs_bad) := r in
  if n_addrs_bad =? 0 then mret res
  else if negb clo_partial_loads_ok then _ ← record_address_error a szB false; mret res
  else
    _ ← tl_assert (existsb (fun p => negb (p =? V_BITS64_DEFINED)) pessim);
    let alignedOK := Z.land a (szB - 1) =? 0 in
    if alignedOK && (n_addrs_bad <? szB) then fold_each (reverse (seqZ 0 szL)) (pessimise pessim) res
    else _ ← record_address_error a szB false; mret res.

(** The fast loop; [None] where it turns to the slow case. *)
Fixpoint LOADV_128_or_256_fast (js : list Z) (a : Z) (res : list Z) : M (option (list Z)) :=
  match js with
  | [] => mret (Some res)
  | j :: js =>
      sm ← get_secmap_for_reading_low (u64 (a + 8 * j));
      vabits16 ← get_vabits16 sm (SM_OFF_16 (u64 (a + 8 * j)));
      if vabits16 =? VA_BITS16_DEFINED then
        res ← lift (arr_set res j V_BITS64_DEFINED); LOADV_128_or_256_fast js a res
      else if vabits16 =? VA_BITS16_UNDEFINED then
        res ← lift (arr_set res j V_BITS64_UNDEFINED); LOADV_128_or_256_fast js a res
      else mret None
  end.

Definition mc_LOADV_128_or_256 (res : list Z) (a nBits : Z) (isBigEndian : bool) : M (list Z) :=
  let nBytes := nBits / 8 in
  let nULongs := nBytes / 8 in
  if UNALIGNED_OR_HIGH a nBits then mc_LOADV_128_or_256_slow res a nBits isBigEndian
  else
    fast ← LOADV_128_or_256_fast (seqZ 0 nULongs) a res;
    match fast with Some res => mret res | None => mc_LOADV_128_or_256_slow res a nBits isBigEndian end.

Definition helperc_LOADV256be (res : list Z) (a : Z) : M (list Z) := mc_LOADV_128_or_256 res a 256 true.
Definition helperc_LOADV256le (res : list Z) (a : Z) : M (list Z) := mc_LOADV_128_or_256 res a 256 false.
Definition helperc_LOADV128be (res : list Z) (a : Z) : M (list Z) := mc_LOADV_128_or_256 res a 128 true.
Definition helperc_LOADV128le (res : list Z) (a : Z) : M (list Z) := mc_LOADV_128_or_256 res a 128 false.

(** ** Stores *)

(** The variables of the loop are [vbytes] and [n_addrs_bad]. *)
Definition store_byte (a szB : Z) (bigendian : bool) (i : Z) (acc : Z * Z) : M (Z * Z) :=
  let '(vbytes, n_addrs_bad) := acc in
  let ai := u64 (a + byte_offset_w szB bigendian i) in
  let vbits8 := Z.land vbytes 0xff in
  ok ← set_vbits8 ai vbits8;
  mret (Z.shiftr vbytes 8, if ok : bool then n_addrs_bad else n_addrs_bad + 1).

(** Whether the store is done. *)
Definition STOREVn_semi_fast (a nBits vbytes : Z) : M bool :=
  if (nBits =? 64) && VG_IS_8_ALIGNED a then
    sm ← get_secmap_for_reading a;
    vabits16 ← get_vabits16 sm (SM_OFF_16 a);
    if negb (is_distinguished_sm sm) && ((VA_BITS16_DEFINED =? vabits16) || (VA_BITS16_UNDEFINED =? vabits16)) then
      if V_BITS64_DEFINED =? vbytes then _ ← put_vabits16 sm (SM_OFF_16 a) VA_BITS16_DEFINED; mret true
      else if V_BITS64_UNDEFINED =? vbytes then _ ← put_vabits16 sm (SM_OFF_16 a) VA_BITS16_UNDEFINED; mret true
      else mret false
    else mret false
  else if (nBits =? 32) && VG_IS_4_ALIGNED a then
    sm ← get_secmap_for_reading a;
    vabits8 ← get_vabits8 sm (SM_OFF a);
    if negb (is_distinguished_sm sm) && ((VA_BITS8_DEFINED =? vabits8) || (VA_BITS8_UNDEFINED =? vabits8)) then
      if V_BITS32_DEFINED =? Z.land vbytes 0xFFFFFFFF then _ ← put_vabits8 sm (SM_OFF a) VA_BITS8_DEFINED; mret true
      else if V_BITS32_UNDEFINED =? Z.land vbytes 0xFFFFFFFF then _ ← put_vabits8 sm (SM_OFF a) VA_BITS8_UNDEFINED; mret true
      else mret false
    else mret false
  else mret false.

Definition STOREVn_general (a nBits vbytes : Z) (bigendian : bool) : M unit :=
  let szB := nBits / 8 in
  _ ← tl_assert ((nBits =? 64) || (nBits =? 32) || (nBits =? 16) || (nBits =? 8));
  r ← fold_each (seqZ 0 szB) (store_byte a szB bigendian) (vbytes, 0);
  if 0 <? r.2 then record_address_error a szB true else mret tt.

Definition mc_STOREVn_slow (a nBits vbytes : Z) (bigendian : bool) : M unit :=
  isdone ← STOREVn_semi_fast a nBits vbytes;
  if isdone : bool then mret tt else STOREVn_general a nBits vbytes bigendian.

Definition mc_STOREV64 (a vbits64 : Z) (isBigEndian : bool) : M unit :=
  if UNALIGNED_OR_HIGH a 64 then mc_STOREVn_slow a 64 vbits64 isBigEndian
  else
    sm ← get_secmap_for_reading_low a;
    vabits16 ← get_vabits16 sm (SM_OFF_16 a);
    if V_BITS64_DEFINED =? vbits64 then
      if vabits16 =? VA_BITS16_DEFINED then mret tt
      else if negb (is_distinguished_sm sm) && (VA_BITS16_UNDEFINED =? vabits16) then
        put_vabits16 sm (SM_OFF_16 a) VA_BITS16_DEFINED
      else mc_STOREVn_slow a 64 vbits64 isBigEndian
    else if V_BITS64_UNDEFINED =? vbits64 then
      if vabits16 =? VA_BITS16_UNDEFINED then mret tt
      else if negb (is_distinguished_sm sm) && (VA_BITS16_DEFINED =? vabits16) then
        put_vabits16 sm (SM_OFF_16 a) VA_BITS16_UNDEFINED
      else mc_STOREVn_slow a 64 vbits64 isBigEndian
    else mc_STOREVn_slow a 64 vbits64 isBigEndian.

Definition mc_STOREV32 (a vbits32 : Z) (isBigEndian : bool) : M unit :=
  if UNALIGNED_OR_HIGH a 32 then mc_STOREVn_slow a 32 vbits32 isBigEndian
  else
    sm ← get_secmap_for_reading_low a;
    vabits8 ← get_vabits8 sm (SM_OFF a);
    if V_BITS32_DEFINED =? vbits32 then
      if vabits8 =? VA_BITS8_DEFINED then mret tt
      else if negb (is_distinguished_sm sm) && (VA_BITS8_UNDEFINED =? vabits8) then
        put_vabits8 sm (SM_OFF a) VA_BITS8_DEFINED
      else mc_STOREVn_slow a 32 vbits32 isBigEndian
    else if V_BITS32_UNDEFINED =? vbits32 then
      if vabits8 =? VA_BITS8_UNDEFINED then mret tt
      else if negb (is_distinguished_sm sm) && (VA_BITS8_DEFINED =? vabits8) then
        put_vabits8 sm (SM_OFF a) VA_BITS8_UNDEFINED
      else mc_STOREVn_slow a 32 vbits32 isBigEndian
    else mc_STOREVn_slow a 32 vbits32 isBigEndian.

(** The direct modification of two bytes, if it applies. *)
Definition STOREV16_direct (a sm vabits8 vabits4 : Z) : M bool :=
  if negb (is_distinguished_sm sm) then
    acc ← lift (accessible_vabits4_in_vabits8 a vabits8);
    if acc : bool then
      v ← lift (insert_vabits4_into_vabits8 a vabits4 vabits8);
      _ ← put_vabits8 sm (SM_OFF a) v; mret true
    else mret false
  else mret false.

(** There is no return after the first slow case. *)
Definition mc_STOREV16 (a vbits16 : Z) (isBigEndian : bool) : M unit :=
  if UNALIGNED_OR_HIGH a 16 then mc_STOREVn_slow a 16 vbits16 isBigEndian
  else
    sm ← get_secmap_for_reading_low a;
    vabits8 ← get_vabits8 sm (SM_OFF a);
    isdone ← (if V_BITS16_DEFINED =? vbits16 then
               if vabits8 =? VA_BITS8_DEFINED then mret true
               else
                 isdone ← STOREV16_direct a sm vabits8 VA_BITS4_DEFINED;
                 if isdone : bool then mret true
                 else _ ← mc_STOREVn_slow a 16 vbits16 isBigEndian; mret false
             else mret false);
    if isdone : bool then mret tt
    else if V_BITS16_UNDEFINED =? vbits16 then
      if vabits8 =? VA_BITS8_UNDEFINED then mret tt
      else
        isdone ← STOREV16_direct a sm vabits8 VA_BITS4_UNDEFINED;
        if isdone : bool then mret tt else mc_STOREVn_slow a 16 vbits16 isBigEndian
    else mc_STOREVn_slow a 16 vbits16 isBigEndian.

Definition helperc_STOREV8 (a vbits8 : Z) : M unit :=
  if UNALIGNED_OR_HIGH a 8 then mc_STOREVn_slow a 8 vbits8 false
  else
    sm ← get_secmap_for_reading_low a;
    vabits8 ← get_vabits8 sm (SM_OFF a);
    if V_BITS8_DEFINED =? vbits8 then
      if vabits8 =? VA_BITS8_DEFINED then mret tt
      else if negb (is_distinguished_sm sm) && negb (VA_BITS2_NOACCESS =? extract_vabits2_from_vabits8 a vabits8) then
        put_vabits8 sm (SM_OFF a) (insert_vabits2_into_vabits8 a VA_BITS2_DEFINED vabits8)
      else mc_STOREVn_slow a 8 vbits8 false
    else if V_BITS8_UNDEFINED =? vbits8 then
      if vabits8 =? VA_BITS8_UNDEFINED then mret tt
      else if negb (is_distinguished_sm sm) && negb (VA_BITS2_NOACCESS =? extract_vabits2_from_vabits8 a vabits8) then
        put_vabits8 sm (SM_OFF a) (insert_vabits2_into_vabits8 a VA_BITS2_UNDEFINED vabits8)
      else mc_STOREVn_slow a 8 vbits8 false
    else mc_STOREVn_slow a 8 vbits8 false.

Definition helperc_STOREV64be (a vbits64 : Z) : M unit := mc_STOREV64 a vbits64 true.
Definition helperc_STOREV64le (a vbits64 : Z) : M unit := mc_STOREV64 a vbits64 false.
Definition helperc_STOREV32be (a vbits32 : Z) : M unit := mc_STOREV32 a vbits32 true.
Definition helperc_STOREV32le (a vbits32 : Z) : M unit := mc_STOREV32 a vbits32 false.
Definition helperc_STOREV16be (a vbits16 : Z) : M unit := mc_STOREV16 a vbits16 true.
Definition helperc_STOREV16le (a vbits16 : Z) : M unit := mc_STOREV16 a vbits16 false.

End Access.

(** * Lemmas *)

(** ** Bytes of words *)

Definition byte_of (v i : Z) : Z := Z.land (Z.shiftr v (8 * i)) 255.

Lemma byte_of_testbit v i k : 0 <= k -> 0 <= i -> Z.testbit (byte_of v i) k = (k <? 8) && Z.testbit v (k + 8 * i).
Proof.
  intros Hk Hi. unfold byte_of. change 255 with (Z.ones 8). rewrite Z.land_spec, Z.shiftr_spec, Z.testbit_ones_nonneg by lia.
  apply andb_comm.
Qed.

Lemma byte_of_range v i : 0 <= byte_of v i < 256.
Proof. unfold byte_of. change 255 with (Z.ones 8). rewrite Z.land_ones by lia. by apply Z.mod_pos_bound. Qed.

Lemma testbit_small b n k : 0 <= b < 2 ^ n -> 0 <= n <= k -> Z.testbit b k = false.
Proof.
  intros Hb Hk. destruct (decide (b = 0)) as [->|]; [apply Z.bits_0|]. apply Z.bits_above_log2; [lia|].
  assert (Z.log2 b < n) by (apply Z.log2_lt_pow2; lia). lia.
Qed.

Lemma u64_testbit v k : 0 <= k -> Z.testbit (u64 v) k = (k <? 64) && Z.testbit v k.
Proof.
  intros Hk. unfold u64, wrap. rewrite <- Z.land_ones, Z.land_spec, Z.testbit_ones_nonneg by lia. apply andb_comm.
Qed.

Lemma byte_of_lor v w i : byte_of (Z.lor v w) i = Z.lor (byte_of v i) (byte_of w i).
Proof. unfold byte_of. by rewrite Z.shiftr_lor, Z.land_lor_distr_l. Qed.

(** Shifting a byte in from below. *)
Lemma byte_of_push v b i : 0 <= b < 256 -> 0 <= i < 8 ->
  byte_of (Z.lor (u64 (Z.shiftl v 8)) b) i = if i =? 0 then b else byte_of v (i - 1).
Proof.
  intros Hb Hi. apply Z.bits_inj'. intros k Hk. rewrite byte_of_testbit by lia.
  rewrite Z.lor_spec, u64_testbit, Z.shiftl_spec by lia. case_bool.
  - subst. rewrite Z.add_0_r. destruct (k <? 8) eqn:Ek; b2p; simpl.
    + rewrite (Z.testbit_neg_r v) by lia. by rewrite andb_false_r.
    + symmetry. by apply (testbit_small b 8).
  - rewrite byte_of_testbit by lia. destruct (k <? 8) eqn:Ek; b2p; simpl; [|done].
    rewrite (testbit_small b 8), orb_false_r by lia. rewrite (proj2 (Z.ltb_lt _ 64)) by lia. simpl. f_equal. lia.
Qed.

Lemma u64_push_range v b : 0 <= b < 256 -> 0 <= Z.lor (u64 (Z.shiftl v 8)) b < 2 ^ 64.
Proof.
  intros Hb. assert (u64 (Z.shiftl v 8) = (v mod 2 ^ 56) * 2 ^ 8) as ->.
  { unfold u64, wrap. rewrite Z.shiftl_mul_pow2 by lia. change (2 ^ 64) with (2 ^ 56 * 2 ^ 8).
    by rewrite Z.mul_mod_distr_r. }
  rewrite lor_shifted_small by lia. pose proof (Z.mod_pos_bound v (2 ^ 56) eq_refl).
  change (2 ^ 64) with (2 ^ 56 * 2 ^ 8). lia.
Qed.

(** ** Loops with local variables *)

Section Loops.
Context {T : Type}.

(** The variables change as a function [g] of them, and [P] is kept. *)
Lemma wp_fold_pure {A S} (P : mc T -> Prop) (g : S -> A -> S) (l : list A) (body : A -> S -> M T S) acc s
    (Q : S -> mc T -> Prop) :
  (∀ x acc s' (R : S -> mc T -> Prop), x ∈ l -> P s' -> (∀ s'', P s'' -> R (g acc x) s'') -> wp (body x acc) R s') ->
  P s -> (∀ s', P s' -> Q (foldl g acc l) s') -> wp (fold_each l body acc) Q s.
Proof.
  revert acc s. induction l as [|x l IH]; intros acc s Hb HP HQ; simpl in *; [by apply wp_ret, HQ|].
  wp_step. apply Hb; [by left|done|]. intros s'' HP''. apply IH; [|done|done].
  intros y acc' s' R Hy. apply Hb. by right.
Qed.

(** ... or an invariant relates them to the state. *)
Lemma wp_fold_inv {A S} (I : list A -> S -> mc T -> Prop) (l : list A) (body : A -> S -> M T S) acc s
    (Q : S -> mc T -> Prop) :
  (∀ x l' acc s', x ∈ l -> I (x :: l') acc s' -> wp (body x acc) (I l') s') ->
  I l acc s -> (∀ acc' s', I [] acc' s' -> Q acc' s') -> wp (fold_each l body acc) Q s.
Proof.
  revert acc s. induction l as [|x l IH]; intros acc s Hb HI HQ; simpl in *; [by apply wp_ret, HQ|].
  wp_step. eapply wp_mono; [apply (Hb x l); [by left|done]|]. intros acc' s' HI'. apply IH; [|done|done].
  intros y l' acc'' s'' Hy. apply Hb. by right.
Qed.

End Loops.

(** ** What a load computes *)

(** The number of bytes that may not be accessed. *)
Definition n_bad (mem : Z -> option Z) (n : nat) : Z :=
  Z.of_nat (length (filter (fun i => mem i = None) (seqZ 0 (Z.of_nat n)))).

Lemma seqZ_S n : seqZ 0 (Z.of_nat (S n)) = seqZ 0 (Z.of_nat n) ++ [Z.of_nat n].
Proof. rewrite (Nat2Z.inj_succ n), <- Z.add_1_r, seqZ_app by lia. done. Qed.

Lemma n_bad_S mem n : n_bad mem (S n) = n_bad mem n + (if mem (Z.of_nat n) then 0 else 1).
Proof.
  unfold n_bad. rewrite seqZ_S, filter_app, length_app, filter_cons, filter_nil.
  case_decide as E; [rewrite E|destruct (mem (Z.of_nat n)); [|done]]; simpl; lia.
Qed.

Lemma n_bad_0 mem n : n_bad mem n = 0 <-> ∀ i, 0 <= i < Z.of_nat n -> mem i ≠ None.
Proof.
  induction n as [|n IH]; [split; [lia|done]|]. rewrite n_bad_S.
  assert (0 <= n_bad mem n) by (unfold n_bad; lia). split.
  - intros E i Hi. destruct (decide (i = Z.of_nat n)) as [->|].
    + destruct (mem (Z.of_nat n)); [done|lia].
    + apply IH; [destruct (mem (Z.of_nat n)); lia|lia].
  - intros Hall. assert (mem (Z.of_nat n) ≠ None) by (apply Hall; lia).
    rewrite (proj2 IH) by (intros i Hi; apply Hall; lia). by destruct (mem (Z.of_nat n)).
Qed.

Lemma n_bad_ext mem mem' n : (∀ i, 0 <= i < Z.of_nat n -> mem i = mem' i) -> n_bad mem n = n_bad mem' n.
Proof.
  induction n as [|n IH]; intros E; [done|]. rewrite !n_bad_S, (E (Z.of_nat n)) by lia. rewrite IH; [done|].
  intros i Hi. apply E. lia.
Qed.

(** One round of the loop. *)
Definition load_step (mem : Z -> option Z) (acc : Z * Z * Z) (i : Z) : Z * Z * Z :=
  let r := read_byte (mem i) in
  (Z.lor (u64 (Z.shiftl acc.1.1 8)) r.2, Z.lor (u64 (Z.shiftl acc.1.2 8)) (if r.1 then V_BITS8_DEFINED else V_BITS8_UNDEFINED),
   if r.1 then acc.2 else acc.2 + 1).

Definition mem_ok (mem : Z -> option Z) : Prop := ∀ i v, mem i = Some v -> 0 <= v < 256.

Lemma load_loop mem n v p b : mem_ok mem -> 0 <= v < 2 ^ 64 -> 0 <= p < 2 ^ 64 ->
  ∃ v' p', foldl (load_step mem) (v, p, b) (reverse (seqZ 0 (Z.of_nat n))) = (v', p', b + n_bad mem n) ∧
    0 <= v' < 2 ^ 64 ∧ 0 <= p' < 2 ^ 64 ∧
    ∀ i, 0 <= i < 8 ->
      byte_of v' i = (if i <? Z.of_nat n then default 0 (mem i) else byte_of v (i - Z.of_nat n)) ∧
      byte_of p' i = (if i <? Z.of_nat n then (if mem i then 0 else 255) else byte_of p (i - Z.of_nat n)).
Proof.
  intros Hmem. revert v p b. induction n as [|n IH]; intros v p b Hv Hp.
  - exists v, p. rewrite Z.add_0_r. split_and!; try done; try lia. intros i Hi. rewrite Z.sub_0_r. case_bool; [lia|done].
  - rewrite seqZ_S, reverse_snoc. cbn [foldl]. set (j := Z.of_nat n).
    assert (0 <= (read_byte (mem j)).2 < 256) as Hr.
    { destruct (mem j) as [x|] eqn:Ej; simpl; [by eapply Hmem|done]. }
    assert (0 <= (if (read_byte (mem j)).1 then V_BITS8_DEFINED else V_BITS8_UNDEFINED) < 256) as Hr2 by (by destruct (mem j)).
    destruct (IH (Z.lor (u64 (Z.shiftl v 8)) (read_byte (mem j)).2)
      (Z.lor (u64 (Z.shiftl p 8)) (if (read_byte (mem j)).1 then V_BITS8_DEFINED else V_BITS8_UNDEFINED))
      (if (read_byte (mem j)).1 then b else b + 1)) as (v' & p' & E & Hv' & Hp' & Hb); [by apply u64_push_range..|].
    exists v', p'. unfold load_step at 2. cbn [fst snd]. fold j in E. rewrite E. split; [|split_and!; [lia..|]].
    + rewrite n_bad_S. f_equal. fold j. destruct (mem j); simpl; lia.
    + intros i Hi. destruct (Hb i Hi) as [-> ->]. fold j in Hb |- *. rewrite Nat2Z.inj_succ. fold j.
      destruct (i <? j) eqn:Eij; b2p; [by rewrite (proj2 (Z.ltb_lt i (Z.succ j))) by lia|].
      rewrite !byte_of_push by lia. destruct (i <? Z.succ j) eqn:Eij2; b2p.
      * assert (i = j) as -> by lia. rewrite Z.sub_diag. simpl. by destruct (mem j).
      * rewrite (proj2 (Z.eqb_neq (i - j) 0)) by lia. by replace (i - j - 1) with (i - Z.succ j) by lia.
Qed.

(** ** Aligned addresses and packed bits *)

Lemma aligned_mod a n : 0 <= n -> (Z.land a (Z.ones n) =? 0) = (a mod 2 ^ n =? 0).
Proof. intros Hn. by rewrite Z.land_ones. Qed.

Lemma aligned2 a : VG_IS_2_ALIGNED a = (a mod 2 =? 0).
Proof. apply (aligned_mod a 1). lia. Qed.
Lemma aligned4 a : VG_IS_4_ALIGNED a = (a mod 4 =? 0).
Proof. apply (aligned_mod a 2). lia. Qed.
Lemma aligned8 a : VG_IS_8_ALIGNED a = (a mod 8 =? 0).
Proof. apply (aligned_mod a 3). lia. Qed.

Lemma aligned_word a : VG_IS_WORD_ALIGNED a = (a mod 8 =? 0).
Proof. apply (aligned_mod a 3). lia. Qed.

(** An address that passes the test is aligned and in the primary map. *)
Lemma mask_ok a k : word a -> 0 <= k <= 5 -> Z.land a (MASK (2 ^ k)) = 0 -> a <= MAX_PRIMARY_ADDRESS ∧ a mod 2 ^ k = 0.
Proof.
  intros Hw Hk Ha. assert (MASK (2 ^ k) = Z.ones 64 - (Z.ones 37 - Z.ones k) ∧
    Z.ldiff (Z.ones 64) (Z.shiftl (Z.ones (37 - k)) k) = MASK (2 ^ k)) as [_ Em].
  { assert (k = 0 ∨ k = 1 ∨ k = 2 ∨ k = 3 ∨ k = 4 ∨ k = 5) as [->|[->|[->|[->|[->| ->]]]]] by lia; by vm_compute. }
  rewrite <- Em, Z.ldiff_land, Z.land_assoc, Z.land_ones, (Z.mod_small a), <- Z.ldiff_land in Ha by (first [done|lia]).
  assert (a = Z.land a (Z.shiftl (Z.ones (37 - k)) k)) as E.
  { apply Z.bits_inj'. intros n Hn. rewrite Z.land_spec. destruct (Z.testbit a n) eqn:En; [|done]. simpl.
    assert (Z.testbit (Z.ldiff a (Z.shiftl (Z.ones (37 - k)) k)) n = false) as Hd by (rewrite Ha; apply Z.bits_0).
    rewrite Z.ldiff_spec, En in Hd. simpl in Hd. by apply negb_false_iff in Hd. }
  assert (a = (a / 2 ^ k) mod 2 ^ (37 - k) * 2 ^ k) as E2.
  { rewrite E at 1. apply Z.bits_inj'. intros n Hn. rewrite <- Z.land_ones, <- Z.shiftl_mul_pow2, <- Z.shiftr_div_pow2 by lia.
    rewrite Z.land_spec, !Z.shiftl_spec, Z.land_spec by lia. destruct (decide (n < k)).
    - rewrite !(Z.testbit_neg_r _ (n - k)) by lia. by rewrite andb_false_r.
    - rewrite Z.shiftr_spec by lia. by replace (n - k + k) with n by lia. }
  pose proof (Z.mod_pos_bound (a / 2 ^ k) (2 ^ (37 - k)) ltac:(apply Z.pow_pos_nonneg; lia)) as Hb.
  assert (0 < 2 ^ k) by (apply Z.pow_pos_nonneg; lia).
  assert (2 ^ (37 - k) * 2 ^ k = 137438953472) as Hp by (rewrite <- Z.pow_add_r by lia; by replace (37 - k + k) with 37 by lia).
  rewrite max_primary. split; [nia|]. rewrite E2. apply Z.mod_mul. lia.
Qed.

Lemma low_aligned a n k : word a -> 0 <= k <= 5 -> n = 8 * 2 ^ k -> UNALIGNED_OR_HIGH a n = false ->
  a <= MAX_PRIMARY_ADDRESS ∧ a mod 2 ^ k = 0.
Proof.
  intros Hw Hk -> H. unfold UNALIGNED_OR_HIGH in H. b2p. apply mask_ok; [done..|].
  replace (Z.shiftr (8 * 2 ^ k) 3) with (2 ^ k) in H; [done|].
  rewrite Z.shiftr_div_pow2 by lia. change (2 ^ 3) with 8. rewrite Z.mul_comm, Z.div_mul; lia.
Qed.

(** Four bytes with the same bits; two bytes. *)
Lemma extract_uniform b k : 0 <= k < 4 -> extract_vabits2_from_vabits8 b (k * 85) = k.
Proof.
  intros Hk. rewrite extract_mod. generalize (Z.mod_pos_bound b 4 eq_refl). generalize (b mod 4). intros x Hx.
  pose proof (forall_below (fun k => forallb (fun x => Z.land 3 (Z.shiftr (k * 85) (2 * x)) =? k) (seqZ 0 4)) 4 eq_refl k Hk) as E.
  pose proof (forall_below _ _ E x Hx) as E2. by apply Z.eqb_eq in E2.
Qed.

Definition check_extract4 (y : Z) : bool :=
  forallb (fun v => forallb (fun k => negb (Z.land 0xf (Z.shiftr v (2 * y)) =? k * 5) ||
    (Z.land 3 (Z.shiftr v (2 * y)) =? k) && (Z.land 3 (Z.shiftr v (2 * (y + 1))) =? k)) (seqZ 0 4)) (seqZ 0 256).

Lemma shift4 a : a mod 2 = 0 -> Z.shiftl (Z.land a 2) 1 = 2 * (a mod 4) ∧ (a mod 4 = 0 ∨ a mod 4 = 2).
Proof.
  intros Ha. assert (Z.land a 2 = a mod 4) as ->; [|split; [rewrite Z.shiftl_mul_pow2; lia|dlia]].
  assert (a mod 4 = 0 ∨ a mod 4 = 2) as Hm by dlia.
  change (Z.land a 2) with (Z.land a (Z.land (Z.ones 2) 2)).
  rewrite Z.land_assoc, Z.land_ones by lia. change (2 ^ 2) with 4. by destruct Hm as [-> | ->].
Qed.

(** The two aligned bytes at [a]. *)
Lemma two_bytes a b : a mod 2 = 0 -> b / 2 = a / 2 -> b mod 4 = a mod 4 ∨ b mod 4 = a mod 4 + 1.
Proof. dlia. Qed.

Lemma extract4_uniform a b v k : a mod 2 = 0 -> 0 <= v < 256 -> 0 <= k < 4 -> b / 2 = a / 2 ->
  extract_vabits4_from_vabits8 a v = Ret (k * 5) -> extract_vabits2_from_vabits8 b v = k.
Proof.
  intros Ha Hv Hk Hb. unfold extract_vabits4_from_vabits8. destruct (shift4 a Ha) as [-> Hm].
  unfold vg_assert. case_bool; [|done]. simpl. intros [= E4]. rewrite extract_mod.
  assert (check_extract4 (a mod 4) = true) as Hc by (destruct Hm as [-> | ->]; by vm_compute).
  unfold check_extract4 in Hc. pose proof (forall_below _ _ (forall_below _ _ Hc v Hv) k Hk) as E'. cbv beta in E'.
  rewrite E4, Z.eqb_refl in E'. simpl in E'. b2p. by destruct (two_bytes a b Ha Hb) as [-> | ->].
Qed.

Lemma extract4_ok a v : a mod 2 = 0 -> ∃ r, extract_vabits4_from_vabits8 a v = Ret r.
Proof.
  intros Ha. unfold extract_vabits4_from_vabits8. fold (VG_IS_2_ALIGNED a). rewrite aligned2, Ha. simpl. eauto.
Qed.

(** Writing two bytes of the four. *)
Definition check_insert4 (y : Z) : bool :=
  forallb (fun k => forallb (fun v => forallb (fun x =>
    let r := u8 (Z.lor (u8 (Z.land v (Z.lnot (Z.shiftl 0xf (2 * y))))) (Z.shiftl (k * 5) (2 * y))) in
    (0 <=? r) && (r <? 256) &&
    (Z.land 3 (Z.shiftr r (2 * x)) =? (if x / 2 =? y / 2 then k else Z.land 3 (Z.shiftr v (2 * x)))))
    (seqZ 0 4)) (seqZ 0 256)) (seqZ 0 4).

Lemma insert4_extract a v k : a mod 2 = 0 -> 0 <= v < 256 -> 0 <= k < 4 ->
  ∃ r, insert_vabits4_into_vabits8 a (k * 5) v = Ret r ∧ 0 <= r < 256 ∧
    ∀ b, extract_vabits2_from_vabits8 b r =
      if (b mod 4) / 2 =? (a mod 4) / 2 then k else extract_vabits2_from_vabits8 b v.
Proof.
  intros Ha Hv Hk. unfold insert_vabits4_into_vabits8. fold (VG_IS_2_ALIGNED a). rewrite aligned2, Ha.
  destruct (shift4 a Ha) as [-> Hm]. simpl. eexists. split; [done|].
  assert (check_insert4 (a mod 4) = true) as Hc by (destruct Hm as [-> | ->]; by vm_compute).
  unfold check_insert4 in Hc. pose proof (forall_below _ _ (forall_below _ _ Hc k Hk) v Hv) as Hx. cbv beta in Hx.
  split; [pose proof (forall_below _ _ Hx 0 ltac:(lia)) as E; cbv beta zeta in E; b2p; lia|].
  intros b. rewrite !extract_mod. pose proof (forall_below _ _ Hx (b mod 4) (Z.mod_pos_bound b 4 eq_refl)) as E.
  cbv beta zeta in E. apply andb_true_iff in E as [_ E]. by apply Z.eqb_eq in E.
Qed.

Definition check_accessible (y : Z) : bool :=
  forallb (fun v => negb (negb (Z.land 0x3 (Z.shiftr v (2 * y)) =? 0) && negb (Z.land 0xc (Z.shiftr v (2 * y)) =? 0)) ||
    negb (Z.land 3 (Z.shiftr v (2 * y)) =? 0) && negb (Z.land 3 (Z.shiftr v (2 * (y + 1))) =? 0)) (seqZ 0 256).

Lemma accessible4 a v : a mod 2 = 0 -> 0 <= v < 256 -> ∃ r, accessible_vabits4_in_vabits8 a v = Ret r ∧
  (r = true -> ∀ b, b / 2 = a / 2 -> extract_vabits2_from_vabits8 b v ≠ VA_BITS2_NOACCESS).
Proof.
  intros Ha Hv. unfold accessible_vabits4_in_vabits8. rewrite aligned2, Ha. destruct (shift4 a Ha) as [-> Hm]. simpl.
  eexists. split; [done|]. intros Hr b Hb. rewrite extract_mod.
  assert (check_accessible (a mod 4) = true) as Hc by (destruct Hm as [-> | ->]; by vm_compute).
  unfold check_accessible in Hc. pose proof (forall_below _ _ Hc v Hv) as E. cbv beta in E.
  change (Z.shiftl VA_BITS2_NOACCESS 2) with 0 in Hr. change VA_BITS2_NOACCESS with 0 in *. rewrite Hr in E. simpl in E. b2p.
  by destruct (two_bytes a b Ha Hb) as [-> | ->].
Qed.

(** ** Loads *)

Section Loads.
Context {T : Type} `{!KeyedSet T} `{!KeyedSetLaws T} `{!Allocator}.
Context (L : gset Z) (L_small : Z.of_nat (size L) < ks_limit) (L_small' : Z.of_nat (size L) <= 2 ^ 27).
Context (clo_partial_loads_ok : bool).
Implicit Types (s : mc T) (a b : Z).

(** The bytes from [a] on, in the order of significance. *)
Definition mem_at s (a szB : Z) (bigendian : bool) (i : Z) : option Z := abs s (u64 (a + byte_offset_w szB bigendian i)).

Lemma u64_word a : word (u64 a).
Proof. by apply wrap_range. Qed.
Hint Resolve u64_word : core.

Lemma mem_at_ok s a szB be : inv L s -> mem_ok (mem_at s a szB be).
Proof. intros Hs i v Hv. by eapply abs_range; [| |exact Hv]. Qed.

(** A load that is partly invalid is accepted if it is an aligned word of four or
    eight bytes with a valid one. *)
Definition load_exempt (a : Z) (szB : nat) (mem : Z -> option Z) : bool :=
  clo_partial_loads_ok && (((szB =? 8)%nat && (a mod 8 =? 0)) || ((szB =? 4)%nat && (a mod 4 =? 0))) &&
  (n_bad mem szB <? Z.of_nat szB).
Definition load_errors (a : Z) (szB : nat) (mem : Z -> option Z) : list addr_error :=
  if (n_bad mem szB =? 0) || load_exempt a szB mem then [] else [AddrErr a (Z.of_nat szB) false].

(** The V bits that are loaded: those of an invalid byte say that it is defined, or
    undefined if the load is exempt. *)
Definition loaded (a : Z) (szB : nat) (mem : Z -> option Z) (v : Z) : Prop :=
  0 <= v < 2 ^ 64 ∧ ∀ i, 0 <= i < Z.of_nat szB ->
    byte_of v i = match mem i with Some x => x | None => if load_exempt a szB mem then V_BITS8_UNDEFINED else V_BITS8_DEFINED end.

(** [m] loads [szB] bytes at [a]: the shadow memory stays the same. *)
Definition load_post (szB : nat) (bigendian : bool) (a : Z) s (v : Z) s' : Prop :=
  let mem := mem_at s a (Z.of_nat szB) bigendian in
  inv L s' ∧ (∀ b, word b -> abs s' b = abs s b) ∧
  errors s' = errors s ++ load_errors a szB mem ∧ loaded a szB mem v.
Definition loads (szB : nat) (bigendian : bool) (a : Z) (m : M T Z) : Prop :=
  ∀ s, inv L s -> wp m (load_post szB bigendian a s) s.

(** Loads with the same bits in all bytes. *)
Lemma loads_uniform s s' a szB be k v : 0 <= k < 3 -> k ≠ 0 -> (szB = 1 ∨ szB = 2 ∨ szB = 4 ∨ szB = 8)%nat ->
  word a -> a mod Z.of_nat szB = 0 ->
  inv L s' -> quiet s s' -> (∀ b, b / Z.of_nat szB = a / Z.of_nat szB -> vab2 s b = k) ->
  0 <= v < 2 ^ 64 -> (∀ i, 0 <= i < Z.of_nat szB -> byte_of v i = if k =? 1 then 255 else 0) ->
  load_post szB be a s v s'.
Proof.
  intros Hk Hk0 Hn Hw Ha Hs' Hq Hall Hv Hb. unfold load_post. set (mem := mem_at s a (Z.of_nat szB) be).
  assert (∀ i, 0 <= i < Z.of_nat szB -> mem i = Some (if k =? 1 then 255 else 0)) as Hmem.
  { intros i Hi. unfold mem, mem_at. set (o := byte_offset_w _ be i).
    assert (0 <= o < Z.of_nat szB) by (unfold o, byte_offset_w; case_bool; lia).
    assert (word (a + o)) as Hwo.
    { unfold word in *. change (2 ^ 64) with 18446744073709551616 in *. destruct Hn as [->|[->|[->| ->]]]; simpl in *; dlia. }
    unfold u64. rewrite wrap_small by done. unfold abs, v_of.
    rewrite Hall by (rewrite Z.add_comm; destruct Hn as [->|[->|[->| ->]]]; simpl in *; dlia).
    assert (k = 1 ∨ k = 2) as [-> | ->] by lia; done. }
  assert (n_bad mem szB = 0) as H0 by (apply n_bad_0; intros i Hi; by rewrite Hmem).
  split; [done|]. split; [intros b _; by apply quiet_abs|]. unfold load_errors. rewrite H0. simpl. rewrite app_nil_r.
  split; [apply Hq|]. split; [done|]. intros i Hi. by rewrite Hmem, Hb.
Qed.

Lemma wp_reading_low s a (Q : Z -> mc T -> Prop) : core s -> word a -> a <= MAX_PRIMARY_ADDRESS ->
  Q (sm_at s a) s -> wp (get_secmap_for_reading_low a) Q s.
Proof. intros Hs Hw Ha HQ. unfold get_secmap_for_reading_low, get_secmap_low_ptr. do 2 wp_step. by eapply wp_load_ptr. Qed.

(** *** Eight bytes *)

Lemma off16 a : a mod 8 = 0 -> word a -> SM_OFF_16 a * 2 = SM_OFF a ∧ SM_OFF_16 a * 2 + 1 = SM_OFF (a + 4) ∧
  base_of (a + 4) = base_of a ∧ word (a + 4).
Proof.
  intros Ha Hw. rewrite !SM_OFF_mod. unfold SM_OFF_16. change 0xffff with (Z.ones 16).
  rewrite Z.land_ones, Z.shiftr_div_pow2 by lia. change (2 ^ 3) with 8. change (2 ^ 16) with 65536.
  unfold base_of, word in *. change (2 ^ 64) with 18446744073709551616 in *. split_and!; dlia.
Qed.

Lemma wp_get_vabits16 s a (Q : Z -> mc T -> Prop) : core s -> word a -> a mod 8 = 0 ->
  Q (byte_at s a + 256 * byte_at s (a + 4)) s -> wp (get_vabits16 (sm_at s a) (SM_OFF_16 a)) Q s.
Proof.
  intros Hs Hw Ha HQ. destruct (off16 a Ha Hw) as (E1 & E2 & E3 & Hw4). unfold get_vabits16.
  replace (2 * SM_OFF_16 a + 1) with (SM_OFF (a + 4)) by lia. replace (2 * SM_OFF_16 a) with (SM_OFF a) by lia.
  wp_step. apply wp_get_vabits8; [done..|]. wp_step. rewrite (sm_at_base s a (a + 4)) by done.
  apply wp_get_vabits8; [done..|]. wp_step. pose proof (byte_at_range s a Hs).
  rewrite Z.lor_comm, Z.shiftl_mul_pow2, lor_shifted_small by lia.
  by replace (byte_at s (a + 4) * 2 ^ 8 + byte_at s a) with (byte_at s a + 256 * byte_at s (a + 4)) by lia.
Qed.

(** Both words of eight bytes are known from sixteen bits. *)
Lemma uniform16 s a k : core s -> 0 <= k < 4 -> a mod 8 = 0 -> byte_at s a + 256 * byte_at s (a + 4) = k * 0x5555 ->
  ∀ b, b / 8 = a / 8 -> vab2 s b = k.
Proof.
  intros Hs Hk Ha E b Hb. pose proof (byte_at_range s a Hs). pose proof (byte_at_range s (a + 4) Hs).
  assert (byte_at s a = k * 85 ∧ byte_at s (a + 4) = k * 85) as [Ea E4] by lia.
  unfold vab2. assert (b / 4 = a / 4 ∨ b / 4 = (a + 4) / 4) as [E'|E'] by dlia;
    rewrite (byte_at_word s _ _ E'), ?Ea, ?E4; by apply extract_uniform.
Qed.

Lemma uniform8 s a k : 0 <= k < 4 -> byte_at s a = k * 85 -> ∀ b, b / 4 = a / 4 -> vab2 s b = k.
Proof. intros Hk E b Hb. unfold vab2. rewrite (byte_at_word s _ _ Hb), E. by apply extract_uniform. Qed.

(** *** The slow cases *)

Lemma wp_load_byte s0 base a szB be i acc s (Q : Z * Z * Z -> mc T -> Prop) :
  inv L s0 -> inv L s -> quiet s0 s ->
  (∀ s', inv L s' -> quiet s0 s' -> Q (load_step (mem_at s0 base szB be) acc i) s') -> u64 (a + byte_offset_w szB be i) = u64 (base + byte_offset_w szB be i) ->
  wp (load_byte a szB be i acc) Q s.
Proof.
  intros Hs0 Hs Hq HQ Eu. destruct acc as [[v p] n]. unfold load_byte. rewrite Eu. wp_step.
  apply (wp_get_vbits8 L); [done..|]. intros s' Hs' Hq'. wp_step.
  rewrite (quiet_abs s0 s) by done. by apply HQ; [|etrans].
Qed.

Lemma szB_cases nBits (szB : nat) : nBits = 8 * Z.of_nat szB -> (szB = 1 ∨ szB = 2 ∨ szB = 4 ∨ szB = 8)%nat ->
  nBits / 8 = Z.of_nat szB ∧ (nBits =? 64) || (nBits =? 32) || (nBits =? 16) || (nBits =? 8) = true ∧
  (Z.of_nat szB =? VG_WORDSIZE) = (szB =? 8)%nat ∧ (nBits =? 32) = (szB =? 4)%nat ∧ (nBits =? 64) = (szB =? 8)%nat.
Proof. by intros -> [->|[->|[->| ->]]]. Qed.

Lemma lor_range v w : 0 <= v < 2 ^ 64 -> 0 <= w < 2 ^ 64 -> 0 <= Z.lor v w < 2 ^ 64.
Proof.
  intros Hv Hw. rewrite <- (Z.mod_small v (2 ^ 64)), <- (Z.mod_small w (2 ^ 64)), <- !Z.land_ones by lia.
  rewrite <- Z.land_lor_distr_l, Z.land_ones by lia. by apply Z.mod_pos_bound.
Qed.

Lemma exempt_split a szB mem : (szB = 1 ∨ szB = 2 ∨ szB = 4 ∨ szB = 8)%nat ->
  load_exempt a szB mem = clo_partial_loads_ok &&
    ((szB =? 8)%nat && (a mod 8 =? 0) && (n_bad mem szB <? VG_WORDSIZE) ||
     (a mod 4 =? 0) && (szB =? 4)%nat && (n_bad mem szB <? 4)).
Proof.
  unfold load_exempt. intros [->|[->|[->| ->]]]; cbn [Nat.eqb Z.of_nat andb orb];
    rewrite ?andb_false_r, ?andb_true_r, ?orb_false_r; cbn [andb orb]; rewrite ?andb_false_r; by rewrite ?andb_assoc.
Qed.

Lemma wp_LOADVn_general a nBits be (szB : nat) : nBits = 8 * Z.of_nat szB -> (szB = 1 ∨ szB = 2 ∨ szB = 4 ∨ szB = 8)%nat ->
  loads szB be a (LOADVn_general clo_partial_loads_ok a nBits be).
Proof.
  intros Hn Hsz s Hs. unfold load_post. set (mem := mem_at s a (Z.of_nat szB) be). destruct (szB_cases nBits szB Hn Hsz) as (E1 & E2 & E3 & E4 & _).
  pose proof (mem_at_ok s a (Z.of_nat szB) be Hs) as Hmem. fold mem in Hmem.
  unfold LOADVn_general. rewrite E1. wp_step. apply wp_assert; [done|]. wp_step.
  apply (wp_fold_pure (fun s' => inv L s' ∧ quiet s s') (load_step mem)); [|done|].
  { intros i acc s' R _ [Hs' Hq] HR. by apply (wp_load_byte s a); [..|auto|]. }
  intros s' [Hs' Hq]. destruct (load_loop mem szB V_BITS64_UNDEFINED V_BITS64_DEFINED 0) as (v & p & Ef & Hv & Hp & Hb); [done..|].
  rewrite Ef, Z.add_0_l, E3, E4, aligned4, aligned_word.
  assert (∀ i, 0 <= i < Z.of_nat szB -> byte_of v i = default 0 (mem i) ∧ byte_of p i = if mem i then 0 else 255) as Hb'.
  { intros i Hi. destruct (Hb i) as [B1 B2]; [destruct Hsz as [->|[->|[->| ->]]]; simpl in *; lia|].
    by rewrite (proj2 (Z.ltb_lt _ _)) in B1, B2 by lia. }
  assert (errors s' = errors s) as Hes by apply Hq.
  assert (∀ b, word b -> abs s' b = abs s b) as Habs by (intros b _; by apply quiet_abs).
  assert (n_bad mem szB ≠ 0 -> p ≠ 0) as Hp0.
  { intros Hne ->. apply Hne, n_bad_0. intros i Hi Ei. destruct (Hb' i Hi) as [_ E]. unfold byte_of in E. by rewrite Ei, Z.shiftr_0_l in E. }
  assert (loaded a szB mem v ∨ n_bad mem szB ≠ 0 ∧ load_exempt a szB mem = true) as Hl.
  { destruct (decide (n_bad mem szB ≠ 0 ∧ load_exempt a szB mem = true)) as [|Hne]; [by right|left].
    split; [done|]. intros i Hi. rewrite (proj1 (Hb' i Hi)). destruct (mem i) eqn:Ei; [done|].
    destruct (load_exempt a szB mem); [|done]. destruct Hne. split; [|done]. intros E0. by apply (proj1 (n_bad_0 _ _) E0 i Hi). }
  assert (load_exempt a szB mem = true -> ∀ i, 0 <= i < Z.of_nat szB -> byte_of (Z.lor v p) i =
    match mem i with Some x => x | None => V_BITS8_UNDEFINED end) as Hlor.
  { intros _ i Hi. destruct (Hb' i Hi) as [B1 B2]. rewrite byte_of_lor, B1, B2. destruct (mem i); [apply Z.lor_0_r|done]. }
  unfold load_errors. destruct (n_bad mem szB =? 0) eqn:E0; b2p.
  { wp_step. rewrite app_nil_r. destruct Hl as [|[? _]]; done. }
  specialize (Hp0 E0). simpl. assert (∀ szB', szB = szB' -> load_exempt a szB' mem = false ->
    wp (_ ← record_address_error a (Z.of_nat szB') false; mret v) (fun v0 s'' => inv L s'' ∧ (∀ b, word b -> abs s'' b = abs s b) ∧
      errors s'' = errors s ++ (if load_exempt a szB' mem then [] else [AddrErr a (Z.of_nat szB') false]) ∧ loaded a szB' mem v0) s') as Hrec.
  { intros szB' <- Hex. unfold record_address_error. do 2 wp_step. wp_step. rewrite Hex. simpl. rewrite Hes.
    destruct Hl as [Hl|[_ ?]]; [|congruence]. split_and!; [|done..].
    destruct Hs'. constructor; [by eapply core_ext|done|done]. }
  specialize (Hrec szB eq_refl). rewrite exempt_split in * by done. destruct clo_partial_loads_ok eqn:Eclo; [|by apply Hrec]. cbn [negb andb] in *.
  wp_step. apply wp_assert; [by apply negb_true_iff, Z.eqb_neq|]. change (VG_WORDSIZE =? 8) with true. cbn [andb].
  destruct ((szB =? 8)%nat && (a mod 8 =? 0) && (n_bad mem szB <? VG_WORDSIZE)) eqn:E8; cbn [orb] in *.
  { wp_step. rewrite app_nil_r. split_and!; [done..|]. split; [by apply lor_range|]. rewrite exempt_split, Eclo, E8 by done. by apply Hlor. }
  destruct ((a mod 4 =? 0) && (szB =? 4)%nat && (n_bad mem szB <? 4)) eqn:E4'; [|by apply Hrec].
  wp_step. rewrite app_nil_r. split_and!; [done..|]. split; [apply lor_range; [by apply lor_range|done]|].
  rewrite exempt_split, Eclo, E8, E4' by done. cbn [andb orb]. intros i Hi. rewrite byte_of_lor, Hlor by done.
  b2p. assert (szB = 4%nat) as -> by (by apply Nat.eqb_eq).
  assert (i = 0 ∨ i = 1 ∨ i = 2 ∨ i = 3) as [->|[->|[->| ->]]] by lia; apply Z.lor_0_r.
Qed.

(** Reading may have brought entries to the front before. *)
Lemma loads_quiet szB be a m s s1 : loads szB be a m -> quiet s s1 -> inv L s1 -> wp m (load_post szB be a s) s1.
Proof.
  intros Hm Hq Hs1. eapply wp_mono; [by apply Hm|]. intros v s' (Hs' & Ha & He & Hl).
  assert (∀ i, mem_at s a (Z.of_nat szB) be i = mem_at s1 a (Z.of_nat szB) be i) as Em.
  { intros i. unfold mem_at. by rewrite (quiet_abs s s1). }
  assert (n_bad (mem_at s a (Z.of_nat szB) be) szB = n_bad (mem_at s1 a (Z.of_nat szB) be) szB) as En by (by apply n_bad_ext).
  split; [done|]. split; [intros b Hb; rewrite Ha by done; by apply quiet_abs|].
  unfold load_errors, loaded, load_exempt in *. rewrite En. split; [rewrite He; f_equal; apply Hq|].
  split; [apply Hl|]. intros i Hi. rewrite Em. by apply Hl.
Qed.

(** The constants that loads return. *)
Lemma const_bytes v c n : forallb (fun i => byte_of v i =? c) (seqZ 0 n) = true -> ∀ i, 0 <= i < n -> byte_of v i = c.
Proof. intros Hf i Hi. by apply Z.eqb_eq, (forall_below _ _ Hf). Qed.

Lemma wp_LOADVn_semi_fast a nBits be szB s : nBits = 8 * Z.of_nat szB -> (szB = 1 ∨ szB = 2 ∨ szB = 4 ∨ szB = 8)%nat ->
  word a -> inv L s ->
  wp (LOADVn_semi_fast a nBits) (fun r s' => match r with
    | Some v => load_post szB be a s v s' | None => inv L s' ∧ quiet s s' end) s.
Proof.
  intros Hn Hsz Hw Hs. destruct (szB_cases nBits szB Hn Hsz) as (_ & _ & _ & E4 & E8).
  unfold LOADVn_semi_fast. rewrite E4, E8, aligned4, aligned8.
  destruct ((szB =? 8)%nat && _) eqn:B8; [|destruct ((szB =? 4)%nat && _) eqn:B4].
  - b2p. apply Nat.eqb_eq in H0. subst szB. wp_step. apply wp_get_secmap_for_reading; [apply Hs|done|].
    intros s1 Hc1 Hq. pose proof (quiet_inv L s s1 Hc1 Hq Hs) as Hs1. wp_step. apply wp_get_vabits16; [done..|].
    repeat case_bool; wp_step; [| |done].
    + eapply (loads_uniform s s1 a 8 be 2); try first [done|lia|tauto|by apply const_bytes].
      intros b Hb. rewrite <- (same_maps_vab2 s s1) by apply Hq. by apply (uniform16 s1 a 2).
    + eapply (loads_uniform s s1 a 8 be 1); try first [done|lia|tauto|by apply const_bytes].
      intros b Hb. rewrite <- (same_maps_vab2 s s1) by apply Hq. by apply (uniform16 s1 a 1).
  - b2p. apply Nat.eqb_eq in H0. subst szB. wp_step. apply wp_get_secmap_for_reading; [apply Hs|done|].
    intros s1 Hc1 Hq. pose proof (quiet_inv L s s1 Hc1 Hq Hs) as Hs1. wp_step. apply wp_get_vabits8; [done..|].
    repeat case_bool; wp_step; [| |done].
    + eapply (loads_uniform s s1 a 4 be 2); try first [done|lia|tauto|by apply const_bytes].
      intros b Hb. rewrite <- (same_maps_vab2 s s1) by apply Hq. by apply (uniform8 s1 a 2).
    + eapply (loads_uniform s s1 a 4 be 1); try first [done|lia|tauto|by apply const_bytes].
      intros b Hb. rewrite <- (same_maps_vab2 s s1) by apply Hq. by apply (uniform8 s1 a 1).
  - by wp_step.
Qed.

Lemma loads_slow a nBits be szB : nBits = 8 * Z.of_nat szB -> (szB = 1 ∨ szB = 2 ∨ szB = 4 ∨ szB = 8)%nat ->
  word a -> loads szB be a (mc_LOADVn_slow clo_partial_loads_ok a nBits be).
Proof.
  intros Hn Hsz Hw s Hs. unfold mc_LOADVn_slow. wp_step. eapply wp_mono; [by apply (wp_LOADVn_semi_fast a nBits be szB)|].
  intros [v|] s'; [intros Hp; by wp_step|]. intros [Hs' Hq]. apply loads_quiet; [|done..]. by apply wp_LOADVn_general.
Qed.

(** *** The fast cases *)

Lemma loads_64 a be : word a -> loads 8 be a (mc_LOADV64 clo_partial_loads_ok a be).
Proof.
  intros Hw s Hs. pose proof (loads_slow a 64 be 8 eq_refl ltac:(tauto) Hw s Hs) as Hslow. unfold mc_LOADV64.
  destruct (UNALIGNED_OR_HIGH a 64) eqn:Eu; [done|]. destruct (low_aligned a 64 3) as [Hlo Hal]; [done..|lia|done|done|].
  wp_step. apply wp_reading_low; [apply Hs|done..|]. wp_step. apply wp_get_vabits16; [apply Hs|done..|].
  repeat case_bool; [wp_step|wp_step|done].
  - eapply (loads_uniform s s a 8 be 2); try first [done|lia|tauto|by apply const_bytes]. apply uniform16; [apply Hs|done..].
  - eapply (loads_uniform s s a 8 be 1); try first [done|lia|tauto|by apply const_bytes]. apply uniform16; [apply Hs|done..].
Qed.

Lemma loads_32 a be : word a -> loads 4 be a (mc_LOADV32 clo_partial_loads_ok a be).
Proof.
  intros Hw s Hs. pose proof (loads_slow a 32 be 4 eq_refl ltac:(tauto) Hw s Hs) as Hslow. unfold mc_LOADV32.
  destruct (UNALIGNED_OR_HIGH a 32) eqn:Eu; [done|]. destruct (low_aligned a 32 2) as [Hlo Hal]; [done..|lia|done|done|].
  wp_step. apply wp_reading_low; [apply Hs|done..|]. wp_step. apply wp_get_vabits8; [apply Hs|done..|].
  repeat case_bool; [wp_step|wp_step|done].
  - eapply (loads_uniform s s a 4 be 2); try first [done|lia|tauto|by apply const_bytes]. by apply uniform8.
  - eapply (loads_uniform s s a 4 be 1); try first [done|lia|tauto|by apply const_bytes]. by apply uniform8.
Qed.

Lemma loads_16 a be : word a -> loads 2 be a (mc_LOADV16 clo_partial_loads_ok a be).
Proof.
  intros Hw s Hs. pose proof (loads_slow a 16 be 2 eq_refl ltac:(tauto) Hw s Hs) as Hslow. unfold mc_LOADV16.
  destruct (UNALIGNED_OR_HIGH a 16) eqn:Eu; [done|]. destruct (low_aligned a 16 1) as [Hlo Hal]; [done..|lia|done|done|].
  wp_step. apply wp_reading_low; [apply Hs|done..|]. wp_step. apply wp_get_vabits8; [apply Hs|done..|].
  pose proof (byte_at_range s a (inv_core L s Hs)) as Hr. destruct (extract4_ok a (byte_at s a) Hal) as [r Er].
  repeat case_bool; [wp_step|wp_step|wp_step; eapply wp_lift; [exact Er|]; repeat case_bool; [wp_step|wp_step|done]].
  - eapply (loads_uniform s s a 2 be 2); try first [done|lia|tauto|by apply const_bytes].
    intros b Hb. apply (uniform8 s a 2); [done|done|]. simpl in Hb. dlia.
  - eapply (loads_uniform s s a 2 be 1); try first [done|lia|tauto|by apply const_bytes].
    intros b Hb. apply (uniform8 s a 1); [done|done|]. simpl in Hb. dlia.
  - eapply (loads_uniform s s a 2 be 2); try first [done|lia|tauto|by apply const_bytes].
    intros b Hb. simpl in Hb. unfold vab2. rewrite (byte_at_word s b a) by dlia. apply (extract4_uniform a b _ 2); [done..|subst r; exact Er].
  - eapply (loads_uniform s s a 2 be 1); try first [done|lia|tauto|by apply const_bytes].
    intros b Hb. simpl in Hb. unfold vab2. rewrite (byte_at_word s b a) by dlia. apply (extract4_uniform a b _ 1); [done..|subst r; exact Er].
Qed.

Lemma loads_8 a : word a -> loads 1 false a (helperc_LOADV8 clo_partial_loads_ok a).
Proof.
  intros Hw s Hs. pose proof (loads_slow a 8 false 1 eq_refl ltac:(tauto) Hw s Hs) as Hslow. unfold helperc_LOADV8.
  destruct (UNALIGNED_OR_HIGH a 8) eqn:Eu; [done|]. destruct (low_aligned a 8 0) as [Hlo Hal]; [done..|lia|done|done|].
  wp_step. apply wp_reading_low; [apply Hs|done..|]. wp_step. apply wp_get_vabits8; [apply Hs|done..|].
  assert (∀ b, b / Z.of_nat 1 = a / Z.of_nat 1 -> b = a) as Heq by (intros b; simpl; rewrite !Z.div_1_r; done).
  repeat case_bool; try wp_step; try done.
  - eapply (loads_uniform s s a 1 false 2); try first [done|lia|tauto|by rewrite Z.mod_1_r|by apply const_bytes].
    intros b ->%Heq. by apply (uniform8 s a 2).
  - eapply (loads_uniform s s a 1 false 1); try first [done|lia|tauto|by rewrite Z.mod_1_r|by apply const_bytes].
    intros b ->%Heq. by apply (uniform8 s a 1).
  - eapply (loads_uniform s s a 1 false 2); try first [done|lia|tauto|by rewrite Z.mod_1_r|by apply const_bytes].
    by intros b ->%Heq.
  - eapply (loads_uniform s s a 1 false 1); try first [done|lia|tauto|by rewrite Z.mod_1_r|by apply const_bytes].
    by intros b ->%Heq.
Qed.

(** ** Stores *)

(** The byte of the value that a store of [szB] bytes at [a] leaves at [b], if it is
    one of them. *)
Definition stored_byte (a szB : Z) (be : bool) (v b : Z) : option Z :=
  let d := u64 (b - a) in
  if d <? szB then Some (byte_of v (byte_offset_w szB be d)) else None.

Definition store_errors (a : Z) (szB : nat) (mem : Z -> option Z) : list addr_error :=
  if n_bad mem szB =? 0 then [] else [AddrErr a (Z.of_nat szB) true].

(** The value is stored in the bytes that may be accessed; an error is reported if
    there are others. *)
Definition store_post (szB : nat) (be : bool) (a v : Z) s (_ : unit) s' : Prop :=
  inv L s' ∧
  (∀ b, word b -> abs s' b = match stored_byte a (Z.of_nat szB) be v b with
                             | Some x => (fun _ => x) <$> abs s b | None => abs s b end) ∧
  errors s' = errors s ++ store_errors a szB (mem_at s a (Z.of_nat szB) be).

(** Partially defined bytes go to lines in [L]. *)
Definition store_lines (szB : nat) (be : bool) (a v : Z) : Prop :=
  ∀ i, 0 <= i < Z.of_nat szB -> 0 < byte_of v i < 255 -> line_of (u64 (a + byte_offset_w (Z.of_nat szB) be i)) ∈ L.
Definition stores (szB : nat) (be : bool) (a v : Z) (m : M T unit) : Prop :=
  ∀ s, inv L s -> store_lines szB be a v -> wp m (store_post szB be a v s) s.

Lemma byte_offset_range n be i : 0 <= i < n -> 0 <= byte_offset_w n be i < n ∧ byte_offset_w n be (byte_offset_w n be i) = i.
Proof. unfold byte_offset_w. case_bool; lia. Qed.

Lemma u64_sub_add a o : word o -> u64 (u64 (a + o) - a) = o.
Proof.
  intros Ho. unfold u64, wrap. rewrite Zminus_mod_idemp_l. replace (a + o - a) with o by lia. by apply Z.mod_small.
Qed.

Lemma u64_add_sub a b : word b -> u64 (a + u64 (b - a)) = b.
Proof.
  intros Hb. unfold u64, wrap. rewrite Z.add_mod_idemp_r by lia. replace (a + (b - a)) with b by lia. by apply Z.mod_small.
Qed.

(** What has been stored after [k] rounds. *)
Definition stored_upto (a szB : Z) (be : bool) (v k b : Z) : option Z :=
  let d := u64 (b - a) in
  if (d <? szB) && (byte_offset_w szB be d <? k) then Some (byte_of v (byte_offset_w szB be d)) else None.

Lemma stored_upto_S a szB be v k b : 0 < szB <= 8 -> 0 <= k < szB -> word b ->
  stored_upto a szB be v (k + 1) b =
  if b =? u64 (a + byte_offset_w szB be k) then Some (byte_of v k) else stored_upto a szB be v k b.
Proof.
  intros Hsz Hk Hb. destruct (byte_offset_range szB be k Hk) as [Ho Hoo]. unfold stored_upto.
  assert (word (byte_offset_w szB be k)) by (unfold word; lia).
  destruct (b =? _) eqn:E; b2p.
  - subst b. rewrite u64_sub_add, Hoo by done. rewrite (proj2 (Z.ltb_lt _ szB)), (proj2 (Z.ltb_lt k (k + 1))) by lia. done.
  - set (d := u64 (b - a)). destruct (d <? szB) eqn:Ed; [|done]. b2p. cbn [andb].
    assert (0 <= d) by (by apply wrap_range). destruct (byte_offset_range szB be d ltac:(lia)) as [Hod Hodd].
    assert (byte_offset_w szB be d ≠ k).
    { intros <-. apply E. rewrite Hodd. unfold d. by rewrite u64_add_sub. }
    assert ((byte_offset_w szB be d <? k + 1) = (byte_offset_w szB be d <? k)) as ->; [|done].
    apply eq_bool_prop_intro. rewrite !Is_true_true, !Z.ltb_lt. lia.
Qed.

Lemma wp_STOREVn_general a nBits v be (szB : nat) : nBits = 8 * Z.of_nat szB -> (szB = 1 ∨ szB = 2 ∨ szB = 4 ∨ szB = 8)%nat ->
  stores szB be a v (STOREVn_general a nBits v be).
Proof.
  intros Hn Hsz s Hs HL. destruct (szB_cases nBits szB Hn Hsz) as (E1 & E2 & _).
  assert (0 < Z.of_nat szB <= 8) as Hsz' by (by destruct Hsz as [->|[->|[->| ->]]]).
  set (mem := mem_at s a (Z.of_nat szB) be).
  unfold STOREVn_general. rewrite E1. wp_step. apply wp_assert; [done|]. wp_step.
  apply (wp_fold_inv (fun l acc s' => ∃ k : nat, l = seqZ (Z.of_nat k) (Z.of_nat szB - Z.of_nat k) ∧ (k <= szB)%nat ∧
    acc = (Z.shiftr v (8 * Z.of_nat k), n_bad mem k) ∧ inv L s' ∧ errors s' = errors s ∧
    ∀ b, word b -> abs s' b = match stored_upto a (Z.of_nat szB) be v (Z.of_nat k) b with
                              | Some x => (fun _ => x) <$> abs s b | None => abs s b end)).
  - intros i l' acc s' _ (k & El & Hk & -> & Hs' & He & Ha).
    assert ((k < szB)%nat) as Hlt. { destruct (decide (k = szB)) as [->|]; [by rewrite Z.sub_diag in El|lia]. }
    rewrite seqZ_cons in El by lia. injection El as -> ->. unfold store_byte. wp_step.
    set (ai := u64 (a + byte_offset_w (Z.of_nat szB) be (Z.of_nat k))).
    change (Z.land (Z.shiftr v (8 * Z.of_nat k)) 0xff) with (byte_of v (Z.of_nat k)).
    apply (wp_set_vbits8 L); [done..|apply u64_word|apply byte_of_range|intros; apply HL; [lia|done]|].
    intros s2 Hs2 [He2 Ha2]. wp_step.
    assert (abs s' ai = mem (Z.of_nat k)) as Eai.
    { rewrite Ha by apply u64_word. unfold stored_upto, ai.
      destruct (byte_offset_range (Z.of_nat szB) be (Z.of_nat k) ltac:(lia)) as [Ho Hoo].
      rewrite u64_sub_add, Hoo, Z.ltb_irrefl, andb_false_r by (unfold word; lia). done. }
    exists (S k). rewrite Eai. split; [f_equal; lia|]. split; [lia|]. split; [|split; [done|split; [congruence|]]].
    + rewrite Z.shiftr_shiftr, n_bad_S by lia. f_equal; [f_equal; lia|].
      destruct (mem (Z.of_nat k)); [by rewrite bool_decide_eq_true_2, Z.add_0_r|].
      rewrite bool_decide_eq_false_2; [done|]. by intros [? ?].
    + intros b Hb. rewrite Ha2, Nat2Z.inj_succ, <- Z.add_1_r, stored_upto_S by (done || lia). fold ai.
      destruct (b =? ai) eqn:Eb; b2p; [subst b; by rewrite Eai|by apply Ha].
  - exists 0%nat. rewrite Z.sub_0_r. split; [done|]. split; [lia|]. split; [done|]. split; [done|]. split; [done|].
    intros b Hb. unfold stored_upto. destruct (u64 (b - a) <? Z.of_nat szB) eqn:Ed; [|done]. b2p. simpl.
    assert (0 <= u64 (b - a)) by (by apply wrap_range).
    destruct (byte_offset_range (Z.of_nat szB) be (u64 (b - a)) ltac:(lia)) as [Ho _].
    by rewrite (proj2 (Z.ltb_ge _ _)) by lia.
  - intros acc s' (k & El & Hk & -> & Hs' & He & Ha).
    assert (k = szB) as ->. { destruct (decide (k = szB)); [done|]. rewrite seqZ_cons in El by lia. done. }
    assert (∀ b, word b -> abs s' b = match stored_byte a (Z.of_nat szB) be v b with
                              | Some x => (fun _ => x) <$> abs s b | None => abs s b end) as Ha'.
    { intros b Hb. rewrite Ha by done. unfold stored_upto, stored_byte.
      destruct (u64 (b - a) <? Z.of_nat szB) eqn:Ed; [|done]. b2p. simpl. assert (0 <= u64 (b - a)) by (by apply wrap_range).
      destruct (byte_offset_range (Z.of_nat szB) be (u64 (b - a)) ltac:(lia)) as [Ho _].
      by rewrite (proj2 (Z.ltb_lt _ _)) by lia. }
    cbn [snd]. unfold store_post, store_errors. fold mem. assert (0 <= n_bad mem szB) by (unfold n_bad; lia).
    destruct (0 <? n_bad mem szB) eqn:E0; b2p.
    + unfold record_address_error. wp_step. rewrite (proj2 (Z.eqb_neq _ 0)) by lia.
      split; [|split; [done|by simpl; rewrite He]]. destruct Hs'. constructor; [by eapply core_ext|done|done].
    + wp_step. rewrite (proj2 (Z.eqb_eq _ 0)) by lia. rewrite app_nil_r. done.
Qed.

(** *** Storing the same bits in all bytes *)

(** The bits [k] in the aligned block of [a]. *)
Definition block_bits (szB a k : Z) (b : Z) : option Z := if b / szB =? a / szB then Some k else None.

Lemma block_bits_in szB a k b x : block_bits szB a k b = Some x -> b / szB = a / szB.
Proof. unfold block_bits. by case_bool. Qed.

Lemma wrote_block s s' a k : 0 <= k < 4 -> wrote s s' a (k * 85) -> set_bits s s' (block_bits 4 a k).
Proof.
  intros Hk [Hb Ht]. split; [|done]. intros b Hw. unfold vab2, block_bits. rewrite Hb by done.
  case_bool; [by apply extract_uniform|done].
Qed.

Lemma wp_put_vabits16 s a k (Q : unit -> mc T -> Prop) : core s -> word a -> a mod 8 = 0 -> 0 <= k < 4 ->
  is_distinguished_sm (sm_at s a) = false ->
  (∀ s', core s' -> set_bits s s' (block_bits 8 a k) -> (∀ b, sm_at s' b = sm_at s b) -> Q tt s') ->
  wp (put_vabits16 (sm_at s a) (SM_OFF_16 a) (k * 0x5555)) Q s.
Proof.
  intros Hs Hw Ha Hk Hd HQ. destruct (off16 a Ha Hw) as (E1 & E2 & E3 & Hw4). unfold put_vabits16.
  replace (2 * SM_OFF_16 a + 1) with (SM_OFF (a + 4)) by lia. replace (2 * SM_OFF_16 a) with (SM_OFF a) by lia.
  assert (Z.land (k * 0x5555) 0xff = k * 85 ∧ Z.land (Z.shiftr (k * 0x5555) 8) 0xff = k * 85) as [-> ->].
  { assert (k = 0 ∨ k = 1 ∨ k = 2 ∨ k = 3) as [->|[->|[->| ->]]] by lia; done. }
  wp_step. apply wp_put_vabits8; [done|done|lia|done|]. intros s1 Hs1 Hw1 Esm1.
  assert (sm_at s a = sm_at s1 (a + 4)) as Ea by (rewrite <- Esm1; by apply sm_at_base). rewrite Ea in Hd |- *.
  apply wp_put_vabits8; [done|done|lia|done|]. intros s2 Hs2 Hw2 Esm2.
  apply HQ; [done| |intros b; by rewrite Esm2, Esm1].
  apply wrote_block in Hw1, Hw2; [|done..]. destruct Hw1 as [B1 T1], Hw2 as [B2 T2]. split; [|by etrans].
  intros b Hb. rewrite B2, B1 by done. unfold block_bits.
  destruct (b / 8 =? a / 8) eqn:E8, (b / 4 =? (a + 4) / 4) eqn:E4, (b / 4 =? a / 4) eqn:E4'; b2p; first [done|exfalso; dlia].
Qed.

(** The value is one that the block can have as a whole. *)
Definition whole_value (szB k v : Z) : Prop :=
  (k = VA_BITS2_DEFINED ∨ k = VA_BITS2_UNDEFINED) ∧ ∀ i, 0 <= i < szB -> Some (byte_of v i) = v_of k.

Lemma block_stored a szB be k v b : (szB = 1 ∨ szB = 2 ∨ szB = 4 ∨ szB = 8) -> word a -> word b -> a mod szB = 0 ->
  whole_value szB k v ->
  (stored_byte a szB be v b = None ∧ block_bits szB a k b = None) ∨
  (∃ x, stored_byte a szB be v b = Some x ∧ block_bits szB a k b = Some k ∧ v_of k = Some x).
Proof.
  intros Hsz Ha Hb Hal [_ Hv]. unfold stored_byte, block_bits. set (d := u64 (b - a)).
  assert (0 <= d) by (by apply wrap_range).
  assert (d < szB <-> b / szB = a / szB) as Hiff.
  { assert (d = b - a ∨ d = b - a + 2 ^ 64 ∧ b < a) as Hd.
    { unfold d, u64, wrap, word in *. destruct (decide (a <= b)); [left; apply Z.mod_small; lia|right].
      split; [|lia]. rewrite <- (Z.mod_add _ 1) by lia. rewrite Z.mul_1_l. apply Z.mod_small. lia. }
    unfold word in *. change (2 ^ 64) with 18446744073709551616 in *.
    destruct Hsz as [->|[->|[->| ->]]]; split; dlia. }
  destruct (d <? szB) eqn:Ed, (b / szB =? a / szB) eqn:Eb; b2p; [|exfalso; tauto|exfalso; apply Hiff in Eb; lia|by left].
  right. eexists. split; [done|]. split; [done|]. symmetry. apply Hv.
  destruct (byte_offset_range szB be d ltac:(lia)) as [Ho _]. lia.
Qed.

Lemma stores_block s s' a (szB : nat) be k v : (szB = 1 ∨ szB = 2 ∨ szB = 4 ∨ szB = 8)%nat -> word a -> a mod Z.of_nat szB = 0 ->
  whole_value (Z.of_nat szB) k v -> inv L s -> core s' -> set_bits s s' (block_bits (Z.of_nat szB) a k) ->
  (∀ b, word b -> b / Z.of_nat szB = a / Z.of_nat szB -> vab2 s b ≠ VA_BITS2_NOACCESS) ->
  store_post szB be a v s tt s'.
Proof.
  intros Hsz Hw Hal Hv Hs Hc Hset Hacc.
  assert (Z.of_nat szB = 1 ∨ Z.of_nat szB = 2 ∨ Z.of_nat szB = 4 ∨ Z.of_nat szB = 8) as Hsz'
    by (by destruct Hsz as [->|[->|[->| ->]]]; auto).
  destruct (set_bits_ok L s s' _ Hs Hc Hset) as [Hs' [He Ha]].
  { intros b x. unfold block_bits. case_bool; [|done]. intros [= <-]. destruct Hv as [Hv _]. tauto. }
  split; [done|]. split.
  - intros b Hb. rewrite Ha by done.
    destruct (block_stored a (Z.of_nat szB) be k v b) as [[-> ->]|(x & -> & Eb & Ek)]; [done..|].
    rewrite Eb, Ek. assert (abs s b ≠ None) as Hne.
    { rewrite abs_noaccess. exact (Hacc b Hb (block_bits_in _ _ _ _ _ Eb)). }
    by destruct (abs s b).
  - rewrite He. unfold store_errors. rewrite (proj2 (n_bad_0 _ szB)); [by rewrite app_nil_r|].
    intros i Hi. unfold mem_at. rewrite abs_noaccess. refine (Hacc _ (u64_word _) _).
    destruct (byte_offset_range (Z.of_nat szB) be i Hi) as [Ho _].
    destruct (block_stored a (Z.of_nat szB) be k v (u64 (a + byte_offset_w (Z.of_nat szB) be i)))
      as [[E _]|(x & E & Eb & _)]; [done|done|apply u64_word|done|done| |].
    + exfalso. unfold stored_byte in E. rewrite u64_sub_add in E by (unfold word; lia).
      by rewrite (proj2 (Z.ltb_lt _ _)) in E by lia.
    + exact (block_bits_in _ _ _ _ _ Eb).
Qed.

(** It is already stored. *)
Lemma block_same s a szB k : (∀ b, b / szB = a / szB -> vab2 s b = k) -> set_bits s s (block_bits szB a k).
Proof. intros Hall. split; [|done]. intros b _. unfold block_bits. case_bool; [by apply Hall|done]. Qed.

Lemma whole_const k v n : k = VA_BITS2_DEFINED ∨ k = VA_BITS2_UNDEFINED ->
  forallb (fun i => bool_decide (Some (byte_of v i) = v_of k)) (seqZ 0 n) = true -> whole_value n k v.
Proof. intros Hk Hf. split; [done|]. intros i Hi.
  pose proof (forall_below _ _ Hf i Hi) as E. by apply bool_decide_eq_true_1 in E. Qed.

Lemma whole_low v w n k : Z.land v (Z.ones (8 * n)) = w -> 0 <= n -> whole_value n k w -> whole_value n k v.
Proof.
  intros <- Hn [Hk Hv]. split; [done|]. intros i Hi. rewrite <- (Hv i Hi). f_equal. apply Z.bits_inj'. intros j Hj.
  rewrite !byte_of_testbit by lia. destruct (j <? 8) eqn:Ej; [|done]. b2p.
  rewrite Z.land_spec, Z.testbit_ones_nonneg by lia. by rewrite (proj2 (Z.ltb_lt _ _)), andb_true_r by lia.
Qed.

(** Reading may have brought entries to the front before. *)
Lemma store_post_quiet szB be a v s s1 u s' : quiet s s1 -> store_post szB be a v s1 u s' -> store_post szB be a v s u s'.
Proof.
  intros Hq (Hs' & Ha & He). split; [done|]. split.
  - intros b Hb. rewrite Ha by done. by rewrite (quiet_abs s s1).
  - rewrite He. unfold store_errors. rewrite (n_bad_ext (mem_at s a (Z.of_nat szB) be) (mem_at s1 a (Z.of_nat szB) be)).
    + f_equal. apply Hq.
    + intros i _. unfold mem_at. by rewrite (quiet_abs s s1).
Qed.

(** *** The slow cases *)

Lemma uniform_accessible s a szB k b : (∀ b, b / szB = a / szB -> vab2 s b = k) ->
  k = VA_BITS2_DEFINED ∨ k = VA_BITS2_UNDEFINED -> word b -> b / szB = a / szB -> vab2 s b ≠ VA_BITS2_NOACCESS.
Proof. intros Hk Hor _ Hb. rewrite Hk by done. by destruct Hor as [-> | ->]. Qed.

Lemma wp_store16 s a be k v (Q : unit -> mc T -> Prop) : inv L s -> word a -> a mod 8 = 0 ->
  is_distinguished_sm (sm_at s a) = false -> whole_value 8 k v ->
  (VA_BITS16_DEFINED = byte_at s a + 256 * byte_at s (a + 4) ∨ VA_BITS16_UNDEFINED = byte_at s a + 256 * byte_at s (a + 4)) ->
  (∀ s', store_post 8 be a v s tt s' -> Q tt s') ->
  wp (put_vabits16 (sm_at s a) (SM_OFF_16 a) (k * 0x5555)) Q s.
Proof.
  intros Hs Hw Hal Hd Hv Hacc HQ. apply wp_put_vabits16; [apply Hs|done|done|by destruct Hv as [[-> | ->] _]|done|].
  intros s' Hc Hset _. apply HQ. eapply (stores_block s s' a 8 be k); try done; [tauto|].
  intros b Hb. destruct Hacc as [E|E];
    [apply (uniform_accessible s a 8 2); [|by left|done]|apply (uniform_accessible s a 8 1); [|by right|done]];
    by apply uniform16; [apply Hs|..].
Qed.

Lemma wp_store8 s a be k v (Q : unit -> mc T -> Prop) : inv L s -> word a -> a mod 4 = 0 ->
  is_distinguished_sm (sm_at s a) = false -> whole_value 4 k v ->
  (VA_BITS8_DEFINED = byte_at s a ∨ VA_BITS8_UNDEFINED = byte_at s a) ->
  (∀ s', store_post 4 be a v s tt s' -> Q tt s') ->
  wp (put_vabits8 (sm_at s a) (SM_OFF a) (k * 85)) Q s.
Proof.
  intros Hs Hw Hal Hd Hv Hacc HQ. apply wp_put_vabits8; [apply Hs|done|by destruct Hv as [[-> | ->] _]|done|].
  intros s' Hc Hset%wrote_block _; [|by destruct Hv as [[-> | ->] _]].
  apply HQ. eapply (stores_block s s' a 4 be k); try done; [tauto|].
  intros b Hb. destruct Hacc as [E|E];
    [apply (uniform_accessible s a 4 2); [|by left|done]|apply (uniform_accessible s a 4 1); [|by right|done]];
    by apply uniform8.
Qed.

Lemma whole_values :
  whole_value 8 VA_BITS2_DEFINED V_BITS64_DEFINED ∧ whole_value 8 VA_BITS2_UNDEFINED V_BITS64_UNDEFINED ∧
  whole_value 4 VA_BITS2_DEFINED V_BITS32_DEFINED ∧ whole_value 4 VA_BITS2_UNDEFINED V_BITS32_UNDEFINED ∧
  whole_value 2 VA_BITS2_DEFINED V_BITS16_DEFINED ∧ whole_value 2 VA_BITS2_UNDEFINED V_BITS16_UNDEFINED ∧
  whole_value 1 VA_BITS2_DEFINED V_BITS8_DEFINED ∧ whole_value 1 VA_BITS2_UNDEFINED V_BITS8_UNDEFINED.
Proof. split_and!; apply whole_const; first [by left|by right|by vm_compute]. Qed.

Lemma wp_STOREVn_semi_fast a nBits v be szB s : nBits = 8 * Z.of_nat szB -> (szB = 1 ∨ szB = 2 ∨ szB = 4 ∨ szB = 8)%nat ->
  word a -> inv L s ->
  wp (STOREVn_semi_fast a nBits v) (fun r s' =>
    if r then store_post szB be a v s tt s' else inv L s' ∧ quiet s s') s.
Proof.
  intros Hn Hsz Hw Hs. destruct (szB_cases nBits szB Hn Hsz) as (_ & _ & _ & E4 & E8).
  destruct whole_values as (W1 & W2 & W3 & W4 & _).
  unfold STOREVn_semi_fast. rewrite E4, E8, aligned4, aligned8.
  destruct ((szB =? 8)%nat && _) eqn:B8; [|destruct ((szB =? 4)%nat && _) eqn:B4]; [..|by wp_step].
  - apply andb_true_iff in B8 as [B8 Hal]. apply Nat.eqb_eq in B8. b2p. subst szB.
    wp_step. apply wp_get_secmap_for_reading; [apply Hs|done|].
    intros s1 Hc1 Hq. pose proof (quiet_inv L s s1 Hc1 Hq Hs) as Hs1. wp_step. apply wp_get_vabits16; [done..|].
    destruct (negb _ && _) eqn:Eacc; [|by wp_step]. apply andb_true_iff in Eacc as [Hd Eacc]. apply negb_true_iff in Hd.
    rewrite orb_true_iff, !Z.eqb_eq in Eacc.
    case_bool; [subst v|case_bool; [subst v|by wp_step]]; wp_step.
    + apply (wp_store16 s1 a be VA_BITS2_DEFINED V_BITS64_DEFINED); [done..|]. intros s' Hp. wp_step. by eapply store_post_quiet.
    + apply (wp_store16 s1 a be VA_BITS2_UNDEFINED V_BITS64_UNDEFINED); [done..|]. intros s' Hp. wp_step. by eapply store_post_quiet.
  - apply andb_true_iff in B4 as [B4 Hal]. apply Nat.eqb_eq in B4. b2p. subst szB.
    wp_step. apply wp_get_secmap_for_reading; [apply Hs|done|].
    intros s1 Hc1 Hq. pose proof (quiet_inv L s s1 Hc1 Hq Hs) as Hs1. wp_step. apply wp_get_vabits8; [done..|].
    destruct (negb _ && _) eqn:Eacc; [|by wp_step]. apply andb_true_iff in Eacc as [Hd Eacc]. apply negb_true_iff in Hd.
    rewrite orb_true_iff, !Z.eqb_eq in Eacc.
    case_bool; [|case_bool; [|by wp_step]]; wp_step.
    + apply (wp_store8 s1 a be VA_BITS2_DEFINED v); [done..|by eapply (whole_low v _ 4)|done|].
      intros s' Hp. wp_step. by eapply store_post_quiet.
    + apply (wp_store8 s1 a be VA_BITS2_UNDEFINED v); [done..|by eapply (whole_low v _ 4)|done|].
      intros s' Hp. wp_step. by eapply store_post_quiet.
Qed.

Lemma stores_slow a nBits v be szB : nBits = 8 * Z.of_nat szB -> (szB = 1 ∨ szB = 2 ∨ szB = 4 ∨ szB = 8)%nat ->
  word a -> stores szB be a v (mc_STOREVn_slow a nBits v be).
Proof.
  intros Hn Hsz Hw s Hs HL. unfold mc_STOREVn_slow. wp_step.
  eapply wp_mono; [by apply (wp_STOREVn_semi_fast a nBits v be szB)|].
  intros [|] s'; [intros Hp; by wp_step|]. intros [Hs' Hq].
  eapply wp_mono; [by apply (wp_STOREVn_general a nBits v be szB)|]. intros u s2. by apply store_post_quiet.
Qed.

(** *** The fast cases *)

Lemma store_done szB be a k v s : (szB = 1 ∨ szB = 2 ∨ szB = 4 ∨ szB = 8)%nat -> word a -> a mod Z.of_nat szB = 0 ->
  whole_value (Z.of_nat szB) k v -> inv L s -> (∀ b, b / Z.of_nat szB = a / Z.of_nat szB -> vab2 s b = k) ->
  store_post szB be a v s tt s.
Proof.
  intros Hsz Hw Hal Hv Hs Hk. apply (stores_block s s a szB be k); [done..|apply Hs|by apply block_same|].
  intros b Hb. apply (uniform_accessible s a _ k); [done| |done]. destruct Hv as [Hv _]. tauto.
Qed.

Lemma stores_64 a be v : word a -> stores 8 be a v (mc_STOREV64 a v be).
Proof.
  intros Hw s Hs HL. pose proof (stores_slow a 64 v be 8 eq_refl ltac:(tauto) Hw s Hs HL) as Hslow. unfold mc_STOREV64.
  destruct (UNALIGNED_OR_HIGH a 64) eqn:Eu; [done|]. destruct (low_aligned a 64 3) as [Hlo Hal]; [done..|lia|done|done|].
  destruct whole_values as (W1 & W2 & _).
  wp_step. apply wp_reading_low; [apply Hs|done..|]. wp_step. apply wp_get_vabits16; [apply Hs|done..|].
  case_bool; [subst v|case_bool; [subst v|done]].
  - case_bool; [wp_step; apply (store_done 8 be a 2); try done; [tauto|]; by apply uniform16; [apply Hs|..]|].
    destruct (negb _ && _) eqn:Ed; [|done]. b2p. apply (wp_store16 s a be VA_BITS2_DEFINED V_BITS64_DEFINED); auto.
  - case_bool; [wp_step; apply (store_done 8 be a 1); try done; [tauto|]; by apply uniform16; [apply Hs|..]|].
    destruct (negb _ && _) eqn:Ed; [|done]. b2p. apply (wp_store16 s a be VA_BITS2_UNDEFINED V_BITS64_UNDEFINED); auto.
Qed.

Lemma stores_32 a be v : word a -> stores 4 be a v (mc_STOREV32 a v be).
Proof.
  intros Hw s Hs HL. pose proof (stores_slow a 32 v be 4 eq_refl ltac:(tauto) Hw s Hs HL) as Hslow. unfold mc_STOREV32.
  destruct (UNALIGNED_OR_HIGH a 32) eqn:Eu; [done|]. destruct (low_aligned a 32 2) as [Hlo Hal]; [done..|lia|done|done|].
  destruct whole_values as (_ & _ & W1 & W2 & _).
  wp_step. apply wp_reading_low; [apply Hs|done..|]. wp_step. apply wp_get_vabits8; [apply Hs|done..|].
  case_bool; [subst v|case_bool; [subst v|done]].
  - case_bool; [wp_step; apply (store_done 4 be a 2); try done; [tauto|]; by apply uniform8|].
    destruct (negb _ && _) eqn:Ed; [|done]. b2p. apply (wp_store8 s a be VA_BITS2_DEFINED V_BITS32_DEFINED); auto.
  - case_bool; [wp_step; apply (store_done 4 be a 1); try done; [tauto|]; by apply uniform8|].
    destruct (negb _ && _) eqn:Ed; [|done]. b2p. apply (wp_store8 s a be VA_BITS2_UNDEFINED V_BITS32_UNDEFINED); auto.
Qed.

Lemma stores_8 a v : word a -> stores 1 false a v (helperc_STOREV8 a v).
Proof.
  intros Hw s Hs HL. pose proof (stores_slow a 8 v false 1 eq_refl ltac:(tauto) Hw s Hs HL) as Hslow. unfold helperc_STOREV8.
  destruct (UNALIGNED_OR_HIGH a 8) eqn:Eu; [done|]. destruct (low_aligned a 8 0) as [Hlo Hal]; [done..|lia|done|done|].
  destruct whole_values as (_ & _ & _ & _ & _ & _ & W1 & W2).
  assert (∀ b, b / Z.of_nat 1 = a / Z.of_nat 1 <-> b = a) as Heq by (intros b; simpl; rewrite !Z.div_1_r; done).
  assert (∀ k v, whole_value 1 k v -> is_distinguished_sm (sm_at s a) = false -> VA_BITS2_NOACCESS ≠ vab2 s a ->
    wp (put_vabits8 (sm_at s a) (SM_OFF a) (insert_vabits2_into_vabits8 a k (byte_at s a))) (store_post 1 false a v s) s) as Hdirect.
  { intros k v' Hv Hd Hacc. assert (0 <= k < 4) by (by destruct Hv as [[-> | ->] _]).
    pose proof (byte_at_range s a (inv_core L s Hs)) as Hr.
    apply wp_put_vabits8; [apply Hs|done|by apply (insert_extract a a)|done|].
    intros s' Hc [Hset Ht]%wrote_set2 _; [|by apply Hs|done..].
    apply (stores_block s s' a 1 false k); try first [done|tauto|apply Z.mod_1_r].
    - split; [|done]. intros b Hb. rewrite Hset by done. unfold block_bits. rewrite !Z.div_1_r. by case_bool.
    - intros b _ ->%Heq E. by apply Hacc. }
  wp_step. apply wp_reading_low; [apply Hs|done..|]. wp_step. apply wp_get_vabits8; [apply Hs|done..|].
  case_bool; [subst v|case_bool; [subst v|done]].
  - case_bool; [wp_step; apply (store_done 1 false a 2); try first [done|tauto|apply Z.mod_1_r]; intros b ->%Heq; by apply (uniform8 s a 2)|].
    destruct (negb _ && _) eqn:Ed; [|done]. b2p. by apply Hdirect.
  - case_bool; [wp_step; apply (store_done 1 false a 1); try first [done|tauto|apply Z.mod_1_r]; intros b ->%Heq; by apply (uniform8 s a 1)|].
    destruct (negb _ && _) eqn:Ed; [|done]. b2p. by apply Hdirect.
Qed.

(** *** Two bytes

    Defined bits that are stored at an aligned address below 128 GB by the slow case
    are stored twice. *)

Lemma wp_STOREV16_direct s a be k v : inv L s -> word a -> a mod 2 = 0 -> whole_value 2 k v ->
  wp (STOREV16_direct a (sm_at s a) (byte_at s a) (k * 5)) (fun r s' =>
    if r then store_post 2 be a v s tt s' ∧ errors s' = errors s else s' = s) s.
Proof.
  intros Hs Hw Hal Hv. unfold STOREV16_direct. case_bool; [|by wp_step].
  pose proof (byte_at_range s a (inv_core L s Hs)) as Hr. assert (0 <= k < 4) as Hk by (by destruct Hv as [[-> | ->] _]).
  destruct (accessible4 a (byte_at s a) Hal Hr) as (acc & Eacc & Hacc).
  wp_step. eapply wp_lift; [exact Eacc|]. destruct acc; [|by wp_step]. specialize (Hacc eq_refl).
  destruct (insert4_extract a (byte_at s a) k Hal Hr Hk) as (r & Er & Hrr & Hx).
  wp_step. eapply wp_lift; [exact Er|]. wp_step. apply wp_put_vabits8; [apply Hs|done..|].
  intros s' Hc [Hset Ht] _. wp_step. split; [|by apply Ht]. apply (stores_block s s' a 2 be k); try first [done|tauto].
  - split; [|done]. intros b Hb. unfold vab2, block_bits. rewrite Hset by done.
    destruct (b / 4 =? a / 4) eqn:E4; b2p.
    + rewrite Hx, (byte_at_word s b a) by done. change (Z.of_nat 2) with 2.
      assert (((b mod 4) / 2 =? (a mod 4) / 2) = (b / 2 =? a / 2)) as ->; [|by destruct (b / 2 =? a / 2)].
      apply eq_bool_prop_intro. rewrite !Is_true_true, !Z.eqb_eq. split; dlia.
    + case_bool; [exfalso; change (Z.of_nat 2) with 2 in *; dlia|done].
  - intros b _ Hb. change (Z.of_nat 2) with 2 in Hb. unfold vab2. rewrite (byte_at_word s b a) by dlia. by apply Hacc.
Qed.

(** Storing a value again changes nothing but reports again. *)
Definition store16_post (be : bool) (a v : Z) s (u : unit) s' : Prop :=
  let errs := store_errors a 2 (mem_at s a 2 be) in
  inv L s' ∧
  (∀ b, word b -> abs s' b = match stored_byte a 2 be v b with
                             | Some x => (fun _ => x) <$> abs s b | None => abs s b end) ∧
  errors s' = errors s ++ errs ++ (if (v =? V_BITS16_DEFINED) && negb (UNALIGNED_OR_HIGH a 16) then errs else []).

Lemma store_post_bad szB be a v s u s' : store_post szB be a v s u s' ->
  n_bad (mem_at s' a (Z.of_nat szB) be) szB = n_bad (mem_at s a (Z.of_nat szB) be) szB.
Proof.
  intros (_ & Ha & _). unfold n_bad. do 2 f_equal. apply list_filter_iff. intros i. unfold mem_at.
  rewrite Ha by apply u64_word. destruct (stored_byte _ _ _ _ _), (abs s _); simpl; split; congruence.
Qed.

Lemma store_twice be a v s s1 s2 : UNALIGNED_OR_HIGH a 16 = false -> v = V_BITS16_DEFINED ->
  store_post 2 be a v s tt s1 -> store_post 2 be a v s1 tt s2 -> store16_post be a v s tt s2.
Proof.
  intros Eu -> H1 (Hs2 & Ha2 & He2). pose proof (store_post_bad _ _ _ _ _ _ _ H1) as En. destruct H1 as (Hs1 & Ha1 & He1).
  split; [done|]. split.
  - intros b Hb. rewrite Ha2, Ha1 by done. change (Z.of_nat 2) with 2.
    destruct (stored_byte _ _ _ _ _), (abs s b); done.
  - rewrite Eu. simpl. rewrite He2, He1. unfold store_errors. rewrite En, <- app_assoc. done.
Qed.

Lemma stores_16 a be v s : word a -> inv L s -> store_lines 2 be a v -> wp (mc_STOREV16 a v be) (store16_post be a v s) s.
Proof.
  intros Hw Hs HL.
  assert (∀ s1, inv L s1 -> wp (mc_STOREVn_slow a 16 v be) (store_post 2 be a v s1) s1) as Hslow.
  { intros s1 Hs1. by apply (stores_slow a 16 v be 2 eq_refl ltac:(tauto) Hw). }
  assert (∀ u s', store_post 2 be a v s u s' -> v ≠ V_BITS16_DEFINED ∨ UNALIGNED_OR_HIGH a 16 = true ∨ errors s' = errors s ->
    store16_post be a v s tt s') as Hone.
  { intros u s' (H1 & H2 & H3) Hor. split; [done|]. split; [done|]. unfold store_post in *. rewrite H3.
    destruct Hor as [Hv|[->|He]].
    - rewrite (proj2 (Z.eqb_neq _ _) Hv). simpl. by rewrite app_nil_r.
    - rewrite andb_false_r. by rewrite app_nil_r.
    - rewrite H3 in He. rewrite <- (app_nil_r (errors s)) in He at 2. apply app_inv_head in He.
      change (Z.of_nat 2) with 2 in *. rewrite He. by case_bool. }
  unfold mc_STOREV16. destruct (UNALIGNED_OR_HIGH a 16) eqn:Eu.
  { eapply wp_mono; [by apply Hslow|]. intros [] s' Hp. apply (Hone tt); auto. }
  destruct (low_aligned a 16 1) as [Hlo Hal]; [done..|lia|done|done|].
  destruct whole_values as (_ & _ & _ & _ & W1 & W2 & _).
  wp_step. apply wp_reading_low; [apply Hs|done..|]. wp_step. apply wp_get_vabits8; [apply Hs|done..|]. wp_step.
  assert (∀ k, whole_value 2 k v -> byte_at s a = k * 85 -> store16_post be a v s tt s) as Hsame.
  { intros k Hv Eb. apply (Hone tt); [|auto]. apply (store_done 2 be a k); try first [done|tauto].
    intros b Hb. apply (uniform8 s a k); [by destruct Hv as [[-> | ->] _]|done|]. change (Z.of_nat 2) with 2 in Hb. dlia. }
  case_bool.
  - subst v. case_bool; [wp_step; wp_step; by apply (Hsame 2)|]. wp_step.
    eapply wp_mono; [by apply (wp_STOREV16_direct s a be 2 V_BITS16_DEFINED)|].
    intros [|] s1 H1.
    + destruct H1 as [H1 He]. do 2 wp_step. apply (Hone tt); auto.
    + subst s1. wp_step. eapply wp_mono; [by apply Hslow|]. intros [] s1 H1. wp_step.
      eapply wp_mono; [apply Hslow, H1|]. intros [] s2 H2. by apply (store_twice be a _ s s1).
  - wp_step. case_bool; [subst v|].
    + case_bool; [wp_step; by apply (Hsame 1)|]. wp_step.
      eapply wp_mono; [by apply (wp_STOREV16_direct s a be 1 V_BITS16_UNDEFINED)|].
      intros [|] s1 H1; [destruct H1; wp_step; apply (Hone tt); [done|by left]|]. subst s1.
      eapply wp_mono; [by apply Hslow|]. intros [] s1 H1. apply (Hone tt); [done|by left].
    + eapply wp_mono; [by apply Hslow|]. intros [] s1 H1. apply (Hone tt); [done|]. by left.
Qed.

(** ** Loads of 128 and 256 bits *)

(** The bytes of the word [li] of 64 bits. *)
Definition long_mem s a be (li : Z) : Z -> option Z := mem_at s (a + 8 * li) 8 be.
Definition wide_bad s a be (ls : list Z) : Z := foldr (fun li n => n_bad (long_mem s a be li) 8 + n) 0 ls.
Definition wide_exempt s a be (szL : nat) : bool :=
  clo_partial_loads_ok && (a mod (8 * Z.of_nat szL) =? 0) && (wide_bad s a be (seqZ 0 (Z.of_nat szL)) <? 8 * Z.of_nat szL).
Definition wide_errors s a be (szL : nat) : list addr_error :=
  if (wide_bad s a be (seqZ 0 (Z.of_nat szL)) =? 0) || wide_exempt s a be szL then []
  else [AddrErr a (8 * Z.of_nat szL) false].

(** The words that are loaded, with the V bits of invalid bytes as for shorter loads. *)
Definition wide_post (szL : nat) be a s (res : list Z) s' : Prop :=
  inv L s' ∧ (∀ b, word b -> abs s' b = abs s b) ∧ errors s' = errors s ++ wide_errors s a be szL ∧
  length res = szL ∧ ∀ li, 0 <= li < Z.of_nat szL -> ∃ v, res !! Z.to_nat li = Some v ∧ 0 <= v < 2 ^ 64 ∧
    ∀ i, 0 <= i < 8 -> byte_of v i = match long_mem s a be li i with
      | Some x => x | None => if wide_exempt s a be szL then V_BITS8_UNDEFINED else V_BITS8_DEFINED end.

(** A word and its pessimising value. *)
Definition long_ok s a be (res pessim : list Z) (li : Z) : Prop :=
  ∃ v p, res !! Z.to_nat li = Some v ∧ pessim !! Z.to_nat li = Some p ∧ 0 <= v < 2 ^ 64 ∧ 0 <= p < 2 ^ 64 ∧
    ∀ i, 0 <= i < 8 -> byte_of v i = default 0 (long_mem s a be li i) ∧
      byte_of p i = if long_mem s a be li i then 0 else 255.

Lemma wide_bad_offsets s a be (szL : nat) : (szL = 1 ∨ szL = 2 ∨ szL = 4)%nat ->
  wide_bad s a be (byte_offset_w (Z.of_nat szL) be <$> reverse (seqZ 0 (Z.of_nat szL))) =
  wide_bad s a be (seqZ 0 (Z.of_nat szL)).
Proof.
  intros Hsz. assert (∀ l l', l ≡ₚ l' -> wide_bad s a be l = wide_bad s a be l') as Hperm.
  { induction 1; unfold wide_bad in *; simpl; lia. }
  apply Hperm. destruct be, Hsz as [->|[->| ->]]; try apply Permutation_refl;
    match goal with |- _ ≡ₚ ?l => exact (reverse_Permutation l) end.
Qed.

Lemma wp_load_long s a be (szL : nat) (Q : list Z * list Z * Z -> mc T -> Prop) res0 : inv L s ->
  (szL = 1 ∨ szL = 2 ∨ szL = 4)%nat -> length res0 = szL ->
  (∀ res pessim s', inv L s' -> quiet s s' -> length res = szL -> length pessim = szL ->
    (∀ li, 0 <= li < Z.of_nat szL -> long_ok s a be res pessim li) ->
    Q (res, pessim, wide_bad s a be (seqZ 0 (Z.of_nat szL))) s') ->
  wp (fold_each (reverse (seqZ 0 (Z.of_nat szL))) (load_long a (Z.of_nat szL) be)
        (res0, replicate szL V_BITS64_DEFINED, 0)) Q s.
Proof.
  intros Hs Hsz Hlen HQ. set (off := byte_offset_w (Z.of_nat szL) be).
  apply (wp_fold_inv (fun l acc s' => ∃ k : nat, l = reverse (seqZ 0 (Z.of_nat k)) ∧ (k <= szL)%nat ∧ inv L s' ∧ quiet s s' ∧
    length acc.1.1 = szL ∧ length acc.1.2 = szL ∧
    acc.2 + wide_bad s a be (off <$> l) = wide_bad s a be (seqZ 0 (Z.of_nat szL)) ∧
    ∀ j, Z.of_nat k <= j < Z.of_nat szL -> long_ok s a be acc.1.1 acc.1.2 (off j))).
  - intros j l' [[res pessim] n] s' _ (k & El & Hk & Hs' & Hq & Hl1 & Hl2 & Hn & Hall). cbn [fst snd] in *.
    destruct k as [|k]; [done|]. rewrite seqZ_S, reverse_snoc in El. injection El as -> ->.
    unfold load_long. fold off. destruct (byte_offset_range (Z.of_nat szL) be (Z.of_nat k) ltac:(lia)) as [Ho Hoo]. fold off in Ho. change (off (off (Z.of_nat k)) = Z.of_nat k) in Hoo.
    set (li := off (Z.of_nat k)) in *. set (mem := long_mem s a be li).
    wp_step. apply (wp_fold_pure (fun s' => inv L s' ∧ quiet s s') (load_step mem)); [|done|].
    { intros i acc s1 R _ [Hs1 Hq1] HR. by apply (wp_load_byte s (a + 8 * li)); [..|auto|]. }
    intros s1 [Hs1 Hq1].
    destruct (load_loop mem 8 V_BITS64_UNDEFINED V_BITS64_DEFINED n) as (v & p & Ef & Hv & Hp & Hb); [by apply mem_at_ok|done..|].
    change (Z.of_nat 8) with 8 in Ef. rewrite Ef. wp_step. eapply wp_lift; [apply arr_set_in_range; lia|].
    wp_step. eapply wp_lift; [apply arr_set_in_range; lia|]. wp_step. cbn [fst snd].
    exists k. split; [done|]. split; [lia|]. split; [done|]. split; [done|]. rewrite !length_insert.
    split; [done|]. split; [done|]. split; [rewrite <- Hn; cbn [fmap list_fmap wide_bad foldr]; fold li mem; unfold wide_bad; lia|].
    intros j Hj. destruct (byte_offset_range (Z.of_nat szL) be j ltac:(lia)) as [Hoj Hooj]. fold off in Hoj. change (off (off j) = j) in Hooj.
    destruct (decide (j = Z.of_nat k)) as [->|Hne].
    + exists v, p. fold li. rewrite !list_lookup_insert_eq by lia. split; [done|]. split; [done|]. split; [done|]. split; [done|].
      intros i Hi. destruct (Hb i Hi) as [B1 B2]. change (Z.of_nat 8) with 8 in *.
      by rewrite (proj2 (Z.ltb_lt _ _)) in B1, B2 by lia.
    + destruct (Hall j) as (v' & p' & Ev & Ep & Hr); [lia|]. exists v', p'.
      assert (Z.to_nat li ≠ Z.to_nat (off j)). { intros E. apply Z2Nat.inj in E; [|lia..]. apply Hne. by rewrite <- Hooj, <- E, Hoo. }
      rewrite !list_lookup_insert_ne by done. done.
  - exists szL. unfold off. rewrite wide_bad_offsets by done. cbn [fst snd]. rewrite length_replicate. split_and!; try done; lia.
  - intros [[res pessim] n] s' (k & El & Hk & Hs' & Hq & Hl1 & Hl2 & Hn & Hall). cbn [fst snd] in *.
    assert (k = 0)%nat as ->. { destruct k; [done|]. by rewrite seqZ_S, reverse_snoc in El. }
    change (n + 0 = wide_bad s a be (seqZ 0 (Z.of_nat szL))) in Hn. rewrite Z.add_0_r in Hn. subst n.
    apply HQ; [done..|]. intros li Hli. destruct (byte_offset_range (Z.of_nat szL) be li Hli) as [Ho Hoo].
    rewrite <- Hoo. apply Hall. simpl. lia.
Qed.

(** [res[j] |= pessim[j]] for all [j]. *)
Lemma wp_pessimise s (szL : nat) res pessim (Q : list Z -> mc T -> Prop) : length res = szL -> length pessim = szL ->
  (∀ res', length res' = szL -> (∀ j r p, res !! j = Some r -> pessim !! j = Some p -> res' !! j = Some (Z.lor r p)) -> Q res' s) ->
  wp (fold_each (reverse (seqZ 0 (Z.of_nat szL))) (pessimise pessim) res) Q s.
Proof.
  intros Hl1 Hl2 HQ.
  apply (wp_fold_inv (fun l acc s' => ∃ k : nat, l = reverse (seqZ 0 (Z.of_nat k)) ∧ (k <= szL)%nat ∧ s' = s ∧ length acc = szL ∧
    (∀ j, (j < k)%nat -> acc !! j = res !! j) ∧
    (∀ j r p, (k <= j)%nat -> res !! j = Some r -> pessim !! j = Some p -> acc !! j = Some (Z.lor r p)))).
  - intros j l' acc s' _ (k & El & Hk & -> & Hla & H1 & H2). destruct k as [|k]; [done|].
    rewrite seqZ_S, reverse_snoc in El. injection El as -> ->. unfold pessimise.
    destruct (lookup_lt_is_Some_2 res k) as [r Hr]; [lia|]. destruct (lookup_lt_is_Some_2 pessim k) as [p Hp]; [lia|].
    wp_step. eapply wp_lift; [apply arr_get_Some; [lia|rewrite Nat2Z.id, H1 by lia; exact Hr]|].
    wp_step. eapply wp_lift; [apply arr_get_Some; [lia|rewrite Nat2Z.id; exact Hp]|].
    eapply wp_lift; [apply arr_set_in_range; lia|]. rewrite Nat2Z.id. exists k. split; [done|]. split; [lia|]. split; [done|].
    rewrite length_insert. split; [done|]. split.
    + intros j Hj. rewrite list_lookup_insert_ne by lia. apply H1. lia.
    + intros j r' p' Hj Hr' Hp'. destruct (decide (j = k)) as [->|].
      * rewrite list_lookup_insert_eq by lia. congruence.
      * rewrite list_lookup_insert_ne by done. apply H2; [lia|done..].
  - exists szL. split; [done|]. split; [lia|]. split; [done|]. split; [done|]. split; [done|].
    intros j r p Hj Hr. apply lookup_lt_Some in Hr. lia.
  - intros acc s' (k & El & Hk & -> & Hla & H1 & H2). assert (k = 0)%nat as ->. { destruct k; [done|]. by rewrite seqZ_S, reverse_snoc in El. }
    apply HQ; [done|]. intros j r p. apply H2. lia.
Qed.

Lemma wide_sizes (szL : nat) nBits : (szL = 1 ∨ szL = 2 ∨ szL = 4)%nat -> nBits = 64 * Z.of_nat szL ->
  nBits / 8 = 8 * Z.of_nat szL ∧ nBits / 8 / 8 = Z.of_nat szL ∧
  (Z.land (8 * Z.of_nat szL) (8 * Z.of_nat szL - 1) =? 0) && (0 <? Z.of_nat szL) = true ∧ (Z.of_nat szL <=? 4) = true.
Proof. by intros [->|[->| ->]] ->. Qed.

Lemma aligned_wide a (szL : nat) : (szL = 1 ∨ szL = 2 ∨ szL = 4)%nat ->
  (Z.land a (8 * Z.of_nat szL - 1) =? 0) = (a mod (8 * Z.of_nat szL) =? 0).
Proof. intros [->|[->| ->]]; [apply (aligned_mod a 3)|apply (aligned_mod a 4)|apply (aligned_mod a 5)]; lia. Qed.

Lemma wp_fill_undefined s (szL : nat) (res : list Z) (Q : list Z -> mc T -> Prop) : length res = szL ->
  (∀ res', length res' = szL -> Q res' s) ->
  wp (fold_each (seqZ 0 (Z.of_nat szL)) (fun j res => lift (arr_set res j V_BITS64_UNDEFINED)) res) Q s.
Proof.
  intros Hl HQ.
  apply (wp_fold_inv (fun l acc s' => s' = s ∧ length acc = szL ∧ ∀ j, j ∈ l -> 0 <= j < Z.of_nat szL)).
  - intros x l' acc s' _ (-> & Hla & Hj). assert (0 <= x < Z.of_nat szL) by (apply Hj; by left).
    eapply wp_lift; [apply arr_set_in_range; lia|]. rewrite length_insert. split; [done|]. split; [done|].
    intros j Hin. apply Hj. by right.
  - split; [done|]. split; [done|]. intros j Hj. apply elem_of_seqZ in Hj. lia.
  - intros acc s' (-> & Hla & _). by apply HQ.
Qed.

Lemma wide_bad_pessim s a be (szL : nat) res pessim : wide_bad s a be (seqZ 0 (Z.of_nat szL)) ≠ 0 ->
  (∀ li, 0 <= li < Z.of_nat szL -> long_ok s a be res pessim li) ->
  existsb (fun p => negb (p =? V_BITS64_DEFINED)) pessim = true.
Proof.
  intros Hne Hok. destruct (existsb _ pessim) eqn:E; [done|]. exfalso. apply Hne.
  assert (∀ ls, (∀ li, li ∈ ls -> 0 <= li < Z.of_nat szL) -> wide_bad s a be ls = 0) as Hz.
  { induction ls as [|li ls IH]; intros Hin; [done|]. unfold wide_bad in *. cbn [foldr]. rewrite IH, Z.add_0_r by (intros; apply Hin; by right).
    apply n_bad_0. intros i Hi Ei. destruct (Hok li (Hin li ltac:(by left))) as (v & p & _ & Hp & _ & _ & Hb).
    destruct (Hb i Hi) as [_ Hbi]. rewrite Ei in Hbi. apply list_elem_of_lookup_2 in Hp.
    assert (p ≠ V_BITS64_DEFINED). { intros ->. unfold byte_of in Hbi. by rewrite Z.shiftr_0_l in Hbi. }
    assert (existsb (fun p => negb (p =? V_BITS64_DEFINED)) pessim = true); [|congruence].
    apply existsb_exists. exists p. split; [by apply list_elem_of_In|]. by apply negb_true_iff, Z.eqb_neq. }
  apply Hz. intros li Hli. apply elem_of_seqZ in Hli. lia.
Qed.

Lemma wp_wide_slow s a be (szL : nat) nBits res : inv L s -> (szL = 1 ∨ szL = 2 ∨ szL = 4)%nat -> nBits = 64 * Z.of_nat szL ->
  length res = szL -> wp (mc_LOADV_128_or_256_slow clo_partial_loads_ok res a nBits be) (wide_post szL be a s) s.
Proof.
  intros Hs Hsz Hn Hl. destruct (wide_sizes szL nBits Hsz Hn) as (E1 & E2 & E3 & E4).
  unfold mc_LOADV_128_or_256_slow. rewrite E2, E1. wp_step. apply wp_assert; [done|]. wp_step. apply wp_assert; [done|].
  wp_step. apply wp_fill_undefined; [done|]. intros res0 Hl0. rewrite Nat2Z.id. wp_step.
  apply (wp_load_long s a be szL); [done..|]. intros res1 pessim s1 Hs1 Hq Hl1 Hlp Hok.
  assert (errors s1 = errors s) as Hes by apply Hq.
  assert (∀ b, word b -> abs s1 b = abs s b) as Habs by (intros b _; by apply quiet_abs).
  assert ((wide_bad s a be (seqZ 0 (Z.of_nat szL)) = 0 ∨ wide_exempt s a be szL = false) ->
    ∀ li, 0 <= li < Z.of_nat szL -> ∃ v, res1 !! Z.to_nat li = Some v ∧ 0 <= v < 2 ^ 64 ∧
    ∀ i, 0 <= i < 8 -> byte_of v i = match long_mem s a be li i with
      | Some x => x | None => if wide_exempt s a be szL then V_BITS8_UNDEFINED else V_BITS8_DEFINED end) as Hwords.
  { intros Hor li Hli. destruct (Hok li Hli) as (v & p & Hv & _ & Hvr & _ & Hb). exists v. split; [done|]. split; [done|].
    intros i Hi. rewrite (proj1 (Hb i Hi)). destruct (long_mem s a be li i) eqn:Ei; [done|].
    destruct Hor as [E0|E0]; [exfalso|by rewrite E0].
    assert (∀ ls, wide_bad s a be ls = 0 -> li ∈ ls -> n_bad (long_mem s a be li) 8 = 0) as Hz.
    { induction ls as [|l ls IH]; [set_solver|]. unfold wide_bad in *. cbn [foldr].
      assert (0 <= n_bad (long_mem s a be l) 8) by (unfold n_bad; lia).
      assert (∀ ls, 0 <= foldr (fun li n => n_bad (long_mem s a be li) 8 + n) 0 ls) as Hpos.
      { induction ls0; simpl; [lia|]. unfold n_bad at 1. lia. }
      specialize (Hpos ls). intros Esum [->|?]%elem_of_cons; [lia|]. apply IH; [lia|done]. }
    specialize (Hz _ E0). rewrite n_bad_0 in Hz. apply (Hz ltac:(apply elem_of_seqZ; lia) i Hi Ei). }
  unfold wide_post, wide_errors. destruct (wide_bad s a be _ =? 0) eqn:E0.
  { wp_step. rewrite app_nil_r. b2p. split_and!; try done. apply Hwords. by left. }
  assert (wide_exempt s a be szL = false -> wp (_ ← record_address_error a (8 * Z.of_nat szL) false; mret res1)
    (wide_post szL be a s) s1) as Hrec.
  { intros Hex. unfold record_address_error. do 3 wp_step. unfold wide_post, wide_errors. rewrite E0, Hex. simpl. rewrite Hes.
    split_and!; try done; [destruct Hs1; constructor; [by eapply core_ext|done|done]|]. rewrite Hex in Hwords. apply Hwords. by right. }
  unfold wide_post, wide_errors in Hrec. rewrite E0 in Hrec. cbn [orb] in *.
  unfold wide_exempt in Hrec, Hwords |- *. destruct clo_partial_loads_ok eqn:Eclo; cbn [negb andb] in *; [|by apply Hrec].
  wp_step. apply wp_assert; [b2p; by apply (wide_bad_pessim s a be szL res1)|]. rewrite aligned_wide by done.
  destruct ((a mod _ =? 0) && _) eqn:Eex; [|by apply Hrec].
  apply wp_pessimise; [done..|]. intros res2 Hl2 Hlor. rewrite app_nil_r. split_and!; try done.
  intros li Hli. destruct (Hok li Hli) as (v & p & Hv & Hp & Hvr & Hpr & Hb). exists (Z.lor v p).
  split; [by apply Hlor|]. split; [by apply lor_range|]. intros i Hi. destruct (Hb i Hi) as [B1 B2].
  rewrite byte_of_lor, B1, B2. destruct (long_mem s a be li i); [apply Z.lor_0_r|done].
Qed.

(** The fast loop reads aligned words of which all bytes have the same bits. *)
Definition long_uniform s a (res : list Z) (j : Z) : Prop :=
  ∃ k v, (k = 2 ∧ v = V_BITS64_DEFINED ∨ k = 1 ∧ v = V_BITS64_UNDEFINED) ∧ res !! Z.to_nat j = Some v ∧
    ∀ b, b / 8 = (a + 8 * j) / 8 -> vab2 s b = k.

Lemma wp_wide_fast s a js (szL : nat) res (Q : option (list Z) -> mc T -> Prop) : inv L s -> word a -> a mod 8 = 0 ->
  (∀ j, j ∈ js -> 0 <= j < Z.of_nat szL) -> NoDup js -> length res = szL ->
  a + 8 * Z.of_nat szL <= MAX_PRIMARY_ADDRESS + 1 ->
  Q None s ->
  (∀ res', length res' = szL -> (∀ j, 0 <= j -> j ∉ js -> res' !! Z.to_nat j = res !! Z.to_nat j) ->
    (∀ j, j ∈ js -> long_uniform s a res' j) -> Q (Some res') s) ->
  wp (LOADV_128_or_256_fast js a res) Q s.
Proof.
  intros Hs Hw Hal. revert res. induction js as [|j js IH]; intros res Hin Hnd Hl Hmax HN HQ; cbn [LOADV_128_or_256_fast].
  { wp_step. apply HQ; [done|done|]. intros j Hj. set_solver. }
  assert (0 <= j < Z.of_nat szL) as Hj by (apply Hin; by left). rewrite max_primary in Hmax.
  assert (word (a + 8 * j)) as Hwj by (unfold word in *; change (2 ^ 64) with 18446744073709551616 in *; lia).
  assert (u64 (a + 8 * j) = a + 8 * j) as -> by (by apply wrap_small).
  wp_step. apply wp_reading_low; [apply Hs|done|rewrite max_primary; lia|]. wp_step.
  apply wp_get_vabits16; [apply Hs|done|dlia|].
  assert (∀ k v, (k = 2 ∧ v = V_BITS64_DEFINED ∨ k = 1 ∧ v = V_BITS64_UNDEFINED) ->
    byte_at s (a + 8 * j) + 256 * byte_at s (a + 8 * j + 4) = k * 0x5555 ->
    wp (res ← lift (arr_set res j v); LOADV_128_or_256_fast js a res) Q s) as Hstep.
  { intros k v Hk E. wp_step. eapply wp_lift; [apply arr_set_in_range; lia|].
    apply NoDup_cons in Hnd as [Hnj Hnd]. apply IH; [intros; apply Hin; by right|done|by rewrite length_insert|by rewrite max_primary|done|].
    intros res' Hl' Hout Hun. apply HQ; [done| |].
    - intros i Hi Hni. rewrite Hout by (first [done|set_solver]). apply list_lookup_insert_ne. intros E'.
      apply Hni. assert (i = j) as -> by lia. by left.
    - intros i [->|Hi]%elem_of_cons; [|by apply Hun]. exists k, v. split; [done|].
      rewrite Hout by (first [done|lia]). rewrite list_lookup_insert_eq by lia. split; [done|].
      apply uniform16; [apply Hs|destruct Hk as [[-> _]|[-> _]]; lia|dlia|done]. }
  case_bool; [apply (Hstep 2); [by left|done]|]. case_bool; [apply (Hstep 1); [by right|done]|]. by wp_step.
Qed.

Lemma wp_wide s a be (szL : nat) nBits res : inv L s -> word a -> (szL = 2 ∨ szL = 4)%nat -> nBits = 64 * Z.of_nat szL ->
  length res = szL -> wp (mc_LOADV_128_or_256 clo_partial_loads_ok res a nBits be) (wide_post szL be a s) s.
Proof.
  intros Hs Hw Hsz Hn Hl. assert (szL = 1 ∨ szL = 2 ∨ szL = 4)%nat as Hsz' by tauto.
  pose proof (λ res Hl, wp_wide_slow s a be szL nBits res Hs Hsz' Hn Hl) as Hslow.
  destruct (wide_sizes szL nBits Hsz' Hn) as (_ & E2 & _ & _).
  unfold mc_LOADV_128_or_256. rewrite E2. destruct (UNALIGNED_OR_HIGH a nBits) eqn:Eu; [by apply Hslow|].
  assert (a <= MAX_PRIMARY_ADDRESS ∧ a mod (8 * Z.of_nat szL) = 0) as [Hlo Hal].
  { destruct Hsz as [-> | ->]; subst nBits; [apply (low_aligned a (64 * Z.of_nat 2) 4)|apply (low_aligned a (64 * Z.of_nat 4) 5)]; done || lia. }
  wp_step. apply (wp_wide_fast s a _ szL); [done|done| | | |done| | |].
  { destruct Hsz as [-> | ->]; simpl in Hal; dlia. } { intros j Hj. apply elem_of_seqZ in Hj. lia. } { apply NoDup_seqZ. }
  { rewrite max_primary in *. destruct Hsz as [-> | ->]; simpl in *; dlia. } { by apply Hslow. }
  intros res' Hl' _ Hun. wp_step.
  assert (∀ li i, 0 <= li < Z.of_nat szL -> 0 <= i < 8 -> ∃ v, res' !! Z.to_nat li = Some v ∧ 0 <= v < 2 ^ 64 ∧
    long_mem s a be li i = Some (byte_of v i)) as Hmem.
  { intros li i Hli Hi. destruct (Hun li) as (k & v & Hk & Hv & Hb); [apply elem_of_seqZ; lia|].
    exists v. split; [done|]. split; [by destruct Hk as [[_ ->]|[_ ->]]|]. unfold long_mem, mem_at.
    set (o := byte_offset_w 8 be i). assert (0 <= o < 8) by (by apply byte_offset_range).
    assert (a mod 8 = 0) by (destruct Hsz as [-> | ->]; simpl in Hal; dlia). rewrite max_primary in Hlo.
    unfold u64. rewrite wrap_small by (unfold word in Hw; destruct Hsz as [-> | ->]; lia).
    unfold abs, v_of. rewrite Hb by dlia. destruct Hk as [[-> ->]|[-> ->]]; simpl; f_equal; symmetry;
      [by apply (const_bytes _ _ 8)|by apply (const_bytes _ _ 8)]. }
  assert (wide_bad s a be (seqZ 0 (Z.of_nat szL)) = 0) as E0.
  { assert (∀ ls, (∀ li, li ∈ ls -> 0 <= li < Z.of_nat szL) -> wide_bad s a be ls = 0) as Hz.
    { induction ls as [|li ls IH]; intros Hin; [done|]. unfold wide_bad in *. cbn [foldr].
      rewrite IH, Z.add_0_r by (intros; apply Hin; by right). apply n_bad_0. intros i Hi.
      destruct (Hmem li i) as (v & _ & _ & ->); [apply Hin; by left|done|done]. }
    apply Hz. intros li Hli. apply elem_of_seqZ in Hli. lia. }
  split; [done|]. split; [done|]. unfold wide_errors. rewrite E0. split; [by rewrite app_nil_r|]. split; [done|].
  intros li Hli. destruct (Hmem li 0 Hli) as (v & Hv & Hr & _); [lia|]. exists v. split; [done|]. split; [done|].
  intros i Hi. destruct (Hmem li i Hli Hi) as (v' & Hv' & _ & ->). congruence.
Qed.

End Loads.

(** * Properties *)

Section Properties.
Context {T : Type} `{!KeyedSet T} `{!KeyedSetLaws T} `{!Allocator}.
Context (L : gset Z) (L_small : Z.of_nat (size L) < ks_limit) (L_small' : Z.of_nat (size L) <= 2 ^ 27).

(** C27: every load helper, fast or slow, gives the V bits of the bytes it reads, in
    both byte orders, and leaves the shadow memory as it is. If bytes may not be
    accessed an addressing error is reported and they count as defined, unless partial
    loads are accepted, the load is an aligned word of 4, 8, 16 or 32 bytes and one
    byte is valid: then there is no error and they count as undefined. *)
Theorem loads_refine (partial_loads_ok : bool) (a : Z) (be : bool) :
  word a ->
  (∀ szB : nat, (szB = 1 ∨ szB = 2 ∨ szB = 4 ∨ szB = 8)%nat ->
     loads L partial_loads_ok szB be a (mc_LOADVn_slow partial_loads_ok a (8 * Z.of_nat szB) be)) ∧
  loads L partial_loads_ok 8 be a (mc_LOADV64 partial_loads_ok a be) ∧
  loads L partial_loads_ok 4 be a (mc_LOADV32 partial_loads_ok a be) ∧
  loads L partial_loads_ok 2 be a (mc_LOADV16 partial_loads_ok a be) ∧
  loads L partial_loads_ok 1 false a (helperc_LOADV8 partial_loads_ok a) ∧
  ∀ (szL : nat) res s, (szL = 2 ∨ szL = 4)%nat -> length res = szL -> inv L s ->
    wp (mc_LOADV_128_or_256 partial_loads_ok res a (64 * Z.of_nat szL) be) (wide_post L partial_loads_ok szL be a s) s.
Proof.
  intros Hw. split; [|split; [|split; [|split; [|split]]]].
  - intros szB Hsz. by apply loads_slow.
  - by apply loads_64.
  - by apply loads_32.
  - by apply loads_16.
  - by apply loads_8.
  - intros szL res s Hsz Hl Hs. by apply wp_wide.
Qed.

(** C28: every store helper of 1, 4 or 8 bytes, and the slow case of all sizes, stores
    the V bits in the bytes that may be accessed, in both byte orders, changes nothing
    else, and reports one addressing error if there are other bytes. *)
Theorem stores_refine (a v : Z) (be : bool) :
  word a ->
  (∀ szB : nat, (szB = 1 ∨ szB = 2 ∨ szB = 4 ∨ szB = 8)%nat ->
     stores L szB be a v (mc_STOREVn_slow a (8 * Z.of_nat szB) v be)) ∧
  stores L 8 be a v (mc_STOREV64 a v be) ∧
  stores L 4 be a v (mc_STOREV32 a v be) ∧
  stores L 1 false a v (helperc_STOREV8 a v).
Proof.
  intros Hw. split; [|split; [|split]].
  - intros szB Hsz. by apply stores_slow.
  - by apply stores_64.
  - by apply stores_32.
  - by apply stores_8.
Qed.

(** C29: the store of two bytes stores like the others, but an addressing error of an
    aligned store of defined bits below 128 GB is reported twice. *)
Theorem store16_reports_twice (s : mc T) (a v : Z) (be : bool) :
  word a -> inv L s -> store_lines L 2 be a v ->
  wp (mc_STOREV16 a v be) (fun _ s' => inv L s' ∧
    (∀ b, word b -> abs s' b = match stored_byte a 2 be v b with
                               | Some x => (fun _ => x) <$> abs s b | None => abs s b end) ∧
    let bad := bool_decide (abs s a = None ∨ abs s (u64 (a + 1)) = None) in
    let twice := (v =? V_BITS16_DEFINED) && negb (UNALIGNED_OR_HIGH a 16) in
    errors s' = errors s ++ (if bad then if twice then [AddrErr a 2 true; AddrErr a 2 true] else [AddrErr a 2 true] else [])) s.
Proof.
  intros Hw Hs HL. eapply wp_mono; [by apply (stores_16 L)|]. intros [] s' (Hs' & Ha & He). split; [done|]. split; [done|].
  rewrite He. f_equal. assert (u64 (a + 0) = a) as E0 by (rewrite Z.add_0_r; by apply wrap_small).
  assert (n_bad (mem_at s a 2 be) 2 = (if abs s a then 0 else 1) + (if abs s (u64 (a + 1)) then 0 else 1)) as En.
  { rewrite !n_bad_S. change (Z.of_nat 0) with 0. change (Z.of_nat 1) with 1. change (n_bad _ 0) with 0.
    destruct be; [change (mem_at s a 2 true 0) with (abs s (u64 (a + 1))); change (mem_at s a 2 true 1) with (abs s (u64 (a + 0)))|
      change (mem_at s a 2 false 0) with (abs s (u64 (a + 0))); change (mem_at s a 2 false 1) with (abs s (u64 (a + 1)))];
      rewrite E0; lia. }
  unfold store_errors. rewrite En. cbv zeta. generalize ((v =? V_BITS16_DEFINED) && negb (UNALIGNED_OR_HIGH a 16)).
  intros twice. destruct (abs s a), (abs s (u64 (a + 1)));
    first [rewrite bool_decide_eq_false_2 by (intros [?|?]; done)|rewrite bool_decide_eq_true_2 by tauto]; by destruct twice.
Qed.

End Properties.

(** * Witnesses *)

(** The bytes of a word: undefined, partially defined, no access, defined. *)
Example access_run :
  (s ← init_shadow_memory (T := OSet);
   r ← (_ ← for_each (seqZ 400 4) (fun a => set_vabits2 a VA_BITS2_UNDEFINED);
        _ ← set_vabits2 402 VA_BITS2_NOACCESS;
        _ ← mc_STOREV16 400 0x0fff false; _ ← helperc_STOREV8 403 0;
        x ← mc_LOADV32 true 400 false; y ← mc_LOADV32 false 400 true; mret (x, y)) s;
   Ret (r.1, errors r.2)) =
  Ret ((0xffffffff00ff0fff, 0xffffffffff0f0000), [AddrErr 400 4 false]).
Proof. vm_compute. reflexivity. Qed.

Lemma loads_refine_witness : ∃ (s s' : mc OSet) (v : Z),
  helperc_LOADV8 true 200 s = Ret (v, s') ∧ byte_of v 0 = 255 ∧ errors s' = errors s.
Proof.
  destruct demo_shadow as (s & Hs & Ea).
  destruct (loads_refine demo_lines ltac:(done) ltac:(done) true 200 false) as (_ & _ & _ & _ & H8 & _); [done|].
  destruct (H8 s Hs) as (v & s' & E & _ & _ & He & Hl). exists s, s', v. split; [exact E|].
  assert (mem_at s 200 (Z.of_nat 1) false 0 = Some 255) as Hm by exact Ea. split.
  - destruct Hl as [_ Hb]. rewrite (Hb 0) by done. by rewrite Hm.
  - rewrite He. unfold load_errors. rewrite (proj2 (n_bad_0 _ 1)); [by rewrite app_nil_r|].
    intros i Hi. assert (i = 0) as -> by lia. by rewrite Hm.
Defined.

Lemma stores_refine_witness : ∃ s s' : mc OSet, helperc_STOREV8 200 15 s = Ret (tt, s') ∧ abs s' 200 = Some 15.
Proof.
  destruct demo_shadow as (s & Hs & Ea).
  destruct (stores_refine demo_lines ltac:(done) ltac:(done) 200 15 false) as (_ & _ & _ & H8); [done|].
  destruct (H8 s Hs) as ([] & s' & E & _ & Hb & _).
  - intros i Hi _. assert (i = 0) as -> by lia. done.
  - exists s, s'. split; [exact E|]. rewrite Hb by done. by rewrite Ea.
Defined.

Lemma store16_reports_twice_witness : ∃ s s' : mc OSet, mc_STOREV16 300 0 false s = Ret (tt, s') ∧
  errors s = [] ∧ errors s' = [AddrErr 300 2 true; AddrErr 300 2 true].
Proof.
  destruct (init_shadow_memory_inv (T := OSet) demo_lines) as (s & _ & Hs & He & Ha).
  destruct (store16_reports_twice demo_lines ltac:(done) ltac:(done) s 300 0 false) as ([] & s' & E & _ & _ & He'); [done|exact Hs| |].
  - intros i Hi Hb. exfalso. unfold byte_of in Hb. rewrite Z.shiftr_0_l in Hb. change (Z.land 0 255) with 0 in Hb. lia.
  - exists s, s'. split; [exact E|]. split; [done|]. rewrite He', He, Ha. reflexivity.
Defined.
