(* ===== verification/McPerms.v ===== *)
(** * memcheck/mc_main.c: permissions of address ranges

    [set_address_range_perms], which replaces whole secondary maps by the
    distinguished ones, what is built on it, the copying of the state of a range, and
    the helpers that follow the stack pointer. Origin tracking is off
    ([MC_(clo_mc_level)] is at most 2): its calls are left out, as are the counters and
    the warning about large ranges. *)

From stdpp Require Import gmap fin_maps.
From S2P Require Import Prelude PoolAlloc WordFM OSet McShadow McAccess.
Local Open Scope Z_scope.

(** * Definitions *)

Definition VA_BITS32_UNDEFINED : Z := 0x55555555.
Definition VG_STACK_REDZONE_SZB : Z := 128.
Definition VG_IS_16_ALIGNED (a : Z) : bool := Z.land a 15 =? 0.
Definition get_primary_map_low_offset (a : Z) : Z := Z.shiftr a 16.

(** [while (cond(x)) body], the loops of [set_address_range_perms]. *)
Fixpoint while {T A} (fuel : nat) (cond : A -> bool) (body : A -> M T A) (x : A) : M T A :=
  match fuel with
  | O => lift (Fault OutOfFuel)
  | S fuel => if cond x then body x ≫= while fuel cond body else mret x
  end.

Section Perms.
Context {T : Type} `{!KeyedSet T} `{!Allocator}.
Notation M := (M T).

(** ** Ranges *)

(** [insert_vabits2_into_vabits8( a, vabits2, &(sm->vabits8[SM_OFF(a)]) )] *)
Definition insert_vabits2_at (sm a vabits2 : Z) : M unit :=
  v ← get_vabits8 sm (SM_OFF a);
  put_vabits8 sm (SM_OFF a) (insert_vabits2_into_vabits8 a vabits2 v).

(** The loops change the address [x.1] and the remaining length [x.2]. *)
Definition step1 (sm vabits2 : Z) (x : Z * Z) : M (Z * Z) :=
  _ ← insert_vabits2_at sm x.1 vabits2; mret (u64 (x.1 + 1), u64 (x.2 - 1)).
Definition step8 (sm vabits16 : Z) (x : Z * Z) : M (Z * Z) :=
  _ ← put_vabits16 sm (SM_OFF_16 x.1) vabits16; mret (u64 (x.1 + 8), u64 (x.2 - 8)).

Definition until_8_aligned (sm vabits2 : Z) (x : Z * Z) : M (Z * Z) :=
  while 9 (fun x => negb (VG_IS_8_ALIGNED x.1) && negb (x.2 <? 1)) (step1 sm vabits2) x.
Definition words_of_8 (sm vabits16 : Z) (x : Z * Z) : M (Z * Z) :=
  while (S (Z.to_nat (x.2 / 8))) (fun x => negb (x.2 <? 8)) (step8 sm vabits16) x.
Definition rest_of_bytes (sm vabits2 : Z) (x : Z * Z) : M (Z * Z) :=
  while (S (Z.to_nat x.2)) (fun x => negb (x.2 <? 1)) (step1 sm vabits2) x.

(** [VG_(am_munmap_valgrind)] of a secondary map. *)
Definition unmap (sm : Z) : M unit := modify (fun s => set_secmaps (delete sm (secmaps s)) s).

Definition step64k (example_dsm : Z) (x : Z * Z) : M (Z * Z) :=
  _ ← tl_assert (is_start_of_sm x.1);
  sm_ptr ← get_secmap_ptr x.1;
  sm ← load_ptr sm_ptr;
  _ ← (if negb (is_distinguished_sm sm) then unmap sm else mret tt);
  _ ← store_ptr sm_ptr example_dsm;
  mret (u64 (x.1 + SM_SIZE), u64 (x.2 - SM_SIZE)).

Definition whole_maps (example_dsm : Z) (x : Z * Z) : M (Z * Z) :=
  while (S (Z.to_nat (x.2 / SM_SIZE))) (fun x => negb (x.2 <? SM_SIZE)) (step64k example_dsm) x.

(** Part 1: the first map. The result is the address and [lenA] behind it. *)
Definition sarp_part1 (a lenA aNext vabits2 vabits16 example_dsm : Z) : M (Z * Z) :=
  sm_ptr ← get_secmap_ptr a;
  sm ← load_ptr sm_ptr;
  x ← (if is_distinguished_sm sm && (sm =? example_dsm) then mret (aNext, 0)
       else
         _ ← (if is_distinguished_sm sm then new_sm ← copy_for_writing sm; store_ptr sm_ptr new_sm else mret tt);
         mret (a, lenA));
  sm ← load_ptr sm_ptr;
  x ← until_8_aligned sm vabits2 x;
  x ← words_of_8 sm vabits16 x;
  rest_of_bytes sm vabits2 x.

(** Part 3: the last, partial map. *)
Definition sarp_part3 (a lenB vabits2 vabits16 example_dsm : Z) : M unit :=
  _ ← tl_assert (is_start_of_sm a && (lenB <? SM_SIZE));
  sm_ptr ← get_secmap_ptr a;
  sm ← load_ptr sm_ptr;
  if is_distinguished_sm sm && (sm =? example_dsm) then mret tt
  else
    _ ← (if is_distinguished_sm sm then new_sm ← copy_for_writing sm; store_ptr sm_ptr new_sm else mret tt);
    sm ← load_ptr sm_ptr;
    _ ← (x ← words_of_8 sm vabits16 (a, lenB); rest_of_bytes sm vabits2 x); mret tt.

(** From the label [part2] on. *)
Definition sarp_part2 (a lenA lenB vabits2 vabits16 example_dsm : Z) : M unit :=
  _ ← tl_assert (0 =? lenA);
  x ← whole_maps example_dsm (a, lenB);
  if x.2 =? 0 then mret tt else sarp_part3 x.1 x.2 vabits2 vabits16 example_dsm.

Definition set_address_range_perms (a lenT vabits16 dsm_num : Z) : M unit :=
  let vabits2 := Z.land vabits16 0x3 in
  _ ← tl_assert ((VA_BITS16_NOACCESS =? vabits16) || (VA_BITS16_UNDEFINED =? vabits16) || (VA_BITS16_DEFINED =? vabits16));
  _ ← tl_assert (negb (VA_BITS2_PARTDEFINED =? vabits2));
  if lenT =? 0 then mret tt
  else
    let aNext := u64 (start_of_this_sm a + SM_SIZE) in
    let len_to_next_secmap := u64 (aNext - a) in
    if lenT <=? len_to_next_secmap then
      _ ← sarp_part1 a lenT aNext vabits2 vabits16 dsm_num; mret tt
    else if is_start_of_sm a then sarp_part2 a 0 lenT vabits2 vabits16 dsm_num
    else
      let lenB := u64 (lenT - len_to_next_secmap) in
      x ← sarp_part1 a len_to_next_secmap aNext vabits2 vabits16 dsm_num;
      if lenB =? 0 then mret tt else sarp_part2 x.1 x.2 lenB vabits2 vabits16 dsm_num.

Definition make_mem_noaccess (a len : Z) : M unit :=
  set_address_range_perms a len VA_BITS16_NOACCESS SM_DIST_NOACCESS.
Definition make_mem_undefined (a len : Z) : M unit :=
  set_address_range_perms a len VA_BITS16_UNDEFINED SM_DIST_UNDEFINED.
Definition make_mem_undefined_w_otag (a len otag : Z) : M unit :=
  set_address_range_perms a len VA_BITS16_UNDEFINED SM_DIST_UNDEFINED.
Definition make_mem_defined (a len : Z) : M unit :=
  set_address_range_perms a len VA_BITS16_DEFINED SM_DIST_DEFINED.

Definition make_mem_defined_if_addressable (a len : Z) : M unit :=
  for_each (seqZ 0 len) (fun i =>
    vabits2 ← get_vabits2 (u64 (a + i));
    if negb (VA_BITS2_NOACCESS =? vabits2) then set_vabits2 (u64 (a + i)) VA_BITS2_DEFINED else mret tt).
Definition make_mem_defined_if_noaccess (a len : Z) : M unit :=
  for_each (seqZ 0 len) (fun i =>
    vabits2 ← get_vabits2 (u64 (a + i));
    if VA_BITS2_NOACCESS =? vabits2 then set_vabits2 (u64 (a + i)) VA_BITS2_DEFINED else mret tt).

(** ** Copying the state of a range *)

Definition copy_byte_state (src dst i : Z) : M unit :=
  vabits2 ← get_vabits2 (u64 (src + i));
  _ ← set_vabits2 (u64 (dst + i)) vabits2;
  if VA_BITS2_PARTDEFINED =? vabits2 then
    v ← get_sec_vbits8 (u64 (src + i)); set_sec_vbits8 (u64 (dst + i)) v
  else mret tt.

(** The V bits of one of four bytes whose bits are copied already. *)
Definition copy_sec_vbits (src dst i : Z) : M unit :=
  vabits2 ← get_vabits2 (u64 (src + i));
  if VA_BITS2_PARTDEFINED =? vabits2 then
    v ← get_sec_vbits8 (u64 (src + i)); set_sec_vbits8 (u64 (dst + i)) v
  else mret tt.

Definition copy_word_state (src dst i : Z) : M unit :=
  vabits8 ← get_vabits8_for_aligned_word32 (u64 (src + i));
  _ ← set_vabits8_for_aligned_word32 (u64 (dst + i)) vabits8;
  if (VA_BITS8_DEFINED =? vabits8) || (VA_BITS8_UNDEFINED =? vabits8) || (VA_BITS8_NOACCESS =? vabits8) then mret tt
  else
    _ ← copy_sec_vbits src dst i; _ ← copy_sec_vbits src dst (i + 1);
    _ ← copy_sec_vbits src dst (i + 2); copy_sec_vbits src dst (i + 3).

Definition copy_address_range_state (src dst len : Z) : M unit :=
  if (len =? 0) || (src =? dst) then mret tt
  else
    let aligned := VG_IS_4_ALIGNED src && VG_IS_4_ALIGNED dst in
    let nooverlap := (u64 (src + len) <=? dst) || (u64 (dst + len) <=? src) in
    if nooverlap && aligned then
      let words := len / 4 in
      _ ← for_each (seqZ 0 words) (fun k => copy_word_state src dst (4 * k));
      for_each (seqZ (4 * words) (len - 4 * words)) (copy_byte_state src dst)
    else
      _ ← (if src <? dst then for_each (reverse (seqZ 0 len)) (copy_byte_state src dst) else mret tt);
      if dst <? src then for_each (seqZ 0 len) (copy_byte_state src dst) else mret tt.

(** ** The stack *)

Definition make_aligned_word32_undefined (a : Z) : M unit :=
  if MAX_PRIMARY_ADDRESS <? a then make_mem_undefined a 4
  else sm ← get_secmap_for_writing_low a; put_vabits8 sm (SM_OFF a) VA_BITS8_UNDEFINED.
Definition make_aligned_word32_noaccess (a : Z) : M unit :=
  if MAX_PRIMARY_ADDRESS <? a then make_mem_noaccess a 4
  else sm ← get_secmap_for_writing_low a; put_vabits8 sm (SM_OFF a) VA_BITS8_NOACCESS.
Definition make_aligned_word64_undefined (a : Z) : M unit :=
  if MAX_PRIMARY_ADDRESS <? a then make_mem_undefined a 8
  else sm ← get_secmap_for_writing_low a; put_vabits16 sm (SM_OFF_16 a) VA_BITS16_UNDEFINED.
Definition make_aligned_word64_noaccess (a : Z) : M unit :=
  if MAX_PRIMARY_ADDRESS <? a then make_mem_noaccess a 8
  else sm ← get_secmap_for_writing_low a; put_vabits16 sm (SM_OFF_16 a) VA_BITS16_NOACCESS.

(** [-VG_STACK_REDZONE_SZB + new_SP + o] *)
Definition below_redzone (new_SP o : Z) : Z := u64 (new_SP - VG_STACK_REDZONE_SZB + o).

Definition mc_new_mem_stack_4 (new_SP : Z) : M unit :=
  if VG_IS_4_ALIGNED (below_redzone new_SP 0) then make_aligned_word32_undefined (below_redzone new_SP 0)
  else make_mem_undefined (below_redzone new_SP 0) 4.
Definition mc_die_mem_stack_4 (new_SP : Z) : M unit :=
  if VG_IS_4_ALIGNED (below_redzone new_SP 0) then make_aligned_word32_noaccess (below_redzone new_SP (-4))
  else make_mem_noaccess (below_redzone new_SP (-4)) 4.

Definition mc_new_mem_stack_8 (new_SP : Z) : M unit :=
  if VG_IS_8_ALIGNED (below_redzone new_SP 0) then make_aligned_word64_undefined (below_redzone new_SP 0)
  else if VG_IS_4_ALIGNED (below_redzone new_SP 0) then
    _ ← make_aligned_word32_undefined (below_redzone new_SP 0);
    make_aligned_word32_undefined (below_redzone new_SP 4)
  else make_mem_undefined (below_redzone new_SP 0) 8.
Definition mc_die_mem_stack_8 (new_SP : Z) : M unit :=
  if VG_IS_8_ALIGNED (below_redzone new_SP 0) then make_aligned_word64_noaccess (below_redzone new_SP (-8))
  else if VG_IS_4_ALIGNED (below_redzone new_SP 0) then
    _ ← make_aligned_word32_noaccess (below_redzone new_SP (-8));
    make_aligned_word32_noaccess (below_redzone new_SP (-4))
  else make_mem_noaccess (below_redzone new_SP (-8)) 8.

Definition mc_new_mem_stack_12 (new_SP : Z) : M unit :=
  if VG_IS_8_ALIGNED (below_redzone new_SP 0) then
    _ ← make_aligned_word64_undefined (below_redzone new_SP 0);
    make_aligned_word32_undefined (below_redzone new_SP 8)
  else if VG_IS_4_ALIGNED (below_redzone new_SP 0) then
    _ ← make_aligned_word32_undefined (below_redzone new_SP 0);
    make_aligned_word64_undefined (below_redzone new_SP 4)
  else make_mem_undefined (below_redzone new_SP 0) 12.
Definition mc_die_mem_stack_12 (new_SP : Z) : M unit :=
  if VG_IS_8_ALIGNED (below_redzone new_SP (-12)) then
    _ ← make_aligned_word64_noaccess (below_redzone new_SP (-12));
    make_aligned_word32_noaccess (below_redzone new_SP (-4))
  else if VG_IS_4_ALIGNED (below_redzone new_SP 0) then
    _ ← make_aligned_word32_noaccess (below_redzone new_SP (-12));
    make_aligned_word64_noaccess (below_redzone new_SP (-8))
  else make_mem_noaccess (below_redzone new_SP (-12)) 12.

Definition mc_new_mem_stack_16 (new_SP : Z) : M unit :=
  if VG_IS_8_ALIGNED (below_redzone new_SP 0) then
    _ ← make_aligned_word64_undefined (below_redzone new_SP 0);
    make_aligned_word64_undefined (below_redzone new_SP 8)
  else if VG_IS_4_ALIGNED (below_redzone new_SP 0) then
    _ ← make_aligned_word32_undefined (below_redzone new_SP 0);
    _ ← make_aligned_word64_undefined (below_redzone new_SP 4);
    make_aligned_word32_undefined (below_redzone new_SP 12)
  else make_mem_undefined (below_redzone new_SP 0) 16.
Definition mc_die_mem_stack_16 (new_SP : Z) : M unit :=
  if VG_IS_8_ALIGNED (below_redzone new_SP 0) then
    _ ← make_aligned_word64_noaccess (below_redzone new_SP (-16));
    make_aligned_word64_noaccess (below_redzone new_SP (-8))
  else if VG_IS_4_ALIGNED (below_redzone new_SP 0) then
    _ ← make_aligned_word32_noaccess (below_redzone new_SP (-16));
    _ ← make_aligned_word64_noaccess (below_redzone new_SP (-12));
    make_aligned_word32_noaccess (below_redzone new_SP (-4))
  else make_mem_noaccess (below_redzone new_SP (-16)) 16.

Definition mc_new_mem_stack_32 (new_SP : Z) : M unit :=
  if VG_IS_8_ALIGNED (below_redzone new_SP 0) then
    _ ← make_aligned_word64_undefined (below_redzone new_SP 0);
    _ ← make_aligned_word64_undefined (below_redzone new_SP 8);
    _ ← make_aligned_word64_undefined (below_redzone new_SP 16);
    make_aligned_word64_undefined (below_redzone new_SP 24)
  else if VG_IS_4_ALIGNED (below_redzone new_SP 0) then
    _ ← make_aligned_word32_undefined (below_redzone new_SP 0);
    _ ← make_aligned_word64_undefined (below_redzone new_SP 4);
    _ ← make_aligned_word64_undefined (below_redzone new_SP 12);
    _ ← make_aligned_word64_undefined (below_redzone new_SP 20);
    make_aligned_word32_undefined (below_redzone new_SP 28)
  else make_mem_undefined (below_redzone new_SP 0) 32.
Definition mc_die_mem_stack_32 (new_SP : Z) : M unit :=
  if VG_IS_8_ALIGNED (below_redzone new_SP 0) then
    _ ← make_aligned_word64_noaccess (below_redzone new_SP (-32));
    _ ← make_aligned_word64_noaccess (below_redzone new_SP (-24));
    _ ← make_aligned_word64_noaccess (below_redzone new_SP (-16));
    make_aligned_word64_noaccess (below_redzone new_SP (-8))
  else if VG_IS_4_ALIGNED (below_redzone new_SP 0) then
    _ ← make_aligned_word32_noaccess (below_redzone new_SP (-32));
    _ ← make_aligned_word64_noaccess (below_redzone new_SP (-28));
    _ ← make_aligned_word64_noaccess (below_redzone new_SP (-20));
    _ ← make_aligned_word64_noaccess (below_redzone new_SP (-12));
    make_aligned_word32_noaccess (below_redzone new_SP (-4))
  else make_mem_noaccess (below_redzone new_SP (-32)) 32.

(** [n] calls for the words of 8 bytes from [o] on. *)
Definition words64 (f : Z -> M unit) (new_SP o : Z) (n : Z) : M unit :=
  for_each (seqZ 0 n) (fun k => f (below_redzone new_SP (o + 8 * k))).

Definition mc_new_mem_stack_112 (new_SP : Z) : M unit :=
  if VG_IS_8_ALIGNED (below_redzone new_SP 0) then words64 make_aligned_word64_undefined new_SP 0 14
  else make_mem_undefined (below_redzone new_SP 0) 112.
Definition mc_die_mem_stack_112 (new_SP : Z) : M unit :=
  if VG_IS_8_ALIGNED (below_redzone new_SP 0) then words64 make_aligned_word64_noaccess new_SP (-112) 14
  else make_mem_noaccess (below_redzone new_SP (-112)) 112.
Definition mc_new_mem_stack_128 (new_SP : Z) : M unit :=
  if VG_IS_8_ALIGNED (below_redzone new_SP 0) then words64 make_aligned_word64_undefined new_SP 0 16
  else make_mem_undefined (below_redzone new_SP 0) 128.
Definition mc_die_mem_stack_128 (new_SP : Z) : M unit :=
  if VG_IS_8_ALIGNED (below_redzone new_SP 0) then words64 make_aligned_word64_noaccess new_SP (-128) 16
  else make_mem_noaccess (below_redzone new_SP (-128)) 128.
Definition mc_new_mem_stack_144 (new_SP : Z) : M unit :=
  if VG_IS_8_ALIGNED (below_redzone new_SP 0) then words64 make_aligned_word64_undefined new_SP 0 18
  else make_mem_undefined (below_redzone new_SP 0) 144.
Definition mc_die_mem_stack_144 (new_SP : Z) : M unit :=
  if VG_IS_8_ALIGNED (below_redzone new_SP 0) then words64 make_aligned_word64_noaccess new_SP (-144) 18
  else make_mem_noaccess (below_redzone new_SP (-144)) 144.
Definition mc_new_mem_stack_160 (new_SP : Z) : M unit :=
  if VG_IS_8_ALIGNED (below_redzone new_SP 0) then words64 make_aligned_word64_undefined new_SP 0 20
  else make_mem_undefined (below_redzone new_SP 0) 160.
Definition mc_die_mem_stack_160 (new_SP : Z) : M unit :=
  if VG_IS_8_ALIGNED (below_redzone new_SP 0) then words64 make_aligned_word64_noaccess new_SP (-160) 20
  else make_mem_noaccess (below_redzone new_SP (-160)) 160.
Definition mc_new_mem_stack (a len : Z) : M unit := make_mem_undefined (below_redzone a 0) len.
Definition mc_die_mem_stack (a len : Z) : M unit := make_mem_noaccess (below_redzone a 0) len.

(** [p[0] = ... = p[n - 1] = VA_BITS16_UNDEFINED] *)
Definition fill16 (sm v_off16 n : Z) : M unit :=
  for_each (seqZ 0 n) (fun k => put_vabits16 sm (v_off16 + k) VA_BITS16_UNDEFINED).

(** A [UInt] of a map, [sm->vabits8[i]] to [sm->vabits8[i + 3]]. *)
Definition put_vabits32 (sm i v : Z) : M unit :=
  _ ← put_vabits8 sm i (Z.land v 0xff); _ ← put_vabits8 sm (i + 1) (Z.land (Z.shiftr v 8) 0xff);
  _ ← put_vabits8 sm (i + 2) (Z.land (Z.shiftr v 16) 0xff); put_vabits8 sm (i + 3) (Z.land (Z.shiftr v 24) 0xff).
Definition fill32 (sm v_off n : Z) : M unit :=
  for_each (seqZ 0 n) (fun k => put_vabits32 sm (v_off + 4 * k) VA_BITS32_UNDEFINED).

(** Is the range of [len] bytes in one map of the primary map? *)
Definition in_one_primary_map (base len : Z) : bool :=
  let a_hi := u64 (base + len - 1) in
  (a_hi <=? MAX_PRIMARY_ADDRESS) && (get_primary_map_low_offset base =? get_primary_map_low_offset a_hi).

(** The cases 128 and 288 of [helperc_MAKE_STACK_UNINIT_no_o]. The result is
    whether the fast case applied. *)
Definition UNINIT_no_o_fast (base len n : Z) : M bool :=
  if (len =? n) && VG_IS_8_ALIGNED base then
    _ ← tl_assert (base <? u64 (base + n - 1));
    if in_one_primary_map base n then
      sm ← get_secmap_for_writing_low base; _ ← fill16 sm (SM_OFF_16 base) (n / 8); mret true
    else mret false
  else mret false.
Definition helperc_MAKE_STACK_UNINIT_no_o (base len : Z) : M unit :=
  isdone ← UNINIT_no_o_fast base len 128;
  if isdone : bool then mret tt
  else
    isdone ← UNINIT_no_o_fast base len 288;
    if isdone : bool then mret tt else make_mem_undefined base len.

Definition helperc_MAKE_STACK_UNINIT_128_no_o (base : Z) : M unit :=
  if VG_IS_16_ALIGNED base && in_one_primary_map base 128 then
    sm ← get_secmap_for_writing_low base; fill32 sm (SM_OFF base) 8
  else if VG_IS_16_ALIGNED (u64 (base + 8)) && in_one_primary_map base 128 then
    sm ← get_secmap_for_writing_low base;
    let v_off16 := SM_OFF_16 base in
    _ ← put_vabits16 sm v_off16 VA_BITS16_UNDEFINED;
    _ ← fill32 sm (2 * (v_off16 + 1)) 7;
    put_vabits16 sm (v_off16 + 15) VA_BITS16_UNDEFINED
  else make_mem_undefined base 128.

End Perms.

(** * Lemmas *)

(** ** Ranges *)

(** The bits of [n] bytes from [a] on. *)
Definition range_bits (a n v b : Z) : option Z := if (a <=? b) && (b <? a + n) then Some v else None.

Definition plain (v : Z) : Prop := v = VA_BITS2_NOACCESS ∨ v = VA_BITS2_UNDEFINED ∨ v = VA_BITS2_DEFINED.

Lemma range_bits_ok a n v : plain v -> bits_ok (range_bits a n v).
Proof. intros Hv b x. unfold range_bits. case_bool; [by intros [= <-]|done]. Qed.

Lemma u64_small a : word a -> u64 a = a.
Proof. apply wrap_small. Qed.

Lemma block_range n a b : 0 < n -> a mod n = 0 -> b / n = a / n <-> a <= b < a + n.
Proof.
  intros Hn Ha. pose proof (Z.div_mod b n ltac:(lia)). pose proof (Z.div_mod a n ltac:(lia)).
  pose proof (Z.mod_pos_bound b n Hn). split; intros E; [rewrite E in *; lia|nia].
Qed.

(** A loop whose body decreases a measure keeps an invariant and ends. *)
Lemma wp_while {T A} (I : A -> mc T -> Prop) (measure : A -> nat) fuel cond (body : A -> M T A) x s
    (Q : A -> mc T -> Prop) :
  I x s -> (measure x < fuel)%nat ->
  (∀ y s', I y s' -> cond y = true -> wp (body y) (fun z s'' => I z s'' ∧ (measure z < measure y)%nat) s') ->
  (∀ y s', I y s' -> cond y = false -> Q y s') ->
  wp (while fuel cond body x) Q s.
Proof.
  intros HI Hf Hb HQ. revert x s HI Hf. induction fuel as [|fuel IH]; intros x s HI Hf; simpl; [lia|].
  destruct (cond x) eqn:Ex; [|by apply wp_ret, HQ].
  wp_step. eapply wp_mono; [by apply Hb|]. intros z s' [HIz Hz]. apply IH; [done|lia].
Qed.

Section Ranges.
Context {T : Type} `{!KeyedSet T} `{!KeyedSetLaws T} `{!Allocator}.
Context (L : gset Z).
Implicit Types (s : mc T) (a b : Z).

(** The bytes of a range were set, the others stayed the same. *)
Definition ranged s s' a n v : Prop := inv L s' ∧ abs_set s s' (range_bits a n v).

Lemma ranged_app s s1 s' a n m v :
  0 <= n -> 0 <= m -> ranged s s1 a n v -> ranged s1 s' (a + n) m v -> ranged s s' a (n + m) v.
Proof.
  intros Hn Hm [_ [E1 B1]] [Hi [E2 B2]]. split; [done|]. split; [congruence|]. intros b Hb.
  rewrite B2, B1 by done. unfold range_bits.
  destruct ((a + n <=? b) && (b <? a + n + m)) eqn:X, ((a <=? b) && (b <? a + n)) eqn:Y,
    ((a <=? b) && (b <? a + (n + m))) eqn:W; b2p; first [done|lia].
Qed.

Lemma ranged_keeps s s' a v : inv L s -> core s' -> keeps s s' -> ranged s s' a 0 v.
Proof.
  intros Hs Hc Hk. split; [by eapply keeps_inv|]. split; [apply Hk|]. intros b Hb. unfold range_bits.
  rewrite (keeps_abs s s') by done. case_bool; [lia|done].
Qed.

Lemma ranged_refl s a v : inv L s -> ranged s s a 0 v.
Proof. intros Hs. apply ranged_keeps; [done|apply Hs|done]. Qed.

Lemma ranged_keeps_l s s1 s' a n v : inv L s -> core s1 -> keeps s s1 -> 0 <= n -> ranged s1 s' a n v -> ranged s s' a n v.
Proof.
  intros Hs Hc Hk Hn Hr. apply (ranged_app s s1 s' a 0); [lia|done|by apply ranged_keeps|by rewrite Z.add_0_r].
Qed.

Lemma ranged_from_bits s s' a n v f : inv L s -> core s' -> plain v -> set_bits s s' f ->
  (∀ b, word b -> f b = range_bits a n v b) -> ranged s s' a n v.
Proof.
  intros Hs Hc Hv [Hb Ht] Hf. apply set_bits_ok; [done|done| |by apply range_bits_ok].
  split; [|done]. intros b Hwb. rewrite Hb, Hf by done. done.
Qed.

(** A block of [n] bytes that is aligned. *)
Lemma ranged_block s s' a n v : inv L s -> core s' -> plain v -> 0 < n -> a mod n = 0 ->
  set_bits s s' (block_bits n a v) -> ranged s s' a n v.
Proof.
  intros Hs Hc Hv Hn Ha Hset. eapply ranged_from_bits; [done..|]. intros b Hb. unfold block_bits, range_bits.
  pose proof (block_range n a b Hn Ha).
  destruct (b / n =? a / n) eqn:X, ((a <=? b) && (b <? a + n)) eqn:Y; b2p; first [done|lia].
Qed.

(** Nothing changes where the bits are set already. *)
Lemma ranged_same s a n v : inv L s -> plain v -> (∀ b, word b -> a <= b < a + n -> vab2 s b = v) -> ranged s s a n v.
Proof.
  intros Hs Hv Hall. eapply ranged_from_bits; [done|apply Hs|done| |done]. split; [|done]. intros b Hb.
  unfold range_bits. case_bool; [|done]. simpl. apply Hall; [done|lia].
Qed.

(** ** The loops over one secondary map *)

Definition same_sm s s' : Prop := ∀ b, sm_at s' b = sm_at s b.

Lemma wp_insert_vabits2_at s a v (Q : unit -> mc T -> Prop) : inv L s -> word a -> plain v ->
  is_distinguished_sm (sm_at s a) = false ->
  (∀ s', ranged s s' a 1 v -> same_sm s s' -> Q tt s') ->
  wp (insert_vabits2_at (sm_at s a) a v) Q s.
Proof.
  intros Hs Hw Hv Hd HQ. assert (0 <= v < 4) as Hv4 by (destruct Hv as [->|[->| ->]]; done).
  unfold insert_vabits2_at. wp_step. apply wp_get_vabits8; [apply Hs|done|].
  pose proof (byte_at_range s a (inv_core L s Hs)) as Hr.
  apply wp_put_vabits8; [apply Hs|done|by apply (insert_extract a a)|done|]. intros s' Hc Hwr Hsm.
  apply HQ; [|done]. apply wrote_set2, set2_bits in Hwr; [|apply Hs|done|done].
  eapply ranged_from_bits; [done..|]. intros b Hb. unfold range_bits.
  destruct (b =? a) eqn:X, ((a <=? b) && (b <? a + 1)) eqn:Y; b2p; first [done|lia].
Qed.

Lemma wp_put_range16 s a v (Q : unit -> mc T -> Prop) : inv L s -> word a -> a mod 8 = 0 -> plain v ->
  is_distinguished_sm (sm_at s a) = false ->
  (∀ s', ranged s s' a 8 v -> same_sm s s' -> Q tt s') ->
  wp (put_vabits16 (sm_at s a) (SM_OFF_16 a) (v * 0x5555)) Q s.
Proof.
  intros Hs Hw Ha Hv Hd HQ. assert (0 <= v < 4) as Hv4 by (destruct Hv as [->|[->| ->]]; done).
  apply (wp_put_vabits16 L); [apply Hs|done..|]. intros s' Hc Hset Hsm. apply HQ; [|done]. by apply ranged_block.
Qed.

(** A loop in steps of [k] bytes through at most [n] of the bytes at [a], which are
    in one secondary map; [N] is the length that the loop counts down. *)
Lemma wp_range_loop s a n N v k (fuel : nat) cond body (Q : Z * Z -> mc T -> Prop) :
  inv L s -> 0 <= a -> 0 <= n <= N -> a + n <= 2 ^ 64 -> N < 2 ^ 64 -> (n = 0 ∨ base_of (a + n - 1) = base_of a) -> 0 < k ->
  n / k < Z.of_nat fuel ->
  is_distinguished_sm (sm_at s a) = false ∨ n = 0 ->
  (∀ m, 0 <= m <= n -> m mod k = 0 -> cond (u64 (a + m), N - m) = true -> k <= n - m) ->
  (∀ m s' (R : Z * Z -> mc T -> Prop), inv L s' -> word (a + m) -> 0 <= m -> m + k <= n -> m mod k = 0 ->
     is_distinguished_sm (sm_at s' (a + m)) = false -> sm_at s' (a + m) = sm_at s a ->
     (∀ s'', ranged s' s'' (a + m) k v -> same_sm s' s'' -> R (u64 (a + m + k), u64 (N - m - k)) s'') ->
     wp (body (a + m, N - m)) R s') ->
  (∀ m s', 0 <= m <= n -> m mod k = 0 -> ranged s s' a m v -> same_sm s s' -> cond (u64 (a + m), N - m) = false ->
     Q (u64 (a + m), N - m) s') ->
  wp (while fuel cond body (u64 a, N)) Q s.
Proof.
  intros Hs Ha Hn Hw HN Hbase Hk Hf Hd Hcond Hbody HQ.
  apply (wp_while (fun x s' => ∃ m, 0 <= m <= n ∧ m mod k = 0 ∧ ranged s s' a m v ∧ same_sm s s' ∧ x = (u64 (a + m), N - m))
    (fun x => Z.to_nat ((n - (N - x.2)) / k))).
  - exists 0. rewrite Z.add_0_r, Z.sub_0_r. split; [lia|]. split; [done|]. split; [by apply ranged_refl|]. by split.
  - cbn [snd]. rewrite Z.sub_diag, Z.sub_0_r. assert (0 <= n / k) by (apply Z.div_pos; lia). lia.
  - intros y s' (m & Hm & Hmk & Hr & Hsm & ->) Hc. pose proof (Hcond m Hm Hmk Hc) as Hkm.
    assert (word (a + m)) as Hwm by (unfold word; lia). rewrite (u64_small (a + m)) in * by done.
    assert (base_of (a + m) = base_of a) as Eb.
    { destruct Hbase as [?|Hbase]; [lia|]. unfold base_of in *. dlia. }
    apply Hbody; [apply Hr|done|lia|lia|done| | |].
    + rewrite Hsm, (sm_at_base s (a + m) a) by done. destruct Hd as [?|?]; [done|lia].
    + by rewrite Hsm, (sm_at_base s (a + m) a).
    + intros s'' Hr' Hsm'. split.
      * exists (m + k). split; [lia|]. split; [rewrite <- Zplus_mod_idemp_l, Hmk; simpl; by apply Z.mod_same; lia|].
        split; [apply (ranged_app s s' s'' a m k v); [lia|lia|done|done]|].
        split; [intros b; by rewrite Hsm', Hsm|]. f_equal; [by rewrite Z.add_assoc|].
        rewrite u64_small by (unfold word; lia). lia.
      * cbn [snd]. rewrite u64_small by (unfold word; lia).
        replace (n - (N - (N - m))) with (n - (N - (N - m - k)) + 1 * k) by lia. rewrite Z.div_add by lia.
        assert (0 <= (n - (N - (N - m - k))) / k) by (apply Z.div_pos; lia). lia.
  - intros y s' (m & Hm & Hmk & Hr & Hsm & ->) Hc. by apply HQ.
Qed.

(** A range that lies in one secondary map, which may be written. *)
Record in_map s a n : Prop := {
  in_map_inv : inv L s;
  in_map_pos : 0 <= a ∧ 0 <= n;
  in_map_end : a + n <= 2 ^ 64 ∧ n < 2 ^ 64;
  in_map_base : n = 0 ∨ base_of (a + n - 1) = base_of a;
  in_map_dist : is_distinguished_sm (sm_at s a) = false ∨ n = 0 }.

Lemma wp_step1 s b m a v (Q : Z * Z -> mc T -> Prop) : inv L s -> word b -> plain v ->
  is_distinguished_sm (sm_at s b) = false -> sm_at s b = a ->
  (∀ s', ranged s s' b 1 v -> same_sm s s' -> Q (u64 (b + 1), u64 (m - 1)) s') ->
  wp (step1 a v (b, m)) Q s.
Proof.
  intros Hs Hw Hv Hd <- HQ. unfold step1. wp_step. apply wp_insert_vabits2_at; [done..|]. intros s' Hr Hsm.
  wp_step. by apply HQ.
Qed.

Lemma wp_rest_of_bytes s a n v sm (Q : Z * Z -> mc T -> Prop) : in_map s a n -> plain v -> n = 0 ∨ sm = sm_at s a ->
  (∀ s', ranged s s' a n v -> same_sm s s' -> Q (u64 (a + n), 0) s') ->
  wp (rest_of_bytes sm v (u64 a, n)) Q s.
Proof.
  intros [Hs [Ha Hn] [He HN] Hb Hd] Hv Esa HQ. unfold rest_of_bytes. apply (wp_range_loop s a n n v 1); try done; try lia.
  - cbn [snd]. rewrite Z.div_1_r. lia.
  - cbn [fst snd]. intros m Hm _ Hc. b2p. lia.
  - intros m s' R Hs' Hw Hm0 Hm _ Hd' Esm HR. destruct Esa as [| ->]; [lia|]. by apply wp_step1.
  - cbn [fst snd]. intros m s' Hm _ Hr Hsm Hc. b2p. assert (m = n) as -> by lia. rewrite Z.sub_diag. by apply HQ.
Qed.

Lemma wp_until_8_aligned s a n v sm (Q : Z * Z -> mc T -> Prop) : in_map s a n -> plain v -> n = 0 ∨ sm = sm_at s a ->
  (∀ m s', 0 <= m <= n -> (a + m) mod 8 = 0 ∨ m = n -> ranged s s' a m v -> same_sm s s' -> Q (u64 (a + m), n - m) s') ->
  wp (until_8_aligned sm v (u64 a, n)) Q s.
Proof.
  intros [Hs [Ha Hn] [He HN] Hb Hd] Hv Esa HQ. unfold until_8_aligned.
  assert (∀ m, VG_IS_8_ALIGNED (u64 (a + m)) = ((a + m) mod 8 =? 0)) as Hal.
  { intros m. rewrite aligned8. unfold u64, wrap. f_equal. change (2 ^ 64) with 18446744073709551616. dlia. }
  remember (Z.min n ((- a) mod 8)) as n' eqn:En'. assert (0 <= n' <= n ∧ n' < 8) by dlia.
  apply (wp_range_loop s a n' n v 1); try done; try lia.
  - destruct (decide (n' = 0)); [by left|right]. destruct Hb as [->|Hb]; [lia|]. clear En'. unfold base_of in *. dlia.
  - rewrite Z.div_1_r. lia.
  - destruct Hd; [by left|right; lia].
  - cbn [fst snd]. intros m Hm _. rewrite Hal. intros Hc. b2p. dlia.
  - intros m s' R Hs' Hw Hm0 Hm _ Hd' Esm HR. destruct Esa as [| ->]; [lia|]. by apply wp_step1.
  - cbn [fst snd]. intros m s' Hm _ Hr Hsm. rewrite Hal. intros Hc. apply HQ; [lia| |done|done].
    apply andb_false_iff in Hc as [Hc|Hc]; b2p; [by left|right; lia].
Qed.

Lemma wp_words_of_8 s a n v sm (Q : Z * Z -> mc T -> Prop) : in_map s a n -> plain v -> n = 0 ∨ sm = sm_at s a ->
  a mod 8 = 0 ∨ n = 0 ->
  (∀ m s', 0 <= m <= n -> ranged s s' a m v -> same_sm s s' -> Q (u64 (a + m), n - m) s') ->
  wp (words_of_8 sm (v * 0x5555) (u64 a, n)) Q s.
Proof.
  intros [Hs [Ha Hn] [He HN] Hb Hd] Hv Esa Hal HQ. unfold words_of_8. apply (wp_range_loop s a n n v 8); try done; try lia.
  - cbn [snd]. assert (0 <= n / 8) by dlia. lia.
  - cbn [fst snd]. intros m Hm _ Hc. b2p. lia.
  - intros m s' R Hs' Hw Hm0 Hm Hm8 Hd' Esm HR. destruct Esa as [| ->]; [lia|]. rewrite <- Esm. unfold step8. wp_step. cbn [fst snd].
    apply wp_put_range16; [done|done| |done|done|].
    { destruct Hal as [Hal|]; [|lia]. rewrite <- Zplus_mod_idemp_l, Hal. done. }
    intros s'' Hr Hsm. wp_step. by apply HR.
  - cbn [fst snd]. intros m s' Hm _ Hr Hsm Hc. by apply HQ.
Qed.

Lemma in_map_drop s s' a n m v : in_map s a n -> 0 <= m <= n -> ranged s s' a m v -> same_sm s s' -> in_map s' (a + m) (n - m).
Proof.
  intros [Hs [Ha Hn] [He HN] Hb Hd] Hm [Hs' _] Hsm. constructor; [done|lia|lia| |].
  - destruct (decide (n = m)) as [|]; [left; lia|right]. destruct Hb as [|Hb]; [lia|]. unfold base_of in *. dlia.
  - destruct (decide (n = m)) as [|]; [right; lia|left]. destruct Hb as [|Hb]; [lia|].
    rewrite Hsm, (sm_at_base s (a + m) a); [|unfold base_of in *; dlia]. destruct Hd; [done|lia].
Qed.

Lemma in_map_sm s s' a n m sm : in_map s a n -> n = 0 ∨ sm = sm_at s a -> same_sm s s' -> 0 <= m <= n ->
  n - m = 0 ∨ sm = sm_at s' (a + m).
Proof.
  intros [Hs [Ha Hn] [He HN] Hb Hd] [|E] Hsm Hm; [left; lia|].
  destruct (decide (n = m)); [left; lia|right]. rewrite E, Hsm. apply sm_at_base.
  destruct Hb as [|Hb]; [lia|]. unfold base_of in *. dlia.
Qed.

(** Eight bytes at a time from an aligned address, and the rest. *)
Lemma wp_words_and_bytes s a n v sm (Q : Z * Z -> mc T -> Prop) : in_map s a n -> plain v -> n = 0 ∨ sm = sm_at s a ->
  a mod 8 = 0 ∨ n = 0 -> (∀ s', ranged s s' a n v -> Q (u64 (a + n), 0) s') ->
  wp (x ← words_of_8 sm (v * 0x5555) (u64 a, n); rest_of_bytes sm v x) Q s.
Proof.
  intros Hi Hv Esm Ha HQ. wp_step. apply wp_words_of_8; [done..|]. intros m s1 Hm Hr1 Hs1. cbv beta.
  apply wp_rest_of_bytes; [by eapply in_map_drop|done|by eapply in_map_sm|]. intros s2 Hr2 _.
  replace (a + m + (n - m)) with (a + n) by lia. apply HQ. replace n with (m + (n - m)) by lia.
  eapply ranged_app; [lia|lia|done..].
Qed.

Lemma wp_one_map s a n v sm (Q : Z * Z -> mc T -> Prop) : in_map s a n -> plain v -> n = 0 ∨ sm = sm_at s a ->
  (∀ s', ranged s s' a n v -> Q (u64 (a + n), 0) s') ->
  wp (x ← until_8_aligned sm v (u64 a, n); x ← words_of_8 sm (v * 0x5555) x; rest_of_bytes sm v x) Q s.
Proof.
  intros Hi Hv Esm HQ. wp_step. apply wp_until_8_aligned; [done..|]. intros m s1 Hm Hal Hr1 Hs1. cbv beta.
  apply wp_words_and_bytes; [by eapply in_map_drop|done|by eapply in_map_sm|destruct Hal; [by left|right; lia]|].
  intros s2 Hr2. replace (a + m + (n - m)) with (a + n) by lia. apply HQ. replace n with (m + (n - m)) by lia.
  eapply ranged_app; [lia|lia|done..].
Qed.

End Ranges.
(** ** Whole secondary maps *)

Section Maps.
Context {T : Type} `{!KeyedSet T} `{!KeyedSetLaws T} `{!Allocator}.
Context (L : gset Z).
Implicit Types (s : mc T) (a b : Z).

Lemma plain_dist v : plain v -> is_distinguished_sm v = true.
Proof. intros [->|[->| ->]]; done. Qed.

(** The bytes of a distinguished map. *)
Lemma dist_vab2 s b v : core s -> plain v -> sm_at s b = v -> vab2 s b = v.
Proof.
  intros Hs Hv E. destruct (core_dist s Hs v (plain_dist v Hv)) as (m & Hm & Hall).
  unfold vab2, byte_at. rewrite E, Hm, Hall. apply extract_uniform. destruct Hv as [->|[->| ->]]; done.
Qed.

(** A map that no address uses may be given back. *)
Definition without_map s k : mc T := set_secmaps (delete k (secmaps s)) s.

Lemma without_map_ok s k : core s -> is_distinguished_sm k = false -> (∀ b, word b -> sm_at s b ≠ k) ->
  core (without_map s k) ∧ keeps s (without_map s k).
Proof.
  intros Hs Hd Hk. assert (∀ b, sm_at (without_map s k) b = sm_at s b) as Esm by done. split; [|split; [|done]].
  - constructor; simpl; try apply Hs.
    + intros d Hdd. rewrite lookup_delete_ne by (intros <-; congruence). by apply Hs.
    + intros k' m i [_ Hm]%lookup_delete_Some. by eapply core_bytes.
    + intros b Hb. rewrite Esm, lookup_delete_ne by (by apply not_eq_sym, Hk). by apply Hs.
  - intros b Hb. unfold byte_at. rewrite Esm. simpl. by rewrite lookup_delete_ne by (by apply not_eq_sym, Hk).
Qed.

Lemma wp_store_ptr_without s a p k sm (Q : unit -> mc T -> Prop) : core s -> word a -> ptr_for s a p ->
  Q tt (without_map (stored s p sm) k) -> wp (store_ptr p sm) Q (without_map s k).
Proof.
  intros Hs Hw Hp HQ. destruct p as [ix|e]; simpl in *.
  - destruct Hp as [Ha ->]. rewrite primary_index by done. by apply wp_modify.
  - pose proof (ptr_ent s a e Hs Hp) as He. rewrite He in HQ. wp_step. exists (base_of a, sm_at s a), (without_map s k).
    split; [|by apply wp_modify]. unfold load_ent. simpl. by rewrite He.
Qed.

Lemma is_start a : is_start_of_sm a = (base_of a =? a).
Proof.
  unfold is_start_of_sm, start_of_this_sm. change SM_MASK with 0xFFFF. by rewrite base_of_land.
Qed.

(** The map of 64 KB is replaced by a distinguished one. *)
Lemma stored_bits s a p v : core s -> word a -> ptr_for s a p -> plain v ->
  core (stored s p v) ∧ set_bits s (stored s p v) (block_bits 65536 a v).
Proof.
  intros Hs Hw Hp Hv. assert (core (stored s p v)) as Hc.
  { apply (core_stored s a); [done..| |left; by apply plain_dist].
    destruct (core_dist s Hs v (plain_dist v Hv)) as (m & Hm & _). by eexists. }
  split; [done|]. destruct (stored_same_table s p v) as [Ht Em]. split; [|done]. intros b Hb. unfold block_bits.
  assert (b / 65536 =? a / 65536 = (base_of b =? base_of a)) as ->.
  { unfold base_of. destruct (b / 65536 =? a / 65536) eqn:X, (b / 65536 * 65536 =? a / 65536 * 65536) eqn:Y; b2p; first [done|lia]. }
  pose proof (sm_at_stored s a p v b Hs Hp) as E. destruct (base_of b =? base_of a); [by apply dist_vab2|].
  unfold vab2, byte_at. by rewrite E, Em.
Qed.

Lemma wp_step64k s a N v (Q : Z * Z -> mc T -> Prop) : inv L s -> word a -> base_of a = a -> plain v ->
  (∀ s', ranged L s s' a 65536 v -> Q (u64 (a + SM_SIZE), u64 (N - SM_SIZE)) s') ->
  wp (step64k v (a, N)) Q s.
Proof.
  intros Hs Hw Ha Hv HQ. unfold step64k. cbn [fst snd]. wp_step. apply wp_assert; [rewrite is_start, Ha; by apply Z.eqb_refl|].
  wp_step. apply wp_get_secmap_ptr; [apply Hs|done|]. intros p s1 Hc1 Hq Hp.
  pose proof (quiet_inv L s s1 Hc1 Hq Hs) as Hs1. wp_step. apply (wp_load_ptr s1 a); [done..|].
  destruct (stored_bits s1 a p v Hc1 Hw Hp Hv) as [Hc2 Hset].
  assert (ranged L s1 (stored s1 p v) a 65536 v) as Hr.
  { apply ranged_block; try done. unfold base_of in Ha. dlia. }
  assert (∀ s', ranged L s1 s' a 65536 v -> Q (u64 (a + SM_SIZE), u64 (N - SM_SIZE)) s') as HQ1.
  { intros s' Hr'. apply HQ. apply (ranged_keeps_l L s s1); [done|done|by apply quiet_keeps|done|done]. }
  destruct (is_distinguished_sm (sm_at s1 a)) eqn:Ed; simpl.
  - wp_steps. apply (wp_store_ptr s1 a); [done..|]. wp_step. by apply HQ1.
  - wp_step. unfold unmap. apply wp_modify. wp_step. fold (without_map s1 (sm_at s1 a)).
    apply (wp_store_ptr_without s1 a); [done..|]. wp_step. apply HQ1.
    destruct (without_map_ok (stored s1 p v) (sm_at s1 a) Hc2 Ed) as [Hc3 Hk3].
    { intros b Hb. rewrite (sm_at_stored s1 a) by done. case_bool.
      - intros Ev. pose proof (plain_dist v Hv). congruence.
      - intros E'. destruct (core_sep s1 Hc1 b a Hb Hw E') as [|]; congruence. }
    replace 65536 with (65536 + 0) by done. eapply ranged_app; [done|done|exact Hr|].
    apply ranged_keeps; [apply Hr|done|done].
Qed.

Lemma wp_whole_maps s a n v (Q : Z * Z -> mc T -> Prop) : inv L s -> 0 <= a -> a mod 65536 = 0 -> 0 <= n < 2 ^ 64 -> a + n <= 2 ^ 64 ->
  plain v ->
  (∀ m s', m = n / 65536 * 65536 -> ranged L s s' a m v -> Q (u64 (a + m), n - m) s') ->
  wp (whole_maps v (u64 a, n)) Q s.
Proof.
  intros Hs Ha Ha0 Hn He Hv HQ. unfold whole_maps. cbn [snd]. change SM_SIZE with 65536.
  apply (wp_while (fun x s' => ∃ m, 0 <= m <= n ∧ m mod 65536 = 0 ∧ ranged L s s' a m v ∧ x = (u64 (a + m), n - m))
    (fun x => Z.to_nat (x.2 / 65536))).
  - exists 0. rewrite Z.add_0_r, Z.sub_0_r. split; [lia|]. split; [done|]. split; [by apply ranged_refl|]. done.
  - cbn [snd]. lia.
  - cbn [snd]. intros y s' (m & Hm & Hmk & Hr & ->) Hc. cbn [snd] in *. change SM_SIZE with 65536 in *. b2p.
    assert (word (a + m)) as Hwm by (unfold word; lia). rewrite u64_small by done.
    apply wp_step64k; [apply Hr|done|unfold base_of; dlia|done|]. intros s'' Hr'. change SM_SIZE with 65536. split.
    + exists (m + 65536). split; [lia|]. split; [by rewrite <- Zplus_mod_idemp_l, Hmk|]. split; [eapply ranged_app; [lia|lia|done..]|].
      rewrite (u64_small (n - m - 65536)) by (unfold word; lia). f_equal; [by rewrite Z.add_assoc|lia].
    + cbn [snd]. rewrite (u64_small (n - m - 65536)) by (unfold word; lia). dlia.
  - cbn [snd]. intros y s' (m & Hm & Hmk & Hr & ->) Hc. cbn [snd] in *. change SM_SIZE with 65536 in *. b2p. apply HQ; [dlia|done].
Qed.

(** ** [set_address_range_perms] *)

(** Part 1 sets the bytes in the map of [a]. *)
Lemma wp_sarp_part1 s a n aNext v (Q : Z * Z -> mc T -> Prop) : inv L s -> word a -> 0 < n -> a + n <= base_of a + 65536 ->
  aNext = u64 (base_of a + 65536) -> plain v ->
  (∀ e s', ranged L s s' a n v -> (a + n = base_of a + 65536 -> e = u64 (a + n)) -> Q (e, 0) s') ->
  wp (sarp_part1 a n aNext v (v * 0x5555) v) Q s.
Proof.
  intros Hs Hw Hn Hend -> Hv HQ. unfold sarp_part1. wp_step. apply wp_get_secmap_ptr; [apply Hs|done|].
  intros p s1 Hc1 Hq Hp. pose proof (quiet_inv L s s1 Hc1 Hq Hs) as Hs1. wp_step. apply (wp_load_ptr s1 a); [done..|].
  assert (base_of a + 65536 <= 2 ^ 64) as Htop by (unfold base_of, word in *; change (2 ^ 64) with 18446744073709551616 in *; dlia).
  assert (∀ e s', ranged L s1 s' a n v -> (a + n = base_of a + 65536 -> e = u64 (a + n)) -> Q (e, 0) s') as HQ1.
  { intros e s' Hr. apply HQ. apply (ranged_keeps_l L s s1); [done|done|by apply quiet_keeps|lia|done]. }
  wp_step. destruct (is_distinguished_sm (sm_at s1 a) && (sm_at s1 a =? v)) eqn:Ed.
  - apply andb_true_iff in Ed as [_ Ev%Z.eqb_eq]. wp_step. wp_step. apply (wp_load_ptr s1 a); [done..|].
    apply (wp_one_map L s1 (base_of a + 65536) 0); [|done|by left|].
    { constructor; [done| |split; [lia|done]|by left|by right]. unfold base_of, word in *. split; [dlia|done]. }
    intros s2 Hr2. rewrite Z.add_0_r. apply HQ1; [|congruence].
    assert (ranged L s1 s1 a n v) as Hr0.
    { apply ranged_same; [done..|]. intros b Hb Hab. apply dist_vab2; [done..|]. rewrite <- Ev. apply sm_at_base.
      unfold base_of in *. dlia. }
    split; [apply Hr2|]. split; [apply Hr2|]. intros b Hb. destruct Hr2 as (_ & _ & Hr2). rewrite Hr2 by done.
    unfold range_bits at 1. case_bool; [lia|]. by apply Hr0.
  - wp_step. apply (wp_unshare s1 a); [done..|]. intros s2 Hc2 Hk Hp2 Hd2. wp_step. wp_step.
    apply (wp_load_ptr s2 a); [done..|]. rewrite <- (u64_small a) at 2 by done.
    pose proof (keeps_inv L s1 s2 Hc2 Hk Hs1) as Hs2.
    apply (wp_one_map L s2 a n); [|done|by right|].
    { constructor; [done| | | |by left]; pose proof (base_of_le a); [unfold word in *; lia| |unfold base_of in *; right; dlia].
      split; [lia|]. apply (Z.le_lt_trans _ 65536); [lia|done]. }
    intros s3 Hr3. apply HQ1; [|done]. apply (ranged_keeps_l L s1 s2); [done..|lia|done].
Qed.

(** Part 3 sets the bytes of the last map. *)
Lemma wp_sarp_part3 s a n v (Q : unit -> mc T -> Prop) : inv L s -> word a -> base_of a = a -> 0 < n < 65536 -> plain v ->
  (∀ s', ranged L s s' a n v -> Q tt s') ->
  wp (sarp_part3 a n v (v * 0x5555) v) Q s.
Proof.
  intros Hs Hw Ha Hn Hv HQ. unfold sarp_part3. wp_step. apply wp_assert.
  { rewrite is_start, Ha, Z.eqb_refl. simpl. apply Z.ltb_lt. change SM_SIZE with 65536. lia. }
  wp_step. apply wp_get_secmap_ptr; [apply Hs|done|].
  intros p s1 Hc1 Hq Hp. pose proof (quiet_inv L s s1 Hc1 Hq Hs) as Hs1. wp_step. apply (wp_load_ptr s1 a); [done..|].
  assert (∀ s', ranged L s1 s' a n v -> Q tt s') as HQ1.
  { intros s' Hr. apply HQ. apply (ranged_keeps_l L s s1); [done|done|by apply quiet_keeps|lia|done]. }
  destruct (is_distinguished_sm (sm_at s1 a) && (sm_at s1 a =? v)) eqn:Ed.
  - apply andb_true_iff in Ed as [_ Ev%Z.eqb_eq]. wp_step. apply HQ1, ranged_same; [done..|]. intros b Hb Hab. apply dist_vab2; [done..|]. rewrite <- Ev.
    apply sm_at_base. unfold base_of in *. dlia.
  - wp_step. apply (wp_unshare s1 a); [done..|]. intros s2 Hc2 Hk Hp2 Hd2. wp_step.
    apply (wp_load_ptr s2 a); [done..|]. rewrite <- (u64_small a) at 2 by done.
    pose proof (keeps_inv L s1 s2 Hc2 Hk Hs1) as Hs2.
    wp_step. apply (wp_words_and_bytes L s2 a n); [|done|by right|left; unfold base_of in Ha; dlia|].
    { constructor; [done| | | |by left]; unfold word, base_of in *; [lia| |right; dlia].
      change (2 ^ 64) with 18446744073709551616 in *. dlia. }
    intros s3 Hr3. wp_step. apply HQ1. apply (ranged_keeps_l L s1 s2); [done..|lia|done].
Qed.

Lemma wp_sarp_part2 s a n v (Q : unit -> mc T -> Prop) : inv L s -> 0 <= a -> a mod 65536 = 0 -> 0 < n < 2 ^ 64 -> a + n <= 2 ^ 64 ->
  plain v -> (∀ s', ranged L s s' a n v -> Q tt s') ->
  wp (sarp_part2 (u64 a) 0 n v (v * 0x5555) v) Q s.
Proof.
  intros Hs Ha Ha0 Hn He Hv HQ. unfold sarp_part2. wp_step. apply wp_assert; [done|]. wp_step.
  apply wp_whole_maps; [done|done|done|lia|done|done|]. intros m s1 Hm Hr1. cbn [fst snd]. case_bool.
  - wp_step. assert (m = n) as <- by lia. by apply HQ.
  - assert (word (a + m)) as Hwm by (unfold word; dlia). rewrite u64_small by done.
    apply wp_sarp_part3; [apply Hr1|done|unfold base_of; dlia|dlia|done|]. intros s2 Hr2. apply HQ.
    replace n with (m + (n - m)) by lia. eapply ranged_app; [dlia|dlia|done..].
Qed.

Lemma wp_set_address_range_perms s a n v (Q : unit -> mc T -> Prop) : inv L s -> word a -> 0 <= n < 2 ^ 64 -> a + n <= 2 ^ 64 ->
  plain v -> (∀ s', ranged L s s' a n v -> Q tt s') ->
  wp (set_address_range_perms a n (v * 0x5555) v) Q s.
Proof.
  intros Hs Hw Hn He Hv HQ. unfold set_address_range_perms.
  assert (Z.land (v * 0x5555) 0x3 = v) as -> by (destruct Hv as [->|[->| ->]]; done).
  wp_step. apply wp_assert; [destruct Hv as [->|[->| ->]]; done|].
  wp_step. apply wp_assert; [destruct Hv as [->|[->| ->]]; done|].
  case_bool; [wp_step; apply HQ; subst n; by apply ranged_refl|].
  unfold start_of_this_sm. change SM_MASK with 0xFFFF. change SM_SIZE with 65536. rewrite base_of_land, is_start.
  assert (u64 (u64 (base_of a + 65536) - a) = base_of a + 65536 - a) as ->.
  { unfold u64, wrap, base_of, word in *. rewrite Zminus_mod_idemp_l. apply Z.mod_small.
    change (2 ^ 64) with 18446744073709551616 in *. dlia. }
  pose proof (base_of_le a) as Hb. case_bool.
  - wp_step. apply wp_sarp_part1; [done|done|lia|lia|done|done|]. intros e s' Hr _. wp_step. by apply HQ.
  - case_bool.
    + rewrite <- (u64_small a) at 1 by done. apply wp_sarp_part2; [done|apply Hw|unfold base_of in *; dlia|lia|done|done|done].
    + remember (base_of a + 65536 - a) as k eqn:Ek. assert (0 <= a) by apply Hw. wp_step. apply wp_sarp_part1; [done|done|lia|lia|done|done|].
      intros e s1 Hr1 He1. rewrite He1 by lia. cbn [fst snd]. rewrite u64_small by (unfold word; lia). case_bool; [lia|].
      apply wp_sarp_part2; [apply Hr1|lia|subst k; unfold base_of; dlia|lia|lia|done|]. intros s2 Hr2. apply HQ.
      replace n with (k + (n - k)) by lia. eapply ranged_app; [lia|lia|done..].
Qed.

End Maps.
(** ** Code that sets a range, whatever the state *)

Section Setting.
Context {T : Type} `{!KeyedSet T} `{!KeyedSetLaws T} `{!Allocator}.
Context (L : gset Z).
Implicit Types (s : mc T) (a b : Z).

(** [m] sets the bits of [n] bytes from [a] on to [v], and nothing else. *)
Definition sets (m : M T unit) (a n v : Z) : Prop :=
  ∀ s (Q : unit -> mc T -> Prop), inv L s -> (∀ s', ranged L s s' a n v -> Q tt s') -> wp m Q s.

Lemma sets_seq m1 m2 a a' n1 n2 n v : 0 <= n1 -> 0 <= n2 -> sets m1 a n1 v -> sets m2 a' n2 v ->
  a' = a + n1 -> n = n1 + n2 -> sets (_ ← m1; m2) a n v.
Proof.
  intros H1 H2 Hm1 Hm2 -> -> s Q Hs HQ. wp_step. apply Hm1; [done|]. intros s1 Hr1. apply Hm2; [apply Hr1|].
  intros s2 Hr2. apply HQ. by eapply ranged_app.
Qed.

Lemma sets_range a n v : word a -> 0 <= n < 2 ^ 64 -> a + n <= 2 ^ 64 -> plain v ->
  sets (set_address_range_perms a n (v * 0x5555) v) a n v.
Proof. intros Hw Hn He Hv s Q Hs HQ. by apply (wp_set_address_range_perms L). Qed.

Lemma sets_noaccess a n : word a -> 0 <= n < 2 ^ 64 -> a + n <= 2 ^ 64 -> sets (make_mem_noaccess a n) a n VA_BITS2_NOACCESS.
Proof. intros Hw Hn He. apply (sets_range a n VA_BITS2_NOACCESS); [done..|by left]. Qed.
Lemma sets_undefined a n : word a -> 0 <= n < 2 ^ 64 -> a + n <= 2 ^ 64 -> sets (make_mem_undefined a n) a n VA_BITS2_UNDEFINED.
Proof. intros Hw Hn He. apply (sets_range a n VA_BITS2_UNDEFINED); [done..|by right; left]. Qed.
Lemma sets_defined a n : word a -> 0 <= n < 2 ^ 64 -> a + n <= 2 ^ 64 -> sets (make_mem_defined a n) a n VA_BITS2_DEFINED.
Proof. intros Hw Hn He. apply (sets_range a n VA_BITS2_DEFINED); [done..|by right; right]. Qed.

(** ** Aligned words *)

Lemma wp_writing_low s a (Q : Z -> mc T -> Prop) : inv L s -> word a -> a <= MAX_PRIMARY_ADDRESS ->
  (∀ s', inv L s' -> (∀ s'' n v, 0 <= n -> ranged L s' s'' a n v -> ranged L s s'' a n v) ->
     is_distinguished_sm (sm_at s' a) = false -> Q (sm_at s' a) s') ->
  wp (get_secmap_for_writing_low a) Q s.
Proof.
  intros Hs Hw Ha HQ. assert (get_secmap_for_writing_low (T := T) a = get_secmap_for_writing a) as ->.
  { unfold get_secmap_for_writing. by rewrite (proj2 (Z.leb_le _ _) Ha). }
  apply wp_get_secmap_for_writing; [apply Hs|done|]. intros s' Hc Hk Hd. apply HQ; [by eapply keeps_inv| |done].
  intros s'' n v Hn Hr. by apply (ranged_keeps_l L s s').
Qed.

Lemma wp_put_range8 s a v (Q : unit -> mc T -> Prop) : inv L s -> word a -> a mod 4 = 0 -> plain v ->
  is_distinguished_sm (sm_at s a) = false ->
  (∀ s', ranged L s s' a 4 v -> same_sm s s' -> Q tt s') ->
  wp (put_vabits8 (sm_at s a) (SM_OFF a) (v * 85)) Q s.
Proof.
  intros Hs Hw Ha Hv Hd HQ. assert (0 <= v < 4 ∧ 0 <= v * 85 < 256) as [Hv4 Hvb] by (destruct Hv as [->|[->| ->]]; done).
  apply wp_put_vabits8; [apply Hs|done..|]. intros s' Hc Hset Hsm. apply HQ; [|done].
  apply ranged_block; try done. by apply wrote_block.
Qed.

Lemma sets_word32 a v : word a -> a mod 4 = 0 -> plain v ->
  sets (if MAX_PRIMARY_ADDRESS <? a then set_address_range_perms a 4 (v * 0x5555) v
        else sm ← get_secmap_for_writing_low a; put_vabits8 sm (SM_OFF a) (v * 85)) a 4 v.
Proof.
  intros Hw Ha Hv. case_bool.
  - apply sets_range; try done. unfold word in *. change (2 ^ 64) with 18446744073709551616 in *. dlia.
  - intros s Q Hs HQ. wp_step. apply wp_writing_low; [done..|]. intros s1 Hs1 Hk Hd. apply wp_put_range8; [done..|].
    intros s2 Hr2 _. by apply HQ, Hk.
Qed.

Lemma sets_word64 a v : word a -> a mod 8 = 0 -> plain v ->
  sets (if MAX_PRIMARY_ADDRESS <? a then set_address_range_perms a 8 (v * 0x5555) v
        else sm ← get_secmap_for_writing_low a; put_vabits16 sm (SM_OFF_16 a) (v * 0x5555)) a 8 v.
Proof.
  intros Hw Ha Hv. case_bool.
  - apply sets_range; try done. unfold word in *. change (2 ^ 64) with 18446744073709551616 in *. dlia.
  - intros s Q Hs HQ. wp_step. apply wp_writing_low; [done..|]. intros s1 Hs1 Hk Hd. apply (wp_put_range16 L); [done..|].
    intros s2 Hr2 _. by apply HQ, Hk.
Qed.

Lemma sets_word32_undefined a : word a -> a mod 4 = 0 -> sets (make_aligned_word32_undefined a) a 4 VA_BITS2_UNDEFINED.
Proof. intros. apply (sets_word32 a VA_BITS2_UNDEFINED); [done..|by right; left]. Qed.
Lemma sets_word32_noaccess a : word a -> a mod 4 = 0 -> sets (make_aligned_word32_noaccess a) a 4 VA_BITS2_NOACCESS.
Proof. intros. apply (sets_word32 a VA_BITS2_NOACCESS); [done..|by left]. Qed.
Lemma sets_word64_undefined a : word a -> a mod 8 = 0 -> sets (make_aligned_word64_undefined a) a 8 VA_BITS2_UNDEFINED.
Proof. intros. apply (sets_word64 a VA_BITS2_UNDEFINED); [done..|by right; left]. Qed.
Lemma sets_word64_noaccess a : word a -> a mod 8 = 0 -> sets (make_aligned_word64_noaccess a) a 8 VA_BITS2_NOACCESS.
Proof. intros. apply (sets_word64 a VA_BITS2_NOACCESS); [done..|by left]. Qed.

(** ** The stack *)

(** The address [o] bytes from the end of the red zone, if it does not wrap. *)
Lemma below_redzone_word SP o : 0 <= SP - 128 + o < 2 ^ 64 -> below_redzone SP o = SP - 128 + o.
Proof. intros Hr. unfold below_redzone. change VG_STACK_REDZONE_SZB with 128. by apply u64_small. Qed.

Lemma sets_for_each body a k N v : 0 < k -> 0 <= N -> (∀ i, 0 <= i < N -> sets (body i) (a + k * i) k v) ->
  sets (for_each (seqZ 0 N) body) a (k * N) v.
Proof.
  intros Hk HN Hb.
  assert (∀ (n : nat) m, 0 <= m -> m + Z.of_nat n <= N -> sets (for_each (seqZ m (Z.of_nat n)) body) (a + k * m) (k * Z.of_nat n) v) as Hgen.
  { induction n as [|n IH]; intros m Hm Hn.
    - intros s Q Hs HQ. simpl. wp_step. apply HQ. rewrite Z.mul_0_r. by apply ranged_refl.
    - rewrite seqZ_cons by lia. replace (Z.pred (Z.of_nat (S n))) with (Z.of_nat n) by lia. cbn [for_each].
      eapply sets_seq; [| |apply Hb|apply IH| |]; nia. }
  specialize (Hgen (Z.to_nat N) 0). rewrite Z2Nat.id, Z.mul_0_r, Z.add_0_r in Hgen by done. apply Hgen; lia.
Qed.

Lemma sets_words64 f SP o n v :
  (∀ a, word a -> a mod 8 = 0 -> sets (f a) a 8 v) ->
  0 <= n -> 0 <= SP - 128 + o -> SP - 128 + o + 8 * n <= 2 ^ 64 -> (SP - 128 + o) mod 8 = 0 ->
  sets (words64 f SP o n) (SP - 128 + o) (8 * n) v.
Proof.
  intros Hf Hn Ha He Hal. apply sets_for_each; [done|done|]. intros i Hi. rewrite below_redzone_word by lia.
  replace (SP - 128 + (o + 8 * i)) with (SP - 128 + o + 8 * i) by lia. apply Hf; [unfold word; lia|].
  rewrite Z.mul_comm, Z.mod_add by done. exact Hal.
Qed.

Lemma sets_eq m a a' n n' v : sets m a n v -> a = a' -> n = n' -> sets m a' n' v.
Proof. by intros ? -> ->. Qed.

(** Words of 4 and 8 bytes one after the other. *)
Ltac set_leaf lem :=
  eapply sets_eq; [apply lem; [unfold word; lia|first [lia|dlia]..]|first [reflexivity|lia]|first [reflexivity|lia]].
Ltac set_words :=
  lazymatch goal with
  | |- sets (make_mem_undefined _ _) _ _ _ => set_leaf sets_undefined
  | |- sets (make_mem_noaccess _ _) _ _ _ => set_leaf sets_noaccess
  | |- sets (make_aligned_word32_undefined _) _ _ _ => set_leaf sets_word32_undefined
  | |- sets (make_aligned_word32_noaccess _) _ _ _ => set_leaf sets_word32_noaccess
  | |- sets (make_aligned_word64_undefined _) _ _ _ => set_leaf sets_word64_undefined
  | |- sets (make_aligned_word64_noaccess _) _ _ _ => set_leaf sets_word64_noaccess
  | |- sets (words64 make_aligned_word64_undefined _ _ _) _ _ _ =>
      eapply sets_eq; [apply sets_words64; [exact sets_word64_undefined|lia|lia|lia|dlia]|lia|reflexivity]
  | |- sets (words64 make_aligned_word64_noaccess _ _ _) _ _ _ =>
      eapply sets_eq; [apply sets_words64; [exact sets_word64_noaccess|lia|lia|lia|dlia]|lia|reflexivity]
  | |- sets (_ ≫= _) _ _ _ => eapply sets_seq; [| |set_words|set_words|lia|first [reflexivity|lia]]; lia
  end.
Ltac stack_op op :=
  intros Hlo Hhi; unfold op; change VG_STACK_REDZONE_SZB with 128 in *;
  rewrite !below_redzone_word by lia; rewrite ?aligned8, ?aligned4; repeat case_bool; set_words.

(** The stack grows by [n] bytes: they are undefined, below the red zone; it shrinks
    by [n] bytes. *)
Definition grows (n : Z) (f : Z -> M T unit) : Prop :=
  ∀ SP, VG_STACK_REDZONE_SZB <= SP < 2 ^ 64 -> SP - VG_STACK_REDZONE_SZB + n <= 2 ^ 64 ->
    sets (f SP) (SP - VG_STACK_REDZONE_SZB) n VA_BITS2_UNDEFINED.
Definition shrinks (n : Z) (f : Z -> M T unit) : Prop :=
  ∀ SP, VG_STACK_REDZONE_SZB + n <= SP -> SP < 2 ^ 64 ->
    sets (f SP) (SP - VG_STACK_REDZONE_SZB - n) n VA_BITS2_NOACCESS.

Lemma grows_4 : grows 4 mc_new_mem_stack_4.
Proof. intros SP. stack_op (@mc_new_mem_stack_4). Qed.
Lemma shrinks_4 : shrinks 4 mc_die_mem_stack_4.
Proof. intros SP. stack_op (@mc_die_mem_stack_4). Qed.
Lemma grows_8 : grows 8 mc_new_mem_stack_8.
Proof. intros SP. stack_op (@mc_new_mem_stack_8). Qed.
Lemma shrinks_8 : shrinks 8 mc_die_mem_stack_8.
Proof. intros SP. stack_op (@mc_die_mem_stack_8). Qed.
Lemma grows_12 : grows 12 mc_new_mem_stack_12.
Proof. intros SP. stack_op (@mc_new_mem_stack_12). Qed.
Lemma shrinks_12 : shrinks 12 mc_die_mem_stack_12.
Proof. intros SP. stack_op (@mc_die_mem_stack_12). Qed.
Lemma grows_16 : grows 16 mc_new_mem_stack_16.
Proof. intros SP. stack_op (@mc_new_mem_stack_16). Qed.
Lemma shrinks_16 : shrinks 16 mc_die_mem_stack_16.
Proof. intros SP. stack_op (@mc_die_mem_stack_16). Qed.
Lemma grows_32 : grows 32 mc_new_mem_stack_32.
Proof. intros SP. stack_op (@mc_new_mem_stack_32). Qed.
Lemma shrinks_32 : shrinks 32 mc_die_mem_stack_32.
Proof. intros SP. stack_op (@mc_die_mem_stack_32). Qed.

Lemma grows_112 : grows 112 mc_new_mem_stack_112.
Proof. intros SP. stack_op (@mc_new_mem_stack_112). Qed.
Lemma shrinks_112 : shrinks 112 mc_die_mem_stack_112.
Proof. intros SP. stack_op (@mc_die_mem_stack_112). Qed.
Lemma grows_128 : grows 128 mc_new_mem_stack_128.
Proof. intros SP. stack_op (@mc_new_mem_stack_128). Qed.
Lemma shrinks_128 : shrinks 128 mc_die_mem_stack_128.
Proof. intros SP. stack_op (@mc_die_mem_stack_128). Qed.
Lemma grows_144 : grows 144 mc_new_mem_stack_144.
Proof. intros SP. stack_op (@mc_new_mem_stack_144). Qed.
Lemma shrinks_144 : shrinks 144 mc_die_mem_stack_144.
Proof. intros SP. stack_op (@mc_die_mem_stack_144). Qed.
Lemma grows_160 : grows 160 mc_new_mem_stack_160.
Proof. intros SP. stack_op (@mc_new_mem_stack_160). Qed.
Lemma shrinks_160 : shrinks 160 mc_die_mem_stack_160.
Proof. intros SP. stack_op (@mc_die_mem_stack_160). Qed.

Lemma grows_any n : 0 <= n < 2 ^ 64 -> grows n (fun SP => mc_new_mem_stack SP n).
Proof. intros Hn SP. stack_op (@mc_new_mem_stack). Qed.
Lemma shrinks_any n SP : 0 <= n < 2 ^ 64 -> VG_STACK_REDZONE_SZB <= SP < 2 ^ 64 -> SP - VG_STACK_REDZONE_SZB + n <= 2 ^ 64 ->
  sets (mc_die_mem_stack SP n) (SP - VG_STACK_REDZONE_SZB) n VA_BITS2_NOACCESS.
Proof. intros Hn. stack_op (@mc_die_mem_stack). Qed.

(** ** After calls and returns *)

Lemma in_one_map base n : word base -> 0 < n <= 65536 -> base + n <= 2 ^ 64 -> in_one_primary_map base n = true ->
  base <= MAX_PRIMARY_ADDRESS ∧ base_of (base + n - 1) = base_of base.
Proof.
  intros Hw Hn He. unfold in_one_primary_map, get_primary_map_low_offset.
  rewrite u64_small, !shiftr_16 by (unfold word in *; lia). intros Hi. b2p. split; [lia|]. unfold base_of. lia.
Qed.

(** A loop over blocks of [k] bytes in one map. *)
Lemma wp_each_in_map s a k N body v (Q : unit -> mc T -> Prop) : 0 < k -> 0 < N ->
  inv L s -> 0 <= a -> a + k * N <= 2 ^ 64 -> k * N < 2 ^ 64 -> base_of (a + k * N - 1) = base_of a ->
  is_distinguished_sm (sm_at s a) = false ->
  (∀ i s' (R : unit -> mc T -> Prop), 0 <= i < N -> inv L s' -> word (a + k * i) -> sm_at s' (a + k * i) = sm_at s a ->
     is_distinguished_sm (sm_at s' (a + k * i)) = false -> base_of (a + k * i) = base_of a ->
     (∀ s'', ranged L s' s'' (a + k * i) k v -> same_sm s' s'' -> R tt s'') -> wp (body i) R s') ->
  (∀ s', ranged L s s' a (k * N) v -> same_sm s s' -> Q tt s') ->
  wp (for_each (seqZ 0 N) body) Q s.
Proof.
  intros Hk HN Hs Ha He Hlt Hb Hd Hbody HQ.
  eapply wp_mono; [apply (wp_for_each _ _ (fun l s' => ∃ i, l = seqZ i (N - i) ∧ 0 <= i <= N ∧ ranged L s s' a (k * i) v ∧ same_sm s s'))|].
  - exists 0. rewrite Z.sub_0_r, Z.mul_0_r. split; [done|]. split; [lia|]. split; [by apply ranged_refl|done].
  - intros x l s' _ (i & El & Hi & Hr & Hsm). destruct (decide (i = N)) as [->|]; [by rewrite Z.sub_diag in El|].
    rewrite seqZ_cons in El by lia. injection El as -> ->.
    assert (word (a + k * i)) as Hwi by (unfold word; nia).
    assert (base_of (a + k * i) = base_of a) as Ebi.
    { assert (a + k * i <= a + k * N - 1) by nia. assert (a <= a + k * i) by nia. unfold base_of in *. dlia. }
    assert (sm_at s' (a + k * i) = sm_at s a) as Esm by (rewrite Hsm; by apply sm_at_base).
    apply Hbody; [lia|apply Hr|done|done|by rewrite Esm|done|]. intros s'' Hr' Hsm'.
    exists (i + 1). split; [f_equal; lia|]. split; [lia|]. split; [|intros b; by rewrite Hsm', Hsm].
    replace (k * (i + 1)) with (k * i + k) by lia. eapply ranged_app; [nia|lia|done..].
  - intros [] s' (i & El & Hi & Hr & Hsm). apply HQ; [|done]. destruct (decide (i = N)) as [->|]; [done|].
    rewrite seqZ_cons in El by lia. done.
Qed.

Lemma SM_OFF_16_mod a : SM_OFF_16 a = a mod 65536 / 8.
Proof.
  unfold SM_OFF_16. change 0xffff with (Z.ones 16). rewrite Z.land_ones, Z.shiftr_div_pow2 by lia. done.
Qed.

Lemma off_in_map a o : 0 <= o -> base_of (a + o) = base_of a -> (a + o) mod 65536 = a mod 65536 + o.
Proof. intros Ho. unfold base_of. dlia. Qed.

Lemma wp_fill16 s a N (Q : unit -> mc T -> Prop) : 0 < N -> inv L s -> 0 <= a -> a + 8 * N <= 2 ^ 64 -> 8 * N < 2 ^ 64 ->
  a mod 8 = 0 -> base_of (a + 8 * N - 1) = base_of a -> is_distinguished_sm (sm_at s a) = false ->
  (∀ s', ranged L s s' a (8 * N) VA_BITS2_UNDEFINED -> same_sm s s' -> Q tt s') ->
  wp (fill16 (sm_at s a) (SM_OFF_16 a) N) Q s.
Proof.
  intros HN Hs Ha He Hlt Hal Hb Hd HQ. apply (wp_each_in_map s a 8 N _ VA_BITS2_UNDEFINED); try done.
  intros i s' R Hi Hs' Hw Esm Hdi Ebi HR. rewrite <- Esm.
  assert (SM_OFF_16 a + i = SM_OFF_16 (a + 8 * i)) as ->.
  { rewrite !SM_OFF_16_mod, off_in_map by first [done|lia]. rewrite Z.mul_comm, Z.div_add by done. done. }
  apply (wp_put_range16 L s' (a + 8 * i) VA_BITS2_UNDEFINED); [done|done| |by right; left|done|done].
  rewrite Z.mul_comm, Z.mod_add by done. done.
Qed.

(** Sixteen bytes at a time. *)
Lemma wp_put_vabits32 s a (Q : unit -> mc T -> Prop) : inv L s -> word a -> a mod 16 = 0 -> a + 16 <= 2 ^ 64 ->
  is_distinguished_sm (sm_at s a) = false ->
  (∀ s', ranged L s s' a 16 VA_BITS2_UNDEFINED -> same_sm s s' -> Q tt s') ->
  wp (put_vabits32 (sm_at s a) (SM_OFF a) VA_BITS32_UNDEFINED) Q s.
Proof.
  intros Hs Hw Hal He Hd HQ. unfold put_vabits32.
  assert (∀ o, 0 <= o < 16 -> o mod 4 = 0 -> word (a + o) ∧ base_of (a + o) = base_of a ∧ SM_OFF (a + o) = SM_OFF a + o / 4 ∧ (a + o) mod 4 = 0) as Ho.
  { intros o Ho Ho4. rewrite !SM_OFF_mod. unfold word, base_of in *. clear HQ Hd Hs. split; [lia|]. split_and!; dlia. }
  assert (∀ o s' (R : unit -> mc T -> Prop), 0 <= o < 16 -> o mod 4 = 0 -> inv L s' -> same_sm s s' ->
    (∀ s'', ranged L s' s'' (a + o) 4 VA_BITS2_UNDEFINED -> same_sm s s'' -> R tt s'') ->
    wp (put_vabits8 (sm_at s a) (SM_OFF a + o / 4) (VA_BITS2_UNDEFINED * 85)) R s') as Hput.
  { intros o s' R Hob Ho4 Hs' Hsm HR. destruct (Ho o Hob Ho4) as (Hwo & Eb & Eo & Em). rewrite <- Eo.
    assert (sm_at s a = sm_at s' (a + o)) as Esm by (rewrite Hsm; symmetry; by apply sm_at_base). rewrite Esm in Hd |- *.
    apply wp_put_range8; [done|done|done|by right; left|done|]. intros s'' Hr Hsm'. apply HR; [done|].
    intros b. by rewrite Hsm', Hsm. }
  wp_step. change (SM_OFF a) with (SM_OFF a + 0 / 4) at 1 || rewrite <- (Z.add_0_r (SM_OFF a)) at 1.
  apply (Hput 0); [done|done|done|done|]. intros s1 Hr1 Hsm1. rewrite Z.add_0_r in Hr1.
  wp_step. apply (Hput 4); [done|done|apply Hr1|done|]. intros s2 Hr2 Hsm2.
  wp_step. apply (Hput 8); [done|done|apply Hr2|done|]. intros s3 Hr3 Hsm3.
  apply (Hput 12); [done|done|apply Hr3|done|]. intros s4 Hr4 Hsm4. apply HQ; [|done].
  apply (ranged_app L s s3 s4 a 12 4); [done|done| |done].
  apply (ranged_app L s s2 s3 a 8 4); [done|done| |done]. by apply (ranged_app L s s1 s2 a 4 4).
Qed.

Lemma wp_UNINIT_no_o_fast s base len n (Q : bool -> mc T -> Prop) : inv L s -> word base -> base + len <= 2 ^ 64 ->
  n = 128 ∨ n = 288 ->
  (len = n -> ∀ s', ranged L s s' base n VA_BITS2_UNDEFINED -> Q true s') -> Q false s ->
  wp (UNINIT_no_o_fast base len n) Q s.
Proof.
  intros Hs Hw He Hn HT HF. assert (0 < n <= 65536) by (destruct Hn as [-> | ->]; done). assert (n < 2 ^ 64) by (destruct Hn as [-> | ->]; done).
  assert (n = 8 * (n / 8) ∧ 0 < n / 8) as [En Hn8] by (destruct Hn as [-> | ->]; done).
  unfold UNINIT_no_o_fast. rewrite aligned8. destruct ((len =? n) && (base mod 8 =? 0)) eqn:E; [|by wp_step].
  apply andb_true_iff in E as [<-%Z.eqb_eq Hal%Z.eqb_eq]. wp_step.
  apply wp_assert; [apply Z.ltb_lt; rewrite u64_small by (unfold word in *; lia); lia|].
  destruct (in_one_primary_map base len) eqn:Ei; [|by wp_step].
  apply in_one_map in Ei as [Hlow Hb]; [|done|lia|done].
  wp_step. apply (wp_writing_low s); [done..|]. intros s1 Hs1 Hk Hd. wp_step.
  apply wp_fill16; [done|done|apply Hw|lia|lia|done|by rewrite <- En|done|]. intros s2 Hr2 _. wp_step.
  rewrite <- En in Hr2. apply HT; [done|]. by apply Hk; [lia|].
Qed.

Lemma sets_UNINIT_no_o base len : word base -> 0 <= len < 2 ^ 64 -> base + len <= 2 ^ 64 ->
  sets (helperc_MAKE_STACK_UNINIT_no_o base len) base len VA_BITS2_UNDEFINED.
Proof.
  intros Hw Hlen He s Q Hs HQ. unfold helperc_MAKE_STACK_UNINIT_no_o. wp_step.
  apply wp_UNINIT_no_o_fast; [done..|by left| |].
  { intros -> s' Hr. wp_step. by apply HQ. }
  wp_step. apply wp_UNINIT_no_o_fast; [done..|by right| |].
  { intros -> s' Hr. wp_step. by apply HQ. }
  by apply sets_undefined.
Qed.

Lemma aligned16 a : VG_IS_16_ALIGNED a = (a mod 16 =? 0).
Proof. apply (aligned_mod a 4). lia. Qed.

Lemma wp_fill32 s a N (Q : unit -> mc T -> Prop) : 0 < N -> inv L s -> 0 <= a -> a + 16 * N <= 2 ^ 64 -> 16 * N < 2 ^ 64 ->
  a mod 16 = 0 -> base_of (a + 16 * N - 1) = base_of a -> is_distinguished_sm (sm_at s a) = false ->
  (∀ s', ranged L s s' a (16 * N) VA_BITS2_UNDEFINED -> same_sm s s' -> Q tt s') ->
  wp (fill32 (sm_at s a) (SM_OFF a) N) Q s.
Proof.
  intros HN Hs Ha He Hlt Hal Hb Hd HQ. apply (wp_each_in_map s a 16 N _ VA_BITS2_UNDEFINED); try done.
  intros i s' R Hi Hs' Hw Esm Hdi Ebi HR. rewrite <- Esm.
  assert (SM_OFF a + 4 * i = SM_OFF (a + 16 * i)) as ->.
  { rewrite !SM_OFF_mod, off_in_map by first [done|lia]. clear. dlia. }
  apply wp_put_vabits32; [done|done| |nia|done|done].
  rewrite Z.mul_comm, Z.mod_add by done. done.
Qed.

Lemma sets_UNINIT_128_no_o base : word base -> base + 128 <= 2 ^ 64 ->
  sets (helperc_MAKE_STACK_UNINIT_128_no_o base) base 128 VA_BITS2_UNDEFINED.
Proof.
  intros Hw He s Q Hs HQ. unfold helperc_MAKE_STACK_UNINIT_128_no_o. rewrite !aligned16.
  rewrite (u64_small (base + 8)) by (unfold word in *; lia).
  destruct (in_one_primary_map base 128) eqn:Ei; [|rewrite !andb_false_r; by apply sets_undefined].
  apply in_one_map in Ei as [Hlow Hb]; [|done|lia|done]. rewrite !andb_true_r.
  destruct (base mod 16 =? 0) eqn:E0; b2p.
  { wp_step. apply (wp_writing_low s); [done..|]. intros s1 Hs1 Hk Hd.
    apply wp_fill32; [done|done|apply Hw|done|done|done|done|done|]. intros s2 Hr2 _. apply HQ. by apply Hk. }
  destruct ((base + 8) mod 16 =? 0) eqn:E8; b2p; [|by apply sets_undefined].
  assert (base mod 8 = 0) as Hal by (clear -E8; dlia). assert (0 <= base) as Hpos by apply Hw.
  wp_step. apply (wp_writing_low s); [done..|]. intros s1 Hs1 Hk Hd. cbv zeta.
  assert (∀ o, 0 <= o < 128 -> base_of (base + o) = base_of base) as Hbo by (intros o Ho; clear -Hb Ho; unfold base_of in *; dlia).
  wp_step. apply (wp_put_range16 L s1 base VA_BITS2_UNDEFINED); [done..|by right; left|done|]. intros s2 Hr2 Hsm2.
  wp_step. assert (2 * (SM_OFF_16 base + 1) = SM_OFF (base + 8)) as ->.
  { rewrite SM_OFF_16_mod, SM_OFF_mod, off_in_map by first [done|by apply Hbo]. clear -Hal. dlia. }
  assert (sm_at s1 base = sm_at s2 (base + 8)) as E2 by (rewrite Hsm2; symmetry; apply sm_at_base, Hbo; lia).
  rewrite E2 in Hd |- *.
  apply (wp_fill32 s2 (base + 8) 7); [done|apply Hr2|lia|lia|done|done| |done|].
  { rewrite (Hbo 8) by lia. rewrite <- (Hbo 119) by lia. f_equal. lia. }
  intros s3 Hr3 Hsm3. rewrite <- E2.
  assert (SM_OFF_16 base + 15 = SM_OFF_16 (base + 120)) as ->.
  { rewrite !SM_OFF_16_mod, off_in_map by first [done|by apply Hbo]. clear -Hal. dlia. }
  assert (sm_at s1 base = sm_at s3 (base + 120)) as E3 by (rewrite Hsm3, Hsm2; symmetry; apply sm_at_base, Hbo; lia).
  rewrite <- E2, E3 in Hd. rewrite E3.
  apply (wp_put_range16 L s3 (base + 120) VA_BITS2_UNDEFINED); [apply Hr3|unfold word in *; lia|clear -Hal; dlia|by right; left|done|].
  intros s4 Hr4 _. apply HQ, Hk; [done|].
  apply (ranged_app L s1 s3 s4 base 120 8); [done|done| |done]. by apply (ranged_app L s1 s2 s3 base 8 112).
Qed.

End Setting.
(** ** Byte by byte *)

Section Bytewise.
Context {T : Type} `{!KeyedSet T} `{!KeyedSetLaws T} `{!Allocator}.
Context (L : gset Z) (L_small : Z.of_nat (size L) < ks_limit) (L_small' : Z.of_nat (size L) <= 2 ^ 27).
Implicit Types (s : mc T) (a b : Z).

(** The bytes of a range were changed by [g]. *)
Definition mapped s s' a n (g : option Z -> option Z) : Prop :=
  inv L s' ∧ errors s' = errors s ∧
  ∀ b, word b -> abs s' b = if (a <=? b) && (b <? a + n) then g (abs s b) else abs s b.

Lemma wp_set_plain s a v (Q : unit -> mc T -> Prop) : inv L s -> word a -> plain v ->
  (∀ s', ranged L s s' a 1 v -> Q tt s') -> wp (set_vabits2 a v) Q s.
Proof using Type.
  intros Hs Hw Hv HQ. apply wp_set_vabits2; [apply Hs|done|destruct Hv as [->|[->| ->]]; done|].
  intros s' Hc Hset%set2_bits. apply HQ. eapply ranged_from_bits; [done..|]. intros b Hb. unfold range_bits.
  destruct (b =? a) eqn:X, ((a <=? b) && (b <? a + 1)) eqn:Y; b2p; first [done|lia].
Qed.

(** A loop that tests each byte and makes some defined. *)
Lemma wp_defined_if a n (test : Z -> bool) (Q : unit -> mc T -> Prop) s : inv L s -> word a -> 0 <= n -> a + n <= 2 ^ 64 ->
  (∀ s', mapped s s' a n (fun x => if test (default VA_BITS2_NOACCESS ((fun _ => VA_BITS2_DEFINED) <$> x)) then Some V_BITS8_DEFINED else x) -> Q tt s') ->
  (∀ v, 0 <= v < 4 -> test v = if v =? VA_BITS2_NOACCESS then test VA_BITS2_NOACCESS else test VA_BITS2_DEFINED) ->
  wp (for_each (seqZ 0 n) (fun i =>
    vabits2 ← get_vabits2 (u64 (a + i));
    if test vabits2 then set_vabits2 (u64 (a + i)) VA_BITS2_DEFINED else mret tt)) Q s.
Proof using Type.
  intros Hs Hw Hn He HQ Htest. set (g := fun x : option Z => _) in HQ.
  eapply wp_mono; [apply (wp_for_each _ _ (fun l s' => ∃ i, l = seqZ i (n - i) ∧ 0 <= i <= n ∧ mapped s s' a i g))|].
  - exists 0. rewrite Z.sub_0_r. split; [done|]. split; [lia|]. split; [done|]. split; [done|]. intros b Hb. case_bool; [lia|done].
  - intros x l s' _ (i & El & Hi & Hs' & Herr & Hab). destruct (decide (i = n)) as [->|]; [by rewrite Z.sub_diag in El|].
    rewrite seqZ_cons in El by lia. injection El as -> ->.
    assert (word (a + i)) as Hwi by (unfold word in *; lia). rewrite u64_small by done.
    wp_step. apply wp_get_vabits2; [apply Hs'|done|]. intros s1 Hc1 Hq1. pose proof (quiet_inv L s' s1 Hc1 Hq1 Hs') as Hs1.
    assert (test (vab2 s' (a + i)) = test (default VA_BITS2_NOACCESS ((fun _ => VA_BITS2_DEFINED) <$> abs s' (a + i)))) as ->.
    { rewrite Htest by (apply vab2_range, Hs'). destruct (abs s' (a + i)) eqn:Ea; simpl; case_bool; try done.
      - apply abs_noaccess in E. congruence.
      - apply abs_noaccess in Ea. congruence. }
    assert (abs s' (a + i) = abs s (a + i)) as Eai by (rewrite Hab by done; case_bool; [lia|done]). rewrite Eai.
    assert (∀ s2, inv L s2 -> errors s2 = errors s1 -> (∀ b, word b -> abs s2 b = if b =? a + i then g (abs s b) else abs s1 b) ->
      ∃ i0, seqZ (Z.succ i) (Z.pred (n - i)) = seqZ i0 (n - i0) ∧ 0 <= i0 <= n ∧ mapped s s2 a i0 g) as Hend.
    { intros s2 Hs2 He2 Ha2. exists (i + 1). split; [f_equal; lia|]. split; [lia|]. split; [done|]. split.
      - rewrite He2, <- Herr. apply Hq1.
      - intros b Hb. rewrite Ha2 by done. rewrite (quiet_abs s' s1), Hab by done.
        destruct (b =? a + i) eqn:X, ((a <=? b) && (b <? a + i)) eqn:Y, ((a <=? b) && (b <? a + (i + 1))) eqn:W; b2p; first [done|lia]. }
    destruct (test (default VA_BITS2_NOACCESS ((fun _ => VA_BITS2_DEFINED) <$> abs s (a + i)))) eqn:Et.
    + apply wp_set_plain; [done|done|by right; right|]. intros s2 (Hs2 & He2 & Ha2). apply Hend; [done|done|].
      intros b Hb. rewrite Ha2 by done. unfold range_bits.
      destruct (b =? a + i) eqn:X, ((a + i <=? b) && (b <? a + i + 1)) eqn:Y; b2p; try done; try lia.
      subst b. unfold g. by rewrite Et.
    + wp_step. apply Hend; [done|done|]. intros b Hb. case_bool; [|done]. subst b. unfold g. rewrite Et.
      by rewrite (quiet_abs s' s1).
  - intros [] s' (i & El & Hi & Hm). apply HQ. destruct (decide (i = n)) as [->|]; [done|].
    rewrite seqZ_cons in El by lia. done.
Qed.

Lemma wp_defined_if_addressable s a n (Q : unit -> mc T -> Prop) : inv L s -> word a -> 0 <= n -> a + n <= 2 ^ 64 ->
  (∀ s', mapped s s' a n (fmap (fun _ => V_BITS8_DEFINED)) -> Q tt s') -> wp (make_mem_defined_if_addressable a n) Q s.
Proof using Type.
  intros Hs Hw Hn He HQ. apply (wp_defined_if a n (fun v => negb (VA_BITS2_NOACCESS =? v))); try done.
  intros s' (H1 & H2 & H3). apply HQ. split; [done|]. split; [done|]. intros b Hb. rewrite H3 by done. by destruct (abs s b).
Qed.

Lemma wp_defined_if_noaccess s a n (Q : unit -> mc T -> Prop) : inv L s -> word a -> 0 <= n -> a + n <= 2 ^ 64 ->
  (∀ s', mapped s s' a n (fun x => Some (default V_BITS8_DEFINED x)) -> Q tt s') -> wp (make_mem_defined_if_noaccess a n) Q s.
Proof using Type.
  intros Hs Hw Hn He HQ. apply (wp_defined_if a n (fun v => VA_BITS2_NOACCESS =? v)); try done.
  - intros s' (H1 & H2 & H3). apply HQ. split; [done|]. split; [done|]. intros b Hb. rewrite H3 by done. by destruct (abs s b).
  - intros v Hv. unfold VA_BITS2_NOACCESS, VA_BITS2_DEFINED. rewrite (Z.eqb_sym 0 v). by case_bool.
Qed.

End Bytewise.

(** ** Copying the state of a range *)

Lemma extract_mod4 a b v : a mod 4 = b mod 4 -> extract_vabits2_from_vabits8 a v = extract_vabits2_from_vabits8 b v.
Proof. intros E. by rewrite !extract_mod, E. Qed.

Lemma uniform_not_partdef v b : VA_BITS8_DEFINED = v ∨ VA_BITS8_UNDEFINED = v ∨ VA_BITS8_NOACCESS = v ->
  extract_vabits2_from_vabits8 b v ≠ VA_BITS2_PARTDEFINED.
Proof.
  intros Hv. assert (∃ k, 0 <= k < 3 ∧ v = k * 85) as (k & Hk & ->).
  { destruct Hv as [<-|[<-|<-]]; [by exists 2|by exists 1|by exists 0]. }
  rewrite extract_uniform by lia. unfold VA_BITS2_PARTDEFINED. lia.
Qed.

Section Copying.
Context {T : Type} `{!KeyedSet T} `{!KeyedSetLaws T} `{!Allocator}.
Context (L : gset Z) (L_small : Z.of_nat (size L) < ks_limit) (L_small' : Z.of_nat (size L) <= 2 ^ 27).
Implicit Types (s : mc T) (a b x y : Z).

(** The invariant, except that V bits may be missing for [n] bytes from [a] on. *)
Record pending s a n : Prop := {
  pending_core : core s;
  pending_table : table_ok L s;
  pending_partdef : ∀ b, word b -> ¬ (a <= b < a + n) -> vab2 s b = VA_BITS2_PARTDEFINED -> has_pdb s b }.

Lemma pending_inv s a : pending s a 0 -> inv L s.
Proof using Type. intros [Hc Ht Hp]. constructor; [done..|]. intros b Hb. apply Hp; [done|lia]. Qed.

(** The V bits of [x] are recorded for [y], whose two bits are set already. *)
Lemma wp_copy_vbits s x y n v (Q : unit -> mc T -> Prop) :
  pending s y (n + 1) -> 0 <= n -> word x -> ¬ (y <= x < y + (n + 1)) -> v = vab2 s x ->
  (v = VA_BITS2_PARTDEFINED -> line_of y ∈ L) -> (v ≠ VA_BITS2_PARTDEFINED -> vab2 s y ≠ VA_BITS2_PARTDEFINED) ->
  (∀ s', pending s' (y + 1) n -> same_maps s s' -> errors s' = errors s ->
     (v = VA_BITS2_PARTDEFINED -> pdb s' y = pdb s x) ->
     (∀ b, word b -> ¬ (y <= b < y + (n + 1)) -> vab2 s b = VA_BITS2_PARTDEFINED -> pdb s' b = pdb s b) -> Q tt s') ->
  wp (if VA_BITS2_PARTDEFINED =? v then w ← get_sec_vbits8 x; set_sec_vbits8 y w else mret tt) Q s.
Proof.
  intros [Hc Ht Hp] Hn Hx Hxy Ev HL Hny HQ. case_bool.
  - symmetry in E. assert (has_pdb s x) as Hpx by (apply Hp; congruence). wp_step. apply (wp_get_sec_vbits8 L); [done|].
    apply (wp_set_sec_vbits8 L); [done..|by apply HL|]. intros s' Hc' (Hm & He & Ht' & Hpy & Hpb).
    assert (∀ b, word b -> ¬ (y <= b < y + (n + 1)) -> vab2 s b = VA_BITS2_PARTDEFINED -> pdb s' b = pdb s b) as Hkeep.
    { intros b Hb Hby Eb. apply Hpb; [done|lia|done|by apply Hp]. }
    apply HQ; [|done..]. constructor; [done..|]. intros b Hb Hby Eb. rewrite (same_maps_vab2 s s') in Eb by done.
    unfold has_pdb. destruct (decide (b = y)) as [->|]; [by rewrite Hpy|].
    rewrite Hkeep by first [done|lia]. apply Hp; [done|lia|done].
  - wp_step. apply HQ; [|done..]. constructor; [done..|]. intros b Hb Hby Eb.
    destruct (decide (b = y)) as [->|]; [by destruct Hny|]. apply Hp; [done|lia|done].
Qed.

(** The two bits of a byte decide its abstract value, up to the table. *)
Lemma abs_of s s' a b : vab2 s' b = vab2 s a -> (vab2 s a = VA_BITS2_PARTDEFINED -> pdb s' b = pdb s a) -> abs s' b = abs s a.
Proof using Type. intros E Hp. unfold abs. rewrite E. case_bool; [by rewrite Hp|done]. Qed.

(** The lines that partially defined bytes are copied to are known. *)
Definition lines_known s x y : Prop := ∀ v, abs s x = Some v -> 0 < v < 255 -> line_of y ∈ L.

Lemma partdef_line s x y : inv L s -> word x -> lines_known s x y -> vab2 s x = VA_BITS2_PARTDEFINED -> line_of y ∈ L.
Proof using Type.
  intros Hs Hx Hl Ex. apply (Hl (pdb s x)); [unfold abs; by rewrite Ex|]. by apply (inv_partdef L s Hs).
Qed.

(** What a copied byte leaves. *)
Definition moved s s' x y n : Prop :=
  inv L s' ∧ errors s' = errors s ∧
  ∀ b, word b -> abs s' b = if (y <=? b) && (b <? y + n) then abs s (x + (b - y)) else abs s b.

Lemma wp_copy_byte s x y (Q : unit -> mc T -> Prop) : inv L s -> word x -> word y -> x ≠ y -> lines_known s x y ->
  (∀ s', moved s s' x y 1 -> Q tt s') -> wp (copy_byte_state x y 0) Q s.
Proof.
  intros Hs Hx Hy Hne Hl HQ. unfold copy_byte_state. rewrite !Z.add_0_r, !u64_small by done.
  wp_step. apply wp_get_vabits2; [apply Hs|done|]. intros s1 Hc1 Hq1. pose proof (quiet_inv L s s1 Hc1 Hq1 Hs) as Hs1.
  pose proof (vab2_range s x (inv_core L s Hs)) as Hr.
  wp_step. apply wp_set_vabits2; [done..|]. intros s2 Hc2 [Hv2 Ht2].
  assert (∀ b, word b -> vab2 s2 b = if b =? y then vab2 s x else vab2 s b) as Hv.
  { intros b Hb. rewrite Hv2 by done. by rewrite (same_maps_vab2 s s1) by apply Hq1. }
  assert (∀ b, pdb s2 b = pdb s b) as Hp2.
  { intros b. rewrite (same_table_pdb s1 s2), (same_table_pdb s s1) by first [done|apply Hq1]. done. }
  assert (vab2 s2 x = vab2 s x) as Evx by (rewrite Hv by done; by case_bool).
  apply (wp_copy_vbits s2 x y 0); [|done|done|lia|done| | |].
  - constructor; [done|eapply same_table_ok; [exact Ht2|apply Hs1]|]. intros b Hb Hby. rewrite Hv by done. case_bool; [lia|].
    unfold has_pdb. rewrite Hp2. by apply (inv_partdef L s Hs).
  - intros Ex. by apply (partdef_line s x y).
  - intros Ex. rewrite Hv by done. by rewrite Z.eqb_refl.
  - intros s3 Hs3 Hm3 He3 Hpy Hpb. apply HQ. split; [by eapply pending_inv|]. split.
    { rewrite He3. destruct Ht2 as (_ & _ & _ & ->). apply Hq1. }
    intros b Hb. pose proof (same_maps_vab2 s2 s3 b Hm3) as E3. rewrite Hv in E3 by done.
    destruct (b =? y) eqn:X, ((y <=? b) && (b <? y + 1)) eqn:Y; b2p; try lia.
    + subst b. replace (x + (y - y)) with x by lia. apply abs_of; [done|]. intros Ex. rewrite Hpy, Hp2; done.
    + apply abs_of; [done|]. intros Eb. rewrite Hpb, Hp2; [done|done|lia|]. rewrite Hv by done. by case_bool.
Qed.

Lemma wp_copy_sec s x y n (Q : unit -> mc T -> Prop) :
  pending s y (n + 1) -> 0 <= n -> word x -> ¬ (y <= x < y + (n + 1)) -> vab2 s y = vab2 s x ->
  (vab2 s x = VA_BITS2_PARTDEFINED -> line_of y ∈ L) ->
  (∀ s', pending s' (y + 1) n -> (∀ b, vab2 s' b = vab2 s b) -> errors s' = errors s ->
     (vab2 s x = VA_BITS2_PARTDEFINED -> pdb s' y = pdb s x) ->
     (∀ b, word b -> ¬ (y <= b < y + (n + 1)) -> vab2 s b = VA_BITS2_PARTDEFINED -> pdb s' b = pdb s b) -> Q tt s') ->
  wp (vabits2 ← get_vabits2 x;
      if VA_BITS2_PARTDEFINED =? vabits2 then w ← get_sec_vbits8 x; set_sec_vbits8 y w else mret tt) Q s.
Proof.
  intros [Hc Ht Hp] Hn Hx Hxy Ev HL HQ. wp_step. apply wp_get_vabits2; [done..|]. intros s1 Hc1 Hq1.
  assert (∀ b, vab2 s1 b = vab2 s b) as Hv1 by (intros b; by rewrite (same_maps_vab2 s s1) by apply Hq1).
  assert (∀ b, pdb s1 b = pdb s b) as Hp1 by (intros b; by rewrite (same_table_pdb s s1) by apply Hq1).
  apply (wp_copy_vbits s1 x y n); try done; [|by rewrite Hv1, Ev|].
  - constructor; [done|eapply same_table_ok; [apply Hq1|done]|]. intros b Hb Hby. rewrite Hv1. unfold has_pdb. rewrite Hp1. by apply Hp.
  - intros s' Hs' Hm He Hpy Hpb. apply HQ; [done| | | |].
    + intros b. by rewrite (same_maps_vab2 s1 s').
    + rewrite He. apply Hq1.
    + intros Ex. rewrite Hpy, Hp1; done.
    + intros b Hb Hby Eb. rewrite Hpb, Hp1; [done..|]. by rewrite Hv1.
Qed.

(** The state after the first [k] of the four bytes of a word got their V bits. *)
Definition word_upto s s' x y k : Prop :=
  pending s' (y + k) (4 - k) ∧ errors s' = errors s ∧
  (∀ b, word b -> vab2 s' b = if (y <=? b) && (b <? y + 4) then vab2 s (x + (b - y)) else vab2 s b) ∧
  (∀ b, word b -> ¬ (y <= b < y + 4) -> vab2 s b = VA_BITS2_PARTDEFINED -> pdb s' b = pdb s b) ∧
  (∀ j, 0 <= j < k -> vab2 s (x + j) = VA_BITS2_PARTDEFINED -> pdb s' (y + j) = pdb s (x + j)).

Lemma word_upto_moved s s' x y : inv L s -> word_upto s s' x y 4 -> (∀ b, y <= b < y + 4 -> word b) -> moved s s' x y 4.
Proof using Type.
  intros Hs (Hp & He & Hv & Hpo & Hpi) Hw. split; [by eapply pending_inv|]. split; [done|]. intros b Hb.
  specialize (Hv b Hb). destruct ((y <=? b) && (b <? y + 4)) eqn:E; b2p.
  - apply abs_of; [done|]. intros Ex. specialize (Hpi (b - y) ltac:(lia) Ex). by replace (y + (b - y)) with b in Hpi by lia.
  - apply abs_of; [done|]. apply Hpo; [done|lia].
Qed.

Lemma wp_word_step s s1 src dst i k (Q : unit -> mc T -> Prop) :
  let x := src + i in let y := dst + i in
  inv L s -> 0 <= x -> x + 4 <= 2 ^ 64 -> 0 <= y -> y + 4 <= 2 ^ 64 -> x + 4 <= y ∨ y + 4 <= x -> 0 <= k < 4 ->
  (∀ j, 0 <= j < 4 -> lines_known s (x + j) (y + j)) -> word_upto s s1 x y k ->
  (∀ s', word_upto s s' x y (k + 1) -> Q tt s') -> wp (copy_sec_vbits src dst (i + k)) Q s1.
Proof.
  intros x y Hs Hx0 Hx4 Hy0 Hy4 Hxy Hk Hl (Hp & He & Hv & Hpo & Hpi) HQ.
  unfold copy_sec_vbits. rewrite !u64_small by (unfold word; lia).
  replace (src + (i + k)) with (x + k) by lia. replace (dst + (i + k)) with (y + k) by lia.
  assert (word (x + k) ∧ word (y + k)) as [Hwx Hwy] by (unfold word; lia).
  assert (vab2 s1 (x + k) = vab2 s (x + k)) as Evx by (rewrite Hv by done; case_bool; [lia|done]).
  assert (vab2 s1 (y + k) = vab2 s (x + k)) as Evy.
  { rewrite Hv by done. case_bool; [|lia]. f_equal. lia. }
  apply (wp_copy_sec s1 (x + k) (y + k) (4 - (k + 1))); [by replace (4 - (k + 1) + 1) with (4 - k) by lia|lia|done|lia|congruence| |].
  - rewrite Evx. apply partdef_line; [done|done|by apply Hl].
  - rewrite Evx. replace (4 - (k + 1) + 1) with (4 - k) by lia. intros s' Hs' Hv' He' Hpy Hpb. apply HQ. split; [by rewrite Z.add_assoc|].
    split; [congruence|]. split; [intros b Hb; by rewrite Hv', Hv|]. split.
    + intros b Hb Hby Eb. rewrite Hpb; [by apply Hpo|done|lia|]. rewrite Hv by done. case_bool; [lia|done].
    + intros j Hj Ej. destruct (decide (j = k)) as [->|].
      * rewrite Hpy by done. apply Hpo; [done|lia|done].
      * rewrite Hpb; [apply Hpi; [lia|done]|unfold word; lia|lia|]. rewrite Hv by (unfold word; lia). case_bool; [|lia].
        rewrite <- Ej. f_equal. lia.
Qed.

Lemma wp_copy_word s src dst i (Q : unit -> mc T -> Prop) :
  let x := src + i in let y := dst + i in
  inv L s -> 0 <= x -> x + 4 <= 2 ^ 64 -> 0 <= y -> y + 4 <= 2 ^ 64 -> x mod 4 = 0 -> y mod 4 = 0 -> x ≠ y ->
  (∀ j, 0 <= j < 4 -> lines_known s (x + j) (y + j)) ->
  (∀ s', moved s s' x y 4 -> Q tt s') -> wp (copy_word_state src dst i) Q s.
Proof.
  intros x y Hs Hx0 Hx4 Hy0 Hy4 Hxa Hya Hne Hl HQ. unfold copy_word_state. fold x y.
  rewrite !u64_small by (unfold word; lia). pose proof (byte_at_range s x (inv_core L s Hs)) as Hr.
  assert (word x ∧ word y) as [Hwx Hwy] by (unfold word; lia).
  assert (x + 4 <= y ∨ y + 4 <= x) as Hxy by (clear -Hxa Hya Hne; dlia).
  wp_step. apply wp_get_vabits8_for_aligned_word32; [apply Hs|done|]. intros s1 Hc1 Hq1.
  pose proof (quiet_inv L s s1 Hc1 Hq1 Hs) as Hs1.
  wp_step. apply wp_set_vabits8_for_aligned_word32; [done..|]. intros s2 Hc2 [Hb2 Ht2].
  assert (∀ b, pdb s2 b = pdb s b) as Hp2.
  { intros b. rewrite (same_table_pdb s1 s2), (same_table_pdb s s1) by first [done|apply Hq1]. done. }
  assert (∀ b, word b -> vab2 s2 b = if (y <=? b) && (b <? y + 4) then vab2 s (x + (b - y)) else vab2 s b) as Hv2.
  { intros b Hb. unfold vab2 at 1. rewrite Hb2 by done. pose proof (block_range 4 y b eq_refl Hya) as Hblock.
    destruct (b / 4 =? y / 4) eqn:X, ((y <=? b) && (b <? y + 4)) eqn:Y; b2p; try lia.
    - assert (y <= b < y + 4) as Yb by lia. unfold vab2. rewrite (byte_at_word s (x + (b - y)) x) by (clear -Hxa Yb; dlia). apply extract_mod4. clear -Hxa Hya. dlia.
    - fold (vab2 s1 b). by rewrite (same_maps_vab2 s s1) by apply Hq1. }
  assert (word_upto s s2 x y 0) as Hup.
  { split; [|split; [|split; [done|split; [|lia]]]].
    - rewrite Z.add_0_r, Z.sub_0_r. constructor; [done|eapply same_table_ok; [exact Ht2|apply Hs1]|]. intros b Hb Hby.
      rewrite Hv2 by done. case_bool; [lia|]. unfold has_pdb. rewrite Hp2. by apply (inv_partdef L s Hs).
    - destruct Ht2 as (_ & _ & _ & ->). apply Hq1.
    - intros b Hb Hby Eb. apply Hp2. }
  assert (∀ b, y <= b < y + 4 -> word b) as Hwb by (unfold word; lia).
  destruct ((VA_BITS8_DEFINED =? byte_at s x) || _ || _) eqn:Eu.
  - wp_step. apply HQ, word_upto_moved; [done| |done]. destruct Hup as (Hp & He & _ & Hpo & _).
    assert (∀ j, 0 <= j < 4 -> vab2 s (x + j) ≠ VA_BITS2_PARTDEFINED) as Hnp.
    { intros j Hj. unfold vab2. rewrite (byte_at_word s (x + j) x) by (clear -Hxa Hj; dlia). apply uniform_not_partdef.
      apply orb_true_iff in Eu as [Eu|Eu]; [apply orb_true_iff in Eu as [Eu|Eu]|]; apply Z.eqb_eq in Eu; tauto. }
    split; [|split; [done|split; [done|split; [done|]]]].
    + destruct Hp as [Hpc Hpt Hpp]. constructor; [done..|]. intros b Hb _ Eb. destruct (decide (y <= b < y + 4)).
      * rewrite Hv2 in Eb by done. revert Eb. case_bool; [|lia]. intros Eb. by destruct (Hnp (b - y) ltac:(lia)).
      * apply Hpp; [done|lia|done].
    + intros j Hj Ej. by destruct (Hnp j Hj).
  - rewrite <- (Z.add_0_r i) at 1.
    assert (∀ k s' (R : unit -> mc T -> Prop), 0 <= k < 4 -> word_upto s s' x y k ->
      (∀ s'', word_upto s s'' x y (k + 1) -> R tt s'') -> wp (copy_sec_vbits src dst (i + k)) R s') as Hst.
    { intros k s' R Hk Hu HR. by apply (wp_word_step s s' src dst i k). }
    wp_step. apply Hst; [done|done|]. intros s3 H3. wp_step. apply Hst; [done|done|]. intros s4 H4.
    wp_step. apply Hst; [done|done|]. intros s5 H5. apply Hst; [done|done|]. intros s6 H6. by apply HQ, word_upto_moved.
Qed.

(** The offsets from [lo] to [hi] are copied. *)
Definition copied_upto s s' src dst lo hi : Prop :=
  inv L s' ∧ errors s' = errors s ∧
  ∀ b, word b -> abs s' b = if (dst + lo <=? b) && (b <? dst + hi) then abs s (src + (b - dst)) else abs s b.

Lemma copied_none s src dst o : inv L s -> copied_upto s s src dst o o.
Proof using Type. intros Hs. split; [done|]. split; [done|]. intros b Hb. case_bool; [lia|done]. Qed.

Lemma copied_src s s' src dst lo hi x : copied_upto s s' src dst lo hi -> word x -> ¬ (dst + lo <= x < dst + hi) -> abs s' x = abs s x.
Proof using Type. intros (_ & _ & Ha) Hx Hn. rewrite Ha by done. case_bool; [lia|done]. Qed.

Lemma copied_more s s1 s' src dst lo hi i n lo' hi' : copied_upto s s1 src dst lo hi -> moved s1 s' (src + i) (dst + i) n ->
  0 <= n -> lo <= hi -> (i = hi ∧ lo' = lo ∧ hi' = hi + n ∨ i + n = lo ∧ lo' = i ∧ hi' = hi) ->
  (∀ j, 0 <= j < n -> word (src + i + j) ∧ ¬ (dst + lo <= src + i + j < dst + hi)) ->
  copied_upto s s' src dst lo' hi'.
Proof using Type.
  intros Hc (Hs' & He' & Hm) Hn Hlh Hi Hj. pose proof Hc as (Hs1 & He & Ha). split; [done|]. split; [congruence|]. intros b Hb.
  rewrite Hm by done. destruct ((dst + i <=? b) && (b <? dst + i + n)) eqn:E.
  - b2p. destruct (Hj (b - (dst + i)) ltac:(lia)) as [Hw Hno]. rewrite (copied_src s s1 src dst lo hi) by done.
    case_bool; [|lia]. f_equal. lia.
  - rewrite Ha by done. destruct ((dst + lo <=? b) && (b <? dst + hi)) eqn:X, ((dst + lo' <=? b) && (b <? dst + hi')) eqn:Y; b2p; first [done|lia].
Qed.

Lemma copy_byte_offset src dst i : copy_byte_state (T := T) src dst i = copy_byte_state (src + i) (dst + i) 0.
Proof using Type. unfold copy_byte_state. by rewrite !Z.add_0_r. Qed.

(** Both ranges are below the end of memory and the lines of partially defined bytes are known. *)
Record can_copy s src dst len : Prop := {
  cc_inv : inv L s;
  cc_src : 0 <= src ∧ src + len < 2 ^ 64;
  cc_dst : 0 <= dst ∧ dst + len < 2 ^ 64;
  cc_lines : ∀ i, 0 <= i < len -> lines_known s (src + i) (dst + i) }.

(** One more byte, above or below those that are copied. *)
Lemma wp_copy_next s s1 src dst len lo hi i lo' hi' (Q : unit -> mc T -> Prop) : can_copy s src dst len -> src ≠ dst ->
  copied_upto s s1 src dst lo hi -> 0 <= i < len -> lo <= hi ->
  (i = hi ∧ lo' = lo ∧ hi' = hi + 1 ∨ i + 1 = lo ∧ lo' = i ∧ hi' = hi) ->
  ¬ (dst + lo <= src + i < dst + hi) ->
  (∀ s', copied_upto s s' src dst lo' hi' -> Q tt s') -> wp (copy_byte_state src dst i) Q s1.
Proof.
  intros [Hs Hsrc Hdst Hl] Hne Hc Hi Hlh Hwhere Hno HQ. rewrite copy_byte_offset.
  apply wp_copy_byte; [apply Hc|unfold word; lia|unfold word; lia|lia| |].
  - intros v. rewrite (copied_src s s1 src dst lo hi) by first [done|unfold word; lia]. by apply Hl.
  - intros s' Hm. apply HQ. eapply (copied_more s s1 s' src dst lo hi i 1); [done..|].
    intros j Hj. assert (j = 0) as -> by lia. rewrite Z.add_0_r. split; [unfold word; lia|done].
Qed.

(** Upwards from [m] on. *)
Lemma wp_copy_up s s1 src dst len m (Q : unit -> mc T -> Prop) : can_copy s src dst len -> 0 <= m <= len ->
  dst < src ∨ src + len <= dst -> copied_upto s s1 src dst 0 m ->
  (∀ s', copied_upto s s' src dst 0 len -> Q tt s') -> wp (for_each (seqZ m (len - m)) (copy_byte_state src dst)) Q s1.
Proof.
  intros Hcc Hm Hdir Hc HQ.
  eapply wp_mono; [apply (wp_for_each _ _ (fun l s' => ∃ i, l = seqZ i (len - i) ∧ 0 <= i <= len ∧ copied_upto s s' src dst 0 i))|].
  - exists m. split; [done|]. by split.
  - intros x l s' _ (i & El & Hi & Hci). destruct (decide (i = len)) as [->|]; [by rewrite Z.sub_diag in El|].
    rewrite seqZ_cons in El by lia. injection El as -> ->.
    eapply (wp_copy_next s s' src dst len 0 i i 0 (i + 1)); [done|lia|done|lia|lia|by left|lia|]. intros s2 Hc2.
    exists (i + 1). split; [f_equal; lia|]. split; [lia|done].
  - intros [] s' (i & El & Hi & Hci). apply HQ. destruct (decide (i = len)) as [->|]; [done|].
    rewrite seqZ_cons in El by lia. done.
Qed.

(** Downwards. *)
Lemma wp_copy_down s src dst len (Q : unit -> mc T -> Prop) : can_copy s src dst len -> 0 <= len -> src < dst ->
  (∀ s', copied_upto s s' src dst 0 len -> Q tt s') -> wp (for_each (reverse (seqZ 0 len)) (copy_byte_state src dst)) Q s.
Proof.
  intros Hcc Hlen Hdir HQ.
  eapply wp_mono; [apply (wp_for_each _ _ (fun l s' => ∃ i, l = reverse (seqZ 0 i) ∧ 0 <= i <= len ∧ copied_upto s s' src dst i len))|].
  - exists len. split; [done|]. split; [lia|]. apply copied_none, Hcc.
  - intros x l s' _ (i & El & Hi & Hci). destruct (decide (i = 0)) as [->|]; [discriminate El|].
    assert (seqZ 0 i = seqZ 0 (i - 1) ++ [i - 1]) as Es.
    { rewrite <- (Z.sub_add 1 i) at 1. by rewrite seqZ_app by lia. }
    rewrite Es, reverse_snoc in El. injection El as -> ->.
    eapply (wp_copy_next s s' src dst len i len (i - 1) (i - 1) len); [done|lia|done|lia|lia|right; lia|lia|]. intros s2 Hc2.
    exists (i - 1). split; [done|]. split; [lia|done].
  - intros [] s' (i & El & Hi & Hci). apply HQ. destruct (decide (i = 0)) as [->|]; [done|].
    assert (seqZ 0 i = seqZ 0 (i - 1) ++ [i - 1]) as Es.
    { rewrite <- (Z.sub_add 1 i) at 1. by rewrite seqZ_app by lia. }
    by rewrite Es, reverse_snoc in El.
Qed.

(** The words of ranges that do not overlap. *)
Lemma wp_copy_words s src dst len (Q : unit -> mc T -> Prop) : can_copy s src dst len -> 0 <= len ->
  src mod 4 = 0 -> dst mod 4 = 0 -> src + len <= dst ∨ dst + len <= src -> src ≠ dst ->
  (∀ s', copied_upto s s' src dst 0 (4 * (len / 4)) -> Q tt s') ->
  wp (for_each (seqZ 0 (len / 4)) (fun k => copy_word_state src dst (4 * k))) Q s.
Proof.
  intros Hcc Hlen Hsa Hda Hdis Hne HQ. set (N := len / 4). assert (0 <= 4 * N <= len) as HN by (unfold N; dlia).
  eapply wp_mono; [apply (wp_for_each _ _ (fun l s' => ∃ i, l = seqZ i (N - i) ∧ 0 <= i <= N ∧ copied_upto s s' src dst 0 (4 * i)))|].
  - exists 0. rewrite Z.sub_0_r. split; [done|]. split; [lia|]. apply copied_none, Hcc.
  - intros x l s' _ (i & El & Hi & Hci). destruct (decide (i = N)) as [->|]; [by rewrite Z.sub_diag in El|].
    rewrite seqZ_cons in El by lia. injection El as -> ->. destruct Hcc as [Hs Hsrc Hdst Hl].
    apply wp_copy_word; [apply Hci|lia|lia|lia|lia|clear -Hsa; dlia|clear -Hda; dlia|lia| |].
    + intros j Hj v. rewrite (copied_src s s' src dst 0 (4 * i)) by first [done|unfold word; lia|lia].
      rewrite <- !Z.add_assoc. apply Hl. lia.
    + intros s2 Hm. exists (i + 1). split; [f_equal; lia|]. split; [lia|].
      eapply (copied_more s s' s2 src dst 0 (4 * i) (4 * i) 4); [done|done|done|lia|left; lia|].
      intros j Hj. split; [unfold word; lia|lia].
  - intros [] s' (i & El & Hi & Hci). apply HQ. destruct (decide (i = N)) as [->|]; [done|].
    rewrite seqZ_cons in El by lia. done.
Qed.

Lemma wp_copy_address_range_state s src dst len (Q : unit -> mc T -> Prop) : can_copy s src dst len -> 0 <= len ->
  (∀ s', moved s s' src dst len -> Q tt s') -> wp (copy_address_range_state src dst len) Q s.
Proof.
  intros Hcc Hlen HQ. pose proof Hcc as [Hs Hsrc Hdst Hl].
  assert (∀ s', copied_upto s s' src dst 0 len -> Q tt s') as HQ'.
  { intros s' (H1 & H2 & H3). apply HQ. split; [done|]. split; [done|]. intros b Hb. rewrite H3 by done. by rewrite Z.add_0_r. }
  unfold copy_address_range_state. rewrite !aligned4, !u64_small by (unfold word; lia).
  destruct ((len =? 0) || (src =? dst)) eqn:E0.
  { wp_step. apply HQ. split; [done|]. split; [done|]. intros b Hb. case_bool; [|done]. b2p. f_equal. lia. }
  apply orb_false_iff in E0 as [E0%Z.eqb_neq Ene%Z.eqb_neq].
  destruct (((src + len <=? dst) || (dst + len <=? src)) && ((src mod 4 =? 0) && (dst mod 4 =? 0))) eqn:Ef.
  - apply andb_true_iff in Ef as [Eo [Esa%Z.eqb_eq Eda%Z.eqb_eq]%andb_true_iff].
    assert (src + len <= dst ∨ dst + len <= src) as Hdis.
    { apply orb_true_iff in Eo as [Eo|Eo]; apply Z.leb_le in Eo; [by left|by right]. }
    wp_step. apply (wp_copy_words s); [done..|]. intros s1 Hc1. apply (wp_copy_up s s1); [done| |lia|done|done].
    clear -Hlen. dlia.
  - wp_step. destruct (src <? dst) eqn:E1; b2p.
    + apply (wp_copy_down s); [done..|]. intros s1 Hc1. rewrite (proj2 (Z.ltb_ge dst src)) by lia. wp_step. by apply HQ'.
    + wp_step. rewrite (proj2 (Z.ltb_lt dst src)) by lia. rewrite <- (Z.sub_0_r len) at 1.
      apply (wp_copy_up s s src dst len 0); [done|lia|by left; lia|by apply copied_none|done].
Qed.

End Copying.

(** * Properties *)

Section Properties.
Context {T : Type} `{!KeyedSet T} `{!KeyedSetLaws T} `{!Allocator}.
Context (L : gset Z) (L_small : Z.of_nat (size L) < ks_limit) (L_small' : Z.of_nat (size L) <= 2 ^ 27).

Lemma ranged_mapped (s s' : mc T) a n v : ranged L s s' a n v -> mapped L s s' a n (fun _ => v_of v).
Proof using Type. intros (H1 & H2 & H3). split; [done|]. split; [done|]. intros b Hb. rewrite H3 by done. unfold range_bits. by case_bool. Qed.

Lemma sets_mapped (s : mc T) m a n v : inv L s -> sets L m a n v -> wp m (fun _ s' => mapped L s s' a n (fun _ => v_of v)) s.
Proof using Type. intros Hs Hm. apply Hm; [done|]. intros s'. apply ranged_mapped. Qed.

(** C30: marking a range as inaccessible, undefined or defined (or as defined where it is
    accessible, or where it is not) changes exactly the bytes of the range in the
    abstract shadow memory, for every range that does not wrap around, whether it is
    handled in part of a secondary map or by replacing whole maps, and keeps the
    invariant; the loops end and no assertion fails. *)
Theorem range_perms_refine (s : mc T) (a n : Z) :
  inv L s -> word a -> 0 <= n < 2 ^ 64 -> a + n <= 2 ^ 64 ->
  wp (make_mem_noaccess a n) (fun _ s' => mapped L s s' a n (fun _ => None)) s ∧
  wp (make_mem_undefined a n) (fun _ s' => mapped L s s' a n (fun _ => Some V_BITS8_UNDEFINED)) s ∧
  wp (make_mem_defined a n) (fun _ s' => mapped L s s' a n (fun _ => Some V_BITS8_DEFINED)) s ∧
  wp (make_mem_defined_if_addressable a n) (fun _ s' => mapped L s s' a n (fmap (fun _ => V_BITS8_DEFINED))) s ∧
  wp (make_mem_defined_if_noaccess a n) (fun _ s' => mapped L s s' a n (fun x => Some (default V_BITS8_DEFINED x))) s.
Proof.
  intros Hs Hw Hn He. split; [|split; [|split; [|split]]].
  - by apply (sets_mapped s _ a n VA_BITS2_NOACCESS), sets_noaccess.
  - by apply (sets_mapped s _ a n VA_BITS2_UNDEFINED), sets_undefined.
  - by apply (sets_mapped s _ a n VA_BITS2_DEFINED), sets_defined.
  - apply (wp_defined_if_addressable L); [done|done|lia|done|done].
  - apply (wp_defined_if_noaccess L); [done|done|lia|done|done].
Qed.

(** C31: copying the state of a range has the effect of reading it first and writing it
    then, also when the ranges overlap, and reaches the V bits of partially defined
    bytes on the fast path of words and on the slow ones. *)
Theorem copy_state_refines (s : mc T) (src dst len : Z) :
  can_copy L s src dst len -> 0 <= len ->
  wp (copy_address_range_state src dst len) (fun _ s' => moved L s s' src dst len) s.
Proof. intros Hc Hlen. by apply (wp_copy_address_range_state L). Qed.

(** The helpers that follow the stack pointer mark exactly the bytes that come
    into use below the red zone as undefined and exactly those that go out of use as
    inaccessible, at every alignment, and the helper for calls and returns marks the
    range it is given as undefined. *)
Theorem stack_helpers_refine :
  Forall (fun op => grows L op.1 op.2)
    [(4, mc_new_mem_stack_4 (T := T)); (8, mc_new_mem_stack_8); (12, mc_new_mem_stack_12); (16, mc_new_mem_stack_16);
     (32, mc_new_mem_stack_32); (112, mc_new_mem_stack_112); (128, mc_new_mem_stack_128); (144, mc_new_mem_stack_144);
     (160, mc_new_mem_stack_160)] ∧
  Forall (fun op => shrinks L op.1 op.2)
    [(4, mc_die_mem_stack_4 (T := T)); (8, mc_die_mem_stack_8); (12, mc_die_mem_stack_12); (16, mc_die_mem_stack_16);
     (32, mc_die_mem_stack_32); (112, mc_die_mem_stack_112); (128, mc_die_mem_stack_128); (144, mc_die_mem_stack_144);
     (160, mc_die_mem_stack_160)] ∧
  (∀ n, 0 <= n < 2 ^ 64 -> grows L n (fun SP => mc_new_mem_stack SP n)) ∧
  (∀ n SP, 0 <= n < 2 ^ 64 -> VG_STACK_REDZONE_SZB <= SP < 2 ^ 64 -> SP - VG_STACK_REDZONE_SZB + n <= 2 ^ 64 ->
     sets L (mc_die_mem_stack SP n) (SP - VG_STACK_REDZONE_SZB) n VA_BITS2_NOACCESS) ∧
  (∀ base len, word base -> 0 <= len < 2 ^ 64 -> base + len <= 2 ^ 64 ->
     sets L (helperc_MAKE_STACK_UNINIT_no_o base len) base len VA_BITS2_UNDEFINED) ∧
  (∀ base, word base -> base + 128 <= 2 ^ 64 ->
     sets L (helperc_MAKE_STACK_UNINIT_128_no_o base) base 128 VA_BITS2_UNDEFINED).
Proof.
  split; [|split; [|split; [|split; [|split]]]].
  - repeat constructor; cbn [fst snd].
    + apply grows_4. + apply grows_8. + apply grows_12. + apply grows_16. + apply grows_32.
    + apply grows_112. + apply grows_128. + apply grows_144. + apply grows_160.
  - repeat constructor; cbn [fst snd].
    + apply shrinks_4. + apply shrinks_8. + apply shrinks_12. + apply shrinks_16. + apply shrinks_32.
    + apply shrinks_112. + apply shrinks_128. + apply shrinks_144. + apply shrinks_160.
  - intros n Hn. by apply grows_any.
  - intros n SP. by apply shrinks_any.
  - intros base len. by apply sets_UNINIT_no_o.
  - intros base. by apply sets_UNINIT_128_no_o.
Qed.

End Properties.

(** * Witnesses *)

(** A range in three secondary maps, and a stack that shrinks over the border of two. *)
Example perms_run :
  (s ← init_shadow_memory (T := OSet);
   r ← (_ ← make_mem_undefined 65530 65550; _ ← mc_die_mem_stack_16 (65540 + 128);
        x ← get_vbits8 65523; y ← get_vbits8 65530; z ← get_vbits8 65540; w ← get_vbits8 131079; mret (x, y, z, w)) s;
   Ret (r.1, map_to_list (primary_map r.2))) =
  Ret ((false, 0), (false, 0), (true, 255), (true, 255), [(2, 4); (1, 5); (0, 3)]).
Proof. vm_compute. reflexivity. Qed.

Lemma range_perms_refine_witness : ∃ s s' : mc OSet,
  make_mem_defined 150 200000 s = Ret (tt, s') ∧ abs s 200 = Some 255 ∧ abs s' 200 = Some 0.
Proof.
  destruct demo_shadow as (s & Hs & Ea).
  destruct (range_perms_refine demo_lines s 150 200000 Hs) as (_ & _ & Hd & _); [done|done|done|].
  destruct Hd as ([] & s' & E & _ & _ & Hab). exists s, s'. split; [exact E|]. split; [done|]. by rewrite (Hab 200).
Defined.

(** The byte at 200 is partially defined. *)
Lemma demo_partdef : ∃ s : mc OSet, inv demo_lines s ∧ abs s 200 = Some 15 ∧ (∀ b, word b -> b ≠ 200 -> ¬ ∃ v, abs s b = Some v ∧ 0 < v < 255).
Proof.
  destruct (init_shadow_memory_inv (T := OSet) demo_lines) as (s0 & _ & Hs0 & _ & Ha0).
  destruct (wp_set_plain demo_lines s0 200 VA_BITS2_UNDEFINED (fun _ s' => ranged demo_lines s0 s' 200 1 VA_BITS2_UNDEFINED))
    as (_ & s1 & _ & Hs1 & _ & Ha1); [done|done|by right; left|done|].
  destruct (wp_set_vbits8 demo_lines ltac:(done) ltac:(done) s1 200 15 (fun _ s' => inv demo_lines s' ∧ byte_set s1 s' 200 15))
    as (_ & s2 & _ & Hs2 & _ & Ha2); [done|done|done|done|done|].
  exists s2. split; [done|]. split.
  - rewrite Ha2, Z.eqb_refl, Ha1 by done. done.
  - intros b Hb Hne (v & Ev & Hv). rewrite Ha2 in Ev by done. revert Ev. case_bool; [done|]. rewrite Ha1 by done.
    unfold range_bits. case_bool; [lia|]. by rewrite Ha0.
Qed.

Lemma copy_state_refines_witness : ∃ s s' : mc OSet,
  copy_address_range_state 200 202 4 s = Ret (tt, s') ∧ abs s' 202 = Some 15.
Proof.
  destruct demo_partdef as (s & Hs & Ea & Hother).
  destruct (copy_state_refines demo_lines ltac:(done) ltac:(done) s 200 202 4) as ([] & s' & E & _ & _ & Hab); [|done|].
  { constructor; [done|done|done|]. intros i Hi v Ev Hv. destruct (decide (i = 0)) as [->|]; [by vm_compute|].
    destruct (Hother (200 + i)); [unfold word; lia|lia|]. by exists v. }
  exists s, s'. split; [exact E|]. by rewrite (Hab 202).
Defined.

(** The stack grows by 32 bytes to 1000. *)
Lemma stack_helpers_refine_witness : ∃ s s' : mc OSet,
  mc_new_mem_stack_32 1000 s = Ret (tt, s') ∧ abs s' 875 = Some 255.
Proof.
  destruct demo_shadow as (s & Hs & Ea).
  destruct (stack_helpers_refine (T := OSet) demo_lines) as [Hg _].
  assert (grows demo_lines 32 (mc_new_mem_stack_32 (T := OSet))) as H32 by (rewrite Forall_forall in Hg; apply (Hg (32, _)); set_solver).
  destruct (H32 1000 ltac:(done) ltac:(done) s (fun _ s' => ranged demo_lines s s' 872 32 VA_BITS2_UNDEFINED)) as ([] & s' & E & _ & _ & Hab); [done|done|].
  exists s, s'. split; [exact E|]. by rewrite (Hab 875).
Defined.
