(* ===== verification/Lanes.v ===== *)
(** * Words as vectors of lanes

    The vector operations of VEX take words that hold several lanes of 8, 16,
    32 or 64 bits, lane 0 in the lowest bits. [lane], [lanes] and [pack] relate
    words and lists of lanes, and the functions at the end of the file say what
    the operations do to a lane; [Simd64] and [Simd128] are proved against them. *)

From S2P Require Import Prelude.
Local Open Scope Z_scope.

(** VEX/pub/libvex_basictypes.h: narrowing with a mask. *)
Definition toUChar (x : Z) : Z := let x := s32 x in u8 (Z.land x 0xFF).
Definition toUShort (x : Z) : Z := let x := s32 x in u16 (Z.land x 0xFFFF).
Definition toUInt (x : Z) : Z := let x := s64 x in u32 (Z.land x 0xFFFFFFFF).

(** Lane [i] of [x], with lanes of [w] bits, and the first [n] lanes. *)
Definition lane (w i x : Z) : Z := wrap w (Z.shiftr x (w * i)).
Definition lanes (w n x : Z) : list Z := (fun i => lane w i x) <$> seqZ 0 n.

(** The word with these lanes, the lowest first. *)
Definition pack (w : Z) (l : list Z) : Z := foldr (fun a x => a + 2 ^ w * x) 0 l.

(** A word of [n] lanes of which each is a function of the lanes of the operands. *)
Definition vec1 (w n : Z) (F : Z -> Z) (x : Z) : Z := pack w (F <$> lanes w n x).
Definition vec2 (w n : Z) (F : Z -> Z -> Z) (x y : Z) : Z :=
  pack w (zip_with F (lanes w n x) (lanes w n y)).

(** [interleave [a0; a1; ..] [b0; b1; ..] = [a0; b0; a1; b1; ..]]. *)
Definition interleave (l k : list Z) : list Z := concat (zip_with (fun a b => [a; b]) l k).

(** The elements at odd and at even places. *)
Definition odds (l : list Z) : list Z := omap (fun i => l !! (2 * i + 1)%nat) (seq 0 (length l / 2)).
Definition evens (l : list Z) : list Z := omap (fun i => l !! (2 * i)%nat) (seq 0 (length l / 2)).

(** ** What the operations do to a lane of [w] bits *)

Definition sat_s (w z : Z) : Z := Z.max (- 2 ^ (w - 1)) (Z.min (2 ^ (w - 1) - 1) z).
Definition sat_u (w z : Z) : Z := Z.max 0 (Z.min (2 ^ w - 1) z).

Definition add (w a b : Z) : Z := wrap w (a + b).
Definition sub (w a b : Z) : Z := wrap w (a - b).
Definition mul (w a b : Z) : Z := wrap w (a * b).
Definition qadds (w a b : Z) : Z := wrap w (sat_s w (swrap w a + swrap w b)).
Definition qsubs (w a b : Z) : Z := wrap w (sat_s w (swrap w a - swrap w b)).
Definition qaddu (w a b : Z) : Z := sat_u w (a + b).
Definition qsubu (w a b : Z) : Z := sat_u w (a - b).
Definition mulhis (w a b : Z) : Z := wrap w (swrap w a * swrap w b / 2 ^ w).
Definition mulhiu (w a b : Z) : Z := a * b / 2 ^ w.
Definition mask (w : Z) (b : bool) : Z := if b then 2 ^ w - 1 else 0.
Definition cmpeq (w a b : Z) : Z := mask w (a =? b).
Definition cmpgts (w a b : Z) : Z := mask w (swrap w b <? swrap w a).
Definition cmpnez (w a : Z) : Z := mask w (negb (a =? 0)).
Definition avgu (w a b : Z) : Z := (a + b + 1) / 2.
Definition haddu (w a b : Z) : Z := (a + b) / 2.
Definition hadds (w a b : Z) : Z := wrap w ((swrap w a + swrap w b) / 2).
Definition hsubu (w a b : Z) : Z := wrap w ((a - b) / 2).
Definition hsubs (w a b : Z) : Z := wrap w ((swrap w a - swrap w b) / 2).
Definition maxs (w a b : Z) : Z := wrap w (Z.max (swrap w a) (swrap w b)).
Definition mins (w a b : Z) : Z := wrap w (Z.min (swrap w a) (swrap w b)).
Definition maxu (w a b : Z) : Z := Z.max a b.
Definition minu (w a b : Z) : Z := Z.min a b.
Definition qnarrows (w v a : Z) : Z := wrap v (sat_s v (swrap w a)).
Definition qnarrowu (w v a : Z) : Z := sat_u v (swrap w a).
Definition shl (w n a : Z) : Z := wrap w (a * 2 ^ n).
Definition shr (w n a : Z) : Z := a / 2 ^ n.
Definition sar (w n a : Z) : Z := wrap w (swrap w a / 2 ^ n).

(** A word of [k] decimal digits of four bits. *)
Definition valid_bcd (k x : Z) : bool :=
  (0 <=? x) && (x <? 2 ^ (4 * k)) && forallb (fun d => d <? 10) (lanes 4 k x).

(** ** What a scalar helper has to compute

    On lanes of [w] bits the helper [f] gives [F], in a type that may be wider
    or signed; narrowing goes from lanes of [w] bits to lanes of [v] bits. *)
Definition narrows (w v : Z) (f F : Z -> Z) : Prop := ∀ a, 0 <= a < 2 ^ w -> wrap v (f a) = F a.
Definition computes1 (w : Z) (f F : Z -> Z) : Prop := narrows w w f F.
Definition computes2 (w : Z) (f F : Z -> Z -> Z) : Prop :=
  ∀ a b, 0 <= a < 2 ^ w -> 0 <= b < 2 ^ w -> wrap w (f a b) = F a b.

(** * Lemmas *)

Section Bits.

Lemma wrap_land w x : 0 <= w -> wrap w x = Z.land x (Z.ones w).
Proof. intros. unfold wrap. by rewrite Z.land_ones. Qed.

Lemma testbit_wrap w x j : 0 <= w -> 0 <= j -> Z.testbit (wrap w x) j = (j <? w) && Z.testbit x j.
Proof.
  intros Hw Hj. rewrite wrap_land, Z.land_spec, Z.testbit_ones_nonneg by lia. apply andb_comm.
Qed.

Lemma wrap_add_mul w x k : 0 <= w -> wrap w (x + k * 2 ^ w) = wrap w x.
Proof. intros. unfold wrap. rewrite Z.mod_add; [done|]. apply Z.pow_nonzero; lia. Qed.

Lemma swrap_wrap w x : 0 < w -> ∃ k, swrap w x = x + k * 2 ^ w.
Proof.
  intros. unfold swrap. exists (- ((x + 2 ^ (w - 1)) / 2 ^ w)).
  pose proof (Z.div_mod (x + 2 ^ (w - 1)) (2 ^ w)). lia.
Qed.

Lemma swrap_wrap_same w x : 0 < w -> swrap w (wrap w x) = swrap w x.
Proof.
  intros. unfold swrap, wrap. f_equal. rewrite Zplus_mod_idemp_l. done.
Qed.

Lemma wrap_swrap w v x : 0 <= v <= w -> 0 < w -> wrap v (swrap w x) = wrap v x.
Proof.
  intros Hv Hw. destruct (swrap_wrap w x Hw) as [k ->].
  replace (2 ^ w) with (2 ^ (w - v) * 2 ^ v) by (rewrite <- Z.pow_add_r; f_equal; lia).
  rewrite Z.mul_assoc. apply wrap_add_mul. lia.
Qed.

Lemma wrap_wrap w v x : 0 <= v <= w -> wrap v (wrap w x) = wrap v x.
Proof.
  intros. apply Z.bits_inj'. intros j Hj. rewrite !testbit_wrap by lia.
  destruct (Z.ltb_spec j v); simpl; [|done]. by replace (j <? w) with true by lia.
Qed.


Lemma lane_range w i x : 0 <= w -> 0 <= lane w i x < 2 ^ w.
Proof. apply wrap_range. Qed.

Lemma wrap_lane w v i x : 0 <= w <= v -> wrap v (lane w i x) = lane w i x.
Proof.
  intros. apply wrap_small. pose proof (lane_range w i x). pose proof (Z.pow_le_mono_r 2 w v). lia.
Qed.

Lemma testbit_lane w i x j :
  0 <= w -> 0 <= i -> 0 <= j -> Z.testbit (lane w i x) j = (j <? w) && Z.testbit x (j + w * i).
Proof. intros. unfold lane. rewrite testbit_wrap, Z.shiftr_spec by lia. done. Qed.

Lemma pack_range w l :
  0 <= w -> Forall (fun a => 0 <= a < 2 ^ w) l -> 0 <= pack w l < 2 ^ (w * Z.of_nat (length l)).
Proof.
  intros Hw. induction 1 as [|a l Ha _ IH]; simpl; [lia|].
  replace (w * Z.of_nat (S (length l))) with (w + w * Z.of_nat (length l)) by lia.
  rewrite Z.pow_add_r by lia. nia.
Qed.

Lemma lane_pack w l (i : nat) a :
  0 <= w -> Forall (fun a => 0 <= a < 2 ^ w) l -> l !! i = Some a -> lane w (Z.of_nat i) (pack w l) = a.
Proof.
  intros Hw Hl. revert i. induction Hl as [|b l Hb _ IH]; intros i; [done|].
  assert (0 < 2 ^ w) by (apply Z.pow_pos_nonneg; lia). unfold lane in *.
  destruct i as [|i]; simpl; intros Hi.
  - injection Hi as [= ->]. rewrite Z.mul_0_r, Z.shiftr_0_r, Z.mul_comm, wrap_add_mul by lia.
    by apply wrap_small.
  - rewrite <- (IH _ Hi). f_equal. replace (w * Z.of_nat (S i)) with (w + w * Z.of_nat i) by lia.
    rewrite <- Z.shiftr_shiftr, (Z.shiftr_div_pow2 _ w) by lia. f_equal.
    rewrite Z.mul_comm, Z.div_add, Z.div_small by lia. lia.
Qed.

Lemma lanes_range w n x : 0 <= w -> Forall (fun a => 0 <= a < 2 ^ w) (lanes w n x).
Proof. intros. apply Forall_fmap, Forall_true. intros i. by apply lane_range. Qed.

(** Packing the lanes of a word gives the word, cut to the lanes. *)
Lemma pack_lanes w n x : 0 <= w -> 0 <= n -> pack w (lanes w n x) = wrap (w * n) x.
Proof.
  intros Hw Hn. revert x. pattern n. apply natlike_ind; [| |done]; clear n Hn.
  - intros x. rewrite Z.mul_0_r. unfold wrap. by rewrite Z.mod_1_r.
  - intros n Hn IH x. unfold lanes in *. rewrite seqZ_cons by lia. rewrite Z.pred_succ. simpl.
    rewrite <- (fmap_add_seqZ 1 0), <- list_fmap_compose.
    rewrite (list_fmap_ext _ (fun i => lane w i (Z.shiftr x w))).
    + rewrite IH. unfold lane. rewrite Z.mul_0_r, Z.shiftr_0_r, Z.shiftr_div_pow2 by lia.
      assert (0 < 2 ^ w) by (apply Z.pow_pos_nonneg; lia).
      assert (0 < 2 ^ (w * n)) by (apply Z.pow_pos_nonneg; lia).
      unfold wrap. replace (w * Z.succ n) with (w + w * n) by lia.
      rewrite Z.pow_add_r, Z.rem_mul_r by lia. done.
    + intros k i Hi. apply lookup_seqZ in Hi as [-> ?]. unfold lane, compose.
      rewrite Z.shiftr_shiftr by lia. do 2 f_equal. lia.
Qed.

Lemma pack_app w l k : 0 <= w -> pack w (l ++ k) = pack w l + 2 ^ (w * Z.of_nat (length l)) * pack w k.
Proof.
  intros Hw. induction l as [|a l IH]; [cbn [app length]; rewrite Z.mul_0_r; simpl; lia|].
  change (a + 2 ^ w * pack w (l ++ k) =
          a + 2 ^ w * pack w l + 2 ^ (w * Z.of_nat (S (length l))) * pack w k).
  rewrite IH. replace (w * Z.of_nat (S (length l))) with (w + w * Z.of_nat (length l)) by lia.
  rewrite Z.pow_add_r by lia. ring.
Qed.

Lemma lanes_pack w l n : 0 <= w -> n = Z.of_nat (length l) ->
  Forall (fun a => 0 <= a < 2 ^ w) l -> lanes w n (pack w l) = l.
Proof.
  intros Hw -> Hl. apply list_eq. intros i. unfold lanes.
  rewrite list_lookup_fmap.
  destruct (l !! i) as [a|] eqn:Hi.
  - rewrite (proj2 (lookup_seqZ 0 (Z.of_nat (length l)) i (Z.of_nat i))).
    + simpl. f_equal. apply lane_pack; [lia|done|done].
    + apply lookup_lt_Some in Hi. lia.
  - apply lookup_ge_None in Hi. rewrite lookup_seqZ_ge by lia. done.
Qed.

(** Lanes of lanes. *)
Lemma lane_lane w v k i j x : 0 <= v -> 0 <= k -> 0 <= i -> 0 <= j < k -> w = v * k ->
  lane v j (lane w i x) = lane v (k * i + j) x.
Proof.
  intros ? ? ? ? ->. apply Z.bits_inj'. intros b Hb.
  rewrite (testbit_lane v j), (testbit_lane v (k * i + j)) by nia.
  destruct (Z.ltb_spec b v); [|done]. rewrite testbit_lane by nia.
  replace (b + v * j <? v * k) with true by nia. rewrite andb_true_l. do 2 f_equal. lia.
Qed.

(** The top bit of a lane. *)
Lemma lane_top_bit w i x : 0 < w -> 0 <= i ->
  lane w i x / 2 ^ (w - 1) = Z.b2z (Z.testbit x (w * i + (w - 1))).
Proof.
  intros Hw Hi.
  replace (Z.testbit x (w * i + (w - 1))) with (Z.testbit (lane w i x) (w - 1)).
  - rewrite Z.testbit_spec' by lia. symmetry. apply Z.mod_small.
    pose proof (lane_range w i x ltac:(lia)) as Hl.
    assert (2 ^ w = 2 ^ (w - 1) * 2) as Hp by (rewrite Z.mul_comm, <- Z.pow_succ_r by lia; f_equal; lia).
    assert (0 < 2 ^ (w - 1)) by (apply Z.pow_pos_nonneg; lia).
    split; [apply Z.div_pos; lia|apply Z.div_lt_upper_bound; lia].
  - rewrite testbit_lane by lia. replace (w - 1 <? w) with true by lia. simpl. f_equal. lia.
Qed.

(** The test of a bit with a mask. *)
Lemma land_bit x k : 0 <= k -> (Z.land x (Z.shiftl 1 k) =? 0) = negb (Z.testbit x k).
Proof.
  intros Hk. rewrite Z.shiftl_1_l. destruct (Z.testbit x k) eqn:Hx; simpl.
  - apply Z.eqb_neq. intros H0. assert (Z.testbit (Z.land x (2 ^ k)) k = true) as Hb.
    { by rewrite Z.land_spec, Hx, Z.pow2_bits_true by lia. }
    by rewrite H0, Z.bits_0 in Hb.
  - apply Z.eqb_eq, Z.bits_inj'. intros j Hj. rewrite Z.bits_0, Z.land_spec.
    destruct (decide (k = j)) as [->|?]; [by rewrite Hx|].
    by rewrite Z.pow2_bits_false, andb_false_r by lia.
Qed.

Lemma toUChar_wrap x : toUChar x = wrap 8 x.
Proof.
  unfold toUChar, u8, s32. rewrite (wrap_land 8 x), (wrap_land 8) by lia.
  change 0xFF with (Z.ones 8). rewrite <- Z.land_assoc, Z.land_diag.
  rewrite <- !wrap_land by lia. by apply wrap_swrap.
Qed.

Lemma toUShort_wrap x : toUShort x = wrap 16 x.
Proof.
  unfold toUShort, u16, s32. rewrite (wrap_land 16 x), (wrap_land 16) by lia.
  change 0xFFFF with (Z.ones 16). rewrite <- Z.land_assoc, Z.land_diag.
  rewrite <- !wrap_land by lia. by apply wrap_swrap.
Qed.

Lemma toUInt_wrap x : toUInt x = wrap 32 x.
Proof.
  unfold toUInt, u32, s64. rewrite (wrap_land 32 x), (wrap_land 32) by lia.
  change 0xFFFFFFFF with (Z.ones 32). rewrite <- Z.land_assoc, Z.land_diag.
  rewrite <- !wrap_land by lia. by apply wrap_swrap.
Qed.

End Bits.

#[export] Hint Resolve lane_range lanes_range : corelib.
