(* ===== verification/VexIR.v ===== *)
(** * The intermediate representation of VEX

    vg/VEX/pub/libvex_ir.h and the part of vg/VEX/priv/ir_defs.c about types: types,
    constants, operators, expressions, and what they mean. A value is the number that
    its bits spell. The meaning of an operator is what the header says of it; the
    guest state, the memory, the helpers and the operators that are not listed here
    are a parameter, [Machine]. *)

From Stdlib Require Import String.
From stdpp Require Import gmap.
From S2P Require Import Prelude Lanes.
Local Open Scope Z_scope.

(** * Data *)

Inductive IRType :=
  | Ity_INVALID
  | Ity_I1 | Ity_I8 | Ity_I16 | Ity_I32 | Ity_I64 | Ity_I128
  | Ity_F16 | Ity_F32 | Ity_F64 | Ity_D32 | Ity_D64 | Ity_D128 | Ity_F128
  | Ity_V128 | Ity_V256.

#[global] Instance IRType_eq_dec : EqDecision IRType.
Proof. solve_decision. Defined.

Inductive IREndness := Iend_LE | Iend_BE.

#[global] Instance IREndness_eq_dec : EqDecision IREndness.
Proof. solve_decision. Defined.

(** A constant. Floating point numbers are given by their bits. *)
Inductive IRConst :=
  | Ico_U1 (b : bool) | Ico_U8 (n : Z) | Ico_U16 (n : Z) | Ico_U32 (n : Z) | Ico_U64 (n : Z) | Ico_U128 (n : Z)
  | Ico_F32 (n : Z) | Ico_F32i (n : Z) | Ico_F64 (n : Z) | Ico_F64i (n : Z) | Ico_V128 (n : Z) | Ico_V256 (n : Z).

Record IRCallee := { regparms : Z; name : string; addr : Z; mcx_mask : Z }.
Record IRRegArray := { base : Z; elemTy : IRType; nElems : Z }.

(** The operators on integers and those on vectors that the optimiser folds.
    [Iop_other n] is the operator with the number [n] in the enumeration. *)
Inductive IROp :=
  | Iop_Add8 | Iop_Add16 | Iop_Add32 | Iop_Add64 | Iop_Sub8 | Iop_Sub16 | Iop_Sub32 | Iop_Sub64
  | Iop_Mul8 | Iop_Mul16 | Iop_Mul32 | Iop_Mul64 | Iop_Or8 | Iop_Or16 | Iop_Or32 | Iop_Or64
  | Iop_And8 | Iop_And16 | Iop_And32 | Iop_And64 | Iop_Xor8 | Iop_Xor16 | Iop_Xor32 | Iop_Xor64
  | Iop_Shl8 | Iop_Shl16 | Iop_Shl32 | Iop_Shl64 | Iop_Shr8 | Iop_Shr16 | Iop_Shr32 | Iop_Shr64
  | Iop_Sar8 | Iop_Sar16 | Iop_Sar32 | Iop_Sar64
  | Iop_CmpEQ8 | Iop_CmpEQ16 | Iop_CmpEQ32 | Iop_CmpEQ64 | Iop_CmpNE8 | Iop_CmpNE16 | Iop_CmpNE32 | Iop_CmpNE64
  | Iop_Not8 | Iop_Not16 | Iop_Not32 | Iop_Not64
  | Iop_CasCmpEQ8 | Iop_CasCmpEQ16 | Iop_CasCmpEQ32 | Iop_CasCmpEQ64
  | Iop_CasCmpNE8 | Iop_CasCmpNE16 | Iop_CasCmpNE32 | Iop_CasCmpNE64
  | Iop_ExpCmpNE8 | Iop_ExpCmpNE16 | Iop_ExpCmpNE32 | Iop_ExpCmpNE64
  | Iop_MullS8 | Iop_MullS16 | Iop_MullS32 | Iop_MullS64 | Iop_MullU8 | Iop_MullU16 | Iop_MullU32 | Iop_MullU64
  | Iop_Clz64 | Iop_Clz32 | Iop_Ctz64 | Iop_Ctz32 | Iop_ClzNat64 | Iop_ClzNat32 | Iop_CtzNat64 | Iop_CtzNat32
  | Iop_PopCount64 | Iop_PopCount32
  | Iop_CmpLT32S | Iop_CmpLT64S | Iop_CmpLE32S | Iop_CmpLE64S
  | Iop_CmpLT32U | Iop_CmpLT64U | Iop_CmpLE32U | Iop_CmpLE64U
  | Iop_CmpNEZ8 | Iop_CmpNEZ16 | Iop_CmpNEZ32 | Iop_CmpNEZ64 | Iop_CmpwNEZ32 | Iop_CmpwNEZ64
  | Iop_Left8 | Iop_Left16 | Iop_Left32 | Iop_Left64 | Iop_Max32U
  | Iop_CmpORD32U | Iop_CmpORD64U | Iop_CmpORD32S | Iop_CmpORD64S
  | Iop_8Uto16 | Iop_8Uto32 | Iop_8Uto64 | Iop_16Uto32 | Iop_16Uto64 | Iop_32Uto64
  | Iop_8Sto16 | Iop_8Sto32 | Iop_8Sto64 | Iop_16Sto32 | Iop_16Sto64 | Iop_32Sto64
  | Iop_64to8 | Iop_32to8 | Iop_64to16 | Iop_16to8 | Iop_16HIto8 | Iop_8HLto16
  | Iop_32to16 | Iop_32HIto16 | Iop_16HLto32 | Iop_64to32 | Iop_64HIto32 | Iop_32HLto64
  | Iop_128to64 | Iop_128HIto64 | Iop_64HLto128
  | Iop_Not1 | Iop_And1 | Iop_Or1 | Iop_32to1 | Iop_64to1
  | Iop_1Uto8 | Iop_1Uto32 | Iop_1Uto64 | Iop_1Sto8 | Iop_1Sto16 | Iop_1Sto32 | Iop_1Sto64
  | Iop_CmpEQ8x8 | Iop_CmpEQ16x4 | Iop_CmpEQ32x2
  | Iop_CmpEQ8x16 | Iop_CmpEQ16x8 | Iop_CmpEQ32x4 | Iop_CmpEQ64x2
  | Iop_CmpEQ8x32 | Iop_CmpEQ16x16 | Iop_CmpEQ32x8 | Iop_CmpEQ64x4
  | Iop_V128to64 | Iop_V128HIto64 | Iop_64HLtoV128 | Iop_64UtoV128 | Iop_ZeroHI64ofV128 | Iop_32UtoV128
  | Iop_NotV128 | Iop_AndV128 | Iop_OrV128 | Iop_XorV128 | Iop_Sub8x16 | Iop_InterleaveLO8x16
  | Iop_V256to64_0 | Iop_V256to64_1 | Iop_V256to64_2 | Iop_V256to64_3 | Iop_V128HLtoV256
  | Iop_AndV256 | Iop_OrV256 | Iop_XorV256 | Iop_NotV256
  | Iop_other (n : Z).

Inductive IRExpr :=
  | Iex_Binder (binder : Z)
  | Iex_Get (offset : Z) (ty : IRType)
  | Iex_GetI (descr : IRRegArray) (ix : IRExpr) (bias : Z)
  | Iex_RdTmp (tmp : Z)
  | Iex_Qop (op : IROp) (arg1 arg2 arg3 arg4 : IRExpr)
  | Iex_Triop (op : IROp) (arg1 arg2 arg3 : IRExpr)
  | Iex_Binop (op : IROp) (arg1 arg2 : IRExpr)
  | Iex_Unop (op : IROp) (arg : IRExpr)
  | Iex_Load (en : IREndness) (ty : IRType) (addr : IRExpr)
  | Iex_Const (con : IRConst)
  | Iex_CCall (cee : IRCallee) (retty : IRType) (args : list IRExpr)
  | Iex_ITE (cond iftrue iffalse : IRExpr)
  | Iex_VECRET
  | Iex_GSPTR.

(** Operators are compared by their place in this list. *)
Definition listed_ops : list IROp :=
  [Iop_Add8; Iop_Add16; Iop_Add32; Iop_Add64; Iop_Sub8; Iop_Sub16; Iop_Sub32; Iop_Sub64; Iop_Mul8; Iop_Mul16;
   Iop_Mul32; Iop_Mul64; Iop_Or8; Iop_Or16; Iop_Or32; Iop_Or64; Iop_And8; Iop_And16; Iop_And32; Iop_And64;
   Iop_Xor8; Iop_Xor16; Iop_Xor32; Iop_Xor64; Iop_Shl8; Iop_Shl16; Iop_Shl32; Iop_Shl64; Iop_Shr8; Iop_Shr16;
   Iop_Shr32; Iop_Shr64; Iop_Sar8; Iop_Sar16; Iop_Sar32; Iop_Sar64; Iop_CmpEQ8; Iop_CmpEQ16; Iop_CmpEQ32;
   Iop_CmpEQ64; Iop_CmpNE8; Iop_CmpNE16; Iop_CmpNE32; Iop_CmpNE64; Iop_Not8; Iop_Not16; Iop_Not32; Iop_Not64;
   Iop_CasCmpEQ8; Iop_CasCmpEQ16; Iop_CasCmpEQ32; Iop_CasCmpEQ64; Iop_CasCmpNE8; Iop_CasCmpNE16;
   Iop_CasCmpNE32; Iop_CasCmpNE64; Iop_ExpCmpNE8; Iop_ExpCmpNE16; Iop_ExpCmpNE32; Iop_ExpCmpNE64; Iop_MullS8;
   Iop_MullS16; Iop_MullS32; Iop_MullS64; Iop_MullU8; Iop_MullU16; Iop_MullU32; Iop_MullU64; Iop_Clz64;
   Iop_Clz32; Iop_Ctz64; Iop_Ctz32; Iop_ClzNat64; Iop_ClzNat32; Iop_CtzNat64; Iop_CtzNat32; Iop_PopCount64;
   Iop_PopCount32; Iop_CmpLT32S; Iop_CmpLT64S; Iop_CmpLE32S; Iop_CmpLE64S; Iop_CmpLT32U; Iop_CmpLT64U;
   Iop_CmpLE32U; Iop_CmpLE64U; Iop_CmpNEZ8; Iop_CmpNEZ16; Iop_CmpNEZ32; Iop_CmpNEZ64; Iop_CmpwNEZ32;
   Iop_CmpwNEZ64; Iop_Left8; Iop_Left16; Iop_Left32; Iop_Left64; Iop_Max32U; Iop_CmpORD32U; Iop_CmpORD64U;
   Iop_CmpORD32S; Iop_CmpORD64S; Iop_8Uto16; Iop_8Uto32; Iop_8Uto64; Iop_16Uto32; Iop_16Uto64; Iop_32Uto64;
   Iop_8Sto16; Iop_8Sto32; Iop_8Sto64; Iop_16Sto32; Iop_16Sto64; Iop_32Sto64; Iop_64to8; Iop_32to8;
   Iop_64to16; Iop_16to8; Iop_16HIto8; Iop_8HLto16; Iop_32to16; Iop_32HIto16; Iop_16HLto32; Iop_64to32;
   Iop_64HIto32; Iop_32HLto64; Iop_128to64; Iop_128HIto64; Iop_64HLto128; Iop_Not1; Iop_And1; Iop_Or1;
   Iop_32to1; Iop_64to1; Iop_1Uto8; Iop_1Uto32; Iop_1Uto64; Iop_1Sto8; Iop_1Sto16; Iop_1Sto32; Iop_1Sto64;
   Iop_CmpEQ8x8; Iop_CmpEQ16x4; Iop_CmpEQ32x2; Iop_CmpEQ8x16; Iop_CmpEQ16x8; Iop_CmpEQ32x4; Iop_CmpEQ64x2;
   Iop_CmpEQ8x32; Iop_CmpEQ16x16; Iop_CmpEQ32x8; Iop_CmpEQ64x4; Iop_V128to64; Iop_V128HIto64; Iop_64HLtoV128;
   Iop_64UtoV128; Iop_ZeroHI64ofV128; Iop_32UtoV128; Iop_NotV128; Iop_AndV128; Iop_OrV128; Iop_XorV128;
   Iop_Sub8x16; Iop_InterleaveLO8x16; Iop_V256to64_0; Iop_V256to64_1; Iop_V256to64_2; Iop_V256to64_3;
   Iop_V128HLtoV256; Iop_AndV256; Iop_OrV256; Iop_XorV256; Iop_NotV256].
Definition op_index (op : IROp) : nat + Z :=
  match op with
  | Iop_Add8 => inl 0%nat | Iop_Add16 => inl 1%nat | Iop_Add32 => inl 2%nat | Iop_Add64 => inl 3%nat
  | Iop_Sub8 => inl 4%nat | Iop_Sub16 => inl 5%nat | Iop_Sub32 => inl 6%nat | Iop_Sub64 => inl 7%nat
  | Iop_Mul8 => inl 8%nat | Iop_Mul16 => inl 9%nat | Iop_Mul32 => inl 10%nat | Iop_Mul64 => inl 11%nat
  | Iop_Or8 => inl 12%nat | Iop_Or16 => inl 13%nat | Iop_Or32 => inl 14%nat | Iop_Or64 => inl 15%nat
  | Iop_And8 => inl 16%nat | Iop_And16 => inl 17%nat | Iop_And32 => inl 18%nat | Iop_And64 => inl 19%nat
  | Iop_Xor8 => inl 20%nat | Iop_Xor16 => inl 21%nat | Iop_Xor32 => inl 22%nat | Iop_Xor64 => inl 23%nat
  | Iop_Shl8 => inl 24%nat | Iop_Shl16 => inl 25%nat | Iop_Shl32 => inl 26%nat | Iop_Shl64 => inl 27%nat
  | Iop_Shr8 => inl 28%nat | Iop_Shr16 => inl 29%nat | Iop_Shr32 => inl 30%nat | Iop_Shr64 => inl 31%nat
  | Iop_Sar8 => inl 32%nat | Iop_Sar16 => inl 33%nat | Iop_Sar32 => inl 34%nat | Iop_Sar64 => inl 35%nat
  | Iop_CmpEQ8 => inl 36%nat | Iop_CmpEQ16 => inl 37%nat | Iop_CmpEQ32 => inl 38%nat
  | Iop_CmpEQ64 => inl 39%nat | Iop_CmpNE8 => inl 40%nat | Iop_CmpNE16 => inl 41%nat
  | Iop_CmpNE32 => inl 42%nat | Iop_CmpNE64 => inl 43%nat | Iop_Not8 => inl 44%nat
  | Iop_Not16 => inl 45%nat | Iop_Not32 => inl 46%nat | Iop_Not64 => inl 47%nat
  | Iop_CasCmpEQ8 => inl 48%nat | Iop_CasCmpEQ16 => inl 49%nat | Iop_CasCmpEQ32 => inl 50%nat
  | Iop_CasCmpEQ64 => inl 51%nat | Iop_CasCmpNE8 => inl 52%nat | Iop_CasCmpNE16 => inl 53%nat
  | Iop_CasCmpNE32 => inl 54%nat | Iop_CasCmpNE64 => inl 55%nat | Iop_ExpCmpNE8 => inl 56%nat
  | Iop_ExpCmpNE16 => inl 57%nat | Iop_ExpCmpNE32 => inl 58%nat | Iop_ExpCmpNE64 => inl 59%nat
  | Iop_MullS8 => inl 60%nat | Iop_MullS16 => inl 61%nat | Iop_MullS32 => inl 62%nat
  | Iop_MullS64 => inl 63%nat | Iop_MullU8 => inl 64%nat | Iop_MullU16 => inl 65%nat
  | Iop_MullU32 => inl 66%nat | Iop_MullU64 => inl 67%nat | Iop_Clz64 => inl 68%nat
  | Iop_Clz32 => inl 69%nat | Iop_Ctz64 => inl 70%nat | Iop_Ctz32 => inl 71%nat
  | Iop_ClzNat64 => inl 72%nat | Iop_ClzNat32 => inl 73%nat | Iop_CtzNat64 => inl 74%nat
  | Iop_CtzNat32 => inl 75%nat | Iop_PopCount64 => inl 76%nat | Iop_PopCount32 => inl 77%nat
  | Iop_CmpLT32S => inl 78%nat | Iop_CmpLT64S => inl 79%nat | Iop_CmpLE32S => inl 80%nat
  | Iop_CmpLE64S => inl 81%nat | Iop_CmpLT32U => inl 82%nat | Iop_CmpLT64U => inl 83%nat
  | Iop_CmpLE32U => inl 84%nat | Iop_CmpLE64U => inl 85%nat | Iop_CmpNEZ8 => inl 86%nat
  | Iop_CmpNEZ16 => inl 87%nat | Iop_CmpNEZ32 => inl 88%nat | Iop_CmpNEZ64 => inl 89%nat
  | Iop_CmpwNEZ32 => inl 90%nat | Iop_CmpwNEZ64 => inl 91%nat | Iop_Left8 => inl 92%nat
  | Iop_Left16 => inl 93%nat | Iop_Left32 => inl 94%nat | Iop_Left64 => inl 95%nat
  | Iop_Max32U => inl 96%nat | Iop_CmpORD32U => inl 97%nat | Iop_CmpORD64U => inl 98%nat
  | Iop_CmpORD32S => inl 99%nat | Iop_CmpORD64S => inl 100%nat | Iop_8Uto16 => inl 101%nat
  | Iop_8Uto32 => inl 102%nat | Iop_8Uto64 => inl 103%nat | Iop_16Uto32 => inl 104%nat
  | Iop_16Uto64 => inl 105%nat | Iop_32Uto64 => inl 106%nat | Iop_8Sto16 => inl 107%nat
  | Iop_8Sto32 => inl 108%nat | Iop_8Sto64 => inl 109%nat | Iop_16Sto32 => inl 110%nat
  | Iop_16Sto64 => inl 111%nat | Iop_32Sto64 => inl 112%nat | Iop_64to8 => inl 113%nat
  | Iop_32to8 => inl 114%nat | Iop_64to16 => inl 115%nat | Iop_16to8 => inl 116%nat
  | Iop_16HIto8 => inl 117%nat | Iop_8HLto16 => inl 118%nat | Iop_32to16 => inl 119%nat
  | Iop_32HIto16 => inl 120%nat | Iop_16HLto32 => inl 121%nat | Iop_64to32 => inl 122%nat
  | Iop_64HIto32 => inl 123%nat | Iop_32HLto64 => inl 124%nat | Iop_128to64 => inl 125%nat
  | Iop_128HIto64 => inl 126%nat | Iop_64HLto128 => inl 127%nat | Iop_Not1 => inl 128%nat
  | Iop_And1 => inl 129%nat | Iop_Or1 => inl 130%nat | Iop_32to1 => inl 131%nat | Iop_64to1 => inl 132%nat
  | Iop_1Uto8 => inl 133%nat | Iop_1Uto32 => inl 134%nat | Iop_1Uto64 => inl 135%nat
  | Iop_1Sto8 => inl 136%nat | Iop_1Sto16 => inl 137%nat | Iop_1Sto32 => inl 138%nat
  | Iop_1Sto64 => inl 139%nat | Iop_CmpEQ8x8 => inl 140%nat | Iop_CmpEQ16x4 => inl 141%nat
  | Iop_CmpEQ32x2 => inl 142%nat | Iop_CmpEQ8x16 => inl 143%nat | Iop_CmpEQ16x8 => inl 144%nat
  | Iop_CmpEQ32x4 => inl 145%nat | Iop_CmpEQ64x2 => inl 146%nat | Iop_CmpEQ8x32 => inl 147%nat
  | Iop_CmpEQ16x16 => inl 148%nat | Iop_CmpEQ32x8 => inl 149%nat | Iop_CmpEQ64x4 => inl 150%nat
  | Iop_V128to64 => inl 151%nat | Iop_V128HIto64 => inl 152%nat | Iop_64HLtoV128 => inl 153%nat
  | Iop_64UtoV128 => inl 154%nat | Iop_ZeroHI64ofV128 => inl 155%nat | Iop_32UtoV128 => inl 156%nat
  | Iop_NotV128 => inl 157%nat | Iop_AndV128 => inl 158%nat | Iop_OrV128 => inl 159%nat
  | Iop_XorV128 => inl 160%nat | Iop_Sub8x16 => inl 161%nat | Iop_InterleaveLO8x16 => inl 162%nat
  | Iop_V256to64_0 => inl 163%nat | Iop_V256to64_1 => inl 164%nat | Iop_V256to64_2 => inl 165%nat
  | Iop_V256to64_3 => inl 166%nat | Iop_V128HLtoV256 => inl 167%nat | Iop_AndV256 => inl 168%nat
  | Iop_OrV256 => inl 169%nat | Iop_XorV256 => inl 170%nat | Iop_NotV256 => inl 171%nat
  | Iop_other n => inr n
  end.
Definition op_of (k : nat + Z) : option IROp :=
  match k with inl i => listed_ops !! i | inr n => Some (Iop_other n) end.
Lemma op_of_index op : op_of (op_index op) = Some op.
Proof. by destruct op. Qed.

#[global] Instance IROp_eq_dec : EqDecision IROp.
Proof.
  intros op1 op2. destruct (decide (op_index op1 = op_index op2)) as [H|H]; [left|right].
  - pose proof (op_of_index op1) as H1. rewrite H, op_of_index in H1. by injection H1.
  - by intros ->.
Defined.

(** * Types *)

(** The number of bits of a value. *)
Definition width (ty : IRType) : Z :=
  match ty with
  | Ity_INVALID => 0
  | Ity_I1 => 1 | Ity_I8 => 8 | Ity_I16 | Ity_F16 => 16
  | Ity_I32 | Ity_F32 | Ity_D32 => 32
  | Ity_I64 | Ity_F64 | Ity_D64 => 64
  | Ity_I128 | Ity_D128 | Ity_F128 | Ity_V128 => 128
  | Ity_V256 => 256
  end.

Definition typeOfIRConst (con : IRConst) : IRType :=
  match con with
  | Ico_U1 _ => Ity_I1 | Ico_U8 _ => Ity_I8 | Ico_U16 _ => Ity_I16 | Ico_U32 _ => Ity_I32
  | Ico_U64 _ => Ity_I64 | Ico_U128 _ => Ity_I128 | Ico_F32 _ | Ico_F32i _ => Ity_F32
  | Ico_F64 _ | Ico_F64i _ => Ity_F64 | Ico_V128 _ => Ity_V128 | Ico_V256 _ => Ity_V256
  end.

(** What a program of the intermediate representation runs on: the guest state and
    the memory ([S]), the clean helpers, and the operators that are not listed above. *)
Class Machine (S : Type) := {
  m_get : S -> Z -> IRType -> Z;
  m_getI : S -> IRRegArray -> Z -> Z -> Z;
  m_load : S -> IREndness -> IRType -> Z -> option Z;
  m_call : IRCallee -> list Z -> option Z;
  m_type : Z -> IRType * list IRType;
  m_op : Z -> list Z -> option Z;
}.

(** The type of the result of an operator, and those of its arguments. *)
Definition UNARY (ta1 td : IRType) : IRType * list IRType := (td, [ta1]).
Definition BINARY (ta1 ta2 td : IRType) : IRType * list IRType := (td, [ta1; ta2]).
Definition COMPARISON (ta : IRType) : IRType * list IRType := (Ity_I1, [ta; ta]).
Definition UNARY_COMPARISON (ta : IRType) : IRType * list IRType := (Ity_I1, [ta]).

Definition typeOfPrimop `{Machine St} (op : IROp) : IRType * list IRType :=
  match op with
  | Iop_Add8 | Iop_Sub8 | Iop_Mul8 | Iop_Or8 | Iop_And8 | Iop_Xor8 => BINARY Ity_I8 Ity_I8 Ity_I8
  | Iop_Add16 | Iop_Sub16 | Iop_Mul16 | Iop_Or16 | Iop_And16 | Iop_Xor16 => BINARY Ity_I16 Ity_I16 Ity_I16
  | Iop_CmpORD32U | Iop_CmpORD32S | Iop_Add32 | Iop_Sub32 | Iop_Mul32 | Iop_Or32 | Iop_And32 | Iop_Xor32
  | Iop_Max32U => BINARY Ity_I32 Ity_I32 Ity_I32
  | Iop_Add64 | Iop_Sub64 | Iop_Mul64 | Iop_Or64 | Iop_And64 | Iop_Xor64 | Iop_CmpORD64U | Iop_CmpORD64S
  | Iop_CmpEQ8x8 | Iop_CmpEQ16x4 | Iop_CmpEQ32x2 => BINARY Ity_I64 Ity_I64 Ity_I64
  | Iop_Shl8 | Iop_Shr8 | Iop_Sar8 => BINARY Ity_I8 Ity_I8 Ity_I8
  | Iop_Shl16 | Iop_Shr16 | Iop_Sar16 => BINARY Ity_I16 Ity_I8 Ity_I16
  | Iop_Shl32 | Iop_Shr32 | Iop_Sar32 => BINARY Ity_I32 Ity_I8 Ity_I32
  | Iop_Shl64 | Iop_Shr64 | Iop_Sar64 => BINARY Ity_I64 Ity_I8 Ity_I64
  | Iop_Not8 => UNARY Ity_I8 Ity_I8
  | Iop_Not16 => UNARY Ity_I16 Ity_I16
  | Iop_Not32 => UNARY Ity_I32 Ity_I32
  | Iop_Not64 => UNARY Ity_I64 Ity_I64
  | Iop_CmpEQ8 | Iop_CmpNE8 | Iop_CasCmpEQ8 | Iop_CasCmpNE8 | Iop_ExpCmpNE8 => COMPARISON Ity_I8
  | Iop_CmpEQ16 | Iop_CmpNE16 | Iop_CasCmpEQ16 | Iop_CasCmpNE16 | Iop_ExpCmpNE16 => COMPARISON Ity_I16
  | Iop_CmpEQ32 | Iop_CmpNE32 | Iop_CasCmpEQ32 | Iop_CasCmpNE32 | Iop_ExpCmpNE32
  | Iop_CmpLT32S | Iop_CmpLE32S | Iop_CmpLT32U | Iop_CmpLE32U => COMPARISON Ity_I32
  | Iop_CmpEQ64 | Iop_CmpNE64 | Iop_CasCmpEQ64 | Iop_CasCmpNE64 | Iop_ExpCmpNE64
  | Iop_CmpLT64S | Iop_CmpLE64S | Iop_CmpLT64U | Iop_CmpLE64U => COMPARISON Ity_I64
  | Iop_CmpNEZ8 => UNARY_COMPARISON Ity_I8
  | Iop_CmpNEZ16 => UNARY_COMPARISON Ity_I16
  | Iop_CmpNEZ32 => UNARY_COMPARISON Ity_I32
  | Iop_CmpNEZ64 => UNARY_COMPARISON Ity_I64
  | Iop_Left8 => UNARY Ity_I8 Ity_I8
  | Iop_Left16 => UNARY Ity_I16 Ity_I16
  | Iop_CmpwNEZ32 | Iop_Left32 => UNARY Ity_I32 Ity_I32
  | Iop_CmpwNEZ64 | Iop_Left64 => UNARY Ity_I64 Ity_I64
  | Iop_MullU8 | Iop_MullS8 => BINARY Ity_I8 Ity_I8 Ity_I16
  | Iop_MullU16 | Iop_MullS16 => BINARY Ity_I16 Ity_I16 Ity_I32
  | Iop_MullU32 | Iop_MullS32 => BINARY Ity_I32 Ity_I32 Ity_I64
  | Iop_MullU64 | Iop_MullS64 => BINARY Ity_I64 Ity_I64 Ity_I128
  | Iop_Clz32 | Iop_Ctz32 | Iop_ClzNat32 | Iop_CtzNat32 | Iop_PopCount32 => UNARY Ity_I32 Ity_I32
  | Iop_Clz64 | Iop_Ctz64 | Iop_ClzNat64 | Iop_CtzNat64 | Iop_PopCount64 => UNARY Ity_I64 Ity_I64
  | Iop_16HIto8 | Iop_16to8 => UNARY Ity_I16 Ity_I8
  | Iop_8HLto16 => BINARY Ity_I8 Ity_I8 Ity_I16
  | Iop_32HIto16 | Iop_32to16 => UNARY Ity_I32 Ity_I16
  | Iop_16HLto32 => BINARY Ity_I16 Ity_I16 Ity_I32
  | Iop_64HIto32 | Iop_64to32 => UNARY Ity_I64 Ity_I32
  | Iop_32HLto64 => BINARY Ity_I32 Ity_I32 Ity_I64
  | Iop_128HIto64 | Iop_128to64 => UNARY Ity_I128 Ity_I64
  | Iop_64HLto128 => BINARY Ity_I64 Ity_I64 Ity_I128
  | Iop_Not1 => UNARY Ity_I1 Ity_I1
  | Iop_And1 | Iop_Or1 => BINARY Ity_I1 Ity_I1 Ity_I1
  | Iop_1Uto8 | Iop_1Sto8 => UNARY Ity_I1 Ity_I8
  | Iop_1Sto16 => UNARY Ity_I1 Ity_I16
  | Iop_1Uto32 | Iop_1Sto32 => UNARY Ity_I1 Ity_I32
  | Iop_1Sto64 | Iop_1Uto64 => UNARY Ity_I1 Ity_I64
  | Iop_32to1 => UNARY Ity_I32 Ity_I1
  | Iop_64to1 => UNARY Ity_I64 Ity_I1
  | Iop_8Uto32 | Iop_8Sto32 => UNARY Ity_I8 Ity_I32
  | Iop_8Uto16 | Iop_8Sto16 => UNARY Ity_I8 Ity_I16
  | Iop_16Uto32 | Iop_16Sto32 => UNARY Ity_I16 Ity_I32
  | Iop_32Sto64 | Iop_32Uto64 => UNARY Ity_I32 Ity_I64
  | Iop_8Uto64 | Iop_8Sto64 => UNARY Ity_I8 Ity_I64
  | Iop_16Uto64 | Iop_16Sto64 => UNARY Ity_I16 Ity_I64
  | Iop_64to16 => UNARY Ity_I64 Ity_I16
  | Iop_32to8 => UNARY Ity_I32 Ity_I8
  | Iop_64to8 => UNARY Ity_I64 Ity_I8
  | Iop_V128to64 | Iop_V128HIto64 => UNARY Ity_V128 Ity_I64
  | Iop_64HLtoV128 => BINARY Ity_I64 Ity_I64 Ity_V128
  | Iop_64UtoV128 => UNARY Ity_I64 Ity_V128
  | Iop_32UtoV128 => UNARY Ity_I32 Ity_V128
  | Iop_ZeroHI64ofV128 | Iop_NotV128 => UNARY Ity_V128 Ity_V128
  | Iop_AndV128 | Iop_OrV128 | Iop_XorV128 | Iop_Sub8x16 | Iop_InterleaveLO8x16
  | Iop_CmpEQ8x16 | Iop_CmpEQ16x8 | Iop_CmpEQ32x4 | Iop_CmpEQ64x2 => BINARY Ity_V128 Ity_V128 Ity_V128
  | Iop_V256to64_0 | Iop_V256to64_1 | Iop_V256to64_2 | Iop_V256to64_3 => UNARY Ity_V256 Ity_I64
  | Iop_V128HLtoV256 => BINARY Ity_V128 Ity_V128 Ity_V256
  | Iop_AndV256 | Iop_OrV256 | Iop_XorV256
  | Iop_CmpEQ8x32 | Iop_CmpEQ16x16 | Iop_CmpEQ32x8 | Iop_CmpEQ64x4 => BINARY Ity_V256 Ity_V256 Ity_V256
  | Iop_NotV256 => UNARY Ity_V256 Ity_V256
  | Iop_other n => m_type n
  end.

(** * Meaning *)

(** Bit [i] of a vector constant stands for byte [i], 0x00 or 0xFF. *)
Definition expand (n c : Z) : Z := pack 8 ((fun i => mask 8 (Z.testbit c i)) <$> seqZ 0 n).

Definition value_of_const (con : IRConst) : Z :=
  match con with
  | Ico_U1 b => Z.b2z b
  | Ico_U8 n | Ico_U16 n | Ico_U32 n | Ico_U64 n | Ico_F32 n | Ico_F32i n | Ico_F64 n | Ico_F64i n => n
  | Ico_U128 c | Ico_V128 c => expand 16 c
  | Ico_V256 c => expand 32 c
  end.

(** The number of set bits below [n], of zeros above the highest one below [n], and
    of zeros below the lowest one ([n] if there is none). *)
Fixpoint popcount (n : nat) (x : Z) : Z :=
  match n with O => 0 | S k => popcount k x + Z.b2z (Z.testbit x (Z.of_nat k)) end.
Fixpoint clz (n : nat) (x : Z) : Z :=
  match n with O => 0 | S k => if Z.testbit x (Z.of_nat k) then 0 else 1 + clz k x end.
Fixpoint ctz_from (n : nat) (i x : Z) : Z :=
  match n with O => 0 | S k => if Z.testbit x i then 0 else 1 + ctz_from k (i + 1) x end.
Definition ctz (n : nat) (x : Z) : Z := ctz_from n 0 x.

Definition bool_of (b : bool) : option Z := Some (Z.b2z b).
Definition Not (w a : Z) : option Z := Some (wrap w (Z.lnot a)).
Definition Left (w a : Z) : option Z := Some (wrap w (Z.lor a (- a))).
Definition MullS (w a b : Z) : option Z := Some (wrap (2 * w) (swrap w a * swrap w b)).
Definition CmpORD (a b : Z) : option Z := Some (if a <? b then 8 else if b <? a then 4 else 2).
(** A shift by the width or more is undefined. *)
Definition shift (f : Z -> Z -> Z -> Z) (w a n : Z) : option Z := if n <? w then Some (f w n a) else None.

Definition eval_unop `{Machine St} (op : IROp) (a : Z) : option Z :=
  match op with
  | Iop_Not8 => Not 8 a | Iop_Not16 => Not 16 a | Iop_Not32 => Not 32 a | Iop_Not64 => Not 64 a
  | Iop_NotV128 => Not 128 a | Iop_NotV256 => Not 256 a | Iop_Not1 => Not 1 a
  | Iop_Clz64 => if a =? 0 then None else Some (clz 64 a)
  | Iop_Clz32 => if a =? 0 then None else Some (clz 32 a)
  | Iop_Ctz64 => if a =? 0 then None else Some (ctz 64 a)
  | Iop_Ctz32 => if a =? 0 then None else Some (ctz 32 a)
  | Iop_ClzNat64 => Some (clz 64 a) | Iop_ClzNat32 => Some (clz 32 a)
  | Iop_CtzNat64 => Some (ctz 64 a) | Iop_CtzNat32 => Some (ctz 32 a)
  | Iop_PopCount64 => Some (popcount 64 a) | Iop_PopCount32 => Some (popcount 32 a)
  | Iop_CmpNEZ8 | Iop_CmpNEZ16 | Iop_CmpNEZ32 | Iop_CmpNEZ64 => bool_of (negb (a =? 0))
  | Iop_CmpwNEZ32 => Some (mask 32 (negb (a =? 0))) | Iop_CmpwNEZ64 => Some (mask 64 (negb (a =? 0)))
  | Iop_Left8 => Left 8 a | Iop_Left16 => Left 16 a | Iop_Left32 => Left 32 a | Iop_Left64 => Left 64 a
  | Iop_8Uto16 | Iop_8Uto32 | Iop_8Uto64 | Iop_16Uto32 | Iop_16Uto64 | Iop_32Uto64
  | Iop_1Uto8 | Iop_1Uto32 | Iop_1Uto64 | Iop_64UtoV128 | Iop_32UtoV128 => Some a
  | Iop_8Sto16 => Some (wrap 16 (s8 a)) | Iop_8Sto32 => Some (wrap 32 (s8 a)) | Iop_8Sto64 => Some (wrap 64 (s8 a))
  | Iop_16Sto32 => Some (wrap 32 (s16 a)) | Iop_16Sto64 => Some (wrap 64 (s16 a))
  | Iop_32Sto64 => Some (wrap 64 (s32 a))
  | Iop_1Sto8 => Some (wrap 8 (- a)) | Iop_1Sto16 => Some (wrap 16 (- a))
  | Iop_1Sto32 => Some (wrap 32 (- a)) | Iop_1Sto64 => Some (wrap 64 (- a))
  | Iop_64to8 | Iop_32to8 | Iop_16to8 => Some (u8 a)
  | Iop_64to16 | Iop_32to16 => Some (u16 a)
  | Iop_64to32 => Some (u32 a)
  | Iop_128to64 | Iop_V128to64 | Iop_ZeroHI64ofV128 | Iop_V256to64_0 => Some (u64 a)
  | Iop_32to1 | Iop_64to1 => Some (wrap 1 a)
  | Iop_16HIto8 => Some (lane 8 1 a) | Iop_32HIto16 => Some (lane 16 1 a) | Iop_64HIto32 => Some (lane 32 1 a)
  | Iop_128HIto64 | Iop_V128HIto64 | Iop_V256to64_1 => Some (lane 64 1 a)
  | Iop_V256to64_2 => Some (lane 64 2 a) | Iop_V256to64_3 => Some (lane 64 3 a)
  | Iop_other n => m_op n [a]
  | _ => None
  end.

Definition eval_binop `{Machine St} (op : IROp) (a b : Z) : option Z :=
  match op with
  | Iop_Add8 => Some (add 8 a b) | Iop_Add16 => Some (add 16 a b)
  | Iop_Add32 => Some (add 32 a b) | Iop_Add64 => Some (add 64 a b)
  | Iop_Sub8 => Some (sub 8 a b) | Iop_Sub16 => Some (sub 16 a b)
  | Iop_Sub32 => Some (sub 32 a b) | Iop_Sub64 => Some (sub 64 a b)
  | Iop_Mul8 => Some (mul 8 a b) | Iop_Mul16 => Some (mul 16 a b)
  | Iop_Mul32 => Some (mul 32 a b) | Iop_Mul64 => Some (mul 64 a b)
  | Iop_Or8 | Iop_Or16 | Iop_Or32 | Iop_Or64 | Iop_OrV128 | Iop_OrV256 | Iop_Or1 => Some (Z.lor a b)
  | Iop_And8 | Iop_And16 | Iop_And32 | Iop_And64 | Iop_AndV128 | Iop_AndV256 | Iop_And1 => Some (Z.land a b)
  | Iop_Xor8 | Iop_Xor16 | Iop_Xor32 | Iop_Xor64 | Iop_XorV128 | Iop_XorV256 => Some (Z.lxor a b)
  | Iop_Shl8 => shift shl 8 a b | Iop_Shl16 => shift shl 16 a b
  | Iop_Shl32 => shift shl 32 a b | Iop_Shl64 => shift shl 64 a b
  | Iop_Shr8 => shift shr 8 a b | Iop_Shr16 => shift shr 16 a b
  | Iop_Shr32 => shift shr 32 a b | Iop_Shr64 => shift shr 64 a b
  | Iop_Sar8 => shift sar 8 a b | Iop_Sar16 => shift sar 16 a b
  | Iop_Sar32 => shift sar 32 a b | Iop_Sar64 => shift sar 64 a b
  | Iop_CmpEQ8 | Iop_CmpEQ16 | Iop_CmpEQ32 | Iop_CmpEQ64
  | Iop_CasCmpEQ8 | Iop_CasCmpEQ16 | Iop_CasCmpEQ32 | Iop_CasCmpEQ64 => bool_of (a =? b)
  | Iop_CmpNE8 | Iop_CmpNE16 | Iop_CmpNE32 | Iop_CmpNE64
  | Iop_CasCmpNE8 | Iop_CasCmpNE16 | Iop_CasCmpNE32 | Iop_CasCmpNE64
  | Iop_ExpCmpNE8 | Iop_ExpCmpNE16 | Iop_ExpCmpNE32 | Iop_ExpCmpNE64 => bool_of (negb (a =? b))
  | Iop_MullS8 => MullS 8 a b | Iop_MullS16 => MullS 16 a b
  | Iop_MullS32 => MullS 32 a b | Iop_MullS64 => MullS 64 a b
  | Iop_MullU8 | Iop_MullU16 | Iop_MullU32 | Iop_MullU64 => Some (a * b)
  | Iop_CmpLT32S => bool_of (s32 a <? s32 b) | Iop_CmpLT64S => bool_of (s64 a <? s64 b)
  | Iop_CmpLE32S => bool_of (s32 a <=? s32 b) | Iop_CmpLE64S => bool_of (s64 a <=? s64 b)
  | Iop_CmpLT32U | Iop_CmpLT64U => bool_of (a <? b)
  | Iop_CmpLE32U | Iop_CmpLE64U => bool_of (a <=? b)
  | Iop_Max32U => Some (Z.max a b)
  | Iop_CmpORD32U | Iop_CmpORD64U => CmpORD a b
  | Iop_CmpORD32S => CmpORD (s32 a) (s32 b) | Iop_CmpORD64S => CmpORD (s64 a) (s64 b)
  | Iop_8HLto16 => Some (a * 2 ^ 8 + b) | Iop_16HLto32 => Some (a * 2 ^ 16 + b)
  | Iop_32HLto64 => Some (a * 2 ^ 32 + b)
  | Iop_64HLto128 | Iop_64HLtoV128 => Some (a * 2 ^ 64 + b)
  | Iop_V128HLtoV256 => Some (a * 2 ^ 128 + b)
  | Iop_CmpEQ8x8 => Some (vec2 8 8 (cmpeq 8) a b) | Iop_CmpEQ16x4 => Some (vec2 16 4 (cmpeq 16) a b)
  | Iop_CmpEQ32x2 => Some (vec2 32 2 (cmpeq 32) a b)
  | Iop_CmpEQ8x16 => Some (vec2 8 16 (cmpeq 8) a b) | Iop_CmpEQ16x8 => Some (vec2 16 8 (cmpeq 16) a b)
  | Iop_CmpEQ32x4 => Some (vec2 32 4 (cmpeq 32) a b) | Iop_CmpEQ64x2 => Some (vec2 64 2 (cmpeq 64) a b)
  | Iop_CmpEQ8x32 => Some (vec2 8 32 (cmpeq 8) a b) | Iop_CmpEQ16x16 => Some (vec2 16 16 (cmpeq 16) a b)
  | Iop_CmpEQ32x8 => Some (vec2 32 8 (cmpeq 32) a b) | Iop_CmpEQ64x4 => Some (vec2 64 4 (cmpeq 64) a b)
  | Iop_Sub8x16 => Some (vec2 8 16 (sub 8) a b)
  | Iop_InterleaveLO8x16 => Some (pack 8 (interleave (lanes 8 8 b) (lanes 8 8 a)))
  | Iop_other n => m_op n [a; b]
  | _ => None
  end.

(** The operators with more arguments are all outside the list. *)
Definition eval_nop `{Machine St} (op : IROp) (args : list Z) : option Z :=
  match op with Iop_other n => m_op n args | _ => None end.

(** ** Expressions *)

(** The temporaries: the type of each ([IRTypeEnv]), and its value. *)
Definition IRTypeEnv := list IRType.
Definition typeOfIRTemp (tyenv : IRTypeEnv) (tmp : Z) : IRType :=
  if tmp <? 0 then Ity_INVALID else default Ity_INVALID (tyenv !! Z.to_nat tmp).

Section Expressions.
Context `{M : Machine St}.
Implicit Types (e : IRExpr) (tyenv : IRTypeEnv).

Fixpoint typeOfIRExpr tyenv e : IRType :=
  match e with
  | Iex_Load _ ty _ | Iex_Get _ ty | Iex_CCall _ ty _ => ty
  | Iex_GetI descr _ _ => elemTy descr
  | Iex_RdTmp t => typeOfIRTemp tyenv t
  | Iex_Const c => typeOfIRConst c
  | Iex_Qop op _ _ _ _ | Iex_Triop op _ _ _ | Iex_Binop op _ _ | Iex_Unop op _ => (typeOfPrimop op).1
  | Iex_ITE _ _ iffalse => typeOfIRExpr tyenv iffalse
  | Iex_Binder _ | Iex_VECRET | Iex_GSPTR => Ity_INVALID
  end.

Definition saneIRRegArray (arr : IRRegArray) : bool :=
  negb ((base arr <? 0) || (10000 <? base arr)) && negb (bool_decide (elemTy arr = Ity_I1)) &&
  negb ((nElems arr <=? 0) || (500 <? nElems arr)).

(** A callee has a name by its type here. *)
Definition saneIRCallee (cee : IRCallee) : bool :=
  negb (addr cee =? 0) && negb ((regparms cee <? 0) || (3 <? regparms cee)).

(** A constant holds a number of its C type; the code checks no more than a [Bool]. *)
Definition saneIRConst (con : IRConst) : bool :=
  match con with
  | Ico_U1 _ => true
  | Ico_U8 n => (0 <=? n) && (n <? 2 ^ 8) | Ico_U16 n | Ico_U128 n | Ico_V128 n => (0 <=? n) && (n <? 2 ^ 16)
  | Ico_U32 n | Ico_F32 n | Ico_F32i n | Ico_V256 n => (0 <=? n) && (n <? 2 ^ 32)
  | Ico_U64 n | Ico_F64 n | Ico_F64i n => (0 <=? n) && (n <? 2 ^ 64)
  end.

Definition args_match tyenv (op : IROp) (args : list IRExpr) : bool :=
  bool_decide ((typeOfPrimop op).2 = typeOfIRExpr tyenv <$> args).

(** [false] stands for a call of [sanityCheckFail]. *)
Fixpoint tcExpr tyenv (gWordTy : IRType) e : bool :=
  match e with
  | Iex_Get _ _ | Iex_RdTmp _ => true
  | Iex_GetI descr ix _ =>
      tcExpr tyenv gWordTy ix && bool_decide (typeOfIRExpr tyenv ix = Ity_I32) && saneIRRegArray descr
  | Iex_Qop op e1 e2 e3 e4 =>
      tcExpr tyenv gWordTy e1 && tcExpr tyenv gWordTy e2 && tcExpr tyenv gWordTy e3 && tcExpr tyenv gWordTy e4 &&
      args_match tyenv op [e1; e2; e3; e4]
  | Iex_Triop op e1 e2 e3 =>
      tcExpr tyenv gWordTy e1 && tcExpr tyenv gWordTy e2 && tcExpr tyenv gWordTy e3 &&
      args_match tyenv op [e1; e2; e3]
  | Iex_Binop op e1 e2 => tcExpr tyenv gWordTy e1 && tcExpr tyenv gWordTy e2 && args_match tyenv op [e1; e2]
  | Iex_Unop op e1 => tcExpr tyenv gWordTy e1 && args_match tyenv op [e1]
  | Iex_Load _ _ ea => tcExpr tyenv gWordTy ea && bool_decide (typeOfIRExpr tyenv ea = gWordTy)
  | Iex_CCall cee ty args =>
      saneIRCallee cee && (regparms cee <=? Z.of_nat (length args)) && (length args <=? 32)%nat &&
      forallb (tcExpr tyenv gWordTy) args &&
      negb (bool_decide (ty = Ity_I1)) && forallb (fun a => negb (bool_decide (typeOfIRExpr tyenv a = Ity_I1))) args
  | Iex_Const c => saneIRConst c
  | Iex_ITE c et ef =>
      tcExpr tyenv gWordTy c && tcExpr tyenv gWordTy et && tcExpr tyenv gWordTy ef &&
      bool_decide (typeOfIRExpr tyenv c = Ity_I1) && bool_decide (typeOfIRExpr tyenv et = typeOfIRExpr tyenv ef)
  | Iex_Binder _ | Iex_VECRET | Iex_GSPTR => false
  end.

(** What an expression evaluates to with the temporaries [tmps] in the state [s];
    [None] where it is undefined or traps. *)
Fixpoint eval (tyenv : IRTypeEnv) (tmps : Z -> Z) (s : St) e : option Z :=
  match e with
  | Iex_Get offset ty => Some (wrap (width ty) (m_get s offset ty))
  | Iex_GetI descr ix bias =>
      i ← eval tyenv tmps s ix; Some (wrap (width (elemTy descr)) (m_getI s descr i bias))
  | Iex_RdTmp t => Some (wrap (width (typeOfIRTemp tyenv t)) (tmps t))
  | Iex_Qop op e1 e2 e3 e4 =>
      a ← eval tyenv tmps s e1; b ← eval tyenv tmps s e2; c ← eval tyenv tmps s e3; d ← eval tyenv tmps s e4;
      wrap (width (typeOfPrimop op).1) <$> eval_nop op [a; b; c; d]
  | Iex_Triop op e1 e2 e3 =>
      a ← eval tyenv tmps s e1; b ← eval tyenv tmps s e2; c ← eval tyenv tmps s e3;
      wrap (width (typeOfPrimop op).1) <$> eval_nop op [a; b; c]
  | Iex_Binop op e1 e2 =>
      a ← eval tyenv tmps s e1; b ← eval tyenv tmps s e2;
      wrap (width (typeOfPrimop op).1) <$> eval_binop op a b
  | Iex_Unop op e1 => a ← eval tyenv tmps s e1; wrap (width (typeOfPrimop op).1) <$> eval_unop op a
  | Iex_Load en ty ea => a ← eval tyenv tmps s ea; wrap (width ty) <$> m_load s en ty a
  | Iex_Const c => Some (wrap (width (typeOfIRConst c)) (value_of_const c))
  | Iex_CCall cee ty args =>
      l ← mapM (eval tyenv tmps s) args;
      wrap (width ty) <$> m_call cee l
  | Iex_ITE c et ef =>
      b ← eval tyenv tmps s c; x ← eval tyenv tmps s et; y ← eval tyenv tmps s ef;
      Some (if b =? 0 then y else x)
  | Iex_Binder _ | Iex_VECRET | Iex_GSPTR => None
  end.

Definition isIRAtom e : bool := match e with Iex_RdTmp _ | Iex_Const _ => true | _ => false end.

(** Equality of floating point numbers, on their bits. *)
Definition ieee_eq (w inf a b : Z) : bool :=
  let magnitude x := wrap (w - 1) x in
  (magnitude a <=? inf) && (magnitude b <=? inf) && ((a =? b) || ((magnitude a =? 0) && (magnitude b =? 0))).

Definition eqIRConst (c1 c2 : IRConst) : outcome bool :=
  match c1, c2 with
  | Ico_U1 a, Ico_U1 b => Ret (eqb a b)
  | Ico_U8 a, Ico_U8 b | Ico_U16 a, Ico_U16 b | Ico_U32 a, Ico_U32 b | Ico_U64 a, Ico_U64 b
  | Ico_F32i a, Ico_F32i b | Ico_F64i a, Ico_F64i b | Ico_V128 a, Ico_V128 b | Ico_V256 a, Ico_V256 b => Ret (a =? b)
  | Ico_F32 a, Ico_F32 b => Ret (ieee_eq 32 0x7F800000 a b)
  | Ico_F64 a, Ico_F64 b => Ret (ieee_eq 64 0x7FF0000000000000 a b)
  | Ico_U128 _, Ico_U128 _ => Fault Panic
  | _, _ => Ret false
  end.

Definition eqIRAtom (a1 a2 : IRExpr) : outcome bool :=
  _ ← vg_assert (isIRAtom a1); _ ← vg_assert (isIRAtom a2);
  match a1, a2 with
  | Iex_RdTmp t1, Iex_RdTmp t2 => Ret (t1 =? t2)
  | Iex_Const c1, Iex_Const c2 => eqIRConst c1 c2
  | _, _ => Ret false
  end.

End Expressions.

(** * Lemmas *)

(** Induction that reaches the arguments of helper calls. *)
Lemma IRExpr_deep_ind (P : IRExpr -> Prop) :
  (∀ b, P (Iex_Binder b)) -> (∀ o ty, P (Iex_Get o ty)) ->
  (∀ d ix b, P ix -> P (Iex_GetI d ix b)) -> (∀ t, P (Iex_RdTmp t)) ->
  (∀ op a b c d, P a -> P b -> P c -> P d -> P (Iex_Qop op a b c d)) ->
  (∀ op a b c, P a -> P b -> P c -> P (Iex_Triop op a b c)) ->
  (∀ op a b, P a -> P b -> P (Iex_Binop op a b)) -> (∀ op a, P a -> P (Iex_Unop op a)) ->
  (∀ en ty a, P a -> P (Iex_Load en ty a)) -> (∀ c, P (Iex_Const c)) ->
  (∀ cee ty args, Forall P args -> P (Iex_CCall cee ty args)) ->
  (∀ c a b, P c -> P a -> P b -> P (Iex_ITE c a b)) -> P Iex_VECRET -> P Iex_GSPTR -> ∀ e, P e.
Proof.
  intros Hb Hg Hgi Ht Hq Htr Hbi Hu Hl Hc Hcc Hi Hv Hp. fix IH 1.
  intros [b|o ty|d ix b|t|op a b c d|op a b c|op a b|op a|en ty a|c|cee ty args|c a b| |].
  - apply Hb. - apply Hg. - apply Hgi, IH. - apply Ht. - apply Hq; apply IH. - apply Htr; apply IH.
  - apply Hbi; apply IH. - apply Hu, IH. - apply Hl, IH. - apply Hc.
  - apply Hcc. induction args as [|a args IHargs]; constructor; [apply IH|apply IHargs].
  - apply Hi; apply IH. - apply Hv. - apply Hp.
Qed.

Lemma wrap_id w x : 0 <= w -> wrap w (wrap w x) = wrap w x.
Proof. intros. by apply wrap_small, wrap_range. Qed.

Lemma width_nonneg ty : 0 <= width ty.
Proof. by destruct ty. Qed.

#[export] Hint Resolve width_nonneg : corelib.

Section Meaning.
Context `{M : Machine St}.
Implicit Types (tyenv : IRTypeEnv) (e : IRExpr) (s : St) (tmps : Z -> Z).

Lemma tcExpr_CCall tyenv gw cee ty args :
  tcExpr tyenv gw (Iex_CCall cee ty args) = true -> forallb (tcExpr tyenv gw) args = true.
Proof.
  cbn [tcExpr]. intros H. repeat (apply andb_true_iff in H as [H ?]).
  match goal with H : _ args = true |- _ => exact H end.
Qed.

(** A value is a number of the width of its type. *)
Lemma eval_range tyenv gw tmps s e v :
  tcExpr tyenv gw e = true -> eval tyenv tmps s e = Some v -> 0 <= v < 2 ^ width (typeOfIRExpr tyenv e).
Proof.
  assert (∀ w x, 0 <= wrap (width w) x < 2 ^ width w) as Hw by (intros; by apply wrap_range, width_nonneg).
  revert v. induction e; intros v Htc Hv; cbn [eval typeOfIRExpr] in *;
    repeat match type of Hv with
    | (?m ≫= _) = Some _ => let E := fresh "E" in destruct m eqn:E; [cbn [mbind option_bind] in Hv|done]
    | _ <$> ?m = Some _ => let E := fresh "E" in destruct m eqn:E; [cbn [fmap option_fmap option_map] in Hv|done]
    end; try discriminate; injection Hv as <-; try apply Hw.
  cbn [tcExpr] in Htc. b2p.
  repeat match goal with H : bool_decide _ = true |- _ => apply bool_decide_eq_true in H end.
  case_bool; [eauto|]. match goal with H : typeOfIRExpr _ _ = typeOfIRExpr _ _ |- _ => rewrite <- H end. eauto.
Qed.

End Meaning.

(** ** Vector constants *)

Lemma lane_expand n c i : 0 <= i < n -> lane 8 i (expand n c) = mask 8 (Z.testbit c i).
Proof.
  intros Hi. unfold expand. rewrite <- (Z2Nat.id i) at 1 by lia. apply lane_pack; [lia| |].
  - apply Forall_fmap, Forall_true. intros k. unfold mask, compose. destruct (Z.testbit c k); lia.
  - rewrite list_lookup_fmap, (proj2 (lookup_seqZ 0 n (Z.to_nat i) i)) by lia. done.
Qed.

Lemma expand_range n c : 0 <= n -> 0 <= expand n c < 2 ^ (8 * n).
Proof.
  intros Hn. unfold expand. pose proof (pack_range 8 ((fun i => mask 8 (Z.testbit c i)) <$> seqZ 0 n)) as H.
  rewrite length_fmap, length_seqZ, Z2Nat.id in H by lia. apply H; [lia|].
  apply Forall_fmap, Forall_true. intros k. unfold mask, compose. destruct (Z.testbit c k); lia.
Qed.

Lemma testbit_expand n c j : 0 <= n -> 0 <= j -> Z.testbit (expand n c) j = (j <? 8 * n) && Z.testbit c (j / 8).
Proof.
  intros Hn Hj. destruct (Z.ltb_spec j (8 * n)); simpl.
  - pose proof (lane_expand n c (j / 8)) as Hl. assert (0 <= j / 8 < n) as Hjn.
    { split; [apply Z.div_pos; lia|apply Z.div_lt_upper_bound; lia]. }
    specialize (Hl Hjn). apply (f_equal (fun x => Z.testbit x (j mod 8))) in Hl.
    pose proof (Z.mod_pos_bound j 8). rewrite testbit_lane in Hl by lia.
    replace (j mod 8 + 8 * (j / 8)) with j in Hl by (pose proof (Z.div_mod j 8); lia).
    replace (j mod 8 <? 8) with true in Hl by lia. simpl in Hl. rewrite Hl.
    unfold mask. destruct (Z.testbit c (j / 8)); [|apply Z.bits_0].
    change (2 ^ 8 - 1) with (Z.ones 8). apply Z.ones_spec_low. lia.
  - destruct (expand_range n c Hn). rewrite Z.testbit_false by lia.
    rewrite Z.div_small; [done|]. split; [lia|]. apply (Z.lt_le_trans _ (2 ^ (8 * n))); [lia|].
    apply Z.pow_le_mono_r; lia.
Qed.

(** A machine without state, helpers and other operators, for concrete inputs. *)
Definition empty_machine : Machine unit :=
  {| m_get _ _ _ := 0; m_getI _ _ _ _ := 0; m_load _ _ _ _ := None; m_call _ _ := None;
     m_type _ := (Ity_INVALID, []); m_op _ _ := None |}.
