(* ===== verification/IrFold.v ===== *)
(** * Folding of expressions

    vg/VEX/priv/ir_opt.c from [sameIRExprs] to [fold_Expr]: the comparison of
    expressions through the bindings of temporaries, and the folding of operators
    with constant arguments and by algebraic identities.

    [env] maps a temporary to the expression it is bound to, if that is known; a
    temporary outside the map is a NULL of the array. The debugging output
    ([vex_control.iropt_verbosity] above 0) is left out. *)

From Stdlib Require Import String.
From stdpp Require Import gmap.
From S2P Require Import Prelude Lanes VexIR.
Local Open Scope Z_scope.

(** * Definitions *)

(** ** The union [Ico]

    Its members start at the same byte. *)
Definition payload (con : IRConst) : Z :=
  match con with
  | Ico_U1 b => Z.b2z b
  | Ico_U8 n | Ico_U16 n | Ico_U32 n | Ico_U64 n | Ico_U128 n | Ico_F32 n | Ico_F32i n
  | Ico_F64 n | Ico_F64i n | Ico_V128 n | Ico_V256 n => n
  end.
Definition con_U1 con : bool := negb (u8 (payload con) =? 0).
Definition con_U8 con : Z := u8 (payload con).
Definition con_U16 con : Z := u16 (payload con).
Definition con_U32 con : Z := u32 (payload con).
Definition con_U64 con : Z := u64 (payload con).
Definition con_V128 con : Z := u16 (payload con).
Definition con_V256 con : Z := u32 (payload con).

(** ** Equality of expressions *)

Definition NODE_LIMIT : Z := 30.
Definition Env := gmap Z IRExpr.

Definition same_tag (e1 e2 : IRExpr) : bool :=
  match e1, e2 with
  | Iex_Binder _, Iex_Binder _ | Iex_Get _ _, Iex_Get _ _ | Iex_GetI _ _ _, Iex_GetI _ _ _
  | Iex_RdTmp _, Iex_RdTmp _ | Iex_Qop _ _ _ _ _, Iex_Qop _ _ _ _ _ | Iex_Triop _ _ _ _, Iex_Triop _ _ _ _
  | Iex_Binop _ _ _, Iex_Binop _ _ _ | Iex_Unop _ _, Iex_Unop _ _ | Iex_Load _ _ _, Iex_Load _ _ _
  | Iex_Const _, Iex_Const _ | Iex_CCall _ _ _, Iex_CCall _ _ _ | Iex_ITE _ _ _, Iex_ITE _ _ _
  | Iex_VECRET, Iex_VECRET | Iex_GSPTR, Iex_GSPTR => true
  | _, _ => false
  end.

Definition same_const_tag (c1 c2 : IRConst) : bool :=
  match c1, c2 with
  | Ico_U1 _, Ico_U1 _ | Ico_U8 _, Ico_U8 _ | Ico_U16 _, Ico_U16 _ | Ico_U32 _, Ico_U32 _ | Ico_U64 _, Ico_U64 _
  | Ico_U128 _, Ico_U128 _ | Ico_F32 _, Ico_F32 _ | Ico_F32i _, Ico_F32i _ | Ico_F64 _, Ico_F64 _
  | Ico_F64i _, Ico_F64i _ | Ico_V128 _, Ico_V128 _ | Ico_V256 _, Ico_V256 _ => true
  | _, _ => false
  end.

Definition same_const (c1 c2 : IRConst) : outcome bool :=
  _ ← vg_assert (same_const_tag c1 c2);
  match c1, c2 with
  | Ico_U1 a, Ico_U1 b => Ret (eqb a b)
  | Ico_U8 a, Ico_U8 b | Ico_U16 a, Ico_U16 b | Ico_U32 a, Ico_U32 b | Ico_U64 a, Ico_U64 b => Ret (a =? b)
  | _, _ => Ret false
  end.

(** [r && m], where [num_nodes_visited] is threaded through. *)
Definition and_then (r : bool * Z) (m : Z -> outcome (bool * Z)) : outcome (bool * Z) :=
  if r.1 then m r.2 else Ret (false, r.2).

Fixpoint sameIRExprs_aux2 (fuel : nat) (env : Env) (e1 e2 : IRExpr) (num_nodes_visited : Z) : outcome (bool * Z) :=
  match fuel with
  | O => Fault OutOfFuel
  | S fuel =>
      let sameIRExprs_aux e1 e2 n :=
        if negb (same_tag e1 e2) then Ret (false, n) else sameIRExprs_aux2 fuel env e1 e2 n in
      let n := num_nodes_visited + 1 in
      if NODE_LIMIT <? num_nodes_visited then Ret (false, n)
      else
        match e1, e2 with
        | Iex_RdTmp t1, Iex_RdTmp t2 =>
            if t1 =? t2 then Ret (true, n)
            else
              match env !! t1, env !! t2 with
              | Some r1, Some r2 => sameIRExprs_aux r1 r2 n
              | _, _ => Ret (false, n)
              end
        | Iex_Binop op1 a1 b1, Iex_Binop op2 a2 b2 =>
            if bool_decide (op1 = op2) then
              r ← sameIRExprs_aux a1 a2 n; and_then r (sameIRExprs_aux b1 b2)
            else Ret (false, n)
        | Iex_Unop op1 a1, Iex_Unop op2 a2 =>
            if bool_decide (op1 = op2) then sameIRExprs_aux a1 a2 n else Ret (false, n)
        | Iex_Const c1, Iex_Const c2 => b ← same_const c1 c2; Ret (b, n)
        | Iex_Triop op1 a1 b1 c1, Iex_Triop op2 a2 b2 c2 =>
            if bool_decide (op1 = op2) then
              r ← sameIRExprs_aux a1 a2 n; r ← and_then r (sameIRExprs_aux b1 b2);
              and_then r (sameIRExprs_aux c1 c2)
            else Ret (false, n)
        | Iex_ITE a1 b1 c1, Iex_ITE a2 b2 c2 =>
            r ← sameIRExprs_aux a1 a2 n; r ← and_then r (sameIRExprs_aux b1 b2);
            and_then r (sameIRExprs_aux c1 c2)
        | _, _ => Ret (false, n)
        end
  end.

(** Each call counts one node, so that there are at most 32 calls at a time. *)
Definition sameIRExprs (env : Env) (e1 e2 : IRExpr) : outcome bool :=
  if negb (same_tag e1 e2) then Ret false
  else r ← sameIRExprs_aux2 32 env e1 e2 0; Ret r.1.

(** ** Tests for constants *)

Definition isZeroU32 (e : IRExpr) : bool :=
  match e with Iex_Const (Ico_U32 n) => n =? 0 | _ => false end.
Definition isZeroV128 (e : IRExpr) : bool :=
  match e with Iex_Const (Ico_V128 n) => n =? 0x0000 | _ => false end.
Definition isOnesV128 (e : IRExpr) : bool :=
  match e with Iex_Const (Ico_V128 n) => n =? 0xFFFF | _ => false end.
Definition isZeroV256 (e : IRExpr) : bool :=
  match e with Iex_Const (Ico_V256 n) => n =? 0x00000000 | _ => false end.
Definition isZeroU (e : IRExpr) : outcome bool :=
  match e with
  | Iex_Const c =>
      match c with
      | Ico_U1 b => Ret (negb b)
      | Ico_U8 n | Ico_U16 n | Ico_U32 n | Ico_U64 n | Ico_V256 n => Ret (n =? 0)
      | _ => Fault Panic
      end
  | _ => Ret false
  end.
Definition isOnesU (e : IRExpr) : outcome bool :=
  match e with
  | Iex_Const c =>
      match c with
      | Ico_U8 n => Ret (n =? 0xFF)
      | Ico_U16 n => Ret (n =? 0xFFFF)
      | Ico_U32 n => Ret (n =? 0xFFFFFFFF)
      | Ico_U64 n => Ret (n =? 0xFFFFFFFFFFFFFFFF)
      | _ => Fault Panic
      end
  | _ => Ret false
  end.
Definition notBool (b : bool) : bool := if b then false else true.

Definition mkZeroOfPrimopResultType (op : IROp) : outcome IRExpr :=
  match op with
  | Iop_CmpNE32 => Ret (Iex_Const (Ico_U1 false))
  | Iop_Xor8 => Ret (Iex_Const (Ico_U8 0))
  | Iop_Xor16 => Ret (Iex_Const (Ico_U16 0))
  | Iop_Sub32 | Iop_Xor32 => Ret (Iex_Const (Ico_U32 0))
  | Iop_And64 | Iop_Sub64 | Iop_Xor64 => Ret (Iex_Const (Ico_U64 0))
  | Iop_XorV128 | Iop_AndV128 => Ret (Iex_Const (Ico_V128 0))
  | Iop_XorV256 | Iop_AndV256 => Ret (Iex_Const (Ico_V256 0))
  | _ => Fault Panic
  end.

Definition mkOnesOfPrimopResultType (op : IROp) : outcome IRExpr :=
  match op with
  | Iop_CmpEQ32 | Iop_CmpEQ64 => Ret (Iex_Const (Ico_U1 true))
  | Iop_Or8 => Ret (Iex_Const (Ico_U8 0xFF))
  | Iop_Or16 => Ret (Iex_Const (Ico_U16 0xFFFF))
  | Iop_Or32 => Ret (Iex_Const (Ico_U32 0xFFFFFFFF))
  | Iop_CmpEQ8x8 | Iop_CmpEQ16x4 | Iop_CmpEQ32x2 | Iop_Or64 => Ret (Iex_Const (Ico_U64 0xFFFFFFFFFFFFFFFF))
  | Iop_CmpEQ8x16 | Iop_CmpEQ16x8 | Iop_CmpEQ32x4 | Iop_CmpEQ64x2 => Ret (Iex_Const (Ico_V128 0xFFFF))
  | Iop_CmpEQ8x32 | Iop_CmpEQ16x16 | Iop_CmpEQ32x8 | Iop_CmpEQ64x4 => Ret (Iex_Const (Ico_V256 0xFFFFFFFF))
  | _ => Fault Panic
  end.

(** The loops of [fold_Clz64] and [fold_Clz32]: the first [i] for which the test
    holds; the assertion behind the loop fails if there is none. *)
Fixpoint first_that (test : Z -> bool) (l : list Z) : outcome Z :=
  match l with [] => Fault AssertFail | i :: l => if test i then Ret i else first_that test l end.
Definition fold_Clz64 (value : Z) : outcome Z :=
  _ ← vg_assert (negb (value =? 0));
  first_that (fun i => negb (0 =? Z.land value (u64 (Z.shiftl 1 (63 - i))))) (seqZ 0 64).
Definition fold_Clz32 (value : Z) : outcome Z :=
  _ ← vg_assert (negb (value =? 0));
  first_that (fun i => negb (0 =? Z.land value (u32 (Z.shiftl 1 (31 - i))))) (seqZ 0 32).

(** Following temporaries. A chain of bindings is at most as long as there are bindings. *)
Fixpoint chase_loop (fuel : nat) (env : Env) (e : IRExpr) : outcome (option IRExpr) :=
  match fuel with
  | O => Fault OutOfFuel
  | S fuel =>
      match e with
      | Iex_RdTmp t => match env !! t with None => Ret None | Some e => chase_loop fuel env e end
      | _ => Ret (Some e)
      end
  end.
Definition chase (env : Env) (e : IRExpr) : outcome (option IRExpr) := chase_loop (S (size env)) env e.
Definition chase1 (env : Env) (e : option IRExpr) : option IRExpr :=
  match e with Some (Iex_RdTmp t) => env !! t | _ => e end.

(** ** Operators with constant arguments

    [e] is the expression itself, the result where nothing is folded. *)

Definition fold_unop_const (e : IRExpr) (op : IROp) (con : IRConst) : outcome IRExpr :=
  let mkU1 b := Ret (Iex_Const (Ico_U1 b)) in
  let mkU8 n := Ret (Iex_Const (Ico_U8 n)) in
  let mkU16 n := Ret (Iex_Const (Ico_U16 n)) in
  let mkU32 n := Ret (Iex_Const (Ico_U32 n)) in
  let mkU64 n := Ret (Iex_Const (Ico_U64 n)) in
  let mkV128 n := Ret (Iex_Const (Ico_V128 n)) in
  match op with
  | Iop_1Uto8 => mkU8 (toUChar (if con_U1 con then 1 else 0))
  | Iop_1Uto32 => mkU32 (if con_U1 con then 1 else 0)
  | Iop_1Uto64 => mkU64 (if con_U1 con then 1 else 0)
  | Iop_1Sto8 => mkU8 (toUChar (if con_U1 con then 0xFF else 0))
  | Iop_1Sto16 => mkU16 (toUShort (if con_U1 con then 0xFFFF else 0))
  | Iop_1Sto32 => mkU32 (if con_U1 con then 0xFFFFFFFF else 0)
  | Iop_1Sto64 => mkU64 (if con_U1 con then 0xFFFFFFFFFFFFFFFF else 0)
  | Iop_8Sto32 => mkU32 (u32 (Z.shiftr (s32 (u32 (Z.shiftl (con_U8 con) 24))) 24))
  | Iop_16Sto32 => mkU32 (u32 (Z.shiftr (s32 (u32 (Z.shiftl (con_U16 con) 16))) 16))
  | Iop_8Uto64 => mkU64 (Z.land 0xFF (con_U8 con))
  | Iop_16Uto64 => mkU64 (Z.land 0xFFFF (con_U16 con))
  | Iop_8Uto32 => mkU32 (Z.land 0xFF (con_U8 con))
  | Iop_8Sto16 => mkU16 (u16 (Z.shiftr (s16 (u16 (Z.shiftl (con_U8 con) 8))) 8))
  | Iop_8Uto16 => mkU16 (u16 (Z.land 0xFF (con_U8 con)))
  | Iop_16Uto32 => mkU32 (Z.land 0xFFFF (con_U16 con))
  | Iop_32to16 => mkU16 (toUShort (Z.land 0xFFFF (con_U32 con)))
  | Iop_32to8 => mkU8 (toUChar (Z.land 0xFF (con_U32 con)))
  | Iop_32to1 => mkU1 (1 =? Z.land 1 (con_U32 con))
  | Iop_64to1 => mkU1 (1 =? Z.land 1 (con_U64 con))
  | Iop_NotV128 => mkV128 (u16 (Z.lnot (con_V128 con)))
  | Iop_Not64 => mkU64 (u64 (Z.lnot (con_U64 con)))
  | Iop_Not32 => mkU32 (u32 (Z.lnot (con_U32 con)))
  | Iop_Not16 => mkU16 (toUShort (Z.lnot (con_U16 con)))
  | Iop_Not8 => mkU8 (toUChar (Z.lnot (con_U8 con)))
  | Iop_Not1 => mkU1 (notBool (con_U1 con))
  | Iop_64to8 => mkU8 (u8 (Z.land (con_U64 con) 0xFF))
  | Iop_64to16 => mkU16 (u16 (Z.land (con_U64 con) 0xFFFF))
  | Iop_64to32 => mkU32 (u32 (Z.land (con_U64 con) 0x00000000FFFFFFFF))
  | Iop_64HIto32 => mkU32 (u32 (Z.shiftr (con_U64 con) 32))
  | Iop_32Uto64 => mkU64 (Z.land 0xFFFFFFFF (con_U32 con))
  | Iop_16Sto64 => mkU64 (u64 (Z.shiftr (s64 (u64 (Z.shiftl (con_U16 con) 48))) 48))
  | Iop_32Sto64 => mkU64 (u64 (Z.shiftr (s64 (u64 (Z.shiftl (con_U32 con) 32))) 32))
  | Iop_16to8 => mkU8 (u8 (Z.land (con_U16 con) 0xFF))
  | Iop_16HIto8 => mkU8 (u8 (Z.land (Z.shiftr (con_U16 con) 8) 0xFF))
  | Iop_CmpNEZ8 => mkU1 (negb (0 =? Z.land 0xFF (con_U8 con)))
  | Iop_CmpNEZ32 => mkU1 (negb (0 =? Z.land 0xFFFFFFFF (con_U32 con)))
  | Iop_CmpNEZ64 => mkU1 (negb (0 =? con_U64 con))
  | Iop_CmpwNEZ32 => if con_U32 con =? 0 then mkU32 0 else mkU32 0xFFFFFFFF
  | Iop_CmpwNEZ64 => if con_U64 con =? 0 then mkU64 0 else mkU64 0xFFFFFFFFFFFFFFFF
  | Iop_Left32 =>
      let s := s32 (Z.land (con_U32 con) 0xFFFFFFFF) in
      neg ← int_ (- s); mkU32 (u32 (Z.lor s neg))
  | Iop_Left64 =>
      let s := s64 (con_U64 con) in
      neg ← long_ (- s); mkU64 (u64 (Z.lor s neg))
  | Iop_Clz32 => if negb (con_U32 con =? 0) then r ← fold_Clz32 (con_U32 con); mkU32 r else Ret e
  | Iop_Clz64 => if negb (con_U64 con =? 0) then r ← fold_Clz64 (con_U64 con); mkU64 r else Ret e
  | Iop_32UtoV128 => if 0 =? con_U32 con then mkV128 0 else Ret e
  | Iop_V128to64 => if 0 =? Z.land (Z.shiftr (con_V128 con) 0) 0xFF then mkU64 0 else Ret e
  | Iop_V128HIto64 => if 0 =? Z.land (Z.shiftr (con_V128 con) 8) 0xFF then mkU64 0 else Ret e
  | Iop_64UtoV128 => if 0 =? con_U64 con then mkV128 0 else Ret e
  | Iop_V256to64_0 | Iop_V256to64_1 | Iop_V256to64_2 | Iop_V256to64_3 =>
      if con_V256 con =? 0x00000000 then mkU64 0 else Ret e
  | Iop_ZeroHI64ofV128 => if con_V128 con =? 0x0000 then mkV128 0 else Ret e
  | _ => Ret e
  end.

Definition fold_binop_const (e : IRExpr) (op : IROp) (con1 con2 : IRConst) : outcome IRExpr :=
  let mkU1 b := Ret (Iex_Const (Ico_U1 b)) in
  let mkU8 n := Ret (Iex_Const (Ico_U8 n)) in
  let mkU16 n := Ret (Iex_Const (Ico_U16 n)) in
  let mkU32 n := Ret (Iex_Const (Ico_U32 n)) in
  let mkU64 n := Ret (Iex_Const (Ico_U64 n)) in
  let mkV128 n := Ret (Iex_Const (Ico_V128 n)) in
  let shift_by_U8 (width : Z) (f : Z -> outcome IRExpr) :=
    _ ← vg_assert (same_const_tag con2 (Ico_U8 0));
    let shift := con_U8 con2 in
    if (0 <=? shift) && (shift <=? width - 1) then f shift else Ret e in
  match op with
  | Iop_Or8 => mkU8 (toUChar (Z.lor (con_U8 con1) (con_U8 con2)))
  | Iop_Or16 => mkU16 (toUShort (Z.lor (con_U16 con1) (con_U16 con2)))
  | Iop_Or32 => mkU32 (Z.lor (con_U32 con1) (con_U32 con2))
  | Iop_Or64 => mkU64 (Z.lor (con_U64 con1) (con_U64 con2))
  | Iop_OrV128 => mkV128 (u16 (Z.lor (con_V128 con1) (con_V128 con2)))
  | Iop_Xor8 => mkU8 (toUChar (Z.lxor (con_U8 con1) (con_U8 con2)))
  | Iop_Xor16 => mkU16 (toUShort (Z.lxor (con_U16 con1) (con_U16 con2)))
  | Iop_Xor32 => mkU32 (Z.lxor (con_U32 con1) (con_U32 con2))
  | Iop_Xor64 => mkU64 (Z.lxor (con_U64 con1) (con_U64 con2))
  | Iop_XorV128 => mkV128 (u16 (Z.lxor (con_V128 con1) (con_V128 con2)))
  | Iop_And8 => mkU8 (toUChar (Z.land (con_U8 con1) (con_U8 con2)))
  | Iop_And16 => mkU16 (toUShort (Z.land (con_U16 con1) (con_U16 con2)))
  | Iop_And32 => mkU32 (Z.land (con_U32 con1) (con_U32 con2))
  | Iop_And64 => mkU64 (Z.land (con_U64 con1) (con_U64 con2))
  | Iop_AndV128 => mkV128 (u16 (Z.land (con_V128 con1) (con_V128 con2)))
  | Iop_Add8 => mkU8 (toUChar (con_U8 con1 + con_U8 con2))
  | Iop_Add32 => mkU32 (u32 (con_U32 con1 + con_U32 con2))
  | Iop_Add64 => mkU64 (u64 (con_U64 con1 + con_U64 con2))
  | Iop_Sub8 => mkU8 (toUChar (con_U8 con1 - con_U8 con2))
  | Iop_Sub32 => mkU32 (u32 (con_U32 con1 - con_U32 con2))
  | Iop_Sub64 => mkU64 (u64 (con_U64 con1 - con_U64 con2))
  | Iop_Max32U => mkU32 (if con_U32 con2 <? con_U32 con1 then con_U32 con1 else con_U32 con2)
  | Iop_Mul32 => mkU32 (u32 (con_U32 con1 * con_U32 con2))
  | Iop_Mul64 => mkU64 (u64 (con_U64 con1 * con_U64 con2))
  | Iop_MullS32 => sres ← long_ (s64 (s32 (con_U32 con1)) * s64 (s32 (con_U32 con2))); mkU64 (u64 sres)
  | Iop_Shl32 => shift_by_U8 32 (fun shift => mkU32 (u32 (Z.shiftl (con_U32 con1) shift)))
  | Iop_Shl64 => shift_by_U8 64 (fun shift => mkU64 (u64 (Z.shiftl (con_U64 con1) shift)))
  | Iop_Sar32 => shift_by_U8 32 (fun shift => mkU32 (u32 (Z.shiftr (s32 (con_U32 con1)) shift)))
  | Iop_Sar64 => shift_by_U8 64 (fun shift => mkU64 (u64 (Z.shiftr (s64 (con_U64 con1)) shift)))
  | Iop_Shr32 => shift_by_U8 32 (fun shift => mkU32 (Z.shiftr (con_U32 con1) shift))
  | Iop_Shr64 => shift_by_U8 64 (fun shift => mkU64 (Z.shiftr (con_U64 con1) shift))
  | Iop_CmpEQ32 => mkU1 (con_U32 con1 =? con_U32 con2)
  | Iop_CmpEQ64 => mkU1 (con_U64 con1 =? con_U64 con2)
  | Iop_CmpNE8 | Iop_CasCmpNE8 | Iop_ExpCmpNE8 =>
      mkU1 (negb (Z.land 0xFF (con_U8 con1) =? Z.land 0xFF (con_U8 con2)))
  | Iop_CmpNE32 | Iop_CasCmpNE32 | Iop_ExpCmpNE32 => mkU1 (negb (con_U32 con1 =? con_U32 con2))
  | Iop_CmpNE64 | Iop_CasCmpNE64 | Iop_ExpCmpNE64 => mkU1 (negb (con_U64 con1 =? con_U64 con2))
  | Iop_CmpLE32U => mkU1 (con_U32 con1 <=? con_U32 con2)
  | Iop_CmpLE64U => mkU1 (con_U64 con1 <=? con_U64 con2)
  | Iop_CmpLE32S => mkU1 (s32 (con_U32 con1) <=? s32 (con_U32 con2))
  | Iop_CmpLE64S => mkU1 (s64 (con_U64 con1) <=? s64 (con_U64 con2))
  | Iop_CmpLT32S => mkU1 (s32 (con_U32 con1) <? s32 (con_U32 con2))
  | Iop_CmpLT64S => mkU1 (s64 (con_U64 con1) <? s64 (con_U64 con2))
  | Iop_CmpLT32U => mkU1 (con_U32 con1 <? con_U32 con2)
  | Iop_CmpLT64U => mkU1 (con_U64 con1 <? con_U64 con2)
  | Iop_CmpORD32S =>
      let s32a := s32 (con_U32 con1) in let s32b := s32 (con_U32 con2) in
      mkU32 (if s32a <? s32b then 0x8 else if s32b <? s32a then 0x4 else 0x2)
  | Iop_32HLto64 => mkU64 (Z.lor (u64 (Z.shiftl (con_U32 con1) 32)) (con_U32 con2))
  | Iop_64HLtoV128 => if (0 =? con_U64 con1) && (0 =? con_U64 con2) then mkV128 0 else Ret e
  | Iop_V128HLtoV256 =>
      if isZeroV128 (Iex_Const con1) && isZeroV128 (Iex_Const con2) then Ret (Iex_Const (Ico_V256 0)) else Ret e
  | Iop_InterleaveLO8x16 => if (0 =? con_V128 con1) && (0 =? con_V128 con2) then mkV128 0 else Ret e
  | _ => Ret e
  end.

(** ** Identities *)

(** The case [Iop_PopCount64]: the number of trailing zeros in disguise. *)
Definition fold_popcount (env : Env) (e arg : IRExpr) : outcome IRExpr :=
  a1 ← chase env arg;
  match a1 with
  | Some (Iex_Binop Iop_And64 x1 x2) =>
      a11 ← chase env x1;
      match a11 with
      | Some (Iex_Binop Iop_Add64 a111 y2) =>
          a12 ← chase env x2;
          match a12 with
          | Some (Iex_Unop Iop_Not64 a121) =>
              a112 ← chase env y2;
              match a112 with
              | Some a112 =>
                  same ← eqIRAtom a111 a121;
                  if negb same then Ret e
                  else ones ← isOnesU a112; if negb ones then Ret e else Ret (Iex_Unop Iop_CtzNat64 a111)
              | None => Ret e
              end
          | _ => Ret e
          end
      | _ => Ret e
      end
  | _ => Ret e
  end.

Definition fold_unop_other (env : Env) (e : IRExpr) (op : IROp) (arg : IRExpr) : outcome IRExpr :=
  match op with
  | Iop_PopCount64 => fold_popcount env e arg
  | _ => Ret e
  end.

(** [if (isZeroU(x)) { e2 = y; break; }], and what follows. *)
Definition if_zero (x y : IRExpr) (rest : outcome IRExpr) : outcome IRExpr :=
  z ← isZeroU x; if z : bool then Ret y else rest.
Definition if_ones (x y : IRExpr) (rest : outcome IRExpr) : outcome IRExpr :=
  z ← isOnesU x; if z : bool then Ret y else rest.
Definition if_same (env : Env) (e1 e2 : IRExpr) (y rest : outcome IRExpr) : outcome IRExpr :=
  z ← sameIRExprs env e1 e2; if z : bool then y else rest.

Definition fold_binop_other (env : Env) (e : IRExpr) (op : IROp) (arg1 arg2 : IRExpr) : outcome IRExpr :=
  let same := if_same env arg1 arg2 in
  match op with
  | Iop_Shl32 | Iop_Shl64 | Iop_Shr64 | Iop_Sar64 =>
      if_zero arg2 arg1 (if_zero arg1 arg1 (Ret e))
  | Iop_Sar32 | Iop_Shr32 => if_zero arg2 arg1 (Ret e)
  | Iop_Or8 | Iop_Or16 | Iop_Or32 | Iop_Or64 | Iop_Max32U =>
      if_zero arg2 arg1 (if_zero arg1 arg2 (
      ones ← isOnesU arg1; ones ← (if ones : bool then Ret true else isOnesU arg2);
      if ones : bool then mkOnesOfPrimopResultType op
      else same (Ret arg1) (Ret e)))
  | Iop_Add8 => same (Ret (Iex_Binop Iop_Shl8 arg1 (Iex_Const (Ico_U8 1)))) (Ret e)
  | Iop_Add32 | Iop_Add64 =>
      if_zero arg2 arg1 (if_zero arg1 arg2 (
      same (Ret (Iex_Binop (if bool_decide (op = Iop_Add32) then Iop_Shl32 else Iop_Shl64) arg1 (Iex_Const (Ico_U8 1))))
        (Ret e)))
  | Iop_Sub32 | Iop_Sub64 => if_zero arg2 arg1 (same (mkZeroOfPrimopResultType op) (Ret e))
  | Iop_Sub8x16 => if isZeroV128 arg2 then Ret arg1 else Ret e
  | Iop_And8 | Iop_And16 | Iop_And32 | Iop_And64 =>
      if_ones arg2 arg1 (if_ones arg1 arg2 (if_zero arg2 arg2 (if_zero arg1 arg1 (same (Ret arg1) (Ret e)))))
  | Iop_AndV128 | Iop_AndV256 =>
      same (Ret arg1) (
      if bool_decide (op = Iop_AndV256) && (isZeroV256 arg1 || isZeroV256 arg2) then mkZeroOfPrimopResultType op
      else if bool_decide (op = Iop_AndV128) && (isZeroV128 arg1 || isZeroV128 arg2) then mkZeroOfPrimopResultType op
      else if bool_decide (op = Iop_AndV128) && isOnesV128 arg2 then Ret arg1
      else Ret e)
  | Iop_OrV128 | Iop_OrV256 =>
      same (Ret arg1) (
      if bool_decide (op = Iop_OrV128) && isZeroV128 arg2 then Ret arg1
      else if bool_decide (op = Iop_OrV128) && isZeroV128 arg1 then Ret arg2
      else if bool_decide (op = Iop_OrV256) && isZeroV256 arg2 then Ret arg1
      else Ret e)
  | Iop_Xor8 | Iop_Xor16 | Iop_Xor32 | Iop_Xor64 | Iop_XorV128 | Iop_XorV256 =>
      same (mkZeroOfPrimopResultType op) (
      if bool_decide (op = Iop_XorV128) then (if isZeroV128 arg2 then Ret arg1 else Ret e)
      else if_zero arg1 arg2 (if_zero arg2 arg1 (Ret e)))
  | Iop_CmpNE32 =>
      same (mkZeroOfPrimopResultType op) (
      if isZeroU32 arg2 then
        a1 ← chase env arg1;
        match a1 with
        | Some (Iex_Unop Iop_1Uto32 arg) => Ret arg
        | _ => Ret e
        end
      else Ret e)
  | Iop_CmpEQ32 | Iop_CmpEQ64 | Iop_CmpEQ8x8 | Iop_CmpEQ16x4 | Iop_CmpEQ32x2
  | Iop_CmpEQ8x16 | Iop_CmpEQ16x8 | Iop_CmpEQ32x4 | Iop_CmpEQ64x2
  | Iop_CmpEQ8x32 | Iop_CmpEQ16x16 | Iop_CmpEQ32x8 | Iop_CmpEQ64x4 => same (mkOnesOfPrimopResultType op) (Ret e)
  | _ => Ret e
  end.

Definition fold_Expr_WRK (env : Env) (e : IRExpr) : outcome IRExpr :=
  match e with
  | Iex_Unop op arg =>
      match arg with
      | Iex_Const con => fold_unop_const e op con
      | _ => fold_unop_other env e op arg
      end
  | Iex_Binop op arg1 arg2 =>
      match arg1, arg2 with
      | Iex_Const con1, Iex_Const con2 => fold_binop_const e op con1 con2
      | _, _ => fold_binop_other env e op arg1 arg2
      end
  | Iex_ITE cond iftrue iffalse =>
      match cond with
      | Iex_Const con =>
          _ ← vg_assert (same_const_tag con (Ico_U1 false));
          Ret (if con_U1 con then iftrue else iffalse)
      | _ => if_same env iftrue iffalse (Ret iffalse) (Ret e)
      end
  | _ => Ret e
  end.

(** [env] is [None] for NULL: then nothing is folded. *)
Definition fold_Expr (env : option Env) (e : IRExpr) : outcome IRExpr :=
  match env with None => Ret e | Some env => fold_Expr_WRK env e end.

(** * Lemmas *)

(** ** Masks and conversions *)

Lemma land_mask_r w x : 0 <= w -> Z.land x (Z.ones w) = wrap w x.
Proof. intros. by rewrite wrap_land. Qed.
Lemma land_mask_l w x : 0 <= w -> Z.land (Z.ones w) x = wrap w x.
Proof. intros. by rewrite Z.land_comm, wrap_land. Qed.

Lemma land_1 x : Z.land 1 x = wrap 1 x. Proof. by apply (land_mask_l 1). Qed.
Lemma land_FF_l x : Z.land 0xFF x = u8 x. Proof. by apply (land_mask_l 8). Qed.
Lemma land_FF_r x : Z.land x 0xFF = u8 x. Proof. by apply (land_mask_r 8). Qed.
Lemma land_FFFF_l x : Z.land 0xFFFF x = u16 x. Proof. by apply (land_mask_l 16). Qed.
Lemma land_FFFF_r x : Z.land x 0xFFFF = u16 x. Proof. by apply (land_mask_r 16). Qed.
Lemma land_FFFFFFFF_l x : Z.land 0xFFFFFFFF x = u32 x. Proof. by apply (land_mask_l 32). Qed.
Lemma land_FFFFFFFF_r x : Z.land x 0xFFFFFFFF = u32 x. Proof. by apply (land_mask_r 32). Qed.
Lemma u8_u8 x : u8 (u8 x) = u8 x. Proof. by apply wrap_id. Qed.
Lemma u16_u16 x : u16 (u16 x) = u16 x. Proof. by apply wrap_id. Qed.
Lemma u32_u32 x : u32 (u32 x) = u32 x. Proof. by apply wrap_id. Qed.
Lemma u64_u64 x : u64 (u64 x) = u64 x. Proof. by apply wrap_id. Qed.

Create HintDb masks discriminated.
#[export] Hint Rewrite land_1 land_FF_l land_FF_r land_FFFF_l land_FFFF_r land_FFFFFFFF_l land_FFFFFFFF_r
  u8_u8 u16_u16 u32_u32 u64_u64 : masks.

Lemma toUChar_u8 x : toUChar x = u8 x.
Proof. apply toUChar_wrap. Qed.
Lemma toUShort_u16 x : toUShort x = u16 x.
Proof. apply toUShort_wrap. Qed.

#[export] Hint Rewrite toUChar_u8 toUShort_u16 : masks.

(** The sign extension by two shifts. *)
Lemma sign_extend v k n : 0 < v -> 0 <= k -> 0 <= n < 2 ^ v ->
  Z.shiftr (swrap (v + k) (wrap (v + k) (Z.shiftl n k))) k = swrap v n.
Proof.
  intros Hv Hk Hn. rewrite Z.shiftl_mul_pow2, Z.shiftr_div_pow2 by lia.
  assert (0 < 2 ^ k) by (apply Z.pow_pos_nonneg; lia).
  rewrite wrap_small by (rewrite Z.pow_add_r by lia; nia). unfold swrap.
  replace (v + k - 1) with (v - 1 + k) by lia. rewrite !Z.pow_add_r by lia.
  rewrite <- Z.mul_add_distr_r, Z.mul_mod_distr_r by (try apply Z.pow_nonzero; lia).
  rewrite <- Z.mul_sub_distr_r, Z.div_mul by lia. done.
Qed.

Lemma wrap_lor w a b : 0 <= w -> wrap w (Z.lor a b) = Z.lor (wrap w a) (wrap w b).
Proof. intros. by rewrite !wrap_land, Z.land_lor_distr_l. Qed.

Lemma wrap_opp_swrap w a : 0 < w -> wrap w (- swrap w a) = wrap w (- a).
Proof.
  intros. destruct (swrap_wrap w a) as [k ->]; [lia|].
  replace (- (a + k * 2 ^ w)) with (- a + - k * 2 ^ w) by lia. apply wrap_add_mul. lia.
Qed.

Lemma left_swrap w a : 0 < w -> wrap w (Z.lor (swrap w a) (- swrap w a)) = wrap w (Z.lor a (- a)).
Proof. intros. rewrite !wrap_lor, wrap_opp_swrap, wrap_swrap by lia. done. Qed.

Lemma swrap_range w a : 0 < w -> - 2 ^ (w - 1) <= swrap w a < 2 ^ (w - 1).
Proof.
  intros Hw. unfold swrap. pose proof (Z.mod_pos_bound (a + 2 ^ (w - 1)) (2 ^ w)) as H.
  replace (2 ^ w) with (2 * 2 ^ (w - 1)) in * by (rewrite <- Z.pow_succ_r by lia; f_equal; lia).
  pose proof (Z.pow_pos_nonneg 2 (w - 1)). lia.
Qed.

Lemma wrap_lower w x : 0 < w -> 0 <= x < 2 ^ w -> wrap w (Z.lnot x) = 2 ^ w - 1 - x.
Proof.
  intros Hw Hx. unfold Z.lnot. replace (Z.pred (- x)) with (2 ^ w - 1 - x + -1 * 2 ^ w) by lia.
  rewrite wrap_add_mul by lia. apply wrap_small. lia.
Qed.

(** ** Counting zeros *)

Lemma first_that_ext f g l : (∀ i, i ∈ l -> f i = g i) -> first_that f l = first_that g l.
Proof.
  induction l as [|i l IH]; intros H; [done|]. simpl. rewrite (H i) by set_solver.
  destruct (g i); [done|]. apply IH. intros; apply H; set_solver.
Qed.

Lemma land_shifted_one w value k : 0 <= k < w ->
  negb (0 =? Z.land value (wrap w (Z.shiftl 1 k))) = Z.testbit value k.
Proof.
  intros Hk. rewrite wrap_small.
  - by rewrite Z.eqb_sym, land_bit, negb_involutive by lia.
  - rewrite Z.shiftl_1_l. pose proof (Z.pow_lt_mono_r 2 k w). pose proof (Z.pow_pos_nonneg 2 k). lia.
Qed.

Lemma clz_range n x : 0 <= clz n x <= Z.of_nat n.
Proof. induction n; simpl; [lia|]. case_bool; lia. Qed.

(** The loop finds the highest set bit. *)
Lemma first_that_clz n k x : 0 <= x < 2 ^ Z.of_nat n -> x ≠ 0 ->
  first_that (fun i => Z.testbit x (Z.of_nat n - 1 - (i - k))) (seqZ k (Z.of_nat n)) = Ret (k + clz n x).
Proof.
  revert k. induction n as [|n IH]; intros k Hx Hnz; [simpl in Hx; lia|].
  rewrite seqZ_cons by lia. cbn [first_that clz].
  replace (Z.of_nat (S n) - 1 - (k - k)) with (Z.of_nat n) by lia.
  destruct (Z.testbit x (Z.of_nat n)) eqn:Hb; [f_equal; lia|].
  replace (Z.pred (Z.of_nat (S n))) with (Z.of_nat n) by lia.
  rewrite (first_that_ext _ (fun i => Z.testbit x (Z.of_nat n - 1 - (i - Z.succ k)))).
  - rewrite IH; [f_equal; lia| |done]. split; [lia|]. apply Z.nle_gt. intros Hge.
    assert (Z.testbit x (Z.of_nat n) = true); [|congruence].
    rewrite Z.testbit_true by lia. rewrite Nat2Z.inj_succ, Z.pow_succ_r in Hx by lia.
    assert (x / 2 ^ Z.of_nat n = 1) as ->; [|done].
    symmetry. apply Z.div_unique with (x - 2 ^ Z.of_nat n); lia.
  - intros i _. f_equal. lia.
Qed.

Lemma fold_Clz64_clz x : 0 < x < 2 ^ 64 -> fold_Clz64 x = Ret (clz 64 x).
Proof.
  intros Hx. unfold fold_Clz64. replace (x =? 0) with false by lia. cbn [negb vg_assert mbind outcome_bind].
  rewrite (first_that_ext _ (fun i => Z.testbit x (Z.of_nat 64 - 1 - (i - 0)))).
  - apply (first_that_clz 64 0 x); [|lia]. change (Z.of_nat 64) with 64. lia.
  - intros i [? ?]%elem_of_seqZ. unfold u64. rewrite land_shifted_one by lia. f_equal. lia.
Qed.

Lemma fold_Clz32_clz x : 0 < x < 2 ^ 32 -> fold_Clz32 x = Ret (clz 32 x).
Proof.
  intros Hx. unfold fold_Clz32. replace (x =? 0) with false by lia. cbn [negb vg_assert mbind outcome_bind].
  rewrite (first_that_ext _ (fun i => Z.testbit x (Z.of_nat 32 - 1 - (i - 0)))).
  - apply (first_that_clz 32 0 x); [|lia]. change (Z.of_nat 32) with 32. lia.
  - intros i [? ?]%elem_of_seqZ. unfold u32. rewrite land_shifted_one by lia. f_equal. lia.
Qed.

(** ** Vector constants *)

Lemma expand_bitwise (f : bool -> bool -> bool) (F : Z -> Z -> Z) n c d :
  f false false = false -> (∀ a b j, 0 <= j -> Z.testbit (F a b) j = f (Z.testbit a j) (Z.testbit b j)) ->
  0 <= n -> F (expand n c) (expand n d) = expand n (F c d).
Proof.
  intros Hf HF Hn. apply Z.bits_inj'. intros j Hj.
  rewrite HF, !testbit_expand by lia. destruct (j <? 8 * n); simpl; [|done].
  by rewrite HF by (apply Z.div_pos; lia).
Qed.

Lemma expand_wrap n c : 0 <= n -> expand n (wrap n c) = expand n c.
Proof.
  intros Hn. apply Z.bits_inj'. intros j Hj. rewrite !testbit_expand by lia.
  destruct (Z.ltb_spec j (8 * n)); simpl; [|done]. rewrite testbit_wrap by (try apply Z.div_pos; lia).
  replace (j / 8 <? n) with true; [done|]. symmetry. apply Z.ltb_lt, Z.div_lt_upper_bound; lia.
Qed.

Lemma expand_not n c : 0 <= n -> wrap (8 * n) (Z.lnot (expand n c)) = expand n (Z.lnot c).
Proof.
  intros Hn. apply Z.bits_inj'. intros j Hj. rewrite testbit_wrap, Z.lnot_spec, !testbit_expand by lia.
  destruct (j <? 8 * n); simpl; [|done]. by rewrite Z.lnot_spec by (apply Z.div_pos; lia).
Qed.

Lemma expand_0 n : 0 <= n -> expand n 0 = 0.
Proof.
  intros Hn. apply Z.bits_inj'. intros j Hj. rewrite testbit_expand, !Z.bits_0 by lia. apply andb_false_r.
Qed.

Lemma expand_ones n : 0 <= n -> expand n (2 ^ n - 1) = 2 ^ (8 * n) - 1.
Proof.
  intros Hn. replace (2 ^ n - 1) with (Z.ones n) by (rewrite Z.ones_equiv; lia).
  replace (2 ^ (8 * n) - 1) with (Z.ones (8 * n)) by (rewrite Z.ones_equiv; lia).
  apply Z.bits_inj'. intros j Hj. rewrite testbit_expand, !Z.testbit_ones_nonneg by (try apply Z.div_pos; lia).
  destruct (Z.ltb_spec j (8 * n)); simpl; [|done]. apply Z.ltb_lt, Z.div_lt_upper_bound; lia.
Qed.

(** The low and the high half of a vector constant that are zero. *)
Lemma expand_half k c : 0 <= k <= 8 -> 0 <= c < 2 ^ 16 -> wrap 8 (Z.shiftr c k) = 0 ->
  wrap 64 (Z.shiftr (expand 16 c) (8 * k)) = 0.
Proof.
  intros Hk Hc H0. apply Z.bits_inj'. intros j Hj. rewrite Z.bits_0, testbit_wrap, Z.shiftr_spec, testbit_expand by lia.
  destruct (Z.ltb_spec j 64); simpl; [|done]. replace (j + 8 * k) with (j + k * 8) by lia. rewrite Z.div_add by lia.
  apply (f_equal (fun x => Z.testbit x (j / 8))) in H0.
  assert (0 <= j / 8 < 8) by (split; [apply Z.div_pos; lia|apply Z.div_lt_upper_bound; lia]).
  rewrite Z.bits_0, testbit_wrap, Z.shiftr_spec in H0 by lia. replace (j / 8 <? 8) with true in H0 by lia.
  simpl in H0. by rewrite H0, andb_false_r.
Qed.
