(* ===== verification/IrFoldConst.v ===== *)
(** * Folding of operators with constant arguments

    About [fold_unop_const] and [fold_binop_const] of IrFold.v: each gives the expression
    back or a constant of the right type with the value of the expression, group by
    group. *)

From Stdlib Require Import String.
From stdpp Require Import gmap.
From S2P Require Import Prelude Lanes VexIR IrFold.
Local Open Scope Z_scope.


(** ** Constant arguments *)

Section Constants.
Context `{M : Machine St}.

(** The expression [e2] that a folding gives instead of [e]: [e] itself, or a constant
    of the right type whose value is [v]. *)
Definition const_or (e e2 : IRExpr) (ty : IRType) (v : option Z) : Prop :=
  e2 = e ∨ ∃ c, e2 = Iex_Const c ∧ typeOfIRConst c = ty ∧ saneIRConst c = true ∧ v = Some (value_of_const c).

Lemma saneIRConst_range c : saneIRConst c = true -> 0 <= value_of_const c < 2 ^ width (typeOfIRConst c).
Proof.
  destruct c; simpl; intros H; b2p; try lia.
  - destruct b; simpl; lia.
  - apply (expand_range 16). lia.
  - apply (expand_range 16). lia.
  - apply (expand_range 32). lia.
Qed.

(** A constant that is read at its own type. *)
Lemma con_U1_own b : con_U1 (Ico_U1 b) = b.
Proof. by destruct b. Qed.
Lemma con_own c : saneIRConst c = true ->
  match c with
  | Ico_U8 n => con_U8 c = n | Ico_U16 n => con_U16 c = n | Ico_U32 n => con_U32 c = n
  | Ico_U64 n => con_U64 c = n | Ico_V128 n => con_V128 c = n | Ico_V256 n => con_V256 c = n
  | _ => True
  end.
Proof. destruct c; simpl; intros H; b2p; try done; by apply wrap_small. Qed.

Lemma wrap_1_bit n : Z.b2z (1 =? wrap 1 n) = wrap 1 n.
Proof. pose proof (wrap_range 1 n). destruct (Z.eqb_spec 1 (wrap 1 n)); simpl; lia. Qed.

Lemma Not1_notb b : Not 1 (Z.b2z b) = bool_of (notBool b).
Proof. by destruct b. Qed.

(** The constants of the arguments have the types that the operator asks for, and the
    accessors of the union read them. *)
Ltac own c Hsane Hown :=
  destruct c; try discriminate;
  pose proof (con_own _ Hsane) as Hown; cbn beta iota in Hown;
  cbn [saneIRConst value_of_const] in Hsane |- *; b2p.

(** The folded constant has its place. *)
Ltac const_result :=
  match goal with
  | H : Ret _ = Ret ?e2 |- const_or _ ?e2 _ _ => injection H as <-
  end;
  first [by left | right; eexists; split; [reflexivity|]; split; [reflexivity|]; split].
Ltac sane :=
  cbn [saneIRConst]; apply andb_true_iff; split; [apply Z.leb_le|apply Z.ltb_lt];
  first [lia | apply wrap_range; lia | eapply Z.le_lt_trans; [apply wrap_range; lia|lia]].

Definition unop_sound (op : IROp) (con : IRConst) : Prop :=
  ∀ e2, (typeOfPrimop op).2 = [typeOfIRConst con] -> saneIRConst con = true ->
    fold_unop_const (Iex_Unop op (Iex_Const con)) op con = Ret e2 ->
    const_or (Iex_Unop op (Iex_Const con)) e2 (typeOfPrimop op).1 (eval_unop op (value_of_const con)).

Ltac unop_case con :=
  let Hty := fresh in let Hsane := fresh in let Hf := fresh "Hf" in
  let Hown := fresh "Hown" in
  intros e2 Hty Hsane Hf;
  cbn [typeOfPrimop snd UNARY UNARY_COMPARISON] in Hty; own con Hsane Hown;
  cbn [fold_unop_const typeOfPrimop fst UNARY UNARY_COMPARISON eval_unop] in *;
  rewrite ?con_U1_own, ?Hown in Hf; clear Hown;
  autorewrite with masks in Hf.

Lemma widening_sound op con :
  op ∈ [Iop_8Uto16; Iop_8Uto32; Iop_8Uto64; Iop_16Uto32; Iop_16Uto64; Iop_32Uto64; Iop_1Uto8; Iop_1Uto32; Iop_1Uto64;
        Iop_1Sto8; Iop_1Sto16; Iop_1Sto32; Iop_1Sto64] -> unop_sound op con.
Proof.
  intros Hop. repeat (apply elem_of_cons in Hop as [->|Hop]); [..|by apply elem_of_nil in Hop].
  all: unop_case con; try (destruct b; const_result; reflexivity).
  all: unfold u8, u16, u32 in *; rewrite ?(wrap_small _ n), ?(wrap_small 16 n) in Hf by lia.
  all: const_result; [sane|done].
Qed.

Lemma extension_sound op con :
  op ∈ [Iop_8Sto16; Iop_8Sto32; Iop_16Sto32; Iop_16Sto64; Iop_32Sto64] -> unop_sound op con.
Proof.
  intros Hop. repeat (apply elem_of_cons in Hop as [->|Hop]); [..|by apply elem_of_nil in Hop].
  all: unop_case con; const_result; [sane|]; f_equal; cbn [value_of_const]; symmetry.
  - by apply (f_equal u16), (sign_extend 8 8).
  - by apply (f_equal u32), (sign_extend 8 24).
  - by apply (f_equal u32), (sign_extend 16 16).
  - by apply (f_equal u64), (sign_extend 16 48).
  - by apply (f_equal u64), (sign_extend 32 32).
Qed.

Lemma narrowing_sound op con :
  op ∈ [Iop_64to8; Iop_32to8; Iop_64to16; Iop_16to8; Iop_16HIto8; Iop_32to16; Iop_64to32; Iop_64HIto32;
        Iop_32to1; Iop_64to1; Iop_Not8; Iop_Not16; Iop_Not32; Iop_Not64; Iop_Not1] -> unop_sound op con.
Proof.
  intros Hop. repeat (apply elem_of_cons in Hop as [->|Hop]); [..|by apply elem_of_nil in Hop].
  all: unop_case con; const_result; try sane; try reflexivity.
  - f_equal. symmetry. exact (wrap_1_bit n).
  - f_equal. symmetry. exact (wrap_1_bit n).
  - apply Not1_notb.
Qed.

Lemma zero_test_sound op con :
  op ∈ [Iop_CmpNEZ8; Iop_CmpNEZ32; Iop_CmpNEZ64; Iop_CmpwNEZ32; Iop_CmpwNEZ64] -> unop_sound op con.
Proof.
  intros Hop. repeat (apply elem_of_cons in Hop as [->|Hop]); [..|by apply elem_of_nil in Hop].
  all: unop_case con; unfold u8, u32 in *; rewrite ?(wrap_small _ n) in Hf by lia.
  1-3: const_result; [reflexivity|cbn [value_of_const]; unfold bool_of; by rewrite Z.eqb_sym].
  all: destruct (n =? 0); const_result; reflexivity.
Qed.

Lemma counting_sound op con :
  op ∈ [Iop_Left32; Iop_Left64; Iop_Clz32; Iop_Clz64] -> unop_sound op con.
Proof.
  intros Hop. repeat (apply elem_of_cons in Hop as [->|Hop]); [..|by apply elem_of_nil in Hop].
  all: unop_case con.
  - unfold int_ in Hf. assert (u32 n = n) as Hn by (by apply wrap_small). rewrite Hn in Hf.
    destruct (_ && _); [|done]. cbn [mbind outcome_bind] in Hf. const_result; [sane|].
    unfold Left. f_equal. symmetry. by apply (left_swrap 32).
  - unfold long_ in Hf. destruct (_ && _); [|done]. cbn [mbind outcome_bind] in Hf. const_result; [sane|].
    unfold Left. f_equal. symmetry. by apply (left_swrap 64).
  - destruct (Z.eqb_spec n 0); cbn [negb] in Hf; [by const_result|]. pose proof (clz_range 32 n) as Hclz.
    rewrite fold_Clz32_clz in Hf by lia. cbn [mbind outcome_bind] in Hf.
    revert Hf Hclz. generalize (clz 32 n). intros k Hf Hclz. const_result; [sane|done].
  - destruct (Z.eqb_spec n 0); cbn [negb] in Hf; [by const_result|]. pose proof (clz_range 64 n) as Hclz.
    rewrite fold_Clz64_clz in Hf by lia. cbn [mbind outcome_bind] in Hf.
    revert Hf Hclz. generalize (clz 64 n). intros k Hf Hclz. const_result; [sane|done].
Qed.

Lemma vector_sound op con :
  op ∈ [Iop_32UtoV128; Iop_V128to64; Iop_V128HIto64; Iop_64UtoV128; Iop_ZeroHI64ofV128; Iop_NotV128;
        Iop_V256to64_0; Iop_V256to64_1; Iop_V256to64_2; Iop_V256to64_3] -> unop_sound op con.
Proof.
  intros Hop. repeat (apply elem_of_cons in Hop as [->|Hop]); [..|by apply elem_of_nil in Hop].
  all: unop_case con.
  all: try (match type of Hf with (if ?b then _ else _) = _ => destruct b eqn:E end; b2p; [|by const_result]).
  - const_result; [done|]. cbn [value_of_const]. rewrite expand_0 by lia. by subst.
  - const_result; [done|]. cbn [value_of_const]. f_equal.
    rewrite <- (Z.shiftr_0_r (expand 16 n)). by apply (expand_half 0); [lia..|].
  - const_result; [done|]. cbn [value_of_const]. f_equal. by apply (expand_half 8); [lia..|].
  - const_result; [done|]. cbn [value_of_const]. rewrite expand_0 by lia. by subst.
  - const_result; [done|]. subst. cbn [value_of_const]. by rewrite expand_0 by lia.
  - const_result; [sane|]. cbn [value_of_const]. unfold Not. f_equal.
    rewrite <- (expand_wrap 16 (wrap 16 _)) at 1 by lia. rewrite !expand_wrap by lia. apply (expand_not 16). lia.
  - const_result; [done|]. subst. by rewrite expand_0 by lia.
  - const_result; [done|]. subst. by rewrite expand_0 by lia.
  - const_result; [done|]. subst. by rewrite expand_0 by lia.
  - const_result; [done|]. subst. by rewrite expand_0 by lia.
Qed.

Lemma fold_unop_const_sound op con : unop_sound op con.
Proof.
  destruct op; try (intros e2 _ _ Hf; injection Hf as <-; by left).
  all: first [apply widening_sound; solve [repeat constructor] | apply extension_sound; solve [repeat constructor] | apply narrowing_sound; solve [repeat constructor]
    | apply zero_test_sound; solve [repeat constructor] | apply counting_sound; solve [repeat constructor] | apply vector_sound; solve [repeat constructor]].
Qed.

Definition binop_sound (op : IROp) (con1 con2 : IRConst) : Prop :=
  ∀ e2, (typeOfPrimop op).2 = [typeOfIRConst con1; typeOfIRConst con2] ->
    saneIRConst con1 = true -> saneIRConst con2 = true ->
    let e := Iex_Binop op (Iex_Const con1) (Iex_Const con2) in
    fold_binop_const e op con1 con2 = Ret e2 ->
    const_or e e2 (typeOfPrimop op).1 (eval_binop op (value_of_const con1) (value_of_const con2)).

Ltac binop_case con1 con2 :=
  let Hty := fresh in let Hsane1 := fresh in let Hsane2 := fresh in let Hf := fresh "Hf" in
  let Hown1 := fresh "Hown" in let Hown2 := fresh "Hown" in let e := fresh "e" in
  intros e2 Hty Hsane1 Hsane2 e Hf; subst e;
  cbn [typeOfPrimop snd BINARY COMPARISON] in Hty;
  own con1 Hsane1 Hown1; own con2 Hsane2 Hown2;
  cbn [fold_binop_const typeOfPrimop fst BINARY COMPARISON eval_binop same_const_tag vg_assert mbind outcome_bind] in *;
  rewrite ?Hown1, ?Hown2 in Hf; clear Hown1 Hown2;
  autorewrite with masks in Hf.

Lemma lor_width w a b : 0 <= w -> 0 <= a < 2 ^ w -> 0 <= b < 2 ^ w -> 0 <= Z.lor a b < 2 ^ w.
Proof.
  intros Hw Ha Hb. rewrite <- (wrap_small w a), <- (wrap_small w b), <- wrap_lor by done. by apply wrap_range.
Qed.
Lemma land_range w a b : 0 <= w -> 0 <= a < 2 ^ w -> 0 <= b < 2 ^ w -> 0 <= Z.land a b < 2 ^ w.
Proof.
  intros Hw Ha Hb. rewrite <- (wrap_small w a), wrap_land, <- Z.land_assoc, (Z.land_comm (Z.ones w)), Z.land_assoc,
    <- wrap_land by done. by apply wrap_range.
Qed.
Lemma wrap_lxor w a b : 0 <= w -> wrap w (Z.lxor a b) = Z.lxor (wrap w a) (wrap w b).
Proof.
  intros Hw. apply Z.bits_inj'. intros j Hj. rewrite Z.lxor_spec, !testbit_wrap, Z.lxor_spec by lia.
  by destruct (j <? w).
Qed.
Lemma lxor_range w a b : 0 <= w -> 0 <= a < 2 ^ w -> 0 <= b < 2 ^ w -> 0 <= Z.lxor a b < 2 ^ w.
Proof.
  intros Hw Ha Hb. rewrite <- (wrap_small w a), <- (wrap_small w b), <- wrap_lxor by done. by apply wrap_range.
Qed.

Ltac sane_bits :=
  cbn [saneIRConst]; apply andb_true_iff; split; [apply Z.leb_le|apply Z.ltb_lt];
  first [apply (lor_width 64) | apply (land_range 64) | apply (lxor_range 64)
    | apply lor_width | apply land_range | apply lxor_range]; lia.

Lemma arithmetic_sound op con1 con2 :
  op ∈ [Iop_Add8; Iop_Add32; Iop_Add64; Iop_Sub8; Iop_Sub32; Iop_Sub64; Iop_Mul32; Iop_Mul64; Iop_MullS32; Iop_Max32U;
        Iop_CmpORD32S] -> binop_sound op con1 con2.
Proof.
  intros Hop. repeat (apply elem_of_cons in Hop as [->|Hop]); [..|by apply elem_of_nil in Hop].
  all: binop_case con1 con2.
  1-8: const_result; [sane|done].
  - pose proof (swrap_range 32 n) as Ha. pose proof (swrap_range 32 n0) as Hb.
    assert (s64 (s32 n) = s32 n) as Ha' by (apply swrap_small; unfold s32; lia).
    assert (s64 (s32 n0) = s32 n0) as Hb' by (apply swrap_small; unfold s32; lia).
    rewrite Ha', Hb' in Hf. unfold long_ in Hf. destruct (_ && _); [|done]. cbn [mbind outcome_bind] in Hf. const_result; [sane|done].
  - const_result.
    + cbn [saneIRConst]. destruct (n0 <? n); sane.
    + cbn [value_of_const]. f_equal. destruct (Z.ltb_spec n0 n); lia.
  - const_result; cbn [saneIRConst value_of_const]; unfold CmpORD; repeat case_bool; done.
Qed.

Lemma bitwise_sound op con1 con2 :
  op ∈ [Iop_Or8; Iop_Or16; Iop_Or32; Iop_Or64; Iop_And8; Iop_And16; Iop_And32; Iop_And64;
        Iop_Xor8; Iop_Xor16; Iop_Xor32; Iop_Xor64; Iop_OrV128; Iop_AndV128; Iop_XorV128] -> binop_sound op con1 con2.
Proof.
  intros Hop. repeat (apply elem_of_cons in Hop as [->|Hop]); [..|by apply elem_of_nil in Hop].
  all: binop_case con1 con2; unfold u8, u16 in Hf.
  all: try rewrite wrap_small in Hf by (first [apply lor_width | apply land_range | apply lxor_range]; lia).
  all: const_result; [sane_bits|try done].
  all: cbn [value_of_const]; f_equal.
  - by apply (expand_bitwise orb); [|intros; apply Z.lor_spec|].
  - by apply (expand_bitwise andb); [|intros; apply Z.land_spec|].
  - by apply (expand_bitwise xorb); [|intros; apply Z.lxor_spec|].
Qed.

Lemma shift_sound op con1 con2 :
  op ∈ [Iop_Shl32; Iop_Shl64; Iop_Sar32; Iop_Sar64; Iop_Shr32; Iop_Shr64] -> binop_sound op con1 con2.
Proof.
  intros Hop. repeat (apply elem_of_cons in Hop as [->|Hop]); [..|by apply elem_of_nil in Hop].
  all: binop_case con1 con2; unfold shift.
  all: match type of Hf with (if ?b then _ else _) = _ => destruct b eqn:E end; b2p; [|by const_result].
  all: match goal with |- context [?a <? ?b] => replace (a <? b) with true by lia end.
  all: rewrite ?Z.shiftl_mul_pow2, ?Z.shiftr_div_pow2 in Hf by lia.
  all: const_result; [|done].
  all: try sane; cbn [saneIRConst].
  all: pose proof (div_between n (2 ^ n0)); pose proof (Z.pow_pos_nonneg 2 n0).
  all: apply andb_true_iff; split; [apply Z.leb_le|apply Z.ltb_lt]; lia.
Qed.

Lemma comparison_sound op con1 con2 :
  op ∈ [Iop_CmpEQ32; Iop_CmpEQ64; Iop_CmpNE8; Iop_CasCmpNE8; Iop_ExpCmpNE8; Iop_CmpNE32; Iop_CasCmpNE32; Iop_ExpCmpNE32;
        Iop_CmpNE64; Iop_CasCmpNE64; Iop_ExpCmpNE64; Iop_CmpLE32U; Iop_CmpLE64U; Iop_CmpLE32S; Iop_CmpLE64S;
        Iop_CmpLT32S; Iop_CmpLT64S; Iop_CmpLT32U; Iop_CmpLT64U] -> binop_sound op con1 con2.
Proof.
  intros Hop. repeat (apply elem_of_cons in Hop as [->|Hop]); [..|by apply elem_of_nil in Hop].
  all: binop_case con1 con2; unfold u8 in *; rewrite ?(wrap_small 8 n), ?(wrap_small 8 n0) in Hf by lia.
  all: const_result; reflexivity.
Qed.

Lemma joining_sound op con1 con2 :
  op ∈ [Iop_32HLto64; Iop_64HLtoV128; Iop_V128HLtoV256; Iop_InterleaveLO8x16] -> binop_sound op con1 con2.
Proof.
  intros Hop. repeat (apply elem_of_cons in Hop as [->|Hop]); [..|by apply elem_of_nil in Hop].
  all: binop_case con1 con2; cbn [isZeroV128] in *.
  all: try (match type of Hf with (if ?b then _ else _) = _ => destruct b eqn:E end; b2p; [|by const_result]).
  - unfold u64 in Hf. rewrite Z.shiftl_mul_pow2, wrap_small, lor_shifted_small in Hf by lia.
    const_result; [sane|done].
  - const_result; [done|]. subst. cbn [value_of_const]. by rewrite expand_0 by lia.
  - const_result; [done|]. subst. cbn [value_of_const]. by rewrite !expand_0 by lia.
  - const_result; [done|]. subst. cbn [value_of_const]. by rewrite !expand_0 by lia.
Qed.

Lemma fold_binop_const_sound op con1 con2 : binop_sound op con1 con2.
Proof.
  destruct op; try (intros e2 _ _ _ e Hf; injection Hf as <-; by left).
  all: first [apply arithmetic_sound; solve [repeat constructor] | apply bitwise_sound; solve [repeat constructor] | apply shift_sound; solve [repeat constructor]
    | apply comparison_sound; solve [repeat constructor] | apply joining_sound; solve [repeat constructor]].
Qed.

End Constants.
