(* ===== verification/IrFoldSound.v ===== *)
(** * Folding preserves meaning

    About IrFold.v: the comparison of expressions and the chains of temporaries, the
    identities group by group, and the two theorems about [fold_Expr]: what it returns
    has the value of its argument, and when it returns. *)

From Stdlib Require Import String.
From stdpp Require Import gmap.
From S2P Require Import Prelude Lanes VexIR IrFold IrFoldConst.
Local Open Scope Z_scope.


(** ** Bindings *)

(** An expression whose arguments are temporaries and constants. *)
Definition flatExpr (e : IRExpr) : bool :=
  match e with
  | Iex_GetI _ ix _ => isIRAtom ix
  | Iex_Qop _ a b c d => isIRAtom a && isIRAtom b && isIRAtom c && isIRAtom d
  | Iex_Triop _ a b c | Iex_ITE a b c => isIRAtom a && isIRAtom b && isIRAtom c
  | Iex_Binop _ a b => isIRAtom a && isIRAtom b
  | Iex_Unop _ a | Iex_Load _ _ a => isIRAtom a
  | Iex_CCall _ _ args => forallb isIRAtom args
  | _ => true
  end.

Section Bindings.
Context `{M : Machine St} (tyenv : IRTypeEnv) (gWordTy : IRType).
Implicit Types (env : Env) (e r : IRExpr) (tmps : Z -> Z) (s : St).
Notation tc := (tcExpr tyenv gWordTy).
Notation ty := (typeOfIRExpr tyenv).
Notation ev := (eval tyenv).

(** The bindings are flat, well typed, and not circular: [rank] orders the temporaries
    by their definitions. *)
Definition env_typed env : Prop :=
  ∀ t r, env !! t = Some r -> tc r = true ∧ ty r = typeOfIRTemp tyenv t ∧ flatExpr r = true.
Definition env_acyclic env : Prop :=
  ∃ rank : Z -> nat, ∀ t u, env !! t = Some (Iex_RdTmp u) -> (rank u < rank t)%nat.
(** A bound temporary has the value that its expression had in some earlier state. *)
Definition env_holds env tmps : Prop :=
  ∀ t r, env !! t = Some r -> ∃ s, ev tmps s r = ev tmps s (Iex_RdTmp t).

Lemma eval_atom tmps s s' a : isIRAtom a = true -> ev tmps s a = ev tmps s' a.
Proof. by destruct a. Qed.

Lemma eval_Binop_inv tmps s op a b v : ev tmps s (Iex_Binop op a b) = Some v ->
  ∃ x y z, ev tmps s a = Some x ∧ ev tmps s b = Some y ∧ eval_binop op x y = Some z ∧
           v = wrap (width (typeOfPrimop op).1) z.
Proof.
  cbn [eval]. intros (x & Hx & (y & Hy & (z & Hz & ->)%fmap_Some)%bind_Some)%bind_Some. eauto 10.
Qed.
Lemma eval_Unop_inv tmps s op a v : ev tmps s (Iex_Unop op a) = Some v ->
  ∃ x z, ev tmps s a = Some x ∧ eval_unop op x = Some z ∧ v = wrap (width (typeOfPrimop op).1) z.
Proof. cbn [eval]. intros (x & Hx & (z & Hz & ->)%fmap_Some)%bind_Some. eauto 10. Qed.

Lemma tc_Binop_inv op a b : tc (Iex_Binop op a b) = true ->
  tc a = true ∧ tc b = true ∧ (typeOfPrimop op).2 = [ty a; ty b].
Proof. cbn [tcExpr]. unfold args_match. intros H. b2p. apply bool_decide_eq_true in H0. auto. Qed.
Lemma tc_Unop_inv op a : tc (Iex_Unop op a) = true -> tc a = true ∧ (typeOfPrimop op).2 = [ty a].
Proof. cbn [tcExpr]. unfold args_match. intros H. b2p. apply bool_decide_eq_true in H0. auto. Qed.

(** *** Equal expressions have equal values *)

Lemma and_then_inv b n (m : Z -> outcome (bool * Z)) n' :
  and_then (b, n) m = Ret (true, n') -> b = true ∧ m n = Ret (true, n').
Proof. destruct b; [done|]. discriminate. Qed.

Lemma same_const_sound c1 c2 : same_const c1 c2 = Ret true -> c1 = c2.
Proof.
  destruct c1, c2; cbn; try discriminate; intros [= H]; try (apply Z.eqb_eq in H; by subst).
  apply eqb_prop in H. by subst.
Qed.

Section Same.
Context (env : Env) (tmps : Z -> Z) (Hholds : env_holds env tmps).

(** Whatever the states are in which they are evaluated. *)
Definition equal_values e1 e2 : Prop :=
  ∀ s1 s2 v1 v2, ev tmps s1 e1 = Some v1 -> ev tmps s2 e2 = Some v2 -> v1 = v2.

Lemma equal_Binop op a1 b1 a2 b2 : equal_values a1 a2 -> equal_values b1 b2 ->
  equal_values (Iex_Binop op a1 b1) (Iex_Binop op a2 b2).
Proof.
  intros Ha Hb s1 s2 v1 v2 (x1 & y1 & z1 & Hx1 & Hy1 & Hz1 & ->)%eval_Binop_inv
    (x2 & y2 & z2 & Hx2 & Hy2 & Hz2 & ->)%eval_Binop_inv.
  rewrite (Ha _ _ _ _ Hx1 Hx2), (Hb _ _ _ _ Hy1 Hy2) in Hz1. congruence.
Qed.
Lemma equal_Unop op a1 a2 : equal_values a1 a2 -> equal_values (Iex_Unop op a1) (Iex_Unop op a2).
Proof.
  intros Ha s1 s2 v1 v2 (x1 & z1 & Hx1 & Hz1 & ->)%eval_Unop_inv (x2 & z2 & Hx2 & Hz2 & ->)%eval_Unop_inv.
  rewrite (Ha _ _ _ _ Hx1 Hx2) in Hz1. congruence.
Qed.
Lemma equal_Triop op a1 b1 c1 a2 b2 c2 : equal_values a1 a2 -> equal_values b1 b2 -> equal_values c1 c2 ->
  equal_values (Iex_Triop op a1 b1 c1) (Iex_Triop op a2 b2 c2).
Proof.
  intros Ha Hb Hc s1 s2 v1 v2. cbn [eval].
  intros (x1 & Hx1 & (y1 & Hy1 & (z1 & Hz1 & (r1 & H1 & ->)%fmap_Some)%bind_Some)%bind_Some)%bind_Some.
  intros (x2 & Hx2 & (y2 & Hy2 & (z2 & Hz2 & (r2 & H2 & ->)%fmap_Some)%bind_Some)%bind_Some)%bind_Some.
  rewrite (Ha _ _ _ _ Hx1 Hx2), (Hb _ _ _ _ Hy1 Hy2), (Hc _ _ _ _ Hz1 Hz2) in H1. congruence.
Qed.
Lemma equal_ITE a1 b1 c1 a2 b2 c2 : equal_values a1 a2 -> equal_values b1 b2 -> equal_values c1 c2 ->
  equal_values (Iex_ITE a1 b1 c1) (Iex_ITE a2 b2 c2).
Proof.
  intros Ha Hb Hc s1 s2 v1 v2. cbn [eval].
  intros (x1 & Hx1 & (y1 & Hy1 & (z1 & Hz1 & [= <-])%bind_Some)%bind_Some)%bind_Some.
  intros (x2 & Hx2 & (y2 & Hy2 & (z2 & Hz2 & [= <-])%bind_Some)%bind_Some)%bind_Some.
  by rewrite (Ha _ _ _ _ Hx1 Hx2), (Hb _ _ _ _ Hy1 Hy2), (Hc _ _ _ _ Hz1 Hz2).
Qed.
Lemma equal_bound t1 t2 r1 r2 : env !! t1 = Some r1 -> env !! t2 = Some r2 -> equal_values r1 r2 ->
  equal_values (Iex_RdTmp t1) (Iex_RdTmp t2).
Proof.
  intros H1 H2 Hr s1 s2 v1 v2 Hv1 Hv2.
  destruct (Hholds _ _ H1) as [s1' E1]. destruct (Hholds _ _ H2) as [s2' E2].
  apply (Hr s1' s2'); [by rewrite E1|by rewrite E2].
Qed.

Lemma same_aux2_sound fuel e1 e2 n n' :
  sameIRExprs_aux2 fuel env e1 e2 n = Ret (true, n') -> equal_values e1 e2.
Proof.
  revert e1 e2 n n'. induction fuel as [|fuel IH]; intros e1 e2 n n'; [done|]. cbn [sameIRExprs_aux2].
  destruct (NODE_LIMIT <? n); [done|].
  assert (∀ e1 e2 n n', (if negb (same_tag e1 e2) then Ret (false, n) else sameIRExprs_aux2 fuel env e1 e2 n)
    = Ret (true, n') -> equal_values e1 e2) as IHaux by (intros ????; destruct (same_tag _ _); [apply IH|done]).
  destruct e1, e2; try done.
  - case_bool; [subst; intros _ s1 s2 v1 v2; cbn [eval]; congruence|].
    destruct (env !! tmp) eqn:E1; [|done]. destruct (env !! tmp0) eqn:E2; [|done].
    intros H. by eapply equal_bound; eauto.
  - destruct (bool_decide_reflect (op = op0)) as [<-|]; [|done].
    intros ([b1 n1] & H1 & ([b2 n2] & H2 & [-> H3]%and_then_inv)%bind_ret_inv)%bind_ret_inv.
    apply and_then_inv in H2 as [-> H2]. apply equal_Triop; eauto.
  - destruct (bool_decide_reflect (op = op0)) as [<-|]; [|done].
    intros ([b1 n1] & H1 & [-> H2]%and_then_inv)%bind_ret_inv. apply equal_Binop; eauto.
  - destruct (bool_decide_reflect (op = op0)) as [<-|]; [|done]. intros H. apply equal_Unop; eauto.
  - intros (b & H & [= -> _])%bind_ret_inv. apply same_const_sound in H as <-. intros s1 s2 v1 v2; cbn [eval]; congruence.
  - intros ([b1 n1] & H1 & ([b2 n2] & H2 & [-> H3]%and_then_inv)%bind_ret_inv)%bind_ret_inv.
    apply and_then_inv in H2 as [-> H2]. apply equal_ITE; eauto.
Qed.

Lemma sameIRExprs_sound e1 e2 : sameIRExprs env e1 e2 = Ret true -> equal_values e1 e2.
Proof.
  unfold sameIRExprs. destruct (same_tag _ _); [|done]. cbn [negb].
  intros ([b n] & H & [= Hb])%bind_ret_inv. simpl in Hb. subst b. by eapply same_aux2_sound.
Qed.

End Same.

(** *** Following temporaries *)

Lemma chase_loop_sound fuel env e r : env_typed env -> tc e = true ->
  chase_loop fuel env e = Ret (Some r) ->
  tc r = true ∧ ty r = ty e ∧ (r = e ∨ flatExpr r = true) ∧ (∀ t, r ≠ Iex_RdTmp t) ∧
  ∀ tmps, env_holds env tmps -> ∀ s v, ev tmps s e = Some v -> ∃ s', ev tmps s' r = Some v.
Proof.
  intros Henv. revert e. induction fuel as [|fuel IH]; intros e Htc; [done|]. cbn [chase_loop].
  destruct e; try (intros [= <-]; repeat split; eauto; done).
  destruct (env !! tmp) as [e|] eqn:E; [|done]. intros H.
  destruct (Henv _ _ E) as (Ht & Hty & Hflat). destruct (IH e Ht H) as (Hr & Htyr & Hfl & Hn & Hev).
  split_and!; [done|by rewrite Htyr|destruct Hfl as [->|]; auto|done|].
  intros tmps Hholds s v Hv. destruct (Hholds _ _ E) as [s0 Hs0]. apply (Hev tmps Hholds s0). by rewrite Hs0.
Qed.

Lemma chase_sound env e r : env_typed env -> tc e = true -> chase env e = Ret (Some r) ->
  tc r = true ∧ ty r = ty e ∧ (r = e ∨ flatExpr r = true) ∧ (∀ t, r ≠ Iex_RdTmp t) ∧
  ∀ tmps, env_holds env tmps -> ∀ s v, ev tmps s e = Some v -> ∃ s', ev tmps s' r = Some v.
Proof. apply chase_loop_sound. Qed.

(** A chain of temporaries cannot be longer than there are bindings. *)
Lemma chase_returns env e : env_acyclic env -> ∃ r : option IRExpr, chase env e = Ret r.
Proof.
  intros [rank Hrank]. unfold chase.
  set (bound e := match e with Iex_RdTmp t => S (rank t) | _ => O end).
  set (below k := filter (fun t => (rank t < k)%nat) (dom env : gset Z)).
  assert (∀ fuel e, (size (below (bound e)) < fuel)%nat -> ∃ r : option IRExpr, chase_loop fuel env e = Ret r) as Hloop.
  - induction fuel as [|fuel IH]; intros e0 Hf; [lia|]. cbn [chase_loop]. destruct e0; eauto.
    destruct (env !! tmp) as [e1|] eqn:E; [|eauto]. apply IH.
    assert (below (bound e1) ⊂ below (bound (Iex_RdTmp tmp))) as Hsub%subset_size; [|lia].
    assert (bound e1 ≤ rank tmp)%nat by (destruct e1; simpl; try lia; by apply Hrank).
    unfold below. cbn [bound]. split.
    + intros t [? ?]%elem_of_filter. apply elem_of_filter. split; [lia|done].
    + intros Hc. assert (tmp ∈ filter (fun t => (rank t < bound e1)%nat) (dom env : gset Z)) as [? _]%elem_of_filter; [|lia].
      apply Hc, elem_of_filter. split; [lia|]. by apply elem_of_dom_2 in E.
  - apply Hloop. apply Nat.lt_succ_r. rewrite <- (size_dom (D := gset Z) env). apply subseteq_size. unfold below. set_solver.
Qed.

End Bindings.

(** ** Facts behind the identities *)

Lemma lor_ones w y : 0 <= w -> 0 <= y < 2 ^ w -> Z.lor y (2 ^ w - 1) = 2 ^ w - 1.
Proof.
  intros Hw Hy. replace (2 ^ w - 1) with (Z.ones w) by (rewrite Z.ones_equiv; lia).
  rewrite <- (wrap_small w y), wrap_land by done. apply Z.bits_inj'. intros j Hj.
  rewrite Z.lor_spec, Z.land_spec. destruct (Z.testbit (Z.ones w) j); [|by rewrite andb_false_r].
  apply orb_true_r.
Qed.
Lemma land_ones_small w y : 0 <= w -> 0 <= y < 2 ^ w -> Z.land y (2 ^ w - 1) = y.
Proof.
  intros Hw Hy. replace (2 ^ w - 1) with (Z.ones w) by (rewrite Z.ones_equiv; lia).
  rewrite <- wrap_land by done. by apply wrap_small.
Qed.

Lemma zip_self_cmpeq w l : zip_with (cmpeq w) l l = replicate (length l) (2 ^ w - 1).
Proof.
  induction l as [|a l IH]; [done|]. cbn [zip_with length replicate]. f_equal; [|done].
  unfold cmpeq, mask. by rewrite Z.eqb_refl.
Qed.
Lemma pack_ones w k : 0 <= w -> pack w (replicate k (2 ^ w - 1)) = 2 ^ (w * Z.of_nat k) - 1.
Proof.
  intros Hw. induction k as [|k IH]; [simpl; by rewrite Z.mul_0_r|]. cbn [replicate].
  change (2 ^ w - 1 + 2 ^ w * pack w (replicate k (2 ^ w - 1)) = 2 ^ (w * Z.of_nat (S k)) - 1). rewrite IH. replace (w * Z.of_nat (S k)) with (w + w * Z.of_nat k) by lia. rewrite Z.pow_add_r by lia. ring.
Qed.
Lemma cmpeq_self w n x : 0 <= w -> 0 <= n -> vec2 w n (cmpeq w) x x = 2 ^ (w * n) - 1.
Proof.
  intros Hw Hn. unfold vec2. rewrite zip_self_cmpeq, pack_ones by done. unfold lanes.
  by rewrite length_fmap, length_seqZ, Z2Nat.id.
Qed.

Lemma lanes_0 w n : 0 <= w -> lanes w n 0 = replicate (Z.to_nat n) 0.
Proof.
  intros Hw. unfold lanes. rewrite (list_fmap_ext _ (fun _ => 0)).
  - apply list_eq. intros i. rewrite list_lookup_fmap. destruct (decide (i < Z.to_nat n)%nat).
    + rewrite lookup_replicate_2, (proj2 (lookup_seqZ 0 n i (0 + Z.of_nat i))) by lia. done.
    + rewrite lookup_seqZ_ge by lia. symmetry. apply lookup_replicate_None. lia.
  - intros k i Hi. unfold lane. rewrite Z.shiftr_0_l. apply wrap_small. pose proof (Z.pow_pos_nonneg 2 w). lia.
Qed.
Lemma sub_zero w n x : 0 <= w -> 0 <= n -> 0 <= x < 2 ^ (w * n) -> vec2 w n (sub w) x 0 = x.
Proof.
  intros Hw Hn Hx. unfold vec2. rewrite lanes_0 by done.
  assert (zip_with (sub w) (lanes w n x) (replicate (Z.to_nat n) 0) = lanes w n x) as ->.
  - assert (length (lanes w n x) = Z.to_nat n) as <- by (unfold lanes; by rewrite length_fmap, length_seqZ).
    pose proof (lanes_range w n x Hw) as Hr. induction Hr as [|a l Ha _ IH]; [done|].
    cbn [length replicate zip_with]. f_equal; [|done]. unfold sub. rewrite Z.sub_0_r. by apply wrap_small.
  - rewrite pack_lanes by done. by apply wrap_small.
Qed.

(** *** Trailing zeros *)

Lemma ctz_from_spec n i x : 0 <= i ->
  0 <= ctz_from n i x <= Z.of_nat n ∧ (∀ j, i <= j < i + ctz_from n i x -> Z.testbit x j = false) ∧
  (ctz_from n i x < Z.of_nat n -> Z.testbit x (i + ctz_from n i x) = true).
Proof.
  revert i. induction n as [|n IH]; intros i Hi; cbn [ctz_from]; [split; [lia|split; [intros; lia|lia]]|].
  destruct (Z.testbit x i) eqn:Hb.
  - split; [lia|split; [intros; lia|]]. intros _. by rewrite Z.add_0_r.
  - destruct (IH (i + 1)) as (H1 & H2 & H3); [lia|]. split; [lia|split].
    + intros j Hj. destruct (decide (j = i)) as [->|]; [done|]. apply H2. lia.
    + intros H. replace (i + (1 + ctz_from n (i + 1) x)) with (i + 1 + ctz_from n (i + 1) x) by lia. apply H3. lia.
Qed.

Lemma popcount_prefix n k x : (∀ j, 0 <= j < Z.of_nat n -> Z.testbit x j = (j <? k)) -> 0 <= k ->
  popcount n x = Z.min k (Z.of_nat n).
Proof.
  intros Hx Hk. induction n as [|n IH]; cbn [popcount]; [lia|].
  rewrite IH by (intros; apply Hx; lia). rewrite Hx by lia. destruct (Z.ltb_spec (Z.of_nat n) k); simpl; lia.
Qed.

(** Below its lowest set bit, [x - 1] has ones, and above it is [x]. *)
Lemma testbit_pred x k j : 0 <= k -> (∀ i, 0 <= i < k -> Z.testbit x i = false) -> Z.testbit x k = true -> 0 <= j ->
  Z.testbit (x - 1) j = if j <? k then true else if j =? k then false else Z.testbit x j.
Proof.
  intros Hk Hlow Htop Hj. assert (x = Z.shiftr x k * 2 ^ k) as Hx.
  { apply Z.bits_inj'. intros i Hi. rewrite <- Z.shiftl_mul_pow2, Z.shiftl_spec by lia.
    destruct (decide (i < k)); [rewrite Hlow, Z.testbit_neg_r by lia; done|].
    rewrite Z.shiftr_spec by lia. f_equal. lia. }
  set (q := Z.shiftr x k) in *. assert (Z.testbit q 0 = true) as Hq0.
  { unfold q. rewrite Z.shiftr_spec by lia. done. }
  clearbody q. assert (q = 2 * (q / 2) + 1) as Hq.
  { pose proof (Z.div_mod q 2). rewrite Z.bit0_odd in Hq0.
    rewrite Zmod_odd, Hq0 in *. lia. }
  assert (x - 1 = Z.lor ((q - 1) * 2 ^ k) (Z.ones k)) as ->.
  { rewrite lor_shifted_small by (try rewrite Z.ones_equiv; pose proof (Z.pow_pos_nonneg 2 k); lia).
    rewrite Z.ones_equiv. lia. }
  rewrite Z.lor_spec, <- Z.shiftl_mul_pow2, Z.shiftl_spec, Z.testbit_ones_nonneg by lia.
  destruct (Z.ltb_spec j k); [apply orb_true_r|]. rewrite orb_false_r.
  replace (q - 1) with (2 * (q / 2)) by lia. destruct (Z.eqb_spec j k) as [->|].
  - rewrite Z.sub_diag. apply Z.testbit_even_0.
  - rewrite Hx. rewrite <- Z.shiftl_mul_pow2, Z.shiftl_spec by lia. rewrite Hq at 2.
    replace (j - k) with (Z.succ (j - k - 1)) by lia. by rewrite Z.testbit_even_succ, Z.testbit_odd_succ by lia.
Qed.

(** The idiom for the number of trailing zeros. *)
Lemma popcount_ctz x : 0 <= x < 2 ^ 64 ->
  popcount 64 (Z.land (wrap 64 (x + (2 ^ 64 - 1))) (wrap 64 (Z.lnot x))) = ctz 64 x.
Proof.
  intros Hx. unfold ctz. destruct (ctz_from_spec 64 0 x) as (Hr & Hlow & Htop); [done|].
  change (Z.of_nat 64) with 64 in *. rewrite Z.add_0_l in *. set (k := ctz_from 64 0 x) in *.
  replace (wrap 64 (x + (2 ^ 64 - 1))) with (wrap 64 (x - 1)).
  2: { replace (x + (2 ^ 64 - 1)) with (x - 1 + 1 * 2 ^ 64) by lia. by rewrite wrap_add_mul. }
  rewrite (popcount_prefix 64 k); [change (Z.of_nat 64) with 64; lia| |lia].
  change (Z.of_nat 64) with 64. intros j Hj.
  rewrite Z.land_spec, !testbit_wrap, Z.lnot_spec by lia. replace (j <? 64) with true by lia.
  rewrite !andb_true_l. destruct (decide (k < 64)) as [Hk|Hk].
  - rewrite (testbit_pred x k) by (try done; try lia; auto). destruct (Z.ltb_spec j k); [by rewrite Hlow by lia|].
    destruct (Z.eqb_spec j k); [done|]. apply andb_negb_r.
  - assert (x = 0) as ->.
    { apply Z.bits_inj'. intros i Hi. rewrite Z.bits_0. destruct (decide (i < 64)); [apply Hlow; lia|].
      rewrite <- (wrap_small 64 x), testbit_wrap by lia. by replace (i <? 64) with false by lia. }
    rewrite Z.bits_0. change (0 - 1) with (-1). rewrite Z.bits_m1 by lia. simpl. lia.
Qed.

(** ** The identities *)

Section Identities.
Context `{M : Machine St} (tyenv : IRTypeEnv) (gWordTy : IRType) (env : Env).
Context (Henv : env_typed tyenv gWordTy env).
Implicit Types (e r : IRExpr) (tmps : Z -> Z) (s : St).
Notation tc := (tcExpr tyenv gWordTy).
Notation ty := (typeOfIRExpr tyenv).
Notation ev := (eval tyenv).

(** [e2] may stand for [e]: it has the same type, is flat if [e] is, and has the value
    of [e] wherever [e] has one, if the bindings hold. *)
Definition refines e e2 : Prop :=
  tc e2 = true ∧ ty e2 = ty e ∧ flatExpr e2 = true ∧
  ∀ tmps, env_holds tyenv env tmps -> ∀ s v, ev tmps s e = Some v -> ev tmps s e2 = Some v.

Lemma refines_refl e : tc e = true -> flatExpr e = true -> refines e e.
Proof. intros. unfold refines. by split_and!. Qed.

Lemma flat_atom a : isIRAtom a = true -> flatExpr a = true.
Proof. by destruct a. Qed.

Lemma refines_Binop op a b e2 :
  tc (Iex_Binop op a b) = true -> tc e2 = true -> ty e2 = (typeOfPrimop op).1 -> flatExpr e2 = true ->
  (∀ tmps, env_holds tyenv env tmps -> ∀ s x y z, ev tmps s a = Some x -> ev tmps s b = Some y ->
     0 <= x < 2 ^ width (ty a) -> 0 <= y < 2 ^ width (ty b) -> eval_binop op x y = Some z ->
     ev tmps s e2 = Some (wrap (width (typeOfPrimop op).1) z)) ->
  refines (Iex_Binop op a b) e2.
Proof.
  intros Htc Htc2 Hty Hfl Hev. apply tc_Binop_inv in Htc as (Ha & Hb & Hargs).
  unfold refines. split_and!; [done|done|done|]. intros tmps Hh s v (x & y & z & Hx & Hy & Hz & ->)%eval_Binop_inv.
  eapply Hev; eauto using eval_range.
Qed.

(** *** The tests *)

Lemma if_zero_inv x y rest e2 : if_zero x y rest = Ret e2 ->
  (isZeroU x = Ret true ∧ e2 = y) ∨ rest = Ret e2.
Proof. unfold if_zero. intros ([] & Hz & H)%bind_ret_inv; [injection H as ->|]; auto. Qed.
Lemma if_ones_inv x y rest e2 : if_ones x y rest = Ret e2 ->
  (isOnesU x = Ret true ∧ e2 = y) ∨ rest = Ret e2.
Proof. unfold if_ones. intros ([] & Hz & H)%bind_ret_inv; [injection H as ->|]; auto. Qed.
Lemma if_same_inv a b (y rest : outcome IRExpr) e2 : if_same env a b y rest = Ret e2 ->
  (sameIRExprs env a b = Ret true ∧ y = Ret e2) ∨ rest = Ret e2.
Proof. unfold if_same. intros ([] & Hz & H)%bind_ret_inv; auto. Qed.

Lemma isZeroU_value tmps s x v : isZeroU x = Ret true -> ev tmps s x = Some v -> v = 0.
Proof.
  destruct x; try done. destruct con; try done; cbn [isZeroU eval value_of_const]; intros [= H] [= <-].
  - by destruct b.
  - b2p. by subst.
  - b2p. by subst.
  - b2p. by subst.
  - b2p. by subst.
  - b2p. subst. by rewrite expand_0 by lia.
Qed.
Lemma isOnesU_value tmps s x v : isOnesU x = Ret true -> ev tmps s x = Some v -> v = 2 ^ width (ty x) - 1.
Proof.
  destruct x; try done. destruct con; try done; cbn [isOnesU eval value_of_const typeOfIRExpr typeOfIRConst width];
    intros [= H] [= <-]; b2p; by subst.
Qed.
Lemma isZeroV128_value tmps s x v : isZeroV128 x = true -> ev tmps s x = Some v -> v = 0.
Proof.
  destruct x; try done. destruct con; try done. cbn [isZeroV128 eval value_of_const]. intros H [= <-]. b2p. subst.
  by rewrite expand_0 by lia.
Qed.
Lemma isZeroV256_value tmps s x v : isZeroV256 x = true -> ev tmps s x = Some v -> v = 0.
Proof.
  destruct x; try done. destruct con; try done. cbn [isZeroV256 eval value_of_const]. intros H [= <-]. b2p. subst.
  by rewrite expand_0 by lia.
Qed.
Lemma isOnesV128_value tmps s x v : isOnesV128 x = true -> ev tmps s x = Some v -> v = 2 ^ 128 - 1.
Proof.
  destruct x; try done. destruct con; try done. cbn [isOnesV128 eval value_of_const]. intros H [= <-]. b2p. subst.
  change 65535 with (2 ^ 16 - 1). by rewrite expand_ones by lia.
Qed.

(** The constants that stand for all zeros and all ones. *)
Lemma mkZero_ok op e2 : mkZeroOfPrimopResultType op = Ret e2 ->
  tc e2 = true ∧ ty e2 = (typeOfPrimop op).1 ∧ flatExpr e2 = true ∧ ∀ tmps s, ev tmps s e2 = Some 0.
Proof.
  destruct op; try discriminate; intros [= <-]; split_and!; try done; intros; cbn [eval value_of_const];
    by rewrite ?expand_0 by lia.
Qed.
Lemma mkOnes_ok op e2 : mkOnesOfPrimopResultType op = Ret e2 ->
  tc e2 = true ∧ ty e2 = (typeOfPrimop op).1 ∧ flatExpr e2 = true ∧
  ∀ tmps s, ev tmps s e2 = Some (2 ^ width (typeOfPrimop op).1 - 1).
Proof.
  destruct op; try discriminate; intros [= <-]; split_and!; try done; intros; cbn [eval value_of_const];
    try (change 65535 with (2 ^ 16 - 1); by rewrite expand_ones by lia);
    try (change 4294967295 with (2 ^ 32 - 1); by rewrite expand_ones by lia); done.
Qed.

(** *** One lemma per group of cases *)

(** The expression is well typed and its arguments are atoms. *)
Definition good op a b : Prop := tc (Iex_Binop op a b) = true ∧ flatExpr (Iex_Binop op a b) = true.

Ltac each_op Hop := repeat (apply elem_of_cons in Hop as [->|Hop]); [..|by apply elem_of_nil in Hop].

Lemma good_inv op a b t t1 t2 : good op a b -> typeOfPrimop op = BINARY t1 t2 t ->
  tc a = true ∧ tc b = true ∧ ty a = t1 ∧ ty b = t2 ∧ flatExpr a = true ∧ flatExpr b = true.
Proof.
  intros [(Ha & Hb & Hargs)%tc_Binop_inv Hfl] Hop. rewrite Hop in Hargs. injection Hargs as -> ->.
  apply andb_true_iff in Hfl as [??]. split_and!; auto using flat_atom.
Qed.

(** The left argument, the right one, or a constant instead of the operator. *)
Lemma left_instead op a b t t2 (P Q : Z -> Prop) : typeOfPrimop op = BINARY t t2 t ->
  (∀ tmps s x, ev tmps s a = Some x -> P x) -> (∀ tmps s y, ev tmps s b = Some y -> Q y) ->
  (∀ x y z, 0 <= x < 2 ^ width t -> 0 <= y < 2 ^ width t2 -> P x -> Q y -> eval_binop op x y = Some z -> z = x) ->
  good op a b -> refines (Iex_Binop op a b) a.
Proof.
  intros Hop HP HQ Hz Hg. destruct (good_inv _ _ _ _ _ _ Hg Hop) as (Ha & Hb & Hta & Htb & Hfa & Hfb).
  apply refines_Binop; [apply Hg|done|by rewrite Hop|done|]. intros tmps _ s x y z Hx Hy Hrx Hry H.
  rewrite Hta in Hrx. rewrite Htb in Hry. rewrite (Hz x y z), Hop by eauto. cbn [BINARY fst]. by rewrite wrap_small.
Qed.
Lemma right_instead op a b t (P Q : Z -> Prop) : typeOfPrimop op = BINARY t t t ->
  (∀ tmps s x, ev tmps s a = Some x -> P x) -> (∀ tmps s y, ev tmps s b = Some y -> Q y) ->
  (∀ x y z, 0 <= x < 2 ^ width t -> 0 <= y < 2 ^ width t -> P x -> Q y -> eval_binop op x y = Some z -> z = y) ->
  good op a b -> refines (Iex_Binop op a b) b.
Proof.
  intros Hop HP HQ Hz Hg. destruct (good_inv _ _ _ _ _ _ Hg Hop) as (Ha & Hb & Hta & Htb & Hfa & Hfb).
  apply refines_Binop; [apply Hg|done|by rewrite Hop|done|]. intros tmps _ s x y z Hx Hy Hrx Hry H.
  rewrite Hta in Hrx. rewrite Htb in Hry. rewrite (Hz x y z), Hop by eauto. cbn [BINARY fst]. by rewrite wrap_small.
Qed.
(** Both arguments have the same value. *)
Lemma same_instead op a b t t' e2 : typeOfPrimop op = BINARY t t t' -> sameIRExprs env a b = Ret true ->
  tc e2 = true -> ty e2 = t' -> flatExpr e2 = true ->
  (∀ tmps s x z, ev tmps s a = Some x -> 0 <= x < 2 ^ width t -> eval_binop op x x = Some z ->
     ev tmps s e2 = Some (wrap (width t') z)) ->
  good op a b -> refines (Iex_Binop op a b) e2.
Proof.
  intros Hop Hsame Htc2 Hty2 Hfl2 Hz Hg. destruct (good_inv _ _ _ _ _ _ Hg Hop) as (Ha & Hb & Hta & Htb & Hfa & Hfb).
  apply refines_Binop; [apply Hg|done|by rewrite Hop|done|]. intros tmps Hh s x y z Hx Hy Hrx Hry H.
  rewrite Hop. rewrite Hta in Hrx. cbn [BINARY fst].
  rewrite <- (sameIRExprs_sound _ _ _ Hh _ _ Hsame _ _ _ _ Hx Hy) in H. eauto.
Qed.
Lemma const_instead op a b t1 t2 t e2 v (P Q : Z -> Prop) : typeOfPrimop op = BINARY t1 t2 t ->
  tc e2 = true ∧ ty e2 = t ∧ flatExpr e2 = true ∧ (∀ tmps s, ev tmps s e2 = Some v) ->
  (∀ tmps s x, ev tmps s a = Some x -> P x) -> (∀ tmps s y, ev tmps s b = Some y -> Q y) ->
  (∀ x y z, 0 <= x < 2 ^ width t1 -> 0 <= y < 2 ^ width t2 -> P x -> Q y -> eval_binop op x y = Some z ->
     wrap (width t) z = v) ->
  good op a b -> refines (Iex_Binop op a b) e2.
Proof.
  intros Hop (Htc2 & Hty2 & Hfl2 & Hev2) HP HQ Hz Hg.
  destruct (good_inv _ _ _ _ _ _ Hg Hop) as (Ha & Hb & Hta & Htb & Hfa & Hfb).
  apply refines_Binop; [apply Hg|done|by rewrite Hop|done|]. intros tmps Hh s x y z Hx Hy Hrx Hry H.
  rewrite Hop. rewrite Hta in Hrx. rewrite Htb in Hry. cbn [BINARY fst]. rewrite Hev2. by erewrite Hz by eauto.
Qed.

Lemma shl_0_r w x : 0 <= w -> 0 <= x < 2 ^ w -> shl w 0 x = x.
Proof. intros. unfold shl. rewrite Z.mul_1_r. by apply wrap_small. Qed.
Lemma shr_0_r w x : shr w 0 x = x.
Proof. apply Z.div_1_r. Qed.
Lemma sar_0_r w x : 0 < w -> 0 <= x < 2 ^ w -> sar w 0 x = x.
Proof. intros. unfold sar. rewrite Z.div_1_r, wrap_swrap by lia. by apply wrap_small. Qed.
Lemma shift_of_0 f w n z : f = shl ∨ f = shr ∨ f = sar -> 0 < w -> 0 <= n -> shift f w 0 n = Some z -> z = 0.
Proof.
  intros Hf Hw Hn. unfold shift. case_bool; [|done]. intros [= <-].
  pose proof (Z.pow_pos_nonneg 2 n). pose proof (Z.pow_pos_nonneg 2 w).
  destruct Hf as [->|[->| ->]]; unfold shl, shr, sar.
  - rewrite Z.mul_0_l. apply wrap_small. lia.
  - apply Z.div_0_l. lia.
  - rewrite swrap_small, Z.div_0_l by (pose proof (Z.pow_pos_nonneg 2 (w - 1)); lia). apply wrap_small. lia.
Qed.


Definition zero (x : Z) : Prop := x = 0.
Definition ones (w x : Z) : Prop := x = 2 ^ w - 1.
Definition any (x : Z) : Prop := True.
Lemma value_any a : ∀ tmps s x, ev tmps s a = Some x -> any x. Proof. done. Qed.
Lemma value_zero a : isZeroU a = Ret true -> ∀ tmps s x, ev tmps s a = Some x -> zero x.
Proof. intros ????. by apply isZeroU_value. Qed.
Lemma value_zeroV128 a : isZeroV128 a = true -> ∀ tmps s x, ev tmps s a = Some x -> zero x.
Proof. intros ????. by apply isZeroV128_value. Qed.
Lemma value_zeroV256 a : isZeroV256 a = true -> ∀ tmps s x, ev tmps s a = Some x -> zero x.
Proof. intros ????. by apply isZeroV256_value. Qed.
Lemma value_onesV128 a : isOnesV128 a = true -> ∀ tmps s x, ev tmps s a = Some x -> ones 128 x.
Proof. intros ????. by apply isOnesV128_value. Qed.
Lemma value_ones a w : isOnesU a = Ret true -> width (ty a) = w -> ∀ tmps s x, ev tmps s a = Some x -> ones w x.
Proof. intros ? <- ???. by apply isOnesU_value. Qed.

Ltac value := first [eassumption | eapply value_zero; eassumption | eapply value_zeroV128; eassumption |
  eapply value_zeroV256; eassumption | eapply value_onesV128; eassumption | apply value_any].

Lemma shift_identity op a b e2 :
  op ∈ [Iop_Shl32; Iop_Shl64; Iop_Shr64; Iop_Sar64; Iop_Sar32; Iop_Shr32] -> good op a b ->
  fold_binop_other env (Iex_Binop op a b) op a b = Ret e2 -> refines (Iex_Binop op a b) e2.
Proof.
  intros Hop Hg Hf. each_op Hop; cbn [fold_binop_other] in Hf.
  all: apply if_zero_inv in Hf as [[Hz ->]|Hf];
    [eapply (left_instead _ _ _ _ _ any zero); [done|value|value| |done];
     intros x y z Hx Hy _ -> [= <-]; cbn [width] in Hx; rewrite ?shl_0_r, ?shr_0_r, ?sar_0_r by lia; done|].
  all: try (apply if_zero_inv in Hf as [[Hz ->]|Hf];
    [eapply (left_instead _ _ _ _ _ zero any); [done|value|value| |done];
     intros x y z Hx Hy -> _ H; apply shift_of_0 in H; [done|by auto|lia|lia]|]).
  all: injection Hf as <-; apply refines_refl; apply Hg.
Qed.

Lemma refl_case op a b e2 : good op a b -> Ret (Iex_Binop op a b) = Ret e2 -> refines (Iex_Binop op a b) e2.
Proof. intros Hg [= <-]. apply refines_refl; apply Hg. Qed.
Lemma good_types op a b t1 t2 t : good op a b -> typeOfPrimop op = BINARY t1 t2 t -> ty a = t1 ∧ ty b = t2.
Proof. intros Hg Hop. by destruct (good_inv _ _ _ _ _ _ Hg Hop) as (_ & _ & ? & ? & _). Qed.
Lemma good_left op a b t1 t2 t : good op a b -> typeOfPrimop op = BINARY t1 t2 t ->
  tc a = true ∧ ty a = t1 ∧ flatExpr a = true.
Proof. intros Hg Hop. by destruct (good_inv _ _ _ _ _ _ Hg Hop) as (? & _ & ? & _ & ? & _). Qed.

(** [op x x = x]. *)
Lemma same_idem op a b e2 t rest : typeOfPrimop op = BINARY t t t -> (∀ x, eval_binop op x x = Some x) ->
  good op a b -> (rest = Ret e2 -> refines (Iex_Binop op a b) e2) ->
  if_same env a b (Ret a) rest = Ret e2 -> refines (Iex_Binop op a b) e2.
Proof.
  intros Hop Hidem Hg Hrest [[Hs [= <-]]|H]%if_same_inv; [|auto].
  destruct (good_left _ _ _ _ _ _ Hg Hop) as (? & ? & ?).
  eapply same_instead; try done. intros tmps s x z Hx Hr [= <-]%(eq_trans (eq_sym (Hidem x))). by rewrite wrap_small.
Qed.
(** [op x x] is a constant. *)
Lemma same_const_result op a b e2 t t' v (y rest : outcome IRExpr) :
  if_same env a b y rest = Ret e2 -> typeOfPrimop op = BINARY t t t' ->
  (∀ e, y = Ret e -> tc e = true ∧ ty e = t' ∧ flatExpr e = true ∧ ∀ tmps s, ev tmps s e = Some v) ->
  (∀ x, 0 <= x < 2 ^ width t -> eval_binop op x x = Some v) -> 0 <= v < 2 ^ width t' ->
  good op a b -> (rest = Ret e2 -> refines (Iex_Binop op a b) e2) -> refines (Iex_Binop op a b) e2.
Proof.
  intros [[Hs H]|H]%if_same_inv Hop Hy Hv Hrv Hg Hrest; [|auto]. destruct (Hy _ H) as (Htc2 & Hty2 & Hfl2 & Hev2).
  eapply same_instead; try done. intros tmps s x z Hx Hr Hz. rewrite Hv in Hz by done. injection Hz as <-.
  by rewrite Hev2, wrap_small.
Qed.

Lemma if_zero_case x y rest e2 (Q : Prop) : if_zero x y rest = Ret e2 ->
  (isZeroU x = Ret true -> e2 = y -> Q) -> (rest = Ret e2 -> Q) -> Q.
Proof. intros [[? ?]|?]%if_zero_inv; auto. Qed.
Lemma if_ones_case x y rest e2 (Q : Prop) : if_ones x y rest = Ret e2 ->
  (isOnesU x = Ret true -> e2 = y -> Q) -> (rest = Ret e2 -> Q) -> Q.
Proof. intros [[? ?]|?]%if_ones_inv; auto. Qed.

Lemma or_identity op a b e2 : op ∈ [Iop_Or8; Iop_Or16; Iop_Or32; Iop_Or64] -> good op a b ->
  fold_binop_other env (Iex_Binop op a b) op a b = Ret e2 -> refines (Iex_Binop op a b) e2.
Proof.
  intros Hop Hg Hf.
  assert (∃ t, typeOfPrimop op = BINARY t t t ∧ ∀ x y, eval_binop op x y = Some (Z.lor x y)) as (t & Hty & Hev)
    by (each_op Hop; eexists; (split; [reflexivity|done])). pose proof (width_nonneg t) as Hw.
  destruct (good_types _ _ _ _ _ _ Hg Hty) as [Hta Htb].
  assert (if_zero b a (if_zero a b (ones ← isOnesU a; ones ← (if ones : bool then Ret true else isOnesU b);
      if ones : bool then mkOnesOfPrimopResultType op else if_same env a b (Ret a) (Ret (Iex_Binop op a b)))) = Ret e2)
    as Hf2 by (each_op Hop; exact Hf).
  eapply if_zero_case; [exact Hf2|intros Hz ->|clear Hf Hf2; intros Hf].
  { eapply (left_instead _ _ _ _ _ any zero); [done|value|value| |done].
    intros x y z _ _ _ ->. rewrite Hev. intros [= <-]. apply Z.lor_0_r. }
  eapply if_zero_case; [exact Hf|intros Hz ->|clear Hf; intros (o1 & Ho1 & (o2 & Ho2 & Hf)%bind_ret_inv)%bind_ret_inv].
  { eapply (right_instead _ _ _ _ zero any); [done|value|value| |done].
    intros x y z _ _ -> _. rewrite Hev. intros [= <-]. apply Z.lor_0_l. }
  destruct o2.
  - pose proof (mkOnes_ok _ _ Hf) as Hok. rewrite Hty in Hok. cbn [BINARY fst] in Hok. destruct o1.
    + eapply (const_instead _ _ _ _ _ _ _ _ (ones (width t)) any); [done|done|eapply value_ones; [done|congruence]|value| |done].
      intros x y z _ Hy -> _. rewrite Hev. intros [= <-]. rewrite Z.lor_comm, lor_ones by done.
      apply wrap_small. pose proof (Z.pow_pos_nonneg 2 (width t)). lia.
    + eapply (const_instead _ _ _ _ _ _ _ _ any (ones (width t))); [done|done|value|eapply value_ones; [done|congruence]| |done].
      intros x y z Hx _ _ ->. rewrite Hev. intros [= <-]. rewrite lor_ones by done.
      apply wrap_small. pose proof (Z.pow_pos_nonneg 2 (width t)). lia.
  - eapply same_idem; [done| |done|by apply refl_case|done]. intros x. by rewrite Hev, Z.lor_diag.
Qed.

Lemma max_identity a b e2 : let op := Iop_Max32U in good op a b ->
  fold_binop_other env (Iex_Binop op a b) op a b = Ret e2 -> refines (Iex_Binop op a b) e2.
Proof.
  intros op Hg Hf. cbn [fold_binop_other] in Hf. 
  eapply if_zero_case; [exact Hf|intros Hz ->|clear Hf; intros Hf].
  { eapply (left_instead _ _ _ _ _ any zero); [done|value|value| |done].
    intros x y z Hx _ _ -> [= <-]. lia. }
  eapply if_zero_case; [exact Hf|intros Hz ->|clear Hf; intros (o1 & Ho1 & (o2 & Ho2 & Hf)%bind_ret_inv)%bind_ret_inv].
  { eapply (right_instead _ _ _ _ zero any); [done|value|value| |done]. intros x y z _ Hy -> _ [= <-]. lia. }
  destruct o2; [done|].
  eapply same_idem; [done| |done|by apply refl_case|done]. intros x. cbn. by rewrite Z.max_id.
Qed.

(** [x + x] is a shift by one. *)
Lemma double_identity op op2 a b e2 w t rest :  typeOfPrimop op = BINARY t t t -> typeOfPrimop op2 = BINARY t Ity_I8 t -> width t = w -> 1 < w ->
  (∀ x y, eval_binop op x y = Some (add w x y)) -> (∀ x y, eval_binop op2 x y = shift shl w x y) ->
  good op a b -> (rest = Ret e2 -> refines (Iex_Binop op a b) e2) ->
  if_same env a b (Ret (Iex_Binop op2 a (Iex_Const (Ico_U8 1)))) rest = Ret e2 -> refines (Iex_Binop op a b) e2.
Proof.
  intros Hop Hop2 Hw Hw1 Hev Hev2 Hg Hrest [[Hs [= <-]]|H]%if_same_inv; [|auto].
  destruct (good_left _ _ _ _ _ _ Hg Hop) as (Hta & Hty & Hfa).
  eapply same_instead; [done|done| | | |  |done].
  - cbn [tcExpr]. unfold args_match. rewrite Hta, Hop2. cbn [BINARY snd fmap list_fmap typeOfIRExpr typeOfIRConst].
    rewrite Hty. by rewrite bool_decide_true.
  - cbn [typeOfIRExpr]. by rewrite Hop2.
  - cbn [flatExpr isIRAtom]. destruct Hg as [_ Hfl]. cbn [flatExpr] in Hfl. b2p. by rewrite H.
  - intros tmps s x z Hx Hr. rewrite Hev. intros [= <-]. cbn [eval]. rewrite Hx, Hop2. cbn [mbind option_bind].
    change (wrap (width (typeOfIRConst (Ico_U8 1))) (value_of_const (Ico_U8 1))) with 1.
    rewrite Hev2. unfold shift. replace (1 <? w) with true by lia. cbn [fmap option_fmap option_map BINARY fst].
    do 2 f_equal. unfold shl, add. f_equal. lia.
Qed.

Lemma add_identity op a b e2 : op ∈ [Iop_Add8; Iop_Add32; Iop_Add64] -> good op a b ->
  fold_binop_other env (Iex_Binop op a b) op a b = Ret e2 -> refines (Iex_Binop op a b) e2.
Proof.
  intros Hop Hg Hf. each_op Hop; cbn [fold_binop_other] in Hf.
  1: { eapply (double_identity Iop_Add8 Iop_Shl8); [done|done|done|done|done|done|done|by apply refl_case|done]. }
  all: eapply if_zero_case; [exact Hf|intros Hz ->|clear Hf; intros Hf].
  1, 3: eapply (left_instead _ _ _ _ _ any zero); [done|value|value| |done];
    intros x y z Hx _ _ -> [= <-]; unfold add; rewrite Z.add_0_r; by apply wrap_small.
  all: eapply if_zero_case; [exact Hf|intros Hz ->|clear Hf; intros Hf].
  1, 3: eapply (right_instead _ _ _ _ zero any); [done|value|value| |done];
    intros x y z _ Hy -> _ [= <-]; unfold add; rewrite Z.add_0_l; by apply wrap_small.
  - eapply (double_identity Iop_Add32 Iop_Shl32); [done|done|done|done|done|done|done|by apply refl_case|exact Hf].
  - eapply (double_identity Iop_Add64 Iop_Shl64); [done|done|done|done|done|done|done|by apply refl_case|exact Hf].
Qed.

Lemma mkZero_result op t' : (typeOfPrimop op).1 = t' -> ∀ e, mkZeroOfPrimopResultType op = Ret e ->
  tc e = true ∧ ty e = t' ∧ flatExpr e = true ∧ ∀ tmps s, ev tmps s e = Some 0.
Proof. intros <- e He. by apply mkZero_ok. Qed.
Lemma mkOnes_result op t' : (typeOfPrimop op).1 = t' -> ∀ e, mkOnesOfPrimopResultType op = Ret e ->
  tc e = true ∧ ty e = t' ∧ flatExpr e = true ∧ ∀ tmps s, ev tmps s e = Some (2 ^ width t' - 1).
Proof. intros <- e He. by apply mkOnes_ok. Qed.

Lemma sub_identity op a b e2 : op ∈ [Iop_Sub32; Iop_Sub64] -> good op a b ->
  fold_binop_other env (Iex_Binop op a b) op a b = Ret e2 -> refines (Iex_Binop op a b) e2.
Proof.
  intros Hop Hg Hf. each_op Hop; cbn [fold_binop_other] in Hf.
  all: eapply if_zero_case; [exact Hf|intros Hz ->|clear Hf; intros Hf].
  1, 3: eapply (left_instead _ _ _ _ _ any zero); [done|value|value| |done];
    intros x y z Hx _ _ -> [= <-]; unfold sub; rewrite Z.sub_0_r; by apply wrap_small.
  all: eapply (same_const_result _ _ _ _ _ _ 0); [exact Hf|done|by apply mkZero_result| |done|done|by apply refl_case];
    intros x _; cbn [eval_binop]; unfold sub; by rewrite Z.sub_diag.
Qed.

Lemma Sub8x16_identity a b e2 : let op := Iop_Sub8x16 in good op a b ->
  fold_binop_other env (Iex_Binop op a b) op a b = Ret e2 -> refines (Iex_Binop op a b) e2.
Proof.
  intros op Hg Hf. subst op. cbn [fold_binop_other] in Hf. destruct (isZeroV128 b) eqn:Hz; [|by apply refl_case].
  injection Hf as <-. eapply (left_instead _ _ _ _ _ any zero); [done|value|value| |done].
  intros x y z Hx _ _ -> [= <-]. apply sub_zero; [lia|lia|done].
Qed.

Lemma and_identity op a b e2 : op ∈ [Iop_And8; Iop_And16; Iop_And32; Iop_And64] -> good op a b ->
  fold_binop_other env (Iex_Binop op a b) op a b = Ret e2 -> refines (Iex_Binop op a b) e2.
Proof.
  intros Hop Hg Hf.
  assert (∃ t, typeOfPrimop op = BINARY t t t ∧ ∀ x y, eval_binop op x y = Some (Z.land x y)) as (t & Hty & Hev)
    by (each_op Hop; eexists; (split; [reflexivity|done])). pose proof (width_nonneg t) as Hw.
  destruct (good_types _ _ _ _ _ _ Hg Hty) as [Hta Htb].
  assert (if_ones b a (if_ones a b (if_zero b b (if_zero a a
    (if_same env a b (Ret a) (Ret (Iex_Binop op a b)))))) = Ret e2) as Hf2 by (each_op Hop; exact Hf).
  eapply if_ones_case; [exact Hf2|intros Hz ->|clear Hf Hf2; intros Hf].
  { eapply (left_instead _ _ _ _ _ any (ones (width t))); [done|value|eapply value_ones; [done|congruence]| |done].
    intros x y z Hx _ _ ->. rewrite Hev. intros [= <-]. by apply land_ones_small. }
  eapply if_ones_case; [exact Hf|intros Hz ->|clear Hf; intros Hf].
  { eapply (right_instead _ _ _ _ (ones (width t)) any); [done|eapply value_ones; [done|congruence]|value| |done].
    intros x y z _ Hy -> _. rewrite Hev. intros [= <-]. rewrite Z.land_comm. by apply land_ones_small. }
  eapply if_zero_case; [exact Hf|intros Hz ->|clear Hf; intros Hf].
  { eapply (right_instead _ _ _ _ any zero); [done|value|value| |done].
    intros x y z _ _ _ ->. rewrite Hev. intros [= <-]. apply Z.land_0_r. }
  eapply if_zero_case; [exact Hf|intros Hz ->|clear Hf; intros Hf].
  { eapply (left_instead _ _ _ _ _ zero any); [done|value|value| |done].
    intros x y z _ _ -> _. rewrite Hev. intros [= <-]. apply Z.land_0_l. }
  eapply same_idem; [done| |done|by apply refl_case|done]. intros x. by rewrite Hev, Z.land_diag.
Qed.

(** The vector operators: [op x x = x], and constants on either side. *)
Lemma andV_identity op a b e2 : op ∈ [Iop_AndV128; Iop_AndV256] -> good op a b ->
  fold_binop_other env (Iex_Binop op a b) op a b = Ret e2 -> refines (Iex_Binop op a b) e2.
Proof.
  intros Hop Hg Hf. each_op Hop; cbn [fold_binop_other] in Hf; 
    repeat first [rewrite bool_decide_true in Hf by done|rewrite bool_decide_false in Hf by done]; rewrite !andb_true_l, ?andb_false_l in Hf.
  all: eapply same_idem; [done| |done| |exact Hf]; [intros x; cbn; by rewrite Z.land_diag|clear Hf; intros Hf].
  - destruct (isZeroV128 a) eqn:Hza; [|destruct (isZeroV128 b) eqn:Hzb; [|destruct (isOnesV128 b) eqn:Hob]]; cbn [orb] in Hf.
    + eapply (const_instead _ _ _ _ _ _ _ 0 zero any); [done|by eapply mkZero_result; [|exact Hf]|value|value| |done].
      intros x y z _ _ -> _ [= <-]. done.
    + eapply (const_instead _ _ _ _ _ _ _ 0 any zero); [done|by eapply mkZero_result; [|exact Hf]|value|value| |done].
      intros x y z _ _ _ -> [= <-]. by rewrite Z.land_0_r.
    + injection Hf as <-. eapply (left_instead _ _ _ _ _ any (ones 128)); [done|value|value| |done].
      intros x y z Hx _ _ -> [= <-]. by apply land_ones_small.
    + by apply refl_case.
  - destruct (isZeroV256 a) eqn:Hza; [|destruct (isZeroV256 b) eqn:Hzb].
    + eapply (const_instead _ _ _ _ _ _ _ 0 zero any); [done|by eapply mkZero_result; [|exact Hf]|value|value| |done].
      intros x y z _ _ -> _ [= <-]. done.
    + eapply (const_instead _ _ _ _ _ _ _ 0 any zero); [done|by eapply mkZero_result; [|exact Hf]|value|value| |done].
      intros x y z _ _ _ -> [= <-]. by rewrite Z.land_0_r.
    + by apply refl_case.
Qed.

Lemma orV_identity op a b e2 : op ∈ [Iop_OrV128; Iop_OrV256] -> good op a b ->
  fold_binop_other env (Iex_Binop op a b) op a b = Ret e2 -> refines (Iex_Binop op a b) e2.
Proof.
  intros Hop Hg Hf. each_op Hop; cbn [fold_binop_other] in Hf; 
    repeat first [rewrite bool_decide_true in Hf by done|rewrite bool_decide_false in Hf by done]; rewrite !andb_true_l, ?andb_false_l in Hf.
  all: eapply same_idem; [done| |done| |exact Hf]; [intros x; cbn; by rewrite Z.lor_diag|clear Hf; intros Hf].
  - destruct (isZeroV128 b) eqn:Hzb; [|destruct (isZeroV128 a) eqn:Hza]; [| |by apply refl_case];
      injection Hf as <-.
    + eapply (left_instead _ _ _ _ _ any zero); [done|value|value| |done]. intros x y z _ _ _ -> [= <-]. apply Z.lor_0_r.
    + eapply (right_instead _ _ _ _ zero any); [done|value|value| |done]. intros x y z _ _ -> _ [= <-]. apply Z.lor_0_l.
  - destruct (isZeroV256 b) eqn:Hzb; [|by apply refl_case]. injection Hf as <-.
    eapply (left_instead _ _ _ _ _ any zero); [done|value|value| |done]. intros x y z _ _ _ -> [= <-]. apply Z.lor_0_r.
Qed.

Lemma xor_identity op a b e2 : op ∈ [Iop_Xor8; Iop_Xor16; Iop_Xor32; Iop_Xor64; Iop_XorV128; Iop_XorV256] -> good op a b ->
  fold_binop_other env (Iex_Binop op a b) op a b = Ret e2 -> refines (Iex_Binop op a b) e2.
Proof.
  intros Hop Hg Hf.
  assert (∃ t, typeOfPrimop op = BINARY t t t ∧ ∀ x y, eval_binop op x y = Some (Z.lxor x y)) as (t & Hty & Hev)
    by (each_op Hop; eexists; (split; [reflexivity|done])).
  assert (if_same env a b (mkZeroOfPrimopResultType op) (if bool_decide (op = Iop_XorV128)
    then (if isZeroV128 b then Ret a else Ret (Iex_Binop op a b)) else if_zero a b (if_zero b a (Ret (Iex_Binop op a b))))
    = Ret e2) as Hf2 by (each_op Hop; exact Hf). clear Hf Hop.
  assert (0 <= 0 < 2 ^ width t) as H0 by (pose proof (Z.pow_pos_nonneg 2 (width t)); pose proof (width_nonneg t); lia).
  assert (∀ (Q : Z -> Prop), (∀ tmps s y, ev tmps s b = Some y -> Q y) -> (∀ y, Q y -> y = 0) ->
    refines (Iex_Binop op a b) a) as Hleft.
  { intros Q HQ H. eapply (left_instead _ _ _ _ _ any Q); [done|value|exact HQ| |done].
    intros x y z _ _ _ ->%H. rewrite Hev. intros [= <-]. apply Z.lxor_0_r. }
  eapply (same_const_result _ _ _ _ _ _ 0); [exact Hf2|done|apply mkZero_result; by rewrite Hty| |done|done|clear Hf2; intros Hf].
  { intros x _. by rewrite Hev, Z.lxor_nilpotent. }
  destruct (bool_decide _).
  - destruct (isZeroV128 b) eqn:Hz; [|by apply refl_case]. injection Hf as <-. eapply (Hleft zero); [value|done].
  - eapply if_zero_case; [exact Hf|intros Hz ->|clear Hf; intros Hf].
    { eapply (right_instead _ _ _ _ zero any); [done|value|value| |done].
      intros x y z _ _ -> _. rewrite Hev. intros [= <-]. apply Z.lxor_0_l. }
    eapply if_zero_case; [exact Hf|intros Hz ->; eapply (Hleft zero); [value|done]|by apply refl_case].
Qed.

(** Comparisons of an expression with itself. *)
Lemma cmpeq_identity op a b e2 : op ∈ [Iop_CmpEQ32; Iop_CmpEQ64; Iop_CmpEQ8x8; Iop_CmpEQ16x4; Iop_CmpEQ32x2;
    Iop_CmpEQ8x16; Iop_CmpEQ16x8; Iop_CmpEQ32x4; Iop_CmpEQ64x2; Iop_CmpEQ8x32; Iop_CmpEQ16x16; Iop_CmpEQ32x8;
    Iop_CmpEQ64x4] -> good op a b ->
  fold_binop_other env (Iex_Binop op a b) op a b = Ret e2 -> refines (Iex_Binop op a b) e2.
Proof.
  intros Hop Hg Hf.
  assert (∃ t t', typeOfPrimop op = BINARY t t t' ∧ ∀ x, eval_binop op x x = Some (2 ^ width t' - 1)) as (t & t' & Hty & Hev).
  { each_op Hop; eexists _, _; (split; [reflexivity|]); intros x; cbn [eval_binop]; unfold bool_of;
      rewrite ?Z.eqb_refl, ?cmpeq_self by lia; done. }
  assert (if_same env a b (mkOnesOfPrimopResultType op) (Ret (Iex_Binop op a b)) = Ret e2) as Hf2
    by (each_op Hop; exact Hf). clear Hf Hop.
  eapply (same_const_result _ _ _ _ _ _ (2 ^ width t' - 1)); [exact Hf2|done|apply mkOnes_result; by rewrite Hty|done| |done|by apply refl_case].
  pose proof (width_nonneg t'). pose proof (Z.pow_pos_nonneg 2 (width t')). lia.
Qed.

(** *** The cases that follow temporaries *)

(** What is found has the value of the atom, in whatever state its arguments are atoms. *)
Lemma chase_atom a r : tc a = true -> isIRAtom a = true -> chase env a = Ret (Some r) ->
  tc r = true ∧ ty r = ty a ∧ flatExpr r = true ∧
  ∀ tmps, env_holds tyenv env tmps -> ∀ s v, ev tmps s a = Some v -> ∃ s', ev tmps s' r = Some v.
Proof.
  intros Ha Hat Hc. destruct (chase_sound _ _ _ _ _ Henv Ha Hc) as (Hr & Hty & Hfl & _ & Hv).
  split_and!; [done|done| |done]. destruct Hfl as [->|]; [by apply flat_atom|done].
Qed.

Lemma eval_Unop_atom tmps s s' op a v : isIRAtom a = true -> ev tmps s' (Iex_Unop op a) = Some v ->
  ∃ x z, ev tmps s a = Some x ∧ eval_unop op x = Some z ∧ v = wrap (width (typeOfPrimop op).1) z.
Proof. intros Ha (x & z & Hx & ?)%eval_Unop_inv. rewrite (eval_atom _ _ _ s _ Ha) in Hx. eauto. Qed.
Lemma eval_Binop_atoms tmps s s' op a b v : isIRAtom a = true -> isIRAtom b = true ->
  ev tmps s' (Iex_Binop op a b) = Some v ->
  ∃ x y z, ev tmps s a = Some x ∧ ev tmps s b = Some y ∧ eval_binop op x y = Some z ∧
           v = wrap (width (typeOfPrimop op).1) z.
Proof.
  intros Ha Hb (x & y & z & Hx & Hy & ?)%eval_Binop_inv.
  rewrite (eval_atom _ _ _ s _ Ha) in Hx. rewrite (eval_atom _ _ _ s _ Hb) in Hy. eauto 10.
Qed.

Lemma isZeroU32_value tmps s x v : isZeroU32 x = true -> ev tmps s x = Some v -> v = 0.
Proof. destruct x; try done. destruct con; try done. cbn [isZeroU32 eval value_of_const]. intros H [= <-]. b2p. by subst. Qed.

Lemma cmpne_identity a b e2 : let op := Iop_CmpNE32 in good op a b ->
  fold_binop_other env (Iex_Binop op a b) op a b = Ret e2 -> refines (Iex_Binop op a b) e2.
Proof.
  intros op Hg Hf. subst op. cbn [fold_binop_other] in Hf.
  eapply (same_const_result _ _ _ _ _ _ 0); [exact Hf|done|by apply mkZero_result| |done|done|clear Hf; intros Hf].
  { intros x _. cbn. by rewrite Z.eqb_refl. }
  destruct (isZeroU32 b) eqn:Hz; [|by apply refl_case]. apply bind_ret_inv in Hf as (r & Hr & Hf).
  destruct r as [[]|]; try by apply refl_case. destruct op; try by apply refl_case. injection Hf as ->.
  destruct (good_inv _ _ _ _ _ _ Hg eq_refl) as (Ha & Hb & Hta & Htb & Hfa & Hfb).
  destruct Hg as [Htc Hfl]. cbn [flatExpr] in Hfl. apply andb_true_iff in Hfl as [Hat _].
  destruct (chase_atom _ _ Ha Hat Hr) as (Htr & Htyr & Hflr & Hv).
  apply tc_Unop_inv in Htr as [Hte [= Hty]]. cbn [flatExpr] in Hflr.
  apply refines_Binop; [done|done|done|by apply flat_atom|].
  intros tmps Hh s x y z Hx Hy _ _ [= <-]. rewrite (isZeroU32_value _ _ _ _ Hz Hy).
  destruct (Hv _ Hh _ _ Hx) as (s' & (x' & z & Hx' & [= <-] & ->)%(eval_Unop_atom _ s)); [|done].
  pose proof (eval_range _ _ _ _ _ _ Hte Hx') as Hrx. rewrite <- Hty in Hrx. cbn [width] in Hrx. rewrite Hx'. f_equal.
  assert (x' = 0 ∨ x' = 1) as [-> | ->] by lia; done.
Qed.

Lemma eqIRAtom_I64 a b : eqIRAtom a b = Ret true -> ty a = Ity_I64 -> tc a = true -> a = b.
Proof.
  destruct a, b; try done.
  - intros [= H]. b2p. by subst.
  - destruct con, con0; try done. cbn. intros [= H] _ _. b2p. by subst.
Qed.

Lemma popcount_argument x : 0 <= x < 2 ^ 64 ->
  popcount 64 (wrap 64 (Z.land (wrap 64 (add 64 x (2 ^ 64 - 1))) (wrap 64 (wrap 64 (Z.lnot x))))) = ctz 64 x.
Proof.
  intros Hx. rewrite <- popcount_ctz by done. unfold add. rewrite !wrap_id by done. f_equal.
  rewrite !(wrap_land 64) by done. apply Z.bits_inj'. intros j Hj. rewrite !Z.land_spec.
  destruct (Z.testbit (Z.ones 64) j); by rewrite ?andb_true_r, ?andb_false_r.
Qed.

Lemma popcount_identity arg e2 : let e := Iex_Unop Iop_PopCount64 arg in
  tc e = true -> flatExpr e = true -> fold_popcount env e arg = Ret e2 -> refines e e2.
Proof.
  intros e Htc Hfl. unfold fold_popcount. intros (r1 & Hc1 & Hf)%bind_ret_inv.
  assert (Ret e = Ret e2 -> refines e e2) as Hsame by (intros [= <-]; by apply refines_refl).
  destruct r1 as [[]|]; try by apply Hsame. destruct op; try by apply Hsame.
  apply bind_ret_inv in Hf as (r11 & Hc11 & Hf). destruct r11 as [[]|]; try by apply Hsame. destruct op; try by apply Hsame.
  apply bind_ret_inv in Hf as (r12 & Hc12 & Hf). destruct r12 as [[]|]; try by apply Hsame. destruct op; try by apply Hsame.
  apply bind_ret_inv in Hf as (r112 & Hc112 & Hf). destruct r112 as [a112|]; [|by apply Hsame].
  apply bind_ret_inv in Hf as (same & Heq & Hf). destruct same; [|by apply Hsame]. cbn [negb] in Hf.
  apply bind_ret_inv in Hf as (o & Ho & Hf). destruct o; [|by apply Hsame]. injection Hf as <-.
  pose proof (tc_Unop_inv _ _ _ _ Htc) as [Harg [= Hty]]. cbn [flatExpr] in Hfl.
  destruct (chase_atom _ _ Harg Hfl Hc1) as (Ht1 & _ & Hf1 & Hv1).
  apply tc_Binop_inv in Ht1 as (Hx1 & Hx2 & [= Hty1 Hty2]). cbn [flatExpr] in Hf1. apply andb_true_iff in Hf1 as [Hf1 Hf2].
  destruct (chase_atom _ _ Hx1 Hf1 Hc11) as (Ht11 & _ & Hf11 & Hv11).
  apply tc_Binop_inv in Ht11 as (Hx3 & Hx4 & [= Hty3 Hty4]). cbn [flatExpr] in Hf11. apply andb_true_iff in Hf11 as [Hf3 Hf4].
  destruct (chase_atom _ _ Hx2 Hf2 Hc12) as (Ht12 & _ & Hf12 & Hv12). cbn [flatExpr] in Hf12.
  destruct (chase_atom _ _ Hx4 Hf4 Hc112) as (Ht112 & Hty112 & Hf112 & Hv112).
  apply eqIRAtom_I64 in Heq; [subst arg0|done|done].
  unfold refines. split_and!; [|done|done|].
  { cbn [tcExpr]. unfold args_match. rewrite Hx3. cbn. by rewrite <- Hty3. }
  intros tmps Hh s v (x & z & Hx & Hz & ->)%eval_Unop_inv. cbn [eval_unop] in Hz. apply (inj Some) in Hz. subst z.
  destruct (Hv1 _ Hh _ _ Hx) as (s1 & (p & q & z1 & Hp & Hq & [= <-] & ->)%(eval_Binop_atoms _ s)); [|done|done].
  destruct (Hv11 _ Hh _ _ Hp) as (s2 & (u & w & z2 & Hu & Hw & [= <-] & ->)%(eval_Binop_atoms _ s)); [|done|done].
  destruct (Hv12 _ Hh _ _ Hq) as (s3 & (u' & z3 & Hu' & [= <-] & ->)%(eval_Unop_atom _ s)); [|done].
  destruct (Hv112 _ Hh _ _ Hw) as (s4 & Hw'). rewrite Hu in Hu'. injection Hu' as <-.
  rewrite (isOnesU_value _ _ _ _ Ho Hw'), Hty112, <- Hty4. cbn [eval]. rewrite Hu. cbn [mbind option_bind eval_unop fmap option_fmap option_map].
  cbn [typeOfPrimop BINARY UNARY fst width].
  pose proof (eval_range _ _ _ _ _ _ Hx3 Hu) as Hr. rewrite <- Hty3 in Hr. cbn [width] in Hr.
  by rewrite <- popcount_argument.
Qed.

(** *** Operators with constants only, conditionals, and everything else *)

Lemma const_or_refines e e2 : tc e = true -> flatExpr e = true -> ∀ op v, ty e = (typeOfPrimop op).1 ->
  (∀ tmps s x, ev tmps s e = Some x -> ∃ z, v = Some z ∧ x = wrap (width (ty e)) z) ->
  const_or e e2 (typeOfPrimop op).1 v -> refines e e2.
Proof.
  intros Htc Hfl op v Hty Hv [->|(c & -> & Hc & Hs & Hvc)]; [by apply refines_refl|].
  unfold refines. split_and!; [done|cbn [typeOfIRExpr]; congruence|done|].
  intros tmps _ s x (z & Hz & ->)%Hv. cbn [eval]. rewrite Hvc in Hz. injection Hz as ->. by rewrite Hc, Hty.
Qed.

Lemma value_of_const_eval tmps s c x : saneIRConst c = true -> ev tmps s (Iex_Const c) = Some x -> x = value_of_const c.
Proof. intros Hs [= <-]. by apply wrap_small, saneIRConst_range. Qed.

Lemma unop_const_refines op con e2 : let e := Iex_Unop op (Iex_Const con) in
  tc e = true -> fold_unop_const e op con = Ret e2 -> refines e e2.
Proof.
  intros e Htc Hf. pose proof Htc as [Hs Hty]%tc_Unop_inv. cbn [tcExpr] in Hs.
  eapply (const_or_refines e e2 Htc eq_refl op); [done| |by eapply fold_unop_const_sound].
  intros tmps s x (y & z & Hy & Hz & ->)%eval_Unop_inv. apply value_of_const_eval in Hy as ->; eauto.
Qed.

Lemma binop_const_refines op con1 con2 e2 : let e := Iex_Binop op (Iex_Const con1) (Iex_Const con2) in
  tc e = true -> fold_binop_const e op con1 con2 = Ret e2 -> refines e e2.
Proof.
  intros e Htc Hf. pose proof Htc as (Hs1 & Hs2 & Hty)%tc_Binop_inv. cbn [tcExpr] in Hs1, Hs2.
  eapply (const_or_refines e e2 Htc eq_refl op); [done| |by eapply fold_binop_const_sound].
  intros tmps s v (x & y & z & Hx & Hy & Hz & ->)%eval_Binop_inv.
  apply value_of_const_eval in Hx as ->; [|done]. apply value_of_const_eval in Hy as ->; eauto.
Qed.

Lemma binop_other_refines op a b e2 : good op a b ->
  fold_binop_other env (Iex_Binop op a b) op a b = Ret e2 -> refines (Iex_Binop op a b) e2.
Proof.
  intros Hg. destruct op; try (by apply refl_case).
  all: first [apply or_identity; [solve [repeat constructor]|done] | apply and_identity; [solve [repeat constructor]|done]
    | apply xor_identity; [solve [repeat constructor]|done] | apply add_identity; [solve [repeat constructor]|done]
    | apply sub_identity; [solve [repeat constructor]|done] | apply shift_identity; [solve [repeat constructor]|done]
    | apply cmpeq_identity; [solve [repeat constructor]|done] | apply andV_identity; [solve [repeat constructor]|done]
    | apply orV_identity; [solve [repeat constructor]|done] | by apply max_identity | by apply cmpne_identity
    | by apply Sub8x16_identity].
Qed.

Lemma eval_ITE_inv tmps s c a b v : ev tmps s (Iex_ITE c a b) = Some v ->
  ∃ x y z, ev tmps s c = Some x ∧ ev tmps s a = Some y ∧ ev tmps s b = Some z ∧ v = if x =? 0 then z else y.
Proof.
  cbn [eval]. intros (x & Hx & (y & Hy & (z & Hz & [= <-])%bind_Some)%bind_Some)%bind_Some. eauto 10.
Qed.

Lemma ITE_refines c et ef e2 : let e := Iex_ITE c et ef in
  tc e = true -> flatExpr e = true -> fold_Expr_WRK env e = Ret e2 -> refines e e2.
Proof.
  intros e Htc Hfl Hf. pose proof Htc as Htc2. cbn [tcExpr e] in Htc2. b2p.
  repeat match goal with H : bool_decide _ = true |- _ => apply bool_decide_eq_true in H end.
  pose proof Hfl as Hfl2. cbn [flatExpr e] in Hfl2. b2p.
  assert ((∃ con, c = Iex_Const con) ∨ if_same env et ef (Ret ef) (Ret e) = Ret e2) as [[con ->]|Hf2]
    by (destruct c; eauto).
  - destruct con; try discriminate Hf. cbn in Hf. rewrite con_U1_own in Hf. injection Hf as <-. unfold refines.
    destruct b; (split_and!; [done|cbn; congruence|by apply flat_atom|]); 
      intros tmps _ s v (x & y & z & [= <-] & Hy & Hz & ->)%eval_ITE_inv; done.
  - apply if_same_inv in Hf2 as [[Hsame [= <-]]|[= <-]]; [|by apply refines_refl].
    unfold refines. split_and!; [done|done|by apply flat_atom|]. intros tmps Hh s v (x & y & z & Hx & Hy & Hz & ->)%eval_ITE_inv.
    pose proof (sameIRExprs_sound _ _ _ Hh _ _ Hsame _ _ _ _ Hy Hz) as ->. rewrite Hz. by destruct (x =? 0).
Qed.

Lemma fold_refines e e2 : tc e = true -> flatExpr e = true -> fold_Expr_WRK env e = Ret e2 -> refines e e2.
Proof.
  intros Htc Hfl. destruct e; try (intros [= <-]; by apply refines_refl); [| |by apply ITE_refines].
  - cbn [fold_Expr_WRK]. assert ((∃ c1 c2, e1 = Iex_Const c1 ∧ e3 = Iex_Const c2) ∨
      fold_Expr_WRK env (Iex_Binop op e1 e3) = fold_binop_other env (Iex_Binop op e1 e3) op e1 e3) as [(c1 & c2 & -> & ->)|Hf]
      by (destruct e1; eauto; destruct e3; eauto).
    + by apply binop_const_refines.
    + cbn [fold_Expr_WRK] in Hf. rewrite Hf. by apply binop_other_refines.
  - destruct e; try (cbn [fold_Expr_WRK fold_unop_other]; destruct op; try (intros [= <-]; by apply refines_refl);
      by apply popcount_identity).
    by apply unop_const_refines.
Qed.

End Identities.

(** C32: Folding an expression preserves its meaning. For every well-typed flat
    expression [e] and every environment of well-typed flat bindings, if [fold_Expr]
    returns [e2] then [e2] is well typed, flat, of the type of [e], and whenever the
    bindings hold of the temporaries (each has the value that its expression had in
    some state) and [e] has a value, [e2] has that value: this covers every operator
    with constant arguments, every algebraic identity, the conditional, and the
    identities that follow temporaries. The meaning of operators outside the list,
    the guest state, the memory and the helpers are arbitrary. *)
Theorem fold_Expr_sound `{M : Machine St} (tyenv : IRTypeEnv) (gWordTy : IRType) (env : option Env) (e e2 : IRExpr)
  (Henv : ∀ m, env = Some m -> env_typed tyenv gWordTy m)
  (Htc : tcExpr tyenv gWordTy e = true) (Hflat : flatExpr e = true) (Hfold : fold_Expr env e = Ret e2) :
  tcExpr tyenv gWordTy e2 = true ∧ typeOfIRExpr tyenv e2 = typeOfIRExpr tyenv e ∧ flatExpr e2 = true ∧
  ∀ tmps, (∀ m, env = Some m -> env_holds tyenv m tmps) ->
    ∀ s v, eval tyenv tmps s e = Some v -> eval tyenv tmps s e2 = Some v.
Proof.
  destruct env as [env|].
  - destruct (fold_refines tyenv gWordTy env (Henv _ eq_refl) e e2) as (H1 & H2 & H3 & H4); auto 10.
  - injection Hfold as <-. auto.
Qed.

(** ** What the folding does not return from *)

(** Numbers given by a literal and numbers given by their bits have the same type, and
    are not to be compared. *)
Fixpoint no_F32i_F64i (e : IRExpr) : bool :=
  match e with
  | Iex_Const (Ico_F32i _ | Ico_F64i _) => false
  | Iex_Triop _ a b c | Iex_ITE a b c => no_F32i_F64i a && no_F32i_F64i b && no_F32i_F64i c
  | Iex_Binop _ a b => no_F32i_F64i a && no_F32i_F64i b
  | Iex_Unop _ a => no_F32i_F64i a
  | _ => true
  end.

(** The negation of the least number, and the constant that [mkOnesOfPrimopResultType]
    does not know. *)
Definition unfoldable (e : IRExpr) : option fault :=
  match e with
  | Iex_Unop Iop_Left32 (Iex_Const c) => if con_U32 c =? 2 ^ 31 then Some IntOverflow else None
  | Iex_Unop Iop_Left64 (Iex_Const c) => if con_U64 c =? 2 ^ 63 then Some IntOverflow else None
  | Iex_Binop Iop_Max32U (Iex_Const _) (Iex_Const _) => None
  | Iex_Binop Iop_Max32U (Iex_Const (Ico_U32 n)) _ | Iex_Binop Iop_Max32U _ (Iex_Const (Ico_U32 n)) =>
      if n =? 0xFFFFFFFF then Some Panic else None
  | _ => None
  end.

Section Returns.
Context `{M : Machine St} (tyenv : IRTypeEnv) (gWordTy : IRType) (env : Env).
Context (Henv : env_typed tyenv gWordTy env) (Hacyclic : env_acyclic env).
Context (Hfloats : ∀ t r, env !! t = Some r -> no_F32i_F64i r = true).
Implicit Types (e r : IRExpr).
Notation tc := (tcExpr tyenv gWordTy).
Notation ty := (typeOfIRExpr tyenv).

Lemma same_const_returns c1 c2 : typeOfIRConst c1 = typeOfIRConst c2 ->
  no_F32i_F64i (Iex_Const c1) = true -> no_F32i_F64i (Iex_Const c2) = true -> ∃ b : bool, same_const c1 c2 = Ret b.
Proof. destruct c1, c2; try discriminate; intros _ _ _; eexists; reflexivity. Qed.

(** The visits are counted, and the count only grows. *)
Definition visits n (m : outcome (bool * Z)) : Prop := ∃ b n', m = Ret (b, n') ∧ n <= n'.

Lemma visits_ret b n n' : n <= n' -> visits n (Ret (b, n')).
Proof. intros. by exists b, n'. Qed.
Lemma visits_bind n m k : visits n m -> (∀ b n', n <= n' -> visits n' (k (b, n'))) -> visits n (m ≫= k).
Proof.
  intros (b & n1 & -> & Hn1) Hk. destruct (Hk b n1 Hn1) as (b' & n2 & Hk2 & Hn2).
  exists b', n2. split; [done|lia].
Qed.
Lemma visits_and_then n b m : (∀ n', n <= n' -> visits n' (m n')) -> ∀ n', n <= n' -> visits n' (and_then (b, n') m).
Proof. intros Hm n' Hn. destruct b; [by apply Hm|]. by apply visits_ret. Qed.
Lemma visits_weaken n n' m : n <= n' -> visits n' m -> visits n m.
Proof. intros Hn (b & k & Hm & Hk). exists b, k. split; [done|lia]. Qed.

Lemma same_aux2_returns fuel e1 e2 n : (1 <= fuel)%nat -> 32 - n <= Z.of_nat fuel ->
  tc e1 = true -> tc e2 = true -> ty e1 = ty e2 -> no_F32i_F64i e1 = true -> no_F32i_F64i e2 = true ->
  visits n (sameIRExprs_aux2 fuel env e1 e2 n).
Proof.
  revert e1 e2 n. induction fuel as [|fuel IH]; intros e1 e2 n Hf1 Hf Ht1 Ht2 Hty Hn1 Hn2; [lia|]. cbn [sameIRExprs_aux2].
  unfold NODE_LIMIT. destruct (Z.ltb_spec 30 n); [apply visits_ret; lia|].
  assert (∀ e1 e2 k, n + 1 <= k -> tc e1 = true -> tc e2 = true -> ty e1 = ty e2 ->
    no_F32i_F64i e1 = true -> no_F32i_F64i e2 = true ->
    visits k (if negb (same_tag e1 e2) then Ret (false, k) else sameIRExprs_aux2 fuel env e1 e2 k)) as IHaux.
  { intros. destruct (same_tag _ _); [apply IH; auto; lia|]. apply visits_ret. lia. }
  clear IH. apply (visits_weaken _ (n + 1)); [lia|].
  destruct e1, e2; try (apply visits_ret; lia).
  - case_bool; [apply visits_ret; lia|]. destruct (env !! tmp) eqn:E1; [|apply visits_ret; lia].
    destruct (env !! tmp0) eqn:E2; [|apply visits_ret; lia].
    destruct (Henv _ _ E1) as (? & ? & _), (Henv _ _ E2) as (? & ? & _). apply IHaux; eauto; [lia|]. cbn [typeOfIRExpr] in *. congruence.
  - destruct (bool_decide_reflect (op = op0)) as [<-|]; [|apply visits_ret; lia].
    cbn [tcExpr no_F32i_F64i] in *. unfold args_match in *. b2p.
    repeat match goal with H : bool_decide _ = true |- _ => apply bool_decide_eq_true in H end.
    match goal with H : _ = ty <$> _, H' : _ = ty <$> _ |- _ => rewrite H in H'; injection H' as ??? end.
    apply visits_bind; [by apply IHaux|]. intros b k Hk. apply visits_bind.
    + apply (visits_and_then k b); [|done]. intros. apply IHaux; auto; lia.
    + intros b' k' Hk'. apply (visits_and_then k' b'); [|done]. intros. apply IHaux; auto; lia.
  - destruct (bool_decide_reflect (op = op0)) as [<-|]; [|apply visits_ret; lia].
    cbn [tcExpr no_F32i_F64i] in *. unfold args_match in *. b2p.
    repeat match goal with H : bool_decide _ = true |- _ => apply bool_decide_eq_true in H end.
    match goal with H : _ = ty <$> _, H' : _ = ty <$> _ |- _ => rewrite H in H'; injection H' as ?? end.
    apply visits_bind; [by apply IHaux|]. intros b k Hk. apply (visits_and_then k b); [|done]. intros. apply IHaux; auto; lia.
  - destruct (bool_decide_reflect (op = op0)) as [<-|]; [|apply visits_ret; lia].
    cbn [tcExpr no_F32i_F64i] in *. unfold args_match in *. b2p.
    repeat match goal with H : bool_decide _ = true |- _ => apply bool_decide_eq_true in H end.
    match goal with H : _ = ty <$> _, H' : _ = ty <$> _ |- _ => rewrite H in H'; injection H' as ? end. by apply IHaux.
  - destruct (same_const_returns con con0 Hty Hn1 Hn2) as [b ->]. apply visits_ret. lia.
  - cbn [tcExpr no_F32i_F64i typeOfIRExpr] in *. b2p.
    repeat match goal with H : bool_decide _ = true |- _ => apply bool_decide_eq_true in H end.
    apply visits_bind; [apply IHaux; auto; [lia|congruence]|]. intros b k Hk. apply visits_bind.
    + apply (visits_and_then k b); [|done]. intros. apply IHaux; auto; [lia|congruence].
    + intros b' k' Hk'. apply (visits_and_then k' b'); [|done]. intros. apply IHaux; auto; lia.
Qed.

Lemma sameIRExprs_returns e1 e2 : tc e1 = true -> tc e2 = true -> ty e1 = ty e2 ->
  no_F32i_F64i e1 = true -> no_F32i_F64i e2 = true -> ∃ b : bool, sameIRExprs env e1 e2 = Ret b.
Proof.
  intros. unfold sameIRExprs. destruct (same_tag e1 e2); [|eexists; reflexivity]. cbn [negb].
  destruct (same_aux2_returns 32 e1 e2 0) as (b & n & -> & _); auto; [lia|lia|]. by exists b.
Qed.


Definition returns {A} (m : outcome A) : Prop := ∃ x, m = Ret x.

Lemma returns_ret {A} (x : A) : returns (Ret x).
Proof. by exists x. Qed.
Lemma returns_bind {A B} (m : outcome A) (k : A -> outcome B) : returns m -> (∀ x, returns (k x)) -> returns (m ≫= k).
Proof. intros [x ->] Hk. apply Hk. Qed.
Lemma returns_if {A} (b : bool) (m m' : outcome A) : (b = true -> returns m) -> (b = false -> returns m') ->
  returns (if b then m else m').
Proof. destruct b; auto. Qed.
#[local] Hint Resolve returns_ret returns_bind returns_if : core.

Lemma neg32_returns n : 0 <= n < 2 ^ 32 -> n ≠ 2 ^ 31 -> returns (int_ (- s32 n)).
Proof.
  intros Hn Hne. unfold int_, INT_MIN, INT_MAX. case_bool; [apply returns_ret|].
  unfold s32, swrap in *. Z.div_mod_to_equations. lia.
Qed.
Lemma neg64_returns n : 0 <= n < 2 ^ 64 -> n ≠ 2 ^ 63 -> returns (long_ (- s64 n)).
Proof.
  intros Hn Hne. unfold long_. case_bool; [apply returns_ret|].
  unfold s64, swrap in *. Z.div_mod_to_equations. lia.
Qed.

Lemma fold_unop_const_returns op con :
  unfoldable (Iex_Unop op (Iex_Const con)) = None -> returns (fold_unop_const (Iex_Unop op (Iex_Const con)) op con).
Proof.
  pose proof (wrap_range 32 (payload con)) as H32. pose proof (wrap_range 64 (payload con)) as H64.
  destruct op; cbn [unfoldable fold_unop_const]; intros Hu; try (apply returns_ret);
    try (apply returns_if; intros; apply returns_ret).
  - apply returns_if; intros Hz; [|apply returns_ret]. apply returns_bind; [|intros; apply returns_ret].
    unfold con_U64, u64 in *. rewrite fold_Clz64_clz; [apply returns_ret|]. b2p. lia.
  - apply returns_if; intros Hz; [|apply returns_ret]. apply returns_bind; [|intros; apply returns_ret].
    unfold con_U32, u32 in *. rewrite fold_Clz32_clz; [apply returns_ret|]. b2p. lia.
  - apply returns_bind; [|intros; apply returns_ret]. destruct (Z.eqb_spec (con_U32 con) (2 ^ 31)); [done|].
    unfold con_U32 in *. autorewrite with masks. apply neg32_returns; [by apply H32|done].
  - apply returns_bind; [|intros; apply returns_ret]. destruct (Z.eqb_spec (con_U64 con) (2 ^ 63)); [done|].
    apply neg64_returns; [by apply H64|done].
Qed.

Lemma MullS32_returns a b : returns (long_ (s64 (s32 a) * s64 (s32 b))).
Proof.
  assert (∀ x, - 2 ^ 31 <= s64 (s32 x) <= 2 ^ 31) as H.
  { intros x. pose proof (swrap_range 32 x). unfold s64. rewrite swrap_small; unfold s32; lia. }
  pose proof (H a). pose proof (H b). unfold long_. case_bool; [apply returns_ret|]. nia.
Qed.

Lemma fold_binop_const_returns op c1 c2 : tc (Iex_Binop op (Iex_Const c1) (Iex_Const c2)) = true ->
  returns (fold_binop_const (Iex_Binop op (Iex_Const c1) (Iex_Const c2)) op c1 c2).
Proof.
  intros (_ & _ & Hty)%tc_Binop_inv.
  destruct op; cbn [fold_binop_const]; try (apply returns_ret); try (apply returns_if; intros; apply returns_ret).
  all: try (apply returns_bind; [apply MullS32_returns|intros; apply returns_ret]).
  all: injection Hty as H1 H2; destruct c2; try discriminate H2; cbn [same_const_tag vg_assert mbind outcome_bind].
  all: apply returns_if; intros; apply returns_ret.
Qed.

Lemma isZeroU_returns x : ty x ∈ [Ity_I1; Ity_I8; Ity_I16; Ity_I32; Ity_I64; Ity_V256] -> returns (isZeroU x).
Proof.
  destruct x; try (intros; apply returns_ret). destruct con; try (intros; apply returns_ret).
  all: cbn [typeOfIRExpr typeOfIRConst]; intros H; exfalso; by repeat (apply elem_of_cons in H as [H|H]); [..|by apply elem_of_nil in H].
Qed.
Lemma isOnesU_returns x : ty x ∈ [Ity_I8; Ity_I16; Ity_I32; Ity_I64] -> returns (isOnesU x).
Proof.
  destruct x; try (intros; apply returns_ret). destruct con; try (intros; apply returns_ret).
  all: cbn [typeOfIRExpr typeOfIRConst]; intros H; exfalso; by repeat (apply elem_of_cons in H as [H|H]); [..|by apply elem_of_nil in H].
Qed.

Lemma if_zero_returns x y rest : ty x ∈ [Ity_I1; Ity_I8; Ity_I16; Ity_I32; Ity_I64; Ity_V256] ->
  returns rest -> returns (if_zero x y rest).
Proof. intros H Hr. unfold if_zero. apply returns_bind; [by apply isZeroU_returns|]. intros []; [apply returns_ret|done]. Qed.
Lemma if_ones_returns x y rest : ty x ∈ [Ity_I8; Ity_I16; Ity_I32; Ity_I64] ->
  returns rest -> returns (if_ones x y rest).
Proof. intros H Hr. unfold if_ones. apply returns_bind; [by apply isOnesU_returns|]. intros []; [apply returns_ret|done]. Qed.
Lemma if_same_returns a b y rest : tc a = true -> tc b = true -> ty a = ty b ->
  no_F32i_F64i a = true -> no_F32i_F64i b = true -> returns y -> returns rest -> returns (if_same env a b y rest).
Proof.
  intros. unfold if_same. apply returns_bind; [by apply sameIRExprs_returns|]. by intros [].
Qed.
Lemma chase_returns_both a : returns (chase env a).
Proof. destruct (chase_returns env a) as [r Hr]; [done|]. by exists r. Qed.

Lemma max_ones_returns a b y : ty a = Ity_I32 -> ty b = Ity_I32 -> unfoldable (Iex_Binop Iop_Max32U a b) = None ->
  (∀ c1 c2, a = Iex_Const c1 -> b = Iex_Const c2 -> False) -> returns y ->
  returns (ones ← isOnesU a; ones ← (if ones : bool then Ret true else isOnesU b);
    if ones : bool then mkOnesOfPrimopResultType Iop_Max32U else y).
Proof.
  intros Hta Htb Hu Hc Hy. assert (isOnesU a = Ret false) as ->.
  { destruct a; try done. destruct con; try discriminate Hta. cbn in *. destruct b; try (by destruct (Hc _ _ eq_refl eq_refl));
      by destruct (n =? 4294967295). }
  assert (isOnesU b = Ret false) as ->; [|done].
  destruct b; try done. destruct con; try discriminate Htb. cbn in *. destruct a; try (by destruct (Hc _ _ eq_refl eq_refl));
      by destruct (n =? 4294967295).
Qed.

Lemma fold_binop_other_returns op a b : tc (Iex_Binop op a b) = true ->
  no_F32i_F64i (Iex_Binop op a b) = true -> unfoldable (Iex_Binop op a b) = None ->
  (∀ c1 c2, a = Iex_Const c1 -> b = Iex_Const c2 -> False) ->
  returns (fold_binop_other env (Iex_Binop op a b) op a b).
Proof.
  intros (Ha & Hb & Hty)%tc_Binop_inv Hn Hu Hc. cbn [no_F32i_F64i] in Hn. apply andb_true_iff in Hn as [Hna Hnb].
  destruct op; cbn [fold_binop_other]; try (apply returns_ret); try (injection Hty as Hta Htb).
  all: repeat first [apply returns_ret | apply max_ones_returns; [by symmetry|by symmetry|done|done|] |
    apply if_zero_returns; [rewrite <- ?Hta, <- ?Htb; solve [repeat constructor]|] |
    apply if_ones_returns; [rewrite <- ?Hta, <- ?Htb; solve [repeat constructor]|] |
    apply if_same_returns; [done|done|congruence|done|done| |] |
    rewrite bool_decide_true by done | rewrite bool_decide_false by done | apply returns_if; intros _ |
    match goal with |- returns ((if ?x then _ else _) ≫= _) => destruct x end |
    apply returns_bind; [apply isOnesU_returns; rewrite <- ?Hta, <- ?Htb; solve [repeat constructor]|intros ?] |
    apply returns_bind; [apply returns_ret|intros ?] |
    apply returns_bind; [apply chase_returns_both|intros ?] | by eexists].
  match goal with |- returns (match ?r with _ => _ end) => destruct r as [[]|]; try apply returns_ret end.
  match goal with |- returns (match ?r with _ => _ end) => destruct r; apply returns_ret end.
Qed.

Lemma eqIRAtom_returns a b : isIRAtom a = true -> isIRAtom b = true -> ty a = Ity_I64 -> returns (eqIRAtom a b).
Proof.
  destruct a, b; try discriminate; intros _ _ Ht; try apply returns_ret.
  destruct con; try discriminate Ht. destruct con0; apply returns_ret.
Qed.

(** The arguments of what is found are atoms, and have the types the operator asks for. *)
Lemma chase_Binop a op x y : tc a = true -> isIRAtom a = true -> chase env a = Ret (Some (Iex_Binop op x y)) ->
  tc x = true ∧ tc y = true ∧ isIRAtom x = true ∧ isIRAtom y = true ∧ (typeOfPrimop op).2 = [ty x; ty y].
Proof.
  intros Ha Hat Hc. destruct (chase_atom _ _ _ Henv _ _ Ha Hat Hc) as ((? & ? & ?)%tc_Binop_inv & _ & Hfl & _).
  cbn [flatExpr] in Hfl. b2p. auto.
Qed.

Lemma fold_popcount_returns e arg : tc arg = true -> isIRAtom arg = true -> returns (fold_popcount env e arg).
Proof.
  intros Ha Hat. unfold fold_popcount.
  destruct (chase_returns_both arg) as [r1 Hr1]. rewrite Hr1. cbn [mbind outcome_bind].
  destruct r1 as [[]|]; try apply returns_ret. destruct op; try apply returns_ret.
  destruct (chase_Binop _ _ _ _ Ha Hat Hr1) as (Hx1 & Hx2 & Hax1 & Hax2 & _).
  destruct (chase_returns_both arg1) as [r2 Hr2]. rewrite Hr2. cbn [mbind outcome_bind].
  destruct r2 as [[]|]; try apply returns_ret. destruct op; try apply returns_ret.
  match type of Hr2 with _ = Ret (Some (Iex_Binop _ ?x ?y)) => rename x into arg3, y into arg4 end.
  destruct (chase_Binop _ _ _ _ Hx1 Hax1 Hr2) as (Hx3 & Hx4 & Hax3 & Hax4 & [= Hty1 Hty2]).
  destruct (chase_returns_both arg2) as [r3 Hr3]. rewrite Hr3. cbn [mbind outcome_bind].
  destruct r3 as [[]|]; try apply returns_ret. destruct op; try apply returns_ret.
  destruct (chase_atom _ _ _ Henv _ _ Hx2 Hax2 Hr3) as ([_ [= Hty3]]%tc_Unop_inv & _ & Hax5 & _).
  destruct (chase_returns_both arg4) as [r4 Hr4]. rewrite Hr4. cbn [mbind outcome_bind].
  destruct r4 as [a112|]; try apply returns_ret.
  destruct (chase_atom _ _ _ Henv _ _ Hx4 Hax4 Hr4) as (_ & Hty4 & _).
  apply returns_bind; [by apply eqIRAtom_returns|]. intros [|]; [|apply returns_ret].
  apply returns_bind; [|intros []; apply returns_ret]. apply isOnesU_returns. rewrite Hty4, <- Hty2. repeat constructor.
Qed.

Lemma ITE_returns c et ef : let e := Iex_ITE c et ef in
  tc e = true -> no_F32i_F64i e = true -> returns (fold_Expr_WRK env e).
Proof.
  intros e Htc Hn. cbn [tcExpr no_F32i_F64i e] in *. b2p.
  repeat match goal with H : bool_decide _ = true |- _ => apply bool_decide_eq_true in H end.
  assert ((∃ con, c = Iex_Const con) ∨ fold_Expr_WRK env e = if_same env et ef (Ret ef) (Ret e)) as [[con ->]| ->]
    by (destruct c; eauto).
  - match goal with H : ty (Iex_Const con) = Ity_I1 |- _ => destruct con; try discriminate H end. apply returns_ret.
  - apply if_same_returns; auto using returns_ret.
Qed.

Lemma fold_Expr_WRK_returns e : tc e = true -> flatExpr e = true -> no_F32i_F64i e = true -> unfoldable e = None ->
  returns (fold_Expr_WRK env e).
Proof.
  intros Htc Hfl Hn Hu. destruct e; try apply returns_ret; [| |by apply ITE_returns].
  - assert ((∃ c1 c2, e1 = Iex_Const c1 ∧ e2 = Iex_Const c2) ∨ (∀ c1 c2, e1 = Iex_Const c1 -> e2 = Iex_Const c2 -> False) ∧
      fold_Expr_WRK env (Iex_Binop op e1 e2) = fold_binop_other env (Iex_Binop op e1 e2) op e1 e2) as [(c1 & c2 & -> & ->)|[Hc ->]]
      by (destruct e1; try (right; split; [discriminate|done]); destruct e2; try (right; split; [discriminate|done]); left; eauto).
    + by apply fold_binop_const_returns.
    + by apply fold_binop_other_returns.
  - apply tc_Unop_inv in Htc as [Ha Hty]. cbn [flatExpr] in Hfl. destruct e; try discriminate Hfl.
    + cbn [fold_Expr_WRK fold_unop_other]. destruct op; try apply returns_ret. by apply fold_popcount_returns.
    + by apply fold_unop_const_returns.
Qed.

(** The exceptions do fail. *)
Lemma fold_Expr_WRK_fails e f : tc e = true -> unfoldable e = Some f -> fold_Expr_WRK env e = Fault f.
Proof.
  intros Htc Hu. destruct e; try discriminate Hu; destruct op; try discriminate Hu.
  - apply tc_Binop_inv in Htc as (_ & _ & [= Ht1 Ht2]).
    assert ((∃ n, e1 = Iex_Const (Ico_U32 n) ∧ n = 0xFFFFFFFF ∧ ∀ c, e2 ≠ Iex_Const c) ∨
            (∃ n, e2 = Iex_Const (Ico_U32 n) ∧ n = 0xFFFFFFFF ∧ ∀ c, e1 ≠ Iex_Const c)) as [(n & -> & -> & Hc)|(n & -> & -> & Hc)].
    { destruct e1; try discriminate Hu; destruct e2; try discriminate Hu;
        repeat match goal with c : IRConst |- _ => destruct c; try discriminate Hu end; cbn in Hu;
        match type of Hu with (if ?b then _ else _) = _ => destruct b eqn:Hb; [|discriminate Hu] end;
        apply Z.eqb_eq in Hb; first [left; eexists; split; [reflexivity|split; [exact Hb|discriminate]]|
          right; eexists; split; [reflexivity|split; [exact Hb|discriminate]]]. }
    + destruct e2; try (cbn in Hu; injection Hu as <-; reflexivity). by destruct (Hc _ eq_refl).
    + destruct e1; try (cbn in Hu; injection Hu as <-; reflexivity). by destruct (Hc _ eq_refl).
  - destruct e; try discriminate Hu. cbn [unfoldable] in Hu.
    match type of Hu with (if ?b then _ else _) = _ => destruct b eqn:Hb; [|discriminate Hu] end.
    injection Hu as <-. apply Z.eqb_eq in Hb.
    cbn [fold_Expr_WRK fold_unop_const]. by rewrite Hb.
  - destruct e; try discriminate Hu. cbn [unfoldable] in Hu.
    match type of Hu with (if ?b then _ else _) = _ => destruct b eqn:Hb; [|discriminate Hu] end.
    injection Hu as <-. apply Z.eqb_eq in Hb.
    cbn [fold_Expr_WRK fold_unop_const]. by rewrite Hb.
Qed.

End Returns.

(** C33: Folding returns, with the exceptions that the code does not handle. On a
    well-typed flat expression, with well-typed flat bindings that are not circular
    and without floating point constants given by their bits, [fold_Expr] returns an
    expression, unless the expression is [Left32] or [Left64] of the least number,
    whose negation overflows, or [Max32U] of the largest number and a temporary, for
    which [mkOnesOfPrimopResultType] panics; and in those cases it does not return. In
    particular the 32 nested calls of [sameIRExprs] and the chains of temporaries
    end, and no other assertion fails. *)
Theorem fold_Expr_returns `{M : Machine St} (tyenv : IRTypeEnv) (gWordTy : IRType) (env : Env) (e : IRExpr)
  (Henv : env_typed tyenv gWordTy env) (Hacyclic : env_acyclic env)
  (Hfloats : ∀ t r, env !! t = Some r -> no_F32i_F64i r = true)
  (Htc : tcExpr tyenv gWordTy e = true) (Hflat : flatExpr e = true) (Hn : no_F32i_F64i e = true) :
  match unfoldable e with
  | None => ∃ e2, fold_Expr (Some env) e = Ret e2
  | Some f => fold_Expr (Some env) e = Fault f
  end.
Proof.
  destruct (unfoldable e) eqn:Hu; [by eapply fold_Expr_WRK_fails|].
  by apply (fold_Expr_WRK_returns tyenv gWordTy).
Qed.

(** ** Concrete inputs *)

(** t0 : I32 is bound to 1Uto32(t1). *)
Definition small_tyenv : IRTypeEnv := [Ity_I32; Ity_I1].
Definition small_env : Env := {[ 0 := Iex_Unop Iop_1Uto32 (Iex_RdTmp 1) ]}.
Definition small_expr : IRExpr := Iex_Binop Iop_CmpNE32 (Iex_RdTmp 0) (Iex_Const (Ico_U32 0)).

Lemma small_env_inv t r : small_env !! t = Some r -> t = 0 ∧ r = Iex_Unop Iop_1Uto32 (Iex_RdTmp 1).
Proof. unfold small_env. intros [<- <-]%lookup_singleton_Some. done. Qed.
Lemma small_env_typed : @env_typed unit empty_machine small_tyenv Ity_I64 small_env.
Proof. intros t r [-> ->]%small_env_inv. done. Qed.

Lemma fold_Expr_sound_witness :
  @eval unit empty_machine small_tyenv (fun _ => 1) () (Iex_RdTmp 1) = Some 1.
Proof.
  assert (fold_Expr (Some small_env) small_expr = Ret (Iex_RdTmp 1)) as Hf by (vm_compute; reflexivity).
  destruct (@fold_Expr_sound unit empty_machine small_tyenv Ity_I64 (Some small_env) small_expr (Iex_RdTmp 1)) as (_ & _ & _ & H).
  - intros m [= <-]. apply small_env_typed.
  - vm_compute. reflexivity.
  - reflexivity.
  - exact Hf.
  - apply (H (fun _ => 1)); [|vm_compute; reflexivity]. intros m [= <-] t r [-> ->]%small_env_inv. by exists ().
Defined.

Lemma fold_Expr_returns_witness : (∃ e2, fold_Expr (Some small_env) small_expr = Ret e2) ∧
  fold_Expr (Some small_env) (Iex_Binop Iop_Max32U (Iex_RdTmp 0) (Iex_Const (Ico_U32 0xFFFFFFFF))) = Fault Panic.
Proof.
  split.
  - apply (@fold_Expr_returns unit empty_machine small_tyenv Ity_I64 small_env small_expr).
    + apply small_env_typed.
    + exists (fun _ => 0%nat). intros t u [_ [=]]%small_env_inv.
    + intros t r [-> ->]%small_env_inv. reflexivity.
    + vm_compute. reflexivity.
    + reflexivity.
    + reflexivity.
  - apply (@fold_Expr_returns unit empty_machine small_tyenv Ity_I64 small_env
      (Iex_Binop Iop_Max32U (Iex_RdTmp 0) (Iex_Const (Ico_U32 0xFFFFFFFF)))).
    + apply small_env_typed.
    + exists (fun _ => 0%nat). intros t u [_ [=]]%small_env_inv.
    + intros t r [-> ->]%small_env_inv. reflexivity.
    + vm_compute. reflexivity.
    + reflexivity.
    + reflexivity.
Defined.
