(* ===== verification/IrStmt.v ===== *)
(** * Statements and superblocks of the intermediate representation

    vg/VEX/pub/libvex_ir.h and vg/VEX/priv/ir_defs.c: the statements, the check of
    flatness, and [sanityCheckIRSB] with all it calls, but for what [IRType] and lists rule
    out (implausible types, limits of arrays, statements that are NULL). A [bool] stands
    for a check; [false] is a call of [sanityCheckFail] or [vpanic].

    The meaning of a block, [exec_IRSB], follows the comments of libvex_ir.h. What
    statements do to the guest state and to memory is a parameter, the class [Effects];
    a mark does nothing, and of a hint the expressions are evaluated. *)

From Stdlib Require Import String.
From stdpp Require Import gmap strings functions.
From S2P Require Import Prelude Lanes VexIR.
Local Open Scope Z_scope.

(** * Definitions *)

(** ** Statements *)

Definition IRTemp_INVALID : Z := 0xFFFFFFFF.

Inductive IRJumpKind :=
  | Ijk_INVALID | Ijk_Boring | Ijk_Call | Ijk_Ret | Ijk_ClientReq | Ijk_Yield | Ijk_EmWarn | Ijk_EmFail
  | Ijk_NoDecode | Ijk_MapFail | Ijk_InvalICache | Ijk_FlushDCache | Ijk_NoRedir | Ijk_SigILL | Ijk_SigTRAP
  | Ijk_SigSEGV | Ijk_SigBUS | Ijk_SigFPE | Ijk_SigFPE_IntDiv | Ijk_SigFPE_IntOvf | Ijk_Sys_syscall
  | Ijk_Sys_int32 | Ijk_Sys_int128 | Ijk_Sys_int129 | Ijk_Sys_int130 | Ijk_Sys_int145 | Ijk_Sys_int210
  | Ijk_Sys_sysenter.

Inductive IREffect := Ifx_None | Ifx_Read | Ifx_Write | Ifx_Modify.
Inductive IRMBusEvent := Imbe_Fence | Imbe_CancelReservation.
Inductive IRLoadGOp :=
  | ILGop_INVALID | ILGop_IdentV128 | ILGop_Ident64 | ILGop_Ident32 | ILGop_16Uto32 | ILGop_16Sto32
  | ILGop_8Uto32 | ILGop_8Sto32.

Definition VEX_N_FXSTATE : Z := 7.
Record FxState := { fx : IREffect; fx_offset : Z; fx_size : Z; nRepeats : Z; repeatLen : Z }.

(** A pointer that may be NULL is an option; arrays that end with NULL are lists. The
    array [fxState] has [nFxState] entries. *)
Record IRDirty := {
  d_cee : IRCallee; d_guard : IRExpr; d_args : list IRExpr; d_tmp : Z;
  d_mFx : IREffect; d_mAddr : option IRExpr; d_mSize : Z; d_fxState : list FxState
}.
Record IRCAS := {
  oldHi : Z; oldLo : Z; cas_end : IREndness; cas_addr : IRExpr;
  expdHi : option IRExpr; expdLo : IRExpr; dataHi : option IRExpr; dataLo : IRExpr
}.

Inductive IRStmt :=
  | Ist_NoOp
  | Ist_IMark (addr len delta : Z)
  | Ist_AbiHint (base : IRExpr) (len : Z) (nia : IRExpr)
  | Ist_Put (offset : Z) (data : IRExpr)
  | Ist_PutI (descr : IRRegArray) (ix : IRExpr) (bias : Z) (data : IRExpr)
  | Ist_WrTmp (tmp : Z) (data : IRExpr)
  | Ist_Store (en : IREndness) (addr data : IRExpr)
  | Ist_StoreG (en : IREndness) (addr data guard : IRExpr)
  | Ist_LoadG (en : IREndness) (cvt : IRLoadGOp) (dst : Z) (addr alt guard : IRExpr)
  | Ist_CAS (cas : IRCAS)
  | Ist_LLSC (en : IREndness) (result : Z) (addr : IRExpr) (storedata : option IRExpr)
  | Ist_Dirty (d : IRDirty)
  | Ist_MBE (event : IRMBusEvent)
  | Ist_Exit (guard : IRExpr) (jk : IRJumpKind) (dst : IRConst) (offsIP : Z).

(** A block. The arrays grow as needed; [stmts_used] and [types_used] are lengths. *)
Record IRSB := {
  tyenv : IRTypeEnv; stmts : list IRStmt; next : IRExpr; jumpkind : IRJumpKind; offsIP : Z
}.

(** [newIRTemp]: the types with one more, and its number. *)
Definition newIRTemp (env : IRTypeEnv) (ty : IRType) : IRTypeEnv * Z := (env ++ [ty], Z.of_nat (length env)).

(** ** Flatness *)

Definition is_IRExpr_VECRET_or_GSPTR (e : IRExpr) : bool :=
  match e with Iex_VECRET | Iex_GSPTR => true | _ => false end.
Definition isIRAtom_or_VECRET_or_GSPTR (e : IRExpr) : bool := isIRAtom e || is_IRExpr_VECRET_or_GSPTR e.
Definition null_or (p : IRExpr -> bool) (e : option IRExpr) : bool := match e with Some e => p e | None => true end.

Definition isFlatIRStmt (st : IRStmt) : bool :=
  match st with
  | Ist_AbiHint base _ nia => isIRAtom base && isIRAtom nia
  | Ist_Put _ data => isIRAtom data
  | Ist_PutI _ ix _ data => isIRAtom ix && isIRAtom data
  | Ist_WrTmp _ e =>
      match e with
      | Iex_Binder _ | Iex_Get _ _ | Iex_RdTmp _ | Iex_Const _ => true
      | Iex_GetI _ ix _ => isIRAtom ix
      | Iex_Qop _ arg1 arg2 arg3 arg4 => isIRAtom arg1 && isIRAtom arg2 && isIRAtom arg3 && isIRAtom arg4
      | Iex_Triop _ arg1 arg2 arg3 => isIRAtom arg1 && isIRAtom arg2 && isIRAtom arg3
      | Iex_Binop _ arg1 arg2 => isIRAtom arg1 && isIRAtom arg2
      | Iex_Unop _ arg => isIRAtom arg
      | Iex_Load _ _ addr => isIRAtom addr
      | Iex_CCall _ _ args => forallb isIRAtom args
      | Iex_ITE cond iftrue iffalse => isIRAtom cond && isIRAtom iftrue && isIRAtom iffalse
      | Iex_VECRET | Iex_GSPTR => false
      end
  | Ist_Store _ addr data => isIRAtom addr && isIRAtom data
  | Ist_StoreG _ addr data guard => isIRAtom addr && isIRAtom data && isIRAtom guard
  | Ist_LoadG _ _ _ addr alt guard => isIRAtom addr && isIRAtom alt && isIRAtom guard
  | Ist_CAS cas =>
      isIRAtom (cas_addr cas) && null_or isIRAtom (expdHi cas) && isIRAtom (expdLo cas) &&
      null_or isIRAtom (dataHi cas) && isIRAtom (dataLo cas)
  | Ist_LLSC _ _ addr storedata => isIRAtom addr && null_or isIRAtom storedata
  | Ist_Dirty d =>
      isIRAtom (d_guard d) && forallb isIRAtom_or_VECRET_or_GSPTR (d_args d) && null_or isIRAtom (d_mAddr d)
  | Ist_NoOp | Ist_IMark _ _ _ | Ist_MBE _ => true
  | Ist_Exit guard _ _ _ => isIRAtom guard
  end.

(** ** Definitions before uses *)

(** [def_counts] counts the definitions of each temporary. *)
Definition useBeforeDef_Temp (tmp : Z) (def_counts : list Z) : bool :=
  (0 <=? tmp) && (tmp <? Z.of_nat (length def_counts)) && (1 <=? def_counts !!! Z.to_nat tmp).

Definition assignedOnce_Temp (tmp : Z) (def_counts : list Z) : option (list Z) :=
  if (tmp <? 0) || (Z.of_nat (length def_counts) <=? tmp) then None
  else
    let def_counts := <[Z.to_nat tmp := def_counts !!! Z.to_nat tmp + 1]> def_counts in
    if 1 <? def_counts !!! Z.to_nat tmp then None else Some def_counts.

Fixpoint useBeforeDef_Expr (def_counts : list Z) (e : IRExpr) : bool :=
  match e with
  | Iex_Get _ _ | Iex_Const _ => true
  | Iex_GetI _ ix _ => useBeforeDef_Expr def_counts ix
  | Iex_RdTmp tmp => useBeforeDef_Temp tmp def_counts
  | Iex_Qop _ arg1 arg2 arg3 arg4 =>
      useBeforeDef_Expr def_counts arg1 && useBeforeDef_Expr def_counts arg2 &&
      useBeforeDef_Expr def_counts arg3 && useBeforeDef_Expr def_counts arg4
  | Iex_Triop _ arg1 arg2 arg3 =>
      useBeforeDef_Expr def_counts arg1 && useBeforeDef_Expr def_counts arg2 && useBeforeDef_Expr def_counts arg3
  | Iex_Binop _ arg1 arg2 => useBeforeDef_Expr def_counts arg1 && useBeforeDef_Expr def_counts arg2
  | Iex_Unop _ arg => useBeforeDef_Expr def_counts arg
  | Iex_Load _ _ addr => useBeforeDef_Expr def_counts addr
  | Iex_CCall _ _ args =>
      forallb (fun a => negb (is_IRExpr_VECRET_or_GSPTR a) && useBeforeDef_Expr def_counts a) args
  | Iex_ITE cond iftrue iffalse =>
      useBeforeDef_Expr def_counts cond && useBeforeDef_Expr def_counts iftrue && useBeforeDef_Expr def_counts iffalse
  | Iex_Binder _ | Iex_VECRET | Iex_GSPTR => false
  end.

(** The guard of a dirty call is not looked at. *)
Definition useBeforeDef_Stmt (def_counts : list Z) (st : IRStmt) : bool :=
  let used := useBeforeDef_Expr def_counts in
  match st with
  | Ist_NoOp | Ist_IMark _ _ _ | Ist_MBE _ => true
  | Ist_AbiHint base _ nia => used base && used nia
  | Ist_Put _ data => used data
  | Ist_PutI _ ix _ data => used ix && used data
  | Ist_WrTmp _ data => used data
  | Ist_Store _ addr data => used addr && used data
  | Ist_StoreG _ addr data guard => used addr && used data && used guard
  | Ist_LoadG _ _ _ addr alt guard => used addr && used alt && used guard
  | Ist_CAS cas =>
      used (cas_addr cas) && null_or used (expdHi cas) && used (expdLo cas) && null_or used (dataHi cas) &&
      used (dataLo cas)
  | Ist_LLSC _ _ addr storedata => used addr && null_or used storedata
  | Ist_Dirty d =>
      forallb (fun a => is_IRExpr_VECRET_or_GSPTR a || used a) (d_args d) &&
      match d_mFx d with Ifx_None => true | _ => match d_mAddr d with Some a => used a | None => false end end
  | Ist_Exit guard _ _ _ => used guard
  end.

Definition assignedOnce_Stmt (st : IRStmt) (def_counts : list Z) : option (list Z) :=
  match st with
  | Ist_WrTmp tmp _ => assignedOnce_Temp tmp def_counts
  | Ist_LoadG _ _ dst _ _ _ => assignedOnce_Temp dst def_counts
  | Ist_Dirty d =>
      if negb (d_tmp d =? IRTemp_INVALID) then assignedOnce_Temp (d_tmp d) def_counts else Some def_counts
  | Ist_CAS cas =>
      def_counts ← (if negb (oldHi cas =? IRTemp_INVALID) then assignedOnce_Temp (oldHi cas) def_counts
                    else Some def_counts);
      assignedOnce_Temp (oldLo cas) def_counts
  | Ist_LLSC _ result _ _ => assignedOnce_Temp result def_counts
  | _ => Some def_counts
  end.

(** ** Types *)

Definition typeOfIRLoadGOp (cvt : IRLoadGOp) : option (IRType * IRType) :=
  match cvt with
  | ILGop_IdentV128 => Some (Ity_V128, Ity_V128)
  | ILGop_Ident64 => Some (Ity_I64, Ity_I64)
  | ILGop_Ident32 => Some (Ity_I32, Ity_I32)
  | ILGop_16Uto32 | ILGop_16Sto32 => Some (Ity_I32, Ity_I16)
  | ILGop_8Uto32 | ILGop_8Sto32 => Some (Ity_I32, Ity_I8)
  | ILGop_INVALID => None
  end.

Section Checks.
Context `{M : Machine St} (te : IRTypeEnv) (gWordTy : IRType).
Notation ty := (typeOfIRExpr te).
Notation tc := (tcExpr te gWordTy).
Notation typed e t := (bool_decide (ty e = t)).
Notation untyped e t := (negb (bool_decide (ty e = t))).
Notation tmp_is x t := (bool_decide (typeOfIRTemp te x = t)).

Definition one_of (t : IRType) (l : list IRType) : bool := existsb (fun u => bool_decide (t = u)) l.

Definition tcCAS (cas : IRCAS) : bool :=
  (match expdHi cas, dataHi cas with
   | None, None => oldHi cas =? IRTemp_INVALID
   | Some _, Some _ => negb (oldHi cas =? IRTemp_INVALID)
   | _, _ => false
   end) &&
  tc (cas_addr cas) && typed (cas_addr cas) gWordTy &&
  typed (expdLo cas) (ty (dataLo cas)) && typed (expdLo cas) (typeOfIRTemp te (oldLo cas)) &&
  (one_of (ty (expdLo cas)) [Ity_I8; Ity_I16; Ity_I32] || bool_decide (gWordTy = Ity_I64) && typed (expdLo cas) Ity_I64) &&
  match expdHi cas, dataHi cas with
  | Some eh, Some dh =>
      typed eh (ty dh) && typed eh (typeOfIRTemp te (oldHi cas)) && tmp_is (oldHi cas) (typeOfIRTemp te (oldLo cas))
  | _, _ => true
  end.

Definition tcFx (f : FxState) : bool :=
  (match fx f with Ifx_None => false | _ => true end) && negb (fx_size f <=? 0) &&
  (if nRepeats f =? 0 then repeatLen f =? 0
   else negb (repeatLen f <=? fx_size f) && (Z.rem (repeatLen f) (fx_size f) =? 0)).

(** The loop over the arguments of a dirty call. *)
Fixpoint tcDirtyArgs (retTy : IRType) (args : list IRExpr) (i nVECRETs nGSPTRs : Z) : option (Z * Z) :=
  match args with
  | [] => Some (nVECRETs, nGSPTRs)
  | arg :: args =>
      if 32 <=? i then None
      else
        let nVECRETs := match arg with Iex_VECRET => nVECRETs + 1 | _ => nVECRETs end in
        let nGSPTRs := match arg with Iex_GSPTR => nGSPTRs + 1 | _ => nGSPTRs end in
        if negb (is_IRExpr_VECRET_or_GSPTR arg) && typed arg Ity_I1 then None
        else if 1 <? nGSPTRs then None
        else
          let vector := one_of retTy [Ity_V128; Ity_V256] in
          if nVECRETs =? 1 then (if vector then tcDirtyArgs retTy args (i + 1) nVECRETs nGSPTRs else None)
          else if nVECRETs =? 0 then (if vector then None else tcDirtyArgs retTy args (i + 1) nVECRETs nGSPTRs)
          else None
  end.

Definition tcDirty (d : IRDirty) : bool :=
  let nFxState := Z.of_nat (length (d_fxState d)) in
  saneIRCallee (d_cee d) && negb (Z.of_nat (length (d_args d)) <? regparms (d_cee d)) &&
  (match d_mFx d, d_mAddr d with
   | Ifx_None, None => d_mSize d =? 0
   | Ifx_None, Some _ => false
   | _, Some _ => negb (d_mSize d =? 0)
   | _, None => false
   end) &&
  negb (VEX_N_FXSTATE <? nFxState) && forallb tcFx (d_fxState d) &&
  tc (d_guard d) && typed (d_guard d) Ity_I1 &&
  let retTy := if d_tmp d =? IRTemp_INVALID then Ity_INVALID else typeOfIRTemp te (d_tmp d) in
  (if d_tmp d =? IRTemp_INVALID then true else negb (bool_decide (retTy = Ity_I1))) &&
  match tcDirtyArgs retTy (d_args d) 0 0 0 with
  | Some (_, nGSPTRs) => negb (1 <? nGSPTRs) && negb ((nFxState =? 0) && negb (nGSPTRs =? 0))
  | None => false
  end.

Definition tcStmt (st : IRStmt) : bool :=
  match st with
  | Ist_NoOp => true
  | Ist_IMark _ len delta => negb (24 <? len) && negb (1 <? delta)
  | Ist_AbiHint base _ nia => typed base gWordTy && typed nia gWordTy
  | Ist_Put _ data => tc data && untyped data Ity_I1
  | Ist_PutI descr ix _ data =>
      tc data && tc ix && untyped data Ity_I1 && typed data (elemTy descr) && typed ix Ity_I32 && saneIRRegArray descr
  | Ist_WrTmp tmp data => tc data && tmp_is tmp (ty data)
  | Ist_Store _ addr data => tc addr && tc data && typed addr gWordTy && untyped data Ity_I1
  | Ist_StoreG _ addr data guard =>
      tc addr && tc data && tc guard && typed addr gWordTy && untyped data Ity_I1 && typed guard Ity_I1
  | Ist_LoadG _ cvt dst addr alt guard =>
      tc addr && tc alt && tc guard && typed guard Ity_I1 && typed addr gWordTy && typed alt (typeOfIRTemp te dst) &&
      match typeOfIRLoadGOp cvt with Some (cvtRes, _) => bool_decide (cvtRes = typeOfIRTemp te dst) | None => false end
  | Ist_CAS cas => tcCAS cas
  | Ist_LLSC _ result addr storedata =>
      typed addr gWordTy &&
      match storedata with
      | None => one_of (typeOfIRTemp te result) [Ity_I128; Ity_I64; Ity_I32; Ity_I16; Ity_I8]
      | Some data => tmp_is result Ity_I1 && one_of (ty data) [Ity_I128; Ity_I64; Ity_I32; Ity_I16; Ity_I8]
      end
  | Ist_Dirty d => tcDirty d
  | Ist_MBE _ => true
  | Ist_Exit guard _ dst offsIP =>
      tc guard && typed guard Ity_I1 && saneIRConst dst && bool_decide (typeOfIRConst dst = gWordTy) && negb (offsIP <? 16)
  end.
End Checks.

(** The loop that counts definitions. *)
Fixpoint check_defs (l : list IRStmt) (def_counts : list Z) : option (list Z) :=
  match l with
  | [] => Some def_counts
  | st :: l =>
      if useBeforeDef_Stmt def_counts st then def_counts ← assignedOnce_Stmt st def_counts; check_defs l def_counts
      else None
  end.

(** [next] is checked for its type and its flatness only. *)
Definition sanityCheckIRSB `{M : Machine St} (bb : IRSB) (require_flat : bool) (guest_word_size : IRType) : bool :=
  one_of guest_word_size [Ity_I32; Ity_I64] &&
  (if require_flat then forallb isFlatIRStmt (stmts bb) && isIRAtom (next bb) else true) &&
  (match check_defs (stmts bb) (replicate (length (tyenv bb)) 0) with Some _ => true | None => false end) &&
  forallb (tcStmt (tyenv bb) guest_word_size) (stmts bb) &&
  bool_decide (typeOfIRExpr (tyenv bb) (next bb) = guest_word_size) && negb (offsIP bb <? 16).

(** ** Meaning *)

(** The argument of a dirty call is a value, or a request for a pointer. *)
Inductive dirty_arg := Arg_value (v : Z) | Arg_VECRET | Arg_GSPTR.
Record dirty_call := {
  c_cee : IRCallee; c_args : list dirty_arg; c_ret : IRType;
  c_mFx : IREffect; c_mAddr : option Z; c_mSize : Z; c_fxState : list FxState
}.

(** What statements do; [None] is a trap. [m_cas] gets the expected and the new high
    words if there are any, and returns the old high and low words; [m_llsc] is a
    load-linked of a type, or a store-conditional of a value of a type. *)
Class Effects (St : Type) := {
  m_put : St -> Z -> IRType -> Z -> St;
  m_putI : St -> IRRegArray -> Z -> Z -> Z -> St;
  m_store : St -> IREndness -> IRType -> Z -> Z -> option St;
  m_cas : St -> IREndness -> IRType -> Z -> option (Z * Z) -> Z -> Z -> option (St * Z * Z);
  m_llsc : St -> IREndness -> IRType -> Z -> option Z -> option (St * Z);
  m_dirty : St -> dirty_call -> option (St * Z);
  m_mbe : St -> IRMBusEvent -> St;
}.

(** The state after a statement, with the temporaries it writes; or the exit taken. *)
Inductive step (St : Type) :=
  | Go (writes : list (Z * Z)) (s : St)
  | Leave (s : St) (dst : Z) (jk : IRJumpKind).
Arguments Go {St}. Arguments Leave {St}.

(** The conversion of a guarded load. *)
Definition cvtOp_of (cvt : IRLoadGOp) : option IROp :=
  match cvt with
  | ILGop_8Uto32 => Some Iop_8Uto32 | ILGop_8Sto32 => Some Iop_8Sto32
  | ILGop_16Uto32 => Some Iop_16Uto32 | ILGop_16Sto32 => Some Iop_16Sto32
  | _ => None
  end.

(** 0x5555..., in a temporary of [w] bits. *)
Definition pattern_55 (w : Z) : Z := (2 ^ w - 1) / 3.

Section Meaning.
Context `{M : Machine St} `{E : Effects St} (te : IRTypeEnv).
Notation ty := (typeOfIRExpr te).

Definition convert (cvt : IRLoadGOp) (v : Z) : option Z :=
  match cvtOp_of cvt with
  | Some op => wrap (width (typeOfPrimop op).1) <$> eval_unop op v
  | None => Some v
  end.

Definition eval_arg (tmps : Z -> Z) (s : St) (e : IRExpr) : option dirty_arg :=
  match e with
  | Iex_VECRET => Some Arg_VECRET
  | Iex_GSPTR => Some Arg_GSPTR
  | _ => Arg_value <$> eval te tmps s e
  end.

(** The address of a dirty call means something if the call accesses memory. *)
Definition addr_of (fx : IREffect) (mAddr : option IRExpr) : option IRExpr :=
  match fx with Ifx_None => None | _ => mAddr end.

Definition eval_opt (tmps : Z -> Z) (s : St) (e : option IRExpr) : option (option Z) :=
  match e with Some e => Some <$> eval te tmps s e | None => Some None end.

Definition exec_Stmt (tmps : Z -> Z) (s : St) (st : IRStmt) : option (step St) :=
  let ev := eval te tmps s in
  match st with
  | Ist_NoOp | Ist_IMark _ _ _ => Some (Go [] s)
  | Ist_AbiHint base _ nia => _ ← ev base; _ ← ev nia; Some (Go [] s)
  | Ist_Put offset data => v ← ev data; Some (Go [] (m_put s offset (ty data) v))
  | Ist_PutI descr ix bias data => i ← ev ix; v ← ev data; Some (Go [] (m_putI s descr i bias v))
  | Ist_WrTmp tmp data => v ← ev data; Some (Go [(tmp, v)] s)
  | Ist_Store en addr data => a ← ev addr; v ← ev data; s' ← m_store s en (ty data) a v; Some (Go [] s')
  | Ist_StoreG en addr data guard =>
      a ← ev addr; v ← ev data; g ← ev guard;
      if g =? 0 then Some (Go [] s) else s' ← m_store s en (ty data) a v; Some (Go [] s')
  | Ist_LoadG en cvt dst addr alt guard =>
      a ← ev addr; x ← ev alt; g ← ev guard; t ← typeOfIRLoadGOp cvt;
      if g =? 0 then Some (Go [(dst, x)] s)
      else l ← m_load s en t.2 a; v ← convert cvt (wrap (width t.2) l); Some (Go [(dst, v)] s)
  | Ist_CAS cas =>
      a ← ev (cas_addr cas); eh ← eval_opt tmps s (expdHi cas); el ← ev (expdLo cas);
      dh ← eval_opt tmps s (dataHi cas); dl ← ev (dataLo cas);
      r ← m_cas s (cas_end cas) (ty (expdLo cas)) a (match eh, dh with Some x, Some y => Some (x, y) | _, _ => None end) el dl;
      let '(s', hi, lo) := r in
      Some (Go ((if negb (oldHi cas =? IRTemp_INVALID) then [(oldHi cas, hi)] else []) ++ [(oldLo cas, lo)]) s')
  | Ist_LLSC en result addr storedata =>
      a ← ev addr; d ← eval_opt tmps s storedata;
      r ← m_llsc s en (match storedata with Some e => ty e | None => typeOfIRTemp te result end) a d;
      Some (Go [(result, r.2)] r.1)
  | Ist_Dirty d =>
      l ← mapM (eval_arg tmps s) (d_args d); a ← eval_opt tmps s (addr_of (d_mFx d) (d_mAddr d)); g ← ev (d_guard d);
      let retTy := if d_tmp d =? IRTemp_INVALID then Ity_INVALID else typeOfIRTemp te (d_tmp d) in
      let result v := if negb (d_tmp d =? IRTemp_INVALID) then [(d_tmp d, v)] else [] in
      if g =? 0 then Some (Go (result (pattern_55 (width retTy))) s)
      else
        r ← m_dirty s {| c_cee := d_cee d; c_args := l; c_ret := retTy; c_mFx := d_mFx d; c_mAddr := a;
                         c_mSize := d_mSize d; c_fxState := d_fxState d |};
        Some (Go (result r.2) r.1)
  | Ist_MBE event => Some (Go [] (m_mbe s event))
  | Ist_Exit guard jk dst offsIP =>
      g ← ev guard;
      if g =? 0 then Some (Go [] s)
      else
        let t := typeOfIRConst dst in let d := wrap (width t) (value_of_const dst) in
        Some (Leave (m_put s offsIP t d) d jk)
  end.

Definition write (l : list (Z * Z)) (tmps : Z -> Z) : Z -> Z := foldl (fun f x => <[x.1 := x.2]> f) tmps l.

(** Through the statements; [inl] at the end, [inr] at an exit. *)
Fixpoint exec_Stmts (tmps : Z -> Z) (s : St) (l : list IRStmt) : option ((Z -> Z) * St + St * Z * IRJumpKind) :=
  match l with
  | [] => Some (inl (tmps, s))
  | st :: l =>
      r ← exec_Stmt tmps s st;
      match r with
      | Go w s' => exec_Stmts (write w tmps) s' l
      | Leave s' dst jk => Some (inr (s', dst, jk))
      end
  end.

(** The final jump writes the program counter. *)
Definition exec_end (e : IRExpr) (jk : IRJumpKind) (offs : Z) (tmps : Z -> Z) (s : St) : option (St * Z * IRJumpKind) :=
  d ← eval te tmps s e; Some (m_put s offs (ty e) d, d, jk).
End Meaning.

(** The state after a block, where it continues, and how. *)
Definition exec_IRSB `{M : Machine St} `{E : Effects St} (bb : IRSB) (tmps : Z -> Z) (s : St) : option (St * Z * IRJumpKind) :=
  r ← exec_Stmts (tyenv bb) tmps s (stmts bb);
  match r with
  | inr x => Some x
  | inl (tmps, s) => exec_end (tyenv bb) (next bb) (jumpkind bb) (offsIP bb) tmps s
  end.

(** * Lemmas *)

(** ** The temporaries of an expression *)

Fixpoint temps (e : IRExpr) : list Z :=
  match e with
  | Iex_RdTmp t => [t]
  | Iex_GetI _ ix _ => temps ix
  | Iex_Qop _ a b c d => temps a ++ temps b ++ temps c ++ temps d
  | Iex_Triop _ a b c | Iex_ITE a b c => temps a ++ temps b ++ temps c
  | Iex_Binop _ a b => temps a ++ temps b
  | Iex_Unop _ a | Iex_Load _ _ a => temps a
  | Iex_CCall _ _ args => concat (temps <$> args)
  | _ => []
  end.

(** All temporaries satisfy [Q]. *)
Definition uses_in (Q : Z -> Prop) (e : IRExpr) : Prop := ∀ t, t ∈ temps e -> Q t.

Lemma uses_in_app (Q : Z -> Prop) (l1 l2 : list Z) :
  (∀ t, t ∈ l1 ++ l2 -> Q t) <-> (∀ t, t ∈ l1 -> Q t) ∧ (∀ t, t ∈ l2 -> Q t).
Proof.
  split.
  - intros H. split; intros t Ht; apply H, elem_of_app; auto.
  - intros [H1 H2] t [Ht|Ht]%elem_of_app; auto.
Qed.
Lemma uses_in_args (Q : Z -> Prop) (args : list IRExpr) :
  (∀ t, t ∈ concat (temps <$> args) -> Q t) <-> Forall (uses_in Q) args.
Proof.
  induction args as [|a args IH]; cbn.
  - split; [constructor|intros _ t H; by apply elem_of_nil in H].
  - rewrite uses_in_app, IH, Forall_cons. done.
Qed.
Lemma uses_in_mono (Q R : Z -> Prop) e : (∀ t, Q t -> R t) -> uses_in Q e -> uses_in R e.
Proof. intros HQ H t Ht. auto. Qed.

Lemma mapM_ext_Forall {A B} (f g : A -> option B) l : Forall (fun x => f x = g x) l -> mapM f l = mapM g l.
Proof. induction 1 as [|x l Hx _ IH]; [done|]. cbn. by rewrite Hx, IH. Qed.

Section Agree.
Context `{M : Machine St}.

(** A temporary that looks the same. *)
Definition same_at (te te' : IRTypeEnv) (f g : Z -> Z) (t : Z) : Prop :=
  f t = g t ∧ typeOfIRTemp te t = typeOfIRTemp te' t.

(** The value and the type depend on the temporaries that occur. *)
Lemma eval_same te te' f g s e : uses_in (same_at te te' f g) e -> eval te f s e = eval te' g s e.
Proof.
  unfold uses_in. induction e as [| |d ix b IH|t|op a b c d IHa IHb IHc IHd|op a b c IHa IHb IHc|op a b IHa IHb|op a IHa
    |en ty a IHa| |cee ty args IH|a b c IHa IHb IHc| |] using IRExpr_deep_ind; cbn [eval temps];
    rewrite ?uses_in_app; intros H; try done.
  - by rewrite IH.
  - destruct (H t) as [-> ->]; [by apply list_elem_of_singleton|done].
  - destruct H as (Ha & Hb & Hc & Hd). by rewrite IHa, IHb, IHc, IHd.
  - destruct H as (Ha & Hb & Hc). by rewrite IHa, IHb, IHc.
  - destruct H as (Ha & Hb). by rewrite IHa, IHb.
  - by rewrite IHa.
  - by rewrite IHa.
  - apply uses_in_args in H. erewrite (mapM_ext_Forall _ (eval te' g s)); [done|].
    induction H; inversion IH; subst; constructor; auto.
  - destruct H as (Ha & Hb & Hc). by rewrite IHa, IHb, IHc.
Qed.

Lemma type_same te te' f g e : uses_in (same_at te te' f g) e -> typeOfIRExpr te e = typeOfIRExpr te' e.
Proof.
  unfold uses_in. induction e; cbn [temps typeOfIRExpr]; rewrite ?uses_in_app; intros H; try done.
  - apply H. by apply list_elem_of_singleton.
  - naive_solver.
Qed.
End Agree.

(** ** Definitions and uses *)

Definition defined (def_counts : list Z) (t : Z) : Prop := useBeforeDef_Temp t def_counts = true.
Definition counts_ok (def_counts : list Z) : Prop := Forall (fun n => 0 <= n) def_counts.

Lemma used_defined dc e : useBeforeDef_Expr dc e = true -> uses_in (defined dc) e.
Proof.
  unfold uses_in. induction e as [| |d ix b IH|t|op a b c d IHa IHb IHc IHd|op a b c IHa IHb IHc|op a b IHa IHb|op a IHa
    |en ty a IHa| |cee ty args IH|a b c IHa IHb IHc| |] using IRExpr_deep_ind; cbn [useBeforeDef_Expr temps];
    rewrite ?uses_in_app, ?andb_true_iff; intros H; try done; try (intros u Hu; by apply elem_of_nil in Hu); auto.
  - intros u ->%list_elem_of_singleton. done.
  - naive_solver.
  - naive_solver.
  - naive_solver.
  - apply uses_in_args. induction args as [|a args IHl]; [constructor|]. inversion IH as [|? ? IHa IHargs]; subst.
    cbn in H. b2p. constructor; [exact (IHa ltac:(done))|by apply IHl].
  - naive_solver.
Qed.

(** The temporaries that a statement defines. *)
Definition defs (st : IRStmt) : list Z :=
  match st with
  | Ist_WrTmp t _ | Ist_LoadG _ _ t _ _ _ | Ist_LLSC _ t _ _ => [t]
  | Ist_CAS cas => (if negb (oldHi cas =? IRTemp_INVALID) then [oldHi cas] else []) ++ [oldLo cas]
  | Ist_Dirty d => if negb (d_tmp d =? IRTemp_INVALID) then [d_tmp d] else []
  | _ => []
  end.

Lemma assignedOnce_Temp_spec t dc dc' : counts_ok dc -> assignedOnce_Temp t dc = Some dc' ->
  counts_ok dc' ∧ length dc' = length dc ∧ 0 <= t < Z.of_nat (length dc) ∧ ¬ defined dc t ∧
  ∀ u, defined dc' u <-> u = t ∨ defined dc u.
Proof.
  intros Hok. unfold assignedOnce_Temp. destruct ((t <? 0) || _) eqn:Hr0; [done|]. cbv zeta. destruct (1 <? _) eqn:Hc; [done|]. intros [= <-].
  assert (0 <= t < Z.of_nat (length dc)) as Hr by lia.
  rewrite list_lookup_total_insert_eq in Hc by lia.
  destruct (lookup_lt_is_Some_2 dc (Z.to_nat t)) as [n Hn]; [lia|].
  pose proof (list_lookup_total_correct _ _ _ Hn) as Ht. pose proof (Forall_lookup_1 _ _ _ _ Hok Hn) as Hn0. cbn in Hn0.
  rewrite Ht in Hc |- *. split; [apply Forall_insert; [done|lia]|]. split; [by rewrite length_insert|]. split; [done|]. split.
  - unfold defined, useBeforeDef_Temp. rewrite Ht. intros Hd. b2p. lia.
  - intros u. unfold defined, useBeforeDef_Temp. rewrite length_insert. destruct (decide (u = t)) as [->|Hne].
    + rewrite list_lookup_total_insert_eq by lia. split; [by left|]. intros _. rewrite !andb_true_iff. lia.
    + destruct (Z.leb_spec 0 u); [|naive_solver]. rewrite list_lookup_total_insert_ne by lia. naive_solver.
Qed.

Lemma assignedOnce_Stmt_spec st dc dc' : counts_ok dc -> assignedOnce_Stmt st dc = Some dc' ->
  counts_ok dc' ∧ length dc' = length dc ∧ NoDup (defs st) ∧
  (∀ t, t ∈ defs st -> 0 <= t < Z.of_nat (length dc) ∧ ¬ defined dc t) ∧
  ∀ u, defined dc' u <-> u ∈ defs st ∨ defined dc u.
Proof.
  intros Hok.
  assert (∀ t, assignedOnce_Temp t dc = Some dc' -> counts_ok dc' ∧ length dc' = length dc ∧ NoDup [t] ∧
    (∀ u, u ∈ [t] -> 0 <= u < Z.of_nat (length dc) ∧ ¬ defined dc u) ∧ ∀ u, defined dc' u <-> u ∈ [t] ∨ defined dc u) as Hone.
  { intros t (H1 & H2 & H3 & H4 & H5)%assignedOnce_Temp_spec; [|done]. split_and!; [done|done|apply NoDup_singleton| |].
    - by intros u ->%list_elem_of_singleton.
    - intros u. by rewrite H5, list_elem_of_singleton. }
  assert (Some dc = Some dc' -> counts_ok dc' ∧ length dc' = length dc ∧ NoDup (A := Z) [] ∧
    (∀ u, u ∈ [] -> 0 <= u < Z.of_nat (length dc) ∧ ¬ defined dc u) ∧ ∀ u, defined dc' u <-> u ∈ [] ∨ defined dc u) as Hnil.
  { intros [= <-]. split_and!; [done|done|constructor| |]; intros u.
    - intros H. by apply elem_of_nil in H.
    - rewrite elem_of_nil. naive_solver. }
  destruct st; cbn [assignedOnce_Stmt defs]; auto.
  - destruct (negb (oldHi cas =? IRTemp_INVALID)); cbn [mbind option_bind app]; [|apply Hone].
    destruct (assignedOnce_Temp (oldHi cas) dc) as [dc1|] eqn:E1; [|done]. cbn [mbind option_bind].
    apply assignedOnce_Temp_spec in E1 as (A1 & A2 & A3 & A4 & A5); [|done].
    intros (B1 & B2 & B3 & B4 & B5)%assignedOnce_Temp_spec; [|done]. rewrite A5 in B4. rewrite A2 in *.
    split_and!; [done|done| | |].
    + apply NoDup_cons. split; [|apply NoDup_singleton]. rewrite list_elem_of_singleton. naive_solver.
    + intros u. rewrite elem_of_cons, list_elem_of_singleton. naive_solver.
    + intros u. rewrite B5, A5, elem_of_cons, list_elem_of_singleton. tauto.
  - destruct (negb (d_tmp d =? IRTemp_INVALID)); auto.
Qed.

(** ** Statements that differ in their expressions *)

Section Rel.
Context (R : IRExpr -> IRExpr -> Prop).

Definition arg_rel (a b : IRExpr) : Prop :=
  if is_IRExpr_VECRET_or_GSPTR a then b = a else is_IRExpr_VECRET_or_GSPTR b = false ∧ R a b.

Inductive stmt_rel : IRStmt -> IRStmt -> Prop :=
  | rel_NoOp : stmt_rel Ist_NoOp Ist_NoOp
  | rel_IMark a l d : stmt_rel (Ist_IMark a l d) (Ist_IMark a l d)
  | rel_AbiHint b b' l n n' : R b b' -> R n n' -> stmt_rel (Ist_AbiHint b l n) (Ist_AbiHint b' l n')
  | rel_Put o e e' : R e e' -> stmt_rel (Ist_Put o e) (Ist_Put o e')
  | rel_PutI d i i' b e e' : R i i' -> R e e' -> stmt_rel (Ist_PutI d i b e) (Ist_PutI d i' b e')
  | rel_WrTmp t e e' : R e e' -> stmt_rel (Ist_WrTmp t e) (Ist_WrTmp t e')
  | rel_Store en a a' e e' : R a a' -> R e e' -> stmt_rel (Ist_Store en a e) (Ist_Store en a' e')
  | rel_StoreG en a a' e e' g g' : R a a' -> R e e' -> R g g' -> stmt_rel (Ist_StoreG en a e g) (Ist_StoreG en a' e' g')
  | rel_LoadG en c t a a' x x' g g' : R a a' -> R x x' -> R g g' ->
      stmt_rel (Ist_LoadG en c t a x g) (Ist_LoadG en c t a' x' g')
  | rel_CAS oh ol en a a' eh eh' el el' dh dh' dl dl' :
      R a a' -> option_Forall2 R eh eh' -> R el el' -> option_Forall2 R dh dh' -> R dl dl' ->
      stmt_rel (Ist_CAS {| oldHi := oh; oldLo := ol; cas_end := en; cas_addr := a; expdHi := eh; expdLo := el;
                           dataHi := dh; dataLo := dl |})
               (Ist_CAS {| oldHi := oh; oldLo := ol; cas_end := en; cas_addr := a'; expdHi := eh'; expdLo := el';
                           dataHi := dh'; dataLo := dl' |})
  | rel_LLSC en t a a' d d' : R a a' -> option_Forall2 R d d' -> stmt_rel (Ist_LLSC en t a d) (Ist_LLSC en t a' d')
  | rel_Dirty cee g g' args args' t fx a a' n l :
      R g g' -> Forall2 arg_rel args args' -> option_Forall2 R (addr_of fx a) (addr_of fx a') ->
      stmt_rel (Ist_Dirty {| d_cee := cee; d_guard := g; d_args := args; d_tmp := t; d_mFx := fx; d_mAddr := a;
                             d_mSize := n; d_fxState := l |})
               (Ist_Dirty {| d_cee := cee; d_guard := g'; d_args := args'; d_tmp := t; d_mFx := fx; d_mAddr := a';
                             d_mSize := n; d_fxState := l |})
  | rel_MBE ev : stmt_rel (Ist_MBE ev) (Ist_MBE ev)
  | rel_Exit g g' jk d o : R g g' -> stmt_rel (Ist_Exit g jk d o) (Ist_Exit g' jk d o).

Lemma stmt_rel_defs st st' : stmt_rel st st' -> defs st = defs st'.
Proof. by destruct 1. Qed.
End Rel.

Lemma option_Forall2_impl {A} (R R' : A -> A -> Prop) x y : (∀ a b, R a b -> R' a b) ->
  option_Forall2 R x y -> option_Forall2 R' x y.
Proof. intros H. destruct 1; constructor; auto. Qed.

Lemma stmt_rel_impl (R R' : IRExpr -> IRExpr -> Prop) st st' :
  (∀ e e', R e e' -> R' e e') -> stmt_rel R st st' -> stmt_rel R' st st'.
Proof.
  intros H. destruct 1; constructor; auto; try (eapply option_Forall2_impl; [exact H|done]).
  eapply Forall2_impl; [done|]. intros x y. unfold arg_rel. destruct (is_IRExpr_VECRET_or_GSPTR x); naive_solver.
Qed.

Section ExecRel.
Context `{M : Machine St} `{E : Effects St} (te te' : IRTypeEnv).

(** [e'] has the type of [e], and its value where it has one. *)
Definition eval_rel (f g : Z -> Z) (s : St) (e e' : IRExpr) : Prop :=
  typeOfIRExpr te e = typeOfIRExpr te' e' ∧ ∀ v, eval te f s e = Some v -> eval te' g s e' = Some v.

Lemma eval_arg_rel f g s a b v : arg_rel (eval_rel f g s) a b ->
  eval_arg te f s a = Some v -> eval_arg te' g s b = Some v.
Proof.
  unfold arg_rel. intros H.
  destruct (is_IRExpr_VECRET_or_GSPTR a) eqn:Ha; [subst; by destruct a|]. destruct H as [Hb [_ H]].
  assert (∀ te f e, is_IRExpr_VECRET_or_GSPTR e = false -> eval_arg te f s e = Arg_value <$> eval te f s e) as Heq
    by (by intros ?? []).
  rewrite !Heq by done. intros (x & Hx & ->)%fmap_Some. by rewrite (H _ Hx).
Qed.
Lemma eval_args_rel f g s l l' v : Forall2 (arg_rel (eval_rel f g s)) l l' ->
  mapM (eval_arg te f s) l = Some v -> mapM (eval_arg te' g s) l' = Some v.
Proof.
  intros H. revert v. induction H as [|a b l l' Hab _ IH]; intros v; [done|]. cbn [mapM].
  intros (x & Hx & (y & Hy & [= <-])%bind_Some)%bind_Some. by rewrite (eval_arg_rel _ _ _ _ _ _ Hab Hx), (IH _ Hy).
Qed.
Lemma eval_opt_rel f g s a b v : option_Forall2 (eval_rel f g s) a b ->
  eval_opt te f s a = Some v -> eval_opt te' g s b = Some v.
Proof.
  destruct 1 as [a b [_ H]|]; [|done]. cbn. intros (x & Hx & ->)%fmap_Some. by rewrite (H _ Hx).
Qed.

Lemma exec_rel f g s st st' r : stmt_rel (eval_rel f g s) st st' ->
  (∀ t, t ∈ defs st -> typeOfIRTemp te t = typeOfIRTemp te' t) ->
  exec_Stmt te f s st = Some r -> exec_Stmt te' g s st' = Some r.
Proof.
  intros Hrel Ht.
  destruct Hrel; cbn [exec_Stmt cas_addr expdHi expdLo dataHi dataLo oldHi oldLo cas_end
    d_cee d_args d_guard d_mAddr d_mFx d_tmp d_mSize d_fxState]; try done;
    repeat match goal with H : eval_rel _ _ _ _ _ |- _ => destruct H as [? ?] end; intros Hx;
    repeat match goal with H : (_ ≫= _) = Some _ |- _ => apply bind_Some in H as (? & ? & H) end.
  all: repeat match goal with
    | H : ∀ v, eval _ _ _ ?e = Some v -> _, H' : eval _ _ _ ?e = Some _ |- _ => rewrite (H _ H'); clear H'; cbn [mbind option_bind]
    | H : mapM _ ?l = Some _, H' : Forall2 _ ?l _ |- _ => rewrite (eval_args_rel _ _ _ _ _ _ H' H); clear H; cbn [mbind option_bind]
    | H : eval_opt _ _ _ ?l = Some _, H' : option_Forall2 _ ?l _ |- _ =>
        rewrite (eval_opt_rel _ _ _ _ _ _ H' H); clear H; cbn [mbind option_bind]
    end.
  all: repeat match goal with H : typeOfIRExpr _ ?e = _ |- context [typeOfIRExpr _ ?e'] => rewrite <- H end.
  all: repeat match goal with H : ?m = Some _ |- context [?m] => rewrite H; cbn [mbind option_bind] end; try done.
  - cbn [defs] in Ht. rewrite <- (Ht t) by by apply list_elem_of_singleton.
    match goal with H : option_Forall2 _ _ _ |- _ => destruct H as [? ? [<- _]|] end;
      repeat match goal with H : ?m = Some _ |- context [?m] => rewrite H; cbn [mbind option_bind] end; done.
  - cbn [defs d_tmp] in Ht. destruct (t =? IRTemp_INVALID) eqn:Et; cbn [negb] in *;
      [|rewrite <- (Ht t) by by apply list_elem_of_singleton].
    all: match goal with H : (if ?b then _ else _) = Some _ |- _ => destruct b end; [done|].
    all: match goal with H : (_ ≫= _) = Some _ |- _ => apply bind_Some in H as (? & Hd & ?) end.
    all: by rewrite Hd.
Qed.

(** The temporaries that are written. *)
Lemma exec_Go f s st w s' : exec_Stmt te f s st = Some (Go w s') -> w.*1 = defs st.
Proof.
  destruct st; cbn [exec_Stmt defs]; intros Hx;
    repeat match type of Hx with
    | (_ ≫= _) = Some _ => apply bind_Some in Hx as (? & ? & Hx)
    | (if ?b then _ else _) = Some _ => destruct b
    end; try by simplify_eq.
  - destruct x4 as [[s1 hi] lo]. injection Hx as <- <-. by destruct (negb _).
  - injection Hx as <- <-. by destruct (negb _).
  - injection Hx as <- <-. by destruct (negb _).
Qed.
End ExecRel.

(** ** Writing temporaries *)

Lemma write_other w f t : t ∉ w.*1 -> write w f t = f t.
Proof.
  revert f. induction w as [|[u v] w IH]; intros f; [done|]. unfold write in *. cbn [foldl fmap list_fmap fst snd].
  rewrite not_elem_of_cons. intros [Hne Hw]. rewrite IH by done. by rewrite fn_lookup_insert_ne.
Qed.
Lemma write_agree w f g (Q : Z -> Prop) : (∀ t, Q t -> t ∉ w.*1 -> f t = g t) -> ∀ t, Q t -> write w f t = write w g t.
Proof.
  revert f g. induction w as [|[u v] w IH]; intros f g H t HQ; [apply H; [done|by apply not_elem_of_nil]|].
  unfold write in *. cbn [foldl fst snd]. apply IH; [|done]. clear t HQ. intros t HQ Ht. cbn [fmap list_fmap fst] in H.
  destruct (decide (t = u)) as [->|Hne]; [by rewrite !fn_lookup_insert|]. rewrite !fn_lookup_insert_ne by done.
  apply H; [done|]. by apply not_elem_of_cons.
Qed.

(** ** The expressions of a statement *)

Definition exprs (st : IRStmt) : list IRExpr :=
  match st with
  | Ist_NoOp | Ist_IMark _ _ _ | Ist_MBE _ => []
  | Ist_AbiHint base _ nia => [base; nia]
  | Ist_Put _ data | Ist_WrTmp _ data => [data]
  | Ist_PutI _ ix _ data => [ix; data]
  | Ist_Store _ addr data => [addr; data]
  | Ist_StoreG _ addr data guard => [addr; data; guard]
  | Ist_LoadG _ _ _ addr alt guard => [addr; alt; guard]
  | Ist_CAS cas =>
      [cas_addr cas] ++ option_list (expdHi cas) ++ [expdLo cas] ++ option_list (dataHi cas) ++ [dataLo cas]
  | Ist_LLSC _ _ addr storedata => [addr] ++ option_list storedata
  | Ist_Dirty d => [d_guard d] ++ d_args d ++ option_list (addr_of (d_mFx d) (d_mAddr d))
  | Ist_Exit guard _ _ _ => [guard]
  end.

Lemma Forall_option_list {A} (P : A -> Prop) o : Forall P (option_list o) -> option_Forall2 (fun x y => x = y ∧ P x) o o.
Proof. destruct o; cbn; intros H; constructor. by inversion H. Qed.

Lemma stmt_rel_refl (P : IRExpr -> Prop) st : Forall P (exprs st) -> stmt_rel (fun e e' => e = e' ∧ P e) st st.
Proof.
  destruct st; cbn [exprs]; rewrite ?Forall_app, ?Forall_cons, ?Forall_nil; intros H;
    try (constructor; naive_solver).
  - destruct cas; cbn in *. destruct H as ([? _] & ? & [? _] & ? & ? & _). constructor; auto using Forall_option_list.
  - destruct H as ([? _] & ?). constructor; auto using Forall_option_list.
  - destruct d; cbn in *. destruct H as ([? _] & Hargs & ?). constructor; auto using Forall_option_list.
    induction Hargs as [|a l Ha _ IH]; constructor; [|done]. unfold arg_rel. destruct (is_IRExpr_VECRET_or_GSPTR a) eqn:E; auto.
Qed.

Section Uses.
Context `{M : Machine St} `{E : Effects St}.
Implicit Types (te : IRTypeEnv) (st : IRStmt).

Lemma exec_same te te' f g s st : Forall (uses_in (same_at te te' f g)) (exprs st) ->
  (∀ t, t ∈ defs st -> typeOfIRTemp te t = typeOfIRTemp te' t) ->
  ∀ r, exec_Stmt te f s st = Some r -> exec_Stmt te' g s st = Some r.
Proof.
  intros Hu Ht r. apply exec_rel; [|done]. apply stmt_rel_refl in Hu. revert Hu. apply stmt_rel_impl.
  intros e ? [<- He]. split; [by eapply type_same|]. intros v. by rewrite (eval_same _ _ _ _ _ _ He).
Qed.
End Uses.

(** What is checked to be defined before it is used; the guard of a dirty call is not. *)
Definition unchecked (st : IRStmt) : list IRExpr :=
  match st with
  | Ist_Dirty d => [d_guard d]
  | _ => []
  end.

Lemma used_defined_Stmt dc st : useBeforeDef_Stmt dc st = true ->
  forallb (useBeforeDef_Expr dc) (unchecked st) = true -> Forall (uses_in (defined dc)) (exprs st).
Proof.
  assert (∀ o, null_or (useBeforeDef_Expr dc) o = true -> Forall (uses_in (defined dc)) (option_list o)) as Hopt.
  { intros [e|]; cbn; intros H; repeat constructor. by apply used_defined. }
  destruct st; cbn [useBeforeDef_Stmt exprs unchecked]; intros H Hu; b2p; rewrite ?Forall_app, ?Forall_cons, ?Forall_nil;
    split_and?; auto using used_defined.
  - cbn in Hu. b2p. by apply used_defined.
  - induction (d_args d) as [|a l IH]; constructor; cbn in *; b2p; [|by apply IH].
    destruct H as [H|H]; [|by apply used_defined]. destruct a; try done; intros t Ht; by apply elem_of_nil in Ht.
  - destruct (d_mFx d); cbn [addr_of option_list]; [constructor|..];
      (destruct (d_mAddr d); [|done]; repeat constructor; by apply used_defined).
Qed.

(** ** The definitions of a block, checked to the end *)

(** What [sanityCheckIRSB] leaves unchecked, for the statements and the last expression. *)
Fixpoint unchecked_defined (l : list IRStmt) (e : IRExpr) (dc : list Z) : bool :=
  match l with
  | [] => useBeforeDef_Expr dc e
  | st :: l =>
      forallb (useBeforeDef_Expr dc) (unchecked st) &&
      match assignedOnce_Stmt st dc with Some dc => unchecked_defined l e dc | None => false end
  end.

(** A block that passes all checks. *)
Definition checked_IRSB `{M : Machine St} (bb : IRSB) (gw : IRType) : Prop :=
  sanityCheckIRSB bb true gw = true ∧ unchecked_defined (stmts bb) (next bb) (replicate (length (tyenv bb)) 0) = true.

(** The same, for the statements that follow the definitions [dc]. *)
Record block_ok `{M : Machine St} (te : IRTypeEnv) (gw : IRType) (dc : list Z) (l : list IRStmt) (e : IRExpr) : Prop := {
  ok_counts : counts_ok dc;
  ok_length : length dc = length te;
  ok_flat : forallb isFlatIRStmt l = true;
  ok_tc : forallb (tcStmt te gw) l = true;
  ok_defs : is_Some (check_defs l dc);
  ok_unchecked : unchecked_defined l e dc = true;
}.

Section Blocks.
Context `{M : Machine St}.

Lemma checked_block_ok bb gw : checked_IRSB bb gw ->
  block_ok (tyenv bb) gw (replicate (length (tyenv bb)) 0) (stmts bb) (next bb) ∧
  isIRAtom (next bb) = true ∧ typeOfIRExpr (tyenv bb) (next bb) = gw ∧ gw ∈ [Ity_I32; Ity_I64].
Proof.
  intros [H Hu]. unfold sanityCheckIRSB in H. b2p.
  repeat match goal with H : bool_decide _ = true |- _ => apply bool_decide_eq_true in H end.
  split_and!; try done.
  - split; auto.
    + apply Forall_replicate. lia.
    + by rewrite length_replicate.
    + destruct (check_defs _ _); [eauto|done].
  - match goal with H : one_of gw _ = true |- _ => unfold one_of in H; cbn [existsb] in H end. b2p.
    destruct (decide (gw = Ity_I32)) as [->|]; [by left|]. destruct (decide (gw = Ity_I64)) as [->|]; [by right; left|].
    rewrite !bool_decide_eq_false_2 in * by done. naive_solver.
Qed.

(** One statement further. *)
Lemma block_ok_cons te gw dc st l e : block_ok te gw dc (st :: l) e ->
  ∃ dc', assignedOnce_Stmt st dc = Some dc' ∧ block_ok te gw dc' l e ∧ isFlatIRStmt st = true ∧ tcStmt te gw st = true ∧
    Forall (uses_in (defined dc)) (exprs st) ∧ NoDup (defs st) ∧
    (∀ t, t ∈ defs st -> 0 <= t < Z.of_nat (length te) ∧ ¬ defined dc t) ∧
    ∀ u, defined dc' u <-> u ∈ defs st ∨ defined dc u.
Proof.
  intros [Hc Hl Hf Ht Hd Hu]. cbn [forallb check_defs unchecked_defined] in *. b2p.
  destruct (useBeforeDef_Stmt dc st) eqn:Hused; [|by destruct Hd]. destruct (assignedOnce_Stmt st dc) as [dc'|] eqn:Ha; [|done].
  cbn [mbind option_bind] in Hd. pose proof (assignedOnce_Stmt_spec _ _ _ Hc Ha) as (H1' & H2' & H3' & H4' & H5').
  exists dc'. split_and!; auto using used_defined_Stmt.
  - split; auto. congruence.
  - rewrite <- Hl. exact H4'.
Qed.

Lemma block_ok_nil te gw dc e : block_ok te gw dc [] e -> uses_in (defined dc) e.
Proof. intros H. apply used_defined. apply (ok_unchecked _ _ _ _ _ H). Qed.
End Blocks.

(** ** Simulation

    A list of statements does what another does, if the temporaries are related by [Q]
    before and by [Q'] behind. *)

Section Sim.
Context `{M : Machine St} `{E : Effects St}.
Implicit Types (te : IRTypeEnv) (Q : (Z -> Z) -> (Z -> Z) -> Prop) (l : list IRStmt).

Definition end_rel Q (r r' : (Z -> Z) * St + St * Z * IRJumpKind) : Prop :=
  match r, r' with
  | inl (f, s), inl (g, s') => s = s' ∧ Q f g
  | inr x, inr y => x = y
  | _, _ => False
  end.

Definition sim te te' Q l l' Q' : Prop :=
  ∀ f g s r, Q f g -> exec_Stmts te f s l = Some r -> ∃ r', exec_Stmts te' g s l' = Some r' ∧ end_rel Q' r r'.

Lemma exec_Stmts_app te f s l1 l2 :
  exec_Stmts te f s (l1 ++ l2) =
  r ← exec_Stmts te f s l1; match r with inl (f, s) => exec_Stmts te f s l2 | inr x => Some (inr x) end.
Proof.
  revert f s. induction l1 as [|st l1 IH]; intros f s; [done|]. cbn [app exec_Stmts].
  destruct (exec_Stmt te f s st) as [[w s'|s' dst jk]|]; cbn [mbind option_bind]; [apply IH|done|done].
Qed.

Lemma sim_nil te te' Q Q' : (∀ f g, Q f g -> Q' f g) -> sim te te' Q [] [] Q'.
Proof. intros H f g s r HQ [= <-]. exists (inl (g, s)). split; [done|]. split; [done|auto]. Qed.

Lemma sim_app te te' Q Q1 Q2 l1 l2 l1' l2' :
  sim te te' Q l1 l1' Q1 -> sim te te' Q1 l2 l2' Q2 -> sim te te' Q (l1 ++ l2) (l1' ++ l2') Q2.
Proof.
  intros H1 H2 f g s r HQ. rewrite !exec_Stmts_app. intros (r1 & Hr1 & Hr)%bind_Some.
  destruct (H1 _ _ _ _ HQ Hr1) as (r1' & Hr1' & Hend). rewrite Hr1'. cbn [mbind option_bind].
  destruct r1 as [[f1 s1]|x], r1' as [[g1 s1']|y]; try done.
  - destruct Hend as [<- HQ1]. by apply (H2 _ _ _ _ HQ1).
  - cbn in Hend. subst y. injection Hr as <-. by eexists.
Qed.

(** A statement for a statement. *)
Lemma sim_Stmt te te' Q Q' st st' :
  (∀ f g s r, Q f g -> exec_Stmt te f s st = Some r -> exec_Stmt te' g s st' = Some r) ->
  (∀ f g w, Q f g -> w.*1 = defs st -> Q' (write w f) (write w g)) ->
  sim te te' Q [st] [st'] Q'.
Proof.
  intros He HQ f g s r Hf. cbn [exec_Stmts]. intros (x & Hx & Hr)%bind_Some. rewrite (He _ _ _ _ Hf Hx). cbn [mbind option_bind].
  destruct x as [w s'|s' dst jk]; injection Hr as <-; eexists; (split; [done|]); [|done].
  split; [done|]. apply HQ; [done|]. by apply exec_Go in Hx.
Qed.

(** A statement for nothing. *)
Lemma sim_drop te te' Q Q' st :
  (∀ f g s r, Q f g -> exec_Stmt te f s st = Some r -> ∃ w, r = Go w s ∧ Q' (write w f) g) ->
  sim te te' Q [st] [] Q'.
Proof.
  intros He f g s r Hf. cbn [exec_Stmts]. intros (x & Hx & Hr)%bind_Some. destruct (He _ _ _ _ Hf Hx) as (w & -> & HQ).
  injection Hr as <-. eexists. split; [done|]. done.
Qed.

Lemma sim_cons te te' Q Q1 Q2 st l1' l2 l2' :
  sim te te' Q [st] l1' Q1 -> sim te te' Q1 l2 l2' Q2 -> sim te te' Q (st :: l2) (l1' ++ l2') Q2.
Proof. intros H1 H2. change (st :: l2) with ([st] ++ l2). by eapply sim_app. Qed.

(** Blocks that simulate each other, with ends that do. *)
Lemma sim_IRSB Q Q' bb bb' : jumpkind bb' = jumpkind bb -> offsIP bb' = offsIP bb ->
  sim (tyenv bb) (tyenv bb') Q (stmts bb) (stmts bb') Q' ->
  (∀ f g s, Q' f g -> eval_rel (tyenv bb) (tyenv bb') f g s (next bb) (next bb')) ->
  ∀ f g s r, Q f g -> exec_IRSB bb f s = Some r -> exec_IRSB bb' g s = Some r.
Proof.
  intros Hjk Ho Hs He f g s r HQ. unfold exec_IRSB. intros (x & Hx & Hr)%bind_Some.
  destruct (Hs _ _ _ _ HQ Hx) as (y & -> & Hend). cbn [mbind option_bind].
  destruct x as [[f1 s1]|x], y as [[g1 s1']|y]; try done; [|cbn in Hend; by subst].
  destruct Hend as [<- HQ1]. unfold exec_end in *. apply bind_Some in Hr as (d & Hd & [= <-]).
  destruct (He _ _ s1 HQ1) as [Hty Hv]. rewrite (Hv _ Hd). cbn. by rewrite Hjk, Ho, Hty.
Qed.

(** The same statements, when the temporaries that are used look the same. *)
Lemma sim_same te te' (T : Z -> Prop) l :
  (∀ t, T t -> typeOfIRTemp te t = typeOfIRTemp te' t) ->
  Forall (fun st => Forall (uses_in T) (exprs st) ∧ Forall T (defs st)) l ->
  sim te te' (fun f g => ∀ t, T t -> f t = g t) l l (fun f g => ∀ t, T t -> f t = g t).
Proof.
  intros Ht. induction 1 as [|st l [Hu Hd] _ IH]; [by apply sim_nil|]. eapply (sim_cons _ _ _ _ _ _ [st]); [|exact IH].
  apply sim_Stmt.
  - intros f g s r Hfg. apply exec_same; [|rewrite Forall_forall in Hd; auto].
    eapply Forall_impl; [done|]. cbn. intros e He. eapply uses_in_mono; [|done]. intros t HT. split; auto.
  - intros f g w Hfg _. apply (write_agree w f g T). auto.
Qed.
End Sim.

(** Effects for what does not depend on them. *)
Definition no_effects (St : Type) : Effects St :=
  {| m_put s _ _ _ := s; m_putI s _ _ _ _ := s; m_store _ _ _ _ _ := None; m_cas _ _ _ _ _ _ _ := None;
     m_llsc _ _ _ _ _ := None; m_dirty _ _ := None; m_mbe s _ := s |}.

(** A machine whose state is the list of the writes to the guest state, the last one first, and
    whose memory holds at every address that address, for concrete inputs. *)
Definition log_machine : Machine (list (Z * Z)) :=
  {| m_get _ _ _ := 0; m_getI _ _ _ _ := 0; m_load _ _ _ a := Some a; m_call _ _ := None;
     m_type _ := (Ity_INVALID, []); m_op _ _ := None |}.
Definition log_effects : Effects (list (Z * Z)) :=
  {| m_put s o _ v := (o, v) :: s; m_putI s _ _ _ _ := s; m_store _ _ _ _ _ := None; m_cas _ _ _ _ _ _ _ := None;
     m_llsc _ _ _ _ _ := None; m_dirty _ _ := None; m_mbe s _ := s |}.

(** ** More temporaries *)

Definition within (n : nat) (t : Z) : Prop := 0 <= t < Z.of_nat n.
Definition agree (n : nat) (f g : Z -> Z) : Prop := ∀ t, within n t -> f t = g t.

Lemma agree_trans n m f g h : (n <= m)%nat -> agree n f g -> agree m g h -> agree n f h.
Proof. intros Hnm H1 H2 t Ht. rewrite (H1 t Ht). apply H2. unfold within in *. lia. Qed.

Lemma typeOfIRTemp_prefix (te te' : IRTypeEnv) t : te `prefix_of` te' -> within (length te) t -> typeOfIRTemp te' t = typeOfIRTemp te t.
Proof.
  intros [ext ->] [H1 H2]. unfold typeOfIRTemp, IRTypeEnv in *. replace (t <? 0) with false by lia. by rewrite lookup_app_l by lia.
Qed.
Lemma within_prefix (te te' : IRTypeEnv) t : te `prefix_of` te' -> within (length te) t -> within (length te') t.
Proof. intros H%prefix_length. unfold within. lia. Qed.

Section Ext.
Context `{M : Machine St}.
Implicit Types (te : IRTypeEnv).

Lemma same_prefix te te' f g e : te `prefix_of` te' -> agree (length te) f g -> uses_in (within (length te)) e ->
  uses_in (same_at te te' f g) e.
Proof. intros Hp Ha. apply uses_in_mono. intros t Ht. split; [by apply Ha|]. by rewrite (typeOfIRTemp_prefix te te'). Qed.

Lemma eval_prefix te te' f g s e : te `prefix_of` te' -> agree (length te) f g -> uses_in (within (length te)) e ->
  eval te f s e = eval te' g s e.
Proof. intros. apply eval_same. by apply same_prefix. Qed.
Lemma type_prefix te te' e : te `prefix_of` te' -> uses_in (within (length te)) e -> typeOfIRExpr te' e = typeOfIRExpr te e.
Proof. intros. symmetry. apply (type_same te te' (fun _ => 0) (fun _ => 0)). by apply same_prefix. Qed.

Lemma tc_prefix te te' gw e : te `prefix_of` te' -> uses_in (within (length te)) e -> tcExpr te' gw e = tcExpr te gw e.
Proof.
  intros Hp. induction e as [| |d ix b IH|t|op a b c d IHa IHb IHc IHd|op a b c IHa IHb IHc|op a b IHa IHb|op a IHa
    |en ty a IHa| |cee ty args IH|a b c IHa IHb IHc| |] using IRExpr_deep_ind; unfold uses_in; cbn [temps tcExpr];
    rewrite ?uses_in_app; intros H; try done; destruct_and?; unfold args_match; cbn [fmap list_fmap];
    rewrite ?(type_prefix te te') by done.
  - by rewrite IH.
  - by rewrite IHa, IHb, IHc, IHd.
  - by rewrite IHa, IHb, IHc.
  - by rewrite IHa, IHb.
  - by rewrite IHa.
  - by rewrite IHa.
  - apply uses_in_args in H.
    assert (forallb (tcExpr te' gw) args = forallb (tcExpr te gw) args ∧
      forallb (fun a => negb (bool_decide (typeOfIRExpr te' a = Ity_I1))) args =
      forallb (fun a => negb (bool_decide (typeOfIRExpr te a = Ity_I1))) args) as [-> ->]; [|done].
    induction IH as [|a args IHa _ IHargs]; [done|]. inversion H as [|? ? Ha Hargs]; subst. cbn [forallb].
    destruct (IHargs Hargs) as [-> ->]. by rewrite (IHa Ha), (type_prefix te te' a).
  - by rewrite IHa, IHb, IHc.
Qed.
End Ext.
