(* ===== verification/IrCprop.v ===== *)
(** * Propagation of copies and constants

    vg/VEX/priv/ir_opt.c from [subst_Expr] to [cprop_BB]: the substitution of temporaries
    that are known to be other temporaries or constants, the folding of what results, and
    the pass over a block, which drops the assignments that it propagates and turns
    guarded loads whose guard is true into loads.

    The array [env] of [n_tmps] entries is a map, as in IrFold.v, with a check of the
    index. *)

From Stdlib Require Import String.
From stdpp Require Import gmap strings functions.
From S2P Require Import Prelude Lanes VexIR IrFold IrFoldConst IrFoldSound IrStmt.
Local Open Scope Z_scope.

(** * Definitions *)

Definition env_get (n_tmps : Z) (env : Env) (tmp : Z) : outcome (option IRExpr) :=
  if (0 <=? tmp) && (tmp <? n_tmps) then Ret (env !! tmp) else Fault OutOfBounds.

Definition is_F64i (con : IRConst) : bool := match con with Ico_F64i _ => true | _ => false end.

Section Cprop.
Context (n_tmps : Z).
Implicit Types (env : Env).

Fixpoint subst_Expr env (ex : IRExpr) : outcome IRExpr :=
  match ex with
  | Iex_RdTmp tmp =>
      rhs ← env_get n_tmps env tmp;
      match rhs with
      | Some (Iex_RdTmp t) => Ret (Iex_RdTmp t)
      | Some (Iex_Const con) => if negb (is_F64i con) then Ret (Iex_Const con) else Ret ex
      | _ => Ret ex
      end
  | Iex_Const _ | Iex_Get _ _ => Ret ex
  | Iex_GetI descr ix bias =>
      _ ← vg_assert (isIRAtom ix);
      ix ← subst_Expr env ix; Ret (Iex_GetI descr ix bias)
  | Iex_Qop op arg1 arg2 arg3 arg4 =>
      _ ← vg_assert (isIRAtom arg1); _ ← vg_assert (isIRAtom arg2);
      _ ← vg_assert (isIRAtom arg3); _ ← vg_assert (isIRAtom arg4);
      arg1 ← subst_Expr env arg1; arg2 ← subst_Expr env arg2;
      arg3 ← subst_Expr env arg3; arg4 ← subst_Expr env arg4; Ret (Iex_Qop op arg1 arg2 arg3 arg4)
  | Iex_Triop op arg1 arg2 arg3 =>
      _ ← vg_assert (isIRAtom arg1); _ ← vg_assert (isIRAtom arg2); _ ← vg_assert (isIRAtom arg3);
      arg1 ← subst_Expr env arg1; arg2 ← subst_Expr env arg2;
      arg3 ← subst_Expr env arg3; Ret (Iex_Triop op arg1 arg2 arg3)
  | Iex_Binop op arg1 arg2 =>
      _ ← vg_assert (isIRAtom arg1); _ ← vg_assert (isIRAtom arg2);
      arg1 ← subst_Expr env arg1; arg2 ← subst_Expr env arg2; Ret (Iex_Binop op arg1 arg2)
  | Iex_Unop op arg =>
      _ ← vg_assert (isIRAtom arg);
      arg ← subst_Expr env arg; Ret (Iex_Unop op arg)
  | Iex_Load en ty addr =>
      _ ← vg_assert (isIRAtom addr);
      addr ← subst_Expr env addr; Ret (Iex_Load en ty addr)
  | Iex_CCall cee retty args =>
      args2 ← mapM (fun a => _ ← vg_assert (isIRAtom a); subst_Expr env a) args;
      Ret (Iex_CCall cee retty args2)
  | Iex_ITE cond iftrue iffalse =>
      _ ← vg_assert (isIRAtom cond); _ ← vg_assert (isIRAtom iftrue); _ ← vg_assert (isIRAtom iffalse);
      cond ← subst_Expr env cond; iftrue ← subst_Expr env iftrue;
      iffalse ← subst_Expr env iffalse; Ret (Iex_ITE cond iftrue iffalse)
  | Iex_Binder _ | Iex_VECRET | Iex_GSPTR => Fault Panic
  end.

(** [fold_Expr(f_env, subst_Expr(s_env, ex))]. *)
Definition subst_fold (doFolding : bool) env (ex : IRExpr) : outcome IRExpr :=
  ex ← subst_Expr env ex; fold_Expr (if doFolding then Some env else None) ex.

(** The same for an expression that may be NULL. *)
Definition subst_fold_opt (doFolding : bool) env (ex : option IRExpr) : outcome (option IRExpr) :=
  match ex with Some ex => Some <$> subst_fold doFolding env ex | None => Ret None end.

(** A guard that has become a constant: [vassert(con->tag == Ico_U1)], and its value. *)
Definition const_guard (guard : IRExpr) : outcome (option bool) :=
  match guard with
  | Iex_Const con => _ ← vg_assert (same_const_tag con (Ico_U1 false)); Ret (Some (con_U1 con))
  | _ => Ret None
  end.

Definition subst_dirty_arg (doFolding : bool) env (arg : IRExpr) : outcome IRExpr :=
  if negb (is_IRExpr_VECRET_or_GSPTR arg) then _ ← vg_assert (isIRAtom arg); subst_fold doFolding env arg
  else Ret arg.

Definition subst_and_maybe_fold_Stmt (doFolding : bool) env (st : IRStmt) : outcome IRStmt :=
  let sf := subst_fold doFolding env in
  match st with
  | Ist_AbiHint base len nia =>
      _ ← vg_assert (isIRAtom base); _ ← vg_assert (isIRAtom nia);
      base ← sf base; nia ← sf nia; Ret (Ist_AbiHint base len nia)
  | Ist_Put offset data => _ ← vg_assert (isIRAtom data); data ← sf data; Ret (Ist_Put offset data)
  | Ist_PutI descr ix bias data =>
      _ ← vg_assert (isIRAtom ix); _ ← vg_assert (isIRAtom data);
      ix ← sf ix; data ← sf data; Ret (Ist_PutI descr ix bias data)
  | Ist_WrTmp tmp data => data ← sf data; Ret (Ist_WrTmp tmp data)
  | Ist_Store en addr data =>
      _ ← vg_assert (isIRAtom addr); _ ← vg_assert (isIRAtom data);
      addr ← sf addr; data ← sf data; Ret (Ist_Store en addr data)
  | Ist_StoreG en addr data guard =>
      _ ← vg_assert (isIRAtom addr); _ ← vg_assert (isIRAtom data); _ ← vg_assert (isIRAtom guard);
      faddr ← sf addr; fdata ← sf data; fguard ← sf guard;
      c ← const_guard fguard;
      match c with
      | Some false => Ret Ist_NoOp
      | Some true => Ret (Ist_Store en faddr fdata)
      | None => Ret (Ist_StoreG en faddr fdata fguard)
      end
  | Ist_LoadG en cvt dst addr alt guard =>
      _ ← vg_assert (isIRAtom addr); _ ← vg_assert (isIRAtom alt); _ ← vg_assert (isIRAtom guard);
      faddr ← sf addr; falt ← sf alt; fguard ← sf guard;
      c ← const_guard fguard;
      match c with
      | Some false => Ret (Ist_WrTmp dst falt)
      | _ => Ret (Ist_LoadG en cvt dst faddr falt fguard)
      end
  | Ist_CAS cas =>
      _ ← vg_assert (isIRAtom (cas_addr cas)); _ ← vg_assert (null_or isIRAtom (expdHi cas));
      _ ← vg_assert (isIRAtom (expdLo cas)); _ ← vg_assert (null_or isIRAtom (dataHi cas));
      _ ← vg_assert (isIRAtom (dataLo cas));
      addr2 ← sf (cas_addr cas); expdHi2 ← subst_fold_opt doFolding env (expdHi cas);
      expdLo2 ← sf (expdLo cas); dataHi2 ← subst_fold_opt doFolding env (dataHi cas);
      dataLo2 ← sf (dataLo cas);
      Ret (Ist_CAS {| oldHi := oldHi cas; oldLo := oldLo cas; cas_end := cas_end cas; cas_addr := addr2;
                      expdHi := expdHi2; expdLo := expdLo2; dataHi := dataHi2; dataLo := dataLo2 |})
  | Ist_LLSC en result addr storedata =>
      _ ← vg_assert (isIRAtom addr); _ ← vg_assert (null_or isIRAtom storedata);
      addr ← sf addr; storedata ← subst_fold_opt doFolding env storedata;
      Ret (Ist_LLSC en result addr storedata)
  | Ist_Dirty d =>
      mAddr2 ← (match d_mFx d with
                | Ifx_None => Ret (d_mAddr d)
                | _ => match d_mAddr d with
                       | Some a => _ ← vg_assert (isIRAtom a); a ← sf a; Ret (Some a)
                       | None => Fault NullDeref
                       end
                end);
      _ ← vg_assert (isIRAtom (d_guard d)); guard2 ← sf (d_guard d);
      args2 ← mapM (subst_dirty_arg doFolding env) (d_args d);
      Ret (Ist_Dirty {| d_cee := d_cee d; d_guard := guard2; d_args := args2; d_tmp := d_tmp d; d_mFx := d_mFx d;
                        d_mAddr := mAddr2; d_mSize := d_mSize d; d_fxState := d_fxState d |})
  | Ist_IMark addr len delta => Ret (Ist_IMark addr len delta)
  | Ist_NoOp => Ret Ist_NoOp
  | Ist_MBE event => Ret (Ist_MBE event)
  | Ist_Exit guard jk dst offsIP =>
      _ ← vg_assert (isIRAtom guard);
      fcond ← sf guard;
      c ← const_guard fcond;
      match c with
      | Some false => Ret Ist_NoOp
      | _ => Ret (Ist_Exit fcond jk dst offsIP)
      end
  end.

(** ** The pass *)

Definition N_FIXUPS : Z := 16.

(** [env], the statements of [out], and [fixups]. *)
Record Cprop := { c_env : Env; c_out : list IRStmt; c_fixups : list Z }.

Definition addStmt (st : IRStmt) (x : Cprop) : Cprop :=
  {| c_env := c_env x; c_out := c_out x ++ [st]; c_fixups := c_fixups x |}.

(** One turn of the main loop. *)
Definition cprop_Stmt (mustRetainNoOps doFolding : bool) (st : IRStmt) (x : Cprop) : outcome Cprop :=
  if (match st with Ist_NoOp => true | _ => false end) && negb mustRetainNoOps then Ret x
  else
    st2 ← subst_and_maybe_fold_Stmt doFolding (c_env x) st;
    match st2 with
    | Ist_NoOp => Ret (if mustRetainNoOps then addStmt st2 x else x)
    | Ist_WrTmp tmp data =>
        old ← env_get n_tmps (c_env x) tmp; _ ← vg_assert (bool_decide (old = None));
        let x := {| c_env := <[tmp := data]> (c_env x); c_out := c_out x; c_fixups := c_fixups x |} in
        match data with
        | Iex_RdTmp _ => Ret x
        | Iex_Const con => if negb (is_F64i con) then Ret x else Ret (addStmt st2 x)
        | _ => Ret (addStmt st2 x)
        end
    | Ist_LoadG _ _ _ _ _ guard =>
        c ← const_guard guard;
        match c with
        | Some b =>
            _ ← vg_assert b; _ ← vg_assert (Z.of_nat (length (c_fixups x)) <=? N_FIXUPS);
            let x :=
              if Z.of_nat (length (c_fixups x)) <? N_FIXUPS then
                {| c_env := c_env x; c_out := c_out x ++ [Ist_NoOp];
                   c_fixups := c_fixups x ++ [Z.of_nat (length (c_out x))] |}
              else x in
            Ret (addStmt st2 x)
        | None => Ret (addStmt st2 x)
        end
    | _ => Ret (addStmt st2 x)
    end.

End Cprop.

(** One turn of the loop over [fixups]. [Iex.Const.con] of a guard that is not a constant
    is memory that is not a constant. *)
Definition cprop_fixup (ix : Z) (out : IRTypeEnv * list IRStmt) : outcome (IRTypeEnv * list IRStmt) :=
  let '(tyenv, stmts) := out in
  _ ← vg_assert ((0 <=? ix) && (ix + 1 <? Z.of_nat (length stmts)));
  nop ← arr_get stmts ix; lgu ← arr_get stmts (ix + 1);
  _ ← vg_assert (match nop with Ist_NoOp => true | _ => false end);
  match lgu with
  | Ist_LoadG en cvt dst addr alt guard =>
      c ← const_guard guard;
      match c with
      | Some b =>
          _ ← vg_assert b;
          match typeOfIRLoadGOp cvt with
          | Some (cvtRes, cvtArg) =>
              let '(tyenv, tLoaded) := newIRTemp tyenv cvtArg in
              stmts ← arr_set stmts ix (Ist_WrTmp tLoaded (Iex_Load en cvtArg addr));
              stmts ← arr_set stmts (ix + 1)
                (Ist_WrTmp dst
                   match cvtOp_of cvt with
                   | None => Iex_RdTmp tLoaded
                   | Some cvtOp => Iex_Unop cvtOp (Iex_RdTmp tLoaded)
                   end);
              Ret (tyenv, stmts)
          | None => Fault Panic
          end
      | None => Fault OutOfBounds
      end
  | _ => Fault AssertFail
  end.

Definition cprop_BB_WRK (in_ : IRSB) (mustRetainNoOps doFolding : bool) : outcome IRSB :=
  let n_tmps := Z.of_nat (length (tyenv in_)) in
  x ← for_list (stmts in_) (cprop_Stmt n_tmps mustRetainNoOps doFolding) {| c_env := ∅; c_out := []; c_fixups := [] |};
  next2 ← subst_Expr n_tmps (c_env x) (next in_);
  _ ← vg_assert (Z.of_nat (length (c_fixups x)) <=? N_FIXUPS);
  r ← for_list (c_fixups x) cprop_fixup (tyenv in_, c_out x);
  Ret {| tyenv := r.1; stmts := r.2; next := next2; jumpkind := jumpkind in_; offsIP := offsIP in_ |}.

Definition cprop_BB (in_ : IRSB) : outcome IRSB := cprop_BB_WRK in_ false true.

(** * Lemmas *)

(** ** What a folded expression is made of *)

(** A property that holds of constants, and of an operator if it holds of the arguments. *)
Record closed (P : IRExpr -> Prop) : Prop := {
  closed_const c : no_F32i_F64i (Iex_Const c) = true -> P (Iex_Const c);
  closed_unop op a : P (Iex_Unop op a) <-> P a;
  closed_binop op a b : P (Iex_Binop op a b) <-> P a ∧ P b;
  closed_ite c a b : P (Iex_ITE c a b) -> P a ∧ P b
}.

Lemma closed_uses Q : closed (uses_in Q).
Proof.
  split; unfold uses_in; cbn [temps].
  - intros c _ t H. by apply elem_of_nil in H.
  - done.
  - intros. by rewrite uses_in_app.
  - intros c a b. rewrite !uses_in_app. naive_solver.
Qed.
Lemma closed_floats : closed (fun e => no_F32i_F64i e = true).
Proof.
  split; cbn [no_F32i_F64i]; intros; rewrite ?andb_true_iff; try done. b2p. done.
Qed.

Definition post {A} (P : A -> Prop) (m : outcome A) : Prop := ∀ x, m = Ret x -> P x.
Lemma post_ret {A} (P : A -> Prop) x : P x -> post P (Ret x).
Proof. by intros H y [= <-]. Qed.
Lemma post_fault {A} (P : A -> Prop) f : post P (Fault f).
Proof. done. Qed.
Lemma post_bind {A B} (P : B -> Prop) (m : outcome A) k : (∀ x, m = Ret x -> post P (k x)) -> post P (m ≫= k).
Proof. intros H y Hy. apply bind_ret_inv in Hy as (x & Hx & Hy). by apply (H x). Qed.
Lemma post_if {A} (P : A -> Prop) (b : bool) m m' : post P m -> post P m' -> post P (if b then m else m').
Proof. by destruct b. Qed.

Section Closed.
Context (P : IRExpr -> Prop) (HP : closed P) (env : Env) (Henv : ∀ t r, env !! t = Some r -> P r).

Lemma post_const c : no_F32i_F64i (Iex_Const c) = true -> post P (Ret (Iex_Const c)).
Proof. intros. by apply post_ret, closed_const. Qed.

#[local] Hint Resolve post_ret post_fault post_const post_if post_bind : core.

Lemma fold_unop_const_closed e op con : P e -> post P (fold_unop_const e op con).
Proof. intros He. destruct op; cbn [fold_unop_const]; auto. Qed.

Lemma fold_binop_const_closed e op c1 c2 : P e -> post P (fold_binop_const e op c1 c2).
Proof. intros He. destruct op; cbn [fold_binop_const]; auto 10. Qed.

Lemma mkZero_closed op : post P (mkZeroOfPrimopResultType op).
Proof. destruct op; cbn; auto. Qed.
Lemma mkOnes_closed op : post P (mkOnesOfPrimopResultType op).
Proof. destruct op; cbn; auto. Qed.
#[local] Hint Resolve mkZero_closed mkOnes_closed : core.

Lemma chase_closed e r : P e -> chase env e = Ret (Some r) -> P r.
Proof.
  unfold chase. generalize (S (size env)). intros n. revert e. induction n as [|n IH]; intros e He; [done|].
  cbn [chase_loop]. destruct e; try by intros [= <-].
  destruct (env !! tmp) eqn:E; [|done]. apply IH. eauto.
Qed.

Lemma fold_popcount_closed e arg : P e -> P arg -> post P (fold_popcount env e arg).
Proof.
  intros He Ha. unfold fold_popcount.
  repeat first [apply post_ret, He | apply post_bind; intros ? ? | match goal with |- post P (match ?x with _ => _ end) => destruct x end].
  apply post_ret, closed_unop; [done|].
  repeat match goal with
  | H : chase env ?a = Ret (Some _) |- _ => apply chase_closed in H; [|assumption]
  | H : P (Iex_Binop _ _ _) |- _ => apply closed_binop in H; [destruct H|assumption]
  end. done.
Qed.

Lemma if_zero_closed x y rest : P y -> post P rest -> post P (if_zero x y rest).
Proof. unfold if_zero. auto. Qed.
Lemma if_ones_closed x y rest : P y -> post P rest -> post P (if_ones x y rest).
Proof. unfold if_ones. auto. Qed.
Lemma if_same_closed a b y rest : post P y -> post P rest -> post P (if_same env a b y rest).
Proof. unfold if_same. auto. Qed.
#[local] Hint Resolve if_zero_closed if_ones_closed if_same_closed : core.

Lemma fold_binop_other_closed e op a b : P e -> P a -> P b -> post P (fold_binop_other env e op a b).
Proof.
  intros He Ha Hb.
  assert (∀ op, post P (Ret (Iex_Binop op a (Iex_Const (Ico_U8 1))))) as Hshl.
  { intros op'. apply post_ret, closed_binop; [done|]. split; [done|]. by apply closed_const. }
  destruct op; cbn [fold_binop_other]; auto 10.
  apply if_same_closed; [auto|]. apply post_if; [|auto]. apply post_bind. intros [r|] Hr; [|auto].
  destruct r; auto. destruct op; auto. apply post_ret. apply chase_closed in Hr; [|done]. by apply closed_unop in Hr.
Qed.

Lemma fold_closed e e2 : P e -> fold_Expr_WRK env e = Ret e2 -> P e2.
Proof.
  intros He. revert e2. change (post P (fold_Expr_WRK env e)). destruct e; cbn [fold_Expr_WRK]; auto.
  - pose proof (proj1 (closed_binop _ HP _ _ _) He) as [H1 H2].
    assert (post P (fold_binop_other env (Iex_Binop op e1 e2) op e1 e2)) by by apply fold_binop_other_closed.
    destruct e1; auto. destruct e2; auto using fold_binop_const_closed.
  - pose proof (proj1 (closed_unop _ HP _ _) He) as H1.
    assert (post P (fold_unop_other env (Iex_Unop op e) op e)) by (destruct op; cbn [fold_unop_other]; auto; by apply fold_popcount_closed).
    destruct e; auto using fold_unop_const_closed.
  - pose proof (closed_ite _ HP _ _ _ He) as [H1 H2].
    destruct e1; auto. apply post_bind. intros ? _. apply post_ret. by destruct (con_U1 con).
Qed.
End Closed.

(** ** Substitution *)

Lemma mapM_rel {A B} (R : A -> B -> Prop) (F : A -> outcome B) l :
  Forall (fun a => ∃ b, F a = Ret b ∧ R a b) l -> ∃ l', mapM F l = Ret l' ∧ Forall2 R l l'.
Proof.
  induction 1 as [|a l (b & Hb & HR) _ (l' & Hl' & HRl)]; [by exists []|].
  exists (b :: l'). cbn. rewrite Hb. cbn. rewrite Hl'. by split; [|constructor].
Qed.

(** A temporary whose assignment is still in the output. *)
Definition propagated (r : option IRExpr) : bool :=
  match r with Some (Iex_RdTmp _) => true | Some (Iex_Const c) => negb (is_F64i c) | _ => false end.
Definition kept (dc : list Z) (env : Env) (t : Z) : Prop := defined dc t ∧ propagated (env !! t) = false.

Section Subst.
Context `{M : Machine St} (te : IRTypeEnv) (gw : IRType) (dc : list Z) (env : Env).
Notation n_tmps := (Z.of_nat (length te)).
Implicit Types (e a : IRExpr).

(** What holds of the bindings: they are well typed, and use what is defined before them. *)
Record env_ok : Prop := {
  env_ok_typed : env_typed te gw env;
  env_ok_bound t r : env !! t = Some r -> defined dc t ∧ uses_in (kept dc env) r;
}.
Context (Henv : env_ok) (Hlen : length dc = length te).

(** [e'] may stand for [e]. *)
Record expr_ok e e' : Prop := {
  ex_ty : typeOfIRExpr te e' = typeOfIRExpr te e;
  ex_tc : tcExpr te gw e = true -> tcExpr te gw e' = true;
  ex_kept : uses_in (kept dc env) e';
  ex_atom : isIRAtom e = true -> isIRAtom e' = true;
  ex_flat : flatExpr e = true -> flatExpr e' = true;
  ex_floats : (∀ t r, env !! t = Some r -> no_F32i_F64i r = true) -> no_F32i_F64i e = true -> no_F32i_F64i e' = true;
  ex_eval f s v : env_holds te env f -> eval te f s e = Some v -> eval te f s e' = Some v
}.

Lemma defined_range t : defined dc t -> (0 <=? t) && (t <? n_tmps) = true.
Proof. unfold defined, useBeforeDef_Temp. rewrite Hlen. intros H. by apply andb_true_iff in H as [H _]. Qed.

Lemma expr_ok_refl e : uses_in (kept dc env) e -> expr_ok e e.
Proof. by split. Qed.

Lemma subst_atom a : isIRAtom a = true -> uses_in (defined dc) a -> ∃ b, subst_Expr n_tmps env a = Ret b ∧ expr_ok a b.
Proof.
  intros Ha Hd. destruct a as [| | |t| | | | | |c| | | |]; try done; cbn [subst_Expr].
  - assert (defined dc t) as Ht by (apply Hd, list_elem_of_singleton; done).
    unfold env_get. rewrite defined_range by done. cbn [mbind outcome_bind].
    assert (propagated (env !! t) = false -> expr_ok (Iex_RdTmp t) (Iex_RdTmp t)) as Hself.
    { intros Hp. apply expr_ok_refl. intros u ->%list_elem_of_singleton. by split. }
    assert (∀ b, isIRAtom b = true -> env !! t = Some b -> expr_ok (Iex_RdTmp t) b) as Hbound.
    { intros b Hb Hr. destruct (env_ok_typed Henv _ _ Hr) as (Hrt & Hty & Hfl), (env_ok_bound Henv _ _ Hr) as [_ Hu].
      split; auto. { by intros Hf _; apply (Hf t). }
      intros f s v Hh Hv. destruct (Hh _ _ Hr) as [s' Hs]. rewrite (eval_atom _ _ _ s') by done. by rewrite Hs. }
    destruct (env !! t) as [r|]; [|eauto]. destruct r; eauto. destruct con; cbn [is_F64i negb]; eauto.
  - eexists. split; [done|]. apply expr_ok_refl. intros u Hu. by apply elem_of_nil in Hu.
Qed.

(** The substitution in an expression whose arguments are atoms. *)
Ltac subst_args :=
  repeat match goal with
  | H : isIRAtom ?a = true, Hd : ∀ t, t ∈ temps ?a -> defined dc t |- context [subst_Expr _ _ ?a] =>
      let b := fresh "b" in let Hb := fresh "Hb" in let Hok := fresh "Hok" in
      rewrite H; cbn [vg_assert mbind outcome_bind];
      destruct (subst_atom a H Hd) as (b & Hb & Hok); rewrite Hb; cbn [mbind outcome_bind]
  end.

(** An operator with arguments that may stand for the arguments. *)
Ltac ok_facts :=
  repeat match goal with H : expr_ok _ _ |- _ =>
    pose proof (ex_ty _ _ H); pose proof (ex_tc _ _ H); pose proof (ex_kept _ _ H); pose proof (ex_atom _ _ H);
    pose proof (ex_floats _ _ H); pose proof (ex_eval _ _ H); clear H end.

Ltac expr_ok_congr :=
  ok_facts; unfold uses_in in *;
  split; unfold uses_in; cbn [typeOfIRExpr tcExpr temps isIRAtom flatExpr no_F32i_F64i eval] in *; intros;
  unfold args_match in *; cbn [fmap list_fmap] in *;
  repeat match goal with
  | H : typeOfIRExpr te ?b = _ |- context [typeOfIRExpr te ?b] => rewrite H
  | H : (_ ≫= _) = Some _ |- _ => apply bind_Some in H as (? & ? & H)
  | H : ∀ f s v, env_holds _ _ _ -> eval _ _ _ ?e = Some v -> _, Hh : env_holds _ _ _, H' : eval _ _ _ ?e = Some _ |- _ =>
      rewrite (H _ _ _ Hh H'); cbn [mbind option_bind]; clear H'
  | H : _ ∈ _ ++ _ |- _ => apply elem_of_app in H as [H|H]
  | H : ?P -> no_F32i_F64i _ = true -> _, Hall : ?P |- _ => specialize (H Hall)
  end;
  b2p; rewrite ?andb_true_iff; rewrite ?uses_in_app in *; split_and?; auto.

Lemma eval_args_ok f s l l' v : env_holds te env f -> Forall2 expr_ok l l' ->
  mapM (eval te f s) l = Some v -> mapM (eval te f s) l' = Some v.
Proof.
  intros Hh H. revert v. induction H as [|a b l l' Hab _ IH]; intros v; [done|]. cbn [mapM].
  intros (x & Hx & (y & Hy & [= <-])%bind_Some)%bind_Some. by rewrite (ex_eval _ _ Hab _ _ _ Hh Hx), (IH _ Hy).
Qed.

Lemma CCall_ok cee ty args args' : Forall2 expr_ok args args' -> forallb isIRAtom args = true ->
  expr_ok (Iex_CCall cee ty args) (Iex_CCall cee ty args').
Proof.
  intros H Ha. split; try done.
  - cbn [tcExpr]. rewrite <- (Forall2_length _ _ _ H). rewrite !andb_true_iff. intros (((((? & ?) & ?) & Htc) & ?) & Hty).
    split_and!; auto; clear -H Htc Hty; induction H as [|a b l l' Hab _ IH]; cbn in *; b2p; rewrite ?andb_true_iff; auto.
    + split; [by apply (ex_tc _ _ Hab)|auto].
    + rewrite (ex_ty _ _ Hab). split; auto. by apply negb_true_iff.
  - unfold uses_in. cbn [temps]. apply uses_in_args. induction H as [|a b l l' Hab _ IH]; constructor; cbn in *; b2p; auto.
    by apply (ex_kept _ _ Hab).
  - intros _. cbn [flatExpr]. induction H as [|a b l l' Hab _ IH]; cbn in *; b2p; rewrite ?andb_true_iff; auto.
    split; [by apply (ex_atom _ _ Hab)|auto].
  - intros f s v Hh. cbn [eval]. intros (l & Hl & Hv)%bind_Some. by rewrite (eval_args_ok _ _ _ _ _ Hh H Hl).
Qed.

Lemma subst_flat e : flatExpr e = true -> tcExpr te gw e = true -> uses_in (defined dc) e ->
  ∃ e', subst_Expr n_tmps env e = Ret e' ∧ expr_ok e e'.
Proof.
  destruct e; intros Hfl Htc Hd; try discriminate Htc; try by apply subst_atom.
  all: cbn [flatExpr] in Hfl; b2p; unfold uses_in in Hd; cbn [temps] in Hd; rewrite ?uses_in_app in Hd; destruct_and?.
  - eexists. split; [done|]. apply expr_ok_refl. intros u Hu. by apply elem_of_nil in Hu.
  - cbn [subst_Expr]. subst_args. eexists. split; [done|]. expr_ok_congr.
  - cbn [subst_Expr]. subst_args. eexists. split; [done|]. expr_ok_congr.
  - cbn [subst_Expr]. subst_args. eexists. split; [done|]. expr_ok_congr.
  - cbn [subst_Expr]. subst_args. eexists. split; [done|]. expr_ok_congr.
  - cbn [subst_Expr]. subst_args. eexists. split; [done|]. expr_ok_congr.
  - cbn [subst_Expr]. subst_args. eexists. split; [done|]. expr_ok_congr.
  - unfold uses_in in *. apply uses_in_args in Hd. cbn [subst_Expr].
    destruct (mapM_rel expr_ok (fun a => _ ← vg_assert (isIRAtom a); subst_Expr n_tmps env a) args) as (args' & Hm & Hok).
    { clear Htc. induction args as [|a args IH]; constructor; cbn [forallb] in Hfl; b2p; inversion Hd; subst; auto.
      match goal with H : isIRAtom a = true |- _ => rewrite H; by apply subst_atom end.
    }
    rewrite Hm. cbn [mbind outcome_bind]. eexists. split; [done|]. by apply CCall_ok.
  - cbn [subst_Expr]. subst_args. eexists. split; [done|]. expr_ok_congr.
Qed.

Lemma fold_atom o a : isIRAtom a = true -> fold_Expr o a = Ret a.
Proof. destruct o; by destruct a. Qed.

Lemma subst_fold_atom b a : isIRAtom a = true -> uses_in (defined dc) a ->
  ∃ a', subst_fold n_tmps b env a = Ret a' ∧ expr_ok a a'.
Proof.
  intros Ha Hd. destruct (subst_atom a Ha Hd) as (a' & Ha' & Hok). exists a'. split; [|done]. unfold subst_fold. rewrite Ha'.
  cbn [mbind outcome_bind]. apply fold_atom. by apply (ex_atom _ _ Hok).
Qed.

Lemma subst_fold_opt_atom b o : null_or isIRAtom o = true -> Forall (uses_in (defined dc)) (option_list o) ->
  ∃ o', subst_fold_opt n_tmps b env o = Ret o' ∧ option_Forall2 expr_ok o o'.
Proof.
  destruct o as [a|]; cbn; intros Ha Hd; [|eexists; split; [done|constructor]]. inversion Hd; subst.
  destruct (subst_fold_atom b a) as (a' & -> & Hok); [done|done|]. eexists. split; [done|]. by constructor.
Qed.

Lemma subst_fold_ok b e e' : flatExpr e = true -> tcExpr te gw e = true -> uses_in (defined dc) e ->
  subst_fold n_tmps b env e = Ret e' -> expr_ok e e'.
Proof.
  intros Hfl Htc Hd. destruct (subst_flat e Hfl Htc Hd) as (e1 & He1 & Hok). unfold subst_fold. rewrite He1. cbn [mbind outcome_bind].
  destruct b; [|by intros [= <-]]. cbn [fold_Expr]. intros Hf.
  destruct (fold_refines te gw env (env_ok_typed Henv) e1 e') as (H1 & H2 & H3 & H4); [by apply (ex_tc _ _ Hok)|by apply (ex_flat _ _ Hok)|done|].
  split; auto.
  - by rewrite H2, (ex_ty _ _ Hok).
  - eapply (fold_closed _ (closed_uses (kept dc env)) env); [|by apply (ex_kept _ _ Hok)|done]. intros t r Hr. by apply (env_ok_bound Henv _ _ Hr).
  - intros Ha. apply (ex_atom _ _ Hok) in Ha. destruct e1; try discriminate Ha; cbn in Hf; by injection Hf as <-.
  - intros Hall Hn. apply (fold_closed _ closed_floats env Hall e1); [by apply (ex_floats _ _ Hok)|done].
  - intros f s v Hh Hv. apply H4; [done|]. by apply (ex_eval _ _ Hok).
Qed.

(** *** Statements *)

(** What becomes of a statement whose guard is a constant. *)
Definition prune (st : IRStmt) : outcome IRStmt :=
  match st with
  | Ist_StoreG en addr data guard =>
      c ← const_guard guard;
      match c with Some false => Ret Ist_NoOp | Some true => Ret (Ist_Store en addr data) | None => Ret st end
  | Ist_LoadG _ _ dst _ alt guard =>
      c ← const_guard guard; match c with Some false => Ret (Ist_WrTmp dst alt) | _ => Ret st end
  | Ist_Exit guard _ _ _ => c ← const_guard guard; match c with Some false => Ret Ist_NoOp | _ => Ret st end
  | _ => Ret st
  end.

Ltac subst_fold_args :=
  repeat match goal with
  | H : isIRAtom ?a = true, Hd : uses_in (defined dc) ?a |- context [subst_fold _ ?b _ ?a] =>
      let a' := fresh "a" in let Ha' := fresh "Ha" in let Hok := fresh "Hok" in
      rewrite H; cbn [vg_assert mbind outcome_bind];
      destruct (subst_fold_atom b a H Hd) as (a' & Ha' & Hok); rewrite Ha'; cbn [mbind outcome_bind]
  | H : null_or isIRAtom ?a = true, Hd : Forall (uses_in (defined dc)) (option_list ?a) |- context [subst_fold_opt _ ?b _ ?a] =>
      let a' := fresh "a" in let Ha' := fresh "Ha" in let Hok := fresh "Hok" in
      rewrite H; cbn [vg_assert mbind outcome_bind];
      destruct (subst_fold_opt_atom b a H Hd) as (a' & Ha' & Hok); rewrite Ha'; cbn [mbind outcome_bind]
  end.

Lemma subst_dirty_args b l : forallb isIRAtom_or_VECRET_or_GSPTR l = true -> Forall (uses_in (defined dc)) l ->
  ∃ l', mapM (subst_dirty_arg n_tmps b env) l = Ret l' ∧ Forall2 (arg_rel expr_ok) l l'.
Proof.
  intros Ha Hd. apply mapM_rel. induction Hd as [|a l Hd _ IH]; constructor; cbn [forallb] in Ha; b2p; auto.
  unfold subst_dirty_arg, arg_rel. destruct (is_IRExpr_VECRET_or_GSPTR a) eqn:Ev; cbn [negb]; [by eexists|].
  assert (isIRAtom a = true) as Haa by (by destruct a). rewrite Haa. cbn [vg_assert mbind outcome_bind].
  destruct (subst_fold_atom b a Haa Hd) as (a' & -> & Hok). eexists. split; [done|]. split; [|done].
  apply (ex_atom _ _ Hok) in Haa. by destruct a'.
Qed.

Lemma subst_Stmt_prune b st : isFlatIRStmt st = true -> tcStmt te gw st = true ->
  Forall (uses_in (defined dc)) (exprs st) ->
  (∀ t e, st = Ist_WrTmp t e -> ∃ e', subst_fold n_tmps b env e = Ret e') ->
  ∃ st1, stmt_rel expr_ok st st1 ∧ subst_and_maybe_fold_Stmt n_tmps b env st = prune st1.
Proof.
  intros Hfl Htc Hd Hw. destruct st; cbn [isFlatIRStmt exprs] in *; b2p; rewrite ?Forall_app, ?Forall_cons, ?Forall_nil in Hd; destruct_and?;
    cbn [subst_and_maybe_fold_Stmt].
  all: try (subst_fold_args; eexists; split; [constructor; eassumption|]; done).
  all: try (eexists; split; [constructor; eassumption|]; done).
  - destruct (Hw _ _ eq_refl) as [e' He']. rewrite He'. exists (Ist_WrTmp tmp e'). split; [|done]. constructor.
    cbn in Htc. b2p. apply (subst_fold_ok b); auto. by destruct data.
  - destruct cas as [oh ol en a eh el dh dl]; cbn [cas_addr expdHi expdLo dataHi dataLo oldHi oldLo cas_end] in *. destruct_and?.
    subst_fold_args. eexists. split; [by constructor|done].
  - destruct d as [cee g args t fx a n l]; cbn [d_cee d_args d_guard d_mAddr d_mFx d_tmp d_mSize d_fxState tcStmt] in *. destruct_and?.
    destruct (subst_dirty_args b args) as (args' & Hargs & Hokargs); [done|done|].
    assert (∃ a' : option IRExpr, (match fx with
       | Ifx_None => Ret a
       | _ => match a with Some a => _ ← vg_assert (isIRAtom a); a ← subst_fold n_tmps b env a; Ret (Some a) | None => Fault NullDeref end
       end) = Ret a' ∧ option_Forall2 expr_ok (addr_of fx a) (addr_of fx a')) as (a' & Ha' & Hoka).
    { destruct a as [a|].
      - cbn [null_or] in *. destruct fx; cbn [addr_of option_list] in *; [by eexists; split; [|constructor]|..];
          (assert (uses_in (defined dc) a) by (match goal with H : Forall _ (option_list (Some a)) |- _ => by inversion H end);
           subst_fold_args; eexists; (split; [done|by constructor])).
      - unfold tcDirty in Htc. cbn [d_mFx d_mAddr] in Htc. repeat (apply andb_true_iff in Htc as [Htc ?Hfx]).
        match goal with H : match fx with _ => _ end = true |- _ => rename H into Hmem end.
        destruct fx; try discriminate Hmem. by eexists; split; [|constructor]. }
    rewrite Ha'. cbn [mbind outcome_bind]. subst_fold_args. rewrite Hargs. cbn [mbind outcome_bind].
    eexists. split; [by constructor|done].
Qed.

End Subst.

(** ** One statement *)

Lemma env_insert_eq (env : Env) t e : (<[t := e]> env : Env) !! t = Some e.
Proof. apply (lookup_insert_eq (M := gmap Z)). Qed.
Lemma env_insert_ne (env : Env) t u e : t ≠ u -> (<[t := e]> env : Env) !! u = env !! u.
Proof. apply (lookup_insert_ne (M := gmap Z)). Qed.

Section Step.
Context `{M : Machine St} `{E : Effects St} (te : IRTypeEnv) (gw : IRType).
Notation n_tmps := (Z.of_nat (length te)).
Implicit Types (dc : list Z) (env : Env) (st : IRStmt).

Lemma guard_cases g : typeOfIRExpr te g = Ity_I1 ->
  (∃ b, g = Iex_Const (Ico_U1 b) ∧ const_guard g = Ret (Some b)) ∨ const_guard g = Ret None.
Proof.
  destruct g; auto. destruct con; try discriminate. intros _. left. exists b. split; [done|]. cbn. by rewrite con_U1_own.
Qed.

Definition guard_of st : option IRExpr :=
  match st with Ist_StoreG _ _ _ g | Ist_LoadG _ _ _ _ _ g | Ist_Exit g _ _ _ => Some g | _ => None end.

(** The statement that remains does the same. *)
Record pruned st st2 : Prop := {
  pr_exec f s r : exec_Stmt te f s st = Some r -> exec_Stmt te f s st2 = Some r;
  pr_defs : defs st2 = defs st;
  pr_exprs (P : IRExpr -> Prop) : Forall P (exprs st) -> Forall P (exprs st2);
  pr_WrTmp t e : st2 = Ist_WrTmp t e -> st = st2 ∨ ∃ en cvt addr g, st = Ist_LoadG en cvt t addr e g;
  pr_LoadG en cvt t addr alt g : st2 = Ist_LoadG en cvt t addr alt g ->
    st = st2 ∧ (const_guard g = Ret None ∨ const_guard g = Ret (Some true) ∧ g = Iex_Const (Ico_U1 true))
}.

Lemma prune_spec st : (∀ g, guard_of st = Some g -> typeOfIRExpr te g = Ity_I1) ->
  ∃ st2, prune st = Ret st2 ∧ pruned st st2.
Proof.
  intros Hg. destruct st; try (eexists; split; [done|split; eauto; done]); cbn [guard_of] in Hg; specialize (Hg _ eq_refl);
    destruct (guard_cases _ Hg) as [([] & -> & Hc)|Hc]; cbn [prune]; rewrite Hc; cbn [mbind outcome_bind];
    eexists; (split; [done|]); split; cbn [exec_Stmt exprs defs]; rewrite ?Forall_cons; try naive_solver.
  - intros P. rewrite !Forall_cons. naive_solver.
  - intros f s r (a & _ & (v & _ & Hr)%bind_Some)%bind_Some. done.
  - intros f s r (a & _ & (x & Hx & (b & [= <-] & (t & _ & Hr)%bind_Some)%bind_Some)%bind_Some)%bind_Some. by rewrite Hx.
  - intros P. rewrite !Forall_cons. naive_solver.
Qed.

(** *** The bindings *)

(** [f] has the values of the statements so far, [g] those of the output so far. *)
Record inv dc env (f g : Z -> Z) : Prop := {
  inv_holds : env_holds te env f;
  inv_agree t : kept dc env t -> f t = g t
}.

Lemma kept_mono dc dc' env t : (∀ u, defined dc u -> defined dc' u) -> kept dc env t -> kept dc' env t.
Proof. intros H [Hd Hp]. split; auto. Qed.

(** Other temporaries get values. *)
Lemma env_ok_mono dc dc' env : (∀ u, defined dc u -> defined dc' u) -> env_ok te gw dc env -> env_ok te gw dc' env.
Proof.
  intros H [Ht Hb]. split; [done|]. intros t r Hr. destruct (Hb _ _ Hr) as [Hd Hu].
  split; [auto|]. eapply uses_in_mono; [|done]. intros u. by apply kept_mono.
Qed.

Lemma env_holds_write dc env f w : env_ok te gw dc env -> (∀ t, t ∈ w.*1 -> ¬ defined dc t) ->
  env_holds te env f -> env_holds te env (write w f).
Proof.
  intros Hok Hw Hh t r Hr. destruct (Hh _ _ Hr) as [s Hs]. exists s. destruct (env_ok_bound _ _ _ _ Hok _ _ Hr) as [Hd Hu].
  rewrite !(eval_same te te (write w f) f); [done| |].
  - intros u ->%list_elem_of_singleton. split; [|done]. apply write_other. intros H. by apply (Hw _ H).
  - eapply uses_in_mono; [|exact Hu]. intros u [Hdu _]. split; [|done]. apply write_other. intros H. by apply (Hw _ H).
Qed.

Lemma inv_write dc dc' env f g w : env_ok te gw dc env -> (∀ t, t ∈ w.*1 -> ¬ defined dc t) ->
  (∀ u, defined dc' u <-> u ∈ w.*1 ∨ defined dc u) -> inv dc env f g -> inv dc' env (write w f) (write w g).
Proof.
  intros Hok Hw Hdc [Hh Ha]. split; [by eapply env_holds_write|]. intros t Ht.
  apply (write_agree w f g (kept dc' env)); [|done]. intros u [Hd Hp] Hu. apply Ha. split; [|done].
  apply Hdc in Hd as [Hd|Hd]; done.
Qed.

(** One temporary is bound. *)
Definition bindable dc env t e : Prop :=
  tcExpr te gw e = true ∧ typeOfIRExpr te e = typeOfIRTemp te t ∧ flatExpr e = true ∧ uses_in (kept dc env) e.

Lemma env_ok_bind dc dc' env t e : env_ok te gw dc env -> ¬ defined dc t ->
  (∀ u, defined dc' u <-> u = t ∨ defined dc u) -> bindable dc env t e -> env_ok te gw dc' (<[t := e]> env).
Proof.
  intros Hok Ht Hdc (Htc & Hty & Hfl & Hu).
  assert (∀ u, kept dc env u -> kept dc' (<[t := e]> env) u) as Hmono.
  { intros u [Hd Hp]. split; [apply Hdc; auto|]. rewrite env_insert_ne; [done|]. intros <-. done. }
  split; intros u r; (destruct (decide (u = t)) as [->|Hne]; [rewrite env_insert_eq|rewrite env_insert_ne by done]).
  - by intros [= <-].
  - by apply (env_ok_typed _ _ _ _ Hok).
  - intros [= <-]. split; [apply Hdc; auto|]. by eapply uses_in_mono.
  - intros Hr. destruct (env_ok_bound _ _ _ _ Hok _ _ Hr) as [Hd Hu']. split; [apply Hdc; auto|]. by eapply uses_in_mono.
Qed.

Lemma inv_bind dc dc' env f g t e v s : env_ok te gw dc env -> ¬ defined dc t ->
  (∀ u, defined dc' u <-> u = t ∨ defined dc u) -> bindable dc env t e ->
  inv dc env f g -> eval te f s e = Some v ->
  inv dc' (<[t := e]> env) (write [(t, v)] f) (if propagated (Some e) then g else write [(t, v)] g).
Proof.
  intros Hok Ht Hdc (Htc & Hty & Hfl & Hu) [Hh Ha] Hv. split.
  - intros u r. destruct (decide (u = t)) as [->|Hne].
    + rewrite env_insert_eq. intros [= <-]. exists s. rewrite (eval_same te te _ f).
      * rewrite Hv. cbn [eval]. unfold write. cbn [foldl fst snd]. rewrite fn_lookup_insert.
        apply (eval_range te gw) in Hv; [|done]. by rewrite wrap_small by by rewrite <- Hty.
      * eapply uses_in_mono; [|exact Hu]. intros u [Hd _]. split; [|done]. apply write_other. cbn.
        intros ->%list_elem_of_singleton. done.
    + rewrite env_insert_ne by done. revert u r Hne. 
      pose proof (env_holds_write dc env f [(t, v)] Hok) as H. intros u r _. apply H; [|done]. cbn. by intros ? ->%list_elem_of_singleton.
  - intros u [Hd Hp]. destruct (decide (u = t)) as [->|Hne].
    + rewrite env_insert_eq in Hp. rewrite Hp. unfold write. cbn [foldl fst snd]. by rewrite !fn_lookup_insert.
    + rewrite env_insert_ne in Hp by done. assert (f u = g u) as Hfg.
      { apply Ha. split; [|done]. apply Hdc in Hd as [|]; done. }
      unfold write. destruct (propagated (Some e)); cbn [foldl fst snd]; rewrite !fn_lookup_insert_ne by done; done.
Qed.

(** *** A statement after substitution, folding and pruning *)

Lemma stmt_rel_exprs (R : IRExpr -> IRExpr -> Prop) (P : IRExpr -> Prop) st st' : stmt_rel R st st' ->
  (∀ e e', R e e' -> P e') -> (∀ e, is_IRExpr_VECRET_or_GSPTR e = true -> P e) -> Forall P (exprs st').
Proof.
  intros H HR HV.
  assert (∀ o o', option_Forall2 R o o' -> Forall P (option_list o')) as Ho by (destruct 1; repeat constructor; eauto).
  assert (∀ l l', Forall2 (arg_rel R) l l' -> Forall P l') as Ha.
  { induction 1 as [|x y l l' Hab]; constructor; auto. unfold arg_rel in Hab. destruct (is_IRExpr_VECRET_or_GSPTR x) eqn:Ev; [subst; auto|].
    destruct Hab; eauto. }
  destruct H; cbn [exprs cas_addr expdHi expdLo dataHi dataLo d_args d_guard d_mAddr d_mFx];
    rewrite ?Forall_app, ?Forall_cons, ?Forall_nil; split_and?; eauto.
Qed.

Lemma tc_guard st g : tcStmt te gw st = true -> guard_of st = Some g -> typeOfIRExpr te g = Ity_I1.
Proof.
  destruct st; try done; cbn [tcStmt guard_of]; intros H [= <-]; b2p;
    repeat match goal with H : bool_decide _ = true |- _ => apply bool_decide_eq_true in H end; done.
Qed.

Definition no_floats (l : list IRExpr) : Prop := Forall (fun e => no_F32i_F64i e = true) l.
Definition env_floats env : Prop := ∀ t r, env !! t = Some r -> no_F32i_F64i r = true.

Record folded dc env st st2 : Prop := {
  fo_exec f g s r : inv dc env f g -> exec_Stmt te f s st = Some r ->
    exec_Stmt te f s st2 = Some r ∧ exec_Stmt te g s st2 = Some r;
  fo_defs : defs st2 = defs st;
  fo_kept : Forall (uses_in (kept dc env)) (exprs st2);
  fo_WrTmp t e : st2 = Ist_WrTmp t e -> bindable dc env t e ∧ (env_floats env -> no_floats (exprs st) -> no_F32i_F64i e = true);
  fo_LoadG en cvt t addr alt g : st2 = Ist_LoadG en cvt t addr alt g ->
    (const_guard g = Ret None ∨ const_guard g = Ret (Some true) ∧ g = Iex_Const (Ico_U1 true)) ∧
    ∃ argty, typeOfIRLoadGOp cvt = Some (typeOfIRTemp te t, argty)
}.

Lemma subst_and_maybe_fold_spec dc env b st : env_ok te gw dc env -> length dc = length te ->
  isFlatIRStmt st = true -> tcStmt te gw st = true -> Forall (uses_in (defined dc)) (exprs st) ->
  (∀ t e, st = Ist_WrTmp t e -> ∃ e', subst_fold n_tmps b env e = Ret e') ->
  ∃ st2, subst_and_maybe_fold_Stmt n_tmps b env st = Ret st2 ∧ folded dc env st st2.
Proof.
  intros Hok Hlen Hfl Htc Hd Hw.
  destruct (subst_Stmt_prune te gw dc env Hok Hlen b st Hfl Htc Hd Hw) as (st1 & Hrel & ->).
  destruct (prune_spec st1) as (st2 & -> & [Hex Hdefs Hexprs Hwr Hlg]).
  { intros g Hg. destruct Hrel; try done; cbn in Hg; injection Hg as <-;
      match goal with H : expr_ok _ _ _ _ ?g _ |- _ => rewrite (ex_ty _ _ _ _ _ _ H); by apply (tc_guard _ _ Htc) end. }
  exists st2. split; [done|]. 
  assert (Forall (uses_in (kept dc env)) (exprs st2)) as Hkept.
  { apply Hexprs. eapply stmt_rel_exprs; [exact Hrel| |].
    - intros e e' H. by apply (ex_kept _ _ _ _ _ _ H).
    - intros e He t Ht. destruct e; try done; by apply elem_of_nil in Ht. }
  split; [|by rewrite Hdefs, (stmt_rel_defs _ _ _ Hrel)|done| |].
  - intros f g s r [Hh Ha] Hr. assert (exec_Stmt te f s st2 = Some r) as Hr2.
    { apply Hex. eapply (exec_rel te te f f); [|done|exact Hr]. eapply stmt_rel_impl; [|exact Hrel].
      intros e e' H. split; [by rewrite (ex_ty _ _ _ _ _ _ H)|]. intros v. by apply (ex_eval _ _ _ _ _ _ H). }
    split; [done|]. eapply exec_same; [|done|exact Hr2]. eapply Forall_impl; [exact Hkept|]. intros e He.
    eapply uses_in_mono; [|exact He]. intros t Ht. split; [by apply Ha|done].
  - intros t e ->. inversion Hkept as [|? ? Hk _]; subst.
    destruct (Hwr _ _ eq_refl) as [->|(en & cvt & addr & g & ->)]; inversion Hrel; subst; cbn [tcStmt isFlatIRStmt exprs] in *; b2p;
      repeat match goal with H : bool_decide _ = true |- _ => apply bool_decide_eq_true in H end.
    + match goal with H : expr_ok _ _ _ _ ?e0 e |- _ => pose proof H as He; assert (flatExpr e0 = true) by by destruct e0 end.
      split; [|intros ? Hn; inversion Hn; subst; by apply (ex_floats _ _ _ _ _ _ He)].
      split_and!; [by apply (ex_tc _ _ _ _ _ _ He)|by rewrite (ex_ty _ _ _ _ _ _ He)|by apply (ex_flat _ _ _ _ _ _ He)|done].
    + match goal with H : expr_ok _ _ _ _ ?e0 e |- _ => pose proof H as He; assert (flatExpr e0 = true) by by destruct e0 end.
      split; [|intros ? Hn; inversion Hn as [|? ? _ Hn']; inversion Hn'; subst; by apply (ex_floats _ _ _ _ _ _ He)].
      split_and!; [by apply (ex_tc _ _ _ _ _ _ He)|by rewrite (ex_ty _ _ _ _ _ _ He)|by apply (ex_flat _ _ _ _ _ _ He)|done].
  - intros en cvt t addr alt g ->. destruct (Hlg _ _ _ _ _ _ eq_refl) as [-> Hg]. split; [done|].
    inversion Hrel; subst. cbn [tcStmt] in Htc. b2p. destruct (typeOfIRLoadGOp cvt) as [[res arg]|]; [|done].
    exists arg. match goal with H : bool_decide (res = _) = true |- _ => apply bool_decide_eq_true in H as -> end. done.
Qed.

(** *** One turn of the loop *)

(** The temporaries of a statement are below [n]. *)
Definition below (n : nat) st : Prop := Forall (uses_in (within n)) (exprs st) ∧ Forall (within n) (defs st).

(** The placeholder and the load that a fixup is about. *)
Definition fixup_at (te : IRTypeEnv) (out : list IRStmt) (ix : Z) : Prop :=
  ∃ k en cvt dst addr alt argty, ix = Z.of_nat k ∧ out !! k = Some Ist_NoOp ∧
    out !! S k = Some (Ist_LoadG en cvt dst addr alt (Iex_Const (Ico_U1 true))) ∧
    typeOfIRLoadGOp cvt = Some (typeOfIRTemp te dst, argty).

Definition isTrueU1 (e : IRExpr) : bool := match e with Iex_Const (Ico_U1 b) => b | _ => false end.

(** A guarded load that is always done. *)
Definition true_load (st : IRStmt) : bool := match st with Ist_LoadG _ _ _ _ _ g => isTrueU1 g | _ => false end.

(** Each of them has its fixup, as long as there is room. *)
Definition fixed_up (out : list IRStmt) (fixups : list Z) : Prop :=
  Z.of_nat (length fixups) < N_FIXUPS ->
  ∀ k st, out !! k = Some st -> true_load st = true -> Z.of_nat k - 1 ∈ fixups.

Record out_ok (out : list IRStmt) (fixups : list Z) : Prop := {
  out_below : Forall (below (length te)) out;
  out_fixups : Forall (fixup_at te out) fixups;
  out_nodup : NoDup fixups;
  out_few : Z.of_nat (length fixups) <= N_FIXUPS;
  out_fixed : fixed_up out fixups
}.

Lemma fixup_at_app out o ix : fixup_at te out ix -> fixup_at te (out ++ o) ix.
Proof.
  intros (k & en & cvt & dst & addr & alt & ty & -> & H1 & H2 & H3). exists k, en, cvt, dst, addr, alt, ty.
  by rewrite (lookup_app_l_Some _ _ _ _ H1), (lookup_app_l_Some _ _ _ _ H2).
Qed.

Lemma out_ok_app out fixups o : out_ok out fixups -> Forall (below (length te)) o ->
  (Z.of_nat (length fixups) < N_FIXUPS -> Forall (fun st => true_load st = false) o) -> out_ok (out ++ o) fixups.
Proof.
  intros [Hb Hf Hn Hl Hx] Ho Hno. split; [by apply Forall_app| |done|done|].
  - eapply Forall_impl; [done|]. intros. by apply fixup_at_app.
  - intros Hlt k st Hk Ht. apply lookup_app_Some in Hk as [Hk|[_ Hk]]; [by apply (Hx Hlt k st)|].
    specialize (Hno Hlt). rewrite Forall_lookup in Hno. rewrite (Hno _ _ Hk) in Ht. done.
Qed.

Lemma out_ok_fixup out fixups en cvt dst addr alt argty : out_ok out fixups -> Z.of_nat (length fixups) < N_FIXUPS ->
  below (length te) (Ist_LoadG en cvt dst addr alt (Iex_Const (Ico_U1 true))) ->
  typeOfIRLoadGOp cvt = Some (typeOfIRTemp te dst, argty) ->
  out_ok ((out ++ [Ist_NoOp]) ++ [Ist_LoadG en cvt dst addr alt (Iex_Const (Ico_U1 true))])
    (fixups ++ [Z.of_nat (length out)]).
Proof.
  intros [Hb Hf Hn Hl Hx] Hlt Hbelow Hty. rewrite <- app_assoc. split.
  - apply Forall_app. split; [done|]. apply Forall_cons; split; [by split; constructor|]. by apply Forall_singleton.
  - apply Forall_app. split; [eapply Forall_impl; [done|]; intros; by apply fixup_at_app|]. apply Forall_singleton.
    exists (length out), en, cvt, dst, addr, alt, argty. split_and!; [done| |by rewrite lookup_app_r, Nat.sub_succ_l, Nat.sub_diag by lia|done].
    by rewrite lookup_app_r, Nat.sub_diag by lia.
  - apply NoDup_app. split_and!; [done| |apply NoDup_singleton]. intros ix Hix ->%list_elem_of_singleton.
    rewrite Forall_forall in Hf. destruct (Hf _ Hix) as (k & en' & cvt' & dst' & addr' & alt' & ty' & Hk & H1 & _).
    apply lookup_lt_Some in H1. lia.
  - rewrite length_app. cbn. lia.
  - intros _ k st Hk Ht. apply lookup_app_Some in Hk as [Hk|[Hlen Hk]]; [apply elem_of_app; left; by apply (Hx Hlt k st)|].
    apply elem_of_app. right. destruct (k - length out)%nat as [|[|n]] eqn:Ek; cbn in Hk; [by injection Hk as <-| |done].
    apply list_elem_of_singleton. lia.
Qed.

Record stepped dc dc' st (x y : Cprop) (o : list IRStmt) : Prop := {
  st_out : c_out y = c_out x ++ o;
  st_env : env_ok te gw dc' (c_env y);
  st_ok : out_ok (c_out y) (c_fixups y);
  st_floats : env_floats (c_env x) -> no_floats (exprs st) -> env_floats (c_env y);
  st_sim : sim te te (inv dc (c_env x)) [st] o (inv dc' (c_env y))
}.

Section Turn.
Context (dc dc' : list Z) (st : IRStmt) (x : Cprop).
Context (Henv : env_ok te gw dc (c_env x)) (Hout : out_ok (c_out x) (c_fixups x)) (Hlen : length dc = length te).
Context (Hrange : ∀ t, t ∈ defs st -> within (length te) t ∧ ¬ defined dc t).
Context (Hdc : ∀ u, defined dc' u <-> u ∈ defs st ∨ defined dc u).

Lemma below_folded st2 : folded dc (c_env x) st st2 -> below (length te) st2.
Proof.
  intros H. split.
  - eapply Forall_impl; [apply (fo_kept _ _ _ _ H)|]. intros e He. eapply uses_in_mono; [|exact He].
    intros t [Ht _]. unfold defined, useBeforeDef_Temp, within in *. b2p. lia.
  - rewrite (fo_defs _ _ _ _ H). apply Forall_forall. intros t Ht. by apply Hrange.
Qed.

Lemma defs_mono u : defined dc u -> defined dc' u.
Proof. intros. apply Hdc. auto. Qed.

(** The statement is put out, behind statements that do nothing. *)
Lemma stepped_emit st2 nops fixups : folded dc (c_env x) st st2 -> Forall (eq Ist_NoOp) nops ->
  out_ok ((c_out x ++ nops) ++ [st2]) fixups ->
  stepped dc dc' st x {| c_env := c_env x; c_out := (c_out x ++ nops) ++ [st2]; c_fixups := fixups |} (nops ++ [st2]).
Proof.
  intros Hf Hn Hok. split; cbn [c_out c_env c_fixups]; [by rewrite app_assoc|by apply (env_ok_mono dc); [exact defs_mono|]|done|done|].
  apply (sim_app _ _ _ (inv dc (c_env x)) _ [] [st]).
  - clear Hok. induction Hn as [|? nops <- _ IH]; [by apply sim_nil|]. intros f g s r Hi Hr.
    destruct (IH f g s r Hi Hr) as (r' & Hr' & Hend). by exists r'.
  - apply sim_Stmt.
    + intros f g s r Hi Hr. by apply (fo_exec _ _ _ _ Hf f g).
    + intros f g w Hi Hw. eapply inv_write; [done| | |done]; rewrite Hw; [by intros t Ht; apply Hrange|done].
Qed.

(** The statement does nothing. *)
Lemma stepped_skip : defs st = [] -> (∀ f g s r, inv dc (c_env x) f g -> exec_Stmt te f s st = Some r -> r = Go [] s) ->
  stepped dc dc' st x x [].
Proof.
  intros Hd He. assert (∀ u, defined dc' u <-> defined dc u) as Hdc'.
  { intros u. rewrite Hdc, Hd. rewrite elem_of_nil. tauto. }
  split; [by rewrite app_nil_r|by apply (env_ok_mono dc); [exact defs_mono|]|done|done|]. apply sim_drop.
  intros f g s r Hi Hr. exists []. split; [by eapply He|]. destruct Hi as [Hh Ha]. split; [done|]. intros t [Ht Hp].
  apply Ha. split; [|done]. by apply Hdc'.
Qed.

(** The statement binds a temporary, and is put out if the binding is not propagated. *)
Lemma stepped_bind t e : folded dc (c_env x) st (Ist_WrTmp t e) ->
  stepped dc dc' st x
    {| c_env := <[t := e]> (c_env x); c_out := c_out x ++ (if propagated (Some e) then [] else [Ist_WrTmp t e]);
       c_fixups := c_fixups x |} (if propagated (Some e) then [] else [Ist_WrTmp t e]).
Proof.
  intros Hf. pose proof (fo_defs _ _ _ _ Hf) as Hd. cbn [defs] in Hd.
  destruct (fo_WrTmp _ _ _ _ Hf _ _ eq_refl) as [Hb Hfl].
  assert (¬ defined dc t) as Ht. { apply Hrange. rewrite <- Hd. by apply list_elem_of_singleton. }
  assert (∀ u, defined dc' u <-> u = t ∨ defined dc u) as Hdc'. { intros u. by rewrite Hdc, <- Hd, list_elem_of_singleton. }
  split; cbn [c_out c_env c_fixups].
  - done.
  - by apply (env_ok_bind dc).
  - apply out_ok_app; [done| |by destruct (propagated (Some e)); repeat constructor].
    destruct (propagated (Some e)); [constructor|]. apply Forall_singleton. by apply below_folded.
  - intros H1 H2 u r. destruct (decide (u = t)) as [->|Hne].
    + rewrite env_insert_eq. intros [= <-]. auto.
    + rewrite env_insert_ne by done. apply H1.
  - intros f g s r Hi. cbn [exec_Stmts]. intros (r1 & Hr1 & Hr)%bind_Some.
    destruct (fo_exec _ _ _ _ Hf _ _ _ _ Hi Hr1) as [Hx Hg]. cbn [exec_Stmt] in Hx. apply bind_Some in Hx as (v & Hv & [= <-]).
    injection Hr as <-. pose proof (inv_bind dc dc' (c_env x) f g t e v s Henv Ht Hdc' Hb Hi Hv) as Hi'.
    destruct (propagated (Some e)); cbn [exec_Stmts]; [by eexists|]. rewrite Hg. cbn [mbind option_bind]. by eexists.
Qed.

Lemma cprop_Stmt_spec retain b : isFlatIRStmt st = true -> tcStmt te gw st = true ->
  Forall (uses_in (defined dc)) (exprs st) ->
  (∀ t e, st = Ist_WrTmp t e -> ∃ e', subst_fold n_tmps b (c_env x) e = Ret e') ->
  ∃ y o, cprop_Stmt n_tmps retain b st x = Ret y ∧ stepped dc dc' st x y o.
Proof.
  intros Hfl Htc Hd Hw. unfold cprop_Stmt.
  destruct ((match st with Ist_NoOp => true | _ => false end) && negb retain) eqn:Hno.
  { exists x, []. split; [done|]. assert (st = Ist_NoOp) as Hst by (clear -Hno; by destruct st).
    apply stepped_skip; [by rewrite Hst|]. intros f g s r _. rewrite Hst. by intros [= <-]. }
  destruct (subst_and_maybe_fold_spec dc (c_env x) b st) as (st2 & -> & Hf); auto. cbn [mbind outcome_bind].
  assert ((Z.of_nat (length (c_fixups x)) < N_FIXUPS -> true_load st2 = false) ->
    ∃ y o, Ret (addStmt st2 x) = Ret y ∧ stepped dc dc' st x y o) as Hemit.
  { intros Hnt. eexists _, _. split; [done|]. pose proof (stepped_emit st2 [] (c_fixups x) Hf) as H. rewrite app_nil_r in H. apply H; [constructor|].
    apply out_ok_app; [done|apply Forall_singleton; by apply below_folded|]. intros Hlt. by apply Forall_singleton, Hnt. }
  destruct st2; try by apply Hemit.
  - destruct retain; [by apply Hemit|]. exists x, []. split; [done|]. apply stepped_skip; [by rewrite <- (fo_defs _ _ _ _ Hf)|].
    intros f g s r Hi Hr. destruct (fo_exec _ _ _ _ Hf _ _ _ _ Hi Hr) as [[= <-] _]. done.
  - assert (tmp ∈ defs st) as Ht by (rewrite <- (fo_defs _ _ _ _ Hf); by apply list_elem_of_singleton).
    destruct (Hrange _ Ht) as [Hr Hnd]. unfold env_get. replace ((0 <=? tmp) && (tmp <? n_tmps)) with true by (unfold within in Hr; lia).
    cbn [mbind outcome_bind]. rewrite bool_decide_eq_true_2.
    2: { destruct (c_env x !! tmp) eqn:Hx; [|done]. by destruct (env_ok_bound _ _ _ _ Henv _ _ Hx). }
    cbn [vg_assert mbind outcome_bind]. pose proof (stepped_bind _ _ Hf) as H.
    destruct data; try (eexists _, _; split; [done|exact H]).
    + cbn [propagated] in H. rewrite app_nil_r in H. eexists _, _. split; [done|exact H].
    + cbn [propagated] in H. destruct (is_F64i con); cbn [negb] in *; [|rewrite app_nil_r in H]; eexists _, _; (split; [done|exact H]).
  - destruct (fo_LoadG _ _ _ _ Hf _ _ _ _ _ _ eq_refl) as [[Hc|[Hc ->]] (argty & Hty)]; rewrite Hc; cbn [mbind outcome_bind].
    { apply Hemit. intros _. destruct guard; try done. by destruct con. }
    cbn [vg_assert mbind outcome_bind]. replace (Z.of_nat (length (c_fixups x)) <=? N_FIXUPS) with true by (pose proof (out_few _ _ Hout); lia).
    cbn [vg_assert mbind outcome_bind]. case_bool; [|apply Hemit; lia].
    eexists _, _. split; [done|]. apply (stepped_emit _ [Ist_NoOp]); [done|by repeat constructor|].
    eapply out_ok_fixup; try done. by apply below_folded.
Qed.
End Turn.

(** *** The loop *)

(** [G] says of a state and the statements to come that the folding returns. *)
Lemma cprop_Stmts_spec retain b (G : list IRStmt -> Cprop -> Prop)
  (Hret : ∀ dc x t e l, env_ok te gw dc (c_env x) -> length dc = length te -> flatExpr e = true -> tcExpr te gw e = true ->
     uses_in (defined dc) e -> G (Ist_WrTmp t e :: l) x -> ∃ e', subst_fold n_tmps b (c_env x) e = Ret e')
  (Hstep : ∀ dc dc' x y o st l, G (st :: l) x -> cprop_Stmt n_tmps retain b st x = Ret y -> stepped dc dc' st x y o -> G l y)
  l e : ∀ dc x, block_ok te gw dc l e -> env_ok te gw dc (c_env x) -> out_ok (c_out x) (c_fixups x) -> G l x ->
  ∃ y o dc', for_list l (cprop_Stmt n_tmps retain b) x = Ret y ∧ c_out y = c_out x ++ o ∧
    env_ok te gw dc' (c_env y) ∧ length dc' = length te ∧ out_ok (c_out y) (c_fixups y) ∧ uses_in (defined dc') e ∧
    sim te te (inv dc (c_env x)) l o (inv dc' (c_env y)).
Proof.
  induction l as [|st l IH]; intros dc x Hok Henv Hout HG.
  - exists x, [], dc. rewrite app_nil_r. split_and!; try done; [apply Hok|by apply (block_ok_nil te gw)|by apply sim_nil].
  - destruct (block_ok_cons _ _ _ _ _ _ Hok) as (dc1 & _ & Hok1 & Hfl & Htc & Hu & _ & Hd & Hdc).
    assert (length dc = length te) as Hlen by apply Hok.
    destruct (cprop_Stmt_spec dc dc1 st x Henv Hout Hlen Hd Hdc retain b Hfl Htc Hu) as (y & o & Hy & Hst).
    { intros t e' ->. cbn [isFlatIRStmt tcStmt exprs] in *. b2p. inversion Hu; subst.
      eapply (Hret dc); try done. by destruct e'. }
    destruct (IH dc1 y Hok1 (st_env _ _ _ _ _ _ Hst) (st_ok _ _ _ _ _ _ Hst)) as (z & o2 & dc2 & Hz & Hzo & Henv2 & Hlen2 & Hout2 & Hu2 & Hsim).
    { by eapply Hstep. }
    exists z, (o ++ o2), dc2. cbn [for_list]. rewrite Hy. cbn [mbind outcome_bind]. split_and!; try done.
    + by rewrite Hzo, (st_out _ _ _ _ _ _ Hst), app_assoc.
    + eapply sim_cons; [apply Hst|done].
Qed.
End Step.

(** ** The loads that became unconditional *)

Section Fixups.
Context `{M : Machine St} `{E : Effects St}.
Implicit Types (te : IRTypeEnv) (out : list IRStmt).

Lemma typeOfIRTemp_app te ty t : within (length te) t -> typeOfIRTemp (te ++ ty) t = typeOfIRTemp te t.
Proof.
  intros [H1 H2]. unfold typeOfIRTemp, IRTypeEnv in *. replace (t <? 0) with false by lia. by rewrite lookup_app_l by lia.
Qed.
Lemma typeOfIRTemp_new te ty : typeOfIRTemp (te ++ [ty]) (Z.of_nat (length te)) = ty.
Proof.
  unfold typeOfIRTemp, IRTypeEnv in *. rewrite (proj2 (Z.ltb_ge _ _)) by apply Nat2Z.is_nonneg. by rewrite Nat2Z.id, list_lookup_middle.
Qed.
Lemma within_mono n m t : (n <= m)%nat -> within n t -> within m t.
Proof. unfold within. lia. Qed.
Lemma below_mono n m st : (n <= m)%nat -> below n st -> below m st.
Proof.
  intros Hnm [H1 H2]. split; (eapply Forall_impl; [done|]); intros ?; [intros He; eapply uses_in_mono; [|exact He]; intros ?|]; by apply within_mono.
Qed.

(** A load and its conversion, for a guarded load. *)
Lemma load_convert te en cvt dst addr alt argty : below (length te) (Ist_LoadG en cvt dst addr alt (Iex_Const (Ico_U1 true))) ->
  typeOfIRLoadGOp cvt = Some (typeOfIRTemp te dst, argty) ->
  let t := Z.of_nat (length te) in
  sim te (te ++ [argty]) (agree (length te))
    [Ist_NoOp; Ist_LoadG en cvt dst addr alt (Iex_Const (Ico_U1 true))]
    [Ist_WrTmp t (Iex_Load en argty addr);
     Ist_WrTmp dst (match cvtOp_of cvt with None => Iex_RdTmp t | Some cvtOp => Iex_Unop cvtOp (Iex_RdTmp t) end)]
    (agree (length te)).
Proof.
  intros [Hu _] Hty t f g s r Hfg. cbn [exec_Stmts exec_Stmt mbind option_bind]. change (write [] f) with f.
  inversion Hu as [|? ? Haddr _]; subst.
  intros (x & Hx & Hr)%bind_Some. apply bind_Some in Hx as (a & Ha & (v & _ & (b & [= <-] & Hx)%bind_Some)%bind_Some).
  rewrite Hty in Hx. cbn [mbind option_bind snd] in Hx.
  change (wrap (width (typeOfIRConst (Ico_U1 true))) (value_of_const (Ico_U1 true)) =? 0) with false in Hx.
  apply bind_Some in Hx as (l & Hl & (c & Hc & [= <-])%bind_Some).
  injection Hr as <-. rewrite (eval_same te (te ++ [argty]) f g) in Ha.
  2: { eapply uses_in_mono; [|exact Haddr]. intros u Hw. split; [by apply Hfg|]. by rewrite typeOfIRTemp_app. }
  cbn [eval]. rewrite Ha. cbn [mbind option_bind]. rewrite Hl. cbn [fmap option_fmap option_map mbind option_bind].
  set (g1 := write [(t, wrap (width argty) l)] g).
  assert (eval (te ++ [argty]) g1 s (Iex_RdTmp t) = Some (wrap (width argty) l)) as Hrd.
  { cbn [eval]. unfold g1, write, t. cbn [foldl fst snd]. rewrite fn_lookup_insert, typeOfIRTemp_new.
    by rewrite wrap_id by apply width_nonneg. }
  assert (eval (te ++ [argty]) g1 s (match cvtOp_of cvt with None => Iex_RdTmp t | Some cvtOp => Iex_Unop cvtOp (Iex_RdTmp t) end) = Some c) as Hcv.
  { unfold convert in Hc. destruct (cvtOp_of cvt); [|by rewrite Hrd].
    change (eval (te ++ [argty]) g1 s (Iex_Unop i (Iex_RdTmp t))) with
      (x ← eval (te ++ [argty]) g1 s (Iex_RdTmp t); wrap (width (typeOfPrimop i).1) <$> eval_unop i x). by rewrite Hrd. }
  rewrite Hcv. eexists. split; [done|]. split; [done|]. intros u Hw. apply (write_agree [(dst, c)] f g1 (within (length te))); [|done].
  intros u' Hw' _. unfold g1. rewrite write_other; [by apply Hfg|]. cbn. intros ->%list_elem_of_singleton. unfold within in Hw'. lia.
Qed.

Lemma two_places {A} (l : list A) k a b : l !! k = Some a -> l !! S k = Some b ->
  ∃ l1 l2, l = l1 ++ [a; b] ++ l2 ∧ length l1 = k ∧ ∀ a' b', <[S k := b']> (<[k := a']> l) = l1 ++ [a'; b'] ++ l2.
Proof.
  intros H1 H2. exists (take k l), (drop (S (S k)) l). pose proof (lookup_lt_Some _ _ _ H2) as Hlt.
  assert (length (take k l) = k) as Hk by (rewrite length_take; lia).
  assert (l = take k l ++ [a; b] ++ drop (S (S k)) l) as Hl.
  { rewrite <- (take_drop k l) at 1. f_equal. rewrite (drop_S _ _ _ H1), (drop_S _ _ _ H2). done. }
  split_and!; [done|done|]. intros a' b'. rewrite Hl at 1.
  rewrite insert_app_r_alt by lia. rewrite Hk, Nat.sub_diag. cbn [app].
  change (<[0%nat := a']> (a :: b :: drop (S (S k)) l)) with (a' :: b :: drop (S (S k)) l).
  rewrite insert_app_r_alt by lia. rewrite Hk, Nat.sub_succ_l, Nat.sub_diag by lia. done.
Qed.

Lemma fixup_at_lookup te out ix : fixup_at te out ix -> ∃ k, ix = Z.of_nat k ∧ out !! k = Some Ist_NoOp ∧
  ∃ en cvt dst addr alt g, out !! S k = Some (Ist_LoadG en cvt dst addr alt g).
Proof. intros (k & en & cvt & dst & addr & alt & ty & -> & H1 & H2 & _). eauto 12. Qed.

Definition below_out te out : Prop := Forall (below (length te)) out.

(** The guarded loads that remain, those of the fixups excepted. *)
Definition loads_fixed out out' (fixups : list Z) : Prop :=
  ∀ k st, out' !! k = Some st -> true_load st = true -> out !! k = Some st ∧ Z.of_nat k - 1 ∉ fixups.

Lemma loads_fixed_app out out1 out' f1 f2 : loads_fixed out out1 f1 -> loads_fixed out1 out' f2 -> loads_fixed out out' (f1 ++ f2).
Proof.
  intros H1 H2 k st Hk Ht. destruct (H2 _ _ Hk Ht) as [Hk1 Hn2]. destruct (H1 _ _ Hk1 Ht) as [Hk0 Hn1]. split; [done|].
  by intros [|]%elem_of_app.
Qed.

Lemma cprop_fixup_spec te out ix : below_out te out -> fixup_at te out ix ->
  ∃ te' out', cprop_fixup ix (te, out) = Ret (te', out') ∧ below_out te' out' ∧
    length te' = S (length te) ∧ loads_fixed out out' [ix] ∧ (∀ t, within (length te) t -> typeOfIRTemp te' t = typeOfIRTemp te t) ∧
    sim te te' (agree (length te)) out out' (agree (length te)) ∧
    ∀ ix', ix' ≠ ix -> fixup_at te out ix' -> fixup_at te' out' ix'.
Proof.
  intros Hb Hfix. pose proof Hfix as (k & en & cvt & dst & addr & alt & argty & -> & H1 & H2 & Hty).
  destruct (two_places _ _ _ _ H1 H2) as (l1 & l2 & Hout & Hk & Hins).
  pose proof (lookup_lt_Some _ _ _ H2) as Hlt.
  set (t := Z.of_nat (length te)).
  set (ld := Ist_WrTmp t (Iex_Load en argty addr)).
  set (cv := Ist_WrTmp dst (match cvtOp_of cvt with None => Iex_RdTmp t | Some cvtOp => Iex_Unop cvtOp (Iex_RdTmp t) end)).
  assert (below (length te) (Ist_LoadG en cvt dst addr alt (Iex_Const (Ico_U1 true)))) as Hbl.
  { unfold below_out in Hb. rewrite Forall_lookup in Hb. by apply (Hb _ _ H2). }
  exists (te ++ [argty]), (<[S k := cv]> (<[k := ld]> out)).
  assert (length (te ++ [argty]) = S (length te)) as Hlen by (rewrite length_app; cbn; lia).
  split_and!.
  - unfold cprop_fixup. replace ((0 <=? Z.of_nat k) && (Z.of_nat k + 1 <? Z.of_nat (length out))) with true by lia.
    cbn [vg_assert mbind outcome_bind]. rewrite (arr_get_Some out (Z.of_nat k) _ ltac:(lia) ltac:(rewrite Nat2Z.id; exact H1)).
    cbn [mbind outcome_bind]. replace (Z.of_nat k + 1) with (Z.of_nat (S k)) by lia. rewrite (arr_get_Some out (Z.of_nat (S k)) _ ltac:(lia) ltac:(rewrite Nat2Z.id; exact H2)).
    cbn [mbind outcome_bind vg_assert const_guard same_const_tag]. rewrite con_U1_own. cbn [vg_assert mbind outcome_bind].
    rewrite Hty. cbn [newIRTemp]. rewrite arr_set_in_range by lia. cbn [mbind outcome_bind].
    rewrite arr_set_in_range by (rewrite length_insert; lia). cbn [mbind outcome_bind]. by rewrite !Nat2Z.id.
  - unfold below_out. rewrite Hins, Hlen. unfold below_out in Hb. rewrite Hout in Hb.
    apply Forall_app in Hb as [Hb1 [_ Hb2]%Forall_app].
    assert (∀ l, Forall (below (length te)) l -> Forall (below (S (length te))) l) as Hmono.
    { intros l H. eapply Forall_impl; [exact H|]. intros. eapply below_mono; [|done]. lia. }
    apply Forall_app. split; [auto|]. apply Forall_app. split; [|auto].
    apply (below_mono _ (S (length te))) in Hbl; [|lia]. destruct Hbl as [Hu Hd].
    inversion Hu as [|? ? Haddr _]; subst. assert (within (S (length te)) t) as Ht by (unfold within, t; lia).
    rewrite !Forall_cons. split_and!; [split|split|by apply Forall_nil]; cbn [exprs defs ld cv]; rewrite !Forall_singleton.
    + exact Haddr.
    + exact Ht.
    + destruct (cvtOp_of cvt); intros u ->%list_elem_of_singleton; done.
    + by inversion Hd.
  - done.
  - intros k' st Hk' Ht. destruct (decide (k' = S k)) as [->|Hn1].
    { rewrite list_lookup_insert_eq in Hk' by (rewrite length_insert; lia). by injection Hk' as <-. }
    rewrite list_lookup_insert_ne in Hk' by done. destruct (decide (k' = k)) as [->|Hn2].
    { rewrite list_lookup_insert_eq in Hk' by lia. by injection Hk' as <-. }
    rewrite list_lookup_insert_ne in Hk' by done. split; [done|]. intros Hin%list_elem_of_singleton. lia.
  - intros. by apply typeOfIRTemp_app.
  - rewrite Hins. rewrite Hout at 1. unfold below_out in Hb. rewrite Hout in Hb. apply Forall_app in Hb as [Hb1 [_ Hb2]%Forall_app].
    assert (∀ l, Forall (below (length te)) l -> sim te (te ++ [argty]) (agree (length te)) l l (agree (length te))) as Hsame.
    { intros l H. apply (sim_same te (te ++ [argty]) (within (length te))); [|done]. intros. by rewrite typeOfIRTemp_app. }
    eapply sim_app; [by apply Hsame|]. eapply sim_app; [|by apply Hsame]. by apply load_convert.
  - intros ix' Hne Hfix'. pose proof Hfix' as (k' & en' & cvt' & dst' & addr' & alt' & ty' & -> & H1' & H2' & Hty').
    exists k', en', cvt', dst', addr', alt', ty'. split; [done|].
    assert (k' ≠ k ∧ k' ≠ S k ∧ S k' ≠ k) as (Hn1 & Hn2 & Hn3).
    { split_and!; [by intros ->|intros ->; congruence|intros <-; congruence]. }
    rewrite !list_lookup_insert_ne by lia. split_and!; [done|done|].
    rewrite typeOfIRTemp_app; [done|]. unfold below_out in Hb. rewrite Forall_lookup in Hb. destruct (Hb _ _ H2') as [_ Hd]. by inversion Hd.
Qed.

Lemma sim_impl te te' Q1 Q1' Q2 Q2' l l' : (∀ f g, Q1 f g -> Q1' f g) -> (∀ f g, Q2 f g -> Q2' f g) ->
  sim te te' Q1' l l' Q2 -> sim te te' Q1 l l' Q2'.
Proof.
  intros H1 H2 H f g s r HQ Hr. destruct (H f g s r (H1 _ _ HQ) Hr) as (r' & Hr' & Hend). exists r'. split; [done|].
  destruct r as [[]|], r' as [[]|]; try done. destruct Hend; split; auto.
Qed.

Lemma sim_trans te te1 te' Q1 Q2 Q1' Q2' l l1 l' : sim te te1 Q1 l l1 Q2 -> sim te1 te' Q1' l1 l' Q2' ->
  sim te te' (fun f g => ∃ h, Q1 f h ∧ Q1' h g) l l' (fun f g => ∃ h, Q2 f h ∧ Q2' h g).
Proof.
  intros H1 H2 f g s r (h & Hq1 & Hq2) Hr. destruct (H1 _ _ _ _ Hq1 Hr) as (r1 & Hr1 & He1).
  destruct (H2 _ _ _ _ Hq2 Hr1) as (r2 & Hr2 & He2). exists r2. split; [done|].
  destruct r as [[]|], r1 as [[]|], r2 as [[]|]; try done; cbn in *; [|congruence].
  destruct He1 as [-> ?], He2 as [-> ?]. eauto.
Qed.

Lemma cprop_fixups_spec fixups : ∀ te out, below_out te out -> Forall (fixup_at te out) fixups -> NoDup fixups ->
  ∃ te' out', for_list fixups cprop_fixup (te, out) = Ret (te', out') ∧ length te' = (length te + length fixups)%nat ∧
    loads_fixed out out' fixups ∧
    (∀ t, within (length te) t -> typeOfIRTemp te' t = typeOfIRTemp te t) ∧
    sim te te' (agree (length te)) out out' (agree (length te)).
Proof.
  induction fixups as [|ix fixups IH]; intros te out Hb Hf Hn.
  - exists te, out. split_and!; [done|cbn; lia|intros k st Hk _; split; [done|apply not_elem_of_nil]|done|]. apply (sim_same te te (within (length te))); done.
  - inversion Hf as [|? ? Hix Hrest]; subst. inversion Hn as [|? ? Hnin Hn']; subst.
    destruct (cprop_fixup_spec te out ix Hb Hix) as (te1 & out1 & Hr & Hb1 & Hlen & Hfix1 & Hty & Hsim & Hkeep).
    destruct (IH te1 out1 Hb1) as (te2 & out2 & Hr2 & Hlen2 & Hfix2 & Hty2 & Hsim2); [|done|].
    { apply Forall_forall. intros ix' Hin. rewrite Forall_forall in Hrest. apply Hkeep; [by intros ->|auto]. }
    exists te2, out2. cbn [for_list]. rewrite Hr. cbn [mbind outcome_bind]. split_and!; [done|cbn; lia|by apply (loads_fixed_app out out1 out2 [ix])| |].
    + intros t Ht. rewrite Hty2, Hty; [done|done|]. eapply within_mono; [|exact Ht]. lia.
    + eapply sim_impl; [| |exact (sim_trans _ _ _ _ _ _ _ _ _ _ Hsim Hsim2)].
      * intros f g Hfg. exists g. by split.
      * intros f g (h & Hfh & Hhg) t Ht. rewrite (Hfh t Ht). apply Hhg. eapply within_mono; [|exact Ht]. lia.
Qed.
End Fixups.

(** ** The pass *)

Section Pass.
Context `{M : Machine St} `{E : Effects St} (bb : IRSB) (gw : IRType) (Hbb : checked_IRSB bb gw).
Notation te := (tyenv bb).

Lemma replicate_undefined n t : ¬ defined (replicate n 0) t.
Proof.
  unfold defined, useBeforeDef_Temp. intros H. b2p. rewrite length_replicate in *.
  rewrite lookup_total_replicate_2 in * by lia. lia.
Qed.

Lemma cprop_BB_WRK_spec retain b (G : list IRStmt -> Cprop -> Prop)
  (Hret : ∀ dc x t e l, env_ok te gw dc (c_env x) -> length dc = length te -> flatExpr e = true -> tcExpr te gw e = true ->
     uses_in (defined dc) e -> G (Ist_WrTmp t e :: l) x -> ∃ e', subst_fold (Z.of_nat (length te)) b (c_env x) e = Ret e')
  (Hstep : ∀ dc dc' x y o st l, G (st :: l) x -> cprop_Stmt (Z.of_nat (length te)) retain b st x = Ret y ->
     stepped te gw dc dc' st x y o -> G l y) :
  G (stmts bb) {| c_env := ∅; c_out := []; c_fixups := [] |} ->
  ∃ out, cprop_BB_WRK bb retain b = Ret out ∧ (∀ f g s r, exec_IRSB bb f s = Some r -> exec_IRSB out g s = Some r) ∧
    let n := Z.of_nat (length (tyenv out)) - Z.of_nat (length te) in
    0 <= n <= N_FIXUPS ∧ (n < N_FIXUPS -> Forall (fun st => true_load st = false) (stmts out)).
Proof.
  intros HG. destruct (checked_block_ok bb gw Hbb) as (Hok & Hatom & Hty & _). unfold cprop_BB_WRK. cbv zeta.
  destruct (cprop_Stmts_spec te gw retain b G Hret Hstep (stmts bb) (next bb) _ {| c_env := ∅; c_out := []; c_fixups := [] |} Hok)
    as (y & o & dc & Hy & Ho & Henv & Hlen & Hout & Hu & Hsim); cbn [c_env c_out c_fixups]; [by split| |done|].
  { split; [constructor|constructor|constructor|done|by intros _ k st]. }
  cbn [c_out app] in Ho. rewrite Hy. cbn [mbind outcome_bind].
  destruct (subst_atom te gw dc (c_env y) Henv Hlen (next bb) Hatom Hu) as (next2 & -> & Hnext). cbn [mbind outcome_bind].
  replace (Z.of_nat (length (c_fixups y)) <=? N_FIXUPS) with true by (pose proof (out_few _ _ _ Hout); lia).
  cbn [vg_assert mbind outcome_bind].
  destruct (cprop_fixups_spec (c_fixups y) te (c_out y)) as (te' & out' & -> & Hlen' & Hfixed & Htys & Hsim2); [apply Hout..|].
  cbn [mbind outcome_bind fst snd]. eexists. split; [done|]. cbn [tyenv stmts]. pose proof (out_few _ _ _ Hout).
  split; [intros f g s r|cbv zeta; split; [lia|intros Hlt; apply Forall_lookup; intros k st Hk]].
  2: { destruct (true_load st) eqn:Ht; [|done]. destruct (Hfixed _ _ Hk Ht) as [Hk' Hn]. destruct Hn.
    apply (out_fixed _ _ _ Hout) with (st := st); [lia|done|done]. }
  apply (sim_IRSB (fun f g => ∃ h, inv te (replicate (length te) 0) ∅ f h ∧ agree (length te) h g)
                  (fun f g => ∃ h, inv te dc (c_env y) f h ∧ agree (length te) h g)); try done.
  - cbn [stmts tyenv]. eapply sim_trans; [|exact Hsim2]. by rewrite Ho.
  - cbn [next tyenv]. clear f g s r. intros f g s (h & [Hh Ha] & Hhg).
    assert (uses_in (same_at te te' f g) next2) as Hsame.
    { eapply uses_in_mono; [|apply (ex_kept _ _ _ _ _ _ Hnext)]. intros t Ht.
      assert (within (length te) t) as Hw.
      { destruct Ht as [Ht _]. unfold defined, useBeforeDef_Temp, within in *. b2p. lia. }
      split; [by rewrite (Ha t Ht), (Hhg t Hw)|by rewrite Htys]. }
    split.
    + by rewrite <- (type_same _ _ _ _ _ Hsame), (ex_ty _ _ _ _ _ _ Hnext).
    + intros v Hv. rewrite <- (eval_same _ _ _ _ _ _ Hsame). by apply (ex_eval _ _ _ _ _ _ Hnext).
  - exists g. split; [|done]. split; [by intros t e|]. intros t [Ht _]. by apply replicate_undefined in Ht.
Qed.
End Pass.

(** C37: The pass that propagates copies and constants preserves the meaning of a block.
    For every block that passes [sanityCheckIRSB] with flatness, and whose dirty calls
    and last expression use only temporaries that are defined (which [sanityCheckIRSB]
    does not check), with or without folding and with or without the no-ops: if
    [cprop_BB_WRK] returns a block, then whatever the given block does from a state, the
    new one does from that state, with the same guest state, memory and destination in
    the end, whatever its temporaries contain before. This covers the guarded loads,
    stores and exits whose guards become constants, and the pairs of load and conversion
    that replace them. *)
Theorem cprop_BB_sound `{M : Machine St} `{E : Effects St} (bb out : IRSB) (gw : IRType) (mustRetainNoOps doFolding : bool)
  (Hbb : checked_IRSB bb gw) (Hout : cprop_BB_WRK bb mustRetainNoOps doFolding = Ret out) :
  ∀ tmps tmps' s r, exec_IRSB bb tmps s = Some r -> exec_IRSB out tmps' s = Some r.
Proof.
  destruct (cprop_BB_WRK_spec bb gw Hbb mustRetainNoOps doFolding
    (fun l x => ∃ y, for_list l (cprop_Stmt (Z.of_nat (length (tyenv bb))) mustRetainNoOps doFolding) x = Ret y))
    as (out' & Hout' & H).
  - intros dc x t e l _ _ _ _ _ [y Hy]. cbn [for_list] in Hy. apply bind_ret_inv in Hy as (x1 & Hx1 & _).
    unfold cprop_Stmt in Hx1. cbn [andb subst_and_maybe_fold_Stmt] in Hx1.
    destruct (subst_fold _ _ _ e) as [e'|]; [by eexists|done].
  - intros dc dc' x y o st l [z Hz] Hy _. cbn [for_list] in Hz. rewrite Hy in Hz. by exists z.
  - unfold cprop_BB_WRK in Hout. cbv zeta in Hout. apply bind_ret_inv in Hout as (y & Hy & _). by exists y.
  - rewrite Hout in Hout'. injection Hout' as <-. apply H.
Qed.

(** ** What the pass does not return from *)

(** The operators that [fold_Expr] does not fold for every constant. *)
Definition foldable (e : IRExpr) : bool :=
  match e with Iex_Unop (Iop_Left32 | Iop_Left64) _ | Iex_Binop Iop_Max32U _ _ => false | _ => true end.
Definition foldable_Stmt (st : IRStmt) : bool := forallb (fun e => no_F32i_F64i e && foldable e) (exprs st).

Lemma subst_foldable n env e e1 : foldable e = true -> subst_Expr n env e = Ret e1 -> unfoldable e1 = None.
Proof.
  intros Hf. destruct e; cbn [subst_Expr]; intros Hs.
  all: repeat match type of Hs with (_ ≫= _) = Ret _ => apply bind_ret_inv in Hs as (? & ? & Hs) end; simplify_eq; try done.
  - destruct x as [[]|]; try (injection Hs as <-; done). destruct (is_F64i con); injection Hs as <-; done.
  - by destruct op.
  - by destruct op.
Qed.

Lemma env_ok_acyclic `{M : Machine St} te gw dc env : env_ok te gw dc env -> env_acyclic env.
Proof.
  intros Hok. exists (fun t => match env !! t with Some (Iex_RdTmp _) => 1%nat | _ => 0%nat end).
  intros t u Ht. rewrite Ht. destruct (env_ok_bound _ _ _ _ Hok _ _ Ht) as [_ Hu].
  destruct (Hu u) as [_ Hp]; [by apply list_elem_of_singleton|]. destruct (env !! u) as [[]|]; try lia. discriminate Hp.
Qed.

(** C38: The pass that propagates copies and constants returns. On every block that passes
    [sanityCheckIRSB] with flatness, and whose dirty calls and last expression use only
    temporaries that are defined, it returns a block, if no expression holds a constant of
    the kinds F32i and F64i or the operators [Left32], [Left64] and [Max32U], which
    [fold_Expr] does not return from for every constant: no index leaves the array [env],
    no temporary is bound twice, no assertion fails, and every fixup finds its guarded load.
    At most sixteen guarded loads whose guard is true become a load, with a new temporary
    each; if there are fewer, no such guarded load is left. *)
Theorem cprop_BB_returns `{M : Machine St} (bb : IRSB) (gw : IRType) (mustRetainNoOps doFolding : bool)
  (Hbb : checked_IRSB bb gw) (Hfold : forallb foldable_Stmt (stmts bb) = true) :
  ∃ out, cprop_BB_WRK bb mustRetainNoOps doFolding = Ret out ∧
    let loads := Z.of_nat (length (tyenv out)) - Z.of_nat (length (tyenv bb)) in
    0 <= loads <= 16 ∧ (loads < 16 -> existsb true_load (stmts out) = false).
Proof.
  destruct (cprop_BB_WRK_spec (E := no_effects St) bb gw Hbb mustRetainNoOps doFolding
    (fun l x => env_floats (c_env x) ∧ forallb foldable_Stmt l = true)) as (out & Hout & _ & Hn & Hfew); [| |by split|].
  - intros dc x t e l Henv Hlen Hfl Htc Hu [Hfloats Hl]. cbn [forallb] in Hl. apply andb_true_iff in Hl as [He _].
    unfold foldable_Stmt in He. cbn [exprs forallb] in He. b2p. unfold subst_fold.
    destruct (subst_flat (tyenv bb) gw dc (c_env x) Henv Hlen e Hfl Htc Hu) as (e1 & He1 & Hok). rewrite He1. cbn [mbind outcome_bind].
    destruct doFolding; [|by exists e1]. cbn [fold_Expr].
    apply (fold_Expr_WRK_returns (tyenv bb) gw (c_env x)).
    + apply Henv.
    + by eapply env_ok_acyclic.
    + exact Hfloats.
    + by apply (ex_tc _ _ _ _ _ _ Hok).
    + by apply (ex_flat _ _ _ _ _ _ Hok).
    + by apply (ex_floats _ _ _ _ _ _ Hok).
    + by eapply subst_foldable.
  - intros dc dc' x y o st l [Hfloats Hl] _ Hst. cbn [forallb] in Hl. apply andb_true_iff in Hl as [He Hl]. split; [|done].
    apply (st_floats _ _ _ _ _ _ _ _ Hst); [done|]. unfold foldable_Stmt in He. clear -He.
    induction (exprs st) as [|e l IH]; constructor; cbn [forallb] in He; b2p; [done|]. by apply IH.
  - exists out. split; [done|]. split; [exact Hn|]. intros Hlt. apply Hfew in Hlt. clear -Hlt.
    induction Hlt as [|st l Hst _ IH]; [done|]. cbn [existsb]. by rewrite Hst, IH.
Qed.

(** ** Concrete inputs *)

(** t0 := CmpEQ32(5,5); t1 := 7; t2 := if (t0) 8Uto32(LDle(t1)) else 0; t3 := Add32(t2,0);
    PUT(16) := t3; goto t1. *)
Definition small_block : IRSB :=
  {| tyenv := [Ity_I1; Ity_I64; Ity_I32; Ity_I32];
     stmts := [Ist_WrTmp 0 (Iex_Binop Iop_CmpEQ32 (Iex_Const (Ico_U32 5)) (Iex_Const (Ico_U32 5)));
               Ist_WrTmp 1 (Iex_Const (Ico_U64 7));
               Ist_LoadG Iend_LE ILGop_8Uto32 2 (Iex_RdTmp 1) (Iex_Const (Ico_U32 0)) (Iex_RdTmp 0);
               Ist_WrTmp 3 (Iex_Binop Iop_Add32 (Iex_RdTmp 2) (Iex_Const (Ico_U32 0)));
               Ist_Put 16 (Iex_RdTmp 3)];
     next := Iex_RdTmp 1; jumpkind := Ijk_Boring; offsIP := 184 |}.

(** t4 := LDle(7); t2 := 8Uto32(t4); PUT(16) := t2; goto 7. *)
Definition small_block_out : IRSB :=
  {| tyenv := [Ity_I1; Ity_I64; Ity_I32; Ity_I32; Ity_I8];
     stmts := [Ist_WrTmp 4 (Iex_Load Iend_LE Ity_I8 (Iex_Const (Ico_U64 7)));
               Ist_WrTmp 2 (Iex_Unop Iop_8Uto32 (Iex_RdTmp 4));
               Ist_Put 16 (Iex_RdTmp 2)];
     next := Iex_Const (Ico_U64 7); jumpkind := Ijk_Boring; offsIP := 184 |}.

Lemma cprop_BB_sound_witness :
  @exec_IRSB _ log_machine log_effects small_block_out (fun _ => 0) [] = Some ([(184, 7); (16, 7)], 7, Ijk_Boring).
Proof.
  apply (@cprop_BB_sound _ log_machine log_effects small_block small_block_out Ity_I64 false true) with (tmps := fun _ => 0).
  - split; vm_compute; reflexivity.
  - vm_compute. reflexivity.
  - vm_compute. reflexivity.
Defined.

Lemma cprop_BB_returns_witness :
  ∃ out, cprop_BB_WRK small_block false true = Ret out ∧ 0 <= Z.of_nat (length (tyenv out)) - 4 <= 16.
Proof.
  destruct (@cprop_BB_returns _ log_machine small_block Ity_I64 false true) as (out & Hout & Hn & _).
  - split; vm_compute; reflexivity.
  - vm_compute. reflexivity.
  - exists out. split; [exact Hout|exact Hn].
Defined.
