(* ===== verification/IrDead.v ===== *)
(** * Removal of dead code

    vg/VEX/priv/ir_opt.c from [addUses_Temp] to [do_deadcode_BB]: assignments to
    temporaries that are not used behind them, dirty calls that are never made, and what
    follows an unconditional exit become no-ops. The debugging output ([DEBUG_IROPT]) is
    left out. *)

From Stdlib Require Import String.
From stdpp Require Import gmap strings functions.
From S2P Require Import Prelude Lanes VexIR IrStmt.
Local Open Scope Z_scope.

(** * Definitions *)

(** The array [set] has [n_tmps] entries. *)
Definition addUses_Temp (tmp : Z) (set : list bool) : outcome (list bool) := arr_set set tmp true.

Fixpoint addUses_Expr (e : IRExpr) (set : list bool) : outcome (list bool) :=
  match e with
  | Iex_GetI _ ix _ => addUses_Expr ix set
  | Iex_ITE cond iftrue iffalse =>
      set ← addUses_Expr cond set; set ← addUses_Expr iftrue set; addUses_Expr iffalse set
  | Iex_CCall _ _ args =>
      (fix loop (args : list IRExpr) (set : list bool) : outcome (list bool) :=
         match args with [] => Ret set | a :: args => set ← addUses_Expr a set; loop args set end) args set
  | Iex_Load _ _ addr => addUses_Expr addr set
  | Iex_Qop _ arg1 arg2 arg3 arg4 =>
      set ← addUses_Expr arg1 set; set ← addUses_Expr arg2 set; set ← addUses_Expr arg3 set; addUses_Expr arg4 set
  | Iex_Triop _ arg1 arg2 arg3 =>
      set ← addUses_Expr arg1 set; set ← addUses_Expr arg2 set; addUses_Expr arg3 set
  | Iex_Binop _ arg1 arg2 => set ← addUses_Expr arg1 set; addUses_Expr arg2 set
  | Iex_Unop _ arg => addUses_Expr arg set
  | Iex_RdTmp tmp => addUses_Temp tmp set
  | Iex_Const _ | Iex_Get _ _ => Ret set
  | Iex_Binder _ | Iex_VECRET | Iex_GSPTR => Fault Panic
  end.

(** For an expression that may be NULL, and then has no uses. *)
Definition addUses_opt (e : option IRExpr) (set : list bool) : outcome (list bool) :=
  match e with Some e => addUses_Expr e set | None => Ret set end.

Definition addUses_Stmt (st : IRStmt) (set : list bool) : outcome (list bool) :=
  match st with
  | Ist_AbiHint base _ nia => set ← addUses_Expr base set; addUses_Expr nia set
  | Ist_PutI _ ix _ data => set ← addUses_Expr ix set; addUses_Expr data set
  | Ist_WrTmp _ data | Ist_Put _ data => addUses_Expr data set
  | Ist_Store _ addr data => set ← addUses_Expr addr set; addUses_Expr data set
  | Ist_StoreG _ addr data guard =>
      set ← addUses_Expr addr set; set ← addUses_Expr data set; addUses_Expr guard set
  | Ist_LoadG _ _ _ addr alt guard =>
      set ← addUses_Expr addr set; set ← addUses_Expr alt set; addUses_Expr guard set
  | Ist_CAS cas =>
      set ← addUses_Expr (cas_addr cas) set; set ← addUses_opt (expdHi cas) set; set ← addUses_Expr (expdLo cas) set;
      set ← addUses_opt (dataHi cas) set; addUses_Expr (dataLo cas) set
  | Ist_LLSC _ _ addr storedata => set ← addUses_Expr addr set; addUses_opt storedata set
  | Ist_Dirty d =>
      set ← (match d_mFx d with
             | Ifx_None => Ret set
             | _ => match d_mAddr d with Some a => addUses_Expr a set | None => Fault NullDeref end
             end);
      set ← addUses_Expr (d_guard d) set;
      for_list (d_args d) (fun arg set => if negb (is_IRExpr_VECRET_or_GSPTR arg) then addUses_Expr arg set else Ret set) set
  | Ist_NoOp | Ist_IMark _ _ _ | Ist_MBE _ => Ret set
  | Ist_Exit guard _ _ _ => addUses_Expr guard set
  end.

Definition isZeroU1 (e : IRExpr) : bool := match e with Iex_Const (Ico_U1 b) => negb b | _ => false end.
Definition isOneU1 (e : IRExpr) : bool := match e with Iex_Const (Ico_U1 b) => b | _ => false end.

Definition is_NoOp (st : IRStmt) : bool := match st with Ist_NoOp => true | _ => false end.

(** The first pass, from the last statement to the first; [i] is the index of the first
    statement of [l]. The result has [i_unconditional_exit]. *)
Fixpoint deadcode_pass (i : Z) (l : list IRStmt) (set : list bool) : outcome (list IRStmt * list bool * Z) :=
  match l with
  | [] => Ret ([], set, -1)
  | st :: l =>
      r ← deadcode_pass (i + 1) l set;
      let '(l, set, i_unconditional_exit) := r in
      if is_NoOp st then Ret (st :: l, set, i_unconditional_exit)
      else
        let i_unconditional_exit :=
          match st with Ist_Exit guard _ _ _ => if isOneU1 guard then i else i_unconditional_exit | _ => i_unconditional_exit end in
        unused ← (match st with Ist_WrTmp tmp _ => used ← arr_get set tmp; Ret (negb used) | _ => Ret false end);
        if unused : bool then Ret (Ist_NoOp :: l, set, i_unconditional_exit)
        else if match st with Ist_Dirty d => isZeroU1 (d_guard d) | _ => false end then
          Ret (Ist_NoOp :: l, set, i_unconditional_exit)
        else set ← addUses_Stmt st set; Ret (st :: l, set, i_unconditional_exit)
  end.

(** The second pass. The statement at the index is an exit; other statements have no [dst]. *)
Definition do_deadcode_BB (bb : IRSB) : outcome IRSB :=
  let n_tmps := length (tyenv bb) in
  set ← addUses_Expr (next bb) (replicate n_tmps false);
  r ← deadcode_pass 0 (stmts bb) set;
  let '(stmts2, _, i_unconditional_exit) := r in
  if negb (i_unconditional_exit =? -1) then
    _ ← vg_assert ((0 <=? i_unconditional_exit) && (i_unconditional_exit <? Z.of_nat (length stmts2)));
    st ← arr_get stmts2 i_unconditional_exit;
    match st with
    | Ist_Exit _ jk dst offs =>
        stmts2 ← for_up i_unconditional_exit (Z.of_nat (length stmts2)) (fun i l => arr_set l i Ist_NoOp) stmts2;
        Ret {| tyenv := tyenv bb; stmts := stmts2; next := Iex_Const dst; jumpkind := jk; offsIP := offs |}
    | _ => Fault OutOfBounds
    end
  else Ret {| tyenv := tyenv bb; stmts := stmts2; next := next bb; jumpkind := jumpkind bb; offsIP := offsIP bb |}.

(** * Lemmas *)

(** ** The set of used temporaries *)

Definition marked (set : list bool) (t : Z) : Prop := 0 <= t ∧ set !! Z.to_nat t = Some true.

(** [set'] has the temporaries of [set] and those of [l]. *)
Definition adds (l : list Z) (set set' : list bool) : Prop :=
  length set' = length set ∧ ∀ t, marked set' t <-> t ∈ l ∨ marked set t.

Lemma adds_nil set : adds [] set set.
Proof. split; [done|]. intros t. rewrite elem_of_nil. tauto. Qed.
Lemma adds_app l1 l2 set set1 set2 : adds l1 set set1 -> adds l2 set1 set2 -> adds (l1 ++ l2) set set2.
Proof.
  intros [H1 H1'] [H2 H2']. split; [congruence|]. intros t. rewrite H2', H1', elem_of_app. tauto.
Qed.

Lemma addUses_Temp_adds t set set' : addUses_Temp t set = Ret set' -> adds [t] set set'.
Proof.
  intros [Hr ->]%arr_set_inv. split; [by rewrite length_insert|]. intros u. unfold marked. rewrite list_elem_of_singleton.
  destruct (decide (u = t)) as [->|Hne].
  - rewrite list_lookup_insert_eq by lia. split; [by left|]. intros _. split; [lia|done].
  - split.
    + intros [Hu H]. rewrite list_lookup_insert_ne in H by lia. auto.
    + intros [->|[Hu H]]; [done|]. rewrite list_lookup_insert_ne by lia. auto.
Qed.

Ltac inv_binds :=
  repeat match goal with H : (_ ≫= _) = Ret _ |- _ => apply bind_ret_inv in H as (? & ? & H) end.

Lemma addUses_Expr_adds e : ∀ set set', addUses_Expr e set = Ret set' -> adds (temps e) set set'.
Proof.
  induction e as [| |d ix b IH|t|op a b c d IHa IHb IHc IHd|op a b c IHa IHb IHc|op a b IHa IHb|op a IHa
    |en ty a IHa| |cee ty args IH|a b c IHa IHb IHc| |] using IRExpr_deep_ind; cbn [addUses_Expr temps]; intros set set' H; inv_binds; try done;
    try (injection H as <-; apply adds_nil); eauto 10 using adds_app.
  - by apply addUses_Temp_adds.
  - revert set H. induction IH as [|a args IHa _ IHargs]; intros set H; cbn [fmap list_fmap concat].
    + injection H as <-. apply adds_nil.
    + inv_binds. eapply adds_app; [by apply IHa|by apply IHargs].
Qed.

Lemma addUses_opt_adds e set set' : addUses_opt e set = Ret set' -> adds (concat (temps <$> option_list e)) set set'.
Proof.
  destruct e as [e|]; cbn.
  - intros H. rewrite app_nil_r. by apply addUses_Expr_adds.
  - intros [= <-]. apply adds_nil.
Qed.

Definition uses (st : IRStmt) : list Z := concat (temps <$> exprs st).

Lemma elem_of_uses st t : t ∈ uses st <-> ∃ e, e ∈ exprs st ∧ t ∈ temps e.
Proof.
  unfold uses. induction (exprs st) as [|e l IH]; cbn [fmap list_fmap concat].
  - rewrite elem_of_nil. split; [done|]. intros (e & H & _). by apply elem_of_nil in H.
  - rewrite elem_of_app, IH. setoid_rewrite elem_of_cons. naive_solver.
Qed.

Lemma adds_ext l l' set set' : (∀ t, t ∈ l <-> t ∈ l') -> adds l set set' -> adds l' set set'.
Proof. intros H [H1 H2]. split; [done|]. intros t. by rewrite H2, H. Qed.

Lemma addUses_args_adds l : ∀ set set',
  for_list l (fun arg set => if negb (is_IRExpr_VECRET_or_GSPTR arg) then addUses_Expr arg set else Ret set) set = Ret set' ->
  adds (concat (temps <$> l)) set set'.
Proof.
  induction l as [|a l IH]; intros set set' H; cbn [for_list fmap list_fmap concat] in *; [injection H as <-; apply adds_nil|].
  inv_binds. eapply adds_app; [|by apply IH]. destruct (is_IRExpr_VECRET_or_GSPTR a) eqn:Ea; cbn [negb] in *.
  - match goal with H : Ret _ = Ret _ |- _ => injection H as <- end. destruct a; try done; apply adds_nil.
  - by apply addUses_Expr_adds.
Qed.

Lemma addUses_Stmt_adds st set set' : addUses_Stmt st set = Ret set' -> adds (uses st) set set'.
Proof.
  unfold uses. destruct st; cbn [addUses_Stmt exprs]; intros H; inv_binds;
    try (cbn [fmap list_fmap concat]; rewrite ?app_nil_r;
         first [injection H as <-; apply adds_nil | solve [eauto 10 using adds_app, addUses_Expr_adds]]);
    rewrite !fmap_app, !concat_app.
  - cbn [fmap list_fmap concat]. rewrite !app_nil_r.
    repeat (eapply adds_app; [eauto using addUses_Expr_adds, addUses_opt_adds|]). eauto using addUses_Expr_adds.
  - cbn [fmap list_fmap concat]. rewrite app_nil_r. eapply adds_app; eauto using addUses_Expr_adds, addUses_opt_adds.
  - match goal with H1 : match d_mFx d with _ => _ end = Ret ?y |- _ =>
      assert (adds (concat (temps <$> option_list (addr_of (d_mFx d) (d_mAddr d)))) set y) as Ha end.
    { destruct (d_mFx d), (d_mAddr d); try done; by apply addUses_opt_adds. }
    eapply adds_ext.
    2: { eapply adds_app; [exact Ha|]. eapply adds_app; [by apply addUses_Expr_adds|by apply addUses_args_adds]. }
    intros t. cbn [fmap list_fmap concat]. rewrite !elem_of_app, elem_of_nil. tauto.
Qed.

(** ** The first pass *)

(** A dirty call that is never made, and what it would write: the deletion loses the
    write of the temporary, so that none is allowed here. *)
Definition silent (st : IRStmt) : bool :=
  match st with Ist_Dirty d => negb (isZeroU1 (d_guard d)) || (d_tmp d =? IRTemp_INVALID) | _ => true end.

(** The side exits that are always taken, the calls that are never made, and what may be
    deleted. *)
Definition unconditional (st : IRStmt) : bool := match st with Ist_Exit g _ _ _ => isOneU1 g | _ => false end.
Definition never_made (st : IRStmt) : bool := match st with Ist_Dirty d => isZeroU1 (d_guard d) | _ => false end.
Definition deletable (st : IRStmt) : bool := match st with Ist_WrTmp _ _ => true | _ => never_made st end.

(** The index of the first unconditional exit, or the length. *)
Fixpoint first_exit (l : list IRStmt) : nat :=
  match l with [] => 0 | st :: l => if unconditional st then 0 else S (first_exit l) end.

Lemma first_exit_spec l : existsb unconditional l = true ->
  ∃ g jk dst o, l !! first_exit l = Some (Ist_Exit g jk dst o) ∧ isOneU1 g = true.
Proof.
  induction l as [|st l IH]; [done|]. cbn [existsb first_exit]. destruct (unconditional st) eqn:Hu; cbn [orb lookup].
  - intros _. destruct st; try done. by repeat eexists.
  - exact IH.
Qed.

Lemma first_exit_none l : existsb unconditional l = false -> first_exit l = length l.
Proof.
  induction l as [|st l IH]; [done|]. cbn [existsb first_exit length]. destruct (unconditional st); [done|]. cbn [orb]. auto.
Qed.

(** The first pass deletes or keeps, and finds the first unconditional exit. *)
Definition pruned_to (st st' : IRStmt) : Prop := st' = st ∨ deletable st = true ∧ st' = Ist_NoOp.

Lemma pruned_unconditional st st' : pruned_to st st' -> unconditional st' = unconditional st.
Proof. intros [->|[Hd ->]]; [done|]. by destruct st. Qed.

Lemma deadcode_pass_exit l : ∀ i set l' set' x, deadcode_pass i l set = Ret (l', set', x) ->
  Forall2 pruned_to l l' ∧ Forall (fun st => never_made st = false) l' ∧
  x = if existsb unconditional l then i + Z.of_nat (first_exit l) else -1.
Proof.
  induction l as [|st l IH]; intros i set l' set' x; cbn [deadcode_pass]; [by intros [= <- <- <-]|].
  intros H. apply bind_ret_inv in H as ([[l1 set1] x1] & Hl1 & H). destruct (IH _ _ _ _ _ Hl1) as (Hl & Hn & Hx). clear IH Hl1.
  assert (Hcons : ∀ st' y, pruned_to st st' -> never_made st' = false ->
    y = (match st with Ist_Exit guard _ _ _ => if isOneU1 guard then i else x1 | _ => x1 end) ->
    Forall2 pruned_to (st :: l) (st' :: l1) ∧ Forall (fun st => never_made st = false) (st' :: l1) ∧
    y = if existsb unconditional (st :: l) then i + Z.of_nat (first_exit (st :: l)) else -1).
  { intros st' y Hp Hm ->. split; [by constructor|]. split; [by constructor|]. cbn [existsb first_exit].
    assert (x1 = if existsb unconditional l then i + Z.of_nat (S (first_exit l)) else -1) as Hx1.
    { rewrite Hx. destruct (existsb _ l); lia. }
    destruct st; try exact Hx1. cbn [unconditional]. destruct (isOneU1 guard); [cbn [orb]; lia|exact Hx1]. }
  destruct (is_NoOp st) eqn:Hno.
  { injection H as <- <- <-. destruct st; try done. apply Hcons; [by left|done|done]. }
  set (y := match st with Ist_Exit guard _ _ _ => if isOneU1 guard then i else x1 | _ => x1 end) in *.
  apply bind_ret_inv in H as (unused & Hu & H). destruct unused.
  { injection H as <- <- <-. apply Hcons; [right|done|done]. by destruct st. }
  change (match st with Ist_Dirty d => isZeroU1 (d_guard d) | _ => false end) with (never_made st) in H.
  destruct (never_made st) eqn:Hz.
  { injection H as <- <- <-. apply Hcons; [right|done|done]. by destruct st. }
  apply bind_ret_inv in H as (set2 & Hset2 & [= <- <- <-]). apply Hcons; [by left|done|done].
Qed.

(** The values of marked temporaries are the same. *)
Definition same_marked (set : list bool) (f g : Z -> Z) : Prop := ∀ t, marked set t -> f t = g t.

Lemma arr_get_unmarked set t : arr_get set t = Ret false -> ¬ marked set t.
Proof. intros [_ H]%arr_get_inv [_ H']. congruence. Qed.

Lemma isZeroU1_eval `{M : Machine St} te f s e v : isZeroU1 e = true -> eval te f s e = Some v -> v = 0.
Proof. destruct e; try done. destruct con; try done. destruct b; try done. by intros _ [= <-]. Qed.
Lemma isOneU1_eval `{M : Machine St} te f s e v : isOneU1 e = true -> eval te f s e = Some v -> v = 1.
Proof. destruct e; try done. destruct con; try done. destruct b; try done. by intros _ [= <-]. Qed.

Section Scan.
Context `{M : Machine St} `{E : Effects St} (te : IRTypeEnv).

Lemma sim_kept st set set1 : adds (uses st) set set1 -> sim te te (same_marked set1) [st] [st] (same_marked set).
Proof.
  intros [_ Hadds]. apply sim_Stmt.
  - intros f g s r Hfg. apply exec_same; [|done]. apply Forall_forall. intros e He t Ht. split; [|done].
    apply Hfg, Hadds. left. apply elem_of_uses. eauto.
  - intros f g w Hfg _ t Ht. apply (write_agree w f g (marked set)); [|done]. intros u Hu _. apply Hfg, Hadds. auto.
Qed.

Lemma sim_unused st set : (∀ t, t ∈ defs st -> ¬ marked set t) -> 
  (∀ f s r, exec_Stmt te f s st = Some r -> ∃ w, r = Go w s) ->
  sim te te (same_marked set) [st] [Ist_NoOp] (same_marked set).
Proof.
  intros Hd He f g s r Hfg. cbn [exec_Stmts]. intros (x & Hx & Hr)%bind_Some. destruct (He _ _ _ Hx) as [w ->].
  injection Hr as <-. eexists. split; [done|]. split; [done|]. intros t Ht. rewrite write_other; [by apply Hfg|].
  rewrite (exec_Go _ _ _ _ _ _ Hx). intros Hin. by apply (Hd _ Hin).
Qed.

Lemma deadcode_pass_sim l : ∀ i set l' set' x, Forall (fun st => silent st = true) l -> deadcode_pass i l set = Ret (l', set', x) ->
  sim te te (same_marked set') l l' (same_marked set).
Proof.
  induction l as [|st l IH]; intros i set l' set' x Hs; cbn [deadcode_pass].
  - intros [= <- <- <-]. by apply sim_nil.
  - inversion Hs as [|? ? Hst Hs']; subst. intros H. apply bind_ret_inv in H as ([[l1 set1] x1] & Hl1 & H).
    pose proof (IH _ _ _ _ _ Hs' Hl1) as Hsim.
    assert (∀ st', sim te te (same_marked set1) [st] [st'] (same_marked set1) -> sim te te (same_marked set1) (st :: l) (st' :: l1) (same_marked set)) as Hcons.
    { intros st' H1. by eapply (sim_cons _ _ _ _ _ _ [st']). }
    destruct (is_NoOp st) eqn:Hno.
    { injection H as <- <- <-. apply Hcons. destruct st; try done.
      apply sim_unused; [by intros t Ht%elem_of_nil|]. intros f s r [= <-]. by eexists. }
    apply bind_ret_inv in H as (unused & Hu & H). destruct unused.
    { injection H as <- <- <-. destruct st; try done. apply Hcons.
      apply bind_ret_inv in Hu as (used & Hused & [= ->%negb_true_iff]). apply sim_unused.
      - intros t ->%list_elem_of_singleton. by apply arr_get_unmarked.
      - cbn [exec_Stmt]. intros f s r (v & _ & [= <-])%bind_Some. by eexists. }
    destruct (match st with Ist_Dirty d => isZeroU1 (d_guard d) | _ => false end) eqn:Hz.
    { injection H as <- <- <-. destruct st; try done. apply Hcons.
      cbn [silent] in Hst. rewrite Hz in Hst. cbn [negb orb] in Hst. apply sim_unused.
      - cbn [defs]. rewrite Hst. cbn [negb]. by intros t Ht%elem_of_nil.
      - cbn [exec_Stmt]. intros f s r (? & _ & (? & _ & (v & Hv & Hr)%bind_Some)%bind_Some)%bind_Some.
        apply (isZeroU1_eval _ _ _ _ _ Hz) in Hv as ->. injection Hr as <-. by eexists. }
    apply bind_ret_inv in H as (set2 & Hset2 & [= <- <- <-]).
    eapply (sim_cons _ _ _ _ _ _ [st]); [|exact Hsim]. by apply sim_kept, addUses_Stmt_adds.
Qed.
End Scan.

(** ** The second pass *)

Lemma for_up_NoOp l k n : (k + n = length l)%nat ->
  for_up (Z.of_nat k) (Z.of_nat (length l)) (fun i l => arr_set l i Ist_NoOp) l = Ret (take k l ++ replicate n Ist_NoOp).
Proof.
  revert l k. induction n as [|n IH]; intros l k Hk; unfold for_up in *.
  - replace (Z.of_nat (length l) - Z.of_nat k) with 0 by lia. cbn. by rewrite app_nil_r, take_ge by lia.
  - rewrite seqZ_cons by lia. cbn [for_list]. rewrite arr_set_in_range, Nat2Z.id by lia. cbn [mbind outcome_bind].
    specialize (IH (<[k := Ist_NoOp]> l) (S k)). rewrite length_insert in IH.
    replace (Z.pred (Z.of_nat (length l) - Z.of_nat k)) with (Z.of_nat (length l) - Z.of_nat (S k)) by lia.
    rewrite <- Nat2Z.inj_succ, IH by lia. f_equal. rewrite (take_S_r _ _ Ist_NoOp) by (apply list_lookup_insert_eq; lia).
    rewrite take_insert_ge by lia. by rewrite <- app_assoc.
Qed.

Lemma forallb_Forall {A} (p : A -> bool) l : forallb p l = true -> Forall (fun x => p x = true) l.
Proof. induction l as [|x l IH]; cbn; intros H; b2p; auto. Qed.

Section Block.
Context `{M : Machine St} `{E : Effects St}.

Lemma exec_NoOps te f s n : exec_Stmts te f s (replicate n Ist_NoOp) = Some (inl (f, s)).
Proof. induction n; [done|exact IHn]. Qed.

(** What follows an unconditional exit may go, if the block ends as the exit does. *)
Lemma exec_zap bb l1 l2 g jk dst o n f s r : stmts bb = l1 ++ Ist_Exit g jk dst o :: l2 -> isOneU1 g = true ->
  exec_IRSB bb f s = Some r ->
  exec_IRSB {| tyenv := tyenv bb; stmts := l1 ++ replicate n Ist_NoOp; next := Iex_Const dst; jumpkind := jk; offsIP := o |} f s = Some r.
Proof.
  unfold exec_IRSB. intros -> Hg. cbn [stmts tyenv next jumpkind offsIP]. rewrite !exec_Stmts_app.
  intros (x & (y & Hy & Hx)%bind_Some & Hr)%bind_Some. rewrite Hy. cbn [mbind option_bind].
  destruct y as [[f1 s1]|y]; [|by injection Hx as <-]. rewrite exec_NoOps. cbn [mbind option_bind].
  cbn [exec_Stmts exec_Stmt] in Hx. apply bind_Some in Hx as (z & (v & Hv & Hz)%bind_Some & Hx).
  apply (isOneU1_eval _ _ _ _ _ Hg) in Hv as ->. cbn [Z.eqb] in Hz. injection Hz as <-. injection Hx as <-. exact Hr.
Qed.
End Block.

(** Both passes: the block after the first one, cut at the first unconditional exit. *)
Definition cut_block (bb : IRSB) (l : list IRStmt) : IRSB :=
  let k := first_exit (stmts bb) in
  let '(e, jk, o) :=
    match stmts bb !! k with
    | Some (Ist_Exit _ jk dst o) => (Iex_Const dst, jk, o)
    | _ => (next bb, jumpkind bb, offsIP bb)
    end in
  {| tyenv := tyenv bb; stmts := take k l ++ replicate (length l - k) Ist_NoOp; next := e; jumpkind := jk; offsIP := o |}.

Lemma do_deadcode_BB_cut bb set l set' x :
  addUses_Expr (next bb) (replicate (length (tyenv bb)) false) = Ret set ->
  deadcode_pass 0 (stmts bb) set = Ret (l, set', x) -> do_deadcode_BB bb = Ret (cut_block bb l).
Proof.
  intros Hset Hl. unfold do_deadcode_BB, cut_block. rewrite Hset. cbn [mbind outcome_bind]. rewrite Hl. cbn [mbind outcome_bind].
  destruct (deadcode_pass_exit _ _ _ _ _ _ Hl) as (Hp & _ & ->). pose proof (Forall2_length _ _ _ Hp) as Hlen.
  destruct (existsb unconditional (stmts bb)) eqn:Hex.
  - destruct (first_exit_spec _ Hex) as (g & jk & dst & o & Hk & _). rewrite Hk. set (k := first_exit (stmts bb)) in *.
    pose proof (lookup_lt_Some _ _ _ Hk) as Hlt. rewrite Z.add_0_l. replace (Z.of_nat k =? -1) with false by lia. cbn [negb].
    replace ((0 <=? Z.of_nat k) && (Z.of_nat k <? Z.of_nat (length l))) with true by lia. cbn [vg_assert mbind outcome_bind].
    destruct (Forall2_lookup_l _ _ _ _ _ Hp Hk) as (st & Hst & [->|[[=] _]]).
    rewrite (arr_get_Some l (Z.of_nat k) _ ltac:(lia) ltac:(rewrite Nat2Z.id; exact Hst)). cbn [mbind outcome_bind].
    by rewrite (for_up_NoOp l k (length l - k)) by lia.
  - rewrite (first_exit_none _ Hex), Hlen, lookup_ge_None_2 by lia.
    cbn [Z.eqb Z.opp negb]. by rewrite take_ge, Nat.sub_diag, app_nil_r by lia.
Qed.

(** Whatever stands behind the first pass, the cut does what it does. *)
Lemma cut_block_sound `{M : Machine St} `{E : Effects St} bb l f s r : Forall2 pruned_to (stmts bb) l ->
  exec_IRSB {| tyenv := tyenv bb; stmts := l; next := next bb; jumpkind := jumpkind bb; offsIP := offsIP bb |} f s = Some r ->
  exec_IRSB (cut_block bb l) f s = Some r.
Proof.
  intros Hp Hr. pose proof (Forall2_length _ _ _ Hp) as Hlen. unfold cut_block.
  destruct (existsb unconditional (stmts bb)) eqn:Hex.
  - destruct (first_exit_spec _ Hex) as (g & jk & dst & o & Hk & Hg). rewrite Hk.
    destruct (Forall2_lookup_l _ _ _ _ _ Hp Hk) as (st & Hst & [->|[[=] _]]).
    eapply (exec_zap {| tyenv := tyenv bb; stmts := l; next := next bb; jumpkind := jumpkind bb; offsIP := offsIP bb |}); [|exact Hg|exact Hr].
    cbn [stmts]. by rewrite (take_drop_middle _ _ _ Hst).
  - rewrite (first_exit_none _ Hex), Hlen, lookup_ge_None_2, take_ge, Nat.sub_diag, app_nil_r by lia. exact Hr.
Qed.

(** C39: The removal of dead code preserves the meaning of a block. For every block none of
    whose dirty calls with a constant false guard writes a temporary (of these the removal
    loses the write, see [dead_call_loses_write]): if [do_deadcode_BB]
    returns, then whatever the block does from given temporaries and a state, it does
    afterwards, with the same guest state, memory and destination. This covers the
    assignments that are deleted, the calls that are never made, and the end of the block
    that an unconditional exit becomes. *)
Theorem do_deadcode_BB_sound `{M : Machine St} `{E : Effects St} (bb out : IRSB)
  (Hsilent : forallb silent (stmts bb) = true) (Hout : do_deadcode_BB bb = Ret out) :
  ∀ tmps s r, exec_IRSB bb tmps s = Some r -> exec_IRSB out tmps s = Some r.
Proof.
  intros f s r Hr. pose proof Hout as Hd. unfold do_deadcode_BB in Hout. cbv zeta in Hout.
  apply bind_ret_inv in Hout as (set & Hset & Hout). apply bind_ret_inv in Hout as ([[l set'] x] & Hl & Hout).
  destruct (deadcode_pass_exit (stmts bb) 0 set l set' x Hl) as (Hp & _ & _).
  assert (Hsim : sim (tyenv bb) (tyenv bb) (same_marked set') (stmts bb) l (same_marked set)).
  { eapply deadcode_pass_sim; [by apply forallb_Forall|exact Hl]. }
  pose proof (addUses_Expr_adds _ _ _ Hset) as [_ Hnext].
  rewrite (do_deadcode_BB_cut _ _ _ _ _ Hset Hl) in Hd. injection Hd as <-. apply cut_block_sound; [exact Hp|].
  apply (sim_IRSB (same_marked set') (same_marked set) bb
    {| tyenv := tyenv bb; stmts := l; next := next bb; jumpkind := jumpkind bb; offsIP := offsIP bb |} eq_refl eq_refl Hsim) with (f := f); [|done|done].
  intros f1 g1 s1 Hfg. split; [done|]. intros v Hv. cbn [next tyenv]. rewrite <- (eval_same (tyenv bb) (tyenv bb) f1 g1); [done|].
  intros t Ht. split; [|done]. apply Hfg, Hnext. by left.
Qed.

(** ** The removal returns, and leaves nothing unused *)

Lemma addUses_Expr_returns dc e : useBeforeDef_Expr dc e = true -> ∀ set, length set = length dc ->
  ∃ set', addUses_Expr e set = Ret set' ∧ length set' = length dc.
Proof.
  intros He set Hlen. cut (∃ set', addUses_Expr e set = Ret set').
  { intros [set' H]. exists set'. split; [done|]. destruct (addUses_Expr_adds _ _ _ H). congruence. }
  revert He set Hlen.
  assert (∀ e1 set (k : list bool -> outcome (list bool)), length set = length dc ->
    (∀ set, length set = length dc -> ∃ set', addUses_Expr e1 set = Ret set') ->
    (∀ set, length set = length dc -> ∃ set', k set = Ret set') -> ∃ set', (addUses_Expr e1 set ≫= k) = Ret set') as Hbind.
  { intros e1 set k Hl H1 H2. destruct (H1 set Hl) as [set1 H]. rewrite H. apply H2.
    destruct (addUses_Expr_adds _ _ _ H). congruence. }
  induction e as [| |d ix b IH|t|op a b c d IHa IHb IHc IHd|op a b c IHa IHb IHc|op a b IHa IHb|op a IHa
    |en ty a IHa| |cee ty args IH|a b c IHa IHb IHc| |] using IRExpr_deep_ind; cbn [useBeforeDef_Expr addUses_Expr]; intros H set Hlen; b2p;
    try done; try (by eexists); eauto 10.
  - unfold useBeforeDef_Temp in H. b2p. eexists. apply arr_set_in_range. rewrite Hlen. lia.
  - revert set Hlen. induction IH as [|a args IHa _ IHargs]; intros set Hlen; [by eexists|]. cbn [forallb] in H. b2p.
    apply Hbind; auto.
Qed.

Lemma addUses_opt_returns dc o : null_or (useBeforeDef_Expr dc) o = true -> ∀ set, length set = length dc ->
  ∃ set', addUses_opt o set = Ret set' ∧ length set' = length dc.
Proof. destruct o as [e|]; cbn; intros He set Hlen; [by apply addUses_Expr_returns|by exists set]. Qed.

Lemma addUses_Stmt_returns dc st : useBeforeDef_Stmt dc st = true -> forallb (useBeforeDef_Expr dc) (unchecked st) = true ->
  ∀ set, length set = length dc -> ∃ set', addUses_Stmt st set = Ret set'.
Proof.
  intros Hu Hg set Hlen.
  destruct st; cbn [useBeforeDef_Stmt unchecked addUses_Stmt forallb] in *; b2p; try (by eexists).
  all: repeat match goal with
  | H : useBeforeDef_Expr ?dc ?e = true, Hl : length ?s = length ?dc |- context [addUses_Expr ?e ?s] =>
      let s' := fresh "set" in let Hs := fresh "Hs" in let Hl' := fresh "Hl" in
      destruct (addUses_Expr_returns _ e H s Hl) as (s' & Hs & Hl'); rewrite Hs; cbn [mbind outcome_bind]; try clear Hs
  | H : null_or (useBeforeDef_Expr ?dc) ?e = true, Hl : length ?s = length ?dc |- context [addUses_opt ?e ?s] =>
      let s' := fresh "set" in let Hs := fresh "Hs" in let Hl' := fresh "Hl" in
      destruct (addUses_opt_returns _ e H s Hl) as (s' & Hs & Hl'); rewrite Hs; cbn [mbind outcome_bind]; try clear Hs
  end; try (by eexists).
  assert (∃ set1, (match d_mFx d with
     | Ifx_None => Ret set
     | _ => match d_mAddr d with Some a => addUses_Expr a set | None => Fault NullDeref end
     end) = Ret set1 ∧ length set1 = length dc) as (set1 & -> & Hl1).
  { destruct (d_mFx d), (d_mAddr d); try done; try (by eexists); by apply addUses_Expr_returns. }
  cbn [mbind outcome_bind]. destruct (addUses_Expr_returns dc (d_guard d) ltac:(done) set1 Hl1) as (set2 & -> & Hl2). cbn [mbind outcome_bind].
  match goal with H : forallb _ (d_args d) = true |- _ => revert H end. clear -Hl2. intros H. revert set2 Hl2. induction (d_args d) as [|a l IH]; intros set2 Hl2; [by eexists|]. cbn [forallb for_list] in *. b2p.
  destruct (is_IRExpr_VECRET_or_GSPTR a); cbn [negb mbind outcome_bind orb] in *; [by apply IH|].
  assert (useBeforeDef_Expr dc a = true) as Ha by (match goal with H : _ ∨ useBeforeDef_Expr dc a = true |- _ => by destruct H end).
  destruct (addUses_Expr_returns dc a Ha set2 Hl2) as (set3 & -> & Hl3). by apply IH.
Qed.

(** Every assignment is to a temporary that a later statement uses, or [Q] holds of it. *)
Fixpoint all_used (Q : Z -> Prop) (l : list IRStmt) : Prop :=
  match l with
  | [] => True
  | st :: l =>
      (∀ t e, st = Ist_WrTmp t e -> (∃ st', st' ∈ l ∧ t ∈ uses st') ∨ Q t) ∧ all_used Q l
  end.

Lemma block_ok_used `{M : Machine St} te gw dc st l e : block_ok te gw dc (st :: l) e ->
  useBeforeDef_Stmt dc st = true ∧ forallb (useBeforeDef_Expr dc) (unchecked st) = true.
Proof.
  intros [_ _ _ _ Hd Hu]. cbn [check_defs unchecked_defined] in *. b2p.
  destruct (useBeforeDef_Stmt dc st); [auto|by destruct Hd].
Qed.

Section Returns.
Context `{M : Machine St} (te : IRTypeEnv) (gw : IRType).

Lemma deadcode_pass_returns l e : ∀ i dc set, block_ok te gw dc l e -> length set = length te ->
  ∃ l' set' x, deadcode_pass i l set = Ret (l', set', x) ∧ length set' = length te ∧
    (∀ t, marked set' t <-> (∃ st, st ∈ l' ∧ t ∈ uses st) ∨ marked set t) ∧ all_used (marked set) l'.
Proof.
  induction l as [|st l IH]; intros i dc set Hok Hlen; cbn [deadcode_pass].
  - exists [], set, (-1). split_and!; try done. intros t. split; [auto|]. intros [(st & H & _)|H]; [by apply elem_of_nil in H|done].
  - destruct (block_ok_cons _ _ _ _ _ _ Hok) as (dc1 & _ & Hok1 & _ & _ & _ & _ & Hd & _).
    destruct (IH (i + 1) dc1 set Hok1 Hlen) as (l1 & set1 & x1 & Hl1 & Hlen1 & Hm & Hused). rewrite Hl1. cbn [mbind outcome_bind].
    assert (uses Ist_NoOp = []) as Hno by done.
    assert (∀ t, marked set1 t <-> (∃ st', st' ∈ Ist_NoOp :: l1 ∧ t ∈ uses st') ∨ marked set t) as Hm0.
    { intros t. rewrite Hm. setoid_rewrite elem_of_cons. split; [naive_solver|]. intros [(st' & [->|H] & Ht)|H]; eauto.
      by apply elem_of_nil in Ht. }
    destruct (is_NoOp st) eqn:Hnop.
    { exists (st :: l1), set1, x1. by destruct st. }
    assert (∃ unused, (match st with Ist_WrTmp tmp _ => used ← arr_get set1 tmp; Ret (negb used) | _ => Ret false end) = Ret unused ∧
      (unused = false -> ∀ t e, st = Ist_WrTmp t e -> marked set1 t)) as (unused & Hu & Hwr).
    { destruct st; try (exists false; split; [done|]; intros _ ? ? [=]). destruct (Hd tmp) as [Hr _]; [by apply list_elem_of_singleton|].
      destruct (arr_get_in_range set1 tmp) as (used & Hget & Hlk); [lia|]. rewrite Hget. exists (negb used). split; [done|].
      intros ->%negb_false_iff t e' [= <- <-]. by split; [lia|]. }
    rewrite Hu. cbn [mbind outcome_bind].
    set (y := match st with Ist_Exit guard _ _ _ => if isOneU1 guard then i else x1 | _ => x1 end).
    assert (all_used (marked set) (Ist_NoOp :: l1)) as Hused0 by by split.
    destruct unused; [exists (Ist_NoOp :: l1), set1, y; by split_and!|].
    destruct (match st with Ist_Dirty d => isZeroU1 (d_guard d) | _ => false end); [exists (Ist_NoOp :: l1), set1, y; by split_and!|].
    destruct (block_ok_used _ _ _ _ _ _ Hok) as [Hu1 Hu2].
    destruct (addUses_Stmt_returns dc st Hu1 Hu2 set1) as [set2 Hset2]; [rewrite Hlen1; symmetry; apply Hok|].
    pose proof (addUses_Stmt_adds _ _ _ Hset2) as [Hl2 Hm2]. rewrite Hset2. cbn [mbind outcome_bind].
    eexists _, _, _. split; [done|]. split_and!; [congruence| |split; [|done]].
    + intros t. rewrite Hm2, Hm. setoid_rewrite elem_of_cons. naive_solver.
    + intros t e' Hst. apply Hm. by apply (Hwr eq_refl t e').
Qed.

Lemma block_ok_end l e : ∀ dc, block_ok te gw dc l e -> ∃ dc', useBeforeDef_Expr dc' e = true ∧ length dc' = length te.
Proof.
  induction l as [|st l IH]; intros dc Hok; [exists dc; split; apply Hok|].
  destruct (block_ok_cons _ _ _ _ _ _ Hok) as (dc1 & _ & Hok1 & _). eauto.
Qed.
End Returns.

Lemma all_used_mono (Q Q' : Z -> Prop) l : (∀ t, Q t -> Q' t) -> all_used Q l -> all_used Q' l.
Proof. intros H. induction l as [|st l IH]; [done|]. cbn. intros [H1 H2]. split; [|auto]. intros t e Hst. destruct (H1 t e Hst); auto. Qed.

Lemma unmarked_replicate n t : ¬ marked (replicate n false) t.
Proof. intros [_ H]. apply lookup_replicate in H as [[=] _]. Qed.

Lemma cut_no_exit bb l : Forall2 pruned_to (stmts bb) l -> existsb unconditional (stmts (cut_block bb l)) = false.
Proof.
  intros Hp. unfold cut_block. destruct (match stmts bb !! _ with Some (Ist_Exit _ _ _ _) => _ | _ => _ end) as [[e jk] o].
  cbn [stmts]. rewrite existsb_app. apply orb_false_iff. split.
  - induction Hp as [|st st' l1 l2 Hst _ IH]; [done|]. cbn [first_exit].
    destruct (unconditional st) eqn:Hu; [done|]. cbn [take existsb]. by rewrite (pruned_unconditional st st'), Hu.
  - by induction (length l - _)%nat.
Qed.

(** C40: The removal of dead code returns and is thorough. On every block that passes
    [sanityCheckIRSB] with flatness, and whose dirty calls and last expression use only
    temporaries that are defined, it returns: no index leaves the array of marks, and the
    exit that ends the block is found. The first pass keeps each statement but deletes
    assignments and the dirty calls that are never made: it leaves no such call, and
    every assignment it leaves is to a temporary that a later statement it leaves or the
    last expression uses. The second pass makes no-ops of all statements from the first
    unconditional exit on and gives the block the end of that exit, so that no
    unconditional exit is left. *)
Theorem do_deadcode_BB_thorough `{M : Machine St} (bb : IRSB) (gw : IRType) (Hbb : checked_IRSB bb gw) :
  ∃ out l, do_deadcode_BB bb = Ret out ∧
    Forall2 (fun st st' => st' = st ∨ deletable st = true ∧ st' = Ist_NoOp) (stmts bb) l ∧
    Forall (fun st => never_made st = false) l ∧ all_used (fun t => t ∈ temps (next bb)) l ∧
    existsb unconditional (stmts out) = false ∧
    let k := first_exit (stmts bb) in
    stmts out = take k l ++ replicate (length l - k) Ist_NoOp ∧
    (next out, jumpkind out, offsIP out) =
      match stmts bb !! k with
      | Some (Ist_Exit _ jk dst o) => (Iex_Const dst, jk, o)
      | _ => (next bb, jumpkind bb, offsIP bb)
      end.
Proof.
  destruct (checked_block_ok bb gw Hbb) as (Hok & _).
  destruct (block_ok_end (tyenv bb) gw (stmts bb) (next bb) _ Hok) as (dc & Hu & Hlen).
  destruct (addUses_Expr_returns dc (next bb) Hu (replicate (length (tyenv bb)) false)) as (set & Hset & Hl); [by rewrite length_replicate|].
  destruct (deadcode_pass_returns (tyenv bb) gw (stmts bb) (next bb) 0 _ set Hok) as (l & set' & x & Hpass & _ & _ & Hused); [congruence|].
  destruct (deadcode_pass_exit _ _ _ _ _ _ Hpass) as (Hp & Hn & _).
  exists (cut_block bb l), l. split; [by eapply do_deadcode_BB_cut|]. split; [exact Hp|]. split; [exact Hn|]. split; [|split].
  - eapply all_used_mono; [|exact Hused].
    intros t Ht. pose proof (addUses_Expr_adds _ _ _ Hset) as [_ Hnext]. apply Hnext in Ht as [|Ht]; [done|by apply unmarked_replicate in Ht].
  - by apply cut_no_exit.
  - unfold cut_block. by destruct (match stmts bb !! _ with Some (Ist_Exit _ _ _ _) => _ | _ => _ end) as [[e jk] o].
Qed.

(** ** Concrete inputs *)

(** t0 := 1; t1 := 2; if (1) goto 9; PUT(16) := t1; goto t0. *)
Definition exit_block : IRSB :=
  {| tyenv := [Ity_I64; Ity_I64];
     stmts := [Ist_WrTmp 0 (Iex_Const (Ico_U64 1)); Ist_WrTmp 1 (Iex_Const (Ico_U64 2));
               Ist_Exit (Iex_Const (Ico_U1 true)) Ijk_Call (Ico_U64 9) 184;
               Ist_Put 16 (Iex_RdTmp 1)];
     next := Iex_RdTmp 0; jumpkind := Ijk_Boring; offsIP := 184 |}.
Definition exit_block_out : IRSB :=
  {| tyenv := [Ity_I64; Ity_I64];
     stmts := [Ist_WrTmp 0 (Iex_Const (Ico_U64 1)); Ist_WrTmp 1 (Iex_Const (Ico_U64 2)); Ist_NoOp; Ist_NoOp];
     next := Iex_Const (Ico_U64 9); jumpkind := Ijk_Call; offsIP := 184 |}.

Lemma do_deadcode_BB_sound_witness :
  @exec_IRSB _ log_machine log_effects exit_block_out (fun _ => 0) [] = Some ([(184, 9)], 9, Ijk_Call).
Proof.
  apply (@do_deadcode_BB_sound _ log_machine log_effects exit_block exit_block_out); vm_compute; reflexivity.
Defined.

(** t0 := 1; t1 := t0; t2 := 3; PUT(16) := t2; goto t2. *)
Definition dead_block : IRSB :=
  {| tyenv := [Ity_I64; Ity_I64; Ity_I64];
     stmts := [Ist_WrTmp 0 (Iex_Const (Ico_U64 1)); Ist_WrTmp 1 (Iex_RdTmp 0); Ist_WrTmp 2 (Iex_Const (Ico_U64 3));
               Ist_Put 16 (Iex_RdTmp 2)];
     next := Iex_RdTmp 2; jumpkind := Ijk_Boring; offsIP := 184 |}.

Lemma do_deadcode_BB_thorough_witness :
  (∃ out l, do_deadcode_BB dead_block = Ret out ∧ stmts out = l ∧ all_used (fun t => t ∈ [2]) l) ∧
  ∃ out, do_deadcode_BB exit_block = Ret out ∧ jumpkind out = Ijk_Call ∧ existsb unconditional (stmts out) = false.
Proof.
  split.
  - destruct (@do_deadcode_BB_thorough _ log_machine dead_block Ity_I64) as (out & l & Hout & Hp & _ & Hused & _ & Hs & _);
      [split; vm_compute; reflexivity|]. exists out, l. split; [exact Hout|]. split; [|exact Hused].
    apply Forall2_length in Hp. cbn in Hp. rewrite Hs. cbn. destruct l as [|? [|? [|? [|? [|]]]]]; try discriminate. reflexivity.
  - destruct (@do_deadcode_BB_thorough _ log_machine exit_block Ity_I64) as (out & l & Hout & _ & _ & _ & Hex & _ & He);
      [split; vm_compute; reflexivity|]. exists out. split; [exact Hout|]. split; [|exact Hex]. cbn in He. congruence.
Defined.

(** The comment on [IRDirty] has the temporary of a call that is not made set to 0x555..55:
    the removal of the call leaves it as it is. *)
Definition never_called : IRSB :=
  {| tyenv := [Ity_I64];
     stmts := [Ist_Dirty {| d_cee := {| regparms := 0; name := "helper"; addr := 1; mcx_mask := 0 |};
                            d_guard := Iex_Const (Ico_U1 false); d_args := []; d_tmp := 0; d_mFx := Ifx_None;
                            d_mAddr := None; d_mSize := 0; d_fxState := [] |};
               Ist_Put 16 (Iex_RdTmp 0)];
     next := Iex_Const (Ico_U64 9); jumpkind := Ijk_Boring; offsIP := 184 |}.

Lemma dead_call_loses_write :
  @checked_IRSB _ log_machine never_called Ity_I64 ∧
  @exec_IRSB _ log_machine log_effects never_called (fun _ => 0) [] = Some ([(184, 9); (16, 0x5555555555555555)], 9, Ijk_Boring) ∧
  ∃ out, do_deadcode_BB never_called = Ret out ∧
    @exec_IRSB _ log_machine log_effects out (fun _ => 0) [] = Some ([(184, 9); (16, 0)], 9, Ijk_Boring).
Proof.
  split; [split; vm_compute; reflexivity|]. split; [vm_compute; reflexivity|].
  eexists. split; [vm_compute; reflexivity|]. vm_compute. reflexivity.
Qed.
