(* ===== verification/Amd64Flags.v ===== *)
(** * The flags of amd64

    vg/VEX/priv/guest_amd64_helpers.c, the part that computes the flags from a thunk:
    the number of an operation, two operands and a third word ([DEP1], [DEP2], [NDEP]).
    Translated code calls [amd64g_calculate_rflags_all], [amd64g_calculate_rflags_c] and
    [amd64g_calculate_condition]; the core calls the [LibVEX_GuestAMD64_*] functions.

    A word of type [ULong] is a number below 2^64. The macros [ACTIONS_*] are functions
    of the width; [DATA_UTYPE] is [wrap w]. The profiling code is left out. *)

From S2P Require Import Prelude Lanes.
Local Open Scope Z_scope.

(** * Definitions *)

(** ** Constants *)

Definition AMD64G_CC_SHIFT_O : Z := 11.
Definition AMD64G_CC_SHIFT_S : Z := 7.
Definition AMD64G_CC_SHIFT_Z : Z := 6.
Definition AMD64G_CC_SHIFT_A : Z := 4.
Definition AMD64G_CC_SHIFT_C : Z := 0.
Definition AMD64G_CC_SHIFT_P : Z := 2.
Definition AMD64G_CC_SHIFT_ID : Z := 21.
Definition AMD64G_CC_SHIFT_AC : Z := 18.
Definition AMD64G_CC_SHIFT_D : Z := 10.
Definition AMD64G_CC_MASK_O : Z := Z.shiftl 1 AMD64G_CC_SHIFT_O.
Definition AMD64G_CC_MASK_S : Z := Z.shiftl 1 AMD64G_CC_SHIFT_S.
Definition AMD64G_CC_MASK_Z : Z := Z.shiftl 1 AMD64G_CC_SHIFT_Z.
Definition AMD64G_CC_MASK_A : Z := Z.shiftl 1 AMD64G_CC_SHIFT_A.
Definition AMD64G_CC_MASK_C : Z := Z.shiftl 1 AMD64G_CC_SHIFT_C.
Definition AMD64G_CC_MASK_P : Z := Z.shiftl 1 AMD64G_CC_SHIFT_P.
Definition AMD64G_CC_MASK_ID : Z := Z.shiftl 1 AMD64G_CC_SHIFT_ID.
Definition AMD64G_CC_MASK_AC : Z := Z.shiftl 1 AMD64G_CC_SHIFT_AC.
Definition AMD64G_CC_MASK_D : Z := Z.shiftl 1 AMD64G_CC_SHIFT_D.

Inductive CC_OP :=
  | AMD64G_CC_OP_COPY | AMD64G_CC_OP_ADDB | AMD64G_CC_OP_ADDW | AMD64G_CC_OP_ADDL | AMD64G_CC_OP_ADDQ
  | AMD64G_CC_OP_SUBB | AMD64G_CC_OP_SUBW | AMD64G_CC_OP_SUBL | AMD64G_CC_OP_SUBQ | AMD64G_CC_OP_ADCB
  | AMD64G_CC_OP_ADCW | AMD64G_CC_OP_ADCL | AMD64G_CC_OP_ADCQ | AMD64G_CC_OP_SBBB | AMD64G_CC_OP_SBBW
  | AMD64G_CC_OP_SBBL | AMD64G_CC_OP_SBBQ | AMD64G_CC_OP_LOGICB | AMD64G_CC_OP_LOGICW | AMD64G_CC_OP_LOGICL
  | AMD64G_CC_OP_LOGICQ | AMD64G_CC_OP_INCB | AMD64G_CC_OP_INCW | AMD64G_CC_OP_INCL | AMD64G_CC_OP_INCQ
  | AMD64G_CC_OP_DECB | AMD64G_CC_OP_DECW | AMD64G_CC_OP_DECL | AMD64G_CC_OP_DECQ | AMD64G_CC_OP_SHLB
  | AMD64G_CC_OP_SHLW | AMD64G_CC_OP_SHLL | AMD64G_CC_OP_SHLQ | AMD64G_CC_OP_SHRB | AMD64G_CC_OP_SHRW
  | AMD64G_CC_OP_SHRL | AMD64G_CC_OP_SHRQ | AMD64G_CC_OP_ROLB | AMD64G_CC_OP_ROLW | AMD64G_CC_OP_ROLL
  | AMD64G_CC_OP_ROLQ | AMD64G_CC_OP_RORB | AMD64G_CC_OP_RORW | AMD64G_CC_OP_RORL | AMD64G_CC_OP_RORQ
  | AMD64G_CC_OP_UMULB | AMD64G_CC_OP_UMULW | AMD64G_CC_OP_UMULL | AMD64G_CC_OP_UMULQ | AMD64G_CC_OP_SMULB
  | AMD64G_CC_OP_SMULW | AMD64G_CC_OP_SMULL | AMD64G_CC_OP_SMULQ | AMD64G_CC_OP_ANDN32 | AMD64G_CC_OP_ANDN64
  | AMD64G_CC_OP_BLSI32 | AMD64G_CC_OP_BLSI64 | AMD64G_CC_OP_BLSMSK32 | AMD64G_CC_OP_BLSMSK64
  | AMD64G_CC_OP_BLSR32 | AMD64G_CC_OP_BLSR64 | AMD64G_CC_OP_ADCX32 | AMD64G_CC_OP_ADCX64 | AMD64G_CC_OP_ADOX32
  | AMD64G_CC_OP_ADOX64.
(** The operation with a number. *)
Definition CC_OPs : list CC_OP :=
  [AMD64G_CC_OP_COPY; AMD64G_CC_OP_ADDB; AMD64G_CC_OP_ADDW; AMD64G_CC_OP_ADDL; AMD64G_CC_OP_ADDQ;
   AMD64G_CC_OP_SUBB; AMD64G_CC_OP_SUBW; AMD64G_CC_OP_SUBL; AMD64G_CC_OP_SUBQ; AMD64G_CC_OP_ADCB;
   AMD64G_CC_OP_ADCW; AMD64G_CC_OP_ADCL; AMD64G_CC_OP_ADCQ; AMD64G_CC_OP_SBBB; AMD64G_CC_OP_SBBW;
   AMD64G_CC_OP_SBBL; AMD64G_CC_OP_SBBQ; AMD64G_CC_OP_LOGICB; AMD64G_CC_OP_LOGICW; AMD64G_CC_OP_LOGICL;
   AMD64G_CC_OP_LOGICQ; AMD64G_CC_OP_INCB; AMD64G_CC_OP_INCW; AMD64G_CC_OP_INCL; AMD64G_CC_OP_INCQ;
   AMD64G_CC_OP_DECB; AMD64G_CC_OP_DECW; AMD64G_CC_OP_DECL; AMD64G_CC_OP_DECQ; AMD64G_CC_OP_SHLB;
   AMD64G_CC_OP_SHLW; AMD64G_CC_OP_SHLL; AMD64G_CC_OP_SHLQ; AMD64G_CC_OP_SHRB; AMD64G_CC_OP_SHRW;
   AMD64G_CC_OP_SHRL; AMD64G_CC_OP_SHRQ; AMD64G_CC_OP_ROLB; AMD64G_CC_OP_ROLW; AMD64G_CC_OP_ROLL;
   AMD64G_CC_OP_ROLQ; AMD64G_CC_OP_RORB; AMD64G_CC_OP_RORW; AMD64G_CC_OP_RORL; AMD64G_CC_OP_RORQ;
   AMD64G_CC_OP_UMULB; AMD64G_CC_OP_UMULW; AMD64G_CC_OP_UMULL; AMD64G_CC_OP_UMULQ; AMD64G_CC_OP_SMULB;
   AMD64G_CC_OP_SMULW; AMD64G_CC_OP_SMULL; AMD64G_CC_OP_SMULQ; AMD64G_CC_OP_ANDN32; AMD64G_CC_OP_ANDN64;
   AMD64G_CC_OP_BLSI32; AMD64G_CC_OP_BLSI64; AMD64G_CC_OP_BLSMSK32; AMD64G_CC_OP_BLSMSK64; AMD64G_CC_OP_BLSR32;
   AMD64G_CC_OP_BLSR64; AMD64G_CC_OP_ADCX32; AMD64G_CC_OP_ADCX64; AMD64G_CC_OP_ADOX32; AMD64G_CC_OP_ADOX64].
Definition cc_code (op : CC_OP) : Z :=
  match op with
  | AMD64G_CC_OP_COPY => 0 | AMD64G_CC_OP_ADDB => 1 | AMD64G_CC_OP_ADDW => 2 | AMD64G_CC_OP_ADDL => 3
  | AMD64G_CC_OP_ADDQ => 4 | AMD64G_CC_OP_SUBB => 5 | AMD64G_CC_OP_SUBW => 6 | AMD64G_CC_OP_SUBL => 7
  | AMD64G_CC_OP_SUBQ => 8 | AMD64G_CC_OP_ADCB => 9 | AMD64G_CC_OP_ADCW => 10 | AMD64G_CC_OP_ADCL => 11
  | AMD64G_CC_OP_ADCQ => 12 | AMD64G_CC_OP_SBBB => 13 | AMD64G_CC_OP_SBBW => 14 | AMD64G_CC_OP_SBBL => 15
  | AMD64G_CC_OP_SBBQ => 16 | AMD64G_CC_OP_LOGICB => 17 | AMD64G_CC_OP_LOGICW => 18 | AMD64G_CC_OP_LOGICL => 19
  | AMD64G_CC_OP_LOGICQ => 20 | AMD64G_CC_OP_INCB => 21 | AMD64G_CC_OP_INCW => 22 | AMD64G_CC_OP_INCL => 23
  | AMD64G_CC_OP_INCQ => 24 | AMD64G_CC_OP_DECB => 25 | AMD64G_CC_OP_DECW => 26 | AMD64G_CC_OP_DECL => 27
  | AMD64G_CC_OP_DECQ => 28 | AMD64G_CC_OP_SHLB => 29 | AMD64G_CC_OP_SHLW => 30 | AMD64G_CC_OP_SHLL => 31
  | AMD64G_CC_OP_SHLQ => 32 | AMD64G_CC_OP_SHRB => 33 | AMD64G_CC_OP_SHRW => 34 | AMD64G_CC_OP_SHRL => 35
  | AMD64G_CC_OP_SHRQ => 36 | AMD64G_CC_OP_ROLB => 37 | AMD64G_CC_OP_ROLW => 38 | AMD64G_CC_OP_ROLL => 39
  | AMD64G_CC_OP_ROLQ => 40 | AMD64G_CC_OP_RORB => 41 | AMD64G_CC_OP_RORW => 42 | AMD64G_CC_OP_RORL => 43
  | AMD64G_CC_OP_RORQ => 44 | AMD64G_CC_OP_UMULB => 45 | AMD64G_CC_OP_UMULW => 46 | AMD64G_CC_OP_UMULL => 47
  | AMD64G_CC_OP_UMULQ => 48 | AMD64G_CC_OP_SMULB => 49 | AMD64G_CC_OP_SMULW => 50 | AMD64G_CC_OP_SMULL => 51
  | AMD64G_CC_OP_SMULQ => 52 | AMD64G_CC_OP_ANDN32 => 53 | AMD64G_CC_OP_ANDN64 => 54
  | AMD64G_CC_OP_BLSI32 => 55 | AMD64G_CC_OP_BLSI64 => 56 | AMD64G_CC_OP_BLSMSK32 => 57
  | AMD64G_CC_OP_BLSMSK64 => 58 | AMD64G_CC_OP_BLSR32 => 59 | AMD64G_CC_OP_BLSR64 => 60
  | AMD64G_CC_OP_ADCX32 => 61 | AMD64G_CC_OP_ADCX64 => 62 | AMD64G_CC_OP_ADOX32 => 63
  | AMD64G_CC_OP_ADOX64 => 64
  end.
Definition CC_OP_of (n : Z) : option CC_OP := if n <? 0 then None else CC_OPs !! Z.to_nat n.

Inductive AMD64Condcode :=
  | AMD64CondO | AMD64CondNO | AMD64CondB | AMD64CondNB | AMD64CondZ | AMD64CondNZ | AMD64CondBE | AMD64CondNBE
  | AMD64CondS | AMD64CondNS | AMD64CondP | AMD64CondNP | AMD64CondL | AMD64CondNL | AMD64CondLE | AMD64CondNLE
  | AMD64CondAlways.
Definition Condcodes : list AMD64Condcode :=
  [AMD64CondO; AMD64CondNO; AMD64CondB; AMD64CondNB; AMD64CondZ; AMD64CondNZ; AMD64CondBE; AMD64CondNBE;
   AMD64CondS; AMD64CondNS; AMD64CondP; AMD64CondNP; AMD64CondL; AMD64CondNL; AMD64CondLE; AMD64CondNLE; AMD64CondAlways].
Definition cond_of (n : Z) : option AMD64Condcode := if n <? 0 then None else Condcodes !! Z.to_nat n.
Definition cond_code (c : AMD64Condcode) : Z :=
  match c with
  | AMD64CondO => 0 | AMD64CondNO => 1 | AMD64CondB => 2 | AMD64CondNB => 3 | AMD64CondZ => 4 | AMD64CondNZ => 5
  | AMD64CondBE => 6 | AMD64CondNBE => 7 | AMD64CondS => 8 | AMD64CondNS => 9 | AMD64CondP => 10 | AMD64CondNP => 11
  | AMD64CondL => 12 | AMD64CondNL => 13 | AMD64CondLE => 14 | AMD64CondNLE => 15 | AMD64CondAlways => 16
  end.

(** ** Arithmetic *)

(** The high and the low word of a product. An operand of type [Long] next to one of
    type [ULong] is converted. *)
Definition mullS64 (u v : Z) : outcome (Z * Z) :=
  let halfMask := 0xFFFFFFFF in
  let u0 := u64 (Z.land u halfMask) in
  let u1 := Z.shiftr u 32 in
  let v0 := u64 (Z.land v halfMask) in
  let v1 := Z.shiftr v 32 in
  let w0 := u64 (u0 * v0) in
  let t := s64 (u64 (u64 (u64 u1 * v0) + Z.shiftr w0 32)) in
  let w1 := Z.land t halfMask in
  let w2 := Z.shiftr t 32 in
  let w1 := s64 (u64 (u64 (u0 * u64 v1) + u64 w1)) in
  p ← long_ (u1 * v1); p ← long_ (p + w2); rHi ← long_ (p + Z.shiftr w1 32);
  Ret (rHi, s64 (u64 (u64 u * u64 v))).

Definition mullU64 (u v : Z) : Z * Z :=
  let halfMask := 0xFFFFFFFF in
  let u0 := Z.land u halfMask in
  let u1 := Z.shiftr u 32 in
  let v0 := Z.land v halfMask in
  let v1 := Z.shiftr v 32 in
  let w0 := u64 (u0 * v0) in
  let t := u64 (u64 (u1 * v0) + Z.shiftr w0 32) in
  let w1 := Z.land t halfMask in
  let w2 := Z.shiftr t 32 in
  let w1 := u64 (u64 (u0 * v1) + w1) in
  let rHi := u64 (u64 (u64 (u1 * v1) + w2) + Z.shiftr w1 32) in
  (rHi, u64 (u * v)).

Definition parity_table : list Z :=
  let P := AMD64G_CC_MASK_P in
  [P; 0; 0; P; 0; P; P; 0;
   0; P; P; 0; P; 0; 0; P;
   0; P; P; 0; P; 0; 0; P;
   P; 0; 0; P; 0; P; P; 0;
   0; P; P; 0; P; 0; 0; P;
   P; 0; 0; P; 0; P; P; 0;
   P; 0; 0; P; 0; P; P; 0;
   0; P; P; 0; P; 0; 0; P;
   0; P; P; 0; P; 0; 0; P;
   P; 0; 0; P; 0; P; P; 0;
   P; 0; 0; P; 0; P; P; 0;
   0; P; P; 0; P; 0; 0; P;
   P; 0; 0; P; 0; P; P; 0;
   0; P; P; 0; P; 0; 0; P;
   0; P; P; 0; P; 0; 0; P;
   P; 0; 0; P; 0; P; P; 0;
   0; P; P; 0; P; 0; 0; P;
   P; 0; 0; P; 0; P; P; 0;
   P; 0; 0; P; 0; P; P; 0;
   0; P; P; 0; P; 0; 0; P;
   P; 0; 0; P; 0; P; P; 0;
   0; P; P; 0; P; 0; 0; P;
   0; P; P; 0; P; 0; 0; P;
   P; 0; 0; P; 0; P; P; 0;
   P; 0; 0; P; 0; P; P; 0;
   0; P; P; 0; P; 0; 0; P;
   0; P; P; 0; P; 0; 0; P;
   P; 0; 0; P; 0; P; P; 0;
   0; P; P; 0; P; 0; 0; P;
   P; 0; 0; P; 0; P; P; 0;
   P; 0; 0; P; 0; P; P; 0;
   0; P; P; 0; P; 0; 0; P].
Definition parity (x : Z) : Z := parity_table !!! Z.to_nat (u8 x).

(** The argument is converted to [Long]. *)
Definition lshift (x n : Z) : Z :=
  let x := s64 x in
  if 0 <=? n then s64 (u64 (Z.shiftl (u64 x) n)) else Z.shiftr x (- n).
Definition idULong (x : Z) : Z := u64 x.

(** [cf | pf | af | zf | sf | of] *)
Definition lor6 (cf pf af zf sf of_ : Z) : Z := Z.lor (Z.lor (Z.lor (Z.lor (Z.lor cf pf) af) zf) sf) of_.

(** ** Flags by operation *)

Definition DATA_MASK (w : Z) : Z :=
  if w =? 8 then 0xFF else if w =? 16 then 0xFFFF else if w =? 32 then 0xFFFFFFFF else 0xFFFFFFFFFFFFFFFF.
Definition SIGN_MASK (w : Z) : Z := u64 (Z.shiftl 1 (w - 1)).

Definition ACTIONS_ADD (w CC_DEP1 CC_DEP2 : Z) : Z :=
  let argL := CC_DEP1 in
  let argR := CC_DEP2 in
  let res := u64 (argL + argR) in
  let cf := Z.b2z (wrap w res <? wrap w argL) in
  let pf := parity res in
  let af := Z.land (Z.lxor (Z.lxor res argL) argR) 0x10 in
  let zf := Z.shiftl (Z.b2z (wrap w res =? 0)) 6 in
  let sf := Z.land (lshift res (8 - w)) 0x80 in
  let of_ := Z.land (lshift (Z.land (Z.lxor (Z.lxor argL argR) (u64 (-1))) (Z.lxor argL res)) (12 - w)) AMD64G_CC_MASK_O in
  lor6 cf pf af zf sf of_.

Definition ACTIONS_SUB (w CC_DEP1 CC_DEP2 : Z) : Z :=
  let argL := CC_DEP1 in
  let argR := CC_DEP2 in
  let res := u64 (argL - argR) in
  let cf := Z.b2z (wrap w argL <? wrap w argR) in
  let pf := parity res in
  let af := Z.land (Z.lxor (Z.lxor res argL) argR) 0x10 in
  let zf := Z.shiftl (Z.b2z (wrap w res =? 0)) 6 in
  let sf := Z.land (lshift res (8 - w)) 0x80 in
  let of_ := Z.land (lshift (Z.land (Z.lxor argL argR) (Z.lxor argL res)) (12 - w)) AMD64G_CC_MASK_O in
  lor6 cf pf af zf sf of_.

Definition ACTIONS_ADC (w CC_DEP1 CC_DEP2 CC_NDEP : Z) : Z :=
  let oldC := Z.land CC_NDEP AMD64G_CC_MASK_C in
  let argL := CC_DEP1 in
  let argR := Z.lxor CC_DEP2 oldC in
  let res := u64 (u64 (argL + argR) + oldC) in
  let cf := Z.b2z (if negb (oldC =? 0) then wrap w res <=? wrap w argL else wrap w res <? wrap w argL) in
  let pf := parity res in
  let af := Z.land (Z.lxor (Z.lxor res argL) argR) 0x10 in
  let zf := Z.shiftl (Z.b2z (wrap w res =? 0)) 6 in
  let sf := Z.land (lshift res (8 - w)) 0x80 in
  let of_ := Z.land (lshift (Z.land (Z.lxor (Z.lxor argL argR) (u64 (-1))) (Z.lxor argL res)) (12 - w)) AMD64G_CC_MASK_O in
  lor6 cf pf af zf sf of_.

Definition ACTIONS_SBB (w CC_DEP1 CC_DEP2 CC_NDEP : Z) : Z :=
  let oldC := Z.land CC_NDEP AMD64G_CC_MASK_C in
  let argL := CC_DEP1 in
  let argR := Z.lxor CC_DEP2 oldC in
  let res := u64 (u64 (argL - argR) - oldC) in
  let cf := Z.b2z (if negb (oldC =? 0) then wrap w argL <=? wrap w argR else wrap w argL <? wrap w argR) in
  let pf := parity res in
  let af := Z.land (Z.lxor (Z.lxor res argL) argR) 0x10 in
  let zf := Z.shiftl (Z.b2z (wrap w res =? 0)) 6 in
  let sf := Z.land (lshift res (8 - w)) 0x80 in
  let of_ := Z.land (lshift (Z.land (Z.lxor argL argR) (Z.lxor argL res)) (12 - w)) AMD64G_CC_MASK_O in
  lor6 cf pf af zf sf of_.

Definition ACTIONS_LOGIC (w CC_DEP1 : Z) : Z :=
  let pf := parity CC_DEP1 in
  let zf := Z.shiftl (Z.b2z (wrap w CC_DEP1 =? 0)) 6 in
  let sf := Z.land (lshift CC_DEP1 (8 - w)) 0x80 in
  lor6 0 pf 0 zf sf 0.

Definition ACTIONS_INC (w CC_DEP1 CC_NDEP : Z) : Z :=
  let res := CC_DEP1 in
  let argL := u64 (res - 1) in
  let argR := 1 in
  let cf := Z.land CC_NDEP AMD64G_CC_MASK_C in
  let pf := parity res in
  let af := Z.land (Z.lxor (Z.lxor res argL) argR) 0x10 in
  let zf := Z.shiftl (Z.b2z (wrap w res =? 0)) 6 in
  let sf := Z.land (lshift res (8 - w)) 0x80 in
  let of_ := Z.shiftl (Z.b2z (Z.land res (DATA_MASK w) =? SIGN_MASK w)) 11 in
  lor6 cf pf af zf sf of_.

Definition ACTIONS_DEC (w CC_DEP1 CC_NDEP : Z) : Z :=
  let res := CC_DEP1 in
  let argL := u64 (res + 1) in
  let argR := 1 in
  let cf := Z.land CC_NDEP AMD64G_CC_MASK_C in
  let pf := parity res in
  let af := Z.land (Z.lxor (Z.lxor res argL) argR) 0x10 in
  let zf := Z.shiftl (Z.b2z (wrap w res =? 0)) 6 in
  let sf := Z.land (lshift res (8 - w)) 0x80 in
  let of_ := Z.shiftl (Z.b2z (Z.land res (DATA_MASK w) =? u64 (SIGN_MASK w - 1))) 11 in
  lor6 cf pf af zf sf of_.

Definition ACTIONS_SHL (w CC_DEP1 CC_DEP2 : Z) : Z :=
  let cf := Z.land (Z.shiftr CC_DEP2 (w - 1)) AMD64G_CC_MASK_C in
  let pf := parity CC_DEP1 in
  let zf := Z.shiftl (Z.b2z (wrap w CC_DEP1 =? 0)) 6 in
  let sf := Z.land (lshift CC_DEP1 (8 - w)) 0x80 in
  let of_ := Z.land (lshift (Z.lxor CC_DEP2 CC_DEP1) (12 - w)) AMD64G_CC_MASK_O in
  lor6 cf pf 0 zf sf of_.

Definition ACTIONS_SHR (w CC_DEP1 CC_DEP2 : Z) : Z :=
  let cf := Z.land CC_DEP2 1 in
  let pf := parity CC_DEP1 in
  let zf := Z.shiftl (Z.b2z (wrap w CC_DEP1 =? 0)) 6 in
  let sf := Z.land (lshift CC_DEP1 (8 - w)) 0x80 in
  let of_ := Z.land (lshift (Z.lxor CC_DEP2 CC_DEP1) (12 - w)) AMD64G_CC_MASK_O in
  lor6 cf pf 0 zf sf of_.

Definition ACTIONS_ROL (w CC_DEP1 CC_NDEP : Z) : Z :=
  Z.lor (Z.lor (Z.land CC_NDEP (u64 (Z.lnot (Z.lor AMD64G_CC_MASK_O AMD64G_CC_MASK_C))))
               (Z.land AMD64G_CC_MASK_C CC_DEP1))
        (Z.land AMD64G_CC_MASK_O (Z.lxor (lshift CC_DEP1 (11 - (w - 1))) (lshift CC_DEP1 11))).

Definition ACTIONS_ROR (w CC_DEP1 CC_NDEP : Z) : Z :=
  Z.lor (Z.lor (Z.land CC_NDEP (u64 (Z.lnot (Z.lor AMD64G_CC_MASK_O AMD64G_CC_MASK_C))))
               (Z.land AMD64G_CC_MASK_C (Z.shiftr CC_DEP1 (w - 1))))
        (Z.land AMD64G_CC_MASK_O (Z.lxor (lshift CC_DEP1 (11 - (w - 1))) (lshift CC_DEP1 (11 - (w - 1) + 1)))).

(** The product of two numbers in the type to which the usual conversions bring them. *)
Definition int_mul (a b : Z) : outcome Z := int_ (a * b).
Definition uint_mul (a b : Z) : outcome Z := Ret (u32 (a * b)).
Definition ulong_mul (a b : Z) : outcome Z := Ret (u64 (a * b)).
Definition long_mul (a b : Z) : outcome Z := long_ (a * b).

(** What the multiplications have in common. *)
Definition mul_flags (cf lo : Z) (w : Z) : Z :=
  let pf := parity lo in
  let zf := Z.shiftl (Z.b2z (lo =? 0)) 6 in
  let sf := Z.land (lshift lo (8 - w)) 0x80 in
  let of_ := Z.shiftl cf 11 in
  lor6 cf pf 0 zf sf of_.

Definition ACTIONS_UMUL (w : Z) (mul : Z -> Z -> outcome Z) (NARROWtoU : Z -> Z)
    (mul2 : Z -> Z -> outcome Z) (NARROWto2U : Z -> Z) (CC_DEP1 CC_DEP2 : Z) : outcome Z :=
  lo ← mul (wrap w CC_DEP1) (wrap w CC_DEP2);
  let lo := wrap w (NARROWtoU lo) in
  rr ← mul2 (wrap w CC_DEP1) (wrap w CC_DEP2);
  let rr := wrap (2 * w) (NARROWto2U rr) in
  let hi := wrap w (NARROWtoU (Z.shiftr rr w)) in
  let cf := Z.b2z (negb (hi =? 0)) in
  Ret (mul_flags cf lo w).

Definition ACTIONS_SMUL (w : Z) (mul2 : Z -> Z -> outcome Z) (NARROWtoS NARROWto2S : Z -> Z)
    (CC_DEP1 CC_DEP2 : Z) : outcome Z :=
  lo ← mul2 (swrap w CC_DEP1) (swrap w CC_DEP2);
  let lo := swrap w (NARROWtoS lo) in
  rr ← mul2 (swrap w CC_DEP1) (swrap w CC_DEP2);
  let rr := swrap (2 * w) (NARROWto2S rr) in
  let hi := swrap w (NARROWtoS (Z.shiftr rr w)) in
  let cf := Z.b2z (negb (hi =? Z.shiftr lo (w - 1))) in
  Ret (mul_flags cf lo w).

Definition ACTIONS_UMULQ (CC_DEP1 CC_DEP2 : Z) : Z :=
  let r := mullU64 CC_DEP1 CC_DEP2 in
  let cf := Z.b2z (negb (r.1 =? 0)) in
  mul_flags cf r.2 64.

Definition ACTIONS_SMULQ (CC_DEP1 CC_DEP2 : Z) : outcome Z :=
  r ← mullS64 (s64 CC_DEP1) (s64 CC_DEP2);
  let cf := Z.b2z (negb (r.1 =? Z.shiftr r.2 (64 - 1))) in
  Ret (mul_flags cf r.2 64).

Definition ACTIONS_ANDN (w CC_DEP1 : Z) : Z :=
  let zf := Z.shiftl (Z.b2z (wrap w CC_DEP1 =? 0)) 6 in
  let sf := Z.land (lshift CC_DEP1 (8 - w)) 0x80 in
  lor6 0 0 0 zf sf 0.

Definition ACTIONS_BLSI (w CC_DEP1 CC_DEP2 : Z) : Z :=
  let cf := Z.b2z (negb (wrap w CC_DEP2 =? 0)) in
  let zf := Z.shiftl (Z.b2z (wrap w CC_DEP1 =? 0)) 6 in
  let sf := Z.land (lshift CC_DEP1 (8 - w)) 0x80 in
  lor6 cf 0 0 zf sf 0.

Definition ACTIONS_BLSMSK (w CC_DEP1 CC_DEP2 : Z) : Z :=
  let cf := Z.b2z (wrap w CC_DEP2 =? 0) in
  let sf := Z.land (lshift CC_DEP1 (8 - w)) 0x80 in
  lor6 cf 0 0 0 sf 0.

Definition ACTIONS_BLSR (w CC_DEP1 CC_DEP2 : Z) : Z :=
  let cf := Z.b2z (wrap w CC_DEP2 =? 0) in
  let zf := Z.shiftl (Z.b2z (wrap w CC_DEP1 =? 0)) 6 in
  let sf := Z.land (lshift CC_DEP1 (8 - w)) 0x80 in
  lor6 cf 0 0 zf sf 0.

(** [shift] is [AMD64G_CC_SHIFT_C] or [AMD64G_CC_SHIFT_O]. *)
Definition ACTIONS_ADX (w shift CC_DEP1 CC_DEP2 CC_NDEP : Z) : Z :=
  let oldOC := Z.land (Z.shiftr CC_NDEP shift) 1 in
  let argL := CC_DEP1 in
  let argR := Z.lxor CC_DEP2 oldOC in
  let res := u64 (u64 (argL + argR) + oldOC) in
  let ocf := Z.b2z (if negb (oldOC =? 0) then wrap w res <=? wrap w argL else wrap w res <? wrap w argL) in
  Z.lor (Z.land CC_NDEP (u64 (Z.lnot (Z.shiftl 1 shift)))) (Z.shiftl ocf shift).

(** ** All flags, the carry, conditions *)

Definition OSZACP : Z :=
  Z.lor (Z.lor (Z.lor (Z.lor (Z.lor AMD64G_CC_MASK_O AMD64G_CC_MASK_S) AMD64G_CC_MASK_Z) AMD64G_CC_MASK_A) AMD64G_CC_MASK_C)
    AMD64G_CC_MASK_P.

Definition amd64g_calculate_rflags_all_WRK (cc_op cc_dep1 cc_dep2 cc_ndep : Z) : outcome Z :=
  match CC_OP_of cc_op with
  | None => Fault Panic
  | Some op =>
      match op with
      | AMD64G_CC_OP_COPY => Ret (Z.land cc_dep1 OSZACP)
      | AMD64G_CC_OP_ADDB => Ret (ACTIONS_ADD 8 cc_dep1 cc_dep2)
      | AMD64G_CC_OP_ADDW => Ret (ACTIONS_ADD 16 cc_dep1 cc_dep2)
      | AMD64G_CC_OP_ADDL => Ret (ACTIONS_ADD 32 cc_dep1 cc_dep2)
      | AMD64G_CC_OP_ADDQ => Ret (ACTIONS_ADD 64 cc_dep1 cc_dep2)
      | AMD64G_CC_OP_ADCB => Ret (ACTIONS_ADC 8 cc_dep1 cc_dep2 cc_ndep)
      | AMD64G_CC_OP_ADCW => Ret (ACTIONS_ADC 16 cc_dep1 cc_dep2 cc_ndep)
      | AMD64G_CC_OP_ADCL => Ret (ACTIONS_ADC 32 cc_dep1 cc_dep2 cc_ndep)
      | AMD64G_CC_OP_ADCQ => Ret (ACTIONS_ADC 64 cc_dep1 cc_dep2 cc_ndep)
      | AMD64G_CC_OP_SUBB => Ret (ACTIONS_SUB 8 cc_dep1 cc_dep2)
      | AMD64G_CC_OP_SUBW => Ret (ACTIONS_SUB 16 cc_dep1 cc_dep2)
      | AMD64G_CC_OP_SUBL => Ret (ACTIONS_SUB 32 cc_dep1 cc_dep2)
      | AMD64G_CC_OP_SUBQ => Ret (ACTIONS_SUB 64 cc_dep1 cc_dep2)
      | AMD64G_CC_OP_SBBB => Ret (ACTIONS_SBB 8 cc_dep1 cc_dep2 cc_ndep)
      | AMD64G_CC_OP_SBBW => Ret (ACTIONS_SBB 16 cc_dep1 cc_dep2 cc_ndep)
      | AMD64G_CC_OP_SBBL => Ret (ACTIONS_SBB 32 cc_dep1 cc_dep2 cc_ndep)
      | AMD64G_CC_OP_SBBQ => Ret (ACTIONS_SBB 64 cc_dep1 cc_dep2 cc_ndep)
      | AMD64G_CC_OP_LOGICB => Ret (ACTIONS_LOGIC 8 cc_dep1)
      | AMD64G_CC_OP_LOGICW => Ret (ACTIONS_LOGIC 16 cc_dep1)
      | AMD64G_CC_OP_LOGICL => Ret (ACTIONS_LOGIC 32 cc_dep1)
      | AMD64G_CC_OP_LOGICQ => Ret (ACTIONS_LOGIC 64 cc_dep1)
      | AMD64G_CC_OP_INCB => Ret (ACTIONS_INC 8 cc_dep1 cc_ndep)
      | AMD64G_CC_OP_INCW => Ret (ACTIONS_INC 16 cc_dep1 cc_ndep)
      | AMD64G_CC_OP_INCL => Ret (ACTIONS_INC 32 cc_dep1 cc_ndep)
      | AMD64G_CC_OP_INCQ => Ret (ACTIONS_INC 64 cc_dep1 cc_ndep)
      | AMD64G_CC_OP_DECB => Ret (ACTIONS_DEC 8 cc_dep1 cc_ndep)
      | AMD64G_CC_OP_DECW => Ret (ACTIONS_DEC 16 cc_dep1 cc_ndep)
      | AMD64G_CC_OP_DECL => Ret (ACTIONS_DEC 32 cc_dep1 cc_ndep)
      | AMD64G_CC_OP_DECQ => Ret (ACTIONS_DEC 64 cc_dep1 cc_ndep)
      | AMD64G_CC_OP_SHLB => Ret (ACTIONS_SHL 8 cc_dep1 cc_dep2)
      | AMD64G_CC_OP_SHLW => Ret (ACTIONS_SHL 16 cc_dep1 cc_dep2)
      | AMD64G_CC_OP_SHLL => Ret (ACTIONS_SHL 32 cc_dep1 cc_dep2)
      | AMD64G_CC_OP_SHLQ => Ret (ACTIONS_SHL 64 cc_dep1 cc_dep2)
      | AMD64G_CC_OP_SHRB => Ret (ACTIONS_SHR 8 cc_dep1 cc_dep2)
      | AMD64G_CC_OP_SHRW => Ret (ACTIONS_SHR 16 cc_dep1 cc_dep2)
      | AMD64G_CC_OP_SHRL => Ret (ACTIONS_SHR 32 cc_dep1 cc_dep2)
      | AMD64G_CC_OP_SHRQ => Ret (ACTIONS_SHR 64 cc_dep1 cc_dep2)
      | AMD64G_CC_OP_ROLB => Ret (ACTIONS_ROL 8 cc_dep1 cc_ndep)
      | AMD64G_CC_OP_ROLW => Ret (ACTIONS_ROL 16 cc_dep1 cc_ndep)
      | AMD64G_CC_OP_ROLL => Ret (ACTIONS_ROL 32 cc_dep1 cc_ndep)
      | AMD64G_CC_OP_ROLQ => Ret (ACTIONS_ROL 64 cc_dep1 cc_ndep)
      | AMD64G_CC_OP_RORB => Ret (ACTIONS_ROR 8 cc_dep1 cc_ndep)
      | AMD64G_CC_OP_RORW => Ret (ACTIONS_ROR 16 cc_dep1 cc_ndep)
      | AMD64G_CC_OP_RORL => Ret (ACTIONS_ROR 32 cc_dep1 cc_ndep)
      | AMD64G_CC_OP_RORQ => Ret (ACTIONS_ROR 64 cc_dep1 cc_ndep)
      | AMD64G_CC_OP_UMULB => ACTIONS_UMUL 8 int_mul toUChar int_mul toUShort cc_dep1 cc_dep2
      | AMD64G_CC_OP_UMULW => ACTIONS_UMUL 16 int_mul toUShort uint_mul toUInt cc_dep1 cc_dep2
      | AMD64G_CC_OP_UMULL => ACTIONS_UMUL 32 uint_mul toUInt ulong_mul idULong cc_dep1 cc_dep2
      | AMD64G_CC_OP_UMULQ => Ret (ACTIONS_UMULQ cc_dep1 cc_dep2)
      | AMD64G_CC_OP_SMULB => ACTIONS_SMUL 8 int_mul toUChar toUShort cc_dep1 cc_dep2
      | AMD64G_CC_OP_SMULW => ACTIONS_SMUL 16 int_mul toUShort toUInt cc_dep1 cc_dep2
      | AMD64G_CC_OP_SMULL => ACTIONS_SMUL 32 long_mul toUInt idULong cc_dep1 cc_dep2
      | AMD64G_CC_OP_SMULQ => ACTIONS_SMULQ cc_dep1 cc_dep2
      | AMD64G_CC_OP_ANDN32 => Ret (ACTIONS_ANDN 32 cc_dep1)
      | AMD64G_CC_OP_ANDN64 => Ret (ACTIONS_ANDN 64 cc_dep1)
      | AMD64G_CC_OP_BLSI32 => Ret (ACTIONS_BLSI 32 cc_dep1 cc_dep2)
      | AMD64G_CC_OP_BLSI64 => Ret (ACTIONS_BLSI 64 cc_dep1 cc_dep2)
      | AMD64G_CC_OP_BLSMSK32 => Ret (ACTIONS_BLSMSK 32 cc_dep1 cc_dep2)
      | AMD64G_CC_OP_BLSMSK64 => Ret (ACTIONS_BLSMSK 64 cc_dep1 cc_dep2)
      | AMD64G_CC_OP_BLSR32 => Ret (ACTIONS_BLSR 32 cc_dep1 cc_dep2)
      | AMD64G_CC_OP_BLSR64 => Ret (ACTIONS_BLSR 64 cc_dep1 cc_dep2)
      | AMD64G_CC_OP_ADCX32 => Ret (ACTIONS_ADX 32 AMD64G_CC_SHIFT_C cc_dep1 cc_dep2 cc_ndep)
      | AMD64G_CC_OP_ADCX64 => Ret (ACTIONS_ADX 64 AMD64G_CC_SHIFT_C cc_dep1 cc_dep2 cc_ndep)
      | AMD64G_CC_OP_ADOX32 => Ret (ACTIONS_ADX 32 AMD64G_CC_SHIFT_O cc_dep1 cc_dep2 cc_ndep)
      | AMD64G_CC_OP_ADOX64 => Ret (ACTIONS_ADX 64 AMD64G_CC_SHIFT_O cc_dep1 cc_dep2 cc_ndep)
      end
  end.

Definition amd64g_calculate_rflags_all (cc_op cc_dep1 cc_dep2 cc_ndep : Z) : outcome Z :=
  amd64g_calculate_rflags_all_WRK cc_op cc_dep1 cc_dep2 cc_ndep.

Definition amd64g_calculate_rflags_c (cc_op cc_dep1 cc_dep2 cc_ndep : Z) : outcome Z :=
  let default_ :=
    r ← amd64g_calculate_rflags_all_WRK cc_op cc_dep1 cc_dep2 cc_ndep; Ret (Z.land r AMD64G_CC_MASK_C) in
  match CC_OP_of cc_op with
  | Some AMD64G_CC_OP_COPY => Ret (Z.land (Z.shiftr cc_dep1 AMD64G_CC_SHIFT_C) 1)
  | Some (AMD64G_CC_OP_LOGICQ | AMD64G_CC_OP_LOGICL | AMD64G_CC_OP_LOGICW | AMD64G_CC_OP_LOGICB) => Ret 0
  | _ => default_
  end.

Definition amd64g_calculate_condition (cond cc_op cc_dep1 cc_dep2 cc_ndep : Z) : outcome Z :=
  rflags ← amd64g_calculate_rflags_all_WRK cc_op cc_dep1 cc_dep2 cc_ndep;
  let inv := Z.land cond 1 in
  let of_ := Z.shiftr rflags AMD64G_CC_SHIFT_O in
  let zf := Z.shiftr rflags AMD64G_CC_SHIFT_Z in
  let cf := Z.shiftr rflags AMD64G_CC_SHIFT_C in
  let sf := Z.shiftr rflags AMD64G_CC_SHIFT_S in
  let pf := Z.shiftr rflags AMD64G_CC_SHIFT_P in
  match cond_of cond with
  | Some (AMD64CondNO | AMD64CondO) => Ret (Z.land 1 (Z.lxor inv of_))
  | Some (AMD64CondNZ | AMD64CondZ) => Ret (Z.land 1 (Z.lxor inv zf))
  | Some (AMD64CondNB | AMD64CondB) => Ret (Z.land 1 (Z.lxor inv cf))
  | Some (AMD64CondNBE | AMD64CondBE) => Ret (Z.land 1 (Z.lxor inv (Z.lor cf zf)))
  | Some (AMD64CondNS | AMD64CondS) => Ret (Z.land 1 (Z.lxor inv sf))
  | Some (AMD64CondNP | AMD64CondP) => Ret (Z.land 1 (Z.lxor inv pf))
  | Some (AMD64CondNL | AMD64CondL) => Ret (Z.land 1 (Z.lxor inv (Z.lxor sf of_)))
  | Some (AMD64CondNLE | AMD64CondLE) => Ret (Z.land 1 (Z.lxor inv (Z.lor (Z.lxor sf of_) zf)))
  | Some AMD64CondAlways | None => Fault Panic
  end.

(** ** The guest state *)

Record VexGuestAMD64State := {
  guest_CC_OP : Z; guest_CC_DEP1 : Z; guest_CC_DEP2 : Z; guest_CC_NDEP : Z;
  guest_DFLAG : Z; guest_ACFLAG : Z; guest_IDFLAG : Z
}.

Definition thunk_flags (s : VexGuestAMD64State) : outcome Z :=
  amd64g_calculate_rflags_all_WRK (guest_CC_OP s) (guest_CC_DEP1 s) (guest_CC_DEP2 s) (guest_CC_NDEP s).

Definition LibVEX_GuestAMD64_get_rflags (s : VexGuestAMD64State) : outcome Z :=
  rflags ← thunk_flags s;
  let dflag := s64 (guest_DFLAG s) in
  _ ← vg_assert ((dflag =? 1) || (dflag =? -1));
  let rflags := if dflag =? -1 then Z.lor rflags (Z.shiftl 1 10) else rflags in
  let rflags := if guest_IDFLAG s =? 1 then Z.lor rflags (Z.shiftl 1 21) else rflags in
  let rflags := if guest_ACFLAG s =? 1 then Z.lor rflags (Z.shiftl 1 18) else rflags in
  Ret rflags.

(** The masks are unsigned words; [~ mask] clears the bits of [mask]. *)
Definition clear (rflags mask : Z) : Z := Z.land rflags (u64 (Z.lnot mask)).

Definition LibVEX_GuestAMD64_put_rflags (rflags : Z) (s : VexGuestAMD64State) : VexGuestAMD64State :=
  let '(dflag, rflags) :=
    if negb (Z.land rflags AMD64G_CC_MASK_D =? 0) then (u64 (-1), clear rflags AMD64G_CC_MASK_D) else (1, rflags) in
  let '(idflag, rflags) :=
    if negb (Z.land rflags AMD64G_CC_MASK_ID =? 0) then (1, clear rflags AMD64G_CC_MASK_ID) else (0, rflags) in
  let '(acflag, rflags) :=
    if negb (Z.land rflags AMD64G_CC_MASK_AC =? 0) then (1, clear rflags AMD64G_CC_MASK_AC) else (0, rflags) in
  {| guest_DFLAG := dflag; guest_IDFLAG := idflag; guest_ACFLAG := acflag;
     guest_CC_OP := cc_code AMD64G_CC_OP_COPY;
     guest_CC_DEP1 := Z.land rflags OSZACP; guest_CC_DEP2 := 0; guest_CC_NDEP := 0 |}.

Definition LibVEX_GuestAMD64_put_rflag_c (new_carry_flag : Z) (s : VexGuestAMD64State) : outcome VexGuestAMD64State :=
  oszacp ← thunk_flags s;
  let oszacp :=
    if negb (Z.land new_carry_flag 1 =? 0) then Z.lor oszacp AMD64G_CC_MASK_C
    else clear oszacp AMD64G_CC_MASK_C in
  Ret {| guest_CC_OP := cc_code AMD64G_CC_OP_COPY; guest_CC_DEP1 := oszacp; guest_CC_DEP2 := 0; guest_CC_NDEP := 0;
         guest_DFLAG := guest_DFLAG s; guest_ACFLAG := guest_ACFLAG s; guest_IDFLAG := guest_IDFLAG s |}.

(** * Specification

    What the processor's manual says of the flags after each instruction, and the thunk
    that the comments of guest_amd64_defs.h give for it. *)

Record flags := { CF : bool; PF : bool; AF : bool; ZF : bool; SF : bool; OF : bool }.
Definition pack_flags (f : flags) : Z :=
  Z.b2z (CF f) + 4 * Z.b2z (PF f) + 16 * Z.b2z (AF f) + 64 * Z.b2z (ZF f) + 128 * Z.b2z (SF f) + 2048 * Z.b2z (OF f).

(** An even number of ones in the low byte. *)
Definition even_parity (x : Z) : bool := negb (foldr xorb false (Z.testbit x <$> seqZ 0 8)).
Definition fits (w x : Z) : bool := (- 2 ^ (w - 1) <=? x) && (x <? 2 ^ (w - 1)).

(** The flags of a result [r] of [w] bits, and those that depend on more than it. *)
Definition result_flags (w r : Z) (c p a z o : bool) : flags :=
  {| CF := c; PF := p && even_parity r; AF := a; ZF := z && (wrap w r =? 0); SF := Z.testbit r (w - 1); OF := o |}.
Definition add_flags (w L R : Z) (c : bool) : flags :=
  result_flags w (L + R + Z.b2z c) (2 ^ w <=? wrap w L + wrap w R + Z.b2z c) true
    (16 <=? wrap 4 L + wrap 4 R + Z.b2z c) true (negb (fits w (swrap w L + swrap w R + Z.b2z c))).
Definition sub_flags (w L R : Z) (c : bool) : flags :=
  result_flags w (L - R - Z.b2z c) (wrap w L - wrap w R - Z.b2z c <? 0) true
    (wrap 4 L - wrap 4 R - Z.b2z c <? 0) true (negb (fits w (swrap w L - swrap w R - Z.b2z c))).

Inductive size := B | W | L | Q.
Definition bits (sz : size) : Z := match sz with B => 8 | W => 16 | L => 32 | Q => 64 end.
(** The operation of a family at a size. *)
Definition at_size (sz : size) (b w l q : CC_OP) : CC_OP := match sz with B => b | W => w | L => l | Q => q end.

(** Operands are words of 64 bits, of which the instruction uses the low ones; results
    are extended by zeros. [c] is the carry before the instruction, [old] all flags before it. *)
Inductive insn :=
  | I_add (sz : size) (x y : Z) | I_sub (sz : size) (x y : Z)
  | I_adc (sz : size) (x y : Z) (c : bool) | I_sbb (sz : size) (x y : Z) (c : bool)
  | I_logic (sz : size) (r : Z) | I_inc (sz : size) (x : Z) (c : bool) | I_dec (sz : size) (x : Z) (c : bool)
  | I_shl (sz : size) (x n : Z) | I_shr (sz : size) (x n : Z) | I_sar (sz : size) (x n : Z)
  | I_rol (sz : size) (r old : Z) | I_ror (sz : size) (r old : Z)
  | I_umul (sz : size) (x y : Z) | I_smul (sz : size) (x y : Z)
  | I_andn (q : bool) (r : Z) | I_blsi (q : bool) (x : Z) | I_blsmsk (q : bool) (x : Z) | I_blsr (q : bool) (x : Z)
  | I_adcx (q : bool) (x y old : Z) | I_adox (q : bool) (x y old : Z).

Definition lq (q : bool) : Z := if q then 64 else 32.
Definition carry_in (old shift : Z) : Z := Z.b2z (Z.testbit old shift).

(** The thunk: operation, [DEP1], [DEP2], [NDEP]. *)
Definition thunk_of (i : insn) : CC_OP * Z * Z * Z :=
  match i with
  | I_add sz x y => (at_size sz AMD64G_CC_OP_ADDB AMD64G_CC_OP_ADDW AMD64G_CC_OP_ADDL AMD64G_CC_OP_ADDQ, x, y, 0)
  | I_sub sz x y => (at_size sz AMD64G_CC_OP_SUBB AMD64G_CC_OP_SUBW AMD64G_CC_OP_SUBL AMD64G_CC_OP_SUBQ, x, y, 0)
  | I_adc sz x y c =>
      (at_size sz AMD64G_CC_OP_ADCB AMD64G_CC_OP_ADCW AMD64G_CC_OP_ADCL AMD64G_CC_OP_ADCQ, x, Z.lxor y (Z.b2z c), Z.b2z c)
  | I_sbb sz x y c =>
      (at_size sz AMD64G_CC_OP_SBBB AMD64G_CC_OP_SBBW AMD64G_CC_OP_SBBL AMD64G_CC_OP_SBBQ, x, Z.lxor y (Z.b2z c), Z.b2z c)
  | I_logic sz r => (at_size sz AMD64G_CC_OP_LOGICB AMD64G_CC_OP_LOGICW AMD64G_CC_OP_LOGICL AMD64G_CC_OP_LOGICQ, r, 0, 0)
  | I_inc sz x c =>
      (at_size sz AMD64G_CC_OP_INCB AMD64G_CC_OP_INCW AMD64G_CC_OP_INCL AMD64G_CC_OP_INCQ, wrap (bits sz) (x + 1), 0, Z.b2z c)
  | I_dec sz x c =>
      (at_size sz AMD64G_CC_OP_DECB AMD64G_CC_OP_DECW AMD64G_CC_OP_DECL AMD64G_CC_OP_DECQ, wrap (bits sz) (x - 1), 0, Z.b2z c)
  | I_shl sz x n =>
      (at_size sz AMD64G_CC_OP_SHLB AMD64G_CC_OP_SHLW AMD64G_CC_OP_SHLL AMD64G_CC_OP_SHLQ,
       wrap (bits sz) (x * 2 ^ n), wrap (bits sz) (x * 2 ^ (n - 1)), 0)
  | I_shr sz x n =>
      (at_size sz AMD64G_CC_OP_SHRB AMD64G_CC_OP_SHRW AMD64G_CC_OP_SHRL AMD64G_CC_OP_SHRQ,
       wrap (bits sz) x / 2 ^ n, wrap (bits sz) x / 2 ^ (n - 1), 0)
  | I_sar sz x n =>
      (at_size sz AMD64G_CC_OP_SHRB AMD64G_CC_OP_SHRW AMD64G_CC_OP_SHRL AMD64G_CC_OP_SHRQ,
       sar (bits sz) n x, sar (bits sz) (n - 1) x, 0)
  | I_rol sz r old => (at_size sz AMD64G_CC_OP_ROLB AMD64G_CC_OP_ROLW AMD64G_CC_OP_ROLL AMD64G_CC_OP_ROLQ, r, 0, old)
  | I_ror sz r old => (at_size sz AMD64G_CC_OP_RORB AMD64G_CC_OP_RORW AMD64G_CC_OP_RORL AMD64G_CC_OP_RORQ, r, 0, old)
  | I_umul sz x y => (at_size sz AMD64G_CC_OP_UMULB AMD64G_CC_OP_UMULW AMD64G_CC_OP_UMULL AMD64G_CC_OP_UMULQ, x, y, 0)
  | I_smul sz x y => (at_size sz AMD64G_CC_OP_SMULB AMD64G_CC_OP_SMULW AMD64G_CC_OP_SMULL AMD64G_CC_OP_SMULQ, x, y, 0)
  | I_andn q r => (if q then AMD64G_CC_OP_ANDN64 else AMD64G_CC_OP_ANDN32, r, 0, 0)
  | I_blsi q x => (if q then AMD64G_CC_OP_BLSI64 else AMD64G_CC_OP_BLSI32, wrap (lq q) (Z.land x (- x)), x, 0)
  | I_blsmsk q x => (if q then AMD64G_CC_OP_BLSMSK64 else AMD64G_CC_OP_BLSMSK32, wrap (lq q) (Z.lxor x (x - 1)), x, 0)
  | I_blsr q x => (if q then AMD64G_CC_OP_BLSR64 else AMD64G_CC_OP_BLSR32, wrap (lq q) (Z.land x (x - 1)), x, 0)
  | I_adcx q x y old =>
      (if q then AMD64G_CC_OP_ADCX64 else AMD64G_CC_OP_ADCX32, x, Z.lxor y (carry_in old AMD64G_CC_SHIFT_C), old)
  | I_adox q x y old =>
      (if q then AMD64G_CC_OP_ADOX64 else AMD64G_CC_OP_ADOX32, x, Z.lxor y (carry_in old AMD64G_CC_SHIFT_O), old)
  end.

(** [old] with the bit at [k] set to [b]. *)
Definition set_flag (k : Z) (b : bool) (old : Z) : Z := if b then Z.setbit old k else Z.clearbit old k.

(** The flags after the instruction. Flags that are undefined are those the code gives:
    AF is 0 after shifts and multiplications, OF after a shift by more than one is that
    of the last step, PF is 0 after the BMI instructions. *)
Definition flags_after (i : insn) : Z :=
  match i with
  | I_add sz x y => pack_flags (add_flags (bits sz) x y false)
  | I_sub sz x y => pack_flags (sub_flags (bits sz) x y false)
  | I_adc sz x y c => pack_flags (add_flags (bits sz) x y c)
  | I_sbb sz x y c => pack_flags (sub_flags (bits sz) x y c)
  | I_logic sz r => pack_flags (result_flags (bits sz) r false true false true false)
  | I_inc sz x c =>
      let f := add_flags (bits sz) x 1 false in
      pack_flags {| CF := c; PF := PF f; AF := AF f; ZF := ZF f; SF := SF f; OF := OF f |}
  | I_dec sz x c =>
      let f := sub_flags (bits sz) x 1 false in
      pack_flags {| CF := c; PF := PF f; AF := AF f; ZF := ZF f; SF := SF f; OF := OF f |}
  | I_shl sz x n =>
      let w := bits sz in let c := Z.testbit x (w - n) in
      pack_flags (result_flags w (x * 2 ^ n) c true false true (xorb (Z.testbit (x * 2 ^ n) (w - 1)) c))
  | I_shr sz x n =>
      let w := bits sz in let r := wrap w x / 2 ^ n in
      pack_flags (result_flags w r (Z.testbit x (n - 1)) true false true (Z.testbit (wrap w x / 2 ^ (n - 1)) (w - 1)))
  | I_sar sz x n =>
      let w := bits sz in let r := swrap w x / 2 ^ n in
      pack_flags (result_flags w r (Z.testbit (swrap w x) (n - 1)) true false true false)
  | I_rol sz r old =>
      let w := bits sz in let c := Z.testbit r 0 in
      set_flag AMD64G_CC_SHIFT_O (xorb (Z.testbit r (w - 1)) c) (set_flag AMD64G_CC_SHIFT_C c old)
  | I_ror sz r old =>
      let w := bits sz in let c := Z.testbit r (w - 1) in
      set_flag AMD64G_CC_SHIFT_O (xorb c (Z.testbit r (w - 2))) (set_flag AMD64G_CC_SHIFT_C c old)
  | I_umul sz x y =>
      let w := bits sz in let p := wrap w x * wrap w y in let big := 2 ^ w <=? p in
      pack_flags (result_flags w p big true false true big)
  | I_smul sz x y =>
      let w := bits sz in let p := swrap w x * swrap w y in let big := negb (fits w p) in
      pack_flags (result_flags w p big true false true big)
  | I_andn q r => pack_flags (result_flags (lq q) r false false false true false)
  | I_blsi q x => pack_flags (result_flags (lq q) (Z.land x (- x)) (negb (wrap (lq q) x =? 0)) false false true false)
  | I_blsmsk q x => pack_flags (result_flags (lq q) (Z.lxor x (x - 1)) (wrap (lq q) x =? 0) false false false false)
  | I_blsr q x => pack_flags (result_flags (lq q) (Z.land x (x - 1)) (wrap (lq q) x =? 0) false false true false)
  | I_adcx q x y old =>
      let w := lq q in
      set_flag AMD64G_CC_SHIFT_C (2 ^ w <=? wrap w x + wrap w y + carry_in old AMD64G_CC_SHIFT_C) old
  | I_adox q x y old =>
      let w := lq q in
      set_flag AMD64G_CC_SHIFT_O (2 ^ w <=? wrap w x + wrap w y + carry_in old AMD64G_CC_SHIFT_O) old
  end.

(** Operands are words; a shift moves by at least one place and less than the width. *)
Definition word (x : Z) : bool := (0 <=? x) && (x <? 2 ^ 64).
Definition insn_ok (i : insn) : bool :=
  match i with
  | I_add _ x y | I_sub _ x y | I_adc _ x y _ | I_sbb _ x y _ | I_umul _ x y | I_smul _ x y => word x && word y
  | I_logic _ x | I_inc _ x _ | I_dec _ x _ | I_andn _ x | I_blsi _ x | I_blsmsk _ x | I_blsr _ x => word x
  | I_shl sz x n => word x && (1 <=? n) && (n <? bits sz)
  | I_shr sz x n | I_sar sz x n => word x && (1 <=? n) && (n <? bits sz)
  | I_rol _ r old | I_ror _ r old => word r && word old
  | I_adcx _ x y old | I_adox _ x y old => word x && word y && word old
  end.

(** The 16-bit multiplication is done in [int]. *)
Definition umulw_overflows (i : insn) : bool :=
  match i with I_umul W x y => 2 ^ 31 <=? wrap 16 x * wrap 16 y | _ => false end.

(** A condition as a function of the flags; [AMD64CondAlways] is not for this helper. *)
Definition cond_holds (c : AMD64Condcode) (r : Z) : bool :=
  let cf := Z.testbit r 0 in let pf := Z.testbit r 2 in let zf := Z.testbit r 6 in
  let sf := Z.testbit r 7 in let o := Z.testbit r 11 in
  match c with
  | AMD64CondO => o | AMD64CondNO => negb o
  | AMD64CondB => cf | AMD64CondNB => negb cf
  | AMD64CondZ => zf | AMD64CondNZ => negb zf
  | AMD64CondBE => cf || zf | AMD64CondNBE => negb (cf || zf)
  | AMD64CondS => sf | AMD64CondNS => negb sf
  | AMD64CondP => pf | AMD64CondNP => negb pf
  | AMD64CondL => xorb sf o | AMD64CondNL => negb (xorb sf o)
  | AMD64CondLE => xorb sf o || zf | AMD64CondNLE => negb (xorb sf o || zf)
  | AMD64CondAlways => true
  end.

(** What the conditions mean after a comparison of [x] and [y]. *)
Definition compare_spec (w : Z) (c : AMD64Condcode) (x y : Z) : bool :=
  let a := wrap w x in let b := wrap w y in let sa := swrap w x in let sb := swrap w y in
  match c with
  | AMD64CondO => negb (fits w (sa - sb)) | AMD64CondNO => fits w (sa - sb)
  | AMD64CondB => a <? b | AMD64CondNB => b <=? a
  | AMD64CondZ => a =? b | AMD64CondNZ => negb (a =? b)
  | AMD64CondBE => a <=? b | AMD64CondNBE => b <? a
  | AMD64CondS => Z.testbit (x - y) (w - 1) | AMD64CondNS => negb (Z.testbit (x - y) (w - 1))
  | AMD64CondP => even_parity (x - y) | AMD64CondNP => negb (even_parity (x - y))
  | AMD64CondL => sa <? sb | AMD64CondNL => sb <=? sa
  | AMD64CondLE => sa <=? sb | AMD64CondNLE => sb <? sa
  | AMD64CondAlways => true
  end.

(** The flags that the guest state keeps. *)
Definition RFLAGS_MASK : Z := Z.lor (Z.lor (Z.lor OSZACP AMD64G_CC_MASK_D) AMD64G_CC_MASK_ID) AMD64G_CC_MASK_AC.

Definition calculate (t : CC_OP * Z * Z * Z) : outcome Z :=
  let '(op, d1, d2, nd) := t in amd64g_calculate_rflags_all (cc_code op) d1 d2 nd.
Definition calculate_c (t : CC_OP * Z * Z * Z) : outcome Z :=
  let '(op, d1, d2, nd) := t in amd64g_calculate_rflags_c (cc_code op) d1 d2 nd.

(** * Lemmas *)

(** ** Single bits *)

Lemma land_pow2 x k : 0 <= k -> Z.land x (Z.shiftl 1 k) = Z.b2z (Z.testbit x k) * 2 ^ k.
Proof.
  intros Hk. rewrite Z.shiftl_1_l. apply Z.bits_inj'. intros j Hj. rewrite Z.land_spec.
  destruct (decide (j = k)) as [->|].
  - rewrite Z.pow2_bits_true by lia. rewrite andb_true_r. destruct (Z.testbit x k); cbn [Z.b2z].
    + by rewrite Z.mul_1_l, Z.pow2_bits_true by lia.
    + by rewrite Z.mul_0_l, Z.bits_0.
  - rewrite Z.pow2_bits_false, andb_false_r by lia. destruct (Z.testbit x k); cbn [Z.b2z].
    + by rewrite Z.mul_1_l, Z.pow2_bits_false by lia.
    + by rewrite Z.mul_0_l, Z.bits_0.
Qed.

Lemma testbit_u64 x j : 0 <= j < 64 -> Z.testbit (u64 x) j = Z.testbit x j.
Proof. intros. unfold u64. rewrite testbit_wrap by lia. by replace (j <? 64) with true by lia. Qed.
Lemma testbit_s64 x j : 0 <= j < 64 -> Z.testbit (s64 x) j = Z.testbit x j.
Proof.
  intros. rewrite <- (testbit_u64 (s64 x)), <- (testbit_u64 x) by done. unfold u64, s64. by rewrite wrap_swrap by lia.
Qed.

Lemma testbit_lshift x n j : 0 <= j < 64 -> 0 <= j - n < 64 -> Z.testbit (lshift x n) j = Z.testbit x (j - n).
Proof.
  intros Hj Hn. unfold lshift. case_bool.
  - rewrite testbit_s64, testbit_u64, Z.shiftl_spec, testbit_u64, testbit_s64 by lia. done.
  - rewrite Z.shiftr_spec by lia. replace (j + - n) with (j - n) by lia. by rewrite testbit_s64 by lia.
Qed.

Lemma is_width sz : 8 <= bits sz <= 64.
Proof. destruct sz; simpl; lia. Qed.

Lemma sf_ok w x : 8 <= w <= 64 -> Z.land (lshift x (8 - w)) 0x80 = Z.b2z (Z.testbit x (w - 1)) * 2 ^ 7.
Proof.
  intros. change 0x80 with (Z.shiftl 1 7). rewrite land_pow2, testbit_lshift by lia. do 3 f_equal. lia.
Qed.
Lemma of_ok w x : 8 <= w <= 64 -> Z.land (lshift x (12 - w)) AMD64G_CC_MASK_O = Z.b2z (Z.testbit x (w - 1)) * 2 ^ 11.
Proof.
  intros. change AMD64G_CC_MASK_O with (Z.shiftl 1 11). rewrite land_pow2, testbit_lshift by lia. do 3 f_equal. lia.
Qed.
Lemma af_ok x : Z.land x 0x10 = Z.b2z (Z.testbit x 4) * 2 ^ 4.
Proof. by rewrite <- land_pow2. Qed.
Lemma cf_ok x : Z.land x AMD64G_CC_MASK_C = Z.b2z (Z.testbit x 0).
Proof. change AMD64G_CC_MASK_C with (Z.shiftl 1 0). rewrite land_pow2 by lia. lia. Qed.

Lemma testbit_wrap_low w x j : 0 <= j < w -> Z.testbit (wrap w x) j = Z.testbit x j.
Proof. intros. rewrite testbit_wrap by lia. by replace (j <? w) with true by lia. Qed.

Lemma even_parity_low x y : u8 x = u8 y -> even_parity x = even_parity y.
Proof.
  intros H. unfold even_parity. do 2 f_equal. apply list_fmap_ext. intros i j Hj.
  apply lookup_seqZ in Hj as [-> Hi]. rewrite <- (testbit_wrap_low 8 x), <- (testbit_wrap_low 8 y) by lia.
  unfold u8 in H. by rewrite H.
Qed.

Lemma parity_ok x : parity x = Z.b2z (even_parity x) * 2 ^ 2.
Proof.
  assert (∀ y, 0 <= y < 256 -> parity_table !!! Z.to_nat y =? Z.b2z (even_parity y) * 2 ^ 2 = true) as H.
  { apply forall_below. vm_compute. reflexivity. }
  rewrite (even_parity_low x (u8 x)) by (unfold u8; by rewrite wrap_wrap by lia).
  apply Z.eqb_eq, H, wrap_range. lia.
Qed.

Lemma lor6_pack f : lor6 (Z.b2z (CF f)) (Z.b2z (PF f) * 2 ^ 2) (Z.b2z (AF f) * 2 ^ 4) (Z.b2z (ZF f) * 2 ^ 6)
  (Z.b2z (SF f) * 2 ^ 7) (Z.b2z (OF f) * 2 ^ 11) = pack_flags f.
Proof. by destruct f as [[] [] [] [] [] []]. Qed.

(** The flags put together. *)
Lemma pack_result w r c p a z o cf pf af zf sf of_ :
  cf = Z.b2z c -> pf = Z.b2z (p && even_parity r) * 2 ^ 2 -> af = Z.b2z a * 2 ^ 4 ->
  zf = Z.b2z (z && (wrap w r =? 0)) * 2 ^ 6 -> sf = Z.b2z (Z.testbit r (w - 1)) * 2 ^ 7 -> of_ = Z.b2z o * 2 ^ 11 ->
  lor6 cf pf af zf sf of_ = pack_flags (result_flags w r c p a z o).
Proof. intros -> -> -> -> -> ->. by rewrite <- lor6_pack. Qed.

Lemma shl_b2z b k : 0 <= k -> Z.shiftl (Z.b2z b) k = Z.b2z b * 2 ^ k.
Proof. apply Z.shiftl_mul_pow2. Qed.

(** ** Carries *)

Lemma testbit_odd x k : 0 <= k -> Z.testbit x k = Z.odd (x / 2 ^ k).
Proof. intros. by rewrite Z.testbit_odd, Z.shiftr_div_pow2. Qed.

Lemma add_bit a b c k : 0 <= k ->
  Z.testbit (a + b + Z.b2z c) k =
  xorb (xorb (Z.testbit a k) (Z.testbit b k)) (2 ^ k <=? wrap k a + wrap k b + Z.b2z c).
Proof.
  intros Hk. rewrite !testbit_odd by done. unfold wrap. pose proof (Z.pow_pos_nonneg 2 k) as Hp.
  assert (∀ m x y, 0 < m -> x mod m + y mod m + Z.b2z c < 2 * m ->
    (x + y + Z.b2z c) / m = x / m + y / m + Z.b2z (m <=? x mod m + y mod m + Z.b2z c)) as Hdiv.
  { intros m x y Hm Hlt. pose proof (Z.div_mod x m). pose proof (Z.div_mod y m).
    pose proof (Z.mod_pos_bound x m). pose proof (Z.mod_pos_bound y m). assert (0 <= Z.b2z c) by (destruct c; simpl; lia).
    symmetry. apply Z.div_unique with (x mod m + y mod m + Z.b2z c - m * Z.b2z (m <=? x mod m + y mod m + Z.b2z c));
      destruct (Z.leb_spec m (x mod m + y mod m + Z.b2z c)); cbn [Z.b2z]; lia. }
  rewrite Hdiv, !Z.odd_add; [by destruct (_ <=? _)|lia|].
  pose proof (Z.mod_pos_bound a (2 ^ k)). pose proof (Z.mod_pos_bound b (2 ^ k)). destruct c; simpl; lia.
Qed.

Lemma sub_bit a b c k : 0 <= k ->
  Z.testbit (a - b - Z.b2z c) k =
  xorb (xorb (Z.testbit a k) (Z.testbit b k)) (wrap k a - wrap k b - Z.b2z c <? 0).
Proof.
  intros Hk. rewrite !testbit_odd by done. unfold wrap. pose proof (Z.pow_pos_nonneg 2 k) as Hp.
  assert (∀ m x y, 0 < m ->
    (x - y - Z.b2z c) / m = x / m - y / m - Z.b2z (x mod m - y mod m - Z.b2z c <? 0)) as Hdiv.
  { intros m x y Hm. pose proof (Z.div_mod x m). pose proof (Z.div_mod y m).
    pose proof (Z.mod_pos_bound x m). pose proof (Z.mod_pos_bound y m). assert (0 <= Z.b2z c <= 1) by (destruct c; simpl; lia).
    symmetry. apply Z.div_unique with (x mod m - y mod m - Z.b2z c + m * Z.b2z (x mod m - y mod m - Z.b2z c <? 0));
      destruct (Z.ltb_spec (x mod m - y mod m - Z.b2z c) 0); cbn [Z.b2z]; lia. }
  rewrite Hdiv, !Z.odd_sub by lia. by destruct (_ <? _).
Qed.

(** A word of [w] bits by its sign bit and the rest. *)
Lemma wrap_split w x : 0 < w -> wrap w x = wrap (w - 1) x + Z.b2z (Z.testbit x (w - 1)) * 2 ^ (w - 1).
Proof.
  intros Hw. unfold wrap. replace (2 ^ w) with (2 ^ (w - 1) * 2) by (rewrite Z.mul_comm, <- Z.pow_succ_r by lia; f_equal; lia).
  pose proof (Z.pow_pos_nonneg 2 (w - 1)). rewrite Z.rem_mul_r by lia. rewrite Z.testbit_spec' by lia. lia.
Qed.
Lemma swrap_split w x : 0 < w -> swrap w x = wrap (w - 1) x - Z.b2z (Z.testbit x (w - 1)) * 2 ^ (w - 1).
Proof.
  intros Hw. assert (swrap w x = swrap w (wrap w x)) as ->.
  { unfold swrap, wrap. by rewrite Zplus_mod_idemp_l. }
  pose proof (wrap_range (w - 1) x). pose proof (Z.pow_pos_nonneg 2 (w - 1)).
  assert (2 ^ w = 2 * 2 ^ (w - 1)) as Hp by (rewrite <- Z.pow_succ_r by lia; f_equal; lia).
  rewrite (wrap_split w x Hw). destruct (Z.testbit x (w - 1)); cbn [Z.b2z]; unfold swrap.
  - replace (wrap (w - 1) x + 1 * 2 ^ (w - 1) + 2 ^ (w - 1)) with (wrap (w - 1) x + 1 * 2 ^ w) by lia.
    rewrite Z.mod_add, Z.mod_small by lia. lia.
  - rewrite Z.mod_small by lia. lia.
Qed.

(** *** Overflow *)

Lemma add_overflow w x y c : 0 < w ->
  negb (xorb (Z.testbit x (w - 1)) (Z.testbit y (w - 1))) && xorb (Z.testbit x (w - 1)) (Z.testbit (x + y + Z.b2z c) (w - 1))
  = negb (fits w (swrap w x + swrap w y + Z.b2z c)).
Proof.
  intros Hw. rewrite add_bit by lia. unfold fits. rewrite !swrap_split by done.
  pose proof (wrap_range (w - 1) x). pose proof (wrap_range (w - 1) y). pose proof (Z.pow_pos_nonneg 2 (w - 1)).
  assert (0 <= Z.b2z c <= 1) by (destruct c; simpl; lia).
  destruct (Z.testbit x (w - 1)), (Z.testbit y (w - 1)); cbn [Z.b2z xorb negb andb];
    destruct (Z.leb_spec (2 ^ (w - 1)) (wrap (w - 1) x + wrap (w - 1) y + Z.b2z c)); cbn [xorb andb negb];
    symmetry; rewrite ?negb_true_iff, ?negb_false_iff, ?andb_true_iff, ?andb_false_iff; lia.
Qed.
Lemma sub_overflow w x y c : 0 < w ->
  xorb (Z.testbit x (w - 1)) (Z.testbit y (w - 1)) && xorb (Z.testbit x (w - 1)) (Z.testbit (x - y - Z.b2z c) (w - 1))
  = negb (fits w (swrap w x - swrap w y - Z.b2z c)).
Proof.
  intros Hw. rewrite sub_bit by lia. unfold fits. rewrite !swrap_split by done.
  pose proof (wrap_range (w - 1) x). pose proof (wrap_range (w - 1) y). pose proof (Z.pow_pos_nonneg 2 (w - 1)).
  assert (0 <= Z.b2z c <= 1) by (destruct c; simpl; lia).
  destruct (Z.testbit x (w - 1)), (Z.testbit y (w - 1)); cbn [Z.b2z xorb negb andb];
    destruct (Z.ltb_spec (wrap (w - 1) x - wrap (w - 1) y - Z.b2z c) 0); cbn [xorb andb negb];
    symmetry; rewrite ?negb_true_iff, ?negb_false_iff, ?andb_true_iff, ?andb_false_iff; lia.
Qed.

(** *** Carry out *)

Lemma wrap_add_carry w x y (c : bool) : 0 <= w ->
  wrap w (x + y + Z.b2z c) =
  wrap w x + wrap w y + Z.b2z c - 2 ^ w * Z.b2z (2 ^ w <=? wrap w x + wrap w y + Z.b2z c).
Proof.
  intros Hw. pose proof (wrap_range w x Hw). pose proof (wrap_range w y Hw). pose proof (Z.pow_pos_nonneg 2 w).
  assert (0 <= Z.b2z c <= 1) by (destruct c; simpl; lia).
  assert (wrap w (x + y + Z.b2z c) = wrap w (wrap w x + wrap w y + Z.b2z c)) as ->.
  { unfold wrap. rewrite <- (Zplus_mod_idemp_l (x mod _ + y mod _)), <- Zplus_mod. by rewrite Zplus_mod_idemp_l. }
  unfold wrap at 1. destruct (Z.leb_spec (2 ^ w) (wrap w x + wrap w y + Z.b2z c)); cbn [Z.b2z].
  - symmetry. apply Z.mod_unique with 1; lia.
  - rewrite Z.mod_small by lia. lia.
Qed.

Lemma carry_out w x y (c : bool) : 0 <= w ->
  (if c then wrap w (x + y + Z.b2z c) <=? wrap w x else wrap w (x + y + Z.b2z c) <? wrap w x)
  = (2 ^ w <=? wrap w x + wrap w y + Z.b2z c).
Proof.
  intros Hw. rewrite wrap_add_carry by done. pose proof (wrap_range w x Hw). pose proof (wrap_range w y Hw).
  destruct c; cbn [Z.b2z];
    match goal with |- context [2 ^ w <=? ?s] => destruct (Z.leb_spec (2 ^ w) s) end; cbn [Z.b2z]; lia.
Qed.

(** ** Addition and subtraction *)

Lemma u64_add_u64 a b : u64 (u64 a + b) = u64 (a + b).
Proof. apply Zplus_mod_idemp_l. Qed.
Lemma u64_sub_u64 a b : u64 (u64 a - b) = u64 (a - b).
Proof. apply Zminus_mod_idemp_l. Qed.
Lemma wrap_u64 w x : 0 <= w <= 64 -> wrap w (u64 x) = wrap w x.
Proof. apply wrap_wrap. Qed.
Lemma even_parity_wrap w x : 8 <= w -> even_parity (wrap w x) = even_parity x.
Proof. intros. apply even_parity_low. unfold u8. by rewrite wrap_wrap by lia. Qed.
Lemma lxor_twice y c : Z.lxor (Z.lxor y c) c = y.
Proof. by rewrite Z.lxor_assoc, Z.lxor_nilpotent, Z.lxor_0_r. Qed.
Lemma b2z_mask c : Z.land (Z.b2z c) AMD64G_CC_MASK_C = Z.b2z c.
Proof. by destruct c. Qed.
Lemma b2z_nonzero c : negb (Z.b2z c =? 0) = c.
Proof. by destruct c. Qed.

Lemma af_add x y c : Z.testbit (Z.lxor (Z.lxor (u64 (x + y + Z.b2z c)) x) y) 4 = (16 <=? wrap 4 x + wrap 4 y + Z.b2z c).
Proof.
  rewrite !Z.lxor_spec, testbit_u64, add_bit by lia. change (2 ^ 4) with 16.
  by destruct (Z.testbit x 4), (Z.testbit y 4), (16 <=? _).
Qed.
Lemma af_sub x y c : Z.testbit (Z.lxor (Z.lxor (u64 (x - y - Z.b2z c)) x) y) 4 = (wrap 4 x - wrap 4 y - Z.b2z c <? 0).
Proof.
  rewrite !Z.lxor_spec, testbit_u64, sub_bit by lia. by destruct (Z.testbit x 4), (Z.testbit y 4), (_ <? 0).
Qed.

Lemma ACTIONS_ADC_ok w x y c : 8 <= w <= 64 ->
  ACTIONS_ADC w x (Z.lxor y (Z.b2z c)) (Z.b2z c) = pack_flags (add_flags w x y c).
Proof.
  intros Hw. unfold ACTIONS_ADC. rewrite b2z_mask, lxor_twice, u64_add_u64, b2z_nonzero. apply pack_result.
  - rewrite wrap_u64 by lia. by rewrite carry_out by lia.
  - rewrite parity_ok. unfold u64. by rewrite even_parity_wrap by lia.
  - by rewrite af_ok, af_add.
  - by rewrite shl_b2z, wrap_u64 by lia.
  - by rewrite sf_ok, testbit_u64 by lia.
  - rewrite of_ok by done. do 2 f_equal. rewrite <- add_overflow by lia.
    rewrite Z.land_spec, !Z.lxor_spec, !testbit_u64 by lia. rewrite Z.bits_m1 by lia. by rewrite xorb_true_r.
Qed.

Lemma ACTIONS_SBB_ok w x y c : 8 <= w <= 64 ->
  ACTIONS_SBB w x (Z.lxor y (Z.b2z c)) (Z.b2z c) = pack_flags (sub_flags w x y c).
Proof.
  intros Hw. unfold ACTIONS_SBB. rewrite b2z_mask, lxor_twice, u64_sub_u64, b2z_nonzero. apply pack_result.
  - f_equal. destruct c; cbn [Z.b2z]; lia.
  - rewrite parity_ok. unfold u64. by rewrite even_parity_wrap by lia.
  - by rewrite af_ok, af_sub.
  - by rewrite shl_b2z, wrap_u64 by lia.
  - by rewrite sf_ok, testbit_u64 by lia.
  - rewrite of_ok by done. do 2 f_equal. rewrite <- sub_overflow by lia.
    by rewrite Z.land_spec, !Z.lxor_spec, !testbit_u64 by lia.
Qed.

Lemma ACTIONS_ADD_ok w x y : 8 <= w <= 64 -> ACTIONS_ADD w x y = pack_flags (add_flags w x y false).
Proof.
  intros Hw. rewrite <- ACTIONS_ADC_ok by done. unfold ACTIONS_ADC, ACTIONS_ADD.
  rewrite b2z_mask, lxor_twice, u64_add_u64. cbn [Z.b2z]. by rewrite Z.add_0_r.
Qed.
Lemma ACTIONS_SUB_ok w x y : 8 <= w <= 64 -> ACTIONS_SUB w x y = pack_flags (sub_flags w x y false).
Proof.
  intros Hw. rewrite <- ACTIONS_SBB_ok by done. unfold ACTIONS_SBB, ACTIONS_SUB.
  rewrite b2z_mask, lxor_twice, u64_sub_u64. cbn [Z.b2z]. by rewrite Z.sub_0_r.
Qed.

(** ** Increment and decrement *)

Lemma land_DATA_MASK sz x : Z.land x (DATA_MASK (bits sz)) = wrap (bits sz) x.
Proof. rewrite wrap_land by (destruct sz; done). by destruct sz. Qed.
Lemma SIGN_MASK_ok sz : SIGN_MASK (bits sz) = 2 ^ (bits sz - 1).
Proof. by destruct sz. Qed.

Lemma wrap_1 w : 0 < w -> wrap w 1 = 1.
Proof. intros. apply wrap_small. pose proof (Z.pow_gt_1 2 w). lia. Qed.
Lemma swrap_1 w : 1 < w -> swrap w 1 = 1.
Proof. intros. apply swrap_small; [lia|]. pose proof (Z.pow_gt_1 2 (w - 1)). lia. Qed.

(** The sum wraps to zero exactly if it carries. *)
Lemma inc_carry w x : 0 < w -> (wrap w (x + 1) - 1 <? 0) = (2 ^ w <=? wrap w x + 1).
Proof.
  intros Hw. pose proof (wrap_add_carry w x 1 false) as H. cbn [Z.b2z] in H. rewrite !Z.add_0_r, wrap_1 in H by lia.
  pose proof (wrap_range w x). destruct (Z.leb_spec (2 ^ w) (wrap w x + 1)); cbn [Z.b2z] in H; lia.
Qed.
Lemma wrap_sub_carry w x y (c : bool) : 0 <= w ->
  wrap w (x - y - Z.b2z c) = wrap w x - wrap w y - Z.b2z c + 2 ^ w * Z.b2z (wrap w x - wrap w y - Z.b2z c <? 0).
Proof.
  intros Hw. pose proof (wrap_range w x Hw). pose proof (wrap_range w y Hw).
  assert (0 <= Z.b2z c <= 1) by (destruct c; simpl; lia).
  assert (wrap w (x - y - Z.b2z c) = wrap w (wrap w x - wrap w y - Z.b2z c)) as ->.
  { unfold wrap. rewrite <- (Zminus_mod_idemp_l (x mod _ - y mod _)), <- Zminus_mod. by rewrite Zminus_mod_idemp_l. }
  unfold wrap at 1. destruct (Z.ltb_spec (wrap w x - wrap w y - Z.b2z c) 0); cbn [Z.b2z].
  - symmetry. apply Z.mod_unique with (-1); lia.
  - rewrite Z.mod_small by lia. lia.
Qed.

Lemma inc_overflow w x : 1 < w -> (wrap w (x + 1) =? 2 ^ (w - 1)) = negb (fits w (swrap w x + swrap w 1 + Z.b2z false)).
Proof.
  intros Hw. pose proof (wrap_add_carry w x 1 false) as H. cbn [Z.b2z] in *. rewrite !Z.add_0_r, wrap_1 in H by lia.
  rewrite swrap_1, Z.add_0_r by done. unfold fits. rewrite swrap_split by lia. rewrite (wrap_split w x) in H by lia.
  pose proof (wrap_range (w - 1) x). pose proof (Z.pow_pos_nonneg 2 (w - 1)).
  assert (2 ^ w = 2 * 2 ^ (w - 1)) as Hp by (rewrite <- Z.pow_succ_r by lia; f_equal; lia).
  rewrite H by lia. destruct (Z.testbit x (w - 1)); cbn [Z.b2z] in *;
    match goal with |- context [2 ^ w <=? ?s] => destruct (Z.leb_spec (2 ^ w) s) end; cbn [Z.b2z];
    symmetry; match goal with |- _ = ?b => destruct b eqn:E end; rewrite ?negb_true_iff, ?negb_false_iff, ?andb_true_iff, ?andb_false_iff; lia.
Qed.
Lemma dec_overflow w x : 1 < w -> (wrap w (x - 1) =? 2 ^ (w - 1) - 1) = negb (fits w (swrap w x - swrap w 1 - Z.b2z false)).
Proof.
  intros Hw. pose proof (wrap_sub_carry w x 1 false) as H. cbn [Z.b2z] in *. rewrite !Z.sub_0_r, wrap_1 in H by lia.
  rewrite swrap_1, Z.sub_0_r by done. unfold fits. rewrite swrap_split by lia. rewrite (wrap_split w x) in H by lia.
  pose proof (wrap_range (w - 1) x). pose proof (Z.pow_pos_nonneg 2 (w - 1)).
  assert (2 ^ w = 2 * 2 ^ (w - 1)) as Hp by (rewrite <- Z.pow_succ_r by lia; f_equal; lia).
  rewrite H by lia. destruct (Z.testbit x (w - 1)); cbn [Z.b2z] in *;
    match goal with |- context [?s <? 0] => destruct (Z.ltb_spec s 0) end; cbn [Z.b2z];
    symmetry; match goal with |- _ = ?b => destruct b eqn:E end; rewrite ?negb_true_iff, ?negb_false_iff, ?andb_true_iff, ?andb_false_iff; lia.
Qed.

Lemma pack_result_c w r p a z o c cf pf af zf sf of_ f : f = result_flags w r c p a z o ->
  cf = Z.b2z c -> pf = Z.b2z (p && even_parity r) * 2 ^ 2 -> af = Z.b2z a * 2 ^ 4 ->
  zf = Z.b2z (z && (wrap w r =? 0)) * 2 ^ 6 -> sf = Z.b2z (Z.testbit r (w - 1)) * 2 ^ 7 -> of_ = Z.b2z o * 2 ^ 11 ->
  lor6 cf pf af zf sf of_ = pack_flags f.
Proof. intros -> -> -> -> -> -> ->. by rewrite <- lor6_pack. Qed.

Lemma wrap_wrap_same w x : 0 <= w -> wrap w (wrap w x) = wrap w x.
Proof. intros. by apply wrap_wrap. Qed.

(** The parts that depend on the result only. *)
Lemma zf_ok w x : 0 <= w -> Z.shiftl (Z.b2z (wrap w (wrap w x) =? 0)) 6 = Z.b2z (wrap w x =? 0) * 2 ^ 6.
Proof. intros. by rewrite shl_b2z, wrap_wrap_same by lia. Qed.
Lemma pf_ok w x : 8 <= w -> parity (wrap w x) = Z.b2z (even_parity x) * 2 ^ 2.
Proof. intros. by rewrite parity_ok, even_parity_wrap. Qed.
Lemma sf_wrap w x : 8 <= w <= 64 -> Z.land (lshift (wrap w x) (8 - w)) 0x80 = Z.b2z (Z.testbit x (w - 1)) * 2 ^ 7.
Proof. intros. by rewrite sf_ok, testbit_wrap_low by lia. Qed.

Lemma ACTIONS_INC_ok sz x c :
  ACTIONS_INC (bits sz) (wrap (bits sz) (x + 1)) (Z.b2z c) = flags_after (I_inc sz x c).
Proof.
  pose proof (is_width sz) as Hw. cbn [flags_after]. cbv zeta. unfold ACTIONS_INC. cbv zeta.
  eapply (pack_result_c (bits sz) (x + 1) true _ true); [unfold add_flags, result_flags; cbn [PF AF ZF SF OF]; rewrite Z.add_0_r; reflexivity|..].
  - by rewrite b2z_mask.
  - by apply pf_ok; lia.
  - rewrite af_ok. do 2 f_equal. pose proof (af_sub (wrap (bits sz) (x + 1)) 1 false) as H.
    cbn [Z.b2z] in H. rewrite Z.sub_0_r, (Z.lxor_comm (u64 _)) in H. rewrite H, Z.sub_0_r, wrap_wrap, wrap_1, inc_carry by lia.
    cbn [Z.b2z]. by rewrite Z.add_0_r.
  - apply zf_ok; lia.
  - by apply sf_wrap; lia.
  - rewrite land_DATA_MASK, SIGN_MASK_ok, shl_b2z, wrap_wrap_same by lia. do 2 f_equal. apply inc_overflow. lia.
Qed.

Lemma ACTIONS_DEC_ok sz x c :
  ACTIONS_DEC (bits sz) (wrap (bits sz) (x - 1)) (Z.b2z c) = flags_after (I_dec sz x c).
Proof.
  pose proof (is_width sz) as Hw. cbn [flags_after]. cbv zeta. unfold ACTIONS_DEC. cbv zeta.
  eapply (pack_result_c (bits sz) (x - 1) true _ true); [unfold sub_flags, result_flags; cbn [PF AF ZF SF OF]; rewrite Z.sub_0_r; reflexivity|..].
  - by rewrite b2z_mask.
  - by apply pf_ok; lia.
  - rewrite af_ok. do 2 f_equal. pose proof (af_add (wrap (bits sz) (x - 1)) 1 false) as H.
    cbn [Z.b2z] in H. rewrite Z.add_0_r, (Z.lxor_comm (u64 _)) in H. rewrite H, Z.add_0_r, wrap_wrap, wrap_1 by lia.
    pose proof (inc_carry 4 (x - 1)) as H4. replace (x - 1 + 1) with x in H4 by lia. change (2 ^ 4) with 16 in H4. rewrite <- H4 by lia.
    by rewrite Z.sub_0_r.
  - apply zf_ok; lia.
  - by apply sf_wrap; lia.
  - rewrite land_DATA_MASK, SIGN_MASK_ok, shl_b2z, wrap_wrap_same by lia. do 2 f_equal.
    rewrite <- dec_overflow by lia. f_equal. destruct sz; reflexivity.
Qed.

Lemma ACTIONS_LOGIC_ok w r : 8 <= w <= 64 -> ACTIONS_LOGIC w r = pack_flags (result_flags w r false true false true false).
Proof.
  intros. unfold ACTIONS_LOGIC. apply pack_result; try done; [apply parity_ok|by rewrite shl_b2z by lia|by apply sf_ok].
Qed.

(** ** Shifts *)

Lemma testbit_mul_pow2 x n j : 0 <= n <= j -> Z.testbit (x * 2 ^ n) j = Z.testbit x (j - n).
Proof. intros. by rewrite Z.mul_pow2_bits by lia. Qed.
Lemma testbit_div_pow2 x n j : 0 <= n -> 0 <= j -> Z.testbit (x / 2 ^ n) j = Z.testbit x (j + n).
Proof. intros. by rewrite Z.div_pow2_bits by lia. Qed.

(** Above its sign bit a signed number has copies of it. *)
Lemma testbit_swrap w x j : 0 < w -> 0 <= j -> Z.testbit (swrap w x) j = Z.testbit x (Z.min j (w - 1)).
Proof.
  intros Hw Hj. destruct (decide (j < w)) as [Hlt|Hge].
  - rewrite <- (testbit_wrap_low w (swrap w x)), wrap_swrap, testbit_wrap_low by lia.
    destruct (decide (j = w - 1)) as [->|]; f_equal; lia.
  - replace (Z.min j (w - 1)) with (w - 1) by lia. rewrite swrap_split by done.
    pose proof (wrap_range (w - 1) x). pose proof (Z.pow_pos_nonneg 2 (w - 1)).
    assert (2 ^ (w - 1) <= 2 ^ j) by (apply Z.pow_le_mono_r; lia).
    destruct (Z.testbit x (w - 1)); cbn [Z.b2z].
    + rewrite testbit_odd by lia. assert ((wrap (w - 1) x - 1 * 2 ^ (w - 1)) / 2 ^ j = -1) as ->; [|done].
      symmetry. apply Z.div_unique with (wrap (w - 1) x - 1 * 2 ^ (w - 1) + 2 ^ j); lia.
    + rewrite testbit_odd by lia. rewrite Z.div_small by lia. done.
Qed.

Lemma ACTIONS_SHL_ok w x n : 8 <= w <= 64 -> 1 <= n < w ->
  ACTIONS_SHL w (wrap w (x * 2 ^ n)) (wrap w (x * 2 ^ (n - 1))) =
  pack_flags (result_flags w (x * 2 ^ n) (Z.testbit x (w - n)) true false true
    (xorb (Z.testbit (x * 2 ^ n) (w - 1)) (Z.testbit x (w - n)))).
Proof.
  intros Hw Hn. unfold ACTIONS_SHL.
  assert (Z.testbit (wrap w (x * 2 ^ (n - 1))) (w - 1) = Z.testbit x (w - n)) as Hc.
  { rewrite testbit_wrap_low, testbit_mul_pow2 by lia. f_equal. lia. }
  apply pack_result; try done.
  - rewrite cf_ok, Z.shiftr_spec, Z.add_0_l by lia. by rewrite Hc.
  - by apply pf_ok; lia.
  - apply zf_ok; lia.
  - by apply sf_wrap; lia.
  - rewrite of_ok, Z.lxor_spec, Hc, testbit_wrap_low, xorb_comm by lia. done.
Qed.

Lemma ACTIONS_SHR_ok w r r' : 8 <= w <= 64 ->
  ACTIONS_SHR w r r' = pack_flags (result_flags w r (Z.testbit r' 0) true false true
    (xorb (Z.testbit r' (w - 1)) (Z.testbit r (w - 1)))).
Proof.
  intros Hw. unfold ACTIONS_SHR. apply pack_result; try done.
  - change 1 with AMD64G_CC_MASK_C. by rewrite cf_ok.
  - apply parity_ok.
  - by rewrite shl_b2z by lia.
  - by apply sf_ok.
  - by rewrite of_ok, Z.lxor_spec by lia.
Qed.

Lemma result_flags_wrap w r c p a z o : 8 <= w -> result_flags w (wrap w r) c p a z o = result_flags w r c p a z o.
Proof.
  intros. unfold result_flags. by rewrite even_parity_wrap, wrap_wrap_same, testbit_wrap_low by lia.
Qed.

(** ** Rotations: two flags set in a word *)

Lemma testbit_set_flag k b x j : 0 <= k -> Z.testbit (set_flag k b x) j = if bool_decide (j = k) then b else Z.testbit x j.
Proof.
  intros Hk. unfold set_flag. case_bool_decide as Hj; destruct b; subst.
  - by rewrite Z.setbit_eq by lia.
  - apply Z.clearbit_eq.
  - rewrite Z.setbit_neq by lia. done.
  - rewrite Z.clearbit_neq by lia. done.
Qed.
Lemma testbit_mask k j : 0 <= k -> Z.testbit (Z.shiftl 1 k) j = bool_decide (j = k).
Proof.
  intros. rewrite Z.shiftl_1_l. case_bool_decide; [subst; by apply Z.pow2_bits_true|]. by apply Z.pow2_bits_false.
Qed.
(** Clearing with the complement of a mask in a word. *)
Lemma testbit_clear old m j : word old = true -> 0 <= j ->
  Z.testbit (Z.land old (u64 (Z.lnot m))) j = Z.testbit old j && negb (Z.testbit m j).
Proof.
  intros [H1 H2]%andb_true_iff Hj. rewrite Z.land_spec. unfold u64. rewrite testbit_wrap, Z.lnot_spec by lia.
  destruct (Z.ltb_spec j 64); [done|]. cbn [andb]. rewrite andb_false_r.
  assert (Z.testbit old j = false) as ->; [|done].
  rewrite <- (wrap_small 64 old), testbit_wrap by lia. by replace (j <? 64) with false by lia.
Qed.

Lemma set_two old a b : word old = true ->
  Z.lor (Z.lor (Z.land old (u64 (Z.lnot (Z.lor AMD64G_CC_MASK_O AMD64G_CC_MASK_C)))) (Z.land AMD64G_CC_MASK_C a))
    (Z.land AMD64G_CC_MASK_O b) =
  set_flag AMD64G_CC_SHIFT_O (Z.testbit b 11) (set_flag AMD64G_CC_SHIFT_C (Z.testbit a 0) old).
Proof.
  intros Hold. apply Z.bits_inj'. intros j Hj.
  rewrite !Z.lor_spec, testbit_clear, !Z.land_spec, Z.lor_spec, !testbit_set_flag by done.
  unfold AMD64G_CC_MASK_O, AMD64G_CC_MASK_C. rewrite !testbit_mask by done.
  unfold AMD64G_CC_SHIFT_O, AMD64G_CC_SHIFT_C.
  repeat case_bool_decide; subst; try lia; rewrite ?andb_false_r, ?andb_true_r, ?orb_false_r; done.
Qed.

Lemma set_one k old b : word old = true -> 0 <= k ->
  Z.lor (Z.land old (u64 (Z.lnot (Z.shiftl 1 k)))) (Z.shiftl (Z.b2z b) k) = set_flag k b old.
Proof.
  intros Hold Hk. apply Z.bits_inj'. intros j Hj.
  rewrite Z.lor_spec, testbit_clear, testbit_set_flag, testbit_mask by done.
  rewrite Z.shiftl_spec by done. case_bool_decide; subst.
  - rewrite andb_false_r, Z.sub_diag. by destruct b.
  - rewrite andb_true_r. assert (Z.testbit (Z.b2z b) (j - k) = false) as ->; [|apply orb_false_r].
    destruct (decide (j < k)); [apply Z.testbit_neg_r; lia|]. destruct b; [|apply Z.bits_0].
    change (Z.b2z true) with (2 ^ 0). apply Z.pow2_bits_false. lia.
Qed.

Lemma ACTIONS_ROL_ok w r old : 8 <= w <= 64 -> word old = true ->
  ACTIONS_ROL w r old = set_flag AMD64G_CC_SHIFT_O (xorb (Z.testbit r (w - 1)) (Z.testbit r 0))
    (set_flag AMD64G_CC_SHIFT_C (Z.testbit r 0) old).
Proof.
  intros Hw Hold. unfold ACTIONS_ROL. rewrite set_two by done. f_equal.
  rewrite Z.lxor_spec, !testbit_lshift by lia. do 2 f_equal; lia.
Qed.
Lemma ACTIONS_ROR_ok w r old : 8 <= w <= 64 -> word old = true ->
  ACTIONS_ROR w r old = set_flag AMD64G_CC_SHIFT_O (xorb (Z.testbit r (w - 1)) (Z.testbit r (w - 2)))
    (set_flag AMD64G_CC_SHIFT_C (Z.testbit r (w - 1)) old).
Proof.
  intros Hw Hold. unfold ACTIONS_ROR. rewrite set_two by done. f_equal.
  - rewrite Z.lxor_spec, !testbit_lshift by lia. do 2 f_equal; lia.
  - by rewrite Z.shiftr_spec by lia.
Qed.

Lemma ACTIONS_ADX_ok w k x y old : 8 <= w <= 64 -> 0 <= k -> word old = true ->
  ACTIONS_ADX w k x (Z.lxor y (carry_in old k)) old =
  set_flag k (2 ^ w <=? wrap w x + wrap w y + carry_in old k) old.
Proof.
  intros Hw Hk Hold. unfold ACTIONS_ADX. assert (Z.land (Z.shiftr old k) 1 = carry_in old k) as ->.
  { change 1 with (Z.shiftl 1 0). rewrite land_pow2, Z.shiftr_spec by lia. unfold carry_in. rewrite Z.add_0_l. lia. }
  unfold carry_in. rewrite lxor_twice, u64_add_u64, b2z_nonzero, wrap_u64, carry_out, set_one by (done || lia). done.
Qed.

(** ** Products *)

Lemma land_half x : Z.land x 0xFFFFFFFF = x mod 2 ^ 32.
Proof. change 0xFFFFFFFF with (Z.ones 32). by rewrite Z.land_ones. Qed.
Lemma shiftr_half x : Z.shiftr x 32 = x / 2 ^ 32.
Proof. by rewrite Z.shiftr_div_pow2. Qed.
Lemma u64_id x : 0 <= x < 2 ^ 64 -> u64 x = x.
Proof. intros. by apply wrap_small. Qed.

Lemma product_bound a b m n : 0 <= a < m -> 0 <= b < n -> 0 <= a * b <= (m - 1) * (n - 1).
Proof. nia. Qed.

(** The words of the product from those of the partial products. *)
Lemma words_of_product u0 u1 v0 v1 (t w1 : Z) :
  t = u1 * v0 + u0 * v0 / 2 ^ 32 -> w1 = u0 * v1 + t mod 2 ^ 32 ->
  (u1 * 2 ^ 32 + u0) * (v1 * 2 ^ 32 + v0) =
  (u1 * v1 + t / 2 ^ 32 + w1 / 2 ^ 32) * 2 ^ 64 + (w1 mod 2 ^ 32 * 2 ^ 32 + u0 * v0 mod 2 ^ 32).
Proof.
  intros Ht Hw. pose proof (Z.div_mod (u0 * v0) (2 ^ 32)). pose proof (Z.div_mod t (2 ^ 32)).
  pose proof (Z.div_mod w1 (2 ^ 32)). change (2 ^ 64) with (2 ^ 32 * 2 ^ 32). nia.
Qed.
Lemma high_of_product p h w1 w0 : p = h * 2 ^ 64 + (w1 mod 2 ^ 32 * 2 ^ 32 + w0 mod 2 ^ 32) -> p / 2 ^ 64 = h.
Proof.
  intros ->. symmetry. pose proof (Z.mod_pos_bound w1 (2 ^ 32)). pose proof (Z.mod_pos_bound w0 (2 ^ 32)).
  apply Z.div_unique with (w1 mod 2 ^ 32 * 2 ^ 32 + w0 mod 2 ^ 32); lia.
Qed.
Lemma halves x : x = x / 2 ^ 32 * 2 ^ 32 + x mod 2 ^ 32.
Proof. pose proof (Z.div_mod x (2 ^ 32)). lia. Qed.

Lemma mullU64_ok u v : 0 <= u < 2 ^ 64 -> 0 <= v < 2 ^ 64 -> mullU64 u v = (u * v / 2 ^ 64, u64 (u * v)).
Proof.
  intros Hu Hv. unfold mullU64. rewrite !land_half, !shiftr_half.
  assert (∀ x, 0 <= x < 2 ^ 64 -> 0 <= x / 2 ^ 32 < 2 ^ 32 ∧ 0 <= x mod 2 ^ 32 < 2 ^ 32) as Hh.
  { intros x Hx. split; [split; [apply Z.div_pos; lia|apply Z.div_lt_upper_bound; lia]|by apply Z.mod_pos_bound]. }
  destruct (Hh u Hu) as [Hu1 Hu0], (Hh v Hv) as [Hv1 Hv0].
  pose proof (halves u) as Eu. pose proof (halves v) as Ev.
  set (u0 := u mod 2 ^ 32) in *. set (u1 := u / 2 ^ 32) in *. set (v0 := v mod 2 ^ 32) in *. set (v1 := v / 2 ^ 32) in *.
  clearbody u0 u1 v0 v1. pose proof (product_bound _ _ _ _ Hu0 Hv0). pose proof (product_bound _ _ _ _ Hu1 Hv0).
  pose proof (product_bound _ _ _ _ Hu0 Hv1). pose proof (product_bound _ _ _ _ Hu1 Hv1).
  rewrite (u64_id (u0 * v0)), (u64_id (u1 * v0)), (u64_id (u0 * v1)), (u64_id (u1 * v1)) by lia.
  assert (0 <= u0 * v0 / 2 ^ 32 < 2 ^ 32) by (split; [apply Z.div_pos; lia|apply Z.div_lt_upper_bound; lia]).
  pose proof (words_of_product u0 u1 v0 v1 _ _ eq_refl eq_refl) as Hp.
  set (t := u1 * v0 + u0 * v0 / 2 ^ 32) in *. assert (0 <= t < 2 ^ 64) as Ht by lia. rewrite (u64_id t) by done.
  pose proof (Hh t Ht) as [Ht1 Ht0].
  set (w1 := u0 * v1 + t mod 2 ^ 32) in *. assert (0 <= w1 < 2 ^ 64) as Hw1 by lia. rewrite (u64_id w1) by done.
  pose proof (Hh w1 Hw1) as [Hw11 Hw10]. rewrite <- Eu, <- Ev in Hp.
  rewrite (high_of_product _ _ _ _ Hp). f_equal. rewrite u64_add_u64. apply u64_id.
  pose proof (product_bound _ _ _ _ Hu Hv). pose proof (Z.mod_pos_bound (u0 * v0) (2 ^ 32)). lia.
Qed.

Lemma s64_u64 x : s64 (u64 x) = s64 x.
Proof. unfold s64, u64, swrap, wrap. by rewrite Zplus_mod_idemp_l. Qed.
Lemma s64_small x : - 2 ^ 63 <= x < 2 ^ 63 -> s64 x = x.
Proof. intros. by apply swrap_small. Qed.
Lemma u64_mul_u64 a b : u64 (u64 a * b) = u64 (a * b).
Proof. apply Zmult_mod_idemp_l. Qed.
Lemma signed_product_bound a b m n : 0 < m -> 0 < n -> - m <= a < m -> 0 <= b < n -> - m * (n - 1) <= a * b <= (m - 1) * (n - 1).
Proof. nia. Qed.

Lemma mullS64_ok u v : - 2 ^ 63 <= u < 2 ^ 63 -> - 2 ^ 63 <= v < 2 ^ 63 ->
  mullS64 u v = Ret (u * v / 2 ^ 64, s64 (u * v)).
Proof.
  intros Hu Hv. unfold mullS64. rewrite !land_half, !shiftr_half.
  assert (∀ x, - 2 ^ 63 <= x < 2 ^ 63 -> - 2 ^ 31 <= x / 2 ^ 32 < 2 ^ 31 ∧ 0 <= x mod 2 ^ 32 < 2 ^ 32) as Hh.
  { intros x Hx. split; [split; [apply Z.div_le_lower_bound; lia|apply Z.div_lt_upper_bound; lia]|by apply Z.mod_pos_bound]. }
  destruct (Hh u Hu) as [Hu1 Hu0], (Hh v Hv) as [Hv1 Hv0].
  pose proof (halves u) as Eu. pose proof (halves v) as Ev.
  assert (s64 (u64 (u64 u * u64 v)) = s64 (u * v)) as ->.
  { rewrite u64_mul_u64, (Z.mul_comm u), u64_mul_u64, s64_u64. f_equal. lia. }
  set (u0 := u mod 2 ^ 32) in *. set (u1 := u / 2 ^ 32) in *. set (v0 := v mod 2 ^ 32) in *. set (v1 := v / 2 ^ 32) in *.
  clearbody u0 u1 v0 v1. pose proof (product_bound _ _ _ _ Hu0 Hv0).
  pose proof (signed_product_bound u1 v0 (2 ^ 31) (2 ^ 32)). pose proof (signed_product_bound v1 u0 (2 ^ 31) (2 ^ 32)).
  assert (- 2 ^ 62 <= u1 * v1 <= 2 ^ 62) by (change (2 ^ 62) with (2 ^ 31 * 2 ^ 31); nia).
  rewrite (u64_id u0), (u64_id v0), (u64_id (u0 * v0)) by lia.
  rewrite !u64_add_u64, !s64_u64.
  assert (0 <= u0 * v0 / 2 ^ 32 < 2 ^ 32) by (split; [apply Z.div_pos; lia|apply Z.div_lt_upper_bound; lia]).
  pose proof (words_of_product u0 u1 v0 v1 _ _ eq_refl eq_refl) as Hp.
  assert (s64 (u64 u1 * v0 + u0 * v0 / 2 ^ 32) = u1 * v0 + u0 * v0 / 2 ^ 32) as ->.
  { rewrite <- s64_u64, <- u64_add_u64, u64_mul_u64, u64_add_u64, s64_u64. apply s64_small. lia. }
  set (t := u1 * v0 + u0 * v0 / 2 ^ 32) in *. assert (- 2 ^ 63 <= t < 2 ^ 63) as Ht by lia. pose proof (Hh t Ht) as [Ht1 Ht0].
  assert (s64 (u0 * u64 v1 + u64 (t mod 2 ^ 32)) = u0 * v1 + t mod 2 ^ 32) as ->.
  { rewrite (u64_id (t mod _)) by lia.
    rewrite <- s64_u64, <- u64_add_u64, (Z.mul_comm u0), u64_mul_u64, u64_add_u64, s64_u64, Z.mul_comm. apply s64_small. lia. }
  set (w1 := u0 * v1 + t mod 2 ^ 32) in *. assert (- 2 ^ 63 <= w1 < 2 ^ 63) as Hw1 by lia. pose proof (Hh w1 Hw1) as [Hw11 Hw10].
  rewrite <- Eu, <- Ev in Hp. rewrite (high_of_product _ _ _ _ Hp).
  rewrite long_ok by lia. cbn [mbind outcome_bind]. rewrite long_ok by lia. cbn [mbind outcome_bind].
  rewrite long_ok by lia. done.
Qed.

Lemma mul_flags_ok w p lo c : 8 <= w <= 64 -> wrap w lo = wrap w p -> (lo =? 0) = (wrap w p =? 0) ->
  mul_flags (Z.b2z c) lo w = pack_flags (result_flags w p c true false true c).
Proof.
  intros Hw Hlo Hz. unfold mul_flags. apply pack_result; try done.
  - rewrite parity_ok, <- (even_parity_wrap w lo), Hlo, even_parity_wrap by lia. done.
  - rewrite shl_b2z, Hz by lia. done.
  - rewrite sf_ok, <- (testbit_wrap_low w lo), Hlo, testbit_wrap_low by lia. done.
  - by rewrite shl_b2z by lia.
Qed.

Lemma div_eqb_0 p m : 0 < m -> 0 <= p -> negb (p / m =? 0) = (m <=? p).
Proof.
  intros Hm Hp. destruct (Z.leb_spec m p).
  - apply negb_true_iff, Z.eqb_neq. pose proof (Z.div_le_mono m p m Hm). rewrite Z.div_same in * by lia. lia.
  - by rewrite Z.div_small by lia.
Qed.

Lemma wide_range w a b : 0 < w -> 0 <= a < 2 ^ w -> 0 <= b < 2 ^ w -> 0 <= a * b < 2 ^ (2 * w).
Proof.
  intros Hw Ha Hb. replace (2 * w) with (w + w) by lia. rewrite Z.pow_add_r by lia. nia.
Qed.

Lemma ACTIONS_UMUL_ok w mul N mul2 N2 x y a b : 8 <= w <= 64 ->
  let p := wrap w x * wrap w y in
  mul (wrap w x) (wrap w y) = Ret a -> wrap w (N a) = wrap w p ->
  mul2 (wrap w x) (wrap w y) = Ret b -> wrap (2 * w) (N2 b) = p -> (∀ z, wrap w (N z) = wrap w z) ->
  ACTIONS_UMUL w mul N mul2 N2 x y = Ret (pack_flags (result_flags w p (2 ^ w <=? p) true false true (2 ^ w <=? p))).
Proof.
  intros Hw p Hm Ha Hm2 Hb HN. unfold ACTIONS_UMUL. rewrite Hm, Hm2. cbn [mbind outcome_bind].
  rewrite Hb, HN, Ha, Z.shiftr_div_pow2 by lia.
  pose proof (wide_range w (wrap w x) (wrap w y)) as Hp. replace (2 * w) with (w + w) in Hp by lia.
  rewrite Z.pow_add_r in Hp by lia. specialize (Hp ltac:(lia) ltac:(apply wrap_range; lia) ltac:(apply wrap_range; lia)).
  fold p in Hp. rewrite (wrap_small w (p / 2 ^ w)), div_eqb_0; [| |lia|].
  - f_equal. apply mul_flags_ok; [done|by rewrite wrap_wrap_same by lia|done].
  - pose proof (Z.pow_pos_nonneg 2 w). lia.
  - split; [apply Z.div_pos; lia|apply Z.div_lt_upper_bound; lia].
Qed.

(** The high half is the sign of the low half exactly if the product fits. *)
Lemma smul_fits w p : 1 < w -> negb (p / 2 ^ w =? Z.shiftr (swrap w p) (w - 1)) = negb (fits w p).
Proof.
  intros Hw. f_equal. rewrite Z.shiftr_div_pow2, swrap_split by lia. pose proof (wrap_split w p ltac:(lia)) as Hs.
  pose proof (wrap_range (w - 1) p ltac:(lia)). pose proof (Z.pow_pos_nonneg 2 (w - 1)).
  assert (2 ^ w = 2 * 2 ^ (w - 1)) as Hp by (rewrite <- Z.pow_succ_r by lia; f_equal; lia).
  assert (p = p / 2 ^ w * 2 ^ w + wrap w p) as Hd by (unfold wrap; pose proof (Z.div_mod p (2 ^ w)); lia).
  assert ((wrap (w - 1) p - Z.b2z (Z.testbit p (w - 1)) * 2 ^ (w - 1)) / 2 ^ (w - 1) = - Z.b2z (Z.testbit p (w - 1))) as ->.
  { symmetry. apply Z.div_unique with (wrap (w - 1) p); lia. }
  rewrite Hs, Hp in Hd. rewrite Hp. set (h := p / (2 * 2 ^ (w - 1))) in *. clearbody h. unfold fits.
  destruct (Z.testbit p (w - 1)); cbn [Z.b2z] in *;
    match goal with |- ?b = ?c => destruct c eqn:E end; rewrite ?andb_true_iff, ?andb_false_iff in E; nia.
Qed.

Lemma smul_range w x y : 1 < w -> - 2 ^ (w - 1) <= x < 2 ^ (w - 1) -> - 2 ^ (w - 1) <= y < 2 ^ (w - 1) ->
  - 2 ^ (2 * w - 1) <= x * y < 2 ^ (2 * w - 1).
Proof.
  intros Hw Hx Hy. replace (2 * w - 1) with ((w - 1) + (w - 1) + 1) by lia. rewrite !Z.pow_add_r by lia.
  pose proof (Z.pow_pos_nonneg 2 (w - 1)). nia.
Qed.

Lemma swrap_cong w x y : wrap w x = wrap w y -> swrap w x = swrap w y.
Proof.
  intros H. unfold swrap, wrap in *. by rewrite <- (Zplus_mod_idemp_l x), H, Zplus_mod_idemp_l.
Qed.
Lemma swrap_eqb_0 w x : 0 < w -> (swrap w x =? 0) = (wrap w x =? 0).
Proof.
  intros. rewrite swrap_split, (wrap_split w x) by done. pose proof (wrap_range (w - 1) x). pose proof (Z.pow_pos_nonneg 2 (w - 1)).
  destruct (Z.testbit x (w - 1)); cbn [Z.b2z]; lia.
Qed.

Lemma ACTIONS_SMUL_ok w mul2 N N2 x y : 8 <= w <= 64 ->
  let p := swrap w x * swrap w y in
  mul2 (swrap w x) (swrap w y) = Ret p -> (∀ z, wrap w (N z) = wrap w z) -> wrap (2 * w) (N2 p) = wrap (2 * w) p ->
  ACTIONS_SMUL w mul2 N N2 x y =
  Ret (pack_flags (result_flags w p (negb (fits w p)) true false true (negb (fits w p)))).
Proof.
  intros Hw p Hm HN HN2. unfold ACTIONS_SMUL. rewrite Hm. cbn [mbind outcome_bind].
  rewrite (swrap_cong w (N p) p) by done. rewrite (swrap_cong (2 * w) (N2 p) p) by done.
  pose proof (smul_range w (swrap w x) (swrap w y) ltac:(lia) ltac:(apply swrap_bounds; lia) ltac:(apply swrap_bounds; lia)) as Hp.
  fold p in Hp. rewrite (swrap_small (2 * w) p) by lia.
  rewrite (swrap_cong w (N (Z.shiftr p w)) (Z.shiftr p w)) by done.
  rewrite (swrap_small w (Z.shiftr p w)), (Z.shiftr_div_pow2 p w), smul_fits; [|lia|lia|lia|].
  - f_equal. apply mul_flags_ok; [done|apply wrap_swrap; lia|apply swrap_eqb_0; lia].
  - rewrite Z.shiftr_div_pow2 by lia. replace (2 * w - 1) with (w + (w - 1)) in Hp by lia. rewrite Z.pow_add_r in Hp by lia.
    pose proof (Z.pow_pos_nonneg 2 w).
    split; [apply Z.div_le_lower_bound; lia|apply Z.div_lt_upper_bound; lia].
Qed.

Lemma ACTIONS_UMULQ_ok x y : let p := u64 x * u64 y in 0 <= x < 2 ^ 64 -> 0 <= y < 2 ^ 64 ->
  ACTIONS_UMULQ x y = pack_flags (result_flags 64 p (2 ^ 64 <=? p) true false true (2 ^ 64 <=? p)).
Proof.
  intros p Hx Hy. unfold ACTIONS_UMULQ. rewrite mullU64_ok by done. cbn [fst snd]. unfold p. rewrite (u64_id x), (u64_id y) by done.
  rewrite div_eqb_0 by lia. apply mul_flags_ok; [lia|by apply wrap_wrap|done].
Qed.

Lemma ACTIONS_SMULQ_ok x y : let p := s64 x * s64 y in
  ACTIONS_SMULQ x y = Ret (pack_flags (result_flags 64 p (negb (fits 64 p)) true false true (negb (fits 64 p)))).
Proof.
  intros p. unfold ACTIONS_SMULQ. rewrite mullS64_ok by (apply (swrap_bounds 64); lia). cbn [mbind outcome_bind fst snd].
  fold p. f_equal. unfold s64 at 1. rewrite smul_fits by lia.
  apply mul_flags_ok; [lia|by apply wrap_swrap|by apply swrap_eqb_0].
Qed.

(** ** The BMI instructions *)

Lemma ACTIONS_ANDN_ok w r : 8 <= w <= 64 -> ACTIONS_ANDN w r = pack_flags (result_flags w r false false false true false).
Proof. intros. apply pack_result; try done; [by rewrite shl_b2z by lia|by apply sf_ok]. Qed.
Lemma ACTIONS_BLSI_ok w r x : 8 <= w <= 64 ->
  ACTIONS_BLSI w (wrap w r) x = pack_flags (result_flags w r (negb (wrap w x =? 0)) false false true false).
Proof. intros. apply pack_result; try done; [apply zf_ok; lia|by apply sf_wrap]. Qed.
Lemma ACTIONS_BLSMSK_ok w r x : 8 <= w <= 64 ->
  ACTIONS_BLSMSK w (wrap w r) x = pack_flags (result_flags w r (wrap w x =? 0) false false false false).
Proof. intros. apply pack_result; try done; by apply sf_wrap. Qed.
Lemma ACTIONS_BLSR_ok w r x : 8 <= w <= 64 ->
  ACTIONS_BLSR w (wrap w r) x = pack_flags (result_flags w r (wrap w x =? 0) false false true false).
Proof. intros. apply pack_result; try done; [apply zf_ok; lia|by apply sf_wrap]. Qed.

(** ** All instructions *)

Lemma CC_OP_of_code op : CC_OP_of (cc_code op) = Some op.
Proof. by destruct op. Qed.
Lemma cond_of_code c : cond_of (cond_code c) = Some c.
Proof. by destruct c. Qed.

Lemma calculate_code op d1 d2 nd : calculate (op, d1, d2, nd) = amd64g_calculate_rflags_all_WRK (cc_code op) d1 d2 nd.
Proof. done. Qed.

Lemma narrow_range w x : 0 <= w -> 0 <= wrap w x < 2 ^ w.
Proof. by apply wrap_range. Qed.

Lemma int_mul_ok a b : INT_MIN <= a * b <= INT_MAX -> int_mul a b = Ret (a * b).
Proof. intros. unfold int_mul, int_. case_bool; [done|]. lia. Qed.

Lemma umul_ok sz x y : word x = true -> word y = true ->
  calculate (thunk_of (I_umul sz x y)) =
  if umulw_overflows (I_umul sz x y) then Fault IntOverflow else Ret (flags_after (I_umul sz x y)).
Proof.
  intros Hx Hy. cbn [thunk_of flags_after umulw_overflows]. rewrite calculate_code. cbv zeta.
  unfold amd64g_calculate_rflags_all_WRK. rewrite CC_OP_of_code. unfold word in *. b2p.
  pose proof (wrap_range 8 x). pose proof (wrap_range 8 y). pose proof (wrap_range 16 x). pose proof (wrap_range 16 y).
  pose proof (wrap_range 32 x). pose proof (wrap_range 32 y).
  destruct sz; cbn [at_size bits].
  - eapply ACTIONS_UMUL_ok; [lia|apply int_mul_ok; unfold INT_MIN, INT_MAX; nia|by rewrite toUChar_wrap, wrap_wrap| | |].
    + apply int_mul_ok. unfold INT_MIN, INT_MAX. nia.
    + rewrite toUShort_wrap, wrap_wrap by lia. apply (wrap_small 16). nia.
    + intros z. by rewrite toUChar_wrap, wrap_wrap.
  - destruct (Z.leb_spec (2 ^ 31) (wrap 16 x * wrap 16 y)).
    + unfold ACTIONS_UMUL, int_mul, int_, INT_MAX. replace (wrap 16 x * wrap 16 y <=? 2147483647) with false by lia.
      by rewrite andb_false_r.
    + eapply ACTIONS_UMUL_ok; [lia|apply int_mul_ok; unfold INT_MIN, INT_MAX; nia| |reflexivity| |].
      * by rewrite toUShort_wrap, wrap_wrap.
      * rewrite toUInt_wrap. unfold u32. rewrite !wrap_wrap by lia. apply (wrap_small 32). nia.
      * intros z. by rewrite toUShort_wrap, wrap_wrap.
  - eapply ACTIONS_UMUL_ok; [lia|reflexivity| |reflexivity| |].
    + unfold u32. by rewrite toUInt_wrap, !wrap_wrap.
    + unfold idULong, u64. rewrite !wrap_wrap by lia. apply (wrap_small 64). nia.
    + intros z. by rewrite toUInt_wrap, wrap_wrap.
  - rewrite ACTIONS_UMULQ_ok by lia. done.
Qed.

Lemma smul_ok sz x y : calculate (thunk_of (I_smul sz x y)) = Ret (flags_after (I_smul sz x y)).
Proof.
  cbn [thunk_of flags_after]. rewrite calculate_code. cbv zeta. unfold amd64g_calculate_rflags_all_WRK. rewrite CC_OP_of_code.
  pose proof (swrap_bounds 8 x). pose proof (swrap_bounds 8 y). pose proof (swrap_bounds 16 x). pose proof (swrap_bounds 16 y).
  pose proof (swrap_bounds 32 x). pose proof (swrap_bounds 32 y).
  destruct sz; cbn [at_size bits].
  - eapply ACTIONS_SMUL_ok; [lia|apply int_mul_ok; unfold INT_MIN, INT_MAX; nia| |].
    + intros z. by rewrite toUChar_wrap, wrap_wrap.
    + by rewrite toUShort_wrap, wrap_wrap.
  - eapply ACTIONS_SMUL_ok; [lia|apply int_mul_ok; unfold INT_MIN, INT_MAX; nia| |].
    + intros z. by rewrite toUShort_wrap, wrap_wrap.
    + by rewrite toUInt_wrap, wrap_wrap.
  - eapply ACTIONS_SMUL_ok; [lia|unfold long_mul; apply long_ok; nia| |].
    + intros z. by rewrite toUInt_wrap, wrap_wrap.
    + unfold idULong, u64. by rewrite wrap_wrap.
  - apply ACTIONS_SMULQ_ok.
Qed.

Lemma shift_right_ok sz x n : 1 <= n < bits sz ->
  ACTIONS_SHR (bits sz) (wrap (bits sz) x / 2 ^ n) (wrap (bits sz) x / 2 ^ (n - 1)) = flags_after (I_shr sz x n).
Proof.
  intros Hn. pose proof (is_width sz). cbn [flags_after]. cbv zeta. rewrite ACTIONS_SHR_ok by done.
  rewrite (testbit_div_pow2 _ (n - 1) 0), Z.add_0_l, testbit_wrap_low by lia.
  rewrite (testbit_div_pow2 _ n), (testbit_wrap _ x (_ + n)) by lia.
  replace (bits sz - 1 + n <? bits sz) with false by lia. by rewrite xorb_false_r.
Qed.
Lemma shift_arithmetic_ok sz x n : 1 <= n < bits sz ->
  ACTIONS_SHR (bits sz) (sar (bits sz) n x) (sar (bits sz) (n - 1) x) = flags_after (I_sar sz x n).
Proof.
  intros Hn. pose proof (is_width sz). cbn [flags_after]. cbv zeta. rewrite ACTIONS_SHR_ok by done. unfold sar.
  rewrite result_flags_wrap, !testbit_wrap_low, !(testbit_div_pow2 (swrap _ _)), Z.add_0_l by lia.
  rewrite (testbit_swrap _ x (_ + (n - 1))), (testbit_swrap _ x (_ + n)) by lia.
  replace (Z.min (bits sz - 1 + (n - 1)) (bits sz - 1)) with (bits sz - 1) by lia.
  replace (Z.min (bits sz - 1 + n) (bits sz - 1)) with (bits sz - 1) by lia. by rewrite xorb_nilpotent.
Qed.

Lemma rflags_all_ok i : insn_ok i = true ->
  calculate (thunk_of i) = if umulw_overflows i then Fault IntOverflow else Ret (flags_after i).
Proof.
  intros Hok. pose proof is_width as Hw. assert (∀ q, 8 <= lq q <= 64) as Hq by (intros []; simpl; lia).
  destruct i; cbn [insn_ok] in Hok; b2p; try by apply umul_ok.
  - replace (calculate _) with (Ret (ACTIONS_ADD (bits sz) x y)) by by destruct sz. by apply (f_equal Ret), ACTIONS_ADD_ok.
  - replace (calculate _) with (Ret (ACTIONS_SUB (bits sz) x y)) by by destruct sz. by apply (f_equal Ret), ACTIONS_SUB_ok.
  - replace (calculate _) with (Ret (ACTIONS_ADC (bits sz) x (Z.lxor y (Z.b2z c)) (Z.b2z c))) by by destruct sz.
    by apply (f_equal Ret), ACTIONS_ADC_ok.
  - replace (calculate _) with (Ret (ACTIONS_SBB (bits sz) x (Z.lxor y (Z.b2z c)) (Z.b2z c))) by by destruct sz.
    by apply (f_equal Ret), ACTIONS_SBB_ok.
  - replace (calculate _) with (Ret (ACTIONS_LOGIC (bits sz) r)) by by destruct sz. by apply (f_equal Ret), ACTIONS_LOGIC_ok.
  - replace (calculate _) with (Ret (ACTIONS_INC (bits sz) (wrap (bits sz) (x + 1)) (Z.b2z c))) by by destruct sz.
    by apply (f_equal Ret), ACTIONS_INC_ok.
  - replace (calculate _) with (Ret (ACTIONS_DEC (bits sz) (wrap (bits sz) (x - 1)) (Z.b2z c))) by by destruct sz.
    by apply (f_equal Ret), ACTIONS_DEC_ok.
  - replace (calculate _) with (Ret (ACTIONS_SHL (bits sz) (wrap (bits sz) (x * 2 ^ n)) (wrap (bits sz) (x * 2 ^ (n - 1)))))
      by by destruct sz. apply (f_equal Ret), ACTIONS_SHL_ok; auto.
  - replace (calculate _) with (Ret (ACTIONS_SHR (bits sz) (wrap (bits sz) x / 2 ^ n) (wrap (bits sz) x / 2 ^ (n - 1))))
      by by destruct sz. by apply (f_equal Ret), shift_right_ok.
  - replace (calculate _) with (Ret (ACTIONS_SHR (bits sz) (sar (bits sz) n x) (sar (bits sz) (n - 1) x)))
      by by destruct sz. by apply (f_equal Ret), shift_arithmetic_ok.
  - replace (calculate _) with (Ret (ACTIONS_ROL (bits sz) r old)) by by destruct sz. by apply (f_equal Ret), ACTIONS_ROL_ok.
  - replace (calculate _) with (Ret (ACTIONS_ROR (bits sz) r old)) by by destruct sz. by apply (f_equal Ret), ACTIONS_ROR_ok.
  - apply smul_ok.
  - replace (calculate _) with (Ret (ACTIONS_ANDN (lq q) r)) by by destruct q. by apply (f_equal Ret), ACTIONS_ANDN_ok.
  - replace (calculate _) with (Ret (ACTIONS_BLSI (lq q) (wrap (lq q) (Z.land x (- x))) x)) by by destruct q.
    by apply (f_equal Ret), ACTIONS_BLSI_ok.
  - replace (calculate _) with (Ret (ACTIONS_BLSMSK (lq q) (wrap (lq q) (Z.lxor x (x - 1))) x)) by by destruct q.
    by apply (f_equal Ret), ACTIONS_BLSMSK_ok.
  - replace (calculate _) with (Ret (ACTIONS_BLSR (lq q) (wrap (lq q) (Z.land x (x - 1))) x)) by by destruct q.
    by apply (f_equal Ret), ACTIONS_BLSR_ok.
  - replace (calculate _) with (Ret (ACTIONS_ADX (lq q) AMD64G_CC_SHIFT_C x (Z.lxor y (carry_in old AMD64G_CC_SHIFT_C)) old))
      by by destruct q. by apply (f_equal Ret), ACTIONS_ADX_ok.
  - replace (calculate _) with (Ret (ACTIONS_ADX (lq q) AMD64G_CC_SHIFT_O x (Z.lxor y (carry_in old AMD64G_CC_SHIFT_O)) old))
      by by destruct q. by apply (f_equal Ret), ACTIONS_ADX_ok.
Qed.

(** ** Conditions *)

Lemma land_1_bit x : Z.land 1 x = Z.b2z (Z.testbit x 0).
Proof. rewrite Z.land_comm. exact (cf_ok x). Qed.

Lemma condition_holds c op d1 d2 nd r : c ≠ AMD64CondAlways ->
  amd64g_calculate_rflags_all_WRK op d1 d2 nd = Ret r ->
  amd64g_calculate_condition (cond_code c) op d1 d2 nd = Ret (Z.b2z (cond_holds c r)).
Proof.
  intros Hc Hr. unfold amd64g_calculate_condition. rewrite Hr, cond_of_code. cbn [mbind outcome_bind].
  destruct c; try done; cbv zeta; f_equal;
    rewrite land_1_bit, Z.lxor_spec, ?Z.lor_spec, ?Z.lxor_spec, !Z.shiftr_spec by lia; reflexivity.
Qed.

(** The flags read back from a packed word. *)
Lemma pack_flags_bits f :
  Z.testbit (pack_flags f) 0 = CF f ∧ Z.testbit (pack_flags f) 2 = PF f ∧ Z.testbit (pack_flags f) 6 = ZF f ∧
  Z.testbit (pack_flags f) 7 = SF f ∧ Z.testbit (pack_flags f) 11 = OF f.
Proof. by destruct f as [[] [] [] [] [] []]. Qed.

Lemma sub_zero_iff w x y : 0 <= w -> (wrap w (x - y) =? 0) = (wrap w x =? wrap w y).
Proof.
  intros Hw. pose proof (wrap_sub_carry w x y false Hw) as H. cbn [Z.b2z] in H. rewrite !Z.sub_0_r in H.
  pose proof (wrap_range w x Hw). pose proof (wrap_range w y Hw).
  destruct (Z.ltb_spec (wrap w x - wrap w y) 0); cbn [Z.b2z] in H; lia.
Qed.

(** The sign of the difference, corrected for overflow, is the order of signed numbers. *)
Lemma sub_signed_lt w x y : 0 < w ->
  xorb (Z.testbit (x - y) (w - 1)) (negb (fits w (swrap w x - swrap w y))) = (swrap w x <? swrap w y).
Proof.
  intros Hw. pose proof (sub_overflow w x y false Hw) as Ho. pose proof (sub_bit x y false (w - 1) ltac:(lia)) as Hb.
  cbn [Z.b2z] in *. rewrite !Z.sub_0_r in *. rewrite <- Ho, Hb, !swrap_split by lia.
  pose proof (wrap_range (w - 1) x). pose proof (wrap_range (w - 1) y). pose proof (Z.pow_pos_nonneg 2 (w - 1)).
  destruct (Z.testbit x (w - 1)), (Z.testbit y (w - 1)); cbn [Z.b2z xorb negb andb];
    destruct (Z.ltb_spec (wrap (w - 1) x - wrap (w - 1) y) 0); cbn [xorb andb negb]; lia.
Qed.

Lemma compare_holds w c x y : 0 < w -> cond_holds c (pack_flags (sub_flags w x y false)) = compare_spec w c x y.
Proof.
  intros Hw. destruct (pack_flags_bits (sub_flags w x y false)) as (HC & HP & HZ & HS & HO).
  unfold cond_holds. rewrite HC, HP, HZ, HS, HO. unfold sub_flags, result_flags. cbn [CF PF ZF SF OF Z.b2z].
  rewrite !Z.sub_0_r, sub_zero_iff by lia. rewrite !andb_true_l. pose proof (sub_signed_lt w x y Hw) as Hlt.
  assert ((swrap w x =? swrap w y) = (wrap w x =? wrap w y)) as Heq.
  { pose proof (swrap_cong w x y). destruct (Z.eqb_spec (wrap w x) (wrap w y)); [rewrite H by done; apply Z.eqb_refl|].
    apply Z.eqb_neq. intros Hs. apply (f_equal (wrap w)) in Hs. rewrite !wrap_swrap in Hs by lia. done. }
  destruct c; cbn [compare_spec]; try done; rewrite ?Hlt, <- ?Heq; try lia.
  by rewrite negb_involutive.
Qed.

(** C35: After a comparison the conditions decide the order. For any two words compared
    at any size, [amd64g_calculate_condition] returns 1 exactly if: B/NB/BE/NBE, the
    unsigned order holds; L/NL/LE/NLE, the signed order; Z/NZ, equality of the operands;
    O, S and P, overflow, sign and parity of the difference. *)
Theorem condition_after_compare (sz : size) (c : AMD64Condcode) (x y : Z)
  (Hx : word x = true) (Hy : word y = true) (Hc : c ≠ AMD64CondAlways) :
  let '(op, d1, d2, nd) := thunk_of (I_sub sz x y) in
  amd64g_calculate_condition (cond_code c) (cc_code op) d1 d2 nd = Ret (Z.b2z (compare_spec (bits sz) c x y)).
Proof.
  cbn [thunk_of]. erewrite condition_holds; [|done|].
  - f_equal. f_equal. apply compare_holds. pose proof (is_width sz). lia.
  - destruct sz; apply (f_equal Ret), ACTIONS_SUB_ok; done.
Qed.

(** ** The carry on its own *)

Lemma rflags_c_ok op d1 d2 nd :
  amd64g_calculate_rflags_c op d1 d2 nd =
  (r ← amd64g_calculate_rflags_all_WRK op d1 d2 nd; Ret (Z.b2z (Z.testbit r 0))).
Proof.
  unfold amd64g_calculate_rflags_c.
  assert (∀ m : outcome Z, (r ← m; Ret (Z.land r AMD64G_CC_MASK_C)) = (r ← m; Ret (Z.b2z (Z.testbit r 0)))) as Hd.
  { intros [r|f]; [|done]. cbn. by rewrite cf_ok. }
  destruct (CC_OP_of op) as [o|] eqn:Ho; [|apply Hd].
  assert (∀ w, 8 <= w <= 64 -> Z.testbit (ACTIONS_LOGIC w d1) 0 = false) as Hl.
  { intros w Hw. rewrite ACTIONS_LOGIC_ok by done. by destruct (pack_flags_bits (result_flags w d1 false true false true false)) as (-> & _). }
  unfold amd64g_calculate_rflags_all_WRK. rewrite Ho.
  destruct o; try apply Hd; cbn [mbind outcome_bind]; try (by rewrite Hl by lia).
  f_equal. change 1 with AMD64G_CC_MASK_C. unfold AMD64G_CC_SHIFT_C. rewrite Z.shiftr_0_r, cf_ok, Z.land_spec. by rewrite andb_true_r.
Qed.

(** C34: The flags are those of the processor. For every instruction of the scheme, at
    every size and for all operands, the thunk that the comments prescribe makes
    [amd64g_calculate_rflags_all] compute the carry, parity, auxiliary carry, zero, sign
    and overflow flags as the manual defines them from the operands as numbers (carry
    out of the addition, signed result out of range, low half of a product, last bit
    shifted out, ...), and [amd64g_calculate_rflags_c] the carry alone, as the number 0
    or 1; the only exception is the unsigned 16-bit multiplication, whose product is
    computed in [int] and overflows from 2^31 on. *)
Theorem rflags_architectural (i : insn) (Hok : insn_ok i = true) :
  calculate (thunk_of i) = (if umulw_overflows i then Fault IntOverflow else Ret (flags_after i)) ∧
  calculate_c (thunk_of i) =
    (if umulw_overflows i then Fault IntOverflow else Ret (Z.b2z (Z.testbit (flags_after i) AMD64G_CC_SHIFT_C))).
Proof.
  pose proof (rflags_all_ok i Hok) as H. split; [done|]. unfold calculate, calculate_c in *.
  destruct (thunk_of i) as [[[op d1] d2] nd]. rewrite rflags_c_ok.
  unfold amd64g_calculate_rflags_all in H. rewrite H. by destruct (umulw_overflows i).
Qed.

(** ** The guest state *)

Lemma land_nonzero x k : 0 <= k -> negb (Z.land x (Z.shiftl 1 k) =? 0) = Z.testbit x k.
Proof. intros. rewrite land_bit by done. apply negb_involutive. Qed.

Lemma testbit_OSZACP j : Z.testbit OSZACP j = bool_decide (j ∈ [0; 2; 4; 6; 7; 11]).
Proof.
  unfold OSZACP, AMD64G_CC_MASK_O, AMD64G_CC_MASK_S, AMD64G_CC_MASK_Z, AMD64G_CC_MASK_A, AMD64G_CC_MASK_C, AMD64G_CC_MASK_P,
    AMD64G_CC_SHIFT_O, AMD64G_CC_SHIFT_S, AMD64G_CC_SHIFT_Z, AMD64G_CC_SHIFT_A, AMD64G_CC_SHIFT_C, AMD64G_CC_SHIFT_P.
  rewrite !Z.lor_spec, !testbit_mask by done. apply eq_true_iff_eq.
  rewrite !orb_true_iff, !bool_decide_eq_true, !elem_of_cons, elem_of_nil. tauto.
Qed.

Lemma lor_if b k x j : 0 <= k -> Z.testbit (if b : bool then Z.lor x (Z.shiftl 1 k) else x) j = Z.testbit x j || (b && bool_decide (j = k)).
Proof. intros. destruct b; [by rewrite Z.lor_spec, testbit_mask|]. by rewrite orb_false_r. Qed.

Lemma word_high r j : word r = true -> 64 <= j -> Z.testbit r j = false.
Proof.
  intros Hr Hj. unfold word in Hr. b2p. rewrite <- (wrap_small 64 r) by lia. rewrite testbit_wrap by lia.
  by replace (j <? 64) with false by lia.
Qed.

Lemma clear_bit r m j : word r = true -> 0 <= m -> 0 <= j ->
  Z.testbit (clear r (Z.shiftl 1 m)) j = Z.testbit r j && negb (bool_decide (j = m)).
Proof.
  intros Hr Hm Hj. unfold clear. by rewrite testbit_clear, testbit_mask.
Qed.

Lemma word_clear r m : word r = true -> word (clear r m) = true.
Proof.
  intros Hr. assert (clear r m = u64 (clear r m)) as ->.
  { apply Z.bits_inj'. intros j Hj. destruct (decide (j < 64)); [by rewrite testbit_u64 by lia|].
    unfold u64. rewrite testbit_wrap by lia. replace (j <? 64) with false by lia.
    unfold clear. by rewrite Z.land_spec, word_high by (done || lia). }
  unfold word, u64. pose proof (wrap_range 64 (clear r m)). lia.
Qed.

(** Taking a flag out of the word. *)
Lemma take_flag {A} (a b : A) r k : word r = true -> 0 <= k ->
  ∃ r', (if negb (Z.land r (Z.shiftl 1 k) =? 0) then (a, clear r (Z.shiftl 1 k)) else (b, r)) =
          (if Z.testbit r k then a else b, r') ∧
        word r' = true ∧ ∀ j, 0 <= j -> Z.testbit r' j = Z.testbit r j && negb (bool_decide (j = k)).
Proof.
  intros Hr Hk. rewrite land_nonzero by done. destruct (Z.testbit r k) eqn:Hb.
  - exists (clear r (Z.shiftl 1 k)). split_and!; [done|by apply word_clear|]. intros j Hj. by rewrite clear_bit.
  - exists r. split_and!; [done..|]. intros j Hj. case_bool_decide as Hd; [by subst j; rewrite Hb|]. by rewrite andb_true_r.
Qed.

Definition add_flags_of_state (s : VexGuestAMD64State) (r : Z) : Z :=
  let r := if s64 (guest_DFLAG s) =? -1 then Z.lor r (Z.shiftl 1 10) else r in
  let r := if guest_IDFLAG s =? 1 then Z.lor r (Z.shiftl 1 21) else r in
  if guest_ACFLAG s =? 1 then Z.lor r (Z.shiftl 1 18) else r.

Lemma get_rflags_eq s r : thunk_flags s = Ret r ->
  LibVEX_GuestAMD64_get_rflags s =
  if (s64 (guest_DFLAG s) =? 1) || (s64 (guest_DFLAG s) =? -1) then Ret (add_flags_of_state s r) else Fault AssertFail.
Proof. intros H. unfold LibVEX_GuestAMD64_get_rflags. rewrite H. cbn. unfold vg_assert. by destruct (_ || _). Qed.

Lemma add_flags_bit s r j :
  Z.testbit (add_flags_of_state s r) j =
  Z.testbit r j || ((s64 (guest_DFLAG s) =? -1) && bool_decide (j = 10)) || ((guest_IDFLAG s =? 1) && bool_decide (j = 21))
    || ((guest_ACFLAG s =? 1) && bool_decide (j = 18)).
Proof. unfold add_flags_of_state. by rewrite !lor_if. Qed.

Lemma testbit_RFLAGS_MASK j :
  Z.testbit RFLAGS_MASK j = Z.testbit OSZACP j || bool_decide (j = 10) || bool_decide (j = 21) || bool_decide (j = 18).
Proof.
  unfold RFLAGS_MASK, AMD64G_CC_MASK_D, AMD64G_CC_MASK_ID, AMD64G_CC_MASK_AC. by rewrite !Z.lor_spec, !testbit_mask.
Qed.

Lemma put_get rflags s : word rflags = true ->
  LibVEX_GuestAMD64_get_rflags (LibVEX_GuestAMD64_put_rflags rflags s) = Ret (Z.land rflags RFLAGS_MASK).
Proof.
  intros Hr. unfold LibVEX_GuestAMD64_put_rflags.
  destruct (take_flag (u64 (-1)) 1 rflags 10) as (r1 & E1 & Hr1 & B1); [done..|].
  destruct (take_flag 1 0 r1 21) as (r2 & E2 & Hr2 & B2); [done..|].
  destruct (take_flag 1 0 r2 18) as (r3 & E3 & Hr3 & B3); [done..|].
  change AMD64G_CC_MASK_D with (Z.shiftl 1 10). change AMD64G_CC_MASK_ID with (Z.shiftl 1 21).
  change AMD64G_CC_MASK_AC with (Z.shiftl 1 18). rewrite E1, E2, E3.
  erewrite get_rflags_eq by done. cbn [guest_DFLAG].
  match goal with |- (if ?c then _ else _) = _ => replace c with true by by destruct (Z.testbit rflags 10) end.
  f_equal. apply Z.bits_inj'. intros j Hj. rewrite add_flags_bit. cbn [guest_DFLAG guest_IDFLAG guest_ACFLAG guest_CC_DEP1].
  rewrite !Z.land_spec, testbit_RFLAGS_MASK, B3, B2, B1 by done. rewrite (B2 18), (B1 18), (B1 21) by done.
  assert (∀ (b : bool) (x y k : Z), (if b then x else y) =? k = if b then x =? k else y =? k) as Hif by by intros [].
  assert (∀ (b : bool) x y, s64 (if b then x else y) = if b then s64 x else s64 y) as Hs by by intros [].
  rewrite Hs, !Hif. rewrite testbit_OSZACP.
  destruct (decide (j = 10)) as [->|]; [destruct (Z.testbit rflags 10), (Z.testbit rflags 18), (Z.testbit rflags 21); vm_compute; reflexivity|].
  destruct (decide (j = 21)) as [->|]; [destruct (Z.testbit rflags 10), (Z.testbit rflags 18), (Z.testbit rflags 21); vm_compute; reflexivity|].
  destruct (decide (j = 18)) as [->|]; [destruct (Z.testbit rflags 10), (Z.testbit rflags 18), (Z.testbit rflags 21); vm_compute; reflexivity|].
  rewrite (bool_decide_eq_false_2 (j = 10)), (bool_decide_eq_false_2 (j = 21)), (bool_decide_eq_false_2 (j = 18)) by done.
  cbn. rewrite !andb_true_r, !andb_false_r, !orb_false_r. by destruct (Z.testbit rflags j), (bool_decide _).
Qed.

Lemma oszacp_word r : Z.land r OSZACP = r -> word r = true.
Proof.
  intros Hr. assert (r = u64 r) as ->.
  { rewrite <- Hr. apply Z.bits_inj'. intros j Hj. unfold u64. rewrite testbit_wrap by lia.
    destruct (Z.ltb_spec j 64); [by rewrite ?andb_true_r|cbn]. rewrite Z.land_spec, testbit_OSZACP.
    rewrite bool_decide_eq_false_2; [by rewrite andb_false_r|]. rewrite !elem_of_cons, elem_of_nil. lia. }
  unfold word, u64. pose proof (wrap_range 64 r). lia.
Qed.

(** Setting the carry of a word of flags. *)
Lemma put_c_bit c r j : word r = true -> 0 <= j ->
  Z.testbit (if negb (Z.land c 1 =? 0) then Z.lor r AMD64G_CC_MASK_C else clear r AMD64G_CC_MASK_C) j =
  Z.testbit (set_flag AMD64G_CC_SHIFT_C (Z.testbit c 0) r) j.
Proof.
  intros Hr Hj. change (Z.land c 1) with (Z.land c (Z.shiftl 1 0)). rewrite land_nonzero, testbit_set_flag by done.
  change AMD64G_CC_MASK_C with (Z.shiftl 1 0). change AMD64G_CC_SHIFT_C with 0.
  destruct (Z.testbit c 0); [rewrite Z.lor_spec, testbit_mask by done|rewrite clear_bit by done];
    case_bool_decide; subst; rewrite ?orb_true_r, ?orb_false_r, ?andb_false_r, ?andb_true_r; done.
Qed.

Lemma put_c_get c s r old : LibVEX_GuestAMD64_get_rflags s = Ret old -> thunk_flags s = Ret r -> Z.land r OSZACP = r ->
  (s' ← LibVEX_GuestAMD64_put_rflag_c c s; LibVEX_GuestAMD64_get_rflags s') =
    Ret (set_flag AMD64G_CC_SHIFT_C (Z.testbit c 0) old).
Proof.
  intros Hold Hr Hin. unfold LibVEX_GuestAMD64_put_rflag_c. rewrite Hr. cbn [mbind outcome_bind].
  pose proof (oszacp_word r Hin) as Hw. erewrite get_rflags_eq in Hold by done.
  erewrite get_rflags_eq by done. cbn [guest_DFLAG guest_CC_DEP1]. destruct (_ || _); [|done].
  assert (old = add_flags_of_state s r) as -> by congruence. clear Hold. f_equal. apply Z.bits_inj'. intros j Hj.
  rewrite testbit_set_flag, !add_flags_bit, Z.land_spec by done. cbn [guest_DFLAG guest_IDFLAG guest_ACFLAG].
  rewrite put_c_bit, testbit_set_flag, testbit_OSZACP by done. rewrite <- Hin at 2. rewrite Z.land_spec, testbit_OSZACP.
  change AMD64G_CC_SHIFT_C with 0. destruct (decide (j = 0)) as [->|Hne].
  - cbn. by rewrite !andb_true_r, !andb_false_r, !orb_false_r.
  - by rewrite bool_decide_eq_false_2 by done.
Qed.

(** Storing and reading the flags is a round trip. [LibVEX_GuestAMD64_put_rflags]
    followed by [LibVEX_GuestAMD64_get_rflags] gives the flags O, S, Z, A, C, P, D, ID and
    AC of the word that was stored, from any guest state and without failing the
    assertion on the direction flag. In a state whose flags can be read and whose thunk
    gives just the flags O, S, Z, A, C and P, [LibVEX_GuestAMD64_put_rflag_c] changes the
    carry of what is read and nothing else. *)
Theorem rflags_roundtrip (rflags c : Z) (s : VexGuestAMD64State) (r old : Z)
  (Hr : word rflags = true) (Hold : LibVEX_GuestAMD64_get_rflags s = Ret old)
  (Hthunk : thunk_flags s = Ret r) (Hin : Z.land r OSZACP = r) :
  LibVEX_GuestAMD64_get_rflags (LibVEX_GuestAMD64_put_rflags rflags s) = Ret (Z.land rflags RFLAGS_MASK) ∧
  (s' ← LibVEX_GuestAMD64_put_rflag_c c s; LibVEX_GuestAMD64_get_rflags s') =
    Ret (set_flag AMD64G_CC_SHIFT_C (Z.testbit c 0) old).
Proof. split; [by apply put_get|by apply (put_c_get c s r)]. Qed.

(** ** Instances *)

(** 255 + 1 in bytes: carry, parity, auxiliary carry and zero. *)
Lemma rflags_architectural_witness :
  calculate (thunk_of (I_add B 255 1)) = Ret 85 ∧ calculate_c (thunk_of (I_add B 255 1)) = Ret 1.
Proof. exact (rflags_architectural (I_add B 255 1) ltac:(reflexivity)). Defined.

(** The halves 2^31 and 1 as signed words: less; as unsigned words: greater. *)
Lemma condition_after_compare_witness :
  amd64g_calculate_condition (cond_code AMD64CondL) (cc_code AMD64G_CC_OP_SUBL) (2 ^ 31) 1 0 = Ret 1.
Proof. exact (condition_after_compare L AMD64CondL (2 ^ 31) 1 ltac:(reflexivity) ltac:(reflexivity) ltac:(discriminate)). Defined.

Definition example_state : VexGuestAMD64State :=
  {| guest_CC_OP := cc_code AMD64G_CC_OP_SUBQ; guest_CC_DEP1 := 3; guest_CC_DEP2 := 5; guest_CC_NDEP := 0;
     guest_DFLAG := 1; guest_ACFLAG := 0; guest_IDFLAG := 1 |}.

Lemma rflags_roundtrip_witness :
  LibVEX_GuestAMD64_get_rflags (LibVEX_GuestAMD64_put_rflags 0xFFFFFFFF example_state) = Ret 0x240CD5.
Proof.
  exact (proj1 (rflags_roundtrip 0xFFFFFFFF 0 example_state 145 2097297 ltac:(reflexivity) ltac:(reflexivity)
    ltac:(reflexivity) ltac:(reflexivity))).
Defined.
