(* ===== verification/Amd64Spec.v ===== *)
(** * Specialised flags

    vg/VEX/priv/guest_amd64_helpers.c, [guest_amd64_spechelper]: when the optimiser
    knows the operation of the thunk, and the condition, it replaces a call of
    [amd64g_calculate_condition] or [amd64g_calculate_rflags_c] by an expression.

    The function is a long sequence of tests that return; here it is a list of rules,
    cut where the comments of the source cut it. [NULL] is [None]. *)

From Stdlib Require Import String.
From stdpp Require Import strings.
From S2P Require Import Prelude Lanes VexIR IrFold Amd64Flags.
Local Open Scope Z_scope.

(** * Definitions *)

Definition isU64 (e : IRExpr) (n : Z) : bool :=
  match e with Iex_Const (Ico_U64 m) => m =? n | _ => false end.

Definition isU64_1_shl_N_literal (w64 : Z) : outcome Z :=
  if (w64 <? Z.shiftl 1 1) || (Z.shiftl 1 31 <? w64) then Ret 0
  else if negb (Z.land w64 (u64 (w64 - 1)) =? 0) then Ret 0
  else first_that (fun n => w64 =? u64 (Z.shiftl 1 n)) (seqZ 1 31).

Definition isU64_1_shl_N (e : IRExpr) : outcome Z :=
  match e with Iex_Const (Ico_U64 w64) => isU64_1_shl_N_literal w64 | _ => Ret 0 end.

Definition isU64_1_shl_N_minus_1 (e : IRExpr) : outcome Z :=
  match e with
  | Iex_Const (Ico_U64 w64) =>
      if w64 =? 0xFFFFFFFFFFFFFFFF then Ret 0 else isU64_1_shl_N_literal (u64 (w64 + 1))
  | _ => Ret 0
  end.

Definition unop := Iex_Unop.
Definition binop := Iex_Binop.
Definition mkU64 (n : Z) : IRExpr := Iex_Const (Ico_U64 n).
Definition mkU32 (n : Z) : IRExpr := Iex_Const (Ico_U32 n).
Definition mkU8 (n : Z) : IRExpr := Iex_Const (Ico_U8 (u8 n)).

(** A test that returns an expression; one that asserts first that the operands are atoms. *)
Definition when (b : bool) (e : IRExpr) : outcome (option IRExpr) := Ret (if b then Some e else None).
Definition when_atoms (b : bool) (e1 e2 e : IRExpr) : outcome (option IRExpr) :=
  if b then _ ← vg_assert (isIRAtom e1); _ ← vg_assert (isIRAtom e2); Ret (Some e) else Ret None.

(** The tests in turn. *)
Fixpoint first_of (l : list (outcome (option IRExpr))) : outcome (option IRExpr) :=
  match l with
  | [] => Ret None
  | r :: l => o ← r; match o with Some e => Ret (Some e) | None => first_of l end
  end.

Section Condition.
Variables cond cc_op cc_dep1 cc_dep2 : IRExpr.

Definition after (op : CC_OP) (c : AMD64Condcode) : bool := isU64 cc_op (cc_code op) && isU64 cond (cond_code c).

Definition spec_ADDQ : outcome (option IRExpr) := first_of [
  when (after AMD64G_CC_OP_ADDQ AMD64CondZ)
    (unop Iop_1Uto64 (binop Iop_CmpEQ64 (binop Iop_Add64 cc_dep1 cc_dep2) (mkU64 0)));
  when (after AMD64G_CC_OP_ADDQ AMD64CondS)
    (binop Iop_And64 (binop Iop_Shr64 (binop Iop_Add64 cc_dep1 cc_dep2) (mkU8 63)) (mkU64 1))].

Definition spec_ADDL : outcome (option IRExpr) := first_of [
  when_atoms (after AMD64G_CC_OP_ADDL AMD64CondO) cc_dep1 cc_dep2
    (binop Iop_And64
       (binop Iop_Shr64
          (binop Iop_And64
             (unop Iop_Not64 (binop Iop_Xor64 cc_dep1 cc_dep2))
             (binop Iop_Xor64 cc_dep1 (binop Iop_Add64 cc_dep1 cc_dep2)))
          (mkU8 31))
       (mkU64 1));
  when (after AMD64G_CC_OP_ADDL AMD64CondS)
    (binop Iop_And64 (binop Iop_Shr64 (binop Iop_Add64 cc_dep1 cc_dep2) (mkU8 31)) (mkU64 1));
  when (after AMD64G_CC_OP_ADDL AMD64CondNS)
    (binop Iop_Xor64
       (binop Iop_And64 (binop Iop_Shr64 (binop Iop_Add64 cc_dep1 cc_dep2) (mkU8 31)) (mkU64 1))
       (mkU64 1))].

(** For [SUBQ] then [NO], as for [SUBL], there is a test without an action. *)
Definition spec_SUBQ : outcome (option IRExpr) := first_of [
  when_atoms (after AMD64G_CC_OP_SUBQ AMD64CondO) cc_dep1 cc_dep2
    (binop Iop_Shr64
       (binop Iop_And64
          (binop Iop_Xor64 cc_dep1 cc_dep2)
          (binop Iop_Xor64 cc_dep1 (binop Iop_Sub64 cc_dep1 cc_dep2)))
       (mkU8 63));
  when (after AMD64G_CC_OP_SUBQ AMD64CondB) (unop Iop_1Uto64 (binop Iop_CmpLT64U cc_dep1 cc_dep2));
  when (after AMD64G_CC_OP_SUBQ AMD64CondNB) (unop Iop_1Uto64 (binop Iop_CmpLE64U cc_dep2 cc_dep1));
  when (after AMD64G_CC_OP_SUBQ AMD64CondZ) (unop Iop_1Uto64 (binop Iop_CmpEQ64 cc_dep1 cc_dep2));
  when (after AMD64G_CC_OP_SUBQ AMD64CondNZ) (unop Iop_1Uto64 (binop Iop_CmpNE64 cc_dep1 cc_dep2));
  when (after AMD64G_CC_OP_SUBQ AMD64CondBE) (unop Iop_1Uto64 (binop Iop_CmpLE64U cc_dep1 cc_dep2));
  when (after AMD64G_CC_OP_SUBQ AMD64CondNBE)
    (binop Iop_Xor64 (unop Iop_1Uto64 (binop Iop_CmpLE64U cc_dep1 cc_dep2)) (mkU64 1));
  when (after AMD64G_CC_OP_SUBQ AMD64CondS) (binop Iop_Shr64 (binop Iop_Sub64 cc_dep1 cc_dep2) (mkU8 63));
  when (after AMD64G_CC_OP_SUBQ AMD64CondNS)
    (binop Iop_Xor64 (binop Iop_Shr64 (binop Iop_Sub64 cc_dep1 cc_dep2) (mkU8 63)) (mkU64 1));
  when (after AMD64G_CC_OP_SUBQ AMD64CondL) (unop Iop_1Uto64 (binop Iop_CmpLT64S cc_dep1 cc_dep2));
  when (after AMD64G_CC_OP_SUBQ AMD64CondNL) (unop Iop_1Uto64 (binop Iop_CmpLE64S cc_dep2 cc_dep1));
  when (after AMD64G_CC_OP_SUBQ AMD64CondLE) (unop Iop_1Uto64 (binop Iop_CmpLE64S cc_dep1 cc_dep2));
  when (after AMD64G_CC_OP_SUBQ AMD64CondNLE) (unop Iop_1Uto64 (binop Iop_CmpLT64S cc_dep2 cc_dep1))].

Definition spec_SUBL_O : outcome (option IRExpr) :=
  when_atoms (after AMD64G_CC_OP_SUBL AMD64CondO) cc_dep1 cc_dep2
    (binop Iop_And64
       (binop Iop_Shr64
          (binop Iop_And64
             (binop Iop_Xor64 cc_dep1 cc_dep2)
             (binop Iop_Xor64 cc_dep1 (binop Iop_Sub64 cc_dep1 cc_dep2)))
          (mkU8 31))
       (mkU64 1)).

(** A comparison with a power of two: [n], and [is_NB_or_NBE]. *)
Definition power_of_two : outcome (Z * bool) :=
  if isU64 cc_op (cc_code AMD64G_CC_OP_SUBL) then
    if isU64 cond (cond_code AMD64CondB) || isU64 cond (cond_code AMD64CondNB) then
      n ← isU64_1_shl_N cc_dep2; Ret (n, isU64 cond (cond_code AMD64CondNB))
    else if isU64 cond (cond_code AMD64CondBE) || isU64 cond (cond_code AMD64CondNBE) then
      n ← isU64_1_shl_N_minus_1 cc_dep2; Ret (n, isU64 cond (cond_code AMD64CondNBE))
    else Ret (0, false)
  else Ret (0, false).

Definition spec_SUBL_power : outcome (option IRExpr) :=
  '(n, is_NB_or_NBE) ← power_of_two;
  if 0 <? n then
    _ ← vg_assert ((1 <=? n) && (n <=? 31));
    Ret (Some (unop Iop_1Uto64
      (binop (if is_NB_or_NBE : bool then Iop_CmpNE32 else Iop_CmpEQ32)
         (binop Iop_Shr32 (unop Iop_64to32 cc_dep1) (mkU8 n))
         (mkU32 0))))
  else Ret None.

Definition spec_SUBL : outcome (option IRExpr) := first_of [
  spec_SUBL_O; spec_SUBL_power;
  when (after AMD64G_CC_OP_SUBL AMD64CondB)
    (unop Iop_1Uto64 (binop Iop_CmpLT32U (unop Iop_64to32 cc_dep1) (unop Iop_64to32 cc_dep2)));
  when (after AMD64G_CC_OP_SUBL AMD64CondNB)
    (unop Iop_1Uto64 (binop Iop_CmpLE32U (unop Iop_64to32 cc_dep2) (unop Iop_64to32 cc_dep1)));
  when (after AMD64G_CC_OP_SUBL AMD64CondZ)
    (unop Iop_1Uto64 (binop Iop_CmpEQ32 (unop Iop_64to32 cc_dep1) (unop Iop_64to32 cc_dep2)));
  when (after AMD64G_CC_OP_SUBL AMD64CondNZ)
    (unop Iop_1Uto64 (binop Iop_CmpNE32 (unop Iop_64to32 cc_dep1) (unop Iop_64to32 cc_dep2)));
  when (after AMD64G_CC_OP_SUBL AMD64CondBE)
    (unop Iop_1Uto64 (binop Iop_CmpLE32U (unop Iop_64to32 cc_dep1) (unop Iop_64to32 cc_dep2)));
  when (after AMD64G_CC_OP_SUBL AMD64CondNBE)
    (unop Iop_1Uto64 (binop Iop_CmpLT32U (unop Iop_64to32 cc_dep2) (unop Iop_64to32 cc_dep1)));
  when (after AMD64G_CC_OP_SUBL AMD64CondS)
    (binop Iop_And64 (binop Iop_Shr64 (binop Iop_Sub64 cc_dep1 cc_dep2) (mkU8 31)) (mkU64 1));
  when (after AMD64G_CC_OP_SUBL AMD64CondNS)
    (binop Iop_Xor64
       (binop Iop_And64 (binop Iop_Shr64 (binop Iop_Sub64 cc_dep1 cc_dep2) (mkU8 31)) (mkU64 1))
       (mkU64 1));
  when (after AMD64G_CC_OP_SUBL AMD64CondL)
    (unop Iop_1Uto64 (binop Iop_CmpLT32S (unop Iop_64to32 cc_dep1) (unop Iop_64to32 cc_dep2)));
  when (after AMD64G_CC_OP_SUBL AMD64CondNL)
    (unop Iop_1Uto64 (binop Iop_CmpLE32S (unop Iop_64to32 cc_dep2) (unop Iop_64to32 cc_dep1)));
  when (after AMD64G_CC_OP_SUBL AMD64CondLE)
    (unop Iop_1Uto64 (binop Iop_CmpLE32S (unop Iop_64to32 cc_dep1) (unop Iop_64to32 cc_dep2)));
  when (after AMD64G_CC_OP_SUBL AMD64CondNLE)
    (unop Iop_1Uto64 (binop Iop_CmpLT32S (unop Iop_64to32 cc_dep2) (unop Iop_64to32 cc_dep1)))].

Definition spec_SUBW : outcome (option IRExpr) := first_of [
  when (after AMD64G_CC_OP_SUBW AMD64CondZ)
    (unop Iop_1Uto64 (binop Iop_CmpEQ16 (unop Iop_64to16 cc_dep1) (unop Iop_64to16 cc_dep2)));
  when (after AMD64G_CC_OP_SUBW AMD64CondNZ)
    (unop Iop_1Uto64 (binop Iop_CmpNE16 (unop Iop_64to16 cc_dep1) (unop Iop_64to16 cc_dep2)));
  when (after AMD64G_CC_OP_SUBW AMD64CondBE)
    (unop Iop_1Uto64 (binop Iop_CmpLE64U (binop Iop_Shl64 cc_dep1 (mkU8 48)) (binop Iop_Shl64 cc_dep2 (mkU8 48))));
  when (after AMD64G_CC_OP_SUBW AMD64CondS && isU64 cc_dep2 0)
    (binop Iop_And64 (binop Iop_Shr64 cc_dep1 (mkU8 15)) (mkU64 1));
  when (after AMD64G_CC_OP_SUBW AMD64CondNS && isU64 cc_dep2 0)
    (binop Iop_Xor64 (binop Iop_And64 (binop Iop_Shr64 cc_dep1 (mkU8 15)) (mkU64 1)) (mkU64 1));
  when (after AMD64G_CC_OP_SUBW AMD64CondLE)
    (unop Iop_1Uto64 (binop Iop_CmpLE64S (binop Iop_Shl64 cc_dep1 (mkU8 48)) (binop Iop_Shl64 cc_dep2 (mkU8 48))))].

Definition spec_SUBB : outcome (option IRExpr) := first_of [
  when (after AMD64G_CC_OP_SUBB AMD64CondB)
    (unop Iop_1Uto64 (binop Iop_CmpLT64U (binop Iop_And64 cc_dep1 (mkU64 0xFF)) (binop Iop_And64 cc_dep2 (mkU64 0xFF))));
  when (after AMD64G_CC_OP_SUBB AMD64CondNB)
    (unop Iop_1Uto64 (binop Iop_CmpLE64U (binop Iop_And64 cc_dep2 (mkU64 0xFF)) (binop Iop_And64 cc_dep1 (mkU64 0xFF))));
  when (after AMD64G_CC_OP_SUBB AMD64CondZ)
    (unop Iop_1Uto64 (binop Iop_CmpEQ8 (unop Iop_64to8 cc_dep1) (unop Iop_64to8 cc_dep2)));
  when (after AMD64G_CC_OP_SUBB AMD64CondNZ)
    (unop Iop_1Uto64 (binop Iop_CmpNE8 (unop Iop_64to8 cc_dep1) (unop Iop_64to8 cc_dep2)));
  when (after AMD64G_CC_OP_SUBB AMD64CondBE)
    (unop Iop_1Uto64 (binop Iop_CmpLE64U (binop Iop_And64 cc_dep1 (mkU64 0xFF)) (binop Iop_And64 cc_dep2 (mkU64 0xFF))));
  when (after AMD64G_CC_OP_SUBB AMD64CondS && isU64 cc_dep2 0)
    (binop Iop_And64 (binop Iop_Shr64 cc_dep1 (mkU8 7)) (mkU64 1));
  when (after AMD64G_CC_OP_SUBB AMD64CondNS && isU64 cc_dep2 0)
    (binop Iop_Xor64 (binop Iop_And64 (binop Iop_Shr64 cc_dep1 (mkU8 7)) (mkU64 1)) (mkU64 1))].

Definition spec_LOGICQ : outcome (option IRExpr) := first_of [
  when (after AMD64G_CC_OP_LOGICQ AMD64CondZ) (unop Iop_1Uto64 (binop Iop_CmpEQ64 cc_dep1 (mkU64 0)));
  when (after AMD64G_CC_OP_LOGICQ AMD64CondNZ) (unop Iop_1Uto64 (binop Iop_CmpNE64 cc_dep1 (mkU64 0)));
  when (after AMD64G_CC_OP_LOGICQ AMD64CondL) (unop Iop_1Uto64 (binop Iop_CmpLT64S cc_dep1 (mkU64 0)));
  when (after AMD64G_CC_OP_LOGICQ AMD64CondS) (binop Iop_Shr64 cc_dep1 (mkU8 63));
  when (after AMD64G_CC_OP_LOGICQ AMD64CondNS)
    (binop Iop_Xor64 (binop Iop_Shr64 cc_dep1 (mkU8 63)) (mkU64 1))].

Definition spec_LOGICL : outcome (option IRExpr) := first_of [
  when (after AMD64G_CC_OP_LOGICL AMD64CondZ)
    (unop Iop_1Uto64 (binop Iop_CmpEQ32 (unop Iop_64to32 cc_dep1) (mkU32 0)));
  when (after AMD64G_CC_OP_LOGICL AMD64CondNZ)
    (unop Iop_1Uto64 (binop Iop_CmpNE32 (unop Iop_64to32 cc_dep1) (mkU32 0)));
  when (after AMD64G_CC_OP_LOGICL AMD64CondLE)
    (unop Iop_1Uto64 (binop Iop_CmpLE32S (unop Iop_64to32 cc_dep1) (mkU32 0)));
  when (after AMD64G_CC_OP_LOGICL AMD64CondS)
    (binop Iop_And64 (binop Iop_Shr64 cc_dep1 (mkU8 31)) (mkU64 1));
  when (after AMD64G_CC_OP_LOGICL AMD64CondNS)
    (binop Iop_Xor64 (binop Iop_And64 (binop Iop_Shr64 cc_dep1 (mkU8 31)) (mkU64 1)) (mkU64 1))].

Definition spec_LOGICW : outcome (option IRExpr) := first_of [
  when (after AMD64G_CC_OP_LOGICW AMD64CondZ)
    (unop Iop_1Uto64 (binop Iop_CmpEQ32 (unop Iop_16Uto32 (unop Iop_64to16 cc_dep1)) (mkU32 0)));
  when (after AMD64G_CC_OP_LOGICW AMD64CondNZ)
    (unop Iop_1Uto64 (binop Iop_CmpNE32 (unop Iop_16Uto32 (unop Iop_64to16 cc_dep1)) (mkU32 0)));
  when (after AMD64G_CC_OP_LOGICW AMD64CondS)
    (binop Iop_And64 (binop Iop_Shr64 cc_dep1 (mkU8 15)) (mkU64 1));
  when (after AMD64G_CC_OP_LOGICW AMD64CondNS)
    (binop Iop_Xor64 (binop Iop_And64 (binop Iop_Shr64 cc_dep1 (mkU8 15)) (mkU64 1)) (mkU64 1))].

Definition spec_LOGICB : outcome (option IRExpr) := first_of [
  when (after AMD64G_CC_OP_LOGICB AMD64CondZ)
    (unop Iop_1Uto64 (binop Iop_CmpEQ32 (unop Iop_8Uto32 (unop Iop_64to8 cc_dep1)) (mkU32 0)));
  when (after AMD64G_CC_OP_LOGICB AMD64CondNZ)
    (unop Iop_1Uto64 (binop Iop_CmpNE32 (unop Iop_8Uto32 (unop Iop_64to8 cc_dep1)) (mkU32 0)));
  when (after AMD64G_CC_OP_LOGICB AMD64CondS)
    (binop Iop_And64 (binop Iop_Shr64 cc_dep1 (mkU8 7)) (mkU64 1));
  when (after AMD64G_CC_OP_LOGICB AMD64CondNS)
    (binop Iop_Xor64 (binop Iop_And64 (binop Iop_Shr64 cc_dep1 (mkU8 7)) (mkU64 1)) (mkU64 1))].

Definition spec_INC_DEC : outcome (option IRExpr) := first_of [
  when (after AMD64G_CC_OP_INCB AMD64CondLE)
    (binop Iop_And64 (binop Iop_Shr64 (binop Iop_Sub64 cc_dep1 (mkU64 1)) (mkU8 7)) (mkU64 1));
  when (after AMD64G_CC_OP_INCW AMD64CondZ)
    (unop Iop_1Uto64 (binop Iop_CmpEQ64 (binop Iop_Shl64 cc_dep1 (mkU8 48)) (mkU64 0)));
  when (after AMD64G_CC_OP_DECL AMD64CondZ)
    (unop Iop_1Uto64 (binop Iop_CmpEQ32 (unop Iop_64to32 cc_dep1) (mkU32 0)));
  when (after AMD64G_CC_OP_DECW AMD64CondNZ)
    (unop Iop_1Uto64 (binop Iop_CmpNE64 (binop Iop_Shl64 cc_dep1 (mkU8 48)) (mkU64 0)))].

Definition spec_SHRQ : outcome (option IRExpr) := first_of [
  when (after AMD64G_CC_OP_SHRQ AMD64CondZ) (unop Iop_1Uto64 (binop Iop_CmpEQ64 cc_dep1 (mkU64 0)));
  when (after AMD64G_CC_OP_SHRQ AMD64CondNZ) (unop Iop_1Uto64 (binop Iop_CmpNE64 cc_dep1 (mkU64 0)));
  when (after AMD64G_CC_OP_SHRQ AMD64CondS) (binop Iop_Shr64 cc_dep1 (mkU8 63))].

Definition spec_SHRL : outcome (option IRExpr) := first_of [
  when (after AMD64G_CC_OP_SHRL AMD64CondZ)
    (unop Iop_1Uto64 (binop Iop_CmpEQ32 (unop Iop_64to32 cc_dep1) (mkU32 0)));
  when (after AMD64G_CC_OP_SHRL AMD64CondNZ)
    (unop Iop_1Uto64 (binop Iop_CmpNE32 (unop Iop_64to32 cc_dep1) (mkU32 0)));
  when (after AMD64G_CC_OP_SHRL AMD64CondS)
    (binop Iop_And64 (binop Iop_Shr64 cc_dep1 (mkU8 31)) (mkU64 1));
  when (after AMD64G_CC_OP_SHRL AMD64CondNS)
    (binop Iop_Xor64 (binop Iop_And64 (binop Iop_Shr64 cc_dep1 (mkU8 31)) (mkU64 1)) (mkU64 1))].

Definition spec_SHRW : outcome (option IRExpr) := first_of [
  when (after AMD64G_CC_OP_SHRW AMD64CondZ)
    (unop Iop_1Uto64 (binop Iop_CmpEQ32 (unop Iop_16Uto32 (unop Iop_64to16 cc_dep1)) (mkU32 0)))].

Definition spec_SHLQ : outcome (option IRExpr) := first_of [
  when (after AMD64G_CC_OP_SHLQ AMD64CondZ) (unop Iop_1Uto64 (binop Iop_CmpEQ64 cc_dep1 (mkU64 0)));
  when (after AMD64G_CC_OP_SHLQ AMD64CondNZ) (unop Iop_1Uto64 (binop Iop_CmpNE64 cc_dep1 (mkU64 0)));
  when (after AMD64G_CC_OP_SHLQ AMD64CondS) (binop Iop_Shr64 cc_dep1 (mkU8 63))].

Definition spec_SHLL : outcome (option IRExpr) := first_of [
  when (after AMD64G_CC_OP_SHLL AMD64CondZ)
    (unop Iop_1Uto64 (binop Iop_CmpEQ32 (unop Iop_64to32 cc_dep1) (mkU32 0)));
  when (after AMD64G_CC_OP_SHLL AMD64CondNZ)
    (unop Iop_1Uto64 (binop Iop_CmpNE32 (unop Iop_64to32 cc_dep1) (mkU32 0)));
  when (after AMD64G_CC_OP_SHLL AMD64CondS)
    (binop Iop_And64 (binop Iop_Shr64 cc_dep1 (mkU8 31)) (mkU64 1))].

(** [nnn] is 1 for the condition and 0 for its negation. *)
Definition after_COPY (c nc : AMD64Condcode) : bool :=
  isU64 cc_op (cc_code AMD64G_CC_OP_COPY) && (isU64 cond (cond_code c) || isU64 cond (cond_code nc)).
Definition nnn (c : AMD64Condcode) : Z := if isU64 cond (cond_code c) then 1 else 0.

Definition spec_COPY : outcome (option IRExpr) := first_of [
  when (after_COPY AMD64CondBE AMD64CondNBE)
    (unop Iop_1Uto64
       (binop Iop_CmpEQ64
          (binop Iop_And64
             (binop Iop_Or64
                (binop Iop_Shr64 cc_dep1 (mkU8 AMD64G_CC_SHIFT_C))
                (binop Iop_Shr64 cc_dep1 (mkU8 AMD64G_CC_SHIFT_Z)))
             (mkU64 1))
          (mkU64 (nnn AMD64CondBE))));
  when (after_COPY AMD64CondB AMD64CondNB)
    (unop Iop_1Uto64
       (binop Iop_CmpEQ64
          (binop Iop_And64 (binop Iop_Shr64 cc_dep1 (mkU8 AMD64G_CC_SHIFT_C)) (mkU64 1))
          (mkU64 (nnn AMD64CondB))));
  when (after_COPY AMD64CondZ AMD64CondNZ)
    (unop Iop_1Uto64
       (binop Iop_CmpEQ64
          (binop Iop_And64 (binop Iop_Shr64 cc_dep1 (mkU8 AMD64G_CC_SHIFT_Z)) (mkU64 1))
          (mkU64 (nnn AMD64CondZ))));
  when (after_COPY AMD64CondP AMD64CondNP)
    (unop Iop_1Uto64
       (binop Iop_CmpEQ64
          (binop Iop_And64 (binop Iop_Shr64 cc_dep1 (mkU8 AMD64G_CC_SHIFT_P)) (mkU64 1))
          (mkU64 (nnn AMD64CondP))))].

Definition spec_condition : outcome (option IRExpr) := first_of [
  spec_ADDQ; spec_ADDL; spec_SUBQ; spec_SUBL; spec_SUBW; spec_SUBB; spec_LOGICQ; spec_LOGICL; spec_LOGICW;
  spec_LOGICB; spec_INC_DEC; spec_SHRQ; spec_SHRL; spec_SHRW; spec_SHLQ; spec_SHLL; spec_COPY].
End Condition.

Section Carry.
Variables cc_op cc_dep1 cc_dep2 cc_ndep : IRExpr.
Notation op_is o := (isU64 cc_op (cc_code o)).

Definition spec_rflags_c : outcome (option IRExpr) := first_of [
  when (op_is AMD64G_CC_OP_SUBQ) (unop Iop_1Uto64 (binop Iop_CmpLT64U cc_dep1 cc_dep2));
  when (op_is AMD64G_CC_OP_SUBL)
    (unop Iop_1Uto64 (binop Iop_CmpLT32U (unop Iop_64to32 cc_dep1) (unop Iop_64to32 cc_dep2)));
  when (op_is AMD64G_CC_OP_SUBW)
    (unop Iop_1Uto64
       (binop Iop_CmpLT64U (binop Iop_And64 cc_dep1 (mkU64 0xFFFF)) (binop Iop_And64 cc_dep2 (mkU64 0xFFFF))));
  when (op_is AMD64G_CC_OP_SUBB)
    (unop Iop_1Uto64
       (binop Iop_CmpLT64U (binop Iop_And64 cc_dep1 (mkU64 0xFF)) (binop Iop_And64 cc_dep2 (mkU64 0xFF))));
  when (op_is AMD64G_CC_OP_ADDQ)
    (unop Iop_1Uto64 (binop Iop_CmpLT64U (binop Iop_Add64 cc_dep1 cc_dep2) cc_dep1));
  when (op_is AMD64G_CC_OP_ADDL)
    (unop Iop_1Uto64
       (binop Iop_CmpLT32U (unop Iop_64to32 (binop Iop_Add64 cc_dep1 cc_dep2)) (unop Iop_64to32 cc_dep1)));
  when (op_is AMD64G_CC_OP_LOGICQ || op_is AMD64G_CC_OP_LOGICL || op_is AMD64G_CC_OP_LOGICW || op_is AMD64G_CC_OP_LOGICB)
    (mkU64 0);
  when (op_is AMD64G_CC_OP_DECL || op_is AMD64G_CC_OP_INCL || op_is AMD64G_CC_OP_DECQ || op_is AMD64G_CC_OP_INCQ)
    cc_ndep].
End Carry.

(** The array of arguments ends with [NULL]; its length is the arity. *)
Definition guest_amd64_spechelper (function_name : string) (args : list IRExpr) : outcome (option IRExpr) :=
  let arity := Z.of_nat (length args) in
  if String.eqb function_name "amd64g_calculate_condition" then
    _ ← vg_assert (arity =? 5);
    cond ← arr_get args 0; cc_op ← arr_get args 1; cc_dep1 ← arr_get args 2; cc_dep2 ← arr_get args 3;
    spec_condition cond cc_op cc_dep1 cc_dep2
  else if String.eqb function_name "amd64g_calculate_rflags_c" then
    _ ← vg_assert (arity =? 4);
    cc_op ← arr_get args 0; cc_dep1 ← arr_get args 1; cc_dep2 ← arr_get args 2; cc_ndep ← arr_get args 3;
    spec_rflags_c cc_op cc_dep1 cc_dep2 cc_ndep
  else Ret None.

(** * Specification *)

(** What a call computes. *)
Definition helper (function_name : string) (vs : list Z) : option (outcome Z) :=
  match vs with
  | [cond; cc_op; cc_dep1; cc_dep2; cc_ndep] =>
      if String.eqb function_name "amd64g_calculate_condition" then
        Some (amd64g_calculate_condition cond cc_op cc_dep1 cc_dep2 cc_ndep) else None
  | [cc_op; cc_dep1; cc_dep2; cc_ndep] =>
      if String.eqb function_name "amd64g_calculate_rflags_c" then
        Some (amd64g_calculate_rflags_c cc_op cc_dep1 cc_dep2 cc_ndep) else None
  | _ => None
  end.

(** After an increment or a decrement [NDEP] is the old carry. *)
Definition thunk_ok (vs : list Z) : bool :=
  match vs with
  | [cc_op; _; _; cc_ndep] =>
      match CC_OP_of cc_op with
      | Some (AMD64G_CC_OP_DECL | AMD64G_CC_OP_INCL | AMD64G_CC_OP_DECQ | AMD64G_CC_OP_INCQ) =>
          (cc_ndep =? 0) || (cc_ndep =? 1)
      | _ => true
      end
  | _ => true
  end.

(** * Lemmas *)

(** ** Values of expressions *)

Section Values.
Context `{M : Machine St} (tyenv : IRTypeEnv) (tmps : Z -> Z) (s : St).
Notation ty e := (typeOfIRExpr tyenv e).

(** A well-typed expression, its type and its value. *)
Definition has (t : IRType) (e : IRExpr) (v : Z) : Prop :=
  tcExpr tyenv Ity_I64 e = true ∧ ty e = t ∧ eval tyenv tmps s e = Some v.

Lemma has_unop op t r a x v : typeOfPrimop op = UNARY t r -> has t a x ->
  wrap (width r) <$> eval_unop op x = Some v -> has r (unop op a) v.
Proof.
  intros Hop (Ht & Hy & He) Hv. unfold has, unop. cbn [tcExpr typeOfIRExpr eval]. rewrite Hop, Ht, He.
  split_and!; [|done|done]. unfold args_match. rewrite Hop. cbn. by rewrite Hy, bool_decide_eq_true_2.
Qed.

Lemma has_binop op t1 t2 r a b x y v : typeOfPrimop op = BINARY t1 t2 r -> has t1 a x -> has t2 b y ->
  wrap (width r) <$> eval_binop op x y = Some v -> has r (binop op a b) v.
Proof.
  intros Hop (Ht & Hy & He) (Ht' & Hy' & He') Hv. unfold has, binop. cbn [tcExpr typeOfIRExpr eval]. rewrite Hop, Ht, Ht', He, He'.
  split_and!; [|done|done]. unfold args_match. rewrite Hop. cbn. by rewrite Hy, Hy', bool_decide_eq_true_2.
Qed.

Lemma wrap_bool w b : 1 <= w -> wrap w (Z.b2z b) = Z.b2z b.
Proof. intros. apply wrap_small. pose proof (Z.pow_le_mono_r 2 1 w). destruct b; simpl; lia. Qed.

Lemma has_compare op t a b x y c : typeOfPrimop op = COMPARISON t -> has t a x -> has t b y ->
  eval_binop op x y = bool_of c -> has Ity_I1 (binop op a b) (Z.b2z c).
Proof. intros Hop Ha Hb Hc. eapply has_binop; [exact Hop|done..|]. rewrite Hc. cbn. by rewrite wrap_bool. Qed.

Lemma has_1Uto64 a b : has Ity_I1 a (Z.b2z b) -> has Ity_I64 (unop Iop_1Uto64 a) (Z.b2z b).
Proof. intros H. eapply has_unop; [done..|]. cbn. by rewrite wrap_bool. Qed.

Lemma has_mkU64 n : 0 <= n < 2 ^ 64 -> has Ity_I64 (mkU64 n) (wrap 64 n).
Proof. intros. split_and!; [|done|done]. cbn. lia. Qed.
Lemma has_mkU32 n : 0 <= n < 2 ^ 32 -> has Ity_I32 (mkU32 n) (wrap 32 n).
Proof. intros. split_and!; [|done|done]. cbn. lia. Qed.
Lemma has_mkU8 n : 0 <= n < 2 ^ 8 -> has Ity_I8 (mkU8 n) n.
Proof.
  intros. unfold mkU8, u8. rewrite wrap_small by done. split_and!; [|done|].
  - cbn. lia.
  - cbn [eval typeOfIRConst width value_of_const]. by rewrite wrap_small.
Qed.

(** *** Words of 64 bits *)

Lemma has_Add64 a b x y : has Ity_I64 a (wrap 64 x) -> has Ity_I64 b (wrap 64 y) ->
  has Ity_I64 (binop Iop_Add64 a b) (wrap 64 (x + y)).
Proof.
  intros. eapply has_binop; [done..|]. cbn [eval_binop width fmap option_fmap option_map]. unfold add.
  f_equal. rewrite wrap_wrap_same by done. unfold wrap. by rewrite <- Zplus_mod.
Qed.
Lemma has_Sub64 a b x y : has Ity_I64 a (wrap 64 x) -> has Ity_I64 b (wrap 64 y) ->
  has Ity_I64 (binop Iop_Sub64 a b) (wrap 64 (x - y)).
Proof.
  intros. eapply has_binop; [done..|]. cbn [eval_binop width fmap option_fmap option_map]. unfold sub.
  f_equal. rewrite wrap_wrap_same by done. unfold wrap. by rewrite <- Zminus_mod.
Qed.

(** Bit by bit. *)
Lemma wrap_bits w x y : 0 <= w -> (∀ j, 0 <= j < w -> Z.testbit x j = Z.testbit y j) -> wrap w x = wrap w y.
Proof.
  intros Hw H. apply Z.bits_inj'. intros j Hj. rewrite !testbit_wrap by lia.
  destruct (Z.ltb_spec j w); [cbn; apply H; lia|done].
Qed.
Ltac bitwise := intros; eapply has_binop; [done..|]; cbn [eval_binop width fmap option_fmap option_map];
  f_equal; apply wrap_bits; [done|]; intros j Hj;
  rewrite ?Z.land_spec, ?Z.lor_spec, ?Z.lxor_spec, !testbit_wrap_low by done; reflexivity.

Lemma has_And64 a b x y : has Ity_I64 a (wrap 64 x) -> has Ity_I64 b (wrap 64 y) ->
  has Ity_I64 (binop Iop_And64 a b) (wrap 64 (Z.land x y)).
Proof. bitwise. Qed.
Lemma has_Or64 a b x y : has Ity_I64 a (wrap 64 x) -> has Ity_I64 b (wrap 64 y) ->
  has Ity_I64 (binop Iop_Or64 a b) (wrap 64 (Z.lor x y)).
Proof. bitwise. Qed.
Lemma has_Xor64 a b x y : has Ity_I64 a (wrap 64 x) -> has Ity_I64 b (wrap 64 y) ->
  has Ity_I64 (binop Iop_Xor64 a b) (wrap 64 (Z.lxor x y)).
Proof. bitwise. Qed.
Lemma has_Not64 a x : has Ity_I64 a (wrap 64 x) -> has Ity_I64 (unop Iop_Not64 a) (wrap 64 (Z.lnot x)).
Proof.
  intros. eapply has_unop; [done..|]. cbn [eval_unop width fmap option_fmap option_map Not]. f_equal.
  apply wrap_bits; [done|]. intros j Hj. by rewrite testbit_wrap_low, !Z.lnot_spec, testbit_wrap_low by lia.
Qed.

Lemma has_Shr64 a x k : 0 <= k < 64 -> has Ity_I64 a (wrap 64 x) ->
  has Ity_I64 (binop Iop_Shr64 a (mkU8 k)) (wrap 64 (Z.shiftr (wrap 64 x) k)).
Proof.
  intros Hk H. eapply has_binop; [done..|apply has_mkU8; lia|]. cbn [eval_binop width fmap option_fmap option_map]. unfold shift.
  replace (k <? 64) with true by lia. cbn [fmap option_fmap option_map]. unfold shr. by rewrite Z.shiftr_div_pow2 by lia.
Qed.
Lemma has_Shl64 a x k : 0 <= k < 64 -> has Ity_I64 a (wrap 64 x) ->
  has Ity_I64 (binop Iop_Shl64 a (mkU8 k)) (wrap 64 (x * 2 ^ k)).
Proof.
  intros Hk H. eapply has_binop; [done..|apply has_mkU8; lia|]. cbn [eval_binop width fmap option_fmap option_map]. unfold shift.
  replace (k <? 64) with true by lia. cbn [fmap option_fmap option_map]. unfold shl. rewrite wrap_wrap_same by done.
  unfold wrap. by rewrite Zmult_mod_idemp_l.
Qed.

(** The lowest bit; bit [k]; the highest bit; the complement of a bit. *)
Lemma has_bit0 a x : has Ity_I64 a (wrap 64 x) -> has Ity_I64 (binop Iop_And64 a (mkU64 1)) (Z.b2z (Z.testbit x 0)).
Proof.
  intros H. replace (Z.b2z (Z.testbit x 0)) with (wrap 64 (Z.land x 1)); [by apply has_And64, has_mkU64|].
  change 1 with AMD64G_CC_MASK_C. by rewrite cf_ok, wrap_bool.
Qed.
Lemma has_bit a x k : 0 <= k < 64 -> has Ity_I64 a (wrap 64 x) ->
  has Ity_I64 (binop Iop_And64 (binop Iop_Shr64 a (mkU8 k)) (mkU64 1)) (Z.b2z (Z.testbit x k)).
Proof.
  intros Hk H. replace (Z.testbit x k) with (Z.testbit (Z.shiftr (wrap 64 x) k) 0); [by apply has_bit0, has_Shr64|].
  rewrite Z.shiftr_spec, Z.add_0_l, testbit_wrap_low by lia. done.
Qed.
Lemma has_top a x : has Ity_I64 a (wrap 64 x) -> has Ity_I64 (binop Iop_Shr64 a (mkU8 63)) (Z.b2z (Z.testbit x 63)).
Proof.
  intros H. replace (Z.b2z _) with (wrap 64 (Z.shiftr (wrap 64 x) 63)); [by apply has_Shr64|].
  rewrite Z.shiftr_div_pow2 by done. rewrite (wrap_split 64 x) by done.
  change (64 - 1) with 63. rewrite Z.div_add, Z.div_small by (done || (apply wrap_range; done)). by rewrite Z.add_0_l, wrap_bool.
Qed.
Lemma has_not_bit a b : has Ity_I64 a (Z.b2z b) -> has Ity_I64 (binop Iop_Xor64 a (mkU64 1)) (Z.b2z (negb b)).
Proof. intros H. eapply has_binop; [done..|by apply has_mkU64|]. by destruct b. Qed.

Lemma has_And64_FF a x : has Ity_I64 a (wrap 64 x) -> has Ity_I64 (binop Iop_And64 a (mkU64 0xFF)) (wrap 8 x).
Proof.
  intros H. replace (wrap 8 x) with (wrap 64 (Z.land x 0xFF)); [by apply has_And64, has_mkU64|].
  rewrite land_FF_r. by apply wrap_small; pose proof (wrap_range 8 x); lia.
Qed.
Lemma has_And64_FFFF a x : has Ity_I64 a (wrap 64 x) -> has Ity_I64 (binop Iop_And64 a (mkU64 0xFFFF)) (wrap 16 x).
Proof.
  intros H. replace (wrap 16 x) with (wrap 64 (Z.land x 0xFFFF)); [by apply has_And64, has_mkU64|].
  rewrite land_FFFF_r. by apply wrap_small; pose proof (wrap_range 16 x); lia.
Qed.

(** *** Narrow words *)

Ltac narrow := intros; eapply has_unop; [done..|]; cbn [eval_unop width fmap option_fmap option_map];
  unfold u8, u16, u32; rewrite !wrap_wrap by done; reflexivity.
Lemma has_64to32 a x : has Ity_I64 a (wrap 64 x) -> has Ity_I32 (unop Iop_64to32 a) (wrap 32 x).
Proof. narrow. Qed.
Lemma has_64to16 a x : has Ity_I64 a (wrap 64 x) -> has Ity_I16 (unop Iop_64to16 a) (wrap 16 x).
Proof. narrow. Qed.
Lemma has_64to8 a x : has Ity_I64 a (wrap 64 x) -> has Ity_I8 (unop Iop_64to8 a) (wrap 8 x).
Proof. narrow. Qed.
Lemma wrap_wider v w x : 0 <= v <= w -> wrap w (wrap v x) = wrap v x.
Proof. intros. apply wrap_small. pose proof (wrap_range v x). pose proof (Z.pow_le_mono_r 2 v w). lia. Qed.
Lemma has_16Uto32 a x : has Ity_I16 a (wrap 16 x) -> has Ity_I32 (unop Iop_16Uto32 a) (wrap 16 x).
Proof. intros. eapply has_unop; [done..|]. cbn. by rewrite wrap_wider. Qed.
Lemma has_8Uto32 a x : has Ity_I8 a (wrap 8 x) -> has Ity_I32 (unop Iop_8Uto32 a) (wrap 8 x).
Proof. intros. eapply has_unop; [done..|]. cbn. by rewrite wrap_wider. Qed.
Lemma has_Shr32 a x k : 0 <= k < 32 -> has Ity_I32 a (wrap 32 x) ->
  has Ity_I32 (binop Iop_Shr32 a (mkU8 k)) (wrap 32 x / 2 ^ k).
Proof.
  intros Hk H. eapply has_binop; [done..|apply has_mkU8; lia|]. cbn [eval_binop width fmap option_fmap option_map]. unfold shift.
  replace (k <? 32) with true by lia. cbn [fmap option_fmap option_map]. unfold shr. f_equal. apply wrap_small.
  pose proof (wrap_range 32 x). assert (0 < 2 ^ k) by (apply Z.pow_pos_nonneg; lia).
  split; [apply Z.div_pos; lia|]. apply Z.div_lt_upper_bound; nia.
Qed.

(** *** Comparisons *)

Ltac compare_ := intros; eapply has_compare; done.
Lemma has_EQ64 a b x y : has Ity_I64 a x -> has Ity_I64 b y -> has Ity_I1 (binop Iop_CmpEQ64 a b) (Z.b2z (x =? y)).
Proof. compare_. Qed.
Lemma has_NE64 a b x y : has Ity_I64 a x -> has Ity_I64 b y -> has Ity_I1 (binop Iop_CmpNE64 a b) (Z.b2z (negb (x =? y))).
Proof. compare_. Qed.
Lemma has_LT64U a b x y : has Ity_I64 a x -> has Ity_I64 b y -> has Ity_I1 (binop Iop_CmpLT64U a b) (Z.b2z (x <? y)).
Proof. compare_. Qed.
Lemma has_LE64U a b x y : has Ity_I64 a x -> has Ity_I64 b y -> has Ity_I1 (binop Iop_CmpLE64U a b) (Z.b2z (x <=? y)).
Proof. compare_. Qed.
Lemma has_EQ32 a b x y : has Ity_I32 a x -> has Ity_I32 b y -> has Ity_I1 (binop Iop_CmpEQ32 a b) (Z.b2z (x =? y)).
Proof. compare_. Qed.
Lemma has_NE32 a b x y : has Ity_I32 a x -> has Ity_I32 b y -> has Ity_I1 (binop Iop_CmpNE32 a b) (Z.b2z (negb (x =? y))).
Proof. compare_. Qed.
Lemma has_LT32U a b x y : has Ity_I32 a x -> has Ity_I32 b y -> has Ity_I1 (binop Iop_CmpLT32U a b) (Z.b2z (x <? y)).
Proof. compare_. Qed.
Lemma has_LE32U a b x y : has Ity_I32 a x -> has Ity_I32 b y -> has Ity_I1 (binop Iop_CmpLE32U a b) (Z.b2z (x <=? y)).
Proof. compare_. Qed.
Lemma has_EQ16 a b x y : has Ity_I16 a x -> has Ity_I16 b y -> has Ity_I1 (binop Iop_CmpEQ16 a b) (Z.b2z (x =? y)).
Proof. compare_. Qed.
Lemma has_NE16 a b x y : has Ity_I16 a x -> has Ity_I16 b y -> has Ity_I1 (binop Iop_CmpNE16 a b) (Z.b2z (negb (x =? y))).
Proof. compare_. Qed.
Lemma has_EQ8 a b x y : has Ity_I8 a x -> has Ity_I8 b y -> has Ity_I1 (binop Iop_CmpEQ8 a b) (Z.b2z (x =? y)).
Proof. compare_. Qed.
Lemma has_NE8 a b x y : has Ity_I8 a x -> has Ity_I8 b y -> has Ity_I1 (binop Iop_CmpNE8 a b) (Z.b2z (negb (x =? y))).
Proof. compare_. Qed.

Ltac compare_signed := intros; eapply has_compare; [done..|]; cbn [eval_binop]; unfold s32, s64;
  rewrite !swrap_wrap_same by done; reflexivity.
Lemma has_LT64S a b x y : has Ity_I64 a (wrap 64 x) -> has Ity_I64 b (wrap 64 y) ->
  has Ity_I1 (binop Iop_CmpLT64S a b) (Z.b2z (swrap 64 x <? swrap 64 y)).
Proof. compare_signed. Qed.
Lemma has_LE64S a b x y : has Ity_I64 a (wrap 64 x) -> has Ity_I64 b (wrap 64 y) ->
  has Ity_I1 (binop Iop_CmpLE64S a b) (Z.b2z (swrap 64 x <=? swrap 64 y)).
Proof. compare_signed. Qed.
Lemma has_LT32S a b x y : has Ity_I32 a (wrap 32 x) -> has Ity_I32 b (wrap 32 y) ->
  has Ity_I1 (binop Iop_CmpLT32S a b) (Z.b2z (swrap 32 x <? swrap 32 y)).
Proof. compare_signed. Qed.
Lemma has_LE32S a b x y : has Ity_I32 a (wrap 32 x) -> has Ity_I32 b (wrap 32 y) ->
  has Ity_I1 (binop Iop_CmpLE32S a b) (Z.b2z (swrap 32 x <=? swrap 32 y)).
Proof. compare_signed. Qed.
End Values.

(** ** Rules *)

(** The conditions of a record of flags. *)
Definition holds (c : AMD64Condcode) (f : flags) : bool :=
  match c with
  | AMD64CondO => OF f | AMD64CondNO => negb (OF f)
  | AMD64CondB => CF f | AMD64CondNB => negb (CF f)
  | AMD64CondZ => ZF f | AMD64CondNZ => negb (ZF f)
  | AMD64CondBE => CF f || ZF f | AMD64CondNBE => negb (CF f || ZF f)
  | AMD64CondS => SF f | AMD64CondNS => negb (SF f)
  | AMD64CondP => PF f | AMD64CondNP => negb (PF f)
  | AMD64CondL => xorb (SF f) (OF f) | AMD64CondNL => negb (xorb (SF f) (OF f))
  | AMD64CondLE => xorb (SF f) (OF f) || ZF f | AMD64CondNLE => negb (xorb (SF f) (OF f) || ZF f)
  | AMD64CondAlways => true
  end.
Lemma holds_pack c f : cond_holds c (pack_flags f) = holds c f.
Proof. destruct (pack_flags_bits f) as (H0 & H2 & H6 & H7 & H11). unfold cond_holds. by rewrite H0, H2, H6, H7, H11. Qed.

Lemma sub_overflow_bits w x y : 0 < w ->
  Z.testbit (Z.land (Z.lxor x y) (Z.lxor x (x - y))) (w - 1) = negb (fits w (swrap w x - swrap w y)).
Proof.
  intros Hw. pose proof (sub_overflow w x y false Hw) as H. cbn [Z.b2z] in H. rewrite !Z.sub_0_r in H.
  by rewrite Z.land_spec, !Z.lxor_spec, H.
Qed.
Lemma add_overflow_bits w x y : 0 < w ->
  Z.testbit (Z.land (Z.lnot (Z.lxor x y)) (Z.lxor x (x + y))) (w - 1) = negb (fits w (swrap w x + swrap w y)).
Proof.
  intros Hw. pose proof (add_overflow w x y false Hw) as H. cbn [Z.b2z] in H. rewrite !Z.add_0_r in H.
  by rewrite Z.land_spec, Z.lnot_spec, !Z.lxor_spec, H by lia.
Qed.

(** A narrow word moved to the top of a wide one. *)
Lemma wrap_top v k x : 0 <= v -> 0 <= k -> wrap (v + k) (x * 2 ^ k) = wrap v x * 2 ^ k.
Proof. intros. unfold wrap. rewrite Z.pow_add_r, Zmult_mod_distr_r by lia. done. Qed.
Lemma top_16_le x y : (wrap 64 (x * 2 ^ 48) <=? wrap 64 (y * 2 ^ 48)) = (wrap 16 x <=? wrap 16 y).
Proof. change 64 with (16 + 48). rewrite !wrap_top by done. lia. Qed.
Lemma top_16_eq x : (wrap 64 (x * 2 ^ 48) =? wrap 64 0) = (wrap 16 x =? 0).
Proof. change (wrap 64 0) with 0. change 64 with (16 + 48). rewrite wrap_top by done. lia. Qed.
Lemma top_16_sle x y : (swrap 64 (x * 2 ^ 48) <=? swrap 64 (y * 2 ^ 48)) = (swrap 16 x <=? swrap 16 y).
Proof.
  assert (∀ z, swrap 64 (z * 2 ^ 48) = swrap 16 z * 2 ^ 48) as H; [|rewrite !H; lia].
  intros z. unfold swrap. change (2 ^ (64 - 1)) with (2 ^ (16 - 1) * 2 ^ 48). rewrite <- Z.mul_add_distr_r.
  pose proof (wrap_top 16 48 (z + 2 ^ (16 - 1))) as Ht. unfold wrap in Ht. change (16 + 48) with 64 in Ht. rewrite Ht by done. lia.
Qed.

(** The flags of an increment, a decrement and a left shift of which any word is the result. *)
Lemma inc_shape sz r nd :
  ∃ a, ACTIONS_INC (bits sz) r nd =
    pack_flags (result_flags (bits sz) r (Z.testbit nd 0) true a true (wrap (bits sz) r =? 2 ^ (bits sz - 1))).
Proof.
  pose proof (is_width sz) as Hw. unfold ACTIONS_INC. cbv zeta. rewrite cf_ok, af_ok. eexists. apply pack_result; try done.
  - apply parity_ok.
  - by rewrite shl_b2z.
  - by apply sf_ok.
  - by rewrite land_DATA_MASK, SIGN_MASK_ok, shl_b2z by done.
Qed.
Lemma dec_shape w r nd : 8 <= w <= 64 ->
  ∃ a o, ACTIONS_DEC w r nd = pack_flags (result_flags w r (Z.testbit nd 0) true a true o).
Proof.
  intros Hw. unfold ACTIONS_DEC. cbv zeta. rewrite cf_ok, af_ok, (shl_b2z (_ =? u64 _)) by done. do 2 eexists.
  apply pack_result; try done; [apply parity_ok|by rewrite shl_b2z|by apply sf_ok].
Qed.
Lemma shl_shape w r r' : 8 <= w <= 64 -> ∃ c o, ACTIONS_SHL w r r' = pack_flags (result_flags w r c true false true o).
Proof.
  intros Hw. unfold ACTIONS_SHL. cbv zeta. rewrite cf_ok, of_ok by done. do 2 eexists.
  apply pack_result; try done; [apply parity_ok|by rewrite shl_b2z|by apply sf_ok].
Qed.

(** The sign of the operand of an increment to [r]. *)
Lemma inc_le w r : 0 < w ->
  xorb (Z.testbit r (w - 1)) (wrap w r =? 2 ^ (w - 1)) || (wrap w r =? 0) = Z.testbit (r - 1) (w - 1).
Proof.
  intros Hw. pose proof (sub_bit r 0 true (w - 1) ltac:(lia)) as Hb. cbn [Z.b2z] in Hb. rewrite Z.sub_0_r, Z.bits_0, xorb_false_r in Hb.
  assert (wrap (w - 1) 0 = 0) as H0 by (apply wrap_small; split; [done|apply Z.pow_pos_nonneg; lia]).
  rewrite Hb, H0, (wrap_split w r) by done. pose proof (Z.pow_pos_nonneg 2 (w - 1)).
  pose proof (wrap_range (w - 1) r ltac:(lia)). destruct (Z.testbit r (w - 1)); cbn [Z.b2z];
    destruct (Z.ltb_spec (wrap (w - 1) r - 0 - 1) 0); rewrite ?xorb_true_l, ?xorb_false_l; cbn [xorb]; lia.
Qed.

Lemma signed_le_0 w r : 0 < w -> (swrap w r <=? 0) = Z.testbit r (w - 1) || (wrap w r =? 0).
Proof.
  intros Hw. rewrite swrap_split, (wrap_split w r) by done. pose proof (wrap_range (w - 1) r ltac:(lia)).
  destruct (Z.testbit r (w - 1)); cbn [Z.b2z orb]; lia.
Qed.
Lemma signed_lt_0 w r : 0 < w -> (swrap w r <? 0) = Z.testbit r (w - 1).
Proof.
  intros Hw. rewrite swrap_split by done. pose proof (wrap_range (w - 1) r ltac:(lia)).
  destruct (Z.testbit r (w - 1)); cbn [Z.b2z]; lia.
Qed.

(** ** Powers of two *)

Lemma first_that_in test l i : i ∈ l -> test i = true -> ∃ j, first_that test l = Ret j ∧ j ∈ l ∧ test j = true.
Proof.
  induction l as [|k l IH]; intros Hi Ht; [by apply elem_of_nil in Hi|]. simpl.
  destruct (test k) eqn:Hk; [exists k; split_and!; [done|by left|done]|].
  apply elem_of_cons in Hi as [->|Hi]; [congruence|]. destruct (IH Hi Ht) as (j & H1 & H2 & H3). exists j. split_and!; [done|by right|done].
Qed.

Lemma only_bit w : 0 < w -> Z.land w (w - 1) = 0 -> w = 2 ^ Z.log2 w.
Proof.
  intros Hw Hl. destruct (Z.log2_spec w Hw) as [H1 H2]. destruct (decide (w = 2 ^ Z.log2 w)) as [|Hne]; [done|exfalso].
  assert (Z.log2 (w - 1) = Z.log2 w) as Hlog.
  { apply Z.log2_unique; [apply Z.log2_nonneg|]. lia. }
  pose proof (Z.bit_log2 w Hw) as Hb. assert (0 < w - 1) as Hw1.
  { destruct (decide (w = 1)) as [->|]; [done|lia]. }
  pose proof (Z.bit_log2 (w - 1) Hw1) as Hb'. rewrite Hlog in Hb'.
  assert (Z.testbit (Z.land w (w - 1)) (Z.log2 w) = true) as H by by rewrite Z.land_spec, Hb, Hb'.
  rewrite Hl, Z.bits_0 in H. done.
Qed.

(** 0, or the exponent. *)
Lemma shl_N_literal_ok w : 0 <= w < 2 ^ 64 ->
  ∃ n, isU64_1_shl_N_literal w = Ret n ∧ (n = 0 ∨ 1 <= n <= 31 ∧ w = 2 ^ n).
Proof.
  intros Hw. unfold isU64_1_shl_N_literal. case_bool; [by exists 0; auto|]. case_bool; [by exists 0; auto|].
  change (Z.shiftl 1 1) with 2 in *. change (Z.shiftl 1 31) with (2 ^ 31) in *.
  assert (w = 2 ^ Z.log2 w) as Hp.
  { apply only_bit; [lia|]. unfold u64 in *. rewrite wrap_small in * by lia. lia. }
  assert (1 <= Z.log2 w <= 31) as Hk.
  { split; [apply Z.log2_le_pow2; lia|]. change 31 with (Z.log2 (2 ^ 31)). apply Z.log2_le_mono. lia. }
  assert (∀ n, 0 <= n < 64 -> u64 (Z.shiftl 1 n) = 2 ^ n) as Hsh.
  { intros n Hn. rewrite Z.shiftl_1_l. apply wrap_small. split; [apply Z.pow_nonneg; lia|]. apply Z.pow_lt_mono_r; lia. }
  destruct (first_that_in (fun n => w =? u64 (Z.shiftl 1 n)) (seqZ 1 31) (Z.log2 w)) as (j & H1 & H2 & H3).
  - apply elem_of_seqZ. lia.
  - rewrite Hsh by lia. lia.
  - exists j. split; [done|right]. apply elem_of_seqZ in H2. rewrite Hsh in H3 by lia. lia.
Qed.

(** ** Soundness of a rule *)

Section Rules.
Context `{M : Machine St} (tyenv : IRTypeEnv) (tmps : Z -> Z) (s : St).
Local Notation value := (has tyenv tmps s).

(** The rule returns, and what it returns has the value of the call. *)
Definition rule_ok (h : outcome Z) (m : outcome (option IRExpr)) : Prop :=
  ∃ r, m = Ret r ∧ ∀ e, r = Some e -> ∃ v, h = Ret v ∧ value Ity_I64 e v.

Lemma first_of_ok h l : Forall (rule_ok h) l -> rule_ok h (first_of l).
Proof.
  induction 1 as [|m l (r & -> & Hr) _ IH]; [by exists None|]. cbn [first_of mbind outcome_bind].
  destruct r as [e|]; [|done]. by exists (Some e).
Qed.
Lemma when_ok h b e : (b = true -> ∃ v, h = Ret v ∧ value Ity_I64 e v) -> rule_ok h (when b e).
Proof. intros H. eexists. split; [done|]. intros e' He. destruct b; [|done]. injection He as <-. by apply H. Qed.
Lemma when_atoms_ok h b e1 e2 e : isIRAtom e1 = true -> isIRAtom e2 = true ->
  (b = true -> ∃ v, h = Ret v ∧ value Ity_I64 e v) -> rule_ok h (when_atoms b e1 e2 e).
Proof.
  intros H1 H2 H. destruct (when_ok h b e H) as (r & Hr & Hv). exists r. split; [|done].
  unfold when in Hr. unfold when_atoms. rewrite H1, H2. cbn. by destruct b.
Qed.

Lemma has_eq t e v v' : value t e v -> v = v' -> value t e v'.
Proof. by intros H <-. Qed.
Lemma isU64_value e n v : isU64 e n = true -> value Ity_I64 e v -> v = wrap 64 n.
Proof.
  intros Hn (_ & _ & He). destruct e; try done. match goal with k : IRConst |- _ => destruct k; try done end. cbn in Hn.
  apply Z.eqb_eq in Hn as ->. cbn [eval typeOfIRConst width value_of_const] in He. by injection He.
Qed.

Section Flags.
Variables x y nd : Z.
(** The operations with the flags they leave. *)
Inductive leaves : CC_OP -> flags -> Prop :=
  | leaves_add sz : leaves (at_size sz AMD64G_CC_OP_ADDB AMD64G_CC_OP_ADDW AMD64G_CC_OP_ADDL AMD64G_CC_OP_ADDQ)
      (add_flags (bits sz) x y false)
  | leaves_sub sz : leaves (at_size sz AMD64G_CC_OP_SUBB AMD64G_CC_OP_SUBW AMD64G_CC_OP_SUBL AMD64G_CC_OP_SUBQ)
      (sub_flags (bits sz) x y false)
  | leaves_logic sz : leaves (at_size sz AMD64G_CC_OP_LOGICB AMD64G_CC_OP_LOGICW AMD64G_CC_OP_LOGICL AMD64G_CC_OP_LOGICQ)
      (result_flags (bits sz) x false true false true false)
  | leaves_inc sz a : ACTIONS_INC (bits sz) x nd =
        pack_flags (result_flags (bits sz) x (Z.testbit nd 0) true a true (wrap (bits sz) x =? 2 ^ (bits sz - 1))) ->
      leaves (at_size sz AMD64G_CC_OP_INCB AMD64G_CC_OP_INCW AMD64G_CC_OP_INCL AMD64G_CC_OP_INCQ)
        (result_flags (bits sz) x (Z.testbit nd 0) true a true (wrap (bits sz) x =? 2 ^ (bits sz - 1)))
  | leaves_dec sz a ov :
      ACTIONS_DEC (bits sz) x nd = pack_flags (result_flags (bits sz) x (Z.testbit nd 0) true a true ov) ->
      leaves (at_size sz AMD64G_CC_OP_DECB AMD64G_CC_OP_DECW AMD64G_CC_OP_DECL AMD64G_CC_OP_DECQ)
        (result_flags (bits sz) x (Z.testbit nd 0) true a true ov)
  | leaves_shl sz c ov : ACTIONS_SHL (bits sz) x y = pack_flags (result_flags (bits sz) x c true false true ov) ->
      leaves (at_size sz AMD64G_CC_OP_SHLB AMD64G_CC_OP_SHLW AMD64G_CC_OP_SHLL AMD64G_CC_OP_SHLQ)
        (result_flags (bits sz) x c true false true ov)
  | leaves_shr sz c ov : ACTIONS_SHR (bits sz) x y = pack_flags (result_flags (bits sz) x c true false true ov) ->
      leaves (at_size sz AMD64G_CC_OP_SHRB AMD64G_CC_OP_SHRW AMD64G_CC_OP_SHRL AMD64G_CC_OP_SHRQ)
        (result_flags (bits sz) x c true false true ov).

Lemma leaves_flags op f : leaves op f -> amd64g_calculate_rflags_all_WRK (cc_code op) x y nd = Ret (pack_flags f).
Proof.
  intros [sz|sz|sz|sz a' E|sz a' ov E|sz c' ov E|sz c' ov E]; rewrite <- ?E.
  - rewrite <- ACTIONS_ADD_ok by apply is_width. by destruct sz.
  - rewrite <- ACTIONS_SUB_ok by apply is_width. by destruct sz.
  - rewrite <- ACTIONS_LOGIC_ok by apply is_width. by destruct sz.
  - by destruct sz.
  - by destruct sz.
  - by destruct sz.
  - by destruct sz.
Qed.
End Flags.

Lemma has_nnn cond C : value Ity_I64 (mkU64 (nnn cond C)) (nnn cond C).
Proof. unfold nnn. by destruct (isU64 _ _). Qed.

(** The value of an expression, from its head. *)
Ltac small := first [lia | split; vm_compute; congruence].
Ltac vals :=
  lazymatch goal with
  | |- has _ _ _ _ ?e _ =>
      lazymatch e with
      | binop Iop_And64 (binop Iop_Shr64 _ (mkU8 _)) (mkU64 1) => eapply has_bit; [small|vals]
      | binop Iop_And64 _ (mkU64 1) => eapply has_bit0; vals
      | binop Iop_And64 _ (mkU64 0xFF) => eapply has_And64_FF; vals
      | binop Iop_And64 _ (mkU64 0xFFFF) => eapply has_And64_FFFF; vals
      | binop Iop_Xor64 _ (mkU64 1) => eapply has_not_bit; vals
      | binop Iop_Shr64 _ (mkU8 63) => eapply has_top; vals
      | binop Iop_Shr64 _ _ => eapply has_Shr64; [small|vals]
      | binop Iop_Shl64 _ _ => eapply has_Shl64; [lia|vals]
      | binop Iop_Add64 _ _ => eapply has_Add64; vals
      | binop Iop_Sub64 _ _ => eapply has_Sub64; vals
      | binop Iop_And64 _ _ => eapply has_And64; vals
      | binop Iop_Or64 _ _ => eapply has_Or64; vals
      | binop Iop_Xor64 _ _ => eapply has_Xor64; vals
      | unop Iop_Not64 _ => eapply has_Not64; vals
      | unop Iop_1Uto64 _ => eapply has_1Uto64; vals
      | unop Iop_64to32 _ => eapply has_64to32; vals
      | unop Iop_64to16 _ => eapply has_64to16; vals
      | unop Iop_64to8 _ => eapply has_64to8; vals
      | unop Iop_16Uto32 _ => eapply has_16Uto32; vals
      | unop Iop_8Uto32 _ => eapply has_8Uto32; vals
      | binop Iop_CmpEQ64 _ _ => eapply has_EQ64; vals
      | binop Iop_CmpNE64 _ _ => eapply has_NE64; vals
      | binop Iop_CmpLT64U _ _ => eapply has_LT64U; vals
      | binop Iop_CmpLE64U _ _ => eapply has_LE64U; vals
      | binop Iop_CmpLT64S _ _ => eapply has_LT64S; vals
      | binop Iop_CmpLE64S _ _ => eapply has_LE64S; vals
      | binop Iop_CmpEQ32 _ _ => eapply has_EQ32; vals
      | binop Iop_CmpNE32 _ _ => eapply has_NE32; vals
      | binop Iop_CmpLT32U _ _ => eapply has_LT32U; vals
      | binop Iop_CmpLE32U _ _ => eapply has_LE32U; vals
      | binop Iop_CmpLT32S _ _ => eapply has_LT32S; vals
      | binop Iop_CmpLE32S _ _ => eapply has_LE32S; vals
      | binop Iop_CmpEQ16 _ _ => eapply has_EQ16; vals
      | binop Iop_CmpNE16 _ _ => eapply has_NE16; vals
      | binop Iop_CmpEQ8 _ _ => eapply has_EQ8; vals
      | binop Iop_CmpNE8 _ _ => eapply has_NE8; vals
      | mkU64 (nnn _ _) => apply has_nnn
      | mkU64 _ => apply has_mkU64; lia
      | mkU32 _ => apply has_mkU32; lia
      | _ => eassumption
      end
  end.

(** All rules of a list. *)
Ltac rules := apply first_of_ok; repeat first [apply List.Forall_nil | apply Forall_cons_2].

Section Condition.
Variables (cond cc_op d1 d2 : IRExpr) (c o x y nd : Z).
Hypotheses (Hc : value Ity_I64 cond c) (Ho : value Ity_I64 cc_op o)
  (H1 : value Ity_I64 d1 (wrap 64 x)) (H2 : value Ity_I64 d2 (wrap 64 y))
  (Ha1 : isIRAtom d1 = true) (Ha2 : isIRAtom d2 = true).
Local Notation h := (amd64g_calculate_condition c o x y nd).
Local Notation after := (after cond cc_op).

Lemma code_word op : wrap 64 (cc_code op) = cc_code op.
Proof. by destruct op. Qed.
Lemma cond_word C : wrap 64 (cond_code C) = cond_code C.
Proof. by destruct C. Qed.

Lemma value_of op C f e : C ≠ AMD64CondAlways -> amd64g_calculate_rflags_all_WRK (cc_code op) x y nd = Ret f ->
  value Ity_I64 e (Z.b2z (cond_holds C f)) -> after op C = true -> ∃ v, h = Ret v ∧ value Ity_I64 e v.
Proof.
  intros HC Hf He [Ht1 Ht2]%andb_true_iff. exists (Z.b2z (cond_holds C f)). split; [|done].
  rewrite (isU64_value _ _ _ Ht1 Ho), (isU64_value _ _ _ Ht2 Hc), code_word, cond_word. by apply condition_holds.
Qed.

Lemma flags_of_rule op C f e : C ≠ AMD64CondAlways -> leaves x y nd op f -> value Ity_I64 e (Z.b2z (holds C f)) ->
  after op C = true -> ∃ v, h = Ret v ∧ value Ity_I64 e v.
Proof. intros HC Hf He. rewrite <- holds_pack in He. apply (value_of _ _ (pack_flags f)); [done|by apply leaves_flags|done]. Qed.

Lemma sub_holds w C : 0 < w -> C ≠ AMD64CondAlways -> holds C (sub_flags w x y false) = compare_spec w C x y.
Proof. intros. rewrite <- holds_pack. by apply compare_holds. Qed.


(** One rule, for an operation that leaves the flags that [L] gives.
    What remains is an equation between the value of the expression and the condition. *)
Ltac rule L :=
  first [apply when_ok | apply when_atoms_ok; [done..|]];
  first [intros [Hafter Hextra]%andb_true_iff; eapply flags_of_rule; [|apply L| |exact Hafter]
        |intros Hafter; eapply flags_of_rule; [|apply L| |exact Hafter]];
  [done|]; eapply has_eq; [vals|].

Ltac sub_rule L := rule L; rewrite sub_holds by done; cbn [compare_spec bits]; f_equal.

Lemma spec_SUBQ_ok : rule_ok h (spec_SUBQ cond cc_op d1 d2).
Proof.
  rules; sub_rule (leaves_sub x y nd Q); try done; try lia. apply (sub_overflow_bits 64); lia.
Qed.

Lemma spec_ADDQ_ok : rule_ok h (spec_ADDQ cond cc_op d1 d2).
Proof.
  rules; rule (leaves_add x y nd Q); cbn [holds add_flags result_flags ZF SF bits Z.b2z andb]; by rewrite Z.add_0_r.
Qed.
Lemma spec_ADDL_ok : rule_ok h (spec_ADDL cond cc_op d1 d2).
Proof.
  rules; rule (leaves_add x y nd L); cbn [holds add_flags result_flags SF OF bits Z.b2z andb]; rewrite !Z.add_0_r; try done.
  f_equal. apply (add_overflow_bits 32). lia.
Qed.

(** A comparison with the constant 0. *)
Lemma sub_zero_bits k : isU64 d2 0 = true -> 0 <= k < 64 -> Z.testbit x k = Z.testbit (x - y) k.
Proof.
  intros Hz Hk. apply (isU64_value _ _ (wrap 64 y)) in Hz; [|done].
  rewrite <- (testbit_wrap_low 64 x), <- (testbit_wrap_low 64 (x - y)) by done. f_equal. unfold wrap in *.
  by rewrite Zminus_mod, Hz, Z.mod_0_l, Z.sub_0_r, Zmod_mod by done.
Qed.

Lemma spec_SUBW_ok : rule_ok h (spec_SUBW cond cc_op d1 d2).
Proof.
  rules; sub_rule (leaves_sub x y nd W); first [done|apply top_16_le|apply top_16_sle|by apply (sub_zero_bits 15)|idtac].
  f_equal. by apply (sub_zero_bits 15).
Qed.
Lemma spec_SUBB_ok : rule_ok h (spec_SUBB cond cc_op d1 d2).
Proof.
  rules; sub_rule (leaves_sub x y nd B); first [done|by apply (sub_zero_bits 7)|idtac].
  f_equal. by apply (sub_zero_bits 7).
Qed.

Lemma spec_LOGICQ_ok : rule_ok h (spec_LOGICQ cond cc_op d1).
Proof.
  rules; rule (leaves_logic x y nd Q); cbn [holds result_flags ZF SF OF bits andb]; rewrite ?xorb_false_r; try done.
  f_equal. by apply (signed_lt_0 64).
Qed.
Lemma spec_LOGICL_ok : rule_ok h (spec_LOGICL cond cc_op d1).
Proof.
  rules; rule (leaves_logic x y nd L); cbn [holds result_flags ZF SF OF bits andb]; rewrite ?xorb_false_r; try done.
  f_equal. by apply (signed_le_0 32).
Qed.
Lemma spec_LOGICW_ok : rule_ok h (spec_LOGICW cond cc_op d1).
Proof. rules; rule (leaves_logic x y nd W); done. Qed.
Lemma spec_LOGICB_ok : rule_ok h (spec_LOGICB cond cc_op d1).
Proof. rules; rule (leaves_logic x y nd B); done. Qed.

Lemma spec_INC_DEC_ok : rule_ok h (spec_INC_DEC cond cc_op d1).
Proof.
  destruct (inc_shape B x nd) as (a1 & E1). destruct (inc_shape W x nd) as (a2 & E2).
  destruct (dec_shape 32 x nd) as (a3 & o3 & E3); [done|]. destruct (dec_shape 16 x nd) as (a4 & o4 & E4); [done|].
  rules.
  - rule (leaves_inc x y nd B _ E1). cbn [holds result_flags ZF SF OF bits andb]. rewrite (inc_le 8) by done. done.
  - rule (leaves_inc x y nd W _ E2). cbn [holds result_flags ZF bits andb]. f_equal. apply top_16_eq.
  - rule (leaves_dec x y nd L _ _ E3). done.
  - rule (leaves_dec x y nd W _ _ E4). cbn [holds result_flags ZF bits andb]. do 2 f_equal. apply top_16_eq.
Qed.

Lemma spec_SHRQ_ok : rule_ok h (spec_SHRQ cond cc_op d1).
Proof. rules; rule (leaves_shr x y nd Q _ _ (ACTIONS_SHR_ok 64 x y ltac:(done))); done. Qed.
Lemma spec_SHRL_ok : rule_ok h (spec_SHRL cond cc_op d1).
Proof. rules; rule (leaves_shr x y nd L _ _ (ACTIONS_SHR_ok 32 x y ltac:(done))); done. Qed.
Lemma spec_SHRW_ok : rule_ok h (spec_SHRW cond cc_op d1).
Proof. rules; rule (leaves_shr x y nd W _ _ (ACTIONS_SHR_ok 16 x y ltac:(done))); done. Qed.
Lemma spec_SHLQ_ok : rule_ok h (spec_SHLQ cond cc_op d1).
Proof. destruct (shl_shape 64 x y) as (c1 & o1 & E); [done|]. rules; rule (leaves_shl x y nd Q _ _ E); done. Qed.
Lemma spec_SHLL_ok : rule_ok h (spec_SHLL cond cc_op d1).
Proof. destruct (shl_shape 32 x y) as (c1 & o1 & E); [done|]. rules; rule (leaves_shl x y nd L _ _ E); done. Qed.

(** *** Copied flags *)

Lemma copied_bit k : k ∈ [0; 2; 4; 6; 7; 11] -> Z.testbit (Z.land x OSZACP) k = Z.testbit x k.
Proof. intros Hk. rewrite Z.land_spec, testbit_OSZACP, bool_decide_eq_true_2 by done. apply andb_true_r. Qed.

Lemma b2z_eqb b (c' : bool) : (Z.b2z b =? if c' then 1 else 0) = if c' then b else negb b.
Proof. by destruct b, c'. Qed.

Lemma copy_rule C NC b e : C ≠ AMD64CondAlways -> NC ≠ AMD64CondAlways -> isU64 (mkU64 (cond_code NC)) (cond_code C) = false ->
  cond_holds C (Z.land x OSZACP) = b -> cond_holds NC (Z.land x OSZACP) = negb b ->
  value Ity_I64 e (Z.b2z (Z.b2z b =? nnn cond C)) -> rule_ok h (when (after_COPY cond cc_op C NC) e).
Proof.
  intros HC HNC Hne Hb Hnb He. unfold nnn in He. rewrite b2z_eqb in He. apply when_ok. unfold after_COPY.
  intros [Hop Hcond]%andb_true_iff. destruct (isU64 cond (cond_code C)) eqn:E1.
  - apply (value_of AMD64G_CC_OP_COPY C (Z.land x OSZACP)); [done|done|by rewrite Hb|]. unfold Amd64Spec.after. by rewrite Hop, E1.
  - cbn in Hcond. apply (value_of AMD64G_CC_OP_COPY NC (Z.land x OSZACP)); [done|done|by rewrite Hnb|].
    unfold Amd64Spec.after. by rewrite Hop, Hcond.
Qed.

Lemma copied_bits : 
  Z.testbit (Z.land x OSZACP) 0 = Z.testbit x 0 ∧ Z.testbit (Z.land x OSZACP) 2 = Z.testbit x 2 ∧
  Z.testbit (Z.land x OSZACP) 6 = Z.testbit x 6.
Proof. split_and!; apply copied_bit; solve [repeat constructor]. Qed.

Lemma spec_COPY_ok : rule_ok h (spec_COPY cond cc_op d1).
Proof.
  destruct copied_bits as (B0 & B2 & B6).
  rules; eapply copy_rule; try done; cbn [cond_holds]; rewrite ?B0, ?B2, ?B6; try reflexivity;
    (eapply has_eq; [vals|]); try done.
  rewrite Z.lor_spec, !Z.shiftr_spec, !Z.add_0_l, !testbit_wrap_low by done. done.
Qed.

(** *** Comparisons with a power of two *)

Lemma const_word e v m : e = Iex_Const (Ico_U64 m) -> value Ity_I64 e v -> 0 <= m < 2 ^ 64 ∧ v = m.
Proof.
  intros -> (Ht & _ & He). cbn in Ht. assert (0 <= m < 2 ^ 64) by lia. split; [done|].
  cbn [eval typeOfIRConst width value_of_const] in He. injection He as <-. by apply wrap_small.
Qed.

Lemma shl_N_ok e v : value Ity_I64 e v -> ∃ n, isU64_1_shl_N e = Ret n ∧ (n = 0 ∨ 1 <= n <= 31 ∧ v = 2 ^ n).
Proof.
  intros Hv. assert (∀ m, e = Iex_Const (Ico_U64 m) -> 0 <= m < 2 ^ 64 ∧ v = m) as Hm by (intros m E; by apply (const_word e)).
  destruct e; try (by exists 0; auto). match goal with k : IRConst |- _ => destruct k; try (by exists 0; auto) end.
  destruct (Hm _ eq_refl) as [Hr ->]. by apply shl_N_literal_ok.
Qed.
Lemma shl_N_minus_1_ok e v : value Ity_I64 e v ->
  ∃ n, isU64_1_shl_N_minus_1 e = Ret n ∧ (n = 0 ∨ 1 <= n <= 31 ∧ v = 2 ^ n - 1).
Proof.
  intros Hv. assert (∀ m, e = Iex_Const (Ico_U64 m) -> 0 <= m < 2 ^ 64 ∧ v = m) as Hm by (intros m E; by apply (const_word e)).
  destruct e; try (by exists 0; auto). match goal with k : IRConst |- _ => destruct k; try (by exists 0; auto) end.
  destruct (Hm _ eq_refl) as [Hr ->]. unfold isU64_1_shl_N_minus_1. case_bool; [by exists 0; auto|].
  unfold u64. rewrite wrap_small by lia. destruct (shl_N_literal_ok (n + 1)) as (k & -> & [->|[Hk Hp]]); [lia|by exists 0; auto|].
  exists k. split; [done|right]. lia.
Qed.

Lemma power_value (nb : bool) n : 1 <= n <= 31 ->
  value Ity_I64 (unop Iop_1Uto64 (binop (if nb then Iop_CmpNE32 else Iop_CmpEQ32)
    (binop Iop_Shr32 (unop Iop_64to32 d1) (mkU8 n)) (mkU32 0))) (Z.b2z (xorb nb (wrap 32 x <? 2 ^ n))).
Proof.
  intros Hn. apply has_1Uto64.
  assert ((wrap 32 x / 2 ^ n =? wrap 32 0) = (wrap 32 x <? 2 ^ n)) as <-.
  { change (wrap 32 0) with 0. pose proof (wrap_range 32 x). assert (0 < 2 ^ n) by (apply Z.pow_pos_nonneg; lia).
    pose proof (Z.div_small_iff (wrap 32 x) (2 ^ n)). lia. }
  destruct nb; [apply has_NE32|rewrite xorb_false_l; apply has_EQ32]; try (apply has_mkU32; lia); (apply has_Shr32; [lia|by apply has_64to32]).
Qed.

(** The rule for a condition [C], the complement of [C'] if [nb]. *)
Lemma power_rule C (nb : bool) n : C ≠ AMD64CondAlways -> after AMD64G_CC_OP_SUBL C = true -> 1 <= n <= 31 ->
  compare_spec 32 C x y = xorb nb (wrap 32 x <? 2 ^ n) ->
  rule_ok h (if 0 <? n then
    _ ← vg_assert ((1 <=? n) && (n <=? 31));
    Ret (Some (unop Iop_1Uto64 (binop (if nb then Iop_CmpNE32 else Iop_CmpEQ32)
      (binop Iop_Shr32 (unop Iop_64to32 d1) (mkU8 n)) (mkU32 0)))) else Ret None).
Proof.
  intros HC Hafter Hn Hs. replace (0 <? n) with true by lia. replace ((1 <=? n) && (n <=? 31)) with true by lia.
  eexists. split; [reflexivity|]. intros e [= <-]. eapply flags_of_rule; [done|apply (leaves_sub x y nd L)| |exact Hafter].
  rewrite sub_holds by done. cbn [bits]. rewrite Hs. by apply power_value.
Qed.

Lemma none_ok m : m = Ret None -> rule_ok h m.
Proof. intros ->. by exists None. Qed.

Lemma pow_word n : 1 <= n <= 31 -> 0 <= 2 ^ n < 2 ^ 32.
Proof. intros. split; [apply Z.pow_nonneg; lia|]. apply Z.pow_lt_mono_r; lia. Qed.

Lemma spec_SUBL_power_ok : rule_ok h (spec_SUBL_power cond cc_op d1 d2).
Proof.
  unfold spec_SUBL_power, power_of_two. destruct (isU64 cc_op _) eqn:Hop; [|by apply none_ok].
  assert (∀ C, isU64 cond (cond_code C) = true -> after AMD64G_CC_OP_SUBL C = true) as Hafter
    by (intros C HC; unfold Amd64Spec.after; by rewrite Hop, HC).
  destruct (shl_N_ok d2 (wrap 64 y) H2) as (n & -> & Hn). destruct (shl_N_minus_1_ok d2 (wrap 64 y) H2) as (n' & -> & Hn').
  assert (∀ z, 0 <= z < 2 ^ 32 -> wrap 64 y = z -> wrap 32 y = z) as Hy.
  { intros z Hz E. by rewrite <- (wrap_wrap 64 32), E, wrap_small. }
  destruct (isU64 cond (cond_code AMD64CondB) || _) eqn:E1; [|destruct (isU64 cond (cond_code AMD64CondBE) || _) eqn:E2; [|by apply none_ok]];
    cbn [mbind outcome_bind].
  - destruct Hn as [->|[Hn Hp]]; [by apply none_ok|]. pose proof (pow_word n Hn). apply Hy in Hp; [|done].
    destruct (isU64 cond (cond_code AMD64CondNB)) eqn:E.
    + apply (power_rule AMD64CondNB true n); [done|by apply Hafter|done|]. cbn [compare_spec]. rewrite xorb_true_l, Hp. lia.
    + rewrite orb_false_r in E1. apply (power_rule AMD64CondB false n); [done|by apply Hafter|done|].
      cbn [compare_spec]. rewrite xorb_false_l, Hp. lia.
  - destruct Hn' as [->|[Hn' Hp]]; [by apply none_ok|]. pose proof (pow_word n' Hn'). apply Hy in Hp; [|lia].
    destruct (isU64 cond (cond_code AMD64CondNBE)) eqn:E.
    + apply (power_rule AMD64CondNBE true n'); [done|by apply Hafter|done|]. cbn [compare_spec]. rewrite xorb_true_l, Hp. lia.
    + rewrite orb_false_r in E2. apply (power_rule AMD64CondBE false n'); [done|by apply Hafter|done|].
      cbn [compare_spec]. rewrite xorb_false_l, Hp. lia.
Qed.

Lemma spec_SUBL_ok : rule_ok h (spec_SUBL cond cc_op d1 d2).
Proof.
  rules; [unfold spec_SUBL_O|apply spec_SUBL_power_ok|..]; sub_rule (leaves_sub x y nd L); try done. apply (sub_overflow_bits 32); lia.
Qed.

Lemma spec_condition_ok : rule_ok h (spec_condition cond cc_op d1 d2).
Proof.
  rules; [apply spec_ADDQ_ok|apply spec_ADDL_ok|apply spec_SUBQ_ok|apply spec_SUBL_ok|apply spec_SUBW_ok|apply spec_SUBB_ok
    |apply spec_LOGICQ_ok|apply spec_LOGICL_ok|apply spec_LOGICW_ok|apply spec_LOGICB_ok|apply spec_INC_DEC_ok
    |apply spec_SHRQ_ok|apply spec_SHRL_ok|apply spec_SHRW_ok|apply spec_SHLQ_ok|apply spec_SHLL_ok|apply spec_COPY_ok].
Qed.
End Condition.

Section Carry.
Variables (cc_op d1 d2 cc_ndep : IRExpr) (o x y nd : Z).
Hypotheses (Ho : value Ity_I64 cc_op o) (H1 : value Ity_I64 d1 (wrap 64 x)) (H2 : value Ity_I64 d2 (wrap 64 y))
  (Hnd : value Ity_I64 cc_ndep nd) (Hthunk : thunk_ok [o; x; y; nd] = true).
Local Notation h := (amd64g_calculate_rflags_c o x y nd).

Lemma op_value op : isU64 cc_op (cc_code op) = true -> o = cc_code op.
Proof. intros H. by rewrite (isU64_value _ _ _ H Ho), code_word. Qed.

Lemma carry_of_rule op f e : leaves x y nd op f -> value Ity_I64 e (Z.b2z (CF f)) -> isU64 cc_op (cc_code op) = true ->
  ∃ v, h = Ret v ∧ value Ity_I64 e v.
Proof.
  intros Hf He ->%op_value. exists (Z.b2z (CF f)). split; [|done].
  rewrite rflags_c_ok, (leaves_flags _ _ _ _ _ Hf). cbn [mbind outcome_bind]. by destruct (pack_flags_bits f) as (-> & _).
Qed.

Ltac carry L := apply when_ok; intros Hop; eapply carry_of_rule; [apply L| |exact Hop]; eapply has_eq; [vals|].

(** [NDEP] is the carry. *)
Lemma ndep_value : (nd =? 0) || (nd =? 1) = true -> value Ity_I64 cc_ndep (Z.b2z (Z.testbit nd 0)).
Proof. clear Hthunk. intros Hn. eapply has_eq; [exact Hnd|]. assert (nd = 0 ∨ nd = 1) as [-> | ->] by lia; done. Qed.

Lemma spec_rflags_c_ok : rule_ok h (spec_rflags_c cc_op d1 d2 cc_ndep).
Proof.
  rules.
  - carry (leaves_sub x y nd Q). cbn. f_equal. lia.
  - carry (leaves_sub x y nd L). cbn. f_equal. lia.
  - carry (leaves_sub x y nd W). cbn. f_equal. lia.
  - carry (leaves_sub x y nd B). cbn. f_equal. lia.
  - carry (leaves_add x y nd Q). pose proof (carry_out 64 x y false ltac:(done)) as Hc. cbn [Z.b2z] in Hc.
    rewrite Z.add_0_r in Hc. rewrite Hc. done.
  - carry (leaves_add x y nd L). pose proof (carry_out 32 x y false ltac:(done)) as Hc. cbn [Z.b2z] in Hc.
    rewrite Z.add_0_r in Hc. rewrite Hc. done.
  - apply when_ok. intros [[[Hop|Hop]%orb_true_iff|Hop]%orb_true_iff|Hop]%orb_true_iff;
      (eapply carry_of_rule; [| |exact Hop]; [by first [apply (leaves_logic x y nd Q)|apply (leaves_logic x y nd L)
        |apply (leaves_logic x y nd W)|apply (leaves_logic x y nd B)]|by apply (has_mkU64 tyenv tmps s 0)]).
  - destruct (inc_shape L x nd) as (a1 & E1). destruct (inc_shape Q x nd) as (a2 & E2).
    destruct (dec_shape 32 x nd) as (a3 & o3 & E3); [done|]. destruct (dec_shape 64 x nd) as (a4 & o4 & E4); [done|].
    apply when_ok. intros [[[Hop|Hop]%orb_true_iff|Hop]%orb_true_iff|Hop]%orb_true_iff;
      pose proof Hthunk as Ht; rewrite (op_value _ Hop) in Ht; apply ndep_value in Ht.
    + by apply (carry_of_rule _ _ _ (leaves_dec x y nd L _ _ E3)).
    + by apply (carry_of_rule _ _ _ (leaves_inc x y nd L _ E1)).
    + by apply (carry_of_rule _ _ _ (leaves_dec x y nd Q _ _ E4)).
    + by apply (carry_of_rule _ _ _ (leaves_inc x y nd Q _ E2)).
Qed.
End Carry.

(** An atom of 64 bits has a word as value. *)
Lemma atom_word e v : isIRAtom e = true -> value Ity_I64 e v -> value Ity_I64 e (wrap 64 v).
Proof.
  intros Ha (Ht & Hy & He). split_and!; [done..|]. rewrite He. f_equal. symmetry.
  destruct e; try done; cbn [eval typeOfIRExpr] in *; injection He as <-; rewrite Hy; by apply wrap_wrap_same.
Qed.

(** C36: Specialisation keeps the value of a call. For a call of
    [amd64g_calculate_condition] or [amd64g_calculate_rflags_c] with atoms of 64 bits as
    arguments, [guest_amd64_spechelper] returns (no assertion fails), and if it returns
    an expression, that expression is well typed, of 64 bits, and evaluates, in every
    state, to the number that the call computes from the values of the arguments. Of the
    thunk it is assumed that [NDEP] after an increment or decrement is 0 or 1. *)
Theorem spechelper_sound (f : string) (args : list IRExpr) (vs : list Z) (h : outcome Z)
  (Hatoms : forallb isIRAtom args = true)
  (Hargs : Forall2 (value Ity_I64) args vs)
  (Hcall : helper f vs = Some h) (Hthunk : thunk_ok vs = true) :
  ∃ r, guest_amd64_spechelper f args = Ret r ∧
    ∀ e, r = Some e ->
      tcExpr tyenv Ity_I64 e = true ∧ typeOfIRExpr tyenv e = Ity_I64 ∧
      ∃ v, h = Ret v ∧ eval tyenv tmps s e = Some v.
Proof.
  assert (rule_ok h (guest_amd64_spechelper f args)) as (r & Hr & He).
  { destruct Hargs as [|a0 v0 ? ? V0 [|a1 v1 ? ? V1 [|a2 v2 ? ? V2 [|a3 v3 ? ? V3 [|a4 v4 ? ? V4 [|]]]]]]; try done; cbn in Hatoms; b2p.
    - unfold helper in Hcall. destruct (String.eqb f "amd64g_calculate_rflags_c") eqn:Hf; [|done]. apply String.eqb_eq in Hf as ->.
      injection Hcall as <-. apply spec_rflags_c_ok; auto using atom_word.
    - unfold helper in Hcall. destruct (String.eqb f "amd64g_calculate_condition") eqn:Hf; [|done]. apply String.eqb_eq in Hf as ->.
      injection Hcall as <-. apply spec_condition_ok; auto using atom_word. }
  exists r. split; [done|]. intros e Hre. destruct (He e Hre) as (v & Hv & Ht & Hy & Hev). split_and!; [done..|]. by exists v.
Qed.
End Rules.

(** ** Instances *)

Definition two_temporaries : IRTypeEnv := [Ity_I64; Ity_I64].

(** Less, after a comparison of the temporaries 3 and 5 as quadwords. *)
Lemma spechelper_sound_witness :
  guest_amd64_spechelper "amd64g_calculate_condition"
    [mkU64 12; mkU64 8; Iex_RdTmp 0; Iex_RdTmp 1; mkU64 0] =
    Ret (Some (unop Iop_1Uto64 (binop Iop_CmpLT64S (Iex_RdTmp 0) (Iex_RdTmp 1)))) ∧
  @eval unit empty_machine two_temporaries (fun t => if t =? 0 then 3 else 5) ()
    (unop Iop_1Uto64 (binop Iop_CmpLT64S (Iex_RdTmp 0) (Iex_RdTmp 1))) = Some 1.
Proof.
  destruct (@spechelper_sound unit empty_machine two_temporaries (fun t => if t =? 0 then 3 else 5) ()
    "amd64g_calculate_condition" [mkU64 12; mkU64 8; Iex_RdTmp 0; Iex_RdTmp 1; mkU64 0] [12; 8; 3; 5; 0] (Ret 1))
    as (r & Hr & He).
  - reflexivity.
  - repeat constructor.
  - vm_compute. reflexivity.
  - reflexivity.
  - assert (r = Some (unop Iop_1Uto64 (binop Iop_CmpLT64S (Iex_RdTmp 0) (Iex_RdTmp 1)))) as Hs.
    { assert (Ret r = Ret (Some (unop Iop_1Uto64 (binop Iop_CmpLT64S (Iex_RdTmp 0) (Iex_RdTmp 1))))) as E
        by (rewrite <- Hr; vm_compute; reflexivity). congruence. }
    split; [by rewrite Hr, Hs|]. destruct (He _ Hs) as (_ & _ & v & Hv & Hev). rewrite Hev. congruence.
Defined.
