(* ===== verification/Simd64.v ===== *)
(** * VEX/priv/host_generic_simd64.c

    The operations on vectors of 64 and 32 bits that the code generators of VEX
    call where they have no instruction, the conversions between the two decimal
    encodings, and division as ARM defines it. Every value of a C type is its
    number; a parameter is converted to its type when the function is entered,
    as C does, since lanes are passed as unsigned words to functions on signed
    ones. The arithmetic on [Int] below cannot overflow where its operands are
    [Char] or [Short]; the product of [mul32] can and is checked. *)

From S2P Require Import Prelude Lanes.
Local Open Scope Z_scope.

(** ** Tuples and selections *)

Definition mk32x2 (w1 w0 : Z) : Z :=
  let w1 := u32 w1 in let w0 := u32 w0 in Z.lor (Z.shiftl w1 32) w0.

Definition sel32x2_1 (w64 : Z) : Z := Z.land 0xFFFFFFFF (toUInt (Z.shiftr w64 32)).
Definition sel32x2_0 (w64 : Z) : Z := Z.land 0xFFFFFFFF (toUInt w64).

Definition mk16x4 (w3 w2 w1 w0 : Z) : Z :=
  let w3 := u16 w3 in let w2 := u16 w2 in let w1 := u16 w1 in let w0 := u16 w0 in
  let hi32 := Z.lor (Z.shiftl w3 16) w2 in
  let lo32 := Z.lor (Z.shiftl w1 16) w0 in
  mk32x2 hi32 lo32.

Definition sel16x4_3 (w64 : Z) : Z :=
  let hi32 := toUInt (Z.shiftr w64 32) in toUShort (Z.land 0xFFFF (Z.shiftr hi32 16)).
Definition sel16x4_2 (w64 : Z) : Z :=
  let hi32 := toUInt (Z.shiftr w64 32) in toUShort (Z.land 0xFFFF hi32).
Definition sel16x4_1 (w64 : Z) : Z :=
  let lo32 := u32 w64 in toUShort (Z.land 0xFFFF (Z.shiftr lo32 16)).
Definition sel16x4_0 (w64 : Z) : Z :=
  let lo32 := u32 w64 in toUShort (Z.land 0xFFFF lo32).

Definition mk8x8 (w7 w6 w5 w4 w3 w2 w1 w0 : Z) : Z :=
  let w7 := u8 w7 in let w6 := u8 w6 in let w5 := u8 w5 in let w4 := u8 w4 in
  let w3 := u8 w3 in let w2 := u8 w2 in let w1 := u8 w1 in let w0 := u8 w0 in
  let hi32 := Z.lor (Z.lor (Z.lor (Z.shiftl w7 24) (Z.shiftl w6 16)) (Z.shiftl w5 8)) (Z.shiftl w4 0) in
  let lo32 := Z.lor (Z.lor (Z.lor (Z.shiftl w3 24) (Z.shiftl w2 16)) (Z.shiftl w1 8)) (Z.shiftl w0 0) in
  mk32x2 hi32 lo32.

Definition sel8x8_7 (w64 : Z) : Z :=
  let hi32 := toUInt (Z.shiftr w64 32) in toUChar (Z.land 0xFF (Z.shiftr hi32 24)).
Definition sel8x8_6 (w64 : Z) : Z :=
  let hi32 := toUInt (Z.shiftr w64 32) in toUChar (Z.land 0xFF (Z.shiftr hi32 16)).
Definition sel8x8_5 (w64 : Z) : Z :=
  let hi32 := toUInt (Z.shiftr w64 32) in toUChar (Z.land 0xFF (Z.shiftr hi32 8)).
Definition sel8x8_4 (w64 : Z) : Z :=
  let hi32 := toUInt (Z.shiftr w64 32) in toUChar (Z.land 0xFF (Z.shiftr hi32 0)).
Definition sel8x8_3 (w64 : Z) : Z :=
  let lo32 := u32 w64 in toUChar (Z.land 0xFF (Z.shiftr lo32 24)).
Definition sel8x8_2 (w64 : Z) : Z :=
  let lo32 := u32 w64 in toUChar (Z.land 0xFF (Z.shiftr lo32 16)).
Definition sel8x8_1 (w64 : Z) : Z :=
  let lo32 := u32 w64 in toUChar (Z.land 0xFF (Z.shiftr lo32 8)).
Definition sel8x8_0 (w64 : Z) : Z :=
  let lo32 := u32 w64 in toUChar (Z.land 0xFF (Z.shiftr lo32 0)).

Definition index8x8 (w64 ix : Z) : Z :=
  let ix := u8 ix in
  let ix := Z.land ix 7 in
  toUChar (Z.land (Z.shiftr w64 (8 * ix)) 0xFF).

(** The mask is all ones or zero, from the top bit of the index. *)
Definition indexOrZero8x8 (w64 ix : Z) : Z :=
  let ix := u8 ix in
  let zeroingMask := s8 ix in
  let zeroingMask := s8 (Z.lxor zeroingMask 0x80) in
  let zeroingMask := s8 (Z.shiftr zeroingMask 7) in
  let ix := Z.land ix 7 in
  toUChar (Z.land (Z.land (Z.shiftr w64 (8 * ix)) (u64 zeroingMask)) 0xFF).

(** ** Scalar helpers *)

Definition qadd32S (xx yy : Z) : Z :=
  let xx := s32 xx in let yy := s32 yy in
  let t := xx + yy in
  let t := if t <? -0x80000000 then -0x80000000 else t in
  let t := if 0x7FFFFFFF <? t then 0x7FFFFFFF else t in
  s32 t.

Definition qadd16S (xx yy : Z) : Z :=
  let xx := s16 xx in let yy := s16 yy in
  let t := xx + yy in
  let t := if t <? -32768 then -32768 else t in
  let t := if 32767 <? t then 32767 else t in
  s16 t.

Definition qadd8S (xx yy : Z) : Z :=
  let xx := s8 xx in let yy := s8 yy in
  let t := xx + yy in
  let t := if t <? -128 then -128 else t in
  let t := if 127 <? t then 127 else t in
  s8 t.

Definition qadd16U (xx yy : Z) : Z :=
  let xx := u16 xx in let yy := u16 yy in
  let t := xx + yy in
  let t := if 0xFFFF <? t then 0xFFFF else t in
  u16 t.

Definition qadd8U (xx yy : Z) : Z :=
  let xx := u8 xx in let yy := u8 yy in
  let t := xx + yy in
  let t := if 0xFF <? t then 0xFF else t in
  u8 t.

Definition qsub32S (xx yy : Z) : Z :=
  let xx := s32 xx in let yy := s32 yy in
  let t := xx - yy in
  let t := if t <? -0x80000000 then -0x80000000 else t in
  let t := if 0x7FFFFFFF <? t then 0x7FFFFFFF else t in
  s32 t.

Definition qsub16S (xx yy : Z) : Z :=
  let xx := s16 xx in let yy := s16 yy in
  let t := xx - yy in
  let t := if t <? -32768 then -32768 else t in
  let t := if 32767 <? t then 32767 else t in
  s16 t.

Definition qsub8S (xx yy : Z) : Z :=
  let xx := s8 xx in let yy := s8 yy in
  let t := xx - yy in
  let t := if t <? -128 then -128 else t in
  let t := if 127 <? t then 127 else t in
  s8 t.

Definition qsub16U (xx yy : Z) : Z :=
  let xx := u16 xx in let yy := u16 yy in
  let t := xx - yy in
  let t := if t <? 0 then 0 else t in
  let t := if 0xFFFF <? t then 0xFFFF else t in
  u16 t.

Definition qsub8U (xx yy : Z) : Z :=
  let xx := u8 xx in let yy := u8 yy in
  let t := xx - yy in
  let t := if t <? 0 then 0 else t in
  let t := if 0xFF <? t then 0xFF else t in
  u8 t.

Definition mul16 (xx yy : Z) : Z :=
  let xx := s16 xx in let yy := s16 yy in
  let t := xx * yy in s16 t.

(** The product is taken in [Int]. *)
Definition mul32 (xx yy : Z) : outcome Z :=
  let xx := s32 xx in let yy := s32 yy in
  t ← int_ (xx * yy); Ret (s32 t).

Definition mulhi16S (xx yy : Z) : Z :=
  let xx := s16 xx in let yy := s16 yy in
  let t := xx * yy in
  let t := Z.shiftr t 16 in s16 t.

Definition mulhi16U (xx yy : Z) : Z :=
  let xx := u16 xx in let yy := u16 yy in
  let t := u32 (xx * yy) in
  let t := Z.shiftr t 16 in u16 t.

Definition cmpeq32 (xx yy : Z) : Z :=
  let xx := u32 xx in let yy := u32 yy in
  if xx =? yy then 0xFFFFFFFF else 0.

Definition cmpeq16 (xx yy : Z) : Z :=
  let xx := u16 xx in let yy := u16 yy in
  toUShort (if xx =? yy then 0xFFFF else 0).

Definition cmpeq8 (xx yy : Z) : Z :=
  let xx := u8 xx in let yy := u8 yy in
  toUChar (if xx =? yy then 0xFF else 0).

Definition cmpgt32S (xx yy : Z) : Z :=
  let xx := s32 xx in let yy := s32 yy in
  if yy <? xx then 0xFFFFFFFF else 0.

Definition cmpgt16S (xx yy : Z) : Z :=
  let xx := s16 xx in let yy := s16 yy in
  toUShort (if yy <? xx then 0xFFFF else 0).

Definition cmpgt8S (xx yy : Z) : Z :=
  let xx := s8 xx in let yy := s8 yy in
  toUChar (if yy <? xx then 0xFF else 0).

Definition cmpnez32 (xx : Z) : Z :=
  let xx := u32 xx in
  if xx =? 0 then 0 else 0xFFFFFFFF.

Definition cmpnez16 (xx : Z) : Z :=
  let xx := u16 xx in
  toUShort (if xx =? 0 then 0 else 0xFFFF).

Definition cmpnez8 (xx : Z) : Z :=
  let xx := u8 xx in
  toUChar (if xx =? 0 then 0 else 0xFF).

Definition qnarrow32Sto16S (xx0 : Z) : Z :=
  let xx := s32 (u32 xx0) in
  let xx := if xx <? -32768 then -32768 else xx in
  let xx := if 32767 <? xx then 32767 else xx in
  s16 xx.

Definition qnarrow16Sto8S (xx0 : Z) : Z :=
  let xx := s16 (u16 xx0) in
  let xx := if xx <? -128 then -128 else xx in
  let xx := if 127 <? xx then 127 else xx in
  s8 xx.

Definition qnarrow16Sto8U (xx0 : Z) : Z :=
  let xx := s16 (u16 xx0) in
  let xx := if xx <? 0 then 0 else xx in
  let xx := if 255 <? xx then 255 else xx in
  u8 xx.

Definition narrow32to16 (xx : Z) : Z := u16 (u32 xx).
Definition narrow16to8 (xx : Z) : Z := u8 (u16 xx).

(** Shifts; the callers keep the amount below the width. *)
Definition shl8 (v n : Z) : Z := toUChar (Z.shiftl (u8 v) n).
Definition sar8 (v n : Z) : Z := toUChar (Z.shiftr (s8 v) n).
Definition shl16 (v n : Z) : Z := toUShort (Z.shiftl (u16 v) n).
Definition shr16 (v n : Z) : Z := toUShort (Z.shiftr (u16 v) n).
Definition sar16 (v n : Z) : Z := toUShort (Z.shiftr (s16 v) n).
Definition shl32 (v n : Z) : Z := u32 (Z.shiftl (u32 v) n).
Definition shr32 (v n : Z) : Z := Z.shiftr (u32 v) n.
Definition sar32 (v n : Z) : Z := u32 (Z.shiftr (s32 v) n).

Definition avg8U (xx yy : Z) : Z :=
  let xx := u8 xx in let yy := u8 yy in
  let r := Z.shiftr (u32 (xx + yy + 1)) 1 in u8 r.

Definition avg16U (xx yy : Z) : Z :=
  let xx := u16 xx in let yy := u16 yy in
  let r := Z.shiftr (u32 (xx + yy + 1)) 1 in u16 r.

Definition max16S (xx yy : Z) : Z :=
  let xx := s16 xx in let yy := s16 yy in
  s16 (toUShort (if yy <? xx then xx else yy)).

Definition max8U (xx yy : Z) : Z :=
  let xx := u8 xx in let yy := u8 yy in
  toUChar (if yy <? xx then xx else yy).

Definition min16S (xx yy : Z) : Z :=
  let xx := s16 xx in let yy := s16 yy in
  s16 (toUShort (if xx <? yy then xx else yy)).

Definition min8U (xx yy : Z) : Z :=
  let xx := u8 xx in let yy := u8 yy in
  toUChar (if xx <? yy then xx else yy).

Definition hadd16U (xx yy : Z) : Z :=
  let xx := u16 xx in let yy := u16 yy in
  let r := Z.shiftr (u32 (xx + yy)) 1 in u16 r.

Definition hadd16S (xx yy : Z) : Z :=
  let xx := s16 xx in let yy := s16 yy in
  let r := Z.shiftr (xx + yy) 1 in s16 r.

Definition hsub16U (xx yy : Z) : Z :=
  let xx := u16 xx in let yy := u16 yy in
  let r := Z.shiftr (u32 (xx - yy)) 1 in u16 r.

Definition hsub16S (xx yy : Z) : Z :=
  let xx := s16 xx in let yy := s16 yy in
  let r := Z.shiftr (xx - yy) 1 in s16 r.

Definition hadd8U (xx yy : Z) : Z :=
  let xx := u8 xx in let yy := u8 yy in
  let r := Z.shiftr (u32 (xx + yy)) 1 in u8 r.

Definition hadd8S (xx yy : Z) : Z :=
  let xx := s8 xx in let yy := s8 yy in
  let r := Z.shiftr (xx + yy) 1 in s8 r.

Definition hsub8U (xx yy : Z) : Z :=
  let xx := u8 xx in let yy := u8 yy in
  let r := Z.shiftr (u32 (xx - yy)) 1 in u8 r.

Definition hsub8S (xx yy : Z) : Z :=
  let xx := s8 xx in let yy := s8 yy in
  let r := Z.shiftr (xx - yy) 1 in s8 r.

Definition absdiff8U (xx yy : Z) : Z :=
  let xx := u8 xx in let yy := u8 yy in
  if yy <=? xx then u32 (xx - yy) else u32 (yy - xx).

(** ** Vectors of 64 bits *)

(** Normal addition. *)
Definition h_generic_calc_Add32x2 (xx yy : Z) : Z :=
  mk32x2 (sel32x2_1 xx + sel32x2_1 yy) (sel32x2_0 xx + sel32x2_0 yy).

Definition h_generic_calc_Add16x4 (xx yy : Z) : Z :=
  mk16x4
    (toUShort (sel16x4_3 xx + sel16x4_3 yy))
    (toUShort (sel16x4_2 xx + sel16x4_2 yy))
    (toUShort (sel16x4_1 xx + sel16x4_1 yy))
    (toUShort (sel16x4_0 xx + sel16x4_0 yy)).

Definition h_generic_calc_Add8x8 (xx yy : Z) : Z :=
  mk8x8
    (toUChar (sel8x8_7 xx + sel8x8_7 yy))
    (toUChar (sel8x8_6 xx + sel8x8_6 yy))
    (toUChar (sel8x8_5 xx + sel8x8_5 yy))
    (toUChar (sel8x8_4 xx + sel8x8_4 yy))
    (toUChar (sel8x8_3 xx + sel8x8_3 yy))
    (toUChar (sel8x8_2 xx + sel8x8_2 yy))
    (toUChar (sel8x8_1 xx + sel8x8_1 yy))
    (toUChar (sel8x8_0 xx + sel8x8_0 yy)).

(** Saturating addition. *)
Definition h_generic_calc_QAdd16Sx4 (xx yy : Z) : Z :=
  mk16x4
    (qadd16S (sel16x4_3 xx) (sel16x4_3 yy))
    (qadd16S (sel16x4_2 xx) (sel16x4_2 yy))
    (qadd16S (sel16x4_1 xx) (sel16x4_1 yy))
    (qadd16S (sel16x4_0 xx) (sel16x4_0 yy)).

Definition h_generic_calc_QAdd8Sx8 (xx yy : Z) : Z :=
  mk8x8
    (qadd8S (sel8x8_7 xx) (sel8x8_7 yy))
    (qadd8S (sel8x8_6 xx) (sel8x8_6 yy))
    (qadd8S (sel8x8_5 xx) (sel8x8_5 yy))
    (qadd8S (sel8x8_4 xx) (sel8x8_4 yy))
    (qadd8S (sel8x8_3 xx) (sel8x8_3 yy))
    (qadd8S (sel8x8_2 xx) (sel8x8_2 yy))
    (qadd8S (sel8x8_1 xx) (sel8x8_1 yy))
    (qadd8S (sel8x8_0 xx) (sel8x8_0 yy)).

Definition h_generic_calc_QAdd16Ux4 (xx yy : Z) : Z :=
  mk16x4
    (qadd16U (sel16x4_3 xx) (sel16x4_3 yy))
    (qadd16U (sel16x4_2 xx) (sel16x4_2 yy))
    (qadd16U (sel16x4_1 xx) (sel16x4_1 yy))
    (qadd16U (sel16x4_0 xx) (sel16x4_0 yy)).

Definition h_generic_calc_QAdd8Ux8 (xx yy : Z) : Z :=
  mk8x8
    (qadd8U (sel8x8_7 xx) (sel8x8_7 yy))
    (qadd8U (sel8x8_6 xx) (sel8x8_6 yy))
    (qadd8U (sel8x8_5 xx) (sel8x8_5 yy))
    (qadd8U (sel8x8_4 xx) (sel8x8_4 yy))
    (qadd8U (sel8x8_3 xx) (sel8x8_3 yy))
    (qadd8U (sel8x8_2 xx) (sel8x8_2 yy))
    (qadd8U (sel8x8_1 xx) (sel8x8_1 yy))
    (qadd8U (sel8x8_0 xx) (sel8x8_0 yy)).

(** Normal subtraction. *)
Definition h_generic_calc_Sub32x2 (xx yy : Z) : Z :=
  mk32x2 (sel32x2_1 xx - sel32x2_1 yy) (sel32x2_0 xx - sel32x2_0 yy).

Definition h_generic_calc_Sub16x4 (xx yy : Z) : Z :=
  mk16x4
    (toUShort (sel16x4_3 xx - sel16x4_3 yy))
    (toUShort (sel16x4_2 xx - sel16x4_2 yy))
    (toUShort (sel16x4_1 xx - sel16x4_1 yy))
    (toUShort (sel16x4_0 xx - sel16x4_0 yy)).

Definition h_generic_calc_Sub8x8 (xx yy : Z) : Z :=
  mk8x8
    (toUChar (sel8x8_7 xx - sel8x8_7 yy))
    (toUChar (sel8x8_6 xx - sel8x8_6 yy))
    (toUChar (sel8x8_5 xx - sel8x8_5 yy))
    (toUChar (sel8x8_4 xx - sel8x8_4 yy))
    (toUChar (sel8x8_3 xx - sel8x8_3 yy))
    (toUChar (sel8x8_2 xx - sel8x8_2 yy))
    (toUChar (sel8x8_1 xx - sel8x8_1 yy))
    (toUChar (sel8x8_0 xx - sel8x8_0 yy)).

(** Saturating subtraction. *)
Definition h_generic_calc_QSub16Sx4 (xx yy : Z) : Z :=
  mk16x4
    (qsub16S (sel16x4_3 xx) (sel16x4_3 yy))
    (qsub16S (sel16x4_2 xx) (sel16x4_2 yy))
    (qsub16S (sel16x4_1 xx) (sel16x4_1 yy))
    (qsub16S (sel16x4_0 xx) (sel16x4_0 yy)).

Definition h_generic_calc_QSub8Sx8 (xx yy : Z) : Z :=
  mk8x8
    (qsub8S (sel8x8_7 xx) (sel8x8_7 yy))
    (qsub8S (sel8x8_6 xx) (sel8x8_6 yy))
    (qsub8S (sel8x8_5 xx) (sel8x8_5 yy))
    (qsub8S (sel8x8_4 xx) (sel8x8_4 yy))
    (qsub8S (sel8x8_3 xx) (sel8x8_3 yy))
    (qsub8S (sel8x8_2 xx) (sel8x8_2 yy))
    (qsub8S (sel8x8_1 xx) (sel8x8_1 yy))
    (qsub8S (sel8x8_0 xx) (sel8x8_0 yy)).

Definition h_generic_calc_QSub16Ux4 (xx yy : Z) : Z :=
  mk16x4
    (qsub16U (sel16x4_3 xx) (sel16x4_3 yy))
    (qsub16U (sel16x4_2 xx) (sel16x4_2 yy))
    (qsub16U (sel16x4_1 xx) (sel16x4_1 yy))
    (qsub16U (sel16x4_0 xx) (sel16x4_0 yy)).

Definition h_generic_calc_QSub8Ux8 (xx yy : Z) : Z :=
  mk8x8
    (qsub8U (sel8x8_7 xx) (sel8x8_7 yy))
    (qsub8U (sel8x8_6 xx) (sel8x8_6 yy))
    (qsub8U (sel8x8_5 xx) (sel8x8_5 yy))
    (qsub8U (sel8x8_4 xx) (sel8x8_4 yy))
    (qsub8U (sel8x8_3 xx) (sel8x8_3 yy))
    (qsub8U (sel8x8_2 xx) (sel8x8_2 yy))
    (qsub8U (sel8x8_1 xx) (sel8x8_1 yy))
    (qsub8U (sel8x8_0 xx) (sel8x8_0 yy)).

(** Multiplication. *)
Definition h_generic_calc_Mul16x4 (xx yy : Z) : Z :=
  mk16x4
    (mul16 (sel16x4_3 xx) (sel16x4_3 yy))
    (mul16 (sel16x4_2 xx) (sel16x4_2 yy))
    (mul16 (sel16x4_1 xx) (sel16x4_1 yy))
    (mul16 (sel16x4_0 xx) (sel16x4_0 yy)).

Definition h_generic_calc_Mul32x2 (xx yy : Z) : outcome Z :=
  t1 ← mul32 (sel32x2_1 xx) (sel32x2_1 yy);
  t0 ← mul32 (sel32x2_0 xx) (sel32x2_0 yy);
  Ret (mk32x2 t1 t0).

Definition h_generic_calc_MulHi16Sx4 (xx yy : Z) : Z :=
  mk16x4
    (mulhi16S (sel16x4_3 xx) (sel16x4_3 yy))
    (mulhi16S (sel16x4_2 xx) (sel16x4_2 yy))
    (mulhi16S (sel16x4_1 xx) (sel16x4_1 yy))
    (mulhi16S (sel16x4_0 xx) (sel16x4_0 yy)).

Definition h_generic_calc_MulHi16Ux4 (xx yy : Z) : Z :=
  mk16x4
    (mulhi16U (sel16x4_3 xx) (sel16x4_3 yy))
    (mulhi16U (sel16x4_2 xx) (sel16x4_2 yy))
    (mulhi16U (sel16x4_1 xx) (sel16x4_1 yy))
    (mulhi16U (sel16x4_0 xx) (sel16x4_0 yy)).

(** Comparison. *)
Definition h_generic_calc_CmpEQ32x2 (xx yy : Z) : Z :=
  mk32x2 (cmpeq32 (sel32x2_1 xx) (sel32x2_1 yy)) (cmpeq32 (sel32x2_0 xx) (sel32x2_0 yy)).

Definition h_generic_calc_CmpEQ16x4 (xx yy : Z) : Z :=
  mk16x4
    (cmpeq16 (sel16x4_3 xx) (sel16x4_3 yy))
    (cmpeq16 (sel16x4_2 xx) (sel16x4_2 yy))
    (cmpeq16 (sel16x4_1 xx) (sel16x4_1 yy))
    (cmpeq16 (sel16x4_0 xx) (sel16x4_0 yy)).

Definition h_generic_calc_CmpEQ8x8 (xx yy : Z) : Z :=
  mk8x8
    (cmpeq8 (sel8x8_7 xx) (sel8x8_7 yy))
    (cmpeq8 (sel8x8_6 xx) (sel8x8_6 yy))
    (cmpeq8 (sel8x8_5 xx) (sel8x8_5 yy))
    (cmpeq8 (sel8x8_4 xx) (sel8x8_4 yy))
    (cmpeq8 (sel8x8_3 xx) (sel8x8_3 yy))
    (cmpeq8 (sel8x8_2 xx) (sel8x8_2 yy))
    (cmpeq8 (sel8x8_1 xx) (sel8x8_1 yy))
    (cmpeq8 (sel8x8_0 xx) (sel8x8_0 yy)).

Definition h_generic_calc_CmpGT32Sx2 (xx yy : Z) : Z :=
  mk32x2
    (cmpgt32S (sel32x2_1 xx) (sel32x2_1 yy))
    (cmpgt32S (sel32x2_0 xx) (sel32x2_0 yy)).

Definition h_generic_calc_CmpGT16Sx4 (xx yy : Z) : Z :=
  mk16x4
    (cmpgt16S (sel16x4_3 xx) (sel16x4_3 yy))
    (cmpgt16S (sel16x4_2 xx) (sel16x4_2 yy))
    (cmpgt16S (sel16x4_1 xx) (sel16x4_1 yy))
    (cmpgt16S (sel16x4_0 xx) (sel16x4_0 yy)).

Definition h_generic_calc_CmpGT8Sx8 (xx yy : Z) : Z :=
  mk8x8
    (cmpgt8S (sel8x8_7 xx) (sel8x8_7 yy))
    (cmpgt8S (sel8x8_6 xx) (sel8x8_6 yy))
    (cmpgt8S (sel8x8_5 xx) (sel8x8_5 yy))
    (cmpgt8S (sel8x8_4 xx) (sel8x8_4 yy))
    (cmpgt8S (sel8x8_3 xx) (sel8x8_3 yy))
    (cmpgt8S (sel8x8_2 xx) (sel8x8_2 yy))
    (cmpgt8S (sel8x8_1 xx) (sel8x8_1 yy))
    (cmpgt8S (sel8x8_0 xx) (sel8x8_0 yy)).

Definition h_generic_calc_CmpNEZ32x2 (xx : Z) : Z :=
  mk32x2 (cmpnez32 (sel32x2_1 xx)) (cmpnez32 (sel32x2_0 xx)).

Definition h_generic_calc_CmpNEZ16x4 (xx : Z) : Z :=
  mk16x4
    (cmpnez16 (sel16x4_3 xx))
    (cmpnez16 (sel16x4_2 xx))
    (cmpnez16 (sel16x4_1 xx))
    (cmpnez16 (sel16x4_0 xx)).

Definition h_generic_calc_CmpNEZ8x8 (xx : Z) : Z :=
  mk8x8
    (cmpnez8 (sel8x8_7 xx))
    (cmpnez8 (sel8x8_6 xx))
    (cmpnez8 (sel8x8_5 xx))
    (cmpnez8 (sel8x8_4 xx))
    (cmpnez8 (sel8x8_3 xx))
    (cmpnez8 (sel8x8_2 xx))
    (cmpnez8 (sel8x8_1 xx))
    (cmpnez8 (sel8x8_0 xx)).

(** Saturating narrowing. *)
Definition h_generic_calc_QNarrowBin32Sto16Sx4 (aa bb : Z) : Z :=
  let d := sel32x2_1 aa in
  let c := sel32x2_0 aa in
  let b := sel32x2_1 bb in
  let a := sel32x2_0 bb in
  mk16x4 (qnarrow32Sto16S d) (qnarrow32Sto16S c) (qnarrow32Sto16S b) (qnarrow32Sto16S a).

Definition h_generic_calc_QNarrowBin16Sto8Sx8 (aa bb : Z) : Z :=
  let h := sel16x4_3 aa in
  let g := sel16x4_2 aa in
  let f := sel16x4_1 aa in
  let e := sel16x4_0 aa in
  let d := sel16x4_3 bb in
  let c := sel16x4_2 bb in
  let b := sel16x4_1 bb in
  let a := sel16x4_0 bb in
  mk8x8
    (qnarrow16Sto8S h)
    (qnarrow16Sto8S g)
    (qnarrow16Sto8S f)
    (qnarrow16Sto8S e)
    (qnarrow16Sto8S d)
    (qnarrow16Sto8S c)
    (qnarrow16Sto8S b)
    (qnarrow16Sto8S a).

Definition h_generic_calc_QNarrowBin16Sto8Ux8 (aa bb : Z) : Z :=
  let h := sel16x4_3 aa in
  let g := sel16x4_2 aa in
  let f := sel16x4_1 aa in
  let e := sel16x4_0 aa in
  let d := sel16x4_3 bb in
  let c := sel16x4_2 bb in
  let b := sel16x4_1 bb in
  let a := sel16x4_0 bb in
  mk8x8
    (qnarrow16Sto8U h)
    (qnarrow16Sto8U g)
    (qnarrow16Sto8U f)
    (qnarrow16Sto8U e)
    (qnarrow16Sto8U d)
    (qnarrow16Sto8U c)
    (qnarrow16Sto8U b)
    (qnarrow16Sto8U a).

(** Truncating narrowing. *)
Definition h_generic_calc_NarrowBin32to16x4 (aa bb : Z) : Z :=
  let d := sel32x2_1 aa in
  let c := sel32x2_0 aa in
  let b := sel32x2_1 bb in
  let a := sel32x2_0 bb in
  mk16x4 (narrow32to16 d) (narrow32to16 c) (narrow32to16 b) (narrow32to16 a).

Definition h_generic_calc_NarrowBin16to8x8 (aa bb : Z) : Z :=
  let h := sel16x4_3 aa in
  let g := sel16x4_2 aa in
  let f := sel16x4_1 aa in
  let e := sel16x4_0 aa in
  let d := sel16x4_3 bb in
  let c := sel16x4_2 bb in
  let b := sel16x4_1 bb in
  let a := sel16x4_0 bb in
  mk8x8
    (narrow16to8 h)
    (narrow16to8 g)
    (narrow16to8 f)
    (narrow16to8 e)
    (narrow16to8 d)
    (narrow16to8 c)
    (narrow16to8 b)
    (narrow16to8 a).

(** Interleaving. *)
Definition h_generic_calc_InterleaveHI8x8 (aa bb : Z) : Z :=
  mk8x8
    (sel8x8_7 aa)
    (sel8x8_7 bb)
    (sel8x8_6 aa)
    (sel8x8_6 bb)
    (sel8x8_5 aa)
    (sel8x8_5 bb)
    (sel8x8_4 aa)
    (sel8x8_4 bb).

Definition h_generic_calc_InterleaveLO8x8 (aa bb : Z) : Z :=
  mk8x8
    (sel8x8_3 aa)
    (sel8x8_3 bb)
    (sel8x8_2 aa)
    (sel8x8_2 bb)
    (sel8x8_1 aa)
    (sel8x8_1 bb)
    (sel8x8_0 aa)
    (sel8x8_0 bb).

Definition h_generic_calc_InterleaveHI16x4 (aa bb : Z) : Z :=
  mk16x4 (sel16x4_3 aa) (sel16x4_3 bb) (sel16x4_2 aa) (sel16x4_2 bb).

Definition h_generic_calc_InterleaveLO16x4 (aa bb : Z) : Z :=
  mk16x4 (sel16x4_1 aa) (sel16x4_1 bb) (sel16x4_0 aa) (sel16x4_0 bb).

Definition h_generic_calc_InterleaveHI32x2 (aa bb : Z) : Z :=
  mk32x2 (sel32x2_1 aa) (sel32x2_1 bb).

Definition h_generic_calc_InterleaveLO32x2 (aa bb : Z) : Z :=
  mk32x2 (sel32x2_0 aa) (sel32x2_0 bb).

(** Concatenation. *)
Definition h_generic_calc_CatOddLanes16x4 (aa bb : Z) : Z :=
  mk16x4 (sel16x4_3 aa) (sel16x4_1 aa) (sel16x4_3 bb) (sel16x4_1 bb).

Definition h_generic_calc_CatEvenLanes16x4 (aa bb : Z) : Z :=
  mk16x4 (sel16x4_2 aa) (sel16x4_0 aa) (sel16x4_2 bb) (sel16x4_0 bb).

(** Permutation. *)
Definition h_generic_calc_Perm8x8 (aa bb : Z) : Z :=
  mk8x8
    (index8x8 aa (sel8x8_7 bb))
    (index8x8 aa (sel8x8_6 bb))
    (index8x8 aa (sel8x8_5 bb))
    (index8x8 aa (sel8x8_4 bb))
    (index8x8 aa (sel8x8_3 bb))
    (index8x8 aa (sel8x8_2 bb))
    (index8x8 aa (sel8x8_1 bb))
    (index8x8 aa (sel8x8_0 bb)).

Definition h_generic_calc_PermOrZero8x8 (aa bb : Z) : Z :=
  mk8x8
    (indexOrZero8x8 aa (sel8x8_7 bb))
    (indexOrZero8x8 aa (sel8x8_6 bb))
    (indexOrZero8x8 aa (sel8x8_5 bb))
    (indexOrZero8x8 aa (sel8x8_4 bb))
    (indexOrZero8x8 aa (sel8x8_3 bb))
    (indexOrZero8x8 aa (sel8x8_2 bb))
    (indexOrZero8x8 aa (sel8x8_1 bb))
    (indexOrZero8x8 aa (sel8x8_0 bb)).

(** Shifting. *)
Definition h_generic_calc_ShlN32x2 (xx nn : Z) : Z :=
  let nn := Z.land nn 31 in
  mk32x2 (shl32 (sel32x2_1 xx) nn) (shl32 (sel32x2_0 xx) nn).

Definition h_generic_calc_ShlN16x4 (xx nn : Z) : Z :=
  let nn := Z.land nn 15 in
  mk16x4
    (shl16 (sel16x4_3 xx) nn)
    (shl16 (sel16x4_2 xx) nn)
    (shl16 (sel16x4_1 xx) nn)
    (shl16 (sel16x4_0 xx) nn).

Definition h_generic_calc_ShlN8x8 (xx nn : Z) : Z :=
  let nn := Z.land nn 7 in
  mk8x8
    (shl8 (sel8x8_7 xx) nn)
    (shl8 (sel8x8_6 xx) nn)
    (shl8 (sel8x8_5 xx) nn)
    (shl8 (sel8x8_4 xx) nn)
    (shl8 (sel8x8_3 xx) nn)
    (shl8 (sel8x8_2 xx) nn)
    (shl8 (sel8x8_1 xx) nn)
    (shl8 (sel8x8_0 xx) nn).

Definition h_generic_calc_ShrN32x2 (xx nn : Z) : Z :=
  let nn := Z.land nn 31 in
  mk32x2 (shr32 (sel32x2_1 xx) nn) (shr32 (sel32x2_0 xx) nn).

Definition h_generic_calc_ShrN16x4 (xx nn : Z) : Z :=
  let nn := Z.land nn 15 in
  mk16x4
    (shr16 (sel16x4_3 xx) nn)
    (shr16 (sel16x4_2 xx) nn)
    (shr16 (sel16x4_1 xx) nn)
    (shr16 (sel16x4_0 xx) nn).

Definition h_generic_calc_SarN32x2 (xx nn : Z) : Z :=
  let nn := Z.land nn 31 in
  mk32x2 (sar32 (sel32x2_1 xx) nn) (sar32 (sel32x2_0 xx) nn).

Definition h_generic_calc_SarN16x4 (xx nn : Z) : Z :=
  let nn := Z.land nn 15 in
  mk16x4
    (sar16 (sel16x4_3 xx) nn)
    (sar16 (sel16x4_2 xx) nn)
    (sar16 (sel16x4_1 xx) nn)
    (sar16 (sel16x4_0 xx) nn).

Definition h_generic_calc_SarN8x8 (xx nn : Z) : Z :=
  let nn := Z.land nn 7 in
  mk8x8
    (sar8 (sel8x8_7 xx) nn)
    (sar8 (sel8x8_6 xx) nn)
    (sar8 (sel8x8_5 xx) nn)
    (sar8 (sel8x8_4 xx) nn)
    (sar8 (sel8x8_3 xx) nn)
    (sar8 (sel8x8_2 xx) nn)
    (sar8 (sel8x8_1 xx) nn)
    (sar8 (sel8x8_0 xx) nn).

(** Averaging. *)
Definition h_generic_calc_Avg8Ux8 (xx yy : Z) : Z :=
  mk8x8
    (avg8U (sel8x8_7 xx) (sel8x8_7 yy))
    (avg8U (sel8x8_6 xx) (sel8x8_6 yy))
    (avg8U (sel8x8_5 xx) (sel8x8_5 yy))
    (avg8U (sel8x8_4 xx) (sel8x8_4 yy))
    (avg8U (sel8x8_3 xx) (sel8x8_3 yy))
    (avg8U (sel8x8_2 xx) (sel8x8_2 yy))
    (avg8U (sel8x8_1 xx) (sel8x8_1 yy))
    (avg8U (sel8x8_0 xx) (sel8x8_0 yy)).

Definition h_generic_calc_Avg16Ux4 (xx yy : Z) : Z :=
  mk16x4
    (avg16U (sel16x4_3 xx) (sel16x4_3 yy))
    (avg16U (sel16x4_2 xx) (sel16x4_2 yy))
    (avg16U (sel16x4_1 xx) (sel16x4_1 yy))
    (avg16U (sel16x4_0 xx) (sel16x4_0 yy)).

(** max/min. *)
Definition h_generic_calc_Max16Sx4 (xx yy : Z) : Z :=
  mk16x4
    (max16S (sel16x4_3 xx) (sel16x4_3 yy))
    (max16S (sel16x4_2 xx) (sel16x4_2 yy))
    (max16S (sel16x4_1 xx) (sel16x4_1 yy))
    (max16S (sel16x4_0 xx) (sel16x4_0 yy)).

Definition h_generic_calc_Max8Ux8 (xx yy : Z) : Z :=
  mk8x8
    (max8U (sel8x8_7 xx) (sel8x8_7 yy))
    (max8U (sel8x8_6 xx) (sel8x8_6 yy))
    (max8U (sel8x8_5 xx) (sel8x8_5 yy))
    (max8U (sel8x8_4 xx) (sel8x8_4 yy))
    (max8U (sel8x8_3 xx) (sel8x8_3 yy))
    (max8U (sel8x8_2 xx) (sel8x8_2 yy))
    (max8U (sel8x8_1 xx) (sel8x8_1 yy))
    (max8U (sel8x8_0 xx) (sel8x8_0 yy)).

Definition h_generic_calc_Min16Sx4 (xx yy : Z) : Z :=
  mk16x4
    (min16S (sel16x4_3 xx) (sel16x4_3 yy))
    (min16S (sel16x4_2 xx) (sel16x4_2 yy))
    (min16S (sel16x4_1 xx) (sel16x4_1 yy))
    (min16S (sel16x4_0 xx) (sel16x4_0 yy)).

Definition h_generic_calc_Min8Ux8 (xx yy : Z) : Z :=
  mk8x8
    (min8U (sel8x8_7 xx) (sel8x8_7 yy))
    (min8U (sel8x8_6 xx) (sel8x8_6 yy))
    (min8U (sel8x8_5 xx) (sel8x8_5 yy))
    (min8U (sel8x8_4 xx) (sel8x8_4 yy))
    (min8U (sel8x8_3 xx) (sel8x8_3 yy))
    (min8U (sel8x8_2 xx) (sel8x8_2 yy))
    (min8U (sel8x8_1 xx) (sel8x8_1 yy))
    (min8U (sel8x8_0 xx) (sel8x8_0 yy)).

(** [if (xx & (1ULL << (k-1))) r |= (1<<j)]. *)
Definition or_bit (xx r k j : Z) : Z :=
  if Z.land xx (Z.shiftl 1 (k - 1)) =? 0 then r else Z.lor r (Z.shiftl 1 j).

Definition h_generic_calc_GetMSBs8x8 (xx : Z) : Z :=
  let r := 0 in
  let r := or_bit xx r 64 7 in
  let r := or_bit xx r 56 6 in
  let r := or_bit xx r 48 5 in
  let r := or_bit xx r 40 4 in
  let r := or_bit xx r 32 3 in
  let r := or_bit xx r 24 2 in
  let r := or_bit xx r 16 1 in
  or_bit xx r 8 0.

(** ** Vectors of 32 bits *)

Definition mk16x2 (w1 w2 : Z) : Z :=
  let w1 := u16 w1 in let w2 := u16 w2 in Z.lor (Z.shiftl w1 16) w2.
Definition sel16x2_1 (w32 : Z) : Z := Z.land 0xFFFF (u16 (Z.shiftr w32 16)).
Definition sel16x2_0 (w32 : Z) : Z := Z.land 0xFFFF (u16 w32).

Definition mk8x4 (w3 w2 w1 w0 : Z) : Z :=
  let w3 := u8 w3 in let w2 := u8 w2 in let w1 := u8 w1 in let w0 := u8 w0 in
  Z.lor (Z.lor (Z.lor (Z.shiftl w3 24) (Z.shiftl w2 16)) (Z.shiftl w1 8)) (Z.shiftl w0 0).
Definition sel8x4_3 (w32 : Z) : Z := toUChar (Z.land 0xFF (Z.shiftr w32 24)).
Definition sel8x4_2 (w32 : Z) : Z := toUChar (Z.land 0xFF (Z.shiftr w32 16)).
Definition sel8x4_1 (w32 : Z) : Z := toUChar (Z.land 0xFF (Z.shiftr w32 8)).
Definition sel8x4_0 (w32 : Z) : Z := toUChar (Z.land 0xFF (Z.shiftr w32 0)).

(** Two lanes of 16 bits. *)
Definition h_generic_calc_Add16x2 (xx yy : Z) : Z :=
  mk16x2 (sel16x2_1 xx + sel16x2_1 yy) (sel16x2_0 xx + sel16x2_0 yy).

Definition h_generic_calc_Sub16x2 (xx yy : Z) : Z :=
  mk16x2 (sel16x2_1 xx - sel16x2_1 yy) (sel16x2_0 xx - sel16x2_0 yy).

Definition h_generic_calc_HAdd16Ux2 (xx yy : Z) : Z :=
  mk16x2 (hadd16U (sel16x2_1 xx) (sel16x2_1 yy)) (hadd16U (sel16x2_0 xx) (sel16x2_0 yy)).

Definition h_generic_calc_HAdd16Sx2 (xx yy : Z) : Z :=
  mk16x2 (hadd16S (sel16x2_1 xx) (sel16x2_1 yy)) (hadd16S (sel16x2_0 xx) (sel16x2_0 yy)).

Definition h_generic_calc_HSub16Ux2 (xx yy : Z) : Z :=
  mk16x2 (hsub16U (sel16x2_1 xx) (sel16x2_1 yy)) (hsub16U (sel16x2_0 xx) (sel16x2_0 yy)).

Definition h_generic_calc_HSub16Sx2 (xx yy : Z) : Z :=
  mk16x2 (hsub16S (sel16x2_1 xx) (sel16x2_1 yy)) (hsub16S (sel16x2_0 xx) (sel16x2_0 yy)).

Definition h_generic_calc_QAdd16Ux2 (xx yy : Z) : Z :=
  mk16x2 (qadd16U (sel16x2_1 xx) (sel16x2_1 yy)) (qadd16U (sel16x2_0 xx) (sel16x2_0 yy)).

Definition h_generic_calc_QAdd16Sx2 (xx yy : Z) : Z :=
  mk16x2 (qadd16S (sel16x2_1 xx) (sel16x2_1 yy)) (qadd16S (sel16x2_0 xx) (sel16x2_0 yy)).

Definition h_generic_calc_QSub16Ux2 (xx yy : Z) : Z :=
  mk16x2 (qsub16U (sel16x2_1 xx) (sel16x2_1 yy)) (qsub16U (sel16x2_0 xx) (sel16x2_0 yy)).

Definition h_generic_calc_QSub16Sx2 (xx yy : Z) : Z :=
  mk16x2 (qsub16S (sel16x2_1 xx) (sel16x2_1 yy)) (qsub16S (sel16x2_0 xx) (sel16x2_0 yy)).

(** Four lanes of 8 bits. *)
Definition h_generic_calc_Add8x4 (xx yy : Z) : Z :=
  mk8x4
    (sel8x4_3 xx + sel8x4_3 yy)
    (sel8x4_2 xx + sel8x4_2 yy)
    (sel8x4_1 xx + sel8x4_1 yy)
    (sel8x4_0 xx + sel8x4_0 yy).

Definition h_generic_calc_Sub8x4 (xx yy : Z) : Z :=
  mk8x4
    (sel8x4_3 xx - sel8x4_3 yy)
    (sel8x4_2 xx - sel8x4_2 yy)
    (sel8x4_1 xx - sel8x4_1 yy)
    (sel8x4_0 xx - sel8x4_0 yy).

Definition h_generic_calc_HAdd8Ux4 (xx yy : Z) : Z :=
  mk8x4
    (hadd8U (sel8x4_3 xx) (sel8x4_3 yy))
    (hadd8U (sel8x4_2 xx) (sel8x4_2 yy))
    (hadd8U (sel8x4_1 xx) (sel8x4_1 yy))
    (hadd8U (sel8x4_0 xx) (sel8x4_0 yy)).

Definition h_generic_calc_HAdd8Sx4 (xx yy : Z) : Z :=
  mk8x4
    (hadd8S (sel8x4_3 xx) (sel8x4_3 yy))
    (hadd8S (sel8x4_2 xx) (sel8x4_2 yy))
    (hadd8S (sel8x4_1 xx) (sel8x4_1 yy))
    (hadd8S (sel8x4_0 xx) (sel8x4_0 yy)).

Definition h_generic_calc_HSub8Ux4 (xx yy : Z) : Z :=
  mk8x4
    (hsub8U (sel8x4_3 xx) (sel8x4_3 yy))
    (hsub8U (sel8x4_2 xx) (sel8x4_2 yy))
    (hsub8U (sel8x4_1 xx) (sel8x4_1 yy))
    (hsub8U (sel8x4_0 xx) (sel8x4_0 yy)).

Definition h_generic_calc_HSub8Sx4 (xx yy : Z) : Z :=
  mk8x4
    (hsub8S (sel8x4_3 xx) (sel8x4_3 yy))
    (hsub8S (sel8x4_2 xx) (sel8x4_2 yy))
    (hsub8S (sel8x4_1 xx) (sel8x4_1 yy))
    (hsub8S (sel8x4_0 xx) (sel8x4_0 yy)).

Definition h_generic_calc_QAdd8Ux4 (xx yy : Z) : Z :=
  mk8x4
    (qadd8U (sel8x4_3 xx) (sel8x4_3 yy))
    (qadd8U (sel8x4_2 xx) (sel8x4_2 yy))
    (qadd8U (sel8x4_1 xx) (sel8x4_1 yy))
    (qadd8U (sel8x4_0 xx) (sel8x4_0 yy)).

Definition h_generic_calc_QAdd8Sx4 (xx yy : Z) : Z :=
  mk8x4
    (qadd8S (sel8x4_3 xx) (sel8x4_3 yy))
    (qadd8S (sel8x4_2 xx) (sel8x4_2 yy))
    (qadd8S (sel8x4_1 xx) (sel8x4_1 yy))
    (qadd8S (sel8x4_0 xx) (sel8x4_0 yy)).

Definition h_generic_calc_QSub8Ux4 (xx yy : Z) : Z :=
  mk8x4
    (qsub8U (sel8x4_3 xx) (sel8x4_3 yy))
    (qsub8U (sel8x4_2 xx) (sel8x4_2 yy))
    (qsub8U (sel8x4_1 xx) (sel8x4_1 yy))
    (qsub8U (sel8x4_0 xx) (sel8x4_0 yy)).

Definition h_generic_calc_QSub8Sx4 (xx yy : Z) : Z :=
  mk8x4
    (qsub8S (sel8x4_3 xx) (sel8x4_3 yy))
    (qsub8S (sel8x4_2 xx) (sel8x4_2 yy))
    (qsub8S (sel8x4_1 xx) (sel8x4_1 yy))
    (qsub8S (sel8x4_0 xx) (sel8x4_0 yy)).

Definition h_generic_calc_CmpNEZ16x2 (xx : Z) : Z :=
  mk16x2 (cmpnez16 (sel16x2_1 xx)) (cmpnez16 (sel16x2_0 xx)).

Definition h_generic_calc_CmpNEZ8x4 (xx : Z) : Z :=
  mk8x4
    (cmpnez8 (sel8x4_3 xx))
    (cmpnez8 (sel8x4_2 xx))
    (cmpnez8 (sel8x4_1 xx))
    (cmpnez8 (sel8x4_0 xx)).

(** Sum of absolute differences, and saturating scalars. *)
Definition h_generic_calc_Sad8Ux4 (xx yy : Z) : Z :=
  u32 (u32 (u32 (absdiff8U (sel8x4_3 xx) (sel8x4_3 yy)
                 + absdiff8U (sel8x4_2 xx) (sel8x4_2 yy))
            + absdiff8U (sel8x4_1 xx) (sel8x4_1 yy))
       + absdiff8U (sel8x4_0 xx) (sel8x4_0 yy)).

Definition h_generic_calc_QAdd32S (xx yy : Z) : Z := u32 (qadd32S xx yy).
Definition h_generic_calc_QSub32S (xx yy : Z) : Z := u32 (qsub32S xx yy).

(** ** Decimal floating point: BCD and densely packed decimal

    The variables are bits in a [Short]; [.&] and [.|] are the operators of C. *)

Declare Scope bits_scope.
Notation "x .& y" := (Z.land x y) (at level 40, left associativity) : bits_scope.
Notation "x .| y" := (Z.lor x y) (at level 50, left associativity) : bits_scope.

Definition NOT (x : Z) : Z := if x =? 0 then 1 else 0.
Definition GET (x y : Z) : Z := Z.shiftr (Z.land x (Z.shiftl 1 y)) y.
Definition PUT (x y : Z) : Z := Z.shiftl x y.

Section Declets.
Local Open Scope bits_scope.

Definition dpb_to_bcd (chunk : Z) : Z :=
  let p := GET chunk 9 in
  let q := GET chunk 8 in
  let r := GET chunk 7 in
  let s := GET chunk 6 in
  let t := GET chunk 5 in
  let u := GET chunk 4 in
  let v := GET chunk 3 in
  let w := GET chunk 2 in
  let x := GET chunk 1 in
  let y := GET chunk 0 in
  let a := NOT s .& v .& w .| t .& v .& w .& s .| v .& w .& NOT x in
  let b := p .& s .& x .& NOT t .| p .& NOT w .| p .& NOT v in
  let c := q .& s .& x .& NOT t .| q .& NOT w .| q .& NOT v in
  let d := r in
  let e := v .& NOT w .& x .| s .& v .& w .& x .| NOT t .& v .& x .& w in
  let f := p .& t .& v .& w .& x .& NOT s .| s .& NOT x .& v .| s .& NOT v in
  let g := q .& t .& w .& v .& x .& NOT s .| t .& NOT x .& v .| t .& NOT v in
  let h := u in
  let i := t .& v .& w .& x .| s .& v .& w .& x .| v .& NOT w .& NOT x in
  let j := p .& NOT s .& NOT t .& w .& v .| s .& v .& NOT w .& x .| p .& w .& NOT x .& v .|
    w .& NOT v in
  let k := q .& NOT s .& NOT t .& v .& w .| t .& v .& NOT w .& x .| q .& v .& w .& NOT x .|
    x .& NOT v in
  let m := y in
  PUT a 11 .| PUT b 10 .| PUT c 9 .| PUT d 8 .| PUT e 7 .| PUT f 6 .| PUT g 5 .|
  PUT h 4 .| PUT i 3 .| PUT j 2 .| PUT k 1 .| PUT m 0.
Definition bcd_to_dpb (chunk : Z) : Z :=
  let a := GET chunk 11 in
  let b := GET chunk 10 in
  let c := GET chunk 9 in
  let d := GET chunk 8 in
  let e := GET chunk 7 in
  let f := GET chunk 6 in
  let g := GET chunk 5 in
  let h := GET chunk 4 in
  let i := GET chunk 3 in
  let j := GET chunk 2 in
  let k := GET chunk 1 in
  let m := GET chunk 0 in
  let p := f .& a .& i .& NOT e .| j .& a .& NOT i .| b .& NOT a in
  let q := g .& a .& i .& NOT e .| k .& a .& NOT i .| c .& NOT a in
  let r := d in
  let s := j .& NOT a .& e .& NOT i .| f .& NOT i .& NOT e .| f .& NOT a .& NOT e .| e .& i in
  let t := k .& NOT a .& e .& NOT i .| g .& NOT i .& NOT e .| g .& NOT a .& NOT e .| a .& i in
  let u := h in
  let v := a .| e .| i in
  let w := NOT e .& j .& NOT i .| e .& i .| a in
  let x := NOT a .& k .& NOT i .| a .& i .| e in
  let y := m in
  PUT p 9 .| PUT q 8 .| PUT r 7 .| PUT s 6 .| PUT t 5 .| PUT u 4 .| PUT v 3 .|
  PUT w 2 .| PUT x 1 .| y.

End Declets.

(** One round of the loops. *)
Definition dpb_round (dpb result i : Z) : Z :=
  let chunk := Z.shiftr dpb ((4 - i) * 10) in
  let result := u64 (Z.shiftl result 12) in
  Z.lor result (dpb_to_bcd (Z.land chunk 0x3FF)).

Definition h_calc_DPBtoBCD (dpb : Z) : Z := foldl (dpb_round dpb) 0 (seqZ 0 5).

Definition bcd_round (bcd result i : Z) : Z :=
  let chunk := Z.shiftr bcd ((4 - i) * 12) in
  let result := u64 (Z.shiftl result 10) in
  Z.lor result (bcd_to_dpb (Z.land chunk 0xFFF)).

Definition h_calc_BCDtoDPB (bcd : Z) : Z := foldl (bcd_round bcd) 0 (seqZ 0 5).

(** ** Division as ARM does it *)

(** [x / y] of C on operands of a type with the given least and largest value:
    division by zero traps, and so does a quotient out of range. *)
Definition c_div (lo hi x y : Z) : outcome Z :=
  if y =? 0 then Fault Panic
  else let q := Z.quot x y in if (lo <=? q) && (q <=? hi) then Ret q else Fault IntOverflow.

Definition h_calc_udiv32_w_arm_semantics (x y : Z) : outcome Z :=
  if y =? 0 then Ret 0 else c_div 0 (2 ^ 32 - 1) x y.

Definition h_calc_udiv64_w_arm_semantics (x y : Z) : outcome Z :=
  if y =? 0 then Ret 0 else c_div 0 (2 ^ 64 - 1) x y.

Definition h_calc_sdiv32_w_arm_semantics (x y : Z) : outcome Z :=
  if y =? 0 then Ret 0
  else if (u32 x =? 0x80000000) && (u32 y =? 0xFFFFFFFF) then Ret (s32 0x80000000)
  else c_div (- 2 ^ 31) (2 ^ 31 - 1) x y.

Definition h_calc_sdiv64_w_arm_semantics (x y : Z) : outcome Z :=
  if y =? 0 then Ret 0
  else if (u64 x =? 0x8000000000000000) && (u64 y =? 0xFFFFFFFFFFFFFFFF) then
    Ret (s64 0x8000000000000000)
  else c_div (- 2 ^ 63) (2 ^ 63 - 1) x y.

(** * Lemmas *)

(** ** Conversions, tuples, selections *)

(** A field cut out of a word with a mask, as all selections do. *)
Lemma shiftr_wrap w v s x : 0 <= v -> 0 <= s -> v + s <= w ->
  wrap v (Z.shiftr (wrap w x) s) = wrap v (Z.shiftr x s).
Proof.
  intros. apply Z.bits_inj'. intros j Hj. rewrite !testbit_wrap, !Z.shiftr_spec by lia.
  rewrite testbit_wrap by lia. destruct (Z.ltb_spec j v); [|done]. by replace (j + s <? w) with true by lia.
Qed.

Lemma land_mask w x : 0 <= w -> Z.land (Z.ones w) x = wrap w x.
Proof. intros. by rewrite wrap_land, Z.land_comm. Qed.

Ltac sel_lane :=
  intros; cbv beta delta [sel32x2_0 sel32x2_1 sel16x4_0 sel16x4_1 sel16x4_2 sel16x4_3
    sel8x8_0 sel8x8_1 sel8x8_2 sel8x8_3 sel8x8_4 sel8x8_5 sel8x8_6 sel8x8_7
    sel16x2_0 sel16x2_1 sel8x4_0 sel8x4_1 sel8x4_2 sel8x4_3 lane u32 u16] zeta;
  rewrite ?toUChar_wrap, ?toUShort_wrap, ?toUInt_wrap;
  change 0xFFFFFFFF with (Z.ones 32); change 0xFFFF with (Z.ones 16); change 0xFF with (Z.ones 8);
  rewrite ?land_mask, ?wrap_wrap, ?shiftr_wrap, ?Z.shiftr_shiftr, ?wrap_wrap by lia;
  first [reflexivity | by rewrite Z.shiftr_0_r].

Lemma sel32x2_lanes x : sel32x2_0 x = lane 32 0 x ∧ sel32x2_1 x = lane 32 1 x.
Proof. split; sel_lane. Qed.

Lemma sel16x4_lanes x :
  sel16x4_0 x = lane 16 0 x ∧ sel16x4_1 x = lane 16 1 x ∧
  sel16x4_2 x = lane 16 2 x ∧ sel16x4_3 x = lane 16 3 x.
Proof. repeat split; sel_lane. Qed.

Lemma sel8x8_lanes x :
  (sel8x8_0 x = lane 8 0 x ∧ sel8x8_1 x = lane 8 1 x ∧ sel8x8_2 x = lane 8 2 x ∧ sel8x8_3 x = lane 8 3 x) ∧
  sel8x8_4 x = lane 8 4 x ∧ sel8x8_5 x = lane 8 5 x ∧ sel8x8_6 x = lane 8 6 x ∧ sel8x8_7 x = lane 8 7 x.
Proof. repeat split; sel_lane. Qed.

Lemma sel16x2_lanes x : sel16x2_0 x = lane 16 0 x ∧ sel16x2_1 x = lane 16 1 x.
Proof. repeat split; sel_lane. Qed.

Lemma sel8x4_lanes x :
  sel8x4_0 x = lane 8 0 x ∧ sel8x4_1 x = lane 8 1 x ∧ sel8x4_2 x = lane 8 2 x ∧ sel8x4_3 x = lane 8 3 x.
Proof. repeat split; sel_lane. Qed.

(** A tuple is the packed list of its components, cut to the lane. *)
Lemma lor_fields k a b : 0 <= k -> 0 <= b < 2 ^ k -> Z.lor (Z.shiftl a k) b = b + 2 ^ k * a.
Proof. intros. rewrite Z.shiftl_mul_pow2, lor_shifted_small by lia. lia. Qed.

Lemma mk32x2_pack w1 w0 : mk32x2 w1 w0 = pack 32 [wrap 32 w0; wrap 32 w1].
Proof.
  unfold mk32x2, u32. cbv zeta. rewrite lor_fields by auto with corelib lia. simpl. lia.
Qed.

Lemma mk16x2_pack w1 w0 : mk16x2 w1 w0 = pack 16 [wrap 16 w0; wrap 16 w1].
Proof.
  unfold mk16x2, u16. cbv zeta. rewrite lor_fields by auto with corelib lia. simpl. lia.
Qed.

Lemma mk16x4_pack w3 w2 w1 w0 :
  mk16x4 w3 w2 w1 w0 = pack 16 [wrap 16 w0; wrap 16 w1; wrap 16 w2; wrap 16 w3].
Proof.
  unfold mk16x4, u16. cbv zeta.
  pose proof (wrap_range 16 w0). pose proof (wrap_range 16 w1).
  pose proof (wrap_range 16 w2). pose proof (wrap_range 16 w3).
  rewrite !lor_fields, mk32x2_pack by lia. rewrite !(wrap_small 32) by lia. simpl. lia.
Qed.

Lemma lor4_fields d c b a : 0 <= d < 256 -> 0 <= c < 256 -> 0 <= b < 256 -> 0 <= a < 256 ->
  Z.lor (Z.lor (Z.lor (Z.shiftl d 24) (Z.shiftl c 16)) (Z.shiftl b 8)) (Z.shiftl a 0) =
  a + 256 * (b + 256 * (c + 256 * d)).
Proof.
  intros. rewrite Z.shiftl_0_r.
  replace (Z.shiftl d 24) with (Z.shiftl (Z.shiftl d 8) 16) by (by rewrite Z.shiftl_shiftl by lia).
  rewrite <- Z.shiftl_lor.
  replace (Z.shiftl (Z.lor (Z.shiftl d 8) c) 16) with (Z.shiftl (Z.shiftl (Z.lor (Z.shiftl d 8) c) 8) 8)
    by (by rewrite Z.shiftl_shiftl by lia).
  rewrite <- Z.shiftl_lor. rewrite !lor_fields by lia. lia.
Qed.

Lemma mk8x4_pack w3 w2 w1 w0 : mk8x4 w3 w2 w1 w0 = pack 8 [wrap 8 w0; wrap 8 w1; wrap 8 w2; wrap 8 w3].
Proof.
  unfold mk8x4, u8. cbv zeta. rewrite lor4_fields by (apply wrap_range; lia). simpl. lia.
Qed.

Lemma mk8x8_pack w7 w6 w5 w4 w3 w2 w1 w0 :
  mk8x8 w7 w6 w5 w4 w3 w2 w1 w0 =
  pack 8 [wrap 8 w0; wrap 8 w1; wrap 8 w2; wrap 8 w3; wrap 8 w4; wrap 8 w5; wrap 8 w6; wrap 8 w7].
Proof.
  unfold mk8x8, u8. cbv zeta.
  pose proof (fun x => wrap_range 8 x) as Hr. 
  rewrite !lor4_fields, mk32x2_pack by (apply wrap_range; lia).
  rewrite !(wrap_small 32); simpl; [lia|..].
  - pose proof (Hr w7). pose proof (Hr w6). pose proof (Hr w5). pose proof (Hr w4). lia.
  - pose proof (Hr w3). pose proof (Hr w2). pose proof (Hr w1). pose proof (Hr w0). lia.
Qed.

(** ** Operations that work lane by lane

    The code is the same term for each lane, in one of five shapes. *)

Section Shapes.
Context (f : Z -> Z -> Z) (F : Z -> Z -> Z) (g : Z -> Z) (G : Z -> Z).

Lemma vec2_32x2 : computes2 32 f F -> ∀ x y,
  mk32x2 (f (sel32x2_1 x) (sel32x2_1 y)) (f (sel32x2_0 x) (sel32x2_0 y)) = vec2 32 2 F x y.
Proof.
  intros Hf x y. destruct (sel32x2_lanes x) as [-> ->], (sel32x2_lanes y) as [-> ->].
  rewrite mk32x2_pack, !Hf by auto with corelib lia. done.
Qed.

Lemma vec1_32x2 : computes1 32 g G -> ∀ x, mk32x2 (g (sel32x2_1 x)) (g (sel32x2_0 x)) = vec1 32 2 G x.
Proof.
  intros Hf x. destruct (sel32x2_lanes x) as [-> ->].
  rewrite mk32x2_pack, !Hf by auto with corelib lia. done.
Qed.

Lemma vec2_16x4 : computes2 16 f F -> ∀ x y,
  mk16x4 (f (sel16x4_3 x) (sel16x4_3 y)) (f (sel16x4_2 x) (sel16x4_2 y))
         (f (sel16x4_1 x) (sel16x4_1 y)) (f (sel16x4_0 x) (sel16x4_0 y)) = vec2 16 4 F x y.
Proof.
  intros Hf x y. destruct (sel16x4_lanes x) as (-> & -> & -> & ->), (sel16x4_lanes y) as (-> & -> & -> & ->).
  rewrite mk16x4_pack, !Hf by auto with corelib lia. done.
Qed.

Lemma vec1_16x4 : computes1 16 g G -> ∀ x,
  mk16x4 (g (sel16x4_3 x)) (g (sel16x4_2 x)) (g (sel16x4_1 x)) (g (sel16x4_0 x)) = vec1 16 4 G x.
Proof.
  intros Hf x. destruct (sel16x4_lanes x) as (-> & -> & -> & ->).
  rewrite mk16x4_pack, !Hf by auto with corelib lia. done.
Qed.

Lemma vec2_8x8 : computes2 8 f F -> ∀ x y,
  mk8x8 (f (sel8x8_7 x) (sel8x8_7 y)) (f (sel8x8_6 x) (sel8x8_6 y))
        (f (sel8x8_5 x) (sel8x8_5 y)) (f (sel8x8_4 x) (sel8x8_4 y))
        (f (sel8x8_3 x) (sel8x8_3 y)) (f (sel8x8_2 x) (sel8x8_2 y))
        (f (sel8x8_1 x) (sel8x8_1 y)) (f (sel8x8_0 x) (sel8x8_0 y)) = vec2 8 8 F x y.
Proof.
  intros Hf x y.
  destruct (sel8x8_lanes x) as [(-> & -> & -> & ->) (-> & -> & -> & ->)].
  destruct (sel8x8_lanes y) as [(-> & -> & -> & ->) (-> & -> & -> & ->)].
  rewrite mk8x8_pack, !Hf by auto with corelib lia. done.
Qed.

Lemma vec1_8x8 : computes1 8 g G -> ∀ x,
  mk8x8 (g (sel8x8_7 x)) (g (sel8x8_6 x)) (g (sel8x8_5 x)) (g (sel8x8_4 x))
        (g (sel8x8_3 x)) (g (sel8x8_2 x)) (g (sel8x8_1 x)) (g (sel8x8_0 x)) = vec1 8 8 G x.
Proof.
  intros Hf x. destruct (sel8x8_lanes x) as [(-> & -> & -> & ->) (-> & -> & -> & ->)].
  rewrite mk8x8_pack, !Hf by auto with corelib lia. done.
Qed.

Lemma vec2_16x2 : computes2 16 f F -> ∀ x y,
  mk16x2 (f (sel16x2_1 x) (sel16x2_1 y)) (f (sel16x2_0 x) (sel16x2_0 y)) = vec2 16 2 F x y.
Proof.
  intros Hf x y. destruct (sel16x2_lanes x) as [-> ->], (sel16x2_lanes y) as [-> ->].
  rewrite mk16x2_pack, !Hf by auto with corelib lia. done.
Qed.

Lemma vec1_16x2 : computes1 16 g G -> ∀ x, mk16x2 (g (sel16x2_1 x)) (g (sel16x2_0 x)) = vec1 16 2 G x.
Proof.
  intros Hf x. destruct (sel16x2_lanes x) as [-> ->].
  rewrite mk16x2_pack, !Hf by auto with corelib lia. done.
Qed.

Lemma vec2_8x4 : computes2 8 f F -> ∀ x y,
  mk8x4 (f (sel8x4_3 x) (sel8x4_3 y)) (f (sel8x4_2 x) (sel8x4_2 y))
        (f (sel8x4_1 x) (sel8x4_1 y)) (f (sel8x4_0 x) (sel8x4_0 y)) = vec2 8 4 F x y.
Proof.
  intros Hf x y. destruct (sel8x4_lanes x) as (-> & -> & -> & ->), (sel8x4_lanes y) as (-> & -> & -> & ->).
  rewrite mk8x4_pack, !Hf by auto with corelib lia. done.
Qed.

Lemma vec1_8x4 : computes1 8 g G -> ∀ x,
  mk8x4 (g (sel8x4_3 x)) (g (sel8x4_2 x)) (g (sel8x4_1 x)) (g (sel8x4_0 x)) = vec1 8 4 G x.
Proof.
  intros Hf x. destruct (sel8x4_lanes x) as (-> & -> & -> & ->).
  rewrite mk8x4_pack, !Hf by auto with corelib lia. done.
Qed.

End Shapes.

(** ** The scalar helpers *)

(** Open a helper and its specification, and know the range of the operands. *)
Ltac helper f :=
  intros ?; intros; cbv beta delta [f u8 u16 u32 u64 s8 s16 s32 s64] zeta;
  rewrite ?toUChar_wrap, ?toUShort_wrap;
  repeat match goal with
  | H : 0 <= ?a < 2 ^ ?w |- context [wrap ?w ?a] => rewrite (wrap_small w a H)
  | |- context [swrap ?w ?a] =>
      lazymatch goal with
      | _ : - 2 ^ (w - 1) <= swrap w a < 2 ^ (w - 1) |- _ => fail
      | _ => first [is_var a | fail 1]; pose proof (swrap_bounds w a ltac:(lia))
      end
  end;
  rewrite ?wrap_swrap, ?wrap_wrap by lia.

Ltac saturate :=
  cbv beta delta [qadds qsubs qaddu qsubu qnarrows qnarrowu sat_s sat_u maxs mins maxu minu];
  change (32 - 1) with 31 in *; change (16 - 1) with 15 in *; change (8 - 1) with 7 in *;
  repeat match goal with
  | |- context [if ?b then _ else _] =>
      lazymatch b with context [if _ then _ else _] => fail | _ => idtac end;
      let E := fresh "E" in destruct b eqn:E; b2p
  end;
  first [lia | f_equal; lia | rewrite wrap_small; lia].

Lemma qadd32S_ok : computes2 32 qadd32S (qadds 32).
Proof. helper qadd32S. saturate. Qed.
Lemma qadd16S_ok : computes2 16 qadd16S (qadds 16).
Proof. helper qadd16S. saturate. Qed.
Lemma qadd8S_ok : computes2 8 qadd8S (qadds 8).
Proof. helper qadd8S. saturate. Qed.
Lemma qadd16U_ok : computes2 16 qadd16U (qaddu 16).
Proof. helper qadd16U. saturate. Qed.
Lemma qadd8U_ok : computes2 8 qadd8U (qaddu 8).
Proof. helper qadd8U. saturate. Qed.
Lemma qsub32S_ok : computes2 32 qsub32S (qsubs 32).
Proof. helper qsub32S. saturate. Qed.
Lemma qsub16S_ok : computes2 16 qsub16S (qsubs 16).
Proof. helper qsub16S. saturate. Qed.
Lemma qsub8S_ok : computes2 8 qsub8S (qsubs 8).
Proof. helper qsub8S. saturate. Qed.
Lemma qsub16U_ok : computes2 16 qsub16U (qsubu 16).
Proof. helper qsub16U. saturate. Qed.
Lemma qsub8U_ok : computes2 8 qsub8U (qsubu 8).
Proof. helper qsub8U. saturate. Qed.
Lemma max16S_ok : computes2 16 max16S (maxs 16).
Proof. helper max16S. saturate. Qed.
Lemma min16S_ok : computes2 16 min16S (mins 16).
Proof. helper min16S. saturate. Qed.
Lemma max8U_ok : computes2 8 max8U (maxu 8).
Proof. helper max8U. saturate. Qed.
Lemma min8U_ok : computes2 8 min8U (minu 8).
Proof. helper min8U. saturate. Qed.

Lemma qnarrow32Sto16S_ok : narrows 32 16 qnarrow32Sto16S (qnarrows 32 16).
Proof. helper qnarrow32Sto16S. saturate. Qed.
Lemma qnarrow16Sto8S_ok : narrows 16 8 qnarrow16Sto8S (qnarrows 16 8).
Proof. helper qnarrow16Sto8S. saturate. Qed.
Lemma qnarrow16Sto8U_ok : narrows 16 8 qnarrow16Sto8U (qnarrowu 16 8).
Proof. helper qnarrow16Sto8U. saturate. Qed.
Lemma narrow32to16_ok : narrows 32 16 narrow32to16 (wrap 16).
Proof. by helper narrow32to16. Qed.
Lemma narrow16to8_ok : narrows 16 8 narrow16to8 (wrap 8).
Proof. by helper narrow16to8. Qed.

Lemma add32_ok : computes2 32 (fun a b => a + b) (add 32).
Proof. done. Qed.
Lemma add16_ok : computes2 16 (fun a b => a + b) (add 16).
Proof. done. Qed.
Lemma add16c_ok : computes2 16 (fun a b => toUShort (a + b)) (add 16).
Proof. intros ????. rewrite toUShort_wrap. by apply wrap_wrap. Qed.
Lemma add8_ok : computes2 8 (fun a b => a + b) (add 8).
Proof. done. Qed.
Lemma add8c_ok : computes2 8 (fun a b => toUChar (a + b)) (add 8).
Proof. intros ????. rewrite toUChar_wrap. by apply wrap_wrap. Qed.
Lemma sub32_ok : computes2 32 (fun a b => a - b) (sub 32).
Proof. done. Qed.
Lemma sub16_ok : computes2 16 (fun a b => a - b) (sub 16).
Proof. done. Qed.
Lemma sub16c_ok : computes2 16 (fun a b => toUShort (a - b)) (sub 16).
Proof. intros ????. rewrite toUShort_wrap. by apply wrap_wrap. Qed.
Lemma sub8_ok : computes2 8 (fun a b => a - b) (sub 8).
Proof. done. Qed.
Lemma sub8c_ok : computes2 8 (fun a b => toUChar (a - b)) (sub 8).
Proof. intros ????. rewrite toUChar_wrap. by apply wrap_wrap. Qed.

Lemma wrap_mul_swrap w a b : 0 < w -> wrap w (swrap w a * swrap w b) = wrap w (a * b).
Proof.
  intros Hw. destruct (swrap_wrap w a Hw) as [k ->], (swrap_wrap w b Hw) as [l ->].
  rewrite <- (wrap_add_mul w (a * b) (a * l + b * k + k * l * 2 ^ w)) by lia. f_equal. lia.
Qed.

Lemma mul16_ok : computes2 16 mul16 (mul 16).
Proof. helper mul16. by apply wrap_mul_swrap. Qed.
Lemma mulhi16S_ok : computes2 16 mulhi16S (mulhis 16).
Proof. helper mulhi16S. by rewrite Z.shiftr_div_pow2. Qed.
Lemma mulhi16U_ok : computes2 16 mulhi16U (mulhiu 16).
Proof.
  helper mulhi16U. rewrite (wrap_small 32), Z.shiftr_div_pow2 by nia. apply wrap_small.
  split; [apply Z.div_pos; nia|apply Z.div_lt_upper_bound; nia].
Qed.

Ltac compare_lanes := cbv beta delta [cmpeq cmpgts cmpnez mask negb]; case_bool; reflexivity.

Lemma cmpeq32_ok : computes2 32 cmpeq32 (cmpeq 32).
Proof. helper cmpeq32. compare_lanes. Qed.
Lemma cmpeq16_ok : computes2 16 cmpeq16 (cmpeq 16).
Proof. helper cmpeq16. compare_lanes. Qed.
Lemma cmpeq8_ok : computes2 8 cmpeq8 (cmpeq 8).
Proof. helper cmpeq8. compare_lanes. Qed.
Lemma cmpgt32S_ok : computes2 32 cmpgt32S (cmpgts 32).
Proof. helper cmpgt32S. compare_lanes. Qed.
Lemma cmpgt16S_ok : computes2 16 cmpgt16S (cmpgts 16).
Proof. helper cmpgt16S. compare_lanes. Qed.
Lemma cmpgt8S_ok : computes2 8 cmpgt8S (cmpgts 8).
Proof. helper cmpgt8S. compare_lanes. Qed.
Lemma cmpnez32_ok : computes1 32 cmpnez32 (cmpnez 32).
Proof. helper cmpnez32. compare_lanes. Qed.
Lemma cmpnez16_ok : computes1 16 cmpnez16 (cmpnez 16).
Proof. helper cmpnez16. compare_lanes. Qed.
Lemma cmpnez8_ok : computes1 8 cmpnez8 (cmpnez 8).
Proof. helper cmpnez8. compare_lanes. Qed.

Ltac halve :=
  cbv beta delta [avgu haddu hadds hsubu hsubs];
  rewrite ?shiftr_wrap by lia; rewrite Z.shiftr_div_pow2 by lia;
  change (2 ^ 1) with 2;
  first [reflexivity | repeat rewrite wrap_small; first [reflexivity | lia | Z.to_euclidean_division_equations; lia]].

Lemma avg8U_ok : computes2 8 avg8U (avgu 8).
Proof. helper avg8U. halve. Qed.
Lemma avg16U_ok : computes2 16 avg16U (avgu 16).
Proof. helper avg16U. halve. Qed.
Lemma hadd16U_ok : computes2 16 hadd16U (haddu 16).
Proof. helper hadd16U. halve. Qed.
Lemma hadd16S_ok : computes2 16 hadd16S (hadds 16).
Proof. helper hadd16S. halve. Qed.
Lemma hsub16U_ok : computes2 16 hsub16U (hsubu 16).
Proof. helper hsub16U. halve. Qed.
Lemma hsub16S_ok : computes2 16 hsub16S (hsubs 16).
Proof. helper hsub16S. halve. Qed.
Lemma hadd8U_ok : computes2 8 hadd8U (haddu 8).
Proof. helper hadd8U. halve. Qed.
Lemma hadd8S_ok : computes2 8 hadd8S (hadds 8).
Proof. helper hadd8S. halve. Qed.
Lemma hsub8U_ok : computes2 8 hsub8U (hsubu 8).
Proof. helper hsub8U. halve. Qed.
Lemma hsub8S_ok : computes2 8 hsub8S (hsubs 8).
Proof. helper hsub8S. halve. Qed.

Section Shifts.
Context (n : Z) (Hn : 0 <= n).

Ltac shift := rewrite ?Z.shiftl_mul_pow2, ?Z.shiftr_div_pow2 by lia; first [reflexivity | idtac].

Lemma shl8_ok : computes1 8 (fun v => shl8 v n) (shl 8 n).
Proof. helper shl8. shift. Qed.
Lemma sar8_ok : computes1 8 (fun v => sar8 v n) (sar 8 n).
Proof. helper sar8. shift. Qed.
Lemma shl16_ok : computes1 16 (fun v => shl16 v n) (shl 16 n).
Proof. helper shl16. shift. Qed.
Lemma sar16_ok : computes1 16 (fun v => sar16 v n) (sar 16 n).
Proof. helper sar16. shift. Qed.
Lemma shl32_ok : computes1 32 (fun v => shl32 v n) (shl 32 n).
Proof. helper shl32. shift. Qed.
Lemma sar32_ok : computes1 32 (fun v => sar32 v n) (sar 32 n).
Proof. helper sar32. shift. Qed.

Lemma shr_range w a : 0 <= a < 2 ^ w -> 0 <= a / 2 ^ n < 2 ^ w.
Proof. intros Ha. pose proof (div_between a (2 ^ n)). assert (0 < 2 ^ n) by (apply Z.pow_pos_nonneg; lia). lia. Qed.

Lemma shr16_ok : computes1 16 (fun v => shr16 v n) (shr 16 n).
Proof. helper shr16. shift. by apply wrap_small, shr_range. Qed.
Lemma shr32_ok : computes1 32 (fun v => shr32 v n) (shr 32 n).
Proof. helper shr32. shift. by apply wrap_small, shr_range. Qed.

End Shifts.

(** * The operations *)

Lemma simd64_lanes x y :
  h_generic_calc_Add32x2 x y = vec2 32 2 (add 32) x y ∧
  h_generic_calc_Add16x4 x y = vec2 16 4 (add 16) x y ∧
  h_generic_calc_Add8x8 x y = vec2 8 8 (add 8) x y ∧
  h_generic_calc_QAdd16Sx4 x y = vec2 16 4 (qadds 16) x y ∧
  h_generic_calc_QAdd8Sx8 x y = vec2 8 8 (qadds 8) x y ∧
  h_generic_calc_QAdd16Ux4 x y = vec2 16 4 (qaddu 16) x y ∧
  h_generic_calc_QAdd8Ux8 x y = vec2 8 8 (qaddu 8) x y ∧
  h_generic_calc_Sub32x2 x y = vec2 32 2 (sub 32) x y ∧
  h_generic_calc_Sub16x4 x y = vec2 16 4 (sub 16) x y ∧
  h_generic_calc_Sub8x8 x y = vec2 8 8 (sub 8) x y ∧
  h_generic_calc_QSub16Sx4 x y = vec2 16 4 (qsubs 16) x y ∧
  h_generic_calc_QSub8Sx8 x y = vec2 8 8 (qsubs 8) x y ∧
  h_generic_calc_QSub16Ux4 x y = vec2 16 4 (qsubu 16) x y ∧
  h_generic_calc_QSub8Ux8 x y = vec2 8 8 (qsubu 8) x y ∧
  h_generic_calc_Mul16x4 x y = vec2 16 4 (mul 16) x y ∧
  h_generic_calc_MulHi16Sx4 x y = vec2 16 4 (mulhis 16) x y ∧
  h_generic_calc_MulHi16Ux4 x y = vec2 16 4 (mulhiu 16) x y ∧
  h_generic_calc_CmpEQ32x2 x y = vec2 32 2 (cmpeq 32) x y ∧
  h_generic_calc_CmpEQ16x4 x y = vec2 16 4 (cmpeq 16) x y ∧
  h_generic_calc_CmpEQ8x8 x y = vec2 8 8 (cmpeq 8) x y ∧
  h_generic_calc_CmpGT32Sx2 x y = vec2 32 2 (cmpgts 32) x y ∧
  h_generic_calc_CmpGT16Sx4 x y = vec2 16 4 (cmpgts 16) x y ∧
  h_generic_calc_CmpGT8Sx8 x y = vec2 8 8 (cmpgts 8) x y ∧
  h_generic_calc_CmpNEZ32x2 x = vec1 32 2 (cmpnez 32) x ∧
  h_generic_calc_CmpNEZ16x4 x = vec1 16 4 (cmpnez 16) x ∧
  h_generic_calc_CmpNEZ8x8 x = vec1 8 8 (cmpnez 8) x ∧
  h_generic_calc_Avg8Ux8 x y = vec2 8 8 (avgu 8) x y ∧
  h_generic_calc_Avg16Ux4 x y = vec2 16 4 (avgu 16) x y ∧
  h_generic_calc_Max16Sx4 x y = vec2 16 4 (maxs 16) x y ∧
  h_generic_calc_Max8Ux8 x y = vec2 8 8 (maxu 8) x y ∧
  h_generic_calc_Min16Sx4 x y = vec2 16 4 (mins 16) x y ∧
  h_generic_calc_Min8Ux8 x y = vec2 8 8 (minu 8) x y.
Proof.
  repeat apply conj.
  - exact (vec2_32x2 _ _ add32_ok x y).
  - exact (vec2_16x4 _ _ add16c_ok x y).
  - exact (vec2_8x8 _ _ add8c_ok x y).
  - exact (vec2_16x4 _ _ qadd16S_ok x y).
  - exact (vec2_8x8 _ _ qadd8S_ok x y).
  - exact (vec2_16x4 _ _ qadd16U_ok x y).
  - exact (vec2_8x8 _ _ qadd8U_ok x y).
  - exact (vec2_32x2 _ _ sub32_ok x y).
  - exact (vec2_16x4 _ _ sub16c_ok x y).
  - exact (vec2_8x8 _ _ sub8c_ok x y).
  - exact (vec2_16x4 _ _ qsub16S_ok x y).
  - exact (vec2_8x8 _ _ qsub8S_ok x y).
  - exact (vec2_16x4 _ _ qsub16U_ok x y).
  - exact (vec2_8x8 _ _ qsub8U_ok x y).
  - exact (vec2_16x4 _ _ mul16_ok x y).
  - exact (vec2_16x4 _ _ mulhi16S_ok x y).
  - exact (vec2_16x4 _ _ mulhi16U_ok x y).
  - exact (vec2_32x2 _ _ cmpeq32_ok x y).
  - exact (vec2_16x4 _ _ cmpeq16_ok x y).
  - exact (vec2_8x8 _ _ cmpeq8_ok x y).
  - exact (vec2_32x2 _ _ cmpgt32S_ok x y).
  - exact (vec2_16x4 _ _ cmpgt16S_ok x y).
  - exact (vec2_8x8 _ _ cmpgt8S_ok x y).
  - exact (vec1_32x2 _ _ cmpnez32_ok x).
  - exact (vec1_16x4 _ _ cmpnez16_ok x).
  - exact (vec1_8x8 _ _ cmpnez8_ok x).
  - exact (vec2_8x8 _ _ avg8U_ok x y).
  - exact (vec2_16x4 _ _ avg16U_ok x y).
  - exact (vec2_16x4 _ _ max16S_ok x y).
  - exact (vec2_8x8 _ _ max8U_ok x y).
  - exact (vec2_16x4 _ _ min16S_ok x y).
  - exact (vec2_8x8 _ _ min8U_ok x y).
Qed.

Lemma simd32_lanes x y :
  h_generic_calc_Add16x2 x y = vec2 16 2 (add 16) x y ∧
  h_generic_calc_Sub16x2 x y = vec2 16 2 (sub 16) x y ∧
  h_generic_calc_HAdd16Ux2 x y = vec2 16 2 (haddu 16) x y ∧
  h_generic_calc_HAdd16Sx2 x y = vec2 16 2 (hadds 16) x y ∧
  h_generic_calc_HSub16Ux2 x y = vec2 16 2 (hsubu 16) x y ∧
  h_generic_calc_HSub16Sx2 x y = vec2 16 2 (hsubs 16) x y ∧
  h_generic_calc_QAdd16Ux2 x y = vec2 16 2 (qaddu 16) x y ∧
  h_generic_calc_QAdd16Sx2 x y = vec2 16 2 (qadds 16) x y ∧
  h_generic_calc_QSub16Ux2 x y = vec2 16 2 (qsubu 16) x y ∧
  h_generic_calc_QSub16Sx2 x y = vec2 16 2 (qsubs 16) x y ∧
  h_generic_calc_Add8x4 x y = vec2 8 4 (add 8) x y ∧
  h_generic_calc_Sub8x4 x y = vec2 8 4 (sub 8) x y ∧
  h_generic_calc_HAdd8Ux4 x y = vec2 8 4 (haddu 8) x y ∧
  h_generic_calc_HAdd8Sx4 x y = vec2 8 4 (hadds 8) x y ∧
  h_generic_calc_HSub8Ux4 x y = vec2 8 4 (hsubu 8) x y ∧
  h_generic_calc_HSub8Sx4 x y = vec2 8 4 (hsubs 8) x y ∧
  h_generic_calc_QAdd8Ux4 x y = vec2 8 4 (qaddu 8) x y ∧
  h_generic_calc_QAdd8Sx4 x y = vec2 8 4 (qadds 8) x y ∧
  h_generic_calc_QSub8Ux4 x y = vec2 8 4 (qsubu 8) x y ∧
  h_generic_calc_QSub8Sx4 x y = vec2 8 4 (qsubs 8) x y ∧
  h_generic_calc_CmpNEZ16x2 x = vec1 16 2 (cmpnez 16) x ∧
  h_generic_calc_CmpNEZ8x4 x = vec1 8 4 (cmpnez 8) x.
Proof.
  repeat apply conj.
  - exact (vec2_16x2 _ _ add16_ok x y).
  - exact (vec2_16x2 _ _ sub16_ok x y).
  - exact (vec2_16x2 _ _ hadd16U_ok x y).
  - exact (vec2_16x2 _ _ hadd16S_ok x y).
  - exact (vec2_16x2 _ _ hsub16U_ok x y).
  - exact (vec2_16x2 _ _ hsub16S_ok x y).
  - exact (vec2_16x2 _ _ qadd16U_ok x y).
  - exact (vec2_16x2 _ _ qadd16S_ok x y).
  - exact (vec2_16x2 _ _ qsub16U_ok x y).
  - exact (vec2_16x2 _ _ qsub16S_ok x y).
  - exact (vec2_8x4 _ _ add8_ok x y).
  - exact (vec2_8x4 _ _ sub8_ok x y).
  - exact (vec2_8x4 _ _ hadd8U_ok x y).
  - exact (vec2_8x4 _ _ hadd8S_ok x y).
  - exact (vec2_8x4 _ _ hsub8U_ok x y).
  - exact (vec2_8x4 _ _ hsub8S_ok x y).
  - exact (vec2_8x4 _ _ qadd8U_ok x y).
  - exact (vec2_8x4 _ _ qadd8S_ok x y).
  - exact (vec2_8x4 _ _ qsub8U_ok x y).
  - exact (vec2_8x4 _ _ qsub8S_ok x y).
  - exact (vec1_16x2 _ _ cmpnez16_ok x).
  - exact (vec1_8x4 _ _ cmpnez8_ok x).
Qed.

Lemma mod_mask x (k : N) : x mod 2 ^ Z.of_N k = Z.land x (Z.ones (Z.of_N k)).
Proof. rewrite Z.land_ones by lia. done. Qed.

Lemma mask_nonneg nn (k : N) : 0 <= Z.land nn (Z.ones (Z.of_N k)).
Proof. apply Z.land_nonneg. right. rewrite Z.ones_equiv. pose proof (Z.pow_pos_nonneg 2 (Z.of_N k)). lia. Qed.

Lemma simd64_shifts x nn :
  h_generic_calc_ShlN32x2 x nn = vec1 32 2 (shl 32 (nn mod 32)) x ∧
  h_generic_calc_ShlN16x4 x nn = vec1 16 4 (shl 16 (nn mod 16)) x ∧
  h_generic_calc_ShlN8x8 x nn = vec1 8 8 (shl 8 (nn mod 8)) x ∧
  h_generic_calc_ShrN32x2 x nn = vec1 32 2 (shr 32 (nn mod 32)) x ∧
  h_generic_calc_ShrN16x4 x nn = vec1 16 4 (shr 16 (nn mod 16)) x ∧
  h_generic_calc_SarN32x2 x nn = vec1 32 2 (sar 32 (nn mod 32)) x ∧
  h_generic_calc_SarN16x4 x nn = vec1 16 4 (sar 16 (nn mod 16)) x ∧
  h_generic_calc_SarN8x8 x nn = vec1 8 8 (sar 8 (nn mod 8)) x.
Proof.
  rewrite (mod_mask nn 5 : nn mod 32 = Z.land nn 31), (mod_mask nn 4 : nn mod 16 = Z.land nn 15),
    (mod_mask nn 3 : nn mod 8 = Z.land nn 7).
  repeat apply conj.
  - exact (vec1_32x2 _ _ (shl32_ok _ (mask_nonneg nn 5)) x).
  - exact (vec1_16x4 _ _ (shl16_ok _ (mask_nonneg nn 4)) x).
  - exact (vec1_8x8 _ _ (shl8_ok _ (mask_nonneg nn 3)) x).
  - exact (vec1_32x2 _ _ (shr32_ok _ (mask_nonneg nn 5)) x).
  - exact (vec1_16x4 _ _ (shr16_ok _ (mask_nonneg nn 4)) x).
  - exact (vec1_32x2 _ _ (sar32_ok _ (mask_nonneg nn 5)) x).
  - exact (vec1_16x4 _ _ (sar16_ok _ (mask_nonneg nn 4)) x).
  - exact (vec1_8x8 _ _ (sar8_ok _ (mask_nonneg nn 3)) x).
Qed.

Lemma narrow_16x4 f F : narrows 32 16 f F -> ∀ aa bb,
  mk16x4 (f (sel32x2_1 aa)) (f (sel32x2_0 aa)) (f (sel32x2_1 bb)) (f (sel32x2_0 bb)) =
  pack 16 (F <$> (lanes 32 2 bb ++ lanes 32 2 aa)).
Proof.
  intros Hf aa bb. destruct (sel32x2_lanes aa) as [-> ->], (sel32x2_lanes bb) as [-> ->].
  rewrite mk16x4_pack, !Hf by auto with corelib lia. done.
Qed.

Lemma narrow_8x8 f F : narrows 16 8 f F -> ∀ aa bb,
  mk8x8 (f (sel16x4_3 aa)) (f (sel16x4_2 aa)) (f (sel16x4_1 aa)) (f (sel16x4_0 aa))
        (f (sel16x4_3 bb)) (f (sel16x4_2 bb)) (f (sel16x4_1 bb)) (f (sel16x4_0 bb)) =
  pack 8 (F <$> (lanes 16 4 bb ++ lanes 16 4 aa)).
Proof.
  intros Hf aa bb.
  destruct (sel16x4_lanes aa) as (-> & -> & -> & ->), (sel16x4_lanes bb) as (-> & -> & -> & ->).
  rewrite mk8x8_pack, !Hf by auto with corelib lia. done.
Qed.

(** Rewrite the selections of a word to its lanes. *)
Ltac to_lanes x :=
  destruct (sel32x2_lanes x) as [? ?], (sel16x4_lanes x) as (? & ? & ? & ?),
    (sel8x8_lanes x) as [(? & ? & ? & ?) (? & ? & ? & ?)].

Ltac rearrange aa bb :=
  match goal with |- ?op _ _ = _ => unfold op end; to_lanes aa; to_lanes bb;
  repeat match goal with H : ?s ?x = lane _ _ ?x |- _ => rewrite ?H; clear H end;
  rewrite ?mk16x4_pack, ?mk8x8_pack, ?mk32x2_pack, ?wrap_lane by lia; reflexivity.

Lemma index8x8_ok aa : computes1 8 (index8x8 aa) (fun ix => lane 8 (ix mod 8) aa).
Proof.
  intros ix Hix. unfold index8x8, u8. cbv zeta. rewrite (wrap_small 8 ix) by done.
  rewrite toUChar_wrap, wrap_wrap by lia. rewrite Z.land_comm, (land_mask 8) by lia.
  rewrite wrap_wrap by lia. unfold lane. by rewrite (mod_mask ix 3 : ix mod 8 = Z.land ix 7).
Qed.

Lemma zeroing_mask ix : 0 <= ix < 256 ->
  u64 (swrap 8 (Z.shiftr (swrap 8 (Z.lxor (swrap 8 ix) 128)) 7)) = if ix <? 128 then Z.ones 64 else 0.
Proof.
  intros Hix. apply Z.eqb_eq.
  apply (forall_below (fun i => u64 (swrap 8 (Z.shiftr (swrap 8 (Z.lxor (swrap 8 i) 128)) 7)) =?
    if i <? 128 then Z.ones 64 else 0) 256); [vm_compute; reflexivity|done].
Qed.

Lemma indexOrZero8x8_ok aa :
  computes1 8 (indexOrZero8x8 aa) (fun ix => if ix <? 128 then lane 8 (ix mod 8) aa else 0).
Proof.
  intros ix Hix. rewrite <- (index8x8_ok aa ix Hix). unfold indexOrZero8x8, index8x8, u8, s8. cbv zeta.
  rewrite (wrap_small 8 ix) by done.
  rewrite zeroing_mask by done.
  rewrite !toUChar_wrap, !wrap_wrap by lia. destruct (ix <? 128).
  - rewrite <- Z.land_assoc. by change (Z.land (Z.ones 64) 255) with 255.
  - by rewrite Z.land_0_r, Z.land_0_l.
Qed.

(** ** The top bits of the lanes *)

Lemma or_bit_ok xx r i : 0 <= i ->
  or_bit xx r (8 * i + 8) i = Z.lor r (Z.shiftl (lane 8 i xx / 2 ^ 7) i).
Proof.
  intros Hi. unfold or_bit. rewrite land_bit, (lane_top_bit 8) by lia.
  replace (8 * i + 8 - 1) with (8 * i + (8 - 1)) by lia.
  destruct (Z.testbit _ _); simpl; [done|]. by rewrite Z.shiftl_0_l, Z.lor_0_r.
Qed.

Lemma GetMSBs8x8_ok x : h_generic_calc_GetMSBs8x8 x = pack 1 ((fun a => a / 2 ^ 7) <$> lanes 8 8 x).
Proof.
  unfold h_generic_calc_GetMSBs8x8. cbv zeta.
  rewrite (or_bit_ok x _ 7), (or_bit_ok x _ 6), (or_bit_ok x _ 5), (or_bit_ok x _ 4),
    (or_bit_ok x _ 3), (or_bit_ok x _ 2), (or_bit_ok x _ 1), (or_bit_ok x _ 0) by lia.
  unfold lanes. change (seqZ 0 8) with [0; 1; 2; 3; 4; 5; 6; 7]. cbn [fmap list_fmap].
  rewrite !(lane_top_bit 8) by lia. by repeat case (Z.testbit x _).
Qed.

Lemma absdiff8U_ok a b : 0 <= a < 256 -> 0 <= b < 256 -> absdiff8U a b = Z.abs (a - b).
Proof.
  intros Ha Hb. unfold absdiff8U, u8. cbv zeta. rewrite !(wrap_small 8) by lia.
  case_bool; unfold u32; rewrite wrap_small; lia.
Qed.

(** ** Decimal encodings *)

Lemma declets_ok c : 0 <= c < 2 ^ 10 ->
  valid_bcd 3 (dpb_to_bcd c) = true.
Proof. apply (forall_below (fun c => valid_bcd 3 (dpb_to_bcd c)) (2 ^ 10)). vm_compute. done. Qed.

Lemma bcd_chunks_ok c : 0 <= c < 2 ^ 12 ->
  (0 <= bcd_to_dpb c < 2 ^ 10) ∧ (valid_bcd 3 c = true -> dpb_to_bcd (bcd_to_dpb c) = c).
Proof.
  intros Hc.
  assert (((0 <=? bcd_to_dpb c) && (bcd_to_dpb c <? 2 ^ 10) &&
           (negb (valid_bcd 3 c) || (dpb_to_bcd (bcd_to_dpb c) =? c))) = true) as H.
  { revert c Hc. apply (forall_below (fun c => (0 <=? bcd_to_dpb c) && (bcd_to_dpb c <? 2 ^ 10) &&
           (negb (valid_bcd 3 c) || (dpb_to_bcd (bcd_to_dpb c) =? c))) (2 ^ 12)). vm_compute. done. }
  apply andb_true_iff in H as [H Hi]. b2p. split; [lia|]. intros Hv.
  destruct Hi as [Hi|Hi]; [by rewrite Hv in Hi|]. apply Z.eqb_eq. exact Hi.
Qed.

(** From here on a conversion never has to open the boolean equations. *)
#[local] Opaque dpb_to_bcd bcd_to_dpb.

(** One round puts the next chunk below the others. *)
Lemma round_ok (v k r g : Z) : 0 <= v -> 0 <= k -> v * k + v <= 64 ->
  0 <= g < 2 ^ v -> 0 <= r < 2 ^ (v * k) ->
  Z.lor (u64 (Z.shiftl r v)) g = g + 2 ^ v * r ∧ 0 <= g + 2 ^ v * r < 2 ^ (v * (k + 1)).
Proof.
  intros Hv Hk H64 Hg Hr.
  assert (2 ^ (v * (k + 1)) = 2 ^ v * 2 ^ (v * k)) as Hp by (rewrite <- Z.pow_add_r by nia; f_equal; lia).
  assert (2 ^ (v * (k + 1)) <= 2 ^ 64) by (apply Z.pow_le_mono_r; lia).
  unfold u64. rewrite wrap_small by (rewrite Z.shiftl_mul_pow2; nia).
  rewrite lor_fields by lia. split; [done|nia].
Qed.

Lemma rounds_ok (w v : Z) (g : Z -> Z) x : 0 <= w -> 0 <= v -> v * 5 <= 64 ->
  (∀ c, 0 <= c < 2 ^ w -> 0 <= g c < 2 ^ v) ->
  foldl (fun r i => Z.lor (u64 (Z.shiftl r v)) (g (Z.land (Z.shiftr x ((4 - i) * w)) (Z.ones w)))) 0 (seqZ 0 5) =
  pack v (g <$> lanes w 5 x).
Proof.
  intros Hw Hv H64 Hg. change (seqZ 0 5) with [0; 1; 2; 3; 4]. unfold lanes.
  change (seqZ 0 5) with [0; 1; 2; 3; 4]. cbn [foldl fmap list_fmap pack foldr].
  assert (∀ i, 0 <= i -> g (Z.land (Z.shiftr x ((4 - i) * w)) (Z.ones w)) = g (lane w (4 - i) x)) as Hl.
  { intros i Hi. unfold lane. rewrite wrap_land by lia. by rewrite (Z.mul_comm w). }
  rewrite !Hl by lia. change (4 - 0) with 4. change (4 - 1) with 3. change (4 - 2) with 2.
  change (4 - 3) with 1. change (4 - 4) with 0.
  pose proof (fun i => Hg _ (lane_range w i x Hw)) as Hgl.
  destruct (round_ok v 0 0 _ Hv ltac:(lia) ltac:(lia) (Hgl 4)) as [-> H1]; [rewrite Z.mul_0_r; lia|].
  destruct (round_ok v 1 _ _ Hv ltac:(lia) ltac:(lia) (Hgl 3) H1) as [-> H2].
  destruct (round_ok v 2 _ _ Hv ltac:(lia) ltac:(lia) (Hgl 2) H2) as [-> H3].
  destruct (round_ok v 3 _ _ Hv ltac:(lia) ltac:(lia) (Hgl 1) H3) as [-> H4].
  destruct (round_ok v 4 _ _ Hv ltac:(lia) ltac:(lia) (Hgl 0) H4) as [-> H5]. done.
Qed.

Lemma DPBtoBCD_lanes dpb : h_calc_DPBtoBCD dpb = pack 12 (dpb_to_bcd <$> lanes 10 5 dpb).
Proof.
  apply (rounds_ok 10 12); [lia..|]. intros c Hc. pose proof (declets_ok c Hc) as Hv.
  unfold valid_bcd in Hv. b2p. lia.
Qed.

Lemma BCDtoDPB_lanes bcd : h_calc_BCDtoDPB bcd = pack 10 (bcd_to_dpb <$> lanes 12 5 bcd).
Proof. apply (rounds_ok 12 10); [lia..|]. intros c Hc. apply bcd_chunks_ok, Hc. Qed.

Lemma valid_digits k x : 0 <= k -> 0 <= x < 2 ^ (4 * k) ->
  valid_bcd k x = true <-> ∀ i, 0 <= i < k -> lane 4 i x < 10.
Proof.
  intros Hk Hx. unfold valid_bcd. replace (0 <=? x) with true by lia.
  replace (x <? 2 ^ (4 * k)) with true by lia. simpl. rewrite forallb_forall. split.
  - intros H i Hi. apply Z.ltb_lt, H, list_elem_of_In, list_elem_of_fmap.
    exists i. split; [done|]. by apply elem_of_seqZ.
  - intros H d Hd. apply list_elem_of_In, list_elem_of_fmap in Hd as (i & -> & Hi).
    apply elem_of_seqZ in Hi. apply Z.ltb_lt, H. lia.
Qed.

Lemma valid_chunks x : 0 <= x < 2 ^ 60 ->
  valid_bcd 15 x = true <-> ∀ i, 0 <= i < 5 -> valid_bcd 3 (lane 12 i x) = true.
Proof.
  intros Hx. rewrite valid_digits by done. split.
  - intros H i Hi. apply valid_digits; [lia|apply lane_range; lia|]. intros j Hj.
    rewrite (lane_lane 12 4 3) by lia. apply H. lia.
  - intros H i Hi. pose proof (Z.div_mod i 3). pose proof (Z.mod_pos_bound i 3).
    assert (0 <= i / 3 < 5) as Hq by (split; [apply Z.div_pos|apply Z.div_lt_upper_bound]; lia).
    specialize (H _ Hq). rewrite valid_digits in H by first [lia | apply (lane_range 12); lia].
    replace i with (3 * (i / 3) + i mod 3) by lia. rewrite <- (lane_lane 12 4 3) by lia. apply H. lia.
Qed.

Lemma DPBtoBCD_range dpb : 0 <= h_calc_DPBtoBCD dpb < 2 ^ 60.
Proof.
  rewrite DPBtoBCD_lanes. apply (pack_range 12); [lia|]. apply Forall_fmap.
  eapply Forall_impl; [apply (lanes_range 10 5 dpb); lia|]. intros c Hc.
  pose proof (declets_ok c Hc) as Hv. unfold valid_bcd in Hv. simpl. b2p. lia.
Qed.

Lemma DPBtoBCD_valid dpb : valid_bcd 15 (h_calc_DPBtoBCD dpb) = true.
Proof.
  apply valid_chunks; [apply DPBtoBCD_range|]. intros i Hi. rewrite DPBtoBCD_lanes.
  rewrite <- (Z2Nat.id i) by lia. erewrite lane_pack.
  - apply declets_ok, (lane_range 10 i dpb). lia.
  - lia.
  - apply Forall_fmap. eapply Forall_impl; [apply (lanes_range 10 5 dpb); lia|]. intros c Hc.
    pose proof (declets_ok c Hc) as Hv. unfold valid_bcd in Hv. simpl. b2p. lia.
  - unfold lanes. rewrite !list_lookup_fmap.
    rewrite (proj2 (lookup_seqZ 0 5 (Z.to_nat i) i)) by lia. done.
Qed.

Lemma simd64_narrows aa bb :
  h_generic_calc_QNarrowBin32Sto16Sx4 aa bb = pack 16 ((qnarrows 32 16) <$> lanes 32 2 bb ++ lanes 32 2 aa) ∧
  h_generic_calc_QNarrowBin16Sto8Sx8 aa bb = pack 8 ((qnarrows 16 8) <$> lanes 16 4 bb ++ lanes 16 4 aa) ∧
  h_generic_calc_QNarrowBin16Sto8Ux8 aa bb = pack 8 ((qnarrowu 16 8) <$> lanes 16 4 bb ++ lanes 16 4 aa) ∧
  h_generic_calc_NarrowBin32to16x4 aa bb = pack 16 ((wrap 16) <$> lanes 32 2 bb ++ lanes 32 2 aa) ∧
  h_generic_calc_NarrowBin16to8x8 aa bb = pack 8 ((wrap 8) <$> lanes 16 4 bb ++ lanes 16 4 aa).
Proof.
  repeat apply conj.
  - exact (narrow_16x4 _ _ qnarrow32Sto16S_ok aa bb).
  - exact (narrow_8x8 _ _ qnarrow16Sto8S_ok aa bb).
  - exact (narrow_8x8 _ _ qnarrow16Sto8U_ok aa bb).
  - exact (narrow_16x4 _ _ narrow32to16_ok aa bb).
  - exact (narrow_8x8 _ _ narrow16to8_ok aa bb).
Qed.

Lemma simd64_interleaves aa bb :
  h_generic_calc_InterleaveHI8x8 aa bb = pack 8 (interleave (drop 4 (lanes 8 8 bb)) (drop 4 (lanes 8 8 aa))) ∧
  h_generic_calc_InterleaveLO8x8 aa bb = pack 8 (interleave (take 4 (lanes 8 8 bb)) (take 4 (lanes 8 8 aa))) ∧
  h_generic_calc_InterleaveHI16x4 aa bb = pack 16 (interleave (drop 2 (lanes 16 4 bb)) (drop 2 (lanes 16 4 aa))) ∧
  h_generic_calc_InterleaveLO16x4 aa bb = pack 16 (interleave (take 2 (lanes 16 4 bb)) (take 2 (lanes 16 4 aa))) ∧
  h_generic_calc_InterleaveHI32x2 aa bb = pack 32 (interleave (drop 1 (lanes 32 2 bb)) (drop 1 (lanes 32 2 aa))) ∧
  h_generic_calc_InterleaveLO32x2 aa bb = pack 32 (interleave (take 1 (lanes 32 2 bb)) (take 1 (lanes 32 2 aa))) ∧
  h_generic_calc_CatOddLanes16x4 aa bb = pack 16 (odds (lanes 16 4 bb ++ lanes 16 4 aa)) ∧
  h_generic_calc_CatEvenLanes16x4 aa bb = pack 16 (evens (lanes 16 4 bb ++ lanes 16 4 aa)).
Proof. repeat apply conj; rearrange aa bb. Qed.

Lemma simd64_permutes aa bb :
  h_generic_calc_Perm8x8 aa bb = vec1 8 8 (fun ix => lane 8 (ix mod 8) aa) bb ∧
  h_generic_calc_PermOrZero8x8 aa bb = vec1 8 8 (fun ix => if ix <? 128 then lane 8 (ix mod 8) aa else 0) bb.
Proof.
  repeat apply conj.
  - exact (vec1_8x8 _ _ (index8x8_ok aa) bb).
  - exact (vec1_8x8 _ _ (indexOrZero8x8_ok aa) bb).
Qed.

Lemma Sad8Ux4_ok x y :
  h_generic_calc_Sad8Ux4 x y =
  foldr Z.add 0 (zip_with (fun a b => Z.abs (a - b)) (lanes 8 4 x) (lanes 8 4 y)).
Proof.
  unfold h_generic_calc_Sad8Ux4, lanes. change (seqZ 0 4) with [0; 1; 2; 3].
  destruct (sel8x4_lanes x) as (-> & -> & -> & ->), (sel8x4_lanes y) as (-> & -> & -> & ->).
  rewrite !absdiff8U_ok by (apply lane_range; lia). cbn [fmap list_fmap zip_with foldr].
  pose proof (fun i => lane_range 8 i x ltac:(lia)) as Hx.
  pose proof (fun i => lane_range 8 i y ltac:(lia)) as Hy.
  pose proof (Hx 0). pose proof (Hx 1). pose proof (Hx 2). pose proof (Hx 3).
  pose proof (Hy 0). pose proof (Hy 1). pose proof (Hy 2). pose proof (Hy 3).
  unfold u32. rewrite (wrap_small 32 (Z.abs (lane 8 3 x - _) + _)) by lia.
  rewrite (wrap_small 32 (_ + Z.abs (lane 8 1 x - _))), wrap_small by lia. lia.
Qed.

Lemma udiv_ok w x y : 0 <= x < 2 ^ w -> 0 <= y < 2 ^ w ->
  (if y =? 0 then Ret 0 else c_div 0 (2 ^ w - 1) x y) = Ret (if y =? 0 then 0 else x / y).
Proof.
  intros Hx Hy. unfold c_div. case_bool; [done|]. rewrite Z.quot_div_nonneg by lia.
  pose proof (div_between x y). case_bool; [done|lia].
Qed.

(** A quotient of signed numbers fits unless it is that of the least one by -1. *)
Lemma quot_fits m x y : 0 < m -> - m <= x < m -> y <> 0 -> ¬ (x = - m ∧ y = -1) ->
  - m <= Z.quot x y < m.
Proof.
  intros Hm Hx Hy Hn. assert (Z.abs (Z.quot x y) = Z.abs x / Z.abs y) as Ha.
  { rewrite <- Z.quot_abs, Z.quot_div_nonneg by lia. done. }
  pose proof (Z.div_mod (Z.abs x) (Z.abs y) ltac:(lia)) as Hd.
  pose proof (Z.mod_pos_bound (Z.abs x) (Z.abs y) ltac:(lia)).
  rewrite <- Ha in Hd.
  destruct (decide (Z.quot x y = m)) as [E|?]; [|nia].
  assert (Z.abs y = 1 ∧ x = - m) as [? ->] by (rewrite E in Hd; split; nia).
  assert (y = 1) as -> by lia. rewrite Z.quot_1_r in E. lia.
Qed.

Lemma sdiv_ok w x y : 1 < w -> - 2 ^ (w - 1) <= x < 2 ^ (w - 1) -> - 2 ^ (w - 1) <= y < 2 ^ (w - 1) ->
  (if y =? 0 then Ret 0
   else if (wrap w x =? 2 ^ (w - 1)) && (wrap w y =? 2 ^ w - 1) then Ret (swrap w (2 ^ (w - 1)))
   else c_div (- 2 ^ (w - 1)) (2 ^ (w - 1) - 1) x y) =
  Ret (if y =? 0 then 0 else swrap w (Z.quot x y)).
Proof.
  intros Hw Hx Hy. case_bool; [done|].
  assert (2 ^ w = 2 * 2 ^ (w - 1)) as Hp by (rewrite <- Z.pow_succ_r by lia; f_equal; lia).
  assert (∀ z, - 2 ^ (w - 1) <= z < 2 ^ (w - 1) -> wrap w z = if z <? 0 then z + 2 ^ w else z) as Hwrap.
  { intros z Hz. case_bool; [|apply wrap_small; lia].
    rewrite <- (wrap_add_mul w z 1) by lia. rewrite wrap_small; lia. }
  rewrite !Hwrap by done. destruct (decide (x = - 2 ^ (w - 1) ∧ y = -1)) as [[-> ->]|Hn].
  - replace (- 2 ^ (w - 1) <? 0) with true by lia. change (-1 <? 0) with true. cbv iota.
    replace (_ && _) with true by lia. do 2 f_equal.
    change (-1) with (- (1)). by rewrite Z.quot_opp_opp, Z.quot_1_r by lia.
  - replace (_ && _) with false by (destruct (x <? 0) eqn:?, (y <? 0) eqn:?; lia).
    unfold c_div. replace (y =? 0) with false by lia.
    pose proof (quot_fits (2 ^ (w - 1)) x y ltac:(lia) Hx ltac:(done) Hn). 
    case_bool; [|lia]. by rewrite swrap_small by lia.
Qed.

(** ** Theorems *)

(** A single lane, of operands that are taken as [Int]. *)
Lemma vec2_32x1 (f F : Z -> Z -> Z) : computes2 32 f F -> (∀ x y, f x y = f (wrap 32 x) (wrap 32 y)) ->
  ∀ x y, u32 (f x y) = vec2 32 1 F x y.
Proof.
  intros Hf Hw x y. unfold vec2. change (lanes 32 1 ?a) with [lane 32 0 a].
  change (lanes 32 1 y) with [lane 32 0 y]. unfold lane. change (32 * 0) with 0. rewrite !Z.shiftr_0_r.
  cbn [zip_with pack foldr]. rewrite Z.mul_0_r, Z.add_0_r, Hw. apply Hf; apply wrap_range; lia.
Qed.

(** Mul32x2 is the product of the lanes when both signed products fit in
    [Int], and undefined, by signed overflow in mul32, exactly when one does not. *)
Theorem Mul32x2_overflow (x y : Z) :
  h_generic_calc_Mul32x2 x y =
  if forallb (fun p => (INT_MIN <=? p) && (p <=? INT_MAX))
       (zip_with (fun a b => s32 a * s32 b) (lanes 32 2 x) (lanes 32 2 y))
  then Ret (vec2 32 2 (mul 32) x y) else Fault IntOverflow.
Proof.
  unfold h_generic_calc_Mul32x2, mul32.
  destruct (sel32x2_lanes x) as [-> ->], (sel32x2_lanes y) as [-> ->].
  change (lanes 32 2 ?a) with [lane 32 0 a; lane 32 1 a]. unfold vec2.
  change (lanes 32 2 x) with [lane 32 0 x; lane 32 1 x].
  change (lanes 32 2 y) with [lane 32 0 y; lane 32 1 y].
  cbn [zip_with forallb]. unfold int_.
  destruct ((INT_MIN <=? s32 (lane 32 1 x) * s32 (lane 32 1 y)) && _) eqn:E1;
    destruct ((INT_MIN <=? s32 (lane 32 0 x) * s32 (lane 32 0 y)) && _) eqn:E0; try done.
  cbn. rewrite mk32x2_pack. unfold s32. rewrite !wrap_swrap, !wrap_mul_swrap by lia. done.
Qed.

(** C19: Every addition, subtraction, saturating operation, product, comparison,
    average, maximum, minimum, halving operation and shift on lanes, in words of
    64 and of 32 bits, gives in each lane the function of its name on the lanes
    of the operands, whatever the lanes beside it hold; shift amounts are taken
    modulo the width of a lane. The product of lanes of 32 bits, Mul32x2, does so
    exactly when both signed products fit in [Int]; otherwise it overflows. *)
Theorem simd_lanewise (x y nn : Z) :
  (h_generic_calc_Add32x2 x y = vec2 32 2 (add 32) x y ∧
  h_generic_calc_Add16x4 x y = vec2 16 4 (add 16) x y ∧
  h_generic_calc_Add8x8 x y = vec2 8 8 (add 8) x y ∧
  h_generic_calc_QAdd16Sx4 x y = vec2 16 4 (qadds 16) x y ∧
  h_generic_calc_QAdd8Sx8 x y = vec2 8 8 (qadds 8) x y ∧
  h_generic_calc_QAdd16Ux4 x y = vec2 16 4 (qaddu 16) x y ∧
  h_generic_calc_QAdd8Ux8 x y = vec2 8 8 (qaddu 8) x y ∧
  h_generic_calc_Sub32x2 x y = vec2 32 2 (sub 32) x y ∧
  h_generic_calc_Sub16x4 x y = vec2 16 4 (sub 16) x y ∧
  h_generic_calc_Sub8x8 x y = vec2 8 8 (sub 8) x y ∧
  h_generic_calc_QSub16Sx4 x y = vec2 16 4 (qsubs 16) x y ∧
  h_generic_calc_QSub8Sx8 x y = vec2 8 8 (qsubs 8) x y ∧
  h_generic_calc_QSub16Ux4 x y = vec2 16 4 (qsubu 16) x y ∧
  h_generic_calc_QSub8Ux8 x y = vec2 8 8 (qsubu 8) x y ∧
  h_generic_calc_Mul16x4 x y = vec2 16 4 (mul 16) x y ∧
  h_generic_calc_MulHi16Sx4 x y = vec2 16 4 (mulhis 16) x y ∧
  h_generic_calc_MulHi16Ux4 x y = vec2 16 4 (mulhiu 16) x y ∧
  h_generic_calc_CmpEQ32x2 x y = vec2 32 2 (cmpeq 32) x y ∧
  h_generic_calc_CmpEQ16x4 x y = vec2 16 4 (cmpeq 16) x y ∧
  h_generic_calc_CmpEQ8x8 x y = vec2 8 8 (cmpeq 8) x y ∧
  h_generic_calc_CmpGT32Sx2 x y = vec2 32 2 (cmpgts 32) x y ∧
  h_generic_calc_CmpGT16Sx4 x y = vec2 16 4 (cmpgts 16) x y ∧
  h_generic_calc_CmpGT8Sx8 x y = vec2 8 8 (cmpgts 8) x y ∧
  h_generic_calc_CmpNEZ32x2 x = vec1 32 2 (cmpnez 32) x ∧
  h_generic_calc_CmpNEZ16x4 x = vec1 16 4 (cmpnez 16) x ∧
  h_generic_calc_CmpNEZ8x8 x = vec1 8 8 (cmpnez 8) x ∧
  h_generic_calc_Avg8Ux8 x y = vec2 8 8 (avgu 8) x y ∧
  h_generic_calc_Avg16Ux4 x y = vec2 16 4 (avgu 16) x y ∧
  h_generic_calc_Max16Sx4 x y = vec2 16 4 (maxs 16) x y ∧
  h_generic_calc_Max8Ux8 x y = vec2 8 8 (maxu 8) x y ∧
  h_generic_calc_Min16Sx4 x y = vec2 16 4 (mins 16) x y ∧
  h_generic_calc_Min8Ux8 x y = vec2 8 8 (minu 8) x y) ∧
  (h_generic_calc_Add16x2 x y = vec2 16 2 (add 16) x y ∧
  h_generic_calc_Sub16x2 x y = vec2 16 2 (sub 16) x y ∧
  h_generic_calc_HAdd16Ux2 x y = vec2 16 2 (haddu 16) x y ∧
  h_generic_calc_HAdd16Sx2 x y = vec2 16 2 (hadds 16) x y ∧
  h_generic_calc_HSub16Ux2 x y = vec2 16 2 (hsubu 16) x y ∧
  h_generic_calc_HSub16Sx2 x y = vec2 16 2 (hsubs 16) x y ∧
  h_generic_calc_QAdd16Ux2 x y = vec2 16 2 (qaddu 16) x y ∧
  h_generic_calc_QAdd16Sx2 x y = vec2 16 2 (qadds 16) x y ∧
  h_generic_calc_QSub16Ux2 x y = vec2 16 2 (qsubu 16) x y ∧
  h_generic_calc_QSub16Sx2 x y = vec2 16 2 (qsubs 16) x y ∧
  h_generic_calc_Add8x4 x y = vec2 8 4 (add 8) x y ∧
  h_generic_calc_Sub8x4 x y = vec2 8 4 (sub 8) x y ∧
  h_generic_calc_HAdd8Ux4 x y = vec2 8 4 (haddu 8) x y ∧
  h_generic_calc_HAdd8Sx4 x y = vec2 8 4 (hadds 8) x y ∧
  h_generic_calc_HSub8Ux4 x y = vec2 8 4 (hsubu 8) x y ∧
  h_generic_calc_HSub8Sx4 x y = vec2 8 4 (hsubs 8) x y ∧
  h_generic_calc_QAdd8Ux4 x y = vec2 8 4 (qaddu 8) x y ∧
  h_generic_calc_QAdd8Sx4 x y = vec2 8 4 (qadds 8) x y ∧
  h_generic_calc_QSub8Ux4 x y = vec2 8 4 (qsubu 8) x y ∧
  h_generic_calc_QSub8Sx4 x y = vec2 8 4 (qsubs 8) x y ∧
  h_generic_calc_CmpNEZ16x2 x = vec1 16 2 (cmpnez 16) x ∧
  h_generic_calc_CmpNEZ8x4 x = vec1 8 4 (cmpnez 8) x) ∧
  (h_generic_calc_ShlN32x2 x nn = vec1 32 2 (shl 32 (nn mod 32)) x ∧
  h_generic_calc_ShlN16x4 x nn = vec1 16 4 (shl 16 (nn mod 16)) x ∧
  h_generic_calc_ShlN8x8 x nn = vec1 8 8 (shl 8 (nn mod 8)) x ∧
  h_generic_calc_ShrN32x2 x nn = vec1 32 2 (shr 32 (nn mod 32)) x ∧
  h_generic_calc_ShrN16x4 x nn = vec1 16 4 (shr 16 (nn mod 16)) x ∧
  h_generic_calc_SarN32x2 x nn = vec1 32 2 (sar 32 (nn mod 32)) x ∧
  h_generic_calc_SarN16x4 x nn = vec1 16 4 (sar 16 (nn mod 16)) x ∧
  h_generic_calc_SarN8x8 x nn = vec1 8 8 (sar 8 (nn mod 8)) x) ∧
  h_generic_calc_Mul32x2 x y =
    (if forallb (fun p => (INT_MIN <=? p) && (p <=? INT_MAX))
         (zip_with (fun a b => s32 a * s32 b) (lanes 32 2 x) (lanes 32 2 y))
     then Ret (vec2 32 2 (mul 32) x y) else Fault IntOverflow) ∧
  h_generic_calc_QAdd32S x y = vec2 32 1 (qadds 32) x y ∧
  h_generic_calc_QSub32S x y = vec2 32 1 (qsubs 32) x y.
Proof.
  split; [apply simd64_lanes|]. split; [apply simd32_lanes|]. split; [apply simd64_shifts|].
  split; [apply Mul32x2_overflow|]. split; [apply (vec2_32x1 _ _ qadd32S_ok)|apply (vec2_32x1 _ _ qsub32S_ok)];
    intros a b; unfold qadd32S, qsub32S, s32; by rewrite !swrap_wrap_same.
Qed.

(** The narrowing, interleaving, concatenating and permuting operations are
    the list operations of their names on the lanes (the second operand has the
    low ones), GetMSBs gathers the top bits, and Sad8Ux4 sums the absolute
    differences. *)
Theorem simd_rearranges (aa bb : Z) :
  (h_generic_calc_QNarrowBin32Sto16Sx4 aa bb = pack 16 ((qnarrows 32 16) <$> lanes 32 2 bb ++ lanes 32 2 aa) ∧
  h_generic_calc_QNarrowBin16Sto8Sx8 aa bb = pack 8 ((qnarrows 16 8) <$> lanes 16 4 bb ++ lanes 16 4 aa) ∧
  h_generic_calc_QNarrowBin16Sto8Ux8 aa bb = pack 8 ((qnarrowu 16 8) <$> lanes 16 4 bb ++ lanes 16 4 aa) ∧
  h_generic_calc_NarrowBin32to16x4 aa bb = pack 16 ((wrap 16) <$> lanes 32 2 bb ++ lanes 32 2 aa) ∧
  h_generic_calc_NarrowBin16to8x8 aa bb = pack 8 ((wrap 8) <$> lanes 16 4 bb ++ lanes 16 4 aa)) ∧
  (h_generic_calc_InterleaveHI8x8 aa bb = pack 8 (interleave (drop 4 (lanes 8 8 bb)) (drop 4 (lanes 8 8 aa))) ∧
  h_generic_calc_InterleaveLO8x8 aa bb = pack 8 (interleave (take 4 (lanes 8 8 bb)) (take 4 (lanes 8 8 aa))) ∧
  h_generic_calc_InterleaveHI16x4 aa bb = pack 16 (interleave (drop 2 (lanes 16 4 bb)) (drop 2 (lanes 16 4 aa))) ∧
  h_generic_calc_InterleaveLO16x4 aa bb = pack 16 (interleave (take 2 (lanes 16 4 bb)) (take 2 (lanes 16 4 aa))) ∧
  h_generic_calc_InterleaveHI32x2 aa bb = pack 32 (interleave (drop 1 (lanes 32 2 bb)) (drop 1 (lanes 32 2 aa))) ∧
  h_generic_calc_InterleaveLO32x2 aa bb = pack 32 (interleave (take 1 (lanes 32 2 bb)) (take 1 (lanes 32 2 aa))) ∧
  h_generic_calc_CatOddLanes16x4 aa bb = pack 16 (odds (lanes 16 4 bb ++ lanes 16 4 aa)) ∧
  h_generic_calc_CatEvenLanes16x4 aa bb = pack 16 (evens (lanes 16 4 bb ++ lanes 16 4 aa))) ∧
  (h_generic_calc_Perm8x8 aa bb = vec1 8 8 (fun ix => lane 8 (ix mod 8) aa) bb ∧
  h_generic_calc_PermOrZero8x8 aa bb = vec1 8 8 (fun ix => if ix <? 128 then lane 8 (ix mod 8) aa else 0) bb) ∧
  h_generic_calc_GetMSBs8x8 aa = pack 1 ((fun a => a / 2 ^ 7) <$> lanes 8 8 aa) ∧
  h_generic_calc_Sad8Ux4 aa bb =
    foldr Z.add 0 (zip_with (fun a b => Z.abs (a - b)) (lanes 8 4 aa) (lanes 8 4 bb)).
Proof.
  split; [apply simd64_narrows|]. split; [apply simd64_interleaves|].
  split; [apply simd64_permutes|]. split; [apply GetMSBs8x8_ok|apply Sad8Ux4_ok].
Qed.

(** BCD to DPB and back is the identity on words of fifteen decimal digits,
    through a word of fifty bits; and whatever fifty bits are decoded, the result
    has fifteen decimal digits. *)
Theorem bcd_dpb_roundtrip (bcd : Z) :
  valid_bcd 15 bcd = true ->
  h_calc_DPBtoBCD (h_calc_BCDtoDPB bcd) = bcd ∧ 0 <= h_calc_BCDtoDPB bcd < 2 ^ 50 ∧
  (∀ dpb, valid_bcd 15 (h_calc_DPBtoBCD dpb) = true).
Proof.
  intros Hv. assert (0 <= bcd < 2 ^ 60) as Hr by (unfold valid_bcd in Hv; b2p; lia).
  assert (Forall (fun a => 0 <= a < 2 ^ 10) (bcd_to_dpb <$> lanes 12 5 bcd)) as Hc.
  { apply Forall_fmap. eapply Forall_impl; [apply (lanes_range 12 5 bcd); lia|].
    intros c ?. by apply bcd_chunks_ok. }
  split; [|split; [|apply DPBtoBCD_valid]].
  - rewrite DPBtoBCD_lanes, BCDtoDPB_lanes, lanes_pack by done.
    rewrite <- (wrap_small 60 bcd) at 2 by done. change 60 with (12 * 5).
    rewrite <- pack_lanes by lia. f_equal. rewrite <- list_fmap_compose.
    rewrite <- (list_fmap_id (lanes 12 5 bcd)) at 2. apply Forall_fmap_ext_1, Forall_fmap, Forall_forall.
    intros i Hi. apply elem_of_seqZ in Hi. apply bcd_chunks_ok; [apply (lane_range 12); lia|].
    apply (valid_chunks bcd Hr); [done|lia].
  - rewrite BCDtoDPB_lanes. by apply (pack_range 10).
Qed.

(** The divisions never trap: a zero divisor gives zero, the most negative
    number divided by -1 gives itself, and any other quotient is rounded towards
    zero. *)
Theorem arm_division_total (x y : Z) :
  (0 <= x < 2 ^ 32 -> 0 <= y < 2 ^ 32 ->
   h_calc_udiv32_w_arm_semantics x y = Ret (if y =? 0 then 0 else x / y)) ∧
  (0 <= x < 2 ^ 64 -> 0 <= y < 2 ^ 64 ->
   h_calc_udiv64_w_arm_semantics x y = Ret (if y =? 0 then 0 else x / y)) ∧
  (- 2 ^ 31 <= x < 2 ^ 31 -> - 2 ^ 31 <= y < 2 ^ 31 ->
   h_calc_sdiv32_w_arm_semantics x y = Ret (if y =? 0 then 0 else s32 (Z.quot x y))) ∧
  (- 2 ^ 63 <= x < 2 ^ 63 -> - 2 ^ 63 <= y < 2 ^ 63 ->
   h_calc_sdiv64_w_arm_semantics x y = Ret (if y =? 0 then 0 else s64 (Z.quot x y))).
Proof.
  split; [|split; [|split]]; intros Hx Hy.
  - by apply (udiv_ok 32).
  - by apply (udiv_ok 64).
  - by apply (sdiv_ok 32).
  - by apply (sdiv_ok 64).
Qed.

(** * Witnesses *)

Lemma bcd_dpb_roundtrip_witness :
  valid_bcd 15 0x123456789098765 = true ∧
  h_calc_DPBtoBCD (h_calc_BCDtoDPB 0x123456789098765) = 0x123456789098765.
Proof. split; [vm_compute; reflexivity|]. apply bcd_dpb_roundtrip. vm_compute. reflexivity. Defined.

Lemma arm_division_total_witness :
  h_calc_sdiv32_w_arm_semantics (- 2 ^ 31) (-1) = Ret (- 2 ^ 31) ∧
  h_calc_sdiv64_w_arm_semantics (-7) 2 = Ret (-3) ∧
  h_calc_udiv32_w_arm_semantics 7 0 = Ret 0 ∧ h_calc_udiv64_w_arm_semantics 7 2 = Ret 3.
Proof.
  split; [|split; [|split]].
  - apply (arm_division_total (- 2 ^ 31) (-1)); lia.
  - apply (arm_division_total (-7) 2); lia.
  - apply (arm_division_total 7 0); lia.
  - apply (arm_division_total 7 2); lia.
Defined.
