(* ===== verification/Simd128.v ===== *)
(** * VEX/priv/host_generic_simd128.c

    The operations on vectors of 128 bits. [V128] is a union of arrays of lanes;
    a value of it is the number of its 128 bits, the array [w8], [w16], [w32] or
    [w64] is read with [lane] and written with [upd]. The operations write the
    lanes of [res] one after the other; [res] starts with any contents and is
    another object than the operands, as the code generators call them with
    three slots of the stack. *)

From S2P Require Import Prelude Lanes Simd64.
Local Open Scope Z_scope.

(** [v.w16[i] = x] for [w = 16], and so on. *)
Definition upd (w i x v : Z) : Z :=
  Z.lor (Z.ldiff v (Z.shiftl (Z.ones w) (w * i))) (Z.shiftl (wrap w x) (w * i)).

Definition w8 (v i : Z) : Z := lane 8 i v.
Definition w16 (v i : Z) : Z := lane 16 i v.
Definition w32 (v i : Z) : Z := lane 32 i v.
Definition w64 (v i : Z) : Z := lane 64 i v.

(** ** Scalar helpers *)

Definition mul32 (xx yy : Z) : Z :=
  let xx := s32 xx in let yy := s32 yy in
  let t := xx * yy in toUInt t.

Definition max32S (xx yy : Z) : Z :=
  let xx := s32 xx in let yy := s32 yy in
  toUInt (if yy <? xx then xx else yy).

Definition min32S (xx yy : Z) : Z :=
  let xx := s32 xx in let yy := s32 yy in
  toUInt (if xx <? yy then xx else yy).

Definition max32U (xx yy : Z) : Z :=
  let xx := u32 xx in let yy := u32 yy in
  toUInt (if yy <? xx then xx else yy).

Definition min32U (xx yy : Z) : Z :=
  let xx := u32 xx in let yy := u32 yy in
  toUInt (if xx <? yy then xx else yy).

Definition max16U (xx yy : Z) : Z :=
  let xx := u16 xx in let yy := u16 yy in
  toUShort (if yy <? xx then xx else yy).

Definition min16U (xx yy : Z) : Z :=
  let xx := u16 xx in let yy := u16 yy in
  toUShort (if xx <? yy then xx else yy).

Definition max8S (xx yy : Z) : Z :=
  let xx := s8 xx in let yy := s8 yy in
  toUChar (if yy <? xx then xx else yy).

Definition min8S (xx yy : Z) : Z :=
  let xx := s8 xx in let yy := s8 yy in
  toUChar (if xx <? yy then xx else yy).

Definition cmpEQ64 (xx yy : Z) : Z :=
  let xx := s64 xx in let yy := s64 yy in
  if xx =? yy then 0xFFFFFFFFFFFFFFFF else 0.

Definition cmpGT64S (xx yy : Z) : Z :=
  let xx := s64 xx in let yy := s64 yy in
  if yy <? xx then 0xFFFFFFFFFFFFFFFF else 0.

Definition sar64 (v n : Z) : Z := u64 (Z.shiftr (s64 v) n).
Definition sar8 (v n : Z) : Z := toUChar (Z.shiftr (s8 v) n).

Definition qnarrow32Sto16U (xx0 : Z) : Z :=
  let xx := s32 (u32 xx0) in
  let xx := if xx <? 0 then 0 else xx in
  let xx := if 65535 <? xx then 65535 else xx in
  u16 xx.

Definition narrow32to16 (xx : Z) : Z := u16 (u32 xx).
Definition narrow16to8 (xx : Z) : Z := u8 (u16 xx).

(** ** The operations *)

Definition h_generic_calc_Mul32x4 (res argL argR : Z) : Z :=
  let res := upd 32 0 (mul32 (w32 argL 0) (w32 argR 0)) res in
  let res := upd 32 1 (mul32 (w32 argL 1) (w32 argR 1)) res in
  let res := upd 32 2 (mul32 (w32 argL 2) (w32 argR 2)) res in
  upd 32 3 (mul32 (w32 argL 3) (w32 argR 3)) res.

Definition h_generic_calc_Max32Sx4 (res argL argR : Z) : Z :=
  let res := upd 32 0 (max32S (w32 argL 0) (w32 argR 0)) res in
  let res := upd 32 1 (max32S (w32 argL 1) (w32 argR 1)) res in
  let res := upd 32 2 (max32S (w32 argL 2) (w32 argR 2)) res in
  upd 32 3 (max32S (w32 argL 3) (w32 argR 3)) res.

Definition h_generic_calc_Min32Sx4 (res argL argR : Z) : Z :=
  let res := upd 32 0 (min32S (w32 argL 0) (w32 argR 0)) res in
  let res := upd 32 1 (min32S (w32 argL 1) (w32 argR 1)) res in
  let res := upd 32 2 (min32S (w32 argL 2) (w32 argR 2)) res in
  upd 32 3 (min32S (w32 argL 3) (w32 argR 3)) res.

Definition h_generic_calc_Max32Ux4 (res argL argR : Z) : Z :=
  let res := upd 32 0 (max32U (w32 argL 0) (w32 argR 0)) res in
  let res := upd 32 1 (max32U (w32 argL 1) (w32 argR 1)) res in
  let res := upd 32 2 (max32U (w32 argL 2) (w32 argR 2)) res in
  upd 32 3 (max32U (w32 argL 3) (w32 argR 3)) res.

Definition h_generic_calc_Min32Ux4 (res argL argR : Z) : Z :=
  let res := upd 32 0 (min32U (w32 argL 0) (w32 argR 0)) res in
  let res := upd 32 1 (min32U (w32 argL 1) (w32 argR 1)) res in
  let res := upd 32 2 (min32U (w32 argL 2) (w32 argR 2)) res in
  upd 32 3 (min32U (w32 argL 3) (w32 argR 3)) res.

Definition h_generic_calc_Max16Ux8 (res argL argR : Z) : Z :=
  let res := upd 16 0 (max16U (w16 argL 0) (w16 argR 0)) res in
  let res := upd 16 1 (max16U (w16 argL 1) (w16 argR 1)) res in
  let res := upd 16 2 (max16U (w16 argL 2) (w16 argR 2)) res in
  let res := upd 16 3 (max16U (w16 argL 3) (w16 argR 3)) res in
  let res := upd 16 4 (max16U (w16 argL 4) (w16 argR 4)) res in
  let res := upd 16 5 (max16U (w16 argL 5) (w16 argR 5)) res in
  let res := upd 16 6 (max16U (w16 argL 6) (w16 argR 6)) res in
  upd 16 7 (max16U (w16 argL 7) (w16 argR 7)) res.

Definition h_generic_calc_Min16Ux8 (res argL argR : Z) : Z :=
  let res := upd 16 0 (min16U (w16 argL 0) (w16 argR 0)) res in
  let res := upd 16 1 (min16U (w16 argL 1) (w16 argR 1)) res in
  let res := upd 16 2 (min16U (w16 argL 2) (w16 argR 2)) res in
  let res := upd 16 3 (min16U (w16 argL 3) (w16 argR 3)) res in
  let res := upd 16 4 (min16U (w16 argL 4) (w16 argR 4)) res in
  let res := upd 16 5 (min16U (w16 argL 5) (w16 argR 5)) res in
  let res := upd 16 6 (min16U (w16 argL 6) (w16 argR 6)) res in
  upd 16 7 (min16U (w16 argL 7) (w16 argR 7)) res.

Definition h_generic_calc_Max8Sx16 (res argL argR : Z) : Z :=
  let res := upd 8 0 (max8S (w8 argL 0) (w8 argR 0)) res in
  let res := upd 8 1 (max8S (w8 argL 1) (w8 argR 1)) res in
  let res := upd 8 2 (max8S (w8 argL 2) (w8 argR 2)) res in
  let res := upd 8 3 (max8S (w8 argL 3) (w8 argR 3)) res in
  let res := upd 8 4 (max8S (w8 argL 4) (w8 argR 4)) res in
  let res := upd 8 5 (max8S (w8 argL 5) (w8 argR 5)) res in
  let res := upd 8 6 (max8S (w8 argL 6) (w8 argR 6)) res in
  let res := upd 8 7 (max8S (w8 argL 7) (w8 argR 7)) res in
  let res := upd 8 8 (max8S (w8 argL 8) (w8 argR 8)) res in
  let res := upd 8 9 (max8S (w8 argL 9) (w8 argR 9)) res in
  let res := upd 8 10 (max8S (w8 argL 10) (w8 argR 10)) res in
  let res := upd 8 11 (max8S (w8 argL 11) (w8 argR 11)) res in
  let res := upd 8 12 (max8S (w8 argL 12) (w8 argR 12)) res in
  let res := upd 8 13 (max8S (w8 argL 13) (w8 argR 13)) res in
  let res := upd 8 14 (max8S (w8 argL 14) (w8 argR 14)) res in
  upd 8 15 (max8S (w8 argL 15) (w8 argR 15)) res.

Definition h_generic_calc_Min8Sx16 (res argL argR : Z) : Z :=
  let res := upd 8 0 (min8S (w8 argL 0) (w8 argR 0)) res in
  let res := upd 8 1 (min8S (w8 argL 1) (w8 argR 1)) res in
  let res := upd 8 2 (min8S (w8 argL 2) (w8 argR 2)) res in
  let res := upd 8 3 (min8S (w8 argL 3) (w8 argR 3)) res in
  let res := upd 8 4 (min8S (w8 argL 4) (w8 argR 4)) res in
  let res := upd 8 5 (min8S (w8 argL 5) (w8 argR 5)) res in
  let res := upd 8 6 (min8S (w8 argL 6) (w8 argR 6)) res in
  let res := upd 8 7 (min8S (w8 argL 7) (w8 argR 7)) res in
  let res := upd 8 8 (min8S (w8 argL 8) (w8 argR 8)) res in
  let res := upd 8 9 (min8S (w8 argL 9) (w8 argR 9)) res in
  let res := upd 8 10 (min8S (w8 argL 10) (w8 argR 10)) res in
  let res := upd 8 11 (min8S (w8 argL 11) (w8 argR 11)) res in
  let res := upd 8 12 (min8S (w8 argL 12) (w8 argR 12)) res in
  let res := upd 8 13 (min8S (w8 argL 13) (w8 argR 13)) res in
  let res := upd 8 14 (min8S (w8 argL 14) (w8 argR 14)) res in
  upd 8 15 (min8S (w8 argL 15) (w8 argR 15)) res.

Definition h_generic_calc_CmpEQ64x2 (res argL argR : Z) : Z :=
  let res := upd 64 0 (cmpEQ64 (w64 argL 0) (w64 argR 0)) res in
  upd 64 1 (cmpEQ64 (w64 argL 1) (w64 argR 1)) res.

Definition h_generic_calc_CmpGT64Sx2 (res argL argR : Z) : Z :=
  let res := upd 64 0 (cmpGT64S (w64 argL 0) (w64 argR 0)) res in
  upd 64 1 (cmpGT64S (w64 argL 1) (w64 argR 1)) res.

Definition h_generic_calc_SarN64x2 (res argL nn : Z) : Z :=
  let nn := Z.land nn 63 in
  let res := upd 64 0 (sar64 (w64 argL 0) nn) res in
  upd 64 1 (sar64 (w64 argL 1) nn) res.

Definition h_generic_calc_SarN8x16 (res argL nn : Z) : Z :=
  let nn := Z.land nn 7 in
  let res := upd 8 0 (sar8 (w8 argL 0) nn) res in
  let res := upd 8 1 (sar8 (w8 argL 1) nn) res in
  let res := upd 8 2 (sar8 (w8 argL 2) nn) res in
  let res := upd 8 3 (sar8 (w8 argL 3) nn) res in
  let res := upd 8 4 (sar8 (w8 argL 4) nn) res in
  let res := upd 8 5 (sar8 (w8 argL 5) nn) res in
  let res := upd 8 6 (sar8 (w8 argL 6) nn) res in
  let res := upd 8 7 (sar8 (w8 argL 7) nn) res in
  let res := upd 8 8 (sar8 (w8 argL 8) nn) res in
  let res := upd 8 9 (sar8 (w8 argL 9) nn) res in
  let res := upd 8 10 (sar8 (w8 argL 10) nn) res in
  let res := upd 8 11 (sar8 (w8 argL 11) nn) res in
  let res := upd 8 12 (sar8 (w8 argL 12) nn) res in
  let res := upd 8 13 (sar8 (w8 argL 13) nn) res in
  let res := upd 8 14 (sar8 (w8 argL 14) nn) res in
  upd 8 15 (sar8 (w8 argL 15) nn) res.

Definition h_generic_calc_QNarrowBin32Sto16Ux8 (res argL argR : Z) : Z :=
  let res := upd 16 0 (qnarrow32Sto16U (w32 argR 0)) res in
  let res := upd 16 1 (qnarrow32Sto16U (w32 argR 1)) res in
  let res := upd 16 2 (qnarrow32Sto16U (w32 argR 2)) res in
  let res := upd 16 3 (qnarrow32Sto16U (w32 argR 3)) res in
  let res := upd 16 4 (qnarrow32Sto16U (w32 argL 0)) res in
  let res := upd 16 5 (qnarrow32Sto16U (w32 argL 1)) res in
  let res := upd 16 6 (qnarrow32Sto16U (w32 argL 2)) res in
  upd 16 7 (qnarrow32Sto16U (w32 argL 3)) res.

Definition h_generic_calc_NarrowBin16to8x16 (res argL argR : Z) : Z :=
  let res := upd 8 0 (narrow16to8 (w16 argR 0)) res in
  let res := upd 8 1 (narrow16to8 (w16 argR 1)) res in
  let res := upd 8 2 (narrow16to8 (w16 argR 2)) res in
  let res := upd 8 3 (narrow16to8 (w16 argR 3)) res in
  let res := upd 8 4 (narrow16to8 (w16 argR 4)) res in
  let res := upd 8 5 (narrow16to8 (w16 argR 5)) res in
  let res := upd 8 6 (narrow16to8 (w16 argR 6)) res in
  let res := upd 8 7 (narrow16to8 (w16 argR 7)) res in
  let res := upd 8 8 (narrow16to8 (w16 argL 0)) res in
  let res := upd 8 9 (narrow16to8 (w16 argL 1)) res in
  let res := upd 8 10 (narrow16to8 (w16 argL 2)) res in
  let res := upd 8 11 (narrow16to8 (w16 argL 3)) res in
  let res := upd 8 12 (narrow16to8 (w16 argL 4)) res in
  let res := upd 8 13 (narrow16to8 (w16 argL 5)) res in
  let res := upd 8 14 (narrow16to8 (w16 argL 6)) res in
  upd 8 15 (narrow16to8 (w16 argL 7)) res.

Definition h_generic_calc_NarrowBin32to16x8 (res argL argR : Z) : Z :=
  let res := upd 16 0 (narrow32to16 (w32 argR 0)) res in
  let res := upd 16 1 (narrow32to16 (w32 argR 1)) res in
  let res := upd 16 2 (narrow32to16 (w32 argR 2)) res in
  let res := upd 16 3 (narrow32to16 (w32 argR 3)) res in
  let res := upd 16 4 (narrow32to16 (w32 argL 0)) res in
  let res := upd 16 5 (narrow32to16 (w32 argL 1)) res in
  let res := upd 16 6 (narrow32to16 (w32 argL 2)) res in
  upd 16 7 (narrow32to16 (w32 argL 3)) res.

Definition h_generic_calc_Perm32x4 (res argL argR : Z) : Z :=
  let res := upd 32 0 (w32 argL (Z.land (w32 argR 0) 3)) res in
  let res := upd 32 1 (w32 argL (Z.land (w32 argR 1) 3)) res in
  let res := upd 32 2 (w32 argL (Z.land (w32 argR 2) 3)) res in
  upd 32 3 (w32 argL (Z.land (w32 argR 3) 3)) res.

(** One half of [GetMSBs8x16]: the top bits come together in the lowest byte. *)
Definition gather (w : Z) : Z :=
  let w := Z.land w 0x8080808080808080 in
  let w := Z.shiftr w 7 in
  let w := Z.lor w (Z.shiftr w 7) in
  let w := Z.lor w (Z.shiftr w 14) in
  Z.lor w (Z.shiftr w 28).

Definition h_generic_calc_GetMSBs8x16 (w64hi w64lo : Z) : Z :=
  let w64hi := gather w64hi in
  let w64lo := gather w64lo in
  Z.lor (Z.shiftl (Z.land w64hi 0xFF) 8) (Z.land w64lo 0xFF).

(** * Lemmas *)

Lemma testbit_upd w i x v j : 0 <= w -> 0 <= i -> 0 <= j ->
  Z.testbit (upd w i x v) j =
  if (w * i <=? j) && (j <? w * i + w) then Z.testbit x (j - w * i) else Z.testbit v j.
Proof.
  intros Hw Hi Hj. unfold upd. rewrite Z.lor_spec, Z.ldiff_spec, !Z.shiftl_spec by lia.
  destruct (Z.leb_spec (w * i) j).
  - rewrite testbit_wrap, Z.testbit_ones_nonneg by lia. replace (j - w * i <? w) with (j <? w * i + w) by lia.
    destruct (j <? w * i + w); cbn; [by rewrite andb_false_r|by rewrite andb_true_r, orb_false_r].
  - rewrite !(Z.testbit_neg_r _ (j - w * i)) by lia. cbn. by rewrite andb_true_r, orb_false_r.
Qed.

Lemma lane_upd w i k x v : 0 <= w -> 0 <= i -> 0 <= k ->
  lane w k (upd w i x v) = if decide (k = i) then wrap w x else lane w k v.
Proof.
  intros Hw Hi Hk. apply Z.bits_inj'. intros j Hj. rewrite testbit_lane, testbit_upd by nia.
  destruct (decide (k = i)) as [->|Hne].
  - rewrite testbit_wrap by lia. destruct (Z.ltb_spec j w); [|done].
    replace ((w * i <=? j + w * i) && (j + w * i <? w * i + w)) with true by lia.
    rewrite !andb_true_l. f_equal. lia.
  - rewrite testbit_lane by lia. destruct (Z.ltb_spec j w); [|done].
    assert (w * k + w <= w * i ∨ w * i + w <= w * k) by (destruct (Z.lt_total k i) as [?|[?|?]]; nia).
    by replace ((w * i <=? j + w * k) && (j + w * k <? w * i + w)) with false by lia.
Qed.

(** Writing all lanes in order leaves what was written, and nothing of what was there. *)
Definition stores (w : Z) (l : list Z) (k v : Z) : Z :=
  snd (foldl (fun s x => (s.1 + 1, upd w s.1 x s.2)) (k, v) l).

Lemma stores_cons w x l k v : stores w (x :: l) k v = stores w l (k + 1) (upd w k x v).
Proof. done. Qed.

Lemma lane_stores w l k v i : 0 <= w -> 0 <= k -> 0 <= i ->
  lane w i (stores w l k v) =
  match l !! Z.to_nat (i - k) with
  | Some x => if k <=? i then wrap w x else lane w i v
  | None => lane w i v
  end.
Proof.
  intros Hw Hk Hi. revert k v Hk. induction l as [|x l IH]; intros k v Hk; [done|].
  rewrite stores_cons, IH by lia. rewrite lane_upd by lia.
  destruct (decide (i = k)) as [->|Hne].
  - rewrite Z.sub_diag. simpl. replace (k + 1 <=? k) with false by lia. rewrite Z.leb_refl.
    by destruct (l !! _).
  - destruct (Z.leb_spec k i).
    + replace (Z.to_nat (i - k)) with (S (Z.to_nat (i - (k + 1)))) by lia. simpl.
      by replace (k + 1 <=? i) with true by lia.
    + replace (k + 1 <=? i) with false by lia. by destruct (l !! _), ((x :: l) !! _).
Qed.

Lemma lanes_stores w l v n : 0 <= w -> n = Z.of_nat (length l) -> lanes w n (stores w l 0 v) = wrap w <$> l.
Proof.
  intros Hw ->. apply list_eq. intros i. unfold lanes. rewrite !list_lookup_fmap.
  destruct (l !! i) as [x|] eqn:Hi.
  - rewrite (proj2 (lookup_seqZ 0 (Z.of_nat (length l)) i (Z.of_nat i))).
    + cbn [fmap option_fmap option_map]. rewrite lane_stores by lia.
      replace (Z.to_nat (Z.of_nat i - 0)) with i by lia. rewrite Hi.
      by rewrite (proj2 (Z.leb_le 0 (Z.of_nat i))) by lia.
    + apply lookup_lt_Some in Hi. lia.
  - apply lookup_ge_None in Hi. by rewrite lookup_seqZ_ge by lia.
Qed.

(** ** The scalar helpers *)

Lemma mul32_ok : computes2 32 mul32 (mul 32).
Proof. helper mul32. rewrite toUInt_wrap, wrap_wrap by lia. by apply wrap_mul_swrap. Qed.
Lemma max32S_ok : computes2 32 max32S (maxs 32).
Proof. helper max32S. rewrite toUInt_wrap, wrap_wrap by lia. saturate. Qed.
Lemma min32S_ok : computes2 32 min32S (mins 32).
Proof. helper min32S. rewrite toUInt_wrap, wrap_wrap by lia. saturate. Qed.
Lemma max32U_ok : computes2 32 max32U (maxu 32).
Proof. helper max32U. rewrite toUInt_wrap, wrap_wrap by lia. saturate. Qed.
Lemma min32U_ok : computes2 32 min32U (minu 32).
Proof. helper min32U. rewrite toUInt_wrap, wrap_wrap by lia. saturate. Qed.
Lemma max16U_ok : computes2 16 max16U (maxu 16).
Proof. helper max16U. saturate. Qed.
Lemma min16U_ok : computes2 16 min16U (minu 16).
Proof. helper min16U. saturate. Qed.
Lemma max8S_ok : computes2 8 max8S (maxs 8).
Proof. helper max8S. saturate. Qed.
Lemma min8S_ok : computes2 8 min8S (mins 8).
Proof. helper min8S. saturate. Qed.
Lemma cmpEQ64_ok : computes2 64 cmpEQ64 (cmpeq 64).
Proof.
  intros a b Ha Hb. unfold cmpEQ64, s64, cmpeq, mask. cbv zeta.
  replace (swrap 64 a =? swrap 64 b) with (a =? b); [by case_bool|].
  destruct (Z.eqb_spec a b) as [->|Hne]; [by rewrite Z.eqb_refl|].
  symmetry. apply Z.eqb_neq. intros He. apply Hne.
  rewrite <- (wrap_small 64 a), <- (wrap_small 64 b) by done.
  by rewrite <- (wrap_swrap 64 64 a), He, wrap_swrap by lia.
Qed.
Lemma cmpGT64S_ok : computes2 64 cmpGT64S (cmpgts 64).
Proof. helper cmpGT64S. compare_lanes. Qed.
Lemma sar64_ok n : 0 <= n -> computes1 64 (fun v => sar64 v n) (sar 64 n).
Proof. intros Hn. helper sar64. by rewrite Z.shiftr_div_pow2. Qed.
Lemma v128_sar8_ok n : 0 <= n -> computes1 8 (fun v => sar8 v n) (sar 8 n).
Proof. intros Hn. helper sar8. by rewrite Z.shiftr_div_pow2. Qed.
Lemma qnarrow32Sto16U_ok : narrows 32 16 qnarrow32Sto16U (qnarrowu 32 16).
Proof. helper qnarrow32Sto16U. saturate. Qed.
Lemma v128_narrow32to16_ok : narrows 32 16 narrow32to16 (wrap 16).
Proof. by helper narrow32to16. Qed.
Lemma v128_narrow16to8_ok : narrows 16 8 narrow16to8 (wrap 8).
Proof. by helper narrow16to8. Qed.

(** ** The operations as stores of lists *)

Lemma narrow_lanes w v k x f F : 0 <= w -> narrows w v f F ->
  wrap v <$> (f <$> lanes w k x) = F <$> lanes w k x.
Proof.
  intros Hw Hf. rewrite <- list_fmap_compose. apply Forall_fmap_ext_1.
  eapply Forall_impl; [by apply lanes_range|]. apply Hf.
Qed.

Lemma computes_lanes w n x y f F : 0 <= w -> computes2 w f F ->
  wrap w <$> zip_with f (lanes w n x) (lanes w n y) = zip_with F (lanes w n x) (lanes w n y).
Proof.
  intros Hw Hf. unfold lanes. generalize (seqZ 0 n) as l.
  induction l as [|i l IH]; [done|]. cbn [fmap list_fmap zip_with].
  rewrite Hf by (by apply lane_range). f_equal. exact IH.
Qed.

(** Both sides of an equation of stores, written out. *)
Ltac write_out :=
  unfold lanes;
  repeat match goal with |- context [seqZ ?a ?n] =>
    let s := eval vm_compute in (seqZ a n) in change (seqZ a n) with s end;
  cbv beta iota zeta delta [stores foldl fmap list_fmap zip_with app fst snd w8 w16 w32 w64];
  cbn [Z.add Pos.add Pos.succ Z.land Pos.land]; reflexivity.

(** An operation that stores [f] of each pair of lanes. *)
Ltac store_lanes f L :=
  match goal with |- lanes ?w ?n (?op ?res ?l ?r) = _ =>
    replace (op res l r) with (stores w (zip_with f (lanes w n l) (lanes w n r)) 0 res)
      by (unfold op; write_out);
    rewrite lanes_stores by done; apply computes_lanes; [done|exact L] end.

Lemma simd128_lanes res argL argR :
  lanes 32 4 (h_generic_calc_Mul32x4 res argL argR) =
    zip_with (mul 32) (lanes 32 4 argL) (lanes 32 4 argR) ∧
  lanes 32 4 (h_generic_calc_Max32Sx4 res argL argR) =
    zip_with (maxs 32) (lanes 32 4 argL) (lanes 32 4 argR) ∧
  lanes 32 4 (h_generic_calc_Min32Sx4 res argL argR) =
    zip_with (mins 32) (lanes 32 4 argL) (lanes 32 4 argR) ∧
  lanes 32 4 (h_generic_calc_Max32Ux4 res argL argR) =
    zip_with (maxu 32) (lanes 32 4 argL) (lanes 32 4 argR) ∧
  lanes 32 4 (h_generic_calc_Min32Ux4 res argL argR) =
    zip_with (minu 32) (lanes 32 4 argL) (lanes 32 4 argR) ∧
  lanes 16 8 (h_generic_calc_Max16Ux8 res argL argR) =
    zip_with (maxu 16) (lanes 16 8 argL) (lanes 16 8 argR) ∧
  lanes 16 8 (h_generic_calc_Min16Ux8 res argL argR) =
    zip_with (minu 16) (lanes 16 8 argL) (lanes 16 8 argR) ∧
  lanes 8 16 (h_generic_calc_Max8Sx16 res argL argR) =
    zip_with (maxs 8) (lanes 8 16 argL) (lanes 8 16 argR) ∧
  lanes 8 16 (h_generic_calc_Min8Sx16 res argL argR) =
    zip_with (mins 8) (lanes 8 16 argL) (lanes 8 16 argR) ∧
  lanes 64 2 (h_generic_calc_CmpEQ64x2 res argL argR) =
    zip_with (cmpeq 64) (lanes 64 2 argL) (lanes 64 2 argR) ∧
  lanes 64 2 (h_generic_calc_CmpGT64Sx2 res argL argR) =
    zip_with (cmpgts 64) (lanes 64 2 argL) (lanes 64 2 argR).
Proof.
  repeat apply conj.
  - store_lanes mul32 mul32_ok.
  - store_lanes max32S max32S_ok.
  - store_lanes min32S min32S_ok.
  - store_lanes max32U max32U_ok.
  - store_lanes min32U min32U_ok.
  - store_lanes max16U max16U_ok.
  - store_lanes min16U min16U_ok.
  - store_lanes max8S max8S_ok.
  - store_lanes min8S min8S_ok.
  - store_lanes cmpEQ64 cmpEQ64_ok.
  - store_lanes cmpGT64S cmpGT64S_ok.
Qed.

Lemma simd128_shifts res argL nn :
  lanes 64 2 (h_generic_calc_SarN64x2 res argL nn) = sar 64 (nn mod 64) <$> lanes 64 2 argL ∧
  lanes 8 16 (h_generic_calc_SarN8x16 res argL nn) = sar 8 (nn mod 8) <$> lanes 8 16 argL.
Proof.
  rewrite (mod_mask nn 6 : nn mod 64 = Z.land nn 63), (mod_mask nn 3 : nn mod 8 = Z.land nn 7). split.
  - replace (h_generic_calc_SarN64x2 res argL nn) with
      (stores 64 ((fun v => sar64 v (Z.land nn 63)) <$> lanes 64 2 argL) 0 res) by (unfold h_generic_calc_SarN64x2; write_out).
    rewrite lanes_stores by done. apply narrow_lanes; [done|]. apply sar64_ok, (mask_nonneg nn 6).
  - replace (h_generic_calc_SarN8x16 res argL nn) with
      (stores 8 ((fun v => sar8 v (Z.land nn 7)) <$> lanes 8 16 argL) 0 res) by (unfold h_generic_calc_SarN8x16; write_out).
    rewrite lanes_stores by done. apply narrow_lanes; [done|]. apply v128_sar8_ok, (mask_nonneg nn 3).
Qed.

Lemma simd128_narrows res argL argR :
  lanes 16 8 (h_generic_calc_QNarrowBin32Sto16Ux8 res argL argR) =
    qnarrowu 32 16 <$> lanes 32 4 argR ++ lanes 32 4 argL ∧
  lanes 8 16 (h_generic_calc_NarrowBin16to8x16 res argL argR) = wrap 8 <$> lanes 16 8 argR ++ lanes 16 8 argL ∧
  lanes 16 8 (h_generic_calc_NarrowBin32to16x8 res argL argR) = wrap 16 <$> lanes 32 4 argR ++ lanes 32 4 argL.
Proof.
  repeat apply conj.
  - replace (h_generic_calc_QNarrowBin32Sto16Ux8 res argL argR) with
      (stores 16 ((qnarrow32Sto16U <$> lanes 32 4 argR) ++ (qnarrow32Sto16U <$> lanes 32 4 argL)) 0 res) by (unfold h_generic_calc_QNarrowBin32Sto16Ux8; write_out).
    rewrite lanes_stores, !fmap_app by done.
    by rewrite !(narrow_lanes 32 16 4 _ _ _ ltac:(done) qnarrow32Sto16U_ok).
  - replace (h_generic_calc_NarrowBin16to8x16 res argL argR) with
      (stores 8 ((narrow16to8 <$> lanes 16 8 argR) ++ (narrow16to8 <$> lanes 16 8 argL)) 0 res) by (unfold h_generic_calc_NarrowBin16to8x16; write_out).
    rewrite lanes_stores, !fmap_app by done.
    by rewrite !(narrow_lanes 16 8 8 _ _ _ ltac:(done) v128_narrow16to8_ok).
  - replace (h_generic_calc_NarrowBin32to16x8 res argL argR) with
      (stores 16 ((narrow32to16 <$> lanes 32 4 argR) ++ (narrow32to16 <$> lanes 32 4 argL)) 0 res) by (unfold h_generic_calc_NarrowBin32to16x8; write_out).
    rewrite lanes_stores, !fmap_app by done.
    by rewrite !(narrow_lanes 32 16 4 _ _ _ ltac:(done) v128_narrow32to16_ok).
Qed.

Lemma Perm32x4_ok res argL argR :
  lanes 32 4 (h_generic_calc_Perm32x4 res argL argR) = (fun ix => lane 32 (ix mod 4) argL) <$> lanes 32 4 argR.
Proof.
  replace (h_generic_calc_Perm32x4 res argL argR) with
      (stores 32 ((fun ix => w32 argL (Z.land ix 3)) <$> lanes 32 4 argR) 0 res) by (unfold h_generic_calc_Perm32x4; write_out).
  rewrite lanes_stores by done. apply narrow_lanes; [done|]. intros ix Hix.
  rewrite (mod_mask ix 2 : ix mod 4 = Z.land ix 3). by apply wrap_lane.
Qed.

(** ** The top bits *)

Ltac known_bits :=
  repeat match goal with |- context [Z.testbit (Zpos ?p) ?k] =>
    let b := eval vm_compute in (Z.testbit (Zpos p) k) in change (Z.testbit (Zpos p) k) with b end.

Lemma gather_bit x j : 0 <= j < 8 -> Z.testbit (gather x) j = Z.testbit x (8 * j + 7).
Proof.
  intros Hj. unfold gather. cbv zeta.
  rewrite !Z.lor_spec, !Z.shiftr_spec, !Z.lor_spec, !Z.shiftr_spec, !Z.lor_spec, !Z.shiftr_spec, !Z.land_spec by lia.
  assert (j = 0 ∨ j = 1 ∨ j = 2 ∨ j = 3 ∨ j = 4 ∨ j = 5 ∨ j = 6 ∨ j = 7) as Hc by lia.
  destruct Hc as [->|[->|[->|[->|[->|[->|[->| ->]]]]]]]; cbn [Z.add Z.mul Pos.add Pos.mul Pos.succ];
    known_bits; rewrite ?andb_true_r, ?andb_false_r, ?orb_false_r, ?orb_false_l; done.
Qed.

Lemma gather_byte x : Z.land (gather x) 0xFF = pack 1 ((fun a => a / 2 ^ 7) <$> lanes 8 8 x).
Proof.
  rewrite (Z.land_ones _ 8 ltac:(done) : Z.land (gather x) 0xFF = wrap (1 * 8) (gather x)).
  rewrite <- pack_lanes by done. f_equal. unfold lanes. rewrite <- list_fmap_compose.
  apply Forall_fmap_ext_1, Forall_forall. intros i Hi%elem_of_seqZ. cbn.
  rewrite (lane_top_bit 8) by lia. replace (8 * i + (8 - 1)) with (8 * i + 7) by lia.
  rewrite <- gather_bit, <- (Z.div_1_r (lane 1 i _)) by lia.
  rewrite (lane_top_bit 1) by lia. do 2 f_equal. lia.
Qed.

Lemma GetMSBs8x16_ok argL argR :
  h_generic_calc_GetMSBs8x16 argL argR = pack 1 ((fun a => a / 2 ^ 7) <$> lanes 8 8 argR ++ lanes 8 8 argL).
Proof.
  unfold h_generic_calc_GetMSBs8x16. cbv zeta.
  rewrite lor_fields, !gather_byte, fmap_app, pack_app by
    (try (change 0xFF with (Z.ones 8); rewrite Z.land_ones by done; apply Z.mod_pos_bound); done).
  done.
Qed.

(** ** Theorems *)

(** Each operation on 128 bits leaves in [res] the lanes that are the function
    of its name on the lanes of the operands, whatever [res] held before, and
    whatever the product of mul32 is; shift amounts are taken modulo the width. *)
Theorem simd128_operations (res argL argR nn : Z) :
  (lanes 32 4 (h_generic_calc_Mul32x4 res argL argR) =
    zip_with (mul 32) (lanes 32 4 argL) (lanes 32 4 argR) ∧
  lanes 32 4 (h_generic_calc_Max32Sx4 res argL argR) =
    zip_with (maxs 32) (lanes 32 4 argL) (lanes 32 4 argR) ∧
  lanes 32 4 (h_generic_calc_Min32Sx4 res argL argR) =
    zip_with (mins 32) (lanes 32 4 argL) (lanes 32 4 argR) ∧
  lanes 32 4 (h_generic_calc_Max32Ux4 res argL argR) =
    zip_with (maxu 32) (lanes 32 4 argL) (lanes 32 4 argR) ∧
  lanes 32 4 (h_generic_calc_Min32Ux4 res argL argR) =
    zip_with (minu 32) (lanes 32 4 argL) (lanes 32 4 argR) ∧
  lanes 16 8 (h_generic_calc_Max16Ux8 res argL argR) =
    zip_with (maxu 16) (lanes 16 8 argL) (lanes 16 8 argR) ∧
  lanes 16 8 (h_generic_calc_Min16Ux8 res argL argR) =
    zip_with (minu 16) (lanes 16 8 argL) (lanes 16 8 argR) ∧
  lanes 8 16 (h_generic_calc_Max8Sx16 res argL argR) =
    zip_with (maxs 8) (lanes 8 16 argL) (lanes 8 16 argR) ∧
  lanes 8 16 (h_generic_calc_Min8Sx16 res argL argR) =
    zip_with (mins 8) (lanes 8 16 argL) (lanes 8 16 argR) ∧
  lanes 64 2 (h_generic_calc_CmpEQ64x2 res argL argR) =
    zip_with (cmpeq 64) (lanes 64 2 argL) (lanes 64 2 argR) ∧
  lanes 64 2 (h_generic_calc_CmpGT64Sx2 res argL argR) =
    zip_with (cmpgts 64) (lanes 64 2 argL) (lanes 64 2 argR)) ∧
  (lanes 64 2 (h_generic_calc_SarN64x2 res argL nn) = sar 64 (nn mod 64) <$> lanes 64 2 argL ∧
  lanes 8 16 (h_generic_calc_SarN8x16 res argL nn) = sar 8 (nn mod 8) <$> lanes 8 16 argL) ∧
  (lanes 16 8 (h_generic_calc_QNarrowBin32Sto16Ux8 res argL argR) =
    qnarrowu 32 16 <$> lanes 32 4 argR ++ lanes 32 4 argL ∧
  lanes 8 16 (h_generic_calc_NarrowBin16to8x16 res argL argR) = wrap 8 <$> lanes 16 8 argR ++ lanes 16 8 argL ∧
  lanes 16 8 (h_generic_calc_NarrowBin32to16x8 res argL argR) = wrap 16 <$> lanes 32 4 argR ++ lanes 32 4 argL ∧
  lanes 32 4 (h_generic_calc_Perm32x4 res argL argR) = (fun ix => lane 32 (ix mod 4) argL) <$> lanes 32 4 argR ∧
  h_generic_calc_GetMSBs8x16 argL argR = pack 1 ((fun a => a / 2 ^ 7) <$> lanes 8 8 argR ++ lanes 8 8 argL)).
Proof.
  split; [apply simd128_lanes|]. split; [apply simd128_shifts|].
  destruct (simd128_narrows res argL argR) as (? & ? & ?).
  repeat split; try done; [apply Perm32x4_ok|apply GetMSBs8x16_ok].
Qed.
