(* ===== verification/RangeMap.v ===== *)
(** [coregrind/m_rangemap.c]: a map from all words to words, kept as an array of
    ranges that cover the address space.

    The operations use the ranges only through the interface [IndexedArray];
    the last part puts the arrays of [XArray] underneath. A [Range *] that the
    code keeps is written through at once, so a write is an [ia_update]. *)

From S2P Require Import Prelude XArray.
Local Open Scope Z_scope.

(** * Definitions *)

Record Range := Rng { key_min : Z; key_max : Z; val : Z }.

Definition UWORD_MIN : Z := 0.

Definition set_max (m : Z) (r : Range) : Range := Rng (key_min r) m (val r).
Definition set_min (m : Z) (r : Range) : Range := Rng m (key_max r) (val r).
Definition set_val (v : Z) (r : Range) : Range := Rng (key_min r) (key_max r) v.

Section Operations.
Context {T : Type} `{IndexedArray T Range}.

(** A [RangeMap] is its array [ranges]. *)
Definition newRangeMap (initialVal : Z) : outcome T :=
  ranges ← ia_empty;
  r ← ia_add ranges (Rng UWORD_MIN UWORD_MAX initialVal);
  _ ← vg_assert (r.2 =? 0);
  _ ← vg_assert (ia_size r.1 =? 1);
  Ret r.1.

Fixpoint find_loop (fuel : nat) (rm : T) (key lo hi : Z) : outcome Z :=
  match fuel with
  | O => Fault OutOfFuel
  | S fuel =>
      if hi <? lo then Fault Panic
      else
        let mid := Z.quot (lo + hi) 2 in
        mid_rng ← ia_index rm mid;
        if key <? key_min mid_rng then find_loop fuel rm key lo (mid - 1)
        else if key_max mid_rng <? key then find_loop fuel rm key (mid + 1) hi
        else Ret mid
  end.

Definition find (rm : T) (key : Z) : outcome Z :=
  find_loop (Z.to_nat (ia_size rm) + 2) rm key 0 (ia_size rm).

Definition split_at (rm : T) (key : Z) : outcome T :=
  i ← find rm key;
  rng_i0 ← ia_index rm i;
  if key_min rng_i0 =? key then Ret rm
  else
    rm1 ← ia_insert rm (i + 1) rng_i0;
    rm2 ← ia_update rm1 i (set_max (u64 (key - 1)));
    ia_update rm2 (i + 1) (set_min key).

(** The loop of [preen]: [i--] after a merge undoes the [i++]. *)
Fixpoint preen_loop (fuel : nat) (rm : T) (i : Z) : outcome T :=
  match fuel with
  | O => Fault OutOfFuel
  | S fuel =>
      if i <? ia_size rm - 1 then
        rng0 ← ia_index rm i;
        rng1 ← ia_index rm (i + 1);
        if negb (val rng0 =? val rng1) then preen_loop fuel rm (i + 1)
        else
          rm1 ← ia_update rm i (set_max (key_max rng1));
          rm2 ← ia_remove rm1 (i + 1);
          preen_loop fuel rm2 i
      else Ret rm
  end.

Definition preen (rm : T) : outcome T := preen_loop (S (Z.to_nat (ia_size rm))) rm 0.

Definition bindRangeMap (rm : T) (kmin kmax v : Z) : outcome T :=
  _ ← vg_assert (kmin <=? kmax);
  rm1 ← split_at rm kmin;
  rm2 ← (if kmax <? UWORD_MAX then split_at rm1 (u64 (kmax + 1)) else Ret rm1);
  iMin ← find rm2 kmin;
  iMax ← find rm2 kmax;
  rm3 ← for_up iMin (iMax + 1) (fun i rm => ia_update rm i (set_val v)) rm2;
  preen rm3.

Definition lookupRangeMap (rm : T) (key : Z) : outcome Range := i ← find rm key; ia_index rm i.

Definition sizeRangeMap (rm : T) : outcome Z :=
  _ ← vg_assert (0 <=? ia_size rm); Ret (u32 (ia_size rm)).

Definition indexRangeMap (rm : T) (ix : Z) : outcome Range := ia_index rm ix.

End Operations.

(** * Lists of ranges *)

(** Consecutive ranges from [lo] up to but not including [hi]. *)
Fixpoint chain (lo hi : Z) (l : list Range) : Prop :=
  match l with
  | [] => lo = hi
  | r :: l' => key_min r = lo ∧ key_min r <= key_max r ∧ chain (key_max r + 1) hi l'
  end.

Definition in_range (k : Z) (r : Range) : bool := (key_min r <=? k) && (k <=? key_max r).

(** The value of a key. *)
Fixpoint value (l : list Range) (k : Z) : option Z :=
  match l with
  | [] => None
  | r :: l' => if in_range k r then Some (val r) else value l' k
  end.

(** No two neighbours have the same value. *)
Fixpoint distinct_neighbours (l : list Range) : Prop :=
  match l with
  | r :: ((r' :: _) as l') => val r ≠ val r' ∧ distinct_neighbours l'
  | _ => True
  end.

(** What [preen] does to the ranges from [r] on. *)
Fixpoint merge (r : Range) (l : list Range) : list Range :=
  match l with
  | [] => [r]
  | r' :: l' => if val r =? val r' then merge (set_max (key_max r') r) l' else r :: merge r' l'
  end.

Lemma in_range_spec k r : in_range k r = true <-> key_min r <= k <= key_max r.
Proof. unfold in_range. rewrite andb_true_iff, !Z.leb_le. lia. Qed.

Lemma in_range_false k r : in_range k r = false <-> ¬ key_min r <= k <= key_max r.
Proof. rewrite <- in_range_spec. by destruct (in_range k r). Qed.

Lemma chain_le lo hi l : chain lo hi l -> lo <= hi.
Proof.
  revert lo. induction l as [|r l IH]; simpl; intros lo; [lia|].
  intros (<- & Hle & Hc%IH). lia.
Qed.

Lemma chain_app lo hi l1 l2 : chain lo hi (l1 ++ l2) <-> ∃ m, chain lo m l1 ∧ chain m hi l2.
Proof.
  revert lo. induction l1 as [|r l1 IH]; intros lo; simpl.
  - split; [by exists lo|by intros (m & -> & ?)].
  - rewrite IH. naive_solver.
Qed.

Lemma value_above lo hi l k : chain lo hi l -> ¬ lo <= k < hi -> value l k = None.
Proof.
  revert lo. induction l as [|r l IH]; intros lo; [done|]. simpl. intros (<- & Hle & Hc) Hk.
  pose proof (chain_le _ _ _ Hc). rewrite (proj2 (in_range_false k r)) by lia. eapply IH; [done|lia].
Qed.

Lemma value_in lo hi l k : chain lo hi l -> lo <= k < hi -> is_Some (value l k).
Proof.
  revert lo. induction l as [|r l IH]; intros lo; simpl; [lia|]. intros (<- & Hle & Hc) Hk.
  destruct (in_range k r) eqn:E; [by eexists|]. apply in_range_false in E. eapply IH; [done|lia].
Qed.

Lemma value_app l1 l2 k :
  value (l1 ++ l2) k = match value l1 k with Some v => Some v | None => value l2 k end.
Proof. induction l1 as [|r l1 IH]; simpl; [done|]. by destruct (in_range k r). Qed.

(** A key lies in one range of a chain. *)
Lemma chain_locate lo hi l k :
  chain lo hi l -> lo <= k < hi -> ∃ l1 r l2, l = l1 ++ r :: l2 ∧ key_min r <= k <= key_max r.
Proof.
  revert lo. induction l as [|r l IH]; intros lo; simpl; [lia|]. intros (<- & Hle & Hc) Hk.
  destruct (decide (k <= key_max r)) as [Hr|Hr]; [exists [], r, l; split; [done|lia]|].
  destruct (IH _ Hc) as (l1 & r' & l2 & -> & Hr'); [lia|]. by exists (r :: l1), r', l2.
Qed.

Lemma chain_before lo hi l1 r l2 r' :
  chain lo hi (l1 ++ r :: l2) -> r' ∈ l1 -> key_min r' <= key_max r' < key_min r.
Proof.
  revert lo. induction l1 as [|r0 l1 IH]; intros lo; simpl;
    [intros _ Hin; by apply not_elem_of_nil in Hin|].
  intros (<- & Hle & Hc) [->|Hin]%elem_of_cons; [|by eapply IH].
  apply chain_app in Hc as (m & Hc1%chain_le & <- & _). lia.
Qed.

Lemma chain_after lo hi l1 r l2 r' :
  chain lo hi (l1 ++ r :: l2) -> r' ∈ l2 -> key_max r < key_min r' <= key_max r'.
Proof.
  intros (m & _ & _ & Hle & Hc)%chain_app Hin.
  apply list_elem_of_split in Hin as (k1 & k2 & ->).
  apply chain_app in Hc as (m' & Hc%chain_le & <- & Hle' & _). lia.
Qed.

(** ** Merging *)

Lemma merge_chain l : ∀ lo hi r, chain lo hi (r :: l) -> chain lo hi (merge r l).
Proof.
  induction l as [|r' l IH]; intros lo hi r Hc; [done|]. cbn [merge].
  destruct Hc as (Hr & Hle & Hr' & Hle' & Hc). case_bool.
  - apply IH. simpl. split; [done|]. split; [lia|done].
  - split; [done|]. split; [done|]. apply IH. by split.
Qed.

Lemma merge_value l : ∀ lo hi r k, chain lo hi (r :: l) -> value (merge r l) k = value (r :: l) k.
Proof.
  induction l as [|r' l IH]; intros lo hi r k Hc; [done|]. cbn [merge].
  destruct Hc as (Hr & Hle & Hr' & Hle' & Hc). case_bool.
  - rewrite (IH lo hi) by (simpl; split; [done|]; split; [lia|done]). cbn [value].
    unfold set_max, in_range. cbn [key_min key_max val]. rewrite E.
    repeat case_match; try done; b2p; exfalso; lia.
  - cbn [value]. case_match; [done|]. rewrite (IH (key_max r + 1) hi); done.
Qed.

Lemma merge_head l : ∀ r, ∃ r' l', merge r l = r' :: l' ∧ val r' = val r.
Proof.
  induction l as [|r' l IH]; intros r; [by exists r, []|]. cbn [merge]. case_bool; [|by eexists _, _].
  destruct (IH (set_max (key_max r') r)) as (x & y & -> & Hv). eauto.
Qed.

Lemma merge_distinct l : ∀ r, distinct_neighbours (merge r l).
Proof.
  induction l as [|r' l IH]; intros r; [done|]. cbn [merge]. case_bool; [apply IH|].
  destruct (merge_head l r') as (x & y & Hm & Hv). specialize (IH r'). rewrite Hm in *.
  split; [by rewrite Hv|done].
Qed.

Lemma merge_length l : ∀ r, (length (merge r l) <= S (length l))%nat.
Proof.
  induction l as [|r' l IH]; intros r; [done|]. cbn [merge]. case_bool; [|simpl; specialize (IH r'); lia].
  specialize (IH (set_max (key_max r') r)). simpl. lia.
Qed.

(** * The operations, against the interface *)

Definition KEYS : Z := UWORD_MAX + 1.

Section Correct.
Context {T : Type} `{IndexedArrayLaws T Range}.
Implicit Types (rm : T) (l cts : list Range).

(** The ranges cover the address space. *)
Definition covers rm cts : Prop := ia_holds rm cts ∧ chain 0 KEYS cts.

(** Read and update at the position of a list. *)
Lemma index_at rm l1 r l2 :
  ia_holds rm (l1 ++ r :: l2) -> ia_index rm (Z.of_nat (length l1)) = Ret r.
Proof. intros Hh. eapply ia_index_law; [done|]. by rewrite lookup_app_r, Nat.sub_diag. Qed.

Lemma update_at rm l1 r l2 f :
  ia_holds rm (l1 ++ r :: l2) ->
  ∃ rm', ia_update rm (Z.of_nat (length l1)) f = Ret rm' ∧ ia_holds rm' (l1 ++ f r :: l2).
Proof.
  intros Hh. destruct (ia_update_law rm _ (length l1) r f Hh) as (rm' & He & Hh').
  { by rewrite lookup_app_r, Nat.sub_diag. }
  exists rm'. split; [done|]. by rewrite insert_app_r_alt, Nat.sub_diag in Hh' by done.
Qed.

Lemma find_loop_ok fuel rm l1 r l2 k : ∀ lo hi,
  covers rm (l1 ++ r :: l2) -> key_min r <= k <= key_max r ->
  0 <= lo <= Z.of_nat (length l1) -> Z.of_nat (length l1) <= hi <= Z.of_nat (length (l1 ++ r :: l2)) ->
  (Z.to_nat (hi + 1 - lo) < fuel)%nat ->
  find_loop fuel rm k lo hi = Ret (Z.of_nat (length l1)).
Proof.
  induction fuel as [|fuel IH]; intros lo hi [Hh Hc] Hk Hlo Hhi Hf; [lia|]. cbn [find_loop].
  rewrite (proj2 (Z.ltb_ge _ _)) by lia. rewrite Z.quot_div_nonneg by lia.
  rewrite length_app in Hhi. cbn [length] in Hhi. set (mid := (lo + hi) / 2).
  assert (lo <= mid <= hi ∧ 2 * mid <= lo + hi) as Hm.
  { subst mid. split; [split; [apply Z.div_le_lower_bound|apply Z.div_le_upper_bound]; lia|].
    apply Z.mul_div_le. lia. }
  destruct (lookup_lt_is_Some_2 (l1 ++ r :: l2) (Z.to_nat mid)) as [x Hx];
    [rewrite length_app; simpl; lia|].
  rewrite <- (Z2Nat.id mid) at 1 by lia. rewrite (ia_index_law rm _ _ x Hh Hx). cbn [mbind outcome_bind].
  destruct (decide (mid < Z.of_nat (length l1))) as [Hl|Hl].
  - rewrite lookup_app_l in Hx by lia. apply list_elem_of_lookup_2 in Hx.
    pose proof (chain_before _ _ _ _ _ _ Hc Hx).
    rewrite (proj2 (Z.ltb_ge _ _)), (proj2 (Z.ltb_lt _ _)) by lia.
    apply IH; try done; try lia. rewrite length_app. simpl. lia.
  - destruct (decide (mid = Z.of_nat (length l1))) as [E|E].
    + rewrite E, Nat2Z.id, lookup_app_r, Nat.sub_diag in Hx by lia. injection Hx as <-.
      rewrite !(proj2 (Z.ltb_ge _ _)) by lia. by rewrite E.
    + rewrite lookup_app_r in Hx by lia.
      destruct (Z.to_nat mid - length l1)%nat as [|j] eqn:Ej; [lia|].
      change (l2 !! j = Some x) in Hx.
      apply list_elem_of_lookup_2 in Hx. pose proof (chain_after _ _ _ _ _ _ Hc Hx).
      rewrite (proj2 (Z.ltb_lt _ _)) by lia.
      apply IH; try done; try lia. rewrite length_app. simpl. lia.
Qed.

Lemma find_ok rm l1 r l2 k :
  covers rm (l1 ++ r :: l2) -> key_min r <= k <= key_max r ->
  find rm k = Ret (Z.of_nat (length l1)).
Proof.
  intros Hc Hk. unfold find. rewrite (ia_size_law rm _ (proj1 Hc)).
  apply find_loop_ok with r l2; try done; try lia; rewrite length_app; simpl; lia.
Qed.

(** After [split_at key] a range starts at [key]. *)
Lemma split_at_ok rm cts k :
  covers rm cts -> 0 <= k < KEYS -> Z.of_nat (S (length cts)) <= ia_limit ->
  ∃ rm' l1 l2, split_at rm k = Ret rm' ∧ covers rm' (l1 ++ l2) ∧
    (length (l1 ++ l2) <= S (length cts))%nat ∧
    chain 0 k l1 ∧ chain k KEYS l2 ∧ (∀ j, value (l1 ++ l2) j = value cts j) ∧
    (∀ m c1 c2, cts = c1 ++ c2 -> chain 0 m c1 -> m <= k -> ∃ c, l1 = c1 ++ c).
Proof.
  intros [Hh Hc] Hk Hlim. destruct (chain_locate _ _ _ k Hc Hk) as (l1 & r & l2 & -> & Hr).
  unfold split_at. rewrite (find_ok rm l1 r l2) by done. cbn [mbind outcome_bind].
  rewrite (index_at rm l1 r l2) by done. cbn [mbind outcome_bind].
  pose proof Hc as Hc'. apply chain_app in Hc' as (m & Hc1 & Hm & Hle & Hc2).
  assert (Hpre : ∀ m c1 c2, l1 ++ r :: l2 = c1 ++ c2 -> chain 0 m c1 -> m <= k -> ∃ c, l1 = c1 ++ c).
  { intros m' c1 c2 Heq Hcc Hmk. apply app_eq_inv in Heq as [(c & Hc1' & Hc2')|(c & Hc1' & Hc2')].
    - by exists c.
    - destruct c as [|r0 c]; [exists []; by rewrite !app_nil_r in *|].
      simpl in Hc2'. injection Hc2' as <- Hc2'. subst c1.
      apply chain_app in Hcc as (m'' & _ & Hm'' & _ & Hcc%chain_le). lia. }
  case_bool.
  - exists rm, l1, (r :: l2). split; [done|]. split; [by split|]. split; [lia|].
    split; [congruence|]. split; [|done]. simpl. split; [done|]. by split.
  - assert (Hlen : (length (l1 ++ [r]) = length l1 + 1)%nat) by (rewrite length_app; simpl; lia).
    assert (Hk1 : u64 (k - 1) = k - 1) by (apply wrap_small; unfold KEYS, UWORD_MAX in *; pose proof (chain_le _ _ _ Hc1); lia).
    assert (Hi1 : Z.of_nat (length l1) + 1 = Z.of_nat (length (l1 ++ [r]))) by lia.
    rewrite Hi1. rewrite cons_middle, app_assoc in Hh.
    destruct (ia_insert_law rm (l1 ++ [r]) l2 r Hh) as (rm1 & -> & Hh1).
    { rewrite <- app_assoc. done. }
    cbn [mbind outcome_bind]. rewrite <- app_assoc in Hh1. simpl in Hh1.
    destruct (update_at rm1 l1 r (r :: l2) (set_max (u64 (k - 1))) Hh1) as (rm2 & -> & Hh2).
    cbn [mbind outcome_bind]. rewrite cons_middle, app_assoc in Hh2.
    destruct (update_at rm2 (l1 ++ [set_max (u64 (k - 1)) r]) r l2 (set_min k) Hh2) as (rm3 & Hu & Hh3).
    rewrite length_app in Hu. cbn [length] in Hu. rewrite Hlen. rewrite Hu.
    exists rm3, (l1 ++ [set_max (u64 (k - 1)) r]), (set_min k r :: l2). rewrite Hk1 in *.
    assert (Hch1 : chain 0 k (l1 ++ [set_max (k - 1) r])).
    { apply chain_app. exists m. split; [done|]. simpl. split; [done|]. split; lia. }
    assert (Hch2 : chain k KEYS (set_min k r :: l2)).
    { simpl. split; [done|]. split; [lia|done]. }
    split; [done|]. split; [split; [done|]; apply chain_app; by exists k|].
    split; [rewrite !length_app; simpl; lia|]. split; [done|]. split; [done|]. split.
    + intros j. rewrite <- app_assoc, !value_app. destruct (value l1 j); [done|]. simpl.
      unfold in_range, set_min, set_max. simpl. repeat case_match; try done; b2p; exfalso; lia.
    + intros m' c1 c2 Heq Hcc Hmk. destruct (Hpre m' c1 c2 Heq Hcc Hmk) as [c ->].
      eexists. by rewrite <- app_assoc.
Qed.

Lemma preen_loop_ok l2 : ∀ fuel rm l1 r,
  ia_holds rm (l1 ++ r :: l2) -> (length l2 < fuel)%nat ->
  ∃ rm', preen_loop fuel rm (Z.of_nat (length l1)) = Ret rm' ∧ ia_holds rm' (l1 ++ merge r l2).
Proof.
  induction l2 as [|r' l2 IH]; intros fuel rm l1 r Hh Hf; (destruct fuel as [|fuel]; [simpl in *; lia|]);
    cbn [preen_loop merge]; rewrite (ia_size_law rm _ Hh), length_app; cbn [length].
  - rewrite (proj2 (Z.ltb_ge _ _)) by lia. by exists rm.
  - rewrite (proj2 (Z.ltb_lt _ _)) by lia. rewrite (index_at rm l1 r (r' :: l2)) by done.
    cbn [mbind outcome_bind].
    assert (Hi1 : ∀ x : Range, Z.of_nat (length l1) + 1 = Z.of_nat (length (l1 ++ [x])))
      by (intros; rewrite length_app; simpl; lia).
    pose proof Hh as Hh0. rewrite cons_middle, app_assoc in Hh0.
    rewrite (Hi1 r), (index_at rm (l1 ++ [r]) r' l2) by done. cbn [mbind outcome_bind]. case_bool; b2p.
    + rewrite (proj2 (Z.eqb_neq _ _)) by lia. rewrite <- app_assoc in Hh0.
      destruct (IH fuel rm (l1 ++ [r]) r') as (rm' & -> & Hh'); [by rewrite <- app_assoc|simpl in Hf; lia|].
      exists rm'. split; [done|]. by rewrite <- app_assoc in Hh'.
    + rewrite E, Z.eqb_refl.
      destruct (update_at rm l1 r (r' :: l2) (set_max (key_max r')) Hh) as (rm1 & -> & Hh1).
      cbn [mbind outcome_bind]. rewrite cons_middle, app_assoc in Hh1.
      rewrite <- (Hi1 r), (Hi1 (set_max (key_max r') r)).
      destruct (ia_remove_law rm1 (l1 ++ [set_max (key_max r') r]) r' l2 Hh1) as (rm2 & -> & Hh2).
      cbn [mbind outcome_bind]. rewrite <- app_assoc in Hh2. apply IH; [done|simpl in Hf; lia].
Qed.

Lemma preen_ok rm r l :
  ia_holds rm (r :: l) -> ∃ rm', preen rm = Ret rm' ∧ ia_holds rm' (merge r l).
Proof.
  intros Hh. unfold preen. rewrite (ia_size_law rm _ Hh).
  apply (preen_loop_ok l (S (Z.to_nat (Z.of_nat (length (r :: l))))) rm [] r Hh). simpl. lia.
Qed.

(** The loop that writes the value. *)
Lemma set_vals_ok v l2 : ∀ rm l1 l3,
  ia_holds rm (l1 ++ l2 ++ l3) ->
  ∃ rm', for_up (Z.of_nat (length l1)) (Z.of_nat (length (l1 ++ l2))) (fun i rm => ia_update rm i (set_val v)) rm
    = Ret rm' ∧ ia_holds rm' (l1 ++ (set_val v <$> l2) ++ l3).
Proof.
  induction l2 as [|r l2 IH]; intros rm l1 l3 Hh; rewrite length_app; cbn [length].
  - rewrite for_up_empty by lia. by exists rm.
  - rewrite for_up_step by lia.
    destruct (update_at rm l1 r (l2 ++ l3) (set_val v) Hh) as (rm1 & -> & Hh1). cbn [mbind outcome_bind].
    rewrite cons_middle, app_assoc in Hh1. destruct (IH rm1 (l1 ++ [set_val v r]) l3 Hh1) as (rm' & He & Hh').
    rewrite !length_app in He. cbn [length] in He.
    replace (Z.of_nat (length l1) + 1) with (Z.of_nat (length l1 + 1)) by lia.
    replace (length l1 + S (length l2))%nat with (length l1 + 1 + length l2)%nat by lia.
    exists rm'. split; [done|]. by rewrite <- app_assoc in Hh'.
Qed.

Lemma set_vals_chain v lo hi l : chain lo hi l -> chain lo hi (set_val v <$> l).
Proof. revert lo. induction l as [|r l IH]; simpl; intros lo; naive_solver. Qed.

Lemma set_vals_value v lo hi l k :
  chain lo hi l -> value (set_val v <$> l) k = if decide (lo <= k < hi) then Some v else None.
Proof.
  intros Hc. pose proof (set_vals_chain v _ _ _ Hc) as Hc'. case_decide as Hk.
  - destruct (value_in _ _ _ k Hc' Hk) as [x Hx]. rewrite Hx. f_equal. revert Hx. clear.
    induction l as [|r l IH]; simpl; [done|]. case_match; [|done]. by intros [= <-].
  - by eapply value_above.
Qed.

(** Two chains between the same bounds, one a prefix of the other's extension. *)
Lemma chain_end_unique l : ∀ lo h1 h2, chain lo h1 l -> chain lo h2 l -> h1 = h2.
Proof. induction l as [|r l IH]; simpl; intros lo h1 h2; [congruence|]. naive_solver. Qed.

(** The two splits of [bindRangeMap] isolate the interval. *)
Lemma split_interval rm cts kmin kmax :
  covers rm cts -> 0 <= kmin <= kmax -> kmax <= UWORD_MAX -> Z.of_nat (length cts) + 2 <= ia_limit ->
  ∃ rm1 rm2 l1 m l3, split_at rm kmin = Ret rm1 ∧
    (if kmax <? UWORD_MAX then split_at rm1 (u64 (kmax + 1)) else Ret rm1) = Ret rm2 ∧
    covers rm2 (l1 ++ m ++ l3) ∧ (length (l1 ++ m ++ l3) <= length cts + 2)%nat ∧
    chain 0 kmin l1 ∧ chain kmin (kmax + 1) m ∧ chain (kmax + 1) KEYS l3 ∧
    ∀ j, value (l1 ++ m ++ l3) j = value cts j.
Proof.
  intros Hc Hk Hmax Hlim.
  destruct (split_at_ok rm cts kmin Hc) as (rm1 & l1 & l2 & Hs & Hc1 & Hlen1 & Hch1 & Hch2 & Hv1 & _);
    [unfold KEYS; lia|lia|]. exists rm1. case_bool.
  - unfold u64. rewrite wrap_small by (unfold UWORD_MAX in *; lia).
    destruct (split_at_ok rm1 _ (kmax + 1) Hc1) as (rm2 & k1 & k2 & -> & Hc2 & Hlen2 & Hk1 & Hk2 & Hv2 & Hpre);
      [unfold KEYS; lia|lia|].
    destruct (Hpre kmin l1 l2) as [m ->]; [done|done|lia|]. rewrite <- app_assoc in *.
    exists rm2, l1, m, k2. split; [done|]. split; [done|]. split; [done|]. split; [lia|].
    apply chain_app in Hk1 as (x & Hx1 & Hx2).
    rewrite (chain_end_unique _ _ _ _ Hx1 Hch1) in *.
    split; [done|]. split; [done|]. split; [done|]. intros j. by rewrite Hv2, Hv1.
  - exists rm1, l1, l2, []. rewrite app_nil_r. split; [done|]. split; [done|]. split; [done|]. split; [lia|].
    assert (kmax + 1 = KEYS) as -> by (unfold KEYS; lia). done.
Qed.

(** Its ends are then found at the ends of the isolated ranges. *)
Lemma find_ends rm l1 m l3 kmin kmax :
  covers rm (l1 ++ m ++ l3) -> chain kmin (kmax + 1) m -> kmin <= kmax ->
  find rm kmin = Ret (Z.of_nat (length l1)) ∧ find rm kmax = Ret (Z.of_nat (length (l1 ++ m)) - 1).
Proof.
  intros Hc Hm Hk.
  destruct (chain_locate _ _ _ kmin Hm) as (ma & ra & mb & Ema & Hra); [lia|].
  destruct (chain_locate _ _ _ kmax Hm) as (mc & rc & md & Emc & Hrc); [lia|].
  assert (ma = []) as ->.
  { destruct ma as [|r0 ma]; [done|]. subst m. destruct Hm as (Hr0 & Hle0 & Hm).
    apply chain_app in Hm as (y & Hy%chain_le & Hy' & _). lia. }
  assert (md = []) as ->.
  { destruct md as [|r0 md]; [done|]. subst m. rewrite Emc in Hm.
    apply chain_app in Hm as (y & _ & _ & _ & Hr0 & Hle0 & Hm%chain_le). lia. }
  split.
  - apply (find_ok rm l1 ra (mb ++ l3)); [by rewrite Ema in Hc|done].
  - rewrite (find_ok rm (l1 ++ mc) rc l3 kmax); [|rewrite Emc in Hc; by rewrite <- !app_assoc in *|done].
    f_equal. rewrite Emc, !length_app. simpl. lia.
Qed.

(** Writing a value over the interval. *)
Lemma set_interval v l1 m l3 kmin kmax :
  chain 0 kmin l1 -> chain kmin (kmax + 1) m -> chain (kmax + 1) KEYS l3 ->
  chain 0 KEYS (l1 ++ (set_val v <$> m) ++ l3) ∧
  ∀ k, value (l1 ++ (set_val v <$> m) ++ l3) k =
       if decide (kmin <= k <= kmax) then Some v else value (l1 ++ m ++ l3) k.
Proof.
  intros Hl1 Hm Hl3. split.
  - apply chain_app. exists kmin. split; [done|]. apply chain_app. exists (kmax + 1).
    split; [by apply set_vals_chain|done].
  - intros k. rewrite !value_app, (set_vals_value v _ _ _ k Hm).
    destruct (decide (kmin <= k <= kmax)) as [Hd|Hd].
    + rewrite (value_above _ _ _ k Hl1) by lia. by rewrite decide_True by lia.
    + rewrite decide_False by lia. by rewrite (value_above _ _ _ k Hm) by lia.
Qed.

End Correct.

(** * Properties *)

(** The ranges cover the address space and no two neighbours can be merged. *)
Definition rm_ok {T} `{IndexedArrayLaws T Range} (rm : T) (cts : list Range) : Prop :=
  covers rm cts ∧ distinct_neighbours cts.

Section Properties.
Context {T : Type} `{IndexedArrayLaws T Range}.

(** Over any array that keeps the interface, [newRangeMap] gives a map that
    covers the address space with one value. *)
Theorem newRangeMap_constant (v : Z) :
  1 <= ia_limit -> ∃ rm, newRangeMap (T := T) v = Ret rm ∧ rm_ok rm [Rng 0 UWORD_MAX v].
Proof.
  intros Hlim. unfold newRangeMap. destruct ia_empty_law as (t & -> & Ht). cbn [mbind outcome_bind].
  destruct (ia_add_law t [] (Rng UWORD_MIN UWORD_MAX v) Ht) as (t' & -> & Ht'); [simpl; lia|].
  cbn [mbind outcome_bind fst snd]. rewrite (ia_size_law t' _ Ht'). simpl.
  exists t'. split; [done|]. split; [|done]. split; [done|]. simpl. unfold UWORD_MIN, KEYS, UWORD_MAX. lia.
Qed.

(** C10: [bindRangeMap] terminates without panic, failed assertion or access
    outside the array; the map still covers the address space with merged
    ranges; the keys in the given interval have the new value and all others
    keep theirs. *)
Theorem bindRangeMap_pointwise (rm : T) cts kmin kmax v :
  rm_ok rm cts -> 0 <= kmin <= kmax -> kmax <= UWORD_MAX -> Z.of_nat (length cts) + 2 <= ia_limit ->
  ∃ rm' cts', bindRangeMap rm kmin kmax v = Ret rm' ∧ rm_ok rm' cts' ∧
    (length cts' <= length cts + 2)%nat ∧
    ∀ k, 0 <= k <= UWORD_MAX ->
      value cts' k = if decide (kmin <= k <= kmax) then Some v else value cts k.
Proof.
  intros [Hc _] Hk Hmax Hlim. unfold bindRangeMap, vg_assert. rewrite (proj2 (Z.leb_le _ _)) by lia.
  destruct (split_interval rm cts kmin kmax Hc Hk Hmax Hlim)
    as (rm1 & rm2 & l1 & m & l3 & Hs1 & Hs2 & Hc2 & Hlen & Hl1 & Hm & Hl3 & Hv).
  destruct (find_ends rm2 l1 m l3 kmin kmax Hc2 Hm) as [Hf1 Hf2]; [lia|].
  cbn [mbind outcome_bind]. rewrite Hs1. cbn [mbind outcome_bind]. rewrite Hs2. cbn [mbind outcome_bind].
  rewrite Hf1, Hf2. cbn [mbind outcome_bind]. rewrite Z.sub_add.
  destruct (set_vals_ok v m rm2 l1 l3 (proj1 Hc2)) as (rm3 & -> & Hh3). cbn [mbind outcome_bind].
  destruct (set_interval v l1 m l3 kmin kmax Hl1 Hm Hl3) as [Hc3 Hv3].
  destruct (l1 ++ (set_val v <$> m) ++ l3) as [|r l] eqn:El; [by unfold KEYS, UWORD_MAX in Hc3|].
  destruct (preen_ok rm3 r l Hh3) as (rm' & -> & Hh').
  exists rm', (merge r l). split; [done|]. split; [split; [split; [done|]|]|split].
  - by apply merge_chain.
  - apply merge_distinct.
  - pose proof (merge_length l r). assert (Hl : length (r :: l) = length (l1 ++ m ++ l3))
      by (by rewrite <- El, !length_app, length_fmap).
    simpl in Hl. lia.
  - intros k _. rewrite (merge_value l 0 KEYS), Hv3 by done. by rewrite Hv.
Qed.

(** [lookupRangeMap] finds the whole interval around the key: every key in
    the range it returns has its value, and the keys just outside, if any, have
    another one. *)
Theorem lookupRangeMap_maximal (rm : T) cts key :
  rm_ok rm cts -> 0 <= key <= UWORD_MAX ->
  ∃ r, lookupRangeMap rm key = Ret r ∧ key_min r <= key <= key_max r ∧
    (∀ k, key_min r <= k <= key_max r -> value cts k = Some (val r)) ∧
    (0 < key_min r -> value cts (key_min r - 1) ≠ Some (val r)) ∧
    (key_max r < UWORD_MAX -> value cts (key_max r + 1) ≠ Some (val r)).
Proof.
  intros [Hc Hd] Hk. pose proof Hc as [Hh Hch].
  destruct (chain_locate _ _ _ key Hch) as (l1 & r & l2 & -> & Hr); [unfold KEYS; lia|].
  exists r. unfold lookupRangeMap. rewrite (find_ok rm l1 r l2) by done. cbn [mbind outcome_bind].
  rewrite (index_at rm l1 r l2) by done. split; [done|]. split; [done|].
  pose proof Hch as Hch'. apply chain_app in Hch' as (m & Hc1 & <- & Hle & Hc2). split; [|split].
  - intros k Hkr. rewrite value_app, (value_above _ _ _ k Hc1) by lia. simpl.
    by rewrite (proj2 (in_range_spec k r)) by lia.
  - intros Hpos. destruct l1 as [|r0 l1 _] using rev_ind; [simpl in Hc1; lia|].
    pose proof Hc1 as Hc1'. apply chain_app in Hc1' as (m' & Hc0 & Hm' & Hle' & Hend). simpl in Hend.
    rewrite value_app, value_app, (value_above _ _ _ (key_min r - 1) Hc0) by lia. simpl.
    rewrite (proj2 (in_range_spec (key_min r - 1) r0)) by lia.
    assert (Hne : val r0 ≠ val r).
    { clear -Hd. rewrite <- app_assoc in Hd. simpl in Hd. induction l1 as [|x l1 IH]; [apply Hd|].
      apply IH. simpl in Hd. destruct (l1 ++ r0 :: r :: l2) eqn:E; [by destruct l1|]. apply Hd. }
    congruence.
  - intros Hmax. destruct l2 as [|r1 l2]; [simpl in Hc2; unfold KEYS in *; lia|].
    destruct Hc2 as (Hr1 & Hle1 & _).
    rewrite value_app, (value_above _ _ _ (key_max r + 1) Hc1) by lia. simpl.
    rewrite (proj2 (in_range_false (key_max r + 1) r)) by lia.
    rewrite (proj2 (in_range_spec (key_max r + 1) r1)) by lia.
    assert (Hne : val r ≠ val r1).
    { clear -Hd. induction l1 as [|x l1 IH]; [apply Hd|].
      apply IH. simpl in Hd. destruct (l1 ++ r :: r1 :: l2) eqn:E; [by destruct l1|]. apply Hd. }
    congruence.
Qed.

End Properties.

(** * Range maps over expandable arrays *)

(** [sizeof(Range)]. *)
#[export] Instance range_array : IndexedArray (XArray Range) Range := xarray_indexed 24.
#[export] Instance range_array_laws : IndexedArrayLaws (XArray Range) Range :=
  xarray_laws 24 ltac:(lia).

Definition demo_rm : XArray Range :=
  XA None 24 (Some [Some (Rng 0 99 1); Some (Rng 100 UWORD_MAX 2)]) 2 2 false.

Lemma demo_rm_ok : rm_ok demo_rm [Rng 0 99 1; Rng 100 UWORD_MAX 2].
Proof.
  split; [split|].
  - split; [simpl; lia|]. split; [done|]. split; [unfold XA_LIMIT; simpl; lia|].
    split; [done|]. split; [simpl; lia|]. by exists [].
  - simpl. unfold KEYS, UWORD_MAX. lia.
  - simpl. lia.
Qed.

Lemma newRangeMap_constant_witness :
  ∃ rm : XArray Range, newRangeMap 7 = Ret rm ∧ rm_ok rm [Rng 0 UWORD_MAX 7].
Proof. apply (newRangeMap_constant (T := XArray Range) 7). simpl. unfold XA_LIMIT. lia. Defined.

Lemma bindRangeMap_pointwise_witness :
  ∃ rm' cts', bindRangeMap demo_rm 50 120 9 = Ret rm' ∧ rm_ok rm' cts' ∧ value cts' 60 = Some 9.
Proof.
  destruct (bindRangeMap_pointwise demo_rm _ 50 120 9 demo_rm_ok) as (rm' & cts' & Hb & Hok & _ & Hv).
  - lia.
  - unfold UWORD_MAX. lia.
  - simpl. unfold XA_LIMIT. lia.
  - exists rm', cts'. split; [exact Hb|]. split; [exact Hok|]. rewrite Hv; [reflexivity|unfold UWORD_MAX; lia].
Defined.

Lemma lookupRangeMap_maximal_witness :
  ∃ r, lookupRangeMap demo_rm 150 = Ret r ∧ key_min r <= 150 <= key_max r.
Proof.
  destruct (lookupRangeMap_maximal demo_rm _ 150 demo_rm_ok) as (r & Hl & Hr & _); [unfold UWORD_MAX; lia|].
  exists r. split; [exact Hl|exact Hr].
Defined.
