(* ===== verification/HashTable.v ===== *)
(** * coregrind/m_hashtable.c

    Separately chained hash tables. The nodes belong to the clients: they live in
    a heap from addresses to their two common fields, [next] and [key], and the
    table holds the address of the first node of each chain. 0 is NULL. *)

From S2P Require Import Prelude.
From stdpp Require Import gmap fin_maps fin_map_dom.
Local Open Scope Z_scope.

(** * Definitions *)

Record VgHashNode := Node { next : Z; key : Z }.
Notation heap := (gmap Z VgHashNode).

Record VgHashTable := Table {
  n_chains : Z;
  n_elements : Z;
  iterNode : Z;
  iterChain : Z;
  iterOK : bool;
  chains : list Z }.

Definition N_HASH_PRIMES : Z := 20.
Definition primes : list Z :=
  [769; 1543; 3079; 6151; 12289; 24593; 49157; 98317; 196613; 393241; 786433; 1572869;
   3145739; 6291469; 12582917; 25165843; 50331653; 100663319; 201326611; 402653189].

(** [p->next] and [p->key] are read with [load], and [p->next = q] is [set_next]. *)
Definition load (h : heap) (p : Z) : outcome VgHashNode :=
  if p =? 0 then Fault NullDeref
  else match h !! p with Some n => Ret n | None => Fault OutOfBounds end.

Definition set_next (h : heap) (p q : Z) : outcome heap :=
  n ← load h p; Ret (<[p := Node q (key n)]> h).

Definition CHAIN_NO (k n_chains : Z) : outcome Z :=
  if n_chains =? 0 then Fault Panic else Ret (k mod n_chains).

Definition set_chains (cs : list Z) (t : VgHashTable) : VgHashTable :=
  Table (n_chains t) (n_elements t) (iterNode t) (iterChain t) (iterOK t) cs.
Definition set_n_elements (n : Z) (t : VgHashTable) : VgHashTable :=
  Table (n_chains t) n (iterNode t) (iterChain t) (iterOK t) (chains t).
Definition set_iter (node chain : Z) (ok : bool) (t : VgHashTable) : VgHashTable :=
  Table (n_chains t) (n_elements t) node chain ok (chains t).

(** The memory of the table comes zeroed from calloc; [name] is a pointer. *)
Definition HT_construct (name : Z) : outcome VgHashTable :=
  n_chains ← arr_get primes 0;
  _ ← vg_assert (negb (name =? 0));
  Ret (Table n_chains 0 0 0 true (repeat 0 (Z.to_nat n_chains))).

Definition HT_count_nodes (t : VgHashTable) : Z := n_elements t.

(** The first prime above [n], or [n] if there is none. *)
Fixpoint find_prime (ps : list Z) (n : Z) : Z :=
  match ps with [] => n | p :: ps => if n <? p then p else find_prime ps n end.

(** Move the nodes of an old chain to the new chains. *)
Fixpoint rehash (fuel : nat) (new_chains node : Z) (s : heap * list Z) : outcome (heap * list Z) :=
  if node =? 0 then Ret s
  else match fuel with
  | O => Fault OutOfFuel
  | S fuel =>
      nd ← load s.1 node;
      chain ← CHAIN_NO (key nd) new_chains;
      first ← arr_get s.2 chain;
      h ← set_next s.1 node first;
      cs ← arr_set s.2 chain node;
      rehash fuel new_chains (next nd) (h, cs)
  end.

Definition resize (t : VgHashTable) (h : heap) : outcome (VgHashTable * heap) :=
  let old_chains := n_chains t in
  last ← arr_get primes (N_HASH_PRIMES - 1);
  first ← arr_get primes 0;
  if old_chains =? last then Ret (t, h)
  else
    _ ← vg_assert ((first <=? old_chains) && (old_chains <? last));
    let new_chains := find_prime primes (old_chains + 1) in
    _ ← vg_assert (old_chains <? new_chains);
    _ ← vg_assert ((first <? new_chains) && (new_chains <=? last));
    s ← for_up 0 old_chains
          (fun i s => node ← arr_get (chains t) i; rehash (size h) new_chains node s)
          (h, repeat 0 (Z.to_nat new_chains));
    Ret (Table new_chains (n_elements t) (iterNode t) (iterChain t) (iterOK t) s.2, s.1).

Definition HT_add_node (t : VgHashTable) (h : heap) (node : Z) : outcome (VgHashTable * heap) :=
  nd ← load h node;
  chain ← CHAIN_NO (key nd) (n_chains t);
  first ← arr_get (chains t) chain;
  h ← set_next h node first;
  cs ← arr_set (chains t) chain node;
  let t := set_n_elements (u32 (n_elements t + 1)) (set_chains cs t) in
  r ← (if n_chains t <? n_elements t then resize t h else Ret (t, h));
  Ret (set_iter (iterNode r.1) (iterChain r.1) false r.1, r.2).

(** The walk along a chain that HT_lookup and HT_gen_lookup share; [found] is
    their test. *)
Fixpoint find_in (fuel : nat) (found : Z -> VgHashNode -> bool) (h : heap) (curr : Z) : outcome Z :=
  if curr =? 0 then Ret 0
  else match fuel with
  | O => Fault OutOfFuel
  | S fuel =>
      nd ← load h curr;
      if found curr nd then Ret curr else find_in fuel found h (next nd)
  end.

Definition HT_lookup (t : VgHashTable) (h : heap) (k : Z) : outcome Z :=
  chain ← CHAIN_NO k (n_chains t);
  curr ← arr_get (chains t) chain;
  find_in (size h) (fun _ nd => k =? key nd) h curr.

Definition HT_gen_lookup (t : VgHashTable) (h : heap) (node : Z) (cmp : Z -> Z -> Z) : outcome Z :=
  hnode ← load h node;
  chain ← CHAIN_NO (key hnode) (n_chains t);
  curr ← arr_get (chains t) chain;
  find_in (size h) (fun curr nd => (key hnode =? key nd) && (cmp node curr =? 0)) h curr.

(** The walk of HT_remove and HT_gen_remove. [prev_next_ptr] points to the link
    that leads to [curr]: the head of the chain ([None]) or the [next] of a node. *)
Definition store_link (cs : list Z) (h : heap) (chain : Z) (prev : option Z) (q : Z) : outcome (list Z * heap) :=
  match prev with
  | None => cs ← arr_set cs chain q; Ret (cs, h)
  | Some p => h ← set_next h p q; Ret (cs, h)
  end.

Fixpoint unlink (fuel : nat) (found : Z -> VgHashNode -> bool) (t : VgHashTable) (h : heap)
    (chain : Z) (prev : option Z) (curr : Z) : outcome (Z * VgHashTable * heap) :=
  if curr =? 0 then Ret (0, t, h)
  else match fuel with
  | O => Fault OutOfFuel
  | S fuel =>
      nd ← load h curr;
      if found curr nd then
        s ← store_link (chains t) h chain prev (next nd);
        Ret (curr, set_n_elements (u32 (n_elements t - 1)) (set_chains s.1 t), s.2)
      else unlink fuel found t h chain (Some curr) (next nd)
  end.

Definition HT_remove (t : VgHashTable) (h : heap) (k : Z) : outcome (Z * VgHashTable * heap) :=
  chain ← CHAIN_NO k (n_chains t);
  curr ← arr_get (chains t) chain;
  let t := set_iter (iterNode t) (iterChain t) false t in
  unlink (size h) (fun _ nd => k =? key nd) t h chain None curr.

Definition HT_gen_remove (t : VgHashTable) (h : heap) (node : Z) (cmp : Z -> Z -> Z) :
    outcome (Z * VgHashTable * heap) :=
  hnode ← load h node;
  chain ← CHAIN_NO (key hnode) (n_chains t);
  curr ← arr_get (chains t) chain;
  let t := set_iter (iterNode t) (iterChain t) false t in
  unlink (size h) (fun curr nd => (key hnode =? key nd) && (cmp node curr =? 0)) t h chain None curr.

(** [arr] has room for [room] pointers; its written part is a list, the latest first. *)
Fixpoint array_chain (fuel : nat) (h : heap) (room node : Z) (arr : list Z) : outcome (list Z) :=
  if node =? 0 then Ret arr
  else match fuel with
  | O => Fault OutOfFuel
  | S fuel =>
      if Z.of_nat (length arr) <? room then
        nd ← load h node; array_chain fuel h room (next nd) (node :: arr)
      else Fault OutOfBounds
  end.

(** [None] is the NULL that an empty table gives. *)
Definition HT_to_array (t : VgHashTable) (h : heap) : outcome (option (list Z) * Z) :=
  let n_elems := n_elements t in
  if n_elems =? 0 then Ret (None, n_elems)
  else
    arr ← for_up 0 (n_chains t)
            (fun i arr => node ← arr_get (chains t) i; array_chain (size h) h n_elems node arr) [];
    _ ← vg_assert (Z.of_nat (length arr) =? n_elems);
    Ret (Some (reverse arr), n_elems).

Definition HT_ResetIter (t : VgHashTable) : VgHashTable := set_iter 0 0 true t.

(** The first chain that is not empty. *)
Fixpoint next_chain (cs : list Z) (ixs : list Z) : outcome (option (Z * Z)) :=
  match ixs with
  | [] => Ret None
  | i :: ixs => c ← arr_get cs i; if c =? 0 then next_chain cs ixs else Ret (Some (i, c))
  end.

Definition HT_Next (t : VgHashTable) (h : heap) : outcome (Z * VgHashTable) :=
  _ ← vg_assert (iterOK t);
  q ← (if iterNode t =? 0 then Ret 0 else nd ← load h (iterNode t); Ret (next nd));
  if negb (q =? 0) then Ret (q, set_iter q (iterChain t) (iterOK t) t)
  else
    r ← next_chain (chains t) (seqZ (iterChain t) (n_chains t - iterChain t));
    match r with
    | Some (i, c) => Ret (c, set_iter c (i + 1) (iterOK t) t)
    | None => Ret (0, t)
    end.

(** [while (prev->next != node) prev = prev->next]. *)
Fixpoint find_prev (fuel : nat) (h : heap) (node prev : Z) : outcome Z :=
  nd ← load h prev;
  if next nd =? node then Ret prev
  else match fuel with
  | O => Fault OutOfFuel
  | S fuel => find_prev fuel h node (next nd)
  end.

Definition HT_remove_at_Iter (t : VgHashTable) (h : heap) : outcome (VgHashTable * heap) :=
  _ ← vg_assert (iterOK t);
  _ ← vg_assert (negb (iterNode t =? 0));
  let curChain := u32 (iterChain t - 1) in
  first ← arr_get (chains t) curChain;
  r ← (if first =? iterNode t then
         nd ← load h (iterNode t);
         cs ← arr_set (chains t) curChain (next nd);
         Ret (set_iter 0 curChain (iterOK t) (set_chains cs t), h)
       else
         prev ← find_prev (size h) h (iterNode t) first;
         nd ← load h (iterNode t);
         h ← set_next h prev (next nd);
         Ret (set_iter prev (iterChain t) (iterOK t) t, h));
  Ret (set_n_elements (u32 (n_elements t - 1)) r.1, r.2).

(** The nodes handed to [freenode_fn], which takes them out of the heap. *)
Fixpoint free_chain (fuel : nat) (node : Z) (s : heap * list Z) : outcome (heap * list Z) :=
  if node =? 0 then Ret s
  else match fuel with
  | O => Fault OutOfFuel
  | S fuel => nd ← load s.1 node; free_chain fuel (next nd) (delete node s.1, node :: s.2)
  end.

Definition HT_destruct (t : VgHashTable) (h : heap) : outcome (heap * list Z) :=
  for_up 0 (n_chains t) (fun i s => node ← arr_get (chains t) i; free_chain (size h) node s) (h, []).

(** * Lemmas *)

(** ** Chains in the heap *)

(** From [p] the heap leads through the nodes [l] to NULL. *)
Fixpoint linked (h : heap) (p : Z) (l : list Z) : Prop :=
  match l with
  | [] => p = 0
  | a :: l => p = a ∧ a ≠ 0 ∧ ∃ n, h !! a = Some n ∧ linked h (next n) l
  end.

(** The last link of a list of nodes that starts at [p] and goes on at [q]. *)
Fixpoint segment (h : heap) (p : Z) (l : list Z) (q : Z) : Prop :=
  match l with
  | [] => p = q
  | a :: l => p = a ∧ a ≠ 0 ∧ ∃ n, h !! a = Some n ∧ segment h (next n) l q
  end.

Definition nodes_of (h : heap) (l : list Z) : Prop := ∀ a, a ∈ l -> a ≠ 0 ∧ is_Some (h !! a).

(** Same nodes with the same keys. *)
Definition same_keys (h h' : heap) : Prop := ∀ a, key <$> h !! a = key <$> h' !! a.

#[export] Instance same_keys_equiv : Equivalence same_keys.
Proof.
  split; [intros h a; done|intros h h' Hh a; by rewrite Hh|].
  intros h1 h2 h3 H12 H23 a. by rewrite (H12 a).
Qed.

Section Chains.
Implicit Types (h : heap) (p q a : Z) (l : list Z).

Lemma load_ok h a n : a ≠ 0 -> h !! a = Some n -> load h a = Ret n.
Proof. intros Ha Hn. unfold load. case_bool; [done|]. by rewrite Hn. Qed.

Lemma set_next_ok h a n q : a ≠ 0 -> h !! a = Some n -> set_next h a q = Ret (<[a := Node q (key n)]> h).
Proof. intros. unfold set_next. by erewrite load_ok. Qed.

Lemma linked_app h p l1 l2 : linked h p (l1 ++ l2) <-> ∃ q, segment h p l1 q ∧ linked h q l2.
Proof.
  revert p. induction l1 as [|a l1 IH]; intros p; simpl.
  - split; [by exists p|]. by intros (q & -> & ?).
  - split.
    + intros (-> & Ha & n & Hn & (q & ? & ?)%IH). exists q. eauto 10.
    + intros (q & (-> & Ha & n & Hn & ?) & ?). split; [done|]. split; [done|]. exists n. rewrite IH. eauto.
Qed.

Lemma linked_nodes h p l : linked h p l -> nodes_of h l.
Proof.
  revert p. induction l as [|a l IH]; intros p; [intros _ ? ?; set_solver|].
  intros (-> & Ha & n & Hn & Hl) b [->|Hb]%elem_of_cons; [eauto|]. by eapply IH.
Qed.

Lemma linked_frame h p l a n : a ∉ l -> linked h p l -> linked (<[a := n]> h) p l.
Proof.
  revert p. induction l as [|b l IH]; intros p Hnl; [done|]. intros (-> & Hb & m & Hm & Hl).
  split; [done|]. split; [done|]. exists m. rewrite lookup_insert_ne by set_solver. split; [done|].
  apply IH; [set_solver|done].
Qed.

Lemma segment_frame h p l q a n : a ∉ l -> segment h p l q -> segment (<[a := n]> h) p l q.
Proof.
  revert p. induction l as [|b l IH]; intros p Hnl; [done|]. intros (-> & Hb & m & Hm & Hl).
  split; [done|]. split; [done|]. exists m. rewrite lookup_insert_ne by set_solver. split; [done|].
  apply IH; [set_solver|done].
Qed.

(** Turn the last link of a segment elsewhere. *)
Lemma segment_relink h p l a n q q' :
  a ∉ l -> h !! a = Some n -> segment h p (l ++ [a]) q ->
  segment (<[a := Node q' (key n)]> h) p (l ++ [a]) q'.
Proof.
  revert p. induction l as [|b l IH]; intros p Hnl Hn; simpl.
  - intros (-> & Ha & _). split; [done|]. split; [done|]. eexists. by rewrite lookup_insert_eq.
  - intros (-> & Hb & m & Hm & Hs). split; [done|]. split; [done|]. exists m.
    rewrite lookup_insert_ne by set_solver. split; [done|]. apply IH; [set_solver|done..].
Qed.

Lemma segment_last h p l a q n : segment h p (l ++ [a]) q -> h !! a = Some n -> next n = q.
Proof.
  revert p. induction l as [|b l IH]; intros p; simpl.
  - intros (_ & _ & m & Hm & ?) Hn. by simplify_eq.
  - intros (_ & _ & m & _ & Hs) Hn. by eapply IH.
Qed.

Lemma linked_head h p l : linked h p l -> (p = 0 <-> l = []).
Proof. destruct l; simpl; [naive_solver|]. intros (-> & ? & _). naive_solver. Qed.

Lemma same_keys_insert h a n q : h !! a = Some n -> same_keys h (<[a := Node q (key n)]> h).
Proof.
  intros Hn b. destruct (decide (b = a)) as [->|?]; [by rewrite lookup_insert_eq, Hn|].
  by rewrite lookup_insert_ne.
Qed.

Lemma same_keys_lookup h h' a n : same_keys h h' -> h !! a = Some n -> ∃ n', h' !! a = Some n' ∧ key n' = key n.
Proof.
  intros Hk Hn. specialize (Hk a). rewrite Hn in Hk. simpl in Hk.
  destruct (h' !! a) as [n'|]; [|done]. exists n'. simpl in Hk. split; [done|congruence].
Qed.

Lemma same_keys_size h h' : same_keys h h' -> size h = size h'.
Proof.
  intros Hk. rewrite <- !size_dom. f_equal. apply set_eq. intros a. rewrite !elem_of_dom.
  specialize (Hk a). destruct (h !! a), (h' !! a); simpl in *; try done; by split; intros [? ?].
Qed.

(** A list of distinct nodes is no longer than the heap, which bounds every walk. *)
Lemma nodes_size h l : nodes_of h l -> NoDup l -> (length l <= size h)%nat.
Proof.
  intros Hn Hl. rewrite <- size_dom, <- (size_list_to_set (C := gset Z) l) by done.
  apply subseteq_size. intros a Ha%elem_of_list_to_set. apply elem_of_dom, Hn, Ha.
Qed.

End Chains.

(** ** Buckets

    [buckets h n cs ls]: the [n] heads [cs] lead to the chains [ls], which have no
    node twice, and a node is in the chain of its key. *)

Record buckets (h : heap) (n : Z) (cs : list Z) (ls : list (list Z)) : Prop := Buckets {
  b_linked : Forall2 (linked h) cs ls;
  b_n : n = Z.of_nat (length ls);
  b_keys : ∀ i l a nd, ls !! i = Some l -> a ∈ l -> h !! a = Some nd -> key nd mod n = Z.of_nat i;
  b_nodup : NoDup (concat ls) }.

Section Concat.
Context {A : Type}.
Implicit Types (ls : list (list A)) (l : list A).

Lemma concat_delete ls i l : ls !! i = Some l -> concat ls ≡ₚ l ++ concat (delete i ls).
Proof.
  revert i. induction ls as [|k ls IH]; intros [|i] Hi; simplify_eq/=; [done|].
  rewrite (IH _ Hi). by rewrite !app_assoc, (Permutation_app_comm k l).
Qed.

Lemma concat_insert ls i l l' : ls !! i = Some l -> concat (<[i := l']> ls) ≡ₚ l' ++ concat (delete i ls).
Proof.
  revert i. induction ls as [|k ls IH]; intros [|i] Hi; simplify_eq/=; [done|].
  rewrite (IH _ Hi). by rewrite !app_assoc, (Permutation_app_comm k l').
Qed.

Lemma elem_of_concat_lookup ls a : a ∈ concat ls <-> ∃ i l, ls !! i = Some l ∧ a ∈ l.
Proof.
  rewrite list_elem_of_In, in_concat. split.
  - intros (l & [i Hi]%list_elem_of_In%list_elem_of_lookup & Ha%list_elem_of_In). eauto.
  - intros (i & l & Hi & Ha). exists l. split; apply list_elem_of_In; [|done].
    by eapply list_elem_of_lookup_2.
Qed.

(** Two chains of a table share no node. *)
Lemma concat_disjoint ls i j l k a :
  NoDup (concat ls) -> ls !! i = Some l -> ls !! j = Some k -> a ∈ l -> a ∈ k -> i = j.
Proof.
  intros Hn Hi Hj Hl Hk. destruct (decide (i = j)) as [|Hne]; [done|].
  rewrite (concat_delete ls i l Hi) in Hn. apply NoDup_app in Hn as (_ & Hd & _).
  destruct (Hd a Hl). apply elem_of_concat_lookup.
  exists (if decide (j < i)%nat then j else pred j), k. split; [|done].
  case_decide; [by rewrite list_lookup_delete_lt|].
  rewrite list_lookup_delete_ge by lia. by replace (S (pred j)) with j by lia.
Qed.

End Concat.

Section Buckets.
Implicit Types (h : heap) (cs l : list Z) (ls : list (list Z)) (a p n : Z).

(** A chain only depends on its own nodes. *)
Lemma linked_ext h h' p l : (∀ a, a ∈ l -> h' !! a = h !! a) -> linked h p l -> linked h' p l.
Proof.
  revert p. induction l as [|a l IH]; intros p He; [done|]. intros (-> & Ha & n & Hn & Hl).
  split; [done|]. split; [done|]. exists n. rewrite He by set_solver. split; [done|].
  apply IH; [set_solver|done].
Qed.

Lemma bucket_of h n cs ls k : buckets h n cs ls -> 0 < n ->
  ∃ i p l, k mod n = Z.of_nat i ∧ cs !! i = Some p ∧ ls !! i = Some l ∧ linked h p l ∧
    CHAIN_NO k n = Ret (Z.of_nat i) ∧ arr_get cs (Z.of_nat i) = Ret p.
Proof.
  intros [Hl Hn _ _] H0. pose proof (Z.mod_pos_bound k n H0) as Hm. set (i := Z.to_nat (k mod n)).
  assert (k mod n = Z.of_nat i) as Hi by (unfold i; lia).
  destruct (lookup_lt_is_Some_2 ls i) as [l Hls]; [lia|].
  destruct (Forall2_lookup_r _ _ _ _ _ Hl Hls) as (p & Hp & Hlk).
  exists i, p, l. repeat split; try done.
  - unfold CHAIN_NO. case_bool; [lia|]. by rewrite Hi.
  - apply arr_get_Some; [lia|]. by rewrite Nat2Z.id.
Qed.

Lemma buckets_nodes h n cs ls a : buckets h n cs ls -> a ∈ concat ls -> a ≠ 0 ∧ is_Some (h !! a).
Proof.
  intros Hb (i & l & Hi & Ha)%elem_of_concat_lookup.
  destruct (Forall2_lookup_r _ _ _ _ _ (b_linked _ _ _ _ Hb) Hi) as (p & _ & Hl).
  by apply (linked_nodes h p l Hl).
Qed.

(** Replace a chain: the other chains keep their nodes. *)
Lemma buckets_update h h' n cs ls i p l l' :
  buckets h n cs ls -> ls !! i = Some l ->
  same_keys h h' ->
  (∀ j k a, j ≠ i -> ls !! j = Some k -> a ∈ k -> h' !! a = h !! a) ->
  linked h' p l' -> NoDup (concat (<[i := l']> ls)) ->
  (∀ a nd, a ∈ l' -> h !! a = Some nd -> key nd mod n = Z.of_nat i) ->
  buckets h' n (<[i := p]> cs) (<[i := l']> ls).
Proof.
  intros [Hl Hn Hk Hnd] Hi Hsk He Hl' Hnd' Hk'. split; [|by rewrite length_insert| |done].
  - apply Forall2_same_length_lookup. split; [by rewrite !length_insert; eapply Forall2_length|].
    intros j q k. rewrite !list_lookup_insert_Some.
    intros [(<- & <- & _)|[Hne Hq]] [(Hji & <- & _)|[Hne2 Hk2]]; try done.
    eapply linked_ext; [intros a Ha; by eapply (He j k a)|].
    by eapply Forall2_lookup_lr.
  - intros j k a nd Hj Ha Hnda. destruct (same_keys_lookup h' h a nd) as (nd' & Hnd2 & <-); [by symmetry|done|].
    apply list_lookup_insert_Some in Hj as [(<- & <- & _)|[Hne Hj]]; [by eapply Hk'|by eapply Hk].
Qed.

(** Putting a node in front of its chain, as HT_add_node and resize do. *)
Lemma buckets_push h n cs ls a nd :
  buckets h n cs ls -> 0 < n -> a ≠ 0 -> h !! a = Some nd -> a ∉ concat ls ->
  ∃ c first ls', CHAIN_NO (key nd) n = Ret c ∧ arr_get cs c = Ret first ∧
    set_next h a first = Ret (<[a := Node first (key nd)]> h) ∧
    arr_set cs c a = Ret (<[Z.to_nat c := a]> cs) ∧
    buckets (<[a := Node first (key nd)]> h) n (<[Z.to_nat c := a]> cs) ls' ∧
    concat ls' ≡ₚ a :: concat ls.
Proof.
  intros Hb Hn Ha Hnd Hna. destruct (bucket_of h n cs ls (key nd) Hb Hn) as (i & p & l & Hm & Hp & Hl & Hlk & Hc & Hg).
  assert (concat (<[i := a :: l]> ls) ≡ₚ a :: concat ls) as Hperm.
  { by rewrite (concat_insert _ _ l), (concat_delete ls i l). }
  exists (Z.of_nat i), p, (<[i := a :: l]> ls). rewrite Nat2Z.id. split; [done|]. split; [done|].
  split; [by apply set_next_ok|]. split; [rewrite arr_set_in_range; [by rewrite Nat2Z.id|]|].
  { apply lookup_lt_Some in Hp. lia. }
  split; [|done].
  assert (∀ k, k ∈ ls -> a ∉ k) as Hnk.
  { intros k [j Hj]%list_elem_of_lookup Hk. apply Hna, elem_of_concat_lookup. eauto. }
  eapply buckets_update; [done|done|by apply same_keys_insert| | | |].
  - intros j k b Hj Hk Hb'. rewrite lookup_insert_ne; [done|]. intros <-.
    eapply Hnk; [|done]. by eapply list_elem_of_lookup_2.
  - split; [done|]. split; [done|]. exists (Node p (key nd)). rewrite lookup_insert_eq. split; [done|].
    apply linked_frame; [|done]. eapply Hnk, list_elem_of_lookup_2, Hl.
  - rewrite Hperm. constructor; [done|]. by destruct Hb.
  - intros b nd' [->|Hb']%elem_of_cons Hnd'; [by simplify_eq|]. by eapply (b_keys _ _ _ _ Hb).
Qed.

(** Taking a node out of its chain through the link that leads to it. *)
Lemma buckets_unlink h n cs ls i l1 a l2 nd :
  buckets h n cs ls -> ls !! i = Some (l1 ++ a :: l2) -> h !! a = Some nd ->
  ∃ cs' h', store_link cs h (Z.of_nat i) (last l1) (next nd) = Ret (cs', h') ∧
    buckets h' n cs' (<[i := l1 ++ l2]> ls) ∧ same_keys h h' ∧ length cs' = length cs ∧
    (∀ b, b ∉ l1 -> h' !! b = h !! b).
Proof.
  intros Hb Hi Hnd.
  destruct (Forall2_lookup_r _ _ _ _ _ (b_linked _ _ _ _ Hb) Hi) as (p & Hp & Hlk).
  apply linked_app in Hlk as (q & Hs & (-> & Ha & nd' & Hnd' & Hl2)). simplify_eq.
  assert (NoDup ((l1 ++ a :: l2) ++ concat (delete i ls))) as Hn.
  { rewrite <- concat_delete by done. by destruct Hb. }
  assert (NoDup (l1 ++ a :: l2)) as Hnl by (by apply NoDup_app in Hn as (? & _ & _)).
  assert (NoDup (concat (<[i := l1 ++ l2]> ls))) as Hn'.
  { rewrite (concat_insert _ _ _ _ Hi). rewrite <- app_assoc in *. cbn [app] in Hn.
    rewrite <- Permutation_middle in Hn. by apply NoDup_cons in Hn as [_ ?]. }
  assert (∀ b nb, b ∈ l1 ++ l2 -> h !! b = Some nb -> key nb mod n = Z.of_nat i) as Hk.
  { intros b nb Hbl. eapply (b_keys _ _ _ _ Hb); [done|]. set_solver. }
  destruct l1 as [|b l1 _] using rev_ind.
  - exists (<[i := next nd]> cs), h. cbn [last store_link app] in *.
    rewrite arr_set_in_range, Nat2Z.id by (apply lookup_lt_Some in Hp; lia).
    split; [done|]. split; [|by rewrite length_insert].
    by eapply buckets_update.
  - rewrite last_snoc in *. cbn [store_link].
    assert (b ≠ 0 ∧ is_Some (h !! b)) as [Hb0 [nb Hnb]].
    { eapply buckets_nodes; [done|]. apply elem_of_concat_lookup. exists i, ((l1 ++ [b]) ++ a :: l2).
      split; [done|set_solver]. }
    exists cs, (<[b := Node (next nd) (key nb)]> h). rewrite (set_next_ok h b nb) by done.
    split; [done|]. split; [|split; [by apply same_keys_insert|split; [done|]]].
    + rewrite <- (list_insert_id cs i p) by done.
      rewrite <- !app_assoc in Hnl. cbn [app] in Hnl.
      assert (b ∉ l1 ∧ b ∉ l2) as [Hb1 Hb2].
      { rewrite <- Permutation_middle in Hnl. apply NoDup_cons in Hnl as [Hbn _]. set_solver. }
      eapply buckets_update; [done|done|by apply same_keys_insert| | |done|done].
      * intros j k c Hj Hjk Hck. apply lookup_insert_ne. intros <-. apply Hj.
        eapply (concat_disjoint ls j i); [by destruct Hb|done|done|done|set_solver].
      * apply linked_app. exists (next nd). split; [|by apply linked_frame].
        by eapply segment_relink.
    + intros c Hc. apply lookup_insert_ne. set_solver.
Qed.

End Buckets.

(** ** Tables *)

Definition last_prime : Z := 402653189.

Record table_ok (h : heap) (t : VgHashTable) (ls : list (list Z)) : Prop := TableOk {
  t_buckets : buckets h (n_chains t) (chains t) ls;
  t_prime : n_chains t ∈ primes;
  t_count : n_elements t = Z.of_nat (length (concat ls));
  t_room : n_elements t < 2 ^ 32;
  t_load : n_elements t <= n_chains t ∨ n_chains t = last_prime }.

(** The table holds exactly the nodes [S]. *)
Definition holds (h : heap) (t : VgHashTable) (S : gset Z) : Prop :=
  ∃ ls, table_ok h t ls ∧ list_to_set (concat ls) = S.

Section Walks.
Implicit Types (h : heap) (cs l : list Z) (ls : list (list Z)) (a p n : Z) (found : Z -> VgHashNode -> bool).

Definition none_found h found l : Prop := ∀ a nd, a ∈ l -> h !! a = Some nd -> found a nd = false.

Lemma find_in_ok found h p l fuel :
  linked h p l -> (length l <= fuel)%nat ->
  (find_in fuel found h p = Ret 0 ∧ none_found h found l) ∨
  (∃ a nd, find_in fuel found h p = Ret a ∧ a ∈ l ∧ a ≠ 0 ∧ h !! a = Some nd ∧ found a nd = true).
Proof.
  revert p fuel. induction l as [|a l IH]; intros p fuel; cbn [linked length].
  - intros -> _. left. split; [by destruct fuel|]. intros ? ? ?. set_solver.
  - intros (-> & Ha & nd & Hnd & Hl) Hf. destruct fuel as [|fuel]; [lia|]. cbn [find_in].
    replace (a =? 0) with false by lia. erewrite load_ok by done. cbn [mbind outcome_bind].
    destruct (found a nd) eqn:Hfd; [right; exists a, nd; set_solver|].
    destruct (IH (next nd) fuel Hl ltac:(lia)) as [[-> Hn]|(b & nb & -> & ? & ? & ? & ?)].
    + left. split; [done|]. intros b nb [->|Hb]%elem_of_cons Hnb; [by simplify_eq|by eapply Hn].
    + right. exists b, nb. set_solver.
Qed.

Lemma unlink_walk found t h chain l1 curr l fuel :
  linked h curr l -> (length l <= fuel)%nat ->
  (unlink fuel found t h chain (last l1) curr = Ret (0, t, h) ∧ none_found h found l) ∨
  (∃ r1 a r2 nd, l = r1 ++ a :: r2 ∧ h !! a = Some nd ∧ a ≠ 0 ∧ found a nd = true ∧
     unlink fuel found t h chain (last l1) curr =
     s ← store_link (chains t) h chain (last (l1 ++ r1)) (next nd);
     Ret (a, set_n_elements (u32 (n_elements t - 1)) (set_chains s.1 t), s.2)).
Proof.
  revert l1 curr fuel. induction l as [|a l IH]; intros l1 curr fuel; cbn [linked length].
  - intros -> _. left. split; [by destruct fuel|]. intros ? ? ?. set_solver.
  - intros (-> & Ha & nd & Hnd & Hl) Hf. destruct fuel as [|fuel]; [lia|]. cbn [unlink].
    replace (a =? 0) with false by lia. erewrite load_ok by done. cbn [mbind outcome_bind].
    destruct (found a nd) eqn:Hfd.
    + right. exists [], a, l, nd. rewrite app_nil_r. done.
    + replace (Some a) with (last (l1 ++ [a])) by apply last_snoc.
      destruct (IH (l1 ++ [a]) (next nd) fuel Hl ltac:(lia)) as [[-> Hn]|(r1 & b & r2 & nb & -> & ? & ? & ? & ->)].
      * left. split; [done|]. intros b nb [->|Hb]%elem_of_cons Hnb; [by simplify_eq|by eapply Hn].
      * right. exists (a :: r1), b, r2, nb. by rewrite <- app_assoc.
Qed.

(** The node of an element of a chain, and the length of a chain. *)
Lemma chain_length h n cs ls i l : buckets h n cs ls -> ls !! i = Some l -> (length l <= size h)%nat.
Proof.
  intros Hb Hi. apply nodes_size.
  - destruct (Forall2_lookup_r _ _ _ _ _ (b_linked _ _ _ _ Hb) Hi) as (p & _ & Hl). by eapply linked_nodes.
  - destruct Hb as [_ _ _ Hn]. rewrite (concat_delete _ _ _ Hi) in Hn. by apply NoDup_app in Hn as (? & _ & _).
Qed.

Lemma primes_pos n : n ∈ primes -> 769 <= n <= last_prime.
Proof.
  intros Hn. assert (Forall (fun n => 769 <= n <= last_prime) primes) as Hall by (repeat constructor; done).
  rewrite Forall_forall in Hall. by apply Hall.
Qed.

(** A node in the table with the key of a chain is in that chain. *)
Lemma in_chain h n cs ls k i l a nd :
  buckets h n cs ls -> k mod n = Z.of_nat i -> ls !! i = Some l ->
  a ∈ concat ls -> h !! a = Some nd -> key nd = k -> a ∈ l.
Proof.
  intros Hb Hm Hi (j & l' & Hj & Ha)%elem_of_concat_lookup Hnd <-.
  rewrite (b_keys _ _ _ _ Hb j l' a nd Hj Ha Hnd) in Hm. by assert (j = i) as -> by lia; simplify_eq.
Qed.

End Walks.

Section Tables.
Implicit Types (h : heap) (t : VgHashTable) (ls : list (list Z)) (S : gset Z).

Lemma holds_nodes h t S a : holds h t S -> a ∈ S -> a ≠ 0 ∧ is_Some (h !! a).
Proof.
  intros (ls & Hok & <-) Ha%elem_of_list_to_set. eapply buckets_nodes; [|done]. by destruct Hok.
Qed.

Lemma holds_size h t S : holds h t S -> n_elements t = Z.of_nat (size S).
Proof.
  intros (ls & [[_ _ _ Hn] _ -> _ _] & <-). by rewrite size_list_to_set.
Qed.

(** ** Lookup *)

(** What [HT_lookup] ([cmp] always 0) and [HT_gen_lookup] have to find. *)
Definition matches h S (k : Z) (same : Z -> bool) (a : Z) : Prop :=
  a ∈ S ∧ same a = true ∧ ∃ nd, h !! a = Some nd ∧ key nd = k.

Lemma chain_lookup_ok h t S k (same : Z -> bool) (found : Z -> VgHashNode -> bool) :
  holds h t S -> (∀ a nd, found a nd = (k =? key nd) && same a) ->
  ∃ r, (chain ← CHAIN_NO k (n_chains t); curr ← arr_get (chains t) chain; find_in (size h) found h curr) = Ret r ∧
    (r = 0 ∧ (∀ a, ¬ matches h S k same a) ∨ r ≠ 0 ∧ matches h S k same r).
Proof.
  intros (ls & [Hb Hp _ _ _] & <-) Hf. apply primes_pos in Hp.
  destruct (bucket_of _ _ _ _ k Hb ltac:(lia)) as (i & p & l & Hm & _ & Hl & Hlk & -> & Hg).
  cbn [mbind outcome_bind]. rewrite Hg. cbn [mbind outcome_bind].
  destruct (find_in_ok found h p l (size h) Hlk) as [[-> Hn]|(a & nd & -> & Ha & ? & Hnd & Hfd)];
    [by eapply chain_length| |].
  - exists 0. split; [done|]. left. split; [done|].
    intros a (Ha%elem_of_list_to_set & Hs & nd & Hnd & Hk).
    assert (found a nd = false) as Hfd by (eapply Hn; [by eapply in_chain|done]).
    rewrite Hf, Hs, Hk, Z.eqb_refl in Hfd. done.
  - exists a. split; [done|]. right. split; [done|]. rewrite Hf in Hfd. b2p. split.
    + apply elem_of_list_to_set, elem_of_concat_lookup. eauto.
    + split; [done|]. exists nd. done.
Qed.

(** ** Removal *)

Lemma table_drop h h' t ls i l1 a l2 cs' ok c it :
  table_ok h t ls -> ls !! i = Some (l1 ++ a :: l2) ->
  buckets h' (n_chains t) cs' (<[i := l1 ++ l2]> ls) ->
  table_ok h' (set_n_elements (u32 (n_elements t - 1)) (set_iter it c ok (set_chains cs' t))) (<[i := l1 ++ l2]> ls) ∧
  concat ls ≡ₚ a :: concat (<[i := l1 ++ l2]> ls).
Proof.
  intros [Hb Hp Hc Hr Hld] Hi Hb'.
  assert (concat ls ≡ₚ a :: concat (<[i := l1 ++ l2]> ls)) as Hperm.
  { rewrite (concat_delete _ _ _ Hi), (concat_insert _ _ _ _ Hi). rewrite <- app_assoc. cbn [app].
    by rewrite <- Permutation_middle, app_assoc. }
  split; [|done]. pose proof (Permutation_length Hperm) as Hlen. cbn [length] in Hlen.
  assert (u32 (n_elements t - 1) = n_elements t - 1) as Hu by (apply wrap_small; lia).
  split; cbn; rewrite ?Hu; [done|done|lia|lia|]. lia.
Qed.

Lemma chain_remove_ok h t S k (same : Z -> bool) (found : Z -> VgHashNode -> bool) :
  holds h t S -> (∀ a nd, found a nd = (k =? key nd) && same a) ->
  ∃ r t' h', (chain ← CHAIN_NO k (n_chains t); curr ← arr_get (chains t) chain;
     unlink (size h) found (set_iter (iterNode t) (iterChain t) false t) h chain None curr) = Ret (r, t', h') ∧
    iterOK t' = false ∧ same_keys h h' ∧
    (r = 0 ∧ h' = h ∧ holds h t' S ∧ (∀ a, ¬ matches h S k same a) ∨
     r ≠ 0 ∧ matches h S k same r ∧ holds h' t' (S ∖ {[r]})).
Proof.
  intros (ls & Hok & <-) Hf. pose proof Hok as [Hb Hp Hct Hr Hld]. apply primes_pos in Hp.
  destruct (bucket_of _ _ _ _ k Hb ltac:(lia)) as (i & p & l & Hm & _ & Hl & Hlk & -> & Hg).
  cbn [mbind outcome_bind]. rewrite Hg. cbn [mbind outcome_bind].
  pose proof (unlink_walk found (set_iter (iterNode t) (iterChain t) false t) h (Z.of_nat i) [] p l (size h) Hlk
    ltac:(by eapply chain_length)) as Hw. cbn [last app] in Hw.
  destruct Hw as [[-> Hn]|(r1 & a & r2 & nd & -> & Hnd & Ha0 & Hfd & ->)].
  - eexists 0, _, h. split; [done|]. split; [done|]. split; [done|]. left. split; [done|]. split; [done|]. split.
    + exists ls. by split; [destruct Hok|].
    + intros a (Ha%elem_of_list_to_set & Hs & nd & Hnd & Hk).
      assert (found a nd = false) as Hfd by (eapply Hn; [by eapply in_chain|done]).
      rewrite Hf, Hs, Hk, Z.eqb_refl in Hfd. done.
  - destruct (buckets_unlink _ _ _ _ i r1 a r2 nd Hb Hl Hnd) as (cs' & h' & Hs & Hb' & Hsk & _ & _).
    cbn [chains set_iter app]. rewrite Hs. cbn [mbind outcome_bind].
    eexists a, _, h'. split; [done|]. split; [done|]. split; [done|]. right. split; [done|]. rewrite Hf in Hfd. b2p.
    destruct (table_drop h h' t ls i r1 a r2 cs' false (iterChain t) (iterNode t) Hok Hl Hb') as [Hok' Hperm].
    split.
    + split; [|by eauto]. apply elem_of_list_to_set. rewrite Hperm. set_solver.
    + exists (<[i:=r1 ++ r2]> ls). split; [done|]. apply set_eq. intros b.
      rewrite elem_of_difference, !elem_of_list_to_set, Hperm, elem_of_cons, elem_of_singleton.
      pose proof (b_nodup _ _ _ _ Hb) as Hnd2. rewrite Hperm in Hnd2. apply NoDup_cons in Hnd2 as [Hni _].
      naive_solver.
Qed.

End Tables.

(** ** Resizing and insertion *)

Section Resize.
Implicit Types (h : heap) (t : VgHashTable) (cs l : list Z) (ls : list (list Z)) (S : gset Z) (n : Z).

Lemma empty_buckets h n : 0 <= n -> buckets h n (repeat 0 (Z.to_nat n)) (repeat [] (Z.to_nat n)).
Proof.
  intros Hn. assert (∀ k, concat (repeat (@nil Z) k) = []) as Hc by (by induction k).
  split; [|by rewrite repeat_length; lia| |by rewrite Hc; constructor].
  - generalize (Z.to_nat n) as k. induction k; constructor; done.
  - intros i l a nd Hi Ha. apply list_elem_of_lookup_2, list_elem_of_In, repeat_spec in Hi as ->. set_solver.
Qed.

(** The old chain [l] moves to the new chains; nothing else changes. *)
Lemma rehash_ok n l : 0 < n -> ∀ fuel node h cs ls,
  buckets h n cs ls -> linked h node l -> NoDup (l ++ concat ls) -> (length l <= fuel)%nat ->
  ∃ h' cs' ls', rehash fuel n node (h, cs) = Ret (h', cs') ∧ buckets h' n cs' ls' ∧
    concat ls' ≡ₚ l ++ concat ls ∧ same_keys h h' ∧ (∀ a, a ∉ l -> h' !! a = h !! a).
Proof.
  intros Hn. induction l as [|a l IH]; intros fuel node h cs ls Hb; cbn [linked app length].
  - intros -> _ _. exists h, cs, ls. split; [by destruct fuel|]. done.
  - intros (-> & Ha & nd & Hnd & Hl) [Hna Hnl]%NoDup_cons Hf. destruct fuel as [|fuel]; [lia|].
    cbn [rehash fst snd]. replace (a =? 0) with false by lia. erewrite load_ok by done. cbn [mbind outcome_bind].
    destruct (buckets_push h n cs ls a nd Hb Hn Ha Hnd) as (c & first & ls1 & -> & Hg & Hs & Hset & Hb1 & Hp1);
      [set_solver|]. cbn [mbind outcome_bind fst snd]. rewrite Hg. cbn [mbind outcome_bind]. rewrite Hs. cbn [mbind outcome_bind].
    rewrite Hset. cbn [mbind outcome_bind].
    destruct (IH fuel (next nd) _ _ ls1 Hb1) as (h' & cs' & ls' & -> & Hb' & Hp' & Hk' & He').
    + apply linked_frame; [set_solver|done].
    + rewrite Hp1, <- Permutation_middle. by constructor.
    + lia.
    + exists h', cs', ls'. split; [done|]. split; [done|]. split; [|split].
      * by rewrite Hp', Hp1, <- Permutation_middle.
      * etrans; [|done]. by apply same_keys_insert.
      * intros b Hb2. rewrite He' by set_solver. apply lookup_insert_ne. set_solver.
Qed.

Lemma concat_take_S ls i l : ls !! i = Some l ->
  concat (take (S i) ls) = concat (take i ls) ++ l.
Proof. intros Hi. by rewrite (take_S_r _ _ _ Hi), concat_app, concat_cons, app_nil_r. Qed.

Lemma find_prime_above n : n ∈ primes -> n ≠ last_prime ->
  n < find_prime primes (n + 1) <= last_prime ∧ 769 < find_prime primes (n + 1) ∧
  find_prime primes (n + 1) ∈ primes.
Proof.
  intros Hn Hne.
  assert (forallb (fun n => (n =? last_prime) || ((n <? find_prime primes (n + 1)) &&
    (find_prime primes (n + 1) <=? last_prime) && (769 <? find_prime primes (n + 1)) &&
    bool_decide (find_prime primes (n + 1) ∈ primes))) primes = true) as Hall by (vm_compute; reflexivity).
  rewrite forallb_forall in Hall. specialize (Hall n (proj1 (list_elem_of_In _ _) Hn)).
  apply orb_true_iff in Hall as [He|Hall]; [by b2p|]. apply andb_true_iff in Hall as [Hall Hin].
  b2p. split; [lia|]. split; [lia|]. by apply bool_decide_eq_true in Hin.
Qed.

Lemma resize_ok h t ls :
  buckets h (n_chains t) (chains t) ls -> n_chains t ∈ primes ->
  ∃ n cs h' ls', resize t h = Ret (Table n (n_elements t) (iterNode t) (iterChain t) (iterOK t) cs, h') ∧
    buckets h' n cs ls' ∧ concat ls' ≡ₚ concat ls ∧ same_keys h h' ∧ n ∈ primes ∧
    (n_chains t < n ∨ n = n_chains t ∧ n = last_prime).
Proof.
  intros Hb Hp. unfold resize. change (arr_get primes (N_HASH_PRIMES - 1)) with (Ret last_prime).
  change (arr_get primes 0) with (Ret 769). cbn [mbind outcome_bind].
  pose proof (primes_pos _ Hp). case_bool.
  { exists (n_chains t), (chains t), h, ls. repeat split; try done; [by destruct t|by apply Hb..|right; lia]. }
  destruct (find_prime_above _ Hp E) as (Hgt & H769 & Hin).
  set (n := find_prime primes (n_chains t + 1)) in *. clearbody n.
  unfold vg_assert. replace ((769 <=? n_chains t) && (n_chains t <? last_prime)) with true by lia.
  replace (n_chains t <? n) with true by lia. replace ((769 <? n) && (n <=? last_prime)) with true by lia.
  cbn [mbind outcome_bind].
  destruct (for_up_inv (fun i (s : heap * list Z) => ∃ ls', buckets s.1 n s.2 ls' ∧
      concat ls' ≡ₚ concat (take (Z.to_nat i) ls) ∧ same_keys h s.1 ∧
      (∀ a, a ∉ concat (take (Z.to_nat i) ls) -> s.1 !! a = h !! a)) 0 (n_chains t)
      (fun i s => node ← arr_get (chains t) i; rehash (size h) n node s)
      (h, repeat 0 (Z.to_nat n))) as ([h' cs'] & -> & ls' & Hb' & Hperm & Hsk & _).
  - lia.
  - exists (repeat [] (Z.to_nat n)). cbn. split; [apply empty_buckets; lia|]. split; [|done].
    by generalize (Z.to_nat n) as k; induction k.
  - intros i [h1 cs1] Hi (ls1 & Hb1 & Hp1 & Hk1 & He1). cbn [fst snd] in *.
    destruct (lookup_lt_is_Some_2 ls (Z.to_nat i)) as [l Hl]; [destruct Hb; lia|].
    destruct (Forall2_lookup_r _ _ _ _ _ (b_linked _ _ _ _ Hb) Hl) as (p & Hcp & Hlk).
    rewrite (arr_get_Some _ _ _ (proj1 Hi) Hcp). cbn [mbind outcome_bind].
    assert (NoDup (concat (take (Z.to_nat i) ls) ++ l)) as Hnd.
    { pose proof (b_nodup _ _ _ _ Hb) as Hn. rewrite <- (take_drop (S (Z.to_nat i)) ls), concat_app in Hn.
      apply NoDup_app in Hn as (Hn & _ & _). by rewrite (concat_take_S _ _ _ Hl) in Hn. }
    destruct (rehash_ok n l ltac:(lia) (size h) p h1 cs1 ls1 Hb1) as (h2 & cs2 & ls2 & -> & Hb2 & Hp2 & Hk2 & He2).
    + eapply linked_ext; [|done]. intros a Ha. apply He1. apply NoDup_app in Hnd as (_ & Hd & _). intros Hx. by apply (Hd a).
    + by rewrite Hp1, Permutation_app_comm.
    + by eapply chain_length.
    + eexists. split; [done|]. exists ls2. cbn [fst snd].
      replace (Z.to_nat (i + 1)) with (S (Z.to_nat i)) by lia. rewrite (concat_take_S _ _ _ Hl).
      split; [done|]. split; [by rewrite Hp2, Hp1, Permutation_app_comm|]. split; [by etrans|].
      intros a [Ha1 Ha2]%not_elem_of_app. by rewrite He2, He1.
  - cbn [mbind outcome_bind fst snd]. exists n, cs', h', ls'. split; [done|]. split; [done|]. split; [|eauto with lia].
    rewrite Hperm, take_ge; [done|]. destruct Hb; lia.
Qed.

Lemma add_node_ok h t S a nd :
  holds h t S -> a ≠ 0 -> h !! a = Some nd -> a ∉ S -> n_elements t + 1 < 2 ^ 32 ->
  ∃ t' h', HT_add_node t h a = Ret (t', h') ∧ holds h' t' ({[a]} ∪ S) ∧ same_keys h h' ∧ iterOK t' = false.
Proof.
  intros Hh Ha Hnd Hna Hsz. destruct Hh as (ls & [Hb Hp Hct Hr Hld] & <-). pose proof (primes_pos _ Hp).
  rewrite not_elem_of_list_to_set in Hna. unfold HT_add_node.
  rewrite (load_ok h a nd Ha Hnd). cbn [mbind outcome_bind].
  destruct (buckets_push h _ _ ls a nd Hb ltac:(lia) Ha Hnd Hna) as (c & first & ls1 & -> & Hg & Hs & Hset & Hb1 & Hp1).
  cbn [mbind outcome_bind]. rewrite Hg. cbn [mbind outcome_bind]. rewrite Hs. cbn [mbind outcome_bind].
  rewrite Hset. cbn [mbind outcome_bind].
  assert (u32 (n_elements t + 1) = n_elements t + 1) as -> by (apply wrap_small; lia).
  set (t1 := set_n_elements (n_elements t + 1) (set_chains (<[Z.to_nat c:=a]> (chains t)) t)).
  assert (length (concat ls1) = S (length (concat ls))) as Hlen by (by rewrite Hp1).
  pose proof (same_keys_insert h a nd first Hnd) as Hsk. case_bool; cbn in E.
  - destruct (resize_ok _ t1 ls1 Hb1 Hp)
      as (n & cs' & h' & ls' & Hres & Hb' & Hp' & Hk' & Hin & Hgt).
    rewrite Hres. cbn [mbind outcome_bind fst snd].
    eexists _, h'. split; [done|]. split; [|split; [by etrans|done]]. exists ls'. split.
    + subst t1. cbn in Hgt. pose proof (primes_pos _ Hin). split; cbn; [done|done|rewrite Hp'; lia|lia|]. lia.
    + apply set_eq. intros b. rewrite elem_of_list_to_set, Hp', Hp1. set_solver.
  - cbn [mbind outcome_bind fst snd]. eexists _, _. split; [done|]. split; [|split; [done|done]]. exists ls1.
    split; [|apply set_eq; intros b; rewrite elem_of_list_to_set, Hp1; set_solver]. subst t1. split; cbn; [done|done|lia|lia|]. lia.
Qed.

End Resize.

(** ** Iteration *)

(** What is still to be visited: from the node of the iterator on, or from the
    next chain on. *)
Definition at_pos (ls : list (list Z)) (t : VgHashTable) (rest : list Z) : Prop :=
  (iterNode t = 0 ∧ ∃ c : nat, iterChain t = Z.of_nat c ∧ (c <= length ls)%nat ∧ rest = concat (drop c ls)) ∨
  (∃ (c : nat) l1 l2, iterNode t ≠ 0 ∧ iterChain t = Z.of_nat c + 1 ∧
     ls !! c = Some (l1 ++ iterNode t :: l2) ∧ rest = l2 ++ concat (drop (S c) ls)).

Section Iterate.
Implicit Types (h : heap) (t : VgHashTable) (cs l rest : list Z) (ls : list (list Z)) (n : Z).

Lemma concat_drop {A} (ks : list (list A)) c k : ks !! c = Some k -> concat (drop c ks) = k ++ concat (drop (S c) ks).
Proof. intros Hk. by rewrite (drop_S _ _ _ Hk), concat_cons. Qed.

Lemma next_chain_ok h n cs ls k c :
  buckets h n cs ls -> (c + k = length ls)%nat ->
  (next_chain cs (seqZ (Z.of_nat c) (Z.of_nat k)) = Ret None ∧ concat (drop c ls) = []) ∨
  (∃ j p l, next_chain cs (seqZ (Z.of_nat c) (Z.of_nat k)) = Ret (Some (Z.of_nat j, p)) ∧ p ≠ 0 ∧
     ls !! j = Some (p :: l) ∧ concat (drop c ls) = p :: l ++ concat (drop (S j) ls)).
Proof.
  intros Hb. revert c. induction k as [|k IH]; intros c Hk.
  - left. split; [done|]. by rewrite drop_ge by lia.
  - destruct (lookup_lt_is_Some_2 ls c) as [l Hl]; [lia|].
    destruct (Forall2_lookup_r _ _ _ _ _ (b_linked _ _ _ _ Hb) Hl) as (p & Hp & Hlk).
    rewrite (concat_drop _ _ _ Hl), seqZ_cons by lia. cbn [next_chain].
    rewrite (arr_get_Some _ _ p) by (rewrite ?Nat2Z.id; first [lia|done]). cbn [mbind outcome_bind].
    replace (Z.succ (Z.of_nat c)) with (Z.of_nat (S c)) by lia.
    replace (Z.pred (Z.of_nat (S k))) with (Z.of_nat k) by lia.
    destruct l as [|a l]; cbn [linked] in Hlk; [subst p; apply IH; lia|].
    destruct Hlk as (-> & Ha & _). replace (a =? 0) with false by lia. right. by exists c, a, l.
Qed.

Lemma table_set_iter h t ls a c ok : table_ok h t ls -> table_ok h (set_iter a c ok t) ls.
Proof. by intros []. Qed.

Lemma HT_Next_ok h t ls rest :
  table_ok h t ls -> iterOK t = true -> at_pos ls t rest ->
  match rest with
  | [] => HT_Next t h = Ret (0, t)
  | p :: rest => ∃ c ok, HT_Next t h = Ret (p, set_iter p c ok t) ∧ ok = true ∧ p ≠ 0 ∧
      at_pos ls (set_iter p c ok t) rest
  end.
Proof.
  intros Hok HiOK Hpos. pose proof Hok as [Hb _ _ _ _]. unfold HT_Next. rewrite HiOK. cbn [vg_assert mbind outcome_bind].
  (* when the chain of the iterator is done *)
  assert (∀ c, iterChain t = Z.of_nat c -> (c <= length ls)%nat -> rest = concat (drop c ls) ->
    match rest with
    | [] => (r ← next_chain (chains t) (seqZ (iterChain t) (n_chains t - iterChain t));
             match r with Some (i, c) => Ret (c, set_iter c (i + 1) true t) | None => Ret (0, t) end) = Ret (0, t)
    | p :: rest => ∃ c ok, (r ← next_chain (chains t) (seqZ (iterChain t) (n_chains t - iterChain t));
             match r with Some (i, c) => Ret (c, set_iter c (i + 1) true t) | None => Ret (0, t) end) =
           Ret (p, set_iter p c ok t) ∧ ok = true ∧ p ≠ 0 ∧ at_pos ls (set_iter p c ok t) rest
    end) as Hnext.
  { intros c -> Hc ->. rewrite (b_n _ _ _ _ Hb).
    replace (Z.of_nat (length ls) - Z.of_nat c) with (Z.of_nat (length ls - c)) by lia.
    destruct (next_chain_ok _ _ _ _ (length ls - c) c Hb ltac:(lia)) as [[-> ->]|(j & p & l & -> & Hp & Hj & ->)]; [done|].
    cbn [mbind outcome_bind]. exists (Z.of_nat j + 1), true. repeat split; [done|].
    right. exists j, [], l. done. }
  destruct Hpos as [(H0 & c & Hc & Hle & Hrest)|(c & l1 & l2 & H0 & Hc & Hl & Hrest)].
  - replace (iterNode t =? 0) with true by lia. cbn [mbind outcome_bind Z.eqb negb]. by apply (Hnext c).
  - replace (iterNode t =? 0) with false by lia.
    destruct (Forall2_lookup_r _ _ _ _ _ (b_linked _ _ _ _ Hb) Hl) as (p & Hp & Hlk).
    apply linked_app in Hlk as (q & Hs & (-> & Ha & nd & Hnd & Hl2)).
    rewrite (load_ok h _ nd Ha Hnd). cbn [mbind outcome_bind]. destruct l2 as [|a l2].
    + cbn [linked] in Hl2. rewrite Hl2. cbn [Z.eqb negb app] in *. apply lookup_lt_Some in Hl.
      apply (Hnext (S c)); [lia|lia|done].
    + destruct Hl2 as (-> & Ha2 & _). replace (a =? 0) with false by lia. cbn [negb]. subst rest. cbn [app].
      exists (iterChain t), true. repeat split; [done|]. right. exists c, (l1 ++ [iterNode t]), l2.
      cbn. by rewrite <- app_assoc.
Qed.

Lemma find_prev_ok h p l b q fuel :
  segment h p (l ++ [b]) q -> q ∉ l ++ [b] -> NoDup (l ++ [b]) -> (length l <= fuel)%nat ->
  find_prev fuel h q p = Ret b.
Proof.
  revert p fuel. induction l as [|a l IH]; intros p fuel Hs Hq Hnd Hf; cbn [app segment] in Hs;
    destruct Hs as (-> & Ha & nd & Hn & Hs).
  - destruct fuel; cbn [find_prev]; rewrite (load_ok _ _ _ Ha Hn); cbn [mbind outcome_bind];
      cbn [segment] in Hs; by rewrite Hs, Z.eqb_refl.
  - destruct fuel as [|fuel]; cbn [length] in Hf; [lia|]. cbn [find_prev].
    rewrite (load_ok _ _ _ Ha Hn). cbn [mbind outcome_bind]. apply NoDup_cons in Hnd as [_ Hnd].
    replace (next nd =? q) with false.
    + apply IH; [done|set_solver|done|lia].
    + symmetry. apply Z.eqb_neq. intros <-. apply Hq. right.
      destruct l as [|a2 l]; cbn [app segment] in Hs; destruct Hs as [-> _]; set_solver.
Qed.

Lemma remove_at_Iter_ok h t ls rest :
  table_ok h t ls -> iterOK t = true -> iterNode t ≠ 0 -> at_pos ls t rest ->
  ∃ t' h' ls', HT_remove_at_Iter t h = Ret (t', h') ∧ table_ok h' t' ls' ∧ iterOK t' = true ∧
    at_pos ls' t' rest ∧ concat ls ≡ₚ iterNode t :: concat ls' ∧ same_keys h h'.
Proof.
  intros Hok HiOK H0 [(? & _)|(c & l1 & l2 & _ & Hc & Hl & Hrest)]; [done|].
  pose proof Hok as [Hb Hp _ _ _]. pose proof (primes_pos _ Hp) as Hpr.
  pose proof (lookup_lt_Some _ _ _ Hl) as Hlt. pose proof (b_n _ _ _ _ Hb) as Hn.
  destruct (Forall2_lookup_r _ _ _ _ _ (b_linked _ _ _ _ Hb) Hl) as (p & Hcp & Hlk).
  apply linked_app in Hlk as (q & Hs & (-> & Ha & nd & Hnd & Hl2)).
  unfold HT_remove_at_Iter. rewrite HiOK. unfold vg_assert. replace (negb (iterNode t =? 0)) with true by lia.
  cbn [mbind outcome_bind]. rewrite Hc. replace (Z.of_nat c + 1 - 1) with (Z.of_nat c) by lia.
  assert (u32 (Z.of_nat c) = Z.of_nat c) as -> by (apply wrap_small; unfold last_prime in *; lia).
  rewrite (arr_get_Some _ _ p) by (rewrite ?Nat2Z.id; first [lia|done]). cbn [mbind outcome_bind].
  destruct (buckets_unlink _ _ _ _ c l1 (iterNode t) l2 nd Hb Hl Hnd) as (cs' & h' & Hst & Hb' & Hsk & _ & _).
  assert (NoDup (l1 ++ iterNode t :: l2)) as Hnl.
  { pose proof (b_nodup _ _ _ _ Hb) as Hx. rewrite (concat_delete _ _ _ Hl) in Hx. by apply NoDup_app in Hx as (? & _ & _). }
  destruct l1 as [|b l1 _] using rev_ind.
  - cbn [segment] in Hs. subst p. rewrite Z.eqb_refl, (load_ok _ _ _ Ha Hnd). cbn [mbind outcome_bind].
    cbn [last store_link] in Hst. destruct (arr_set (chains t) (Z.of_nat c) (next nd)) as [cs1|]; [|done].
    cbn [mbind outcome_bind fst snd] in *. injection Hst as [= -> ->].
    destruct (table_drop h' h' t ls c [] (iterNode t) l2 cs' true (Z.of_nat c) 0 Hok Hl Hb') as [Hok' Hperm].
    eexists _, h', _. split; [done|]. split; [exact Hok'|]. split; [done|]. split; [|done].
    left. split; [done|]. exists c. cbn. split; [done|]. rewrite length_insert. split; [lia|].
    rewrite (concat_drop _ c l2) by (by rewrite list_lookup_insert_eq).
    by rewrite drop_insert_lt by lia.
  - assert (p ≠ iterNode t) as Hpne.
    { intros ->. destruct l1 as [|a l1]; cbn [app segment] in Hs; destruct Hs as [Heq _];
        rewrite Heq in Hnl; cbn [app] in Hnl; apply NoDup_cons in Hnl as [Hx _]; apply Hx; set_solver. }
    replace (p =? iterNode t) with false by lia.
    assert (NoDup (l1 ++ [b]) ∧ iterNode t ∉ l1 ++ [b]) as [Hn1 Hni].
    { apply NoDup_app in Hnl as (? & Hd & _). split; [done|]. intros Hx. apply (Hd _ Hx). set_solver. }
    rewrite (find_prev_ok h p l1 b (iterNode t) (size h) Hs Hni Hn1).
    2:{ pose proof (chain_length _ _ _ _ _ _ Hb Hl) as Hle. rewrite !length_app in Hle. lia. }
    cbn [mbind outcome_bind]. rewrite (load_ok _ _ _ Ha Hnd). cbn [mbind outcome_bind].
    rewrite last_snoc in Hst. cbn [store_link] in Hst. destruct (set_next h b (next nd)) as [h1|]; [|done].
    cbn [mbind outcome_bind fst snd] in *. injection Hst as [= <- ->].
    destruct (table_drop h h' t ls c (l1 ++ [b]) (iterNode t) l2 (chains t) true (Z.of_nat c + 1) b Hok Hl Hb') as [Hok' Hperm].
    eexists _, h', _. split; [done|]. split; [exact Hok'|]. split; [done|]. split; [|done].
    right. exists c, l1, l2. cbn. split; [|split; [done|split]].
    + eapply (buckets_nodes h _ _ ls b Hb). apply elem_of_concat_lookup. exists c, ((l1 ++ [b]) ++ iterNode t :: l2).
      split; [done|set_solver].
    + rewrite list_lookup_insert_eq by done. by rewrite <- app_assoc.
    + by rewrite drop_insert_lt by lia.
Qed.

End Iterate.

(** A client that visits a table and removes the nodes that [del] selects on the way. *)
Fixpoint traverse (fuel : nat) (del : Z -> bool) (t : VgHashTable) (h : heap) : outcome (list Z * VgHashTable * heap) :=
  match fuel with
  | O => Fault OutOfFuel
  | S fuel =>
      r ← HT_Next t h;
      if r.1 =? 0 then Ret ([], r.2, h)
      else
        s ← (if del r.1 then HT_remove_at_Iter r.2 h else Ret (r.2, h));
        u ← traverse fuel del s.1 s.2;
        Ret (r.1 :: u.1.1, u.1.2, u.2)
  end.

Section Enumerate.
Implicit Types (h : heap) (t : VgHashTable) (cs l rest : list Z) (ls : list (list Z)) (S : gset Z).

Lemma traverse_ok del rest : ∀ fuel h t ls,
  table_ok h t ls -> iterOK t = true -> at_pos ls t rest -> (length rest < fuel)%nat ->
  ∃ t' h' ls', traverse fuel del t h = Ret (rest, t', h') ∧ table_ok h' t' ls' ∧ same_keys h h' ∧
    concat ls ≡ₚ List.filter del rest ++ concat ls'.
Proof.
  induction rest as [|p rest IH]; intros fuel h t ls Hok HiOK Hpos Hf; (destruct fuel as [|fuel]; [cbn in Hf; lia|]);
    cbn [traverse]; pose proof (HT_Next_ok h t ls _ Hok HiOK Hpos) as Hnx.
  - cbn in Hnx. rewrite Hnx. exists t, h, ls. done.
  - destruct Hnx as (c & ok & -> & -> & Hp & Hpos'). cbn [mbind outcome_bind fst snd].
    replace (p =? 0) with false by lia. cbn [List.filter length] in *. destruct (del p).
    + destruct (remove_at_Iter_ok h (set_iter p c true t) ls rest) as (t1 & h1 & ls1 & -> & Hok1 & Hi1 & Hpos1 & Hp1 & Hk1);
        [by apply table_set_iter|done|done|done|].
      cbn [mbind outcome_bind fst snd]. destruct (IH fuel h1 t1 ls1) as (t' & h' & ls' & -> & Hok' & Hk' & Hp'); [done..|lia|].
      exists t', h', ls'. split; [done|]. split; [done|]. split; [by etrans|]. cbn in Hp1. by rewrite Hp1, Hp'.
    + cbn [mbind outcome_bind fst snd].
      destruct (IH fuel h (set_iter p c true t) ls) as (t' & h' & ls' & -> & Hok' & Hk' & Hp');
        [by apply table_set_iter|done|done|lia|]. by exists t', h', ls'.
Qed.

Lemma array_chain_ok h room l : ∀ fuel node arr,
  linked h node l -> (length l <= fuel)%nat -> Z.of_nat (length arr + length l) <= room ->
  array_chain fuel h room node arr = Ret (reverse l ++ arr).
Proof.
  induction l as [|a l IH]; intros fuel node arr; cbn [linked length].
  - intros -> _ _. by destruct fuel.
  - intros (-> & Ha & nd & Hnd & Hl) Hf Hr. destruct fuel as [|fuel]; [lia|]. cbn [array_chain].
    replace (a =? 0) with false by lia. replace (Z.of_nat (length arr) <? room) with true by lia.
    rewrite (load_ok _ _ _ Ha Hnd). cbn [mbind outcome_bind].
    rewrite (IH fuel (next nd) (a :: arr)); [|done|lia|cbn; lia]. by rewrite reverse_cons, <- app_assoc.
Qed.

Lemma HT_to_array_ok h t ls : table_ok h t ls ->
  HT_to_array t h = Ret (if n_elements t =? 0 then None else Some (concat ls), n_elements t).
Proof.
  intros [Hb Hp Hc _ _]. unfold HT_to_array. case_bool; [done|]. pose proof (b_n _ _ _ _ Hb) as Hn.
  destruct (for_up_inv (fun i arr => arr = reverse (concat (take (Z.to_nat i) ls))) 0 (n_chains t)
    (fun i arr => node ← arr_get (chains t) i; array_chain (size h) h (n_elements t) node arr) [])
    as (arr & -> & ->); [lia|done| |].
  - intros i arr Hi ->. destruct (lookup_lt_is_Some_2 ls (Z.to_nat i)) as [l Hl]; [lia|].
    destruct (Forall2_lookup_r _ _ _ _ _ (b_linked _ _ _ _ Hb) Hl) as (p & Hcp & Hlk).
    rewrite (arr_get_Some _ _ _ (proj1 Hi) Hcp). cbn [mbind outcome_bind].
    replace (Z.to_nat (i + 1)) with (S (Z.to_nat i)) by lia.
    rewrite (array_chain_ok h (n_elements t) l); [|done|by eapply chain_length|].
    + eexists. split; [done|]. by rewrite (concat_take_S _ _ _ Hl), reverse_app.
    + rewrite Hc, length_reverse, <- length_app, <- (concat_take_S _ _ _ Hl).
      apply Nat2Z.inj_le. rewrite <- (take_drop (S (Z.to_nat i)) ls) at 2. rewrite concat_app, length_app. lia.
  - cbn [mbind outcome_bind]. rewrite take_ge by lia. unfold vg_assert.
    rewrite length_reverse, <- Hc, Z.eqb_refl. cbn [mbind outcome_bind]. by rewrite reverse_involutive.
Qed.

Lemma free_chain_ok l : ∀ fuel h node freed,
  linked h node l -> NoDup l -> (length l <= fuel)%nat ->
  ∃ h', free_chain fuel node (h, freed) = Ret (h', reverse l ++ freed) ∧
    ∀ a, h' !! a = if decide (a ∈ l) then None else h !! a.
Proof.
  induction l as [|a l IH]; intros fuel h node freed; cbn [linked length].
  - intros -> _ _. exists h. split; [by destruct fuel|]. intros a. by rewrite decide_False by set_solver.
  - intros (-> & Ha & nd & Hnd & Hl) [Hni Hn]%NoDup_cons Hf. destruct fuel as [|fuel]; [lia|]. cbn [free_chain fst snd].
    replace (a =? 0) with false by lia. rewrite (load_ok _ _ _ Ha Hnd). cbn [mbind outcome_bind].
    destruct (IH fuel (delete a h) (next nd) (a :: freed)) as (h' & -> & Hh'); [|done|lia|].
    + eapply linked_ext; [|done]. intros b Hb. apply lookup_delete_ne. set_solver.
    + exists h'. split; [by rewrite reverse_cons, <- app_assoc|]. intros b. rewrite Hh'.
      destruct (decide (b = a)) as [->|Hne].
      * rewrite (decide_True (P := a ∈ a :: l)) by set_solver. case_decide; [done|]. apply lookup_delete_eq.
      * rewrite lookup_delete_ne by done. destruct (decide (b ∈ l)); [by rewrite decide_True by set_solver|].
        by rewrite decide_False by set_solver.
Qed.

Lemma HT_destruct_ok h t ls : table_ok h t ls ->
  ∃ h', HT_destruct t h = Ret (h', reverse (concat ls)) ∧
    ∀ a, h' !! a = if decide (a ∈ concat ls) then None else h !! a.
Proof.
  intros [Hb Hp Hc _ _]. pose proof (b_n _ _ _ _ Hb) as Hn. unfold HT_destruct.
  destruct (for_up_inv (fun i s => s.2 = reverse (concat (take (Z.to_nat i) ls)) ∧
      ∀ a, s.1 !! a = if decide (a ∈ concat (take (Z.to_nat i) ls)) then None else h !! a) 0 (n_chains t)
    (fun i s => node ← arr_get (chains t) i; free_chain (size h) node s) (h, []))
    as ([h' freed] & -> & Hfr & Hh'); [lia| | |].
  - split; [done|]. intros a. by rewrite decide_False by set_solver.
  - intros i [h1 fr1] Hi [Hf1 Hh1]. cbn [fst snd] in *. destruct (lookup_lt_is_Some_2 ls (Z.to_nat i)) as [l Hl]; [lia|].
    destruct (Forall2_lookup_r _ _ _ _ _ (b_linked _ _ _ _ Hb) Hl) as (p & Hcp & Hlk).
    rewrite (arr_get_Some _ _ _ (proj1 Hi) Hcp). cbn [mbind outcome_bind].
    replace (Z.to_nat (i + 1)) with (S (Z.to_nat i)) by lia. rewrite (concat_take_S _ _ _ Hl).
    assert (NoDup (concat (take (Z.to_nat i) ls) ++ l)) as Hnd.
    { pose proof (b_nodup _ _ _ _ Hb) as Hx. rewrite <- (take_drop (S (Z.to_nat i)) ls), concat_app in Hx.
      apply NoDup_app in Hx as (Hx & _ & _). by rewrite (concat_take_S _ _ _ Hl) in Hx. }
    apply NoDup_app in Hnd as (_ & Hd & Hnl).
    destruct (free_chain_ok l (size h) h1 p fr1) as (h2 & -> & Hh2); [|done|by eapply chain_length|].
    + eapply linked_ext; [|done]. intros a Ha. rewrite Hh1, decide_False; [done|]. intros Hx. by apply (Hd a).
    + eexists. split; [done|]. cbn [fst snd]. split; [by rewrite Hf1, reverse_app|]. intros a. rewrite Hh2, Hh1.
      destruct (decide (a ∈ l)); [by rewrite decide_True by set_solver|].
      destruct (decide (a ∈ concat (take (Z.to_nat i) ls))); [by rewrite decide_True by set_solver|].
      by rewrite decide_False by set_solver.
  - cbn [fst snd] in *. rewrite take_ge in * by lia. exists h'. by subst freed.
Qed.

Lemma construct_ok name h : name ≠ 0 -> ∃ t, HT_construct name = Ret t ∧ holds h t ∅ ∧
  iterOK t = true ∧ at_pos (repeat [] 769) t [] ∧ table_ok h t (repeat [] 769).
Proof.
  intros Hn. unfold HT_construct. change (arr_get primes 0) with (Ret 769). cbn [mbind outcome_bind].
  unfold vg_assert. replace (negb (name =? 0)) with true by lia. cbn [mbind outcome_bind].
  assert (∀ k, concat (repeat (@nil Z) k) = []) as Hc by (by induction k).
  assert (table_ok h (Table 769 0 0 0 true (repeat 0 (Z.to_nat 769))) (repeat [] 769)) as Hok.
  { split; cbn [n_chains n_elements chains]; [apply (empty_buckets h 769); lia|..|lia|lia].
    - apply list_elem_of_In. by left.
    - by rewrite Hc. }
  eexists. split; [done|]. split; [exists (repeat [] 769); split; [done|by rewrite Hc]|].
  split; [done|]. split; [|done]. left. split; [done|]. exists 0%nat. split; [done|].
  split; [apply Nat.le_0_l|]. by rewrite drop_0, Hc.
Qed.

End Enumerate.

(** * Theorems *)

(** What a lookup gives: a node of [S] with the key, or NULL if there is none. *)
Definition found_or_null (h : heap) (S : gset Z) (k : Z) (same : Z -> bool) (r : Z) : Prop :=
  r = 0 ∧ (∀ a, ¬ matches h S k same a) ∨ r ≠ 0 ∧ matches h S k same r.

Section Theorems.
Implicit Types (h : heap) (t : VgHashTable) (S : gset Z).

Lemma lookup_spec h t S k (same : Z -> bool) found :
  holds h t S -> (∀ a nd, found a nd = (k =? key nd) && same a) ->
  ∃ r, (chain ← CHAIN_NO k (n_chains t); curr ← arr_get (chains t) chain; find_in (size h) found h curr) = Ret r ∧
    found_or_null h S k same r.
Proof. apply chain_lookup_ok. Qed.

Lemma remove_spec h t S k (same : Z -> bool) found :
  holds h t S -> (∀ a nd, found a nd = (k =? key nd) && same a) ->
  ∃ r t' h', (chain ← CHAIN_NO k (n_chains t); curr ← arr_get (chains t) chain;
     unlink (size h) found (set_iter (iterNode t) (iterChain t) false t) h chain None curr) = Ret (r, t', h') ∧
    found_or_null h S k same r ∧ holds h' t' (S ∖ {[r]}) ∧ same_keys h h' ∧ iterOK t' = false.
Proof.
  intros Hh Hf. destruct (chain_remove_ok h t S k same found Hh Hf)
    as (r & t' & h' & -> & Hi & Hsk & [(-> & -> & Hh' & Hno)|(Hr & Hm & Hh')]); exists r, t', h' || exists 0, t', h.
  - split; [done|]. split; [by left|]. split; [|done].
    replace (S ∖ {[0]}) with S; [done|]. apply set_eq. intros a. rewrite elem_of_difference, elem_of_singleton.
    split; [|by intros [? _]]. intros Ha. split; [done|]. intros ->. by destruct (holds_nodes h t S 0 Hh Ha).
  - split; [done|]. split; [by right|]. done.
Qed.

(** C20: A table that holds a set of nodes refines that set: adding a node puts it
    in, also when the chains are redistributed over more of them; the lookups give
    a node with the key (and equal for [cmp]) exactly if there is one; the removals
    take out the node they give. No operation faults, loses a node or changes a key. *)
Theorem hashtable_refines_set h t S :
  holds h t S ->
  (∀ a nd, a ≠ 0 -> h !! a = Some nd -> a ∉ S -> HT_count_nodes t + 1 < 2 ^ 32 ->
     ∃ t' h', HT_add_node t h a = Ret (t', h') ∧ holds h' t' ({[a]} ∪ S) ∧ same_keys h h') ∧
  (∀ k, ∃ r, HT_lookup t h k = Ret r ∧ found_or_null h S k (fun _ => true) r) ∧
  (∀ node cmp nd, node ≠ 0 -> h !! node = Some nd ->
     ∃ r, HT_gen_lookup t h node cmp = Ret r ∧ found_or_null h S (key nd) (fun a => cmp node a =? 0) r) ∧
  (∀ k, ∃ r t' h', HT_remove t h k = Ret (r, t', h') ∧ found_or_null h S k (fun _ => true) r ∧
     holds h' t' (S ∖ {[r]}) ∧ same_keys h h') ∧
  (∀ node cmp nd, node ≠ 0 -> h !! node = Some nd ->
     ∃ r t' h', HT_gen_remove t h node cmp = Ret (r, t', h') ∧
       found_or_null h S (key nd) (fun a => cmp node a =? 0) r ∧
       holds h' t' (S ∖ {[r]}) ∧ same_keys h h').
Proof.
  intros Hh. split; [|split; [|split; [|split]]].
  - intros a nd Ha Hnd Hna Hc. destruct (add_node_ok h t S a nd Hh Ha Hnd Hna Hc) as (t' & h' & ? & ? & ? & _).
    by exists t', h'.
  - intros k. apply (lookup_spec h t S k); [done|]. intros a nd. by rewrite andb_true_r.
  - intros node cmp nd Hn Hnd. unfold HT_gen_lookup. rewrite (load_ok h node nd Hn Hnd).
    by apply (lookup_spec h t S (key nd)).
  - intros k. destruct (remove_spec h t S k (fun _ => true) (fun _ nd => k =? key nd) Hh)
      as (r & t' & h' & ? & ? & ? & ? & _); [by intros; rewrite andb_true_r|]. by exists r, t', h'.
  - intros node cmp nd Hn Hnd. unfold HT_gen_remove. rewrite (load_ok h node nd Hn Hnd).
    destruct (remove_spec h t S (key nd) (fun a => cmp node a =? 0)
      (fun curr nd' => (key nd =? key nd') && (cmp node curr =? 0)) Hh) as (r & t' & h' & ? & ? & ? & ? & _); [done|].
    by exists r, t', h'.
Qed.

(** A traversal with HT_ResetIter and HT_Next that removes any of the nodes it
    is at with HT_remove_at_Iter visits every node once, in the order of the
    chains, and leaves exactly the others; HT_to_array lists the same nodes in the
    same order, and HT_destruct hands each of them to the destructor once. *)
Theorem hashtable_iteration h t S (del : Z -> bool) :
  holds h t S ->
  ∃ order, NoDup order ∧ (∀ a, a ∈ order <-> a ∈ S) ∧
    (∃ t' h', traverse (length order + 1) del (HT_ResetIter t) h = Ret (order, t', h') ∧
       holds h' t' (filter (fun a => del a = false) S) ∧ same_keys h h') ∧
    HT_to_array t h = Ret (if n_elements t =? 0 then None else Some order, n_elements t) ∧
    (∃ h', HT_destruct t h = Ret (h', reverse order) ∧ ∀ a, h' !! a = if decide (a ∈ S) then None else h !! a).
Proof.
  intros (ls & Hok & <-). pose proof (b_nodup _ _ _ _ (t_buckets _ _ _ Hok)) as Hnd. exists (concat ls).
  split; [done|]. split; [intros a; by rewrite elem_of_list_to_set|]. split; [|split].
  - destruct (traverse_ok del (concat ls) (length (concat ls) + 1) h (HT_ResetIter t) ls)
      as (t' & h' & ls' & -> & Hok' & Hk & Hp); [by apply table_set_iter|done| |lia|].
    { left. split; [done|]. exists 0%nat. split; [done|]. split; [lia|]. by rewrite drop_0. }
    exists t', h'. split; [done|]. split; [|done]. exists ls'. split; [done|]. apply set_eq. intros a.
    rewrite elem_of_filter, !elem_of_list_to_set. rewrite Hp in Hnd.
    apply NoDup_app in Hnd as (_ & Hd & _). rewrite Hp, elem_of_app.
    assert (a ∈ List.filter del (concat ls) <-> a ∈ concat ls ∧ del a = true) as Hfl
      by (by rewrite !list_elem_of_In, filter_In).
    split.
    + intros Ha. destruct (del a) eqn:Hda; [|by auto]. exfalso. apply (Hd a); [|done]. apply Hfl.
      split; [|done]. rewrite Hp. set_solver.
    + intros [Hda [Ha|Ha]]; [|done]. apply Hfl in Ha as [_ Ha]. congruence.
  - by apply HT_to_array_ok.
  - destruct (HT_destruct_ok h t ls Hok) as (h' & -> & Hh'). exists h'. split; [done|]. intros a. rewrite Hh'.
    destruct (decide (a ∈ concat ls)); [by rewrite decide_True by set_solver|by rewrite decide_False by set_solver].
Qed.

End Theorems.

(** ** Reachable tables *)

(** A step of the clients of one table: they allocate nodes, free nodes that are
    not in the table, change the table and iterate over it. *)
Inductive client_step : heap * VgHashTable * gset Z -> heap * VgHashTable * gset Z -> Prop :=
  | step_alloc h t S a nd : a ≠ 0 -> h !! a = None -> client_step (h, t, S) (<[a := nd]> h, t, S)
  | step_free h t S a : a ∉ S -> client_step (h, t, S) (delete a h, t, S)
  | step_add h t S a t' h' : a ∉ S -> is_Some (h !! a) -> HT_count_nodes t + 1 < 2 ^ 32 ->
      HT_add_node t h a = Ret (t', h') -> client_step (h, t, S) (h', t', {[a]} ∪ S)
  | step_remove h t S k r t' h' :
      HT_remove t h k = Ret (r, t', h') -> client_step (h, t, S) (h', t', S ∖ {[r]})
  | step_gen_remove h t S node cmp r t' h' :
      HT_gen_remove t h node cmp = Ret (r, t', h') -> client_step (h, t, S) (h', t', S ∖ {[r]})
  | step_reset h t S : client_step (h, t, S) (h, HT_ResetIter t, S)
  | step_next h t S r t' : HT_Next t h = Ret (r, t') -> client_step (h, t, S) (h, t', S)
  | step_remove_at h t S t' h' : HT_remove_at_Iter t h = Ret (t', h') ->
      client_step (h, t, S) (h', t', S ∖ {[iterNode t]}).

(** The table is well formed, and its iterator is somewhere in it while it may be used. *)
Definition table_inv (s : heap * VgHashTable * gset Z) : Prop :=
  ∃ ls, table_ok s.1.1 s.1.2 ls ∧ list_to_set (concat ls) = s.2 ∧
    (iterOK s.1.2 = true -> ∃ rest, at_pos ls s.1.2 rest).

Section Reachable.
Implicit Types (h : heap) (t : VgHashTable) (S : gset Z) (s : heap * VgHashTable * gset Z).

Lemma holds_inv h t S : holds h t S -> iterOK t = false -> table_inv (h, t, S).
Proof. intros (ls & Hok & HS) Hi. exists ls. cbn. split; [done|]. split; [done|]. by rewrite Hi. Qed.

Lemma table_ok_ext h h' t ls :
  (∀ a, a ∈ concat ls -> h' !! a = h !! a) -> table_ok h t ls -> table_ok h' t ls.
Proof.
  intros He [[Hl Hn Hk Hnd] ? ? ? ?]. split; try done. split; try done.
  - apply Forall2_same_length_lookup. split; [by eapply Forall2_length|]. intros i p l Hp Hls.
    eapply linked_ext; [|by eapply Forall2_lookup_lr]. intros a Ha. apply He, elem_of_concat_lookup. eauto.
  - intros i l a nd Hi Ha. rewrite He by (apply elem_of_concat_lookup; eauto). by apply (Hk i l).
Qed.

Lemma inv_holds h t S : table_inv (h, t, S) -> holds h t S.
Proof. intros (ls & ? & ? & _). by exists ls. Qed.

Lemma step_inv s s' : client_step s s' -> table_inv s -> table_inv s'.
Proof.
  intros Hst Hinv. pose proof Hinv as (ls & Hok & HS & Hpos).
  destruct Hst as [h t S a nd Ha Hn|h t S a Ha|h t S a t' h' Ha [nd Hnd] Hc Hr|h t S k r t' h' Hr
    |h t S node cmp r t' h' Hr|h t S|h t S r t' Hr|h t S t' h' Hr]; cbn [fst snd] in *;
    try pose proof (inv_holds h t S Hinv) as Hh.
  - exists ls. split; [|done]. eapply table_ok_ext; [|done]. intros b Hb. apply lookup_insert_ne. intros <-.
    destruct (buckets_nodes _ _ _ _ a (t_buckets _ _ _ Hok) Hb) as [_ [? ?]]. congruence.
  - exists ls. split; [|done]. eapply table_ok_ext; [|done]. intros b Hb. apply lookup_delete_ne. intros <-.
    apply Ha. rewrite <- HS. by apply elem_of_list_to_set.
  - assert (a ≠ 0) as Ha0.
    { intros ->. unfold HT_add_node, load in Hr. done. }
    destruct (add_node_ok h t S a nd Hh Ha0 Hnd Ha Hc) as (t1 & h1 & Hr1 & Hh1 & _ & Hi).
    rewrite Hr in Hr1. injection Hr1 as -> ->. by apply holds_inv.
  - destruct (remove_spec h t S k (fun _ => true) (fun _ nd => k =? key nd) Hh)
      as (r1 & t1 & h1 & Hr1 & _ & Hh1 & _ & Hi); [by intros; rewrite andb_true_r|].
    unfold HT_remove in Hr. rewrite Hr in Hr1. injection Hr1 as -> -> ->. by apply holds_inv.
  - unfold HT_gen_remove in Hr. destruct (load h node) as [nd|] eqn:Hnd; [|done]. cbn [mbind outcome_bind] in Hr.
    destruct (remove_spec h t S (key nd) (fun a => cmp node a =? 0)
      (fun curr nd' => (key nd =? key nd') && (cmp node curr =? 0)) Hh) as (r1 & t1 & h1 & Hr1 & _ & Hh1 & _ & Hi); [done|].
    rewrite Hr in Hr1. injection Hr1 as -> -> ->. by apply holds_inv.
  - exists ls. split; [by apply table_set_iter|]. split; [done|]. intros _. exists (concat ls).
    left. split; [done|]. exists 0%nat. split; [done|]. split; [lia|]. by rewrite drop_0.
  - destruct (iterOK t) eqn:Hi; [|by unfold HT_Next in Hr; rewrite Hi in Hr].
    destruct (Hpos eq_refl) as [rest Hrest]. pose proof (HT_Next_ok h t ls rest Hok Hi Hrest) as Hnx.
    destruct rest as [|p rest].
    + rewrite Hr in Hnx. injection Hnx as -> ->. exists ls. eauto.
    + destruct Hnx as (c & ok & Hnx & -> & Hp & Hpos'). rewrite Hr in Hnx. injection Hnx as -> ->.
      exists ls. split; [by apply table_set_iter|]. eauto.
  - destruct (iterOK t) eqn:Hi; [|by unfold HT_remove_at_Iter in Hr; rewrite Hi in Hr].
    destruct (Hpos eq_refl) as [rest Hrest].
    destruct (decide (iterNode t = 0)) as [H0|H0].
    { unfold HT_remove_at_Iter in Hr. by rewrite Hi, H0 in Hr. }
    destruct (remove_at_Iter_ok h t ls rest Hok Hi H0 Hrest) as (t1 & h1 & ls1 & Hr1 & Hok1 & _ & Hp1 & Hperm & _).
    rewrite Hr in Hr1. injection Hr1 as -> ->. exists ls1. split; [done|]. split; [|eauto].
    pose proof (b_nodup _ _ _ _ (t_buckets _ _ _ Hok)) as Hnd. rewrite Hperm in Hnd.
    apply NoDup_cons in Hnd as [Hni _]. rewrite <- HS. apply set_eq. intros a. cbn [snd].
    rewrite elem_of_difference, !elem_of_list_to_set, Hperm, elem_of_cons, elem_of_singleton. naive_solver.
Qed.

(** C21: Every table that clients can reach from a constructed one by adding,
    removing, iterating and removing at the iterator, in any order, is well formed:
    the chains are acyclic and disjoint, each node is in the chain of its key, the
    count is exact, the number of chains is one of the primes and there are at
    least as many chains as nodes unless the last prime is reached. The next
    HT_Next either meets its assertion, since the table was changed behind the
    iterator, or gives NULL or a node of the table. *)
Theorem reachable_table_ok (name : Z) (h0 : heap) t0 s :
  HT_construct name = Ret t0 -> rtc client_step (h0, t0, ∅) s ->
  ∃ ls, table_ok s.1.1 s.1.2 ls ∧ list_to_set (concat ls) = s.2 ∧
    (iterOK s.1.2 = false ∧ HT_Next s.1.2 s.1.1 = Fault AssertFail ∨
     ∃ r t', HT_Next s.1.2 s.1.1 = Ret (r, t') ∧ (r = 0 ∨ r ∈ s.2)).
Proof.
  intros Hc Hr. assert (table_inv s) as (ls & Hok & HS & Hpos).
  { destruct (decide (name = 0)) as [->|Hn]; [done|].
    destruct (construct_ok name h0 Hn) as (t1 & Hc1 & _ & Hi & Hpos & Hok). rewrite Hc in Hc1. injection Hc1 as <-.
    assert (table_inv (h0, t0, ∅)) as H0.
    { exists (repeat [] 769). split; [done|]. split; [vm_compute; done|]. by exists []. }
    clear Hc Hi Hpos Hok. induction Hr as [|s1 s2 s3 Hst _ IH]; [done|]. apply IH. by eapply step_inv. }
  exists ls. split; [done|]. split; [done|]. destruct (iterOK s.1.2) eqn:Hi.
  - right. destruct (Hpos eq_refl) as [rest Hrest]. pose proof (HT_Next_ok _ _ ls rest Hok Hi Hrest) as Hnx.
    destruct rest as [|p rest]; [exists 0, s.1.2; eauto|]. destruct Hnx as (c & ok & -> & _ & Hp & Hpos').
    eexists p, _. split; [done|]. right. rewrite <- HS. apply elem_of_list_to_set, elem_of_concat_lookup.
    destruct Hpos' as [(Hp0 & c' & _ & _ & _)|(c' & l1 & l2 & _ & _ & Hl & _)].
    + done.
    + eexists c', _. split; [exact Hl|]. set_solver.
  - left. split; [done|]. unfold HT_Next. by rewrite Hi.
Qed.

End Reachable.

(** ** Duplicate keys

    A lookup gives the node added last as long as the chains are not
    redistributed, which turns them around. The nodes at 8 and 16 both have the
    key 5; the 770th node makes the table grow. *)

Definition dup_heap (n : nat) : heap :=
  list_to_map ((fun i => (8 * Z.of_nat (S i), Node 0 (if (i <? 2)%nat then 5 else Z.of_nat i + 100))) <$> seq 0 n).
Definition add_nodes (n : nat) : outcome (VgHashTable * heap) :=
  for_list ((fun i => 8 * Z.of_nat (S i)) <$> seq 0 n)
    (fun a s => HT_add_node s.1 s.2 a) (Table 769 0 0 0 true (repeat 0 769), dup_heap n).
Definition lookup_after (n : nat) (k : Z) : outcome Z := s ← add_nodes n; HT_lookup s.1 s.2 k.

Lemma lookup_oldest_after_resize : lookup_after 769 5 = Ret 16 ∧ lookup_after 770 5 = Ret 8.
Proof. vm_compute. split; reflexivity. Qed.

(** * Witnesses *)

Definition demo_heap : heap := <[8 := Node 0 5]> (<[16 := Node 0 774]> (<[24 := Node 0 5]> ∅)).
Definition demo_table : VgHashTable := Table 769 0 0 0 true (repeat 0 769).
Definition demo_added : outcome (VgHashTable * heap) :=
  r ← HT_add_node demo_table demo_heap 8; r ← HT_add_node r.1 r.2 16; HT_add_node r.1 r.2 24.

Lemma demo_empty h : holds h demo_table ∅.
Proof. destruct (construct_ok 1 h) as (t & Ht & Hh & _); [done|]. by injection Ht as <-. Qed.

(** Keys 5 and 774 share a chain of the 769. *)
Lemma demo_holds : ∃ t h, demo_added = Ret (t, h) ∧ holds h t {[24; 16; 8]}.
Proof.
  unfold demo_added.
  destruct (add_node_ok demo_heap demo_table ∅ 8 (Node 0 5)) as (t1 & h1 & -> & Hh1 & Hk1 & _);
    [apply demo_empty|done..|]. cbn [mbind outcome_bind fst snd].
  destruct (same_keys_lookup _ h1 16 (Node 0 774) Hk1 eq_refl) as (n16 & H16 & _).
  pose proof (holds_size _ _ _ Hh1) as Hs1.
  destruct (add_node_ok h1 t1 ({[8]} ∪ ∅) 16 n16) as (t2 & h2 & -> & Hh2 & Hk2 & _);
    [done|done|done|set_solver|by rewrite Hs1|]. cbn [mbind outcome_bind fst snd].
  destruct (same_keys_lookup _ h1 24 (Node 0 5) Hk1 eq_refl) as (n24 & H24 & _).
  destruct (same_keys_lookup _ h2 24 n24 Hk2 H24) as (m24 & H24' & _).
  pose proof (holds_size _ _ _ Hh2) as Hs2.
  destruct (add_node_ok h2 t2 ({[16]} ∪ ({[8]} ∪ ∅)) 24 m24) as (t3 & h3 & -> & Hh3 & _ & _);
    [done|done|done|set_solver|by rewrite Hs2|]. cbn [mbind outcome_bind fst snd].
  exists t3, h3. split; [done|]. replace ({[24; 16; 8]} : gset Z) with ({[24]} ∪ ({[16]} ∪ ({[8]} ∪ ∅)) : gset Z); [done|].
  set_solver.
Qed.

Lemma hashtable_refines_set_witness :
  (∃ t' h', HT_add_node demo_table demo_heap 8 = Ret (t', h') ∧ holds h' t' {[8]}) ∧
  (∃ t h, demo_added = Ret (t, h) ∧ ∃ r, HT_lookup t h 774 = Ret r ∧
     found_or_null h {[24; 16; 8]} 774 (fun _ => true) r).
Proof.
  split.
  - destruct (proj1 (hashtable_refines_set demo_heap demo_table ∅ (demo_empty _)) 8 (Node 0 5))
      as (t' & h' & Hr & Hh & _); [done|reflexivity|set_solver|reflexivity|].
    exists t', h'. split; [done|]. by rewrite (right_id_L ∅ (∪)) in Hh.
  - destruct demo_holds as (t & h & Ht & Hh). exists t, h. split; [done|].
    apply (proj2 (hashtable_refines_set h t _ Hh)).
Defined.

Lemma hashtable_iteration_witness :
  ∃ t h order, demo_added = Ret (t, h) ∧ NoDup order ∧ (∀ a, a ∈ order <-> a ∈ ({[24; 16; 8]} : gset Z)).
Proof.
  destruct demo_holds as (t & h & Ht & Hh).
  destruct (hashtable_iteration h t _ (fun a => a =? 16) Hh) as (order & ? & ? & _).
  by exists t, h, order.
Defined.

Lemma reachable_table_ok_witness :
  ∃ t h, HT_add_node demo_table demo_heap 8 = Ret (t, h) ∧ HT_Next t h = Fault AssertFail.
Proof.
  destruct (add_node_ok demo_heap demo_table ∅ 8 (Node 0 5)) as (t & h & Hr & _ & _ & Hi); [apply demo_empty|done..|].
  exists t, h. split; [done|].
  assert (rtc client_step (demo_heap, demo_table, ∅) (h, t, {[8]} ∪ ∅)) as Hst.
  { apply rtc_once. by apply step_add; [set_solver|eexists|..]. }
  destruct (reachable_table_ok 1 demo_heap demo_table _ eq_refl Hst) as (ls & _ & _ & [[_ H]|(r & t' & H & _)]); [done|].
  unfold HT_Next in H. cbn [fst snd] in H. by rewrite Hi in H.
Defined.
