(* ===== verification/SparseWA.v ===== *)
(** * coregrind/m_sparsewa.c

    Sparse word arrays: maps from words to words as trees of eight levels with 256
    children each, indexed by the bytes of the key from the top. A node owns its
    children, so that a tree is a value; the update of a node in place is the
    update of the tree along the path to it. *)

From S2P Require Import Prelude.
From stdpp Require Import gmap fin_maps.
Local Open Scope Z_scope.

(** * Definitions *)

(** A node with its magic number: [Level0] has 256 words, the number of those in
    use and a bit for each; [LevelN] has 256 children, the number of them and its
    level. NULL is [None]. *)
Inductive node :=
  | Level0 (words : list Z) (nInUse : Z) (inUse : list Z)
  | LevelN (child : list (option node)) (nInUse : Z) (level : Z).

Definition root : Type := option node.

(** [sizeof(void* ) - 1] on a 64-bit machine. *)
Definition _3_or_7 : nat := 7.

(** ** The array of bits *)

Definition swa_bitarray_read (arr : list Z) (ix : Z) : outcome Z :=
  let bix := Z.shiftr ix 3 in
  let off := Z.land ix 7 in
  b ← arr_get arr bix;
  Ret (Z.land (Z.shiftr b off) 1).

Definition swa_bitarray_read_then_set (arr : list Z) (ix : Z) : outcome (list Z * Z) :=
  let bix := Z.shiftr ix 3 in
  let off := Z.land ix 7 in
  old ← arr_get arr bix;
  let nyu := u8 (Z.lor old (Z.shiftl 1 off)) in
  arr ← arr_set arr bix nyu;
  Ret (arr, Z.land (Z.shiftr old off) 1).

Definition swa_bitarray_read_then_clear (arr : list Z) (ix : Z) : outcome (list Z * Z) :=
  let bix := Z.shiftr ix 3 in
  let off := Z.land ix 7 in
  old ← arr_get arr bix;
  let nyu := u8 (Z.land old (Z.lnot (Z.shiftl 1 off))) in
  arr ← arr_set arr bix nyu;
  Ret (arr, Z.land (Z.shiftr old off) 1).

(** ** Allocation; the memory is cleared *)

Definition swa_new_LevelN (level : Z) : node := LevelN (repeat None 256) 0 level.
Definition swa_new_Level0 : node := Level0 (repeat 0 256) 0 (repeat 0 32).

Definition newSWA : root := None.

(** [(key >> (i*8)) & 0xFF]. *)
Definition key_ix (key : Z) (i : nat) : Z := Z.land (Z.shiftr key (Z.of_nat i * 8)) 0xFF.

(** ** Lookup

    [i] counts down from 7; at 0 the node is read as a Level0. A node of the wrong
    kind fails the assertion on its level or magic number. *)
Fixpoint lookup_wrk (i : nat) (nd : root) (key : Z) : outcome (option Z) :=
  match nd with
  | None => Ret None
  | Some nd =>
      match i, nd with
      | O, Level0 words nInUse inUse =>
          _ ← vg_assert (0 <? nInUse);
          let ix := Z.land key 0xFF in
          b ← swa_bitarray_read inUse ix;
          if b =? 0 then Ret None else v ← arr_get words ix; Ret (Some v)
      | S i', LevelN child nInUse level =>
          _ ← vg_assert (level =? Z.of_nat i);
          _ ← vg_assert (0 <? nInUse);
          c ← arr_get child (key_ix key i);
          lookup_wrk i' c key
      | _, _ => Fault AssertFail
      end
  end.

Definition lookupSWA (swa : root) (key : Z) : outcome (option Z) := lookup_wrk _3_or_7 swa key.

(** ** Insertion *)

(** The node that a missing child at level [i] is made of. *)
Definition fresh (i : nat) : node :=
  match i with O => swa_new_Level0 | S _ => swa_new_LevelN (Z.of_nat i) end.

(** The result is the new node and whether the key was there. *)
Fixpoint add_wrk (i : nat) (nd : node) (key val : Z) : outcome (node * bool) :=
  match i, nd with
  | O, Level0 words nInUse inUse =>
      let ix := Z.land key 0xFF in
      r ← swa_bitarray_read_then_set inUse ix;
      nInUse ← (if r.2 =? 0 then int_ (nInUse + 1) else Ret nInUse);
      _ ← vg_assert ((1 <=? nInUse) && (nInUse <=? 256));
      words ← arr_set words ix val;
      Ret (Level0 words nInUse r.1, negb (r.2 =? 0))
  | S i', LevelN child nInUse level =>
      _ ← vg_assert (level =? Z.of_nat i);
      let ix := key_ix key i in
      c ← arr_get child ix;
      r ← match c with
          | None => n ← int_ (nInUse + 1); Ret (fresh i', n)
          | Some c => Ret (c, nInUse)
          end;
      _ ← vg_assert ((1 <=? r.2) && (r.2 <=? 256));
      u ← add_wrk i' r.1 key val;
      child ← arr_set child ix (Some u.1);
      Ret (LevelN child r.2 level, u.2)
  | _, _ => Fault AssertFail
  end.

Definition addToSWA (swa : root) (key val : Z) : outcome (root * bool) :=
  let nd := match swa with None => swa_new_LevelN (Z.of_nat _3_or_7) | Some nd => nd end in
  r ← add_wrk _3_or_7 nd key val;
  Ret (Some r.1, r.2).

(** ** Deletion *)

(** The way down does not change the nodes; the way back clears the link to a
    child that has become empty. The result is [None] when the key is not there,
    else the node, or NULL if it has been freed, and the old value. *)
Fixpoint del_wrk (i : nat) (nd : root) (key : Z) : outcome (option (root * Z)) :=
  match nd with
  | None => Ret None
  | Some nd =>
      match i, nd with
      | O, Level0 words nInUse inUse =>
          _ ← vg_assert (0 <? nInUse);
          let ix := Z.land key 0xFF in
          r ← swa_bitarray_read_then_clear inUse ix;
          if r.2 =? 0 then Ret None
          else
            oldV ← arr_get words ix;
            nInUse ← int_ (nInUse - 1);
            if 0 <? nInUse then Ret (Some (Some (Level0 words nInUse r.1), oldV)) else Ret (Some (None, oldV))
      | S i', LevelN child nInUse level =>
          _ ← vg_assert (level =? Z.of_nat i);
          _ ← vg_assert (0 <? nInUse);
          let ix := key_ix key i in
          c ← arr_get child ix;
          r ← del_wrk i' c key;
          match r with
          | None => Ret None
          | Some (Some c', oldV) =>
              child ← arr_set child ix (Some c');
              Ret (Some (Some (LevelN child nInUse level), oldV))
          | Some (None, oldV) =>
              _ ← vg_assert (match c with Some _ => true | None => false end);
              child ← arr_set child ix None;
              nInUse ← int_ (nInUse - 1);
              _ ← vg_assert (0 <=? nInUse);
              if 0 <? nInUse then Ret (Some (Some (LevelN child nInUse level), oldV))
              else Ret (Some (None, oldV))
          end
      | _, _ => Fault AssertFail
      end
  end.

Definition delFromSWA (swa : root) (key : Z) : outcome (root * option Z) :=
  r ← del_wrk _3_or_7 swa key;
  match r with
  | None => Ret (swa, None)
  | Some (swa', oldV) => Ret (swa', Some oldV)
  end.

(** ** Size and iteration *)

Fixpoint swa_sizeSWA_wrk (nd : node) : Z :=
  match nd with
  | LevelN child _ _ =>
      foldl (fun sum c => match c with Some c => u64 (sum + swa_sizeSWA_wrk c) | None => sum end) 0 child
  | Level0 _ nInUse _ => u64 nInUse
  end.

Definition sizeSWA (swa : root) : Z := match swa with Some nd => swa_sizeSWA_wrk nd | None => 0 end.

(** Nodes given to dealloc, in order; their magic numbers are right by their type. *)
Fixpoint swa_deleteSWA_wrk (nd : node) : list node :=
  match nd with
  | LevelN child _ _ =>
      foldl (fun l c => match c with Some c => l ++ swa_deleteSWA_wrk c | None => l end) [] child ++ [nd]
  | Level0 _ _ _ => [nd]
  end.

Definition deleteSWA (swa : root) : list node := match swa with Some nd => swa_deleteSWA_wrk nd | None => [] end.

(** An entry of the iterator stack and its three points to resume at. *)
Inductive resume_point := start_new_node | resume_leaf_node | resume_nonleaf_node.

Record SWAStackElem := Elem {
  partial_key : Z;
  curr_ix : Z;
  curr_nd : node;
  resume : resume_point }.

(** The stack has eight entries; the top is the head of the list. *)
Definition swa_PUSH (stk : list SWAStackElem) (e : SWAStackElem) : outcome (list SWAStackElem) :=
  let sp := Z.of_nat (length stk) in
  _ ← vg_assert ((0 <=? sp) && (sp <=? Z.of_nat _3_or_7));
  Ret (e :: stk).

Definition swa_POP (stk : list SWAStackElem) : outcome (SWAStackElem * list SWAStackElem) :=
  let sp := Z.of_nat (length stk) - 1 in
  _ ← vg_assert ((0 <=? sp) && (sp <=? Z.of_nat _3_or_7));
  match stk with [] => Fault OutOfBounds | e :: stk => Ret (e, stk) end.

Definition initIterSWA (swa : root) : outcome (list SWAStackElem) :=
  match swa with Some nd => swa_PUSH [] (Elem 0 0 nd start_new_node) | None => Ret [] end.

(** The loops over a node from index [ix] on: the next word in use, the next child. *)
Fixpoint next_word (ixs : list Z) (inUse : list Z) : outcome (option Z) :=
  match ixs with
  | [] => Ret None
  | ix :: ixs => b ← swa_bitarray_read inUse ix; if b =? 1 then Ret (Some ix) else next_word ixs inUse
  end.

Fixpoint next_child (ixs : list Z) (child : list (option node)) : outcome (option (Z * node)) :=
  match ixs with
  | [] => Ret None
  | ix :: ixs => c ← arr_get child ix; match c with Some c => Ret (Some (ix, c)) | None => next_child ixs child end
  end.

(** The body between two dispatches, entered at the loop of [nd] with the index
    [ix]; [fuel] bounds the descent. [inl] is a pair found, [inr] goes back to the
    dispatch. *)
Fixpoint scan_node (fuel : nat) (stk : list SWAStackElem) (p_key : Z) (nd : node) (ix : Z) :
    outcome ((Z * Z * list SWAStackElem) + list SWAStackElem) :=
  match nd with
  | Level0 words _ inUse =>
      r ← next_word (seqZ ix (256 - ix)) inUse;
      match r with
      | Some i =>
          stk ← swa_PUSH stk (Elem p_key i nd resume_leaf_node);
          v ← arr_get words i;
          Ret (inl (u64 (u64 (Z.shiftl p_key 8) + i), v, stk))
      | None => Ret (inr stk)
      end
  | LevelN child _ _ =>
      r ← next_child (seqZ ix (256 - ix)) child;
      match r with
      | Some (i, c) =>
          stk ← swa_PUSH stk (Elem p_key i nd resume_nonleaf_node);
          match fuel with
          | O => Fault OutOfFuel
          | S fuel => scan_node fuel stk (u64 (u64 (Z.shiftl p_key 8) + i)) c 0
          end
      | None => Ret (inr stk)
      end
  end.

(** [dispatch]. [fuel] bounds the number of entries popped. *)
Fixpoint dispatch (fuel : nat) (stk : list SWAStackElem) : outcome (option (Z * Z) * list SWAStackElem) :=
  match stk with
  | [] => Ret (None, [])
  | _ =>
      e ← swa_POP stk;
      let ix := match resume e.1 with start_new_node => 0 | _ => curr_ix e.1 + 1 end in
      r ← scan_node (S _3_or_7) e.2 (partial_key e.1) (curr_nd e.1) ix;
      match r with
      | inl (k, v, stk) => Ret (Some (k, v), stk)
      | inr stk => match fuel with O => Fault OutOfFuel | S fuel => dispatch fuel stk end
      end
  end.

Definition nextIterSWA (stk : list SWAStackElem) : outcome (option (Z * Z) * list SWAStackElem) :=
  dispatch (length stk) stk.

(** * Lemmas *)

(** ** Counting and bits *)

(** How many of the 256 places satisfy [f]. *)
Definition count (f : Z -> bool) : Z := Z.of_nat (length (List.filter f (seqZ 0 256))).

Definition used (arr : list Z) (ix : Z) : bool :=
  match arr !! Z.to_nat (ix / 8) with Some b => Z.testbit b (ix mod 8) | None => false end.

Section Count.
Implicit Types (f g : Z -> bool) (ix : Z) (arr : list Z).

Lemma filter_length_change f g ix (l : list Z) :
  NoDup l -> ix ∈ l -> f ix = false -> g ix = true -> (∀ j, j ≠ ix -> g j = f j) ->
  length (List.filter g l) = S (length (List.filter f l)).
Proof.
  intros Hn Hin Hf Hg Hfg. induction Hn as [|x l Hx Hn IH]; [set_solver|]. cbn [List.filter].
  assert (∀ k, ix ∉ k -> List.filter g k = List.filter f k) as Hsame.
  { intros k Hk. apply filter_ext_in. intros j Hj%list_elem_of_In. apply Hfg. set_solver. }
  apply elem_of_cons in Hin as [<-|Hin].
  - by rewrite Hf, Hg, (Hsame l Hx).
  - rewrite (Hfg x) by set_solver. destruct (f x); cbn [length]; by rewrite IH.
Qed.

Lemma count_change f g ix :
  0 <= ix < 256 -> f ix = false -> g ix = true -> (∀ j, j ≠ ix -> g j = f j) -> count g = count f + 1.
Proof.
  intros Hix Hf Hg Hfg. unfold count. rewrite (filter_length_change f g ix); [lia| | |done..].
  - apply NoDup_seqZ.
  - by apply elem_of_seqZ.
Qed.

Lemma count_range f : 0 <= count f <= 256.
Proof.
  unfold count. pose proof (filter_length_le f (seqZ 0 256)) as H. rewrite length_seqZ in H. lia.
Qed.

Lemma count_pos f ix : 0 <= ix < 256 -> f ix = true -> 0 < count f.
Proof.
  intros Hix Hf. unfold count. destruct (List.filter f (seqZ 0 256)) as [|x l] eqn:He; [|cbn; lia].
  assert (In ix (List.filter f (seqZ 0 256))) as Hin by (apply filter_In; split; [by apply list_elem_of_In, elem_of_seqZ|done]).
  by rewrite He in Hin.
Qed.

Lemma count_witness f : 0 < count f -> ∃ ix, 0 <= ix < 256 ∧ f ix = true.
Proof.
  unfold count. intros Hc. destruct (List.filter f (seqZ 0 256)) as [|ix l] eqn:He; [cbn in Hc; lia|].
  assert (In ix (List.filter f (seqZ 0 256))) as Hin by (rewrite He; by left).
  apply filter_In in Hin as [Hin%list_elem_of_In Hf]. exists ix. split; [|done]. by apply elem_of_seqZ in Hin.
Qed.

Lemma count_zero f ix : count f = 0 -> 0 <= ix < 256 -> f ix = false.
Proof. intros Hc Hix. destruct (f ix) eqn:Hf; [|done]. pose proof (count_pos f ix Hix Hf). lia. Qed.

Lemma count_ext f g : (∀ j, 0 <= j < 256 -> f j = g j) -> count f = count g.
Proof.
  intros He. unfold count. do 2 f_equal. apply filter_ext_in. intros j Hj%list_elem_of_In%elem_of_seqZ. by apply He.
Qed.

(** The index and the bit of a place. *)
Lemma bit_index ix : 0 <= ix < 256 ->
  Z.shiftr ix 3 = ix / 8 ∧ Z.land ix 7 = ix mod 8 ∧ 0 <= ix / 8 < 32 ∧ 0 <= ix mod 8 < 8.
Proof.
  intros Hix. rewrite Z.shiftr_div_pow2 by lia. split; [done|].
  split; [exact (Z.land_ones ix 3 ltac:(lia))|]. pose proof (Z.mod_pos_bound ix 8).
  split; [|lia]. split; [apply Z.div_pos; lia|apply Z.div_lt_upper_bound; lia].
Qed.

Lemma same_place i j : 0 <= i < 256 -> 0 <= j < 256 -> i / 8 = j / 8 -> i mod 8 = j mod 8 -> i = j.
Proof. intros. rewrite (Z.div_mod i 8), (Z.div_mod j 8) by lia. lia. Qed.

Lemma land_b2z b off : 0 <= off -> Z.land (Z.shiftr b off) 1 = Z.b2z (Z.testbit b off).
Proof.
  intros Ho. rewrite (Z.land_ones (Z.shiftr b off) 1 ltac:(lia) : Z.land (Z.shiftr b off) 1 = Z.shiftr b off mod 2). rewrite Z.shiftr_div_pow2 by lia.
  by rewrite Z.testbit_spec' by lia.
Qed.

Definition bits_ok arr : Prop := length arr = 32%nat ∧ Forall (fun b => 0 <= b < 256) arr.

Lemma bit_byte arr ix : bits_ok arr -> 0 <= ix < 256 -> ∃ b, arr !! Z.to_nat (ix / 8) = Some b ∧
  arr_get arr (Z.shiftr ix 3) = Ret b ∧ used arr ix = Z.testbit b (ix mod 8) ∧ 0 <= b < 256.
Proof.
  intros [Hlen Hb] Hix. destruct (bit_index ix Hix) as (-> & _ & Hd & _).
  destruct (lookup_lt_is_Some_2 arr (Z.to_nat (ix / 8))) as [b Hg]; [lia|]. exists b. split; [done|].
  split; [apply arr_get_Some; [lia|done]|]. unfold used. rewrite Hg. split; [done|].
  rewrite Forall_forall in Hb. by eapply Hb, list_elem_of_lookup_2, Hg.
Qed.

Lemma bitarray_read_ok arr ix : bits_ok arr -> 0 <= ix < 256 ->
  swa_bitarray_read arr ix = Ret (Z.b2z (used arr ix)).
Proof.
  intros Ha Hix. destruct (bit_byte arr ix Ha Hix) as (b & _ & Hg & -> & _).
  destruct (bit_index ix Hix) as (_ & Ho & _ & ?). unfold swa_bitarray_read. rewrite Hg. cbn [mbind outcome_bind].
  by rewrite Ho, land_b2z by lia.
Qed.

(** Both updates put a byte with one bit changed. *)
Lemma bit_store arr ix b nyu v : bits_ok arr -> 0 <= ix < 256 -> arr !! Z.to_nat (ix / 8) = Some b ->
  0 <= nyu < 256 -> (∀ k, 0 <= k < 8 -> Z.testbit nyu k = if k =? ix mod 8 then v else Z.testbit b k) ->
  arr_set arr (Z.shiftr ix 3) nyu = Ret (<[Z.to_nat (ix / 8) := nyu]> arr) ∧
  bits_ok (<[Z.to_nat (ix / 8) := nyu]> arr) ∧
  (∀ j, 0 <= j < 256 -> used (<[Z.to_nat (ix / 8) := nyu]> arr) j = if j =? ix then v else used arr j).
Proof.
  intros [Hlen Hb] Hix Hg Hny Hbits. destruct (bit_index ix Hix) as (-> & _ & Hd & Hm).
  split; [rewrite arr_set_in_range; [done|lia]|]. split.
  { split; [by rewrite length_insert|]. by apply Forall_insert. }
  intros j Hj. destruct (bit_index j Hj) as (_ & _ & Hdj & Hmj). unfold used.
  destruct (decide (ix / 8 = j / 8)) as [He|Hne].
  - rewrite He, list_lookup_insert_eq by lia. rewrite Hbits by lia. rewrite <- He, Hg.
    destruct (Z.eqb_spec (j mod 8) (ix mod 8)), (Z.eqb_spec j ix); try done; [|congruence].
    exfalso. eauto using same_place.
  - rewrite list_lookup_insert_ne by lia. destruct (Z.eqb_spec j ix); [congruence|done].
Qed.

Lemma bitarray_set_ok arr ix : bits_ok arr -> 0 <= ix < 256 ->
  ∃ arr', swa_bitarray_read_then_set arr ix = Ret (arr', Z.b2z (used arr ix)) ∧ bits_ok arr' ∧
    (∀ j, 0 <= j < 256 -> used arr' j = if j =? ix then true else used arr j).
Proof.
  intros Ha Hix. destruct (bit_byte arr ix Ha Hix) as (b & Hb & Hg & Hu & Hrb).
  destruct (bit_index ix Hix) as (_ & Ho & _ & ?). unfold swa_bitarray_read_then_set. rewrite Hg, Ho.
  cbn [mbind outcome_bind].
  destruct (bit_store arr ix b (u8 (Z.lor b (Z.shiftl 1 (ix mod 8)))) true Ha Hix Hb) as (-> & Hok & Hus).
  - apply (wrap_range 8). lia.
  - intros k Hk. unfold u8, wrap. rewrite Z.mod_pow2_bits_low, Z.lor_spec, Z.shiftl_spec by lia.
    destruct (Z.eqb_spec k (ix mod 8)) as [->|Hne]; [by rewrite Z.sub_diag, orb_true_r|].
    destruct (Z.lt_total (k - ix mod 8) 0) as [?|[?|?]]; [by rewrite (Z.testbit_neg_r 1), orb_false_r by lia|lia|].
    by rewrite (Z.bits_above_log2 1), orb_false_r by (cbn; lia).
  - cbn [mbind outcome_bind]. eexists. rewrite land_b2z, <- Hu by lia. done.
Qed.

Lemma bitarray_clear_ok arr ix : bits_ok arr -> 0 <= ix < 256 ->
  ∃ arr', swa_bitarray_read_then_clear arr ix = Ret (arr', Z.b2z (used arr ix)) ∧ bits_ok arr' ∧
    (∀ j, 0 <= j < 256 -> used arr' j = if j =? ix then false else used arr j).
Proof.
  intros Ha Hix. destruct (bit_byte arr ix Ha Hix) as (b & Hb & Hg & Hu & Hrb).
  destruct (bit_index ix Hix) as (_ & Ho & _ & ?). unfold swa_bitarray_read_then_clear. rewrite Hg, Ho.
  cbn [mbind outcome_bind].
  destruct (bit_store arr ix b (u8 (Z.land b (Z.lnot (Z.shiftl 1 (ix mod 8))))) false Ha Hix Hb) as (-> & Hok & Hus).
  - apply (wrap_range 8). lia.
  - intros k Hk. unfold u8, wrap. rewrite Z.mod_pow2_bits_low, Z.land_spec, Z.lnot_spec, Z.shiftl_spec by lia.
    destruct (Z.eqb_spec k (ix mod 8)) as [->|Hne]; [by rewrite Z.sub_diag, andb_false_r|].
    destruct (Z.lt_total (k - ix mod 8) 0) as [?|[?|?]]; [by rewrite (Z.testbit_neg_r 1), andb_true_r by lia|lia|].
    by rewrite (Z.bits_above_log2 1), andb_true_r by (cbn; lia).
  - cbn [mbind outcome_bind]. eexists. rewrite land_b2z, <- Hu by lia. done.
Qed.

Lemma used_empty ix : used (repeat 0 32) ix = false.
Proof.
  unfold used. destruct (repeat 0 32 !! Z.to_nat (ix / 8)) as [b|] eqn:Hb; [|done].
  apply list_elem_of_lookup_2, list_elem_of_In, repeat_spec in Hb as ->. apply Z.testbit_0_l.
Qed.

End Count.

(** ** Bytes of keys *)

(** Equal in the bytes [i] to 0. *)
Fixpoint same_bytes (i : nat) (k k' : Z) : bool :=
  (key_ix k i =? key_ix k' i) && match i with O => true | S i' => same_bytes i' k k' end.

Section Keys.

Lemma key_ix_div k i : key_ix k i = k / 256 ^ Z.of_nat i mod 256.
Proof.
  unfold key_ix. change 0xFF with (Z.ones 8). rewrite Z.land_ones, Z.shiftr_div_pow2 by lia.
  rewrite Z.mul_comm, Z.pow_mul_r by lia. done.
Qed.

Lemma key_ix_range k i : 0 <= key_ix k i < 256.
Proof. rewrite key_ix_div. apply Z.mod_pos_bound. lia. Qed.

Lemma key_ix_0 k : Z.land k 0xFF = key_ix k 0.
Proof. unfold key_ix. cbn. by rewrite Z.shiftr_0_r. Qed.

Lemma mod_bytes k i : k mod 256 ^ Z.of_nat (S i) =
  k mod 256 ^ Z.of_nat i + 256 ^ Z.of_nat i * key_ix k i.
Proof.
  rewrite key_ix_div, Nat2Z.inj_succ, Z.pow_succ_r, Z.mul_comm by lia.
  apply Z.rem_mul_r; [apply Z.pow_nonzero; lia|lia].
Qed.

Lemma same_bytes_mod i k k' : same_bytes i k k' = true <-> k mod 256 ^ Z.of_nat (S i) = k' mod 256 ^ Z.of_nat (S i).
Proof.
  induction i as [|i IH]; cbn [same_bytes]; rewrite andb_true_iff, Z.eqb_eq.
  - rewrite !(mod_bytes _ 0). cbn. rewrite !Z.mod_1_r. pose proof (key_ix_range k 0). split; [intros [-> _]; done|intros ?; split; [lia|done]].
  - rewrite IH, !(mod_bytes _ (S i)). set (m := 256 ^ Z.of_nat (S i)). assert (0 < m) by (apply Z.pow_pos_nonneg; lia).
    pose proof (Z.mod_pos_bound k m). pose proof (Z.mod_pos_bound k' m).
    split; [intros [-> ->]; done|]. intros He.
    assert (key_ix k (S i) = key_ix k' (S i)) as Hk by nia. rewrite Hk in He. split; [done|lia].
Qed.

Lemma same_bytes_word k k' : 0 <= k < 2 ^ 64 -> 0 <= k' < 2 ^ 64 -> same_bytes _3_or_7 k k' = (k =? k').
Proof.
  intros Hk Hk'. apply eq_true_iff_eq. rewrite same_bytes_mod, Z.eqb_eq.
  change (256 ^ Z.of_nat (S _3_or_7)) with (2 ^ 64). by rewrite !Z.mod_small.
Qed.

Lemma same_bytes_refl i k : same_bytes i k k = true.
Proof. by apply same_bytes_mod. Qed.

End Keys.

(** ** Well-formed nodes *)

Definition has (child : list (option node)) (ix : Z) : bool :=
  match child !! Z.to_nat ix with Some (Some _) => true | _ => false end.

Definition busy (nd : node) : Prop :=
  0 < match nd with Level0 _ n _ => n | LevelN _ n _ => n end.

(** A node of level [i]: its count is exact and its children are of the level below
    and not empty. *)
Fixpoint wf (i : nat) (nd : node) : Prop :=
  match i, nd with
  | O, Level0 words n inUse => length words = 256%nat ∧ bits_ok inUse ∧ n = count (used inUse)
  | S i', LevelN child n level =>
      level = Z.of_nat i ∧ length child = 256%nat ∧ n = count (has child) ∧
      (∀ ix c, child !! ix = Some (Some c) -> wf i' c ∧ busy c)
  | _, _ => False
  end.

(** The value of a key below a node of level [i]. *)
Fixpoint get (i : nat) (nd : node) (k : Z) : option Z :=
  match i, nd with
  | O, Level0 words _ inUse =>
      if used inUse (key_ix k 0) then words !! Z.to_nat (key_ix k 0) else None
  | S i', LevelN child _ _ =>
      match child !! Z.to_nat (key_ix k i) with Some (Some c) => get i' c k | _ => None end
  | _, _ => None
  end.

Section Operations.
Implicit Types (i : nat) (nd c : node) (key val : Z).

Lemma child_get child n level i key :
  wf (S i) (LevelN child n level) ->
  ∃ o, child !! Z.to_nat (key_ix key (S i)) = Some o ∧ arr_get child (key_ix key (S i)) = Ret o ∧
    (∀ c, o = Some c -> wf i c ∧ busy c) ∧ has child (key_ix key (S i)) = match o with Some _ => true | None => false end.
Proof.
  intros (_ & Hlen & _ & Hc). pose proof (key_ix_range key (S i)) as Hr.
  destruct (lookup_lt_is_Some_2 child (Z.to_nat (key_ix key (S i)))) as [o Ho]; [lia|]. exists o.
  split; [done|]. split; [apply arr_get_Some; [lia|done]|]. split; [intros c ->; by eapply Hc|].
  unfold has. rewrite Ho. by destruct o.
Qed.

Lemma has_insert child ix o j : 0 <= ix < Z.of_nat (length child) -> 0 <= j ->
  has (<[Z.to_nat ix := o]> child) j =
  if j =? ix then match o with Some _ => true | None => false end else has child j.
Proof.
  intros Hix Hj. unfold has. destruct (Z.eqb_spec j ix) as [->|Hne].
  - rewrite list_lookup_insert_eq by lia. by destruct o.
  - by rewrite list_lookup_insert_ne by lia.
Qed.

Lemma fresh_ok i : wf i (fresh i) ∧ ∀ k, get i (fresh i) k = None.
Proof.
  destruct i as [|i]; cbn [fresh wf get swa_new_Level0 swa_new_LevelN].
  - split; [split; [done|split; [split; [done|by repeat constructor]|vm_compute; done]]|].
    intros k. by rewrite used_empty.
  - assert (∀ ix (c : node), repeat (@None node) 256 !! ix = Some (Some c) -> False) as Hno.
    { intros ix c Hc. by apply list_elem_of_lookup_2, list_elem_of_In, repeat_spec in Hc. }
    split.
    + split; [done|]. split; [done|]. split; [vm_compute; done|]. intros ix c Hc. by apply Hno in Hc.
    + intros k. destruct (repeat None 256 !! _) as [[c|]|] eqn:Hc; [by apply Hno in Hc|done..].
Qed.

Lemma lookup_wrk_ok i key : ∀ o, (∀ nd, o = Some nd -> wf i nd ∧ busy nd) ->
  lookup_wrk i o key = Ret (nd ← o; get i nd key).
Proof.
  induction i as [|i IH]; intros [nd|] Hw; try done; destruct (Hw nd eq_refl) as [Hwf Hb];
    destruct nd as [words n inUse|child n level]; try done; cbn [lookup_wrk]; unfold busy in Hb.
  - destruct Hwf as (Hlen & Hbits & _). unfold vg_assert. replace (0 <? n) with true by lia. cbn [mbind outcome_bind].
    rewrite key_ix_0. pose proof (key_ix_range key 0) as Hr. rewrite bitarray_read_ok by done. cbn [mbind outcome_bind option_bind get].
    destruct (used inUse (key_ix key 0)); cbn [Z.b2z Z.eqb]; [|done].
    destruct (arr_get_in_range words (key_ix key 0)) as (v & -> & ->); [lia|]. done.
  - destruct (child_get _ _ _ _ key Hwf) as (o & Ho & Hg & Hc & _). destruct Hwf as (-> & _).
    unfold vg_assert. rewrite Z.eqb_refl. replace (0 <? n) with true by lia. cbn [mbind outcome_bind].
    rewrite Hg. cbn [mbind outcome_bind option_bind get]. rewrite (IH o Hc), Ho. by destruct o.
Qed.

(** One more place in use. *)
Lemma count_grow f g ix : 0 <= ix < 256 -> f ix = false -> (∀ j, 0 <= j < 256 -> g j = if j =? ix then true else f j) ->
  count g = count f + 1.
Proof.
  intros Hix Hf Hg. rewrite <- (count_change f (fun j => if j =? ix then true else f j) ix Hix Hf).
  - by apply count_ext.
  - by rewrite Z.eqb_refl.
  - intros j Hj. by destruct (Z.eqb_spec j ix).
Qed.

Lemma count_shrink f g ix : 0 <= ix < 256 -> f ix = true -> (∀ j, 0 <= j < 256 -> g j = if j =? ix then false else f j) ->
  count f = count g + 1.
Proof.
  intros Hix Hf Hg. apply (count_grow g f ix Hix); [rewrite Hg, Z.eqb_refl by done; done|].
  intros j Hj. rewrite Hg by done. destruct (Z.eqb_spec j ix) as [->|]; done.
Qed.

Lemma add_wrk_ok i key val : ∀ nd, wf i nd ->
  ∃ nd', add_wrk i nd key val = Ret (nd', bool_decide (is_Some (get i nd key))) ∧ wf i nd' ∧ busy nd' ∧
    ∀ k', get i nd' k' = if same_bytes i key k' then Some val else get i nd k'.
Proof.
  induction i as [|i IH]; intros [words n inUse|child n level] Hwf; try done; cbn [add_wrk].
  - destruct Hwf as (Hlen & Hbits & Hn). rewrite key_ix_0. pose proof (key_ix_range key 0) as Hr.
    destruct (bitarray_set_ok inUse (key_ix key 0) Hbits Hr) as (arr & -> & Hok & Hus). cbn [mbind outcome_bind fst snd get].
    destruct (arr_get_in_range words (key_ix key 0)) as (old & _ & Hold); [lia|].
    assert (∃ n', (n' ← (if Z.b2z (used inUse (key_ix key 0)) =? 0 then int_ (n + 1) else Ret n); Ret n') = Ret n' ∧
      n' = count (used arr)) as (n' & Hn' & Hc).
    { pose proof (count_range (used inUse)). destruct (used inUse (key_ix key 0)) eqn:Hu; cbn.
      - exists n. split; [done|]. rewrite Hn. apply count_ext. intros j Hj. rewrite Hus by done.
        by destruct (Z.eqb_spec j (key_ix key 0)) as [->|].
      - rewrite int_ok by (unfold INT_MIN, INT_MAX; lia). exists (n + 1). split; [done|]. rewrite Hn. symmetry.
        by apply (count_grow _ _ (key_ix key 0)). }
    assert (used arr (key_ix key 0) = true) as Hu1 by (by rewrite Hus, Z.eqb_refl).
    pose proof (count_pos _ _ Hr Hu1). pose proof (count_range (used arr)).
    destruct (if Z.b2z (used inUse (key_ix key 0)) =? 0 then int_ (n + 1) else Ret n) as [m|]; [|done].
    injection Hn' as ->. cbn [mbind outcome_bind]. unfold vg_assert. replace ((1 <=? n') && (n' <=? 256)) with true by lia.
    cbn [mbind outcome_bind]. rewrite arr_set_in_range by lia. cbn [mbind outcome_bind].
    eexists. split; [f_equal; f_equal; rewrite Hold; destruct (used inUse (key_ix key 0)); done|].
    split; [cbn [wf]; by rewrite length_insert|]. split; [unfold busy; lia|].
    intros k'. cbn [get same_bytes]. rewrite Hus by apply key_ix_range. pose proof (key_ix_range k' 0).
    rewrite (Z.eqb_sym (key_ix key 0)), andb_true_r. destruct (Z.eqb_spec (key_ix k' 0) (key_ix key 0)) as [->|Hne].
    + by rewrite list_lookup_insert_eq by lia.
    + by rewrite list_lookup_insert_ne by lia.
  - pose proof Hwf as (-> & Hlen & Hn & Hch). destruct (child_get _ _ _ _ key Hwf) as (o & Ho & Hg & Hc & Hhas).
    pose proof (key_ix_range key (S i)) as Hr. unfold vg_assert. rewrite Z.eqb_refl. cbn [mbind outcome_bind].
    rewrite Hg. cbn [mbind outcome_bind].
    assert (∃ c n', (match o with None => n ← int_ (n + 1); Ret (fresh i, n) | Some c => Ret (c, n) end) = Ret (c, n') ∧
      wf i c ∧ (∀ k, get i c k = c ← o; get i c k) ∧
      n' = count (fun j => if j =? key_ix key (S i) then true else has child j)) as (c & n' & -> & Hwc & Hgc & Hn').
    { destruct o as [c|].
      - exists c, n. split; [done|]. split; [by apply Hc|]. split; [done|]. rewrite Hn. apply count_ext.
        intros j Hj. by destruct (Z.eqb_spec j (key_ix key (S i))) as [->|].
      - pose proof (count_range (has child)). rewrite int_ok by (unfold INT_MIN, INT_MAX; lia).
        exists (fresh i), (n + 1). split; [done|]. destruct (fresh_ok i) as [? Hf]. split; [done|].
        split; [done|]. rewrite Hn. symmetry. by apply (count_grow _ _ (key_ix key (S i))). }
    cbn [mbind outcome_bind fst snd].
    set (f := fun j => if j =? key_ix key (S i) then true else has child j) in Hn'.
    assert (f (key_ix key (S i)) = true) as Hf by (unfold f; by rewrite Z.eqb_refl).
    pose proof (count_pos f _ Hr Hf). pose proof (count_range f).
    replace ((1 <=? n') && (n' <=? 256)) with true by lia. cbn [mbind outcome_bind].
    destruct (IH c Hwc) as (c' & -> & Hwc' & Hbc' & Hgc'). cbn [mbind outcome_bind fst snd].
    rewrite arr_set_in_range by lia. cbn [mbind outcome_bind]. eexists.
    split; [f_equal; f_equal; cbn [get]; rewrite Ho, Hgc; by destruct o|]. split; [|split; [unfold busy; lia|]].
    + split; [done|]. split; [by rewrite length_insert|]. split.
      * rewrite Hn'. apply count_ext. intros j Hj. by rewrite has_insert by lia.
      * intros ix d Hd. apply list_lookup_insert_Some in Hd as [(_ & [= ->] & _)|[_ Hd]]; [done|by eapply Hch].
    + intros k'. cbn [get same_bytes]. pose proof (key_ix_range k' (S i)).
      destruct (Z.eqb_spec (key_ix key (S i)) (key_ix k' (S i))) as [He|Hne]; cbn [andb].
      * rewrite <- He, list_lookup_insert_eq, Hgc', Ho, Hgc by lia. by destruct o.
      * by rewrite list_lookup_insert_ne by lia.
Qed.

End Operations.

Section Deletion.
Implicit Types (i : nat) (nd c : node) (key : Z).

(** What is left of a node of level [i] when the pair of [key] goes. *)
Definition without (i : nat) (key : Z) (nd : node) (o : root) : Prop :=
  match o with
  | Some nd' => wf i nd' ∧ busy nd' ∧ ∀ k', get i nd' k' = if same_bytes i key k' then None else get i nd k'
  | None => ∀ k', same_bytes i key k' = false -> get i nd k' = None
  end.

Lemma del_wrk_ok i key : ∀ o, (∀ nd, o = Some nd -> wf i nd ∧ busy nd) ->
  match (nd ← o; get i nd key) with
  | None => del_wrk i o key = Ret None
  | Some v => ∃ o', del_wrk i o key = Ret (Some (o', v)) ∧ ∃ nd, o = Some nd ∧ without i key nd o'
  end.
Proof.
  induction i as [|i IH]; intros [nd|] Hw; try done; destruct (Hw nd eq_refl) as [Hwf Hb];
    destruct nd as [words n inUse|child n level]; try done; cbn [del_wrk mbind option_bind]; unfold busy in Hb.
  - destruct Hwf as (Hlen & Hbits & Hn). unfold vg_assert. replace (0 <? n) with true by lia. cbn [mbind outcome_bind get].
    rewrite key_ix_0. pose proof (key_ix_range key 0) as Hr.
    destruct (bitarray_clear_ok inUse (key_ix key 0) Hbits Hr) as (arr & -> & Hok & Hus). cbn [mbind outcome_bind fst snd].
    destruct (used inUse (key_ix key 0)) eqn:Hu; cbn [Z.b2z Z.eqb]; [|done].
    destruct (arr_get_in_range words (key_ix key 0)) as (v & -> & Hv); [lia|]. rewrite Hv. cbn [mbind outcome_bind].
    pose proof (count_range (used inUse)). rewrite int_ok by (unfold INT_MIN, INT_MAX; lia). cbn [mbind outcome_bind].
    pose proof (count_shrink _ _ _ Hr Hu Hus) as Hcount. pose proof (count_range (used arr)). case_bool.
    + eexists. split; [done|]. eexists. split; [done|]. split; [split; [done|split; [done|lia]]|].
      split; [unfold busy; lia|]. intros k'. cbn [get same_bytes]. rewrite Hus by apply key_ix_range.
      rewrite (Z.eqb_sym (key_ix key 0)), andb_true_r. by destruct (Z.eqb_spec (key_ix k' 0) (key_ix key 0)).
    + eexists. split; [done|]. eexists. split; [done|]. intros k'. cbn [get same_bytes]. rewrite andb_true_r. intros Hne.
      assert (used arr (key_ix k' 0) = false) as Hz by (apply count_zero; [lia|apply key_ix_range]).
      rewrite Hus, Z.eqb_sym, Hne in Hz by apply key_ix_range. by rewrite Hz.
  - destruct (child_get _ _ _ _ key Hwf) as (o & Ho & Hg & Hc & Hhas). destruct Hwf as (-> & Hlen & Hn & Hch).
    pose proof (key_ix_range key (S i)) as Hr. unfold vg_assert. rewrite Z.eqb_refl. replace (0 <? n) with true by lia.
    cbn [mbind outcome_bind]. rewrite Hg. cbn [mbind outcome_bind get]. rewrite Ho.
    specialize (IH o Hc). destruct o as [c|]; cbn [mbind option_bind] in IH; [|by rewrite IH].
    destruct (get i c key) as [v|]; [|by rewrite IH]. destruct IH as (o' & -> & c1 & [= <-] & Hwo). cbn [mbind outcome_bind].
    assert (∀ j d, <[Z.to_nat (key_ix key (S i)) := o']> child !! j = Some (Some d) -> wf i d ∧ busy d) as Hch'.
    { intros j d Hd. apply list_lookup_insert_Some in Hd as [(_ & -> & _)|[_ Hd]]; [|by eapply Hch].
      by destruct Hwo as (? & ? & _). }
    destruct o' as [c'|].
    + rewrite arr_set_in_range by lia. cbn [mbind outcome_bind]. eexists. split; [done|]. eexists. split; [done|].
      split; [|split; [done|]].
      * split; [done|]. split; [by rewrite length_insert|]. split; [|done]. rewrite Hn. apply count_ext. intros j Hj.
        rewrite has_insert by lia. by destruct (Z.eqb_spec j (key_ix key (S i))) as [->|].
      * intros k'. cbn [get same_bytes]. pose proof (key_ix_range k' (S i)).
        destruct (Z.eqb_spec (key_ix key (S i)) (key_ix k' (S i))) as [He|Hne]; cbn [andb].
        -- rewrite <- He, list_lookup_insert_eq, Ho by lia. by apply Hwo.
        -- by rewrite list_lookup_insert_ne by lia.
    + rewrite arr_set_in_range by lia. cbn [mbind outcome_bind].
      pose proof (count_range (has child)). rewrite int_ok by (unfold INT_MIN, INT_MAX; lia). cbn [mbind outcome_bind].
      assert (∀ j, 0 <= j < 256 -> has (<[Z.to_nat (key_ix key (S i)) := None]> child) j =
        if j =? key_ix key (S i) then false else has child j) as Hhas' by (intros; by rewrite has_insert by lia).
      pose proof (count_shrink _ _ _ Hr Hhas Hhas') as Hcount.
      pose proof (count_range (has (<[Z.to_nat (key_ix key (S i)) := None]> child))).
      replace (0 <=? n - 1) with true by lia. cbn [mbind outcome_bind]. case_bool.
      * eexists. split; [done|]. eexists. split; [done|]. split; [|split; [unfold busy; lia|]].
        -- split; [done|]. split; [by rewrite length_insert|]. split; [lia|done].
        -- intros k'. cbn [get same_bytes]. pose proof (key_ix_range k' (S i)).
           destruct (Z.eqb_spec (key_ix key (S i)) (key_ix k' (S i))) as [He|Hne]; cbn [andb].
           ++ rewrite <- He, list_lookup_insert_eq, Ho by lia. destruct (same_bytes i key k') eqn:Hs; [done|].
              symmetry. by apply Hwo.
           ++ by rewrite list_lookup_insert_ne by lia.
      * eexists. split; [done|]. eexists. split; [done|]. intros k'. cbn [get same_bytes].
        pose proof (key_ix_range k' (S i)) as Hr'.
        destruct (Z.eqb_spec (key_ix key (S i)) (key_ix k' (S i))) as [He|Hne]; cbn [andb]; intros Hs.
        -- rewrite <- He, Ho. by apply Hwo.
        -- assert (has child (key_ix k' (S i)) = false) as Hz.
           { assert (has (<[Z.to_nat (key_ix key (S i)) := None]> child) (key_ix k' (S i)) = false) as Hz
               by (apply count_zero; [lia|done]).
             rewrite Hhas' in Hz by done. by destruct (Z.eqb_spec (key_ix k' (S i)) (key_ix key (S i))). }
           unfold has in Hz. by destruct (child !! Z.to_nat (key_ix k' (S i))) as [[d|]|].
Qed.

End Deletion.

(** ** Entries in the order of the keys *)

(** The pairs below a node from index [ix] on, if the bytes above it are [p]. *)
Fixpoint entries (nd : node) (p : Z) : list (Z * Z) :=
  match nd with
  | Level0 words _ inUse =>
      omap (fun ix => if used inUse ix then (fun v => (p * 256 + ix, v)) <$> (words !! Z.to_nat ix) else None) (seqZ 0 256)
  | LevelN child _ _ =>
      (fix go (ix : Z) (l : list (option node)) : list (Z * Z) :=
         match l with
         | [] => []
         | Some c :: l => entries c (p * 256 + ix) ++ go (ix + 1) l
         | None :: l => go (ix + 1) l
         end) 0 child
  end.

Fixpoint child_entries (p ix : Z) (l : list (option node)) : list (Z * Z) :=
  match l with
  | [] => []
  | Some c :: l => entries c (p * 256 + ix) ++ child_entries p (ix + 1) l
  | None :: l => child_entries p (ix + 1) l
  end.

Definition entries_from (nd : node) (p ix : Z) : list (Z * Z) :=
  match nd with
  | Level0 words _ inUse =>
      omap (fun ix => if used inUse ix then (fun v => (p * 256 + ix, v)) <$> (words !! Z.to_nat ix) else None)
        (seqZ ix (256 - ix))
  | LevelN child _ _ => child_entries p ix (drop (Z.to_nat ix) child)
  end.

Section Entries.
Implicit Types (i : nat) (nd c : node) (p ix k v : Z).

Lemma entries_LevelN child n level p : entries (LevelN child n level) p = child_entries p 0 child.
Proof.
  cbn [entries]. generalize 0 as ix. induction child as [|[c|] l IH]; intros ix; cbn [child_entries]; [done|..]; by rewrite IH.
Qed.

Lemma entries_from_0 nd p : entries nd p = entries_from nd p 0.
Proof.
  destruct nd; cbn [entries_from]; [by rewrite Z.sub_0_r|]. rewrite entries_LevelN. by rewrite drop_0.
Qed.

Lemma child_entries_In p ix l k v :
  (k, v) ∈ child_entries p ix l <-> ∃ (j : nat) c, l !! j = Some (Some c) ∧ (k, v) ∈ entries c (p * 256 + (ix + Z.of_nat j)).
Proof.
  revert ix. induction l as [|o l IH]; intros ix.
  - cbn [child_entries]. split; [set_solver|]. intros (j & c & Hj & _). done.
  - destruct o as [c|]; cbn [child_entries]; rewrite ?elem_of_app, IH; split.
    + intros [Hc|(j & d & Hj & Hd)]; [exists 0%nat, c; split; [done|by rewrite Z.add_0_r]|].
      exists (S j), d. split; [done|]. by replace (ix + Z.of_nat (S j)) with (ix + 1 + Z.of_nat j) by lia.
    + intros ([|j] & d & Hj & Hd); [left; simplify_eq/=; by rewrite Z.add_0_r in Hd|]. right. exists j, d. split; [done|].
      by replace (ix + Z.of_nat (S j)) with (ix + 1 + Z.of_nat j) in Hd by lia.
    + intros (j & d & Hj & Hd). exists (S j), d. split; [done|].
      by replace (ix + Z.of_nat (S j)) with (ix + 1 + Z.of_nat j) by lia.
    + intros ([|j] & d & Hj & Hd); [done|]. exists j, d. split; [done|].
      by replace (ix + Z.of_nat (S j)) with (ix + 1 + Z.of_nat j) in Hd by lia.
Qed.

Lemma leaf_entries_In (words inUse : list Z) p k v l : Forall (fun ix => 0 <= ix) l ->
  (k, v) ∈ omap (fun ix => if used inUse ix then (fun v => (p * 256 + ix, v)) <$> (words !! Z.to_nat ix) else None) l <->
  ∃ ix, ix ∈ l ∧ k = p * 256 + ix ∧ used inUse ix = true ∧ words !! Z.to_nat ix = Some v.
Proof.
  intros Hl. rewrite list_elem_of_omap. split.
  - intros (ix & Hix & Hm). exists ix. destruct (used inUse ix); [|done].
    destruct (words !! Z.to_nat ix); simplify_eq/=. done.
  - intros (ix & Hix & -> & Hu & Hw). exists ix. split; [done|]. by rewrite Hu, Hw.
Qed.

Lemma div_byte k m : 0 < m -> k / m / 256 = k / (256 * m).
Proof. intros. rewrite Z.div_div by lia. f_equal. lia. Qed.

(** The pairs of a node are what [get] finds below its prefix. *)
Lemma entries_get i : ∀ nd p k v, wf i nd ->
  (k, v) ∈ entries nd p <-> k / 256 ^ Z.of_nat (S i) = p ∧ get i nd k = Some v.
Proof.
  induction i as [|i IH]; intros [words n inUse|child n level] p k v Hwf; try done.
  - cbn [entries get]. rewrite leaf_entries_In by (apply Forall_forall; intros ix Hix%elem_of_seqZ; lia).
    rewrite key_ix_div. change (256 ^ Z.of_nat 1) with 256. change (256 ^ Z.of_nat 0) with 1. rewrite Z.div_1_r. split.
    + intros (ix & Hix%elem_of_seqZ & -> & Hu & Hw). split; [symmetry; by apply (Z.div_unique_pos _ 256 p ix); lia|].
      replace ((p * 256 + ix) mod 256) with ix by (apply (Z.mod_unique_pos _ 256 p); lia). by rewrite Hu.
    + intros [<- Hg]. exists (k mod 256). pose proof (Z.mod_pos_bound k 256). split; [apply elem_of_seqZ; lia|].
      split; [rewrite Z.mul_comm; by apply Z.div_mod|]. by destruct (used inUse (k mod 256)).
  - rewrite entries_LevelN, child_entries_In. pose proof Hwf as (_ & Hlen & _ & Hch).
    assert (0 < 256 ^ Z.of_nat (S i)) as Hpos by (apply Z.pow_pos_nonneg; lia).
    rewrite (Nat2Z.inj_succ (S i)), Z.pow_succ_r, <- div_byte by lia.
    set (q := k / 256 ^ Z.of_nat (S i)). cbn [get]. rewrite key_ix_div. fold q. split.
    + intros (j & c & Hj & Hc). apply IH in Hc as [Hq Hg]; [|by eapply Hch].
      pose proof (lookup_lt_Some _ _ _ Hj). rewrite Z.add_0_l in Hq. fold q in Hq.
      assert (q mod 256 = Z.of_nat j) as Hm by (symmetry; apply (Z.mod_unique_pos _ 256 p); lia).
      rewrite Hm, Nat2Z.id, Hj. split; [|done]. symmetry. apply (Z.div_unique_pos _ 256 p (Z.of_nat j)); lia.
    + intros [<- Hg]. pose proof (Z.mod_pos_bound q 256 ltac:(lia)).
      destruct (child !! Z.to_nat (q mod 256)) as [[c|]|] eqn:Hc; [|done..]. exists (Z.to_nat (q mod 256)), c.
      split; [done|]. apply IH; [by eapply Hch|]. split; [|done]. fold q. rewrite Z.add_0_l, Z2Nat.id by lia.
      rewrite Z.mul_comm. by apply Z.div_mod.
Qed.

Definition key_lt (a b : Z * Z) : Prop := a.1 < b.1.

(** Pairs of a later prefix come later. *)
Lemma entries_prefix i nd p k v : wf i nd -> (k, v) ∈ entries nd p ->
  p * 256 ^ Z.of_nat (S i) <= k < (p + 1) * 256 ^ Z.of_nat (S i).
Proof.
  intros Hwf [<- _]%(entries_get i); [|done]. set (m := 256 ^ Z.of_nat (S i)).
  assert (0 < m) by (apply Z.pow_pos_nonneg; lia).
  pose proof (Z.div_mod k m). pose proof (Z.mod_pos_bound k m). nia.
Qed.

Lemma StronglySorted_app_all {A} (R : A -> A -> Prop) (l l' : list A) :
  StronglySorted R l -> StronglySorted R l' -> (∀ x y, x ∈ l -> y ∈ l' -> R x y) -> StronglySorted R (l ++ l').
Proof.
  intros Hl Hk H. induction Hl as [|x l Hl IH Hx]; [done|]. cbn [app]. constructor.
  - apply IH. set_solver.
  - apply Forall_app. split; [done|]. apply Forall_forall. set_solver.
Qed.

Lemma child_entries_sorted i p ix l :
  (∀ j c, l !! j = Some (Some c) -> wf i c) ->
  (∀ c q, wf i c -> StronglySorted key_lt (entries c q)) -> StronglySorted key_lt (child_entries p ix l).
Proof.
  intros Hw Hs. revert ix Hw. induction l as [|o l IH]; intros ix Hw; cbn [child_entries]; [constructor|].
  assert (StronglySorted key_lt (child_entries p (ix + 1) l)) as Hl by (apply IH; intros j c Hj; by apply (Hw (S j))).
  destruct o as [c|]; [|done].
  apply StronglySorted_app_all; [by apply Hs, (Hw 0%nat)|done|]. intros [k1 v1] [k2 v2] H1 H2.
  apply (entries_prefix i) in H1; [|by apply (Hw 0%nat)]. apply child_entries_In in H2 as (j & d & Hj & H2).
  apply (entries_prefix i) in H2; [|by apply (Hw (S j))]. unfold key_lt. cbn [fst].
  assert (0 < 256 ^ Z.of_nat (S i)) by (apply Z.pow_pos_nonneg; lia). nia.
Qed.

Lemma entries_sorted i : ∀ nd p, wf i nd -> StronglySorted key_lt (entries nd p).
Proof.
  induction i as [|i IH]; intros [words n inUse|child n level] p Hwf; try done.
  - cbn [entries]. assert (∀ a n, StronglySorted key_lt (omap (fun ix => if used inUse ix then
      (fun v => (p * 256 + ix, v)) <$> (words !! Z.to_nat ix) else None) (seqZ a (Z.of_nat n)))) as H;
      [|apply (H 0 256%nat)].
    intros a m. revert a. induction m as [|m IHm]; intros a; [constructor|]. rewrite seqZ_cons by lia.
    replace (Z.pred (Z.of_nat (S m))) with (Z.of_nat m) by lia. cbn [omap list_omap].
    destruct (if used inUse a then _ else None) as [[k v]|] eqn:Ha; [|apply IHm]. constructor; [apply IHm|].
    apply Forall_forall. intros [k' v'] (ix & Hix%elem_of_seqZ & Hk')%list_elem_of_omap.
    destruct (used inUse a); [|done]. destruct (words !! Z.to_nat a); [|done]. simplify_eq/=.
    destruct (used inUse ix); [|done]. destruct (words !! Z.to_nat ix); [|done]. simplify_eq/=.
    unfold key_lt. cbn. lia.
  - rewrite entries_LevelN. apply (child_entries_sorted i); [|apply IH]. intros j c Hj. by apply Hwf in Hj as [? _].
Qed.

Lemma leaf_entries_eq words n inUse p : entries (Level0 words n inUse) p =
  omap (fun ix => if used inUse ix then (fun v => (p * 256 + ix, v)) <$> (words !! Z.to_nat ix) else None) (seqZ 0 256).
Proof. reflexivity. Qed.

Lemma not_nil_elem {A} (x : A) l : x ∈ l -> l ≠ [].
Proof. intros Hx ->. by apply not_elem_of_nil in Hx. Qed.

(** A busy node has pairs. *)
Lemma entries_busy i : ∀ nd p, wf i nd -> busy nd -> entries nd p ≠ [].
Proof.
  induction i as [|i IH]; intros [words n inUse|child n level] p Hwf Hb; try done; unfold busy in Hb.
  - destruct Hwf as (Hlen & _ & ->). apply count_witness in Hb as (ix & Hr & Hu).
    destruct (lookup_lt_is_Some_2 words (Z.to_nat ix)) as [v Hv]; [lia|].
    rewrite leaf_entries_eq. apply (not_nil_elem (p * 256 + ix, v)).
    apply leaf_entries_In; [apply Forall_forall; intros j Hj%elem_of_seqZ; lia|].
    exists ix. split; [by apply elem_of_seqZ|]. done.
  - destruct Hwf as (_ & Hlen & -> & Hch). apply count_witness in Hb as (ix & Hr & Hu). unfold has in Hu.
    destruct (child !! Z.to_nat ix) as [[c|]|] eqn:Hc; [|done..]. destruct (Hch _ _ Hc) as [Hwc Hbc].
    rewrite entries_LevelN. pose proof (IH c (p * 256 + (0 + Z.of_nat (Z.to_nat ix))) Hwc Hbc) as Hne.
    destruct (entries c _) as [|[k v] l'] eqn:He; [done|]. apply (not_nil_elem (k, v)), child_entries_In.
    exists (Z.to_nat ix), c. rewrite He. split; [done|by left].
Qed.

End Entries.

(** ** Size *)

Section Size.
Implicit Types (i : nat) (nd c : node) (p : Z).

Lemma leaf_length (words inUse : list Z) p l :
  length words = 256%nat -> (∀ ix, ix ∈ l -> 0 <= ix < 256) ->
  length (omap (fun ix => if used inUse ix then (fun v => (p * 256 + ix, v)) <$> (words !! Z.to_nat ix) else None) l) =
  length (List.filter (used inUse) l).
Proof.
  intros Hlen Hl. induction l as [|ix l IH]; [done|]. cbn [omap list_omap List.filter].
  assert (0 <= ix < 256) by (apply Hl; by left). specialize (IH ltac:(intros; apply Hl; by right)).
  destruct (lookup_lt_is_Some_2 words (Z.to_nat ix)) as [v Hv]; [lia|]. rewrite Hv.
  destruct (used inUse ix); cbn [fmap option_fmap option_map length]; by rewrite IH.
Qed.

Lemma sizeSWA_wrk_ok i : ∀ nd p, wf i nd -> swa_sizeSWA_wrk nd = u64 (Z.of_nat (length (entries nd p))).
Proof.
  induction i as [|i IH]; intros [words n inUse|child n level] p Hwf; try done.
  - destruct Hwf as (Hlen & _ & ->). rewrite leaf_entries_eq, leaf_length; [done|done|].
    intros ix Hix%elem_of_seqZ. lia.
  - destruct Hwf as (_ & _ & _ & Hch). rewrite entries_LevelN. cbn [swa_sizeSWA_wrk].
    assert (∀ ix a, (∀ j c, child !! j = Some (Some c) -> wf i c) ->
      foldl (fun sum (o : option node) => match o with Some c => u64 (sum + swa_sizeSWA_wrk c) | None => sum end) (u64 a) child =
      u64 (a + Z.of_nat (length (child_entries p ix child)))) as H.
    { clear Hch. induction child as [|o l IHl]; intros ix a Hch; cbn [foldl child_entries length]; [by rewrite Z.add_0_r|].
      assert (∀ j c, l !! j = Some (Some c) -> wf i c) as Hl by (intros j c Hj; by apply (Hch (S j))).
      destruct o as [c|]; [|by apply IHl]. rewrite (IH c (p * 256 + ix)) by (by apply (Hch 0%nat)).
      replace (u64 (u64 a + u64 (Z.of_nat (length (entries c (p * 256 + ix)))))) with
        (u64 (a + Z.of_nat (length (entries c (p * 256 + ix))))) by (unfold u64, wrap; by rewrite <- Z.add_mod by lia).
      rewrite (IHl (ix + 1)) by done. f_equal. rewrite length_app. lia. }
    apply (H 0 0). intros j c Hj. by apply (Hch j).
Qed.

End Size.

(** ** The iterator

    What an entry of the stack still has to yield. *)

Definition start_ix (e : SWAStackElem) : Z :=
  match resume e with start_new_node => 0 | _ => curr_ix e + 1 end.

Definition pending (e : SWAStackElem) : list (Z * Z) := entries_from (curr_nd e) (partial_key e) (start_ix e).

(** The entry with [n] below it is for a node of level [7 - n]. *)
Fixpoint stack_ok (stk : list SWAStackElem) : Prop :=
  match stk with
  | [] => True
  | e :: stk =>
      (∃ i, (i + length stk)%nat = _3_or_7 ∧ wf i (curr_nd e) ∧
         0 <= partial_key e < 256 ^ Z.of_nat (length stk) ∧ 0 <= start_ix e <= 256) ∧ stack_ok stk
  end.

Section Iteration.
Implicit Types (i : nat) (nd c : node) (p ix k v : Z) (stk : list SWAStackElem).

Lemma next_word_ok (words inUse : list Z) p (m : nat) ix :
  length words = 256%nat -> bits_ok inUse -> 0 <= ix -> ix + Z.of_nat m = 256 ->
  let f := fun ix => if used inUse ix then (fun v => (p * 256 + ix, v)) <$> (words !! Z.to_nat ix) else None in
  (next_word (seqZ ix (Z.of_nat m)) inUse = Ret None ∧ omap f (seqZ ix (Z.of_nat m)) = []) ∨
  (∃ j v, next_word (seqZ ix (Z.of_nat m)) inUse = Ret (Some j) ∧ ix <= j < 256 ∧ words !! Z.to_nat j = Some v ∧
     omap f (seqZ ix (Z.of_nat m)) = (p * 256 + j, v) :: omap f (seqZ (j + 1) (256 - (j + 1)))).
Proof.
  intros Hlen Hb Hix Hm f. revert ix Hix Hm. induction m as [|m IH]; intros ix Hix Hm; [by left|].
  rewrite seqZ_cons by lia. replace (Z.pred (Z.of_nat (S m))) with (Z.of_nat m) by lia.
  cbn [next_word omap list_omap]. rewrite bitarray_read_ok by (done || lia). cbn [mbind outcome_bind].
  destruct (lookup_lt_is_Some_2 words (Z.to_nat ix)) as [v Hv]; [lia|].
  destruct (used inUse ix) eqn:Hu; cbn [Z.b2z Z.eqb Pos.eqb].
  - right. exists ix, v. split; [done|]. split; [lia|]. split; [done|]. unfold f at 1. rewrite Hu, Hv. cbn [fmap option_fmap option_map].
    f_equal. f_equal. f_equal; lia.
  - replace (f ix) with (@None (Z * Z)) by (unfold f; by rewrite Hu).
    destruct (IH (Z.succ ix)) as [?|(j & w & ? & ? & ? & ?)]; [lia|lia|by left|]. right. exists j, w. split; [done|]. split; [lia|]. done.
Qed.

Lemma next_child_ok child p (m : nat) ix :
  length child = 256%nat -> 0 <= ix -> ix + Z.of_nat m = 256 ->
  (next_child (seqZ ix (Z.of_nat m)) child = Ret None ∧ child_entries p ix (drop (Z.to_nat ix) child) = []) ∨
  (∃ j c, next_child (seqZ ix (Z.of_nat m)) child = Ret (Some (j, c)) ∧ ix <= j < 256 ∧ child !! Z.to_nat j = Some (Some c) ∧
     child_entries p ix (drop (Z.to_nat ix) child) =
     entries c (p * 256 + j) ++ child_entries p (j + 1) (drop (Z.to_nat (j + 1)) child)).
Proof.
  intros Hlen Hix Hm. revert ix Hix Hm. induction m as [|m IH]; intros ix Hix Hm.
  - left. split; [done|]. by rewrite drop_ge by lia.
  - destruct (lookup_lt_is_Some_2 child (Z.to_nat ix)) as [o Ho]; [lia|].
    rewrite (drop_S _ _ _ Ho), seqZ_cons by lia. replace (Z.pred (Z.of_nat (S m))) with (Z.of_nat m) by lia.
    replace (S (Z.to_nat ix)) with (Z.to_nat (ix + 1)) by lia.
    cbn [next_child child_entries]. rewrite (arr_get_Some _ _ o) by (done || lia). cbn [mbind outcome_bind].
    destruct o as [c|].
    + right. exists ix, c. split; [done|]. split; [lia|]. done.
    + destruct (IH (Z.succ ix)) as [[? ?]|(j & d & ? & ? & ? & ?)]; [lia|lia|by left|]. right. exists j, d.
      split; [done|]. split; [lia|]. done.
Qed.

Lemma push_ok stk e i : (i + length stk)%nat = _3_or_7 -> swa_PUSH stk e = Ret (e :: stk).
Proof.
  intros Hl. unfold swa_PUSH, vg_assert, _3_or_7 in *.
  rewrite (proj2 (Z.leb_le 0 _)), (proj2 (Z.leb_le _ (Z.of_nat 7))) by lia. done.
Qed.

Lemma next_key p ix (n i : nat) : (i + n)%nat = _3_or_7 -> 0 <= p < 256 ^ Z.of_nat n -> 0 <= ix < 256 ->
  u64 (u64 (Z.shiftl p 8) + ix) = p * 256 + ix ∧ 0 <= p * 256 + ix < 256 ^ Z.of_nat (S n).
Proof.
  intros Hn Hp Hix. unfold _3_or_7 in Hn. rewrite Nat2Z.inj_succ, Z.pow_succ_r by lia.
  assert (256 ^ Z.of_nat n <= 256 ^ 7) by (apply Z.pow_le_mono_r; lia).
  unfold u64. rewrite Z.shiftl_mul_pow2 by lia. change (2 ^ 8) with 256.
  rewrite (wrap_small 64 (p * 256)) by lia. rewrite wrap_small by lia. lia.
Qed.

Lemma scan_node_ok i : ∀ fuel stk p nd ix,
  (i <= fuel)%nat -> (i + length stk)%nat = _3_or_7 -> wf i nd -> stack_ok stk ->
  0 <= p < 256 ^ Z.of_nat (length stk) -> 0 <= ix <= 256 ->
  match entries_from nd p ix with
  | [] => scan_node fuel stk p nd ix = Ret (inr stk)
  | (k, v) :: l => ∃ stk', scan_node fuel stk p nd ix = Ret (inl (k, v, stk')) ∧ stack_ok stk' ∧
      concat (pending <$> stk') = l ++ concat (pending <$> stk)
  end.
Proof.
  induction i as [|i IH]; intros fuel stk p nd ix Hf Hl Hwf Hst Hp Hix;
    destruct nd as [words n inUse|child n level]; try done.
  - pose proof Hwf as (Hlen & Hbits & _). destruct fuel; cbn [scan_node entries_from];
      replace (256 - ix) with (Z.of_nat (Z.to_nat (256 - ix))) by lia;
      (destruct (next_word_ok words inUse p (Z.to_nat (256 - ix)) ix Hlen Hbits) as [[-> ->]|(j & v & -> & Hj & Hv & ->)];
        [lia|lia|done|]); cbn [mbind outcome_bind]; rewrite (push_ok _ _ 0 Hl); cbn [mbind outcome_bind];
      rewrite (arr_get_Some _ _ v) by (done || lia); cbn [mbind outcome_bind];
      (destruct (next_key p j (length stk) 0 Hl Hp) as [-> _]; [lia|]);
      (eexists; split; [done|]); (split; [|done]); (split; [|done]); exists 0%nat; cbn; (split; [done|]);
      (split; [done|]); (split; [done|]); unfold start_ix; cbn; lia.
  - destruct fuel as [|fuel]; [lia|]. pose proof Hwf as (_ & Hlen & _ & Hch). cbn [scan_node entries_from].
    replace (256 - ix) with (Z.of_nat (Z.to_nat (256 - ix))) by lia.
    destruct (next_child_ok child p (Z.to_nat (256 - ix)) ix Hlen) as [[-> ->]|(j & c & -> & Hj & Hc & ->)];
      [lia|lia|done|]. cbn [mbind outcome_bind]. rewrite (push_ok _ _ (S i) Hl). cbn [mbind outcome_bind].
    destruct (Hch _ _ Hc) as [Hwc Hbc].
    destruct (next_key p j (length stk) (S i) Hl Hp) as [-> Hpk]; [lia|].
    set (e := Elem p j (LevelN child n level) resume_nonleaf_node).
    pose proof (IH fuel (e :: stk) (p * 256 + j) c 0 ltac:(lia) ltac:(cbn; lia) Hwc) as Hsc.
    rewrite <- entries_from_0 in Hsc. pose proof (entries_busy i c (p * 256 + j) Hwc Hbc) as Hne.
    destruct (entries c (p * 256 + j)) as [|[k v] l]; [done|]. cbn [app].
    destruct Hsc as (stk' & -> & Hst' & Hpe); [|cbn [length]; lia|lia|].
    { split; [|done]. exists (S i). split; [done|]. split; [done|]. split; [done|]. unfold start_ix. cbn. lia. }
    exists stk'. split; [done|]. split; [done|]. rewrite Hpe. cbn [fmap list_fmap concat].
    unfold pending at 2, start_ix. cbn [e curr_nd partial_key resume curr_ix entries_from]. by rewrite <- !app_assoc.
Qed.

Lemma dispatch_ok stk : ∀ fuel, (length stk <= fuel)%nat -> stack_ok stk ->
  match concat (pending <$> stk) with
  | [] => dispatch fuel stk = Ret (None, [])
  | kv :: l => ∃ stk', dispatch fuel stk = Ret (Some kv, stk') ∧ stack_ok stk' ∧ concat (pending <$> stk') = l
  end.
Proof.
  induction stk as [|e stk IH]; intros fuel Hf Hst; [by destruct fuel|].
  destruct Hst as [(i & Hl & Hwf & Hp & Hix) Hst]. cbn [fmap list_fmap concat length] in *.
  pose proof (scan_node_ok i (S _3_or_7) stk (partial_key e) (curr_nd e) (start_ix e) ltac:(unfold _3_or_7 in *; lia)
    Hl Hwf Hst Hp Hix) as Hsc. fold (pending e) in Hsc.
  assert (swa_POP (e :: stk) = Ret (e, stk)) as Hpop.
  { unfold swa_POP, vg_assert, _3_or_7 in *. cbn [length].
    rewrite (proj2 (Z.leb_le 0 _)), (proj2 (Z.leb_le _ (Z.of_nat 7))) by lia. done. }
  destruct fuel as [|fuel]; [lia|]. cbn [dispatch]. rewrite Hpop. cbn [mbind outcome_bind fst snd]. fold (start_ix e).
  destruct (pending e) as [|[k v] l].
  - rewrite Hsc. cbn [app mbind outcome_bind]. apply IH; [lia|done].
  - destruct Hsc as (stk' & -> & Hst' & Hpe). cbn [app mbind outcome_bind]. by exists stk'.
Qed.

End Iteration.

(** * Theorems *)

Definition word (k : Z) : Prop := 0 <= k < 2 ^ 64.

(** The tree is well formed and its pairs are those of the map [m]. *)
Definition represents (swa : root) (m : gmap Z Z) : Prop :=
  (∀ nd, swa = Some nd -> wf _3_or_7 nd ∧ busy nd) ∧
  (∀ k, word k -> m !! k = nd ← swa; get _3_or_7 nd k) ∧
  (∀ k, is_Some (m !! k) -> word k).

(** A client that runs the iterator to its end. *)
Fixpoint drain (fuel : nat) (stk : list SWAStackElem) : outcome (list (Z * Z)) :=
  r ← nextIterSWA stk;
  match r.1, fuel with
  | None, _ => Ret []
  | Some kv, O => Fault OutOfFuel
  | Some kv, S fuel => l ← drain fuel r.2; Ret (kv :: l)
  end.

Section Represents.
Implicit Types (swa : root) (m : gmap Z Z) (k v : Z).

Lemma represents_new : represents newSWA ∅.
Proof. split; [done|]. split; [by intros k _; rewrite lookup_empty|]. intros k. rewrite lookup_empty. by intros [? ?]. Qed.

Lemma lookup_ok swa m k : represents swa m -> word k -> lookupSWA swa k = Ret (m !! k).
Proof. intros (Hw & Hm & _) Hk. unfold lookupSWA. rewrite lookup_wrk_ok by done. by rewrite Hm. Qed.

Lemma add_ok swa m k v : represents swa m -> word k ->
  ∃ swa', addToSWA swa k v = Ret (swa', bool_decide (is_Some (m !! k))) ∧ represents swa' (<[k := v]> m).
Proof.
  intros (Hw & Hm & Hdom) Hk. unfold addToSWA.
  set (nd := match swa with None => swa_new_LevelN (Z.of_nat _3_or_7) | Some nd => nd end).
  assert (wf _3_or_7 nd ∧ ∀ k, get _3_or_7 nd k = nd ← swa; get _3_or_7 nd k) as [Hwn Hg].
  { unfold nd. destruct swa as [nd'|]; [split; [by apply Hw|done]|]. destruct (fresh_ok _3_or_7) as [? Hf]. split; [done|].
    intros k'. apply Hf. }
  destruct (add_wrk_ok _3_or_7 k v nd Hwn) as (nd' & -> & Hw' & Hb' & Hg'). cbn [mbind outcome_bind fst snd].
  exists (Some nd'). split; [by rewrite Hg, <- Hm|]. split; [intros ? [= <-]; done|]. split.
  - intros k' Hk'. cbn [mbind option_bind]. rewrite Hg', same_bytes_word, Hg, <- Hm by done.
    destruct (Z.eqb_spec k k') as [->|Hne]; [by rewrite lookup_insert_eq|by rewrite lookup_insert_ne].
  - intros k' [x Hx]. apply lookup_insert_Some in Hx as [[<- _]|[_ Hx]]; [done|]. by apply Hdom.
Qed.

Lemma del_ok swa m k : represents swa m -> word k ->
  ∃ swa', delFromSWA swa k = Ret (swa', m !! k) ∧ represents swa' (delete k m).
Proof.
  intros Hrep Hk. pose proof Hrep as (Hw & Hm & Hdom). unfold delFromSWA.
  pose proof (del_wrk_ok _3_or_7 k swa Hw) as Hd. rewrite <- Hm in Hd by done.
  destruct (m !! k) as [v|] eqn:Hmk.
  - destruct Hd as (o' & -> & nd & -> & Hwo). cbn [mbind outcome_bind]. exists o'. split; [done|]. split; [|split].
    + intros nd' ->. by destruct Hwo as (? & ? & _).
    + intros k' Hk'. destruct (decide (k = k')) as [->|Hne].
      * rewrite lookup_delete_eq. destruct o' as [nd'|]; [|done]. destruct Hwo as (_ & _ & Hg). cbn [mbind option_bind].
        by rewrite Hg, same_bytes_refl.
      * rewrite lookup_delete_ne, Hm by done. cbn [mbind option_bind].
        assert (same_bytes _3_or_7 k k' = false) as Hs by (rewrite same_bytes_word by done; by apply Z.eqb_neq).
        destruct o' as [nd'|]; cbn [mbind option_bind]; [destruct Hwo as (_ & _ & Hg); by rewrite Hg, Hs|by apply Hwo].
    + intros k' [x Hx]. apply lookup_delete_Some in Hx as [_ Hx]. by apply Hdom.
  - rewrite Hd. cbn [mbind outcome_bind]. exists swa. split; [done|]. by rewrite delete_id.
Qed.

(** The pairs of the tree, in order. *)
Definition pairs swa : list (Z * Z) := match swa with Some nd => entries nd 0 | None => [] end.

Lemma pairs_ok swa m : represents swa m ->
  StronglySorted key_lt (pairs swa) ∧ ∀ k v, (k, v) ∈ pairs swa <-> m !! k = Some v.
Proof.
  intros (Hw & Hm & Hdom). destruct swa as [nd|]; cbn [pairs].
  - destruct (Hw nd eq_refl) as [Hwf _]. split; [by apply (entries_sorted _3_or_7)|]. intros k v.
    rewrite (entries_get _3_or_7) by done. change (256 ^ Z.of_nat (S _3_or_7)) with (2 ^ 64). split.
    + intros [Hk Hg]. rewrite Hm; [done|]. pose proof (Z.div_mod k (2 ^ 64)). pose proof (Z.mod_pos_bound k (2 ^ 64)).
      unfold word. lia.
    + intros Hg. assert (word k) as Hk by (apply Hdom; eauto). rewrite Hm in Hg by done. split; [|done].
      by apply Z.div_small.
  - split; [constructor|]. intros k v. split; [set_solver|]. intros Hg.
    assert (word k) as Hk by (apply Hdom; eauto). by rewrite Hm in Hg.
Qed.

Lemma pairs_size swa m : represents swa m -> length (pairs swa) = size m.
Proof.
  intros Hrep. destruct (pairs_ok swa m Hrep) as [Hs Hin]. rewrite <- length_map_to_list. apply Permutation_length.
  apply NoDup_Permutation; [|apply NoDup_map_to_list|].
  - clear Hin. induction Hs as [|x l Hl IH Hx]; constructor; [|done]. intros Hxl. rewrite Forall_forall in Hx.
    specialize (Hx x Hxl). unfold key_lt in Hx. lia.
  - intros [k v]. by rewrite Hin, elem_of_map_to_list.
Qed.

Lemma size_ok swa m : represents swa m -> sizeSWA swa = u64 (Z.of_nat (size m)).
Proof.
  intros Hrep. rewrite <- (pairs_size swa m Hrep). destruct Hrep as (Hw & _ & _). destruct swa as [nd|]; [|done].
  apply (sizeSWA_wrk_ok _3_or_7). by apply Hw.
Qed.

Lemma drain_swa_ok l : ∀ fuel stk, stack_ok stk -> concat (pending <$> stk) = l -> (length l <= fuel)%nat ->
  drain fuel stk = Ret l.
Proof.
  induction l as [|kv l IH]; intros fuel stk Hst Hp Hf;
    pose proof (dispatch_ok stk (length stk) (Nat.le_refl _) Hst) as Hd; rewrite Hp in Hd.
  - destruct fuel; cbn [drain]; unfold nextIterSWA; by rewrite Hd.
  - destruct fuel as [|fuel]; cbn [length] in Hf; [lia|]. destruct Hd as (stk' & Hd & Hst' & Hp').
    cbn [drain]. unfold nextIterSWA. rewrite Hd. cbn [mbind outcome_bind fst snd]. by rewrite (IH fuel stk') by (done || lia).
Qed.

End Represents.

(** C22: A sparse array refines a finite map from words to words: a lookup, an
    insertion and a deletion do to the map what they say, report what was there
    before, and no assertion on levels, magic numbers or counts fails; the size is
    the number of keys, in 64 bits. *)
Theorem sparsewa_refines_map (swa : root) (m : gmap Z Z) :
  represents newSWA ∅ ∧
  (represents swa m ->
   (∀ k, word k -> lookupSWA swa k = Ret (m !! k)) ∧
   (∀ k v, word k -> ∃ swa', addToSWA swa k v = Ret (swa', bool_decide (is_Some (m !! k))) ∧
      represents swa' (<[k := v]> m)) ∧
   (∀ k, word k -> ∃ swa', delFromSWA swa k = Ret (swa', m !! k) ∧ represents swa' (delete k m)) ∧
   sizeSWA swa = u64 (Z.of_nat (size m))).
Proof.
  split; [apply represents_new|]. intros Hrep. split; [|split; [|split]].
  - intros k. by apply lookup_ok.
  - intros k v. by apply add_ok.
  - intros k. by apply del_ok.
  - by apply size_ok.
Qed.

(** The iterator gives every pair of the array exactly once, in the order of
    the keys as unsigned words, and then reports the end; its stack never has more
    than the eight entries there is room for, and each call ends. *)
Theorem sparsewa_iteration (swa : root) (m : gmap Z Z) :
  represents swa m ->
  ∃ stk l, initIterSWA swa = Ret stk ∧ drain (size m) stk = Ret l ∧
    StronglySorted key_lt l ∧ ∀ k v, (k, v) ∈ l <-> m !! k = Some v.
Proof.
  intros Hrep. destruct (pairs_ok swa m Hrep) as [Hs Hin]. pose proof (pairs_size swa m Hrep) as Hsz.
  pose proof Hrep as (Hw & _ & _). destruct swa as [nd|].
  - exists [Elem 0 0 nd start_new_node], (pairs (Some nd)). split; [done|]. split; [|done].
    apply drain_swa_ok; [|cbn [fmap list_fmap concat]; unfold pending, start_ix; cbn [curr_nd partial_key resume]; by rewrite app_nil_r, <- entries_from_0|lia].
    split; [|done]. exists _3_or_7. split; [done|]. split; [by apply Hw|]. split; [done|]. unfold start_ix. cbn. lia.
  - exists [], []. split; [done|]. split; [by destruct (size m)|]. done.
Qed.

(** * Witnesses *)

Definition demo_swa : root :=
  match (s ← addToSWA newSWA 513 7; addToSWA s.1 18446744073709551615 8) with Ret (s, _) => s | Fault _ => None end.

Lemma demo_represents : represents demo_swa {[513 := 7; 18446744073709551615 := 8]}.
Proof.
  destruct (add_ok newSWA ∅ 513 7 represents_new ltac:(done)) as (s1 & H1 & Hr1).
  destruct (add_ok s1 _ 18446744073709551615 8 Hr1 ltac:(done)) as (s2 & H2 & Hr2).
  unfold demo_swa. rewrite H1. cbn [mbind outcome_bind fst]. rewrite H2.
  replace ({[513 := 7; 18446744073709551615 := 8]} : gmap Z Z) with
    (<[18446744073709551615 := 8]> (<[513 := 7]> ∅) : gmap Z Z); [done|]. by rewrite insert_insert_ne.
Qed.

Lemma sparsewa_refines_map_witness :
  lookupSWA demo_swa 513 = Ret (Some 7) ∧ lookupSWA demo_swa 514 = Ret None ∧ sizeSWA demo_swa = 2 ∧
  ∃ s, delFromSWA demo_swa 513 = Ret (s, Some 7).
Proof.
  assert (word 513 ∧ word 514) as [? ?] by (split; unfold word; lia).
  destruct (proj2 (sparsewa_refines_map demo_swa _) demo_represents) as (Hl & _ & Hd & Hs).
  rewrite (Hl 513), (Hl 514), Hs by assumption. split; [by vm_compute|]. split; [by vm_compute|]. split; [by vm_compute|].
  destruct (Hd 513) as (s & Hs' & _); [assumption|]. exists s. rewrite Hs'. by vm_compute.
Defined.

Lemma sparsewa_iteration_witness :
  ∃ stk, initIterSWA demo_swa = Ret stk ∧ ∃ l, drain 2 stk = Ret l ∧ StronglySorted key_lt l.
Proof.
  destruct (sparsewa_iteration demo_swa _ demo_represents) as (stk & l & Hi & Hd & Hs & _).
  replace (size _) with 2%nat in Hd by (by vm_compute). exists stk. split; [exact Hi|]. exists l. split; [exact Hd|exact Hs].
Defined.
