(* ===== verification/SeqMatch.v ===== *)
(** [coregrind/m_seqmatch.c]: matching of sequences with wildcards, which the
    suppressions and the command-line patterns use.

    [generic_match] is written over indices as the code is; the recursive
    equations in its comment are [ma], and [matches] is what a pattern means. *)

From S2P Require Import Prelude.
Local Open Scope Z_scope.

(** * Definitions *)

Section Matcher.
Context {P I : Type}.
Context (matchAll : bool) (patt : list P) (input : list I).
(** [inputCompleter] with [haveInputInpC], when the input is produced on
    demand. *)
Context (completer : option (Z -> bool)).
Context (pIsStar pIsQuery : P -> bool) (pattEQinp : P -> option I -> Z -> outcome bool).

Definition nPatt : Z := Z.of_nat (length patt).
Definition nInput : Z := Z.of_nat (length input).

Definition have_input (ixInput : Z) : bool :=
  match completer with Some have => have ixInput | None => ixInput <? nInput end.

(** [currInput]; NULL when the input is produced on demand. *)
Definition curr_input (ixInput : Z) : outcome (option I) :=
  match completer with
  | Some _ => Ret None
  | None => i ← arr_get input ixInput; Ret (Some i)
  end.

(** A [goto tailcall] is a recursive call too; each call moves one of the
    indices on, so the fuel is the sum of what is left. *)
Fixpoint generic_match (fuel : nat) (ixPatt ixInput : Z) : outcome bool :=
  match fuel with
  | O => Fault OutOfFuel
  | S fuel =>
      _ ← vg_assert (nPatt <? 1000000);
      _ ← vg_assert (match completer with Some _ => true | None => nInput <? 1000000 end);
      _ ← vg_assert (ixPatt <=? nPatt);
      _ ← vg_assert (match completer with Some _ => true | None => ixInput <=? nInput end);
      let havePatt := ixPatt <? nPatt in
      let haveInput := have_input ixInput in
      if havePatt then
        currPatt ← arr_get patt ixPatt;
        if pIsStar currPatt then
          if haveInput then
            here ← generic_match fuel (ixPatt + 1) ixInput;
            if here : bool then Ret true else generic_match fuel ixPatt (ixInput + 1)
          else generic_match fuel (ixPatt + 1) ixInput
        else if pIsQuery currPatt then
          if haveInput then generic_match fuel (ixPatt + 1) (ixInput + 1) else Ret false
        else if haveInput then
          currInput ← curr_input ixInput;
          eq ← pattEQinp currPatt currInput ixInput;
          if eq : bool then generic_match fuel (ixPatt + 1) (ixInput + 1) else Ret false
        else Ret false
      else if haveInput then Ret (negb matchAll)
      else Ret true
  end.

End Matcher.

Definition charIsStar (c : Z) : bool := c =? 42.
Definition charIsQuery (c : Z) : bool := c =? 63.

Definition char_p_EQ_i (p : Z) (c : option Z) (ix : Z) : outcome bool :=
  match c with
  | None => Fault NullDeref
  | Some c => _ ← vg_assert (negb (p =? 42) && negb (p =? 63)); Ret (p =? c)
  end.

(** A string is the list of its characters without the final NUL. *)
Definition string_match (patt input : list Z) : outcome bool :=
  generic_match true patt input None charIsStar charIsQuery char_p_EQ_i
    (length patt + length input + 1) 0 0.

(** * Specification *)

Section Spec.
Context {P I : Type} (matchAll : bool) (isStar isQuery : P -> bool) (eqb : P -> I -> bool).

(** The equations in the comment of [generic_match]. *)
Fixpoint ma (ps : list P) : list I -> bool :=
  match ps with
  | [] => fun js => match js with [] => true | _ :: _ => negb matchAll end
  | p :: ps' =>
      if isStar p then
        fix star (js : list I) : bool :=
          match js with
          | [] => ma ps' []
          | i :: js' => ma ps' js || star js'
          end
      else if isQuery p then
        fun js => match js with [] => false | _ :: js' => ma ps' js' end
      else
        fun js => match js with [] => false | i :: js' => eqb p i && ma ps' js' end
  end.

(** A pattern matches a sequence: a star any segment, a query any one item,
    anything else an item that is equal to it. *)
Inductive matches : list P -> list I -> Prop :=
  | matches_nil : matches [] []
  | matches_star p ps js1 js2 :
      isStar p = true -> matches ps js2 -> matches (p :: ps) (js1 ++ js2)
  | matches_query p ps i js :
      isStar p = false -> isQuery p = true -> matches ps js -> matches (p :: ps) (i :: js)
  | matches_lit p ps i js :
      isStar p = false -> isQuery p = false -> eqb p i = true -> matches ps js -> matches (p :: ps) (i :: js).

(** The whole input, or some prefix of it. *)
Definition matches_mode (ps : list P) (js : list I) : Prop :=
  if matchAll then matches ps js else ∃ js1 js2, js = js1 ++ js2 ∧ matches ps js1.

Lemma ma_star p ps js :
  isStar p = true ->
  ma (p :: ps) js = match js with [] => ma ps [] | _ :: js' => ma ps js || ma (p :: ps) js' end.
Proof. intros E. cbn [ma]. rewrite E. by destruct js. Qed.

Lemma ma_star_split p ps js :
  isStar p = true -> ma (p :: ps) js = true <-> ∃ js1 js2, js = js1 ++ js2 ∧ ma ps js2 = true.
Proof.
  intros E. induction js as [|i js IH].
  - rewrite ma_star by done. split; [by exists [], []|].
    by intros (js1 & js2 & [-> ->]%eq_sym%app_nil & ?).
  - rewrite ma_star, orb_true_iff, IH by done. split.
    + intros [Hm|(js1 & js2 & -> & Hm)]; [by exists [], (i :: js)|by exists (i :: js1), js2].
    + intros ([|i' js1] & js2 & Heq & Hm); simpl in Heq; [left; by subst|right].
      injection Heq as <- ->. eauto.
Qed.

Lemma matches_inv ps js :
  matches ps js <->
  match ps with
  | [] => js = []
  | p :: ps' =>
      if isStar p then ∃ js1 js2, js = js1 ++ js2 ∧ matches ps' js2
      else if isQuery p then ∃ i js', js = i :: js' ∧ matches ps' js'
      else ∃ i js', js = i :: js' ∧ eqb p i = true ∧ matches ps' js'
  end.
Proof.
  split.
  - intros []; try done; repeat match goal with E : _ = _ |- _ => rewrite E; clear E end; naive_solver.
  - destruct ps as [|p ps]; [intros ->; constructor|].
    destruct (isStar p) eqn:E1; [|destruct (isQuery p) eqn:E2].
    + intros (js1 & js2 & -> & Hm). by constructor.
    + intros (i & js' & -> & Hm). by constructor.
    + intros (i & js' & -> & He & Hm). by constructor.
Qed.

Lemma ma_matches ps : ∀ js, ma ps js = true <-> matches_mode ps js.
Proof.
  induction ps as [|p ps IH]; intros js.
  - unfold matches_mode. cbn [ma]. destruct matchAll eqn:E.
    + rewrite matches_inv. by destruct js.
    + split; [|by destruct js]. intros _. exists [], js. split; [done|constructor].
  - destruct (isStar p) eqn:E1; [|destruct (isQuery p) eqn:E2].
    + rewrite ma_star_split by done. unfold matches_mode in *. destruct matchAll.
      * rewrite matches_inv, E1. by setoid_rewrite IH.
      * setoid_rewrite IH. setoid_rewrite (matches_inv (p :: ps)). rewrite E1. split.
        -- intros (js1 & js2 & -> & js3 & js4 & -> & Hm). exists (js1 ++ js3), js4.
           rewrite <- app_assoc. eauto 10.
        -- intros (? & js2 & -> & js3 & js4 & -> & Hm). exists js3, (js4 ++ js2).
           rewrite <- app_assoc. eauto 10.
    + cbn [ma]. rewrite E1, E2. unfold matches_mode in *. destruct matchAll.
      * rewrite matches_inv, E1, E2. destruct js as [|i js]; [naive_solver|]. rewrite IH. naive_solver.
      * setoid_rewrite (matches_inv (p :: ps)). rewrite E1, E2. destruct js as [|i js].
        -- split; [done|]. by intros (? & ? & [-> ->]%eq_sym%app_nil & i & js & [=] & _).
        -- rewrite IH. split.
           ++ intros (js1 & js2 & -> & Hm). exists (i :: js1), js2. eauto 10.
           ++ intros (? & js2 & Heq & i' & js' & -> & Hm). simpl in Heq. injection Heq as -> ->. eauto.
    + cbn [ma]. rewrite E1, E2. unfold matches_mode in *. destruct matchAll.
      * rewrite matches_inv, E1, E2. destruct js as [|i js]; [naive_solver|].
        rewrite andb_true_iff, IH. naive_solver.
      * setoid_rewrite (matches_inv (p :: ps)). rewrite E1, E2. destruct js as [|i js].
        -- split; [done|]. by intros (? & ? & [-> ->]%eq_sym%app_nil & i & js & [=] & _).
        -- rewrite andb_true_iff, IH. split.
           ++ intros (He & js1 & js2 & -> & Hm). exists (i :: js1), js2. eauto 10.
           ++ intros (? & js2 & Heq & i' & js' & -> & He & Hm). simpl in Heq. injection Heq as -> ->. eauto.
Qed.

End Spec.

(** * The matcher computes the equations *)

Section Correct.
Context {P I : Type} (matchAll : bool) (patt : list P) (input : list I) (completer : option (Z -> bool)).
Context (pIsStar pIsQuery : P -> bool) (pattEQinp : P -> option I -> Z -> outcome bool) (eqb : P -> I -> bool).

(** The callbacks describe the sequence [input], which is stored, or produced
    on demand. *)
Definition callbacks_ok : Prop :=
  (∀ have, completer = Some have -> ∀ ix, have ix = (ix <? nInput input)) ∧
  (∀ p i ix, 0 <= ix -> input !! Z.to_nat ix = Some i -> pIsStar p = false -> pIsQuery p = false ->
     pattEQinp p (match completer with Some _ => None | None => Some i end) ix = Ret (eqb p i)).

Context (Hcb : callbacks_ok) (Hp : nPatt patt < 1000000)
  (Hi : completer = None -> nInput input < 1000000).

Lemma have_input_ok ix : have_input input completer ix = (ix <? nInput input).
Proof.
  unfold have_input. destruct completer as [have|] eqn:E; [|done].
  destruct Hcb as [Hh _]. by apply Hh.
Qed.

Lemma generic_match_ma fuel : ∀ ixP ixI,
  0 <= ixP <= nPatt patt -> 0 <= ixI <= nInput input ->
  nPatt patt - ixP + (nInput input - ixI) < Z.of_nat fuel ->
  generic_match matchAll patt input completer pIsStar pIsQuery pattEQinp fuel ixP ixI =
  Ret (ma matchAll pIsStar pIsQuery eqb (drop (Z.to_nat ixP) patt) (drop (Z.to_nat ixI) input)).
Proof.
  induction fuel as [|fuel IH]; intros ixP ixI HP HI Hf; [lia|]. cbn [generic_match].
  unfold vg_assert. rewrite (proj2 (Z.ltb_lt (nPatt patt) _)), (proj2 (Z.leb_le ixP _)) by lia.
  replace (match completer with Some _ => true | None => nInput input <? 1000000 end) with true
    by (destruct completer; [done|symmetry; apply Z.ltb_lt; auto]).
  replace (match completer with Some _ => true | None => ixI <=? nInput input end) with true
    by (destruct completer; [done|symmetry; apply Z.leb_le; lia]).
  cbn [mbind outcome_bind]. rewrite have_input_ok.
  assert (HdropI : if ixI <? nInput input then
      ∃ i, input !! Z.to_nat ixI = Some i ∧ drop (Z.to_nat ixI) input = i :: drop (Z.to_nat (ixI + 1)) input
      else drop (Z.to_nat ixI) input = []).
  { unfold nInput in *. case_bool; [|apply drop_ge; lia].
    destruct (lookup_lt_is_Some_2 input (Z.to_nat ixI)) as [i Hl]; [lia|]. exists i. split; [done|].
    replace (Z.to_nat (ixI + 1)) with (S (Z.to_nat ixI)) by lia. by apply drop_S. }
  destruct (Z.ltb_spec ixP (nPatt patt)) as [HltP|HgeP].
  - destruct (lookup_lt_is_Some_2 patt (Z.to_nat ixP)) as [p Hl]; [unfold nPatt in *; lia|].
    rewrite (arr_get_Some patt ixP p) by (done || lia). cbn [mbind outcome_bind].
    assert (HdropP : drop (Z.to_nat ixP) patt = p :: drop (Z.to_nat (ixP + 1)) patt).
    { replace (Z.to_nat (ixP + 1)) with (S (Z.to_nat ixP)) by lia. by apply drop_S. }
    destruct (pIsStar p) eqn:Es; [|destruct (pIsQuery p) eqn:Eq].
    + rewrite HdropP, ma_star by done. destruct (Z.ltb_spec ixI (nInput input)) as [HltI|HgeI].
      * destruct HdropI as (i & Hli & Hd). rewrite (IH (ixP + 1) ixI) by lia. cbn [mbind outcome_bind].
        rewrite (IH ixP (ixI + 1)) by lia. rewrite Hd, HdropP. by destruct (ma _ _ _ _ _ (i :: _)).
      * rewrite HdropI, (IH (ixP + 1) ixI) by lia. by rewrite HdropI.
    + rewrite HdropP. cbn [ma]. rewrite Es, Eq. destruct (Z.ltb_spec ixI (nInput input)) as [HltI|HgeI].
      * destruct HdropI as (i & Hli & ->). by rewrite (IH (ixP + 1) (ixI + 1)) by lia.
      * by rewrite HdropI.
    + rewrite HdropP. cbn [ma]. rewrite Es, Eq. destruct (Z.ltb_spec ixI (nInput input)) as [HltI|HgeI].
      * destruct HdropI as (i & Hli & ->).
        assert (curr_input input completer ixI =
          Ret (match completer with Some _ => None | None => Some i end)) as ->.
        { unfold curr_input. destruct completer; [done|]. by rewrite (arr_get_Some input ixI i) by (done || lia). }
        cbn [mbind outcome_bind]. rewrite (proj2 Hcb p i ixI) by (done || lia). cbn [mbind outcome_bind].
        destruct (eqb p i); [|done]. by rewrite (IH (ixP + 1) (ixI + 1)) by lia.
      * by rewrite HdropI.
  - rewrite (drop_ge patt) by (unfold nPatt in *; lia). cbn [ma].
    destruct (Z.ltb_spec ixI (nInput input)); [destruct HdropI as (i & _ & ->)|rewrite HdropI]; done.
Qed.

End Correct.

(** * Properties *)

(** C11: whether the input is stored or produced on demand, [generic_match]
    terminates without a failed assertion or an access outside the sequences,
    and returns True exactly when the rest of the pattern matches the rest of
    the input, or a prefix of it in the other mode; it computes the equations
    in its comment. *)
Theorem generic_match_correct {P I} matchAll (patt : list P) (input : list I) completer
    pIsStar pIsQuery pattEQinp eqb (ixPatt ixInput fuel : nat) :
  callbacks_ok input completer pIsStar pIsQuery pattEQinp eqb ->
  nPatt patt < 1000000 -> (completer = None -> nInput input < 1000000) ->
  (ixPatt <= length patt)%nat -> (ixInput <= length input)%nat ->
  (length patt - ixPatt + (length input - ixInput) < fuel)%nat ->
  ∃ b, generic_match matchAll patt input completer pIsStar pIsQuery pattEQinp fuel
         (Z.of_nat ixPatt) (Z.of_nat ixInput) = Ret b ∧
    b = ma matchAll pIsStar pIsQuery eqb (drop ixPatt patt) (drop ixInput input) ∧
    (b = true <-> matches_mode matchAll pIsStar pIsQuery eqb (drop ixPatt patt) (drop ixInput input)).
Proof.
  intros Hcb Hp Hi HP HI Hf. eexists. split; [|split; [done|apply ma_matches]].
  rewrite (generic_match_ma _ _ _ _ _ _ _ eqb) by (done || unfold nPatt, nInput in *; lia).
  by rewrite !Nat2Z.id.
Qed.

(** [string_match] on strings below its length limit returns True exactly
    when the glob pattern matches the whole string. *)
Theorem string_match_correct (patt input : list Z) :
  nPatt patt < 1000000 -> nInput input < 1000000 ->
  ∃ b, string_match patt input = Ret b ∧
    (b = true <-> matches charIsStar charIsQuery Z.eqb patt input).
Proof.
  intros Hp Hi. eexists. split; [|apply (ma_matches true charIsStar charIsQuery Z.eqb)].
  assert (Hcb : callbacks_ok input None charIsStar charIsQuery char_p_EQ_i Z.eqb).
  { split; [done|]. intros p i ix _ _ Hs Hq. unfold charIsStar, charIsQuery in *. simpl. unfold vg_assert.
    by rewrite Hs, Hq. }
  unfold string_match. rewrite (generic_match_ma true patt input None charIsStar charIsQuery char_p_EQ_i Z.eqb)
    by (done || unfold nPatt, nInput in *; lia).
  done.
Qed.

(** * Witnesses *)

(** "a*c" and "abc". *)
Lemma string_match_correct_witness :
  ∃ b, string_match [97; 42; 99] [97; 98; 99] = Ret b ∧
    (b = true <-> matches charIsStar charIsQuery Z.eqb [97; 42; 99] [97; 98; 99]).
Proof. apply (string_match_correct [97; 42; 99] [97; 98; 99]); unfold nPatt, nInput; simpl; lia. Defined.

(** A prefix match of "?b" with "abc" produced on demand. *)
Lemma generic_match_correct_witness :
  ∃ b, generic_match false [63; 98] [97; 98; 99] (Some (fun ix => ix <? 3)) charIsStar charIsQuery
         (fun p _ ix => c ← arr_get [97; 98; 99] ix; Ret (p =? c)) 6 0 0 = Ret b ∧ b = true.
Proof.
  destruct (generic_match_correct false [63; 98] [97; 98; 99] (Some (fun ix => ix <? 3))
    charIsStar charIsQuery (fun p _ ix => c ← arr_get [97; 98; 99] ix; Ret (p =? c)) Z.eqb 0 0 6)
    as (b & Hb & Hma & _).
  - split; [intros have [= <-] ix; reflexivity|]. intros p i ix Hix Hl _ _.
    rewrite (arr_get_Some [97; 98; 99] ix i) by assumption. reflexivity.
  - unfold nPatt. simpl. lia.
  - discriminate.
  - simpl. lia.
  - simpl. lia.
  - simpl. lia.
  - exists b. split; [exact Hb|]. rewrite Hma. reflexivity.
Defined.
