(* ===== verification/LibcStr.v ===== *)
(** [coregrind/m_libcbase.c], first part: characters, conversion of strings to
    numbers and the string functions.

    A character is a signed byte. A [const HChar *] is the list of the bytes
    from where it points to the end of its object; reading past that is a
    fault. A written buffer is such a list too, and the functions return its
    new contents. Source and destination do not overlap. *)

From S2P Require Import Prelude.
Local Open Scope Z_scope.

(** * Characters *)

Definition isspace (c : Z) : bool :=
  (c =? 32) || (c =? 10) || (c =? 9) || (c =? 12) || (c =? 11) || (c =? 13).

Definition isdigit (c : Z) : bool := (48 <=? c) && (c <=? 57).

Definition is_dec_digit (c : Z) : option Z :=
  if (48 <=? c) && (c <=? 57) then Some (c - 48) else None.

Definition is_hex_digit (c : Z) : option Z :=
  if (48 <=? c) && (c <=? 57) then Some (c - 48)
  else if (65 <=? c) && (c <=? 70) then Some (c - 65 + 10)
  else if (97 <=? c) && (c <=? 102) then Some (c - 97 + 10)
  else None.

Definition tolower (c : Z) : Z := if (65 <=? c) && (c <=? 90) then c - 65 + 97 else c.

(** [*str] *)
Definition deref (str : list Z) : outcome Z :=
  match str with [] => Fault OutOfBounds | c :: _ => Ret c end.

(** * Numbers *)

Definition LLONG_MAX : Z := 9223372036854775807.

(** A signed 64-bit result: overflow is undefined behaviour. *)
Definition llong_ (z : Z) : outcome Z :=
  if (- LLONG_MAX - 1 <=? z) && (z <=? LLONG_MAX) then Ret z else Fault IntOverflow.

Fixpoint skip_space (str : list Z) : outcome (list Z) :=
  match str with
  | [] => Fault OutOfBounds
  | c :: str' => if isspace c then skip_space str' else Ret str
  end.

(** A leading ['-'] (where it is allowed) or ['+']: whether it was a ['-'], and
    the rest. *)
Definition skip_sign (minus : bool) (str : list Z) : outcome (bool * list Z) :=
  match str with
  | [] => Fault OutOfBounds
  | c :: str' =>
      if minus && (c =? 45) then Ret (true, str')
      else if c =? 43 then Ret (false, str')
      else Ret (false, str)
  end.

(** The [while (is_dec_digit( *str, &digit))] loop; [arith] is the C type's
    arithmetic. *)
Fixpoint digits_loop (base : Z) (is_digit : Z -> option Z) (arith : Z -> outcome Z)
    (converted : bool) (n : Z) (str : list Z) : outcome (bool * Z * list Z) :=
  match str with
  | [] => Fault OutOfBounds
  | c :: str' =>
      match is_digit c with
      | Some digit =>
          m ← arith (base * n); n' ← arith (m + digit);
          digits_loop base is_digit arith true n' str'
      | None => Ret (converted, n, str)
      end
  end.

(** A "0x" that a hex digit follows. *)
Definition skip_0x (str : list Z) : outcome (list Z) :=
  c0 ← deref str;
  if c0 =? 48 then
    c1 ← deref (tail str);
    if (c1 =? 120) || (c1 =? 88) then
      c2 ← deref (tail (tail str));
      match is_hex_digit c2 with Some _ => Ret (tail (tail str)) | None => Ret str end
    else Ret str
  else Ret str.

(** The result and [*endptr]. *)
Definition strtoll10 (str : list Z) : outcome (Z * list Z) :=
  s1 ← skip_space str; s2 ← skip_sign true s1;
  r ← digits_loop 10 is_dec_digit llong_ false 0 s2.2;
  n ← (if s2.1 : bool then llong_ (- r.1.2) else Ret r.1.2);
  Ret (n, if r.1.1 : bool then r.2 else str).

Definition strtoull10 (str : list Z) : outcome (Z * list Z) :=
  s1 ← skip_space str; s2 ← skip_sign false s1;
  r ← digits_loop 10 is_dec_digit (fun z => Ret (u64 z)) false 0 s2.2;
  Ret (r.1.2, if r.1.1 : bool then r.2 else str).

Definition strtoll16 (str : list Z) : outcome (Z * list Z) :=
  s1 ← skip_space str; s2 ← skip_sign true s1; s3 ← skip_0x s2.2;
  r ← digits_loop 16 is_hex_digit llong_ false 0 s3;
  n ← (if s2.1 : bool then llong_ (- r.1.2) else Ret r.1.2);
  Ret (n, if r.1.1 : bool then r.2 else str).

Definition strtoull16 (str : list Z) : outcome (Z * list Z) :=
  s1 ← skip_space str; s2 ← skip_sign false s1; s3 ← skip_0x s2.2;
  r ← digits_loop 16 is_hex_digit (fun z => Ret (u64 z)) false 0 s3;
  Ret (r.1.2, if r.1.1 : bool then r.2 else str).

(** * Strings *)

Fixpoint strlen_from (i : Z) (str : list Z) : outcome Z :=
  match str with
  | [] => Fault OutOfBounds
  | c :: str' => if c =? 0 then Ret i else strlen_from (u64 (i + 1)) str'
  end.

Definition strlen (str : list Z) : outcome Z := strlen_from 0 str.

Fixpoint strnlen_from (i n : Z) (str : list Z) : outcome Z :=
  if i <? n then
    match str with
    | [] => Fault OutOfBounds
    | c :: str' => if c =? 0 then Ret i else strnlen_from (i + 1) n str'
    end
  else Ret i.

Definition strnlen (str : list Z) (n : Z) : outcome Z := strnlen_from 0 n str.

(** [*dest = c] *)
Definition store (dest : list Z) (c : Z) : outcome (list Z) :=
  match dest with [] => Fault OutOfBounds | _ :: dest' => Ret (c :: dest') end.

Fixpoint strcpy (dest src : list Z) : outcome (list Z) :=
  match src with
  | [] => Fault OutOfBounds
  | c :: src' =>
      if c =? 0 then store dest 0
      else match dest with
           | [] => Fault OutOfBounds
           | _ :: dest' => r ← strcpy dest' src'; Ret (c :: r)
           end
  end.

Fixpoint strcat (dest src : list Z) : outcome (list Z) :=
  match dest with
  | [] => Fault OutOfBounds
  | d :: dest' => if d =? 0 then strcpy dest src else r ← strcat dest' src; Ret (d :: r)
  end.

(** [while ( *src && n > 0) { *dest++ = *src++; n--; } *dest = 0;] *)
Fixpoint copy_upto (dest src : list Z) (n : Z) : outcome (list Z) :=
  match src with
  | [] => Fault OutOfBounds
  | c :: src' =>
      if negb (c =? 0) && (0 <? n) then
        match dest with
        | [] => Fault OutOfBounds
        | _ :: dest' => r ← copy_upto dest' src' (n - 1); Ret (c :: r)
        end
      else store dest 0
  end.

Fixpoint strncat (dest src : list Z) (n : Z) : outcome (list Z) :=
  match dest with
  | [] => Fault OutOfBounds
  | d :: dest' => if d =? 0 then copy_upto dest src n else r ← strncat dest' src n; Ret (d :: r)
  end.

(** The scan of a set of characters for [c]. *)
Fixpoint in_set (c : Z) (accpt : list Z) : outcome bool :=
  match accpt with
  | [] => Fault OutOfBounds
  | a :: accpt' => if a =? 0 then Ret false else if a =? c then Ret true else in_set c accpt'
  end.

Fixpoint strpbrk (s accpt : list Z) : outcome (option (list Z)) :=
  match s with
  | [] => Fault OutOfBounds
  | c :: s' =>
      if c =? 0 then Ret None
      else found ← in_set c accpt; if found : bool then Ret (Some s) else strpbrk s' accpt
  end.

(** [while (i < ndest) dest[i++] = 0;] *)
Fixpoint zero_fill (dest : list Z) (n : nat) : outcome (list Z) :=
  match n with
  | O => Ret dest
  | S n =>
      match dest with
      | [] => Fault OutOfBounds
      | _ :: dest' => r ← zero_fill dest' n; Ret (0 :: r)
      end
  end.

Fixpoint strncpy_loop (dest src : list Z) (room : nat) : outcome (list Z) :=
  match room with
  | O => Ret dest
  | S room =>
      match dest, src with
      | _ :: dest', c :: src' =>
          if c =? 0 then r ← zero_fill dest' room; Ret (0 :: r)
          else r ← strncpy_loop dest' src' room; Ret (c :: r)
      | _, _ => Fault OutOfBounds
      end
  end.

Definition strncpy (dest src : list Z) (ndest : Z) : outcome (list Z) :=
  strncpy_loop dest src (Z.to_nat ndest).

(** The new contents of [dst] and how far [src] was copied plus the length of
    its rest; [m] counts the copied characters. *)
Fixpoint strlcpy_loop (dst src : list Z) (m n : Z) {struct src} : outcome (list Z * Z) :=
  let stop :=
    dst' ← (if 0 <? n then store dst 0 else Ret dst);
    k ← strlen src; Ret (dst', k) in
  if m <? u64 (n - 1) then
    match src with
    | [] => Fault OutOfBounds
    | c :: src' =>
        if c =? 0 then stop
        else match dst with
             | [] => Fault OutOfBounds
             | _ :: dst' => r ← strlcpy_loop dst' src' (m + 1) n; Ret (c :: r.1, r.2 + 1)
             end
    end
  else stop.

Definition strlcpy (dst src : list Z) (n : Z) : outcome (list Z * Z) := strlcpy_loop dst src 0 n.

Fixpoint strcmp (s1 s2 : list Z) : outcome Z :=
  match s1, s2 with
  | c1 :: s1', c2 :: s2' =>
      if u8 c1 <? u8 c2 then Ret (-1)
      else if u8 c2 <? u8 c1 then Ret 1
      else if c1 =? 0 then Ret 0
      else strcmp s1' s2'
  | _, _ => Fault OutOfBounds
  end.

Fixpoint strcasecmp (s1 s2 : list Z) : outcome Z :=
  match s1, s2 with
  | x1 :: s1', x2 :: s2' =>
      let c1 := u8 (tolower x1) in
      let c2 := u8 (tolower x2) in
      if c1 <? c2 then Ret (-1)
      else if c2 <? c1 then Ret 1
      else if c1 =? 0 then Ret 0
      else strcasecmp s1' s2'
  | _, _ => Fault OutOfBounds
  end.

Fixpoint strncmp_loop (s1 s2 : list Z) (n nmax : Z) : outcome Z :=
  if nmax <=? n then Ret 0
  else
    match s1, s2 with
    | c1 :: s1', c2 :: s2' =>
        if u8 c1 <? u8 c2 then Ret (-1)
        else if u8 c2 <? u8 c1 then Ret 1
        else if c1 =? 0 then Ret 0
        else strncmp_loop s1' s2' (n + 1) nmax
    | _, _ => Fault OutOfBounds
    end.

Definition strncmp (s1 s2 : list Z) (nmax : Z) : outcome Z := strncmp_loop s1 s2 0 nmax.

(** Here [n] is an [Int]. *)
Fixpoint strncasecmp_loop (s1 s2 : list Z) (n nmax : Z) : outcome Z :=
  if nmax <=? u64 n then Ret 0
  else
    match s1, s2 with
    | x1 :: s1', x2 :: s2' =>
        let c1 := u8 (tolower x1) in
        let c2 := u8 (tolower x2) in
        if c1 <? c2 then Ret (-1)
        else if c2 <? c1 then Ret 1
        else if c1 =? 0 then Ret 0
        else n' ← int_ (n + 1); strncasecmp_loop s1' s2' n' nmax
    | _, _ => Fault OutOfBounds
    end.

Definition strncasecmp (s1 s2 : list Z) (nmax : Z) : outcome Z := strncasecmp_loop s1 s2 0 nmax.

(** The loop of [strstr] and [strcasestr], with the comparison. *)
Fixpoint find_sub (cmp : list Z -> outcome Z) (haystack : list Z) : outcome (option (list Z)) :=
  match haystack with
  | [] => Fault OutOfBounds
  | c :: haystack' =>
      if c =? 0 then Ret None
      else r ← cmp haystack; if r =? 0 then Ret (Some haystack) else find_sub cmp haystack'
  end.

(** A NULL haystack is [None]. *)
Definition strstr (haystack : option (list Z)) (needle : list Z) : outcome (option (list Z)) :=
  match haystack with
  | None => Ret None
  | Some h => n ← strlen needle; find_sub (fun h => strncmp h needle n) h
  end.

Definition strcasestr (haystack : option (list Z)) (needle : list Z) : outcome (option (list Z)) :=
  match haystack with
  | None => Ret None
  | Some h => n ← strlen needle; find_sub (fun h => strncasecmp h needle (u64 (s32 n))) h
  end.

Fixpoint strchr (s : list Z) (c : Z) : outcome (option (list Z)) :=
  match s with
  | [] => Fault OutOfBounds
  | x :: s' => if x =? c then Ret (Some s) else if x =? 0 then Ret None else strchr s' c
  end.

(** [while (--n > 0)], from the value of [n] before the decrement. *)
Fixpoint strrchr_loop (n : nat) (s : list Z) (c : Z) : outcome (option Z) :=
  match n with
  | O => Ret None
  | S n' =>
      if 0 <? Z.of_nat n' then
        x ← arr_get s (Z.of_nat n');
        if x =? c then Ret (Some (Z.of_nat n')) else strrchr_loop n' s c
      else Ret None
  end.

(** The offset of the character found. *)
Definition strrchr (s : list Z) (c : Z) : outcome (option Z) :=
  n ← strlen s; strrchr_loop (Z.to_nat (s32 n)) s c.

Fixpoint strspn_from (count : Z) (s accpt : list Z) : outcome Z :=
  match s with
  | [] => Fault OutOfBounds
  | c :: s' =>
      if c =? 0 then Ret count
      else found ← in_set c accpt; if found : bool then strspn_from (count + 1) s' accpt else Ret count
  end.

Definition strspn (s accpt : list Z) : outcome Z := strspn_from 0 s accpt.

Fixpoint strcspn_from (count : Z) (s reject : list Z) : outcome Z :=
  match s with
  | [] => Fault OutOfBounds
  | c :: s' =>
      if c =? 0 then Ret count
      else
        p ← strchr reject c;
        match p with None => strcspn_from (count + 1) s' reject | Some _ => Ret count end
  end.

Definition strcspn (s reject : list Z) : outcome Z := strcspn_from 0 s reject.

(** ** Tokens *)

(** A buffer with offsets for [s], [*saveptr] and the token that is returned;
    [strtok] is the same with a static [*saveptr]. *)
Definition strtok_r (mem : list Z) (s : option Z) (delim : list Z) (saveptr : Z)
  : outcome (list Z * Z * option Z) :=
  let s0 := match s with Some s => s | None => saveptr end in
  k ← strspn (drop (Z.to_nat s0) mem) delim;
  let token := s0 + k in
  c ← arr_get mem token;
  if c =? 0 then Ret (mem, token, None)
  else
    p ← strpbrk (drop (Z.to_nat token) mem) delim;
    match p with
    | None => n ← strlen (drop (Z.to_nat token) mem); Ret (mem, token + n, Some token)
    | Some rest =>
        let e := Z.of_nat (length mem) - Z.of_nat (length rest) in
        mem' ← arr_set mem e 0; Ret (mem', e + 1, Some token)
    end.

(** ** Parsing of arguments *)

Definition isHex (c : Z) : bool :=
  ((48 <=? c) && (c <=? 57)) || ((97 <=? c) && (c <=? 102)) || ((65 <=? c) && (c <=? 70)).

Definition fromHex (c : Z) : Z :=
  if (48 <=? c) && (c <=? 57) then u32 (c - 48)
  else if (97 <=? c) && (c <=? 102) then u32 (10 + c - 97)
  else if (65 <=? c) && (c <=? 70) then u32 (10 + c - 65)
  else 0.

(** The flag, [*ppc] and [*result] when the loop is left. *)
Fixpoint parse_Addr_loop (ppc : list Z) (result used : Z) : outcome (bool * list Z * Z) :=
  match ppc with
  | [] => Fault OutOfBounds
  | c :: ppc' =>
      if isHex c then
        let result := Z.lor (u64 (Z.shiftl result 4)) (fromHex c) in
        let used := used + 1 in
        if 16 <? used then Ret (false, ppc', result) else parse_Addr_loop ppc' result used
      else Ret (negb (used =? 0), ppc, result)
  end.

Definition parse_Addr (ppc : list Z) (result : Z) : outcome (bool * list Z * Z) :=
  c0 ← deref ppc;
  if negb (c0 =? 48) then Ret (false, ppc, result)
  else
    c1 ← deref (tail ppc);
    if negb (c1 =? 120) then Ret (false, tail ppc, result)
    else parse_Addr_loop (tail (tail ppc)) 0 0.

Fixpoint parse_UInt_loop (ppc : list Z) (result res64 used : Z) : outcome (bool * list Z * Z) :=
  match ppc with
  | [] => Fault OutOfBounds
  | c :: ppc' =>
      if isdigit c then
        let res64 := u64 (u64 (u64 (res64 * 10) + u64 c) - 48) in
        let used := used + 1 in
        if 10 <? used then Ret (false, ppc', result) else parse_UInt_loop ppc' result res64 used
      else if used =? 0 then Ret (false, ppc, result)
      else if negb (Z.shiftr res64 32 =? 0) then Ret (false, ppc, result)
      else Ret (true, ppc, u32 res64)
  end.

Definition parse_UInt (ppc : list Z) (result : Z) : outcome (bool * list Z * Z) :=
  parse_UInt_loop ppc result 0 0.

(** [1 << token_nr] in a [UInt] set. *)
Definition token_bit (token_nr : Z) : outcome Z :=
  if token_nr <? 32 then Ret (Z.shiftl 1 token_nr) else Fault IntOverflow.

(** The scan of the tokens for one word: [*enum_set], [known_words] and
    [all_set]. *)
Fixpoint scan_tokens (fuel : nat) (word mem : list Z) (token : option Z) (saveptr : Z)
    (enum_set known_words all_set token_nr : Z) : outcome (Z * Z * Z) :=
  match fuel with
  | O => Fault OutOfFuel
  | S fuel =>
      match token with
      | None => Ret (enum_set, known_words, all_set)
      | Some t =>
          let tok := drop (Z.to_nat t) mem in
          dash ← strcmp tok [45; 0];
          st ← (if negb (dash =? 0) then
                  bit ← token_bit token_nr; c ← strcmp word tok;
                  Ret (if c =? 0 then (Z.lor enum_set bit, known_words + 1, Z.lor all_set bit)
                       else (enum_set, known_words, Z.lor all_set bit))
                else Ret (enum_set, known_words, all_set));
          nxt ← strtok_r mem None [44; 0] saveptr;
          scan_tokens fuel word nxt.1.1 nxt.2 nxt.1.2 st.1.1 st.1.2 st.2 (token_nr + 1)
      end
  end.

(** The words seen so far: [word_nr], [known_words], the two keywords,
    [*enum_set] and [all_set]. *)
Record words := Words {
  word_nr : Z; known_words : Z; seen_all_kw : bool; seen_none_kw : bool; enum_set : Z; all_set : Z }.

Definition str_all : list Z := [97; 108; 108; 0].
Definition str_none : list Z := [110; 111; 110; 101; 0].

Definition scan_word (allow_all : bool) (tokens word : list Z) (w : words) : outcome words :=
  all ← (if allow_all then c ← strcmp word str_all; Ret (c =? 0) else Ret false);
  none ← (if all : bool then Ret false else c ← strcmp word str_none; Ret (c =? 0));
  let known := if all || none then known_words w + 1 else known_words w in
  n ← strlen tokens;
  tok_tokens ← strcpy (replicate (Z.to_nat (n + 1)) 0) tokens;
  first ← strtok_r tok_tokens (Some 0) [44; 0] 0;
  r ← scan_tokens (S (length tokens)) word first.1.1 first.2 first.1.2 (enum_set w) known 0 0;
  Ret (Words (word_nr w + 1) r.1.2 (seen_all_kw w || all) (seen_none_kw w || none) r.1.1 r.2).

Fixpoint scan_words (fuel : nat) (allow_all : bool) (tokens mem : list Z) (word : option Z) (saveptr : Z)
    (w : words) : outcome words :=
  match fuel with
  | O => Fault OutOfFuel
  | S fuel =>
      match word with
      | None => Ret w
      | Some i =>
          w' ← scan_word allow_all tokens (drop (Z.to_nat i) mem) w;
          nxt ← strtok_r mem None [44; 0] saveptr;
          scan_words fuel allow_all tokens nxt.1.1 nxt.2 nxt.1.2 w'
      end
  end.

(** The flag and [*enum_set]; [tokens] and [input] are whole objects, of the
    string's length and its NUL. *)
Definition parse_enum_set (tokens : list Z) (allow_all : bool) (input : list Z) (enum_set0 : Z)
  : outcome (bool * Z) :=
  tokens_len ← strlen tokens;
  if 1000 <? tokens_len then Ret (false, enum_set0)
  else
    input_len ← strlen input;
    if 1000 <? input_len then Ret (false, enum_set0)
    else
      tok_input ← strcpy (replicate (Z.to_nat (input_len + 1)) 0) input;
      first ← strtok_r tok_input (Some 0) [44; 0] 0;
      w ← scan_words (S (length tok_input)) allow_all tokens first.1.1 first.2 first.1.2
            (Words 0 0 false false 0 0);
      Ret (if negb (known_words w =? word_nr w) then (false, enum_set w)
           else if seen_all_kw w then
             if seen_none_kw w || negb (enum_set w =? 0) then (false, enum_set w) else (true, all_set w)
           else if seen_none_kw w then
             if seen_all_kw w || negb (enum_set w =? 0) then (false, enum_set w) else (true, 0)
           else if enum_set w =? 0 then (false, enum_set w) else (true, enum_set w)).

(** "leak,race" against the tokens "-,leak,race,all2". *)
Example parse_enum_set_example :
  parse_enum_set [45; 44; 108; 44; 114; 44; 97; 0] true [114; 44; 108; 0] 9 = Ret (true, 6).
Proof. vm_compute. reflexivity. Qed.

Example parse_enum_set_all :
  parse_enum_set [45; 44; 108; 44; 114; 44; 97; 0] true [97; 108; 108; 0] 9 = Ret (true, 14).
Proof. vm_compute. reflexivity. Qed.

(** * Strings as lists

    A string object is [s ++ 0 :: r] with no NUL in [s]. *)

Definition no_nul (s : list Z) : Prop := Forall (fun c => c ≠ 0) s.
Definition chars (s : list Z) : Prop := Forall (fun c => -128 <= c < 128) s.

Lemma strlen_from_ok s r : ∀ i,
  no_nul s -> 0 <= i -> i + Z.of_nat (length s) < 2 ^ 64 ->
  strlen_from i (s ++ 0 :: r) = Ret (i + Z.of_nat (length s)).
Proof.
  induction s as [|c s IH]; intros i Hs Hi Hl; simpl in *; [f_equal; lia|].
  inversion Hs as [|? ? Hc Hs']; subst. rewrite (proj2 (Z.eqb_neq _ _)) by done.
  unfold u64. rewrite wrap_small by lia. rewrite IH by (done || lia). f_equal. lia.
Qed.

Lemma strlen_ok s r :
  no_nul s -> Z.of_nat (length s) < 2 ^ 64 -> strlen (s ++ 0 :: r) = Ret (Z.of_nat (length s)).
Proof. intros Hs Hl. unfold strlen. by rewrite strlen_from_ok by (done || lia). Qed.

Lemma strcpy_ok s r : ∀ dest,
  no_nul s -> (length s < length dest)%nat ->
  strcpy dest (s ++ 0 :: r) = Ret (s ++ 0 :: drop (S (length s)) dest).
Proof.
  induction s as [|c s IH]; intros dest Hs Hl; (destruct dest as [|d dest]; simpl in Hl; [lia|]); simpl.
  - by rewrite drop_0.
  - inversion Hs as [|? ? Hc Hs']; subst. rewrite (proj2 (Z.eqb_neq _ _)) by done.
    rewrite IH by (done || lia). done.
Qed.

(** ** Numbers *)

(** The value of a list of digits. *)
Definition number (base n : Z) (ds : list Z) : Z := foldl (fun n d => base * n + d) n ds.

Lemma number_cons base n d ds : number base n (d :: ds) = number base (base * n + d) ds.
Proof. done. Qed.

Lemma number_le base ds : ∀ n, 1 <= base -> Forall (fun d => 0 <= d) ds -> 0 <= n -> n <= number base n ds.
Proof.
  induction ds as [|d ds IH]; intros n Hb Hd Hn; [done|]. rewrite number_cons.
  inversion Hd as [|? ? Hd0 Hds]; subst. pose proof (IH (base * n + d) Hb Hds ltac:(nia)). nia.
Qed.

(** The digits that a list of characters stands for. *)
Definition reads (is_digit : Z -> option Z) (cs ds : list Z) : Prop :=
  Forall2 (fun c d => is_digit c = Some d ∧ 0 <= d) cs ds.

Lemma reads_nonneg is_digit cs ds : reads is_digit cs ds -> Forall (fun d => 0 <= d) ds.
Proof. induction 1 as [|c d cs ds [_ Hd] _ IH]; by constructor. Qed.

(** With arithmetic that is exact up to [limit] ... *)
Lemma digits_loop_exact base is_digit arith limit cs ds c r : ∀ conv n,
  (∀ z, 0 <= z <= limit -> arith z = Ret z) -> 1 <= base ->
  reads is_digit cs ds -> is_digit c = None -> 0 <= n -> number base n ds <= limit ->
  digits_loop base is_digit arith conv n (cs ++ c :: r) =
  Ret (conv || negb (bool_decide (cs = [])), number base n ds, c :: r).
Proof.
  intros conv n Ha Hb Hr Hc. revert conv n. induction Hr as [|x d cs ds [Hx Hd] Hr IH]; intros conv n Hn Hl.
  - simpl. rewrite Hc. by rewrite orb_false_r.
  - cbn [app digits_loop]. rewrite Hx. rewrite number_cons in Hl.
    pose proof (number_le base ds (base * n + d) Hb (reads_nonneg _ _ _ Hr) ltac:(nia)).
    rewrite (Ha (base * n)) by nia. cbn [mbind outcome_bind]. rewrite Ha by nia. cbn [mbind outcome_bind].
    rewrite IH by (done || nia). rewrite orb_true_l. by rewrite orb_true_r.
Qed.

(** ... and with arithmetic modulo 2^64. *)
Lemma digits_loop_wrap base is_digit cs ds c r : ∀ conv n,
  reads is_digit cs ds -> is_digit c = None ->
  ∃ m, digits_loop base is_digit (fun z => Ret (u64 z)) conv n (cs ++ c :: r) =
    Ret (conv || negb (bool_decide (cs = [])), m, c :: r) ∧
    u64 m = u64 (number base n ds) ∧ (0 <= n < 2 ^ 64 -> 0 <= m < 2 ^ 64).
Proof.
  intros conv n Hr Hc. revert conv n. induction Hr as [|x d cs ds [Hx Hd] Hr IH]; intros conv n.
  - exists n. simpl. rewrite Hc. by rewrite orb_false_r.
  - cbn [app digits_loop]. rewrite Hx. cbn [mbind outcome_bind].
    destruct (IH true (u64 (u64 (base * n) + d))) as (m & -> & Hm & Hrange).
    exists m. rewrite orb_true_l, orb_true_r. split; [done|]. split.
    + rewrite Hm, number_cons. clear. revert n d. assert (Hcong : ∀ x y, u64 x = u64 y -> u64 (number base x ds) = u64 (number base y ds)).
      { induction ds as [|e ds IH]; [done|]. intros x y Hxy. rewrite !number_cons. apply IH.
        unfold u64, wrap in *. rewrite (Z.add_mod (base * x)), (Z.add_mod (base * y)) by lia.
        by rewrite (Z.mul_mod base x), (Z.mul_mod base y), Hxy by lia. }
      intros n d. apply Hcong. unfold u64, wrap. rewrite Zmod_mod. by rewrite Zplus_mod_idemp_l.
    + intros _. apply Hrange. unfold u64. apply wrap_range. lia.
Qed.

Lemma skip_space_ok sp c r :
  Forall (fun c => isspace c = true) sp -> isspace c = false -> skip_space (sp ++ c :: r) = Ret (c :: r).
Proof. intros Hs Hc. induction Hs as [|x sp Hx _ IH]; simpl; [by rewrite Hc|by rewrite Hx]. Qed.

Lemma dec_digit_range c d : is_dec_digit c = Some d <-> c = 48 + d ∧ 0 <= d <= 9.
Proof. unfold is_dec_digit. case_bool; split; intros; simplify_eq; b2p; try lia. f_equal. lia. Qed.

Lemma reads_dec ds : Forall (fun d => 0 <= d <= 9) ds -> reads is_dec_digit ((Z.add 48) <$> ds) ds.
Proof.
  induction 1 as [|d ds Hd _ IH]; constructor; [|done]. split; [|lia]. by apply dec_digit_range.
Qed.

(** Where a number starts: spaces, a sign, digits and what follows. *)
Record numeral := Numeral { nl_space : list Z; nl_sign : list Z; nl_digits : list Z; nl_next : Z; nl_rest : list Z }.

Definition numeral_text (x : numeral) : list Z :=
  nl_space x ++ nl_sign x ++ ((Z.add 48) <$> nl_digits x) ++ nl_next x :: nl_rest x.

Definition numeral_ok (x : numeral) : Prop :=
  Forall (fun c => isspace c = true) (nl_space x) ∧
  (nl_sign x = [] ∨ nl_sign x = [45] ∨ nl_sign x = [43]) ∧
  Forall (fun d => 0 <= d <= 9) (nl_digits x) ∧ is_dec_digit (nl_next x) = None ∧
  (nl_sign x = [] -> nl_digits x = [] -> isspace (nl_next x) = false ∧ nl_next x ≠ 45 ∧ nl_next x ≠ 43).

Definition is_minus (sign : list Z) : bool := bool_decide (sign = [45]).

Lemma digit_not_space d : 0 <= d <= 9 -> isspace (48 + d) = false ∧ 48 + d ≠ 45 ∧ 48 + d ≠ 43.
Proof.
  intros Hd. unfold isspace. rewrite !(proj2 (Z.eqb_neq _ _)) by lia. split; [done|lia].
Qed.

(** Spaces and sign are skipped; [minus] says whether a ['-'] may be one. *)
Lemma numeral_start x minus :
  numeral_ok x -> (minus = false -> nl_sign x ≠ [45]) ->
  (s1 ← skip_space (numeral_text x); skip_sign minus s1) =
  Ret (is_minus (nl_sign x), ((Z.add 48) <$> nl_digits x) ++ nl_next x :: nl_rest x).
Proof.
  intros (Hsp & Hsg & Hd & Hc & Hfirst) Hm. unfold numeral_text, is_minus.
  destruct x as [sp sg ds c r]; simpl in *.
  assert (∃ h t, sg ++ ((Z.add 48) <$> ds) ++ c :: r = h :: t ∧ isspace h = false ∧
    skip_sign minus (h :: t) = Ret (bool_decide (sg = [45]), ((Z.add 48) <$> ds) ++ c :: r)) as (h & t & -> & Hh & Hskip).
  { destruct Hsg as [-> | [-> | ->]].
    - assert (∃ h t, ((Z.add 48) <$> ds) ++ c :: r = h :: t ∧ isspace h = false ∧ h ≠ 45 ∧ h ≠ 43) as (h & t & Ht & Hh & H1 & H2).
      { destruct ds as [|d ds]; [exists c, r; split; [done|]; by apply Hfirst|].
        inversion Hd; subst. eexists _, _. split; [done|]. by apply digit_not_space. }
      exists h, t. rewrite app_nil_l, Ht. split; [done|]. split; [done|]. simpl.
      rewrite !(proj2 (Z.eqb_neq _ _)) by done. by rewrite andb_false_r.
    - destruct minus; [|by destruct Hm]. by eexists 45, _.
    - eexists 43, _. split; [done|]. split; [done|]. simpl. by destruct minus. }
  rewrite skip_space_ok by done. exact Hskip.
Qed.

Lemma fmap_nil_iff (ds : list Z) : bool_decide ((Z.add 48) <$> ds = []) = bool_decide (ds = []).
Proof. by destruct ds. Qed.

(** C12: on spaces, an optional sign and decimal digits, [strtoll10] returns the
    signed value and points behind the digits as long as the value fits in a
    [Long], and [strtoull10] (without a minus sign) the value modulo 2^64;
    without a digit both return 0 and point to the start of the string. *)
Theorem strtoll10_parses x :
  numeral_ok x ->
  let v := number 10 0 (nl_digits x) in
  let next := if decide (nl_digits x = []) then numeral_text x else nl_next x :: nl_rest x in
  (v <= LLONG_MAX ->
   strtoll10 (numeral_text x) = Ret ((if is_minus (nl_sign x) then - v else v), next)) ∧
  (nl_sign x ≠ [45] -> strtoull10 (numeral_text x) = Ret (u64 v, next)).
Proof.
  intros Hx. pose proof Hx as (_ & _ & Hd & Hc & _). cbv zeta.
  assert (Hds : Forall (fun d => 0 <= d) (nl_digits x)) by (eapply Forall_impl; [done|]; simpl; lia).
  pose proof (number_le 10 _ 0 ltac:(lia) Hds ltac:(lia)) as Hpos. split.
  - intros Hv. pose proof (numeral_start x true Hx ltac:(done)) as Hst. unfold strtoll10.
    destruct (skip_space (numeral_text x)) as [s1|]; [|done]. cbn [mbind outcome_bind] in *. rewrite Hst.
    cbn [mbind outcome_bind fst snd].
    rewrite (digits_loop_exact 10 is_dec_digit llong_ LLONG_MAX _ (nl_digits x)); try done; try lia.
    + rewrite fmap_nil_iff. cbn [mbind outcome_bind fst snd orb]. unfold llong_. destruct (is_minus (nl_sign x)).
      * rewrite !(proj2 (Z.leb_le _ _)) by lia. simpl. by destruct (nl_digits x).
      * simpl. by destruct (nl_digits x).
    + intros z Hz. unfold llong_. by rewrite !(proj2 (Z.leb_le _ _)) by (unfold LLONG_MAX in *; lia).
    + by apply reads_dec.
  - intros Hsg. pose proof (numeral_start x false Hx ltac:(done)) as Hst. unfold strtoull10.
    destruct (skip_space (numeral_text x)) as [s1|]; [|done]. cbn [mbind outcome_bind] in *. rewrite Hst.
    cbn [mbind outcome_bind fst snd].
    destruct (digits_loop_wrap 10 is_dec_digit _ (nl_digits x) (nl_next x) (nl_rest x) false 0 (reads_dec _ Hd) Hc)
      as (m & -> & Hm & Hr).
    rewrite fmap_nil_iff. cbn [mbind outcome_bind fst snd orb]. rewrite <- Hm.
    unfold u64. rewrite wrap_small by (apply Hr; lia). by destruct (nl_digits x).
Qed.

(** ** Arguments *)

Lemma number_snoc base n ds d : number base n (ds ++ [d]) = base * number base n ds + d.
Proof. unfold number. by rewrite foldl_app. Qed.

Lemma number_bound base ds : ∀ n,
  1 <= base -> Forall (fun d => 0 <= d < base) ds -> 0 <= n ->
  number base n ds < (n + 1) * base ^ Z.of_nat (length ds).
Proof.
  induction ds as [|d ds IH]; intros n Hb Hd Hn; [simpl; lia|].
  inversion Hd as [|? ? Hd0 Hds]; subst. rewrite number_cons. cbn [length].
  specialize (IH (base * n + d) Hb Hds ltac:(nia)). rewrite Nat2Z.inj_succ, Z.pow_succ_r by lia.
  pose proof (Z.pow_pos_nonneg base (Z.of_nat (length ds))). nia.
Qed.

Lemma parse_UInt_loop_ok ds c r result : ∀ n used,
  Forall (fun d => 0 <= d < 10) ds -> isdigit c = false -> 0 <= used <= 10 -> 0 <= n < 10 ^ used ->
  parse_UInt_loop (((Z.add 48) <$> ds) ++ c :: r) result n used =
  Ret (if decide (Z.of_nat (length ds) <= 10 - used) then
         let v := number 10 n ds in
         if (0 <? used + Z.of_nat (length ds)) && (v <? 2 ^ 32) then (true, c :: r, v)
         else (false, c :: r, result)
       else (false, drop (Z.to_nat (11 - used)) (((Z.add 48) <$> ds) ++ c :: r), result)).
Proof.
  induction ds as [|d ds IH]; intros n used Hd Hc Hu Hn.
  - cbn [fmap list_fmap app parse_UInt_loop length]. rewrite Hc. rewrite decide_True by lia. cbv zeta.
    change (number 10 n []) with n. rewrite Z.add_0_r.
    destruct (Z.eqb_spec used 0) as [->|]; [done|]. rewrite (proj2 (Z.ltb_lt 0 used)) by lia. cbn [andb].
    assert (n < 10 ^ 10) by (eapply Z.lt_le_trans; [apply Hn|]; apply Z.pow_le_mono_r; lia).
    rewrite Z.shiftr_div_pow2 by lia. destruct (Z.ltb_spec n (2 ^ 32)) as [Hlt|Hge].
    + rewrite Z.div_small by lia. cbn [negb Z.eqb]. unfold u32. by rewrite wrap_small by lia.
    + rewrite (proj2 (Z.eqb_neq _ _)); [done|]. pose proof (Z.div_le_lower_bound n (2 ^ 32) 1). lia.
  - inversion Hd as [|? ? Hd0 Hds]; subst. cbn [fmap list_fmap app parse_UInt_loop].
    assert (isdigit (48 + d) = true) as ->.
    { unfold isdigit. rewrite !(proj2 (Z.leb_le _ _)) by lia. done. }
    assert (n < 10 ^ 10) by (eapply Z.lt_le_trans; [apply Hn|]; apply Z.pow_le_mono_r; lia).
    unfold u64. rewrite (wrap_small 64 (n * 10)), (wrap_small 64 (48 + d)) by lia.
    rewrite (wrap_small 64 (n * 10 + (48 + d))) by lia.
    rewrite wrap_small by lia. replace (n * 10 + (48 + d) - 48) with (10 * n + d) by lia.
    cbn [length]. rewrite Nat2Z.inj_succ. destruct (Z.ltb_spec 10 (used + 1)) as [Hover|Hgo].
    + rewrite decide_False by lia. replace (Z.to_nat (11 - used)) with 1%nat by lia. by rewrite <- drop_0 at 1.
    + rewrite IH; [|done|done|lia|].
      * destruct (decide (Z.of_nat (length ds) <= 10 - (used + 1))).
        -- rewrite decide_True by lia. rewrite number_cons.
           by replace (used + Z.succ (Z.of_nat (length ds))) with (used + 1 + Z.of_nat (length ds)) by lia.
        -- rewrite decide_False by lia. by replace (Z.to_nat (11 - used)) with (S (Z.to_nat (11 - (used + 1)))) by lia.
      * rewrite Z.pow_add_r by lia. lia.
Qed.

(** The value a hex digit has for [fromHex]. *)
Lemma fromHex_value c : isHex c = true -> 0 <= fromHex c < 16.
Proof.
  unfold isHex, fromHex, u32. intros Hc. rewrite !orb_true_iff, !andb_true_iff, !Z.leb_le in Hc.
  repeat case_bool; rewrite ?wrap_small by lia; lia.
Qed.

Definition hex_number (n : Z) (cs : list Z) : Z := number 16 n (fromHex <$> cs).

Lemma lor_shift n d : 0 <= n < 16 ^ 15 -> 0 <= d < 16 -> Z.lor (u64 (Z.shiftl n 4)) d = 16 * n + d.
Proof.
  intros Hn Hd. rewrite Z.shiftl_mul_pow2 by lia. unfold u64. rewrite wrap_small by lia.
  rewrite lor_shifted_small by lia. lia.
Qed.

Lemma parse_Addr_loop_ok cs c r : ∀ n used,
  Forall (fun c => isHex c = true) cs -> isHex c = false -> 0 <= used <= 16 -> 0 <= n < 16 ^ used ->
  ∃ v, parse_Addr_loop (cs ++ c :: r) n used =
    Ret (if decide (Z.of_nat (length cs) <= 16 - used)
         then (0 <? used + Z.of_nat (length cs), c :: r, v)
         else (false, drop (Z.to_nat (17 - used)) (cs ++ c :: r), v)) ∧
    (Z.of_nat (length cs) <= 16 - used -> v = hex_number n cs).
Proof.
  induction cs as [|d cs IH]; intros n used Hd Hc Hu Hn.
  - cbn [app parse_Addr_loop length]. rewrite Hc. exists n. rewrite decide_True by lia. split; [|done].
    rewrite Z.add_0_r. by destruct (Z.eqb_spec used 0), (Z.ltb_spec 0 used); try lia.
  - inversion Hd as [|? ? Hd0 Hds]; subst. cbn [app parse_Addr_loop]. rewrite Hd0.
    pose proof (fromHex_value d Hd0). cbn [length]. rewrite Nat2Z.inj_succ.
    destruct (Z.ltb_spec 16 (used + 1)) as [Hover|Hgo].
    + eexists. rewrite decide_False by lia. split; [|lia].
      replace (Z.to_nat (17 - used)) with 1%nat by lia. by rewrite <- drop_0 at 1.
    + assert (16 ^ used <= 16 ^ 15) by (apply Z.pow_le_mono_r; lia).
      rewrite lor_shift by lia.
      destruct (IH (16 * n + fromHex d) (used + 1)) as (v & -> & Hv); [done|done|lia| |].
      { rewrite Z.pow_add_r by lia. lia. }
      exists v. destruct (decide (Z.of_nat (length cs) <= 16 - (used + 1))).
      * rewrite decide_True by lia. split; [|intros _; by apply Hv].
        by replace (used + Z.succ (Z.of_nat (length cs))) with (used + 1 + Z.of_nat (length cs)) by lia.
      * rewrite decide_False by lia. split; [|lia].
        by replace (Z.to_nat (17 - used)) with (S (Z.to_nat (17 - (used + 1)))) by lia.
Qed.

(** [parse_UInt] succeeds exactly on one to ten decimal digits with a value
    below 2^32, which it stores, and leaves [*result] alone otherwise; after
    "0x", [parse_Addr] succeeds exactly on one to sixteen hexadecimal digits
    and stores their value. Neither wraps around, and both stop behind the
    digits, or behind the one that is too many. *)
Theorem parse_UInt_Addr_exact ds cs c r result :
  Forall (fun d => 0 <= d < 10) ds -> isdigit c = false ->
  Forall (fun c => isHex c = true) cs -> isHex c = false ->
  (let text := ((Z.add 48) <$> ds) ++ c :: r in
   let v := number 10 0 ds in
   parse_UInt text result =
   Ret (if decide (length ds <= 10)%nat then
          if decide (ds ≠ [] ∧ v < 2 ^ 32) then (true, c :: r, v) else (false, c :: r, result)
        else (false, drop 11 text, result))) ∧
  (∃ v, parse_Addr (48 :: 120 :: cs ++ c :: r) result =
     Ret (if decide (length cs <= 16)%nat then (bool_decide (cs ≠ []), c :: r, v)
          else (false, drop 17 (cs ++ c :: r), v)) ∧
     ((length cs <= 16)%nat -> v = hex_number 0 cs)).
Proof.
  intros Hd Hc Hcs Hx. split.
  - cbv zeta. unfold parse_UInt. rewrite parse_UInt_loop_ok by (done || simpl; lia). f_equal.
    destruct (decide (length ds <= 10)%nat); [|by rewrite decide_False by lia].
    rewrite decide_True by lia. cbv zeta. rewrite Z.add_0_l.
    destruct (Z.ltb_spec (number 10 0 ds) (2 ^ 32)); [|rewrite decide_False by lia; by rewrite andb_false_r].
    rewrite andb_true_r. destruct ds; [done|]. by rewrite decide_True.
  - unfold parse_Addr. simpl.
    destruct (parse_Addr_loop_ok cs c r 0 0) as (v & -> & Hv); [done|done|lia|simpl; lia|].
    exists v. destruct (decide (length cs <= 16)%nat).
    + rewrite decide_True by lia. split; [|intros _; apply Hv; lia]. by destruct cs.
    + rewrite decide_False by lia. split; [done|lia].
Qed.

(** ** Comparison *)

(** The lexicographic order of the bytes. *)
Fixpoint lex (s t : list Z) : Z :=
  match s, t with
  | [], [] => 0
  | [], _ :: _ => -1
  | _ :: _, [] => 1
  | x :: s', y :: t' => if u8 x <? u8 y then -1 else if u8 y <? u8 x then 1 else lex s' t'
  end.

Lemma u8_char c : -128 <= c < 128 -> u8 c = if c <? 0 then c + 256 else c.
Proof.
  intros Hc. unfold u8, wrap. case_bool; [|apply Z.mod_small; lia].
  rewrite <- (Z.mod_add c 1) by lia. apply Z.mod_small. lia.
Qed.

Lemma u8_inj x y : -128 <= x < 128 -> -128 <= y < 128 -> u8 x = u8 y -> x = y.
Proof. intros Hx Hy. rewrite !u8_char by done. repeat case_bool; lia. Qed.

Lemma u8_pos x : -128 <= x < 128 -> x ≠ 0 -> 0 < u8 x.
Proof. intros Hx H0. rewrite u8_char by done. case_bool; lia. Qed.

Lemma strcmp_lex s : ∀ t r1 r2,
  no_nul s -> no_nul t -> chars s -> chars t -> strcmp (s ++ 0 :: r1) (t ++ 0 :: r2) = Ret (lex s t).
Proof.
  induction s as [|x s IH]; intros t r1 r2 Hns Hnt Hs Ht; destruct t as [|y t]; simpl; [done| | |].
  - inversion Hnt; inversion Ht; subst. pose proof (u8_pos y). change (u8 0) with 0.
    by rewrite (proj2 (Z.ltb_lt _ _)) by auto.
  - inversion Hns; inversion Hs; subst. pose proof (u8_pos x ltac:(done) ltac:(done)). change (u8 0) with 0.
    rewrite (proj2 (Z.ltb_ge _ _)) by lia. by rewrite (proj2 (Z.ltb_lt _ _)) by lia.
  - inversion Hns; inversion Hs; inversion Hnt; inversion Ht; subst.
    repeat case_bool; try done. by apply IH.
Qed.

Lemma lex_range s : ∀ t, lex s t = -1 ∨ lex s t = 0 ∨ lex s t = 1.
Proof. induction s as [|x s IH]; intros [|y t]; simpl; auto. repeat case_bool; auto. Qed.

Lemma lex_flip s : ∀ t, lex t s = - lex s t.
Proof. induction s as [|x s IH]; intros [|y t]; simpl; auto. repeat case_bool; auto; lia. Qed.

Lemma lex_eq s : ∀ t, chars s -> chars t -> lex s t = 0 <-> s = t.
Proof.
  induction s as [|x s IH]; intros [|y t] Hs Ht; simpl; [done|done|done|].
  inversion Hs as [|? ? Hx Hs']; inversion Ht as [|? ? Hy Ht']; subst. repeat case_bool.
  - split; [done|]. intros [= -> ->]. lia.
  - split; [done|]. intros [= -> ->]. lia.
  - rewrite IH by done. pose proof (u8_inj x y Hx Hy). split; [intros ->; f_equal; lia|by intros [= -> ->]].
Qed.

Lemma lex_trans s : ∀ t u, lex s t = -1 -> lex t u = -1 -> lex s u = -1.
Proof.
  induction s as [|x s IH]; intros [|y t] [|z u]; simpl; try done.
  repeat case_bool; intros; try done; try lia. by eapply IH.
Qed.

(** [strcmp] is the lexicographic order on unsigned bytes: on strings it
    returns -1, 0 or 1, 0 exactly for equal strings, the opposite for swapped
    arguments, and it is transitive. *)
Theorem strcmp_order s t u r1 r2 r3 :
  no_nul s -> no_nul t -> no_nul u -> chars s -> chars t -> chars u ->
  let cmp_st := strcmp (s ++ 0 :: r1) (t ++ 0 :: r2) in
  cmp_st = Ret (lex s t) ∧ (lex s t = -1 ∨ lex s t = 0 ∨ lex s t = 1) ∧
  (cmp_st = Ret 0 <-> s = t) ∧
  strcmp (t ++ 0 :: r2) (s ++ 0 :: r1) = Ret (- lex s t) ∧
  (cmp_st = Ret (-1) -> strcmp (t ++ 0 :: r2) (u ++ 0 :: r3) = Ret (-1) ->
   strcmp (s ++ 0 :: r1) (u ++ 0 :: r3) = Ret (-1)).
Proof.
  intros Hs Ht Hu Hcs Hct Hcu. cbv zeta. rewrite !strcmp_lex by done. split; [done|].
  split; [apply lex_range|]. split; [|split].
  - rewrite <- lex_eq by done. split; [by intros [= ->]|by intros ->].
  - by rewrite lex_flip.
  - intros [= H1] [= H2]. f_equal. by eapply lex_trans.
Qed.

(** ** Searching *)

Lemma strncmp_prefix ns r2 : ∀ hs r i,
  no_nul ns -> no_nul hs -> chars ns -> chars hs ->
  ∃ z, strncmp_loop (hs ++ 0 :: r) (ns ++ 0 :: r2) i (i + Z.of_nat (length ns)) = Ret z ∧
    (z = 0 <-> ns `prefix_of` hs).
Proof.
  induction ns as [|x ns IH]; intros hs r i Hnn Hnh Hcn Hch.
  - exists 0. destruct hs; cbn [strncmp_loop app length]; rewrite (proj2 (Z.leb_le _ _)) by lia;
      (split; [done|]); (split; [intros _; apply prefix_nil|done]).
  - inversion Hnn; inversion Hcn; subst. pose proof (u8_pos x).
    destruct hs as [|y hs]; cbn [strncmp_loop app length]; rewrite (proj2 (Z.leb_gt _ _)) by lia.
    + change (u8 0) with 0. rewrite (proj2 (Z.ltb_lt 0 _)) by auto. exists (-1). split; [done|].
      split; [done|]. by intros [k [=]].
    + inversion Hnh; inversion Hch; subst. pose proof (u8_inj y x) as Hinj. repeat case_bool.
      * exists (-1). split; [done|]. split; [done|]. intros [k [= -> _]]. lia.
      * exists 1. split; [done|]. split; [done|]. intros [k [= -> _]]. lia.
      * done.
      * assert (y = x) as -> by (apply Hinj; (done || lia)).
        destruct (IH hs r (i + 1)) as (z & Hz & Hp); try done.
        exists z. replace (i + Z.of_nat (S (length ns))) with (i + 1 + Z.of_nat (length ns)) by lia.
        split; [done|]. rewrite Hp. split; [apply prefix_cons|apply prefix_cons_inv_2].
Qed.

(** The first place where [ns] starts in [hs], before its end. *)
Definition first_occurrence (ns hs : list Z) (i : nat) : Prop :=
  (i < length hs)%nat ∧ ns `prefix_of` drop i hs ∧ ∀ j, (j < i)%nat -> ¬ ns `prefix_of` drop j hs.

(** [strstr] returns the first place in the haystack where the needle
    starts, and NULL when there is none; the end of the haystack is never such
    a place, so that, unlike in C, an empty needle is not found in an empty
    haystack. *)
Theorem strstr_first hs ns r1 r2 :
  no_nul hs -> no_nul ns -> chars hs -> chars ns -> Z.of_nat (length ns) < 2 ^ 64 ->
  ∃ res, strstr (Some (hs ++ 0 :: r1)) (ns ++ 0 :: r2) = Ret res ∧
    match res with
    | Some p => ∃ i, first_occurrence ns hs i ∧ p = drop i (hs ++ 0 :: r1)
    | None => ∀ i, (i < length hs)%nat -> ¬ ns `prefix_of` drop i hs
    end.
Proof.
  intros Hh Hn Hch Hcn Hl. unfold strstr. rewrite strlen_ok by done. cbn [mbind outcome_bind].
  induction hs as [|c hs IH].
  - exists None. split; [done|]. intros i Hi. simpl in Hi. lia.
  - pose proof Hh as Hh'. pose proof Hch as Hch'. inversion Hh; inversion Hch; subst. cbn [app find_sub].
    rewrite (proj2 (Z.eqb_neq _ _)) by done.
    destruct (strncmp_prefix ns r2 (c :: hs) r1 0) as (z & Hz & Hp); try done.
    rewrite Z.add_0_l in Hz. cbn [app] in Hz.
    change (strncmp (c :: hs ++ 0 :: r1) (ns ++ 0 :: r2) (Z.of_nat (length ns)) = Ret z) in Hz.
    rewrite Hz. cbn [mbind outcome_bind].
    destruct (Z.eqb_spec z 0) as [E|E].
    + eexists. split; [done|]. exists 0%nat. split; [|done].
      split; [simpl; lia|]. split; [by apply Hp|lia].
    + destruct IH as (res & Hf & Hres); try done. exists res. split; [done|].
      assert (¬ ns `prefix_of` c :: hs) as Hnp by tauto.
      destruct res as [p|].
      * destruct Hres as (i & (Hi & Hpi & Hmin) & ->). exists (S i). split; [|done].
        split; [simpl; lia|]. split; [done|]. intros [|j] Hj; [done|]. apply Hmin. lia.
      * intros [|i] Hi; [done|]. apply Hres. simpl in Hi. lia.
Qed.

Lemma strrchr_loop_ok n : ∀ s r c,
  (n <= length s)%nat ->
  ∃ res, strrchr_loop n (s ++ 0 :: r) c = Ret res ∧
    match res with
    | Some i => 0 < i < Z.of_nat n ∧ s !! Z.to_nat i = Some c ∧
        ∀ j, i < j < Z.of_nat n -> s !! Z.to_nat j ≠ Some c
    | None => ∀ j, 0 < j < Z.of_nat n -> s !! Z.to_nat j ≠ Some c
    end.
Proof.
  induction n as [|n IH]; intros s r c Hl; [exists None; split; [done|lia]|]. cbn [strrchr_loop].
  case_bool; [|exists None; split; [done|lia]].
  destruct (lookup_lt_is_Some_2 s n) as [x Hx]; [lia|].
  rewrite (arr_get_Some _ _ x) by (lia || by rewrite Nat2Z.id, lookup_app_l by lia). cbn [mbind outcome_bind].
  destruct (Z.eqb_spec x c) as [->|Hne].
  - exists (Some (Z.of_nat n)). split; [done|]. rewrite Nat2Z.id. split; [lia|]. split; [done|lia].
  - destruct (IH s r c) as (res & -> & Hres); [lia|]. exists res. split; [done|].
    assert (Hn : ∀ j, j = Z.of_nat n -> s !! Z.to_nat j ≠ Some c)
      by (intros j ->; rewrite Nat2Z.id, Hx; congruence).
    destruct res as [i|].
    + destruct Hres as (Hi & Hc & Hmax). split; [lia|]. split; [done|]. intros j Hj.
      destruct (decide (j = Z.of_nat n)); [by apply Hn|]. apply Hmax. lia.
    + intros j Hj. destruct (decide (j = Z.of_nat n)); [by apply Hn|]. apply Hres. lia.
Qed.

(** [strrchr] finds the last occurrence, but never one at index 0. *)
Theorem strrchr_misses_first s r c :
  no_nul s -> Z.of_nat (length s) <= INT_MAX ->
  ∃ res, strrchr (s ++ 0 :: r) c = Ret res ∧
    match res with
    | Some i => 0 < i < Z.of_nat (length s) ∧ s !! Z.to_nat i = Some c ∧
        ∀ j, i < j < Z.of_nat (length s) -> s !! Z.to_nat j ≠ Some c
    | None => ∀ j, 0 < j < Z.of_nat (length s) -> s !! Z.to_nat j ≠ Some c
    end.
Proof.
  intros Hs Hl. unfold strrchr. unfold INT_MAX in Hl. rewrite strlen_ok by (done || lia). cbn [mbind outcome_bind].
  unfold s32. rewrite swrap_small by lia. rewrite Nat2Z.id. apply strrchr_loop_ok. lia.
Qed.

(** ** Copying with a limit *)

Lemma strlcpy_loop_ok s r : ∀ dst m n,
  no_nul s -> 0 <= m < n -> n < 2 ^ 64 -> n - m <= Z.of_nat (length dst) -> Z.of_nat (length s) < 2 ^ 64 ->
  strlcpy_loop dst (s ++ 0 :: r) m n =
  Ret (let k := Nat.min (length s) (Z.to_nat (n - 1 - m)) in take k s ++ 0 :: drop (S k) dst,
       Z.of_nat (length s)).
Proof.
  induction s as [|c s IH]; intros dst m n Hs Hm Hn Hd Hls; (destruct dst as [|d dst]; [simpl in Hd; lia|]);
    cbn [app strlcpy_loop]; unfold u64; rewrite (wrap_small 64 (n - 1)) by lia;
    rewrite (proj2 (Z.ltb_lt 0 n)) by lia.
  - cbn [store mbind outcome_bind]. case_bool; simpl; by rewrite drop_0.
  - inversion Hs; subst. rewrite (proj2 (Z.eqb_neq c 0)) by done. simpl in Hd, Hls. case_bool.
    + rewrite IH by (done || lia). cbn [mbind outcome_bind fst snd length].
      replace (Z.to_nat (n - 1 - m)) with (S (Z.to_nat (n - 1 - (m + 1)))) by lia.
      rewrite <- Nat.succ_min_distr. cbv zeta. simpl. do 2 f_equal. lia.
    + replace (Z.to_nat (n - 1 - m)) with 0%nat by lia. rewrite Nat.min_0_r. cbn [store mbind outcome_bind].
      change (c :: s ++ 0 :: r) with ((c :: s) ++ 0 :: r).
      rewrite strlen_ok by (done || simpl; lia). cbn [mbind outcome_bind]. simpl. by rewrite drop_0.
Qed.

(** With [n = 0] the limit [n - 1] wraps around: the whole string is copied,
    without a NUL, whatever the size of [dst]. *)
Lemma strlcpy_loop_zero s r : ∀ dst m,
  no_nul s -> 0 <= m -> m + Z.of_nat (length s) < 2 ^ 64 - 1 ->
  strlcpy_loop dst (s ++ 0 :: r) m 0 =
  if decide (length s <= length dst)%nat then Ret (s ++ drop (length s) dst, Z.of_nat (length s))
  else Fault OutOfBounds.
Proof.
  assert (Hu : u64 (0 - 1) = 2 ^ 64 - 1) by reflexivity.
  induction s as [|c s IH]; intros dst m Hs Hm Hl; cbn [app strlcpy_loop length] in *; rewrite Hu.
  - rewrite (proj2 (Z.ltb_lt m _)) by lia. rewrite decide_True by lia. by rewrite drop_0.
  - rewrite (proj2 (Z.ltb_lt m _)) by lia. inversion Hs; subst. rewrite (proj2 (Z.eqb_neq c 0)) by done.
    destruct dst as [|d dst]; [by rewrite decide_False by (simpl; lia)|].
    rewrite IH by (done || lia). destruct (decide (length s <= length dst)%nat).
    + rewrite decide_True by (simpl; lia). cbn [mbind outcome_bind fst snd drop app]. do 2 f_equal. lia.
    + by rewrite decide_False by (simpl; lia).
Qed.

(** For a positive size, [strlcpy] copies as much as fits, always ends the
    copy with a NUL, leaves the rest of the buffer alone and returns the length
    of the source; but for size 0 its limit wraps around and it writes the
    whole source, leaving a buffer that is shorter than it. *)
Theorem strlcpy_copies s r dst n :
  no_nul s -> Z.of_nat (length s) < 2 ^ 64 - 1 ->
  (0 < n < 2 ^ 64 -> n <= Z.of_nat (length dst) ->
   let k := Nat.min (length s) (Z.to_nat (n - 1)) in
   strlcpy dst (s ++ 0 :: r) n = Ret (take k s ++ 0 :: drop (S k) dst, Z.of_nat (length s))) ∧
  (strlcpy dst (s ++ 0 :: r) 0 =
   if decide (length s <= length dst)%nat then Ret (s ++ drop (length s) dst, Z.of_nat (length s))
   else Fault OutOfBounds).
Proof.
  intros Hs Hl. split.
  - intros Hn Hd. cbv zeta. unfold strlcpy. rewrite strlcpy_loop_ok by (done || lia).
    by rewrite Z.sub_0_r.
  - unfold strlcpy. by apply strlcpy_loop_zero; (done || lia).
Qed.

(** * Witnesses *)

Ltac small_list := repeat constructor; lia.

(** "  -42x" *)
Lemma strtoll10_parses_witness :
  strtoll10 [32; 32; 45; 52; 50; 120; 0] = Ret (-42, [120; 0]) ∧
  strtoull10 [43; 55; 0] = Ret (7, [0]).
Proof.
  split.
  - destruct (strtoll10_parses (Numeral [32; 32] [45] [4; 2] 120 [0])) as [H _].
    + split; [repeat constructor|]. split; [auto|]. split; [small_list|]. split; [reflexivity|discriminate].
    + apply H. unfold LLONG_MAX. simpl. lia.
  - destruct (strtoll10_parses (Numeral [] [43] [7] 0 [])) as [_ H].
    + split; [repeat constructor|]. split; [auto|]. split; [small_list|]. split; [reflexivity|discriminate].
    + apply H. discriminate.
Defined.

(** "123," and "0x1f " *)
Lemma parse_UInt_Addr_exact_witness :
  parse_UInt [49; 50; 51; 44; 0] 9 = Ret (true, [44; 0], 123) ∧
  ∃ v, parse_Addr [48; 120; 49; 102; 44; 0] 9 = Ret (true, [44; 0], v) ∧ v = 31.
Proof.
  destruct (parse_UInt_Addr_exact [1; 2; 3] [49; 102] 44 [0] 9) as [Hu (v & Ha & Hv)].
  - small_list.
  - reflexivity.
  - repeat constructor.
  - reflexivity.
  - split; [exact Hu|]. exists v. split; [exact Ha|]. rewrite Hv; [reflexivity|simpl; lia].
Defined.

Lemma strcmp_order_witness :
  strcmp [97; 98; 0] [97; -61; 0] = Ret (-1).
Proof.
  destruct (strcmp_order [97; 98] [97; -61] [] [] [] []) as [H _];
    [small_list|small_list|small_list|small_list|small_list|small_list|exact H].
Defined.

Lemma strstr_first_witness :
  ∃ res, strstr (Some [97; 98; 99; 0]) [98; 99; 0] = Ret res ∧ res = Some [98; 99; 0].
Proof.
  destruct (strstr_first [97; 98; 99] [98; 99] [] []) as (res & H & Hr);
    [small_list|small_list|small_list|small_list|simpl; lia|].
  exists res. split; [exact H|]. revert H. vm_compute. congruence.
Defined.

Lemma strlcpy_copies_witness :
  strlcpy [1; 1; 1] [97; 98; 99; 0] 3 = Ret ([97; 98; 0], 3) ∧ strlcpy [1] [97; 98; 99; 0] 0 = Fault OutOfBounds.
Proof.
  split.
  - destruct (strlcpy_copies [97; 98; 99] [] [1; 1; 1] 3) as [H _]; [small_list|simpl; lia|].
    apply H; simpl; lia.
  - destruct (strlcpy_copies [97; 98; 99] [] [1] 0) as [_ H]; [small_list|simpl; lia|]. exact H.
Defined.
