(* ===== verification/LibcMem.v ===== *)
(** [coregrind/m_libcbase.c], second part: the memory functions, logarithms, the
    random number generator and the Adler-32 checksum.

    Memory is one list of bytes, in which source and destination are offsets
    and may overlap; offset 0 is aligned to 4 bytes. The quicksort of the file is
    in Ssort.v. *)

From S2P Require Import Prelude.
Local Open Scope Z_scope.

(** * Memory *)

Definition aligned4 (p : Z) : bool := Z.land p 3 =? 0.

(** [dI[0] = sI[0]] and [d[0] = s[0]]: read, then write. *)
Definition copy_word (mem : list Z) (d s : Z) : outcome (list Z) := blit mem d s 4.
Definition copy_byte (mem : list Z) (d s : Z) : outcome (list Z) := blit mem d s 1.

(** Four times, at increasing addresses. *)
Definition copy4 (step : Z) (copy : list Z -> Z -> Z -> outcome (list Z)) (mem : list Z) (d s : Z)
  : outcome (list Z) :=
  m1 ← copy mem d s; m2 ← copy m1 (d + step) (s + step);
  m3 ← copy m2 (d + 2 * step) (s + 2 * step); copy m3 (d + 3 * step) (s + 3 * step).

(** [while (sz >= n) { copy n bytes; d += n; s += n; sz -= n; }] *)
Fixpoint copy_while (fuel : nat) (n : Z) (copy : list Z -> Z -> Z -> outcome (list Z))
    (mem : list Z) (d s sz : Z) : outcome (list Z * Z * Z * Z) :=
  match fuel with
  | O => Fault OutOfFuel
  | S fuel =>
      if n <=? sz then mem' ← copy mem d s; copy_while fuel n copy mem' (d + n) (s + n) (sz - n)
      else Ret (mem, d, s, sz)
  end.

Definition memcpy (mem : list Z) (dest src sz : Z) : outcome (list Z) :=
  let fuel := S (Z.to_nat sz) in
  st ← (if aligned4 dest && aligned4 src then
          r1 ← copy_while fuel 16 (copy4 4 copy_word) mem dest src sz;
          if r1.2 =? 0 then Ret r1
          else copy_while fuel 4 copy_word r1.1.1.1 r1.1.1.2 r1.1.2 r1.2
        else Ret (mem, dest, src, sz));
  if st.2 =? 0 then Ret st.1.1.1
  else
    r3 ← copy_while fuel 4 (copy4 1 copy_byte) st.1.1.1 st.1.1.2 st.1.2 st.2;
    r4 ← copy_while fuel 1 copy_byte r3.1.1.1 r3.1.1.2 r3.1.2 r3.2;
    Ret r4.1.1.1.

Definition memmove (mem : list Z) (dest src sz : Z) : outcome (list Z) :=
  if sz =? 0 then Ret mem
  else if dest <? src then
    for_up 0 sz (fun i mem => x ← arr_get mem (src + i); arr_set mem (dest + i) x) mem
  else if src <? dest then
    for_up 0 sz (fun i mem => x ← arr_get mem (src + (sz - i - 1)); arr_set mem (dest + (sz - i - 1)) x) mem
  else Ret mem.

(** A word whose four bytes are equal is stored as its bytes. *)
Definition byte_of (c4 i : Z) : Z := Z.land (Z.shiftr c4 (8 * i)) 255.

Definition set_word (mem : list Z) (d c4 : Z) : outcome (list Z) :=
  for_up 0 4 (fun i mem => arr_set mem (d + i) (byte_of c4 i)) mem.

Fixpoint set_while (fuel : nat) (n : Z) (set : list Z -> Z -> outcome (list Z)) (more : Z -> Z -> bool)
    (mem : list Z) (d sz : Z) : outcome (list Z * Z * Z) :=
  match fuel with
  | O => Fault OutOfFuel
  | S fuel =>
      if more d sz then mem' ← set mem d; set_while fuel n set more mem' (d + n) (sz - n)
      else Ret (mem, d, sz)
  end.

Definition memset (mem : list Z) (dest c sz : Z) : outcome (list Z) :=
  let fuel := S (Z.to_nat sz) in
  let uc := u8 c in
  r1 ← set_while fuel 1 (fun mem d => arr_set mem d uc) (fun d sz => negb (aligned4 d) && (1 <=? sz)) mem dest sz;
  if r1.2 =? 0 then Ret r1.1.1
  else
    let c2 := Z.lor uc (u32 (Z.shiftl uc 8)) in
    let c4 := Z.lor c2 (u32 (Z.shiftl c2 16)) in
    r2 ← set_while fuel 16
           (fun mem d => m1 ← set_word mem d c4; m2 ← set_word m1 (d + 4) c4;
                         m3 ← set_word m2 (d + 8) c4; set_word m3 (d + 12) c4)
           (fun _ sz => 16 <=? sz) r1.1.1 r1.1.2 r1.2;
    r3 ← set_while fuel 4 (fun mem d => set_word mem d c4) (fun _ sz => 4 <=? sz) r2.1.1 r2.1.2 r2.2;
    r4 ← set_while fuel 1 (fun mem d => arr_set mem d (u8 c)) (fun _ sz => 1 <=? sz) r3.1.1 r3.1.2 r3.2;
    Ret r4.1.1.

Fixpoint memcmp (s1 s2 : list Z) (n : nat) : outcome Z :=
  match n with
  | O => Ret 0
  | S n =>
      match s1, s2 with
      | a0 :: s1', b0 :: s2' => let res := a0 - b0 in if negb (res =? 0) then Ret res else memcmp s1' s2' n
      | _, _ => Fault OutOfBounds
      end
  end.

(** * Logarithms and random numbers *)

(** [for (i = 0; i < bits; i++) if ((1 << i) == x) return i; return -1;] *)
Fixpoint log2_loop (n : nat) (i x : Z) : Z :=
  match n with
  | O => -1
  | S n => if Z.shiftl 1 i =? x then i else log2_loop n (i + 1) x
  end.

Definition log2 (x : Z) : Z := log2_loop 32 0 x.
Definition log2_64 (x : Z) : Z := log2_loop 64 0 x.

(** The new seed, which is also the result. *)
Definition random (seed : Z) : Z := u32 (u32 (1103515245 * seed) + 12345).

(** * Adler-32 *)

Definition BASE : Z := 65521.
Definition NMAX : Z := 5552.

(** [DO1] on [adler] and [sum2]. *)
Definition DO1 (st : Z * Z) (b : Z) : Z * Z :=
  let adler := u32 (st.1 + b) in (adler, u32 (st.2 + adler)).

Definition DO16 (buf : list Z) (st : Z * Z) : outcome (Z * Z) :=
  if (16 <=? length buf)%nat then Ret (foldl DO1 st (take 16 buf)) else Fault OutOfBounds.

(** One conditional subtraction of [MOD] and [MOD4] after the other. *)
Definition sub_base (a k : Z) : Z :=
  if Z.shiftl BASE k <=? a then u32 (a - Z.shiftl BASE k) else a.

Definition MOD (a : Z) : Z := foldl sub_base a [16; 15; 14; 13; 12; 11; 10; 9; 8; 7; 6; 5; 4; 3; 2; 1; 0].
Definition MOD4 (a : Z) : Z := foldl sub_base a [4; 3; 2; 1; 0].

(** [while (len--) { adler += *buf++; sum2 += adler; }] *)
Fixpoint do_bytes (len : nat) (buf : list Z) (st : Z * Z) : outcome (Z * Z) :=
  match len with
  | O => Ret st
  | S len => match buf with [] => Fault OutOfBounds | b :: buf' => do_bytes len buf' (DO1 st b) end
  end.

(** [do { DO16(buf); buf += 16; } while (--n);] for [n >= 1] *)
Fixpoint do_blocks (n : nat) (buf : list Z) (st : Z * Z) : outcome (list Z * (Z * Z)) :=
  match n with
  | O => Ret (buf, st)
  | S n => st' ← DO16 buf st; do_blocks n (drop 16 buf) st'
  end.

Fixpoint nmax_loop (fuel : nat) (len : Z) (buf : list Z) (st : Z * Z) : outcome (Z * list Z * (Z * Z)) :=
  match fuel with
  | O => Fault OutOfFuel
  | S fuel =>
      if NMAX <=? len then
        r ← do_blocks (Z.to_nat (NMAX / 16)) buf st;
        nmax_loop fuel (len - NMAX) r.1 (MOD r.2.1, MOD r.2.2)
      else Ret (len, buf, st)
  end.

Fixpoint rest16_loop (fuel : nat) (len : Z) (buf : list Z) (st : Z * Z) : outcome (Z * list Z * (Z * Z)) :=
  match fuel with
  | O => Fault OutOfFuel
  | S fuel =>
      if 16 <=? len then st' ← DO16 buf st; rest16_loop fuel (len - 16) (drop 16 buf) st'
      else Ret (len, buf, st)
  end.

Definition recombine (st : Z * Z) : Z := Z.lor st.1 (u32 (Z.shiftl st.2 16)).

(** [buf] is [None] for NULL. *)
Definition adler32 (adler : Z) (buf : option (list Z)) (len : Z) : outcome Z :=
  let sum2 := Z.land (Z.shiftr adler 16) 65535 in
  let adler := Z.land adler 65535 in
  if len =? 1 then
    match buf with
    | None => Fault NullDeref
    | Some buf =>
        b ← arr_get buf 0;
        let adler := u32 (adler + b) in
        let adler := if BASE <=? adler then u32 (adler - BASE) else adler in
        let sum2 := u32 (sum2 + adler) in
        let sum2 := if BASE <=? sum2 then u32 (sum2 - BASE) else sum2 in
        Ret (recombine (adler, sum2))
    end
  else
    match buf with
    | None => Ret 1
    | Some buf =>
        if len <? 16 then
          st ← do_bytes (Z.to_nat len) buf (adler, sum2);
          Ret (recombine (if BASE <=? st.1 then u32 (st.1 - BASE) else st.1, MOD4 st.2))
        else
          r1 ← nmax_loop (S (Z.to_nat len)) len buf (adler, sum2);
          if r1.1.1 =? 0 then Ret (recombine r1.2)
          else
            r2 ← rest16_loop (S (Z.to_nat len)) r1.1.1 r1.1.2 r1.2;
            st ← do_bytes (Z.to_nat r2.1.1) r2.1.2 r2.2;
            Ret (recombine (MOD st.1, MOD st.2))
    end.

(** "Wikipedia" *)
Example adler32_example :
  adler32 1 (Some [87; 105; 107; 105; 112; 101; 100; 105; 97]) 9 = Ret 300286872.
Proof. vm_compute. reflexivity. Qed.

(** * Copying *)

(** [m] is [mem] after the first [i] bytes from [s] have gone to [d]. *)
Definition is_copy (mem : list Z) (d s i : Z) (m : list Z) : Prop :=
  length m = length mem ∧
  ∀ j : nat, m !! j = if decide (d <= Z.of_nat j < d + i) then mem !! Z.to_nat (s + (Z.of_nat j - d)) else mem !! j.

Lemma is_copy_unique mem d s i m1 m2 : is_copy mem d s i m1 -> is_copy mem d s i m2 -> m1 = m2.
Proof. intros [_ H1] [_ H2]. apply list_eq. intros j. by rewrite H1, H2. Qed.

Lemma is_copy_0 mem d s : is_copy mem d s 0 mem.
Proof. split; [done|]. intros j. by rewrite decide_False by lia. Qed.

Lemma blit_copy mem d s n :
  0 <= d -> 0 <= s -> 0 <= n -> d + n <= Z.of_nat (length mem) -> s + n <= Z.of_nat (length mem) ->
  ∃ m, blit mem d s n = Ret m ∧ is_copy mem d s n m.
Proof.
  intros Hd Hs Hn Hdn Hsn. unfold blit. rewrite !(proj2 (Z.leb_le _ _)) by lia. simpl.
  eexists. split; [done|]. split.
  - rewrite !length_app, !length_take, !length_drop. lia.
  - intros j. assert (Htd : length (take (Z.to_nat d) mem) = Z.to_nat d) by (rewrite length_take; lia).
    assert (Htn : length (take (Z.to_nat n) (drop (Z.to_nat s) mem)) = Z.to_nat n)
      by (rewrite length_take, length_drop; lia).
    destruct (decide (Z.of_nat j < d)).
    + rewrite lookup_app_l by lia. rewrite lookup_take_lt by lia. by rewrite decide_False by lia.
    + rewrite lookup_app_r by lia. rewrite Htd. destruct (decide (Z.of_nat j < d + n)).
      * rewrite lookup_app_l by lia. rewrite lookup_take_lt, lookup_drop by lia.
        rewrite decide_True by lia. f_equal. lia.
      * rewrite lookup_app_r by lia. rewrite Htn, lookup_drop. rewrite decide_False by lia. f_equal. lia.
Qed.

Section Copy.
Context (mem : list Z) (d s sz : Z).
Context (Hd : 0 <= d) (Hs : 0 <= s) (Hdn : d + sz <= Z.of_nat (length mem)) (Hsn : s + sz <= Z.of_nat (length mem)).

(** Copying upwards does not spoil what is still to be read. *)
Context (Hup : d <= s ∨ s + sz <= d).

(** [copy] does [k] more bytes of the whole copy. *)
Definition copies (k : Z) (copy : list Z -> Z -> Z -> outcome (list Z)) : Prop :=
  ∀ m i, is_copy mem d s i m -> 0 <= i -> i + k <= sz ->
    ∃ m', copy m (d + i) (s + i) = Ret m' ∧ is_copy mem d s (i + k) m'.

Lemma blit_copies k : 0 <= k -> copies k (fun m d s => blit m d s k).
Proof.
  intros Hk m i [Hl Hm] Hi Hik.
  destruct (blit_copy m (d + i) (s + i) k) as (m' & -> & [Hl' Hm']); try lia.
  exists m'. split; [done|]. split; [by rewrite Hl', Hl|].
  intros j. rewrite Hm'. repeat rewrite Hm. repeat case_decide; try (exfalso; lia); try done; f_equal; lia.
Qed.

Lemma copy4_copies step copy : 0 <= step -> copies step copy -> copies (4 * step) (copy4 step copy).
Proof.
  intros Hst Hc m i Hm Hi Hk. unfold copy4.
  destruct (Hc m i Hm) as (m1 & -> & H1); [lia|lia|]. cbn [mbind outcome_bind].
  rewrite <- !Z.add_assoc.
  destruct (Hc m1 (i + step) H1) as (m2 & -> & H2); [lia|lia|]. cbn [mbind outcome_bind].
  destruct (Hc m2 (i + step + step) H2) as (m3 & H3e & H3); [lia|lia|].
  replace (i + 2 * step) with (i + step + step) by lia. rewrite H3e. cbn [mbind outcome_bind].
  destruct (Hc m3 (i + step + step + step) H3) as (m4 & H4e & H4); [lia|lia|].
  replace (i + 3 * step) with (i + step + step + step) by lia. rewrite H4e.
  exists m4. split; [done|]. by replace (i + 4 * step) with (i + step + step + step + step) by lia.
Qed.

Lemma copy_while_ok k copy fuel : ∀ m i,
  0 < k -> copies k copy -> is_copy mem d s i m -> 0 <= i <= sz -> (Z.to_nat (sz - i) < fuel)%nat ->
  ∃ m' i', copy_while fuel k copy m (d + i) (s + i) (sz - i) = Ret (m', d + i', s + i', sz - i') ∧
    is_copy mem d s i' m' ∧ i <= i' <= sz ∧ sz - i' < k.
Proof.
  induction fuel as [|fuel IH]; intros m i Hk Hc Hm Hi Hf; [lia|]. cbn [copy_while]. case_bool.
  - destruct (Hc m i Hm) as (m1 & -> & H1); [lia|lia|]. cbn [mbind outcome_bind].
    replace (d + i + k) with (d + (i + k)) by lia. replace (s + i + k) with (s + (i + k)) by lia.
    replace (sz - i - k) with (sz - (i + k)) by lia.
    destruct (IH m1 (i + k)) as (m' & i' & -> & Hm' & Hi' & Hlt); [done|done|done|lia|lia|].
    exists m', i'. split; [done|]. split; [done|lia].
  - exists m, i. split; [done|]. split; [done|lia].
Qed.

Lemma memcpy_copy : 0 <= sz -> ∃ m, memcpy mem d s sz = Ret m ∧ is_copy mem d s sz m.
Proof.
  intros Hsz. unfold memcpy. cbv zeta.
  assert (H16 : copies 16 (copy4 4 copy_word)) by (apply (copy4_copies 4); [lia|apply blit_copies; lia]).
  assert (Hw : copies 4 copy_word) by (apply blit_copies; lia).
  assert (H4 : copies 4 (copy4 1 copy_byte)) by (apply (copy4_copies 1); [lia|apply blit_copies; lia]).
  assert (H1 : copies 1 copy_byte) by (apply blit_copies; lia).
  set (st := if aligned4 d && aligned4 s then _ else _).
  assert (∃ m i, st = Ret (m, d + i, s + i, sz - i) ∧ is_copy mem d s i m ∧ 0 <= i <= sz) as (m & i & -> & Hm & Hi).
  { subst st. case_bool.
    - destruct (copy_while_ok 16 _ (S (Z.to_nat sz)) mem 0 ltac:(lia) H16 (is_copy_0 _ _ _))
        as (m1 & i1 & He & Hm1 & Hi1 & _); [lia|lia|].
      rewrite !Z.add_0_r, Z.sub_0_r in He. rewrite He. cbn [mbind outcome_bind fst snd].
      destruct (sz - i1 =? 0); [exists m1, i1; split; [done|]; split; [done|lia]|].
      destruct (copy_while_ok 4 _ (S (Z.to_nat sz)) m1 i1 ltac:(lia) Hw Hm1)
        as (m2 & i2 & He2 & Hm2 & Hi2 & _); [lia|lia|]. exists m2, i2. split; [done|]. split; [done|lia].
    - exists mem, 0. rewrite !Z.add_0_r, Z.sub_0_r. split; [done|]. split; [apply is_copy_0|lia]. }
  cbn [mbind outcome_bind fst snd]. destruct (Z.eqb_spec (sz - i) 0) as [E|E].
  { exists m. split; [done|]. by replace sz with i by lia. }
  destruct (copy_while_ok 4 _ (S (Z.to_nat sz)) m i ltac:(lia) H4 Hm)
    as (m3 & i3 & -> & Hm3 & Hi3 & _); [lia|lia|]. cbn [mbind outcome_bind fst snd].
  destruct (copy_while_ok 1 _ (S (Z.to_nat sz)) m3 i3 ltac:(lia) H1 Hm3)
    as (m4 & i4 & -> & Hm4 & Hi4 & Hlast); [lia|lia|]. cbn [mbind outcome_bind fst snd].
  exists m4. split; [done|]. by replace sz with i4 by lia.
Qed.

End Copy.

(** One byte of [memmove]. *)
Lemma move_byte mem d s i m x :
  is_copy mem d s i m -> 0 <= d -> 0 <= i -> d + i < Z.of_nat (length mem) ->
  mem !! Z.to_nat (s + i) = Some x ->
  ∃ m', arr_set m (d + i) x = Ret m' ∧ is_copy mem d s (i + 1) m'.
Proof.
  intros [Hl Hm] Hd Hi Hb Hx. rewrite arr_set_in_range by lia. eexists. split; [done|].
  split; [by rewrite length_insert|]. intros j. destruct (decide (Z.of_nat j = d + i)) as [E|E].
  - replace j with (Z.to_nat (d + i)) by lia. rewrite list_lookup_insert_eq by lia.
    rewrite decide_True by lia. rewrite <- Hx. f_equal. lia.
  - rewrite list_lookup_insert_ne by lia. rewrite Hm. destruct (decide (d <= Z.of_nat j < d + i)).
    + by rewrite decide_True by lia.
    + by rewrite decide_False by lia.
Qed.

Lemma memmove_copy mem d s sz :
  0 <= d -> 0 <= s -> 0 <= sz -> d + sz <= Z.of_nat (length mem) -> s + sz <= Z.of_nat (length mem) ->
  ∃ m, memmove mem d s sz = Ret m ∧ is_copy mem d s sz m.
Proof.
  intros Hd Hs Hsz Hdn Hsn. unfold memmove.
  destruct (Z.eqb_spec sz 0) as [->|Hnz]; [exists mem; split; [done|apply is_copy_0]|].
  assert (Hread : ∀ i, 0 <= i < sz -> ∃ x, mem !! Z.to_nat (s + i) = Some x)
    by (intros i Hi; apply lookup_lt_is_Some_2; lia).
  destruct (Z.ltb_spec d s) as [Hlt|Hge]; [|destruct (Z.ltb_spec s d) as [Hgt|Hle]].
  - apply (for_up_inv (fun i m => is_copy mem d s i m)); [lia|apply is_copy_0|].
    intros i m Hi Hm. destruct (Hread i Hi) as [x Hx].
    rewrite (arr_get_Some m (s + i) x); [|lia|].
    + cbn [mbind outcome_bind]. apply (move_byte mem d s i m x); (done || lia).
    + destruct Hm as [_ Hm]. rewrite Hm, decide_False by lia. done.
  - destruct (for_up_inv (fun i m => is_copy mem (d + (sz - i)) (s + (sz - i)) i m) 0 sz
      (fun i mem => x ← arr_get mem (s + (sz - i - 1)); arr_set mem (d + (sz - i - 1)) x) mem)
      as (m & He & Hm); [lia|apply is_copy_0| |].
    + intros i m Hi [Hl Hm]. destruct (Hread (sz - i - 1)) as [x Hx]; [lia|].
      rewrite (arr_get_Some m _ x); [|lia|by rewrite Hm, decide_False by lia]. cbn [mbind outcome_bind].
      rewrite arr_set_in_range by lia. eexists. split; [done|]. split; [by rewrite length_insert|].
      intros j. destruct (decide (Z.of_nat j = d + (sz - i - 1))) as [E|E].
      * replace j with (Z.to_nat (d + (sz - i - 1))) by lia. rewrite list_lookup_insert_eq by lia.
        rewrite decide_True by lia. rewrite <- Hx. f_equal. lia.
      * rewrite list_lookup_insert_ne by lia. rewrite Hm.
        repeat case_decide; try (exfalso; lia); try done; f_equal; lia.
    + exists m. split; [exact He|]. by rewrite Z.sub_diag, !Z.add_0_r in Hm.
  - replace d with s by lia. exists mem. split; [done|]. split; [done|]. intros j.
    case_decide; [|done]. f_equal. lia.
Qed.

(** * Setting *)

(** [m] is [mem] with the first [i] bytes from [d] on set to [v]. *)
Definition is_fill (mem : list Z) (d v i : Z) (m : list Z) : Prop :=
  length m = length mem ∧ ∀ j : nat, m !! j = if decide (d <= Z.of_nat j < d + i) then Some v else mem !! j.

Lemma is_fill_0 mem d v : is_fill mem d v 0 mem.
Proof. split; [done|]. intros j. by rewrite decide_False by lia. Qed.

Lemma fill_byte mem d v i m :
  is_fill mem d v i m -> 0 <= d -> 0 <= i -> d + i < Z.of_nat (length mem) ->
  ∃ m', arr_set m (d + i) v = Ret m' ∧ is_fill mem d v (i + 1) m'.
Proof.
  intros [Hl Hm] Hd Hi Hb. rewrite arr_set_in_range by lia. eexists. split; [done|].
  split; [by rewrite length_insert|]. intros j. destruct (decide (Z.of_nat j = d + i)) as [E|E].
  - replace j with (Z.to_nat (d + i)) by lia. rewrite list_lookup_insert_eq by lia. by rewrite decide_True by lia.
  - rewrite list_lookup_insert_ne by lia. rewrite Hm. repeat case_decide; try (exfalso; lia); done.
Qed.

(** The word of four equal bytes. *)
Definition spread (uc : Z) : Z :=
  let c2 := Z.lor uc (u32 (Z.shiftl uc 8)) in Z.lor c2 (u32 (Z.shiftl c2 16)).

Lemma byte_of_spread uc i : 0 <= uc < 256 -> 0 <= i < 4 -> byte_of (spread uc) i = uc.
Proof.
  intros Hu Hi.
  assert (forallb (fun uc => forallb (fun i => byte_of (spread uc) i =? uc) (seqZ 0 4)) (seqZ 0 256) = true)
    as Hall by (vm_compute; reflexivity).
  rewrite forallb_forall in Hall. specialize (Hall uc). rewrite <- list_elem_of_In, elem_of_seqZ in Hall.
  specialize (Hall ltac:(lia)). rewrite forallb_forall in Hall. specialize (Hall i).
  rewrite <- list_elem_of_In, elem_of_seqZ in Hall. apply Z.eqb_eq, Hall. lia.
Qed.

Section Fill.
Context (mem : list Z) (d c sz : Z).
Notation uc := (u8 c).
Context (Hd : 0 <= d) (Hdn : d + sz <= Z.of_nat (length mem)).

Definition fills (k : Z) (set : list Z -> Z -> outcome (list Z)) : Prop :=
  ∀ m i, is_fill mem d uc i m -> 0 <= i -> i + k <= sz ->
    ∃ m', set m (d + i) = Ret m' ∧ is_fill mem d uc (i + k) m'.

Lemma byte_fills : fills 1 (fun m d => arr_set m d uc).
Proof. intros m i Hm Hi Hk. by apply fill_byte; (done || lia). Qed.

Lemma word_fills : fills 4 (fun m d => set_word m d (spread uc)).
Proof.
  intros m i Hm Hi Hk. unfold set_word.
  destruct (for_up_inv (fun k m => is_fill mem d uc (i + k) m) 0 4
    (fun k m => arr_set m (d + i + k) (byte_of (spread uc) k)) m) as (m' & He & Hm'); [lia|by rewrite Z.add_0_r| |].
  - intros k m1 Hk1 Hm1. rewrite byte_of_spread; [|apply (wrap_range 8); lia|lia]. rewrite <- Z.add_assoc.
    destruct (fill_byte mem d uc (i + k) m1) as (m2 & Hm2 & Hf); [done|lia|lia|lia|].
    exists m2. split; [done|]. by rewrite Z.add_assoc.
  - eauto.
Qed.

Lemma words_fill :
  fills 16 (fun m d => m1 ← set_word m d (spread uc); m2 ← set_word m1 (d + 4) (spread uc);
                       m3 ← set_word m2 (d + 8) (spread uc); set_word m3 (d + 12) (spread uc)).
Proof.
  intros m i Hm Hi Hk.
  destruct (word_fills m i Hm) as (m1 & -> & H1); [lia|lia|]. cbn [mbind outcome_bind]. rewrite <- !Z.add_assoc.
  destruct (word_fills m1 (i + 4) H1) as (m2 & -> & H2); [lia|lia|]. cbn [mbind outcome_bind].
  destruct (word_fills m2 (i + 4 + 4) H2) as (m3 & He3 & H3); [lia|lia|].
  replace (i + 8) with (i + 4 + 4) by lia. rewrite He3. cbn [mbind outcome_bind].
  destruct (word_fills m3 (i + 4 + 4 + 4) H3) as (m4 & He4 & H4); [lia|lia|].
  replace (i + 12) with (i + 4 + 4 + 4) by lia. rewrite He4. exists m4. split; [done|].
  by replace (i + 16) with (i + 4 + 4 + 4 + 4) by lia.
Qed.

Lemma set_while_ok k set more fuel : ∀ m i,
  0 < k -> fills k set -> (∀ p n, more p n = true -> k <= n) -> is_fill mem d uc i m -> 0 <= i <= sz ->
  (Z.to_nat (sz - i) < fuel)%nat ->
  ∃ m' i', set_while fuel k set more m (d + i) (sz - i) = Ret (m', d + i', sz - i') ∧
    is_fill mem d uc i' m' ∧ i <= i' <= sz ∧ more (d + i') (sz - i') = false.
Proof.
  induction fuel as [|fuel IH]; intros m i Hk Hs Hmore Hm Hi Hf; [lia|]. cbn [set_while].
  destruct (more (d + i) (sz - i)) eqn:E.
  - apply Hmore in E. destruct (Hs m i Hm) as (m1 & -> & H1); [lia|lia|]. cbn [mbind outcome_bind].
    replace (d + i + k) with (d + (i + k)) by lia. replace (sz - i - k) with (sz - (i + k)) by lia.
    destruct (IH m1 (i + k)) as (m' & i' & -> & Hm' & Hi' & Hlt); [done|done|done|done|lia|lia|].
    exists m', i'. split; [done|]. split; [done|]. split; [lia|done].
  - exists m, i. split; [done|]. split; [done|]. split; [lia|done].
Qed.

Lemma memset_fill : 0 <= sz -> ∃ m, memset mem d c sz = Ret m ∧ is_fill mem d uc sz m.
Proof.
  intros Hsz. unfold memset. cbv zeta. change (Z.lor (Z.lor (u8 c) _) _) with (spread uc).
  destruct (set_while_ok 1 _ (fun d sz => negb (aligned4 d) && (1 <=? sz)) (S (Z.to_nat sz)) mem 0 ltac:(lia) byte_fills)
    as (m1 & i1 & He & H1 & Hi1 & _); [|apply is_fill_0|lia|lia|].
  { intros p n [_ Hn]%andb_true_iff. by apply Z.leb_le in Hn. }
  rewrite Z.add_0_r, Z.sub_0_r in He. rewrite He. cbn [mbind outcome_bind fst snd].
  destruct (Z.eqb_spec (sz - i1) 0); [exists m1; split; [done|]; by replace sz with i1 by lia|].
  destruct (set_while_ok 16 _ (fun _ sz => 16 <=? sz) (S (Z.to_nat sz)) m1 i1 ltac:(lia) words_fill)
    as (m2 & i2 & -> & H2 & Hi2 & _); [intros ? ?; by apply Z.leb_le|done|lia|lia|].
  cbn [mbind outcome_bind fst snd].
  destruct (set_while_ok 4 _ (fun _ sz => 4 <=? sz) (S (Z.to_nat sz)) m2 i2 ltac:(lia) word_fills)
    as (m3 & i3 & -> & H3 & Hi3 & _); [intros ? ?; by apply Z.leb_le|done|lia|lia|].
  cbn [mbind outcome_bind fst snd].
  destruct (set_while_ok 1 _ (fun _ sz => 1 <=? sz) (S (Z.to_nat sz)) m3 i3 ltac:(lia) byte_fills)
    as (m4 & i4 & -> & H4 & Hi4 & Hlast); [intros ? ?; by apply Z.leb_le|done|lia|lia|].
  cbn [mbind outcome_bind fst snd]. apply Z.leb_gt in Hlast. exists m4. split; [done|].
  by replace sz with i4 by lia.
Qed.

End Fill.

(** Within the memory, [memmove] gives what reading all the source first and
    then writing would, however the two areas overlap; [memcpy], with its
    aligned and unrolled loops, gives the same when the areas do not overlap
    and also when the destination is below the source; [memset] sets exactly
    its bytes to the byte of [c], through words or bytes. *)
Theorem mem_functions_exact mem d s c sz :
  0 <= d -> 0 <= s -> 0 <= sz -> d + sz <= Z.of_nat (length mem) -> s + sz <= Z.of_nat (length mem) ->
  memmove mem d s sz = blit mem d s sz ∧
  (d <= s ∨ s + sz <= d -> memcpy mem d s sz = blit mem d s sz) ∧
  memset mem d c sz = Ret (take (Z.to_nat d) mem ++ replicate (Z.to_nat sz) (u8 c) ++ drop (Z.to_nat (d + sz)) mem).
Proof.
  intros Hd Hs Hsz Hdn Hsn. destruct (blit_copy mem d s sz) as (m & -> & Hm); [done..|]. split; [|split].
  - destruct (memmove_copy mem d s sz) as (m1 & -> & Hm1); [done..|]. f_equal. by eapply is_copy_unique.
  - intros Hup. destruct (memcpy_copy mem d s sz) as (m1 & -> & Hm1); [done..|]. f_equal. by eapply is_copy_unique.
  - destruct (memset_fill mem d c sz) as (m1 & -> & [Hl Hm1]); [done..|]. f_equal. apply list_eq. intros j.
    rewrite Hm1. assert (Htd : length (take (Z.to_nat d) mem) = Z.to_nat d) by (rewrite length_take; lia).
    destruct (decide (Z.of_nat j < d)).
    + rewrite decide_False by lia. by rewrite lookup_app_l, lookup_take_lt by lia.
    + rewrite lookup_app_r by lia. rewrite Htd. case_decide.
      * rewrite lookup_app_l by (rewrite length_replicate; lia). symmetry. apply lookup_replicate_2. lia.
      * rewrite lookup_app_r by (rewrite length_replicate; lia). rewrite length_replicate, lookup_drop.
        f_equal. lia.
Qed.

(** * The checksum *)

Definition is_bytes (l : list Z) : Prop := Forall (fun b => 0 <= b < 256) l.

(** The two sums over the integers. *)
Definition sums (st : Z * Z) (l : list Z) : Z * Z := foldl (fun st b => (st.1 + b, st.2 + (st.1 + b))) st l.

Definition mods (st : Z * Z) : Z * Z := (st.1 mod BASE, st.2 mod BASE).

Lemma sums_congr l : ∀ st1 st2, mods st1 = mods st2 -> mods (sums st1 l) = mods (sums st2 l).
Proof.
  induction l as [|b l IH]; intros [a1 s1] [a2 s2] H; [done|]. cbn [sums foldl]. apply IH.
  unfold mods in *. cbn [fst snd] in *. injection H as Ha Hs.
  assert (Hab : (a1 + b) mod BASE = (a2 + b) mod BASE).
  { rewrite (Z.add_mod a1), (Z.add_mod a2), Ha by done. done. }
  rewrite Hab. f_equal. by rewrite (Z.add_mod s1), (Z.add_mod s2), Hs, Hab by done.
Qed.

Lemma sums_mods l st : mods (sums (mods st) l) = mods (sums st l).
Proof. apply sums_congr. unfold mods. cbn [fst snd]. by rewrite !Zmod_mod. Qed.

(** Over [k] bytes the sums stay within these bounds ... *)
Lemma sums_bounds l : ∀ a s A B,
  is_bytes l -> 0 <= a <= A -> 0 <= s <= B ->
  let k := Z.of_nat (length l) in
  0 <= (sums (a, s) l).1 <= A + 255 * k ∧ 0 <= (sums (a, s) l).2 <= B + k * A + 255 * (k * (k + 1) / 2).
Proof.
  induction l as [|b l IH]; intros a s A B Hl Ha Hs k; subst k.
  { cbn [sums foldl length fst snd]. change (Z.of_nat 0 * (Z.of_nat 0 + 1) / 2) with 0. lia. }
  inversion Hl as [|? ? Hb Hl']; subst. cbn [sums foldl length fst snd].
  destruct (IH (a + b) (s + (a + b)) (A + 255) (B + (A + 255)) Hl' ltac:(lia) ltac:(lia)) as [H1 H2].
  unfold sums in *. split; [lia|]. rewrite Nat2Z.inj_succ.
  set (k := Z.of_nat (length l)) in *.
  replace (Z.succ k * (Z.succ k + 1)) with (k * (k + 1) + (k + 1) * 2) by lia.
  rewrite Z.div_add by lia. nia.
Qed.

(** ... so that 32-bit arithmetic is exact. *)
Lemma DO1_exact l : ∀ a s,
  is_bytes l -> 0 <= a -> 0 <= s -> (sums (a, s) l).1 < 2 ^ 32 -> (sums (a, s) l).2 < 2 ^ 32 ->
  foldl DO1 (a, s) l = sums (a, s) l.
Proof.
  induction l as [|b l IH]; intros a s Hl Ha Hs H1 H2; [done|].
  inversion Hl as [|? ? Hb Hl']; subst. cbn [sums foldl fst snd] in *.
  destruct (sums_bounds l (a + b) (s + (a + b)) (a + b) (s + (a + b)) Hl') as [Hb1 Hb2]; [lia|lia|].
  assert (a + b <= (sums (a + b, s + (a + b)) l).1 ∧ s + (a + b) <= (sums (a + b, s + (a + b)) l).2) as [Hm1 Hm2].
  { clear -Hl' Ha Hs Hb. assert (Hx : 0 <= a + b) by lia. assert (Hy : 0 <= s + (a + b)) by lia. revert Hx Hy.
    generalize (a + b) as x, (s + (a + b)) as y. induction Hl' as [|b' l Hb' Hl' IH]; intros x y Hx Hy; [simpl; lia|].
    cbn [sums foldl fst snd]. destruct (IH (x + b') (y + (x + b'))); [lia|lia|]. unfold sums in *. lia. }
  unfold sums in *. unfold DO1 at 2. cbn [fst snd]. unfold u32. rewrite (wrap_small 32 (a + b)) by lia.
  rewrite wrap_small by lia. apply IH; (done || lia).
Qed.

(** ** Reduction without division *)

Lemma sub_base_step a k :
  0 <= k <= 16 -> 0 <= a < BASE * 2 ^ (k + 1) -> a < 2 ^ 32 ->
  0 <= sub_base a k < BASE * 2 ^ k ∧ sub_base a k <= a ∧ sub_base a k mod BASE = a mod BASE.
Proof.
  intros Hk Ha H32. unfold sub_base. rewrite Z.shiftl_mul_pow2 by lia. rewrite Z.pow_add_r in Ha by lia.
  case_bool; [|lia]. unfold u32. rewrite wrap_small by (unfold BASE in *; lia).
  split; [lia|]. split; [unfold BASE; lia|].
  replace (a - BASE * 2 ^ k) with (a + (- 2 ^ k) * BASE) by lia. by apply Z.mod_add.
Qed.

(** Shifts from [n - 1] down to 0. *)
Fixpoint down (n : nat) : list Z := match n with O => [] | S n => Z.of_nat n :: down n end.

Lemma sub_base_all n : ∀ a,
  (n <= 17)%nat -> 0 <= a < BASE * 2 ^ Z.of_nat n -> a < 2 ^ 32 -> foldl sub_base a (down n) = a mod BASE.
Proof.
  induction n as [|n IH]; intros a Hn Ha H32; [simpl; rewrite Z.mod_small; simpl in Ha; lia|].
  cbn [down foldl]. rewrite Nat2Z.inj_succ in Ha.
  destruct (sub_base_step a (Z.of_nat n)) as (H1 & H2 & <-); [lia|by rewrite <- Z.add_1_r in Ha|done|].
  apply IH; lia.
Qed.

Lemma MOD_mod a : 0 <= a < 2 ^ 32 -> MOD a = a mod BASE.
Proof. intros Ha. apply (sub_base_all 17); [lia| |lia]. unfold BASE. simpl Z.of_nat. lia. Qed.

Lemma MOD4_mod a : 0 <= a < BASE * 32 -> MOD4 a = a mod BASE.
Proof. intros Ha. unfold BASE in Ha. apply (sub_base_all 5); [lia|unfold BASE; simpl Z.of_nat; lia|lia]. Qed.

(** ** The loops *)

Lemma do_bytes_foldl n : ∀ buf st,
  (n <= length buf)%nat -> do_bytes n buf st = Ret (foldl DO1 st (take n buf)).
Proof.
  induction n as [|n IH]; intros buf st Hl; [done|]. destruct buf as [|b buf]; [simpl in Hl; lia|].
  simpl in *. apply IH. lia.
Qed.

Lemma do_blocks_foldl n : ∀ buf st,
  (16 * n <= length buf)%nat -> do_blocks n buf st = Ret (drop (16 * n) buf, foldl DO1 st (take (16 * n) buf)).
Proof.
  induction n as [|n IH]; intros buf st Hl; [by rewrite Nat.mul_0_r|]. cbn [do_blocks]. unfold DO16.
  rewrite (proj2 (Nat.leb_le _ _)) by lia. cbn [mbind outcome_bind]. rewrite IH by (rewrite length_drop; lia).
  rewrite drop_drop. replace (16 * S n)%nat with (16 + 16 * n)%nat by lia. rewrite <- take_take_drop, foldl_app. done.
Qed.

Lemma rest16_loop_foldl fuel : ∀ len buf st,
  0 <= len <= Z.of_nat (length buf) -> (Z.to_nat len < fuel)%nat ->
  ∃ k, rest16_loop fuel len buf st = Ret (len - Z.of_nat k, drop k buf, foldl DO1 st (take k buf)) ∧
    Z.of_nat k <= len.
Proof.
  induction fuel as [|fuel IH]; intros len buf st Hl Hf; [lia|]. cbn [rest16_loop]. case_bool.
  - unfold DO16. rewrite (proj2 (Nat.leb_le _ _)) by lia. cbn [mbind outcome_bind].
    destruct (IH (len - 16) (drop 16 buf) (foldl DO1 st (take 16 buf))) as (k & -> & Hk);
      [rewrite length_drop; lia|lia|].
    exists (16 + k)%nat. rewrite drop_drop, <- take_take_drop, foldl_app. split; [|lia]. do 3 f_equal. lia.
  - exists 0%nat. rewrite Z.sub_0_r. split; [done|lia].
Qed.

(** A state as it is between blocks. *)
Definition reduced (st : Z * Z) : Prop := 0 <= st.1 < BASE ∧ 0 <= st.2 < BASE.

Lemma mods_reduced st : reduced (mods st).
Proof. split; apply Z.mod_pos_bound; reflexivity. Qed.

(** NMAX bytes do not overflow. *)
Lemma block_exact st l :
  reduced st -> is_bytes l -> Z.of_nat (length l) <= NMAX ->
  foldl DO1 st l = sums st l ∧ (MOD (sums st l).1, MOD (sums st l).2) = mods (sums st l).
Proof.
  intros [Ha Hs] Hl Hn. destruct st as [a s]. simpl in *. unfold BASE, NMAX in *.
  destruct (sums_bounds l a s 65520 65520 Hl) as [H1 H2]; [lia|lia|].
  set (k := Z.of_nat (length l)) in *. assert (0 <= k) by lia.
  assert (k * (k + 1) / 2 <= 5552 * 5553 / 2) by (apply Z.div_le_mono; nia).
  change (5552 * 5553 / 2) with 15415128 in *.
  assert ((sums (a, s) l).1 < 2 ^ 32) by lia. assert ((sums (a, s) l).2 < 2 ^ 32) by lia.
  split; [apply DO1_exact; (done || lia)|]. unfold mods. by rewrite !MOD_mod by lia.
Qed.

Lemma is_bytes_take n l : is_bytes l -> is_bytes (take n l).
Proof. apply Forall_take. Qed.

Lemma is_bytes_drop n l : is_bytes l -> is_bytes (drop n l).
Proof. apply Forall_drop. Qed.

Lemma nmax_loop_ok fuel : ∀ len buf st,
  is_bytes buf -> reduced st -> 0 <= len <= Z.of_nat (length buf) -> (Z.to_nat len < fuel)%nat ->
  ∃ k st', nmax_loop fuel len buf st = Ret (len - Z.of_nat k, drop k buf, st') ∧ Z.of_nat k <= len ∧
    len - Z.of_nat k < NMAX ∧ reduced st' ∧ st' = mods (sums st (take k buf)).
Proof.
  induction fuel as [|fuel IH]; intros len buf st Hb Hst Hl Hf; [lia|]. cbn [nmax_loop].
  assert (Hid : mods st = st).
  { destruct st, Hst. unfold mods. simpl in *. by rewrite !Z.mod_small. }
  case_bool.
  - rewrite do_blocks_foldl by (unfold NMAX in *; simpl; lia). cbn [mbind outcome_bind fst snd].
    replace (16 * Z.to_nat (NMAX / 16))%nat with (Z.to_nat NMAX) by reflexivity.
    destruct (block_exact st (take (Z.to_nat NMAX) buf)) as [He Hm];
      [done|by apply is_bytes_take|rewrite length_take; unfold NMAX; lia|].
    rewrite He, Hm. unfold NMAX in *.
    destruct (IH (len - 5552) (drop (Z.to_nat 5552) buf) (mods (sums st (take (Z.to_nat 5552) buf))))
      as (k & st' & -> & Hk & Hlt & Hr & Hst'); [by apply is_bytes_drop|apply mods_reduced|rewrite length_drop; lia|lia|].
    exists (Z.to_nat 5552 + k)%nat, st'. rewrite drop_drop. split; [do 3 f_equal; lia|]. split; [lia|]. split; [lia|].
    split; [done|]. rewrite Hst', sums_mods, <- take_take_drop. unfold sums. by rewrite foldl_app.
  - exists 0%nat, st. rewrite Z.sub_0_r. split; [done|]. split; [lia|]. split; [done|]. split; [done|]. by rewrite take_0.
Qed.

Lemma recombine_add st : reduced st -> recombine st = st.1 + 65536 * st.2.
Proof.
  intros [Ha Hs]. unfold BASE in *. unfold recombine, u32. rewrite Z.shiftl_mul_pow2 by lia.
  rewrite wrap_small by lia. rewrite Z.lor_comm, lor_shifted_small by lia. lia.
Qed.

Lemma one_sub x : 0 <= x < 2 * BASE -> (if BASE <=? x then u32 (x - BASE) else x) = x mod BASE.
Proof.
  unfold BASE. intros Hx. case_bool; [|by rewrite Z.mod_small by lia]. unfold u32. rewrite wrap_small by lia.
  replace x with (x - 65521 + 1 * 65521) at 2 by lia. rewrite Z.mod_add by lia. by rewrite Z.mod_small by lia.
Qed.

(** The three ways through the function. *)
Lemma adler_one a s b :
  0 <= a < BASE -> 0 <= s < BASE -> 0 <= b < 256 ->
  let adler := if BASE <=? u32 (a + b) then u32 (u32 (a + b) - BASE) else u32 (a + b) in
  (adler, if BASE <=? u32 (s + adler) then u32 (u32 (s + adler) - BASE) else u32 (s + adler)) =
  mods (sums (a, s) [b]).
Proof.
  intros Ha Hs Hb. assert (Eu : u32 (a + b) = a + b) by (apply wrap_small; unfold BASE in *; lia).
  rewrite Eu, one_sub by (unfold BASE in *; lia). cbv zeta.
  pose proof (Z.mod_pos_bound (a + b) BASE ltac:(reflexivity)).
  assert (Ev : u32 (s + (a + b) mod BASE) = s + (a + b) mod BASE) by (apply wrap_small; unfold BASE in *; lia).
  rewrite Ev, one_sub by lia. unfold mods. cbn [sums foldl fst snd]. by rewrite Zplus_mod_idemp_r.
Qed.

Lemma adler_short a s l :
  reduced (a, s) -> is_bytes l -> Z.of_nat (length l) < 16 ->
  let st := foldl DO1 (a, s) l in
  (if BASE <=? st.1 then u32 (st.1 - BASE) else st.1, MOD4 st.2) = mods (sums (a, s) l).
Proof.
  intros Hr Hl Hn. cbv zeta. destruct (block_exact (a, s) l Hr Hl) as [-> _]; [unfold NMAX; lia|].
  destruct Hr as [Ha Hs]. cbn [fst snd] in *. unfold BASE in Ha, Hs.
  destruct (sums_bounds l a s 65520 65520 Hl) as [H1 H2]; [lia|lia|].
  set (k := Z.of_nat (length l)) in *. assert (0 <= k) by lia.
  assert (k * (k + 1) / 2 <= 15 * 16 / 2) by (apply Z.div_le_mono; nia). change (15 * 16 / 2) with 120 in *.
  unfold mods. rewrite one_sub, MOD4_mod by (unfold BASE; lia). done.
Qed.

Lemma adler_long a s buf len :
  reduced (a, s) -> is_bytes buf -> 0 <= len <= Z.of_nat (length buf) ->
  (r1 ← nmax_loop (S (Z.to_nat len)) len buf (a, s);
   if r1.1.1 =? 0 then Ret (recombine r1.2)
   else r2 ← rest16_loop (S (Z.to_nat len)) r1.1.1 r1.1.2 r1.2;
        st ← do_bytes (Z.to_nat r2.1.1) r2.1.2 r2.2; Ret (recombine (MOD st.1, MOD st.2))) =
  Ret (recombine (mods (sums (a, s) (take (Z.to_nat len) buf)))).
Proof.
  intros Hr Hb Hl.
  destruct (nmax_loop_ok (S (Z.to_nat len)) len buf (a, s) Hb Hr Hl ltac:(lia)) as (k & st & -> & Hk & Hlt & Hrst & ->).
  cbn [mbind outcome_bind fst snd]. destruct (Z.eqb_spec (len - Z.of_nat k) 0) as [E|E].
  { by replace (Z.to_nat len) with k by lia. }
  destruct (rest16_loop_foldl (S (Z.to_nat len)) (len - Z.of_nat k) (drop k buf) (mods (sums (a, s) (take k buf))))
    as (k2 & -> & Hk2); [rewrite length_drop; lia|lia|].
  cbn [mbind outcome_bind fst snd]. rewrite do_bytes_foldl by (rewrite !length_drop; lia).
  cbn [mbind outcome_bind]. rewrite <- foldl_app, take_take_drop.
  replace (k2 + Z.to_nat (len - Z.of_nat k - Z.of_nat k2))%nat with (Z.to_nat len - k)%nat by lia.
  destruct (block_exact (mods (sums (a, s) (take k buf))) (take (Z.to_nat len - k) (drop k buf)))
    as [-> ->]; [done|by apply is_bytes_take, is_bytes_drop|rewrite length_take; lia|].
  rewrite sums_mods. unfold sums. rewrite <- foldl_app, take_take_drop. by replace (k + (Z.to_nat len - k))%nat with (Z.to_nat len) by lia.
Qed.

(** C13: [adler32] continues a checksum, given as [a + 65536 * s] with both parts
    below 65521, by the Adler-32 sums over the integers reduced modulo 65521,
    for a buffer of any length: no 32-bit sum overflows within a block of 5552
    bytes, the divisions-free reductions are exact, and nothing outside the
    buffer is read. *)
Theorem adler32_exact a s buf len :
  0 <= a < BASE -> 0 <= s < BASE -> is_bytes buf -> 0 <= len <= Z.of_nat (length buf) ->
  adler32 (a + 65536 * s) (Some buf) len =
  Ret (let r := sums (a, s) (take (Z.to_nat len) buf) in r.1 mod BASE + 65536 * (r.2 mod BASE)).
Proof.
  intros Ha Hs Hb Hl. unfold adler32.
  assert (Z.land (a + 65536 * s) 65535 = a) as ->.
  { change 65535 with (Z.ones 16). rewrite Z.land_ones by lia. unfold BASE in *.
    rewrite Z.mul_comm, Z.mod_add, Z.mod_small; lia. }
  assert (Z.land (Z.shiftr (a + 65536 * s) 16) 65535 = s) as ->.
  { change 65535 with (Z.ones 16). rewrite Z.land_ones, Z.shiftr_div_pow2 by lia. unfold BASE in *.
    rewrite Z.mul_comm, Z.div_add, Z.div_small, Z.mod_small; lia. }
  assert (Hred : reduced (a, s)) by done.
  assert (Hfin : ∀ st, st = mods (sums (a, s) (take (Z.to_nat len) buf)) ->
    Ret (recombine st) = Ret (let r := sums (a, s) (take (Z.to_nat len) buf) in r.1 mod BASE + 65536 * (r.2 mod BASE))).
  { intros st ->. by rewrite recombine_add by apply mods_reduced. }
  destruct (Z.eqb_spec len 1) as [->|Hn1]; [|destruct (Z.ltb_spec len 16) as [H16|H16]].
  - destruct buf as [|b buf]; [simpl in Hl; lia|]. inversion Hb as [|? ? Hb0 Hb']; subst.
    rewrite (arr_get_Some _ 0 b) by done. cbn [mbind outcome_bind]. apply Hfin. by apply adler_one.
  - rewrite do_bytes_foldl by lia. cbn [mbind outcome_bind]. apply Hfin. apply adler_short; [done|by apply is_bytes_take|].
    rewrite length_take. lia.
  - rewrite adler_long by done. by apply Hfin.
Qed.

(** A logarithm is found exactly for a power of two. *)
Lemma log2_loop_ok n : ∀ i x,
  0 <= i ->
  (∃ k, i <= k < i + Z.of_nat n ∧ x = 2 ^ k ∧ log2_loop n i x = k) ∨
  (log2_loop n i x = -1 ∧ ∀ k, i <= k < i + Z.of_nat n -> x ≠ 2 ^ k).
Proof.
  induction n as [|n IH]; intros i x Hi; [right; split; [done|lia]|]. cbn [log2_loop].
  rewrite Z.shiftl_mul_pow2, Z.mul_1_l by lia. case_bool; [left; exists i; split; [lia|done]|].
  destruct (IH (i + 1) x ltac:(lia)) as [(k & Hk & -> & Hl)|[-> Hno]].
  - left. exists k. split; [lia|done].
  - right. split; [done|]. intros k Hk. destruct (decide (k = i)) as [->|]; [congruence|]. apply Hno. lia.
Qed.

Lemma log2_ok x :
  (∃ k, 0 <= k < 32 ∧ x = 2 ^ k ∧ log2 x = k) ∨ (log2 x = -1 ∧ ∀ k, 0 <= k < 32 -> x ≠ 2 ^ k).
Proof. apply (log2_loop_ok 32 0 x). lia. Qed.

(** * Witnesses *)

Lemma mem_functions_exact_witness :
  memmove [1; 2; 3; 4; 5; 6] 2 0 4 = Ret [1; 2; 1; 2; 3; 4] ∧
  memcpy [1; 2; 3; 4; 5; 6] 0 2 4 = Ret [3; 4; 5; 6; 5; 6].
Proof.
  split.
  - destruct (mem_functions_exact [1; 2; 3; 4; 5; 6] 2 0 7 4) as [H _]; try (simpl; lia). exact H.
  - destruct (mem_functions_exact [1; 2; 3; 4; 5; 6] 0 2 7 4) as (_ & H & _); try (simpl; lia).
    rewrite H; [reflexivity|lia].
Defined.

Lemma adler32_exact_witness :
  adler32 1 (Some [87; 105; 107; 105]) 4 = Ret (405 + 65536 * 986).
Proof.
  change (adler32 (1 + 65536 * 0) (Some [87; 105; 107; 105]) 4 = Ret (405 + 65536 * 986)).
  rewrite (adler32_exact 1 0 [87; 105; 107; 105] 4); [reflexivity| | | |];
    unfold BASE; [lia|lia|repeat constructor; lia|simpl; lia].
Defined.
