(* ===== verification/CgSim.v ===== *)
(** Cachegrind: the cache simulation ([cachegrind/cg_sim.c]), the branch
    predictors ([cachegrind/cg_branchpred.c]) and the configuration of the
    caches ([cachegrind/cg_arch.c]), for amd64.

    The tag array of a cache is one list, as in the code; the theorems view a
    set as the list of its most recently used blocks. *)

From S2P Require Import Prelude LibcStr LibcMem.
Local Open Scope Z_scope.

(** * Configuration *)

Record cache_t := Cache { size : Z; assoc : Z; line_size : Z }.

Definition MIN_LINE_SIZE : Z := 16.

Inductive cache_error :=
  | LineSizeZero | AssocZero | SetsNotPow2 | LineSizeNotPow2 | LineSizeTooSmall | SizeTooSmall | AssocTooBig.

(** [a / b] and [a % b] on [Int]. *)
Definition idiv (a b : Z) : outcome Z :=
  if b =? 0 then Fault Panic else int_ (Z.quot a b).
Definition imod (a b : Z) : outcome Z :=
  if b =? 0 then Fault Panic else _ ← int_ (Z.quot a b); Ret (Z.rem a b).

(** [None] is the NULL that means the configuration is good. *)
Definition check_cache (c : cache_t) : outcome (option cache_error) :=
  if line_size c =? 0 then Ret (Some LineSizeZero)
  else if assoc c =? 0 then Ret (Some AssocZero)
  else
    way ← int_ (line_size c * assoc c);
    r ← imod (size c) way;
    bad ← (if negb (r =? 0) then Ret true
           else lines ← idiv (size c) (line_size c); sets ← idiv lines (assoc c);
                Ret (-1 =? log2 (u32 sets)));
    if bad : bool then Ret (Some SetsNotPow2)
    else if -1 =? log2 (u32 (line_size c)) then Ret (Some LineSizeNotPow2)
    else if line_size c <? MIN_LINE_SIZE then Ret (Some LineSizeTooSmall)
    else if size c <=? line_size c then Ret (Some SizeTooSmall)
    else
      lines ← idiv (size c) (line_size c);
      if lines <? assoc c then Ret (Some AssocTooBig) else Ret None.

Inductive cache_opt := Accepted (c : cache_t) | BadArgument | Overflowed.

(** [parse_cache_opt] on an argument like "65536,2,64"; the last two cases are
    the calls of [fmsg_bad_option], which do not return. *)
Definition parse_cache_opt (optval : list Z) : outcome cache_opt :=
  i1 ← strtoll10 optval; c1 ← deref i1.2;
  if negb (c1 =? 44) then Ret BadArgument
  else
    i2 ← strtoll10 (tail i1.2); c2 ← deref i2.2;
    if negb (c2 =? 44) then Ret BadArgument
    else
      i3 ← strtoll10 (tail i2.2); c3 ← deref i3.2;
      if negb (c3 =? 0) then Ret BadArgument
      else
        let c := Cache (s32 i1.1) (s32 i2.1) (s32 i3.1) in
        if negb (size c =? i1.1) then Ret Overflowed
        else if negb (assoc c =? i2.1) then Ret Overflowed
        else if negb (line_size c =? i3.1) then Ret Overflowed
        else
          checkRes ← check_cache c;
          match checkRes with Some _ => Ret BadArgument | None => Ret (Accepted c) end.

(** The largest power of two that is at most [x]. *)
Definition floor_power_of_2 (x : Z) : Z :=
  let x := Z.lor x (Z.shiftr x 1) in
  let x := Z.lor x (Z.shiftr x 2) in
  let x := Z.lor x (Z.shiftr x 4) in
  let x := Z.lor x (Z.shiftr x 8) in
  let x := Z.lor x (Z.shiftr x 16) in
  u32 (x - Z.shiftr x 1).

(** [(UInt)(0.5 + factor * (Double)old_assoc)] where [factor] is the quotient of
    the set counts. The divisor is a power of two, and where the product
    [old_assoc * old_line_size] did not wrap around the numerator is below 2^31,
    so that the double arithmetic is exact. *)
Definition scale_assoc (old_nSets new_nSets old_assoc : Z) : outcome Z :=
  let n := (2 * old_nSets * old_assoc + new_nSets) / (2 * new_nSets) in
  if n <=? UINT_MAX then Ret n else Fault IntOverflow.

Definition maybe_tweak_LLc (LLc : cache_t) : outcome cache_t :=
  if (size LLc =? 0) || (assoc LLc =? 0) || (line_size LLc =? 0) then Ret LLc
  else
    _ ← vg_assert ((0 <? size LLc) && (0 <? assoc LLc) && (0 <? line_size LLc));
    let old_size := u32 (size LLc) in
    let old_assoc := u32 (assoc LLc) in
    let old_line_size := u32 (line_size LLc) in
    let way := u32 (old_assoc * old_line_size) in
    if way =? 0 then Fault Panic
    else
      let old_nSets := old_size / way in
      if old_nSets =? 0 then Ret LLc
      else
        r ← (if negb (-1 =? log2_64 old_nSets) then
               Ret (u32 (u32 (old_line_size * old_assoc) * old_nSets), old_assoc)
             else
               let new_nSets := floor_power_of_2 old_nSets in
               _ ← vg_assert ((0 <? new_nSets) && (new_nSets <? old_nSets));
               new_assoc ← scale_assoc old_nSets new_nSets old_assoc;
               _ ← vg_assert (old_assoc <=? new_assoc);
               Ret (u32 (u32 (old_line_size * new_assoc) * new_nSets), new_assoc));
        if (r.1 =? old_size) && (r.2 =? old_assoc) then Ret LLc
        else Ret (Cache (s32 r.1) (s32 r.2) (s32 old_line_size)).

(** ** Detection *)

Inductive cache_kind := DATA_CACHE | INSN_CACHE | UNIFIED_CACHE.

#[global] Instance cache_kind_eq_dec : EqDecision cache_kind.
Proof. solve_decision. Defined.

(** What VEX reports about the host. *)
Record VexCache := VC { kind : cache_kind; level : Z; sizeB : Z; line_sizeB : Z; ways : Z; is_trace_cache : bool }.
Record VexCacheInfo := VCI { num_levels : Z; caches : list VexCache }.

Fixpoint locate_cache (ci : list VexCache) (k : cache_kind) (lvl : Z) : option VexCache :=
  match ci with
  | [] => None
  | c :: ci' => if (level c =? lvl) && bool_decide (kind c = k) then Some c else locate_cache ci' k lvl
  end.

Definition cache_of (c : VexCache) : cache_t := Cache (s32 (sizeB c)) (s32 (ways c)) (s32 (line_sizeB c)).

(** For a host that does not report its caches. *)
Definition default_caches : cache_t * cache_t * cache_t :=
  (Cache 65536 2 64, Cache 65536 2 64, Cache 262144 8 64).

(** I1, D1 and LL. *)
Definition configure_caches (ci : VexCacheInfo) : cache_t * cache_t * cache_t :=
  match locate_cache (caches ci) INSN_CACHE 1, locate_cache (caches ci) DATA_CACHE 1,
        locate_cache (caches ci) UNIFIED_CACHE (num_levels ci) with
  | Some i1, Some d1, Some ll =>
      let I1 :=
        if is_trace_cache i1 then
          Cache (if (sizeB i1 =? 12 * 1024) || (sizeB i1 =? 16 * 1024) then 16 * 1024 else 32 * 1024)
            (s32 (ways i1)) 32
        else cache_of i1 in
      (I1, cache_of d1, cache_of ll)
  | _, _, _ => default_caches
  end.

Definition DEFINED (c : cache_t) : bool :=
  negb (-1 =? size c) || negb (-1 =? assoc c) || negb (-1 =? line_size c).

Definition check_cache_or_override (c : cache_t) (clo_redefined : bool) : outcome unit :=
  checkRes ← check_cache c;
  match checkRes with
  | Some _ => if negb clo_redefined then Fault AssertFail else Ret tt
  | None => Ret tt
  end.

Definition post_clo_init_configure_caches (ci : VexCacheInfo) (clo_I1c clo_D1c clo_LLc : cache_t)
  : outcome (cache_t * cache_t * cache_t) :=
  let conf := configure_caches ci in
  LLc ← maybe_tweak_LLc conf.2;
  _ ← check_cache_or_override conf.1.1 (DEFINED clo_I1c);
  _ ← check_cache_or_override conf.1.2 (DEFINED clo_D1c);
  _ ← check_cache_or_override LLc (DEFINED clo_LLc);
  Ret (if DEFINED clo_I1c then clo_I1c else conf.1.1,
       if DEFINED clo_D1c then clo_D1c else conf.1.2,
       if DEFINED clo_LLc then clo_LLc else LLc).

(** * The simulated caches *)

Record cache_t2 := Cache2 {
  c_size : Z; c_assoc : Z; c_line_size : Z; c_sets : Z; c_sets_min_1 : Z;
  c_line_size_bits : Z; c_tag_shift : Z; c_tags : list Z }.

Definition cachesim_initcache (config : cache_t) : outcome cache_t2 :=
  lines ← idiv (size config) (line_size config);
  sets ← idiv lines (assoc config);
  n ← int_ (sets * assoc config);
  Ret (Cache2 (size config) (assoc config) (line_size config) sets (sets - 1)
         (log2 (u32 (line_size config))) (log2 (u32 (line_size config)) + log2 (u32 sets))
         (replicate (Z.to_nat n) 0)).

Definition set_tags (c : cache_t2) (tags : list Z) : cache_t2 :=
  Cache2 (c_size c) (c_assoc c) (c_line_size c) (c_sets c) (c_sets_min_1 c) (c_line_size_bits c)
    (c_tag_shift c) tags.

(** [for (j = i; j > 0; j--) set[j] = set[j - 1];], where [set] starts at
    [base]. *)
Definition shuffle_down (tags : list Z) (base i : Z) : outcome (list Z) :=
  for_down (i + 1) 1 (fun j tags => x ← arr_get tags (base + j - 1); arr_set tags (base + j) x) tags.

(** The search from [i] on: [Some i] for a hit. *)
Fixpoint find_tag (n : nat) (tags : list Z) (base i tag : Z) : outcome (option Z) :=
  match n with
  | O => Ret None
  | S n =>
      x ← arr_get tags (base + i);
      if tag =? x then Ret (Some i) else find_tag n tags base (i + 1) tag
  end.

Definition cachesim_setref_is_miss (c : cache_t2) (set_no tag : Z) : outcome (cache_t2 * bool) :=
  let base := u32 (set_no * u32 (c_assoc c)) in
  x ← arr_get (c_tags c) base;
  if tag =? x then Ret (c, false)
  else
    hit ← find_tag (Z.to_nat (c_assoc c - 1)) (c_tags c) base 1 tag;
    match hit with
    | Some i =>
        tags ← shuffle_down (c_tags c) base i; tags' ← arr_set tags base tag;
        Ret (set_tags c tags', false)
    | None =>
        tags ← shuffle_down (c_tags c) base (c_assoc c - 1); tags' ← arr_set tags base tag;
        Ret (set_tags c tags', true)
    end.

(** [block & sets_min_1] as a [UInt] set number. *)
Definition set_of (c : cache_t2) (block : Z) : Z := u32 (Z.land block (u64 (c_sets_min_1 c))).

Definition block_of (c : cache_t2) (a : Z) : Z := Z.shiftr a (c_line_size_bits c).

Definition cachesim_ref_is_miss (c : cache_t2) (a sz : Z) : outcome (cache_t2 * bool) :=
  let block1 := block_of c a in
  let block2 := block_of c (u64 (a + sz - 1)) in
  let set1 := set_of c block1 in
  if block1 =? block2 then cachesim_setref_is_miss c set1 block1
  else if u64 (block1 + 1) =? block2 then
    let set2 := set_of c block2 in
    r1 ← cachesim_setref_is_miss c set1 block1;
    if r1.2 : bool then r2 ← cachesim_setref_is_miss r1.1 set2 block2; Ret (r2.1, true)
    else cachesim_setref_is_miss r1.1 set2 block2
  else Fault Panic.

Record caches3 := Caches { I1 : cache_t2; D1 : cache_t2; LL : cache_t2 }.

Definition cachesim_initcaches (I1c D1c LLc : cache_t) : outcome caches3 :=
  i ← cachesim_initcache I1c; d ← cachesim_initcache D1c; l ← cachesim_initcache LLc;
  Ret (Caches i d l).

(** The caches and the counters [*m1] and [*mL] afterwards. *)
Definition cachesim_I1_doref_Gen (s : caches3) (a sz m1 mL : Z) : outcome (caches3 * Z * Z) :=
  r ← cachesim_ref_is_miss (I1 s) a sz;
  if r.2 : bool then
    r2 ← cachesim_ref_is_miss (LL s) a sz;
    Ret (Caches r.1 (D1 s) r2.1, u64 (m1 + 1), if r2.2 : bool then u64 (mL + 1) else mL)
  else Ret (Caches r.1 (D1 s) (LL s), m1, mL).

Definition cachesim_I1_doref_NoX (s : caches3) (a m1 mL : Z) : outcome (caches3 * Z * Z) :=
  let block := block_of (I1 s) a in
  r ← cachesim_setref_is_miss (I1 s) (set_of (I1 s) block) block;
  if r.2 : bool then
    r2 ← cachesim_setref_is_miss (LL s) (set_of (LL s) block) block;
    Ret (Caches r.1 (D1 s) r2.1, u64 (m1 + 1), if r2.2 : bool then u64 (mL + 1) else mL)
  else Ret (Caches r.1 (D1 s) (LL s), m1, mL).

Definition cachesim_D1_doref (s : caches3) (a sz m1 mL : Z) : outcome (caches3 * Z * Z) :=
  r ← cachesim_ref_is_miss (D1 s) a sz;
  if r.2 : bool then
    r2 ← cachesim_ref_is_miss (LL s) a sz;
    Ret (Caches (I1 s) r.1 r2.1, u64 (m1 + 1), if r2.2 : bool then u64 (mL + 1) else mL)
  else Ret (Caches (I1 s) r.1 (LL s), m1, mL).

Definition cachesim_is_IrNoX (s : caches3) (a sz : Z) : bool :=
  if negb (c_line_size_bits (I1 s) =? c_line_size_bits (LL s)) then false
  else block_of (I1 s) a =? block_of (I1 s) (u64 (a + sz - 1)).

(** * Branch prediction *)

Definition N_IADDR_LO_ZERO_BITS : Z := 0.
Definition N_HIST_BITS : Z := 7.
Definition N_IADD_BITS : Z := 7.
Definition N_COUNTERS : Z := Z.shiftl 1 (N_HIST_BITS + N_IADD_BITS).
Definition N_BTAC_BITS : Z := 9.
Definition N_BTAC : Z := Z.shiftl 1 N_BTAC_BITS.

Record predictor := Predictor { shift_register : Z; counters : list Z; btac : list Z }.

Definition predictor_init : predictor :=
  Predictor 0 (replicate (Z.to_nat N_COUNTERS) 0) (replicate (Z.to_nat N_BTAC) 0).

Definition do_cond_branch_predict (p : predictor) (instr_addr takenW : Z) : outcome (predictor * Z) :=
  let hist_mask := Z.shiftl 1 N_HIST_BITS - 1 in
  let iadd_mask := Z.shiftl 1 N_IADD_BITS - 1 in
  let hist_bits := Z.land (shift_register p) hist_mask in
  let iadd_bits := Z.land (Z.shiftr instr_addr N_IADDR_LO_ZERO_BITS) iadd_mask in
  _ ← vg_assert (hist_bits <=? hist_mask);
  _ ← vg_assert (iadd_bits <=? iadd_mask);
  let indx := Z.lor (Z.shiftl hist_bits N_IADD_BITS) iadd_bits in
  _ ← vg_assert (indx <? N_COUNTERS);
  _ ← vg_assert (takenW <=? 1);
  cnt ← arr_get (counters p) indx;
  let predicted_taken := 2 <=? cnt in
  let actually_taken := 0 <? takenW in
  let mispredict := (actually_taken && negb predicted_taken) || (negb actually_taken && predicted_taken) in
  let sr := Z.lor (u64 (Z.shiftl (shift_register p) 1)) (if actually_taken then 1 else 0) in
  let cnt' := if actually_taken then if cnt <? 3 then u8 (cnt + 1) else cnt
              else if 0 <? cnt then u8 (cnt - 1) else cnt in
  counters' ← arr_set (counters p) indx cnt';
  _ ← vg_assert (cnt' <=? 3);
  Ret (Predictor sr counters' (btac p), if mispredict then 1 else 0).

Definition do_ind_branch_predict (p : predictor) (instr_addr actual : Z) : outcome (predictor * Z) :=
  let mask := Z.shiftl 1 N_BTAC_BITS - 1 in
  let indx := Z.land (Z.shiftr instr_addr N_IADDR_LO_ZERO_BITS) mask in
  _ ← vg_assert (indx <? N_BTAC);
  prev ← arr_get (btac p) indx;
  btac' ← arr_set (btac p) indx actual;
  Ret (Predictor (shift_register p) (counters p) btac', if negb (prev =? actual) then 1 else 0).

(** * Sets as recency lists *)

Fixpoint remove_first (tag : Z) (s : list Z) : list Z :=
  match s with [] => [] | x :: s' => if decide (x = tag) then s' else x :: remove_first tag s' end.

(** A reference moves its block to the front, or puts it there in place of the
    least recently used one. *)
Definition lru_ref (s : list Z) (tag : Z) : list Z :=
  if decide (tag ∈ s) then tag :: remove_first tag s else tag :: removelast s.

Definition is_miss (s : list Z) (tag : Z) : bool := bool_decide (tag ∉ s).

Lemma remove_first_app tag l b : tag ∉ l -> remove_first tag (l ++ tag :: b) = l ++ b.
Proof.
  induction l as [|x l IH]; simpl; intros Hl; [by rewrite decide_True|].
  apply not_elem_of_cons in Hl as [Hx Hl]. rewrite decide_False by done. by rewrite IH.
Qed.

Lemma first_split tag (s : list Z) : tag ∈ s -> ∃ l b, s = l ++ tag :: b ∧ tag ∉ l.
Proof.
  induction s as [|x s IH]; intros Hin; [by apply not_elem_of_nil in Hin|].
  destruct (decide (x = tag)) as [->|Hne]; [exists [], s; split; [done|apply not_elem_of_nil]|].
  apply elem_of_cons in Hin as [->|Hin]; [done|]. destruct (IH Hin) as (l & b & -> & Hl).
  exists (x :: l), b. split; [done|]. apply not_elem_of_cons. by split.
Qed.

Lemma lru_ref_length s tag : s ≠ [] -> length (lru_ref s tag) = length s.
Proof.
  intros Hs. unfold lru_ref. case_decide as Hin.
  - destruct (first_split tag s Hin) as (l & b & -> & Hl). rewrite remove_first_app by done.
    simpl. rewrite !length_app. simpl. lia.
  - destruct s as [|z l _] using rev_ind; [done|]. rewrite removelast_last, length_app. simpl. lia.
Qed.

(** ** Positions in the tag array *)

Lemma get_mid (pre l post : list Z) x i :
  i = Z.of_nat (length pre) + Z.of_nat (length l) -> arr_get (pre ++ (l ++ x :: post)) i = Ret x.
Proof.
  intros ->. apply arr_get_Some; [lia|].
  rewrite app_assoc, lookup_app_r by (rewrite length_app; lia).
  replace (Z.to_nat _ - _)%nat with 0%nat by (rewrite length_app; lia). done.
Qed.

Lemma set_mid (pre l post : list Z) x y i :
  i = Z.of_nat (length pre) + Z.of_nat (length l) ->
  arr_set (pre ++ (l ++ x :: post)) i y = Ret (pre ++ (l ++ y :: post)).
Proof.
  intros ->. rewrite arr_set_in_range by (rewrite !length_app; simpl; lia). f_equal.
  rewrite !app_assoc. replace (Z.to_nat _) with (length (pre ++ l)) by (rewrite length_app; lia).
  rewrite insert_app_r_alt, Nat.sub_diag by done. done.
Qed.

Lemma shuffle_down_ok pre post l : ∀ z b i base,
  base = Z.of_nat (length pre) -> i = Z.of_nat (length l) ->
  shuffle_down (pre ++ (l ++ z :: b) ++ post) base i = Ret (pre ++ (hd z l :: l ++ b) ++ post).
Proof.
  unfold shuffle_down. induction l as [|y l IH] using rev_ind; intros z b i base Hb Hi.
  - simpl in Hi. subst i. by rewrite for_down_empty by lia.
  - rewrite length_app in Hi. simpl in Hi. rewrite for_down_step by lia. rewrite !Z.add_simpl_r.
    rewrite <- (app_assoc (l ++ [y])). cbn [app]. rewrite <- (app_assoc l [y]). cbn [app].
    rewrite (get_mid pre l (z :: b ++ post) y) by lia. cbn [mbind outcome_bind].
    rewrite (cons_middle y l), (app_assoc l [y]).
    rewrite (set_mid pre (l ++ [y]) (b ++ post) z y) by (rewrite length_app; simpl; lia). cbn [mbind outcome_bind].
    rewrite <- (app_assoc l [y]). cbn [app].
    specialize (IH y (y :: b) (i - 1) base Hb ltac:(lia)). rewrite <- app_assoc in IH. cbn [app] in IH.
    replace i with (i - 1 + 1) at 1 by lia. rewrite IH. f_equal. f_equal. destruct l; simpl; by rewrite <- ?app_assoc.
Qed.

Lemma find_tag_ok pre post s : ∀ l i base tag,
  base = Z.of_nat (length pre) -> i = Z.of_nat (length l) ->
  ∃ r, find_tag (length s) (pre ++ (l ++ s) ++ post) base i tag = Ret r ∧
    match r with
    | Some j => ∃ l' b, s = l' ++ tag :: b ∧ tag ∉ l' ∧ j = i + Z.of_nat (length l')
    | None => tag ∉ s
    end.
Proof.
  induction s as [|x s IH]; intros l i base tag Hb Hi; cbn [find_tag length].
  { exists None. split; [done|apply not_elem_of_nil]. }
  rewrite <- (app_assoc l). cbn [app]. rewrite get_mid by lia. cbn [mbind outcome_bind].
  destruct (Z.eqb_spec tag x) as [->|Hne].
  { exists (Some i). split; [done|]. exists [], s. split; [done|]. split; [apply not_elem_of_nil|simpl; lia]. }
  destruct (IH (l ++ [x]) (i + 1) base tag Hb) as (r & Hf & Hr); [rewrite length_app; simpl; lia|].
  rewrite <- !app_assoc in Hf. cbn [app] in Hf. exists r. split; [done|]. destruct r as [j|].
  - destruct Hr as (l' & b & -> & Hl' & ->). exists (x :: l'), b. split; [done|].
    split; [apply not_elem_of_cons; by split|simpl; lia].
  - apply not_elem_of_cons. by split.
Qed.

(** * The state of a cache *)

Definition cache_ok (c : cache_t2) : Prop :=
  1 <= c_assoc c ∧ (∃ k, 0 <= k ∧ c_sets c = 2 ^ k) ∧ c_sets_min_1 c = c_sets c - 1 ∧
  Z.of_nat (length (c_tags c)) = c_sets c * c_assoc c ∧ c_sets c * c_assoc c <= INT_MAX ∧
  0 <= c_line_size_bits c < 32.

(** The recency list of a set. *)
Definition set_view (c : cache_t2) (n : Z) : list Z :=
  take (Z.to_nat (c_assoc c)) (drop (Z.to_nat (n * c_assoc c)) (c_tags c)).

(** The tag array around one set. *)
Lemma tags_split c n :
  cache_ok c -> 0 <= n < c_sets c ->
  ∃ pre post, c_tags c = pre ++ set_view c n ++ post ∧
    length pre = Z.to_nat (n * c_assoc c) ∧ length (set_view c n) = Z.to_nat (c_assoc c).
Proof.
  intros (Ha & (k & Hk & Hs) & _ & Hl & _ & _) Hn. unfold set_view.
  assert (n * c_assoc c + c_assoc c <= c_sets c * c_assoc c) by nia. assert (0 <= n * c_assoc c) by nia.
  exists (take (Z.to_nat (n * c_assoc c)) (c_tags c)),
    (drop (Z.to_nat (c_assoc c)) (drop (Z.to_nat (n * c_assoc c)) (c_tags c))).
  rewrite take_drop, take_drop. split; [done|]. rewrite !length_take, length_drop. lia.
Qed.

(** Replacing one set leaves the others. *)
Lemma set_view_replace c n m pre s s' post :
  cache_ok c -> c_tags c = pre ++ s ++ post -> length pre = Z.to_nat (n * c_assoc c) ->
  length s = Z.to_nat (c_assoc c) -> length s' = length s -> 0 <= n < c_sets c -> 0 <= m < c_sets c ->
  set_view (set_tags c (pre ++ s' ++ post)) m = if decide (m = n) then s' else set_view c m.
Proof.
  intros (Ha & _) Ht Hp Hs Hs' Hn Hm. unfold set_view. cbn [set_tags c_assoc c_tags].
  assert (0 <= n * c_assoc c) by nia. assert (0 <= m * c_assoc c) by nia. case_decide as E.
  - subst m. rewrite <- Hp, drop_app_length. rewrite take_app_length' by lia. done.
  - rewrite Ht. apply list_eq. intros j. destruct (decide (j < Z.to_nat (c_assoc c))%nat) as [Hj|Hj];
      [|by rewrite !lookup_take_ge by lia].
    rewrite !lookup_take_lt, !lookup_drop by lia.
    destruct (decide (m < n)).
    + assert (m * c_assoc c + c_assoc c <= n * c_assoc c) by nia. by rewrite !lookup_app_l by lia.
    + assert (n * c_assoc c + c_assoc c <= m * c_assoc c) by nia.
      rewrite !lookup_app_r by lia. by rewrite Hs'.
Qed.

Lemma set_tags_ok c tags : cache_ok c -> length tags = length (c_tags c) -> cache_ok (set_tags c tags).
Proof. intros (? & ? & ? & Hl & ? & ?) Ht. unfold cache_ok, set_tags; cbn. rewrite Ht. done. Qed.

(** What a reference to a set does. *)
Definition set_ref (c : cache_t2) (n tag : Z) (c' : cache_t2) : Prop :=
  cache_ok c' ∧ c_assoc c' = c_assoc c ∧ c_sets c' = c_sets c ∧ c_line_size_bits c' = c_line_size_bits c ∧
  ∀ m, 0 <= m < c_sets c -> set_view c' m = if decide (m = n) then lru_ref (set_view c n) tag else set_view c m.

Lemma setref_ok c n tag :
  cache_ok c -> 0 <= n < c_sets c ->
  ∃ c', cachesim_setref_is_miss c n tag = Ret (c', is_miss (set_view c n) tag) ∧ set_ref c n tag c'.
Proof.
  intros Hc Hn. destruct (tags_split c n Hc Hn) as (pre & post & Ht & Hp & Hs).
  pose proof Hc as (Ha & (k & Hk & Hsets) & _ & Hl & Hmax & _). unfold INT_MAX in Hmax.
  assert (Hupd : ∀ s', length s' = length (set_view c n) -> s' = lru_ref (set_view c n) tag ->
    set_ref c n tag (set_tags c (pre ++ s' ++ post))).
  { intros s' Hl' ->. split.
    - apply set_tags_ok; [done|]. rewrite Ht, !length_app. lia.
    - split; [done|]. split; [done|]. split; [done|]. intros m Hm.
      by apply (set_view_replace c n m pre (set_view c n)). }
  set (s := set_view c n) in *. clearbody s. unfold cachesim_setref_is_miss. rewrite Ht.
  assert (u32 (n * u32 (c_assoc c)) = Z.of_nat (length pre)) as ->.
  { unfold u32. assert (n * c_assoc c < c_sets c * c_assoc c) by nia. assert (c_assoc c <= c_sets c * c_assoc c) by nia.
    rewrite (wrap_small 32 (c_assoc c)), wrap_small, Hp by nia. rewrite Z2Nat.id by nia. done. }
  destruct s as [|x s0]; [simpl in Hs; lia|]. simpl in Hs.
  rewrite (get_mid pre [] (s0 ++ post) x) by (simpl; lia). cbn [mbind outcome_bind].
  destruct (Z.eqb_spec tag x) as [->|Hne].
  { exists c. unfold is_miss. rewrite bool_decide_eq_false_2 by (intros []%not_elem_of_cons; done).
    split; [done|]. assert (Hid : set_tags c (pre ++ (x :: s0) ++ post) = c) by (rewrite <- Ht; by destruct c).
    pose proof (Hupd (x :: s0) eq_refl) as Hx. rewrite Hid in Hx. apply Hx.
    unfold lru_ref. rewrite decide_True by set_solver. simpl. by rewrite decide_True. }
  replace (Z.to_nat (c_assoc c - 1)) with (length s0) by lia.
  destruct (find_tag_ok pre post s0 [x] 1 (Z.of_nat (length pre)) tag) as (r & Hf & Hr); [done|done|].
  cbn [app] in Hf |- *. rewrite Hf. cbn [mbind outcome_bind]. destruct r as [j|].
  - destruct Hr as (l & b & -> & Hnl & ->).
    pose proof (shuffle_down_ok pre post (x :: l) tag b (1 + Z.of_nat (length l)) _ eq_refl ltac:(simpl; lia)) as Hsh.
    cbn [app hd] in Hsh. rewrite Hsh. cbn [mbind outcome_bind].
    rewrite (set_mid pre [] ((x :: l ++ b) ++ post) x tag) by (simpl; lia). cbn [mbind outcome_bind app].
    unfold is_miss. rewrite bool_decide_eq_false_2 by set_solver. eexists. split; [done|].
    apply (Hupd (tag :: x :: l ++ b)).
    + simpl. rewrite !length_app. simpl. lia.
    + unfold lru_ref. rewrite decide_True by set_solver. f_equal. symmetry. apply (remove_first_app tag (x :: l)).
      apply not_elem_of_cons. by split.
  - assert (Hnin : tag ∉ x :: s0) by (apply not_elem_of_cons; by split).
    destruct (exists_last (l := x :: s0)) as (l & z & E); [done|].
    assert (Hll : Z.of_nat (length l) = c_assoc c - 1)
      by (apply (f_equal length) in E; rewrite length_app in E; simpl in E; lia).
    pose proof (shuffle_down_ok pre post l z [] (c_assoc c - 1) _ eq_refl ltac:(lia)) as Hsh.
    rewrite <- E, app_nil_r in Hsh. cbn [app] in Hsh. rewrite Hsh. cbn [mbind outcome_bind].
    rewrite (set_mid pre [] (l ++ post) (hd z l) tag) by (simpl; lia). cbn [mbind outcome_bind app].
    unfold is_miss. rewrite bool_decide_eq_true_2 by done. eexists. split; [done|].
    apply (Hupd (tag :: l)).
    + rewrite E, length_app. simpl. lia.
    + unfold lru_ref. rewrite decide_False by done. by rewrite E, removelast_last.
Qed.

(** ** Accesses *)

Lemma set_of_range c block : cache_ok c -> 0 <= block -> 0 <= set_of c block < c_sets c.
Proof.
  intros (Ha & (k & Hk & Hs) & Hm & Hl & Hmax & _) Hb. unfold INT_MAX in Hmax. unfold set_of.
  assert (0 < 2 ^ k) by (by apply Z.pow_pos_nonneg). assert (c_sets c < 2 ^ 31) by nia.
  rewrite Hm. unfold u64. rewrite (wrap_small 64) by lia.
  replace (c_sets c - 1) with (Z.ones k) by (rewrite Z.ones_equiv; lia). rewrite Z.land_ones by lia.
  pose proof (Z.mod_pos_bound block (2 ^ k)). unfold u32. rewrite wrap_small; lia.
Qed.

(** An access of at most a line that does not wrap around. *)
Definition access_ok (bits a sz : Z) : Prop := 0 <= a ∧ 1 <= sz <= 2 ^ bits ∧ a + sz - 1 < 2 ^ 64.

Lemma access_blocks c a sz :
  cache_ok c -> access_ok (c_line_size_bits c) a sz ->
  let b1 := block_of c a in let b2 := block_of c (u64 (a + sz - 1)) in
  0 <= b1 ∧ (b1 = b2 ∨ b1 ≠ b2 ∧ u64 (b1 + 1) = b2 ∧ 0 <= b2).
Proof.
  intros (_ & _ & _ & _ & _ & Hb) (Ha & Hsz & Hw). cbv zeta. unfold u64 at 1 2 4 5. rewrite (wrap_small 64 (a + sz - 1)) by lia.
  unfold block_of. rewrite !Z.shiftr_div_pow2 by lia. set (L := 2 ^ c_line_size_bits c) in *.
  assert (0 < L) by (apply Z.pow_pos_nonneg; lia).
  pose proof (Z.div_mod a L). pose proof (Z.mod_pos_bound a L). pose proof (Z.div_mod (a + sz - 1) L).
  pose proof (Z.mod_pos_bound (a + sz - 1) L). assert (0 <= a / L) by (apply Z.div_pos; lia).
  assert ((a + sz - 1) / L <= a + sz - 1) by (apply Z.div_le_upper_bound; nia).
  split; [done|]. destruct (decide (a / L = (a + sz - 1) / L)) as [|Hne]; [by left|right]. split; [done|].
  assert ((a + sz - 1) / L = a / L + 1) as -> by nia. split; [|lia]. unfold u64. apply wrap_small. nia.
Qed.

(** [big] has at least as many ways as [small]: its sets are prolonged. *)
Definition prolongs (small big : cache_t2) : Prop :=
  cache_ok small ∧ cache_ok big ∧ c_sets small = c_sets big ∧
  c_line_size_bits small = c_line_size_bits big ∧ c_assoc small <= c_assoc big ∧
  ∀ n, 0 <= n < c_sets small -> set_view small n = take (Z.to_nat (c_assoc small)) (set_view big n).

Lemma take_removelast {B} (k : nat) (s : list B) : (k < length s)%nat -> take k (removelast s) = take k s.
Proof.
  intros Hk. destruct s as [|z l _] using rev_ind; [done|]. rewrite removelast_last, length_app in *. simpl in Hk.
  by rewrite take_app_le by lia.
Qed.

(** A shorter recency list is the front part of a longer one, always. *)
Lemma lru_ref_take k s tag :
  (1 <= k <= length s)%nat -> take k (lru_ref s tag) = lru_ref (take k s) tag.
Proof.
  intros Hk. destruct k as [|k]; [lia|]. unfold lru_ref at 2. destruct (decide (tag ∈ take (S k) s)) as [Hin|Hnin].
  - assert (Hs : tag ∈ s) by (rewrite <- (take_drop (S k) s); set_solver).
    unfold lru_ref. rewrite decide_True by done. simpl. f_equal.
    destruct (first_split tag _ Hin) as (l & b & El & Hl).
    assert (s = l ++ tag :: b ++ drop (S k) s) as Es
      by (rewrite <- (take_drop (S k) s) at 1; rewrite El, <- app_assoc; done).
    rewrite Es at 1. rewrite El, !remove_first_app by done.
    apply (f_equal length) in El. rewrite length_take, length_app in El. cbn [length] in El.
    rewrite app_assoc, take_app_length'; [done|]. rewrite length_app. lia.
  - assert (Hrl : removelast (take (S k) s) = take k s).
    { destruct (exists_last (l := take (S k) s)) as (l & z & E); [destruct s; simpl in *; (done || lia)|].
      assert (length l = k)
        by (apply (f_equal length) in E; rewrite length_take, length_app in E; cbn [length] in E; lia).
      rewrite E, removelast_last. apply (f_equal (take k)) in E. rewrite take_take, Nat.min_l in E by lia.
      by rewrite E, take_app_length' by lia. }
    rewrite Hrl. unfold lru_ref. case_decide as Hs; simpl; f_equal; [|apply take_removelast; lia].
    destruct (first_split tag s Hs) as (l & b & -> & Hl). rewrite remove_first_app by done.
    assert (S k <= length l)%nat.
    { destruct (decide (S k <= length l)%nat); [done|]. destruct Hnin. rewrite take_app_ge by lia.
      destruct (S k - length l)%nat eqn:E; [lia|]. set_solver. }
    by rewrite !take_app_le by lia.
Qed.

Lemma prolongs_setref small big n tag small' big' :
  prolongs small big -> 0 <= n < c_sets small ->
  set_ref small n tag small' -> set_ref big n tag big' ->
  prolongs small' big' ∧
  (is_miss (set_view big n) tag = true -> is_miss (set_view small n) tag = true).
Proof.
  intros (Hs & Hb & Es & Eb & Ha & Hv) Hn (Hs' & As' & Ss' & Bs' & Vs') (Hb' & Ab' & Sb' & Bb' & Vb'). split.
  - split; [done|]. split; [done|]. split; [congruence|]. split; [congruence|]. split; [congruence|].
    intros m Hm. rewrite Ss' in Hm. rewrite As', Vs', Vb' by congruence. case_decide; [|by apply Hv].
    rewrite Hv by done. symmetry. apply lru_ref_take.
    destruct (tags_split big n Hb ltac:(congruence)) as (_ & _ & _ & _ & Hl). rewrite Hl. destruct Hs as [? _]. lia.
  - rewrite Hv by done. unfold is_miss. rewrite !bool_decide_eq_true. intros Hnin Hin. apply Hnin.
    rewrite <- (take_drop (Z.to_nat (c_assoc small))). set_solver.
Qed.

(** One access to both caches. *)
Lemma prolongs_ref small big a sz :
  prolongs small big -> access_ok (c_line_size_bits small) a sz ->
  ∃ small' big' ms mb, cachesim_ref_is_miss small a sz = Ret (small', ms) ∧
    cachesim_ref_is_miss big a sz = Ret (big', mb) ∧ prolongs small' big' ∧
    c_line_size_bits small' = c_line_size_bits small ∧ (mb = true -> ms = true).
Proof.
  intros Hp Hacc. pose proof Hp as (Hs & Hb & Es & Eb & Ha & Hv).
  destruct (access_blocks small a sz Hs Hacc) as (H1 & Hblk).
  assert (Hblock : ∀ x, block_of big x = block_of small x) by (intros; unfold block_of; by rewrite Eb).
  assert (Hset : ∀ x, set_of big x = set_of small x).
  { intros. unfold set_of. destruct Hs as (_ & _ & -> & _), Hb as (_ & _ & -> & _). by rewrite Es. }
  unfold cachesim_ref_is_miss. rewrite !Hblock, !Hset.
  pose proof (set_of_range small _ Hs H1) as Hr1.
  destruct (setref_ok small _ (block_of small a) Hs Hr1) as (s1 & -> & Hs1).
  destruct (setref_ok big _ (block_of small a) Hb ltac:(rewrite <- Es; exact Hr1)) as (b1 & -> & Hb1).
  destruct (prolongs_setref _ _ _ _ _ _ Hp Hr1 Hs1 Hb1) as [Hp1 Hm1].
  pose proof Hs1 as (Hsok & _ & Ssets & Sbits & _).
  destruct (Z.eqb_spec (block_of small a) (block_of small (u64 (a + sz - 1)))) as [E|E].
  { exists s1, b1. eauto 10. }
  destruct Hblk as [|(_ & Hnext & H2)]; [done|]. rewrite (proj2 (Z.eqb_eq _ _) Hnext).
  cbn [mbind outcome_bind fst snd].
  pose proof (set_of_range small _ Hs H2) as Hr2. rewrite <- Ssets in Hr2.
  destruct (setref_ok s1 _ (block_of small (u64 (a + sz - 1))) Hsok Hr2) as (s2 & -> & Hs2).
  pose proof Hp1 as (_ & Hbok & Es1 & _).
  destruct (setref_ok b1 _ (block_of small (u64 (a + sz - 1))) Hbok ltac:(rewrite <- Es1; exact Hr2)) as (b2 & -> & Hb2).
  destruct (prolongs_setref _ _ _ _ _ _ Hp1 Hr2 Hs2 Hb2) as [Hp2 Hm2].
  pose proof Hs2 as (_ & _ & _ & Sbits2 & _).
  revert Hm1 Hm2. generalize (is_miss (set_view small (set_of small (block_of small a))) (block_of small a)) as x1.
  generalize (is_miss (set_view big (set_of small (block_of small a))) (block_of small a)) as y1.
  generalize (is_miss (set_view s1 (set_of small (block_of small (u64 (a + sz - 1))))) (block_of small (u64 (a + sz - 1)))) as x2.
  generalize (is_miss (set_view b1 (set_of small (block_of small (u64 (a + sz - 1))))) (block_of small (u64 (a + sz - 1)))) as y2.
  intros y2 x2 y1 x1 Hm1 Hm2. exists s2, b2, (x1 || x2), (y1 || y2).
  split; [by destruct x1|]. split; [by destruct y1|]. split; [done|]. split; [congruence|].
  rewrite !orb_true_iff. tauto.
Qed.

(** The accesses of a program, counting the misses. *)
Fixpoint run_refs (c : cache_t2) (l : list (Z * Z)) (misses : Z) : outcome (cache_t2 * Z) :=
  match l with
  | [] => Ret (c, misses)
  | (a, sz) :: l' => r ← cachesim_ref_is_miss c a sz; run_refs r.1 l' (if r.2 : bool then misses + 1 else misses)
  end.

Lemma prolongs_refl c : cache_ok c -> prolongs c c.
Proof.
  intros Hc. repeat (split; [done|]). intros n Hn.
  destruct (tags_split c n Hc Hn) as (_ & _ & _ & _ & Hl). by rewrite take_ge by lia.
Qed.

Lemma run_refs_prolongs l : ∀ small big ms mb,
  prolongs small big -> Forall (fun p => access_ok (c_line_size_bits small) p.1 p.2) l -> mb <= ms ->
  ∃ small' big' ns nb, run_refs small l ms = Ret (small', ns) ∧ run_refs big l mb = Ret (big', nb) ∧
    prolongs small' big' ∧ nb <= ns.
Proof.
  induction l as [|[a sz] l IH]; intros small big ms mb Hp Hl Hm; [exists small, big, ms, mb; done|].
  inversion Hl as [|? ? Hacc Hl']; subst. cbn [run_refs].
  destruct (prolongs_ref small big a sz Hp Hacc) as (s' & b' & m1 & m2 & -> & -> & Hp' & Hbits & Hmiss).
  cbn [mbind outcome_bind fst snd]. apply IH; [done|by rewrite Hbits|].
  destruct m2; [rewrite Hmiss by done; lia|destruct m1; lia].
Qed.

(** ** Configurations *)

Definition is_int (z : Z) : Prop := INT_MIN <= z <= INT_MAX.
Definition cache_ints (c : cache_t) : Prop := is_int (size c) ∧ is_int (assoc c) ∧ is_int (line_size c).

(** A size that divides into a power of two of sets with lines of at least 16
    bytes. *)
Definition good_config (c : cache_t) : Prop :=
  1 <= assoc c ∧ (∃ l, 4 <= l < 31 ∧ line_size c = 2 ^ l) ∧
  ∃ k, 0 <= k ∧ size c = line_size c * assoc c * 2 ^ k ∧ size c <= INT_MAX.

Lemma idiv_pos a b : 0 <= a <= INT_MAX -> 0 < b -> idiv a b = Ret (a / b).
Proof.
  intros Ha Hb. unfold idiv. rewrite (proj2 (Z.eqb_neq _ _)), Z.quot_div_nonneg by lia. apply int_ok.
  assert (0 <= a / b) by (apply Z.div_pos; lia). assert (a / b <= a) by (apply Z.div_le_upper_bound; nia).
  unfold INT_MIN. lia.
Qed.

Lemma log2_found x : log2 x ≠ -1 -> ∃ k, 0 <= k < 32 ∧ x = 2 ^ k ∧ log2 x = k.
Proof. destruct (log2_ok x) as [?|[? _]]; [done|contradiction]. Qed.

Lemma log2_pow k : 0 <= k < 32 -> log2 (2 ^ k) = k.
Proof.
  intros Hk. destruct (log2_ok (2 ^ k)) as [(j & Hj & E & ->)|[_ Hno]]; [|by destruct (Hno k Hk)].
  symmetry. apply (Z.pow_inj_r 2); lia.
Qed.

(** The sets that the test of [check_cache] accepts. *)
Lemma sets_accepted sz lines a sets :
  0 <= lines -> 0 < sz <= INT_MAX -> INT_MIN <= a <= lines -> lines <= sz / 16 -> a ≠ 0 ->
  idiv lines a = Ret sets -> -1 ≠ log2 (u32 sets) -> 0 < a ∧ sets = lines / a ∧ ∃ k, 0 <= k ∧ sets = 2 ^ k.
Proof.
  intros Hl Hsz Ha Hls Hnz Hdiv Hlog. unfold INT_MAX, INT_MIN in *.
  assert (lines < 134217728) by (eapply Z.le_lt_trans; [exact Hls|]; apply Z.div_lt_upper_bound; lia).
  destruct (log2_found (u32 sets)) as (k & Hk & Hpow & _); [congruence|].
  destruct (decide (0 < a)) as [Hpos|Hneg].
  - rewrite idiv_pos in Hdiv by (unfold INT_MAX; lia). injection Hdiv as <-. split; [done|]. split; [done|].
    exists k. split; [lia|]. rewrite <- Hpow. symmetry. apply wrap_small.
    assert (0 <= lines / a) by (apply Z.div_pos; lia).
    assert (lines / a <= lines) by (apply Z.div_le_upper_bound; nia). lia.
  - exfalso. unfold idiv in Hdiv. rewrite (proj2 (Z.eqb_neq _ _)) in Hdiv by lia.
    assert (Hq : Z.quot lines a = - (lines / - a)).
    { rewrite <- (Z.opp_involutive a) at 1. rewrite Z.quot_opp_r by lia. by rewrite Z.quot_div_nonneg by lia. }
    unfold int_ in Hdiv. destruct (_ && _); [|done]. injection Hdiv as <-. rewrite Hq in Hpow.
    assert (0 <= lines / - a <= lines) as Hr by (apply div_between; lia).
    destruct (decide (lines / - a = 0)) as [E|E].
    + rewrite E in Hpow. change (u32 (- 0)) with 0 in Hpow. pose proof (Z.pow_pos_nonneg 2 k). lia.
    + unfold u32, wrap in Hpow. rewrite <- (Z.mod_add _ 1), Z.mod_small in Hpow by lia.
      assert (k < 32) by lia. assert (31 < k); [|lia].
      apply (Z.pow_lt_mono_r_iff 2); [lia|lia|]. lia.
Qed.

Lemma check_cache_good c : cache_ints c -> check_cache c = Ret None -> good_config c.
Proof.
  intros (Hs & Ha & Hl) H. unfold is_int in *. unfold check_cache in H.
  destruct (Z.eqb_spec (line_size c) 0) as [|Hl0]; [done|].
  destruct (Z.eqb_spec (assoc c) 0) as [|Ha0]; [done|].
  unfold int_ in H. destruct ((INT_MIN <=? line_size c * assoc c) && (line_size c * assoc c <=? INT_MAX)) eqn:Ew; [|done].
  cbn [mbind outcome_bind] in H. unfold imod in H. rewrite (proj2 (Z.eqb_neq (line_size c * assoc c) 0)) in H by nia.
  destruct (int_ (Z.quot _ _)); [|done].
  cbn [mbind outcome_bind] in H. destruct (Z.eqb_spec (Z.rem (size c) (line_size c * assoc c)) 0) as [Er|]; [|done].
  cbn [negb mbind outcome_bind] in H. destruct (idiv (size c) (line_size c)) as [lines|] eqn:El; [|done].
  cbn [mbind outcome_bind] in H. destruct (idiv lines (assoc c)) as [sets|] eqn:Es; [|done].
  cbn [mbind outcome_bind] in H. destruct (Z.eqb_spec (-1) (log2 (u32 sets))) as [|Hsets]; [done|].
  destruct (Z.eqb_spec (-1) (log2 (u32 (line_size c)))) as [|Hline]; [done|].
  destruct (Z.ltb_spec (line_size c) MIN_LINE_SIZE) as [|Hmin]; [done|]. unfold MIN_LINE_SIZE in Hmin.
  destruct (Z.leb_spec (size c) (line_size c)) as [|Hsz]; [done|].
  destruct (Z.ltb_spec lines (assoc c)) as [|Hlines]; [done|]. clear H.
  rewrite idiv_pos in El by lia. injection El as <-.
  destruct (log2_found (u32 (line_size c))) as (l & Hlr & Hlp & _); [congruence|].
  unfold u32 in Hlp. rewrite wrap_small in Hlp by (unfold INT_MAX in *; lia).
  assert (1 <= size c / line_size c) by (apply Z.div_le_lower_bound; lia).
  assert (size c / line_size c <= size c / 16) by (apply Z.div_le_compat_l; lia).
  destruct (sets_accepted (size c) (size c / line_size c) (assoc c) sets) as (Hap & Hse & k & Hk & Hp);
    [lia|lia|lia|done|done|done|done|].
  split; [lia|]. split.
  - exists l. split; [|done]. split.
    + apply Z.lt_succ_r. apply (Z.pow_lt_mono_r_iff 2); [lia|lia|]. rewrite Z.pow_succ_r by lia. lia.
    + apply (Z.pow_lt_mono_r_iff 2); [lia|lia|]. unfold INT_MAX in *. lia.
  - exists k. split; [done|]. split; [|lia]. rewrite <- Hp, Hse, Z.div_div by nia.
    rewrite Z.rem_mod_nonneg in Er by nia. apply Z.div_exact in Er; [|nia]. lia.
Qed.

Lemma initcache_ok cfg :
  good_config cfg ->
  ∃ c, cachesim_initcache cfg = Ret c ∧ cache_ok c ∧ c_assoc c = assoc cfg ∧
    c_sets c = size cfg / line_size cfg / assoc cfg ∧ 2 ^ c_line_size_bits c = line_size cfg ∧
    c_tags c = replicate (Z.to_nat (c_sets c * assoc cfg)) 0.
Proof.
  intros (Ha & (l & Hl & El) & k & Hk & Es & Hmax). unfold INT_MAX in *.
  assert (0 < 2 ^ k) by (by apply Z.pow_pos_nonneg). assert (16 <= line_size cfg) by (rewrite El; apply (Z.pow_le_mono_r 2 4); lia).
  assert (Hlines : size cfg / line_size cfg = assoc cfg * 2 ^ k)
    by (rewrite Es, <- Z.mul_assoc, Z.mul_comm; apply Z.div_mul; lia).
  assert (Hsets : assoc cfg * 2 ^ k / assoc cfg = 2 ^ k) by (rewrite Z.mul_comm; apply Z.div_mul; lia).
  unfold cachesim_initcache. rewrite idiv_pos by (unfold INT_MAX; nia). cbn [mbind outcome_bind].
  rewrite Hlines, idiv_pos by (unfold INT_MAX; nia). cbn [mbind outcome_bind]. rewrite Hsets.
  rewrite int_ok by (unfold INT_MIN, INT_MAX; nia). cbn [mbind outcome_bind]. eexists. split; [done|].
  assert (log2 (u32 (line_size cfg)) = l) as Hlog.
  { unfold u32. rewrite wrap_small by nia. rewrite El. apply log2_pow. lia. }
  unfold cache_ok. cbn [c_assoc c_sets c_sets_min_1 c_line_size_bits c_tags].
  rewrite Hlog. split; [|by rewrite El].
  split; [done|]. split; [by exists k|]. split; [done|]. rewrite length_replicate. unfold INT_MAX.
  split; [nia|]. split; [nia|lia].
Qed.

Lemma replicate_view c n :
  cache_ok c -> 0 <= n < c_sets c -> c_tags c = replicate (Z.to_nat (c_sets c * c_assoc c)) 0 ->
  set_view c n = replicate (Z.to_nat (c_assoc c)) 0.
Proof.
  intros (Ha & _ & _ & _ & _ & _) Hn Ht. unfold set_view. rewrite Ht, drop_replicate, take_replicate. f_equal.
  assert (n * c_assoc c + c_assoc c <= c_sets c * c_assoc c) by nia. assert (0 <= n * c_assoc c) by nia. lia.
Qed.

Lemma init_prolongs c1 c2 :
  good_config c1 -> good_config c2 -> line_size c1 = line_size c2 -> assoc c1 <= assoc c2 ->
  size c1 / line_size c1 / assoc c1 = size c2 / line_size c2 / assoc c2 ->
  ∃ s b, cachesim_initcache c1 = Ret s ∧ cachesim_initcache c2 = Ret b ∧ prolongs s b ∧
    2 ^ c_line_size_bits s = line_size c1.
Proof.
  intros H1 H2 Hl Ha Hs.
  destruct (initcache_ok c1 H1) as (s & -> & Hs1 & As & Ss & Bs & Ts).
  destruct (initcache_ok c2 H2) as (b & -> & Hb1 & Ab & Sb & Bb & Tb).
  exists s, b. split; [done|]. split; [done|]. split; [|done].
  assert (c_sets s = c_sets b) as Esets by congruence.
  split; [done|]. split; [done|]. split; [done|]. split; [|split; [congruence|]].
  - destruct Hs1 as (_ & _ & _ & _ & _ & ?), Hb1 as (_ & _ & _ & _ & _ & ?). apply (Z.pow_inj_r 2); [lia|lia|lia|congruence].
  - intros n Hn. rewrite !replicate_view by (done || congruence). rewrite take_replicate. f_equal. lia.
Qed.

(** ** Predictor state *)

Definition predictor_ok (p : predictor) : Prop :=
  0 <= shift_register p < 2 ^ 64 ∧ Z.of_nat (length (counters p)) = N_COUNTERS ∧
  Forall (fun n => 0 <= n <= 3) (counters p) ∧ Z.of_nat (length (btac p)) = N_BTAC.

(** The history above the address bits. *)
Definition cond_index (p : predictor) (instr_addr : Z) : Z :=
  (shift_register p mod 128) * 128 + instr_addr mod 128.

Lemma predictor_init_ok : predictor_ok predictor_init.
Proof.
  split; [simpl; lia|]. split; [reflexivity|]. split; [|reflexivity].
  apply Forall_replicate. lia.
Qed.

(** The index that the code computes with masks and shifts. *)
Lemma cond_index_eq p a :
  0 <= shift_register p -> 0 <= a ->
  Z.lor (Z.shiftl (Z.land (shift_register p) 127) 7) (Z.land a 127) = cond_index p a ∧
  0 <= cond_index p a < N_COUNTERS.
Proof.
  intros Hs Ha. change 127 with (Z.ones 7). rewrite !Z.land_ones, Z.shiftl_mul_pow2 by lia.
  pose proof (Z.mod_pos_bound (shift_register p) (2 ^ 7)). pose proof (Z.mod_pos_bound a (2 ^ 7)).
  rewrite lor_shifted_small by lia. unfold cond_index. change (2 ^ 7) with 128 in *.
  change N_COUNTERS with 16384. lia.
Qed.

(** A bit shifted into a register. *)
Lemma shift_in r b : 0 <= b <= 1 -> Z.lor (u64 (Z.shiftl r 1)) b = (2 * r + b) mod 2 ^ 64.
Proof.
  intros Hb. unfold u64, wrap. rewrite Z.shiftl_mul_pow2 by lia.
  change (2 ^ 64) with (2 ^ 63 * 2 ^ 1) at 1. rewrite Z.mul_mod_distr_r by lia.
  rewrite lor_shifted_small by lia. change (2 ^ 64) with (2 ^ 1 * 2 ^ 63).
  pose proof (Z.div_mod r (2 ^ 63) ltac:(lia)). pose proof (Z.mod_pos_bound r (2 ^ 63)).
  apply (Z.mod_unique_pos _ _ (r / 2 ^ 63)); lia.
Qed.

Lemma cond_predict_ok p a takenW :
  predictor_ok p -> 0 <= a -> 0 <= takenW <= 1 ->
  ∃ cnt p', counters p !! Z.to_nat (cond_index p a) = Some cnt ∧
    do_cond_branch_predict p a takenW = Ret (p', if bool_decide ((2 <= cnt) <-> takenW = 1) then 0 else 1) ∧
    predictor_ok p' ∧ btac p' = btac p ∧ shift_register p' = (2 * shift_register p + takenW) mod 2 ^ 64 ∧
    counters p' = <[Z.to_nat (cond_index p a) :=
                      Z.max 0 (Z.min 3 (if decide (takenW = 1) then cnt + 1 else cnt - 1))]> (counters p).
Proof.
  intros (Hsr & Hlen & Hcnt & Hb) Ha Ht. destruct (cond_index_eq p a) as [Hidx Hr]; [lia|lia|].
  destruct (arr_get_in_range (counters p) (cond_index p a)) as (cnt & Hget & Hlk); [lia|].
  pose proof (Forall_lookup_1 _ _ _ _ Hcnt Hlk) as Hc. cbv beta in Hc. exists cnt.
  set (cnt' := Z.max 0 (Z.min 3 (if decide (takenW = 1) then cnt + 1 else cnt - 1))).
  assert (Hc' : 0 <= cnt' <= 3) by lia.
  exists (Predictor ((2 * shift_register p + takenW) mod 2 ^ 64)
            (<[Z.to_nat (cond_index p a) := cnt']> (counters p)) (btac p)).
  split; [done|]. split; [|split; [|done]].
  - unfold do_cond_branch_predict, N_IADDR_LO_ZERO_BITS. rewrite Z.shiftr_0_r.
    change (Z.shiftl 1 N_HIST_BITS - 1) with 127. change (Z.shiftl 1 N_IADD_BITS - 1) with 127.
    change N_IADD_BITS with 7. rewrite Hidx.
    change 127 with (Z.ones 7). rewrite !Z.land_ones by lia.
    pose proof (Z.mod_pos_bound (shift_register p) (2 ^ 7)). pose proof (Z.mod_pos_bound a (2 ^ 7)).
    change (Z.ones 7) with 127. change (2 ^ 7) with 128 in *.
    rewrite !vg_assert_true by lia. cbn [mbind outcome_bind]. rewrite Hget. cbn [mbind outcome_bind].
    assert ((if 0 <? takenW then if cnt <? 3 then u8 (cnt + 1) else cnt
             else if 0 <? cnt then u8 (cnt - 1) else cnt) = cnt') as ->.
    { subst cnt'. unfold u8. repeat case_bool; rewrite ?wrap_small by lia; case_decide; lia. }
    rewrite arr_set_in_range by lia. cbn [mbind outcome_bind].
    rewrite vg_assert_true by lia. cbn [mbind outcome_bind].
    assert (Z.lor (u64 (Z.shiftl (shift_register p) 1)) (if 0 <? takenW then 1 else 0) =
            (2 * shift_register p + takenW) mod 2 ^ 64) as ->.
    { rewrite shift_in by (case_bool; lia). f_equal. case_bool; lia. }
    do 2 f_equal. destruct (Z.ltb_spec 0 takenW), (Z.leb_spec 2 cnt); case_bool_decide; simpl; lia.
  - split; [apply Z.mod_pos_bound; lia|]. split; [cbn [counters]; by rewrite length_insert|]. split; [by apply Forall_insert|done].
Qed.

Lemma ind_predict_ok p a target :
  predictor_ok p -> 0 <= a ->
  ∃ last p', btac p !! Z.to_nat (a mod 512) = Some last ∧
    do_ind_branch_predict p a target = Ret (p', if decide (last = target) then 0 else 1) ∧
    predictor_ok p' ∧ counters p' = counters p ∧ btac p' = <[Z.to_nat (a mod 512) := target]> (btac p).
Proof.
  intros (Hsr & Hlen & Hcnt & Hb) Ha. change N_BTAC with 512 in Hb.
  pose proof (Z.mod_pos_bound a 512).
  destruct (arr_get_in_range (btac p) (a mod 512)) as (last & Hget & Hlk); [lia|].
  exists last, (Predictor (shift_register p) (counters p) (<[Z.to_nat (a mod 512) := target]> (btac p))).
  split; [done|]. split; [|split; [|done]].
  - unfold do_ind_branch_predict, N_IADDR_LO_ZERO_BITS. rewrite Z.shiftr_0_r.
    change (Z.shiftl 1 N_BTAC_BITS - 1) with (Z.ones 9). rewrite Z.land_ones by lia. change (2 ^ 9) with 512.
    change N_BTAC with 512. rewrite vg_assert_true by lia. cbn [mbind outcome_bind].
    rewrite Hget. cbn [mbind outcome_bind]. rewrite arr_set_in_range by lia. cbn [mbind outcome_bind].
    do 2 f_equal. destruct (Z.eqb_spec last target); case_decide; done.
  - split; [done|]. split; [done|]. split; [done|]. cbn [btac]. rewrite length_insert. by change N_BTAC with 512.
Qed.

(** The product of the line size and the associativity is computed in [Int]:
    with powers of two it leaves the range before any check refuses it. *)
Lemma check_cache_overflows sz : check_cache (Cache sz 65536 65536) = Fault IntOverflow.
Proof. reflexivity. Qed.

(** * Properties *)

(** C15: [cachesim_setref_is_miss] keeps each set as a list of its most recently
    used blocks: the referenced block moves to the front, on a miss in place of
    the last one, the result says whether it was missing, no other set changes
    and no access leaves the tag array. *)
Theorem setref_lru c set_no tag :
  cache_ok c -> 0 <= set_no < c_sets c ->
  ∃ c', cachesim_setref_is_miss c set_no tag = Ret (c', bool_decide (tag ∉ set_view c set_no)) ∧ cache_ok c' ∧
    ∀ m, 0 <= m < c_sets c ->
      set_view c' m = if decide (m = set_no) then lru_ref (set_view c set_no) tag else set_view c m.
Proof.
  intros Hc Hn. destruct (setref_ok c set_no tag Hc Hn) as (c' & He & Hok & _ & _ & _ & Hv).
  exists c'. by split.
Qed.

(** C16: a configuration that [check_cache] accepts can be simulated: the cache
    is built, and any sequence of accesses that are no longer than a line and
    do not wrap around is counted without the panic about straddling, without
    leaving the tag array and without overflow. *)
Theorem checked_cache_safe cfg l :
  cache_ints cfg -> check_cache cfg = Ret None ->
  Forall (fun p => 0 <= p.1 ∧ 1 <= p.2 <= line_size cfg ∧ p.1 + p.2 - 1 < 2 ^ 64) l ->
  ∃ c c' misses, cachesim_initcache cfg = Ret c ∧ run_refs c l 0 = Ret (c', misses) ∧ cache_ok c'.
Proof.
  intros Hi Hcheck Hl. pose proof (check_cache_good cfg Hi Hcheck) as Hg.
  destruct (initcache_ok cfg Hg) as (c & -> & Hc & _ & _ & Hb & _).
  destruct (run_refs_prolongs l c c 0 0 (prolongs_refl c Hc)) as (s & b & ns & nb & Hr & _ & Hp & _); [|done|].
  { eapply Forall_impl; [exact Hl|]. intros [a sz]. unfold access_ok. simpl. by rewrite Hb. }
  exists c, s, ns. split; [done|]. split; [done|]. apply Hp.
Qed.

(** More ways never hurt: of two accepted configurations with the same lines
    and sets, the one with more ways misses at most as often on every sequence
    of accesses (the inclusion property of LRU). *)
Theorem more_ways_fewer_misses cfg1 cfg2 l :
  cache_ints cfg1 -> cache_ints cfg2 -> check_cache cfg1 = Ret None -> check_cache cfg2 = Ret None ->
  line_size cfg1 = line_size cfg2 ->
  size cfg1 / line_size cfg1 / assoc cfg1 = size cfg2 / line_size cfg2 / assoc cfg2 ->
  assoc cfg1 <= assoc cfg2 ->
  Forall (fun p => 0 <= p.1 ∧ 1 <= p.2 <= line_size cfg1 ∧ p.1 + p.2 - 1 < 2 ^ 64) l ->
  ∃ c1 c2 c1' c2' misses1 misses2,
    cachesim_initcache cfg1 = Ret c1 ∧ cachesim_initcache cfg2 = Ret c2 ∧
    run_refs c1 l 0 = Ret (c1', misses1) ∧ run_refs c2 l 0 = Ret (c2', misses2) ∧ misses2 <= misses1.
Proof.
  intros Hi1 Hi2 H1 H2 Hl Hs Ha Hacc.
  destruct (init_prolongs cfg1 cfg2) as (c1 & c2 & -> & -> & Hp & Hb); try done; [by apply check_cache_good..|].
  destruct (run_refs_prolongs l c1 c2 0 0 Hp) as (s & b & ns & nb & Hr1 & Hr2 & _ & Hle); [|done|].
  { eapply Forall_impl; [exact Hacc|]. intros [a sz]. unfold access_ok. simpl. by rewrite Hb. }
  by exists c1, c2, s, b, ns, nb.
Qed.

(** Where [cachesim_is_IrNoX] holds, the special case [cachesim_I1_doref_NoX]
    and the general [cachesim_I1_doref_Gen] change caches and counters alike,
    faults included. *)
Theorem IrNoX_agrees s a sz m1 mL :
  cachesim_is_IrNoX s a sz = true ->
  cachesim_I1_doref_NoX s a m1 mL = cachesim_I1_doref_Gen s a sz m1 mL.
Proof.
  unfold cachesim_is_IrNoX. destruct (Z.eqb_spec (c_line_size_bits (I1 s)) (c_line_size_bits (LL s))) as [Eb|]; [|done].
  cbn [negb]. intros Hblk. unfold cachesim_I1_doref_NoX, cachesim_I1_doref_Gen, cachesim_ref_is_miss.
  assert (HLL : ∀ x, block_of (LL s) x = block_of (I1 s) x) by (intros; unfold block_of; by rewrite Eb).
  rewrite !HLL, Hblk. done.
Qed.

(** From a good state the branch predictors fail no assertion and keep the
    state good: the conditional one selects a counter by history and address,
    predicts from its upper half, and moves it one step without leaving 0..3;
    the indirect one compares with the last target in the slot and records the
    new one. Both return 1 exactly for a misprediction. *)
Theorem predictors_correct p instr_addr takenW target :
  predictor_ok p -> 0 <= instr_addr -> 0 <= takenW <= 1 ->
  (∃ cnt p', counters p !! Z.to_nat (cond_index p instr_addr) = Some cnt ∧
     do_cond_branch_predict p instr_addr takenW =
       Ret (p', if bool_decide ((2 <= cnt) <-> takenW = 1) then 0 else 1) ∧
     predictor_ok p' ∧ btac p' = btac p ∧ shift_register p' = (2 * shift_register p + takenW) mod 2 ^ 64 ∧
     counters p' = <[Z.to_nat (cond_index p instr_addr) :=
                       Z.max 0 (Z.min 3 (if decide (takenW = 1) then cnt + 1 else cnt - 1))]> (counters p)) ∧
  (∃ last p', btac p !! Z.to_nat (instr_addr mod 512) = Some last ∧
     do_ind_branch_predict p instr_addr target = Ret (p', if decide (last = target) then 0 else 1) ∧
     predictor_ok p' ∧ counters p' = counters p ∧ btac p' = <[Z.to_nat (instr_addr mod 512) := target]> (btac p)).
Proof. intros Hp Ha Ht. split; [by apply cond_predict_ok|by apply ind_predict_ok]. Qed.

(** * Witnesses *)

(** Two lines of 16 bytes in each of four sets, and three accesses; then four
    lines in each set. *)
Definition small_config : cache_t := Cache 128 2 16.
Definition large_config : cache_t := Cache 256 4 16.
Definition some_accesses : list (Z * Z) := [(0, 8); (60, 8); (0, 16)].

Lemma some_accesses_ok :
  Forall (fun p => 0 <= p.1 ∧ 1 <= p.2 <= line_size small_config ∧ p.1 + p.2 - 1 < 2 ^ 64) some_accesses.
Proof. repeat (apply Forall_cons; split; [cbn; lia|]). apply Forall_nil_2. Qed.

Definition small_cache : cache_t2 := Cache2 128 2 16 4 3 4 6 [5; 9; 0; 0; 0; 0; 0; 0].

Lemma small_cache_ok : cache_ok small_cache.
Proof. unfold cache_ok; cbn; repeat split; try done. by exists 2. Qed.

Lemma setref_lru_witness :
  ∃ c', cachesim_setref_is_miss small_cache 0 9 = Ret (c', false) ∧ set_view c' 0 = [9; 5].
Proof.
  destruct (setref_lru small_cache 0 9 small_cache_ok) as (c' & H & _ & Hv); [cbn; lia|].
  exists c'. split; [exact H|]. rewrite Hv by (cbn; lia). reflexivity.
Defined.

Lemma checked_cache_safe_witness :
  ∃ c c' misses, cachesim_initcache small_config = Ret c ∧ run_refs c some_accesses 0 = Ret (c', misses) ∧ cache_ok c'.
Proof.
  apply (checked_cache_safe small_config some_accesses);
    [repeat split; vm_compute; discriminate|reflexivity|exact some_accesses_ok].
Defined.

Lemma more_ways_fewer_misses_witness :
  ∃ c1 c2 c1' c2' misses1 misses2,
    cachesim_initcache small_config = Ret c1 ∧ cachesim_initcache large_config = Ret c2 ∧
    run_refs c1 some_accesses 0 = Ret (c1', misses1) ∧ run_refs c2 some_accesses 0 = Ret (c2', misses2) ∧
    misses2 <= misses1.
Proof.
  apply (more_ways_fewer_misses small_config large_config some_accesses);
    [repeat split; vm_compute; discriminate|repeat split; vm_compute; discriminate|reflexivity|reflexivity|reflexivity|reflexivity|cbn; lia
    |exact some_accesses_ok].
Defined.

Lemma IrNoX_agrees_witness :
  cachesim_I1_doref_NoX (Caches small_cache small_cache small_cache) 64 0 0 =
  cachesim_I1_doref_Gen (Caches small_cache small_cache small_cache) 64 4 0 0.
Proof. apply (IrNoX_agrees (Caches small_cache small_cache small_cache) 64 4 0 0). reflexivity. Defined.

Lemma predictors_correct_witness :
  ∃ cnt p', counters predictor_init !! Z.to_nat (cond_index predictor_init 200) = Some cnt ∧
    do_cond_branch_predict predictor_init 200 1 =
      Ret (p', if bool_decide ((2 <= cnt) <-> 1 = 1) then 0 else 1) ∧ predictor_ok p'.
Proof.
  destruct (predictors_correct predictor_init 200 1 7 predictor_init_ok) as [(cnt & p' & Hc & He & Hp & _) _];
    [lia|lia|]. exists cnt, p'. split; [exact Hc|]. split; [exact He|exact Hp].
Defined.
