(* ===== verification/VectorClock.v ===== *)
(** DRD's vector clocks ([drd/drd_vc.c], [drd/drd_vc.h]): an array of (thread
    id, count) pairs in thread id order, kept in the structure itself while it
    is small and on the heap when it is larger.

    A cell of memory that was not written yet is [None]. The abstract view of a
    clock is the partial function [clk] from thread ids to counts. *)

From stdpp Require Import gmap.
From S2P Require Import Prelude.
Local Open Scope Z_scope.

(** * The data *)

Record VCElem := Elem { threadid : Z; count : Z }.

#[global] Instance VCElem_eq_dec : EqDecision VCElem.
Proof. solve_decision. Defined.

(** The pointer [vc]: NULL, [preallocated], or a block of the heap. *)
Inductive vcptr := Null | Pre | Heap (cells : list (option VCElem)).

Record VectorClock := Clock {
  capacity : Z; size : Z; vc : vcptr; preallocated : list (option VCElem) }.

Definition VC_PREALLOCATED : Z := 8.

Definition is_null (p : vcptr) : bool := match p with Null => true | _ => false end.
Definition is_pre (p : vcptr) : bool := match p with Pre => true | _ => false end.
Definition is_heap (p : vcptr) : bool := match p with Heap _ => true | _ => false end.

Definition cells (v : VectorClock) : list (option VCElem) :=
  match vc v with Null => [] | Pre => preallocated v | Heap c => c end.

Definition with_cells (v : VectorClock) (c : list (option VCElem)) : VectorClock :=
  match vc v with
  | Null => v
  | Pre => Clock (capacity v) (size v) Pre c
  | Heap _ => Clock (capacity v) (size v) (Heap c) (preallocated v)
  end.

Definition with_size (v : VectorClock) (n : Z) : VectorClock :=
  Clock (capacity v) n (vc v) (preallocated v).

(** [vc->vc[i]], read and written. *)
Definition vc_get (v : VectorClock) (i : Z) : outcome VCElem :=
  if is_null (vc v) then Fault NullDeref
  else c ← arr_get (cells v) i; match c with Some x => Ret x | None => Fault OutOfBounds end.

Definition vc_set (v : VectorClock) (i : Z) (x : VCElem) : outcome VectorClock :=
  if is_null (vc v) then Fault NullDeref
  else c ← arr_set (cells v) i (Some x); Ret (with_cells v c).

(** * The operations *)

Fixpoint check_order (v : VectorClock) (n : nat) (i : Z) : outcome unit :=
  match n with
  | O => Ret tt
  | S n =>
      x ← vc_get v (i - 1); y ← vc_get v i; _ ← vg_assert (threadid x <? threadid y);
      check_order v n (i + 1)
  end.

Definition vc_check (v : VectorClock) : outcome unit :=
  _ ← vg_assert (size v <=? capacity v);
  check_order v (Z.to_nat (size v - 1)) 1.

(** [malloc] and [realloc] leave the new cells unwritten. *)
Definition fresh (n : Z) : list (option VCElem) := replicate (Z.to_nat n) None.

Definition vc_reserve (v : VectorClock) (new_capacity : Z) : outcome VectorClock :=
  let cap := capacity v in
  _ ← vg_assert ((VC_PREALLOCATED <? cap) || is_null (vc v) || is_pre (vc v));
  v' ← (if cap <? new_capacity then
          if negb (is_null (vc v)) && (VC_PREALLOCATED <? cap) then
            _ ← vg_assert (negb (is_null (vc v)) && negb (is_pre (vc v)) && (VC_PREALLOCATED <? cap));
            Ret (Clock new_capacity (size v) (Heap (cells v ++ fresh (new_capacity - cap))) (preallocated v))
          else if negb (is_null (vc v)) && (VC_PREALLOCATED <? new_capacity) then
            _ ← vg_assert ((is_null (vc v) || is_pre (vc v)) && (VC_PREALLOCATED <? new_capacity) &&
                           (cap <=? VC_PREALLOCATED));
            Ret (Clock new_capacity (size v)
                   (Heap (take (Z.to_nat cap) (preallocated v) ++ fresh (new_capacity - cap))) (preallocated v))
          else if negb (is_null (vc v)) then
            _ ← vg_assert (is_pre (vc v) && (new_capacity <=? VC_PREALLOCATED) && (cap <=? VC_PREALLOCATED));
            Ret (Clock new_capacity (size v) (vc v) (preallocated v))
          else if VC_PREALLOCATED <? new_capacity then
            _ ← vg_assert (is_null (vc v) && (VC_PREALLOCATED <? new_capacity) && (cap =? 0));
            Ret (Clock new_capacity (size v) (Heap (fresh new_capacity)) (preallocated v))
          else
            _ ← vg_assert (is_null (vc v) && (new_capacity <=? VC_PREALLOCATED) && (cap =? 0));
            Ret (Clock new_capacity (size v) Pre (preallocated v))
        else if (new_capacity =? 0) && negb (is_null (vc v)) then
          Ret (Clock 0 (size v) Null (preallocated v))
        else Ret v);
  _ ← vg_assert ((new_capacity =? 0) || negb (is_null (vc v')));
  _ ← vg_assert ((VC_PREALLOCATED <? capacity v') || is_null (vc v') || is_pre (vc v'));
  Ret v'.

(** [mem] is the memory of the structure, [vcelem] the array that is copied. *)
Definition vc_init (mem : list (option VCElem)) (vcelem : option (list (option VCElem))) (n : Z)
  : outcome VectorClock :=
  v ← vc_reserve (Clock 0 0 Null mem) n;
  _ ← vg_assert ((n =? 0) || negb (is_null (vc v)));
  match vcelem with
  | None => Ret v
  | Some e =>
      if n <=? Z.of_nat (length e) then
        Ret (with_size (with_cells v (take (Z.to_nat n) e ++ drop (Z.to_nat n) (cells v))) n)
      else Fault OutOfBounds
  end.

Definition vc_cleanup (v : VectorClock) : outcome VectorClock := vc_reserve v 0.

Definition vc_copy (mem : list (option VCElem)) (rhs : VectorClock) : outcome VectorClock :=
  vc_init mem (if is_null (vc rhs) then None else Some (cells rhs)) (size rhs).

Definition vc_assign (lhs rhs : VectorClock) : outcome VectorClock :=
  lhs' ← vc_cleanup lhs; vc_copy (preallocated lhs') rhs.

(** [while (j < v->size && v->vc[j].threadid < tid) j++;] *)
Fixpoint skip (fuel : nat) (v : VectorClock) (j tid : Z) : outcome Z :=
  if j <? size v then
    x ← vc_get v j;
    if threadid x <? tid then
      match fuel with O => Fault OutOfFuel | S fuel => skip fuel v (j + 1) tid end
    else Ret j
  else Ret j.

Definition skip_to (v : VectorClock) (j tid : Z) : outcome Z := skip (Z.to_nat (size v)) v j tid.

(** The number of thread ids that both clocks have; [n] is what is left of
    [result]. *)
Fixpoint count_shared (n : nat) (result rhs : VectorClock) (i j shared : Z) : outcome Z :=
  match n with
  | O => Ret shared
  | S n =>
      x ← vc_get result i; j ← skip_to rhs j (threadid x);
      if size rhs <=? j then Ret shared
      else
        y ← vc_get rhs j;
        count_shared n result rhs (i + 1) j (if threadid x =? threadid y then shared + 1 else shared)
  end.

(** [for (k = result->size; k > i; k--) result->vc[k] = result->vc[k - 1];] *)
Definition shift_up (v : VectorClock) (i : Z) : outcome VectorClock :=
  for_down (size v + 1) (i + 1) (fun k v => x ← vc_get v (k - 1); vc_set v k x) v.

(** One round of the second loop of [vc_combine]: the clock and [i]. *)
Definition combine_step (rhs : VectorClock) (j : Z) (s : VectorClock * Z) : outcome (VectorClock * Z) :=
  let '(result, i) := s in
  y ← vc_get rhs j; i ← skip_to result i (threadid y);
  if size result <=? i then
    r ← vc_set (with_size result (u32 (size result + 1))) i y; Ret (r, i)
  else
    x ← vc_get result i;
    if threadid y <? threadid x then
      r ← shift_up result i;
      r ← vc_set (with_size r (u32 (size r + 1))) i y; Ret (r, i)
    else
      _ ← vg_assert (threadid x =? threadid y);
      if count x <? count y then r ← vc_set result i (Elem (threadid x) (count y)); Ret (r, i)
      else Ret (result, i).

Definition vc_combine (result rhs : VectorClock) : outcome VectorClock :=
  shared ← count_shared (Z.to_nat (size result)) result rhs 0 0 0;
  _ ← vc_check result;
  let new_size := u32 (size result + size rhs - shared) in
  result ← (if capacity result <? new_size then vc_reserve result new_size else Ret result);
  _ ← vc_check result;
  r ← for_up 0 (size rhs) (combine_step rhs) (result, 0);
  _ ← vc_check r.1;
  _ ← vg_assert (size r.1 =? new_size);
  Ret r.1.

(** The index of [tid]. *)
Fixpoint find_thread (n : nat) (v : VectorClock) (i tid : Z) : outcome (option Z) :=
  match n with
  | O => Ret None
  | S n => x ← vc_get v i; if threadid x =? tid then Ret (Some i) else find_thread n v (i + 1) tid
  end.

(** [mem] is the memory of the local [vc2]. *)
Definition vc_increment (mem : list (option VCElem)) (v : VectorClock) (tid : Z) : outcome VectorClock :=
  i ← find_thread (Z.to_nat (size v)) v 0 tid;
  match i with
  | Some i =>
      x ← vc_get v i; v' ← vc_set v i (Elem (threadid x) (u32 (count x + 1)));
      y ← vc_get v' i; _ ← vg_assert (count x <? count y); Ret v'
  | None =>
      vc2 ← vc_init mem (Some [Some (Elem tid 1)]) 1;
      v' ← vc_combine v vc2; _ ← vc_cleanup vc2; Ret v'
  end.

Fixpoint lte_loop (n : nat) (vc1 vc2 : VectorClock) (i j : Z) : outcome bool :=
  match n with
  | O => Ret true
  | S n =>
      x ← vc_get vc1 i; j ← skip_to vc2 j (threadid x);
      if size vc2 <=? j then Ret false
      else
        y ← vc_get vc2 j;
        if threadid x <? threadid y then Ret false
        else if count y <? count x then Ret false
        else lte_loop n vc1 vc2 (i + 1) j
  end.

Definition vc_lte (vc1 vc2 : VectorClock) : outcome bool := lte_loop (Z.to_nat (size vc1)) vc1 vc2 0 0.

Definition vc_ordered (vc1 vc2 : VectorClock) : outcome bool :=
  b ← vc_lte vc1 vc2; if b : bool then Ret true else vc_lte vc2 vc1.

(** [while (i < result->size && result->vc[i].threadid < tid) {...}]: clears the
    counts it passes. *)
Fixpoint clear_below (fuel : nat) (v : VectorClock) (i tid : Z) : outcome (VectorClock * Z) :=
  if i <? size v then
    x ← vc_get v i;
    if threadid x <? tid then
      v ← vc_set v i (Elem (threadid x) 0);
      match fuel with O => Fault OutOfFuel | S fuel => clear_below fuel v (i + 1) tid end
    else Ret (v, i)
  else Ret (v, i).

Fixpoint min_loop (n : nat) (rhs result : VectorClock) (i j : Z) : outcome VectorClock :=
  match n with
  | O => Ret result
  | S n =>
      y ← vc_get rhs j; s ← clear_below (Z.to_nat (size result)) result i (threadid y);
      let '(result, i) := s in
      if size result <=? i then Ret result
      else
        x ← vc_get result i;
        result ← (if threadid x <=? threadid y then
                    _ ← vg_assert (threadid x =? threadid y);
                    if count y <? count x then vc_set result i (Elem (threadid x) (count y)) else Ret result
                  else Ret result);
        min_loop n rhs result i (j + 1)
  end.

Definition vc_min (result rhs : VectorClock) : outcome VectorClock :=
  _ ← vc_check result;
  result ← min_loop (Z.to_nat (size rhs)) rhs result 0 0;
  _ ← vc_check result;
  Ret result.

(** * The abstract clock *)

(** The count of a thread, if the clock has one. *)
Fixpoint clk (l : list VCElem) (t : Z) : option Z :=
  match l with [] => None | x :: l' => if decide (threadid x = t) then Some (count x) else clk l' t end.

Definition tids (l : list VCElem) : list Z := threadid <$> l.

Definition sorted (l : list VCElem) : Prop := StronglySorted Z.lt (tids l).

Definition counts_ok (l : list VCElem) : Prop := Forall (fun x => 0 <= count x <= UINT_MAX) l.

(** The pointer fits the capacity. *)
Definition ptr_ok (v : VectorClock) : Prop :=
  length (preallocated v) = Z.to_nat VC_PREALLOCATED ∧
  match vc v with
  | Null => capacity v = 0
  | Pre => 0 < capacity v <= VC_PREALLOCATED
  | Heap c => VC_PREALLOCATED < capacity v ∧ Z.of_nat (length c) = capacity v
  end.

(** [v] holds the elements [l], in thread id order. *)
Definition holds (v : VectorClock) (l : list VCElem) : Prop :=
  ptr_ok v ∧ size v = Z.of_nat (length l) ∧ size v <= capacity v <= UINT_MAX ∧
  (∃ rest, cells v = (Some <$> l) ++ rest) ∧ sorted l ∧ counts_ok l.

(** The number of elements at the front with a smaller thread id. *)
Fixpoint pos (tid : Z) (l : list VCElem) : nat :=
  match l with [] => 0%nat | x :: l' => if threadid x <? tid then S (pos tid l') else 0%nat end.

(** [y] inserted, or the maximum where its thread id is present. *)
Fixpoint upsert (l : list VCElem) (y : VCElem) : list VCElem :=
  match l with
  | [] => [y]
  | x :: l' =>
      if threadid x <? threadid y then x :: upsert l' y
      else if threadid y <? threadid x then y :: l
      else (if count x <? count y then Elem (threadid x) (count y) else x) :: l'
  end.

(** ** Pure lemmas *)

Lemma pos_le tid l : (pos tid l <= length l)%nat.
Proof. induction l as [|x l IH]; simpl; [done|]. case_bool; lia. Qed.

Lemma pos_below tid l i x : l !! i = Some x -> (i < pos tid l)%nat -> threadid x < tid.
Proof.
  revert i. induction l as [|z l IH]; intros [|i] Hl Hi; simpl in *; try done.
  - injection Hl as ->. destruct (Z.ltb_spec (threadid x) tid); [done|lia].
  - destruct (threadid z <? tid); [|lia]. apply (IH i); [done|lia].
Qed.

Lemma pos_at tid l x : l !! pos tid l = Some x -> tid <= threadid x.
Proof.
  induction l as [|z l IH]; simpl; [done|]. destruct (Z.ltb_spec (threadid z) tid); simpl; [done|]. by intros [= ->].
Qed.

Lemma pos_mono t t' l : t <= t' -> (pos t l <= pos t' l)%nat.
Proof.
  intros Ht. induction l as [|z l IH]; simpl; [done|].
  destruct (Z.ltb_spec (threadid z) t), (Z.ltb_spec (threadid z) t'); lia.
Qed.

Lemma pos_upsert l y : pos (threadid y) (upsert l y) = pos (threadid y) l.
Proof.
  induction l as [|z l IH]; simpl; [by rewrite Z.ltb_irrefl|].
  destruct (Z.ltb_spec (threadid z) (threadid y)) as [H1|H1]; simpl.
  - rewrite (proj2 (Z.ltb_lt _ _)) by done. by rewrite IH.
  - destruct (Z.ltb_spec (threadid y) (threadid z)) as [H2|H2]; simpl; [by rewrite Z.ltb_irrefl|].
    destruct (count z <? count y); simpl; by rewrite (proj2 (Z.ltb_ge _ _)).
Qed.

(** [upsert] in terms of the position. *)
Lemma upsert_at l y :
  upsert l y = take (pos (threadid y) l) l ++
    match l !! pos (threadid y) l with
    | None => [y]
    | Some x =>
        if threadid y <? threadid x then y :: drop (pos (threadid y) l) l
        else (if count x <? count y then Elem (threadid x) (count y) else x) :: drop (S (pos (threadid y) l)) l
    end.
Proof.
  induction l as [|x l IH]; simpl; [done|]. destruct (Z.ltb_spec (threadid x) (threadid y)); simpl; [by rewrite IH|].
  by rewrite drop_0.
Qed.

Lemma tids_sorted_cons x l : sorted (x :: l) <-> sorted l ∧ Forall (fun y => threadid x < threadid y) l.
Proof.
  unfold sorted, tids. simpl. split.
  - intros [H1 H2]%StronglySorted_inv. split; [done|]. by apply (Forall_fmap threadid (Z.lt (threadid x))) in H2.
  - intros [H1 H2]. constructor; [done|]. by apply (Forall_fmap threadid (Z.lt (threadid x))).
Qed.

Lemma sorted_lookup l i j x y :
  sorted l -> (i < j)%nat -> l !! i = Some x -> l !! j = Some y -> threadid x < threadid y.
Proof.
  revert i j. induction l as [|z l IH]; intros [|i] [|j] Hs Hij Hi Hj; try done; try lia.
  - injection Hi as ->. apply tids_sorted_cons in Hs as [_ Hz].
    simpl in Hj. apply list_elem_of_lookup_2 in Hj. rewrite Forall_forall in Hz. exact (Hz y Hj).
  - apply tids_sorted_cons in Hs as [Hs _]. simpl in *. apply (IH i j); (done || lia).
Qed.

Lemma clk_In l t c : clk l t = Some c -> ∃ x, x ∈ l ∧ threadid x = t ∧ count x = c.
Proof.
  induction l as [|x l IH]; simpl; [done|]. case_decide as E.
  - intros [= <-]. exists x. split; [by left|done].
  - intros (y & Hy & ? & ?)%IH. exists y. split; [by right|done].
Qed.

Lemma clk_None l t : clk l t = None <-> t ∉ tids l.
Proof.
  induction l as [|x l IH]; simpl; [split; [intros _; apply not_elem_of_nil|done]|].
  unfold tids in *. simpl. rewrite not_elem_of_cons. case_decide as E; [naive_solver|]. rewrite IH. naive_solver.
Qed.

Lemma clk_sorted l x : sorted l -> x ∈ l -> clk l (threadid x) = Some (count x).
Proof.
  induction l as [|z l IH]; intros Hs Hx; [by apply not_elem_of_nil in Hx|].
  apply tids_sorted_cons in Hs as [Hs Hz]. simpl. apply elem_of_cons in Hx as [->|Hx]; [by rewrite decide_True|].
  rewrite Forall_forall in Hz. pose proof (Hz x Hx) as Hlt. cbv beta in Hlt. rewrite decide_False by lia. by apply IH.
Qed.

Lemma clk_below l t : Forall (fun y => t < threadid y) l -> clk l t = None.
Proof.
  intros H. apply clk_None. unfold tids. intros (y & -> & Hy)%list_elem_of_fmap.
  rewrite Forall_forall in H. pose proof (H y Hy) as Hlt. cbv beta in Hlt. lia.
Qed.

Lemma clk_upsert l y t :
  sorted l ->
  clk (upsert l y) t =
    if decide (threadid y = t) then Some (match clk l t with Some c => Z.max c (count y) | None => count y end)
    else clk l t.
Proof.
  induction l as [|x l IH]; intros Hs; [done|]. apply tids_sorted_cons in Hs as [Hs Hx]. simpl.
  destruct (Z.ltb_spec (threadid x) (threadid y)) as [H1|H1].
  { simpl. rewrite IH by done. repeat case_decide; (done || lia). }
  destruct (Z.ltb_spec (threadid y) (threadid x)) as [H2|H2].
  { simpl. case_decide as Et; [|done]. rewrite decide_False by lia.
    rewrite clk_below; [done|]. subst t. eapply Forall_impl; [exact Hx|]. intros ? ?. cbv beta in *. lia. }
  destruct (Z.ltb_spec (count x) (count y)); simpl; repeat case_decide; try lia; (done || f_equal; lia).
Qed.

Lemma upsert_bound l y m :
  Forall (fun z => m < threadid z) l -> m < threadid y -> Forall (fun z => m < threadid z) (upsert l y).
Proof.
  intros Hl Hy. induction Hl as [|x l Hx Hl IH]; simpl; [by apply Forall_singleton|].
  repeat case_bool; rewrite ?Forall_cons; simpl; repeat split; (done || lia).
Qed.

Lemma upsert_sorted l y : sorted l -> sorted (upsert l y).
Proof.
  induction l as [|x l IH]; intros Hs; [apply tids_sorted_cons; split; [constructor|constructor]|].
  pose proof Hs as [Hs' Hx]%tids_sorted_cons. simpl.
  destruct (Z.ltb_spec (threadid x) (threadid y)) as [H1|H1].
  { apply tids_sorted_cons. split; [by apply IH|]. by apply upsert_bound. }
  destruct (Z.ltb_spec (threadid y) (threadid x)) as [H2|H2].
  { apply tids_sorted_cons. split; [done|]. constructor; [done|].
    eapply Forall_impl; [exact Hx|]. intros ? ?. cbv beta in *. lia. }
  apply tids_sorted_cons. split; [done|]. by destruct (count x <? count y).
Qed.

Lemma upsert_counts l y : counts_ok l -> 0 <= count y <= UINT_MAX -> counts_ok (upsert l y).
Proof.
  unfold counts_ok. intros Hl Hy. induction Hl as [|x l Hx Hl IH]; simpl; [by apply Forall_singleton|].
  repeat case_bool; rewrite ?Forall_cons; simpl; repeat split; (done || lia).
Qed.

Lemma upsert_tids l y t : t ∈ tids (upsert l y) <-> t = threadid y ∨ t ∈ tids l.
Proof.
  induction l as [|x l IH]; simpl; unfold tids in *; [set_solver|].
  destruct (Z.ltb_spec (threadid x) (threadid y)) as [H1|H1]; simpl; [set_solver|].
  destruct (Z.ltb_spec (threadid y) (threadid x)) as [H2|H2]; simpl; [set_solver|].
  assert (threadid x = threadid y) by lia. destruct (count x <? count y); simpl; set_solver.
Qed.

(** ** The memory of a clock *)

Lemma cells_length v l : holds v l -> capacity v <= Z.of_nat (length (cells v)).
Proof.
  intros ((Hp & Hv) & _). unfold cells, VC_PREALLOCATED in *. destruct (vc v); simpl; lia.
Qed.

Lemma holds_not_null v l : holds v l -> l ≠ [] -> is_null (vc v) = false.
Proof.
  intros (_ & _ & _ & (rest & Hc) & _) Hl. destruct (vc v) eqn:E; try done.
  unfold cells in Hc. rewrite E in Hc. by destruct l.
Qed.

Lemma cells_with v c : is_null (vc v) = false -> cells (with_cells v c) = c.
Proof. unfold cells, with_cells. by destruct (vc v) eqn:E. Qed.

Lemma holds_get v l i x : holds v l -> l !! i = Some x -> vc_get v (Z.of_nat i) = Ret x.
Proof.
  intros Hv Hl. unfold vc_get. rewrite (holds_not_null v l Hv) by (by intros ->).
  destruct Hv as (_ & _ & _ & (rest & ->) & _).
  rewrite (arr_get_Some _ _ (Some x)); [done|lia|]. rewrite Nat2Z.id.
  rewrite lookup_app_l by (rewrite length_fmap; by apply lookup_lt_Some in Hl). by rewrite list_lookup_fmap, Hl.
Qed.

(** New contents in the same memory. *)
Lemma holds_cells v l l' c rest :
  holds v l -> is_null (vc v) = false -> length c = length (cells v) -> c = (Some <$> l') ++ rest ->
  sorted l' -> counts_ok l' -> Z.of_nat (length l') <= capacity v ->
  holds (with_size (with_cells v c) (Z.of_nat (length l'))) l'.
Proof.
  intros ((Hp & Hv) & Hs & Hc & _ & _) Hn Hlen Hcl Hso Hco Hcap. unfold holds, ptr_ok, with_size, with_cells, cells in *.
  destruct (vc v); simpl in *; try done; (repeat split; try done; try lia; by eexists).
Qed.

Lemma with_size_same v : with_size v (size v) = v.
Proof. by destruct v. Qed.

Lemma size_with_cells v c : size (with_cells v c) = size v.
Proof. unfold with_cells. by destruct (vc v). Qed.

Lemma capacity_with_cells v c : capacity (with_cells v c) = capacity v.
Proof. unfold with_cells. by destruct (vc v). Qed.

Lemma null_with_cells v c : is_null (vc (with_cells v c)) = is_null (vc v).
Proof. unfold with_cells. by destruct (vc v) eqn:E; rewrite ?E. Qed.

Lemma with_cells_twice v c c' : with_cells (with_cells v c) c' = with_cells v c'.
Proof. unfold with_cells. by destruct (vc v) eqn:E; rewrite ?E. Qed.

Lemma vc_set_in v i x :
  is_null (vc v) = false -> 0 <= i < Z.of_nat (length (cells v)) ->
  vc_set v i x = Ret (with_cells v (<[Z.to_nat i := Some x]> (cells v))).
Proof. intros Hn Hi. unfold vc_set. by rewrite Hn, arr_set_in_range. Qed.

(** Overwriting one element. *)
Lemma holds_set v l i y :
  holds v l -> (i < length l)%nat -> sorted (<[i := y]> l) -> 0 <= count y <= UINT_MAX ->
  ∃ v', vc_set v (Z.of_nat i) y = Ret v' ∧ holds v' (<[i := y]> l) ∧ size v' = size v ∧ capacity v' = capacity v.
Proof.
  intros Hv Hi Hs Hy. pose proof (cells_length v l Hv). assert (Hn : is_null (vc v) = false)
    by (apply (holds_not_null v l Hv); intros ->; simpl in Hi; lia).
  pose proof Hv as (_ & Hsz & Hcap & (rest & Hc) & _ & Hco). rewrite vc_set_in by (done || lia).
  eexists. split; [done|]. rewrite Nat2Z.id. split; [|by rewrite size_with_cells, capacity_with_cells].
  rewrite <- (with_size_same (with_cells v _)), size_with_cells, Hsz, <- (length_insert l i y).
  apply (holds_cells v l _ _ rest Hv Hn); [by rewrite length_insert| |done| |rewrite length_insert; lia].
  - rewrite Hc, insert_app_l by (by rewrite length_fmap). by rewrite list_fmap_insert.
  - by apply Forall_insert.
Qed.

(** ** Searching *)

Lemma skip_ok v l tid fuel : ∀ i,
  holds v l -> (i <= pos tid l)%nat -> (pos tid l - i <= fuel)%nat ->
  skip fuel v (Z.of_nat i) tid = Ret (Z.of_nat (pos tid l)).
Proof.
  induction fuel as [|fuel IH]; intros i Hv Hi Hf; pose proof Hv as (_ & Hsz & _);
    pose proof (pos_le tid l); simpl; rewrite Hsz.
  - assert (i = pos tid l) as -> by lia. case_bool; [|done].
    destruct (lookup_lt_is_Some_2 l (pos tid l)) as [x Hx]; [lia|].
    rewrite (holds_get v l _ x) by done. cbn [mbind outcome_bind]. pose proof (pos_at tid l x Hx).
    by rewrite (proj2 (Z.ltb_ge _ _)).
  - destruct (Z.ltb_spec (Z.of_nat i) (Z.of_nat (length l))); [|f_equal; lia].
    destruct (lookup_lt_is_Some_2 l i) as [x Hx]; [lia|].
    rewrite (holds_get v l _ x) by done. cbn [mbind outcome_bind].
    destruct (decide (i < pos tid l)%nat) as [Hlt|Hge].
    + pose proof (pos_below tid l i x Hx Hlt). rewrite (proj2 (Z.ltb_lt _ _)) by done.
      replace (Z.of_nat i + 1) with (Z.of_nat (S i)) by lia. apply IH; [done|lia|lia].
    + assert (i = pos tid l) as -> by lia. pose proof (pos_at tid l x Hx). by rewrite (proj2 (Z.ltb_ge _ _)).
Qed.

Lemma skip_to_ok v l tid i :
  holds v l -> (i <= pos tid l)%nat -> skip_to v (Z.of_nat i) tid = Ret (Z.of_nat (pos tid l)).
Proof.
  intros Hv Hi. pose proof (pos_le tid l). pose proof Hv as (_ & Hsz & _). apply skip_ok; [done|done|]. lia.
Qed.

Lemma check_order_ok v l n i :
  holds v l -> (1 <= i)%nat -> (i + n <= length l)%nat -> check_order v n (Z.of_nat i) = Ret tt.
Proof.
  revert i. induction n as [|n IH]; intros i Hv Hi Hn; [done|]. cbn [check_order].
  destruct (lookup_lt_is_Some_2 l (i - 1)) as [x Hx]; [lia|]. destruct (lookup_lt_is_Some_2 l i) as [y Hy]; [lia|].
  replace (Z.of_nat i - 1) with (Z.of_nat (i - 1)) by lia. rewrite (holds_get v l (i - 1) x), (holds_get v l i y) by done.
  cbn [mbind outcome_bind]. rewrite vg_assert_true; [cbn [mbind outcome_bind];
    replace (Z.of_nat i + 1) with (Z.of_nat (S i)) by lia; apply IH; [done|lia|lia]|].
  apply Z.ltb_lt. destruct Hv as (_ & _ & _ & _ & Hs & _).
  apply (sorted_lookup l (i - 1) i x y); (done || lia).
Qed.

Lemma vc_check_ok v l : holds v l -> vc_check v = Ret tt.
Proof.
  intros Hv. pose proof Hv as (_ & Hsz & Hcap & _). unfold vc_check. rewrite vg_assert_true by lia.
  cbn [mbind outcome_bind]. destruct (decide (length l = 0%nat)) as [E|E].
  - replace (Z.to_nat (size v - 1)) with 0%nat by lia. done.
  - change 1 with (Z.of_nat 1). apply (check_order_ok v l); [done|lia|lia].
Qed.

(** ** Memory management *)

Lemma reserve_grows v l n :
  holds v l -> capacity v < n <= UINT_MAX -> ∃ v', vc_reserve v n = Ret v' ∧ holds v' l ∧ capacity v' = n.
Proof.
  intros ((Hp & Hv) & Hs & Hc & (rest & Hr) & Ho & Hco) Hn. unfold vc_reserve, cells in *.
  assert (0 <= size v) by lia. unfold VC_PREALLOCATED in *.
  destruct (vc v) as [| |c] eqn:E; cbn [is_null is_pre negb andb orb].
  - destruct l; [|done]. simpl in Hs. rewrite orb_true_r. cbn [orb vg_assert mbind outcome_bind].
    rewrite (proj2 (Z.ltb_lt (capacity v) n)) by lia. destruct (Z.ltb_spec 8 n).
    + rewrite vg_assert_true by lia. cbn [mbind outcome_bind vc is_null is_pre capacity negb].
      rewrite !vg_assert_true by lia. eexists. split; [done|]. split; [|done].
      repeat split; simpl; try lia; try done; [|by eexists]. unfold fresh. rewrite length_replicate. lia.
    + rewrite vg_assert_true by lia. cbn [mbind outcome_bind vc is_null is_pre capacity negb].
      rewrite !vg_assert_true by lia. eexists. split; [done|]. split; [|done].
      repeat split; simpl; try lia; try done. by eexists.
  - rewrite orb_true_r. cbn [vg_assert mbind outcome_bind]. rewrite (proj2 (Z.ltb_lt (capacity v) n)) by lia.
    rewrite (proj2 (Z.ltb_ge 8 (capacity v))) by lia. cbn [andb]. destruct (Z.ltb_spec 8 n).
    + rewrite vg_assert_true by lia. cbn [mbind outcome_bind vc is_null is_pre capacity negb].
      rewrite !vg_assert_true by lia. eexists. split; [done|]. split; [|done].
      repeat split; simpl; try lia; try done.
      * unfold fresh. rewrite length_app, length_take, length_replicate. lia.
      * unfold cells; simpl. rewrite Hr, take_app_ge by (rewrite length_fmap; lia). rewrite <- app_assoc. by eexists.
    + rewrite vg_assert_true by lia. cbn [mbind outcome_bind vc is_null is_pre capacity negb]. rewrite ?E. cbn [is_null is_pre negb].
      rewrite !vg_assert_true by lia. eexists. split; [done|]. split; [|done].
      repeat split; simpl; rewrite ?E; try lia; try done. unfold cells; simpl. rewrite ?E. by eexists.
  - rewrite !vg_assert_true by lia. cbn [mbind outcome_bind]. rewrite (proj2 (Z.ltb_lt (capacity v) n)) by lia.
    rewrite (proj2 (Z.ltb_lt 8 (capacity v))) by lia.
    cbn [mbind outcome_bind vc is_null is_pre capacity negb andb vg_assert]. rewrite !vg_assert_true by lia.
    eexists. split; [done|]. split; [|done]. repeat split; simpl; unfold VC_PREALLOCATED; try lia; try done.
    + unfold fresh. rewrite length_app, length_replicate. lia.
    + unfold cells; simpl. rewrite Hr, <- app_assoc. by eexists.
Qed.

Lemma cleanup_ok v l : holds v l -> vc_cleanup v = Ret (Clock 0 (size v) Null (preallocated v)).
Proof.
  intros ((Hp & Hv) & Hs & Hc & _). unfold vc_cleanup, vc_reserve, VC_PREALLOCATED in *.
  destruct v as [cap sz p pre]. simpl in *. rewrite (proj2 (Z.ltb_ge cap 0)) by lia.
  destruct p; cbn; try lia.
  - subst cap. done.
  - rewrite orb_true_r. done.
  - rewrite (proj2 (Z.ltb_lt 8 cap)) by lia. done.
Qed.

(** A new clock with the given elements. *)
Lemma init_ok mem l :
  length mem = Z.to_nat VC_PREALLOCATED -> sorted l -> counts_ok l -> Z.of_nat (length l) <= UINT_MAX ->
  ∃ v, (∀ rest, vc_init mem (Some ((Some <$> l) ++ rest)) (Z.of_nat (length l)) = Ret v) ∧ holds v l.
Proof.
  intros Hm Hs Hc Hl.
  assert (H0 : holds (Clock 0 0 Null mem) []).
  { repeat split; simpl; try done; [by exists []|constructor|constructor]. }
  destruct (decide (l = [])) as [->|Hne].
  { exists (Clock 0 0 Null mem). split; [|done]. intros rest. unfold vc_init. simpl.
    by rewrite (proj2 (Z.leb_le _ _)) by lia. }
  assert (0 < length l)%nat by (destruct l; simpl; [done|lia]).
  destruct (reserve_grows _ [] (Z.of_nat (length l)) H0) as (v & Hv & Hh & Hcap); [simpl; lia|].
  assert (Hn : is_null (vc v) = false).
  { destruct Hh as ((_ & Hp) & _). destruct (vc v); [lia|done|done]. }
  pose proof (cells_length v [] Hh).
  exists (with_size (with_cells v ((Some <$> l) ++ drop (length l) (cells v))) (Z.of_nat (length l))). split.
  - intros rest. unfold vc_init. rewrite Hv. cbn [mbind outcome_bind].
    rewrite vg_assert_true by (by rewrite Hn, orb_true_r). cbn [mbind outcome_bind].
    rewrite (proj2 (Z.leb_le _ _)) by (rewrite length_app, length_fmap; lia).
    rewrite Nat2Z.id, take_app_length' by (by rewrite length_fmap). done.
  - apply (holds_cells v [] l _ (drop (length l) (cells v))); try done; [|lia].
    rewrite length_app, length_fmap, length_drop. lia.
Qed.

(** ** One step of combining *)

Lemma shift_up_ok v l i :
  holds v l -> (i < length l)%nat -> Z.of_nat (length l) < capacity v ->
  ∃ c, shift_up v (Z.of_nat i) = Ret (with_cells v c) ∧ length c = length (cells v) ∧
    ∀ m, c !! m = if decide (i < m <= length l)%nat then cells v !! (m - 1)%nat else cells v !! m.
Proof.
  intros Hv Hi Hcap. pose proof (cells_length v l Hv) as Hcl.
  pose proof Hv as (_ & Hsz & _ & (rest & Hr) & _). assert (Hn : is_null (vc v) = false)
    by (apply (holds_not_null v l Hv); intros ->; simpl in Hi; lia).
  unfold shift_up. rewrite Hsz.
  destruct (for_down_inv (fun k v' => ∃ c, v' = with_cells v c ∧ length c = length (cells v) ∧
     ∀ m, c !! m = if decide (k <= Z.of_nat m <= Z.of_nat (length l)) then cells v !! (m - 1)%nat else cells v !! m)
     (Z.of_nat (length l) + 1) (Z.of_nat i + 1)
     (fun k v => x ← vc_get v (k - 1); vc_set v k x) v) as (v' & Hv' & c & -> & Hlen & Hm).
  - lia.
  - exists (cells v). split; [by destruct v as [? ? [] ?]|]. split; [done|]. intros m. rewrite decide_False by lia. done.
  - intros k v' Hk (c & -> & Hlen & Hm).
    destruct (lookup_lt_is_Some_2 l (Z.to_nat (k - 1))) as [x Hx]; [lia|].
    assert (Hcx : cells v !! Z.to_nat (k - 1) = Some (Some x)).
    { rewrite Hr, lookup_app_l by (rewrite length_fmap; lia). by rewrite list_lookup_fmap, Hx. }
    assert (vc_get (with_cells v c) (k - 1) = Ret x) as ->.
    { unfold vc_get. rewrite null_with_cells, Hn, cells_with by done. rewrite (arr_get_Some _ _ (Some x)); [done|lia|].
      rewrite Hm, decide_False by lia. done. }
    cbn [mbind outcome_bind]. rewrite vc_set_in; [|by rewrite null_with_cells|rewrite cells_with by done; lia].
    eexists. split; [done|]. rewrite cells_with, with_cells_twice by done. eexists. split; [done|].
    split; [by rewrite length_insert|]. intros m. destruct (decide (m = Z.to_nat k)) as [->|Hne].
    + rewrite list_lookup_insert_eq by lia. rewrite decide_True by lia. rewrite <- Hcx. f_equal. lia.
    + rewrite list_lookup_insert_ne by done. rewrite Hm.
      destruct (decide (k + 1 <= Z.of_nat m <= Z.of_nat (length l))), (decide (k <= Z.of_nat m <= Z.of_nat (length l)));
        (done || lia).
  - exists c. split; [done|]. split; [done|]. intros m. rewrite Hm.
    destruct (decide (Z.of_nat i + 1 <= Z.of_nat m <= Z.of_nat (length l))), (decide (i < m <= length l)%nat);
      (done || lia).
Qed.

Lemma with_cells_size v c n : with_cells (with_size v n) c = with_size (with_cells v c) n.
Proof. unfold with_cells, with_size. destruct v as [? ? [] ?]; done. Qed.

Lemma room_not_null v l : holds v l -> 0 < capacity v -> is_null (vc v) = false.
Proof. intros ((_ & Hp) & _) Hc. destruct (vc v); [lia|done|done]. Qed.

Lemma append_ok v l y :
  holds v l -> Z.of_nat (length l) < capacity v -> sorted (l ++ [y]) -> 0 <= count y <= UINT_MAX ->
  ∃ v', vc_set (with_size v (u32 (size v + 1))) (Z.of_nat (length l)) y = Ret v' ∧ holds v' (l ++ [y]) ∧
    capacity v' = capacity v.
Proof.
  intros Hv Hcap Hs Hy. pose proof (cells_length v l Hv). pose proof (room_not_null v l Hv ltac:(lia)) as Hn.
  pose proof Hv as (_ & Hsz & Hc & (rest & Hr) & _ & Hco). unfold UINT_MAX in *.
  rewrite vc_set_in by (done || (simpl; unfold cells, with_size in *; simpl; lia)).
  eexists. split; [done|]. rewrite with_cells_size, Nat2Z.id.
  unfold u32. rewrite wrap_small, Hsz by lia. split; [|simpl; by rewrite capacity_with_cells].
  replace (Z.of_nat (length l) + 1) with (Z.of_nat (length (l ++ [y]))) by (rewrite length_app; simpl; lia).
  change (cells (with_size v _)) with (cells v).
  apply (holds_cells v l _ _ (tail rest)); try done; [by rewrite length_insert| | |rewrite length_app; simpl; lia].
  - rewrite Hr, insert_app_r_alt by (by rewrite length_fmap). rewrite length_fmap, Nat.sub_diag.
    destruct rest as [|r0 rest]; [|by rewrite fmap_app, <- app_assoc].
    rewrite Hr, app_nil_r, length_fmap in *. lia.
  - apply Forall_app. split; [done|]. by apply Forall_singleton.
Qed.

(** The contents after the shift and the write. *)
Lemma shifted_cells (c c' rest : list (option VCElem)) (l : list VCElem) r0 y i :
  c = (Some <$> l) ++ r0 :: rest -> (i < length l)%nat -> length c' = length c ->
  (∀ m, c' !! m = if decide (i < m <= length l)%nat then c !! (m - 1)%nat else c !! m) ->
  <[i := Some y]> c' = (Some <$> (take i l ++ y :: drop i l)) ++ rest.
Proof.
  intros -> Hi Hlen Hm. assert (length (Some <$> l) = length l) as Hf by apply length_fmap.
  rewrite fmap_app, fmap_cons, fmap_take, fmap_drop, <- app_assoc. cbn [app].
  apply list_eq. intros m. destruct (decide (m = i)) as [->|Hne].
  { rewrite list_lookup_insert_eq by (rewrite Hlen, length_app; lia).
    rewrite lookup_app_r, length_take, Hf by (rewrite length_take; lia).
    by replace (i - i `min` length l)%nat with 0%nat by lia. }
  rewrite list_lookup_insert_ne, Hm by done. destruct (decide (m < i)%nat).
  { rewrite decide_False by lia. rewrite !lookup_app_l by (rewrite ?length_take; lia). by rewrite lookup_take_lt. }
  rewrite (lookup_app_r (take _ _)), length_take, Nat.min_l by (rewrite ?length_take; lia).
  destruct (m - i)%nat as [|k] eqn:Ek; [lia|]. rewrite lookup_cons. destruct (decide (i < m <= length l)%nat).
  - rewrite !lookup_app_l by (rewrite ?length_drop; lia). rewrite lookup_drop. f_equal. lia.
  - rewrite !lookup_app_r by (rewrite ?length_drop; lia). rewrite length_drop, Hf.
    destruct (m - length l)%nat as [|k'] eqn:Ek'; [lia|]. rewrite lookup_cons. f_equal. lia.
Qed.

Lemma insert_ok v l y i :
  holds v l -> Z.of_nat (length l) < capacity v -> (i < length l)%nat -> sorted (take i l ++ y :: drop i l) ->
  0 <= count y <= UINT_MAX ->
  ∃ v', (r ← shift_up v (Z.of_nat i); vc_set (with_size r (u32 (size r + 1))) (Z.of_nat i) y) = Ret v' ∧
    holds v' (take i l ++ y :: drop i l) ∧ capacity v' = capacity v.
Proof.
  intros Hv Hcap Hi Hs Hy. pose proof (cells_length v l Hv). pose proof (room_not_null v l Hv ltac:(lia)) as Hn.
  pose proof Hv as (_ & Hsz & Hc & (rest & Hr) & _ & Hco). unfold UINT_MAX in *.
  destruct (shift_up_ok v l i Hv Hi Hcap) as (c & -> & Hlen & Hm). cbn [mbind outcome_bind].
  rewrite vc_set_in; [|by destruct v as [? ? [] ?]|change (cells (with_size ?a _)) with (cells a); rewrite cells_with by done; lia].
  eexists. split; [done|]. change (cells (with_size ?a _)) with (cells a). rewrite cells_with by done.
  rewrite with_cells_size, with_cells_twice, size_with_cells, Nat2Z.id. unfold u32. rewrite wrap_small, Hsz by lia.
  split; [|simpl; by rewrite capacity_with_cells].
  assert (Hl : length (take i l ++ y :: drop i l) = S (length l))
    by (rewrite length_app, length_take; cbn [length]; rewrite length_drop; lia).
  replace (Z.of_nat (length l) + 1) with (Z.of_nat (length (take i l ++ y :: drop i l))) by lia.
  apply (holds_cells v l _ _ (tail rest)); try done; [by rewrite length_insert| | |lia].
  - destruct rest as [|r0 rest]; [rewrite Hr, app_nil_r, length_fmap in *; lia|].
    by apply (shifted_cells (cells v) c rest l r0 y i).
  - apply Forall_app. split; [by apply Forall_take|]. constructor; [done|by apply Forall_drop].
Qed.

Lemma combine_step_ok v w l r j i y :
  holds v l -> holds w r -> r !! j = Some y -> (i <= pos (threadid y) l)%nat ->
  Z.of_nat (length (upsert l y)) <= capacity v ->
  ∃ v', combine_step w (Z.of_nat j) (v, Z.of_nat i) = Ret (v', Z.of_nat (pos (threadid y) l)) ∧
    holds v' (upsert l y) ∧ capacity v' = capacity v.
Proof.
  intros Hv Hw Hj Hi Hcap. pose proof Hv as (_ & Hsz & Hc & _ & Hs & _).
  assert (Hy : 0 <= count y <= UINT_MAX) by (destruct Hw as (_ & _ & _ & _ & _ & Hw); exact (Forall_lookup_1 _ _ _ _ Hw Hj)).
  pose proof (upsert_sorted l y Hs) as Hs'. rewrite upsert_at in *. set (p := pos (threadid y) l) in *.
  assert (Hp : (p <= length l)%nat) by apply pos_le.
  unfold combine_step. rewrite (holds_get w r j y) by done. cbn [mbind outcome_bind].
  rewrite (skip_to_ok v l _ i) by done. fold p. cbn [mbind outcome_bind]. rewrite Hsz.
  destruct (l !! p) as [x|] eqn:Ex.
  - assert (p < length l)%nat by (by apply lookup_lt_Some in Ex). rewrite (proj2 (Z.leb_gt _ _)) by lia.
    rewrite (holds_get v l p x) by done. cbn [mbind outcome_bind].
    destruct (Z.ltb_spec (threadid y) (threadid x)) as [Hlt|Hge].
    + destruct (insert_ok v l y p) as (v' & He & Hh & Hc'); try done.
      { rewrite length_app, length_take in Hcap. cbn [length] in Hcap. rewrite length_drop in Hcap. lia. }
      destruct (shift_up v (Z.of_nat p)) as [v1|]; [|done]. cbn [mbind outcome_bind] in *. rewrite He. by exists v'.
    + pose proof (pos_at (threadid y) l x Ex). rewrite vg_assert_true by lia. cbn [mbind outcome_bind].
      destruct (count x <? count y).
      * rewrite <- insert_take_drop in * by done.
        destruct (holds_set v l p (Elem (threadid x) (count y))) as (v' & -> & Hh & _ & Hc'); try done. by exists v'.
      * exists v. by rewrite take_drop_middle.
  - apply lookup_ge_None_1 in Ex. assert (p = length l) as -> by lia. rewrite (proj2 (Z.leb_le _ _)) by lia.
    rewrite take_ge in * by done. rewrite <- Hsz. destruct (append_ok v l y) as (v' & He & Hh & Hc'); try done.
    { rewrite length_app in Hcap. simpl in Hcap. lia. }
    rewrite Hsz in *. rewrite He. by exists v'.
Qed.

(** ** Combining *)

Definition merge (l r : list VCElem) : list VCElem := foldl upsert l r.

Lemma upsert_length l y : (length l <= length (upsert l y))%nat.
Proof. induction l as [|x l IH]; simpl; [lia|]. repeat case_bool; simpl; lia. Qed.

Lemma merge_grows l r : (length l <= length (merge l r))%nat.
Proof.
  revert l. induction r as [|y r IH]; intros l; simpl; [done|]. pose proof (upsert_length l y).
  specialize (IH (upsert l y)). unfold merge in *. lia.
Qed.

Lemma merge_sorted l r : sorted l -> sorted (merge l r).
Proof. revert l. induction r as [|y r IH]; intros l Hl; [done|]. by apply IH, upsert_sorted. Qed.

Lemma merge_tids l r t : t ∈ tids (merge l r) <-> t ∈ tids l ∨ t ∈ tids r.
Proof.
  revert l. induction r as [|y r IH]; intros l; simpl; [unfold tids; simpl; set_solver|].
  unfold merge in *. rewrite IH, upsert_tids. unfold tids. simpl. rewrite elem_of_cons. tauto.
Qed.

(** The pointwise maximum. *)
Definition join (a b : option Z) : option Z := union_with (fun x y => Some (Z.max x y)) a b.

Lemma clk_merge l r t : sorted l -> sorted r -> clk (merge l r) t = join (clk l t) (clk r t).
Proof.
  revert l. induction r as [|y r IH]; intros l Hl Hr; [cbn; by destruct (clk l t)|].
  apply tids_sorted_cons in Hr as [Hr Hy]. unfold merge in *. simpl. rewrite IH by (done || by apply upsert_sorted).
  rewrite clk_upsert by done. destruct (decide (threadid y = t)) as [<-|]; [|done].
  rewrite (clk_below r) by done. by destruct (clk l (threadid y)).
Qed.

Lemma sorted_NoDup l : sorted l -> NoDup (tids l).
Proof.
  induction l as [|x l IH]; intros Hs; [constructor|]. apply tids_sorted_cons in Hs as [Hs Hx]. constructor; [|by apply IH].
  change (threadid x ∉ tids l). apply clk_None, clk_below. done.
Qed.

Lemma tids_size l : sorted l -> length l = base.size (list_to_set (C := gset Z) (tids l)).
Proof. intros Hs. rewrite size_list_to_set by (by apply sorted_NoDup). unfold tids. by rewrite length_fmap. Qed.

(** The elements of [l] whose thread [r] has, too. *)
Definition common (l r : list VCElem) : list VCElem := filter (fun x => threadid x ∈ tids r) l.

Lemma pos_end l t : sorted l -> pos t l = length l -> ∀ t', t <= t' -> t' ∉ tids l.
Proof.
  intros Hs Hp t' Ht. unfold tids. intros (x & -> & (i & Hi)%list_elem_of_lookup)%list_elem_of_fmap.
  assert (threadid x < t); [|lia]. apply (pos_below t l i x Hi). rewrite Hp. by apply lookup_lt_Some in Hi.
Qed.

(** Where a thread id is, if anywhere. *)
Lemma pos_found l t x : sorted l -> l !! pos t l = Some x -> t ∈ tids l <-> threadid x = t.
Proof.
  intros Hs Hx. pose proof (pos_at t l x Hx) as Hle. split.
  - unfold tids. intros (y & -> & (i & Hi)%list_elem_of_lookup)%list_elem_of_fmap.
    destruct (decide (i < pos (threadid y) l)%nat) as [Hlt|Hge].
    { pose proof (pos_below _ l i y Hi Hlt). lia. }
    destruct (decide (i = pos (threadid y) l)) as [E|]; [rewrite <- E, Hi in Hx; by injection Hx as ->|].
    pose proof (sorted_lookup l (pos (threadid y) l) i x y Hs ltac:(lia) Hx Hi). lia.
  - intros <-. unfold tids. apply list_elem_of_fmap_2. by apply list_elem_of_lookup_2 in Hx.
Qed.

Lemma filter_none (P : VCElem -> Prop) `{∀ x, Decision (P x)} l : (∀ x, x ∈ l -> ¬ P x) -> filter P l = [].
Proof.
  induction l as [|x l IH]; intros Hn; [done|]. rewrite filter_cons_False by (apply Hn; by left).
  apply IH. intros y Hy. apply Hn. by right.
Qed.

Lemma count_shared_ok v w r l2 : ∀ l1 j shared,
  holds v (l1 ++ l2) -> holds w r -> (∀ x, x ∈ l2 -> (j <= pos (threadid x) r)%nat) ->
  count_shared (length l2) v w (Z.of_nat (length l1)) (Z.of_nat j) shared =
    Ret (shared + Z.of_nat (length (common l2 r))).
Proof.
  induction l2 as [|x l2 IH]; intros l1 j shared Hv Hw Hj; [simpl; f_equal; lia|].
  assert (Hx : (l1 ++ x :: l2) !! length l1 = Some x) by (by rewrite lookup_app_r, Nat.sub_diag).
  cbn [count_shared length]. rewrite (holds_get v _ _ x Hv Hx). cbn [mbind outcome_bind].
  rewrite (skip_to_ok w r) by (done || (apply Hj; by left)). cbn [mbind outcome_bind].
  pose proof Hw as (_ & Hsz & _ & _ & Hr & _). pose proof Hv as (_ & _ & _ & _ & Hs & _).
  assert (Hafter : ∀ x', x' ∈ l2 -> threadid x <= threadid x').
  { intros x' (k & Hk)%list_elem_of_lookup. apply Z.lt_le_incl.
    apply (sorted_lookup (l1 ++ x :: l2) (length l1) (length l1 + S k)); [done|lia|done|].
    rewrite lookup_app_r by lia. by replace (length l1 + S k - length l1)%nat with (S k) by lia. }
  pose proof (pos_le (threadid x) r). rewrite Hsz. destruct (Z.leb_spec (Z.of_nat (length r)) (Z.of_nat (pos (threadid x) r))).
  - unfold common. rewrite filter_none; [simpl; f_equal; lia|]. intros x' Hx'.
    apply (pos_end r (threadid x)); [done|lia|]. apply elem_of_cons in Hx' as [->|Hx']; [lia|by apply Hafter].
  - destruct (lookup_lt_is_Some_2 r (pos (threadid x) r)) as [y Hy]; [lia|].
    rewrite (holds_get w r _ y Hw Hy). cbn [mbind outcome_bind].
    replace (Z.of_nat (length l1) + 1) with (Z.of_nat (length (l1 ++ [x]))) by (rewrite length_app; simpl; lia).
    rewrite IH; [|by rewrite <- app_assoc|done|intros x' Hx'; by apply pos_mono, Hafter].
    pose proof (pos_found r (threadid x) y Hr Hy) as Hfound. unfold common.
    destruct (Z.eqb_spec (threadid x) (threadid y)) as [E|E].
    + rewrite (filter_cons_True _ x) by (apply Hfound; done). cbn [length]. f_equal. lia.
    + by rewrite (filter_cons_False _ x) by (intros ?%Hfound; done).
Qed.

(** What the assertion at the end of [vc_combine] relies on. *)
Lemma common_tids l r t : t ∈ tids (common l r) <-> t ∈ tids l ∧ t ∈ tids r.
Proof.
  unfold common, tids. rewrite !list_elem_of_fmap. setoid_rewrite list_elem_of_filter. split.
  - intros (x & -> & Hx & Hl). split; [by exists x|]. unfold tids in Hx. by apply list_elem_of_fmap in Hx.
  - intros ((x & -> & Hx) & Hr). exists x. split; [done|]. split; [|done]. unfold tids. by apply list_elem_of_fmap.
Qed.

Lemma common_sorted l r : sorted l -> sorted (common l r).
Proof.
  induction l as [|x l IH]; intros Hs; [done|]. apply tids_sorted_cons in Hs as [Hs Hx]. unfold common in *.
  destruct (decide (threadid x ∈ tids r)); [rewrite filter_cons_True by done|rewrite filter_cons_False by done; by apply IH].
  apply tids_sorted_cons. split; [by apply IH|]. rewrite Forall_forall in *. intros y [_ Hy]%list_elem_of_filter. by apply Hx.
Qed.

Lemma merge_size l r :
  sorted l -> sorted r -> (length (merge l r) + length (common l r) = length l + length r)%nat.
Proof.
  intros Hl Hr. rewrite !tids_size by (done || by apply merge_sorted || by apply common_sorted).
  set (L := list_to_set (C := gset Z) (tids l)). set (R := list_to_set (C := gset Z) (tids r)).
  assert (list_to_set (C := gset Z) (tids (merge l r)) = L ∪ R) as ->.
  { apply set_eq. intros t. unfold L, R. rewrite elem_of_union, !elem_of_list_to_set. apply merge_tids. }
  assert (list_to_set (C := gset Z) (tids (common l r)) = L ∩ R) as ->.
  { apply set_eq. intros t. unfold L, R. rewrite elem_of_intersection, !elem_of_list_to_set. apply common_tids. }
  rewrite size_union_alt, size_difference_alt.
  assert (base.size (R ∩ L) <= base.size R)%nat by (apply subseteq_size; set_solver).
  rewrite (intersection_comm_L R L) in *. lia.
Qed.

Lemma combine_loop_ok w r2 : ∀ r1 l v i,
  holds w (r1 ++ r2) -> holds v l -> (∀ y, y ∈ r2 -> (i <= pos (threadid y) l)%nat) ->
  Z.of_nat (length (merge l r2)) <= capacity v ->
  ∃ v' i', for_up (Z.of_nat (length r1)) (Z.of_nat (length (r1 ++ r2))) (combine_step w) (v, Z.of_nat i) =
      Ret (v', i') ∧ holds v' (merge l r2).
Proof.
  induction r2 as [|y r2 IH]; intros r1 l v i Hw Hv Hi Hcap.
  { exists v, (Z.of_nat i). rewrite app_nil_r, for_up_empty by lia. done. }
  assert (Hy : (r1 ++ y :: r2) !! length r1 = Some y) by (by rewrite lookup_app_r, Nat.sub_diag).
  rewrite for_up_step by (rewrite length_app; simpl; lia).
  pose proof (merge_grows (upsert l y) r2) as Hlen. change (merge l (y :: r2)) with (merge (upsert l y) r2) in *.
  destruct (combine_step_ok v w l (r1 ++ y :: r2) (length r1) i y Hv Hw Hy) as (v1 & -> & Hv1 & Hc1);
    [apply Hi; by left|lia|]. cbn [mbind outcome_bind].
  replace (Z.of_nat (length r1) + 1) with (Z.of_nat (length (r1 ++ [y]))) by (rewrite length_app; simpl; lia).
  rewrite (cons_middle y r1 r2), app_assoc in *. apply IH; [done|done| |by rewrite Hc1].
  intros y' (k & Hk)%list_elem_of_lookup. rewrite <- pos_upsert. apply pos_mono. apply Z.lt_le_incl.
  pose proof Hw as (_ & _ & _ & _ & Hs & _).
  apply (sorted_lookup ((r1 ++ [y]) ++ r2) (length r1) (length (r1 ++ [y]) + k)); [done|rewrite length_app; simpl; lia| |].
  - done.
  - rewrite lookup_app_r by lia. by replace (length (r1 ++ [y]) + k - length (r1 ++ [y]))%nat with k by lia.
Qed.

Lemma combine_ok v w l r :
  holds v l -> holds w r -> Z.of_nat (length l + length r) <= UINT_MAX ->
  ∃ v', vc_combine v w = Ret v' ∧ holds v' (merge l r).
Proof.
  intros Hv Hw Hmax. pose proof Hv as (_ & Hsz & Hc & _ & Hs & _). pose proof Hw as (_ & Hwz & _ & _ & Hr & _).
  pose proof (merge_size l r Hs Hr) as Hms.
  unfold vc_combine. rewrite Hsz, Nat2Z.id.
  pose proof (count_shared_ok v w r l [] 0 0 Hv Hw ltac:(intros; lia)) as Hsh. change (Z.of_nat (length [])) with 0 in Hsh. change (Z.of_nat 0) with 0 in Hsh.
  rewrite Hsh. cbn [mbind outcome_bind].
  rewrite (vc_check_ok v l Hv). cbn [mbind outcome_bind]. rewrite Hwz.
  replace (u32 _) with (Z.of_nat (length (merge l r)))
    by (unfold u32, UINT_MAX in *; rewrite wrap_small; lia).
  assert (Hv1 : ∃ v1, (if capacity v <? Z.of_nat (length (merge l r)) then vc_reserve v (Z.of_nat (length (merge l r)))
                       else Ret v) = Ret v1 ∧ holds v1 l ∧ Z.of_nat (length (merge l r)) <= capacity v1).
  { case_bool; [|by exists v]. destruct (reserve_grows v l (Z.of_nat (length (merge l r)))) as (v1 & ? & ? & ?);
      [done|lia|exists v1; split; [done|split; [done|lia]]]. }
  destruct Hv1 as (v1 & -> & Hv1 & Hcap). cbn [mbind outcome_bind]. rewrite (vc_check_ok v1 l Hv1). cbn [mbind outcome_bind].
  destruct (combine_loop_ok w r [] l v1 0) as (v2 & i & He & Hv2); [done|done|intros; lia|done|].
  change (Z.of_nat (length [])) with 0 in He. change (Z.of_nat 0) with 0 in He. cbn [app] in He. rewrite He. cbn [mbind outcome_bind fst].
  rewrite (vc_check_ok v2 _ Hv2). cbn [mbind outcome_bind]. pose proof Hv2 as (_ & Hv2s & _).
  rewrite vg_assert_true by lia. by exists v2.
Qed.

(** ** Incrementing *)

Lemma find_thread_ok v l2 tid : ∀ l1,
  holds v (l1 ++ l2) -> (∀ x, x ∈ l1 -> threadid x ≠ tid) ->
  ∃ r, find_thread (length l2) v (Z.of_nat (length l1)) tid = Ret r ∧
    match r with
    | Some i => ∃ k x, i = Z.of_nat k ∧ (l1 ++ l2) !! k = Some x ∧ threadid x = tid
    | None => tid ∉ tids (l1 ++ l2)
    end.
Proof.
  induction l2 as [|x l2 IH]; intros l1 Hv Hl1; cbn [find_thread length].
  { exists None. split; [done|]. rewrite app_nil_r. unfold tids. intros (x & -> & Hx)%list_elem_of_fmap.
    by apply (Hl1 x). }
  assert (Hx : (l1 ++ x :: l2) !! length l1 = Some x) by (by rewrite lookup_app_r, Nat.sub_diag).
  rewrite (holds_get v _ _ x Hv Hx). cbn [mbind outcome_bind]. destruct (Z.eqb_spec (threadid x) tid) as [E|E].
  { exists (Some (Z.of_nat (length l1))). split; [done|]. by exists (length l1), x. }
  replace (Z.of_nat (length l1) + 1) with (Z.of_nat (length (l1 ++ [x]))) by (rewrite length_app; simpl; lia).
  rewrite (cons_middle x l1 l2), app_assoc in *. apply IH; [done|].
  intros y [Hy| ->%list_elem_of_singleton]%elem_of_app; [by apply Hl1|done].
Qed.

(** Replacing a count keeps the order. *)
Lemma set_count_sorted l k x c :
  sorted l -> l !! k = Some x -> sorted (<[k := Elem (threadid x) c]> l).
Proof.
  intros Hs Hx. unfold sorted, tids. rewrite list_fmap_insert. simpl.
  rewrite list_insert_id; [done|]. by rewrite list_lookup_fmap, Hx.
Qed.

Lemma clk_set_count l k x c t :
  sorted l -> l !! k = Some x ->
  clk (<[k := Elem (threadid x) c]> l) t = if decide (threadid x = t) then Some c else clk l t.
Proof.
  revert k. induction l as [|y l IH]; intros [|k] Hs Hx; try done; simpl in *.
  - injection Hx as ->. by case_decide.
  - apply tids_sorted_cons in Hs as [Hs Hy]. rewrite (IH k) by done. apply list_elem_of_lookup_2 in Hx.
    rewrite Forall_forall in Hy. pose proof (Hy x Hx) as Hlt. cbv beta in Hlt. repeat case_decide; (done || lia).
Qed.

Lemma increment_ok mem v l tid :
  length mem = Z.to_nat VC_PREALLOCATED -> holds v l -> Z.of_nat (length l) < UINT_MAX ->
  match clk l tid with
  | Some c =>
      if decide (c = UINT_MAX) then vc_increment mem v tid = Fault AssertFail
      else ∃ v' l', vc_increment mem v tid = Ret v' ∧ holds v' l' ∧
             ∀ t, clk l' t = if decide (t = tid) then Some (c + 1) else clk l t
  | None =>
      ∃ v' l', vc_increment mem v tid = Ret v' ∧ holds v' l' ∧
        ∀ t, clk l' t = if decide (t = tid) then Some 1 else clk l t
  end.
Proof.
  intros Hm Hv Hmax. pose proof Hv as (_ & Hsz & _ & _ & Hs & Hco). unfold vc_increment. rewrite Hsz, Nat2Z.id.
  destruct (find_thread_ok v l tid []) as (r & Hf & Hr); [done|intros x []%not_elem_of_nil|].
  change (Z.of_nat (length [])) with 0 in Hf. rewrite Hf. cbn [mbind outcome_bind]. cbn [app] in Hr.
  destruct r as [i|].
  - destruct Hr as (k & x & -> & Hx & <-). rewrite (clk_sorted l x) by (done || by apply list_elem_of_lookup_2 in Hx).
    pose proof (Forall_lookup_1 _ _ _ _ Hco Hx) as Hcx. cbv beta in Hcx.
    rewrite (holds_get v l k x Hv Hx). cbn [mbind outcome_bind].
    destruct (holds_set v l k (Elem (threadid x) (u32 (count x + 1)))) as (v' & -> & Hv' & _);
      [done|by apply lookup_lt_Some in Hx|by apply set_count_sorted|cbn [count]; pose proof (wrap_range 32 (count x + 1)); unfold u32, UINT_MAX; lia|].
    cbn [mbind outcome_bind]. rewrite (holds_get v' _ k (Elem (threadid x) (u32 (count x + 1))) Hv')
      by (apply list_lookup_insert_eq; by apply lookup_lt_Some in Hx).
    cbn [mbind outcome_bind count]. unfold UINT_MAX in *. case_decide as E.
    + rewrite E. done.
    + unfold u32. rewrite wrap_small in * by lia. rewrite vg_assert_true by lia.
      eexists _, _. split; [done|]. split; [exact Hv'|]. intros t. unfold u32. rewrite wrap_small by lia.
      rewrite clk_set_count by done. repeat case_decide; congruence.
  - assert (Hnone : clk l tid = None) by (by apply clk_None). rewrite Hnone.
    destruct (init_ok mem [Elem tid 1]) as (v2 & Hi & Hv2);
      [done|apply tids_sorted_cons; split; [constructor|done]|apply Forall_singleton; unfold UINT_MAX; simpl; lia|unfold UINT_MAX; simpl; lia|].
    specialize (Hi []). cbn [fmap list_fmap app] in Hi. change (Z.of_nat (length [Elem tid 1])) with 1 in Hi.
    rewrite Hi. cbn [mbind outcome_bind].
    destruct (combine_ok v v2 l [Elem tid 1]) as (v' & -> & Hv'); [done|done|cbn [length]; lia|]. cbn [mbind outcome_bind].
    rewrite (cleanup_ok v2 _ Hv2). cbn [mbind outcome_bind]. eexists _, _. split; [done|]. split; [exact Hv'|].
    intros t. cbn [merge foldl]. unfold merge. cbn [foldl]. rewrite clk_upsert by done. cbn [threadid count].
    repeat case_decide; subst; rewrite ?Hnone; (done || congruence).
Qed.

(** ** Comparing *)

Definition le_in (r : list VCElem) (x : VCElem) : bool :=
  match clk r (threadid x) with Some c => count x <=? c | None => false end.

Lemma lte_loop_ok v w r l2 : ∀ l1 j,
  holds v (l1 ++ l2) -> holds w r -> (∀ x, x ∈ l2 -> (j <= pos (threadid x) r)%nat) ->
  lte_loop (length l2) v w (Z.of_nat (length l1)) (Z.of_nat j) = Ret (forallb (le_in r) l2).
Proof.
  induction l2 as [|x l2 IH]; intros l1 j Hv Hw Hj; [done|].
  assert (Hx : (l1 ++ x :: l2) !! length l1 = Some x) by (by rewrite lookup_app_r, Nat.sub_diag).
  cbn [lte_loop length forallb]. rewrite (holds_get v _ _ x Hv Hx). cbn [mbind outcome_bind].
  rewrite (skip_to_ok w r) by (done || (apply Hj; by left)). cbn [mbind outcome_bind].
  pose proof Hw as (_ & Hsz & _ & _ & Hr & _). pose proof Hv as (_ & _ & _ & _ & Hs & _).
  pose proof (pos_le (threadid x) r). rewrite Hsz. unfold le_in at 1.
  destruct (Z.leb_spec (Z.of_nat (length r)) (Z.of_nat (pos (threadid x) r))).
  { by rewrite (proj2 (clk_None r _)) by (apply (pos_end r (threadid x)); (done || lia)). }
  destruct (lookup_lt_is_Some_2 r (pos (threadid x) r)) as [y Hy]; [lia|].
  rewrite (holds_get w r _ y Hw Hy). cbn [mbind outcome_bind]. pose proof (pos_found r (threadid x) y Hr Hy) as Hfound.
  pose proof (pos_at (threadid x) r y Hy). destruct (Z.ltb_spec (threadid x) (threadid y)).
  { rewrite (proj2 (clk_None r _)); [done|]. intros ?%Hfound. lia. }
  assert (threadid x = threadid y) as E by lia. rewrite E, (clk_sorted r y) by (done || by apply list_elem_of_lookup_2 in Hy).
  destruct (Z.ltb_spec (count y) (count x)), (Z.leb_spec (count x) (count y)); try lia; cbn [andb]; [done|].
  replace (Z.of_nat (length l1) + 1) with (Z.of_nat (length (l1 ++ [x]))) by (rewrite length_app; simpl; lia).
  rewrite <- E. apply IH; [by rewrite <- app_assoc|done|]. intros x' (k & Hk)%list_elem_of_lookup.
  apply pos_mono, Z.lt_le_incl. apply (sorted_lookup (l1 ++ x :: l2) (length l1) (length l1 + S k)); [done|lia|done|].
  rewrite lookup_app_r by lia. by replace (length l1 + S k - length l1)%nat with (S k) by lia.
Qed.

(** Every thread of the first clock is in the second with at least its count. *)
Definition clock_le (l r : list VCElem) : Prop :=
  ∀ t c, clk l t = Some c -> ∃ c', clk r t = Some c' ∧ c <= c'.

Lemma forallb_clock_le l r : sorted l -> forallb (le_in r) l = true <-> clock_le l r.
Proof.
  intros Hs. rewrite forallb_forall. unfold clock_le, le_in. split.
  - intros H t c (x & Hx & <- & <-)%clk_In. specialize (H x (proj1 (list_elem_of_In _ _) Hx)). cbv beta in H.
    destruct (clk r (threadid x)) as [c'|]; [|done]. exists c'. split; [done|]. by apply Z.leb_le.
  - intros H x Hx%list_elem_of_In. destruct (H (threadid x) (count x)) as (c' & -> & Hc); [by apply clk_sorted|].
    by apply Z.leb_le.
Qed.

Lemma lte_ok v w l r : holds v l -> holds w r -> ∃ b, vc_lte v w = Ret b ∧ (b = true <-> clock_le l r).
Proof.
  intros Hv Hw. pose proof Hv as (_ & Hsz & _ & _ & Hs & _). exists (forallb (le_in r) l).
  split; [|by apply forallb_clock_le]. unfold vc_lte. rewrite Hsz, Nat2Z.id.
  apply (lte_loop_ok v w r l [] 0); [done|done|intros; lia].
Qed.

(** ** The minimum *)

Definition zero_below (t : Z) (x : VCElem) : VCElem := if threadid x <? t then Elem (threadid x) 0 else x.

(** What one round of [vc_min] makes of an element. *)
Definition min1 (y x : VCElem) : VCElem :=
  if threadid x <? threadid y then Elem (threadid x) 0
  else if threadid x =? threadid y then Elem (threadid x) (Z.min (count x) (count y)) else x.

Definition min_all (l r : list VCElem) : list VCElem := foldl (fun l y => min1 y <$> l) l r.

Lemma same_tids_sorted l l' : tids l' = tids l -> sorted l -> sorted l'.
Proof. unfold sorted. by intros ->. Qed.

Lemma pos_same_tids t l l' : tids l' = tids l -> pos t l' = pos t l.
Proof.
  revert l'. induction l as [|x l IH]; intros [|x' l'] H; try done. unfold tids in *. simpl in *.
  injection H as -> H. by rewrite (IH l').
Qed.

Lemma tids_set l k x c : l !! k = Some x -> tids (<[k := Elem (threadid x) c]> l) = tids l.
Proof.
  intros Hx. unfold tids. rewrite list_fmap_insert. simpl. rewrite list_insert_id; [done|].
  by rewrite list_lookup_fmap, Hx.
Qed.

Lemma tids_min1 y l : tids (min1 y <$> l) = tids l.
Proof.
  unfold tids. rewrite <- list_fmap_compose. apply list_fmap_ext. intros i x _. unfold compose, min1.
  by repeat case_bool.
Qed.

Lemma counts_min1 y l : counts_ok l -> 0 <= count y <= UINT_MAX -> counts_ok (min1 y <$> l).
Proof.
  unfold counts_ok. rewrite Forall_fmap. intros Hl Hy. eapply Forall_impl; [exact Hl|].
  intros x Hx. unfold compose, min1. unfold UINT_MAX in *. repeat case_bool; simpl; lia.
Qed.

(** The elements before [i] are cleared already. *)
Definition cleared (l : list VCElem) (i : nat) : Prop := ∀ k x, (k < i)%nat -> l !! k = Some x -> count x = 0.

Lemma zero_below_done l t : sorted l -> cleared l (pos t l) -> zero_below t <$> l = l.
Proof.
  intros Hs Hc. rewrite <- (list_fmap_id l) at 2. apply list_fmap_ext. intros k x Hx. unfold zero_below, id.
  destruct (Z.ltb_spec (threadid x) t); [|done]. destruct (decide (k < pos t l)%nat) as [Hlt|Hge].
  - rewrite <- (Hc k x Hlt Hx). by destruct x.
  - exfalso. destruct (lookup_lt_is_Some_2 l (pos t l)) as [y Hy]; [apply lookup_lt_Some in Hx; lia|].
    pose proof (pos_at t l y Hy). destruct (decide (k = pos t l)) as [->|].
    + rewrite Hx in Hy. injection Hy as ->. lia.
    + pose proof (sorted_lookup l (pos t l) k y x Hs ltac:(lia) Hy Hx). lia.
Qed.

Lemma clear_below_ok fuel tid : ∀ v l i,
  holds v l -> (i <= pos tid l)%nat -> (pos tid l - i <= fuel)%nat -> cleared l i ->
  ∃ v', clear_below fuel v (Z.of_nat i) tid = Ret (v', Z.of_nat (pos tid l)) ∧ holds v' (zero_below tid <$> l).
Proof.
  induction fuel as [|fuel IH]; intros v l i Hv Hi Hf Hc; pose proof Hv as (_ & Hsz & _ & _ & Hs & _);
    pose proof (pos_le tid l); cbn [clear_below]; rewrite Hsz.
  - assert (i = pos tid l) as -> by lia. exists v. rewrite zero_below_done by done. case_bool; [|done].
    destruct (lookup_lt_is_Some_2 l (pos tid l)) as [x Hx]; [lia|].
    rewrite (holds_get v l _ x) by done. cbn [mbind outcome_bind]. pose proof (pos_at tid l x Hx).
    by rewrite (proj2 (Z.ltb_ge _ _)).
  - destruct (Z.ltb_spec (Z.of_nat i) (Z.of_nat (length l)));
      [|assert (i = pos tid l) as -> by lia; exists v; by rewrite zero_below_done].
    destruct (lookup_lt_is_Some_2 l i) as [x Hx]; [lia|].
    rewrite (holds_get v l _ x) by done. cbn [mbind outcome_bind].
    destruct (decide (i < pos tid l)%nat) as [Hlt|Hge].
    + pose proof (pos_below tid l i x Hx Hlt). rewrite (proj2 (Z.ltb_lt _ _)) by done.
      destruct (holds_set v l i (Elem (threadid x) 0)) as (v1 & -> & Hv1 & _);
        [done|lia|by apply set_count_sorted|unfold UINT_MAX; simpl; lia|]. cbn [mbind outcome_bind].
      pose proof (pos_same_tids tid _ _ (tids_set l i x 0 Hx)) as Hp.
      destruct (IH v1 _ (S i) Hv1) as (v' & He & Hv'); [rewrite Hp; lia|rewrite Hp; lia| |].
      { intros k z Hk Hz. destruct (decide (k = i)) as [->|].
        - rewrite list_lookup_insert_eq in Hz by lia. by injection Hz as <-.
        - rewrite list_lookup_insert_ne in Hz by done. by apply (Hc k z); [lia|]. }
      exists v'. replace (Z.of_nat i + 1) with (Z.of_nat (S i)) by lia. rewrite He, Hp. split; [done|].
      rewrite list_fmap_insert in Hv'. rewrite list_insert_id in Hv'; [done|]. rewrite list_lookup_fmap, Hx. simpl. f_equal.
      unfold zero_below. simpl. by rewrite (proj2 (Z.ltb_lt _ _)).
    + assert (i = pos tid l) as -> by lia. pose proof (pos_at tid l x Hx). rewrite (proj2 (Z.ltb_ge _ _)) by done.
      exists v. by rewrite zero_below_done.
Qed.

Lemma min1_zero_below y z : threadid z ≠ threadid y -> min1 y z = zero_below (threadid y) z.
Proof. intros H. unfold min1, zero_below. by rewrite (proj2 (Z.eqb_neq _ _) H). Qed.

Lemma min1_set l p x y :
  sorted l -> l !! p = Some x -> threadid x = threadid y ->
  min1 y <$> l = <[p := Elem (threadid x) (Z.min (count x) (count y))]> (zero_below (threadid y) <$> l).
Proof.
  intros Hs Hx E. pose proof (lookup_lt_Some _ _ _ Hx). apply list_eq. intros k. destruct (decide (k = p)) as [->|Hne].
  - rewrite list_lookup_insert_eq by (by rewrite length_fmap). rewrite list_lookup_fmap, Hx. simpl. unfold min1.
    by rewrite E, Z.ltb_irrefl, Z.eqb_refl.
  - rewrite list_lookup_insert_ne, !list_lookup_fmap by done. destruct (l !! k) as [z|] eqn:Hz; [|done]. simpl. f_equal.
    apply min1_zero_below. destruct (decide (k < p)%nat).
    + pose proof (sorted_lookup l k p z x Hs ltac:(lia) Hz Hx). lia.
    + pose proof (sorted_lookup l p k x z Hs ltac:(lia) Hx Hz). lia.
Qed.

(** Elements below all of [r] are cleared once and for all. *)
Lemma min_all_zero l r :
  Forall (fun x => count x = 0 ∧ Forall (fun y => threadid x < threadid y) r) l -> min_all l r = l.
Proof.
  intros H. induction r as [|y r IH]; [done|]. unfold min_all in *. simpl.
  assert (min1 y <$> l = l) as ->.
  { rewrite <- (list_fmap_id l) at 2. apply Forall_fmap_ext_1. eapply Forall_impl; [exact H|]. cbv beta.
    intros [t c] [Hz Hy]. apply Forall_cons in Hy as [Hy _]. simpl in *. unfold min1, id. simpl.
    by rewrite (proj2 (Z.ltb_lt _ _)), Hz. }
  apply IH. eapply Forall_impl; [exact H|]. cbv beta. intros x [Hz Hy]. apply Forall_cons in Hy as [_ Hy]. done.
Qed.

(** One round that does not leave the loop. *)
Lemma min_round v l y x :
  holds v (zero_below (threadid y) <$> l) -> sorted l -> counts_ok l -> 0 <= count y <= UINT_MAX ->
  l !! pos (threadid y) l = Some x ->
  ∃ v', (if threadid x <=? threadid y then
           _ ← vg_assert (threadid x =? threadid y);
           if count y <? count x then vc_set v (Z.of_nat (pos (threadid y) l)) (Elem (threadid x) (count y)) else Ret v
         else Ret v) = Ret v' ∧ holds v' (min1 y <$> l) ∧ cleared (min1 y <$> l) (pos (threadid y) l).
Proof.
  intros Hv Hs Hco Hy Hx. set (p := pos (threadid y) l) in *. pose proof (pos_at _ _ _ Hx) as Hge.
  pose proof (lookup_lt_Some _ _ _ Hx) as Hlt.
  assert (Hcl : cleared (min1 y <$> l) p).
  { intros k z Hk Hz. rewrite list_lookup_fmap in Hz. destruct (l !! k) as [z'|] eqn:Ez; [|done].
    injection Hz as <-. pose proof (pos_below _ _ _ _ Ez Hk). unfold min1. by rewrite (proj2 (Z.ltb_lt _ _)). }
  destruct (Z.leb_spec (threadid x) (threadid y)).
  - assert (E : threadid x = threadid y) by lia. rewrite vg_assert_true by lia. cbn [mbind outcome_bind].
    assert (Hzx : (zero_below (threadid y) <$> l) !! p = Some x).
    { rewrite list_lookup_fmap, Hx. simpl. unfold zero_below. by rewrite (proj2 (Z.ltb_ge _ _)). }
    pose proof (min1_set l p x y Hs Hx E) as Hm. destruct (Z.ltb_spec (count y) (count x)).
    + rewrite Z.min_r in Hm by lia. pose proof Hv as (_ & _ & _ & _ & Hs1 & _).
      destruct (holds_set v _ p (Elem (threadid x) (count y)) Hv) as (v' & -> & Hv' & _);
        [by rewrite length_fmap|by apply set_count_sorted|done|]. exists v'. rewrite Hm. split; [done|]. split; [done|].
      by rewrite <- Hm.
    + exists v. rewrite Z.min_l in Hm by lia. replace (Elem (threadid x) (count x)) with x in Hm by (by destruct x).
      rewrite list_insert_id in Hm by done. rewrite Hm. split; [done|]. split; [done|]. by rewrite <- Hm.
  - exists v. split; [done|]. split; [|done].
    assert (min1 y <$> l = zero_below (threadid y) <$> l) as ->; [|done].
    apply list_fmap_ext. intros k z Hz. apply min1_zero_below. intros Ez.
    assert (threadid y ∈ tids l) as Hin by (rewrite <- Ez; apply list_elem_of_fmap_2; by apply list_elem_of_lookup_2 in Hz).
    apply (pos_found l _ x Hs Hx) in Hin. lia.
Qed.

Lemma min_loop_ok w r2 : ∀ r1 v l i,
  holds w (r1 ++ r2) -> holds v l -> (∀ y, y ∈ r2 -> (i <= pos (threadid y) l)%nat) -> cleared l i ->
  ∃ v', min_loop (length r2) w v (Z.of_nat i) (Z.of_nat (length r1)) = Ret v' ∧ holds v' (min_all l r2).
Proof.
  induction r2 as [|y r2 IH]; intros r1 v l i Hw Hv Hi Hc; [by exists v|].
  assert (Hy : (r1 ++ y :: r2) !! length r1 = Some y) by (by rewrite lookup_app_r, Nat.sub_diag).
  pose proof Hw as (_ & _ & _ & _ & Hs & Hco). pose proof Hv as (_ & Hsz & _ & _ & Hls & Hlc).
  pose proof (Forall_lookup_1 _ _ _ _ Hco Hy) as Hcy. cbv beta in Hcy.
  assert (Hafter : ∀ y', y' ∈ r2 -> threadid y < threadid y').
  { intros y' (k & Hk)%list_elem_of_lookup.
    apply (sorted_lookup (r1 ++ y :: r2) (length r1) (length r1 + S k)); [done|lia|done|].
    rewrite lookup_app_r by lia. by replace (length r1 + S k - length r1)%nat with (S k) by lia. }
  cbn [min_loop length]. rewrite (holds_get w _ _ y Hw Hy). cbn [mbind outcome_bind].
  pose proof (pos_le (threadid y) l). destruct (clear_below_ok (Z.to_nat (size v)) (threadid y) v l i) as (v1 & -> & Hv1);
    [done|apply Hi; by left|lia|done|]. cbn [mbind outcome_bind]. pose proof Hv1 as (_ & Hsz1 & _).
  rewrite length_fmap in Hsz1. rewrite Hsz1. change (min_all l (y :: r2)) with (min_all (min1 y <$> l) r2).
  destruct (Z.leb_spec (Z.of_nat (length l)) (Z.of_nat (pos (threadid y) l))).
  - exists v1. split; [done|].
    assert (Hbelow : ∀ z, z ∈ l -> threadid z < threadid y).
    { intros z (k & Hk)%list_elem_of_lookup. apply (pos_below _ l k z Hk). apply lookup_lt_Some in Hk. lia. }
    assert (min1 y <$> l = zero_below (threadid y) <$> l) as ->.
    { apply list_fmap_ext. intros k z Hz. apply min1_zero_below. pose proof (Hbelow z (list_elem_of_lookup_2 _ _ _ Hz)). lia. }
    rewrite min_all_zero; [done|]. apply Forall_fmap, Forall_forall. intros z Hz. pose proof (Hbelow z Hz). unfold compose, zero_below.
    rewrite (proj2 (Z.ltb_lt _ _)) by done. split; [done|]. apply Forall_forall. intros y' Hy'%Hafter. simpl. lia.
  - destruct (lookup_lt_is_Some_2 l (pos (threadid y) l)) as [x Hx]; [lia|].
    pose proof (pos_at _ l x Hx). rewrite (holds_get v1 _ _ x Hv1) by (rewrite list_lookup_fmap, Hx; simpl;
      unfold zero_below; by rewrite (proj2 (Z.ltb_ge _ _))).
    cbn [mbind outcome_bind].
    destruct (min_round v1 l y x Hv1 Hls Hlc Hcy Hx) as (v2 & -> & Hv2 & Hc2). cbn [mbind outcome_bind].
    replace (Z.of_nat (length r1) + 1) with (Z.of_nat (length (r1 ++ [y]))) by (rewrite length_app; simpl; lia).
    apply IH; [by rewrite <- app_assoc|done| |done]. intros y' Hy'. rewrite (pos_same_tids _ _ _ (tids_min1 y l)).
    apply pos_mono, Z.lt_le_incl. by apply Hafter.
Qed.

(** What all rounds together make of an element; [y] is the last one of the
    other clock. *)
Definition min_elem (last : option VCElem) (x : VCElem) : VCElem :=
  match last with None => x | Some y => min1 y x end.

Lemma min_all_last l r : sorted r -> min_all l r = min_elem (last r) <$> l.
Proof.
  induction r as [|y r IH] using rev_ind; intros Hs; [by rewrite list_fmap_id|].
  assert (Hr : sorted r).
  { revert Hs. clear. induction r as [|z r IH]; [constructor|]. cbn [app]. rewrite !tids_sorted_cons.
    intros [H1 H2]. split; [by apply IH|]. by apply Forall_app in H2 as [H2 _]. }
  unfold min_all in *. rewrite foldl_app. simpl. rewrite IH, last_snoc by done.
  rewrite <- list_fmap_compose. apply list_fmap_ext. intros _ x _. unfold compose, min_elem.
  destruct (last r) as [z|] eqn:Ez; [|done].
  assert (threadid z < threadid y) as Hzy.
  { apply last_Some in Ez as (r' & ->). apply (sorted_lookup _ (length r') (S (length r')) z y Hs); [lia| |].
    - rewrite <- app_assoc, lookup_app_r by lia. by rewrite Nat.sub_diag.
    - rewrite <- app_assoc, lookup_app_r by lia. by replace (S (length r') - length r')%nat with 1%nat by lia. }
  unfold min1. destruct (Z.ltb_spec (threadid x) (threadid z)); simpl.
  { by rewrite (proj2 (Z.ltb_lt _ _)) by lia. }
  destruct (Z.eqb_spec (threadid x) (threadid z)); simpl; [|done]. by rewrite !(proj2 (Z.ltb_lt _ _)) by lia.
Qed.

Lemma min_ok v w l r :
  holds v l -> holds w r -> ∃ v', vc_min v w = Ret v' ∧ holds v' (min_elem (last r) <$> l).
Proof.
  intros Hv Hw. pose proof Hw as (_ & Hwz & _ & _ & Hr & _).
  unfold vc_min. rewrite (vc_check_ok v l Hv). cbn [mbind outcome_bind]. rewrite Hwz, Nat2Z.id.
  destruct (min_loop_ok w r [] v l 0) as (v' & He & Hv'); [done|done|intros; lia|intros ? ? ?; lia|].
  change (Z.of_nat (length [])) with 0 in He. change (Z.of_nat 0) with 0 in He. rewrite He. cbn [mbind outcome_bind].
  rewrite min_all_last in Hv' by done. rewrite (vc_check_ok v' _ Hv'). by exists v'.
Qed.

Lemma clk_fmap f l t :
  (∀ x, threadid (f x) = threadid x) -> clk (f <$> l) t = (fun x => count (f x)) <$> find (fun x => threadid x =? t) l.
Proof.
  intros Hf. induction l as [|x l IH]; [done|]. simpl. rewrite Hf.
  destruct (Z.eqb_spec (threadid x) t); [by rewrite decide_True|by rewrite decide_False].
Qed.

(** A copy holds the same elements in memory of its own. *)
Lemma assign_ok lhs rhs l r :
  holds lhs l -> holds rhs r -> ∃ v, vc_assign lhs rhs = Ret v ∧ holds v r.
Proof.
  intros Hl Hr. unfold vc_assign. rewrite (cleanup_ok lhs l Hl). cbn [mbind outcome_bind preallocated].
  pose proof Hl as ((Hp & _) & _). pose proof Hr as ((_ & Hv) & Hsz & Hc & (rest & Hcells) & Hs & Hco).
  destruct (init_ok (preallocated lhs) r Hp Hs Hco ltac:(lia)) as (v & Hv' & Hh). unfold vc_copy. rewrite Hsz.
  destruct (is_null (vc rhs)) eqn:En.
  - destruct r as [|x r]; [|by rewrite (holds_not_null rhs _ Hr) in En].
    exists (Clock 0 0 Null (preallocated lhs)). split; [done|].
    repeat split; simpl; try done; by exists [].
  - exists v. split; [|done]. rewrite Hcells. apply Hv'.
Qed.

(** [vc_cleanup] leaves [size] alone: what it returns is not the empty clock and
    fails [vc_check] unless it was empty before. *)
Lemma cleanup_keeps_size v l :
  holds v l -> l ≠ [] -> ∃ v', vc_cleanup v = Ret v' ∧ size v' = size v ∧ vc_check v' = Fault AssertFail.
Proof.
  intros Hv Hl. eexists. split; [by apply (cleanup_ok v l)|]. split; [done|]. destruct Hv as (_ & Hsz & _).
  unfold vc_check. simpl. rewrite (proj2 (Z.leb_gt _ _)); [done|]. destruct l; [done|]. simpl in Hsz. lia.
Qed.

(** * Properties *)

(** C17: [vc_combine] never fails one of its assertions, keeps the clock sorted,
    and computes the pointwise maximum: the least clock above both in the
    happens-before order. *)
Theorem vc_combine_join v w l r :
  holds v l -> holds w r -> Z.of_nat (length l + length r) <= UINT_MAX ->
  ∃ v' l', vc_combine v w = Ret v' ∧ holds v' l' ∧ (∀ t, clk l' t = join (clk l t) (clk r t)) ∧
    clock_le l l' ∧ clock_le r l' ∧ ∀ m, clock_le l m -> clock_le r m -> clock_le l' m.
Proof.
  intros Hv Hw Hmax. destruct (combine_ok v w l r Hv Hw Hmax) as (v' & He & Hv').
  pose proof Hv as (_ & _ & _ & _ & Hl & _). pose proof Hw as (_ & _ & _ & _ & Hr & _).
  exists v', (merge l r). split; [done|]. split; [done|].
  assert (Hclk : ∀ t, clk (merge l r) t = join (clk l t) (clk r t)) by (intros; by apply clk_merge).
  split; [done|]. unfold clock_le. setoid_rewrite Hclk. split; [|split].
  - intros t c ->. destruct (clk r t) as [c'|]; simpl; eexists; split; try done; lia.
  - intros t c ->. destruct (clk l t) as [c'|]; simpl; eexists; split; try done; lia.
  - intros m Hlm Hrm t c Hj. destruct (clk l t) as [a|] eqn:Ea, (clk r t) as [b|] eqn:Eb; simplify_eq/=.
    + destruct (Hlm t a Ea) as (x & Hx & ?), (Hrm t b Eb) as (y & Hy & ?). exists x. split; [done|].
      rewrite Hx in Hy. injection Hy as ->. lia.
    + by apply Hlm.
    + by apply Hrm.
Qed.

(** C18: [vc_lte] decides the happens-before order (every thread of the first
    clock is in the second with at least its count), and [vc_ordered] whether
    the clocks are comparable. *)
Theorem vc_lte_decides v w l r :
  holds v l -> holds w r ->
  (∃ b, vc_lte v w = Ret b ∧ (b = true <-> clock_le l r)) ∧
  (∃ b, vc_ordered v w = Ret b ∧ (b = true <-> clock_le l r ∨ clock_le r l)).
Proof.
  intros Hv Hw. destruct (lte_ok v w l r Hv Hw) as (b & Hb & Hle), (lte_ok w v r l Hw Hv) as (b' & Hb' & Hle').
  split; [by exists b|]. unfold vc_ordered. rewrite Hb. cbn [mbind outcome_bind]. destruct b.
  - exists true. tauto.
  - exists b'. split; [done|]. rewrite Hle'. split; [tauto|]. intros [H|H]; [by apply Hle in H|done].
Qed.

(** [vc_increment] adds one to the count of the thread, or adds the thread
    with count 1, leaves the other threads alone, and fails its assertion
    exactly when the count is the largest [UInt]. *)
Theorem vc_increment_counts mem v l tid :
  length mem = Z.to_nat VC_PREALLOCATED -> holds v l -> Z.of_nat (length l) < UINT_MAX ->
  (clk l tid = Some UINT_MAX -> vc_increment mem v tid = Fault AssertFail) ∧
  (clk l tid ≠ Some UINT_MAX -> ∃ v' l', vc_increment mem v tid = Ret v' ∧ holds v' l' ∧
     ∀ t, clk l' t = if decide (t = tid) then Some (default 0 (clk l tid) + 1) else clk l t).
Proof.
  intros Hm Hv Hmax. pose proof (increment_ok mem v l tid Hm Hv Hmax) as H. destruct (clk l tid) as [c|].
  - destruct (decide (c = UINT_MAX)) as [->|Hne]; [done|]. split; [congruence|]. intros _. exact H.
  - split; [done|]. intros _. exact H.
Qed.

(** [vc_min] is not the elementwise minimum: it clears the count of every
    thread below the last one of the other clock, takes the minimum at that
    thread, and leaves later threads (whose count in the other clock is 0)
    unchanged. *)
Theorem vc_min_clears v w l r :
  holds v l -> holds w r ->
  ∃ v' l', vc_min v w = Ret v' ∧ holds v' l' ∧ tids l' = tids l ∧
    ∀ t c, clk l t = Some c ->
      clk l' t = Some (match last r with
                       | None => c
                       | Some y => if t <? threadid y then 0 else if t =? threadid y then Z.min c (count y) else c
                       end).
Proof.
  intros Hv Hw. destruct (min_ok v w l r Hv Hw) as (v' & He & Hv').
  assert (Hf : ∀ x, threadid (min_elem (last r) x) = threadid x).
  { intros x. destruct (last r); [|done]. simpl. unfold min1. by repeat case_bool. }
  exists v', (min_elem (last r) <$> l). split; [done|]. split; [done|]. split.
  { unfold tids. rewrite <- list_fmap_compose. apply list_fmap_ext. intros _ x _. apply Hf. }
  intros t c Hc. rewrite clk_fmap by done. rewrite <- (list_fmap_id l), clk_fmap in Hc by done.
  destruct (find _ l) as [x|] eqn:Ef; [|done]. apply find_some in Ef as [_ Ex%Z.eqb_eq]. injection Hc as <-. simpl. f_equal.
  unfold min_elem, id. destruct (last r) as [y|]; [|done]. unfold min1. rewrite Ex. by repeat case_bool.
Qed.

(** * Witnesses *)

Definition no_cells : list (option VCElem) := replicate 8 None.

Definition clock_of (l : list VCElem) : VectorClock :=
  Clock 4 (Z.of_nat (length l)) Pre ((Some <$> l) ++ replicate (8 - length l) None).

Definition clock_a : list VCElem := [Elem 1 5; Elem 2 7].
Definition clock_b : list VCElem := [Elem 1 3; Elem 2 4; Elem 9 1].

Lemma clock_a_ok : holds (clock_of clock_a) clock_a.
Proof.
  split; [split; [done|unfold VC_PREALLOCATED; simpl; lia]|]. split; [done|]. split; [unfold UINT_MAX; simpl; lia|].
  split; [by eexists|]. split; [repeat (constructor; try done)|repeat (constructor; try (unfold UINT_MAX; simpl; lia))].
Qed.

Lemma clock_b_ok : holds (clock_of clock_b) clock_b.
Proof.
  split; [split; [done|unfold VC_PREALLOCATED; simpl; lia]|]. split; [done|]. split; [unfold UINT_MAX; simpl; lia|].
  split; [by eexists|]. split; [repeat (constructor; try done)|repeat (constructor; try (unfold UINT_MAX; simpl; lia))].
Qed.

Lemma vc_combine_join_witness :
  ∃ v' l', vc_combine (clock_of clock_a) (clock_of clock_b) = Ret v' ∧ holds v' l' ∧
    clk l' 1 = Some 5 ∧ clk l' 9 = Some 1.
Proof.
  destruct (vc_combine_join _ _ _ _ clock_a_ok clock_b_ok) as (v' & l' & He & Hv & Hc & _); [vm_compute; discriminate|].
  exists v', l'. split; [exact He|]. split; [exact Hv|]. split; rewrite Hc; reflexivity.
Defined.

Lemma vc_lte_decides_witness :
  ∃ b, vc_lte (clock_of clock_a) (clock_of clock_b) = Ret b ∧ (b = true <-> clock_le clock_a clock_b).
Proof. apply (proj1 (vc_lte_decides _ _ _ _ clock_a_ok clock_b_ok)). Defined.

Lemma vc_increment_counts_witness :
  ∃ v' l', vc_increment no_cells (clock_of clock_a) 2 = Ret v' ∧ holds v' l' ∧ clk l' 2 = Some 8.
Proof.
  destruct (vc_increment_counts no_cells (clock_of clock_a) clock_a 2 eq_refl clock_a_ok) as [_ H]; [reflexivity|].
  destruct H as (v' & l' & He & Hv & Hc); [discriminate|]. exists v', l'. split; [exact He|]. split; [exact Hv|].
  rewrite Hc. reflexivity.
Defined.

(** The minimum of [{1:5, 2:7}] and [{1:3, 2:4, 9:1}] would be [{1:3, 2:4}]. *)
Lemma vc_min_clears_witness :
  ∃ v' l', vc_min (clock_of clock_a) (clock_of clock_b) = Ret v' ∧ holds v' l' ∧
    clk l' 1 = Some 0 ∧ clk l' 2 = Some 0.
Proof.
  destruct (vc_min_clears _ _ _ _ clock_a_ok clock_b_ok) as (v' & l' & He & Hv & _ & Hc).
  exists v', l'. split; [exact He|]. split; [exact Hv|].
  split; [rewrite (Hc 1 5 eq_refl); reflexivity|rewrite (Hc 2 7 eq_refl); reflexivity].
Defined.
